(* ===== verification/_CoqProject ===== *)
-Q . S2P
Prelude.v
PosSet.v
BitmapSet.v
Re.v
Cursor.v
FastInstr.v
FastVM.v
FastSpec.v
FastVMCorrect.v
FastVMRun.v
FastVMProps.v
Atoms.v
Quality.v
ByteClass.v
PikeInstr.v
PikeSeq.v
PikeVM.v
Hir.v
HirProps.v
Hex2Hir.v
PikeAtoms.v
PikeAtomsProps.v
Visit.v
PikeClosure.v
PikeRun.v
PikeExact.v
PikeCompiler.v
PikeCodegen.v
PikeEmit.v
PikeTraverse.v
PikeBranches.v
PikeVisit.v
PikeCompileProps.v
PikeFragments.v
PikeMatches.v
PikeWired.v
PikeScans.v
PikeLimits.v
FastCompiler.v
FastSplit.v
FastCompilerProps.v
Matches.v
StringPool.v
ScanVerify.v
ScanVerifyProps.v
Base64.v
Base64Props.v
Rules.v
Tracker.v
ChainProps.v
Scan.v
PatternCompiler.v
CompilerProps.v
Float64.v
Types.v
IR.v
IRBuild.v
IRDfs.v
IRDfsProps.v
IRBounds.v
AstPatterns.v
Builtins.v
Eval.v
IRBoundsProps.v
EvalProps.v
IRBuildProps.v
IRFold.v
EvalTypes.v
Wasm.v
RuntimeString.v
Host.v
Emit.v
EmitExpr.v
WasmProps.v
EmitRel.v
EmitOps.v
EmitNodes.v
EmitFor.v
EmitLoops.v
EmitCorrect.v
