(* ===== verification/Prelude.v ===== *)
(** Verification library of the core of YARA-X: patterns, scan and conditions.

    * The program

    A YARA rule declares patterns: literals, hexadecimal patterns and regular
    expressions. [lib/src/re] turns each regular expression into an expression
    tree (module [hir]), splits it at the large gaps into a chain of smaller
    ones, and compiles every piece into code for one of two virtual machines:
    the fast one ([re/fast]), for sequences of literals, masked literals, jumps
    and flat alternations, and the Pike machine ([re/thompson]), for everything
    else. [lib/src/compiler/atoms] extracts from every pattern some short
    byte strings, the atoms; the scanner looks for the atoms in the data and at
    each hit runs the code of the pattern from the location that goes with the
    atom, forward and backward. The matches found are kept in the lists of
    [lib/src/scanner/matches.rs]; those of the pieces of a chain are confirmed
    together.

    The condition of the rule is an expression over those matches, the size of
    the file and its bytes. [lib/src/compiler/ir] keeps it in a tree, folds its
    constants and derives from it what the file must satisfy;
    [lib/src/compiler/emit.rs] emits WebAssembly for it, which calls functions of
    [lib/src/wasm] that the scanner exports.

    * The files, and the code that they model

    - [Prelude]: outcomes of Rust code ([Ret], [Panic], [OutOfFuel]), machine
      integers, ranges, shared lemmas and tactics, the class for [memchr].
    - [PosSet], [BitmapSet]: [re/bitmapset.rs], the set of positions of the fast
      machine: positions near the first one are bits of two bit vectors. [PosSet]
      has the interface to its clients, and the one of bit vectors.
    - [Re]: [re/mod.rs], code locations and the iterator over wide characters.
    - [Cursor], [FastInstr]: [re/fast/instr.rs] and the [InstrSeq] of
      [re/fast/compiler.rs], the instructions as bytes and back.
    - [FastVM]: [re/fast/fastvm.rs]. [FastSpec], [FastVMCorrect], [FastVMRun] and
      [FastVMProps]: what a sequence of pieces matches, and the theorems.
    - [Atoms], [Quality]: [compiler/atoms/mod.rs], [mask.rs], [quality.rs], and
      the atoms with code locations of [re/mod.rs].
    - [ByteClass], [Hir], [HirProps]: [re/hir.rs] and the class of a masked byte
      of [compiler/ir/hex2hir.rs]. [Hex2Hir]: the rest of that file, the
      expressions of hexadecimal patterns.
    - [Visit]: the visitor of expression trees, shared by the two compilers.
    - [FastCompiler], [FastSplit], [FastCompilerProps]: [re/fast/compiler.rs].
    - [PikeInstr], [PikeSeq]: [re/thompson/instr.rs] and the [InstrSeq] of
      [re/thompson/compiler.rs], with the code as a list of items.
    - [PikeVM], [PikeClosure], [PikeRun], [PikeExact]: [re/thompson/pikevm.rs].
    - [PikeAtoms], [PikeCompiler]: the atoms and the code of
      [re/thompson/compiler.rs].
    - [PikeAtomsProps] to [PikeScans]: the proof that the Pike compiler is
      correct. [PikeCodegen] is the code of an expression as a function;
      [PikeEmit], [PikeTraverse], [PikeBranches], [PikeVisit] and
      [PikeCompileProps] prove that the compiler emits it; [PikeFragments],
      [PikeMatches], [PikeWired] and [PikeScans], that the machine runs it and
      reports the matches of the expression.
    - [PikeLimits]: patterns that the Pike compiler and machine do not treat as
      they mean to.
    - [Matches]: [scanner/matches.rs].
    - [StringPool]: the pool of byte strings of [string_pool.rs].
    - [ScanVerify], [Base64], [Tracker], [Scan], with [ScanVerifyProps],
      [Base64Props] and [ChainProps]: [scanner/context.rs], what happens at each
      hit of an atom, the tracking of matches and the confirmation of chains;
      [Base64] also has [compiler/base64.rs].
    - [Rules], [PatternCompiler], [CompilerProps]: the sub-patterns, atoms and
      constraints of [compiler/rules.rs], and the compilation of the patterns of
      a rule in [compiler/mod.rs].
    - [AstPatterns]: the patterns of a rule from its syntax tree, of
      [compiler/ir/ast2ir.rs].
    - [Float64]: [f64], on the specification of IEEE 754 of the Standard Library.
    - [Types], [IR], [IRBuild], [IRDfs], [IRBounds]: [types/mod.rs] and
      [compiler/ir]: types and values, the tree of a condition, its construction
      with the folding of constants, its traversal, the hoisting of expressions
      out of loops, and the bounds and constraints derived from it. [IRDfsProps],
      [IRBuildProps], [IRFold] and [IRBoundsProps] have their theorems.
    - [Builtins], [RuntimeString], [Host]: the functions that conditions call, of
      [wasm/mod.rs] and [wasm/string.rs].
    - [Eval], [EvalProps], [EvalTypes]: a reference semantics of conditions, and
      their types. It is the specification of the emission: values, undefined
      values and traps as the outcome of each expression.
    - [Wasm], [WasmProps]: the instructions of WebAssembly that are emitted, as a
      machine that runs structured code, and the rules to reason about it.
    - [Emit], [EmitExpr]: [compiler/emit.rs], as functions that return the
      instructions appended, in a monad with the [EmitContext].
    - [EmitRel] to [EmitCorrect]: the emitted code implements the reference
      semantics. [EmitRel] relates the machine and the environment; [EmitOps] is
      about variables and exceptions, [EmitNodes] about expressions without
      variables of their own, [EmitFor] and [EmitLoops] about switches and loops,
      and [EmitCorrect] about whole conditions.

    Definitions have the names of the code; where the code uses one name twice,
    the name is qualified by what it belongs to ([seq_new], [fastvm_new]). A
    method that changes its receiver returns the new one. Panics of the code
    and reads out of range of unchecked code are the outcome [Panic]; integers
    are in [Z] and wrap where the code computes with them at their width without
    a proof that they fit.

    Debug assertions are panics too, but for these, which are not in the
    definitions. The one of every builder of [compiler/ir/mod.rs], that there
    are as many parents as nodes, is part of the invariant
    [IRBuildProps.built_tree]. The lengths of a literal and its mask
    ([re/hir.rs] line 278, [re/fast/fastvm.rs] lines 463 and 517) are equal
    because both come from the same loop or the same length in the code. The
    number of alternatives ([re/fast/compiler.rs] line 558,
    [re/thompson/compiler.rs] line 565) is checked when the alternation is
    visited. The chunks and the bookmarks that [reverse_backward_code_chunks]
    takes ([re/thompson/compiler.rs] line 320) are as many as it is told, or
    taking them panics before; that operands are not empty
    ([compiler/ir/mod.rs] line 2336) is implied by the panic of the code that
    follows. Line 1152 of that file is about constants.

    * Theorems

    - Sets: [insert] and [clear] against a set of keys, with their panics.
    - Codecs: what the emitters write is what the decoders read, for both
      instruction sets; identifiers of splits are unique.
    - Machines: the fast machine reports exactly the matches of the pieces, in
      both directions; the Pike machine reports exactly the lengths that the
      automaton of the code accepts; closures and scans end; the fast paths of
      both machines change nothing.
    - Patterns: the split at the gaps keeps the matches, the code of the fast
      compiler has the matches of the expression, and every match of a pattern
      contains one of its atoms.
    - From the syntax tree: the expression of a hexadecimal pattern matches what
      its tokens mean, and which patterns are rejected; a text pattern that is
      accepted is compiled without panicking; the patterns of a rule are what its
      declarations say.
    - Compilation of patterns: the code that the Pike compiler emits reports
      exactly the matches of the expression, in both directions; the rules
      compiled keep the tables of the compiler consistent, and a rule with
      errors is undone.
    - Hits: the verification of literals, XORed and base64 strings is exact, and
      chains are confirmed exactly when all their pieces are at the right
      distances. Equality of patterns is that of the code, which ignores whether
      an expression is known to be greedy ([PatternCompiler.Pattern_equiv]).
    - Conditions: the tree is well formed; its traversal gives the events of the
      recursive traversal of the parts of each expression ([IRDfsProps.parts]),
      but for the percentage of a quantifier, that it does not visit, and the
      items of an [of] over expressions, that it visits from the last to the
      first; folding constants keeps the value of the condition; the bounds and
      constraints derived from a condition follow from it; conditions with the
      right types are never stuck.
    - Emission: the code of a condition gives its value and always ends
      ([EmitCorrect.emitted_condition_correct], [EmitCorrect.emitted_condition_ends]),
      for the conditions that [EvalTypes.typed] and [EmitCorrect.framed] accept,
      once the search for patterns is done. [framed] excludes whole kinds of
      expressions ([EmitCorrect.covered] lists those that it admits): regular
      expressions and [matches], fields of structures, indexing, references to
      other rules, loops over arrays and maps, and calls other than those that
      read an integer. The reference semantics takes the values of these from
      outside, so there is nothing to compare their code with. Besides, loops
      are over at least one and at most 2^31 - 1 items, the variables of loops
      and of [with] are below 64 and distinct from those in use, and the number
      of an [of] over a single range of patterns is a constant of at least 1.
      [EmitCorrect] has runs that differ from the reference semantics for
      variables that clash and for such an [of] of zero.
    - Lists of matches: order, uniqueness, ranges, memory accounting.
    - Counterexamples: the cases where the code does something else, each one
      with a finding in the manifest.

    * Fuel and bounds

    The loops of the source that are not structural take a fuel. For the Pike
    machine [PikeRun.vm_fuel] computes a fuel that is always enough
    ([PikeRun.vm_fuel_enough]), so that [OutOfFuel] is excluded by theorems and
    not assumed away; the other loops are bounded by the length of the data or of
    the code, and their theorems say that they return. The fuel of [Eval.eval],
    [EvalTypes.typed] and [EmitExpr.emit_expr] bounds the depth of the
    expression, and the number of expressions of the tree is enough
    ([EvalProps]). The fuel of [Wasm.exec] bounds the steps of the machine: the
    postconditions of [WasmProps.runs] say that some fuel is enough, and more
    gives the same result ([WasmProps.exec_mono]).

    * Parameters

    The crates that the code calls are type classes with laws, each with a
    concrete instance that the witnesses use: bit vectors ([BitVec], and
    [BitSlice] and [BitSliceSet] for bit arrays over bytes), [memchr]
    ([Memchr]), [itertools] ([Itertools]), the growth of vectors ([VecGrowth]),
    base64 ([Base64]), interned strings ([SymbolTable]), searches in byte
    strings ([ByteStrings]), and [regex_syntax]: the traversal ([HirVisit]), sets
    of bytes and properties of expressions ([RegexSyntax], [ClassBytesOps],
    [AlternationLiteral]), the literal extractor and sequences of literals
    ([LiteralSyntax]), the constructors of expressions ([HexSyntax]), and the
    meaning of assertions and of Unicode classes ([HirSemantics]). The
    Aho-Corasick automaton is the record [Scan.AcAutomaton]. The parser of regular expressions, [re/parser.rs], is
    the class [RegexpParser]. Functions of modules, regular expressions in
    conditions and the expressions that read structures, arrays, maps and other
    rules are fields of [Eval.Scanned] and [Host.HostContext]; their code is
    emitted ([EmitExpr]), and the theorems about the emission exclude them.

    * Not modelled

    The conversion of the syntax tree to conditions
    ([compiler/ir/ast2ir.rs], after the patterns), which looks up the symbols of
    modules, and the one of regular expressions ([re/parser.rs]), which works on
    the tree of another crate; the hashes of expressions in [compiler/ir];
    the module that holds the functions of all the rules ([wasm/builder.rs], but
    for the check of a pattern) and its execution by wasmtime; symbol tables,
    structures and global variables; the search of atoms ([teddy], the
    Aho-Corasick automaton); the entry points of the scanner, with its
    time-outs; the parsers of file formats in [modules]; linters, reports and
    serialization; and the parser of rules, the formatter, the command line, the
    language server and the bindings. The wide mode of the fast machine is
    modelled, but its theorems are for scans that are not wide, with jumps whose
    counts have 16 bits ([FastVMProps] has a wide scan that panics). Sums of
    hexadecimal jumps that do not fit in 32 bits panic in the conversion; the
    theorems about the meaning of hexadecimal patterns exclude them
    ([Hex2Hir.hex_fits]), the one about their conversion does not. Offsets of
    runtime strings of 2^45 and more are read back with another sign, which
    [RuntimeString.runtime_string_roundtrip] states. *)

From stdpp Require Export base list gmap.
From Stdlib Require Export ZArith Lia Sorted.

#[global] Open Scope Z_scope.

(** * Outcomes of Rust code

    [Ret] is a normal return, [Panic] a panic (failed assertion, slice index
    out of range, [unreachable!], [unwrap] on [None]) or a read that the
    source performs unchecked and that would be out of range, and [OutOfFuel]
    says that the bound on the iterations of a loop was too small. *)
Inductive res (A : Type) : Type :=
  | Ret (a : A)
  | Panic
  | OutOfFuel.
Arguments Ret {A} a.
Arguments Panic {A}.
Arguments OutOfFuel {A}.

#[export] Instance res_ret : MRet res := fun A a => Ret a.
#[export] Instance res_bind : MBind res := fun A B f m =>
  match m with Ret a => f a | Panic => Panic | OutOfFuel => OutOfFuel end.
#[export] Instance res_fmap : FMap res := fun A B f m =>
  match m with Ret a => Ret (f a) | Panic => Panic | OutOfFuel => OutOfFuel end.

Definition or_panic {A} (o : option A) : res A :=
  match o with Some a => Ret a | None => Panic end.

(** [assert!(b)] *)
Definition assert (b : bool) : res unit := if b then Ret tt else Panic.

(** [for x in l { body }] with the state threaded through the body. *)
Fixpoint for_each {A St : Type} (l : list A) (body : A -> St -> res St) (s : St) : res St :=
  match l with
  | [] => Ret s
  | x :: l => s' ← body x s; for_each l body s'
  end.

(** The same loop for a body that may execute [return]: [(s, true)] says that
    the body returned, which ends the loop. *)
Fixpoint for_each_until {A St : Type} (l : list A) (body : A -> St -> res (St * bool)) (s : St)
  : res (St * bool) :=
  match l with
  | [] => Ret (s, false)
  | x :: l => '(s', stop) ← body x s;
              if stop : bool then Ret (s', true) else for_each_until l body s'
  end.

(** * Machine integers

    A Rust integer is a [Z] in the range of its type. *)
Definition u8_MAX : Z := 255.
Definition u16_MAX : Z := 65535.
Definition u32_MAX : Z := 4294967295.
Definition usize_MAX : Z := 18446744073709551615.
Definition i32_MIN : Z := -2147483648.
Definition i32_MAX : Z := 2147483647.
Definition i64_MIN : Z := -9223372036854775808.
Definition i64_MAX : Z := 9223372036854775807.

Definition is_u8 (z : Z) : Prop := 0 <= z < 256.
Definition is_u16 (z : Z) : Prop := 0 <= z < 65536.
Definition is_u32 (z : Z) : Prop := 0 <= z < 4294967296.
Definition is_i32 (z : Z) : Prop := -2147483648 <= z < 2147483648.
Definition is_usize (z : Z) : Prop := 0 <= z < 18446744073709551616.

(** Wrap-around to the width of the type, for [as] casts and for arithmetic
    in builds without overflow checks. *)
Definition wrap_u8 (z : Z) : Z := z mod 256.
Definition wrap_u16 (z : Z) : Z := z mod 65536.
Definition wrap_u32 (z : Z) : Z := z mod 4294967296.
Definition wrap_usize (z : Z) : Z := z mod 18446744073709551616.
Definition wrap_i32 (z : Z) : Z :=
  (z + 2147483648) mod 4294967296 - 2147483648.
Definition wrap_isize (z : Z) : Z :=
  (z + 9223372036854775808) mod 18446744073709551616 - 9223372036854775808.

(** [x.saturating_sub(y)] on [usize]. *)
Definition saturating_sub (x y : Z) : Z := Z.max 0 (x - y).

(** [!m] on [u8]. *)
Definition not_u8 (m : Z) : Z := Z.lxor m 255.

(** [m.count_ones()] and [m.count_zeros()] on [u8]. *)
Definition count_ones (m : Z) : Z :=
  foldr (fun i acc => (if Z.testbit m i then 1 else 0) + acc) 0 (seqZ 0 8).
Definition count_zeros (m : Z) : Z := 8 - count_ones m.

(** * Slices *)

(** [l.len()] *)
Definition len {A} (l : list A) : Z := Z.of_nat (length l).

(** [&l[n..]], [&l[..n]] and [&l[a..b]] for indexes that are in range. *)
Definition slice_from {A} (l : list A) (n : Z) : list A := drop (Z.to_nat n) l.
Definition slice_to {A} (l : list A) (n : Z) : list A := take (Z.to_nat n) l.
Definition slice {A} (l : list A) (a b : Z) : list A :=
  take (Z.to_nat (b - a)) (drop (Z.to_nat a) l).

(** [l.get(i)] and [l.get(a..b)]. *)
Definition get {A} (l : list A) (i : Z) : option A :=
  if i <? 0 then None else l !! Z.to_nat i.
Definition get_range {A} (l : list A) (a b : Z) : option (list A) :=
  if (0 <=? a) && (a <=? b) && (b <=? len l) then Some (slice l a b) else None.

(** [&l[a..b]] with the bounds check that panics. *)
Definition index_range {A} (l : list A) (a b : Z) : res (list A) :=
  or_panic (get_range l a b).

(** [l.iter().step_by(n)] for a positive [n]. *)
Fixpoint step_by_aux {A} (k n : nat) (l : list A) : list A :=
  match l with
  | [] => []
  | x :: l => match k with
              | O => x :: step_by_aux (n - 1) n l
              | S k => step_by_aux k n l
              end
  end.
Definition step_by {A} (n : nat) (l : list A) : list A := step_by_aux 0 n l.

(** [l.iter().enumerate()] *)
Definition enumerate {A} (l : list A) : list (Z * A) := zip (seqZ 0 (len l)) l.

(** * Little-endian encodings *)

(** [v.to_le_bytes()] for an unsigned integer of [n] bytes. *)
Fixpoint to_le_bytes (n : nat) (v : Z) : list Z :=
  match n with
  | O => []
  | S n => v mod 256 :: to_le_bytes n (v / 256)
  end.

(** [from_le_bytes] *)
Fixpoint from_le_bytes (bs : list Z) : Z :=
  match bs with
  | [] => 0
  | b :: bs => b + 256 * from_le_bytes bs
  end.

(** The same for [i32]. *)
Definition i32_to_le_bytes (v : Z) : list Z := to_le_bytes 4 (wrap_u32 v).
Definition i32_from_le_bytes (bs : list Z) : Z := wrap_i32 (from_le_bytes bs).

(** A byte agrees with a masked byte. *)
Definition byte_matches (i b m : Z) : Prop := Z.land i m = Z.land b m.

(** * Actions returned by the callbacks of the virtual machines *)
Inductive Action : Type := Continue | Stop.

#[export] Instance Action_eq_dec : EqDecision Action.
Proof. solve_decision. Defined.

(** * Tactics *)

(** Unfold the monadic operations of [res]. *)
Ltac unfold_res :=
  unfold mret, res_ret, mbind, res_bind, fmap, res_fmap in *; simpl in *.

(** Case analysis on the matches and conditionals of a hypothesis or goal. *)
Ltac case_all :=
  repeat match goal with
  | |- context [match ?x with _ => _ end] => destruct x eqn:?
  end.

(** Turn boolean comparisons into propositions, for [lia]. *)
Ltac bools :=
  repeat match goal with
  | H : (_ && _)%bool = true |- _ => apply andb_prop in H; destruct H
  | H : (_ && _)%bool = false |- _ => apply andb_false_iff in H
  | H : (_ || _)%bool = true |- _ => apply orb_prop in H
  | H : (_ || _)%bool = false |- _ => apply orb_false_elim in H; destruct H
  | H : negb _ = true |- _ => apply negb_true_iff in H
  | H : negb _ = false |- _ => apply negb_false_iff in H
  | H : (_ <? _) = true |- _ => apply Z.ltb_lt in H
  | H : (_ <? _) = false |- _ => apply Z.ltb_ge in H
  | H : (_ <=? _) = true |- _ => apply Z.leb_le in H
  | H : (_ <=? _) = false |- _ => apply Z.leb_gt in H
  | H : (_ >=? _) = true |- _ => rewrite Z.geb_leb in H; apply Z.leb_le in H
  | H : (_ >=? _) = false |- _ => rewrite Z.geb_leb in H; apply Z.leb_gt in H
  | H : (_ >? _) = true |- _ => rewrite Z.gtb_ltb in H; apply Z.ltb_lt in H
  | H : (_ >? _) = false |- _ => rewrite Z.gtb_ltb in H; apply Z.ltb_ge in H
  | H : (_ =? _) = true |- _ => apply Z.eqb_eq in H
  | H : (_ =? _) = false |- _ => apply Z.eqb_neq in H
  end.

(** Linear arithmetic with divisions and remainders by constants. *)
Ltac lia_mod := intros; Z.to_euclidean_division_equations; lia.

(** * Lemmas *)

Lemma Ret_inj {A} (a b : A) : Ret a = Ret b -> a = b.
Proof. by intros [= ->]. Qed.

Lemma len_nonneg {A} (l : list A) : 0 <= len l.
Proof. unfold len. lia. Qed.

Lemma len_nil {A} : len (@nil A) = 0.
Proof. reflexivity. Qed.

Lemma len_cons {A} (x : A) l : len (x :: l) = 1 + len l.
Proof. unfold len. simpl length. lia. Qed.

Lemma len_app {A} (l1 l2 : list A) : len (l1 ++ l2) = len l1 + len l2.
Proof. unfold len. rewrite length_app. lia. Qed.

Lemma len_rev {A} (l : list A) : len (reverse l) = len l.
Proof. unfold len. by rewrite length_reverse. Qed.

Lemma len_0_nil {A} (l : list A) : len l = 0 -> l = [].
Proof. destruct l; [done|]. rewrite len_cons. pose proof (len_nonneg l). lia. Qed.

Lemma len_map {A B} (f : A -> B) (l : list A) : len (f <$> l) = len l.
Proof. unfold len. by rewrite length_fmap. Qed.

Lemma len_to_le_bytes n v : len (to_le_bytes n v) = Z.of_nat n.
Proof. revert v. induction n; intros v; [done|]. cbn [to_le_bytes]. rewrite len_cons, IHn. lia. Qed.

Lemma len_slice_from {A} (l : list A) n : 0 <= n <= len l -> len (slice_from l n) = len l - n.
Proof. unfold len, slice_from. rewrite length_drop. lia. Qed.

Lemma len_slice_to {A} (l : list A) n : 0 <= n <= len l -> len (slice_to l n) = n.
Proof. unfold len, slice_to. rewrite length_take. lia. Qed.

Lemma len_slice {A} (l : list A) a b : 0 <= a <= b -> b <= len l -> len (slice l a b) = b - a.
Proof. unfold len, slice. rewrite length_take, length_drop. lia. Qed.

(** Lengths of lists built from slices. *)
Create Rewrite HintDb len.
#[export] Hint Rewrite @len_nil @len_cons @len_app @len_rev @len_map @len_to_le_bytes : len.

Ltac len_lia := autorewrite with len in *; lia.

Lemma get_Some {A} (l : list A) i x :
  get l i = Some x <-> 0 <= i /\ l !! Z.to_nat i = Some x.
Proof. unfold get. destruct (i <? 0) eqn:E; bools; naive_solver lia. Qed.

Lemma get_lt {A} (l : list A) i x : get l i = Some x -> 0 <= i < len l.
Proof. rewrite get_Some. intros [? H%lookup_lt_Some]. unfold len. lia. Qed.

Lemma get_is_Some {A} (l : list A) i : 0 <= i < len l -> is_Some (get l i).
Proof.
  intros H. unfold get. destruct (i <? 0) eqn:E; bools; [lia|].
  apply lookup_lt_is_Some. unfold len in H. lia.
Qed.

Lemma slice_from_app {A} (l1 l2 : list A) : slice_from (l1 ++ l2) (len l1) = l2.
Proof. unfold slice_from, len. rewrite Nat2Z.id. apply drop_app_length. Qed.

Lemma slice_from_app_plus {A} (l1 l2 : list A) n :
  0 <= n -> slice_from (l1 ++ l2) (len l1 + n) = slice_from l2 n.
Proof.
  intros H. unfold slice_from, len. rewrite Z2Nat.inj_add, Nat2Z.id by lia.
  rewrite <- drop_drop. by rewrite drop_app_length.
Qed.

Lemma slice_to_app {A} (l1 l2 : list A) : slice_to (l1 ++ l2) (len l1) = l1.
Proof. unfold slice_to, len. rewrite Nat2Z.id. apply take_app_length. Qed.

Lemma slice_mid {A} (l1 l2 l3 : list A) a b :
  a = len l1 -> b = len l1 + len l2 -> slice (l1 ++ l2 ++ l3) a b = l2.
Proof.
  intros -> ->. unfold slice. replace (len l1 + len l2 - len l1) with (len l2) by lia.
  unfold len. rewrite !Nat2Z.id, drop_app_length. apply take_app_length.
Qed.

Lemma get_range_mid {A} (l1 l2 l3 : list A) a b :
  a = len l1 -> b = len l1 + len l2 -> get_range (l1 ++ l2 ++ l3) a b = Some l2.
Proof.
  intros Ha Hb. unfold get_range. rewrite slice_mid by done.
  pose proof (len_nonneg l1). pose proof (len_nonneg l2). pose proof (len_nonneg l3).
  assert ((0 <=? a) && (a <=? b) && (b <=? len (l1 ++ l2 ++ l3)) = true) as ->; [|done].
  rewrite !andb_true_iff, !Z.leb_le, !len_app. lia.
Qed.

(** Appending a slice that starts where another ends. *)
Lemma slice_to_plus {A} (l : list A) a b :
  0 <= a -> 0 <= b -> slice_to l (a + b) = slice_to l a ++ slice_to (slice_from l a) b.
Proof.
  intros Ha Hb. unfold slice_to, slice_from. rewrite Z2Nat.inj_add by lia.
  symmetry. apply take_take_drop.
Qed.

Lemma slice_from_plus {A} (l : list A) a b :
  0 <= a -> 0 <= b -> slice_from (slice_from l a) b = slice_from l (a + b).
Proof. intros Ha Hb. unfold slice_from. rewrite drop_drop. f_equal. lia. Qed.

(** Wrap-around is the identity in the range of the type. *)
Lemma wrap_usize_id z : is_usize z -> wrap_usize z = z.
Proof. unfold is_usize, wrap_usize. intros. apply Z.mod_small. lia. Qed.

Lemma wrap_isize_id z :
  -9223372036854775808 <= z < 9223372036854775808 -> wrap_isize z = z.
Proof. unfold wrap_isize. intros. rewrite Z.mod_small by lia. lia. Qed.

Lemma wrap_i32_id z : is_i32 z -> wrap_i32 z = z.
Proof. unfold wrap_i32, is_i32. intros. rewrite Z.mod_small by lia. lia. Qed.

Lemma wrap_isize_range z :
  -9223372036854775808 <= wrap_isize z < 9223372036854775808.
Proof. unfold wrap_isize. pose proof (Z.mod_pos_bound (z + 9223372036854775808) 18446744073709551616). lia. Qed.

Lemma wrap_i32_range z : is_i32 (wrap_i32 z).
Proof. unfold wrap_i32, is_i32. pose proof (Z.mod_pos_bound (z + 2147483648) 4294967296). lia. Qed.

(** Little-endian round trips. *)
Lemma from_to_le_bytes n v : 0 <= v < 256 ^ Z.of_nat n -> from_le_bytes (to_le_bytes n v) = v.
Proof.
  revert v. induction n as [|n IH]; intros v Hv; cbn [to_le_bytes from_le_bytes].
  - simpl in Hv. lia.
  - rewrite Nat2Z.inj_succ, Z.pow_succ_r in Hv by lia. rewrite IH.
    + pose proof (Z.div_mod v 256). lia.
    + split; [apply Z.div_pos; lia|]. apply Z.div_lt_upper_bound; lia.
Qed.

Lemma to_le_bytes_u8 n v : Forall is_u8 (to_le_bytes n v).
Proof.
  revert v. induction n as [|n IH]; intros v; cbn [to_le_bytes]; constructor; [|done].
  apply Z.mod_pos_bound. lia.
Qed.

Lemma from_le_bytes_bound bs :
  Forall is_u8 bs -> 0 <= from_le_bytes bs < 256 ^ len bs.
Proof.
  induction 1 as [|b bs Hb Hbs IH]; [by cbv|].
  cbn [from_le_bytes]. rewrite len_cons, Z.pow_add_r by (pose proof (len_nonneg bs); lia).
  unfold is_u8 in Hb. lia.
Qed.

Lemma to_from_le_bytes bs : Forall is_u8 bs -> to_le_bytes (length bs) (from_le_bytes bs) = bs.
Proof.
  induction 1 as [|b bs Hb Hbs IH]; [done|]. cbn [length to_le_bytes from_le_bytes]. unfold is_u8 in Hb.
  rewrite (Z.mul_comm 256). rewrite Z_mod_plus_full, Z.mod_small by lia. f_equal.
  by rewrite Z.div_add, Z.div_small, Z.add_0_l by lia.
Qed.

Lemma u16_le_roundtrip v : is_u16 v -> from_le_bytes (to_le_bytes 2 v) = v.
Proof. intros H. apply from_to_le_bytes. exact H. Qed.

Lemma u32_le_roundtrip v : is_u32 v -> from_le_bytes (to_le_bytes 4 v) = v.
Proof. intros H. apply from_to_le_bytes. exact H. Qed.

Lemma i32_le_roundtrip v : is_i32 v -> i32_from_le_bytes (i32_to_le_bytes v) = v.
Proof.
  intros H. unfold i32_from_le_bytes, i32_to_le_bytes.
  rewrite from_to_le_bytes by (apply Z.mod_pos_bound; lia).
  unfold wrap_i32, wrap_u32, is_i32 in *.
  rewrite Zplus_mod_idemp_l, Z.mod_small by lia. lia.
Qed.

(** Loops. *)
Lemma for_each_app {A St} (l1 l2 : list A) (f : A -> St -> res St) s :
  for_each (l1 ++ l2) f s = (s' ← for_each l1 f s; for_each l2 f s').
Proof.
  revert s. induction l1 as [|x l1 IH]; intros s; [done|].
  simpl. destruct (f x s); simpl; [apply IH|done|done].
Qed.

Lemma for_each_ext {A St} (l : list A) (f g : A -> St -> res St) s :
  (forall x s, x ∈ l -> f x s = g x s) -> for_each l f s = for_each l g s.
Proof.
  revert s. induction l as [|x l IH]; intros s H; [done|].
  simpl. rewrite H by (left). destruct (g x s); simpl; [|done|done].
  apply IH. intros. apply H. by right.
Qed.

(** A loop invariant for a loop that cannot panic. *)
Lemma for_each_inv {A St} (P : list A -> St -> Prop) (l : list A) (f : A -> St -> res St) s :
  P [] s ->
  (forall done_ x rest s, l = done_ ++ x :: rest -> P done_ s ->
     exists s', f x s = Ret s' /\ P (done_ ++ [x]) s') ->
  exists s', for_each l f s = Ret s' /\ P l s'.
Proof.
  intros H0 Hstep.
  assert (forall rest done_ s, l = done_ ++ rest -> P done_ s ->
    exists s', for_each rest f s = Ret s' /\ P l s') as Haux.
  { induction rest as [|x rest IH]; intros d s1 Hl HP.
    - rewrite app_nil_r in Hl. subst d. by exists s1.
    - destruct (Hstep d x rest s1 Hl HP) as (s2 & Hf & HP2).
      simpl. rewrite Hf. simpl. apply (IH (d ++ [x])); [|done].
      by rewrite <- app_assoc. }
  by apply (Haux l []).
Qed.

Lemma slice_to_all {A} (l : list A) n : len l <= n -> slice_to l n = l.
Proof. unfold slice_to, len. intros. apply take_ge. lia. Qed.

Lemma slice_from_0 {A} (l : list A) : slice_from l 0 = l.
Proof. done. Qed.

Lemma slice_to_from {A} (l : list A) p n :
  0 <= n -> slice_to (slice_from l p) n = slice l p (p + n).
Proof. intros H. unfold slice_to, slice_from, slice. f_equal. lia. Qed.

Lemma slice_from_to {A} (l : list A) a b :
  0 <= a <= b -> slice_from (slice_to l b) a = slice l a b.
Proof.
  intros H. unfold slice_to, slice_from, slice. rewrite take_drop_commute. f_equal. f_equal. lia.
Qed.

Lemma slice_0 {A} (l : list A) b : slice l 0 b = slice_to l b.
Proof. unfold slice, slice_to. by rewrite Z.sub_0_r. Qed.

Lemma slice_split {A} (l : list A) a b c :
  0 <= a <= b -> b <= c -> slice l a c = slice l a b ++ slice l b c.
Proof.
  intros H1 H2. unfold slice.
  replace (Z.to_nat (c - a)) with (Z.to_nat (b - a) + Z.to_nat (c - b))%nat by lia.
  rewrite <- take_take_drop, drop_drop. do 3 f_equal. lia.
Qed.

Lemma reverse_slice {A} (l : list A) a b :
  0 <= a <= b -> b <= len l -> reverse (slice l a b) = slice (reverse l) (len l - b) (len l - a).
Proof.
  intros H1 H2. rewrite <- slice_from_to by lia. unfold slice_from, slice_to, slice, len in *.
  apply list_eq. intros i.
  destruct (decide (i < Z.to_nat (b - a))%nat) as [Hi|Hi].
  - rewrite reverse_lookup by (rewrite length_drop, length_take; lia).
    rewrite lookup_drop, length_drop, length_take, !lookup_take_lt by lia.
    rewrite lookup_drop, reverse_lookup by lia. f_equal. lia.
  - rewrite lookup_ge_None_2 by (rewrite length_reverse, length_drop, length_take; lia).
    rewrite lookup_ge_None_2 by (rewrite length_take, length_drop, length_reverse; lia). done.
Qed.

Lemma get_slice {A} (l : list A) a b i :
  0 <= a <= b -> 0 <= i < b - a -> get (slice l a b) i = get l (a + i).
Proof.
  intros H1 H2. unfold get, slice. destruct (i <? 0) eqn:E1; bools; [lia|].
  destruct (a + i <? 0) eqn:E2; bools; [lia|].
  rewrite lookup_take_lt by lia. rewrite lookup_drop. f_equal. lia.
Qed.

Lemma elem_of_get {A} (l : list A) x : x ∈ l <-> exists i, get l i = Some x.
Proof.
  rewrite list_elem_of_lookup. split.
  - intros [i Hi]. exists (Z.of_nat i). apply get_Some. rewrite Nat2Z.id. split; [lia|done].
  - intros [i [_ Hi]%get_Some]. eauto.
Qed.

(** [enumerate] *)
Lemma lookup_enumerate {A} (l : list A) (k : nat) :
  enumerate l !! k = (fun x => (Z.of_nat k, x)) <$> l !! k.
Proof.
  unfold enumerate. destruct (l !! k) as [x|] eqn:E.
  - pose proof (lookup_lt_Some _ _ _ E). cbn.
    apply lookup_zip_Some. split; [|done]. apply lookup_seqZ. unfold len. lia.
  - cbn. apply lookup_ge_None. apply lookup_ge_None in E.
    unfold len. rewrite length_zip_with, length_seqZ. lia.
Qed.

Lemma elem_of_enumerate {A} (l : list A) i x : (i, x) ∈ enumerate l <-> get l i = Some x.
Proof.
  rewrite list_elem_of_lookup, get_Some. split.
  - intros [k Hk]. rewrite lookup_enumerate in Hk.
    destruct (l !! k) as [y|] eqn:E; [|done]. injection Hk as <- <-.
    rewrite Nat2Z.id. split; [lia|done].
  - intros [Hi Hl]. exists (Z.to_nat i). rewrite lookup_enumerate, Hl. cbn. do 2 f_equal. lia.
Qed.

Lemma reverse_enumerate {A} (l : list A) :
  reverse (enumerate l) = (fun ix => (len l - 1 - fst ix, snd ix)) <$> enumerate (reverse l).
Proof.
  assert (Hlen : forall l : list A, length (enumerate l) = length l).
  { intros l'. unfold enumerate, len. rewrite length_zip_with, length_seqZ. lia. }
  apply list_eq. intros i. rewrite list_lookup_fmap, lookup_enumerate.
  destruct (decide (i < length l)%nat) as [Hi|Hi].
  - rewrite !reverse_lookup by (rewrite ?Hlen; lia). rewrite Hlen, lookup_enumerate.
    destruct (l !! (length l - S i)%nat); [|done]. cbn. do 2 f_equal. unfold len. lia.
  - rewrite !lookup_ge_None_2 by (rewrite length_reverse, ?Hlen; lia). done.
Qed.

Lemma enumerate_sorted {A} (l : list A) :
  StronglySorted (fun a b => fst a < fst b) (enumerate l).
Proof.
  unfold enumerate. generalize (len l). generalize 0. induction l as [|x l IH]; intros m n.
  - destruct (seqZ m n); constructor.
  - destruct (decide (0 < n)) as [Hn|Hn].
    + rewrite seqZ_cons by done. cbn. constructor; [apply IH|].
      apply Forall_forall. intros [i y] Hin. cbn.
      apply elem_of_zip_l, elem_of_seqZ in Hin. lia.
    + rewrite seqZ_nil by lia. constructor.
Qed.

Lemma StronglySorted_filter {A} (R : A -> A -> Prop) (P : A -> Prop) `{forall x, Decision (P x)} l :
  StronglySorted R l -> StronglySorted R (filter P l).
Proof.
  induction 1 as [|a l Hs IH Ha]; [constructor|].
  rewrite filter_cons. case_decide; [|done]. constructor; [done|].
  rewrite Forall_forall in *. intros x [_ Hx]%list_elem_of_filter. auto.
Qed.

Lemma filter_all {A} (P : A -> Prop) `{forall x, Decision (P x)} (l : list A) :
  Forall P l -> filter P l = l.
Proof.
  induction 1 as [|x l Hx _ IH]; [done|]. rewrite filter_cons_True by done. by rewrite IH.
Qed.

Lemma filter_none {A} (P : A -> Prop) `{forall x, Decision (P x)} (l : list A) :
  Forall (fun x => ~ P x) l -> filter P l = [].
Proof.
  induction 1 as [|x l Hx _ IH]; [done|]. by rewrite filter_cons_False.
Qed.

Lemma slice_slice_to {A} (l : list A) a b n :
  0 <= a <= b -> 0 <= n <= b - a -> slice_to (slice l a b) n = slice l a (a + n).
Proof. intros H1 H2. unfold slice_to, slice. rewrite take_take. f_equal. lia. Qed.

Lemma Forall_slice {A} (P : A -> Prop) l a b : Forall P l -> Forall P (slice l a b).
Proof. intros H. unfold slice. by apply Forall_take, Forall_drop. Qed.

(** A loop that collects the results of a computation that cannot panic. *)
Lemma for_each_collect {A B} (body : A -> res B) (l : list A) (l' acc : list B) :
  Forall2 (fun x y => body x = Ret y) l l' ->
  for_each l (fun x acc => y ← body x; Ret (acc ++ [y])) acc = Ret (acc ++ l').
Proof.
  intros H. revert acc. induction H as [|x y l l' Hxy _ IH]; intros acc; cbn; [by rewrite app_nil_r|].
  rewrite Hxy. cbn. rewrite IH. by rewrite <- app_assoc.
Qed.

Lemma for_each_fmap {A B St} (f : A -> B) (l : list A) (body : B -> St -> res St) s :
  for_each (f <$> l) body s = for_each l (fun x => body (f x)) s.
Proof.
  revert s. induction l as [|x l IH]; intros s; [done|]. cbn. by destruct (body (f x) s); cbn.
Qed.

(** An invariant of a loop that has returned. *)
Lemma for_each_ret {A St} (P : St -> Prop) (l : list A) (body : A -> St -> res St) s s' :
  P s -> (forall x s1 s2, x ∈ l -> P s1 -> body x s1 = Ret s2 -> P s2) ->
  for_each l body s = Ret s' -> P s'.
Proof.
  revert s. induction l as [|x l IH]; intros s Hs Hb; cbn; [by intros [= <-]|].
  destruct (body x s) as [s1| |] eqn:E; [|done|done]. cbn. apply IH.
  - eapply Hb; [left|done|done].
  - intros y s2 s3 Hy. apply Hb. by right.
Qed.

(** The results that a loop has collected. *)
Lemma for_each_collected {A B} (body : A -> res B) (l : list A) (acc out : list B) :
  for_each l (fun x acc => y ← body x; Ret (acc ++ [y])) acc = Ret out ->
  exists l', out = acc ++ l' /\ Forall2 (fun x y => body x = Ret y) l l'.
Proof.
  revert acc. induction l as [|x l IH]; intros acc; cbn.
  - intros [= <-]. exists []. by rewrite app_nil_r.
  - destruct (body x) as [y| |] eqn:E; [|done|done]. cbn. intros (l' & -> & HF)%IH.
    exists (y :: l'). rewrite <- app_assoc. by split; [|constructor].
Qed.

Lemma slice_from_slice {A} (l : list A) a b n :
  0 <= a -> 0 <= n -> a + n <= b -> slice_from (slice l a b) n = slice l (a + n) b.
Proof.
  intros Ha Hn Hb. rewrite <- (slice_from_to l a b), slice_from_plus by lia. apply slice_from_to. lia.
Qed.
