(* ===== verification/PosSet.v ===== *)
(** The contracts of the two containers under the matching engines: the set of
    positions that the fast virtual machine keeps, an insertion-ordered set of
    [usize] keys, which [BitmapSet.v] discharges; and the bit vectors of the
    [bitvec] crate that the set of positions and the Pike virtual machine use. *)

From S2P Require Import Prelude.

(** * What the fast virtual machine requires of a set of positions

    An insertion-ordered set of [usize] keys. [pos_insert] may panic when the
    new key is too far from the others. *)
Class PosSet (S : Type) := {
  pos_new : S;
  pos_insert : Z -> S -> res S;
  pos_clear : S -> res S;
  pos_items : S -> list Z;
}.

(** Insertion in a list without duplicates. *)
Definition add_new (k : Z) (l : list Z) : list Z :=
  if decide (k ∈ l) then l else l ++ [k].

Class PosSetLaws (S : Type) `{PosSet S} := {
  pos_ok : S -> Prop;
  pos_new_ok : pos_ok pos_new;
  pos_new_items : pos_items pos_new = [];
  pos_clear_spec s :
    pos_ok s -> exists s', pos_clear s = Ret s' /\ pos_ok s' /\ pos_items s' = [];
  pos_items_nodup s : pos_ok s -> NoDup (pos_items s);
  pos_insert_spec k s :
    pos_ok s -> is_usize k ->
    (forall j, j ∈ pos_items s -> Z.abs (k - j) < 524288) ->
    exists s', pos_insert k s = Ret s' /\ pos_ok s' /\
               pos_items s' = add_new k (pos_items s);
}.


Lemma add_new_old k l : k ∈ l -> add_new k l = l.
Proof. intros. unfold add_new. by rewrite decide_True. Qed.

Lemma add_new_fresh k l : k ∉ l -> add_new k l = l ++ [k].
Proof. intros. unfold add_new. by rewrite decide_False. Qed.

Lemma elem_of_add_new j k l : j ∈ add_new k l <-> j = k \/ j ∈ l.
Proof. unfold add_new. case_decide; [naive_solver|set_solver]. Qed.


(** Insertion of several keys, in order. *)
Definition add_all (ks l : list Z) : list Z := foldl (fun l k => add_new k l) l ks.

Lemma add_all_app ks1 ks2 l : add_all (ks1 ++ ks2) l = add_all ks2 (add_all ks1 l).
Proof. apply foldl_app. Qed.

Lemma elem_of_add_all j ks l : j ∈ add_all ks l <-> j ∈ ks \/ j ∈ l.
Proof.
  revert l. induction ks as [|k ks IH]; intros l; [set_solver|].
  change (add_all (k :: ks) l) with (add_all ks (add_new k l)).
  rewrite IH, elem_of_add_new. set_solver.
Qed.

(** Keys in a window of [usize] values that is narrower than the bitmaps. *)
Definition within (lo : Z) (l : list Z) : Prop :=
  forall j, j ∈ l -> lo <= j <= lo + 65535.

Lemma within_nil lo : within lo [].
Proof. intros j Hj. set_solver. Qed.

Lemma within_app lo l1 l2 : within lo (l1 ++ l2) <-> within lo l1 /\ within lo l2.
Proof. unfold within. set_solver. Qed.

Lemma within_add_all lo ks l : within lo ks -> within lo l -> within lo (add_all ks l).
Proof. intros H1 H2 j [?|?]%elem_of_add_all; auto. Qed.

(** * Programs that only insert keys *)
Section Adds.
Context {S : Type} `{PL : PosSetLaws S}.
Context (lo : Z) (Hlo : 0 <= lo) (Hhi : lo + 65535 <= usize_MAX).

(** [body] inserts the keys [ks], in order, in any set whose keys are in the
    window. *)
Definition adds (body : S -> res S) (ks : list Z) : Prop :=
  within lo ks ->
  forall s, pos_ok s -> within lo (pos_items s) ->
  exists s', body s = Ret s' /\ pos_ok s' /\ pos_items s' = add_all ks (pos_items s).

Lemma adds_ret : adds Ret [].
Proof. intros _ s Hs _. by exists s. Qed.

Lemma adds_insert k : adds (pos_insert k) [k].
Proof.
  intros Hk s Hs Hw. specialize (Hk k ltac:(set_solver)). unfold usize_MAX in Hhi.
  destruct (pos_insert_spec k s Hs) as (s' & Hins & Hs' & Hi).
  - unfold is_usize. lia.
  - intros j Hj%Hw. lia.
  - by exists s'.
Qed.

Lemma adds_bind b1 b2 ks1 ks2 :
  adds b1 ks1 -> adds b2 ks2 -> adds (fun s => s ← b1 s; b2 s) (ks1 ++ ks2).
Proof.
  intros H1 H2 [Hw1 Hw2]%within_app s Hs Hw.
  destruct (H1 Hw1 s Hs Hw) as (s1 & E1 & Hs1 & Hi1).
  destruct (H2 Hw2 s1 Hs1) as (s2 & E2 & Hs2 & Hi2).
  { rewrite Hi1. by apply within_add_all. }
  exists s2. rewrite E1. cbn. split; [done|]. split; [done|].
  by rewrite Hi2, Hi1, add_all_app.
Qed.

Lemma adds_for_each {A} (l : list A) (body : A -> S -> res S) (gen : A -> list Z) :
  (forall x, x ∈ l -> adds (body x) (gen x)) -> adds (for_each l body) (x ← l; gen x).
Proof.
  induction l as [|x l IH]; intros Hb; [apply adds_ret|].
  cbn [for_each mbind list_bind]. apply adds_bind.
  - apply Hb. left.
  - apply IH. intros y Hy. apply Hb. by right.
Qed.

Lemma adds_ext b1 b2 ks : (forall s, b1 s = b2 s) -> adds b1 ks -> adds b2 ks.
Proof. intros He Ha Hw s Hs Hws. rewrite <- He. by apply Ha. Qed.
End Adds.

(** The elements before the first one that fails [P]. *)
Fixpoint take_while {A} (P : A -> bool) (l : list A) : list A :=
  match l with
  | [] => []
  | x :: l => if P x then x :: take_while P l else []
  end.

Lemma take_while_fmap {A B} (f : A -> B) P (l : list A) :
  take_while P (f <$> l) = f <$> take_while (fun x => P (f x)) l.
Proof. induction l as [|x l IH]; cbn; [done|]. destruct (P (f x)); cbn; congruence. Qed.

Lemma take_while_ext {A} P Q (l : list A) :
  (forall x, x ∈ l -> P x = Q x) -> take_while P l = take_while Q l.
Proof.
  induction l as [|x l IH]; intros H; cbn; [done|].
  rewrite H by left. rewrite IH; [done|]. intros y Hy. apply H. by right.
Qed.

Lemma take_while_true {A} (l : list A) : take_while (fun _ => true) l = l.
Proof. induction l; cbn; congruence. Qed.

Lemma elem_of_take_while {A} (R : A -> A -> Prop) P (l : list A) x :
  StronglySorted R l -> (forall x y, R x y -> ~ R y x) ->
  x ∈ take_while P l <-> x ∈ l /\ P x = true /\ (forall y, y ∈ l -> R y x -> P y = true).
Proof.
  intros Hs Hasym. induction Hs as [|a l Hs IH Ha]; cbn; [set_solver|].
  rewrite Forall_forall in Ha. destruct (P a) eqn:E.
  - rewrite !elem_of_cons, IH. split.
    + intros [->|(Hin & HP & Hall)].
      * split; [by left|]. split; [done|]. intros y [->|Hy]%elem_of_cons HR; [done|].
        by destruct (Hasym _ _ (Ha y Hy)).
      * split; [by right|]. split; [done|]. intros y [->|Hy]%elem_of_cons HR; [done|auto].
    + intros ([->|Hin] & HP & Hall); [by left|]. right. split; [done|]. split; [done|].
      intros y Hy. apply Hall. by right.
  - split; [set_solver|]. intros ([->|Hin]%elem_of_cons & HP & Hall); [congruence|].
    rewrite (Hall a) in E; [done|left|auto].
Qed.

(** A loop that may be left early inserts the keys found before it is left. *)
Lemma adds_until {S} `{PL : PosSetLaws S} lo {A} (l : list A) (stop : A -> bool)
    (body : A -> S -> res S) (loop : A -> S -> res (S * bool)) (gen : A -> list Z) :
  0 <= lo -> lo + 65535 <= usize_MAX ->
  (forall x s, x ∈ l ->
     loop x s = if stop x then Ret (s, true) else s ← body x s; Ret (s, false)) ->
  (forall x, x ∈ l -> adds lo (body x) (gen x)) ->
  adds lo (fun s => fst <$> for_each_until l loop s)
    (x ← take_while (fun x => negb (stop x)) l; gen x).
Proof.
  intros Hlo Hhi. induction l as [|x l IH]; intros Hl Hb; [apply adds_ret|].
  cbn [for_each_until take_while]. destruct (stop x) eqn:Es; cbn [negb].
  - eapply adds_ext; [|apply adds_ret]. intros s. rewrite Hl by left. by rewrite Es.
  - cbn [mbind list_bind]. eapply adds_ext; [|apply adds_bind; [apply Hb; left|apply IH]].
    + intros s. cbn beta. rewrite Hl by left. rewrite Es. by destruct (body x s).
    + intros y s Hy. apply Hl. by right.
    + intros y Hy. apply Hb. by right.
Qed.

(** * Bit vectors

    [BitVec] and [BitArray] come from the [bitvec] crate. They are used through
    [repeat], [len], [get], [set] and [resize], with the meaning that crate
    documents. *)
Class BitVec (B : Type) := {
  bv_repeat : bool -> Z -> B;
  bv_len : B -> Z;
  bv_get : B -> Z -> option bool;
  bv_set : B -> Z -> bool -> B;
  bv_resize : B -> Z -> bool -> B;
}.

Class BitVecLaws (B : Type) `{BitVec B} := {
  bv_len_repeat b n : 0 <= n -> bv_len (bv_repeat b n) = n;
  bv_get_repeat b n i : 0 <= i < n -> bv_get (bv_repeat b n) i = Some b;
  bv_get_range v i : is_Some (bv_get v i) <-> 0 <= i < bv_len v;
  bv_len_set v i b : bv_len (bv_set v i b) = bv_len v;
  bv_get_set v i j b :
    0 <= i < bv_len v -> bv_get (bv_set v i b) j = if i =? j then Some b else bv_get v j;
  bv_len_resize v n b : 0 <= n -> bv_len (bv_resize v n b) = n;
  bv_get_resize v n b i :
    0 <= i < n -> bv_get (bv_resize v n b) i =
                  if i <? bv_len v then bv_get v i else Some b;
}.

(** An implementation on lists, used to execute the model. *)
#[global] Instance list_BitVec : BitVec (list bool) := {
  bv_repeat b n := replicate (Z.to_nat n) b;
  bv_len := len;
  bv_get := get;
  bv_set v i b := <[Z.to_nat i := b]> v;
  bv_resize v n b := resize (Z.to_nat n) b v;
}.

#[global] Instance list_BitVecLaws : BitVecLaws (list bool).
Proof.
  split; cbn.
  - intros b n H. unfold len. rewrite length_replicate. lia.
  - intros b n i H. apply get_Some. split; [lia|]. apply lookup_replicate_2. lia.
  - intros v i. split; [|apply get_is_Some]. intros [b H]. by eapply get_lt.
  - intros v i b. unfold len. by rewrite length_insert.
  - intros v i j b H. unfold get. destruct (j <? 0) eqn:Ej; bools.
    + destruct (i =? j) eqn:E; bools; [lia|done].
    + destruct (i =? j) eqn:E; bools.
      * subst. rewrite list_lookup_insert_eq; [done|]. unfold len in H. lia.
      * rewrite list_lookup_insert_ne; [done|lia].
  - intros v n b H. unfold len. rewrite length_resize. lia.
  - intros v n b i H. unfold get, len. destruct (i <? 0) eqn:Ei; bools; [lia|].
    destruct (i <? Z.of_nat (length v)) eqn:E; bools.
    + rewrite lookup_resize by lia. done.
    + rewrite lookup_resize_new by lia. done.
Qed.
