(* ===== verification/BitmapSet.v ===== *)
(** The set of (key, value) pairs of [lib/src/re/bitmapset.rs]: its state and
    operations, the representation invariant, and the refinement of the
    insertion-ordered set that the virtual machines rely on. *)

From S2P Require Import Prelude.
From S2P Require Import PosSet.

(** * The set *)
Section BitmapSet.
Context {B : Type} `{BVL : BitVecLaws B}.
Context {T : Type} `{Countable T}.

Record BitmapSet := {
  items : list (Z * T);
  set : option (gset (Z * T));
  p_bitmap : B;
  n_bitmap : B;
}.

Definition MAX_OFFSET : Z := 524288.

Definition new : BitmapSet :=
  {| items := []; set := None;
     p_bitmap := bv_repeat false 1024; n_bitmap := bv_repeat false 1024 |}.

(** Used when the key is known to be new, as the debug assertion says. *)
Definition insert_new_key (s : BitmapSet) (key : Z) (value : T) : res (BitmapSet * bool) :=
  st ← match s.(set) with
       | Some st => _ ← assert (bool_decide ((key, value) ∉ st)); Ret (Some ({[ (key, value) ]} ∪ st))
       | None => Ret None
       end;
  Ret ({| items := s.(items) ++ [(key, value)]; set := st; p_bitmap := s.(p_bitmap); n_bitmap := s.(n_bitmap) |}, true).

(** Used when another pair with the same key is known to exist. *)
Definition insert_existing_key (s : BitmapSet) (key : Z) (value : T) : BitmapSet * bool :=
  let st := match s.(set) with
            | Some st => st
            | None => list_to_set s.(items)
            end in
  if decide ((key, value) ∈ st) then
    ({| items := s.(items); set := Some st;
        p_bitmap := s.(p_bitmap); n_bitmap := s.(n_bitmap) |}, false)
  else
    ({| items := s.(items) ++ [(key, value)]; set := Some ({[ (key, value) ]} ∪ st);
        p_bitmap := s.(p_bitmap); n_bitmap := s.(n_bitmap) |}, true).

(** [key as isize - first_key as isize] *)
Definition key_offset (key first_key : Z) : Z :=
  wrap_isize (wrap_isize key - wrap_isize first_key).

(** [(-offset as usize) - 1] *)
Definition neg_index (offset : Z) : Z := wrap_usize (wrap_isize (- offset)) - 1.

Definition with_n (s : BitmapSet) (b : B) : BitmapSet :=
  {| items := s.(items); set := s.(set); p_bitmap := s.(p_bitmap); n_bitmap := b |}.
Definition with_p (s : BitmapSet) (b : B) : BitmapSet :=
  {| items := s.(items); set := s.(set); p_bitmap := b; n_bitmap := s.(n_bitmap) |}.

Definition insert (s : BitmapSet) (key : Z) (value : T) : res (BitmapSet * bool) :=
  match head s.(items) with
  | None =>
      Ret ({| items := s.(items) ++ [(key, value)]; set := s.(set);
              p_bitmap := s.(p_bitmap); n_bitmap := s.(n_bitmap) |}, true)
  | Some first =>
      if (fst first =? key) && bool_decide (snd first = value) then Ret (s, false)
      else
        let offset := key_offset key (fst first) in
        if offset <? 0 then
          let offset := neg_index offset in
          if bv_len s.(n_bitmap) <=? offset then
            _ ← assert (offset <? MAX_OFFSET);
            let b := bv_resize s.(n_bitmap) (offset + 1) false in
            insert_new_key (with_n s (bv_set b offset true)) key value
          else
            match bv_get s.(n_bitmap) offset with
            | None => Panic
            | Some false =>
                insert_new_key (with_n s (bv_set s.(n_bitmap) offset true)) key value
            | Some true => Ret (insert_existing_key s key value)
            end
        else
          if bv_len s.(p_bitmap) <=? offset then
            _ ← assert (offset <? MAX_OFFSET);
            let b := bv_resize s.(p_bitmap) (offset + 1) false in
            insert_new_key (with_p s (bv_set b offset true)) key value
          else
            match bv_get s.(p_bitmap) offset with
            | None => Panic
            | Some false =>
                insert_new_key (with_p s (bv_set s.(p_bitmap) offset true)) key value
            | Some true => Ret (insert_existing_key s key value)
            end
  end.

Definition is_empty (s : BitmapSet) : bool :=
  match s.(items) with [] => true | _ => false end.

(** [clear]: the bits set by the items are reset one by one. *)
Definition clear_bit (first_key : Z) (item : Z * T) (bs : B * B) : res (B * B) :=
  let offset := key_offset (fst item) first_key in
  if offset <? 0 then
    _ ← assert (neg_index offset <? bv_len (snd bs));
    Ret (fst bs, bv_set (snd bs) (neg_index offset) false)
  else
    _ ← assert (offset <? bv_len (fst bs));
    Ret (bv_set (fst bs) offset false, snd bs).

Definition clear (s : BitmapSet) : res BitmapSet :=
  match head s.(items) with
  | None => Ret s
  | Some first =>
      bs ← for_each s.(items) (clear_bit (fst first)) (s.(p_bitmap), s.(n_bitmap));
      Ret {| items := [];
             set := match s.(set) with Some _ => Some ∅ | None => None end;
             p_bitmap := fst bs; n_bitmap := snd bs |}
  end.

Definition iter (s : BitmapSet) : list (Z * T) := s.(items).

(** ** Offsets of keys *)

Lemma key_offset_range k k0 :
  -9223372036854775808 <= key_offset k k0 < 9223372036854775808.
Proof. apply wrap_isize_range. Qed.

Lemma key_offset_near k k0 :
  is_usize k -> is_usize k0 -> Z.abs (k - k0) < 9223372036854775808 ->
  key_offset k k0 = k - k0.
Proof. unfold key_offset, wrap_isize, is_usize. lia_mod. Qed.

Lemma key_offset_inj k1 k2 k0 :
  is_usize k1 -> is_usize k2 -> is_usize k0 ->
  key_offset k1 k0 = key_offset k2 k0 -> k1 = k2.
Proof. unfold key_offset, wrap_isize, is_usize. lia_mod. Qed.

Lemma key_offset_diag k : key_offset k k = 0.
Proof. unfold key_offset. by rewrite Z.sub_diag. Qed.

Lemma neg_index_eq o :
  -9223372036854775808 <= o < 0 -> neg_index o = - o - 1.
Proof. unfold neg_index, wrap_usize, wrap_isize. lia_mod. Qed.

(** ** Representation invariant *)

Definition first_key (l : list (Z * T)) : Z :=
  match l with [] => 0 | (k, _) :: _ => k end.

(** [v] has the bit of offset [i] set exactly when an item of [rest] has the
    offset [f i]. *)
Definition bits_ok (v : B) (f : Z -> Z) (k0 : Z) (rest : list (Z * T)) : Prop :=
  forall i, 0 <= i ->
    bv_get v i = Some true <-> exists k x, (k, x) ∈ rest /\ key_offset k k0 = f i.

Record wf (s : BitmapSet) : Prop := {
  wf_keys : forall k x, (k, x) ∈ s.(items) -> is_usize k;
  wf_nodup : NoDup s.(items);
  wf_p : bits_ok s.(p_bitmap) (fun i => i) (first_key s.(items)) (tail s.(items));
  wf_n : bits_ok s.(n_bitmap) (fun i => - i - 1) (first_key s.(items)) (tail s.(items));
  wf_p_len : 1024 <= bv_len s.(p_bitmap) <= MAX_OFFSET;
  wf_n_len : 1024 <= bv_len s.(n_bitmap) <= MAX_OFFSET;
  wf_set : forall st, s.(set) = Some st ->
    (forall x, x ∈ tail s.(items) -> x ∈ st) /\ (forall x, x ∈ st -> x ∈ s.(items));
}.

Lemma bits_ok_repeat f k0 n : 0 <= n -> bits_ok (bv_repeat false n) f k0 [].
Proof.
  intros Hn i Hi. split; [|set_solver].
  intros Hg. destruct (proj1 (bv_get_range (bv_repeat false n) i)) as [_ Hlt]; [by eexists|].
  rewrite bv_len_repeat in Hlt by done. rewrite bv_get_repeat in Hg by lia. done.
Qed.

Lemma new_wf : wf new.
Proof.
  split; cbn; try apply bits_ok_repeat; try (rewrite bv_len_repeat; unfold MAX_OFFSET);
    try lia; try done.
  - intros k x Hx. set_solver.
  - constructor.
Qed.

(** Setting the bit of a new item. *)
Lemma bits_ok_set v f k0 rest i key value :
  bits_ok v f k0 rest -> 0 <= i < bv_len v -> key_offset key k0 = f i ->
  (forall i j, f i = f j -> i = j) ->
  bits_ok (bv_set v i true) f k0 (rest ++ [(key, value)]).
Proof.
  intros Hok Hi Hf Hinj j Hj. rewrite bv_get_set by done. split.
  - destruct (i =? j) eqn:E; bools.
    + intros _. subst j. exists key, value. split; [set_solver|done].
    + intros (k & x & Hin & Ho)%Hok; [|done]. exists k, x. split; [set_solver|done].
  - intros (k & x & [Hin|Hin]%elem_of_app & Ho).
    + destruct (i =? j) eqn:E; [done|]. apply Hok; [done|]. eauto.
    + apply list_elem_of_singleton in Hin as [= -> ->].
      rewrite (Hinj i j) by congruence. by rewrite Z.eqb_refl.
Qed.

(** The other bitmap is not affected by a new item. *)
Lemma bits_ok_other v f k0 rest key value :
  bits_ok v f k0 rest -> (forall i, 0 <= i -> key_offset key k0 <> f i) ->
  bits_ok v f k0 (rest ++ [(key, value)]).
Proof.
  intros Hok Hne j Hj. rewrite (Hok j Hj). split.
  - intros (k & x & Hin & Ho). exists k, x. split; [set_solver|done].
  - intros (k & x & [Hin|Hin]%elem_of_app & Ho); [eauto|].
    apply list_elem_of_singleton in Hin as [= -> ->]. by apply Hne in Ho.
Qed.

Lemma bits_ok_resize v f k0 rest n :
  bits_ok v f k0 rest -> bv_len v <= n -> 0 <= bv_len v -> bits_ok (bv_resize v n false) f k0 rest.
Proof.
  intros Hok Hn Hv i Hi. rewrite <- (Hok i Hi). split; intros Hg.
  - destruct (proj1 (bv_get_range (bv_resize v n false) i)) as [_ Hlt]; [by eexists|].
    rewrite bv_len_resize in Hlt by lia. rewrite bv_get_resize in Hg by lia.
    by destruct (i <? bv_len v).
  - destruct (proj1 (bv_get_range v i)) as [_ Hlt]; [by eexists|].
    rewrite bv_get_resize by lia. destruct (i <? bv_len v) eqn:E; bools; [done|lia].
Qed.

(** A second item with a known key has an offset whose bit is set, except for
    the key of the first item. *)
Lemma bit_clear_new s key value k0 x0 rest (v : B) f i :
  wf s -> s.(items) = (k0, x0) :: rest -> is_usize key ->
  bits_ok v f k0 rest -> 0 <= i -> key_offset key k0 = f i ->
  bv_get v i <> Some true -> (k0, x0) <> (key, value) ->
  (key, value) ∉ s.(items).
Proof.
  intros Hwf Hi Hk Hok Hpos Ho Hb Hne Hin. rewrite Hi in Hin.
  apply elem_of_cons in Hin as [?|Hin]; [congruence|].
  apply Hb, Hok; [done|]. eauto.
Qed.

Lemma insert_new_key_wf s k0 x0 rest (p n : B) key value :
  wf s -> s.(items) = (k0, x0) :: rest -> is_usize key ->
  (key, value) ∉ s.(items) ->
  bits_ok p (fun i => i) k0 (rest ++ [(key, value)]) ->
  bits_ok n (fun i => - i - 1) k0 (rest ++ [(key, value)]) ->
  1024 <= bv_len p <= MAX_OFFSET -> 1024 <= bv_len n <= MAX_OFFSET ->
  exists s', insert_new_key {| items := s.(items); set := s.(set); p_bitmap := p; n_bitmap := n |} key value = Ret (s', true) /\
    wf s' /\ s'.(items) = s.(items) ++ [(key, value)].
Proof.
  intros Hwf Hi Hk Hnew Hp Hn Hlp Hln. unfold insert_new_key. cbn [set items p_bitmap n_bitmap].
  set (st' := (fun st => {[ (key, value) ]} ∪ st) <$> s.(set)).
  assert (match s.(set) with
          | Some st => _ ← assert (bool_decide ((key, value) ∉ st)); Ret (Some ({[ (key, value) ]} ∪ st))
          | None => Ret None
          end = Ret st') as ->.
  { subst st'. destruct (set s) as [st|] eqn:Es; [|done]. destruct (wf_set _ Hwf st Es) as [_ H2].
    by rewrite bool_decide_eq_true_2 by (intros Hin; by apply Hnew, H2). }
  cbn [mbind res_bind]. eexists. split; [done|]. split; [|done]. split; cbn; try done.
  - intros k x [Hin|Hin]%elem_of_app; [by eapply wf_keys|].
    by apply list_elem_of_singleton in Hin as [= -> ->].
  - apply NoDup_app. split; [apply Hwf|]. split; [|apply NoDup_singleton].
    intros y Hy ->%list_elem_of_singleton. done.
  - by rewrite Hi.
  - by rewrite Hi.
  - pose proof (wf_set _ Hwf) as Hs. rewrite Hi in *. cbn in *.
    subst st'. destruct (set s) as [st|]; [|done]. intros ? [= <-].
    destruct (Hs st eq_refl) as [H1 H2]. set_solver.
Qed.

Lemma set_complete s k0 x0 rest st key value :
  wf s -> s.(items) = (k0, x0) :: rest -> s.(set) = Some st -> (k0, x0) <> (key, value) ->
  (key, value) ∈ st <-> (key, value) ∈ s.(items).
Proof.
  intros Hwf Hi Hs Hne. destruct (wf_set _ Hwf st Hs) as [H1 H2]. split; [apply H2|].
  rewrite Hi in *. intros [?|Hin]%elem_of_cons; [congruence|]. by apply H1.
Qed.

(** The pair is looked up in the hash set, which agrees with the items. *)
Lemma insert_existing_key_ok s k0 x0 rest key value :
  wf s -> s.(items) = (k0, x0) :: rest -> is_usize key -> (k0, x0) <> (key, value) ->
  (exists y, (key, y) ∈ s.(items)) ->
  bits_ok s.(p_bitmap) (fun i => i) k0 (rest ++ [(key, value)]) ->
  bits_ok s.(n_bitmap) (fun i => - i - 1) k0 (rest ++ [(key, value)]) ->
  let r := insert_existing_key s key value in
  wf (fst r) /\ snd r = bool_decide ((key, value) ∉ s.(items)) /\
  (fst r).(items) = if snd r then s.(items) ++ [(key, value)] else s.(items).
Proof.
  intros Hwf Hi Hk Hne Hex Hp Hn. unfold insert_existing_key.
  set (st := match set s with Some st => st | None => _ end).
  assert (Hst : (key, value) ∈ st <-> (key, value) ∈ s.(items)).
  { subst st. destruct (set s) as [st|] eqn:Es; [by eapply set_complete|].
    apply elem_of_list_to_set. }
  assert (Hsub : (forall x, x ∈ tail s.(items) -> x ∈ st) /\
                 (forall x, x ∈ st -> x ∈ s.(items))).
  { subst st. destruct (set s) as [st|] eqn:Es; [by apply (wf_set _ Hwf)|].
    rewrite Hi. split; intros x; rewrite elem_of_list_to_set; set_solver. }
  destruct Hsub as [Hsub1 Hsub2].
  assert (Hf : first_key s.(items) = k0) by by rewrite Hi.
  assert (Ht : tail s.(items) = rest) by by rewrite Hi.
  assert (Ht' : tail (s.(items) ++ [(key, value)]) = rest ++ [(key, value)]) by by rewrite Hi.
  assert (Hf' : first_key (s.(items) ++ [(key, value)]) = k0) by by rewrite Hi.
  case_decide as Hd; cbn; (split; [|split; [symmetry; first
    [apply bool_decide_eq_false; tauto | apply bool_decide_eq_true; tauto]|done]]);
    split; cbn; try apply Hwf.
  - intros ? [= <-]. by split.
  - intros k x [Hin|[= -> ->]%list_elem_of_singleton]%elem_of_app; [by eapply wf_keys|done].
  - apply NoDup_app. split; [apply Hwf|]. split; [|apply NoDup_singleton].
    intros y Hy ->%list_elem_of_singleton. tauto.
  - by rewrite Hf', Ht'.
  - by rewrite Hf', Ht'.
  - intros ? [= <-]. rewrite Ht'. rewrite Ht in Hsub1. set_solver.
Qed.

Lemma bits_ok_again v f k0 rest i key value :
  bits_ok v f k0 rest -> 0 <= i -> bv_get v i = Some true -> key_offset key k0 = f i ->
  (forall i j, f i = f j -> i = j) ->
  bits_ok v f k0 (rest ++ [(key, value)]).
Proof.
  intros Hok Hi Hg Hf Hinj j Hj. rewrite (Hok j Hj). split.
  - intros (k & x & Hin & Ho). exists k, x. split; [set_solver|done].
  - intros (k & x & [Hin|[= -> ->]%list_elem_of_singleton]%elem_of_app & Ho); [eauto|].
    rewrite <- (Hinj i j) by congruence. apply Hok; [done|]. by rewrite Hg.
Qed.

(** What [insert] returns when it does not panic. *)
Definition inserted (s : BitmapSet) (key : Z) (value : T) (r : BitmapSet * bool) : Prop :=
  wf (fst r) /\ snd r = bool_decide ((key, value) ∉ s.(items)) /\
  (fst r).(items) = if snd r then s.(items) ++ [(key, value)] else s.(items).

Lemma inserted_new_key s k0 x0 rest (p n : B) key value :
  wf s -> s.(items) = (k0, x0) :: rest -> is_usize key ->
  (key, value) ∉ s.(items) ->
  bits_ok p (fun i => i) k0 (rest ++ [(key, value)]) ->
  bits_ok n (fun i => - i - 1) k0 (rest ++ [(key, value)]) ->
  1024 <= bv_len p <= MAX_OFFSET -> 1024 <= bv_len n <= MAX_OFFSET ->
  exists r, insert_new_key {| items := s.(items); set := s.(set); p_bitmap := p; n_bitmap := n |} key value = Ret r /\
    inserted s key value r.
Proof.
  intros Hwf Hi Hk Hnew Hp Hn Hlp Hln.
  destruct (insert_new_key_wf s k0 x0 rest p n key value) as (s' & E & Hs & Hit); [done..|].
  eexists. split; [exact E|]. split; [done|]. split; [symmetry; by apply bool_decide_eq_true|done].
Qed.

(** The three ways in which a key with bitmap index [i] is handled, for the
    bitmap [v] that holds it; [w] updates that bitmap in the state. *)
Lemma new_bit_ok s k0 x0 rest v f i key value :
  wf s -> s.(items) = (k0, x0) :: rest -> is_usize key -> (k0, x0) <> (key, value) ->
  bits_ok v f k0 rest -> 1024 <= bv_len v <= MAX_OFFSET ->
  0 <= i < MAX_OFFSET -> key_offset key k0 = f i -> (forall i j, f i = f j -> i = j) ->
  bv_get v i <> Some true ->
  let v' := if bv_len v <=? i then bv_set (bv_resize v (i + 1) false) i true
            else bv_set v i true in
  (key, value) ∉ s.(items) /\ bits_ok v' f k0 (rest ++ [(key, value)]) /\
  1024 <= bv_len v' <= MAX_OFFSET.
Proof.
  intros Hwf Hi Hk Hne Hok Hl Hr Hf Hinj Hg.
  split; [eapply bit_clear_new; eauto; lia|].
  destruct (bv_len v <=? i) eqn:E; bools; rewrite bv_len_set.
  - rewrite bv_len_resize by lia. split; [|lia].
    apply bits_ok_set; try done; [|rewrite bv_len_resize by lia; lia].
    apply bits_ok_resize; [done|lia..].
  - split; [|lia]. apply bits_ok_set; [done|lia|done|done].
Qed.

Definition far (s : BitmapSet) (key : Z) (value : T) : Prop :=
  match head s.(items) with
  | None => False
  | Some (k0, x0) =>
      (k0, x0) <> (key, value) /\
      ~ (- MAX_OFFSET <= key_offset key k0 < MAX_OFFSET)
  end.

Lemma first_usize s x0 rest k0 :
  wf s -> s.(items) = (k0, x0) :: rest -> is_usize k0.
Proof. intros Hwf Hi. apply (wf_keys _ Hwf k0 x0). rewrite Hi. left. Qed.

Lemma insert_first s key value :
  wf s -> is_usize key -> s.(items) = [] ->
  exists r, insert s key value = Ret r /\ inserted s key value r.
Proof.
  intros Hwf Hk Hi. unfold insert. rewrite Hi. cbn. eexists. split; [done|].
  destruct Hwf as [? ? Hp Hn ? ? Hset]. rewrite Hi in *. cbn in *.
  assert (Hnone : forall (v : B) f, bits_ok v f 0 [] -> bits_ok v f key []).
  { intros v f Hok i Hpos. rewrite (Hok i Hpos). set_solver. }
  unfold inserted. rewrite Hi. cbn. rewrite bool_decide_eq_true_2 by set_solver.
  split; [|done]. split; cbn; auto.
  - intros k x [= -> ->]%list_elem_of_singleton. done.
  - apply NoDup_singleton.
  - intros st Hs. destruct (Hset st Hs). set_solver.
Qed.

Lemma insert_neg s k0 x0 rest key value :
  wf s -> is_usize key -> s.(items) = (k0, x0) :: rest -> (k0, x0) <> (key, value) ->
  key_offset key k0 < 0 ->
  if - MAX_OFFSET <=? key_offset key k0
  then exists r, insert s key value = Ret r /\ inserted s key value r
  else insert s key value = Panic.
Proof.
  intros Hwf Hk Hi Hne Ho. unfold insert. rewrite Hi. cbn.
  pose proof (key_offset_range key k0) as Hrange.
  assert ((k0 =? key) && bool_decide (x0 = value) = false) as ->.
  { apply andb_false_iff. destruct (decide (k0 = key)) as [->|]; [right|left; lia].
    apply bool_decide_eq_false. congruence. }
  assert (key_offset key k0 <? 0 = true) as -> by lia.
  rewrite neg_index_eq by lia. set (i := - key_offset key k0 - 1).
  pose proof (wf_n _ Hwf) as Hn. pose proof (wf_p _ Hwf) as Hp.
  pose proof (wf_n_len _ Hwf) as Hln. pose proof (wf_p_len _ Hwf) as Hlp.
  rewrite Hi in Hn, Hp. cbn in Hn, Hp.
  assert (Hp' : bits_ok (p_bitmap s) (fun i => i) k0 (rest ++ [(key, value)])).
  { apply bits_ok_other; [done|]. lia. }
  destruct (- MAX_OFFSET <=? key_offset key k0) eqn:Efar; bools.
  - pose proof (new_bit_ok s k0 x0 rest (n_bitmap s) (fun i => - i - 1) i key value
      Hwf Hi Hk Hne Hn Hln ltac:(subst i; lia) ltac:(subst i; cbn beta; lia) ltac:(cbn beta; intros; lia)) as Hnew. cbn zeta in Hnew.
    destruct (bv_len (n_bitmap s) <=? i) eqn:El; bools.
    + assert (i <? MAX_OFFSET = true) as -> by lia. unfold_res.
      destruct Hnew as (? & ? & ?).
      { intros Hg. destruct (proj1 (bv_get_range (n_bitmap s) i)); [by eexists|lia]. }
      by eapply inserted_new_key.
    + destruct (proj2 (bv_get_range (n_bitmap s) i)) as [[|] Hg]; [lia|..]; rewrite Hg.
      * eexists. split; [done|]. apply (insert_existing_key_ok s k0 x0 rest); try done.
        -- destruct (proj1 (Hn i ltac:(lia)) Hg) as (k & x & Hin & Hko).
           assert (k = key) as ->; [|exists x; rewrite Hi; by right].
           apply (key_offset_inj k key k0); [|done|by apply (first_usize s x0 rest)|lia].
           apply (wf_keys _ Hwf k x). rewrite Hi. by right.
        -- eapply (bits_ok_again _ _ _ _ i); try done; lia.
      * destruct Hnew as (? & ? & ?); [congruence|].
        by eapply inserted_new_key.
  - assert (bv_len (n_bitmap s) <=? i = true) as -> by lia.
    by assert (i <? MAX_OFFSET = false) as -> by lia.
Qed.

Lemma insert_pos s k0 x0 rest key value :
  wf s -> is_usize key -> s.(items) = (k0, x0) :: rest -> (k0, x0) <> (key, value) ->
  0 <= key_offset key k0 ->
  if key_offset key k0 <? MAX_OFFSET
  then exists r, insert s key value = Ret r /\ inserted s key value r
  else insert s key value = Panic.
Proof.
  intros Hwf Hk Hi Hne Ho. unfold insert. rewrite Hi. cbn.
  assert ((k0 =? key) && bool_decide (x0 = value) = false) as ->.
  { apply andb_false_iff. destruct (decide (k0 = key)) as [->|]; [right|left; lia].
    apply bool_decide_eq_false. congruence. }
  assert (key_offset key k0 <? 0 = false) as -> by lia. set (i := key_offset key k0) in *.
  pose proof (wf_n _ Hwf) as Hn. pose proof (wf_p _ Hwf) as Hp.
  pose proof (wf_n_len _ Hwf) as Hln. pose proof (wf_p_len _ Hwf) as Hlp.
  rewrite Hi in Hn, Hp. cbn in Hn, Hp.
  assert (Hn' : bits_ok (n_bitmap s) (fun i => - i - 1) k0 (rest ++ [(key, value)])).
  { apply bits_ok_other; [done|]. lia. }
  destruct (i <? MAX_OFFSET) eqn:Efar; bools.
  - pose proof (new_bit_ok s k0 x0 rest (p_bitmap s) (fun i => i) i key value
      Hwf Hi Hk Hne Hp Hlp ltac:(lia) eq_refl ltac:(cbn beta; intros; lia)) as Hnew. cbn zeta in Hnew.
    destruct (bv_len (p_bitmap s) <=? i) eqn:El; bools.
    + unfold_res. destruct Hnew as (? & ? & ?).
      { intros Hg. destruct (proj1 (bv_get_range (p_bitmap s) i)); [by eexists|lia]. }
      by eapply inserted_new_key.
    + destruct (proj2 (bv_get_range (p_bitmap s) i)) as [[|] Hg]; [lia|..]; rewrite Hg.
      * eexists. split; [done|]. apply (insert_existing_key_ok s k0 x0 rest); try done.
        -- destruct (proj1 (Hp i ltac:(lia)) Hg) as (k & x & Hin & Hko).
           assert (k = key) as ->; [|exists x; rewrite Hi; by right].
           apply (key_offset_inj k key k0); [|done|by apply (first_usize s x0 rest)|lia].
           apply (wf_keys _ Hwf k x). rewrite Hi. by right.
        -- eapply (bits_ok_again _ _ _ _ i); try done; lia.
      * destruct Hnew as (? & ? & ?); [congruence|].
        by eapply inserted_new_key.
  - by assert (bv_len (p_bitmap s) <=? i = true) as -> by lia.
Qed.

Lemma insert_same s k0 x0 rest :
  wf s -> s.(items) = (k0, x0) :: rest -> insert s k0 x0 = Ret (s, false).
Proof.
  intros Hwf Hi. unfold insert. rewrite Hi. cbn.
  by rewrite Z.eqb_refl, bool_decide_eq_true_2.
Qed.

Lemma insert_ok s key value :
  wf s -> is_usize key -> ~ far s key value ->
  exists r, insert s key value = Ret r /\ inserted s key value r.
Proof.
  intros Hwf Hk Hfar. unfold far in Hfar.
  destruct (items s) as [|[k0 x0] rest] eqn:Hi; [by apply insert_first|]. cbn in Hfar.
  destruct (decide ((k0, x0) = (key, value))) as [[= <- <-]|Hne].
  - eexists. split; [by eapply insert_same|]. unfold inserted. cbn.
    rewrite bool_decide_eq_false_2 by (rewrite Hi; set_solver). done.
  - assert (- MAX_OFFSET <= key_offset key k0 < MAX_OFFSET) as [H1 H2].
    { destruct (decide (- MAX_OFFSET <= key_offset key k0 < MAX_OFFSET)); [done|tauto]. }
    destruct (decide (key_offset key k0 < 0)).
    + pose proof (insert_neg s k0 x0 rest key value) as Hins.
      destruct (- MAX_OFFSET <=? key_offset key k0) eqn:E; bools; [by apply Hins|lia].
    + pose proof (insert_pos s k0 x0 rest key value) as Hins.
      destruct (key_offset key k0 <? MAX_OFFSET) eqn:E; bools; [apply Hins; auto; lia|lia].
Qed.

Lemma insert_far s key value :
  wf s -> is_usize key -> far s key value -> insert s key value = Panic.
Proof.
  intros Hwf Hk Hfar. unfold far in Hfar.
  destruct (items s) as [|[k0 x0] rest] eqn:Hi; [done|]. destruct Hfar as [Hne Hfar].
  destruct (decide (key_offset key k0 < 0)).
  - pose proof (insert_neg s k0 x0 rest key value) as Hins.
    destruct (- MAX_OFFSET <=? key_offset key k0) eqn:E; bools; [lia|by apply Hins].
  - pose proof (insert_pos s k0 x0 rest key value) as Hins.
    destruct (key_offset key k0 <? MAX_OFFSET) eqn:E; bools; [lia|]. apply Hins; auto; lia.
Qed.

(** ** Clearing *)

(** After clearing the bits of [done], a set bit belongs to an item that is
    still to be processed. *)
Definition only_bits (v : B) (f : Z -> Z) (k0 : Z) (l : list (Z * T)) : Prop :=
  forall i, bv_get v i = Some true -> exists k x, (k, x) ∈ l /\ key_offset k k0 = f i.

Lemma clear_bits_ok k0 l p n :
  (forall k x, (k, x) ∈ l -> 0 <= key_offset k k0 -> key_offset k k0 < bv_len p) ->
  (forall k x, (k, x) ∈ l -> key_offset k k0 < 0 -> - key_offset k k0 - 1 < bv_len n) ->
  only_bits p (fun i => i) k0 l -> only_bits n (fun i => - i - 1) k0 l ->
  exists p' n', for_each l (clear_bit k0) (p, n) = Ret (p', n') /\
    bv_len p' = bv_len p /\ bv_len n' = bv_len n /\
    only_bits p' (fun i => i) k0 [] /\ only_bits n' (fun i => - i - 1) k0 [].
Proof.
  revert p n. induction l as [|[k x] l IH]; intros p n Hbp Hbn Hp Hn.
  - exists p, n. done.
  - pose proof (key_offset_range k k0) as Hr. cbn. unfold clear_bit at 2. cbn.
    destruct (key_offset k k0 <? 0) eqn:E; bools.
    + pose proof (Hbn k x ltac:(left) E) as Hlt. rewrite neg_index_eq by lia.
      assert (- key_offset k k0 - 1 <? bv_len n = true) as -> by lia. unfold_res.
      destruct (IH p (bv_set n (- key_offset k k0 - 1) false)) as (p' & n' & Hc & ? & Hln & ? & ?).
      * intros. eapply Hbp; [right; eassumption|done].
      * intros. rewrite bv_len_set. eapply Hbn; [right; eassumption|done].
      * intros i Hg. destruct (proj1 (bv_get_range p i)) as [? _]; [by eexists|].
        apply Hp in Hg as (k1 & x1 & [[= -> ->]|?]%elem_of_cons & ?); [lia|eauto].
      * intros i. rewrite bv_get_set by lia.
        destruct (_ =? i) eqn:Ei; bools; [done|].
        intros (k1 & x1 & [[= -> ->]|?]%elem_of_cons & ?)%Hn; [lia|eauto].
      * rewrite bv_len_set in Hln. eauto 10.
    + pose proof (Hbp k x ltac:(left) E) as Hlt.
      assert (key_offset k k0 <? bv_len p = true) as -> by lia. unfold_res.
      destruct (IH (bv_set p (key_offset k k0) false) n) as (p' & n' & Hc & Hlp & ? & ? & ?).
      * intros. rewrite bv_len_set. eapply Hbp; [right; eassumption|done].
      * intros. eapply Hbn; [right; eassumption|done].
      * intros i. rewrite bv_get_set by lia.
        destruct (_ =? i) eqn:Ei; bools; [done|].
        intros (k1 & x1 & [[= -> ->]|?]%elem_of_cons & ?)%Hp; [lia|eauto].
      * intros i Hg. destruct (proj1 (bv_get_range n i)) as [? _]; [by eexists|].
        apply Hn in Hg as (k1 & x1 & [[= -> ->]|?]%elem_of_cons & ?); [lia|eauto].
      * rewrite bv_len_set in Hlp. eauto 10.
Qed.

Lemma wf_item_bounds s k0 x0 rest :
  wf s -> s.(items) = (k0, x0) :: rest ->
  (forall k x, (k, x) ∈ s.(items) ->
     0 <= key_offset k k0 -> key_offset k k0 < bv_len s.(p_bitmap)) /\
  (forall k x, (k, x) ∈ s.(items) ->
     key_offset k k0 < 0 -> - key_offset k k0 - 1 < bv_len s.(n_bitmap)).
Proof.
  intros Hwf Hi. pose proof (wf_n _ Hwf) as Hn. pose proof (wf_p _ Hwf) as Hp.
  pose proof (wf_p_len _ Hwf) as Hl. rewrite Hi in *. cbn in Hn, Hp.
  split; intros k x [[= -> ->]|Hin]%elem_of_cons Ho.
  - rewrite key_offset_diag. lia.
  - apply bv_get_range. exists true. apply Hp; eauto.
  - rewrite key_offset_diag in Ho. lia.
  - apply bv_get_range. exists true. apply Hn; [lia|]. exists k, x. split; [done|lia].
Qed.

Lemma wf_only_bits s v f :
  bits_ok v f (first_key s.(items)) (tail s.(items)) ->
  only_bits v f (first_key s.(items)) s.(items).
Proof.
  intros Hok i Hg. destruct (proj1 (bv_get_range v i)) as [Hi _]; [by eexists|].
  apply Hok in Hg as (k & x & Hin & Ho); [|done]. exists k, x. split; [|done].
  destruct (items s); [done|]. by right.
Qed.

Lemma only_bits_nil v f k0 k1 : only_bits v f k0 [] -> bits_ok v f k1 [].
Proof.
  intros Ho i Hi. split; [|set_solver]. intros (? & ? & ? & _)%Ho. set_solver.
Qed.

Lemma clear_ok s : wf s -> exists s', clear s = Ret s' /\ wf s' /\ s'.(items) = [].
Proof.
  intros Hwf. unfold clear. destruct (items s) as [|[k0 x0] rest] eqn:Hi.
  - exists s. cbn. rewrite Hi. done.
  - destruct (wf_item_bounds s k0 x0 rest Hwf Hi) as [Hbp Hbn].
    pose proof (wf_only_bits s _ _ (wf_p _ Hwf)) as Hp.
    pose proof (wf_only_bits s _ _ (wf_n _ Hwf)) as Hn.
    rewrite Hi in *. cbn [first_key] in Hp, Hn. cbn [head fst].
    destruct (clear_bits_ok k0 _ _ _ Hbp Hbn Hp Hn) as (p' & n' & Hc & Hlp & Hln & Hp' & Hn').
    rewrite Hc. unfold_res. eexists. split; [done|]. split; [|done].
    split; cbn; try by eapply only_bits_nil.
    + intros k x ?. set_solver.
    + constructor.
    + rewrite Hlp. apply Hwf.
    + rewrite Hln. apply Hwf.
    + intros st. destruct (set s); [|done]. intros [= <-]. set_solver.
Qed.

(** A panic needs a key at more than [MAX_OFFSET] from the first one. *)
Lemma near_not_far s key value :
  wf s -> is_usize key ->
  (forall k x, (k, x) ∈ s.(items) -> Z.abs (key - k) < MAX_OFFSET) -> ~ far s key value.
Proof.
  intros Hwf Hk Hnear. unfold far.
  destruct (items s) as [|[k0 x0] rest] eqn:Hi; [tauto|]. cbn. intros [_ Hf]. apply Hf.
  specialize (Hnear k0 x0 ltac:(left)). unfold MAX_OFFSET in *.
  rewrite key_offset_near; [lia|done|by eapply first_usize|lia].
Qed.
End BitmapSet.
Arguments BitmapSet B T {_ _}.

(** * The set implements the interface of the fast virtual machine *)
Section Positions.
Context {B : Type} `{BVL : BitVecLaws B}.

(** [BitmapSet<()>] *)
#[global] Instance BitmapSet_PosSet : PosSet (BitmapSet B unit) := {
  pos_new := new;
  pos_insert k s := fst <$> insert s k tt;
  pos_clear := clear;
  pos_items s := fst <$> iter s;
}.

Lemma elem_of_keys (l : list (Z * unit)) k : k ∈ fst <$> l <-> (k, tt) ∈ l.
Proof.
  rewrite list_elem_of_fmap. split.
  - by intros ([? []] & -> & Hin).
  - intros Hin. by exists (k, tt).
Qed.

Lemma insert_keys (s s' : BitmapSet B unit) k (b : bool) :
  b = bool_decide ((k, tt) ∉ s.(items)) ->
  s'.(items) = (if b then s.(items) ++ [(k, tt)] else s.(items)) ->
  fst <$> s'.(items) = add_new k (fst <$> s.(items)).
Proof.
  intros -> ->. unfold add_new. case_decide as Hd; rewrite elem_of_keys in Hd.
  - by rewrite bool_decide_eq_false_2 by tauto.
  - rewrite bool_decide_eq_true_2 by tauto. by rewrite fmap_app.
Qed.

#[global] Instance BitmapSet_PosSetLaws : PosSetLaws (BitmapSet B unit).
Proof.
  refine {| pos_ok := wf |}; cbn.
  - apply new_wf.
  - done.
  - intros s (s' & Hc & Hwf & Hi)%clear_ok. exists s'. unfold iter. by rewrite Hi.
  - intros s Hwf. apply NoDup_fmap_2_strong; [|apply Hwf].
    intros [? []] [? []] _ _ Heq. cbn in Heq. by subst.
  - intros k s Hwf Hk Hnear.
    destruct (insert_ok s k tt Hwf Hk) as ([s' b] & Hins & Hwf' & Hb & Hi).
    { apply near_not_far; [done..|]. intros j x Hin. apply Hnear.
      destruct x. by apply elem_of_keys. }
    exists s'. rewrite Hins. split; [done|]. split; [done|]. by eapply insert_keys.
Defined.
End Positions.

(** * Properties *)

(** C23: [insert] on a well-formed set either panics, exactly when the key is
    too far from the first one for the bitmaps (and the pair is not the first
    pair of the set), or reports whether the pair was new, appends it to the
    items in that case only, and leaves the set well-formed. The key is too far
    when it is [MAX_OFFSET] or more above the first one, or more than
    [MAX_OFFSET] below it, as a difference of [isize]: the documentation of [insert]
    also says that it panics at exactly [MAX_OFFSET] below, where the code accepts
    the key. *)
Theorem insert_correct {B} `{BVL : BitVecLaws B} {T} `{Countable T}
    (s : BitmapSet B T) (key : Z) (value : T) :
  wf s -> is_usize key ->
  (far s key value <-> exists k0 x0, head (iter s) = Some (k0, x0) /\ (k0, x0) <> (key, value) /\
     (MAX_OFFSET <= key_offset key k0 \/ key_offset key k0 < - MAX_OFFSET)) /\
  (far s key value -> insert s key value = Panic) /\
  (~ far s key value ->
     exists s' fresh, insert s key value = Ret (s', fresh) /\
       fresh = bool_decide ((key, value) ∉ iter s) /\
       iter s' = (if fresh : bool then iter s ++ [(key, value)] else iter s) /\
       wf s').
Proof.
  intros Hwf Hk. split.
  { unfold far, iter. destruct (head (items s)) as [[k0 x0]|]; [|naive_solver]. split.
    - intros [Hne Hf]. exists k0, x0. split; [done|]. split; [done|]. lia.
    - intros (k & x & [= <- <-] & Hne & Hf). split; [done|]. lia. }
  split; [by apply insert_far|].
  intros Hnear. destruct (insert_ok s key value Hwf Hk Hnear) as ([s' b] & ? & ? & ? & ?).
  by exists s', b.
Qed.

Lemma insert_correct_witness :
  let s := @new (list bool) _ Z _ _ in
  wf s /\ is_usize 4 /\
  exists s' fresh, insert s 4 0 = Ret (s', fresh) /\
    fresh = bool_decide ((4, 0) ∉ iter s) /\
    iter s' = (if fresh : bool then iter s ++ [(4, 0)] else iter s) /\ wf s'.
Proof.
  cbn zeta. split; [apply new_wf|]. split; [unfold is_usize; lia|].
  destruct (insert_correct (@new (list bool) _ Z _ _) 4 0) as (_ & _ & H); [apply new_wf|unfold is_usize; lia|].
  apply H. intros [].
Defined.

(** [clear] never panics on a well-formed set and gives a well-formed set
    without items, in which no bit of the bitmaps is left set, so that the next
    use of the set starts afresh. *)
Theorem clear_correct {B} `{BVL : BitVecLaws B} {T} `{Countable T} (s : BitmapSet B T) :
  wf s ->
  exists s', clear s = Ret s' /\ wf s' /\ iter s' = [] /\
    (forall i, bv_get s'.(p_bitmap) i <> Some true) /\
    (forall i, bv_get s'.(n_bitmap) i <> Some true).
Proof.
  intros Hwf. destruct (clear_ok s Hwf) as (s' & Hc & Hwf' & Hi).
  exists s'. split; [done|]. split; [done|]. split; [done|].
  pose proof (wf_p _ Hwf') as Hp. pose proof (wf_n _ Hwf') as Hn. rewrite Hi in *.
  split; intros i Hg.
  - destruct (proj1 (bv_get_range (p_bitmap s') i)); [by eexists|].
    apply Hp in Hg; [|done]. set_solver.
  - destruct (proj1 (bv_get_range (n_bitmap s') i)); [by eexists|].
    apply Hn in Hg; [|done]. set_solver.
Qed.

Lemma clear_correct_witness :
  exists s s' : BitmapSet (list bool) Z,
    (r1 ← insert new 10 0; r2 ← insert (fst r1) 3 1; Ret (fst r2)) = Ret s /\ wf s /\
    clear s = Ret s' /\ iter s' = [].
Proof.
  assert (Hr : forall z, 0 <= z < 100 -> is_usize z) by (unfold is_usize; lia).
  destruct (insert_ok (@new (list bool) _ Z _ _) 10 0 new_wf (Hr 10 ltac:(lia)) ltac:(intros []))
    as ([s1 b1] & E1 & Hw1 & _ & I1).
  assert (Hf : ~ far s1 3 1).
  { injection E1 as <- <-. unfold far. cbn. intros [_ H]. apply H. vm_compute. split; congruence. }
  destruct (insert_ok s1 3 1 Hw1 (Hr 3 ltac:(lia)) Hf) as ([s2 b2] & E2 & Hw2 & _ & I2).
  destruct (clear_correct s2 Hw2) as (s3 & Hc & _ & Hi & _).
  exists s2, s3. rewrite E1. cbn. rewrite E2. auto.
Defined.
