(* ===== verification/Re.v ===== *)
(** Definitions shared by the two matching engines, from [lib/src/re/mod.rs]:
    limits, errors, code locations and the iterator over wide strings. *)

From S2P Require Import Prelude.

Definition DEFAULT_SCAN_LIMIT : Z := 4096.
Definition MAX_ALTERNATIVES : Z := 255.

(** [re::Error] *)
Inductive Error : Type := TooLarge | TooManyAlternatives | FastIncompatible.

#[export] Instance Error_eq_dec : EqDecision Error.
Proof. solve_decision. Defined.

(** * Code locations

    A location is kept as a non-zero [u32], one more than the offset. *)
Inductive CodeLoc : Type :=
  | FwdCodeLoc (nz : Z)
  | BckCodeLoc (nz : Z).

(** [From<usize>]: both conversions panic when the value or its successor do
    not fit ([value + 1] wraps to zero in the second case). *)
Definition nonzero_loc (value : Z) : res Z :=
  if value <=? u32_MAX then
    let v := wrap_u32 (value + 1) in
    if v =? 0 then Panic else Ret v
  else Panic.

Definition fwd_from (value : Z) : res CodeLoc := FwdCodeLoc <$> nonzero_loc value.
Definition bck_from (value : Z) : res CodeLoc := BckCodeLoc <$> nonzero_loc value.

Definition location (c : CodeLoc) : Z :=
  match c with FwdCodeLoc nz => nz - 1 | BckCodeLoc nz => nz - 1 end.

Definition backwards (c : CodeLoc) : bool :=
  match c with FwdCodeLoc _ => false | BckCodeLoc _ => true end.

(** [C::from], for the kind of location that [c] is. *)
Definition from_same (c : CodeLoc) (value : Z) : res CodeLoc :=
  match c with FwdCodeLoc _ => fwd_from value | BckCodeLoc _ => bck_from value end.

(** * Wide strings

    [WideIter]: the underlying iterator is the list of the bytes it has still
    to return; the shared [error_pos] cell is a field, since no one else writes
    to it. *)
Record WideIter := {
  wi_iter : list Z;
  wi_error_pos : option Z;
  wi_valid_pairs : Z;
  wi_zero_first : bool;
}.

Definition non_zero_first (iter : list Z) : WideIter :=
  {| wi_iter := iter; wi_error_pos := None; wi_valid_pairs := 0; wi_zero_first := false |}.

Definition zero_first (iter : list Z) : WideIter :=
  {| wi_iter := iter; wi_error_pos := None; wi_valid_pairs := 0; wi_zero_first := true |}.

(** A pair whose zero byte is [z]: the first error is recorded. *)
Definition wi_step (w : WideIter) (rest : list Z) (z : Z) : WideIter :=
  {| wi_iter := rest;
     wi_error_pos := if negb (z =? 0) && bool_decide (w.(wi_error_pos) = None)
                     then Some w.(wi_valid_pairs) else w.(wi_error_pos);
     wi_valid_pairs := w.(wi_valid_pairs) + 1;
     wi_zero_first := w.(wi_zero_first) |}.

Definition wide_next (w : WideIter) : option Z * WideIter :=
  match w.(wi_iter) with
  | first_byte :: second_byte :: rest =>
      if w.(wi_zero_first)
      then (Some second_byte, wi_step w rest first_byte)
      else (Some first_byte, wi_step w rest second_byte)
  | _ => (None, {| wi_iter := []; wi_error_pos := w.(wi_error_pos);
                   wi_valid_pairs := w.(wi_valid_pairs);
                   wi_zero_first := w.(wi_zero_first) |})
  end.

(** * Lemmas *)

Lemma nonzero_loc_ret v nz : nonzero_loc v = Ret nz -> 0 <= v -> nz = v + 1 /\ v < u32_MAX.
Proof.
  unfold nonzero_loc, wrap_u32, u32_MAX. intros H Hv.
  destruct (v <=? _) eqn:E; bools; [|done]. destruct (_ =? 0) eqn:E2; bools; [done|].
  injection H as <-. lia_mod.
Qed.

Lemma nonzero_loc_small v : 0 <= v < u32_MAX -> nonzero_loc v = Ret (v + 1).
Proof.
  unfold nonzero_loc, wrap_u32, u32_MAX. intros H.
  assert (v <=? 4294967295 = true) as -> by lia. rewrite Z.mod_small by lia.
  by assert (v + 1 =? 0 = false) as -> by lia.
Qed.
