(* ===== verification/Cursor.v ===== *)
(** [std::io::Cursor<Vec<u8>>], the buffer in which both compilers emit code. *)

From S2P Require Import Prelude.

Record Cursor := { seq_vec : list Z; seq_pos : Z }.

Definition cursor_new : Cursor := {| seq_vec := []; seq_pos := 0 |}.

(** [write_all] at the cursor overwrites what is there, fills with zeroes up to
    a cursor past the end, and extends the vector. *)
Definition write_all (bs : list Z) (s : Cursor) : Cursor :=
  let n := Z.to_nat s.(seq_pos) in
  {| seq_vec := take n s.(seq_vec) ++ replicate (n - length s.(seq_vec)) 0 ++ bs ++
                drop (n + length bs) s.(seq_vec);
     seq_pos := s.(seq_pos) + len bs |}.

Definition seek_start (n : Z) (s : Cursor) : Cursor :=
  {| seq_vec := s.(seq_vec); seq_pos := n |}.
Definition seek_end (s : Cursor) : Cursor :=
  {| seq_vec := s.(seq_vec); seq_pos := len s.(seq_vec) |}.

(** [seek(SeekFrom::Current(n)).unwrap()]: a negative position is an error. *)
Definition seek_current (n : Z) (s : Cursor) : res Cursor :=
  if s.(seq_pos) + n <? 0 then Panic
  else Ret {| seq_vec := s.(seq_vec); seq_pos := s.(seq_pos) + n |}.

(** [read_exact(&mut buf).unwrap()] for a buffer of [n] bytes. *)
Definition read_exact (n : Z) (s : Cursor) : res (list Z * Cursor) :=
  bs ← index_range s.(seq_vec) s.(seq_pos) (s.(seq_pos) + n);
  Ret (bs, {| seq_vec := s.(seq_vec); seq_pos := s.(seq_pos) + n |}).

Definition seq_append (s : Cursor) (bs : list Z) : Cursor :=
  {| seq_vec := s.(seq_vec) ++ bs; seq_pos := len (s.(seq_vec) ++ bs) |}.

Definition at_end (s : Cursor) : Prop := s.(seq_pos) = len s.(seq_vec).

Lemma at_end_append s bs : at_end (seq_append s bs).
Proof. done. Qed.

Lemma seq_append_append s bs1 bs2 :
  seq_append (seq_append s bs1) bs2 = seq_append s (bs1 ++ bs2).
Proof. unfold seq_append. cbn. by rewrite <- app_assoc. Qed.

Lemma seq_append_nil s : at_end s -> seq_append s [] = s.
Proof. destruct s. unfold at_end, seq_append. cbn. intros ->. by rewrite app_nil_r. Qed.

Lemma write_all_end bs s : at_end s -> write_all bs s = seq_append s bs.
Proof.
  intros He. unfold write_all, seq_append. rewrite He. unfold len at 1 2 3 4.
  rewrite Nat2Z.id, firstn_all, Nat.sub_diag, drop_ge by lia. cbn.
  rewrite app_nil_r. f_equal. rewrite len_app. unfold len. lia.
Qed.

Lemma write_all_append bs1 bs2 s :
  write_all bs2 (seq_append s bs1) = seq_append s (bs1 ++ bs2).
Proof. rewrite write_all_end by apply at_end_append. apply seq_append_append. Qed.

(** Writing over bytes that are already there. *)
Lemma write_all_patch pre old post bs :
  len old = len bs ->
  write_all bs {| seq_vec := pre ++ old ++ post; seq_pos := len pre |} =
  {| seq_vec := pre ++ bs ++ post; seq_pos := len pre + len bs |}.
Proof.
  intros Hl. unfold write_all. cbn [seq_vec seq_pos]. unfold len in Hl |- * at 1 2 3.
  rewrite Nat2Z.id, take_app_length, <- drop_drop, drop_app_length.
  rewrite drop_app_length' by lia.
  rewrite (proj2 (Nat.sub_0_le _ _)) by (rewrite length_app; lia). done.
Qed.

Lemma read_exact_mid pre bs post n :
  n = len bs ->
  read_exact n {| seq_vec := pre ++ bs ++ post; seq_pos := len pre |} =
  Ret (bs, {| seq_vec := pre ++ bs ++ post; seq_pos := len pre + n |}).
Proof.
  intros ->. unfold read_exact, index_range. cbn [seq_vec seq_pos].
  by rewrite (get_range_mid pre bs post).
Qed.
