(* ===== verification/FastInstr.v ===== *)
(** The instruction set of the fast virtual machine: decoding, from
    [lib/src/re/fast/instr.rs], and emission, the [InstrSeq] of
    [lib/src/re/fast/compiler.rs], with the round trip between the two. *)

From S2P Require Import Prelude.
From S2P Require Import Cursor.
From S2P Require Import Re.

(** * Instructions *)

(** A range [a..=b] is the pair of its bounds. *)
Inductive Instr : Type :=
  | Match
  | Literal (literal : list Z)
  | MaskedLiteral (literal mask : list Z)
  | Alternation (code : list Z)
  | JumpExact (len : Z)
  | JumpExactNoNewline (len : Z)
  | Jump (range : Z * Z)
  | JumpUnbounded (start : Z)
  | JumpNoNewline (range : Z * Z)
  | JumpNoNewlineUnbounded (start : Z).

Definition MATCH : Z := 0x00.
Definition LITERAL : Z := 0x01.
Definition MASKED_LITERAL : Z := 0x02.
Definition JUMP_EXACT : Z := 0x03.
Definition JUMP : Z := 0x04.
Definition JUMP_EXACT_NO_NEWLINE : Z := 0x05.
Definition JUMP_NO_NEWLINE : Z := 0x06.
Definition ALTERNATION : Z := 0x07.

(** [decode_u16] reads two bytes with no bounds check; a read that would be out
    of bounds is a [Panic] of the model. *)
Definition decode_u16 (s : list Z) : res Z :=
  match s with
  | b0 :: b1 :: _ => Ret (from_le_bytes [b0; b1])
  | _ => Panic
  end.

Definition decode_instr (code : list Z) : res (Instr * Z) :=
  match code with
  | [] => Panic
  | opcode :: _ =>
      if opcode =? LITERAL then
        literal_len ← decode_u16 (slice_from code 1);
        let literal_start := 1 + 2 in
        literal ← index_range code literal_start (literal_start + literal_len);
        Ret (Literal literal, 1 + 2 + literal_len)
      else if opcode =? MASKED_LITERAL then
        literal_len ← decode_u16 (slice_from code 1);
        let literal_start := 1 + 2 in
        let mask_start := literal_start + literal_len in
        literal ← index_range code literal_start (literal_start + literal_len);
        mask ← index_range code mask_start (mask_start + literal_len);
        Ret (MaskedLiteral literal mask, 1 + 2 + 2 * literal_len)
      else if opcode =? ALTERNATION then
        alt_len ← decode_u16 (slice_from code 1);
        let start := 1 + 2 in
        alts ← index_range code start (start + alt_len);
        Ret (Alternation alts, 1 + 2 + alt_len)
      else if opcode =? JUMP_EXACT then
        l ← decode_u16 (slice_from code 1);
        Ret (JumpExact l, 1 + 2)
      else if opcode =? JUMP then
        min ← decode_u16 (slice_from code 1);
        max ← decode_u16 (slice_from code (1 + 2));
        if max =? 0 then Ret (JumpUnbounded min, 1 + 2 * 2)
        else Ret (Jump (min, max), 1 + 2 * 2)
      else if opcode =? JUMP_EXACT_NO_NEWLINE then
        l ← decode_u16 (slice_from code 1);
        Ret (JumpExactNoNewline l, 1 + 2)
      else if opcode =? JUMP_NO_NEWLINE then
        min ← decode_u16 (slice_from code 1);
        max ← decode_u16 (slice_from code (1 + 2));
        if max =? 0 then Ret (JumpNoNewlineUnbounded min, 1 + 2 * 2)
        else Ret (JumpNoNewline (min, max), 1 + 2 * 2)
      else if opcode =? MATCH then Ret (Match, 1)
      else Panic
  end.

(** [InstrParser::next]: the instruction and the code that follows it. *)
Definition parser_next (code : list Z) : option (res (Instr * list Z)) :=
  match code with
  | [] => None
  | _ => Some ('(instr, size) ← decode_instr code; Ret (instr, slice_from code size))
  end.

(** [for instr in parser { body }]. Every instruction takes at least one byte,
    so the length of the code is enough fuel. *)
Fixpoint for_instrs {St} (fuel : nat) (code : list Z) (body : Instr -> St -> res St) (s : St)
  : res St :=
  match parser_next code with
  | None => Ret s
  | Some next =>
      match fuel with
      | O => OutOfFuel
      | S fuel =>
          '(instr, code') ← next;
          s' ← body instr s;
          for_instrs fuel code' body s'
      end
  end.

(** * Pieces of a pattern *)

Inductive Pattern : Type :=
  | PatLiteral (bytes : list Z)
  | PatMasked (bytes mask : list Z).

Inductive PatternPiece : Type :=
  | PiecePattern (p : Pattern)
  | PieceAlternation (alts : list Pattern)
  | PieceJump (min : Z) (max : option Z) (accept_newlines : bool)
  | PieceJumpExact (len : Z) (accept_newlines : bool).

(** * Emission of code *)

(** The sequence is its cursor. *)
Definition InstrSeq : Type := Cursor.

Definition seq_new : InstrSeq := cursor_new.

Definition into_inner (s : InstrSeq) : list Z := s.(seq_vec).

(** [u16::to_le_bytes] *)
Definition u16_to_le_bytes (v : Z) : list Z := to_le_bytes 2 v.

Definition emit_match (s : InstrSeq) : InstrSeq := write_all [MATCH] s.

Definition emit_jump_exact (l : Z) (accept_newlines : bool) (s : InstrSeq) : InstrSeq :=
  let s := if accept_newlines then write_all [JUMP_EXACT] s
           else write_all [JUMP_EXACT_NO_NEWLINE] s in
  write_all (u16_to_le_bytes l) s.

Definition emit_jump (min : Z) (max : option Z) (accept_newlines : bool) (s : InstrSeq)
  : InstrSeq :=
  let s := if accept_newlines then write_all [JUMP] s
           else write_all [JUMP_NO_NEWLINE] s in
  let s := write_all (u16_to_le_bytes min) s in
  write_all (u16_to_le_bytes (default 0 max)) s.

Definition emit_pattern (pattern : Pattern) (s : InstrSeq) : res InstrSeq :=
  match pattern with
  | PatLiteral literal =>
      _ ← assert (len literal <? u16_MAX);
      let l := u16_to_le_bytes (len literal) in
      Ret (write_all literal (write_all l (write_all [LITERAL] s)))
  | PatMasked literal mask =>
      _ ← assert (len literal <? u16_MAX);
      _ ← assert (len literal =? len mask);
      let l := u16_to_le_bytes (len literal) in
      Ret (write_all mask (write_all literal (write_all l (write_all [MASKED_LITERAL] s))))
  end.

(** The size of the alternatives is patched once they are emitted. *)
Definition emit_alternation (alternatives : list Pattern) (s : InstrSeq)
  : res (Error + InstrSeq) :=
  let s := write_all [ALTERNATION] s in
  let len_location := s.(seq_pos) in
  let s := write_all [0; 0] s in
  let alternatives_loc := s.(seq_pos) in
  s ← for_each alternatives emit_pattern s;
  let alternatives_len := s.(seq_pos) - alternatives_loc in
  if alternatives_len <=? u16_MAX then
    let s := seek_start len_location s in
    let s := write_all (u16_to_le_bytes alternatives_len) s in
    Ret (inr (seek_end s))
  else Ret (inl TooLarge).

(** [Compiler::emit_piece]; [as u16] truncates the counts of a jump. *)
Definition emit_piece (piece : PatternPiece) (s : InstrSeq) : res (Error + InstrSeq) :=
  match piece with
  | PiecePattern pattern => inr <$> emit_pattern pattern s
  | PieceAlternation alt => emit_alternation alt s
  | PieceJumpExact l accept_newlines =>
      Ret (inr (emit_jump_exact (wrap_u16 l) accept_newlines s))
  | PieceJump min max accept_newlines =>
      Ret (inr (emit_jump (wrap_u16 min) (wrap_u16 <$> max) accept_newlines s))
  end.

(** [for piece in pieces { self.emit_piece(piece, &mut code)?; }] *)
Fixpoint emit_pieces (pieces : list PatternPiece) (s : InstrSeq) : res (Error + InstrSeq) :=
  match pieces with
  | [] => Ret (inr s)
  | piece :: pieces =>
      r ← emit_piece piece s;
      match r with
      | inl e => Ret (inl e)
      | inr s => emit_pieces pieces s
      end
  end.

(** * The code of a piece, as a function *)

Definition enc_pattern (p : Pattern) : list Z :=
  match p with
  | PatLiteral l => LITERAL :: u16_to_le_bytes (len l) ++ l
  | PatMasked l m => MASKED_LITERAL :: u16_to_le_bytes (len l) ++ l ++ m
  end.

Definition enc_alternatives (alts : list Pattern) : list Z := concat (enc_pattern <$> alts).

Definition enc_piece (piece : PatternPiece) : list Z :=
  match piece with
  | PiecePattern p => enc_pattern p
  | PieceAlternation alts =>
      ALTERNATION :: u16_to_le_bytes (len (enc_alternatives alts)) ++ enc_alternatives alts
  | PieceJumpExact l nl =>
      (if nl then JUMP_EXACT else JUMP_EXACT_NO_NEWLINE) :: u16_to_le_bytes (wrap_u16 l)
  | PieceJump min max nl =>
      (if nl then JUMP else JUMP_NO_NEWLINE) ::
        u16_to_le_bytes (wrap_u16 min) ++ u16_to_le_bytes (default 0 (wrap_u16 <$> max))
  end.

Definition enc_pieces (pieces : list PatternPiece) : list Z := concat (enc_piece <$> pieces).

(** The patterns that [emit_pattern] accepts. *)
Definition pattern_fits (p : Pattern) : bool :=
  match p with
  | PatLiteral l => len l <? u16_MAX
  | PatMasked l m => (len l <? u16_MAX) && (len l =? len m)
  end.

(** The instruction that a pattern or a piece stands for. *)
Definition instr_of_pattern (p : Pattern) : Instr :=
  match p with
  | PatLiteral l => Literal l
  | PatMasked l m => MaskedLiteral l m
  end.

Definition instr_of_piece (piece : PatternPiece) : Instr :=
  match piece with
  | PiecePattern p => instr_of_pattern p
  | PieceAlternation alts => Alternation (enc_alternatives alts)
  | PieceJumpExact l nl =>
      if nl then JumpExact (wrap_u16 l) else JumpExactNoNewline (wrap_u16 l)
  | PieceJump min max nl =>
      let hi := default 0 (wrap_u16 <$> max) in
      if hi =? 0 then
        if nl then JumpUnbounded (wrap_u16 min) else JumpNoNewlineUnbounded (wrap_u16 min)
      else
        if nl then Jump (wrap_u16 min, hi) else JumpNoNewline (wrap_u16 min, hi)
  end.

(** * Emission appends *)

Lemma u16_bytes_len v : len (u16_to_le_bytes v) = 2.
Proof. reflexivity. Qed.

Lemma emit_match_end s : at_end s -> emit_match s = seq_append s [MATCH].
Proof. apply write_all_end. Qed.

Lemma emit_pattern_end p s :
  at_end s ->
  emit_pattern p s = if pattern_fits p then Ret (seq_append s (enc_pattern p)) else Panic.
Proof.
  intros He. destruct p as [l|l m]; cbn [emit_pattern pattern_fits enc_pattern].
  - destruct (_ <? _); [|done]. unfold_res.
    rewrite (write_all_end [_]) by done. by rewrite !write_all_append.
  - destruct (_ <? _); [|done]. destruct (len l =? len m); [|done]. unfold_res.
    rewrite (write_all_end [_]) by done. by rewrite !write_all_append.
Qed.

Lemma emit_patterns_end alts s :
  at_end s ->
  for_each alts emit_pattern s =
  if forallb pattern_fits alts then Ret (seq_append s (enc_alternatives alts)) else Panic.
Proof.
  revert s. induction alts as [|p alts IH]; intros s He.
  - cbn. by rewrite seq_append_nil.
  - cbn [for_each forallb]. rewrite emit_pattern_end by done.
    destruct (pattern_fits p); [|done]. unfold_res.
    rewrite IH by apply at_end_append. by rewrite seq_append_append.
Qed.

Lemma emit_alternation_end alts s :
  at_end s ->
  emit_alternation alts s =
  if forallb pattern_fits alts then
    if len (enc_alternatives alts) <=? u16_MAX
    then Ret (inr (seq_append s (enc_piece (PieceAlternation alts))))
    else Ret (inl TooLarge)
  else Panic.
Proof.
  intros He. unfold emit_alternation.
  rewrite (write_all_end [_] s) by done. rewrite write_all_append.
  rewrite emit_patterns_end by apply at_end_append.
  destruct (forallb pattern_fits alts); [|done]. cbn [mbind res_bind].
  set (body := enc_alternatives alts). cbn [seq_append seq_vec seq_pos].
  replace (len _ - len _) with (len body) by (rewrite !len_app; lia).
  destruct (len body <=? u16_MAX); [|done]. do 2 f_equal.
  unfold seek_start. cbn [seq_append seq_vec].
  replace ((seq_vec s ++ [ALTERNATION] ++ [0; 0]) ++ body)
    with ((seq_vec s ++ [ALTERNATION]) ++ [0; 0] ++ body) by by rewrite <- !app_assoc.
  unfold u16_to_le_bytes. rewrite (write_all_patch _ [0; 0]) by done.
  unfold seek_end, seq_append. cbn. by rewrite <- !app_assoc.
Qed.

Definition piece_fits (piece : PatternPiece) : bool :=
  match piece with
  | PiecePattern p => pattern_fits p
  | PieceAlternation alts => forallb pattern_fits alts
  | _ => true
  end.

(** The only piece whose emission reports an error is an alternation whose
    alternatives take more than 65535 bytes of code. *)
Definition piece_too_large (piece : PatternPiece) : bool :=
  match piece with
  | PieceAlternation alts => negb (len (enc_alternatives alts) <=? u16_MAX)
  | _ => false
  end.

Lemma emit_piece_end piece s :
  at_end s ->
  emit_piece piece s =
  if piece_fits piece then
    if piece_too_large piece then Ret (inl TooLarge)
    else Ret (inr (seq_append s (enc_piece piece)))
  else Panic.
Proof.
  intros He. destruct piece as [p|alts|min max nl|l nl]; cbn [emit_piece piece_fits piece_too_large].
  - rewrite emit_pattern_end by done. by destruct (pattern_fits p).
  - rewrite emit_alternation_end by done.
    destruct (forallb _ _); [|done]. by destruct (_ <=? _).
  - unfold emit_jump. destruct nl; rewrite (write_all_end [_] s) by done;
      by rewrite !write_all_append.
  - unfold emit_jump_exact. destruct nl; rewrite (write_all_end [_] s) by done;
      by rewrite !write_all_append.
Qed.

Lemma emit_pieces_ret pieces s s' :
  at_end s -> emit_pieces pieces s = Ret (inr s') ->
  s' = seq_append s (enc_pieces pieces) /\
  Forall (fun p => piece_fits p = true /\ piece_too_large p = false) pieces.
Proof.
  revert s. induction pieces as [|p pieces IH]; intros s He; cbn [emit_pieces].
  - intros [= <-]. cbn. by rewrite seq_append_nil.
  - rewrite emit_piece_end by done. destruct (piece_fits p) eqn:Ef; [|done].
    destruct (piece_too_large p) eqn:El; [done|]. unfold_res.
    intros [-> HF]%IH; [|apply at_end_append].
    rewrite seq_append_append. split; [done|]. by constructor.
Qed.

Lemma emit_pieces_fit pieces s :
  at_end s ->
  Forall (fun p => piece_fits p = true /\ piece_too_large p = false) pieces ->
  emit_pieces pieces s = Ret (inr (seq_append s (enc_pieces pieces))).
Proof.
  intros He HF. revert s He. induction HF as [|p pieces [Hf Hl] _ IH]; intros s He; cbn [emit_pieces].
  - cbn. by rewrite seq_append_nil.
  - rewrite emit_piece_end, Hf, Hl by done. unfold_res.
    rewrite IH by apply at_end_append. by rewrite seq_append_append.
Qed.

(** * Decoding what was emitted *)

Lemma decode_u16_bytes v rest :
  is_u16 v -> decode_u16 (u16_to_le_bytes v ++ rest) = Ret v.
Proof.
  intros Hv. unfold u16_to_le_bytes. cbn [to_le_bytes app decode_u16].
  f_equal. exact (u16_le_roundtrip v Hv).
Qed.

Lemma wrap_u16_range z : is_u16 (wrap_u16 z).
Proof. unfold wrap_u16, is_u16. lia_mod. Qed.

(** A length-prefixed operand. *)
Lemma index_range_operand opcode l (body rest : list Z) a b :
  a = 3 -> b = 3 + len body ->
  index_range (opcode :: u16_to_le_bytes l ++ body ++ rest) a b = Ret body.
Proof.
  intros -> ->. unfold index_range.
  rewrite (get_range_mid [opcode; l mod 256; l / 256 mod 256] body rest); done.
Qed.

(** Compute the comparisons of an opcode. *)
Ltac eval_opcodes :=
  repeat match goal with
  | |- context [?a =? ?b] =>
      let v := eval vm_compute in (a =? b) in
      lazymatch v with true => idtac | false => idtac end;
      change (a =? b) with v; cbn iota
  end.

Lemma slice_from_1 {A} (x : A) l : slice_from (x :: l) 1 = l.
Proof. done. Qed.

Lemma slice_from_3 (x : Z) v l : slice_from (x :: u16_to_le_bytes v ++ l) (1 + 2) = l.
Proof. done. Qed.

Lemma decode_pattern p rest :
  pattern_fits p = true ->
  decode_instr (enc_pattern p ++ rest) = Ret (instr_of_pattern p, len (enc_pattern p)).
Proof.
  destruct p as [l|l m]; cbn [pattern_fits enc_pattern instr_of_pattern]; intros Hf; bools;
    unfold u16_MAX in *; rewrite <- app_comm_cons, <- !app_assoc; cbn [decode_instr];
    eval_opcodes; rewrite slice_from_1;
    rewrite decode_u16_bytes by (pose proof (len_nonneg l); unfold is_u16; lia);
    cbn [mbind res_bind]; rewrite (index_range_operand _ _ _ _ (1 + 2) (1 + 2 + len l)) by lia;
    cbn [mbind res_bind].
  - rewrite len_cons, len_app, u16_bytes_len. do 2 f_equal. lia.
  - change (u16_to_le_bytes (len l)) with [len l mod 256; len l / 256 mod 256].
    unfold index_range.
    rewrite (app_assoc [_; _] l), app_comm_cons, (get_range_mid _ m rest).
    + cbn [or_panic mbind res_bind]. do 2 f_equal. len_lia.
    + len_lia.
    + len_lia.
Qed.

Lemma decode_piece piece rest :
  piece_fits piece = true -> piece_too_large piece = false ->
  decode_instr (enc_piece piece ++ rest) = Ret (instr_of_piece piece, len (enc_piece piece)).
Proof.
  destruct piece as [p|alts|min max nl|l nl]; cbn [piece_fits piece_too_large]; intros Hf Hl.
  - by apply decode_pattern.
  - bools. cbn [enc_piece instr_of_piece]. set (body := enc_alternatives alts) in *.
    rewrite <- app_comm_cons, <- app_assoc. cbn [decode_instr]. eval_opcodes.
    rewrite slice_from_1. pose proof (len_nonneg body). unfold u16_MAX in *.
    rewrite decode_u16_bytes by (unfold is_u16; lia). cbn [mbind res_bind].
    rewrite index_range_operand by lia. cbn [mbind res_bind].
    rewrite len_cons, len_app, u16_bytes_len. do 2 f_equal. lia.
  - assert (Hmin := wrap_u16_range min).
    assert (Hmax : is_u16 (default 0 (wrap_u16 <$> max))).
    { destruct max; [apply wrap_u16_range|by cbv]. }
    cbn [enc_piece instr_of_piece]. set (hi := default 0 (wrap_u16 <$> max)) in *.
    destruct nl; rewrite <- app_comm_cons, <- app_assoc; cbn [decode_instr]; eval_opcodes;
      rewrite slice_from_1, slice_from_3, !decode_u16_bytes by done; cbn [mbind res_bind];
      by destruct (hi =? 0).
  - assert (Hl' := wrap_u16_range l). cbn [enc_piece instr_of_piece].
    destruct nl; rewrite <- app_comm_cons; cbn [decode_instr]; eval_opcodes;
      rewrite slice_from_1, !decode_u16_bytes by done; done.
Qed.

Lemma decode_match rest : decode_instr (MATCH :: rest) = Ret (Match, 1).
Proof. done. Qed.

Lemma enc_piece_pos piece : 1 <= len (enc_piece piece).
Proof.
  destruct piece as [[]| | |]; cbn [enc_piece enc_pattern]; rewrite len_cons;
    match goal with |- context [len ?l] => pose proof (len_nonneg l) end; lia.
Qed.

(** Parsing emitted code runs the body on the instructions of the pieces. *)
Lemma parser_next_piece piece rest :
  piece_fits piece = true -> piece_too_large piece = false ->
  parser_next (enc_piece piece ++ rest) = Some (Ret (instr_of_piece piece, rest)).
Proof.
  intros Hf Hl. pose proof (enc_piece_pos piece) as Hpos. unfold parser_next.
  rewrite decode_piece by done. cbn [mbind res_bind].
  rewrite slice_from_app. destruct (enc_piece piece); [|done]. done.
Qed.

Lemma for_instrs_pieces {St} pieces rest (body : Instr -> St -> res St) fuel s :
  Forall (fun p => piece_fits p = true /\ piece_too_large p = false) pieces ->
  for_instrs (length pieces + fuel) (enc_pieces pieces ++ rest) body s =
  (s' ← for_each (instr_of_piece <$> pieces) body s; for_instrs fuel rest body s').
Proof.
  intros HF. revert s. induction HF as [|p pieces [Hf Hl] _ IH]; intros s; [done|].
  cbn [enc_pieces fmap list_fmap concat]. rewrite <- app_assoc. cbn [length Nat.add for_instrs].
  rewrite parser_next_piece by done. cbn [mbind res_bind for_each].
  destruct (body _ s); [|done|done]. cbn [mbind res_bind]. apply IH.
Qed.

Lemma enc_alternatives_pieces alts : enc_alternatives alts = enc_pieces (PiecePattern <$> alts).
Proof.
  unfold enc_alternatives, enc_pieces. f_equal. rewrite <- list_fmap_compose. done.
Qed.

(** * Properties *)

(** Round trip between the code generator and the decoder of the fast
    virtual machine: whenever the emission of a list of pieces succeeds,
    parsing the code followed by the final [Match] yields the instructions that
    the pieces stand for, in order, consuming exactly the emitted bytes. *)
Theorem fast_code_roundtrip (pieces : list PatternPiece) (s : InstrSeq) :
  emit_pieces pieces seq_new = Ret (inr s) ->
  for_instrs (S (length pieces)) (into_inner (emit_match s))
    (fun instr acc => Ret (acc ++ [instr])) [] =
  Ret ((instr_of_piece <$> pieces) ++ [Match]).
Proof.
  intros [-> HF]%emit_pieces_ret; [|done].
  rewrite emit_match_end, seq_append_append by apply at_end_append. cbn [into_inner seq_append seq_vec].
  cbn [app seq_new cursor_new seq_vec]. replace (S (length pieces)) with (length pieces + 1)%nat by lia.
  rewrite for_instrs_pieces by done.
  assert (Hc : forall l acc, for_each l (fun instr acc => Ret (acc ++ [instr])) acc =
                             Ret (acc ++ l : list Instr)).
  { induction l as [|i l IH]; intros acc; cbn; [by rewrite app_nil_r|].
    rewrite IH. by rewrite <- app_assoc. }
  rewrite Hc. done.
Qed.

Lemma fast_code_roundtrip_witness :
  let pieces := [PiecePattern (PatLiteral [1; 2]); PieceJump 0 (Some 10) false;
                 PieceAlternation [PatLiteral [3]; PatMasked [4; 5] [255; 240]];
                 PieceJumpExact 9 true] in
  exists s, emit_pieces pieces seq_new = Ret (inr s) /\
    for_instrs 5 (into_inner (emit_match s)) (fun instr acc => Ret (acc ++ [instr])) [] =
    Ret [Literal [1; 2]; JumpNoNewline (0, 10);
         Alternation [1; 1; 0; 3; 2; 2; 0; 4; 5; 255; 240]; JumpExact 9; Match].
Proof.
  cbn zeta. eexists. split; [vm_compute; reflexivity|].
  refine (fast_code_roundtrip [PiecePattern (PatLiteral [1; 2]); PieceJump 0 (Some 10) false;
    PieceAlternation [PatLiteral [3]; PatMasked [4; 5] [255; 240]]; PieceJumpExact 9 true] _ _).
  vm_compute. reflexivity.
Defined.

(** The emission of a piece panics exactly when a literal has 65535 bytes or
    more or a mask has the wrong length, reports [TooLarge] exactly when the
    alternatives of an alternation take more than 65535 bytes of code, and
    otherwise appends the code of the piece. *)
Theorem emit_piece_errors (piece : PatternPiece) (s : InstrSeq) :
  at_end s ->
  (emit_piece piece s = Panic <-> piece_fits piece = false) /\
  (emit_piece piece s = Ret (inl TooLarge) <->
     piece_fits piece = true /\
     exists alts, piece = PieceAlternation alts /\ u16_MAX < len (enc_alternatives alts)) /\
  (forall s', emit_piece piece s = Ret (inr s') ->
     into_inner s' = into_inner s ++ enc_piece piece /\ at_end s').
Proof.
  intros He. rewrite emit_piece_end by done.
  destruct (piece_fits piece) eqn:Ef; [|naive_solver].
  destruct (piece_too_large piece) eqn:El.
  - destruct piece as [|alts| |]; cbn in El; try done. bools.
    split; [naive_solver|]. split; [|naive_solver]. split; [eauto|done].
  - split; [naive_solver|]. split; [|naive_solver]. split; [done|].
    intros [_ (alts & -> & Hlt)]. cbn in El. bools. lia.
Qed.

Lemma emit_piece_errors_witness :
  at_end seq_new /\
  (emit_piece (PiecePattern (PatMasked [1] [])) seq_new = Panic <->
   piece_fits (PiecePattern (PatMasked [1] [])) = false).
Proof.
  split; [done|]. apply (emit_piece_errors (PiecePattern (PatMasked [1] [])) seq_new). done.
Defined.
