(* ===== verification/FastVM.v ===== *)
(** The fast virtual machine of [lib/src/re/fast/fastvm.rs]: the matching of
    literals, the scanning of jumps and the main loop, which keeps the set of
    positions that match so far and replaces it at every instruction. *)

From S2P Require Import Prelude.
From S2P Require Import PosSet.
From S2P Require Import Re.
From S2P Require Import FastInstr.

(** * Byte search

    The [memchr] crate: the first position of a byte, and the positions of one
    or two bytes in increasing and in decreasing order. *)
Class Memchr := {
  memchr : Z -> list Z -> option Z;
  memchr_iter : Z -> list Z -> list Z;
  memchr2_iter : Z -> Z -> list Z -> list Z;
  memrchr_iter : Z -> list Z -> list Z;
  memrchr2_iter : Z -> Z -> list Z -> list Z;
}.

(** The positions of [l] where [P] holds, in increasing order. *)
Definition positions_of (P : Z -> bool) (l : list Z) : list Z :=
  fst <$> filter (fun ix => P (snd ix) = true) (enumerate l).

Class MemchrLaws `{Memchr} := {
  memchr_spec b l : memchr b l = head (positions_of (fun x => x =? b) l);
  memchr_iter_spec b l : memchr_iter b l = positions_of (fun x => x =? b) l;
  memchr2_iter_spec b1 b2 l :
    memchr2_iter b1 b2 l = positions_of (fun x => (x =? b1) || (x =? b2)) l;
  memrchr_iter_spec b l : memrchr_iter b l = reverse (positions_of (fun x => x =? b) l);
  memrchr2_iter_spec b1 b2 l :
    memrchr2_iter b1 b2 l = reverse (positions_of (fun x => (x =? b1) || (x =? b2)) l);
}.

#[export] Instance list_Memchr : Memchr := {
  memchr b l := head (positions_of (fun x => x =? b) l);
  memchr_iter b l := positions_of (fun x => x =? b) l;
  memchr2_iter b1 b2 l := positions_of (fun x => (x =? b1) || (x =? b2)) l;
  memrchr_iter b l := reverse (positions_of (fun x => x =? b) l);
  memrchr2_iter b1 b2 l := reverse (positions_of (fun x => (x =? b1) || (x =? b2)) l);
}.

#[export] Instance list_MemchrLaws : MemchrLaws.
Proof. by split. Qed.

(** * Flags of a jump *)
Definition AcceptNewlines : Z := 0x01.
Definition Wide : Z := 0x02.
Definition flags_empty : Z := 0.
Definition flags_insert (flags f : Z) : Z := Z.lor flags f.
Definition flags_contains (flags f : Z) : bool := Z.land flags f =? f.

(** * Matching of literals *)

(** [input.as_chunks::<2>()], without the remainder. *)
Fixpoint chunks2 (l : list Z) : list (Z * Z) :=
  match l with
  | c0 :: c1 :: l => (c0, c1) :: chunks2 l
  | _ => []
  end.

(** [input.rchunks_exact(2)]: from the end of the slice. *)
Definition rchunks2 (l : list Z) : list (Z * Z) :=
  (fun c => (snd c, fst c)) <$> chunks2 (reverse l).

(** The loop over [izip!(chunks, literal)]. *)
Fixpoint chunks_match (chunks : list (Z * Z)) (literal : list Z) : bool :=
  match chunks, literal with
  | (c0, c1) :: chunks, byte :: literal =>
      if negb (c0 =? byte) || negb (c1 =? 0) then false else chunks_match chunks literal
  | _, _ => true
  end.

Definition try_match_literal_fwd (input literal : list Z) (wide : bool) : bool :=
  if wide then
    if len input <? len literal * 2 then false
    else chunks_match (chunks2 input) literal
  else
    if len input <? len literal then false
    else bool_decide (slice_to input (len literal) = literal).

Definition try_match_literal_bck (input literal : list Z) (wide : bool) : bool :=
  if wide then
    if len input <? len literal * 2 then false
    else chunks_match (rchunks2 input) (reverse literal)
  else
    if len input <? len literal then false
    else bool_decide (slice_from input (len input - len literal) = literal).

(** The loop over [izip!(input, literal, mask)]. *)
Fixpoint masked_match (input literal mask : list Z) : bool :=
  match input, literal, mask with
  | i :: input, byte :: literal, m :: mask =>
      if negb (Z.land i m =? Z.land byte m) then false else masked_match input literal mask
  | _, _, _ => true
  end.

(** The same loop over a [WideIter], whose state is returned. *)
Fixpoint masked_match_wide (w : WideIter) (literal mask : list Z) {struct literal}
  : bool * WideIter :=
  match wide_next w with
  | (None, w) => (true, w)
  | (Some i, w) =>
      match literal, mask with
      | byte :: literal, m :: mask =>
          if negb (Z.land i m =? Z.land byte m) then (false, w)
          else masked_match_wide w literal mask
      | _, _ => (true, w)
      end
  end.

Definition masked_wide_result (r : bool * WideIter) (literal : list Z) : bool :=
  if fst r then
    match wi_error_pos (snd r) with
    | Some pos => negb (pos <? len literal)
    | None => true
    end
  else false.

Definition try_match_masked_literal_fwd (input literal mask : list Z) (wide : bool) : bool :=
  if wide then
    if len input <? len literal * 2 then false
    else masked_wide_result (masked_match_wide (non_zero_first input) literal mask) literal
  else
    if len input <? len literal then false
    else masked_match input literal mask.

Definition try_match_masked_literal_bck (input literal mask : list Z) (wide : bool) : bool :=
  if wide then
    if len input <? len literal * 2 then false
    else masked_wide_result
           (masked_match_wide (zero_first (reverse input)) (reverse literal) (reverse mask)) literal
  else
    if len input <? len literal then false
    else masked_match (reverse input) (reverse literal) (reverse mask).

Section FastVM.
Context {MC : Memchr} {S : Type} {PS : PosSet S}.

(** * Jumps *)

(** The search of the positions where the pattern can continue after a jump,
    given the data [jmp_range] that follows the shortest jump. [offsets1] and
    [offsets2] are the positions of one and of two bytes, [all] all the
    positions, in the order in which the direction of the scan visits them, and
    [on_match_found] inserts a position. *)
Definition jump_scan (all : list (Z * Z)) (offsets1 : Z -> list Z) (offsets2 : Z -> Z -> list Z)
    (jmp_range : list Z) (byte : option Z) (accept_newlines : bool)
    (on_match_found : Z -> S -> res S) (next_positions : S) : res S :=
  match byte, accept_newlines with
  | Some b, false =>
      fst <$> for_each_until (offsets2 b 0x0A)
        (fun offset np =>
           x ← or_panic (get jmp_range offset);
           if negb (b =? 0x0A) && (x =? 0x0A) then Ret (np, true)
           else np ← on_match_found offset np; Ret (np, false)) next_positions
  | Some b, true =>
      for_each (offsets1 b) on_match_found next_positions
  | None, _ =>
      fst <$> for_each_until all
        (fun ob np =>
           if negb accept_newlines && (snd ob =? 0x0A) then Ret (np, true)
           else np ← on_match_found (fst ob) np; Ret (np, false)) next_positions
  end.

Definition jump_fwd (input : list Z) (byte_after_jmp : option Z) (flags : Z) (range : Z * Z)
    (position : Z) (next_positions : S) : res S :=
  let step := if flags_contains flags Wide then 2 else 1 in
  let n := fst range * step in
  let m := snd range * step in
  let range_min := n in
  let range_max := Z.min (len input) (m + step) in
  if range_min >=? range_max then Ret next_positions
  else if negb (flags_contains flags AcceptNewlines) &&
          bool_decide (is_Some (memchr 0x0A (slice_to input range_min)))
  then Ret next_positions
  else
    jmp_range ← index_range input range_min range_max;
    jump_scan (enumerate jmp_range)
      (fun b => memchr_iter b jmp_range) (fun b1 b2 => memchr2_iter b1 b2 jmp_range)
      jmp_range byte_after_jmp (flags_contains flags AcceptNewlines)
      (fun offset => pos_insert (wrap_usize (position + range_min + offset)))
      next_positions.

Definition jump_bck (input : list Z) (expected_after_jump : option Z) (flags : Z)
    (range : Z * Z) (position : Z) (next_positions : S) : res S :=
  let step := if flags_contains flags Wide then 2 else 1 in
  let n := fst range * step in
  let m := snd range * step in
  let range_min := saturating_sub (len input) (m + step) in
  let range_max := saturating_sub (len input) n in
  if range_min >=? range_max then Ret next_positions
  else if negb (flags_contains flags AcceptNewlines) &&
          bool_decide (is_Some (memchr 0x0A (slice_from input range_max)))
  then Ret next_positions
  else
    jmp_range ← index_range input range_min range_max;
    jump_scan (reverse (enumerate jmp_range))
      (fun b => memrchr_iter b jmp_range) (fun b1 b2 => memrchr2_iter b1 b2 jmp_range)
      jmp_range expected_after_jump (flags_contains flags AcceptNewlines)
      (fun offset => pos_insert (wrap_usize (position + n + len jmp_range - offset - step)))
      next_positions.

(** * The machine *)

Record FastVM := {
  vm_code : list Z;
  vm_scan_limit : Z;
  vm_positions : S;
  vm_next_positions : S;
}.

Definition fastvm_new (code : list Z) : FastVM :=
  {| vm_code := code; vm_positions := pos_new; vm_next_positions := pos_new;
     vm_scan_limit := DEFAULT_SCAN_LIMIT |}.

Definition fastvm_scan_limit (vm : FastVM) (limit : Z) : FastVM :=
  {| vm_code := vm.(vm_code); vm_positions := vm.(vm_positions);
     vm_next_positions := vm.(vm_next_positions); vm_scan_limit := limit |}.

(** One literal at one position, in the direction of the scan. *)
Definition literal_at (bck wide : bool) (input literal : list Z) (position : Z) : bool :=
  if bck then try_match_literal_bck (slice_to input (len input - position)) literal wide
  else try_match_literal_fwd (slice_from input position) literal wide.

Definition masked_literal_at (bck wide : bool) (input literal mask : list Z) (position : Z)
  : bool :=
  if bck then try_match_masked_literal_bck (slice_to input (len input - position)) literal mask wide
  else try_match_masked_literal_fwd (slice_from input position) literal mask wide.

(** [Instr::Literal], for all the positions. *)
Definition exec_literal (bck wide : bool) (input literal : list Z) (step : Z)
    (positions : list Z) (next : S) : res S :=
  for_each positions (fun position next =>
    if position >=? len input then Ret next
    else if literal_at bck wide input literal position
         then pos_insert (wrap_usize (position + step * len literal)) next
         else Ret next) next.

Definition exec_masked_literal (bck wide : bool) (input literal mask : list Z) (step : Z)
    (positions : list Z) (next : S) : res S :=
  for_each positions (fun position next =>
    if position >=? len input then Ret next
    else if masked_literal_at bck wide input literal mask position
         then pos_insert (wrap_usize (position + step * len literal)) next
         else Ret next) next.

(** [Instr::Alternation]: for every alternative, all the positions. *)
Definition exec_alternation (bck wide : bool) (input alternatives : list Z) (step : Z)
    (positions : list Z) (next : S) : res S :=
  for_instrs (length alternatives) alternatives (fun alt next =>
    for_each positions (fun position next =>
      if position >=? len input then Ret next
      else
        match alt with
        | Literal literal =>
            if literal_at bck wide input literal position
            then pos_insert (wrap_usize (position + step * len literal)) next
            else Ret next
        | MaskedLiteral literal mask =>
            if masked_literal_at bck wide input literal mask position
            then pos_insert (wrap_usize (position + step * len literal)) next
            else Ret next
        | _ => Panic
        end) next) next.

Definition exec_jump_exact (step jump : Z) (positions : list Z) (next : S) : res S :=
  for_each positions (fun position next =>
    pos_insert (wrap_usize (position + step * jump)) next) next.

Definition exec_jump_exact_no_newline (input : list Z) (step jump : Z)
    (positions : list Z) (next : S) : res S :=
  for_each positions (fun position next =>
    match get_range input position (wrap_usize (position + step * jump)) with
    | Some jump_range =>
        if bool_decide (memchr 0x0A jump_range = None)
        then pos_insert (wrap_usize (position + step * jump)) next
        else Ret next
    | None => Ret next
    end) next.

(** The byte that must follow a jump, given the instruction after it. *)
Definition byte_after_jump (bck : bool) (instr : Instr) : option Z :=
  match instr with
  | Literal literal => if bck then last literal else head literal
  | MaskedLiteral literal mask =>
      if bck then if bool_decide (last mask = Some 0xff) then last literal else None
      else if bool_decide (head mask = Some 0xff) then head literal else None
  | _ => None
  end.

Definition exec_jump (bck : bool) (input : list Z) (flags : Z) (range : Z * Z)
    (next_instr : Instr) (positions : list Z) (next : S) : res S :=
  for_each positions (fun position next =>
    if position >=? len input then Ret next
    else if bck
         then jump_bck (slice_to input (len input - position)) (byte_after_jump true next_instr)
                flags range position next
         else jump_fwd (slice_from input position) (byte_after_jump false next_instr)
                flags range position next) next.

(** The zeroes of a wide string that were skipped by jumps are verified when a
    match is about to be reported. *)
Definition interleaved_zeroes_found (bck : bool) (input : list Z) (position : Z) : bool :=
  if bck then forallb (fun b => b =? 0) (step_by 2 (slice_to (reverse input) position))
  else forallb (fun b => b =? 0) (step_by 2 (slice_from (slice_to input position) 1)).

(** [Instr::Match]: the callback is run on the positions until it returns
    [Stop]. *)
Fixpoint exec_match {C} (bck wide : bool) (input : list Z) (f : C -> Z -> C * Action)
    (positions : list Z) (c : C) : C * bool :=
  match positions with
  | [] => (c, false)
  | position :: positions =>
      if wide && negb (interleaved_zeroes_found bck input position)
      then exec_match bck wide input f positions c
      else
        match f c position with
        | (c, Stop) => (c, true)
        | (c, Continue) => exec_match bck wide input f positions c
        end
  end.

(** One instruction other than [Match]. *)
Definition exec_instr (vm : FastVM) (bck wide : bool) (input : list Z) (step flags ip : Z)
    (instr : Instr) : res S :=
  let positions := pos_items vm.(vm_positions) in
  let next := vm.(vm_next_positions) in
  match instr with
  | Match => Ret next
  | Literal literal => exec_literal bck wide input literal step positions next
  | MaskedLiteral literal mask => exec_masked_literal bck wide input literal mask step positions next
  | Alternation alternatives => exec_alternation bck wide input alternatives step positions next
  | JumpExact jump => exec_jump_exact step jump positions next
  | JumpExactNoNewline jump => exec_jump_exact_no_newline input step jump positions next
  | Jump _ | JumpUnbounded _ | JumpNoNewline _ | JumpNoNewlineUnbounded _ =>
      let '(flags, range) :=
        match instr with
        | Jump range => (flags_insert flags AcceptNewlines, range)
        | JumpNoNewline range => (flags, range)
        | JumpUnbounded start => (flags_insert flags AcceptNewlines, (start, vm.(vm_scan_limit)))
        | JumpNoNewlineUnbounded start => (flags, (start, vm.(vm_scan_limit)))
        | _ => (flags, (0, 0))
        end in
      '(next_instr, _) ← decode_instr (slice_from vm.(vm_code) ip);
      exec_jump bck input flags range next_instr positions next
  end.

(** [mem::swap] of the two sets, and the second one is cleared. *)
Definition swap_positions (vm : FastVM) (next : S) : res FastVM :=
  cleared ← pos_clear vm.(vm_positions);
  Ret {| vm_code := vm.(vm_code); vm_scan_limit := vm.(vm_scan_limit);
         vm_positions := next; vm_next_positions := cleared |}.

(** The loop of [try_match]. Every iteration advances [ip] by one byte at
    least. *)
Fixpoint try_match_loop {C} (fuel : nat) (bck wide : bool) (input : list Z) (step flags : Z)
    (f : C -> Z -> C * Action) (ip : Z) (vm : FastVM) (c : C) : res (FastVM * C) :=
  match pos_items vm.(vm_positions) with
  | [] => Ret (vm, c)
  | _ =>
      match fuel with
      | O => OutOfFuel
      | Datatypes.S fuel =>
          '(instr, instr_size) ← decode_instr (slice_from vm.(vm_code) ip);
          let ip := ip + instr_size in
          let '(c, stop) :=
            match instr with
            | Match => exec_match bck wide input f (pos_items vm.(vm_positions)) c
            | _ => (c, false)
            end in
          if stop : bool then
            cleared ← pos_clear vm.(vm_positions);
            Ret ({| vm_code := vm.(vm_code); vm_scan_limit := vm.(vm_scan_limit);
                    vm_positions := cleared; vm_next_positions := vm.(vm_next_positions) |}, c)
          else
            next ← exec_instr vm bck wide input step flags ip instr;
            vm ← swap_positions vm next;
            try_match_loop fuel bck wide input step flags f ip vm c
      end
  end.

(** The data that is scanned. *)
Definition scan_window (limit : Z) (bck : bool) (input : list Z) : list Z :=
  if bck then slice_from input (saturating_sub (len input) limit)
  else slice_to input (Z.min (len input) limit).

Definition try_match {C} (vm : FastVM) (start : CodeLoc) (input : list Z) (wide : bool)
    (f : C -> Z -> C * Action) (c : C) : res (FastVM * C) :=
  let bck := backwards start in
  let input := scan_window vm.(vm_scan_limit) bck input in
  let step := if wide then 2 else 1 in
  positions ← pos_insert 0 vm.(vm_positions);
  let vm := {| vm_code := vm.(vm_code); vm_scan_limit := vm.(vm_scan_limit);
               vm_positions := positions; vm_next_positions := vm.(vm_next_positions) |} in
  let flags := if wide then flags_insert flags_empty Wide else flags_empty in
  try_match_loop (Datatypes.S (length vm.(vm_code))) bck wide input step flags f
    (location start) vm c.
End FastVM.
Arguments FastVM S : clear implicits.
