(* ===== verification/FastSpec.v ===== *)
(** What a list of pattern pieces means, independently of the code that matches
    it: the language of byte strings of each piece, and the mirror image that
    relates a scan to the left of a position to a scan to its right. *)

From S2P Require Import Prelude.
From S2P Require Import FastInstr.

(** * Languages *)

Definition pattern_matches (p : Pattern) (w : list Z) : Prop :=
  match p with
  | PatLiteral l => w = l
  | PatMasked l m => Forall3 byte_matches w l m
  end.

Definition no_newline (w : list Z) : Prop := 0x0A ∉ w.

Definition piece_matches (piece : PatternPiece) (w : list Z) : Prop :=
  match piece with
  | PiecePattern p => pattern_matches p w
  | PieceAlternation alts => exists p, p ∈ alts /\ pattern_matches p w
  | PieceJump min max accept_newlines =>
      min <= len w /\ (forall m, max = Some m -> len w <= m) /\
      (accept_newlines = false -> no_newline w)
  | PieceJumpExact n accept_newlines =>
      len w = n /\ (accept_newlines = false -> no_newline w)
  end.

(** The strings that match the concatenation of the pieces. *)
Fixpoint pieces_match (pieces : list PatternPiece) (w : list Z) : Prop :=
  match pieces with
  | [] => w = []
  | p :: pieces => exists w1 w2, w = w1 ++ w2 /\ piece_matches p w1 /\ pieces_match pieces w2
  end.

Lemma pieces_match_app ps1 ps2 w :
  pieces_match (ps1 ++ ps2) w <->
  exists w1 w2, w = w1 ++ w2 /\ pieces_match ps1 w1 /\ pieces_match ps2 w2.
Proof.
  revert w. induction ps1 as [|p ps1 IH]; intros w; cbn.
  - split; [|by intros (? & ? & -> & -> & ?)]. intros Hw. by exists [], w.
  - split.
    + intros (w1 & w2 & -> & Hp & (w3 & w4 & -> & H1 & H2)%IH).
      exists (w1 ++ w3), w4. rewrite app_assoc. split; [done|]. split; [|done]. eauto.
    + intros (w1 & w2 & -> & (w3 & w4 & -> & Hp & H1) & H2).
      exists w3, (w4 ++ w2). rewrite app_assoc. split; [done|]. split; [done|]. apply IH. eauto.
Qed.

Lemma pieces_match_snoc ps p w :
  pieces_match (ps ++ [p]) w <->
  exists w1 w2, w = w1 ++ w2 /\ pieces_match ps w1 /\ piece_matches p w2.
Proof.
  rewrite pieces_match_app. cbn. split.
  - intros (w1 & w2 & -> & H1 & (w3 & w4 & -> & Hp & ->)). rewrite app_nil_r. eauto.
  - intros (w1 & w2 & -> & H1 & Hp). exists w1, w2. split; [done|]. split; [done|].
    exists w2, []. by rewrite app_nil_r.
Qed.

(** * Mirror images *)

Definition mirror_pattern (p : Pattern) : Pattern :=
  match p with
  | PatLiteral l => PatLiteral (reverse l)
  | PatMasked l m => PatMasked (reverse l) (reverse m)
  end.

Definition mirror_piece (piece : PatternPiece) : PatternPiece :=
  match piece with
  | PiecePattern p => PiecePattern (mirror_pattern p)
  | PieceAlternation alts => PieceAlternation (mirror_pattern <$> alts)
  | _ => piece
  end.

(** The pattern that reads right to left what [pieces] reads left to right. *)
Definition mirror_pieces (pieces : list PatternPiece) : list PatternPiece :=
  mirror_piece <$> reverse pieces.

Lemma Forall3_app_split {A B C} (P : A -> B -> C -> Prop) l1 l2 l3 x y z :
  Forall3 P l1 l2 l3 -> P x y z -> Forall3 P (l1 ++ [x]) (l2 ++ [y]) (l3 ++ [z]).
Proof. intros H Hp. induction H; cbn; repeat constructor; auto. Qed.

Lemma Forall3_reverse {A B C} (P : A -> B -> C -> Prop) l1 l2 l3 :
  Forall3 P l1 l2 l3 -> Forall3 P (reverse l1) (reverse l2) (reverse l3).
Proof.
  induction 1 as [|x y z l1 l2 l3 Hp HF IH]; [constructor|].
  rewrite !reverse_cons. by apply Forall3_app_split.
Qed.

Lemma mirror_pattern_involutive p : mirror_pattern (mirror_pattern p) = p.
Proof. destruct p; cbn; by rewrite ?reverse_involutive. Qed.

Lemma mirror_pattern_matches_1 p w :
  pattern_matches p w -> pattern_matches (mirror_pattern p) (reverse w).
Proof. destruct p; cbn; [by intros ->|]. apply Forall3_reverse. Qed.

Lemma mirror_pattern_matches p w :
  pattern_matches (mirror_pattern p) (reverse w) <-> pattern_matches p w.
Proof.
  split; [|apply mirror_pattern_matches_1].
  intros H%mirror_pattern_matches_1. by rewrite mirror_pattern_involutive, reverse_involutive in H.
Qed.

Lemma no_newline_reverse w : no_newline (reverse w) <-> no_newline w.
Proof. unfold no_newline. by rewrite elem_of_reverse. Qed.

Lemma mirror_piece_matches piece w :
  piece_matches (mirror_piece piece) (reverse w) <-> piece_matches piece w.
Proof.
  destruct piece as [p|alts|min max nl|n nl]; cbn.
  - apply mirror_pattern_matches.
  - split.
    + intros (p & (p' & -> & Hin)%list_elem_of_fmap & Hm). exists p'.
      by rewrite mirror_pattern_matches in Hm.
    + intros (p & Hin & Hm). exists (mirror_pattern p).
      rewrite mirror_pattern_matches. split; [|done]. by apply list_elem_of_fmap_2.
  - by rewrite len_rev, no_newline_reverse.
  - by rewrite len_rev, no_newline_reverse.
Qed.

Lemma mirror_pieces_match pieces w :
  pieces_match (mirror_pieces pieces) (reverse w) <-> pieces_match pieces w.
Proof.
  revert w. induction pieces as [|p pieces IH]; intros w; unfold mirror_pieces in *.
  - cbn. split; [|by intros ->]. intros H%(f_equal reverse). by rewrite reverse_involutive in H.
  - rewrite reverse_cons, fmap_app. cbn [fmap list_fmap].
    rewrite pieces_match_snoc. cbn [pieces_match]. split.
    + intros (w1 & w2 & Hw & Hm & Hp). exists (reverse w2), (reverse w1).
      rewrite <- reverse_app, <- Hw, reverse_involutive. split; [done|].
      rewrite <- IH, <- mirror_piece_matches, !reverse_involutive. done.
    + intros (w1 & w2 & -> & Hp & Hm). exists (reverse w2), (reverse w1).
      rewrite reverse_app, IH, mirror_piece_matches. done.
Qed.

(** * Conditions under which the machine decides the language *)

Definition pattern_bytes (p : Pattern) : list Z :=
  match p with PatLiteral l => l | PatMasked l _ => l end.

(** A piece that matches some byte, at least. *)
Definition consumes (piece : PatternPiece) : bool :=
  match piece with
  | PiecePattern p => 0 <? len (pattern_bytes p)
  | PieceAlternation alts => forallb (fun p => 0 <? len (pattern_bytes p)) alts
  | PieceJump min _ _ => 0 <? min
  | PieceJumpExact n _ => 0 <? n
  end.

Lemma pattern_matches_len p w : pattern_matches p w -> len w = len (pattern_bytes p).
Proof.
  destruct p; cbn; [by intros ->|]. intros H.
  unfold len. f_equal. eapply Forall3_length_lm, H.
Qed.

Lemma consumes_len piece w : consumes piece = true -> piece_matches piece w -> 0 < len w.
Proof.
  destruct piece as [p|alts|min max nl|n nl]; cbn; intros Hc Hm; bools.
  - apply pattern_matches_len in Hm. lia.
  - destruct Hm as (p & Hin & Hm%pattern_matches_len).
    rewrite forallb_forall in Hc. apply list_elem_of_In, Hc in Hin. bools. lia.
  - lia.
  - lia.
Qed.

Lemma some_consumes_len pieces w :
  existsb consumes pieces = true -> pieces_match pieces w -> 0 < len w.
Proof.
  revert w. induction pieces as [|p pieces IH]; intros w; cbn; [done|].
  intros [Hc|Hc]%orb_prop (w1 & w2 & -> & Hp & Hm); rewrite len_app;
    pose proof (len_nonneg w1); pose proof (len_nonneg w2).
  - apply consumes_len in Hp; [lia|done].
  - apply IH in Hm; [lia|done].
Qed.

(** The bytes of the patterns are bytes. *)
Definition typed_pattern (p : Pattern) : Prop :=
  match p with
  | PatLiteral l => Forall is_u8 l
  | PatMasked l m => Forall is_u8 l /\ Forall is_u8 m
  end.

Definition typed_piece (piece : PatternPiece) : Prop :=
  match piece with
  | PiecePattern p => typed_pattern p
  | PieceAlternation alts => Forall typed_pattern alts
  | _ => True
  end.

(** A match that ends with the data is a match from the left in its mirror. *)
Lemma mirror_window_match pieces X q :
  0 <= q <= len X ->
  pieces_match (mirror_pieces pieces) (slice_to (reverse X) q) <->
  pieces_match pieces (slice_from X (len X - q)).
Proof.
  intros Hq. rewrite <- slice_0, <- (mirror_pieces_match pieces).
  rewrite <- (slice_to_all (slice_from X (len X - q)) q).
  - rewrite slice_to_from, reverse_slice by lia.
    replace (len X - (len X - q + q)) with 0 by lia. by replace (len X - (len X - q)) with q by lia.
  - rewrite len_slice_from; lia.
Qed.

Lemma forallb_reverse {A} (P : A -> bool) l : forallb P l = true -> forallb P (reverse l) = true.
Proof.
  intros HP. rewrite forallb_forall in *. intros x. rewrite <- list_elem_of_In, elem_of_reverse.
  intros Hx. by apply HP, list_elem_of_In.
Qed.
