(* ===== verification/FastVMCorrect.v ===== *)
(** Correctness of the fast virtual machine on strings that are not wide: what
    each instruction does to the set of positions, in both directions of the
    scan, and the relation between the positions that the machine reports and
    the language of the pieces it was compiled from. *)

From S2P Require Import Prelude.
From S2P Require Import PosSet.
From S2P Require Import Re.
From S2P Require Import FastInstr.
From S2P Require Import FastVM.
From S2P Require Import FastSpec.

(** The bytes in the order in which a scan visits them. *)
Definition toward (bck : bool) (l : list Z) : list Z := if bck then reverse l else l.

Lemma len_toward bck l : len (toward bck l) = len l.
Proof. destruct bck; [apply len_rev|done]. Qed.

(** * Literals *)

Lemma reverse_eq_iff (l1 l2 : list Z) : reverse l1 = reverse l2 <-> l1 = l2.
Proof. split; [apply (inj reverse)|by intros ->]. Qed.

Lemma toward_eq_iff bck (l1 l2 : list Z) : toward bck l1 = toward bck l2 <-> l1 = l2.
Proof. destruct bck; [apply reverse_eq_iff|done]. Qed.

Lemma literal_at_spec bck input literal p :
  0 <= p <= len input ->
  literal_at bck false input literal p =
  (p + len literal <=? len input) &&
  bool_decide (slice (toward bck input) p (p + len literal) = toward bck literal).
Proof.
  intros Hp. pose proof (len_nonneg literal) as Hl. destruct bck; cbn [literal_at toward].
  - unfold try_match_literal_bck. rewrite len_slice_to by lia.
    destruct (p + len literal <=? len input) eqn:E; bools.
    + assert (len input - p <? len literal = false) as -> by lia. cbn [andb].
      apply bool_decide_ext. rewrite slice_from_to by lia.
      rewrite <- reverse_eq_iff, reverse_slice by lia.
      replace (len input - (len input - p)) with p by lia.
      by replace (len input - (len input - p - len literal)) with (p + len literal) by lia.
    + by assert (len input - p <? len literal = true) as -> by lia.
  - unfold try_match_literal_fwd. rewrite len_slice_from by lia.
    rewrite slice_to_from by lia.
    destruct (p + len literal <=? len input) eqn:E; bools.
    + by assert (len input - p <? len literal = false) as -> by lia.
    + by assert (len input - p <? len literal = true) as -> by lia.
Qed.

Lemma masked_match_spec input literal mask :
  len literal = len mask -> len literal <= len input ->
  masked_match input literal mask = true <->
  Forall3 byte_matches (slice_to input (len literal)) literal mask.
Proof.
  unfold slice_to, len. rewrite Nat2Z.id.
  revert input mask. induction literal as [|b literal IH]; intros input mask Hm Hi.
  - destruct mask; [|done]. destruct input; cbn; split; done || constructor.
  - destruct mask as [|m mask]; [done|]. destruct input as [|i input]; [cbn in Hi; lia|].
    cbn [length take masked_match]. destruct (Z.land i m =? Z.land b m) eqn:E; bools; cbn [negb].
    + rewrite IH by (cbn in *; lia). split; [by constructor|]. by inversion 1.
    + split; [done|]. inversion 1; subst. done.
Qed.

Lemma masked_literal_at_spec bck input literal mask p :
  0 <= p <= len input -> len literal = len mask ->
  masked_literal_at bck false input literal mask p = true <->
  p + len literal <= len input /\
  Forall3 byte_matches (slice (toward bck input) p (p + len literal))
    (toward bck literal) (toward bck mask).
Proof.
  intros Hp Hm. pose proof (len_nonneg literal) as Hl. destruct bck; cbn [masked_literal_at toward].
  - unfold try_match_masked_literal_bck. rewrite len_slice_to by lia.
    destruct (len input - p <? len literal) eqn:E; bools; [split; [done|lia]|].
    rewrite masked_match_spec by (rewrite ?len_rev, ?len_slice_to; lia).
    rewrite len_rev. rewrite <- (slice_0 input), reverse_slice by lia.
    replace (len input - (len input - p)) with p by lia. rewrite <- slice_0.
    assert (slice (slice (reverse input) p (len input - 0)) 0 (len literal) =
            slice (reverse input) p (p + len literal)) as ->.
    { unfold slice. change (drop (Z.to_nat 0)) with (@drop Z 0). rewrite drop_0, take_take.
      f_equal. lia. }
    split; [intros; split; [lia|done]|by intros []].
  - unfold try_match_masked_literal_fwd. rewrite len_slice_from by lia.
    destruct (len input - p <? len literal) eqn:E; bools; [split; [done|lia]|].
    rewrite masked_match_spec by (rewrite ?len_slice_from; lia).
    rewrite slice_to_from by lia. split; [intros; split; [lia|done]|by intros []].
Qed.

(** * Positions found by a jump *)

Definition candidate (byte : option Z) (accept_newlines : bool) (x : Z) : bool :=
  match byte with
  | Some b => (x =? b) || (negb accept_newlines && (x =? 0x0A))
  | None => true
  end.

Definition stops (byte : option Z) (accept_newlines : bool) (x : Z) : bool :=
  negb accept_newlines && (x =? 0x0A) &&
  match byte with Some b => negb (b =? 0x0A) | None => true end.

(** The offsets found in [e], the bytes of the jump's range with their offsets
    in the order of the scan. *)
Definition scan_list (e : list (Z * Z)) (byte : option Z) (accept_newlines : bool) : list Z :=
  fst <$> take_while (fun ix => negb (stops byte accept_newlines (snd ix)))
            (filter (fun ix => candidate byte accept_newlines (snd ix) = true) e).

Lemma bind_singleton {A} (f : A -> Z) (l : list A) : (x ← l; [f x]) = f <$> l.
Proof. induction l as [|x l IH]; cbn; [done|]. by f_equal. Qed.

Lemma adds_insert_wrap {S} `{PL : PosSetLaws S} lo k :
  0 <= lo -> lo + 65535 <= usize_MAX -> adds lo (pos_insert (wrap_usize k)) [k].
Proof.
  intros Hlo Hhi Hw. rewrite wrap_usize_id; [by apply adds_insert|].
  specialize (Hw k ltac:(set_solver)). unfold is_usize, usize_MAX in *. lia.
Qed.

Lemma take_while_filter_fst (Q : Z -> bool) (P : Z -> bool) (e : list (Z * Z)) :
  (forall x, P x = true -> Q x = false) ->
  take_while (fun ix => negb (Q (snd ix))) (filter (fun ix => P (snd ix) = true) e) =
  filter (fun ix => P (snd ix) = true) e.
Proof.
  intros HPQ. rewrite (take_while_ext _ (fun _ => true)); [apply take_while_true|].
  intros x [Hx _]%list_elem_of_filter. by rewrite HPQ.
Qed.

Section Scan.
Context {S : Type} `{PL : PosSetLaws S}.
Context (lo : Z) (Hlo : 0 <= lo) (Hhi : lo + 65535 <= usize_MAX).

(** The loop that searches for a byte and for newlines. *)
Lemma jump_scan2_adds (e : list (Z * Z)) jr b (g : Z -> Z) :
  (forall i x, (i, x) ∈ e -> get jr i = Some x) ->
  adds lo (fun next =>
      fst <$> for_each_until (fst <$> filter (fun ix => (snd ix =? b) || (snd ix =? 0x0A) = true) e)
        (fun offset np =>
           x ← or_panic (get jr offset);
           if negb (b =? 0x0A) && (x =? 0x0A) then Ret (np, true)
           else np ← pos_insert (wrap_usize (g offset)) np; Ret (np, false)) next)
    (g <$> scan_list e (Some b) false).
Proof.
  intros He. unfold scan_list.
  set (l := filter _ e). set (P := fun x : Z => negb (b =? 0x0A) && (x =? 0x0A)).
  set (stop := fun i => match get jr i with Some x => P x | None => false end).
  assert (Hl : forall ix, ix ∈ l -> get jr (fst ix) = Some (snd ix)).
  { intros [i x] [_ Hin]%list_elem_of_filter. by apply He. }
  change (filter (fun ix => candidate (Some b) false (snd ix) = true) e) with l.
  assert (Htw : fst <$> take_while (fun ix => negb (stops (Some b) false (snd ix))) l =
                take_while (fun i => negb (stop i)) (fst <$> l)).
  { rewrite take_while_fmap. f_equal. apply take_while_ext. intros ix Hix.
    unfold stop. rewrite (Hl ix Hix). unfold P, stops. cbn. f_equal. apply andb_comm. }
  rewrite Htw, <- (bind_singleton g).
  apply (adds_until lo (fst <$> l) stop (fun i => pos_insert (wrap_usize (g i)))); [done..| |].
  - intros i s [ix [-> Hix]]%list_elem_of_fmap. unfold stop. rewrite (Hl ix Hix). cbn.
    unfold P. by destruct (negb _ && _).
  - intros. by apply adds_insert_wrap.
Qed.

Lemma jump_scan_adds (e : list (Z * Z)) offsets1 offsets2 jr byte acc (g : Z -> Z) :
  (forall i x, (i, x) ∈ e -> get jr i = Some x) ->
  (forall b, offsets1 b = fst <$> filter (fun ix => (snd ix =? b) = true) e) ->
  (forall b1 b2, offsets2 b1 b2 =
     fst <$> filter (fun ix => (snd ix =? b1) || (snd ix =? b2) = true) e) ->
  adds lo (jump_scan e offsets1 offsets2 jr byte acc (fun o => pos_insert (wrap_usize (g o))))
    (g <$> scan_list e byte acc).
Proof.
  intros He H1 H2. unfold jump_scan. destruct byte as [b|]; [destruct acc|].
  - rewrite H1. unfold scan_list.
    assert (filter (fun ix => candidate (Some b) true (snd ix) = true) e =
            filter (fun ix : Z * Z => (snd ix =? b) = true) e) as ->.
    { apply list_filter_iff. intros ix. cbn. by rewrite orb_false_r. }
    rewrite (take_while_filter_fst (stops (Some b) true) (fun x => x =? b)) by done.
    rewrite <- (bind_singleton g). apply adds_for_each; [done..|].
    intros. by apply adds_insert_wrap.
  - rewrite H2. by apply jump_scan2_adds.
  - unfold scan_list.
    assert (filter (fun ix => candidate None acc (snd ix) = true) e = e) as ->.
    { apply filter_all. by apply Forall_true. }
    rewrite <- list_fmap_compose, <- (bind_singleton (g ∘ fst)).
    apply (adds_until lo e _ (fun ob => pos_insert (wrap_usize (g (fst ob))))); [done..| |].
    + intros [i x] s _. cbn. unfold stops. rewrite andb_true_r. by destruct (negb _ && _).
    + intros. by apply adds_insert_wrap.
Qed.
End Scan.

(** * What each piece does to a position

    [X] are the bytes in the order of the scan and [p] is a position. The
    result is the list of the positions that the machine adds for [p]. *)

Definition pattern_at (X : list Z) (pat : Pattern) (p : Z) : bool :=
  match pat with
  | PatLiteral l => bool_decide (slice X p (p + len l) = l)
  | PatMasked l m => masked_match (slice_from X p) l m
  end.

Definition gen_pattern (X : list Z) (pat : Pattern) (p : Z) : list Z :=
  let n := len (pattern_bytes pat) in
  if (p <? len X) && ((p + n <=? len X) && pattern_at X pat p) then [p + n] else [].

Definition gen_jump_exact (X : list Z) (n : Z) (accept_newlines : bool) (p : Z) : list Z :=
  if accept_newlines ||
     ((p + n <=? len X) && bool_decide (0x0A ∉ slice X p (p + n)))
  then [p + n] else [].

(** [min] and [max] bound the jump and [next] is the byte that follows it. *)
Definition gen_jump (X : list Z) (min max : Z) (accept_newlines : bool) (next : option Z)
    (p : Z) : list Z :=
  if (p <? len X) && (min <? Z.min (len X - p) (max + 1)) &&
     (accept_newlines || bool_decide (0x0A ∉ slice X p (p + min)))
  then (fun i => p + min + i) <$>
         scan_list (enumerate (slice X (p + min) (Z.min (len X) (p + max + 1)))) next accept_newlines
  else [].

(** The byte that a piece starts with, when it is known. *)
Definition first_byte (piece : PatternPiece) : option Z :=
  match piece with
  | PiecePattern (PatLiteral l) => head l
  | PiecePattern (PatMasked l m) => if bool_decide (head m = Some 0xff) then head l else None
  | _ => None
  end.

(** A piece as the scan sees it. *)
Definition seen (bck : bool) (piece : PatternPiece) : PatternPiece :=
  if bck then mirror_piece piece else piece.

Definition seen_pattern (bck : bool) (p : Pattern) : Pattern :=
  if bck then mirror_pattern p else p.

Definition well_masked (p : Pattern) : bool :=
  match p with PatLiteral _ => true | PatMasked l m => len l =? len m end.

(** The positions added by a piece, in the order of insertion. [limit] is the
    scan limit, which bounds the jumps without a maximum. *)
Definition gen_piece (X : list Z) (limit : Z) (piece : PatternPiece) (next : option Z)
    (positions : list Z) : list Z :=
  match piece with
  | PiecePattern pat => p ← positions; gen_pattern X pat p
  | PieceAlternation alts => pat ← alts; p ← positions; gen_pattern X pat p
  | PieceJumpExact n nl => p ← positions; gen_jump_exact X n nl p
  | PieceJump min max nl => p ← positions; gen_jump X min (default limit max) nl next p
  end.

Section Exec.
Context {MC : Memchr} {ML : MemchrLaws} {S : Type} `{PL : PosSetLaws S}.
Context (lo : Z) (Hlo : 0 <= lo) (Hhi : lo + 65535 <= usize_MAX).

Lemma adds_guarded (stop cond : bool) k :
  adds lo (fun next => if stop then Ret next
                       else if cond then pos_insert (wrap_usize k) next else Ret next)
    (if negb stop && cond then [k] else []).
Proof. destruct stop, cond; cbn; try apply adds_ret. by apply adds_insert_wrap. Qed.

Lemma len_pattern_bytes_seen bck pat :
  len (pattern_bytes (seen_pattern bck pat)) = len (pattern_bytes pat).
Proof. destruct bck, pat; cbn; by rewrite ?len_rev. Qed.

Lemma gen_literal_eq bck input literal p :
  0 <= p ->
  gen_pattern (toward bck input) (seen_pattern bck (PatLiteral literal)) p =
  if negb (p >=? len input) && literal_at bck false input literal p
  then [p + 1 * len literal] else [].
Proof.
  intros Hp. unfold gen_pattern. rewrite len_pattern_bytes_seen, len_toward. cbn [pattern_bytes].
  rewrite Z.mul_1_l. destruct (p <? len input) eqn:E; bools.
  - assert (p >=? len input = false) as -> by lia. rewrite literal_at_spec by lia.
    unfold seen_pattern, toward. destruct bck; cbn; by rewrite ?len_rev.
  - by assert (p >=? len input = true) as -> by lia.
Qed.

Lemma gen_masked_eq bck input literal mask p :
  0 <= p -> len literal = len mask ->
  gen_pattern (toward bck input) (seen_pattern bck (PatMasked literal mask)) p =
  if negb (p >=? len input) && masked_literal_at bck false input literal mask p
  then [p + 1 * len literal] else [].
Proof.
  intros Hp Hm. unfold gen_pattern. rewrite len_pattern_bytes_seen, len_toward. cbn [pattern_bytes].
  rewrite Z.mul_1_l. pose proof (len_nonneg literal). destruct (p <? len input) eqn:E; bools.
  - assert (p >=? len input = false) as -> by lia. cbn [negb andb].
    assert ((p + len literal <=? len input) &&
            pattern_at (toward bck input) (seen_pattern bck (PatMasked literal mask)) p =
            masked_literal_at bck false input literal mask p) as ->; [|done].
    apply eq_true_iff_eq. rewrite masked_literal_at_spec, andb_true_iff, Z.leb_le by lia.
    assert (pattern_at (toward bck input) (seen_pattern bck (PatMasked literal mask)) p =
            masked_match (slice_from (toward bck input) p) (toward bck literal) (toward bck mask))
      as -> by by destruct bck.
    split; intros [Hle Hmm]; (split; [done|]).
    + rewrite masked_match_spec in Hmm.
      * rewrite slice_to_from, len_toward in Hmm by (rewrite len_toward; lia). done.
      * by rewrite !len_toward.
      * rewrite len_slice_from, !len_toward by (rewrite len_toward; lia). lia.
    + rewrite masked_match_spec.
      * rewrite slice_to_from, len_toward by (rewrite len_toward; lia). done.
      * by rewrite !len_toward.
      * rewrite len_slice_from, !len_toward by (rewrite len_toward; lia). lia.
  - by assert (p >=? len input = true) as -> by lia.
Qed.

Lemma exec_literal_adds bck input literal positions :
  (forall p, p ∈ positions -> 0 <= p) ->
  adds lo (exec_literal bck false input literal 1 positions)
    (p ← positions; gen_pattern (toward bck input) (seen_pattern bck (PatLiteral literal)) p).
Proof.
  intros Hp. unfold exec_literal. apply adds_for_each; [done..|]. intros p Hin.
  rewrite gen_literal_eq by auto. apply adds_guarded.
Qed.

Lemma exec_masked_literal_adds bck input literal mask positions :
  (forall p, p ∈ positions -> 0 <= p) -> len literal = len mask ->
  adds lo (exec_masked_literal bck false input literal mask 1 positions)
    (p ← positions; gen_pattern (toward bck input) (seen_pattern bck (PatMasked literal mask)) p).
Proof.
  intros Hp Hm. unfold exec_masked_literal. apply adds_for_each; [done..|]. intros p Hin.
  rewrite gen_masked_eq by auto. apply adds_guarded.
Qed.

Lemma pattern_fits_well_masked pat : pattern_fits pat = true -> well_masked pat = true.
Proof. destruct pat; cbn; [done|]. intros. bools; lia. Qed.

Lemma exec_alternation_adds bck input alts positions :
  (forall p, p ∈ positions -> 0 <= p) -> forallb pattern_fits alts = true ->
  adds lo (exec_alternation bck false input (enc_alternatives alts) 1 positions)
    (pat ← seen_pattern bck <$> alts; p ← positions; gen_pattern (toward bck input) pat p).
Proof.
  intros Hp Hf. unfold exec_alternation. rewrite enc_alternatives_pieces.
  assert (Hfuel : exists fuel, length (enc_pieces (PiecePattern <$> alts)) =
                               (length (PiecePattern <$> alts) + fuel)%nat).
  { exists (length (enc_pieces (PiecePattern <$> alts)) - length (PiecePattern <$> alts))%nat.
    enough (length (PiecePattern <$> alts) <= length (enc_pieces (PiecePattern <$> alts)))%nat by lia.
    generalize (PiecePattern <$> alts). clear. induction l as [|p l IH]; [done|].
    cbn [enc_pieces fmap list_fmap concat length]. rewrite length_app.
    pose proof (enc_piece_pos p). unfold len, enc_pieces in *. lia. }
  destruct Hfuel as [fuel ->]. rewrite <- (app_nil_r (enc_pieces _)).
  eapply adds_ext.
  { intros s. symmetry. rewrite for_instrs_pieces.
    - reflexivity.
    - rewrite Forall_fmap, Forall_forall. intros p Hin. split; [|done]. cbn.
      rewrite forallb_forall in Hf. by apply Hf, list_elem_of_In. }
  rewrite <- (app_nil_r (pat ← seen_pattern bck <$> alts; _)). apply adds_bind; [done..| |].
  2: { eapply adds_ext; [|apply adds_ret]. intros s. by destruct fuel. }
  rewrite <- !list_fmap_compose. revert Hf. clear fuel. induction alts as [|pat alts IH]; intros Hf; [apply adds_ret|].
  cbn [forallb] in Hf. bools. cbn [fmap list_fmap for_each mbind list_bind].
  apply adds_bind; [done..| |by apply IH].
  apply adds_for_each; [done..|]. intros p Hin. destruct pat as [l|l m]; cbn [compose instr_of_piece instr_of_pattern].
  - rewrite gen_literal_eq by auto. apply adds_guarded.
  - cbn in *. bools. rewrite gen_masked_eq by auto. apply adds_guarded.
Qed.

Lemma exec_jump_exact_adds X n positions :
  adds lo (exec_jump_exact 1 n positions) (p ← positions; gen_jump_exact X n true p).
Proof.
  unfold exec_jump_exact. apply adds_for_each; [done..|]. intros p _.
  rewrite Z.mul_1_l. by apply adds_insert_wrap.
Qed.

Lemma memchr_none (b : Z) (l : list Z) :
  bool_decide (memchr b l = None) = bool_decide (b ∉ l).
Proof.
  apply bool_decide_ext. rewrite memchr_spec. unfold positions_of.
  rewrite head_None. split.
  - intros Hn%fmap_nil_inv [i Hi%elem_of_enumerate]%elem_of_get.
    apply (filter_nil_not_elem_of _ _ _ Hn) in Hi; [done|]. cbn. lia.
  - intros Hn. rewrite filter_none; [done|]. apply Forall_forall. intros [i x] Hin%elem_of_enumerate Hx.
    cbn in Hx. apply Z.eqb_eq in Hx. subst. apply Hn, elem_of_get. eauto.
Qed.

Lemma memchr_some (b : Z) (l : list Z) :
  bool_decide (is_Some (memchr b l)) = negb (bool_decide (b ∉ l)).
Proof.
  rewrite <- memchr_none. destruct (memchr b l); [|done].
  rewrite bool_decide_eq_true_2, bool_decide_eq_false_2 by (done || eauto). done.
Qed.

(** A jump that does not accept newlines looks for them from the start of the
    input, in both directions. *)
Lemma exec_jump_exact_no_newline_adds input n positions :
  (forall p, p ∈ positions -> 0 <= p /\ p + n <= usize_MAX) -> 0 <= n ->
  adds lo (exec_jump_exact_no_newline input 1 n positions)
    (p ← positions; gen_jump_exact input n false p).
Proof.
  intros Hp Hn. unfold exec_jump_exact_no_newline. apply adds_for_each; [done..|].
  intros p Hin. specialize (Hp p Hin). rewrite Z.mul_1_l.
  rewrite wrap_usize_id by (unfold is_usize, usize_MAX in *; lia).
  unfold gen_jump_exact, get_range. cbn [orb].
  assert ((0 <=? p) && (p <=? p + n) = true) as ->.
  { apply andb_true_iff. lia. }
  cbn [andb]. destruct (p + n <=? len input); cbn [andb]; [|apply adds_ret].
  rewrite memchr_none. destruct (bool_decide _); [|apply adds_ret]. by apply adds_insert.
Qed.

Lemma positions_of_filter (P : Z -> bool) l :
  positions_of P l = fst <$> filter (fun ix => P (snd ix) = true) (enumerate l).
Proof. done. Qed.

Definition jump_flags (accept_newlines : bool) : Z :=
  if accept_newlines then flags_insert flags_empty AcceptNewlines else flags_empty.

Lemma jump_flags_wide nl : flags_contains (jump_flags nl) Wide = false.
Proof. by destruct nl. Qed.

Lemma jump_flags_newlines nl : flags_contains (jump_flags nl) AcceptNewlines = nl.
Proof. by destruct nl. Qed.

Lemma gen_jump_none X min max nl next p :
  (p <? len X) && (min <? Z.min (len X - p) (max + 1)) &&
     (nl || bool_decide (0x0A ∉ slice X p (p + min))) = false ->
  gen_jump X min max nl next p = [].
Proof. unfold gen_jump. by intros ->. Qed.

Lemma jump_fwd_adds input next nl min max p :
  0 <= p < len input -> 0 <= min -> 0 <= max ->
  adds lo (jump_fwd (slice_from input p) next (jump_flags nl) (min, max) p)
    (gen_jump input min max nl next p).
Proof.
  intros Hp Hmin Hmax. unfold jump_fwd, gen_jump. rewrite jump_flags_wide, jump_flags_newlines.
  cbn [fst snd]. rewrite !Z.mul_1_r. rewrite len_slice_from by lia.
  assert (p <? len input = true) as -> by lia. cbn [andb].
  destruct (min >=? Z.min (len input - p) (max + 1)) eqn:E; bools.
  { assert (min <? Z.min (len input - p) (max + 1) = false) as -> by lia. apply adds_ret. }
  assert (min <? Z.min (len input - p) (max + 1) = true) as -> by lia. cbn [andb].
  rewrite memchr_some, slice_to_from by lia.
  destruct (negb nl && _) eqn:En.
  { replace (nl || _) with false; [apply adds_ret|]. destruct nl; [done|]. cbn in En.
    by destruct (bool_decide _). }
  replace (nl || _) with true by (destruct nl; [done|]; cbn in En; by destruct (bool_decide _)).
  assert (index_range (slice_from input p) min (Z.min (len input - p) (max + 1)) =
          Ret (slice input (p + min) (Z.min (len input) (p + max + 1)))) as ->.
  { unfold index_range, get_range. rewrite len_slice_from by lia.
    replace (_ && _) with true by (symmetry; rewrite !andb_true_iff; lia). cbn. f_equal.
    unfold slice, slice_from. rewrite drop_drop. f_equal; [|f_equal]; lia. }
  cbn [mbind res_bind].
  apply (jump_scan_adds lo Hlo Hhi _ _ _ _ _ _ (fun i => p + min + i)).
  - by intros i x ?%elem_of_enumerate.
  - intros b. apply memchr_iter_spec.
  - intros b1 b2. apply memchr2_iter_spec.
Qed.

Lemma scan_list_shift (h : Z -> Z) e next nl :
  scan_list ((fun ix => (h (fst ix), snd ix)) <$> e) next nl = h <$> scan_list e next nl.
Proof.
  unfold scan_list.
  assert (Hf : filter (fun ix => candidate next nl (snd ix) = true)
                 ((fun ix => (h (fst ix), snd ix)) <$> e) =
               (fun ix => (h (fst ix), snd ix)) <$>
                 filter (fun ix => candidate next nl (snd ix) = true) e).
  { induction e as [|[i x] e IH]; [done|]. cbn [fmap list_fmap]. rewrite !filter_cons. cbn [snd fst].
    case_decide; cbn [fmap list_fmap]; [f_equal|]; apply IH. }
  rewrite Hf, take_while_fmap, <- !list_fmap_compose. done.
Qed.

Lemma jump_bck_adds input next nl min max p :
  0 <= p < len input -> 0 <= min -> 0 <= max ->
  adds lo (jump_bck (slice_to input (len input - p)) next (jump_flags nl) (min, max) p)
    (gen_jump (reverse input) min max nl next p).
Proof.
  intros Hp Hmin Hmax. unfold jump_bck, gen_jump. rewrite jump_flags_wide, jump_flags_newlines.
  cbn [fst snd]. rewrite !Z.mul_1_r. rewrite len_slice_to, len_rev by lia.
  set (L := len input - p) in *. unfold saturating_sub.
  assert (p <? len input = true) as -> by lia. cbn [andb].
  destruct (Z.max 0 (L - (max + 1)) >=? Z.max 0 (L - min)) eqn:E; bools.
  { assert (min <? Z.min L (max + 1) = false) as -> by lia. apply adds_ret. }
  assert (min <? Z.min L (max + 1) = true) as -> by lia. cbn [andb].
  rewrite (Z.max_r 0 (L - min)) by lia. set (a := Z.max 0 (L - (max + 1))) in *.
  assert (Hnl : bool_decide (0x0A ∉ slice_from (slice_to input L) (L - min)) =
                bool_decide (0x0A ∉ slice (reverse input) p (p + min))).
  { apply bool_decide_ext. rewrite slice_from_to by lia.
    rewrite <- (elem_of_reverse _ (slice input _ _)), reverse_slice by lia.
    replace (len input - L) with p by lia. by replace (len input - (L - min)) with (p + min) by lia. }
  rewrite memchr_some, Hnl. clear Hnl.
  destruct (negb nl && _) eqn:En.
  { replace (nl || _) with false; [apply adds_ret|]. destruct nl; [done|]. cbn in En.
    by destruct (bool_decide _). }
  replace (nl || _) with true by (destruct nl; [done|]; cbn in En; by destruct (bool_decide _)).
  assert (index_range (slice_to input L) a (L - min) = Ret (slice input a (L - min))) as ->.
  { unfold index_range, get_range. rewrite len_slice_to by lia.
    replace (_ && _) with true by (symmetry; rewrite !andb_true_iff; lia). cbn. f_equal.
    rewrite <- !slice_from_to by lia. unfold slice_to. rewrite take_take. do 2 f_equal. lia. }
  cbn [mbind res_bind]. set (jr := slice input a (L - min)).
  assert (Hjr : slice (reverse input) (p + min) (Z.min (len input) (p + max + 1)) = reverse jr).
  { unfold jr. rewrite reverse_slice by lia. f_equal; lia. }
  rewrite Hjr.
  replace ((fun i => p + min + i) <$> scan_list (enumerate (reverse jr)) next nl)
    with ((fun o => p + min + len jr - o - 1) <$> scan_list (reverse (enumerate jr)) next nl).
  - apply (jump_scan_adds lo Hlo Hhi _ _ _ _ _ _ (fun o => p + min + len jr - o - 1)).
    + intros i x Hin. by rewrite elem_of_reverse, elem_of_enumerate in Hin.
    + intros b. rewrite memrchr_iter_spec, positions_of_filter, filter_reverse, fmap_reverse. done.
    + intros b1 b2. rewrite memrchr2_iter_spec, positions_of_filter, filter_reverse, fmap_reverse. done.
  - rewrite reverse_enumerate, (scan_list_shift (fun i => len jr - 1 - i)), <- list_fmap_compose.
    apply list_fmap_ext. intros i x _. cbn. lia.
Qed.

Lemma exec_jump_adds bck input nl min max next_instr positions :
  (forall p, p ∈ positions -> 0 <= p) -> 0 <= min -> 0 <= max ->
  adds lo (exec_jump bck input (jump_flags nl) (min, max) next_instr positions)
    (p ← positions;
     gen_jump (toward bck input) min max nl (byte_after_jump bck next_instr) p).
Proof.
  intros Hp Hmin Hmax. unfold exec_jump. apply adds_for_each; [done..|]. intros p Hin.
  specialize (Hp p Hin). destruct (p >=? len input) eqn:E; bools.
  - rewrite gen_jump_none; [apply adds_ret|]. rewrite len_toward.
    by assert (p <? len input = false) as -> by lia.
  - destruct bck.
    + by apply jump_bck_adds.
    + by apply jump_fwd_adds.
Qed.
End Exec.

(** * The positions, characterized *)

Lemma elem_of_if {A} (b : bool) (x y : A) :
  y ∈ (if b then [x] else []) <-> b = true /\ y = x.
Proof. destruct b; set_solver. Qed.

Lemma elem_of_gen_pattern X pat p q :
  0 <= p -> well_masked pat = true ->
  q ∈ gen_pattern X pat p <-> p < len X /\ p <= q <= len X /\ pattern_matches pat (slice X p q).
Proof.
  intros Hp Hm. unfold gen_pattern. rewrite elem_of_if, !andb_true_iff.
  set (n := len (pattern_bytes pat)). assert (Hn : 0 <= n) by apply len_nonneg.
  assert (Hat : p + n <= len X ->
    pattern_at X pat p = true <-> pattern_matches pat (slice X p (p + n))).
  { intros Hle. destruct pat as [l|l m]; cbn [pattern_at pattern_matches well_masked] in *.
    - by rewrite bool_decide_eq_true.
    - bools. rewrite masked_match_spec by (rewrite ?len_slice_from by lia; subst n; cbn in *; lia).
      by rewrite slice_to_from. }
  split.
  - intros ((E1 & E2 & E3) & ->). bools. apply Hat in E3; [|done].
    split; [done|]. split; [lia|done].
  - intros (H1 & H2 & H3). pose proof (pattern_matches_len _ _ H3) as Hl.
    rewrite len_slice in Hl by lia. fold n in Hl. assert (q = p + n) as -> by lia.
    rewrite Hat by lia. rewrite Z.ltb_lt, Z.leb_le. auto with lia.
Qed.

Lemma elem_of_gen_jump_exact X n nl p q :
  0 <= p -> 0 <= n ->
  q ∈ gen_jump_exact X n nl p <->
  q = p + n /\ (nl = false -> q <= len X /\ no_newline (slice X p q)).
Proof.
  intros Hp Hn. unfold gen_jump_exact. rewrite elem_of_if, orb_true_iff, andb_true_iff, Z.leb_le.
  rewrite bool_decide_eq_true. unfold no_newline. destruct nl; naive_solver.
Qed.

Lemma gen_jump_range X min max nl next p q :
  0 <= p -> 0 <= min -> q ∈ gen_jump X min max nl next p ->
  p + min <= q <= p + max /\ q < len X.
Proof.
  intros Hp Hmin. unfold gen_jump. destruct (_ && _) eqn:E; [|set_solver]. bools.
  intros (i & -> & Hi)%list_elem_of_fmap. unfold scan_list in Hi.
  apply list_elem_of_fmap in Hi as ([j x] & -> & Hin).
  eapply elem_of_take_while in Hin as [[_ Hin]%list_elem_of_filter _].
  - apply elem_of_enumerate, get_lt in Hin. rewrite len_slice in Hin by lia. cbn in *. lia.
  - apply StronglySorted_filter, enumerate_sorted.
  - cbn beta. intros. lia.
Qed.

Lemma get_slice_to {A} (l : list A) n i x :
  get (slice_to l n) i = Some x <-> get l i = Some x /\ i < n.
Proof.
  rewrite !get_Some. unfold slice_to. rewrite lookup_take_Some. split; [|split; [|split]]; naive_solver lia.
Qed.

Lemma no_newline_get w : no_newline w <-> forall i, get w i <> Some 0x0A.
Proof.
  unfold no_newline. split.
  - intros Hn i Hi. apply Hn, elem_of_get. eauto.
  - intros Hn [i Hi]%elem_of_get. by apply (Hn i).
Qed.

Lemma elem_of_scan_list l next nl i :
  (nl = false -> next <> Some 0x0A) ->
  i ∈ scan_list (enumerate l) next nl <->
  exists x, get l i = Some x /\ (forall b, next = Some b -> x = b) /\
    (nl = false -> no_newline (slice_to l (i + 1))).
Proof.
  intros Hnext. unfold scan_list. rewrite list_elem_of_fmap.
  assert (Hc : forall x, candidate next nl x = true /\ stops next nl x = false <->
                 (forall b, next = Some b -> x = b) /\ (nl = false -> x <> 0x0A)).
  { intros x. unfold candidate, stops. destruct nl, next as [b|]; cbn;
      rewrite ?orb_false_r, ?orb_true_iff, ?andb_false_iff, ?negb_false_iff, ?Z.eqb_eq, ?Z.eqb_neq;
      naive_solver. }
  assert (Hs : forall x, candidate next nl x = true -> stops next nl x = true ->
                 nl = false /\ x = 0x0A).
  { intros x _. unfold stops. destruct nl; cbn; [done|]. intros E. bools. done. }
  assert (Hn : nl = false -> candidate next nl 0x0A = true /\ stops next nl 0x0A = true).
  { intros ->. specialize (Hnext eq_refl). unfold candidate, stops. destruct next as [b|]; cbn; [|done].
    rewrite orb_true_r, negb_true_iff, Z.eqb_neq. split; [done|]. congruence. }
  assert (Hsorted := StronglySorted_filter _ (fun ix => candidate next nl (snd ix) = true) _ (enumerate_sorted l)).
  split.
  - intros ([j x] & -> & Hin). cbn [fst].
    eapply elem_of_take_while in Hin as (Hin & Hst & Hall); [|done|cbn beta; intros; lia].
    apply list_elem_of_filter in Hin as [Hcx Hin%elem_of_enumerate]. cbn [snd] in *.
    bools. destruct (proj1 (Hc x) (conj Hcx Hst)) as [Hb Hx]. exists x. split; [done|]. split; [done|].
    intros Hnl. apply no_newline_get. intros k [Hk Hlt]%get_slice_to.
    destruct (decide (k = j)) as [->|]; [naive_solver|].
    destruct (Hn Hnl) as [Hc0 Hs0]. specialize (Hall (k, 0x0A)). cbn in Hall.
    rewrite Hs0 in Hall. cbn in Hall. enough (false = true) by done. apply Hall; [|lia].
    apply list_elem_of_filter. split; [done|]. by apply elem_of_enumerate.
  - intros (x & Hx & Hb & Hnl). exists (i, x). split; [done|].
    assert (Hxn : nl = false -> x <> 0x0A).
    { intros Hf%Hnl ->. rewrite no_newline_get in Hf. apply (Hf i), get_slice_to. auto with lia. }
    destruct (proj2 (Hc x) (conj Hb Hxn)) as [Hcx Hsx].
    eapply elem_of_take_while; [done|cbn beta; intros; lia|]. rewrite list_elem_of_filter, elem_of_enumerate.
    cbn [snd]. split; [done|]. rewrite Hsx. split; [done|].
    intros [j y] [Hcy Hin%elem_of_enumerate]%list_elem_of_filter Hlt. cbn in *.
    destruct (stops next nl y) eqn:Es; [|done]. destruct (Hs y Hcy Es) as [Hf ->].
    apply Hnl in Hf. rewrite no_newline_get in Hf. destruct (Hf j). apply get_slice_to. auto with lia.
Qed.

Lemma no_newline_app w1 w2 : no_newline (w1 ++ w2) <-> no_newline w1 /\ no_newline w2.
Proof. unfold no_newline. set_solver. Qed.

Lemma elem_of_gen_jump X min max nl next p q :
  0 <= p -> 0 <= min -> (nl = false -> next <> Some 0x0A) ->
  q ∈ gen_jump X min max nl next p <->
  p + min <= q <= p + max /\ q < len X /\
  (forall b, next = Some b -> get X q = Some b) /\
  (nl = false -> no_newline (slice X p (q + 1))).
Proof.
  intros Hp Hmin Hnext. split.
  - intros Hq. pose proof (gen_jump_range _ _ _ _ _ _ _ Hp Hmin Hq) as Hr.
    split; [lia|]. split; [lia|]. unfold gen_jump in Hq. destruct (_ && _) eqn:E; [|set_solver]. bools.
    apply list_elem_of_fmap in Hq as (i & -> & (x & Hx & Hb & Hnl)%elem_of_scan_list); [|done].
    pose proof (get_lt _ _ _ Hx) as Hi. rewrite len_slice in Hi by lia.
    rewrite get_slice in Hx by lia. split; [naive_solver|].
    intros Hf. rewrite (slice_split _ p (p + min)), no_newline_app by lia. split.
    + match goal with Hd : _ \/ _ |- _ => destruct Hd as [?|Hdec]; [congruence|] end.
      by apply bool_decide_eq_true in Hdec.
    + specialize (Hnl Hf). rewrite slice_slice_to in Hnl by lia. by rewrite Z.add_assoc in Hnl.
  - intros (Hr & Hlt & Hb & Hnl). unfold gen_jump.
    replace (_ && _) with true.
    + apply list_elem_of_fmap. exists (q - p - min). split; [lia|].
      apply elem_of_scan_list; [done|].
      destruct (get_is_Some X q ltac:(lia)) as [x Hx]. exists x.
      rewrite get_slice by lia. replace (p + min + (q - p - min)) with q by lia.
      split; [done|]. split; [intros b Hn; specialize (Hb b Hn); congruence|].
      intros Hf. specialize (Hnl Hf). rewrite slice_slice_to by lia.
      rewrite (slice_split _ p (p + min)), no_newline_app in Hnl by lia.
      destruct Hnl as [_ Hnl]. by replace (p + min + (q - p - min + 1)) with (q + 1) by lia.
    + symmetry. rewrite !andb_true_iff, !Z.ltb_lt, orb_true_iff, bool_decide_eq_true.
      split; [lia|]. destruct nl; [by left|right]. specialize (Hnl eq_refl).
      rewrite (slice_split _ p (p + min)), no_newline_app in Hnl by lia. apply Hnl.
Qed.
