(* ===== verification/FastVMRun.v ===== *)
(** The main loop of the fast virtual machine, run on emitted code: it refines
    a function on lists of positions, [run], and the positions given by [run]
    are the ends of the matches of the pieces. *)

From S2P Require Import Prelude.
From S2P Require Import PosSet.
From S2P Require Import Cursor.
From S2P Require Import Re.
From S2P Require Import FastInstr.
From S2P Require Import FastVM.
From S2P Require Import FastSpec.
From S2P Require Import FastVMCorrect.

(** * The function that the machine computes *)

(** The counts of a jump that the code can represent. *)
Definition counts_fit (piece : PatternPiece) : bool :=
  match piece with
  | PieceJump min max _ =>
      (0 <=? min) && (min <=? u16_MAX) &&
      match max with Some m => (0 <? m) && (m <=? u16_MAX) | None => true end
  | PieceJumpExact n _ => (0 <=? n) && (n <=? u16_MAX)
  | _ => true
  end.

Definition encodable (piece : PatternPiece) : bool :=
  piece_fits piece && negb (piece_too_large piece) && counts_fit piece.

(** The byte known to follow a piece, given the pieces of the code after it. *)
Definition next_byte (bck : bool) (rest : list PatternPiece) : option Z :=
  match rest with
  | [] => None
  | piece :: _ => first_byte (seen bck piece)
  end.

(** The positions that a piece of the code adds. An exact jump that does not
    accept newlines looks for them from the start of the input in both
    directions. *)
Definition gen_code (bck : bool) (limit : Z) (input : list Z) (piece : PatternPiece)
    (next : option Z) (positions : list Z) : list Z :=
  match piece with
  | PieceJumpExact n false => p ← positions; gen_jump_exact input n false p
  | _ => gen_piece (toward bck input) limit (seen bck piece) next positions
  end.

Fixpoint run (bck : bool) (limit : Z) (input : list Z) (pieces : list PatternPiece)
    (positions : list Z) : list Z :=
  match pieces with
  | [] => positions
  | piece :: pieces =>
      run bck limit input pieces
        (add_all (gen_code bck limit input piece (next_byte bck pieces) positions) [])
  end.

Lemma gen_piece_nil X limit piece next : gen_piece X limit piece next [] = [].
Proof. destruct piece as [|alts| |]; cbn; try done. by induction alts. Qed.

Lemma gen_code_nil bck limit input piece next : gen_code bck limit input piece next [] = [].
Proof. destruct piece as [| | |n []]; try done; apply gen_piece_nil. Qed.

Lemma run_nil bck limit input pieces : run bck limit input pieces [] = [].
Proof. induction pieces as [|p ps IH]; cbn; [done|]. by rewrite gen_code_nil. Qed.

(** The cases of [gen_code]. *)
Section GenCode.
Context (bck : bool) (limit : Z) (input : list Z) (next : option Z) (positions : list Z).

Lemma gen_code_pattern pat :
  gen_code bck limit input (PiecePattern pat) next positions =
  (p ← positions; gen_pattern (toward bck input) (seen_pattern bck pat) p).
Proof. by destruct bck. Qed.

Lemma gen_code_alternation alts :
  gen_code bck limit input (PieceAlternation alts) next positions =
  (pat ← seen_pattern bck <$> alts; p ← positions; gen_pattern (toward bck input) pat p).
Proof.
  destruct bck; [done|]. cbn. f_equal. induction alts; cbn; [done|]. by f_equal.
Qed.

Lemma gen_code_jump min max nl :
  gen_code bck limit input (PieceJump min max nl) next positions =
  (p ← positions; gen_jump (toward bck input) min (default limit max) nl next p).
Proof. by destruct bck. Qed.

Lemma gen_code_jump_exact n :
  gen_code bck limit input (PieceJumpExact n true) next positions =
  (p ← positions; gen_jump_exact (toward bck input) n true p).
Proof. by destruct bck. Qed.

Lemma gen_code_jump_exact_no_newline n :
  gen_code bck limit input (PieceJumpExact n false) next positions =
  (p ← positions; gen_jump_exact input n false p).
Proof. done. Qed.
End GenCode.

#[export] Hint Rewrite gen_code_pattern gen_code_alternation gen_code_jump gen_code_jump_exact
  gen_code_jump_exact_no_newline : gen_code.

(** * Windows of positions *)

Lemma seen_well_masked bck pat : well_masked pat = true -> well_masked (seen_pattern bck pat) = true.
Proof. destruct bck, pat; cbn; try done. intros. bools. rewrite !len_rev. lia. Qed.

(** New positions are in a window that is not far from the old one. *)
Lemma gen_code_within bck limit input piece next positions lo :
  encodable piece = true -> 0 <= lo -> 0 <= limit -> len input <= 65535 ->
  within lo positions ->
  exists lo', 0 <= lo' <= lo + 65535 /\
              within lo' (gen_code bck limit input piece next positions).
Proof.
  unfold encodable. intros Henc Hlo Hlim HX Hw. bools.
  assert (HX' : len (toward bck input) <= 65535) by by rewrite len_toward.
  assert (Hp : forall p, p ∈ positions -> 0 <= p) by (intros p ?%Hw; lia).
  destruct piece as [pat|alts|min max nl|n nl]; cbn [piece_fits piece_too_large counts_fit] in *.
  - exists 0. split; [lia|]. intros q.
    assert (well_masked (seen_pattern bck pat) = true) as Hm
      by by apply seen_well_masked, pattern_fits_well_masked.
    rewrite gen_code_pattern. intros (p & Hq & Hin)%list_elem_of_bind.
    specialize (Hp p Hin). apply elem_of_gen_pattern in Hq; [lia|done..].
  - exists 0. split; [lia|]. intros q.
    rewrite gen_code_alternation. intros (pat & (p & Hq & Hin)%list_elem_of_bind & (pat0 & -> & Hpat)%list_elem_of_fmap)%list_elem_of_bind.
    specialize (Hp p Hin). apply elem_of_gen_pattern in Hq; [lia|done|].
    apply seen_well_masked, pattern_fits_well_masked.
    match goal with Hf : forallb _ _ = true |- _ => rewrite forallb_forall in Hf; apply Hf end.
    by apply list_elem_of_In.
  - exists 0. split; [lia|]. intros q Hq. bools.
    rewrite gen_code_jump in Hq. apply list_elem_of_bind in Hq as (p & Hg & Hin).
    specialize (Hp p Hin). apply gen_jump_range in Hg; [|lia..]. lia.
  - exists (lo + n). unfold u16_MAX in *. bools. split; [lia|]. intros q Hq.
    assert (exists p X, p ∈ positions /\ q ∈ gen_jump_exact X n nl p) as (p & X & Hin & Hg).
    { destruct nl; autorewrite with gen_code in Hq;
        apply list_elem_of_bind in Hq as (p & ? & ?); eauto. }
    specialize (Hp p Hin). specialize (Hw p Hin).
    apply elem_of_gen_jump_exact in Hg as [-> _]; lia.
Qed.

(** * One instruction *)

Lemma byte_after_jump_piece bck piece :
  byte_after_jump bck (instr_of_piece piece) = first_byte (seen bck piece).
Proof.
  destruct bck, piece as [[l|l m]| |min max nl|n nl]; cbn; rewrite ?head_reverse; try done.
  all: repeat case_match; done.
Qed.

Section Run.
Context {MC : Memchr} {ML : MemchrLaws} {S : Type} `{PL : PosSetLaws S}.

Lemma exec_instr_adds (vm : FastVM S) bck input ip piece next_instr size lo lo' :
  encodable piece = true -> 0 <= lo -> 0 <= lo' -> lo + 65535 + 65535 <= usize_MAX ->
  lo' + 65535 <= usize_MAX -> 0 <= vm.(vm_scan_limit) ->
  within lo (pos_items vm.(vm_positions)) ->
  within lo' (gen_code bck vm.(vm_scan_limit) input piece (byte_after_jump bck next_instr)
                (pos_items vm.(vm_positions))) ->
  decode_instr (slice_from vm.(vm_code) ip) = Ret (next_instr, size) ->
  pos_ok vm.(vm_next_positions) -> pos_items vm.(vm_next_positions) = [] ->
  exists next, exec_instr vm bck false input 1 flags_empty ip (instr_of_piece piece) = Ret next /\
    pos_ok next /\
    pos_items next = add_all (gen_code bck vm.(vm_scan_limit) input piece
                        (byte_after_jump bck next_instr) (pos_items vm.(vm_positions))) [].
Proof.
  unfold encodable. intros Henc Hlo Hlo' Hb Hb' Hlim Hw Hw' Hdec Hok Hnil. bools.
  assert (Hp : forall p, p ∈ pos_items (vm_positions vm) -> 0 <= p /\ p + 65535 <= usize_MAX)
    by (intros p ?%Hw; lia).
  assert (Hp0 : forall p, p ∈ pos_items (vm_positions vm) -> 0 <= p) by naive_solver.
  assert (Hgoal : forall body ks, adds lo' body ks -> within lo' ks ->
    exists next, body (vm_next_positions vm) = Ret next /\ pos_ok next /\
                 pos_items next = add_all ks []).
  { intros body ks Ha Hks. destruct (Ha Hks (vm_next_positions vm) Hok) as (s & E & Hs & Hi).
    - rewrite Hnil. apply within_nil.
    - exists s. by rewrite Hi, Hnil. }
  destruct piece as [[l|l m]|alts|min max nl|n nl].
  - apply (Hgoal (exec_literal bck false input l 1 _)); [|done].
    rewrite gen_code_pattern. by apply exec_literal_adds.
  - apply (Hgoal (exec_masked_literal bck false input l m 1 _)); [|done].
    rewrite gen_code_pattern. cbn in *. bools. by apply exec_masked_literal_adds.
  - apply (Hgoal (exec_alternation bck false input (enc_alternatives alts) 1 _)); [|done].
    rewrite gen_code_alternation. by apply exec_alternation_adds.
  - cbn [counts_fit] in *. bools. unfold u16_MAX in *.
    assert (Hmin : wrap_u16 min = min) by (unfold wrap_u16; rewrite Z.mod_small; lia).
    assert (Hmax : forall m, max = Some m -> wrap_u16 m = m /\ 0 < m).
    { intros m ->. bools. unfold wrap_u16. rewrite Z.mod_small; lia. }
    assert (Hexec : exec_instr vm bck false input 1 flags_empty ip (instr_of_piece (PieceJump min max nl)) =
      exec_jump bck input (jump_flags nl) (min, default (vm_scan_limit vm) max) next_instr
        (pos_items (vm_positions vm)) (vm_next_positions vm)).
    { cbn [instr_of_piece]. rewrite Hmin. destruct max as [m|].
      - destruct (Hmax m eq_refl) as [Hwm ?]. cbn [fmap option_fmap option_map default].
        unfold default, id. rewrite Hwm. assert (m =? 0 = false) as -> by lia.
        destruct nl; unfold exec_instr; rewrite Hdec; done.
      - destruct nl; unfold exec_instr; cbn; rewrite Hdec; done. }
    rewrite Hexec. apply (Hgoal (exec_jump bck input _ _ next_instr _)); [|done].
    rewrite gen_code_jump. apply exec_jump_adds; [lia..|done|lia|]. destruct max as [m|]; cbn; [|lia].
    destruct (Hmax m eq_refl). lia.
  - cbn [counts_fit] in *. bools. unfold u16_MAX in *.
    assert (Hn : wrap_u16 n = n) by (unfold wrap_u16; rewrite Z.mod_small; lia).
    cbn [instr_of_piece]. rewrite Hn. destruct nl.
    + apply (Hgoal (exec_jump_exact 1 n _)); [|done].
      rewrite gen_code_jump_exact. by apply exec_jump_exact_adds.
    + apply (Hgoal (exec_jump_exact_no_newline input 1 n _)); [|done].
      apply exec_jump_exact_no_newline_adds; [lia..| |lia]. intros p ?%Hp. lia.
Qed.

(** * The main loop *)

(** A machine between two scans. *)
Definition idle (vm : FastVM S) : Prop :=
  pos_ok vm.(vm_positions) /\ pos_items vm.(vm_positions) = [] /\
  pos_ok vm.(vm_next_positions) /\ pos_items vm.(vm_next_positions) = [].

(** A machine at the beginning of an iteration. *)
Definition running (vm : FastVM S) (positions : list Z) : Prop :=
  pos_ok vm.(vm_positions) /\ pos_items vm.(vm_positions) = positions /\
  pos_ok vm.(vm_next_positions) /\ pos_items vm.(vm_next_positions) = [].

Lemma swap_positions_ok vm positions next :
  running vm positions -> pos_ok next ->
  exists vm', swap_positions vm next = Ret vm' /\ running vm' (pos_items next) /\
    vm'.(vm_code) = vm.(vm_code) /\ vm'.(vm_scan_limit) = vm.(vm_scan_limit).
Proof.
  intros (Hok & _ & _ & _) Hn. unfold swap_positions.
  destruct (pos_clear_spec _ Hok) as (s & -> & Hs & Hi). eexists. split; [done|]. done.
Qed.

Lemma decode_enc_pieces pieces post :
  Forall (fun p => encodable p = true) pieces ->
  exists instr size, decode_instr (enc_pieces pieces ++ MATCH :: post) = Ret (instr, size) /\
    match pieces with
    | [] => instr = Match /\ size = 1
    | p :: _ => instr = instr_of_piece p /\ size = len (enc_piece p)
    end.
Proof.
  intros HF. destruct pieces as [|p ps]; [by eexists _, _|].
  inversion_clear HF as [|? ? He _]. unfold encodable in He. bools.
  eexists _, _. cbn [enc_pieces fmap list_fmap concat]. rewrite <- app_assoc.
  rewrite decode_piece by done. done.
Qed.

Lemma byte_after_next pieces bck instr :
  match pieces with [] => instr = Match | p :: _ => instr = instr_of_piece p end ->
  byte_after_jump bck instr = next_byte bck pieces.
Proof. destruct pieces; intros ->; [done|]. apply byte_after_jump_piece. Qed.

Lemma exec_match_not_wide {C} bck input (f : C -> Z -> C * Action) positions c :
  exec_match bck false input f positions c = exec_match false false [] f positions c.
Proof.
  revert c. induction positions as [|p ps IH]; intros c; [done|]. cbn.
  destruct (f c p) as [c' []]; [apply IH|done].
Qed.

Lemma try_match_loop_match {C} fuel bck input (f : C -> Z -> C * Action) ip vm c positions post :
  running vm positions -> slice_from vm.(vm_code) ip = MATCH :: post ->
  exists vm', try_match_loop (Datatypes.S fuel) bck false input 1 flags_empty f ip vm c =
      Ret (vm', fst (exec_match bck false input f positions c)) /\
    idle vm' /\ vm'.(vm_code) = vm.(vm_code) /\ vm'.(vm_scan_limit) = vm.(vm_scan_limit).
Proof.
  intros Hr Hcode. pose proof Hr as (Hok & Hi & Hok' & Hi'). cbn [try_match_loop]. rewrite Hi.
  destruct positions as [|p0 ps]; [exists vm; split_and!; done|].
  rewrite Hcode, decode_match. cbn [mbind res_bind].
  destruct (exec_match bck false input f (p0 :: ps) c) as [c' []] eqn:E; cbn [fst].
  - destruct (pos_clear_spec _ Hok) as (s & -> & Hs & Hsi). eexists. split; [done|]. done.
  - cbn [exec_instr mbind res_bind].
    destruct (swap_positions_ok _ _ _ Hr Hok') as (vm' & -> & Hr' & Hc & Hl). cbn [mbind res_bind].
    rewrite Hi' in Hr'. pose proof Hr' as (? & Hi2 & ? & ?).
    exists vm'. split; [|done]. destruct fuel; cbn [try_match_loop]; by rewrite Hi2.
Qed.

Lemma instr_of_piece_not_match {A} piece (x y : A) :
  match instr_of_piece piece with Match => x | _ => y end = y.
Proof. destruct piece as [[]| |? ? []|? []]; cbn; try done; by destruct (_ =? 0). Qed.

(** An iteration for a piece of the pattern. *)
Lemma try_match_loop_piece {C} (f : C -> Z -> C * Action) bck input post piece pieces fuel pre vm
    lo positions c :
  encodable piece = true -> Forall (fun p => encodable p = true) pieces -> len input <= 65535 ->
  vm.(vm_code) = pre ++ enc_pieces (piece :: pieces) ++ MATCH :: post ->
  positions <> [] -> running vm positions -> within lo positions -> 0 <= lo ->
  0 <= vm.(vm_scan_limit) -> lo + 65535 * 2 <= usize_MAX ->
  exists vm' lo',
    try_match_loop (Datatypes.S fuel) bck false input 1 flags_empty f (len pre) vm c =
      try_match_loop fuel bck false input 1 flags_empty f (len (pre ++ enc_piece piece)) vm' c /\
    0 <= lo' <= lo + 65535 /\
    (let positions' := add_all (gen_code bck vm.(vm_scan_limit) input piece
                                  (next_byte bck pieces) positions) [] in
     running vm' positions' /\ within lo' positions') /\
    vm'.(vm_code) = vm.(vm_code) /\ vm'.(vm_scan_limit) = vm.(vm_scan_limit).
Proof.
  intros He HF HX Hcode Hne Hr Hw Hlo Hlim Hb. pose proof Hr as (Hok & Hi & Hok' & Hi').
  cbn [try_match_loop]. rewrite Hi. destruct positions as [|p0 ps]; [done|].
  set (positions := p0 :: ps) in *.
  assert (Hdec0 : decode_instr (slice_from (vm_code vm) (len pre)) =
                  Ret (instr_of_piece piece, len (enc_piece piece))).
  { rewrite Hcode, slice_from_app. cbn [enc_pieces fmap list_fmap concat]. rewrite <- app_assoc.
    unfold encodable in He. bools. by rewrite decode_piece. }
  rewrite Hdec0. cbn [mbind res_bind].
  destruct (decode_enc_pieces pieces post HF) as (instr & size & Hdec & Hinstr).
  assert (Hnext : byte_after_jump bck instr = next_byte bck pieces)
    by (apply byte_after_next; destruct pieces; tauto).
  destruct (gen_code_within bck (vm_scan_limit vm) input piece (next_byte bck pieces) positions lo)
    as (lo' & Hlo' & Hw'); [done..|].
  destruct (exec_instr_adds vm bck input (len pre + len (enc_piece piece)) piece instr size lo lo')
    as (next & Hexec & Hokn & Hin); rewrite ?Hnext, ?Hi; try done; try lia.
  { rewrite Hcode. cbn [enc_pieces fmap list_fmap concat]. rewrite <- app_assoc. fold (enc_pieces pieces).
    rewrite slice_from_app_plus by apply len_nonneg. by rewrite slice_from_app. }
  rewrite Hnext, Hi in Hin. rewrite instr_of_piece_not_match, Hexec. cbn [mbind res_bind].
  destruct (swap_positions_ok _ _ _ Hr Hokn) as (vm1 & -> & Hr1 & Hc1 & Hl1).
  rewrite Hin in Hr1. exists vm1, lo'. rewrite len_app. cbn zeta.
  split; [done|]. split; [done|]. split; [|done].
  split; [done|]. apply within_add_all; [done|apply within_nil].
Qed.

Lemma try_match_loop_run {C} (f : C -> Z -> C * Action) bck input post pieces :
  Forall (fun p => encodable p = true) pieces -> len input <= 65535 ->
  forall fuel pre vm lo positions c,
  (length pieces < fuel)%nat ->
  vm.(vm_code) = pre ++ enc_pieces pieces ++ MATCH :: post ->
  running vm positions -> within lo positions -> 0 <= lo -> 0 <= vm.(vm_scan_limit) ->
  lo + 65535 * (2 + len pieces) <= usize_MAX ->
  exists vm',
    try_match_loop fuel bck false input 1 flags_empty f (len pre) vm c =
      Ret (vm', fst (exec_match bck false input f
                       (run bck vm.(vm_scan_limit) input pieces positions) c)) /\
    idle vm' /\ vm'.(vm_code) = vm.(vm_code) /\ vm'.(vm_scan_limit) = vm.(vm_scan_limit).
Proof.
  intros HF HX. induction HF as [|piece pieces He HF IH];
    intros fuel pre vm lo positions c Hfuel Hcode Hr Hw Hlo Hlim Hb;
    (destruct fuel as [|fuel]; [lia|]).
  - apply (try_match_loop_match fuel bck input f _ vm c positions post); [done|].
    rewrite Hcode. apply slice_from_app.
  - destruct (decide (positions = [])) as [->|Hne].
    { cbn [try_match_loop]. pose proof Hr as (_ & -> & _). exists vm. rewrite run_nil. by split_and!. }
    rewrite len_cons in Hb. pose proof (len_nonneg pieces).
    destruct (try_match_loop_piece f bck input post piece pieces fuel pre vm lo positions c)
      as (vm1 & lo' & -> & Hlo' & [Hr1 Hw1] & Hc1 & Hl1); [done..|lia|]. cbn zeta in *.
    match type of Hr1 with running _ ?ps =>
      destruct (IH fuel (pre ++ enc_piece piece) vm1 lo' ps c) as (vm' & Hloop & Hidle & Hcode' & Hlim')
    end; try done; try lia.
    { cbn in Hfuel. lia. }
    { rewrite Hc1, Hcode. cbn [enc_pieces fmap list_fmap concat]. by rewrite <- !app_assoc. }
    rewrite Hl1 in Hloop. exists vm'. rewrite Hloop, Hcode', Hlim'. by split_and!.
Qed.
End Run.

(** * The language of the positions *)

Definition avoids_newline (p : Pattern) : bool :=
  match p with
  | PatLiteral (b :: _) => negb (b =? 0x0A)
  | PatMasked (b :: _) (m :: _) => negb (Z.land 0x0A m =? Z.land b m)
  | _ => false
  end.

(** What a piece matches does not start with a newline. *)
Definition starts_off_newline (piece : PatternPiece) : bool :=
  match piece with
  | PiecePattern p => avoids_newline p
  | PieceAlternation alts => forallb avoids_newline alts
  | _ => false
  end.

(** Conditions on pieces, in the order of the scan, under which the machine
    reports only matches: a jump that does not accept newlines is not followed
    by a literal that starts with one. *)
Fixpoint sound_pieces (pieces : list PatternPiece) : bool :=
  match pieces with
  | [] => true
  | piece :: rest =>
      match piece with
      | PieceJump _ _ false =>
          match rest with
          | next :: _ => negb (bool_decide (first_byte next = Some 0x0A))
          | [] => true
          end
      | _ => true
      end && sound_pieces rest
  end.

(** Conditions under which it reports all the matches: no empty literals,
    something that takes at least one byte after each jump and, after a jump
    that does not accept newlines, a literal that does not start with one. *)
Fixpoint complete_pieces (pieces : list PatternPiece) : bool :=
  match pieces with
  | [] => true
  | piece :: rest =>
      match piece with
      | PiecePattern _ | PieceAlternation _ => consumes piece
      | PieceJump _ _ accept_newlines =>
          existsb consumes rest &&
          (accept_newlines ||
           match rest with next :: _ => starts_off_newline next | [] => false end)
      | PieceJumpExact _ _ => true
      end && complete_pieces rest
  end.

(** Exact jumps that do not accept newlines are only right in forward scans. *)
Definition no_exact_no_newline (piece : PatternPiece) : bool :=
  match piece with PieceJumpExact _ false => false | _ => true end.

Definition directed (bck : bool) (pieces : list PatternPiece) : bool :=
  negb bck || forallb no_exact_no_newline pieces.

Lemma directed_cons bck piece pieces :
  directed bck (piece :: pieces) = true ->
  negb bck || no_exact_no_newline piece = true /\ directed bck pieces = true.
Proof. unfold directed. destruct bck; [|done]. cbn. apply andb_prop. Qed.

Lemma gen_code_seen bck limit input piece next positions :
  negb bck || no_exact_no_newline piece = true ->
  gen_code bck limit input piece next positions =
  gen_piece (toward bck input) limit (seen bck piece) next positions.
Proof. destruct bck, piece as [| | |n []]; done. Qed.

(** The counts and the masks are in order. *)
Definition regular (piece : PatternPiece) : bool :=
  match piece with
  | PiecePattern p => well_masked p
  | PieceAlternation alts => forallb well_masked alts
  | PieceJump min max _ => (0 <=? min)
  | PieceJumpExact n _ => 0 <=? n
  end.

Lemma encodable_regular bck piece : encodable piece = true -> regular (seen bck piece) = true.
Proof.
  unfold encodable. intros He. bools. destruct piece as [pat|alts|min max nl|n nl]; cbn in *.
  - assert (seen_pattern bck pat = seen_pattern bck pat) by done.
    replace (regular (seen bck (PiecePattern pat))) with (well_masked (seen_pattern bck pat)) by by destruct bck.
    by apply seen_well_masked, pattern_fits_well_masked.
  - replace (regular (seen bck (PieceAlternation alts)))
      with (forallb (fun pat => well_masked (seen_pattern bck pat)) alts).
    + rewrite forallb_forall in *. intros p Hp. apply seen_well_masked, pattern_fits_well_masked. auto.
    + destruct bck; cbn; [|done]. clear. induction alts; cbn; [done|]. by f_equal.
  - bools. destruct bck; cbn; lia.
  - bools. destruct bck; cbn; lia.
Qed.

(** ** Soundness of a piece *)

Lemma gen_piece_sound X limit piece next positions q :
  regular piece = true -> (forall p, p ∈ positions -> 0 <= p) ->
  (match piece with PieceJump _ _ false => next <> Some 0x0A | _ => True end) ->
  (match piece with PieceJump _ None _ => len X <= limit | _ => True end) ->
  q ∈ gen_piece X limit piece next positions ->
  exists p, p ∈ positions /\ p <= q /\ (q <= len X -> piece_matches piece (slice X p q)).
Proof.
  intros Hreg Hp Hnext Hlim. destruct piece as [pat|alts|min max nl|n nl]; cbn in *.
  - intros (p & Hq & Hin)%list_elem_of_bind. specialize (Hp p Hin).
    apply elem_of_gen_pattern in Hq as (? & ? & ?); [|done..]. exists p. auto with lia.
  - intros (pat & (p & Hq & Hin)%list_elem_of_bind & Hpat)%list_elem_of_bind. specialize (Hp p Hin).
    rewrite forallb_forall in Hreg. apply elem_of_gen_pattern in Hq as (? & ? & ?); [|done|].
    + exists p. split; [done|]. split; [lia|]. eauto.
    + by apply Hreg, list_elem_of_In.
  - intros (p & Hq & Hin)%list_elem_of_bind. specialize (Hp p Hin). bools.
    apply elem_of_gen_jump in Hq as (Hr & Hlt & _ & Hnl); [|lia|lia|by intros ->].
    exists p. split; [done|]. split; [lia|]. intros Hle. rewrite len_slice by lia.
    split; [lia|]. split; [intros m ->; cbn in *; lia|]. intros Hf. specialize (Hnl Hf).
    rewrite (slice_split _ p q), no_newline_app in Hnl by lia. apply Hnl.
  - intros (p & Hq & Hin)%list_elem_of_bind. specialize (Hp p Hin). bools.
    apply elem_of_gen_jump_exact in Hq as [-> Hnl]; [|lia..].
    exists p. split; [done|]. split; [lia|]. intros Hle. rewrite len_slice by lia.
    split; [lia|]. intros Hf. by apply Hnl.
Qed.

(** ** Completeness of a piece *)

Lemma land_255 x : is_u8 x -> Z.land x 255 = x.
Proof.
  intros Hx. change 255 with (Z.ones 8). rewrite Z.land_ones by lia.
  unfold is_u8 in Hx. apply Z.mod_small. lia.
Qed.

Lemma head_get {A} (l : list A) : get l 0 = head l.
Proof. by destruct l. Qed.

Lemma get_head_slice {A} (X : list A) p q :
  0 <= p < q -> q <= len X -> get X p = head (slice X p q).
Proof. intros H1 H2. rewrite <- head_get, get_slice by lia. f_equal. lia. Qed.

Lemma first_byte_spec piece w b :
  typed_piece piece -> Forall is_u8 w -> first_byte piece = Some b -> piece_matches piece w ->
  head w = Some b.
Proof.
  destruct piece as [[l|l m]| | |]; cbn; try done.
  - intros _ _ Hb ->. done.
  - intros [Hl Hm] Hw. case_bool_decide as Hh; [|done]. intros Hb HF.
    destruct HF as [|x y z w l m Hxyz _]; [done|]. cbn in *. simplify_eq.
    unfold byte_matches in Hxyz. inversion_clear Hl. inversion_clear Hw.
    rewrite !land_255 in Hxyz by done. by f_equal.
Qed.

Lemma starts_off_newline_spec piece w :
  starts_off_newline piece = true -> piece_matches piece w -> exists x, head w = Some x /\ x <> 0x0A.
Proof.
  assert (Hpat : forall p w, avoids_newline p = true -> pattern_matches p w ->
                   exists x, head w = Some x /\ x <> 0x0A).
  { intros [[|b l]|[|b l] [|m ms]] w'; cbn; try done.
    - intros E ->. bools. eauto.
    - intros E. bools. inversion 1; subst. unfold byte_matches in *. eexists. split; [done|].
      intros ->. congruence. }
  destruct piece as [p|alts| |]; cbn; try done; [by apply Hpat|].
  rewrite forallb_forall. intros Ha (p & Hin & Hm). eapply Hpat; [|done]. by apply Ha, list_elem_of_In.
Qed.

Lemma first_byte_not_newline piece :
  typed_piece piece -> starts_off_newline piece = true -> first_byte piece <> Some 0x0A.
Proof.
  destruct piece as [[[|b l]|[|b l] [|m ms]]| | |]; cbn; try done.
  - intros _ E. bools. congruence.
  - intros _ E. case_bool_decide as Hh; [|done]. injection Hh as ->. bools. congruence.
Qed.

(** The rest of the pattern matches from [q], up to a position in the input. *)
Definition viable (X : list Z) (rest : list PatternPiece) (q : Z) : Prop :=
  exists e, q <= e <= len X /\ pieces_match rest (slice X q e).

(** What follows a jump is visible to the search of the next byte. *)
Lemma viable_next X rest q piece :
  Forall is_u8 X -> 0 <= q -> viable X (piece :: rest) q -> typed_piece piece ->
  (forall b, first_byte piece = Some b -> get X q = Some b) /\
  (starts_off_newline piece = true -> exists x, get X q = Some x /\ x <> 0x0A).
Proof.
  intros HX Hq (e & He & w1 & w2 & Hw & Hm1 & _) Ht.
  assert (Hhead : forall x, head w1 = Some x -> get X q = Some x).
  { intros x Hx. assert (q < e).
    { enough (0 < len (slice X q e)) by (rewrite len_slice in *; lia). rewrite Hw, len_app.
      pose proof (len_nonneg w2). destruct w1; [done|]. rewrite len_cons. pose proof (len_nonneg w1). lia. }
    rewrite (get_head_slice X q e), Hw by lia. by destruct w1. }
  split.
  - intros b Hb. apply Hhead. apply (first_byte_spec piece); try done.
    assert (Forall is_u8 (w1 ++ w2)) as [? _]%Forall_app; [|done]. rewrite <- Hw. by apply Forall_slice.
  - intros Hs. destruct (starts_off_newline_spec _ _ Hs Hm1) as (x & Hx & ?). eauto.
Qed.

Lemma no_newline_snoc X p q x :
  0 <= p <= q -> q < len X -> get X q = Some x -> x <> 0x0A -> no_newline (slice X p q) ->
  no_newline (slice X p (q + 1)).
Proof.
  intros H1 H2 Hx Hn Hs. rewrite (slice_split _ p q), no_newline_app by lia. split; [done|].
  apply no_newline_get. intros i Hi. pose proof (get_lt _ _ _ Hi) as Hr.
  rewrite len_slice in Hr by lia. rewrite get_slice in Hi by lia.
  replace (q + i) with q in Hi by lia. congruence.
Qed.

Lemma gen_jump_complete X limit min max nl rest p q :
  Forall is_u8 X -> 0 <= p <= q -> 0 <= min -> len X <= limit -> Forall typed_piece rest ->
  existsb consumes rest = true ->
  nl || match rest with next :: _ => starts_off_newline next | [] => false end = true ->
  piece_matches (PieceJump min max nl) (slice X p q) -> viable X rest q ->
  q ∈ gen_jump X min (default limit max) nl
        (match rest with [] => None | next :: _ => first_byte next end) p.
Proof.
  intros HX Hp Hmin Hlim Ht Hc Hnl (Hlo & Hhi & Hno) Hv.
  assert (Hq : q < len X).
  { destruct Hv as (e & He & Hm). apply some_consumes_len in Hm; [|done]. rewrite len_slice in Hm; lia. }
  rewrite len_slice in Hlo, Hhi by lia.
  destruct rest as [|next rest]; [done|]. inversion_clear Ht.
  destruct (viable_next X rest q next) as [Hfb Hso]; [done|lia|done..|].
  apply elem_of_gen_jump; [lia..| |].
  - intros ->. by apply first_byte_not_newline.
  - split; [|split; [done|split; [done|]]].
    + destruct max as [m|]; cbn; [specialize (Hhi m eq_refl)|]; lia.
    + intros ->. destruct (Hso Hnl) as (x & Hx & Hne). apply (no_newline_snoc _ _ _ x); auto.
Qed.

Lemma gen_piece_complete X limit piece rest positions p q :
  Forall is_u8 X -> regular piece = true -> len X <= limit -> Forall typed_piece rest ->
  complete_pieces (piece :: rest) = true ->
  p ∈ positions -> 0 <= p <= q -> q <= len X -> piece_matches piece (slice X p q) ->
  viable X rest q ->
  q ∈ gen_piece X limit piece (match rest with [] => None | next :: _ => first_byte next end) positions.
Proof.
  intros HX Hreg Hlim Ht Hc Hin Hp Hq Hm Hv. cbn [complete_pieces] in Hc. bools.
  destruct piece as [pat|alts|min max nl|n nl]; cbn [gen_piece].
  - apply list_elem_of_bind. exists p. split; [|done]. pose proof Hm as Hl.
    apply consumes_len in Hl; [|done]. rewrite len_slice in Hl by lia.
    apply elem_of_gen_pattern; [lia|done|]. split; [lia|]. split; [lia|done].
  - pose proof Hm as Hl. apply consumes_len in Hl; [|done]. rewrite len_slice in Hl by lia.
    destruct Hm as (pat & Hpat & Hm). cbn in Hreg. rewrite forallb_forall in Hreg.
    apply list_elem_of_bind. exists pat. split; [|done]. apply list_elem_of_bind. exists p. split; [|done].
    apply elem_of_gen_pattern; [lia|by apply Hreg, list_elem_of_In|]. split; [lia|]. split; [lia|done].
  - bools. apply list_elem_of_bind. exists p. split; [|done]. cbn in Hreg. bools.
    apply gen_jump_complete; try done. apply orb_true_iff. by match goal with H : _ \/ _ |- _ => exact H end.
  - apply list_elem_of_bind. exists p. split; [|done]. cbn in Hreg. bools.
    destruct Hm as [Hl Hno]. rewrite len_slice in Hl by lia.
    apply elem_of_gen_jump_exact; [lia..|]. split; [lia|]. auto.
Qed.

(** ** All the pieces *)

Lemma next_byte_seen bck rest :
  next_byte bck rest = match seen bck <$> rest with [] => None | next :: _ => first_byte next end.
Proof. by destruct rest. Qed.

Lemma slice_app_inv {A} (X : list A) p q w1 w2 :
  0 <= p <= q -> q <= len X -> slice X p q = w1 ++ w2 ->
  w1 = slice X p (p + len w1) /\ w2 = slice X (p + len w1) q /\ p + len w1 <= q.
Proof.
  intros Hp Hq Hw. pose proof (len_nonneg w1). pose proof (len_nonneg w2).
  assert (Hl : len w1 + len w2 = q - p) by (rewrite <- len_app, <- Hw; by apply len_slice).
  rewrite (slice_split X p (p + len w1)) in Hw by lia.
  apply app_inj_1 in Hw as [H1 H2]; [split_and!; [by symmetry..|lia]|].
  enough (len (slice X p (p + len w1)) = len w1) by (unfold len in *; lia).
  rewrite len_slice; lia.
Qed.

Lemma elem_of_step q ks : q ∈ add_all ks [] <-> q ∈ ks.
Proof. rewrite elem_of_add_all. set_solver. Qed.

Lemma run_sound bck limit input pieces : forall positions q,
  Forall (fun p => encodable p = true) pieces -> directed bck pieces = true ->
  sound_pieces (seen bck <$> pieces) = true -> len input <= limit ->
  (forall p, p ∈ positions -> 0 <= p) ->
  q ∈ run bck limit input pieces positions ->
  exists p, p ∈ positions /\ p <= q /\
    (q <= len input -> pieces_match (seen bck <$> pieces) (slice (toward bck input) p q)).
Proof.
  induction pieces as [|piece pieces IH]; intros positions q HF Hd Hs Hlim Hp Hq; cbn [run] in Hq.
  - exists q. split; [done|]. split; [lia|]. intros _. unfold slice.
    by rewrite Z.sub_diag.
  - inversion_clear HF as [|? ? He HF']. cbn in Hs. bools.
    apply directed_cons in Hd as [Hd1 Hd2].
    rewrite gen_code_seen in Hq by done.
    assert (Hstep : forall p, p ∈ gen_piece (toward bck input) limit (seen bck piece) (next_byte bck pieces) positions ->
      exists p0, p0 ∈ positions /\ p0 <= p /\
        (p <= len input -> piece_matches (seen bck piece) (slice (toward bck input) p0 p))).
    { intros p Hg. rewrite <- (len_toward bck). eapply gen_piece_sound; try done.
      - by apply encodable_regular.
      - destruct (seen bck piece) as [| |? ? []|]; try done. rewrite next_byte_seen.
        destruct (seen bck <$> pieces); [done|]. bools. by apply bool_decide_eq_false in H.
      - destruct (seen bck piece) as [| |? [] ?|]; try done. by rewrite len_toward. }
    apply IH in Hq as (p1 & Hin1 & Hle & Hm); try done.
    + rewrite elem_of_step in Hin1. apply Hstep in Hin1 as (p & Hin & Hle' & Hm').
      specialize (Hp p Hin). exists p. split; [done|]. split; [lia|]. intros Hb. cbn.
      exists (slice (toward bck input) p p1), (slice (toward bck input) p1 q).
      split; [apply slice_split; lia|]. split; [apply Hm'; lia|auto].
    + intros p1 Hin1. rewrite elem_of_step in Hin1. apply Hstep in Hin1 as (p & Hin & ? & _).
      specialize (Hp p Hin). lia.
Qed.

Lemma run_complete bck limit input pieces : forall positions p q,
  Forall is_u8 input -> Forall (fun p => encodable p = true) pieces -> directed bck pieces = true ->
  Forall typed_piece (seen bck <$> pieces) ->
  complete_pieces (seen bck <$> pieces) = true -> len input <= limit ->
  p ∈ positions -> 0 <= p <= q -> q <= len input ->
  pieces_match (seen bck <$> pieces) (slice (toward bck input) p q) ->
  q ∈ run bck limit input pieces positions.
Proof.
  induction pieces as [|piece pieces IH]; intros positions p q Hu HF Hd Ht Hc Hlim Hin Hp Hq Hm.
  - cbn in *. apply (f_equal len) in Hm. rewrite len_slice in Hm by (rewrite ?len_toward; lia).
    change (len []) with 0 in Hm. by replace q with p by lia.
  - inversion_clear HF as [|? ? He HF']. inversion_clear Ht as [|? ? _ Ht']. cbn [run].
    destruct Hm as (w1 & w2 & Hw & Hm1 & Hm2).
    apply slice_app_inv in Hw as (Hw1 & Hw2 & Hle); [|lia|by rewrite len_toward].
    pose proof (len_nonneg w1). rewrite Hw1 in Hm1. rewrite Hw2 in Hm2. clear Hw1 Hw2.
    remember (p + len w1) as r eqn:Er. assert (Hr : p <= r) by lia.
    assert (Hcp := Hc). cbn [fmap list_fmap complete_pieces] in Hcp. bools.
    apply directed_cons in Hd as [Hd1 Hd2].
    apply (IH _ r); try done; try lia.
    rewrite elem_of_step, gen_code_seen, next_byte_seen by done.
    eapply gen_piece_complete; try done; rewrite ?len_toward; try lia.
    + destruct bck; [by apply Forall_reverse|done].
    + by apply encodable_regular.
    + exists q. rewrite len_toward. split; [lia|done].
Qed.

Lemma NoDup_add_all ks : forall l, NoDup l -> NoDup (add_all ks l).
Proof.
  induction ks as [|k ks IH]; intros l Hl; [done|]. cbn. apply IH. unfold add_new.
  case_decide; [done|]. apply NoDup_app. split; [done|]. split; [set_solver|]. apply NoDup_singleton.
Qed.

Lemma NoDup_run bck limit input pieces : forall positions,
  NoDup positions -> NoDup (run bck limit input pieces positions).
Proof.
  induction pieces as [|piece pieces IH]; intros positions Hn; [done|].
  cbn. apply IH, NoDup_add_all, NoDup_nil_2.
Qed.

Lemma complete_sound pieces :
  Forall typed_piece pieces -> complete_pieces pieces = true -> sound_pieces pieces = true.
Proof.
  induction 1 as [|piece pieces Ht HF IH]; [done|]. cbn. intros Hc. bools.
  rewrite IH, andb_true_r by done. destruct piece as [| |min max [|]|]; try done.
  bools. destruct HF as [|next rest Hn _]; [done|].
  match goal with H : _ \/ _ |- _ => destruct H as [?|Hs]; [done|] end.
  by apply negb_true_iff, bool_decide_eq_false, first_byte_not_newline.
Qed.

Lemma typed_seen bck piece : typed_piece piece -> typed_piece (seen bck piece).
Proof.
  destruct bck; [|done]. assert (Hp : forall p, typed_pattern p -> typed_pattern (mirror_pattern p)).
  { intros [l|l m]; cbn; rewrite ?Forall_reverse; tauto. }
  destruct piece as [p|alts| |]; cbn; auto. rewrite Forall_fmap. intros H.
  eapply Forall_impl; [exact H|]. auto.
Qed.

Lemma typed_seen_all bck pieces :
  Forall typed_piece pieces -> Forall typed_piece (seen bck <$> pieces).
Proof. rewrite Forall_fmap. intros H. eapply Forall_impl; [exact H|]. intros p. apply typed_seen. Qed.

(** * Scans *)

Lemma emitted_encodable pieces s :
  emit_pieces pieces seq_new = Ret (inr s) -> forallb counts_fit pieces = true ->
  into_inner (emit_match s) = enc_pieces pieces ++ [MATCH] /\
  Forall (fun p => encodable p = true) pieces.
Proof.
  intros [-> HF]%emit_pieces_ret Hc; [|done].
  rewrite emit_match_end, seq_append_append by apply at_end_append. split; [done|].
  rewrite Forall_forall in *. intros p Hin. destruct (HF p Hin) as [Hf Hl]. unfold encodable.
  rewrite Hf, Hl. rewrite forallb_forall in Hc. by apply Hc, list_elem_of_In.
Qed.

Lemma len_enc_pieces pieces : len pieces <= len (enc_pieces pieces).
Proof.
  induction pieces as [|p ps IH]; [done|]. cbn [enc_pieces fmap list_fmap concat].
  rewrite len_cons, len_app. pose proof (enc_piece_pos p). unfold enc_pieces in IH. lia.
Qed.

Lemma len_scan_window limit bck input :
  0 <= limit -> len (scan_window limit bck input) <= limit /\
  len (scan_window limit bck input) <= len input.
Proof.
  intros Hl. pose proof (len_nonneg input). unfold scan_window, saturating_sub. destruct bck.
  - rewrite len_slice_from by lia. lia.
  - rewrite len_slice_to by lia. lia.
Qed.

Lemma Forall_scan_window P limit bck input :
  Forall P input -> Forall P (scan_window limit bck input).
Proof.
  intros H. unfold scan_window, slice_from, slice_to.
  destruct bck; [by apply Forall_drop|by apply Forall_take].
Qed.

(** The callback that collects the positions that are reported. *)
Definition collect (out : list Z) (position : Z) : list Z * Action := (out ++ [position], Continue).

Lemma exec_match_collect bck input positions out :
  exec_match bck false input collect positions out = (out ++ positions, false).
Proof.
  revert out. induction positions as [|p ps IH]; intros out; cbn; [by rewrite app_nil_r|].
  rewrite IH. by rewrite <- app_assoc.
Qed.

Section Scan.
Context {MC : Memchr} {ML : MemchrLaws} {S : Type} `{PL : PosSetLaws S}.

(** A machine whose code has the code of [pieces] at the location [start]. *)
Record ready (vm : FastVM S) (start : CodeLoc) (pieces : list PatternPiece) : Prop := {
  ready_idle : idle vm;
  ready_limit : is_u16 vm.(vm_scan_limit);
  ready_size : len vm.(vm_code) <= u32_MAX;
  ready_code : exists s pre post, emit_pieces pieces seq_new = Ret (inr s) /\
    vm.(vm_code) = pre ++ into_inner (emit_match s) ++ post /\ location start = len pre;
}.

(** The data that the machine looks at. *)
Definition window (vm : FastVM S) (start : CodeLoc) (input : list Z) : list Z :=
  scan_window vm.(vm_scan_limit) (backwards start) input.

Lemma ready_encodable vm start pieces :
  ready vm start pieces -> forallb counts_fit pieces = true ->
  Forall (fun p => encodable p = true) pieces.
Proof. intros [_ _ _ (s & pre & post & He & _)] Hc. by eapply emitted_encodable. Qed.

Lemma try_match_run {C} (f : C -> Z -> C * Action) vm start pieces input c :
  ready vm start pieces -> forallb counts_fit pieces = true ->
  exists vm',
    try_match vm start input false f c =
      Ret (vm', fst (exec_match (backwards start) false (window vm start input) f
                       (run (backwards start) vm.(vm_scan_limit) (window vm start input) pieces [0]) c)) /\
    idle vm' /\ vm'.(vm_code) = vm.(vm_code) /\ vm'.(vm_scan_limit) = vm.(vm_scan_limit).
Proof.
  intros Hr Hc. pose proof (ready_encodable _ _ _ Hr Hc) as HF.
  destruct Hr as [(Hok & Hi & Hok' & Hi') Hlim Hsize (s & pre & post & He & Hcode & Hloc)].
  destruct (emitted_encodable _ _ He Hc) as [Henc _]. rewrite Henc, <- app_assoc in Hcode. cbn in Hcode.
  unfold try_match. fold (window vm start input). unfold is_u16, usize_MAX, u32_MAX in *.
  destruct (pos_insert_spec 0 _ Hok) as (s' & -> & Hs' & Hsi).
  { unfold is_usize. lia. }
  { rewrite Hi. set_solver. }
  rewrite Hi in Hsi. cbn [mbind res_bind]. rewrite Hloc.
  set (vm1 := {| vm_code := vm_code vm; vm_scan_limit := vm_scan_limit vm; vm_positions := s';
                 vm_next_positions := vm_next_positions vm |}).
  pose proof (len_enc_pieces pieces) as Hlp. rewrite Hcode, len_app, len_app in Hsize.
  pose proof (len_nonneg pre). pose proof (len_nonneg (MATCH :: post)).
  apply (try_match_loop_run f _ _ post pieces HF) with (vm := vm1) (lo := 0) (positions := [0]).
  - unfold window. destruct (len_scan_window (vm_scan_limit vm) (backwards start) input); lia.
  - subst vm1. cbn [vm_code]. rewrite Hcode, !length_app. unfold len in *. cbn. lia.
  - done.
  - done.
  - intros j Hj. apply list_elem_of_singleton in Hj. lia.
  - lia.
  - cbn. lia.
  - cbn. unfold usize_MAX. lia.
Qed.

Lemma try_match_collect vm start pieces input :
  ready vm start pieces -> forallb counts_fit pieces = true ->
  exists vm',
    try_match vm start input false collect [] =
      Ret (vm', run (backwards start) vm.(vm_scan_limit) (window vm start input) pieces [0]) /\
    idle vm'.
Proof.
  intros Hr Hc. destruct (try_match_run collect vm start pieces input [] Hr Hc) as (vm' & -> & Hidle & _).
  exists vm'. rewrite exec_match_collect. done.
Qed.

Lemma try_match_exact vm start pieces input q :
  let X := window vm start input in
  ready vm start pieces -> forallb counts_fit pieces = true -> Forall typed_piece pieces ->
  Forall is_u8 input -> directed (backwards start) pieces = true ->
  complete_pieces (seen (backwards start) <$> pieces) = true -> 0 <= q <= len X ->
  q ∈ run (backwards start) vm.(vm_scan_limit) X pieces [0] <->
  pieces_match (seen (backwards start) <$> pieces) (slice_to (toward (backwards start) X) q).
Proof.
  cbn zeta. intros Hr Hc Ht Hu Hd Hcomp Hq. pose proof (ready_encodable _ _ _ Hr Hc) as HF.
  assert (len (window vm start input) <= vm_scan_limit vm).
  { destruct Hr as [_ [? ?] _ _]. by apply len_scan_window. }
  pose proof (typed_seen_all (backwards start) _ Ht) as Hts. rewrite <- slice_0. split.
  - intros Hin. apply run_sound in Hin as (p & Hp & _ & Hm); try done; [|by apply complete_sound|].
    + apply list_elem_of_singleton in Hp as ->. apply Hm. lia.
    + intros p Hp%list_elem_of_singleton. lia.
  - intros Hm. apply (run_complete _ _ _ _ _ 0); try done; try lia; [|left].
    by apply Forall_scan_window.
Qed.
End Scan.
