(* ===== verification/FastVMProps.v ===== *)
(** What the fast virtual machine guarantees, and where its answer differs from
    the language of the pattern. *)

From S2P Require Import Prelude.
From S2P Require Import PosSet.
From S2P Require BitmapSet.
From S2P Require Import Re.
From S2P Require Import FastInstr.
From S2P Require Import FastVM.
From S2P Require Import FastSpec.
From S2P Require Import FastVMCorrect.
From S2P Require Import FastVMRun.

(** The machine with the bitmap sets of [BitmapSet.v], the one that the scanner
    uses. *)
Definition VM : Type := FastVM (BitmapSet.BitmapSet (list bool) unit).

(** A new machine on the code emitted for [pieces]. *)
Definition vm_for (pieces : list PatternPiece) : VM :=
  match emit_pieces pieces seq_new with
  | Ret (inr s) => fastvm_new (into_inner (emit_match s))
  | _ => fastvm_new []
  end.

Lemma ready_for pieces s start :
  emit_pieces pieces seq_new = Ret (inr s) -> len (into_inner (emit_match s)) <= u32_MAX ->
  location start = 0 -> ready (vm_for pieces) start pieces.
Proof.
  intros He Hl Hs. unfold vm_for. rewrite He. split.
  - split_and!; try done; apply BitmapSet.new_wf.
  - done.
  - done.
  - exists s, [], []. cbn. by rewrite app_nil_r.
Qed.

(** The positions reported by a scan of [input] with the code of [pieces], in
    the order of the code. *)
Definition reported (bck : bool) (pieces : list PatternPiece) (input : list Z) : res (list Z) :=
  snd <$> try_match (vm_for pieces) (if bck then BckCodeLoc 1 else FwdCodeLoc 1) input false collect [].

(** * Termination and refinement *)

Section Props.
Context {MC : Memchr} {ML : MemchrLaws} {S : Type} `{PL : PosSetLaws S}.

(** C18: a scan that is not wide, with the code emitted for pieces whose jumps
    have counts of at most sixteen bits ([counts_fit]; the code truncates larger
    ones, as [jump_count_truncated] shows), ends without panicking, whatever the
    input, the direction and the callback: the iterations never run out, no read
    of the code and no slice of the input is out of range and no position is too
    far from the others for the bitmaps. The callback is called exactly on the
    positions computed by [run], until it stops the scan, and both sets of the
    machine are left empty for the next scan. Wide scans are not covered; in
    those that go backwards the position computed by [jump_bck] can underflow
    ([wide_backward_jump_underflows]). *)
Theorem fast_vm_refines_run {C} (f : C -> Z -> C * Action) (vm : FastVM S) start pieces input c :
  ready vm start pieces -> forallb counts_fit pieces = true ->
  exists vm',
    try_match vm start input false f c =
      Ret (vm', fst (exec_match (backwards start) false (window vm start input) f
                       (run (backwards start) vm.(vm_scan_limit) (window vm start input) pieces [0]) c)) /\
    idle vm' /\ ready vm' start pieces.
Proof.
  intros Hr Hc. destruct (try_match_run f _ _ _ input c Hr Hc) as (vm' & E & Hidle & Hcode & Hlim).
  exists vm'. split; [done|]. split; [done|]. destruct Hr. split; [done|..]; by rewrite ?Hcode, ?Hlim.
Qed.

(** * Forward scans *)

(** In a forward scan the machine reports, exactly once, every position of
    the window such that the bytes up to it match the pattern, and no other
    position of the window. *)
Theorem fast_vm_forward_exact (vm : FastVM S) start pieces input :
  ready vm start pieces -> backwards start = false -> forallb counts_fit pieces = true ->
  Forall typed_piece pieces -> Forall is_u8 input -> complete_pieces pieces = true ->
  exists vm' out,
    try_match vm start input false collect [] = Ret (vm', out) /\ idle vm' /\ NoDup out /\
    forall q, 0 <= q <= len (window vm start input) ->
      q ∈ out <-> pieces_match pieces (slice_to (window vm start input) q).
Proof.
  intros Hr Hb Hc Ht Hu Hcomp. destruct (try_match_collect _ _ _ input Hr Hc) as (vm' & E & Hidle).
  eexists vm', _. split; [exact E|]. split; [done|]. split; [apply NoDup_run, NoDup_singleton|].
  intros q Hq. rewrite try_match_exact; rewrite ?Hb; cbn [seen toward]; rewrite ?list_fmap_id; done.
Qed.

(** In a backward scan with the code of the reversed pieces the machine
    reports, exactly once, every position such that the bytes from it to the end
    of the window match the pattern, positions being counted from the end. *)
Theorem fast_vm_backward_exact (vm : FastVM S) start pieces input :
  ready vm start (reverse pieces) -> backwards start = true -> forallb counts_fit pieces = true ->
  Forall typed_piece pieces -> Forall is_u8 input ->
  forallb no_exact_no_newline pieces = true -> complete_pieces (mirror_pieces pieces) = true ->
  exists vm' out,
    try_match vm start input false collect [] = Ret (vm', out) /\ idle vm' /\ NoDup out /\
    forall q, 0 <= q <= len (window vm start input) ->
      q ∈ out <->
      pieces_match pieces (slice_from (window vm start input) (len (window vm start input) - q)).
Proof.
  intros Hr Hb Hc Ht Hu Hn Hcomp.
  destruct (try_match_collect _ _ _ input Hr (forallb_reverse _ _ Hc)) as (vm' & E & Hidle).
  eexists vm', _. split; [exact E|]. split; [done|]. split; [apply NoDup_run, NoDup_singleton|].
  intros q Hq. rewrite try_match_exact; rewrite ?Hb; try done; auto using forallb_reverse.
  - by apply mirror_window_match.
  - by apply Forall_reverse.
  - by apply forallb_reverse.
Qed.

(** A scan in any direction reports no position of the window that is not
    the end of a match, also for the patterns for which it may miss matches (the
    ones that end with a jump, for example), as long as no jump that rejects
    newlines is followed by a newline. *)
Theorem fast_vm_sound (vm : FastVM S) start pieces input :
  ready vm start pieces -> forallb counts_fit pieces = true ->
  directed (backwards start) pieces = true ->
  sound_pieces (seen (backwards start) <$> pieces) = true ->
  exists vm' out,
    try_match vm start input false collect [] = Ret (vm', out) /\
    forall q, q ∈ out -> q <= len (window vm start input) ->
      pieces_match (seen (backwards start) <$> pieces)
        (slice_to (toward (backwards start) (window vm start input)) q).
Proof.
  intros Hr Hc Hd Hs. destruct (try_match_collect _ _ _ input Hr Hc) as (vm' & E & Hidle).
  eexists vm', _. split; [exact E|]. intros q Hin Hq. rewrite <- slice_0.
  pose proof (ready_encodable _ _ _ Hr Hc). destruct Hr as [_ [? _] _ _].
  apply run_sound in Hin as (p & Hp & _ & Hm); try done.
  - apply list_elem_of_singleton in Hp as ->. by apply Hm.
  - by apply len_scan_window.
  - intros p Hp%list_elem_of_singleton. lia.
Qed.
End Props.

(** * Instances *)

(** The pattern [{ 01 02 [1-3] 0? }], newlines accepted. *)
Definition sample : list PatternPiece :=
  [PiecePattern (PatLiteral [1; 2]); PieceJump 1 (Some 3) true; PiecePattern (PatMasked [0] [0xf0])].

Lemma sample_ready : ready (vm_for sample) (FwdCodeLoc 1) sample.
Proof. eapply ready_for; [vm_compute; reflexivity|by vm_compute|done]. Qed.

Lemma sample_ready_bck : ready (vm_for (reverse sample)) (BckCodeLoc 1) (reverse sample).
Proof. eapply ready_for; [vm_compute; reflexivity|by vm_compute|done]. Qed.

Lemma sample_typed : Forall typed_piece sample.
Proof. repeat constructor; unfold is_u8; lia. Qed.

Lemma fast_vm_refines_run_witness :
  ready (vm_for sample) (FwdCodeLoc 1) sample /\ forallb counts_fit sample = true /\
  exists vm', try_match (vm_for sample) (FwdCodeLoc 1) [1; 2; 0x33; 9; 4] false collect [] =
    Ret (vm', [4; 5]) /\ idle vm'.
Proof.
  split; [apply sample_ready|]. split; [reflexivity|].
  destruct (fast_vm_refines_run collect (vm_for sample) (FwdCodeLoc 1) sample [1; 2; 0x33; 9; 4] []
              sample_ready eq_refl) as (vm' & E & Hidle & _).
  exists vm'. split; [|exact Hidle]. rewrite E. vm_compute. reflexivity.
Defined.

Lemma fast_vm_forward_exact_witness :
  exists vm' out,
    try_match (vm_for sample) (FwdCodeLoc 1) [1; 2; 9; 4] false collect [] = Ret (vm', out) /\
    (4 ∈ out <-> pieces_match sample [1; 2; 9; 4]).
Proof.
  destruct (fast_vm_forward_exact (vm_for sample) (FwdCodeLoc 1) sample [1; 2; 9; 4] sample_ready
              eq_refl eq_refl sample_typed) as (vm' & out & E & _ & _ & H).
  - repeat constructor; unfold is_u8; lia.
  - reflexivity.
  - exists vm', out. split; [exact E|]. apply (H 4). vm_compute. split; discriminate.
Defined.

Lemma fast_vm_backward_exact_witness :
  exists vm' out,
    try_match (vm_for (reverse sample)) (BckCodeLoc 1) [7; 1; 2; 9; 4] false collect [] =
      Ret (vm', out) /\
    (4 ∈ out <-> pieces_match sample [1; 2; 9; 4]).
Proof.
  destruct (fast_vm_backward_exact (vm_for (reverse sample)) (BckCodeLoc 1) sample [7; 1; 2; 9; 4]
              sample_ready_bck eq_refl eq_refl sample_typed) as (vm' & out & E & _ & _ & H).
  - repeat constructor; unfold is_u8; lia.
  - reflexivity.
  - reflexivity.
  - exists vm', out. split; [exact E|]. apply (H 4). vm_compute. split; discriminate.
Defined.

Lemma fast_vm_sound_witness :
  let pieces := [PiecePattern (PatLiteral [102; 111; 111]); PieceJump 0 None false] in
  exists vm' out,
    try_match (vm_for pieces) (FwdCodeLoc 1) [102; 111; 111; 98; 97; 114] false collect [] =
      Ret (vm', out) /\
    (5 ∈ out -> 5 <= 6 -> pieces_match pieces [102; 111; 111; 98; 97]).
Proof.
  cbn zeta.
  destruct (fast_vm_sound (vm_for [PiecePattern (PatLiteral [102; 111; 111]); PieceJump 0 None false])
    (FwdCodeLoc 1) [PiecePattern (PatLiteral [102; 111; 111]); PieceJump 0 None false]
    [102; 111; 111; 98; 97; 114]) as (vm' & out & E & H).
  - eapply ready_for; [vm_compute; reflexivity|by vm_compute|done].
  - reflexivity.
  - reflexivity.
  - reflexivity.
  - exists vm', out. split; [exact E|]. apply (H 5).
Defined.

(** * Where the machine and the language differ

    The conditions of [fast_vm_forward_exact] and of [fast_vm_backward_exact]
    cannot be dropped. *)

(** A jump at the end of the pattern does not reach the end of the data:
    [/foo.*/s] matches all of [foo] and of [foob], but a scan of [foo] reports
    nothing and a scan of [foob] reports only [foo]. *)
Theorem trailing_jump_misses_end :
  let foo := PiecePattern (PatLiteral [102; 111; 111]) in
  let pieces := [foo; PieceJump 0 None true] in
  pieces_match pieces [102; 111; 111] /\ reported false pieces [102; 111; 111] = Ret [] /\
  pieces_match pieces [102; 111; 111; 98] /\ reported false pieces [102; 111; 111; 98] = Ret [3].
Proof.
  cbn zeta. split; [|split; [vm_compute; reflexivity|split; [|vm_compute; reflexivity]]].
  - exists [102; 111; 111], []. split; [done|]. split; [done|]. exists [], [].
    split; [done|]. split; [|done]. split; [vm_compute; discriminate|]. done.
  - exists [102; 111; 111], [98]. split; [done|]. split; [done|]. exists [98], [].
    split; [done|]. split; [|done]. split; [vm_compute; discriminate|]. done.
Qed.

(** An exact jump at the end of the pattern reports a match that ends
    after the end of the data: [/foo.{9}/s] is reported at 12 in six bytes. *)
Theorem trailing_exact_jump_overruns :
  let pieces := [PiecePattern (PatLiteral [102; 111; 111]); PieceJumpExact 9 true] in
  reported false pieces [102; 111; 111; 98; 97; 114] = Ret [12].
Proof. vm_compute. reflexivity. Qed.

(** An exact jump that rejects newlines looks at the wrong bytes in a
    backward scan, the first ones of the input instead of the ones before the
    position: with [foo], a newline and [bar] the jump of [/foo.bar/] is accepted
    when the newline is in the jump, and rejected when it is before [foo]. *)
Theorem backward_exact_jump_newline :
  let pieces := [PiecePattern (PatLiteral [102; 111; 111]); PieceJumpExact 1 false] in
  reported true (reverse pieces) [120; 102; 111; 111; 10] = Ret [4] /\
  ~ pieces_match pieces [102; 111; 111; 10] /\
  reported true (reverse pieces) [10; 102; 111; 111; 120] = Ret [] /\
  pieces_match pieces [102; 111; 111; 120].
Proof.
  cbn zeta. split; [vm_compute; reflexivity|]. split; [|split; [vm_compute; reflexivity|]].
  - intros (w1 & w2 & Hw & -> & w3 & w4 & -> & (_ & Hn) & ->). cbn in Hw.
    injection Hw as Hw. rewrite app_nil_r in Hw. subst w3. apply Hn; [done|]. left.
  - exists [102; 111; 111], [120]. split; [done|]. split; [done|]. exists [120], [].
    split; [done|]. split; [|done]. split; [done|]. intros _ Hin.
    apply list_elem_of_singleton in Hin. discriminate.
Qed.

(** A jump that rejects newlines accepts them when the literal after it
    starts with one: [/foo.{0,3}\nb/] is reported in [foo\n\nb], where the jump
    has a newline. *)
Theorem newline_literal_after_jump :
  let pieces := [PiecePattern (PatLiteral [102; 111; 111]); PieceJump 0 (Some 3) false;
                 PiecePattern (PatLiteral [10; 98])] in
  reported false pieces [102; 111; 111; 10; 10; 98] = Ret [6] /\
  ~ pieces_match pieces [102; 111; 111; 10; 10; 98].
Proof.
  cbn zeta. split; [vm_compute; reflexivity|].
  intros (w1 & w2 & Hw & -> & w3 & w4 & -> & (_ & _ & Hn) & w5 & w6 & -> & -> & ->).
  cbn in Hw. injection Hw as Hw.
  assert (w3 = [10]) as ->.
  { apply (f_equal (fun l => take (length l - 2) l)) in Hw. cbn in Hw.
    rewrite length_app in Hw. cbn in Hw. replace (length w3 + 2 - 2)%nat with (length w3) in Hw by lia.
    by rewrite take_app_length in Hw. }
  apply Hn; [done|]. left.
Qed.

(** The counts of a jump are truncated to sixteen bits when they are
    emitted: [.{0,65537}] is matched as [.{0,1}], and a match of [foo..b] is
    lost. *)
Theorem jump_count_truncated :
  let pieces := fun max => [PiecePattern (PatLiteral [102; 111; 111]); PieceJump 0 (Some max) true;
                            PiecePattern (PatLiteral [98])] in
  emit_pieces (pieces 65537) seq_new = emit_pieces (pieces 1) seq_new /\
  reported false (pieces 65537) [102; 111; 111; 9; 9; 98] = Ret [] /\
  reported false (pieces 65535) [102; 111; 111; 9; 9; 98] = Ret [6].
Proof. split; [|split]; vm_compute; reflexivity. Qed.

(** In a wide scan that goes backwards, a jump that may be empty computes the
    position before the first one when the byte just before the scan is the one
    that must follow the jump: [0 + 0 + 2 - 1 - 2]. The subtraction underflows,
    which is a panic where overflow is checked, and else the largest position. *)
Example wide_backward_jump_underflows :
  let flags := flags_insert AcceptNewlines Wide in
  pos_items <$> jump_bck [120; 97] (Some 97) flags (0, 3) 0 (BitmapSet.new : BitmapSet.BitmapSet (list bool) unit) =
    Ret [usize_MAX] /\
  0 + 0 + 2 - 1 - 2 < 0.
Proof. split; [vm_compute; reflexivity|lia]. Qed.
