(* ===== verification/Atoms.v ===== *)
(** Atoms, from [lib/src/compiler/atoms/mod.rs] and [mask.rs]: the substrings of
    a pattern that the scanner searches for, and the atoms that result from
    applying a mask, a change of case or a XOR key to another atom. *)

From S2P Require Import Prelude.
From S2P Require Import Re.

(** * Iterators of the [itertools] crate *)

Definition cartesian (ls : list (list Z)) : list (list Z) :=
  foldr (fun l acc => x ← l; cons x <$> acc) [[]] ls.

Fixpoint alternate (l1 l2 : list Z) : list Z :=
  match l1, l2 with
  | x1 :: l1, x2 :: l2 => x1 :: x2 :: alternate l1 l2
  | _, _ => l1 ++ l2
  end.

Class Itertools := {
  multi_cartesian_product : list (list Z) -> list (list Z);
  interleave : list Z -> list Z -> list Z;
}.

(** The product is in lexicographic order; what it gives without factors is
    left open, since it depends on the version. *)
Class ItertoolsLaws `{Itertools} := {
  multi_cartesian_product_spec ls : ls <> [] -> multi_cartesian_product ls = cartesian ls;
  interleave_spec l1 l2 : interleave l1 l2 = alternate l1 l2;
}.

#[export] Instance list_Itertools : Itertools := {
  multi_cartesian_product := cartesian;
  interleave := alternate;
}.

#[export] Instance list_ItertoolsLaws : ItertoolsLaws.
Proof. by split. Qed.

(** * Masked bytes *)

Record ByteMaskCombinator := {
  bmc_byte : Z;
  bmc_mask : Z;
  bmc_i : Z;
  bmc_done : bool;
}.

Definition bmc_new (byte mask : Z) : ByteMaskCombinator :=
  {| bmc_byte := byte; bmc_mask := mask; bmc_i := 0; bmc_done := false |}.

Definition bmc_next (c : ByteMaskCombinator) : option Z * ByteMaskCombinator :=
  if c.(bmc_done) then (None, c)
  else
    let next := Z.lor (Z.land c.(bmc_byte) c.(bmc_mask)) (Z.land c.(bmc_i) (not_u8 c.(bmc_mask))) in
    let i := Z.lor c.(bmc_i) c.(bmc_mask) + 1 in
    (Some next,
     {| bmc_byte := c.(bmc_byte); bmc_mask := c.(bmc_mask);
        bmc_i := wrap_u8 i; bmc_done := u8_MAX <? i |}).

(** All the items of the iterator. It gives at most one item per byte, so 257
    calls are enough to reach the end. *)
Fixpoint bmc_collect (fuel : nat) (c : ByteMaskCombinator) : res (list Z) :=
  match bmc_next c with
  | (None, _) => Ret []
  | (Some b, c) =>
      match fuel with
      | O => OutOfFuel
      | S fuel => l ← bmc_collect fuel c; Ret (b :: l)
      end
  end.

Definition bmc_items (byte mask : Z) : res (list Z) := bmc_collect 257 (bmc_new byte mask).

(** * Atoms *)

Definition DESIRED_ATOM_SIZE : Z := 4.
Definition MAX_ATOMS_PER_REGEXP : Z := 16384.

Record Atom := {
  atom_bytes : list Z;
  is_exact : bool;
  backtrack : Z;
}.

#[export] Instance Atom_eq_dec : EqDecision Atom.
Proof. solve_decision. Defined.

(** [Atom::from] for slices and vectors. *)
Definition atom_from (value : list Z) : Atom :=
  {| atom_bytes := value; backtrack := 0; is_exact := negb (len value =? 0) |}.

(** [Atom::from_slice_range] for the range [a..b]. *)
Definition from_slice_range (s : list Z) (a b : Z) : option Atom :=
  backtrack ← (if a <=? u16_MAX then Some a else None);
  atom ← get_range s a b;
  Some {| atom_bytes := atom; backtrack := backtrack; is_exact := len atom =? len s |}.

Definition set_backtrack (b : Z) (a : Atom) : Atom :=
  {| atom_bytes := a.(atom_bytes); is_exact := a.(is_exact); backtrack := b |}.

Definition set_exact (e : bool) (a : Atom) : Atom :=
  {| atom_bytes := a.(atom_bytes); is_exact := e; backtrack := a.(backtrack) |}.

Definition make_inexact (a : Atom) : Atom := set_exact false a.

(** [*= 2] on a [u16] panics when it overflows. *)
Definition mul2_u16 (b : Z) : res Z := if b * 2 <=? u16_MAX then Ret (b * 2) else Panic.

Section Wide.
Context {IT : Itertools}.

Definition atom_make_wide (a : Atom) : res Atom :=
  b ← mul2_u16 a.(backtrack);
  Ret {| atom_bytes := interleave a.(atom_bytes) (replicate (length a.(atom_bytes)) 0);
         is_exact := a.(is_exact); backtrack := b |}.

(** [make_wide] on a slice. *)
Definition make_wide (s : list Z) : list Z := interleave s (replicate (length s) 0).
End Wide.

(** * Masked atoms *)

Record MaskedAtom := { masked_atom : Atom; atom_mask : list Z }.

Definition masked_from_slice_range (s m : list Z) (a b : Z) : res (option MaskedAtom) :=
  _ ← assert (len s =? len m);
  Ret (atom ← from_slice_range s a b;
       mask_slice ← get_range m a b;
       Some {| masked_atom := atom; atom_mask := mask_slice |}).

Definition pop (l : list Z) : list Z := take (length l - 1) l.

(** The loop of [trim], that removes trailing bytes whose mask is zero. It
    takes at most as many iterations as bytes are in the mask. *)
Fixpoint trim_loop (fuel : nat) (ma : MaskedAtom) : MaskedAtom :=
  if bool_decide (last ma.(atom_mask) = Some 0) then
    match fuel with
    | O => ma
    | S fuel =>
        trim_loop fuel
          {| masked_atom := {| atom_bytes := pop ma.(masked_atom).(atom_bytes);
                               is_exact := ma.(masked_atom).(is_exact);
                               backtrack := ma.(masked_atom).(backtrack) |};
             atom_mask := pop ma.(atom_mask) |}
    end
  else ma.

Definition trim (ma : MaskedAtom) : MaskedAtom :=
  if len ma.(masked_atom).(atom_bytes) =? 0 then ma
  else
    let mask := pop ma.(atom_mask) in
    trim_loop (length mask)
      {| masked_atom := {| atom_bytes := pop ma.(masked_atom).(atom_bytes); is_exact := false;
                           backtrack := ma.(masked_atom).(backtrack) |};
         atom_mask := mask |}.

Section Combinations.
Context {IT : Itertools}.

(** The atoms returned by an iterator over a product. *)
Definition product_atoms (product : list (list Z)) (backtrack : Z) (exact : bool) : list Atom :=
  (fun bs => set_exact exact (set_backtrack backtrack (atom_from bs))) <$> product.

(** [MaskCombinations] *)
Definition mask_combinations (ma : MaskedAtom) : res (list Atom) :=
  factors ← for_each (zip ma.(masked_atom).(atom_bytes) ma.(atom_mask))
    (fun bm acc => l ← bmc_items (fst bm) (snd bm); Ret (acc ++ [l])) [];
  Ret (product_atoms (multi_cartesian_product factors) ma.(masked_atom).(backtrack) ma.(masked_atom).(is_exact)).

(** [MaskCombinations::len]: the product of [usize] values wraps around. *)
Definition total_combinations (ma : MaskedAtom) : Z :=
  foldl (fun acc m => wrap_usize (acc * Z.shiftl 1 (count_zeros m))) 1 ma.(atom_mask).

Definition is_ascii_uppercase (b : Z) : bool := (65 <=? b) && (b <=? 90).
Definition is_ascii_lowercase (b : Z) : bool := (97 <=? b) && (b <=? 122).
Definition is_ascii_alphabetic (b : Z) : bool := is_ascii_uppercase b || is_ascii_lowercase b.
Definition to_ascii_lowercase (b : Z) : Z := if is_ascii_uppercase b then b + 32 else b.
Definition to_ascii_uppercase (b : Z) : Z := if is_ascii_lowercase b then b - 32 else b.

(** The variants of a byte in lower case. *)
Definition case_variants (b : Z) : list Z :=
  if is_ascii_alphabetic b then [b; to_ascii_uppercase b] else [b].

(** [CaseCombinations] *)
Definition case_combinations (a : Atom) : list Atom :=
  product_atoms
    (multi_cartesian_product ((fun b => case_variants (to_ascii_lowercase b)) <$> a.(atom_bytes)))
    a.(backtrack) a.(is_exact).

(** [XorCombinations] for the range [lo..=hi]. *)
Definition xor_combinations (a : Atom) (lo hi : Z) : list Atom :=
  (fun i => set_exact false
     (set_backtrack a.(backtrack) (atom_from ((fun b => Z.lxor b i) <$> a.(atom_bytes)))))
    <$> seqZ lo (hi - lo + 1).
End Combinations.

(** * Masked bytes, proofs *)

(** The bytes whose bits are among the ones of [n], in order. *)
Definition submasks (n : Z) : list Z := filter (fun s => Z.land s n = s) (seqZ 0 256).

(** The values of the counter, restricted to the bits that are masked out. *)
Fixpoint counter_items (fuel : nat) (i m : Z) : option (list Z) :=
  match fuel with
  | O => None
  | S fuel =>
      let i' := Z.lor i m + 1 in
      if u8_MAX <? i' then Some [Z.land i (not_u8 m)]
      else cons (Z.land i (not_u8 m)) <$> counter_items fuel (wrap_u8 i') m
  end.

Lemma counter_items_all :
  forallb (fun m => bool_decide (counter_items 256 0 m = Some (submasks (not_u8 m)))) (seqZ 0 256) = true.
Proof. vm_compute. reflexivity. Qed.

Lemma u8_in_seqZ b : is_u8 b -> b ∈ seqZ 0 256.
Proof. unfold is_u8. rewrite elem_of_seqZ. lia. Qed.

(** A property of all bytes is checked by computation. *)
Lemma forall_u8 (P : Z -> bool) : forallb P (seqZ 0 256) = true -> forall b, is_u8 b -> P b = true.
Proof. rewrite forallb_forall. intros H b Hb. by apply H, list_elem_of_In, u8_in_seqZ. Qed.

Lemma bmc_collect_S fuel c :
  bmc_collect (S fuel) c =
  match bmc_next c with
  | (None, _) => Ret []
  | (Some b, c) => l ← bmc_collect fuel c; Ret (b :: l)
  end.
Proof. done. Qed.

Lemma bmc_collect_counter fuel byte m i l :
  counter_items fuel i m = Some l ->
  bmc_collect (S fuel) {| bmc_byte := byte; bmc_mask := m; bmc_i := i; bmc_done := false |} =
  Ret (Z.lor (Z.land byte m) <$> l).
Proof.
  revert i l. induction fuel as [|fuel IH]; intros i l; [done|]. cbn [counter_items].
  rewrite bmc_collect_S. cbn [bmc_next bmc_done bmc_byte bmc_mask bmc_i].
  destruct (u8_MAX <? Z.lor i m + 1).
  - intros [= <-]. by destruct fuel.
  - destruct (counter_items fuel _ m) as [l'|] eqn:E; [|done]. intros [= <-].
    by rewrite (IH _ _ E).
Qed.

Lemma bmc_items_eq byte m :
  is_u8 m -> bmc_items byte m = Ret (Z.lor (Z.land byte m) <$> submasks (not_u8 m)).
Proof.
  intros Hm. apply (bmc_collect_counter 256).
  apply (forall_u8 _ counter_items_all) in Hm. by apply bool_decide_eq_true in Hm.
Qed.

Lemma is_u8_land x : is_u8 x <-> Z.land x 255 = x.
Proof.
  change 255 with (Z.ones 8). rewrite Z.land_ones by lia. change (2 ^ 8) with 256.
  unfold is_u8. split; [intros; by apply Z.mod_small|]. intros <-. apply Z.mod_pos_bound. lia.
Qed.

Lemma land_u8 a b : is_u8 b -> is_u8 (Z.land a b).
Proof. rewrite !is_u8_land. intros H. by rewrite <- Z.land_assoc, H. Qed.

Lemma lor_u8 a b : is_u8 a -> is_u8 b -> is_u8 (Z.lor a b).
Proof. rewrite !is_u8_land. intros Ha Hb. by rewrite Z.land_lor_distr_l, Ha, Hb. Qed.

Lemma not_u8_u8 m : is_u8 m -> is_u8 (not_u8 m).
Proof.
  intros Hm. unfold not_u8. apply is_u8_land. apply Z.bits_inj'. intros n Hn.
  rewrite Z.land_spec, Z.lxor_spec. change 255 with (Z.ones 8).
  destruct (decide (n < 8)).
  - rewrite Z.ones_spec_low by lia. by rewrite andb_true_r.
  - rewrite Z.ones_spec_high by lia. rewrite andb_false_r, xorb_false_r.
    apply is_u8_land in Hm. rewrite <- Hm, Z.land_spec. change 255 with (Z.ones 8).
    rewrite Z.ones_spec_high by lia. by rewrite andb_false_r.
Qed.

(** Facts about the bits of bytes are checked bit by bit. *)
Lemma u8_bits_eq a b :
  is_u8 a -> is_u8 b -> (forall n, 0 <= n < 8 -> Z.testbit a n = Z.testbit b n) -> a = b.
Proof.
  rewrite !is_u8_land. intros Ha Hb H. rewrite <- Ha, <- Hb. apply Z.bits_inj'. intros n Hn.
  rewrite !Z.land_spec.
  change 255 with (Z.ones 8). destruct (decide (n < 8)).
  - by rewrite H by lia.
  - rewrite Z.ones_spec_high by lia. by rewrite !andb_false_r.
Qed.

Lemma not_u8_testbit m n : 0 <= n < 8 -> Z.testbit (not_u8 m) n = negb (Z.testbit m n).
Proof.
  intros Hn. unfold not_u8. rewrite Z.lxor_spec. change 255 with (Z.ones 8).
  by rewrite Z.ones_spec_low by lia.
Qed.

(** A byte agrees with a masked byte when it adds some of the masked-out bits. *)
Lemma byte_matches_submask b byte m :
  is_u8 b -> is_u8 m ->
  byte_matches b byte m <-> exists s, s ∈ submasks (not_u8 m) /\ b = Z.lor (Z.land byte m) s.
Proof.
  intros Hb Hm. pose proof (not_u8_u8 m Hm) as Hn. unfold byte_matches. split.
  - intros Heq. exists (Z.land b (not_u8 m)). split.
    + apply list_elem_of_filter. split.
      * by rewrite <- Z.land_assoc, Z.land_diag.
      * by apply u8_in_seqZ, land_u8.
    + rewrite <- Heq, <- Z.land_lor_distr_r. apply u8_bits_eq; [done| |].
      * rewrite Z.land_comm. apply land_u8. done.
      * intros n Hr. rewrite Z.land_spec, Z.lor_spec, not_u8_testbit by done.
        by rewrite orb_negb_r, andb_true_r.
  - intros (s & [Hs _]%list_elem_of_filter & ->).
    rewrite Z.land_lor_distr_l, <- Z.land_assoc, Z.land_diag.
    enough (Z.land s m = 0) as -> by apply Z.lor_0_r.
    rewrite <- Hs, <- Z.land_assoc. apply Z.bits_inj'. intros n Hr.
    rewrite !Z.land_spec, Z.bits_0. destruct (decide (n < 8)).
    + rewrite not_u8_testbit by lia. destruct (Z.testbit m n); by rewrite ?andb_false_r.
    + apply is_u8_land in Hm. rewrite <- Hm, Z.land_spec. change 255 with (Z.ones 8).
      rewrite Z.ones_spec_high by lia. by rewrite !andb_false_r.
Qed.

Lemma lor_disjoint a b : Z.land a b = 0 -> Z.lor a b = a + b.
Proof. intros H. rewrite Z.add_nocarry_lxor by done. by rewrite Z.lxor_lor. Qed.

Lemma submasks_disjoint byte m s : is_u8 m -> s ∈ submasks (not_u8 m) -> Z.land (Z.land byte m) s = 0.
Proof.
  intros Hm [Hs _]%list_elem_of_filter. rewrite <- Hs. apply Z.bits_inj'. intros n Hr.
  rewrite !Z.land_spec, Z.bits_0. destruct (decide (n < 8)).
  - rewrite not_u8_testbit by lia. destruct (Z.testbit m n); by rewrite ?andb_false_r.
  - apply is_u8_land in Hm. rewrite <- Hm, Z.land_spec. change 255 with (Z.ones 8).
    rewrite Z.ones_spec_high by lia. by rewrite !andb_false_r.
Qed.

Lemma seqZ_sorted a n : StronglySorted Z.lt (seqZ a n).
Proof.
  unfold seqZ. generalize (Z.to_nat n). intros k. generalize 0%nat. induction k as [|k IH]; intros j.
  - constructor.
  - cbn. constructor; [apply IH|]. apply Forall_forall. intros x (i & -> & Hi)%list_elem_of_fmap.
    apply elem_of_seq in Hi. lia.
Qed.

Lemma StronglySorted_fmap {A B} (R : A -> A -> Prop) (R' : B -> B -> Prop) (f : A -> B) l :
  (forall x y, x ∈ l -> y ∈ l -> R x y -> R' (f x) (f y)) ->
  StronglySorted R l -> StronglySorted R' (f <$> l).
Proof.
  intros Hf Hs. induction Hs as [|x l Hs IH Hx]; [constructor|]. cbn. constructor.
  - apply IH. intros. apply Hf; [by right..|done].
  - rewrite Forall_fmap. rewrite Forall_forall in *. intros y Hy. apply Hf; [left|by right|auto].
Qed.

Lemma StronglySorted_lt_NoDup (l : list Z) : StronglySorted Z.lt l -> NoDup l.
Proof.
  induction 1 as [|x l Hs IH Hx]; constructor; [|done]. rewrite Forall_forall in Hx.
  intros Hin. specialize (Hx x Hin). lia.
Qed.

Lemma submasks_count_all :
  forallb (fun m => len (submasks (not_u8 m)) =? 2 ^ count_zeros m) (seqZ 0 256) = true.
Proof. vm_compute. reflexivity. Qed.

(** What an iterator over a masked byte gives. *)
Lemma bmc_items_spec byte m :
  is_u8 m ->
  exists l, bmc_items byte m = Ret l /\ StronglySorted Z.lt l /\ len l = 2 ^ count_zeros m /\
    forall b, is_u8 b -> (b ∈ l <-> byte_matches b byte m).
Proof.
  intros Hm. eexists. split; [by apply bmc_items_eq|]. split; [|split].
  - apply (StronglySorted_fmap Z.lt).
    + intros x y Hx Hy Hlt. rewrite !lor_disjoint by by apply submasks_disjoint. lia.
    + apply StronglySorted_filter, seqZ_sorted.
  - rewrite len_map. apply (forall_u8 _ submasks_count_all) in Hm. lia.
  - intros b Hb. rewrite byte_matches_submask, list_elem_of_fmap by done. naive_solver.
Qed.

Lemma bmc_items_u8 byte m l : is_u8 m -> bmc_items byte m = Ret l -> Forall is_u8 l.
Proof.
  intros Hm. rewrite bmc_items_eq by done. intros <-%Ret_inj. apply Forall_forall.
  intros b (s & -> & [_ Hs%elem_of_seqZ]%list_elem_of_filter)%list_elem_of_fmap.
  apply lor_u8; [by apply land_u8|unfold is_u8; lia].
Qed.

(** * Products *)

Lemma elem_of_cartesian ls w : w ∈ cartesian ls <-> Forall2 (fun b l => b ∈ l) w ls.
Proof.
  revert w. induction ls as [|l ls IH]; intros w; cbn.
  - rewrite list_elem_of_singleton. split; [by intros ->|by inversion 1].
  - rewrite list_elem_of_bind. split.
    + intros (b & (w' & -> & Hw%IH)%list_elem_of_fmap & Hb). by constructor.
    + inversion 1 as [|b l' w' ls' Hb Hw]; subst. exists b. split; [|done].
      apply list_elem_of_fmap_2. by apply IH.
Qed.

Lemma len_bind_map {A B} (f : A -> B -> B) (l : list A) (acc : list B) :
  len (x ← l; f x <$> acc) = len l * len acc.
Proof.
  induction l as [|x l IH]; [done|]. cbn [mbind list_bind].
  rewrite len_app, len_map, len_cons, IH. lia.
Qed.

Lemma len_cartesian ls : len (cartesian ls) = foldr (fun l acc => len l * acc) 1 ls.
Proof. induction ls as [|l ls IH]; [done|]. cbn [cartesian foldr]. by rewrite len_bind_map, <- IH. Qed.

Lemma NoDup_cartesian ls : Forall NoDup ls -> NoDup (cartesian ls).
Proof.
  induction 1 as [|l ls Hl HF IH]; cbn; [apply NoDup_singleton|].
  induction Hl as [|x l Hx Hl IHl]; cbn; [constructor|]. apply NoDup_app. split; [|split].
  - apply NoDup_fmap_2; [|done]. intros ? ? [=]. done.
  - intros w (w' & -> & _)%list_elem_of_fmap (y & (w2 & [= -> _] & _)%list_elem_of_fmap & Hy)%list_elem_of_bind.
    done.
  - done.
Qed.

Section Proofs.
Context {IT : Itertools} {IL : ItertoolsLaws}.

Lemma elem_of_product_atoms product b e a :
  a ∈ product_atoms product b e <->
  a.(atom_bytes) ∈ product /\ a.(backtrack) = b /\ a.(is_exact) = e.
Proof.
  unfold product_atoms. rewrite list_elem_of_fmap. split.
  - intros (bs & -> & Hin). done.
  - intros (Hin & <- & <-). exists (atom_bytes a). split; [by destruct a|done].
Qed.

(** ** Combinations of a mask *)

Lemma mask_factors bs ms :
  Forall is_u8 ms -> length bs = length ms -> forall acc,
  exists ls, for_each (zip bs ms) (fun bm acc => l ← bmc_items (fst bm) (snd bm); Ret (acc ++ [l])) acc =
      Ret (acc ++ ls) /\
    Forall3 (fun b m l => bmc_items b m = Ret l) bs ms ls.
Proof.
  intros Hm. revert bs. induction Hm as [|m ms Hm HF IH]; intros bs Hl acc.
  - destruct bs; [|done]. exists []. cbn. rewrite app_nil_r. split; [done|constructor].
  - destruct bs as [|b bs]; [done|]. cbn [zip zip_with for_each fst snd].
    destruct (bmc_items_spec b m Hm) as (l & E & _). rewrite E. cbn [mbind res_bind].
    destruct (IH bs ltac:(cbn in Hl; lia) (acc ++ [l])) as (ls & E' & H3). exists (l :: ls).
    rewrite E', <- app_assoc. split; [done|]. by constructor.
Qed.

Lemma mask_product bs ms ls w :
  Forall3 (fun b m l => bmc_items b m = Ret l) bs ms ls -> Forall is_u8 ms ->
  Forall2 (fun b l => b ∈ l) w ls <-> Forall is_u8 w /\ Forall3 byte_matches w bs ms.
Proof.
  intros H3 Hm. revert w. induction H3 as [|b m l bs ms ls E _ IH]; intros w.
  - split; [inversion 1; subst; repeat constructor|]. intros [_ H]. inversion H. constructor.
  - inversion_clear Hm as [|? ? Hm1 Hm2]. destruct (bmc_items_spec b m Hm1) as (l' & E' & _ & _ & Hl).
    rewrite E in E'. apply Ret_inj in E' as <-. split.
    + inversion 1 as [|x ? w' ? Hx Hw]; subst. apply IH in Hw as [Hu HF]; [|done].
      pose proof (bmc_items_u8 _ _ _ Hm1 E) as Hu'. rewrite Forall_forall in Hu'.
      split; constructor; auto. apply Hl; auto.
    + intros [Hu HF]. inversion HF as [|x ? ? w' ? ? Hx Hw]; subst. inversion_clear Hu.
      constructor; [by apply Hl|]. by apply IH.
Qed.

Lemma mask_product_size bs ms ls acc :
  Forall3 (fun b m l => bmc_items b m = Ret l) bs ms ls -> Forall is_u8 ms -> len ms <= 7 ->
  0 < acc -> acc * 256 ^ len ms < 2 ^ 63 ->
  foldl (fun acc m => wrap_usize (acc * Z.shiftl 1 (count_zeros m))) acc ms =
  acc * foldr (fun l acc => len l * acc) 1 ls.
Proof.
  intros H3 Hm Hl. revert acc. induction H3 as [|b m l bs ms ls E _ IH]; intros acc Ha Hb; cbn [foldl foldr].
  - lia.
  - inversion_clear Hm as [|? ? Hm1 Hm2]. destruct (bmc_items_spec b m Hm1) as (l' & E' & _ & Hlen & _).
    rewrite E in E'. apply Ret_inj in E' as <-. rewrite Hlen, Z.shiftl_1_l.
    assert (Hz : 0 <= count_zeros m <= 8).
    { clear - Hm1. revert m Hm1.
      assert (H : forallb (fun m => (0 <=? count_zeros m) && (count_zeros m <=? 8)) (seqZ 0 256) = true)
        by (vm_compute; reflexivity).
      intros m Hm. apply (forall_u8 _ H) in Hm. bools. lia. }
    assert (Hp : 1 <= 2 ^ count_zeros m <= 256).
    { split; [pose proof (Z.pow_pos_nonneg 2 (count_zeros m)); lia|].
      change 256 with (2 ^ 8). apply Z.pow_le_mono_r; lia. }
    rewrite len_cons in *. rewrite Z.pow_add_r in Hb by (pose proof (len_nonneg ms); lia).
    pose proof (Z.pow_pos_nonneg 256 (len ms) ltac:(lia) (len_nonneg ms)).
    rewrite wrap_usize_id by (unfold is_usize; nia). rewrite IH; [lia|done|lia|nia|nia].
Qed.

Lemma mask_combinations_spec ma :
  Forall is_u8 ma.(atom_mask) -> length ma.(masked_atom).(atom_bytes) = length ma.(atom_mask) ->
  ma.(atom_mask) <> [] -> len ma.(atom_mask) <= 7 ->
  exists atoms, mask_combinations ma = Ret atoms /\ NoDup atoms /\
    len atoms = total_combinations ma /\
    forall a, a ∈ atoms <->
      Forall is_u8 a.(atom_bytes) /\
      Forall3 byte_matches a.(atom_bytes) ma.(masked_atom).(atom_bytes) ma.(atom_mask) /\
      a.(backtrack) = ma.(masked_atom).(backtrack) /\ a.(is_exact) = ma.(masked_atom).(is_exact).
Proof.
  intros Hm Hl Hne H7. unfold mask_combinations.
  destruct (mask_factors _ _ Hm Hl []) as (ls & -> & H3). cbn [mbind res_bind app].
  assert (Hls : ls <> []) by (intros ->; inversion H3; congruence).
  rewrite multi_cartesian_product_spec by done. eexists. split; [done|]. split; [|split].
  - apply NoDup_fmap_2_strong; [intros ? ? _ _ [=]; done|]. apply NoDup_cartesian.
    clear - H3 Hm. revert Hm. induction H3 as [|b m l bs ms ls E _ IH]; intros Hm; constructor.
    + inversion_clear Hm as [|? ? Hm1 _]. destruct (bmc_items_spec b m Hm1) as (l' & E' & Hs & _).
      rewrite E in E'. apply Ret_inj in E' as <-. by apply StronglySorted_lt_NoDup.
    + inversion_clear Hm. auto.
  - unfold product_atoms, total_combinations. rewrite len_map, len_cartesian.
    rewrite (mask_product_size _ _ _ 1 H3 Hm H7); [lia|lia|].
    rewrite Z.mul_1_l. apply Z.le_lt_trans with (256 ^ 7); [|done].
    apply Z.pow_le_mono_r; lia.
  - intros a. rewrite elem_of_product_atoms, elem_of_cartesian, (mask_product _ _ _ _ H3 Hm). tauto.
Qed.

(** ** Combinations of case *)

Lemma case_variants_all :
  forallb (fun a => forallb (fun b =>
    Bool.eqb (bool_decide (b ∈ case_variants (to_ascii_lowercase a)))
             (to_ascii_lowercase b =? to_ascii_lowercase a)) (seqZ 0 256)) (seqZ 0 256) = true.
Proof. vm_compute. reflexivity. Qed.

Lemma case_variants_spec a b :
  is_u8 a -> is_u8 b ->
  b ∈ case_variants (to_ascii_lowercase a) <-> to_ascii_lowercase b = to_ascii_lowercase a.
Proof.
  intros Ha Hb. apply (forall_u8 _ case_variants_all) in Ha. apply (forall_u8 _ Ha) in Hb.
  apply Bool.eqb_prop in Hb. rewrite <- Z.eqb_eq, <- Hb. by rewrite bool_decide_eq_true.
Qed.

Lemma case_combinations_spec a at' :
  Forall is_u8 a.(atom_bytes) -> a.(atom_bytes) <> [] -> Forall is_u8 at'.(atom_bytes) ->
  at' ∈ case_combinations a <->
  to_ascii_lowercase <$> at'.(atom_bytes) = to_ascii_lowercase <$> a.(atom_bytes) /\
  at'.(backtrack) = a.(backtrack) /\ at'.(is_exact) = a.(is_exact).
Proof.
  intros Ha Hne Hb. unfold case_combinations. rewrite elem_of_product_atoms.
  rewrite multi_cartesian_product_spec by (destruct (atom_bytes a); done).
  rewrite elem_of_cartesian, Forall2_fmap_r.
  enough (Forall2 (fun b x => b ∈ case_variants (to_ascii_lowercase x)) (atom_bytes at') (atom_bytes a) <->
          to_ascii_lowercase <$> at'.(atom_bytes) = to_ascii_lowercase <$> a.(atom_bytes)) by tauto.
  clear Hne. generalize dependent (atom_bytes a). induction Hb as [|b w Hb Hw IH]; intros l Hl.
  - destruct l; split; try done; try (intros; constructor); by inversion 1.
  - destruct l as [|x l]; [split; [inversion 1|done]|]. inversion_clear Hl as [|? ? Hx Hl'].
    rewrite !fmap_cons, Forall2_cons, (case_variants_spec x b), (IH l) by done.
    split; [by intros [-> ->]|by intros [= -> ->]].
Qed.
End Proofs.

(** * Where atoms are found *)

(** An atom is in the data, for a pattern that starts at [p]. *)
Definition found_at (a : Atom) (data : list Z) (p : Z) : Prop :=
  get_range data (p + a.(backtrack)) (p + a.(backtrack) + len a.(atom_bytes)) = Some a.(atom_bytes).

(** The data has [w] at [p]. *)
Definition has_at (data : list Z) (p : Z) (w : list Z) : Prop :=
  get_range data p (p + len w) = Some w.

Lemma get_range_Some {A} (l : list A) a b w :
  get_range l a b = Some w <-> 0 <= a <= b /\ b <= len l /\ w = slice l a b.
Proof.
  unfold get_range. destruct (_ && _) eqn:E; bools; [naive_solver|].
  split; [done|]. intros (? & ? & _). destruct E as [E|E]; bools; [destruct E as [E|E]; bools; lia|lia].
Qed.

Lemma slice_slice {A} (l : list A) p n a b :
  0 <= p -> 0 <= a <= b -> b <= n -> slice (slice l p (p + n)) a b = slice l (p + a) (p + b).
Proof.
  intros Hp Ha Hb. rewrite <- (slice_from_to (slice l p (p + n))) by lia.
  rewrite slice_slice_to by lia. rewrite <- slice_from_to by lia. rewrite <- slice_from_to by lia.
  rewrite slice_from_plus by lia. rewrite slice_from_to by lia. done.
Qed.

(** A part of what is in the data is in the data. *)
Lemma has_at_slice data p w a b :
  has_at data p w -> 0 <= a <= b -> b <= len w ->
  get_range data (p + a) (p + b) = Some (slice w a b).
Proof.
  unfold has_at. rewrite !get_range_Some. intros (H1 & H2 & Hw) Ha Hb. split; [lia|]. split; [lia|].
  rewrite Hw at 1. rewrite slice_slice; [done|lia|lia|lia].
Qed.

Lemma from_slice_range_Some s a b at' :
  from_slice_range s a b = Some at' ->
  0 <= a <= b /\ b <= len s /\ at'.(atom_bytes) = slice s a b /\ at'.(backtrack) = a /\
  len at'.(atom_bytes) = b - a.
Proof.
  unfold from_slice_range. destruct (a <=? u16_MAX); [|done]. cbn.
  destruct (get_range s a b) as [w|] eqn:E; [|done]. cbn. intros [= <-]. cbn.
  apply get_range_Some in E as (? & ? & ->). rewrite len_slice by lia. done.
Qed.

(** An atom is found when what the data has there is equal to its bytes. *)
Lemma found_at_slice s w a b at' data p :
  from_slice_range s a b = Some at' -> has_at data p w -> len w = len s ->
  forall at'', at''.(backtrack) = a -> at''.(atom_bytes) = slice w a b -> found_at at'' data p.
Proof.
  intros Hat Hw Hl at'' Hb Hbs. apply from_slice_range_Some in Hat as (? & ? & _ & _ & _).
  unfold found_at. rewrite Hb, Hbs, len_slice by lia.
  replace (p + a + (b - a)) with (p + b) by lia. apply has_at_slice; lia || done.
Qed.

Lemma Forall3_slice {A B C} (P : A -> B -> C -> Prop) l1 l2 l3 a b :
  Forall3 P l1 l2 l3 -> Forall3 P (slice l1 a b) (slice l2 a b) (slice l3 a b).
Proof.
  intros H. unfold slice. generalize (Z.to_nat (b - a)). generalize (Z.to_nat a). intros n. revert n.
  induction H as [|x y z l1 l2 l3 Hp H IH]; intros n k.
  - rewrite !drop_nil, !take_nil. constructor.
  - destruct n as [|n]; cbn [drop]; [|apply IH]. destruct k as [|k]; cbn [take]; constructor; [done|].
    apply (IH 0%nat k).
Qed.

Lemma slice_fmap {A B} (f : A -> B) l a b : slice (f <$> l) a b = f <$> slice l a b.
Proof. unfold slice. by rewrite fmap_take, fmap_drop. Qed.

(** * Wide atoms *)

Section WideProofs.
Context {IT : Itertools} {IL : ItertoolsLaws}.

Lemma alternate_zeroes s : alternate s (replicate (length s) 0) = (b ← s; [b; 0]).
Proof. induction s as [|x s IH]; [done|]. cbn. by f_equal; f_equal. Qed.

Lemma make_wide_spec s : make_wide s = (b ← s; [b; 0]).
Proof. unfold make_wide. rewrite interleave_spec. apply alternate_zeroes. Qed.

Lemma wide_app (s1 s2 : list Z) : (b ← s1 ++ s2; [b; 0]) = (b ← s1; [b; 0]) ++ (b ← s2; [b; 0]).
Proof. apply bind_app. Qed.

Lemma len_wide (s : list Z) : len (b ← s; [b; 0]) = 2 * len s.
Proof.
  induction s as [|x s IH]; [done|]. cbn [mbind list_bind]. rewrite len_app, IH, !len_cons, len_nil. lia.
Qed.

Lemma drop_wide n (s : list Z) : drop (2 * n) (b ← s; [b; 0]) = (b ← drop n s; [b; 0]).
Proof.
  revert s. induction n as [|n IH]; intros s; [done|]. destruct s as [|x s]; [by rewrite !drop_nil|].
  replace (2 * S n)%nat with (S (S (2 * n))) by lia. apply IH.
Qed.

Lemma take_wide n (s : list Z) : take (2 * n) (b ← s; [b; 0]) = (b ← take n s; [b; 0]).
Proof.
  revert s. induction n as [|n IH]; intros s; [done|]. destruct s as [|x s]; [by rewrite !take_nil|].
  replace (2 * S n)%nat with (S (S (2 * n))) by lia. cbn [mbind list_bind app take]. do 2 f_equal. apply IH.
Qed.

Lemma slice_wide (s : list Z) a b :
  0 <= a <= b -> slice (c ← s; [c; 0]) (2 * a) (2 * b) = (c ← slice s a b; [c; 0]).
Proof.
  intros H. unfold slice. replace (Z.to_nat (2 * b - 2 * a)) with (2 * Z.to_nat (b - a))%nat by lia.
  replace (Z.to_nat (2 * a)) with (2 * Z.to_nat a)%nat by lia. by rewrite drop_wide, take_wide.
Qed.
End WideProofs.

(** * Properties *)

(** The iterator over a masked byte ends and gives, in increasing order and
    without repetitions, the bytes that agree with the masked byte and only
    them: two to the number of bits that are masked out. *)
Theorem mask_combinator_exact (byte m : Z) :
  is_u8 byte -> is_u8 m ->
  exists l, bmc_items byte m = Ret l /\ StronglySorted Z.lt l /\ len l = 2 ^ count_zeros m /\
    forall b, b ∈ l <-> is_u8 b /\ Z.land b m = Z.land byte m.
Proof.
  intros _ Hm. destruct (bmc_items_spec byte m Hm) as (l & E & Hs & Hl & H).
  exists l. split; [done|]. split; [done|]. split; [done|]. intros b.
  pose proof (bmc_items_u8 _ _ _ Hm E) as Hu. rewrite Forall_forall in Hu. split.
  - intros Hb. split; [auto|]. apply H; auto.
  - intros [Hb Hm']. by apply H.
Qed.

Lemma mask_combinator_exact_witness :
  is_u8 0xda /\ exists l, bmc_items 0xda 0xda = Ret l /\ len l = 8.
Proof.
  split; [unfold is_u8; lia|].
  destruct (mask_combinator_exact 0xda 0xda) as (l & E & _ & Hl & _); [unfold is_u8; lia..|].
  exists l. split; [exact E|]. rewrite Hl. reflexivity.
Defined.

(** C22: no match of a masked pattern is missed by its atoms. The combinations
    of the masked atom of any range of the pattern are finitely many, as many as
    [total_combinations] says and without repetitions, and wherever the data
    agrees with the pattern one of them is found, at the offset that its
    backtrack gives. *)
Theorem masked_atoms_complete `{ItertoolsLaws} (s m : list Z) (a b : Z) (ma : MaskedAtom) :
  masked_from_slice_range s m a b = Ret (Some ma) -> a < b <= a + 7 -> Forall is_u8 m ->
  exists atoms, mask_combinations ma = Ret atoms /\ NoDup atoms /\ len atoms = total_combinations ma /\
    forall data p w, Forall is_u8 data -> has_at data p w -> Forall3 byte_matches w s m ->
      exists at', at' ∈ atoms /\ at'.(backtrack) = a /\ found_at at' data p.
Proof.
  unfold masked_from_slice_range, assert. destruct (len s =? len m) eqn:El; [|done].
  cbn [mbind res_bind]. intros Hma%Ret_inj Hab Hm. bools.
  destruct (from_slice_range s a b) as [at0|] eqn:Ea; [|done]. cbn in Hma.
  destruct (get_range m a b) as [ms|] eqn:Em; [|done]. cbn in Hma. injection Hma as <-.
  pose proof (from_slice_range_Some _ _ _ _ Ea) as (H1 & H2 & Hbs & Hbt & Hlen).
  apply get_range_Some in Em as (_ & _ & ->).
  assert (Hlm : len (slice m a b) = b - a) by (apply len_slice; lia).
  destruct (mask_combinations_spec {| masked_atom := at0; atom_mask := slice m a b |})
    as (atoms & -> & Hnd & Htot & Hall); cbn [masked_atom atom_mask]; [by apply Forall_slice|..].
  - unfold len in *. lia.
  - intros Hnil. rewrite Hnil in Hlm. rewrite len_nil in Hlm. lia.
  - lia.
  - exists atoms. split; [done|]. split; [done|]. split; [done|]. intros data p w Hu Hw H3.
    assert (Hlw : len w = len s) by (unfold len; f_equal; eapply Forall3_length_lm, H3).
    exists (set_backtrack a (set_exact (is_exact at0) (atom_from (slice w a b)))). split; [|split; [done|]].
    + apply Hall. cbn. rewrite Hbs. split; [|split; [|done]].
      * apply get_range_Some in Hw as (_ & _ & Hw). rewrite Hw. by apply Forall_slice, Forall_slice.
      * by apply Forall3_slice.
    + by eapply (found_at_slice s w a b at0).
Qed.

Lemma masked_atoms_complete_witness :
  exists ma atoms, masked_from_slice_range [1; 0x20; 3] [0xff; 0xf0; 0xff] 1 3 = Ret (Some ma) /\
    mask_combinations ma = Ret atoms /\ len atoms = 16 /\
    exists at', at' ∈ atoms /\ at'.(backtrack) = 1 /\ found_at at' [9; 1; 0x2c; 3] 1.
Proof.
  eexists. destruct (masked_atoms_complete [1; 0x20; 3] [0xff; 0xf0; 0xff] 1 3
    {| masked_atom := {| atom_bytes := [0x20; 3]; is_exact := false; backtrack := 1 |};
       atom_mask := [0xf0; 0xff] |} eq_refl) as (atoms & E & _ & Hl & Hall).
  - lia.
  - repeat constructor; unfold is_u8; lia.
  - exists atoms. split; [reflexivity|]. split; [exact E|]. split; [rewrite Hl; reflexivity|].
    apply (Hall _ _ [1; 0x2c; 3]).
    + repeat constructor; unfold is_u8; lia.
    + reflexivity.
    + repeat constructor.
Defined.

(** No match of a literal is missed by its atoms: for an atom taken from a
    range of the literal, if the data has the literal with any change of case one
    of the case combinations is found, if it has the literal XORed with a key of
    the range one of the XOR combinations is found, and if it has the wide form
    of the literal the wide form of the atom is found. *)
Theorem literal_atoms_complete `{ItertoolsLaws} (s : list Z) (a b : Z) (at0 : Atom) data p w :
  from_slice_range s a b = Some at0 -> a < b -> Forall is_u8 s -> Forall is_u8 w -> has_at data p w ->
  (to_ascii_lowercase <$> w = to_ascii_lowercase <$> s ->
     exists at', at' ∈ case_combinations at0 /\ found_at at' data p) /\
  (forall lo hi key, lo <= key <= hi -> w = (fun b => Z.lxor b key) <$> s ->
     exists at', at' ∈ xor_combinations at0 lo hi /\ found_at at' data p) /\
  (forall at', w = make_wide s -> atom_make_wide at0 = Ret at' -> found_at at' data p).
Proof.
  intros Ea Hab Hs Hwu Hw. pose proof (from_slice_range_Some _ _ _ _ Ea) as (H1 & H2 & Hbs & Hbt & Hlen).
  split; [|split].
  - intros Hc. assert (len w = len s) by (apply (f_equal len) in Hc; by rewrite !len_map in Hc).
    exists (set_backtrack a (set_exact (is_exact at0) (atom_from (slice w a b)))).
    split; [|by eapply (found_at_slice s w a b at0)].
    apply case_combinations_spec; cbn; rewrite ?Hbs; try by apply Forall_slice.
    + intros Hn. rewrite Hbs, Hn, len_nil in Hlen. lia.
    + by rewrite <- !slice_fmap, Hc.
  - intros lo hi key Hk ->. eexists. split.
    + apply list_elem_of_fmap. exists key. split; [reflexivity|]. apply elem_of_seqZ. lia.
    + eapply (found_at_slice s _ a b at0); try done; [by rewrite len_map|]. cbn.
      by rewrite Hbs, slice_fmap.
  - intros at' -> Hat. unfold atom_make_wide, mul2_u16 in Hat. rewrite Hbt in Hat.
    destruct (a * 2 <=? u16_MAX); [|done]. cbn [mbind res_bind] in Hat. apply Ret_inj in Hat as <-.
    rewrite make_wide_spec in Hw. rewrite interleave_spec, alternate_zeroes, Hbs.
    unfold found_at. cbn. rewrite len_wide, len_slice by lia.
    replace (a * 2) with (2 * a) by lia. replace (p + 2 * a + 2 * (b - a)) with (p + 2 * b) by lia.
    rewrite <- slice_wide by lia. apply has_at_slice; [done|lia|]. rewrite len_wide. lia.
Qed.

Lemma literal_atoms_complete_witness :
  exists at0, from_slice_range [70; 111; 111] 1 3 = Some at0 /\
    exists at', at' ∈ case_combinations at0 /\ found_at at' [1; 102; 79; 111] 1.
Proof.
  eexists. split; [reflexivity|].
  apply (literal_atoms_complete [70; 111; 111] 1 3 _ [1; 102; 79; 111] 1 [102; 79; 111]).
  - reflexivity.
  - lia.
  - repeat constructor; unfold is_u8; lia.
  - repeat constructor; unfold is_u8; lia.
  - reflexivity.
  - reflexivity.
Defined.

(** * Atoms with code locations

    [RegexpAtom] of [lib/src/re/mod.rs]: an atom with the locations of the code
    that verifies a match; both compilers of patterns produce them. *)

Record RegexpAtom := { rx_atom : Atom; rx_fwd_code : option CodeLoc; rx_bck_code : option CodeLoc }.

Definition rx_set_exact (e : bool) (a : RegexpAtom) : RegexpAtom :=
  {| rx_atom := set_exact e a.(rx_atom); rx_fwd_code := a.(rx_fwd_code); rx_bck_code := a.(rx_bck_code) |}.
Definition rx_make_wide {IT : Itertools} (a : RegexpAtom) : res RegexpAtom :=
  atom ← atom_make_wide a.(rx_atom);
  Ret {| rx_atom := atom; rx_fwd_code := a.(rx_fwd_code); rx_bck_code := a.(rx_bck_code) |}.
Definition rx_len (a : RegexpAtom) : Z := len a.(rx_atom).(atom_bytes).
