(* ===== verification/Quality.v ===== *)
(** The quality of atoms, from [lib/src/compiler/atoms/quality.rs]: the sliding
    window that finds the best range of a pattern, and the comparison between
    sets of atoms. *)

From Stdlib Require Import SpecFloat.
From S2P Require Import Prelude.
From S2P Require Import Atoms.

(** * The sliding window *)

(** The items of the queue are the index, the byte, the mask and the quality of
    the byte. The array [bytes_present] is cleared every time it is used, so it
    is local to [quality]. *)
Record BestAtomFinder := {
  atom_size : Z;
  index : Z;
  base_quality : Z;
  best_quality : Z;
  best_range : option (Z * Z);
  queue : list (Z * Z * Z * Z);
}.

Definition finder_new (atom_size : Z) : BestAtomFinder :=
  {| atom_size := atom_size; index := 0; base_quality := 0; best_quality := i32_MIN;
     best_range := None; queue := [] |}.

Definition finder_pop (f : BestAtomFinder) : res BestAtomFinder :=
  match f.(queue) with
  | [] => Panic
  | (_, _, _, q) :: rest =>
      Ret {| atom_size := f.(atom_size); index := f.(index); base_quality := f.(base_quality) - q;
             best_quality := f.(best_quality); best_range := f.(best_range); queue := rest |}
  end.

(** The quality of a single byte. *)
Definition byte_quality (byte mask : Z) : Z :=
  if 0 <? count_zeros mask then
    let zeros := count_zeros mask in
    let ones := count_ones mask in
    if zeros =? 8 then -13 else 2 * ones - zeros
  else if (byte =? 0x20) || (byte =? 0x90) || (byte =? 0xcc) || (byte =? 0xff) then 12
  else if byte =? 0x00 then 6
  else if (97 <=? byte) && (byte <=? 122) || (65 <=? byte) && (byte <=? 90) then 18
  else 20.

(** The number of different bytes that are not masked. *)
Definition count_unique (bytes_present : list bool) (queue : list (Z * Z * Z * Z)) : list bool * Z :=
  foldl (fun st item =>
    let '(bytes_present, unique_bytes) := st in
    let '(_, byte, mask, _) := item in
    if (mask =? 0xff) && bool_decide (get bytes_present byte = Some false)
    then (<[Z.to_nat byte := true]> bytes_present, unique_bytes + 1)
    else (bytes_present, unique_bytes)) (bytes_present, 0) queue.

Definition quality (f : BestAtomFinder) : Z :=
  match f.(queue) with
  | [] => i32_MIN
  | (_, front, _, _) :: _ =>
      let unique_bytes := snd (count_unique (replicate 256 false) f.(queue)) in
      if unique_bytes =? 1 then
        if (front =? 0x00) || (front =? 0x20) || (front =? 0x90) || (front =? 0xcc) || (front =? 0xff)
        then f.(base_quality) - 5 else f.(base_quality) + 2
      else f.(base_quality) + 2 * unique_bytes
  end.

Definition item_index (item : Z * Z * Z * Z) : Z := let '(i, _, _, _) := item in i.

Definition finder_push (byte mask : Z) (f : BestAtomFinder) : BestAtomFinder :=
  let q := byte_quality byte mask in
  let f := {| atom_size := f.(atom_size); index := f.(index) + 1;
              base_quality := f.(base_quality) + q; best_quality := f.(best_quality);
              best_range := f.(best_range);
              queue := f.(queue) ++ [(f.(index), byte, mask, q)] |} in
  if len f.(queue) =? f.(atom_size) then
    let quality := quality f in
    if f.(best_quality) <? quality then
      {| atom_size := f.(atom_size); index := f.(index); base_quality := f.(base_quality);
         best_quality := quality;
         best_range := front ← head f.(queue); back ← last f.(queue);
                       Some (item_index front, item_index back + 1);
         queue := f.(queue) |}
    else f
  else f.

Definition feed (byte mask : Z) (f : BestAtomFinder) : res BestAtomFinder :=
  f ← (if len f.(queue) =? f.(atom_size) then finder_pop f else Ret f);
  Ret (finder_push byte mask f).

(** The loop that empties the queue. *)
Fixpoint finder_drain (fuel : nat) (f : BestAtomFinder) : res BestAtomFinder :=
  match f.(queue) with
  | [] => Ret f
  | _ => match fuel with
         | O => OutOfFuel
         | S fuel => f ← finder_pop f; finder_drain fuel f
         end
  end.

Definition finalize (f : BestAtomFinder) : res (option (Z * Z) * Z) :=
  let f :=
    if (f.(best_quality) =? i32_MIN) && negb (len f.(queue) =? 0) then
      {| atom_size := f.(atom_size); index := f.(index); base_quality := f.(base_quality);
         best_quality := quality f; best_range := Some (0, len f.(queue)); queue := f.(queue) |}
    else f in
  f ← finder_drain (length f.(queue)) f;
  Ret (f.(best_range), f.(best_quality)).

(** * The best range of a pattern *)

Definition atom_quality (bytes : list Z) : res Z :=
  f ← for_each bytes (fun byte => feed byte 0xff) (finder_new DESIRED_ATOM_SIZE);
  snd <$> finalize f.

Definition best_range_in_bytes (bytes : list Z) : res ((Z * Z) * Z) :=
  for_each (seqZ 0 (saturating_sub (len bytes) DESIRED_ATOM_SIZE + 1)) (fun i best =>
    let range := (i, Z.min (len bytes) (i + DESIRED_ATOM_SIZE)) in
    w ← index_range bytes (fst range) (snd range);
    quality ← atom_quality w;
    Ret (if snd best <? quality then (range, quality) else best)) ((0, 0), i32_MIN).

Definition range_len (r : Z * Z) : Z := saturating_sub (snd r) (fst r).

(** The choice between the results of two finders. *)
Definition better_result (r : option (Z * Z) * Z) (best : (Z * Z) * Z) : (Z * Z) * Z :=
  match r with
  | (None, _) => best
  | (Some range, quality) =>
      if range_len (fst best) =? 0 then (range, quality)
      else
        let is_better :=
          match quality ?= snd best with
          | Gt => true
          | Eq => range_len range <? range_len (fst best)
          | Lt => false
          end in
        if is_better then (range, quality) else best
  end.

Definition best_range_in_masked_bytes (bytes mask : list Z) : res ((Z * Z) * Z) :=
  finders ← for_each (zip bytes mask)
    (fun bm finders => for_each finders (fun f acc => f ← feed (fst bm) (snd bm) f; Ret (acc ++ [f])) [])
    (finder_new <$> seqZ 1 DESIRED_ATOM_SIZE);
  for_each finders (fun f best => r ← finalize f; Ret (better_result r best)) ((0, 0), i32_MIN).

(** [expect] panics when the range does not give an atom. *)
Definition best_atom_in_bytes (bytes : list Z) : res Atom :=
  '(range, _) ← best_range_in_bytes bytes;
  or_panic (from_slice_range bytes (fst range) (snd range)).

(** [SubPatternFlags] that the extraction of atoms looks at. *)
Definition FLAG_NOCASE : Z := 0x02.
Definition FLAG_FULLWORD_LEFT : Z := 0x08.
Definition FLAG_FULLWORD_RIGHT : Z := 0x10.

Definition extract_atoms {IT : Itertools} (literal_bytes : list Z) (flags : Z) : res (list Atom) :=
  best_atom ← best_atom_in_bytes literal_bytes;
  let best_atom :=
    if negb (Z.land flags (Z.lor FLAG_FULLWORD_LEFT FLAG_FULLWORD_RIGHT) =? 0)
    then make_inexact best_atom else best_atom in
  Ret (if Z.land flags FLAG_NOCASE =? FLAG_NOCASE then case_combinations best_atom else [best_atom]).

(** * Sets of atoms *)

Record AtomsQuality := {
  num_exact_atoms : Z;
  num_inexact_atoms : Z;
  min_atom_len : Z;
  min_atom_quality : Z;
  sum_atom_quality : Z;
}.

(** [saturating_add] and [saturating_mul], for [i64] and [usize]. *)
Definition saturating_add_i64 (x y : Z) : Z := Z.max i64_MIN (Z.min i64_MAX (x + y)).
Definition saturating_add_usize (x y : Z) : Z := Z.min usize_MAX (x + y).
Definition saturating_mul_usize (x y : Z) : Z := Z.min usize_MAX (x * y).

(** [AtomsQuality::new], for atoms given by their bytes and whether they are
    exact. *)
Definition quality_new (atoms : list (list Z * bool)) : res AtomsQuality :=
  for_each atoms (fun atom aq =>
    q ← atom_quality (fst atom);
    Ret {| num_exact_atoms := if snd atom : bool then aq.(num_exact_atoms) + 1 else aq.(num_exact_atoms);
           num_inexact_atoms := if snd atom : bool then aq.(num_inexact_atoms)
                                else aq.(num_inexact_atoms) + 1;
           sum_atom_quality := saturating_add_i64 aq.(sum_atom_quality) q;
           min_atom_quality := Z.min aq.(min_atom_quality) q;
           min_atom_len := Z.min aq.(min_atom_len) (len (fst atom)) |})
    {| num_exact_atoms := 0; num_inexact_atoms := 0; min_atom_len := usize_MAX;
       min_atom_quality := i32_MAX; sum_atom_quality := 0 |}.

Definition from_atoms (atoms : list Atom) : res AtomsQuality :=
  quality_new ((fun a => (a.(atom_bytes), a.(is_exact))) <$> atoms).

Definition num_atoms (a : AtomsQuality) : Z := a.(num_exact_atoms) + a.(num_inexact_atoms).

(** [f64]: binary floating point with 53 bits of precision. *)
Definition f64_of_Z (z : Z) : spec_float := binary_normalize 53 1024 z 0 false.
Definition f64_div : spec_float -> spec_float -> spec_float := SFdiv 53 1024.
Definition f64_mul : spec_float -> spec_float -> spec_float := SFmul 53 1024.
Definition f64_sub : spec_float -> spec_float -> spec_float := SFsub 53 1024.
Definition f64_ge (x y : spec_float) : bool :=
  match SFcompare x y with Some Gt | Some Eq => true | _ => false end.
Definition f64_gt (x y : spec_float) : bool :=
  match SFcompare x y with Some Gt => true | _ => false end.

(** [total_cmp] is only used on numbers that are ordered and different. *)
Definition f64_total_cmp (x y : spec_float) : comparison :=
  match SFcompare x y with Some c => c | None => Eq end.

Definition avg_atom_quality (a : AtomsQuality) : spec_float :=
  f64_div (f64_of_Z a.(sum_atom_quality)) (f64_of_Z (a.(num_inexact_atoms) + a.(num_exact_atoms))).

Definition merge (a other : AtomsQuality) : AtomsQuality :=
  {| num_exact_atoms := saturating_add_usize a.(num_exact_atoms) other.(num_exact_atoms);
     num_inexact_atoms := saturating_add_usize a.(num_inexact_atoms) other.(num_inexact_atoms);
     sum_atom_quality := saturating_add_i64 a.(sum_atom_quality) other.(sum_atom_quality);
     min_atom_len := Z.min a.(min_atom_len) other.(min_atom_len);
     min_atom_quality := Z.min a.(min_atom_quality) other.(min_atom_quality) |}.

Definition quality_min : AtomsQuality :=
  {| num_inexact_atoms := 0; num_exact_atoms := 0; min_atom_len := 0;
     min_atom_quality := i32_MIN; sum_atom_quality := i64_MIN |}.

(** [PartialEq::eq] *)
Definition quality_eq (a b : AtomsQuality) : bool :=
  (a.(num_inexact_atoms) =? b.(num_inexact_atoms)) && (a.(min_atom_len) =? b.(min_atom_len)) &&
  (a.(min_atom_quality) =? b.(min_atom_quality)) && (a.(sum_atom_quality) =? b.(sum_atom_quality)).

(** The two early returns of [Ord::cmp]. *)
Definition is_256_times (a b : AtomsQuality) : bool :=
  (0 <? num_atoms a) && (saturating_mul_usize (num_atoms a) 256 =? num_atoms b) &&
  f64_ge (f64_mul (avg_atom_quality a) (f64_of_Z 2)) (avg_atom_quality b).

(** [Ord::cmp] *)
Definition quality_cmp (a b : AtomsQuality) : comparison :=
  let differ_1 := Z.abs (a.(min_atom_len) - b.(min_atom_len)) =? 1 in
  if differ_1 && is_256_times a b then Gt
  else if differ_1 && is_256_times b a then Lt
  else if negb (a.(min_atom_quality) =? b.(min_atom_quality)) then
    a.(min_atom_quality) ?= b.(min_atom_quality)
  else if negb (a.(min_atom_len) =? b.(min_atom_len)) then a.(min_atom_len) ?= b.(min_atom_len)
  else
    let quality_self := avg_atom_quality a in
    let quality_other := avg_atom_quality b in
    let quality_diff := SFabs (f64_sub quality_self quality_other) in
    if f64_gt quality_diff (f64_of_Z 15) then f64_total_cmp quality_self quality_other
    else if negb (a.(num_inexact_atoms) =? b.(num_inexact_atoms)) then
      b.(num_inexact_atoms) ?= a.(num_inexact_atoms)
    else b.(num_exact_atoms) ?= a.(num_exact_atoms).

(** * Reference definition of the quality of a window *)

Definition sum_quality (w : list (Z * Z)) : Z :=
  foldr (fun bm acc => byte_quality (fst bm) (snd bm) + acc) 0 w.

(** The different bytes of a window that are not masked. *)
Definition unique_bytes (w : list (Z * Z)) : gset Z :=
  list_to_set (fst <$> filter (fun bm => snd bm = 0xff) w).

Definition common_byte (b : Z) : bool :=
  (b =? 0x00) || (b =? 0x20) || (b =? 0x90) || (b =? 0xcc) || (b =? 0xff).

Definition window_quality (w : list (Z * Z)) : Z :=
  match w with
  | [] => i32_MIN
  | (front, _) :: _ =>
      let n := Z.of_nat (size (unique_bytes w)) in
      sum_quality w +
      (if n =? 1 then if common_byte front then -5 else 2 else 2 * n)
  end.

(** The queue that holds the window [w], which starts at the index [k]. *)
Fixpoint items (k : Z) (w : list (Z * Z)) : list (Z * Z * Z * Z) :=
  match w with
  | [] => []
  | (b, m) :: w => (k, b, m, byte_quality b m) :: items (k + 1) w
  end.

Lemma len_items k w : len (items k w) = len w.
Proof. revert k. induction w as [|[b m] w IH]; intros k; [done|]. cbn [items]. by rewrite !len_cons, IH. Qed.

Lemma items_snoc k w b m :
  items k (w ++ [(b, m)]) = items k w ++ [(k + len w, b, m, byte_quality b m)].
Proof.
  revert k. induction w as [|[b' m'] w IH]; intros k; cbn [items app].
  - by rewrite len_nil, Z.add_0_r.
  - rewrite IH, len_cons. by replace (k + (1 + len w)) with (k + 1 + len w) by lia.
Qed.

Lemma sum_quality_app w1 w2 : sum_quality (w1 ++ w2) = sum_quality w1 + sum_quality w2.
Proof. induction w1 as [|x w1 IH]; [done|]. unfold sum_quality in *. cbn [app foldr]. lia. Qed.

(** ** The count of different bytes *)

Lemma count_unique_spec w k (present : list bool) n (seen_bytes : gset Z) :
  length present = 256%nat -> Forall (fun bm => is_u8 (fst bm)) w ->
  (forall b, is_u8 b -> get present b = Some (bool_decide (b ∈ seen_bytes))) ->
  n = Z.of_nat (size seen_bytes) ->
  snd (foldl (fun st item =>
    let '(bytes_present, unique_bytes) := st in
    let '(_, byte, mask, _) := item in
    if (mask =? 0xff) && bool_decide (get bytes_present byte = Some false)
    then (<[Z.to_nat byte := true]> bytes_present, unique_bytes + 1)
    else (bytes_present, unique_bytes)) (present, n) (items k w)) =
  Z.of_nat (size (seen_bytes ∪ unique_bytes w)).
Proof.
  intros Hl Hu. revert k present n seen_bytes Hl. induction Hu as [|[b m] w Hb Hu IH];
    intros k present n seen_bytes Hl Hp Hn.
  - cbn. by rewrite union_empty_r_L.
  - cbn [items foldl]. cbn [fst] in Hb. unfold unique_bytes. rewrite filter_cons. cbn [snd].
    rewrite (Hp b Hb). destruct (decide (m = 255)) as [->|Hm].
    + rewrite Z.eqb_refl. cbn [andb]. destruct (decide (b ∈ seen_bytes)) as [Hin|Hin].
      * rewrite (bool_decide_eq_true_2 (b ∈ _)) by done. rewrite (bool_decide_eq_false_2 (_ = _)) by done.
        rewrite (IH (k + 1) present n seen_bytes); [|done..]. do 2 f_equal. unfold unique_bytes. set_solver.
      * rewrite (bool_decide_eq_false_2 (b ∈ _)) by done. rewrite (bool_decide_eq_true_2 (_ = _)) by done.
        rewrite (IH (k + 1) _ (n + 1) ({[b]} ∪ seen_bytes)).
        -- do 2 f_equal. unfold unique_bytes. set_solver.
        -- by rewrite length_insert.
        -- intros c Hc. specialize (Hp c Hc). unfold is_u8 in *. unfold get in *.
           destruct (c <? 0); [done|]. destruct (decide (c = b)) as [->|Hne].
           ++ rewrite list_lookup_insert_eq by lia. f_equal. symmetry. apply bool_decide_eq_true. set_solver.
           ++ rewrite list_lookup_insert_ne by lia. rewrite Hp. f_equal. apply bool_decide_ext. set_solver.
        -- rewrite size_union by set_solver. rewrite size_singleton. lia.
    + assert (m =? 255 = false) as -> by lia. cbn [andb]. by apply IH.
Qed.

Lemma quality_window f k w :
  f.(queue) = items k w -> f.(base_quality) = sum_quality w ->
  Forall (fun bm => is_u8 (fst bm)) w -> quality f = window_quality w.
Proof.
  intros Hq Hb Hu. unfold quality, window_quality. rewrite Hq.
  destruct w as [|[front m] w]; [done|]. cbn [items].
  pose proof (count_unique_spec ((front, m) :: w) k (replicate 256 false) 0 ∅) as Hc.
  unfold count_unique. cbn [items] in Hc. rewrite union_empty_l_L in Hc. rewrite Hc; try done.
  - rewrite Hb. cbn zeta. unfold common_byte.
    destruct (Z.of_nat _ =? 1); [|lia]. destruct (_ || _); lia.
  - intros b Hb'. unfold get. unfold is_u8 in Hb'. destruct (b <? 0) eqn:E; bools; [lia|].
    rewrite lookup_replicate_2 by lia. done.
Qed.

(** ** Bounds *)

Lemma byte_quality_bounds byte mask : is_u8 mask -> -13 <= byte_quality byte mask <= 20.
Proof.
  intros Hm. unfold byte_quality.
  assert (H : forallb (fun m => (count_zeros m =? 8) || (-13 <=? 2 * count_ones m - count_zeros m) &&
    (2 * count_ones m - count_zeros m <=? 20)) (seqZ 0 256) = true) by (vm_compute; reflexivity).
  apply (forall_u8 _ H) in Hm. destruct (0 <? count_zeros mask).
  - destruct (count_zeros mask =? 8); [lia|]. cbn in Hm. bools. lia.
  - repeat case_match; lia.
Qed.

Lemma sum_quality_bounds w :
  Forall (fun bm => is_u8 (snd bm)) w -> -13 * len w <= sum_quality w <= 20 * len w.
Proof.
  induction 1 as [|[b m] w Hm _ IH]; [done|]. pose proof (byte_quality_bounds b m Hm).
  rewrite len_cons. unfold sum_quality in *. cbn [foldr fst snd]. lia.
Qed.

Lemma size_unique_bytes w : Z.of_nat (size (unique_bytes w)) <= len w.
Proof.
  unfold unique_bytes. induction w as [|[b m] w IH]; [done|]. rewrite filter_cons, len_cons.
  case_decide; cbn [fmap list_fmap list_to_set]; [|lia].
  rewrite size_union_alt, size_singleton.
  pose proof (subseteq_size (list_to_set (fst <$> filter (fun bm => snd bm = 255) w) ∖ {[b]})
    (list_to_set (fst <$> filter (fun bm : Z * Z => snd bm = 255) w) : gset Z) ltac:(set_solver)). cbn in *. lia.
Qed.

Lemma window_quality_bounds w :
  w <> [] -> Forall (fun bm => is_u8 (snd bm)) w ->
  -13 * len w - 5 <= window_quality w <= 22 * len w.
Proof.
  intros Hne Hm. pose proof (sum_quality_bounds w Hm). pose proof (size_unique_bytes w).
  destruct w as [|[front m] w]; [done|]. unfold window_quality.
  pose proof (len_nonneg w). rewrite len_cons in *.
  destruct (_ =? 1) eqn:E; bools; [destruct (common_byte front)|]; lia.
Qed.

(** * The window slides over the pattern *)

Definition typed_bytes (l : list (Z * Z)) : Prop := Forall (fun bm => is_u8 (fst bm) /\ is_u8 (snd bm)) l.

Lemma typed_bytes_l l : typed_bytes l -> Forall (fun bm => is_u8 (fst bm)) l.
Proof. intros H. eapply Forall_impl; [exact H|]. by intros ? []. Qed.

Lemma typed_bytes_r l : typed_bytes l -> Forall (fun bm => is_u8 (snd bm)) l.
Proof. intros H. eapply Forall_impl; [exact H|]. by intros ? []. Qed.

(** [r] is the first of the windows of [n] bytes of [l] with the best quality,
    which is [q]. *)
Definition best_window (n : Z) (l : list (Z * Z)) (r : Z * Z) (q : Z) : Prop :=
  exists i, 0 <= i /\ i + n <= len l /\ r = (i, i + n) /\ q = window_quality (slice l i (i + n)) /\
    forall j, 0 <= j -> j + n <= len l ->
      window_quality (slice l j (j + n)) <= q /\ (j < i -> window_quality (slice l j (j + n)) < q).

(** What the finder holds once it has been fed with [l]. *)
Record fed (n : Z) (l : list (Z * Z)) (f : BestAtomFinder) : Prop := {
  fed_size : f.(atom_size) = n;
  fed_index : f.(index) = len l;
  fed_queue : exists pre w, l = pre ++ w /\ len w = Z.min n (len l) /\
    f.(queue) = items (len pre) w /\ f.(base_quality) = sum_quality w;
  fed_best : if len l <? n then f.(best_quality) = i32_MIN /\ f.(best_range) = None
             else exists r, f.(best_range) = Some r /\ best_window n l r f.(best_quality);
}.

Lemma fed_new n : 1 <= n -> fed n [] (finder_new n).
Proof.
  intros Hn. split; try done.
  - exists [], []. split; [done|]. rewrite len_nil. split; [lia|done].
  - rewrite len_nil. assert (0 <? n = true) as -> by lia. done.
Qed.

Lemma slice_app_l {A} (l1 l2 : list A) a b : 0 <= a <= b -> b <= len l1 -> slice (l1 ++ l2) a b = slice l1 a b.
Proof.
  intros H1 H2. rewrite <- !slice_from_to by lia. f_equal. unfold slice_to.
  rewrite take_app_le; [done|]. unfold len in *. lia.
Qed.

Lemma slice_app_end {A} (l1 l2 : list A) : slice (l1 ++ l2) (len l1) (len l1 + len l2) = l2.
Proof. rewrite <- (app_nil_r l2) at 1. by apply slice_mid. Qed.

(** A new window at the end of the pattern. *)
Lemma best_window_snoc n l x r q q' :
  1 <= n -> len l + 1 >= n ->
  (if len l <? n then r = None /\ q = i32_MIN else exists r0, r = Some r0 /\ best_window n l r0 q) ->
  i32_MIN < q' -> q' = window_quality (slice (l ++ [x]) (len l + 1 - n) (len l + 1)) ->
  best_window n (l ++ [x])
    (if q <? q' then (len l + 1 - n, len l + 1) else default (0, 0) r) (if q <? q' then q' else q).
Proof.
  intros Hn Hl Hr Hmin Hq'. unfold best_window. rewrite len_app. change (len [x]) with 1.
  assert (Hlast : forall j, 0 <= j -> j + n <= len l + 1 -> j = len l + 1 - n \/ j + n <= len l) by lia.
  destruct (q <? q') eqn:E; bools.
  - exists (len l + 1 - n). replace (len l + 1 - n + n) with (len l + 1) by lia.
    split; [lia|]. split; [lia|]. split; [done|]. split; [done|].
    intros j Hj Hjn. destruct (Hlast j Hj Hjn) as [->|Hle].
    + replace (len l + 1 - n + n) with (len l + 1) by lia. rewrite <- Hq'. lia.
    + rewrite slice_app_l by lia. destruct (len l <? n) eqn:El; bools; [lia|].
      destruct Hr as (r0 & _ & i & _ & _ & _ & _ & Hb). destruct (Hb j Hj Hle) as [? _]. lia.
  - destruct (len l <? n) eqn:El; [destruct Hr as [_ ->]; lia|]. bools.
    destruct Hr as (r0 & -> & i & Hi & Hin & -> & Hq & Hb). cbn. exists i. split; [done|]. split; [lia|].
    split; [done|]. split; [by rewrite slice_app_l by lia|]. intros j Hj Hjn.
    destruct (Hlast j Hj Hjn) as [->|Hle].
    + replace (len l + 1 - n + n) with (len l + 1) by lia. rewrite <- Hq'. lia.
    + rewrite slice_app_l by lia. by apply Hb.
Qed.

Lemma items_head k w : head (items k w) = (fun bm => (k, fst bm, snd bm, byte_quality (fst bm) (snd bm))) <$> head w.
Proof. by destruct w as [|[b m] w]. Qed.

(** The effect of a push on a queue that is not full. *)
Lemma push_fed n l b m f pre w :
  1 <= n <= 1000000 -> typed_bytes (l ++ [(b, m)]) ->
  f.(atom_size) = n -> f.(index) = len l -> l = pre ++ w -> len w = Z.min (n - 1) (len l) ->
  f.(queue) = items (len pre) w -> f.(base_quality) = sum_quality w ->
  (if len l <? n then f.(best_quality) = i32_MIN /\ f.(best_range) = None
   else exists r, f.(best_range) = Some r /\ best_window n l r f.(best_quality)) ->
  fed n (l ++ [(b, m)]) (finder_push b m f).
Proof.
  intros Hn Ht Hsz Hix Hl Hw Hq Hbq Hbest. unfold finder_push. cbn zeta.
  set (f1 := {| atom_size := _; index := _; base_quality := _; best_quality := _; best_range := _; queue := _ |}).
  assert (Hq1 : queue f1 = items (len pre) (w ++ [(b, m)])).
  { cbn. rewrite Hq, Hix, Hl, items_snoc, len_app. done. }
  assert (Hb1 : base_quality f1 = sum_quality (w ++ [(b, m)])).
  { cbn. rewrite Hbq, sum_quality_app. cbn. lia. }
  assert (Htw : typed_bytes (w ++ [(b, m)])).
  { rewrite Hl, <- app_assoc in Ht. by apply Forall_app in Ht as [_ Ht]. }
  assert (Hlen : len (w ++ [(b, m)]) = len w + 1) by (rewrite len_app; done).
  assert (Hl1 : len (l ++ [(b, m)]) = len l + 1) by (rewrite len_app; done).
  assert (Hdec : l ++ [(b, m)] = pre ++ (w ++ [(b, m)])) by (by rewrite Hl, app_assoc).
  assert (Hlp : len l = len pre + len w) by (by rewrite Hl, len_app).
  assert (Hq2 : len (queue f1) = len w + 1) by (by rewrite Hq1, len_items).
  rewrite Hq2. change (atom_size f1) with (atom_size f). rewrite Hsz.
  destruct (len w + 1 =? n) eqn:Efull; bools.
  - rewrite (quality_window f1 (len pre) (w ++ [(b, m)]) Hq1 Hb1 (typed_bytes_l _ Htw)).
    set (q' := window_quality (w ++ [(b, m)])).
    assert (Hbound : -13 * n - 5 <= q').
    { subst q'. pose proof (window_quality_bounds (w ++ [(b, m)]) ltac:(by destruct w) (typed_bytes_r _ Htw)).
      rewrite Hlen in *. lia. }
    assert (Hwin : q' = window_quality (slice (l ++ [(b, m)]) (len l + 1 - n) (len l + 1))).
    { subst q'. f_equal. rewrite Hdec. replace (len l + 1 - n) with (len pre) by lia.
      replace (len l + 1) with (len pre + len (w ++ [(b, m)])) by lia. by rewrite slice_app_end. }
    pose proof (best_window_snoc n l (b, m) (best_range f) (best_quality f) q' ltac:(lia) ltac:(lia)) as Hsn.
    specialize (Hsn ltac:(destruct (len l <? n); tauto) ltac:(unfold i32_MIN; lia) Hwin).
    change (best_quality f1) with (best_quality f).
    assert (Hnot : len (l ++ [(b, m)]) <? n = false) by lia.
    destruct (best_quality f <? q') eqn:Ebetter.
    + split; [done|cbn; lia| |].
      * exists pre, (w ++ [(b, m)]). split; [done|]. split; [lia|]. by split.
      * rewrite Hnot. eexists. split; [|exact Hsn]. cbn [best_range].
        rewrite Hq1, items_snoc, last_snoc. rewrite <- items_snoc, items_head.
        destruct w as [|[b0 m0] w0]; cbn; do 2 f_equal; rewrite ?len_nil in *; rewrite ?len_cons in *; lia.
    + split; [done|cbn; lia| |].
      * exists pre, (w ++ [(b, m)]). split; [done|]. split; [lia|]. by split.
      * rewrite Hnot. destruct (len l <? n) eqn:El; bools.
        -- destruct Hbest as [Hm _]. unfold i32_MIN in *. lia.
        -- destruct Hbest as (r & Hr & _). rewrite Hr in Hsn. exists r. by split.
  - split; [done|cbn; lia| |].
    + exists pre, (w ++ [(b, m)]). split; [done|]. split; [lia|]. by split.
    + assert (len (l ++ [(b, m)]) <? n = true) as -> by lia.
      assert (len l <? n = true) as Hlt by lia. rewrite Hlt in Hbest. done.
Qed.

Lemma feed_fed n l b m f :
  1 <= n <= 1000000 -> typed_bytes (l ++ [(b, m)]) -> fed n l f ->
  exists f', feed b m f = Ret f' /\ fed n (l ++ [(b, m)]) f'.
Proof.
  intros Hn Ht [Hsz Hix (pre & w & Hl & Hw & Hq & Hb) Hbest]. unfold feed.
  assert (Hlq : len (queue f) = len w) by (by rewrite Hq, len_items).
  rewrite Hlq, Hsz. destruct (len w =? n) eqn:E; bools.
  - destruct w as [|[b0 m0] w]; [rewrite len_nil in *; lia|]. unfold finder_pop. rewrite Hq.
    cbn [items mbind res_bind]. eexists. split; [done|]. rewrite len_cons in *.
    apply (push_fed n l b m _ (pre ++ [(b0, m0)]) w); try done; cbn.
    + by rewrite <- app_assoc.
    + lia.
    + rewrite len_app. done.
    + rewrite Hb. unfold sum_quality. cbn. lia.
  - cbn [mbind res_bind]. eexists. split; [done|]. apply (push_fed n l b m f pre w); try done. lia.
Qed.

Lemma for_each_feed n l : 1 <= n <= 1000000 -> typed_bytes l ->
  exists f, for_each l (fun bm => feed (fst bm) (snd bm)) (finder_new n) = Ret f /\ fed n l f.
Proof.
  intros Hn Ht. apply (for_each_inv (fun l f => fed n l f)); [by apply fed_new; lia|].
  intros done_ [b m] rest f Hl Hf. apply feed_fed; [done| |done].
  rewrite Hl, cons_middle, app_assoc in Ht. by apply Forall_app in Ht as [? _].
Qed.

Lemma drain_ok fuel f : (length f.(queue) <= fuel)%nat ->
  exists f', finder_drain fuel f = Ret f' /\ f'.(best_range) = f.(best_range) /\
             f'.(best_quality) = f.(best_quality).
Proof.
  revert f. induction fuel as [|fuel IH]; intros f Hl; destruct (queue f) as [|[[[k b] m] q] rest] eqn:E;
    cbn [finder_drain]; rewrite E; try (by exists f); [cbn in Hl; lia|].
  unfold finder_pop. rewrite E. cbn [mbind res_bind].
  destruct (IH {| atom_size := atom_size f; index := index f; base_quality := base_quality f - q;
    best_quality := best_quality f; best_range := best_range f; queue := rest |}) as (f' & -> & ? & ?).
  - cbn in *. lia.
  - by exists f'.
Qed.

(** What a finder answers at the end. *)
Definition finder_answer (n : Z) (l : list (Z * Z)) (r : option (Z * Z)) (q : Z) : Prop :=
  match l with
  | [] => r = None /\ q = i32_MIN
  | _ => if len l <? n then r = Some (0, len l) /\ q = window_quality l
         else exists rg, r = Some rg /\ best_window n l rg q
  end.

Lemma finalize_fed n l f :
  1 <= n <= 1000000 -> typed_bytes l -> fed n l f ->
  exists r q, finalize f = Ret (r, q) /\ finder_answer n l r q.
Proof.
  intros Hn Ht [Hsz Hix (pre & w & Hl & Hw & Hq & Hb) Hbest]. unfold finalize, finder_answer.
  assert (Hlq : len (queue f) = len w) by (by rewrite Hq, len_items).
  destruct l as [|x l'] eqn:El.
  - assert (w = []) as -> by (destruct pre; [done|discriminate]). rewrite len_nil in *.
    assert (0 <? n = true) as E by lia. rewrite E in Hbest. destruct Hbest as [Hbq Hbr].
    rewrite Hlq, andb_false_r. destruct (drain_ok (length (queue f)) f) as (f' & -> & E1 & E2); [lia|].
    cbn [mbind res_bind]. rewrite E1, E2. by eexists _, _.
  - rewrite <- El in *. assert (Hne : l <> []) by (by rewrite El).
    assert (0 < len l) by (rewrite El, len_cons; pose proof (len_nonneg l'); lia).
    destruct (len l <? n) eqn:Elt; bools.
    + destruct Hbest as [Hbq Hbr]. rewrite Hbq. cbn [Z.eqb Pos.eqb i32_MIN].
      assert (pre = []) as -> by (apply len_0_nil; rewrite Hl, len_app in *; lia). cbn in Hl. subst w.
      rewrite Hlq. assert (len l =? 0 = false) as -> by lia. cbn [negb andb].
      rewrite (quality_window f 0 l Hq Hb (typed_bytes_l _ Ht)).
      match goal with |- context [finder_drain ?n ?f] => destruct (drain_ok n f) as (f' & -> & E1 & E2) end;
        [cbn; lia|]. cbn in E1, E2 |- *. rewrite E1, E2. eexists _, _. split; [done|]. done.
    + destruct Hbest as (r & Hr & Hwin).
      assert (Hgt : best_quality f <> i32_MIN).
      { destruct Hwin as (i & Hi & Hin & _ & -> & _).
        pose proof (window_quality_bounds (slice l i (i + n))) as Hwb. rewrite len_slice in Hwb by lia.
        assert (slice l i (i + n) <> []).
        { intros Hnil. apply (f_equal len) in Hnil. rewrite len_slice, len_nil in Hnil; lia. }
        specialize (Hwb ltac:(done) (Forall_slice _ _ _ _ (typed_bytes_r _ Ht))). unfold i32_MIN. lia. }
      assert (best_quality f =? i32_MIN = false) as -> by lia. cbn [andb].
      destruct (drain_ok (length (queue f)) f) as (f' & -> & E1 & E2); [lia|].
      cbn [mbind res_bind]. rewrite E1, E2, Hr. eexists _, _. split; [done|]. eauto.
Qed.

(** * The best range *)

(** For patterns that are shorter than the window, the window is the pattern. *)
Lemma finder_answer_window n l r q :
  l <> [] -> 1 <= n -> finder_answer n l r q ->
  exists rg, r = Some rg /\ best_window (Z.min n (len l)) l rg q.
Proof.
  intros Hne Hn. unfold finder_answer. destruct l as [|x l']; [done|]. set (l := x :: l') in *.
  assert (Hl : 0 < len l) by (subst l; rewrite len_cons; pose proof (len_nonneg l'); lia).
  destruct (len l <? n) eqn:E; bools.
  - intros [-> ->]. exists (0, len l). split; [done|]. rewrite Z.min_r by lia. exists 0.
    assert (Hall : slice l 0 (0 + len l) = l) by (rewrite slice_0; apply slice_to_all; lia).
    split; [lia|]. split; [lia|]. split; [done|]. split; [by rewrite Hall|].
    intros j Hj Hjl. assert (j = 0) as -> by lia. rewrite Hall. split; [lia|lia].
  - rewrite Z.min_l by lia. done.
Qed.

Definition unmasked (bytes : list Z) : list (Z * Z) := (fun b => (b, 0xff)) <$> bytes.

Lemma typed_unmasked bytes : Forall is_u8 bytes -> typed_bytes (unmasked bytes).
Proof.
  intros H. unfold typed_bytes, unmasked. rewrite Forall_fmap. eapply Forall_impl; [exact H|].
  intros b Hb. cbn. split; [done|unfold is_u8; lia].
Qed.

Lemma len_unmasked bytes : len (unmasked bytes) = len bytes.
Proof. apply len_map. Qed.

Lemma slice_all {A} (l : list A) : slice l 0 (len l) = l.
Proof. rewrite slice_0. apply slice_to_all. lia. Qed.

Lemma atom_quality_spec bytes :
  Forall is_u8 bytes -> len bytes <= DESIRED_ATOM_SIZE ->
  atom_quality bytes = Ret (window_quality (unmasked bytes)).
Proof.
  intros Hu Hl. unfold atom_quality, DESIRED_ATOM_SIZE in *.
  pose proof (typed_unmasked _ Hu) as Ht.
  destruct (for_each_feed 4 (unmasked bytes) ltac:(lia) Ht) as (f & E & Hf).
  unfold unmasked in E. rewrite for_each_fmap in E. cbn [fst snd] in E. rewrite E. cbn [mbind res_bind].
  destruct (finalize_fed 4 _ f ltac:(lia) Ht Hf) as (r & q & -> & Ha). cbn. f_equal.
  destruct (decide (bytes = [])) as [->|Hne]; [by destruct Ha as [_ ->]|].
  apply finder_answer_window in Ha as (rg & _ & i & Hi & Hin & _ & -> & _); [|by destruct bytes|lia].
  rewrite len_unmasked in *. assert (Z.min 4 (len bytes) = len bytes) as Hm by lia. rewrite Hm in *.
  assert (i = 0) as -> by lia. by rewrite Z.add_0_l, <- (len_unmasked bytes), slice_all.
Qed.

Lemma slice_unmasked bytes a b : unmasked (slice bytes a b) = slice (unmasked bytes) a b.
Proof. symmetry. apply slice_fmap. Qed.

Lemma seqZ_0_succ n : 0 <= n -> seqZ 0 (n + 1) = seqZ 0 n ++ [n].
Proof. intros Hn. rewrite seqZ_app by lia. f_equal. Qed.

(** One step of the search: [i] windows have been compared. *)
Definition compared (n i : Z) (l : list (Z * Z)) (best : (Z * Z) * Z) : Prop :=
  if i =? 0 then best = ((0, 0), i32_MIN)
  else exists k, 0 <= k < i /\ fst best = (k, k + n) /\ snd best = window_quality (slice l k (k + n)) /\
    forall j, 0 <= j < i -> window_quality (slice l j (j + n)) <= snd best /\
      (j < k -> window_quality (slice l j (j + n)) < snd best).

Lemma compared_step n i l best :
  1 <= n <= 1000000 -> 0 <= i -> i + n <= len l -> typed_bytes l -> compared n i l best ->
  let q := window_quality (slice l i (i + n)) in
  compared n (i + 1) l (if snd best <? q then ((i, i + n), q) else best).
Proof.
  intros Hn Hi Hl Ht Hc. cbn zeta. unfold compared in *.
  assert (i + 1 =? 0 = false) as -> by lia. set (q := window_quality (slice l i (i + n))).
  assert (Hq : -13 * n - 5 <= q).
  { subst q. assert (Hne : slice l i (i + n) <> []).
    { intros Hnil. apply (f_equal len) in Hnil. rewrite len_slice, len_nil in Hnil; lia. }
    pose proof (window_quality_bounds _ Hne (Forall_slice _ _ _ _ (typed_bytes_r _ Ht))) as Hb.
    rewrite len_slice in Hb by lia. lia. }
  destruct (i =? 0) eqn:Ei; bools.
  - subst i best. cbn [fst snd]. assert (i32_MIN <? q = true) as -> by (unfold i32_MIN; lia).
    exists 0. split; [lia|]. split; [done|]. split; [done|]. intros j Hj. assert (j = 0) as -> by lia. cbn [snd]. fold q. lia.
  - destruct Hc as (k & Hk & Hr & Hbq & Hall). destruct (snd best <? q) eqn:E; bools.
    + exists i. split; [lia|]. split; [done|]. split; [done|]. cbn [snd]. intros j Hj.
      destruct (decide (j = i)) as [->|]; [lia|]. destruct (Hall j); lia.
    + exists k. split; [lia|]. split; [done|]. split; [done|]. intros j Hj.
      destruct (decide (j = i)) as [->|]; [fold q; lia|]. apply Hall. lia.
Qed.

Lemma best_range_spec bytes :
  Forall is_u8 bytes -> bytes <> [] ->
  exists r q, best_range_in_bytes bytes = Ret (r, q) /\
    best_window (Z.min DESIRED_ATOM_SIZE (len bytes)) (unmasked bytes) r q.
Proof.
  intros Hu Hne. pose proof (typed_unmasked _ Hu) as Ht.
  assert (Hl : 1 <= len bytes).
  { destruct bytes as [|x bs]; [done|]. rewrite len_cons. pose proof (len_nonneg bs). lia. }
  set (n := Z.min DESIRED_ATOM_SIZE (len bytes)). unfold DESIRED_ATOM_SIZE in *.
  unfold best_range_in_bytes, saturating_sub, DESIRED_ATOM_SIZE.
  assert (Hloop : forall c, 0 <= c -> c <= Z.max 0 (len bytes - 4) + 1 ->
    exists best, for_each (seqZ 0 c) (fun i best =>
      let range := (i, Z.min (len bytes) (i + 4)) in
      w ← index_range bytes (fst range) (snd range);
      quality ← atom_quality w;
      Ret (if snd best <? quality then (range, quality) else best)) ((0, 0), i32_MIN) = Ret best /\
      compared n c (unmasked bytes) best).
  { intros c Hc. pattern c. apply natlike_ind; [| |exact Hc]; clear c Hc.
    - intros _. eexists. split; [done|]. done.
    - intros i Hi IH Hle. destruct IH as (best & Hb & Hcmp); [lia|].
      rewrite <- Z.add_1_r, seqZ_0_succ, for_each_app, Hb by lia. cbn [mbind res_bind for_each].
      assert (Hr : index_range bytes i (Z.min (len bytes) (i + 4)) = Ret (slice bytes i (i + n))).
      { replace (Z.min (len bytes) (i + 4)) with (i + n) by lia. unfold index_range.
        assert (get_range bytes i (i + n) = Some (slice bytes i (i + n))) as ->; [|done].
        apply get_range_Some. split; [lia|]. split; [lia|done]. }
      cbn [fst snd]. rewrite Hr. cbn [mbind res_bind].
      rewrite atom_quality_spec; [|by apply Forall_slice|unfold DESIRED_ATOM_SIZE; rewrite len_slice; lia].
      cbn [mbind res_bind]. eexists. split; [done|]. rewrite slice_unmasked.
      replace (Z.min (len bytes) (i + 4)) with (i + n) by lia.
      apply compared_step; try done; rewrite ?len_unmasked; lia. }
  destruct (Hloop (Z.max 0 (len bytes - 4) + 1)) as ([r q] & Hb & Hcmp); [lia..|].
  exists r, q. split; [exact Hb|]. unfold compared in Hcmp.
  assert (Z.max 0 (len bytes - 4) + 1 =? 0 = false) as E by lia. rewrite E in Hcmp.
  destruct Hcmp as (k & Hk & Hr & Hq & Hall). cbn in *. exists k. rewrite len_unmasked.
  split; [lia|]. split; [lia|]. split; [done|]. split; [done|]. intros j Hj Hjn. apply Hall. lia.
Qed.

(** Membership in a concrete list, for [lia]. *)
Ltac elem_lia :=
  intros; repeat match goal with H : _ ∈ _ |- _ => apply list_elem_of_In in H; cbn in H end; lia.

(** ** The four finders *)

(** [r] is a window of [l] of one of the sizes [ks] and no window of those
    sizes is better; among the best it is one of the shortest. Sizes larger than
    [l] stand for the whole of [l]. *)
Definition best_of (ks : list Z) (l : list (Z * Z)) (r : Z * Z) (q : Z) : Prop :=
  exists k i, k ∈ ks /\ r = (i, i + Z.min k (len l)) /\ 0 <= i /\ i + Z.min k (len l) <= len l /\
    q = window_quality (slice l i (i + Z.min k (len l))) /\
    forall k' j, k' ∈ ks -> 0 <= j -> j + Z.min k' (len l) <= len l ->
      window_quality (slice l j (j + Z.min k' (len l))) <= q /\
      (window_quality (slice l j (j + Z.min k' (len l))) = q -> Z.min k (len l) <= Z.min k' (len l)).

Lemma best_of_single k l r q :
  best_window (Z.min k (len l)) l r q -> best_of [k] l r q.
Proof.
  intros (i & Hi & Hin & -> & Hq & Hall). exists k, i. split; [left|]. do 4 (split; [done|]).
  intros k' j Hk'%list_elem_of_singleton Hj Hjl. subst k'. split; [by apply Hall|lia].
Qed.

Lemma best_of_snoc ks k l r q r' q' :
  (forall k', k' ∈ ks -> 1 <= k' < k) -> 1 <= len l ->
  best_of ks l r q -> best_window (Z.min k (len l)) l r' q' ->
  let best := better_result (Some r', q') (r, q) in
  best_of (ks ++ [k]) l (fst best) (snd best).
Proof.
  intros Hks Hl (k0 & i & Hk0 & -> & Hi & Hin & Hq & Hall) (i' & Hi' & Hin' & -> & Hq' & Hall').
  cbn zeta. unfold better_result, range_len, saturating_sub. cbn [fst snd].
  pose proof (Hks k0 Hk0).
  assert (Z.max 0 (i + Z.min k0 (len l) - i) =? 0 = false) as -> by lia.
  assert (Hold : q' <= q -> best_of (ks ++ [k]) l (i, i + Z.min k0 (len l)) q).
  { intros Hle. exists k0, i. split; [set_solver|]. do 4 (split; [done|]).
    intros k' j [Hk'|Hk'%list_elem_of_singleton]%elem_of_app Hj Hjl; [by apply Hall|].
    subst k'. split; [destruct (Hall' j Hj Hjl); lia|lia]. }
  destruct (Z.compare_spec q' q) as [Heq|Hlt|Hgt].
  - destruct (Z.max 0 (i' + Z.min k (len l) - i') <? _) eqn:E; bools; [lia|]. apply Hold. lia.
  - apply Hold. lia.
  - exists k, i'. split; [set_solver|]. do 4 (split; [done|]).
    intros k' j [Hk'|Hk'%list_elem_of_singleton]%elem_of_app Hj Hjl.
    + destruct (Hall k' j Hk' Hj Hjl). cbn [snd]. split; lia.
    + subst k'. split; [by apply Hall'|lia].
Qed.

Lemma feed_all ks l fs b m :
  Forall (fun n => 1 <= n <= 1000000) ks -> typed_bytes (l ++ [(b, m)]) ->
  Forall2 (fun n f => fed n l f) ks fs ->
  exists fs', for_each fs (fun f acc => f ← feed b m f; Ret (acc ++ [f])) [] = Ret fs' /\
    Forall2 (fun n f => fed n (l ++ [(b, m)]) f) ks fs'.
Proof.
  intros Hks Ht HF.
  enough (exists fs', Forall2 (fun f f' => feed b m f = Ret f') fs fs' /\
                      Forall2 (fun n f => fed n (l ++ [(b, m)]) f) ks fs') as (fs' & H1 & H2).
  { exists fs'. split; [|done]. by rewrite (for_each_collect (feed b m) fs fs' []). }
  induction HF as [|n f ks fs Hf HF IH]; [by exists []|]. inversion_clear Hks.
  destruct (feed_fed n l b m f) as (f' & E & Hf'); [done..|].
  destruct IH as (fs' & H1 & H2); [done|]. exists (f' :: fs'). split; by constructor.
Qed.

Lemma feed_all_bytes ks l :
  Forall (fun n => 1 <= n <= 1000000) ks -> typed_bytes l ->
  exists fs, for_each l
    (fun bm finders => for_each finders (fun f acc => f ← feed (fst bm) (snd bm) f; Ret (acc ++ [f])) [])
    (finder_new <$> ks) = Ret fs /\ Forall2 (fun n f => fed n l f) ks fs.
Proof.
  intros Hks Ht. apply (for_each_inv (fun l fs => Forall2 (fun n f => fed n l f) ks fs)).
  - clear Ht. induction Hks as [|n ks Hn _ IH]; constructor; [apply fed_new; lia|done].
  - intros done_ [b m] rest fs Hl Hf. apply feed_all; [done| |done].
    rewrite Hl, cons_middle, app_assoc in Ht. by apply Forall_app in Ht as [? _].
Qed.

Lemma masked_range_spec bytes mask :
  len bytes = len mask -> Forall is_u8 bytes -> Forall is_u8 mask -> bytes <> [] ->
  exists r q, best_range_in_masked_bytes bytes mask = Ret (r, q) /\
    best_of [1; 2; 3; 4] (zip bytes mask) r q.
Proof.
  intros Hlen Hb Hm Hne. set (l := zip bytes mask).
  assert (Ht : typed_bytes l).
  { unfold typed_bytes. apply Forall_forall. intros [b m] Hin. rewrite Forall_forall in Hb, Hm.
    split; [eapply Hb, elem_of_zip_l, Hin|eapply Hm, elem_of_zip_r, Hin]. }
  assert (Hll : len l = len bytes).
  { unfold len in *. subst l. rewrite length_zip_with. lia. }
  assert (H1 : 1 <= len l).
  { rewrite Hll. destruct bytes as [|x bs]; [done|]. rewrite len_cons. pose proof (len_nonneg bs). lia. }
  unfold best_range_in_masked_bytes. fold l. change (seqZ 1 DESIRED_ATOM_SIZE) with [1; 2; 3; 4].
  destruct (feed_all_bytes [1; 2; 3; 4] l) as (fs & -> & HF); [repeat (apply Forall_cons_2; [lia|]); apply Forall_nil_2|done|].
  cbn [mbind res_bind].
  assert (Hne' : l <> []) by (intros E; rewrite E, len_nil in H1; lia).
  assert (Hfin : forall n f, 1 <= n <= 1000000 -> fed n l f ->
    exists rg q, finalize f = Ret (Some rg, q) /\ best_window (Z.min n (len l)) l rg q).
  { intros n f Hn Hf. destruct (finalize_fed n l f Hn Ht Hf) as (r & q & E & Ha).
    apply finder_answer_window in Ha as (rg & -> & Hw); [|done|lia]. eauto. }
  inversion HF as [|? f1 ? fs1 F1 HF1]; subst. inversion HF1 as [|? f2 ? fs2 F2 HF2]; subst.
  inversion HF2 as [|? f3 ? fs3 F3 HF3]; subst. inversion HF3 as [|? f4 ? fs4 F4 HF4]; subst.
  inversion HF4; subst. clear HF HF1 HF2 HF3 HF4.
  destruct (Hfin 1 f1 ltac:(lia) F1) as (r1 & q1 & E1 & W1). destruct (Hfin 2 f2 ltac:(lia) F2) as (r2 & q2 & E2 & W2).
  destruct (Hfin 3 f3 ltac:(lia) F3) as (r3 & q3 & E3 & W3). destruct (Hfin 4 f4 ltac:(lia) F4) as (r4 & q4 & E4 & W4).
  cbn [for_each]. rewrite E1, E2, E3, E4. cbn [mbind res_bind].
  change (better_result (Some r1, q1) (0, 0, i32_MIN)) with (r1, q1).
  pose proof (best_of_single 1 l r1 q1 W1) as B1.
  pose proof (best_of_snoc [1] 2 l r1 q1 r2 q2 ltac:(elem_lia) H1 B1 W2) as B2.
  cbn zeta in B2. destruct (better_result (Some r2, q2) (r1, q1)) as [r12 q12].
  pose proof (best_of_snoc [1; 2] 3 l r12 q12 r3 q3 ltac:(elem_lia) H1 B2 W3) as B3.
  cbn zeta in B3. destruct (better_result (Some r3, q3) (r12, q12)) as [r13 q13].
  pose proof (best_of_snoc [1; 2; 3] 4 l r13 q13 r4 q4 ltac:(elem_lia) H1 B3 W4) as B4.
  cbn zeta in B4. destruct (better_result (Some r4, q4) (r13, q13)) as [r14 q14].
  exists r14, q14. split; [done|]. exact B4.
Qed.

(** ** The atoms of a literal *)

Lemma found_at_0 a data p : a.(backtrack) = 0 -> found_at a data p <-> has_at data p (atom_bytes a).
Proof. intros Hb. unfold found_at, has_at. by rewrite Hb, Z.add_0_r. Qed.

Lemma best_atom_spec bytes :
  Forall is_u8 bytes -> bytes <> [] -> len bytes <= 65536 ->
  exists i j a, best_atom_in_bytes bytes = Ret a /\ from_slice_range bytes i j = Some a /\ i < j /\
    (a.(is_exact) = true -> i = 0 /\ j = len bytes).
Proof.
  intros Hu Hne Hl. destruct (best_range_spec bytes Hu Hne) as (r & q & E & i & Hi & Hin & -> & _).
  rewrite len_unmasked in *. unfold DESIRED_ATOM_SIZE in *.
  assert (1 <= len bytes).
  { destruct bytes; [done|]. rewrite len_cons. pose proof (len_nonneg bytes). lia. }
  assert (Hf : exists a, from_slice_range bytes i (i + Z.min 4 (len bytes)) = Some a).
  { unfold from_slice_range. assert (i <=? u16_MAX = true) as -> by (unfold u16_MAX; lia). cbn.
    assert (get_range bytes i (i + Z.min 4 (len bytes)) = Some (slice bytes i (i + Z.min 4 (len bytes)))) as ->
      by (apply get_range_Some; split; [lia|by split]).
    by eexists. }
  destruct Hf as [a Ha]. exists i, (i + Z.min 4 (len bytes)), a.
  unfold best_atom_in_bytes. rewrite E. cbn [mbind res_bind fst snd]. rewrite Ha.
  split; [done|]. split; [done|]. split; [lia|].
  pose proof (from_slice_range_Some _ _ _ _ Ha) as (H1 & H2 & Hbs & Hbt & Hla).
  intros Hx. enough (len (atom_bytes a) = len bytes) by lia.
  unfold from_slice_range in Ha. destruct (i <=? u16_MAX); [|done]. cbn in Ha.
  destruct (get_range bytes i _) as [bs|]; [|done]. cbn in Ha. injection Ha as <-. cbn in *.
  by bools.
Qed.

(** The single atom, or the one whose case is changed. *)
Lemma extract_atoms_spec `{Itertools} bytes flags :
  Forall is_u8 bytes -> bytes <> [] -> len bytes <= 65536 ->
  exists a e i j,
    extract_atoms bytes flags =
      Ret (if Z.land flags FLAG_NOCASE =? FLAG_NOCASE then case_combinations (set_exact e a)
           else [set_exact e a]) /\
    from_slice_range bytes i j = Some a /\ i < j /\ (e = true -> i = 0 /\ j = len bytes).
Proof.
  intros Hu Hne Hl. destruct (best_atom_spec bytes Hu Hne Hl) as (i & j & a & E & Ha & Hij & Hx).
  unfold extract_atoms. rewrite E. cbn [mbind res_bind]. destruct (negb _).
  - by exists a, false, i, j.
  - exists a, (is_exact a), i, j. by destruct a.
Qed.

(** * Properties *)

(** The best range of a literal is the first of its windows of
    [DESIRED_ATOM_SIZE] bytes (or the whole literal, if it is shorter) with the
    highest quality, and the incremental computation of that quality agrees with
    its definition on the window. *)
Theorem best_range_in_bytes_exact (bytes : list Z) :
  Forall is_u8 bytes -> bytes <> [] ->
  exists i q, let n := Z.min DESIRED_ATOM_SIZE (len bytes) in
    best_range_in_bytes bytes = Ret ((i, i + n), q) /\ 0 <= i /\ i + n <= len bytes /\
    q = window_quality (unmasked (slice bytes i (i + n))) /\
    forall j, 0 <= j -> j + n <= len bytes ->
      window_quality (unmasked (slice bytes j (j + n))) <= q /\
      (j < i -> window_quality (unmasked (slice bytes j (j + n))) < q).
Proof.
  intros Hu Hne. destruct (best_range_spec bytes Hu Hne) as (r & q & E & i & Hi & Hin & -> & Hq & Hall).
  exists i, q. cbn zeta. rewrite len_unmasked in *. rewrite slice_unmasked. do 4 (split; [done|]).
  intros j Hj Hjn. rewrite slice_unmasked. by apply Hall.
Qed.

Lemma best_range_in_bytes_exact_witness :
  exists i q, best_range_in_bytes [0; 0; 1; 2; 3; 4; 97] = Ret ((i, i + 4), q) /\
    q = window_quality (unmasked (slice [0; 0; 1; 2; 3; 4; 97] i (i + 4))).
Proof.
  destruct (best_range_in_bytes_exact [0; 0; 1; 2; 3; 4; 97]) as (i & q & E & _ & _ & Hq & _).
  - repeat constructor; unfold is_u8; lia.
  - discriminate.
  - exists i, q. split; [exact E|exact Hq].
Defined.

(** The best range of a masked pattern has a quality that no other window
    of one to four bytes exceeds, and is as short as possible among the windows
    with that quality. *)
Theorem best_range_in_masked_bytes_exact (bytes mask : list Z) :
  len bytes = len mask -> Forall is_u8 bytes -> Forall is_u8 mask -> bytes <> [] ->
  exists i k q, best_range_in_masked_bytes bytes mask = Ret ((i, i + k), q) /\
    0 <= i /\ 1 <= k <= DESIRED_ATOM_SIZE /\ i + k <= len bytes /\
    q = window_quality (zip (slice bytes i (i + k)) (slice mask i (i + k))) /\
    forall j k', 0 <= j -> 1 <= k' <= DESIRED_ATOM_SIZE -> j + k' <= len bytes ->
      window_quality (zip (slice bytes j (j + k')) (slice mask j (j + k'))) <= q /\
      (window_quality (zip (slice bytes j (j + k')) (slice mask j (j + k'))) = q -> k <= k').
Proof.
  intros Hlen Hb Hm Hne. unfold DESIRED_ATOM_SIZE.
  destruct (masked_range_spec bytes mask Hlen Hb Hm Hne) as (r & q & E & k & i & Hk & -> & Hi & Hin & Hq & Hall).
  assert (Hll : len (zip bytes mask) = len bytes) by (unfold len in *; rewrite length_zip_with; lia).
  assert (Hz : forall a b, slice (zip bytes mask) a b = zip (slice bytes a b) (slice mask a b)).
  { intros a b. unfold slice. by rewrite zip_with_drop, zip_with_take. }
  rewrite Hll in *. assert (1 <= len bytes).
  { destruct bytes as [|x bs]; [done|]. rewrite len_cons. pose proof (len_nonneg bs). lia. }
  assert (1 <= k <= 4) by (revert Hk; elem_lia).
  exists i, (Z.min k (len bytes)), q. split; [done|]. split; [done|]. split; [lia|]. split; [done|].
  split; [by rewrite <- Hz|]. intros j k' Hj Hk' Hjk. rewrite <- Hz.
  assert (k' ∈ [1; 2; 3; 4]) as Hin'.
  { assert (k' = 1 \/ k' = 2 \/ k' = 3 \/ k' = 4) as Hor by lia.
    destruct Hor as [->|[->|[->| ->]]]; set_solver. }
  specialize (Hall k' j Hin' Hj). rewrite (Z.min_l k') in Hall by lia. apply Hall. lia.
Qed.

Lemma best_range_in_masked_bytes_exact_witness :
  exists i k q, best_range_in_masked_bytes [255; 0; 16] [255; 0; 255] = Ret ((i, i + k), q) /\
    1 <= k <= 4 /\ i + k <= 3.
Proof.
  destruct (best_range_in_masked_bytes_exact [255; 0; 16] [255; 0; 255]) as (i & k & q & E & _ & Hk & Hik & _).
  - reflexivity.
  - repeat constructor; unfold is_u8; lia.
  - repeat constructor; unfold is_u8; lia.
  - discriminate.
  - exists i, k, q. split; [exact E|]. split; [exact Hk|exact Hik].
Defined.

(** [best_atom_in_bytes] panics exactly when the best window of the literal
    starts after the offset 65535, the largest backtrack of an atom; otherwise
    the atom is that window, with its offset as backtrack, and it is exact when
    the whole literal fits in it. *)
Theorem best_atom_in_bytes_outcome (bytes : list Z) :
  Forall is_u8 bytes -> bytes <> [] ->
  exists i q, best_range_in_bytes bytes = Ret ((i, i + Z.min DESIRED_ATOM_SIZE (len bytes)), q) /\
    (u16_MAX < i -> best_atom_in_bytes bytes = Panic) /\
    (i <= u16_MAX -> exists a, best_atom_in_bytes bytes = Ret a /\ a.(backtrack) = i /\
       a.(atom_bytes) = slice bytes i (i + Z.min DESIRED_ATOM_SIZE (len bytes)) /\
       a.(is_exact) = (len bytes <=? DESIRED_ATOM_SIZE)).
Proof.
  intros Hu Hne. destruct (best_range_spec bytes Hu Hne) as (r & q & E & i & Hi & Hin & -> & Hq & _).
  exists i, q. split; [exact E|]. unfold best_atom_in_bytes. rewrite E. cbn [mbind res_bind fst snd].
  rewrite len_unmasked in *. unfold from_slice_range. split; intros Hb.
  - assert (i <=? u16_MAX = false) as -> by lia. done.
  - assert (i <=? u16_MAX = true) as -> by lia. cbn.
    assert (get_range bytes i (i + Z.min DESIRED_ATOM_SIZE (len bytes)) =
            Some (slice bytes i (i + Z.min DESIRED_ATOM_SIZE (len bytes)))) as ->.
    { apply get_range_Some. unfold DESIRED_ATOM_SIZE in *. split; [|by split].
      pose proof (len_nonneg bytes). lia. }
    cbn. eexists. split; [done|]. split; [done|]. split; [done|]. cbn. unfold DESIRED_ATOM_SIZE in *.
    rewrite len_slice by (pose proof (len_nonneg bytes); lia).
    destruct (len bytes <=? 4) eqn:El; bools; lia.
Qed.

Lemma best_atom_in_bytes_outcome_witness :
  exists i q a, best_range_in_bytes [102; 111; 111] = Ret ((i, i + 3), q) /\
    (i <= u16_MAX -> best_atom_in_bytes [102; 111; 111] = Ret a /\ a.(is_exact) = true).
Proof.
  destruct (best_atom_in_bytes_outcome [102; 111; 111]) as (i & q & E & _ & H).
  - repeat constructor; unfold is_u8; lia.
  - discriminate.
  - assert (Hi : i = 0) by (vm_compute in E; congruence). subst i.
    destruct (H ltac:(vm_compute; discriminate)) as (a & Ha & _ & _ & He).
    exists 0, q, a. split; [exact E|]. intros _. split; [exact Ha|exact He].
Defined.

(** C19: the atoms of a literal are complete, and sound when they are exact.
    For every literal of up to 65536 bytes the extraction succeeds; wherever the
    data has the literal (in any case, if the flag says so) one of the atoms is
    found at the offset given by its backtrack; and finding an exact atom means
    that the literal is there. *)
Theorem extract_atoms_correct `{ItertoolsLaws} (bytes : list Z) (flags : Z) :
  Forall is_u8 bytes -> bytes <> [] -> len bytes <= 65536 ->
  let occurs w := if Z.land flags FLAG_NOCASE =? FLAG_NOCASE
                  then to_ascii_lowercase <$> w = to_ascii_lowercase <$> bytes else w = bytes in
  exists atoms, extract_atoms bytes flags = Ret atoms /\
    forall data p, Forall is_u8 data ->
      (forall w, has_at data p w -> occurs w -> exists a, a ∈ atoms /\ found_at a data p) /\
      (forall a, a ∈ atoms -> a.(is_exact) = true -> found_at a data p ->
         exists w, has_at data p w /\ occurs w).
Proof.
  intros Hu Hne Hlen. destruct (extract_atoms_spec bytes flags Hu Hne Hlen) as (a & e & i & j & E & Ea & Hij & He).
  cbn zeta. pose proof (from_slice_range_Some _ _ _ _ Ea) as (H1 & H2 & Hbs & Hbt & Hl).
  assert (Hab : atom_bytes a <> []) by (intros Hn; rewrite Hn, len_nil in Hl; lia).
  assert (Hau : Forall is_u8 (atom_bytes a)) by (rewrite Hbs; by apply Forall_slice).
  eexists. split; [exact E|]. intros data p Hd. destruct (_ =? FLAG_NOCASE).
  - split.
    + intros w Hw Hc. assert (Hwl : len w = len bytes) by (apply (f_equal len) in Hc; by rewrite !len_map in Hc).
      exists (set_backtrack i (set_exact e (atom_from (slice w i j)))). split.
      * apply get_range_Some in Hw as (_ & _ & Hw).
        apply case_combinations_spec; cbn; [done|done|rewrite Hw; by do 2 apply Forall_slice|].
        split; [|done]. by rewrite Hbs, <- !slice_fmap, Hc.
      * by eapply (found_at_slice bytes w i j a).
    + intros a' Ha' Hx Hf. pose proof Hf as (_ & _ & Hfb)%get_range_Some.
      apply case_combinations_spec in Ha' as (Hc & Hb & Hx'); [|done|done|rewrite Hfb; by apply Forall_slice].
      cbn in Hc, Hb, Hx'. rewrite Hx in Hx'. destruct (He (eq_sym Hx')) as [-> ->].
      exists (atom_bytes a'). split; [by apply found_at_0; rewrite ?Hb|].
      rewrite Hc, Hbs. by rewrite slice_0, slice_to_all by lia.
  - split.
    + intros w Hw ->. eexists. split; [by apply list_elem_of_singleton|].
      unfold found_at. cbn. by eapply (found_at_slice bytes bytes i j a).
    + intros a' ->%list_elem_of_singleton Hx Hf. cbn in Hx. destruct (He Hx) as [-> ->].
      exists bytes. split; [|done]. rewrite found_at_0 in Hf by done.
      cbn in Hf. rewrite Hbs, slice_0, slice_to_all in Hf by lia. exact Hf.
Qed.

Lemma extract_atoms_correct_witness :
  exists atoms, extract_atoms [102; 111; 111; 98; 97; 114] 2 = Ret atoms /\
    exists a, a ∈ atoms /\ found_at a [1; 70; 79; 111; 98; 97; 114] 1.
Proof.
  destruct (extract_atoms_correct [102; 111; 111; 98; 97; 114] 2) as (atoms & E & Hall).
  - repeat constructor; unfold is_u8; lia.
  - discriminate.
  - vm_compute. discriminate.
  - exists atoms. split; [exact E|].
    apply (Hall [1; 70; 79; 111; 98; 97; 114] 1) with [70; 79; 111; 98; 97; 114].
    + repeat constructor; unfold is_u8; lia.
    + reflexivity.
    + reflexivity.
Defined.

(** The comparison of sets of atoms is not an order: three sets, with the
    same worst atom and average qualities 20, 30 and 40, are each better than the
    next one and the last one is better than the first. Equality disagrees with
    it too: it does not look at the number of exact atoms. *)
Theorem quality_cmp_not_transitive :
  let set n sum := {| num_exact_atoms := 0; num_inexact_atoms := n; min_atom_len := 4;
                      min_atom_quality := 10; sum_atom_quality := sum |} in
  let a := set 1 20 in let b := set 2 60 in let c := set 3 120 in
  quality_cmp a b = Gt /\ quality_cmp b c = Gt /\ quality_cmp c a = Gt /\
  (let d := {| num_exact_atoms := 1; num_inexact_atoms := 1; min_atom_len := 4;
               min_atom_quality := 10; sum_atom_quality := 20 |} in
   quality_eq a d = true /\ quality_cmp a d = Gt).
Proof. cbn zeta. repeat split; vm_compute; reflexivity. Qed.
