(* ===== verification/ByteClass.v ===== *)
(** Byte classes and masked bytes: [class_to_masked_byte] and
    [class_to_masked_bytes_alternation] of [lib/src/re/hir.rs], and
    [hex_byte_to_class] of [lib/src/compiler/ir/hex2hir.rs]. *)

From stdpp Require Import sorting.
From Stdlib Require Import ZifyBool.
From S2P Require Import Prelude.
From S2P Require Import Atoms.

(** * Byte classes

    The ranges [(lo, hi)] of a class are inclusive. *)

Definition in_range (b : Z) (r : Z * Z) : bool := (fst r <=? b) && (b <=? snd r).
Definition in_class (b : Z) (rs : list (Z * Z)) : bool := existsb (in_range b) rs.

(** The ranges of a byte class are sorted, do not overlap and are not adjacent. *)
Definition canonical (rs : list (Z * Z)) : Prop :=
  StronglySorted (fun r1 r2 => snd r1 + 1 < fst r2) rs /\
  Forall (fun r => 0 <= fst r /\ fst r <= snd r /\ snd r <= 255) rs.

Class ClassBytesOps := {
  cb_push : list (Z * Z) -> Z * Z -> list (Z * Z);
  cb_negate : list (Z * Z) -> list (Z * Z);
}.

Class ClassBytesLaws `{ClassBytesOps} := {
  cb_push_canonical rs r : canonical rs -> is_u8 (fst r) -> is_u8 (snd r) -> fst r <= snd r ->
    canonical (cb_push rs r);
  cb_push_spec rs r b : canonical rs -> is_u8 (fst r) -> is_u8 (snd r) -> fst r <= snd r ->
    in_class b (cb_push rs r) = in_class b rs || in_range b r;
  cb_negate_canonical rs : canonical rs -> canonical (cb_negate rs);
  cb_negate_spec rs b : canonical rs -> is_u8 b -> in_class b (cb_negate rs) = negb (in_class b rs);
}.

(** [HexByte] *)
Record HexByte := { hb_value : Z; hb_mask : Z }.

#[export] Instance HexByte_eq_dec : EqDecision HexByte.
Proof. solve_decision. Defined.

Definition hex_byte_matches (b : Z) (hb : HexByte) : Prop := byte_matches b hb.(hb_value) hb.(hb_mask).

(** [start..=end] *)
Definition bytes_of_range (r : Z * Z) : list Z := seqZ (fst r) (snd r - fst r + 1).

(** [class_to_masked_byte] *)
Definition class_to_masked_byte (c : list (Z * Z)) : option HexByte :=
  first ← head c;
  last_ ← last c;
  let smallest_byte := fst first in
  let largest_byte := snd last_ in
  let neg_mask := Z.lxor largest_byte smallest_byte in
  if forallb (fun range => forallb (fun b => Z.land b smallest_byte =? smallest_byte) (bytes_of_range range)) c
  then
    let num_bytes := foldl (fun n range => n + (snd range - fst range + 1)) 0 c in
    if negb (Z.shiftl 1 (count_ones neg_mask) =? num_bytes) then None
    else Some {| hb_value := smallest_byte; hb_mask := not_u8 neg_mask |}
  else None.

(** The body of the loop of [class_to_masked_bytes_alternation]: the number of
    bytes of a range is computed with eight bits, and overflows for the range of
    all bytes. [true] says that the function returns [None]. *)
Definition masked_range_step (range : Z * Z) (result : list HexByte) : res (list HexByte * bool) :=
  if negb (Z.land (fst range) (snd range) =? fst range) then Ret (result, true)
  else
    let neg_mask := Z.lxor (fst range) (snd range) in
    _ ← assert (snd range - fst range + 1 <=? u8_MAX);
    let num_bytes := snd range - fst range + 1 in
    if negb (Z.shiftl 1 (count_ones neg_mask) =? num_bytes) then Ret (result, true)
    else Ret (result ++ [{| hb_value := fst range; hb_mask := not_u8 neg_mask |}], false).

Definition class_to_masked_bytes_alternation (c : list (Z * Z)) : res (option (list HexByte)) :=
  if bool_decide (c = []) then Ret None
  else
    '(result, none) ← for_each_until c masked_range_step [];
    Ret (if none : bool then None else Some result).

(** [hex_byte_to_class] *)
Definition hex_byte_to_class `{ClassBytesOps} (b : HexByte) : res (list (Z * Z)) :=
  _ ← assert (Z.land b.(hb_value) (not_u8 b.(hb_mask)) =? 0);
  l ← bmc_items b.(hb_value) b.(hb_mask);
  Ret (foldl (fun class b => cb_push class (b, b)) [] l).

(** An implementation: the runs of the bytes that satisfy a predicate. *)
Definition add_front (b : Z) (rs : list (Z * Z)) : list (Z * Z) :=
  match rs with
  | (lo, hi) :: rest => if lo =? b + 1 then (b, hi) :: rest else (b, b) :: rs
  | [] => [(b, b)]
  end.

Definition runs_of (P : Z -> bool) (bs : list Z) : list (Z * Z) :=
  foldr (fun b rs => if P b then add_front b rs else rs) [] bs.

Definition runs (P : Z -> bool) : list (Z * Z) := runs_of P (seqZ 0 256).

#[export] Instance runs_ClassBytesOps : ClassBytesOps := {
  cb_push rs r := runs (fun b => in_class b rs || in_range b r);
  cb_negate rs := runs (fun b => negb (in_class b rs));
}.

(** * Lemmas on classes *)

Lemma canonical_nil : canonical [].
Proof. split; constructor. Qed.

Lemma in_class_cons b r rs : in_class b (r :: rs) = in_range b r || in_class b rs.
Proof. done. Qed.

Lemma add_front_spec b rs x :
  Forall (fun r => b < fst r /\ fst r <= snd r) rs ->
  in_class x (add_front b rs) = (x =? b) || in_class x rs.
Proof.
  intros H. destruct rs as [|[lo hi] rest]; cbn [add_front].
  - rewrite in_class_cons. unfold in_range. cbn. lia.
  - apply Forall_cons in H as [[H1 H2] _]. cbn in H1, H2. destruct (lo =? b + 1) eqn:E.
    + rewrite !in_class_cons. unfold in_range. cbn. lia.
    + rewrite !in_class_cons. unfold in_range. cbn. lia.
Qed.

Lemma add_front_canonical b rs :
  canonical rs -> Forall (fun r => b < fst r) rs -> 0 <= b <= 255 -> canonical (add_front b rs).
Proof.
  intros [Hs Hb] Hlt Hr. destruct rs as [|[lo hi] rest]; cbn [add_front].
  - split; repeat constructor; cbn; lia.
  - apply StronglySorted_inv in Hs as [Hs Hf]. apply Forall_cons in Hb as [Hb1 Hb].
    apply Forall_cons in Hlt as [Hl _]. cbn in *. rewrite Forall_forall in Hf. destruct (lo =? b + 1) eqn:E.
    + split; [constructor; [done|]|constructor; [cbn; lia|done]].
      rewrite Forall_forall. intros r Hr'. by apply Hf.
    + split; [|constructor; [cbn; lia|by constructor; [cbn; lia|]]].
      constructor; [by constructor; [|rewrite Forall_forall]|].
      constructor; [cbn; lia|]. rewrite Forall_forall. intros r Hr'. specialize (Hf r Hr'). cbn in *. lia.
Qed.

(** The runs of the bytes from [k] on. *)
Lemma runs_from P (n : nat) k :
  0 <= k -> k + Z.of_nat n = 256 ->
  let rs := runs_of P (seqZ k (Z.of_nat n)) in
  canonical rs /\ Forall (fun r => k <= fst r) rs /\
  forall x, in_class x rs = (k <=? x) && (x <=? 255) && P x.
Proof.
  revert k. induction n as [|n IH]; intros k Hk Hn; cbn zeta.
  - split; [apply canonical_nil|]. split; [constructor|]. intros x. cbn.
    destruct (k <=? x) eqn:E1, (x <=? 255) eqn:E2; bools; lia || done.
  - rewrite seqZ_cons by lia. replace (Z.pred (Z.of_nat (S n))) with (Z.of_nat n) by lia. cbn [runs_of foldr].
    fold (runs_of P (seqZ (Z.succ k) (Z.of_nat n))).
    destruct (IH (k + 1)) as (Hc & Hl & Hx); [lia..|].
    replace (Z.succ k) with (k + 1) by lia. destruct (P k) eqn:Ek.
    + assert (Hlt : Forall (fun r : Z * Z => k < fst r) (runs_of P (seqZ (k + 1) (Z.of_nat n)))).
      { eapply Forall_impl; [exact Hl|]. cbn. lia. }
      split; [by apply add_front_canonical; [..|lia]|]. split.
      * destruct (runs_of _ _) as [|[lo hi] rest]; cbn [add_front].
        -- repeat constructor. cbn. lia.
        -- apply Forall_cons in Hl as [H1 H2]. cbn in H1.
           assert (Forall (fun r : Z * Z => k <= fst r) rest) by (eapply Forall_impl; [exact H2|cbn; lia]).
           destruct (_ =? _); repeat constructor; cbn; try lia; done.
      * intros x. rewrite add_front_spec.
        -- rewrite Hx. destruct (x =? k) eqn:E; bools; [subst; rewrite Ek; lia|].
           destruct (k + 1 <=? x) eqn:E1, (k <=? x) eqn:E2; bools; lia || done.
        -- rewrite Forall_forall in *. destruct Hc as [_ Hc]. rewrite Forall_forall in Hc.
           intros r Hr. specialize (Hlt r Hr). specialize (Hc r Hr). cbn in *. lia.
    + split; [done|]. split; [eapply Forall_impl; [exact Hl|cbn; lia]|].
      intros x. rewrite Hx. destruct (x =? k) eqn:E; bools; [subst; rewrite Ek; lia|].
      destruct (k + 1 <=? x) eqn:E1, (k <=? x) eqn:E2; bools; lia || done.
Qed.

Lemma runs_spec P :
  canonical (runs P) /\ forall x, in_class x (runs P) = (0 <=? x) && (x <=? 255) && P x.
Proof. destruct (runs_from P 256 0) as (H1 & _ & H2); [lia..|]. by split. Qed.

Lemma in_class_u8 rs b : canonical rs -> in_class b rs = true -> is_u8 b.
Proof.
  intros [_ Hb] (r & Hin & Hr)%existsb_exists. rewrite Forall_forall in Hb.
  apply list_elem_of_In in Hin. specialize (Hb r Hin). unfold in_range in Hr. unfold is_u8. bools. lia.
Qed.

#[export] Instance runs_ClassBytesLaws : ClassBytesLaws.
Proof.
  split.
  - intros. apply runs_spec.
  - intros rs r b Hc H1 H2 H3. unfold cb_push, runs_ClassBytesOps. rewrite (proj2 (runs_spec _)).
    unfold is_u8 in *. destruct (in_class b rs) eqn:E.
    + apply in_class_u8 in E; [unfold is_u8 in E; cbn; lia|done].
    + cbn. unfold in_range. lia.
  - intros. apply runs_spec.
  - intros rs b Hc Hb. unfold cb_negate, runs_ClassBytesOps. rewrite (proj2 (runs_spec _)).
    unfold is_u8 in *. lia.
Qed.

(** The bytes of a class, in order. *)
Definition class_bytes (rs : list (Z * Z)) : list Z := r ← rs; bytes_of_range r.

Lemma elem_of_bytes_of_range b r : b ∈ bytes_of_range r <-> in_range b r = true.
Proof. unfold bytes_of_range, in_range. rewrite elem_of_seqZ. rewrite andb_true_iff. lia. Qed.

Lemma elem_of_class_bytes b rs : b ∈ class_bytes rs <-> in_class b rs = true.
Proof.
  unfold class_bytes, in_class. rewrite list_elem_of_bind, existsb_exists.
  split; intros (r & H1 & H2); exists r; rewrite ?list_elem_of_In, ?elem_of_bytes_of_range in *;
    by rewrite <- ?list_elem_of_In in *; rewrite ?elem_of_bytes_of_range in *.
Qed.

Lemma StronglySorted_app_lt (l1 l2 : list Z) :
  StronglySorted Z.lt l1 -> StronglySorted Z.lt l2 -> (forall x y, x ∈ l1 -> y ∈ l2 -> x < y) ->
  StronglySorted Z.lt (l1 ++ l2).
Proof.
  intros H1 H2 H. induction H1 as [|x l1 Hs IH Hx]; [done|]. cbn. constructor.
  - apply IH. intros. apply H; [by right|done].
  - apply Forall_app. split; [done|]. apply Forall_forall. intros y Hy. apply H; [left|done].
Qed.

Lemma class_bytes_sorted rs : canonical rs -> StronglySorted Z.lt (class_bytes rs).
Proof.
  intros [Hs Hb]. induction Hs as [|r rs Hs IH Hr]; [constructor|].
  apply Forall_cons in Hb as [Hb1 Hb2]. cbn. apply StronglySorted_app_lt; [apply seqZ_sorted|by apply IH|].
  intros x y Hx Hy. apply elem_of_bytes_of_range in Hx.
  apply elem_of_class_bytes, existsb_exists in Hy as (r' & Hin & Hy). rewrite Forall_forall in Hr.
  apply list_elem_of_In, Hr in Hin. unfold in_range in *. bools. lia.
Qed.

Lemma len_class_bytes rs :
  canonical rs -> foldl (fun n range => n + (snd range - fst range + 1)) 0 rs = len (class_bytes rs).
Proof.
  intros [_ Hb]. assert (H : forall n, foldl (fun n range => n + (snd range - fst range + 1)) n rs =
                                       n + len (class_bytes rs)); [|by rewrite H].
  induction Hb as [|r rs Hr Hb IH]; intros n; [unfold class_bytes; cbn; rewrite len_nil; lia|].
  cbn [foldl class_bytes mbind list_bind]. rewrite IH, len_app. fold (class_bytes rs).
  unfold bytes_of_range, class_bytes, len. rewrite length_seqZ. lia.
Qed.

Lemma bytes_of_range_cons r : fst r <= snd r -> bytes_of_range r = fst r :: seqZ (fst r + 1) (snd r - fst r).
Proof.
  intros H. unfold bytes_of_range. rewrite seqZ_cons by lia. f_equal. f_equal; lia.
Qed.

Lemma bytes_of_range_snoc r : fst r <= snd r -> bytes_of_range r = seqZ (fst r) (snd r - fst r) ++ [snd r].
Proof.
  intros H. unfold bytes_of_range. rewrite (seqZ_app (fst r) (snd r - fst r) 1) by lia. f_equal.
  replace (fst r + (snd r - fst r)) with (snd r) by lia. by rewrite seqZ_cons by lia.
Qed.

Lemma head_class_bytes rs : canonical rs -> head (class_bytes rs) = fst <$> head rs.
Proof.
  intros [_ Hb]. destruct rs as [|r rs]; [done|]. apply Forall_cons in Hb as [Hr _].
  unfold class_bytes. cbn. by rewrite bytes_of_range_cons by lia.
Qed.

Lemma last_class_bytes rs : canonical rs -> last (class_bytes rs) = snd <$> last rs.
Proof.
  intros [_ Hb]. destruct rs as [|r rs _] using rev_ind; [done|].
  apply Forall_app in Hb as [_ [Hr _]%Forall_cons].
  unfold class_bytes. rewrite bind_app, last_snoc. cbn.
  by rewrite app_nil_r, bytes_of_range_snoc, app_assoc, last_snoc by lia.
Qed.

(** Sorted lists with the same elements are equal. *)
Lemma sorted_ext (l1 l2 : list Z) :
  StronglySorted Z.lt l1 -> StronglySorted Z.lt l2 -> (forall x, x ∈ l1 <-> x ∈ l2) -> l1 = l2.
Proof.
  intros H1 H2 H. assert (AntiSymm (=) Z.lt) by (intros ? ? ? ?; lia).
  apply (StronglySorted_unique Z.lt); [done..|].
  apply NoDup_Permutation; [by apply StronglySorted_lt_NoDup..|done].
Qed.

(** * Classes that are masked bytes *)

(** The class contains the bytes that agree with the masked byte. *)
Definition class_is (rs : list (Z * Z)) (hb : HexByte) : Prop :=
  forall b, is_u8 b -> (in_class b rs = true <-> hex_byte_matches b hb).

Definition class_isb (rs : list (Z * Z)) (hb : HexByte) : bool :=
  forallb (fun b => Bool.eqb (in_class b rs) (Z.land b hb.(hb_mask) =? Z.land hb.(hb_value) hb.(hb_mask)))
    (seqZ 0 256).

Lemma class_isb_spec rs hb : class_isb rs hb = true <-> class_is rs hb.
Proof.
  unfold class_isb, class_is, hex_byte_matches, byte_matches. rewrite forallb_forall. split.
  - intros H b Hb%u8_in_seqZ%list_elem_of_In. specialize (H b Hb). lia.
  - intros H b Hb%list_elem_of_In%elem_of_seqZ. specialize (H b). unfold is_u8 in H. lia.
Qed.

(** The bits of a masked byte that are masked out are zero. *)
Definition clean (hb : HexByte) : Prop :=
  is_u8 hb.(hb_value) /\ is_u8 hb.(hb_mask) /\ Z.land hb.(hb_value) (not_u8 hb.(hb_mask)) = 0.

Lemma not_u8_involutive m : is_u8 m -> not_u8 (not_u8 m) = m.
Proof. intros _. unfold not_u8. rewrite Z.lxor_assoc. by rewrite Z.lxor_nilpotent, Z.lxor_0_r. Qed.

Lemma clean_land hb : clean hb -> Z.land hb.(hb_value) hb.(hb_mask) = hb.(hb_value).
Proof.
  intros (Hv & Hm & H0). apply u8_bits_eq; [by apply land_u8|done|]. intros n Hn.
  apply (f_equal (fun z => Z.testbit z n)) in H0. rewrite Z.land_spec, not_u8_testbit, Z.bits_0 in H0 by done.
  rewrite Z.land_spec. destruct (Z.testbit _ n), (Z.testbit (hb_mask hb) n); done.
Qed.

Lemma count_not_all : forallb (fun m => (count_ones (not_u8 m) =? count_zeros m)) (seqZ 0 256) = true.
Proof. vm_compute. reflexivity. Qed.

Lemma submasks_bounds_all :
  forallb (fun m => bool_decide (head (submasks (not_u8 m)) = Some 0) &&
                    bool_decide (last (submasks (not_u8 m)) = Some (not_u8 m))) (seqZ 0 256) = true.
Proof. vm_compute. reflexivity. Qed.

(** The bytes of the class are the ones of the iterator. *)
Lemma class_is_bytes rs hb :
  canonical rs -> clean hb -> class_is rs hb ->
  bmc_items hb.(hb_value) hb.(hb_mask) = Ret (class_bytes rs) /\
  class_bytes rs = Z.lor hb.(hb_value) <$> submasks (not_u8 hb.(hb_mask)) /\
  len (class_bytes rs) = 2 ^ count_zeros hb.(hb_mask).
Proof.
  intros Hc Hcl His. pose proof Hcl as (Hv & Hm & _).
  destruct (bmc_items_spec hb.(hb_value) hb.(hb_mask) Hm) as (l & E & Hs & Hl & H).
  pose proof (bmc_items_u8 _ _ _ Hm E) as Hu. rewrite Forall_forall in Hu.
  assert (class_bytes rs = l) as ->.
  { apply sorted_ext; [by apply class_bytes_sorted|done|]. intros x. rewrite elem_of_class_bytes. split.
    - intros Hx. pose proof (in_class_u8 _ _ Hc Hx). apply H, His; done.
    - intros Hx. apply His; [auto|]. apply H; auto. }
  split; [done|]. split; [|done]. rewrite bmc_items_eq in E by done. apply Ret_inj in E as <-.
  by rewrite clean_land.
Qed.

Lemma lxor_lor_l v s : Z.land v s = 0 -> Z.lxor (Z.lor v s) v = s.
Proof.
  intros H. apply Z.bits_inj'. intros n Hn. apply (f_equal (fun z => Z.testbit z n)) in H.
  rewrite Z.land_spec, Z.bits_0 in H. rewrite Z.lxor_spec, Z.lor_spec.
  by destruct (Z.testbit v n), (Z.testbit s n).
Qed.

(** The conversion to a masked byte succeeds for the classes that are one. *)
Lemma class_to_masked_byte_complete rs hb :
  canonical rs -> clean hb -> class_is rs hb -> class_to_masked_byte rs = Some hb.
Proof.
  intros Hc Hcl His. pose proof Hcl as (Hv & Hm & H0).
  destruct (class_is_bytes rs hb Hc Hcl His) as (_ & Hb & Hl).
  pose proof (not_u8_u8 _ Hm) as Hn.
  pose proof (forall_u8 _ submasks_bounds_all _ Hm) as [Hh%bool_decide_eq_true Hla%bool_decide_eq_true]%andb_prop.
  pose proof (head_class_bytes rs Hc) as Hhead. pose proof (last_class_bytes rs Hc) as Hlast.
  rewrite Hb in Hhead, Hlast. rewrite fmap_last, Hla in Hlast.
  assert (head (Z.lor (hb_value hb) <$> submasks (not_u8 (hb_mask hb))) = Some (hb_value hb)) as Hh'.
  { destruct (submasks _); [done|]. cbn in *. injection Hh as ->. by rewrite Z.lor_0_r. }
  rewrite Hh' in Hhead. unfold class_to_masked_byte.
  destruct (head rs) as [r1|]; [|done]. destruct (last rs) as [r2|]; [|done].
  injection Hhead as Hhead. injection Hlast as Hlast. cbn [mbind option_bind].
  rewrite <- Hhead, <- Hlast, lxor_lor_l by done.
  assert (forallb (fun range => forallb (fun b => Z.land b (hb_value hb) =? hb_value hb)
                                  (bytes_of_range range)) rs = true) as ->.
  { apply forallb_forall. intros r Hr%list_elem_of_In. apply forallb_forall. intros b Hin%list_elem_of_In.
    assert (b ∈ class_bytes rs) as Hbc by (apply list_elem_of_bind; eauto).
    rewrite Hb in Hbc. apply list_elem_of_fmap in Hbc as (s & -> & _).
    rewrite Z.land_comm. apply Z.eqb_eq. apply Z.bits_inj'. intros n Hn'.
    rewrite Z.land_spec, Z.lor_spec. by destruct (Z.testbit (hb_value hb) n). }
  rewrite len_class_bytes, Hl by done.
  pose proof (forall_u8 _ count_not_all _ Hm) as ->%Z.eqb_eq.
  rewrite Z.shiftl_1_l, Z.eqb_refl. cbn [negb]. rewrite not_u8_involutive by done. by destruct hb.
Qed.

(** ** Alternations of masked bytes *)

(** The test on a range of bytes, and what it means. *)
Definition masked_bounds (lo hi : Z) : bool :=
  (Z.land lo hi =? lo) && (Z.shiftl 1 (count_ones (Z.lxor lo hi)) =? hi - lo + 1).

Lemma masked_bounds_all :
  forallb (fun lo => forallb (fun hi =>
    if (lo <=? hi) && masked_bounds lo hi
    then class_isb [(lo, hi)] {| hb_value := lo; hb_mask := not_u8 (Z.lxor lo hi) |} else true)
    (seqZ 0 256)) (seqZ 0 256) = true.
Proof. vm_compute. reflexivity. Qed.

Lemma masked_bounds_spec lo hi :
  0 <= lo <= hi -> hi <= 255 -> masked_bounds lo hi = true ->
  class_is [(lo, hi)] {| hb_value := lo; hb_mask := not_u8 (Z.lxor lo hi) |}.
Proof.
  intros H1 H2 Hm. apply class_isb_spec.
  pose proof (forall_u8 _ masked_bounds_all lo) as H. cbn beta in H.
  assert (Hlo : is_u8 lo) by (unfold is_u8; lia). specialize (H Hlo).
  pose proof (forall_u8 _ H hi) as H'. cbn beta in H'.
  assert (Hhi : is_u8 hi) by (unfold is_u8; lia). specialize (H' Hhi).
  rewrite Hm in H'. by assert (lo <=? hi = true) as Hle by lia; rewrite Hle in H'.
Qed.

Lemma masked_range_step_spec lo hi result :
  0 <= lo /\ lo <= hi /\ hi <= 255 -> (lo, hi) <> (0, 255) ->
  masked_range_step (lo, hi) result = Ret (result, true) \/
  masked_range_step (lo, hi) result =
    Ret (result ++ [{| hb_value := lo; hb_mask := not_u8 (Z.lxor lo hi) |}], false) /\
  masked_bounds lo hi = true.
Proof.
  intros Hr Hx. unfold masked_range_step, masked_bounds. cbn [fst snd].
  destruct (Z.land lo hi =? lo); [|by left]. cbn [negb].
  assert (hi - lo + 1 <=? u8_MAX = true) as ->.
  { unfold u8_MAX. apply Z.leb_le. enough (lo <> 0 \/ hi <> 255) by lia.
    destruct (decide (lo = 0)), (decide (hi = 255)); subst; auto. }
  cbn [assert mbind res_bind]. destruct (Z.shiftl _ _ =? _); [by right|by left].
Qed.

Lemma lxor_u8 a b : is_u8 a -> is_u8 b -> is_u8 (Z.lxor a b).
Proof.
  rewrite !is_u8_land. intros Ha Hb. rewrite <- Ha at 2. rewrite <- Hb at 2. apply Z.bits_inj'. intros n Hn.
  rewrite !Z.land_spec, !Z.lxor_spec, !Z.land_spec. change 255 with (Z.ones 8).
  destruct (decide (n < 8)); [rewrite Z.ones_spec_low by lia; by rewrite !andb_true_r|].
  rewrite Z.ones_spec_high by lia. by rewrite !andb_false_r.
Qed.

(** What the loop over the ranges gives when it does not return early. *)
Lemma masked_ranges_loop c result r :
  canonical c -> c <> [(0, 255)] ->
  for_each_until c masked_range_step result = r ->
  exists l stop, r = Ret (l, stop) /\
    (stop = false -> exists l', l = result ++ l' /\
       Forall2 (fun range hb => class_is [range] hb /\ is_u8 hb.(hb_value) /\ is_u8 hb.(hb_mask)) c l').
Proof.
  intros [Hs Hb] Hne <-. assert (Hall : Forall (fun r => r <> (0, 255)) c).
  { apply Forall_forall. intros x Hx ->. apply Hne. destruct Hs as [|y c Hs Hy]; [by apply not_elem_of_nil in Hx|].
    apply Forall_cons in Hb as [Hb1 Hb]. rewrite Forall_forall in Hy, Hb.
    apply elem_of_cons in Hx as [<-|Hx]; [|specialize (Hy _ Hx); cbn in Hy; lia].
    destruct c as [|z c]; [done|]. specialize (Hy z ltac:(left)). specialize (Hb z ltac:(left)). cbn in *. lia. }
  clear Hs Hne. revert result. induction Hb as [|[lo hi] c Hr Hb IH]; intros result.
  - exists result, false. split; [done|]. intros _. exists []. by rewrite app_nil_r.
  - apply Forall_cons in Hall as [Hx Hall]. cbn [for_each_until fst snd] in *.
    destruct (masked_range_step_spec lo hi result Hr Hx) as [-> | (-> & Hm)]; cbn [mbind res_bind].
    { exists result, true. by split. }
    destruct (IH Hall (result ++ [{| hb_value := lo; hb_mask := not_u8 (Z.lxor lo hi) |}])) as (l & stop & E & Hl).
    exists l, stop. split; [exact E|]. intros Hst. destruct (Hl Hst) as (l' & -> & HF).
    eexists. rewrite <- app_assoc. split; [done|]. constructor; [|done].
    split; [apply masked_bounds_spec; [lia..|done]|]. cbn. split; [unfold is_u8; lia|].
    apply not_u8_u8, lxor_u8; unfold is_u8; lia.
Qed.

Lemma alternation_panics c :
  canonical c -> class_to_masked_bytes_alternation c = Panic <-> c = [(0, 255)].
Proof.
  intros Hc. destruct (decide (c = [(0, 255)])) as [->|Hne]; [done|].
  split; [|done]. unfold class_to_masked_bytes_alternation. case_bool_decide; [done|].
  destruct (masked_ranges_loop c [] _ Hc Hne eq_refl) as (l & stop & -> & _). by destruct stop.
Qed.

Lemma alternation_not_fuel c : canonical c -> class_to_masked_bytes_alternation c <> OutOfFuel.
Proof.
  intros Hc. destruct (decide (c = [(0, 255)])) as [->|Hne]; [done|].
  unfold class_to_masked_bytes_alternation. case_bool_decide as Hnil; [done|].
  destruct (masked_ranges_loop c [] _ Hc Hne eq_refl) as (l' & stop & -> & Hl). by destruct stop.
Qed.

Lemma alternation_ranges c l :
  canonical c -> class_to_masked_bytes_alternation c = Ret (Some l) ->
  Forall2 (fun range hb => class_is [range] hb /\ is_u8 hb.(hb_value) /\ is_u8 hb.(hb_mask)) c l.
Proof.
  intros Hc. destruct (decide (c = [(0, 255)])) as [->|Hne]; [done|].
  unfold class_to_masked_bytes_alternation. case_bool_decide as Hnil; [done|].
  destruct (masked_ranges_loop c [] _ Hc Hne eq_refl) as (l' & stop & -> & Hl).
  cbn [mbind res_bind]. destruct stop; [done|].
  intros [= <-]. by destruct (Hl eq_refl) as (l'' & -> & HF).
Qed.

Lemma alternation_spec c l :
  canonical c -> class_to_masked_bytes_alternation c = Ret (Some l) ->
  forall b, is_u8 b -> in_class b c = true <-> exists hb, hb ∈ l /\ hex_byte_matches b hb.
Proof.
  intros Hc E b Hb. pose proof (alternation_ranges c l Hc E) as HF. clear Hc E.
  induction HF as [|r hb c l [Hr _] HF IH]; [cbn; set_solver|].
  rewrite in_class_cons, orb_true_iff, IH. specialize (Hr b Hb).
  unfold in_class in Hr. cbn in Hr. rewrite orb_false_r in Hr. rewrite Hr. set_solver.
Qed.

Lemma alternation_typed c l :
  canonical c -> class_to_masked_bytes_alternation c = Ret (Some l) ->
  Forall (fun hb => is_u8 hb.(hb_value) /\ is_u8 hb.(hb_mask)) l.
Proof.
  intros Hc E. pose proof (alternation_ranges c l Hc E) as HF.
  induction HF as [|r hb c' l [_ Hr] HF IH]; constructor; [done|].
  clear -HF. induction HF as [|? ? ? ? [_ ?] ? IH]; by constructor.
Qed.

(** ** The class of a hex byte *)

Lemma push_all `{ClassBytesLaws} bs c :
  canonical c -> Forall is_u8 bs ->
  let c' := foldl (fun class b => cb_push class (b, b)) c bs in
  canonical c' /\ forall b, in_class b c' = true <-> in_class b c = true \/ b ∈ bs.
Proof.
  intros Hc Hu. revert c Hc. induction Hu as [|x bs Hx Hu IH]; intros c Hc; cbn zeta.
  - split; [done|]. set_solver.
  - cbn [foldl]. destruct (IH (cb_push c (x, x))) as [Hc' Hin].
    { apply cb_push_canonical; cbn; try done; lia. }
    split; [done|]. intros b. rewrite Hin, cb_push_spec by (cbn; try done; lia).
    rewrite orb_true_iff, elem_of_cons. unfold in_range. cbn. rewrite andb_true_iff. 
    assert (x <= b /\ b <= x <-> b = x) by lia. rewrite !Z.leb_le. tauto.
Qed.

Lemma hex_class_spec `{ClassBytesLaws} hb :
  clean hb -> exists c, hex_byte_to_class hb = Ret c /\ canonical c /\ class_is c hb.
Proof.
  intros (Hv & Hm & Hz). unfold hex_byte_to_class. rewrite Hz. cbn [assert Z.eqb mbind res_bind].
  destruct (bmc_items_spec (hb_value hb) (hb_mask hb) Hm) as (l & E & _ & _ & Hl).
  pose proof (bmc_items_u8 _ _ _ Hm E) as Hu. rewrite E. cbn [res_bind].
  destruct (push_all l [] canonical_nil Hu) as [Hc Hin]. eexists. split; [done|]. split; [done|].
  intros b Hb. rewrite Hin. unfold hex_byte_matches. rewrite <- (Hl b Hb). cbn. naive_solver.
Qed.

(** * Properties *)

(** A masked byte whose masked-out bits are zero becomes the class of the
    bytes that agree with it, and the class is recognised as the same masked
    byte. The conversion panics for the masked bytes whose masked-out bits are not
    zero. *)
Theorem masked_byte_roundtrip `{ClassBytesLaws} (hb : HexByte) :
  is_u8 hb.(hb_value) -> is_u8 hb.(hb_mask) ->
  (Z.land hb.(hb_value) (not_u8 hb.(hb_mask)) <> 0 -> hex_byte_to_class hb = Panic) /\
  (Z.land hb.(hb_value) (not_u8 hb.(hb_mask)) = 0 ->
   exists c, hex_byte_to_class hb = Ret c /\ canonical c /\
     (forall b, is_u8 b -> in_class b c = true <-> hex_byte_matches b hb) /\
     class_to_masked_byte c = Some hb).
Proof.
  intros Hv Hm. unfold hex_byte_to_class. split; intros Hz.
  - by assert (Z.land (hb_value hb) (not_u8 (hb_mask hb)) =? 0 = false) as -> by lia.
  - destruct (hex_class_spec hb) as (c & E & Hc & His); [by split|].
    exists c. split; [exact E|]. split; [done|]. split; [exact His|].
    by apply class_to_masked_byte_complete.
Qed.

Lemma masked_byte_roundtrip_witness :
  exists c, hex_byte_to_class {| hb_value := 0x30; hb_mask := 0xf0 |} = Ret c /\
    class_to_masked_byte c = Some {| hb_value := 0x30; hb_mask := 0xf0 |}.
Proof.
  destruct (masked_byte_roundtrip {| hb_value := 0x30; hb_mask := 0xf0 |}) as [_ H].
  - unfold is_u8. cbn. lia.
  - unfold is_u8. cbn. lia.
  - destruct (H eq_refl) as (c & E & _ & _ & Hc). exists c. split; [exact E|exact Hc].
Defined.

(** When a class is accepted as an alternation of masked bytes, the bytes of
    the class are exactly the ones that agree with some of them. The conversion
    panics only on the class of all bytes, where the number of bytes does not
    fit in eight bits. *)
Theorem masked_bytes_alternation_exact (c : list (Z * Z)) :
  canonical c ->
  (class_to_masked_bytes_alternation c = Panic <-> c = [(0, 255)]) /\
  (forall l, class_to_masked_bytes_alternation c = Ret (Some l) ->
     forall b, is_u8 b -> in_class b c = true <-> exists hb, hb ∈ l /\ hex_byte_matches b hb).
Proof.
  intros Hc. split; [by apply alternation_panics|]. intros l. by apply alternation_spec.
Qed.

Lemma masked_bytes_alternation_exact_witness :
  canonical [(0x10, 0x1f); (0x30, 0x3f)] /\
  (in_class 0x35 [(0x10, 0x1f); (0x30, 0x3f)] = true <->
   exists hb, hb ∈ [{| hb_value := 0x10; hb_mask := 0xf0 |}; {| hb_value := 0x30; hb_mask := 0xf0 |}] /\
     hex_byte_matches 0x35 hb).
Proof.
  assert (canonical [(0x10, 0x1f); (0x30, 0x3f)]) as Hc.
  { split; repeat constructor; cbn; lia. }
  split; [exact Hc|]. destruct (masked_bytes_alternation_exact _ Hc) as [_ H].
  apply (H [{| hb_value := 0x10; hb_mask := 0xf0 |}; {| hb_value := 0x30; hb_mask := 0xf0 |}]).
  - reflexivity.
  - unfold is_u8. lia.
Defined.

(** [class_to_masked_byte] also accepts classes that are not a masked byte.
    The class of the bytes 0, 1, 3 and 5 has the size and the bounds of one, and
    is taken for the masked byte of the bytes 0, 1, 4 and 5. *)
Theorem masked_byte_misrecognised :
  let c := [(0, 1); (3, 3); (5, 5)] in
  canonical c /\
  class_to_masked_byte c = Some {| hb_value := 0; hb_mask := 0xfa |} /\
  (in_class 3 c = true /\ ~ hex_byte_matches 3 {| hb_value := 0; hb_mask := 0xfa |}) /\
  (in_class 4 c = false /\ hex_byte_matches 4 {| hb_value := 0; hb_mask := 0xfa |}).
Proof.
  cbn zeta. split; [split; repeat constructor; cbn; lia|]. split; [vm_compute; reflexivity|].
  split; split; done.
Qed.
