(* ===== verification/PikeInstr.v ===== *)
(** The instruction set of the Pike virtual machine, from
    [lib/src/re/thompson/instr.rs]: the identifiers of the split instructions,
    the decoder, the iterators over the operands of an instruction and the
    iterator over a run of literal bytes. *)

From Stdlib Require Import ZifyBool.
From S2P Require Import Prelude.
From S2P Require Import Atoms.
From S2P Require Import ByteClass.

(** * Bitmaps

    The decoder and the compiler see a bitmap of bytes through [BitSlice] and
    [BitArray] of the [bitvec] crate, with the least significant bit first. *)
Class BitSlice := {
  bs_get_unchecked : list Z -> Z -> bool;
  bs_fill_true : list Z -> Z * Z -> list Z;
  bs_iter_ones : list Z -> list Z;
}.

(** [bs_fill_true] sets the bits of an inclusive range. *)
Class BitSliceLaws `{BitSlice} := {
  bs_get_zero n i : 0 <= i < 8 * n -> bs_get_unchecked (replicate (Z.to_nat n) 0) i = false;
  bs_len_fill bm r : len (bs_fill_true bm r) = len bm;
  bs_u8_fill bm r : Forall is_u8 bm -> Forall is_u8 (bs_fill_true bm r);
  bs_get_fill bm r i : 0 <= fst r -> snd r < 8 * len bm -> 0 <= i < 8 * len bm ->
    bs_get_unchecked (bs_fill_true bm r) i = in_range i r || bs_get_unchecked bm i;
  bs_iter_ones_spec bm i :
    i ∈ bs_iter_ones bm <-> 0 <= i < 8 * len bm /\ bs_get_unchecked bm i = true;
}.

(** An implementation on lists of bytes. *)
Definition lsb0_bit (bm : list Z) (i : Z) : bool :=
  match get bm (i / 8) with Some b => Z.testbit b (i mod 8) | None => false end.

Definition lsb0_fill_byte (k b : Z) (r : Z * Z) : Z :=
  foldr (fun j b => if in_range (8 * k + j) r then Z.setbit b j else b) b (seqZ 0 8).

#[export] Instance lsb0_BitSlice : BitSlice := {
  bs_get_unchecked := lsb0_bit;
  bs_fill_true bm r := (fun kb => lsb0_fill_byte (fst kb) (snd kb) r) <$> enumerate bm;
  bs_iter_ones bm := filter (fun i => lsb0_bit bm i = true) (seqZ 0 (8 * len bm));
}.

(** * Identifiers and offsets *)

Definition OPCODE_PREFIX : Z := 0xAA.

(** A [SplitId] is a [u16], an [Offset] an [i32]. *)
Notation SplitId := Z (only parsing).
Notation Offset := Z (only parsing).

Definition SplitId_BITS : Z := 13.
Definition SplitId_MAX : Z := Z.shiftl 1 SplitId_BITS - 1.

(** [SplitId::add] *)
Definition split_id_add (id amount : Z) : option SplitId :=
  let sum := id + amount in
  if u16_MAX <? sum then None
  else if SplitId_MAX <? sum then None else Some sum.

Definition split_id_to_le_bytes (id : SplitId) : list Z := to_le_bytes 2 id.

(** [Offset::from(usize)] panics and [Offset::try_from(isize)] fails out of the
    range of [i32]. *)
Definition offset_from_usize (v : Z) : res Offset := if v <=? i32_MAX then Ret v else Panic.
Definition offset_try_from (v : Z) : option Offset :=
  if (i32_MIN <=? v) && (v <=? i32_MAX) then Some v else None.

(** * Runs of literal bytes *)

Record LiteralBytesIter := { lb_code : list Z; lb_offset : Z }.

Definition literal_bytes_new (code : list Z) : LiteralBytesIter :=
  {| lb_code := code; lb_offset := 0 |}.

Definition consumed (it : LiteralBytesIter) : Z := it.(lb_offset).

Definition literal_bytes_next (it : LiteralBytesIter) : option Z * LiteralBytesIter :=
  let advance n := {| lb_code := it.(lb_code); lb_offset := it.(lb_offset) + n |} in
  if len it.(lb_code) <=? it.(lb_offset) then (None, it)
  else
    match slice_from it.(lb_code) it.(lb_offset) with
    | byte :: rest =>
        if byte =? OPCODE_PREFIX then
          match rest with
          | byte2 :: _ => if byte2 =? OPCODE_PREFIX then (Some OPCODE_PREFIX, advance 2) else (None, it)
          | [] => (None, it)
          end
        else (Some byte, advance 1)
    | [] => (None, it)
    end.

(** [literal_code_length] *)
Definition literal_code_length (literal : list Z) : Z :=
  foldl (fun length b => if b =? OPCODE_PREFIX then length + 1 else length) (len literal) literal.

(** * Instructions *)

Module Instr.
Inductive t : Type :=
  | Match
  | AnyByte
  | Byte (b : Z)
  | Bytes (it : LiteralBytesIter)
  | CaseInsensitiveChar (b : Z)
  | MaskedByte (byte mask : Z)
  | ClassBitmap (bitmap : list Z)
  | ClassRanges (ranges : list Z)
  | SplitA (id : SplitId) (offset : Offset)
  | SplitB (id : SplitId) (offset : Offset)
  | SplitN (id : SplitId) (offsets : list Z)
  | RepeatGreedy (offset : Offset) (min max : Z)
  | RepeatNonGreedy (offset : Offset) (min max : Z)
  | Jump (offset : Offset)
  | Start
  | End
  | LineStart
  | LineEnd
  | WordBoundary
  | WordBoundaryNeg
  | WordStart
  | WordEnd.

Definition MATCH : Z := 0x00.
Definition SPLIT_A : Z := 0x01.
Definition SPLIT_B : Z := 0x02.
Definition SPLIT_N : Z := 0x03.
Definition JUMP : Z := 0x04.
Definition ANY_BYTE : Z := 0x05.
Definition MASKED_BYTE : Z := 0x06.
Definition CASE_INSENSITIVE_CHAR : Z := 0x07.
Definition CLASS_BITMAP : Z := 0x08.
Definition CLASS_RANGES : Z := 0x09.
Definition START : Z := 0x0A.
Definition END : Z := 0x0B.
Definition WORD_BOUNDARY : Z := 0x0C.
Definition WORD_BOUNDARY_NEG : Z := 0x0D.
Definition WORD_START : Z := 0x0E.
Definition WORD_END : Z := 0x0F.
Definition REPEAT_GREEDY : Z := 0x10.
Definition REPEAT_NON_GREEDY : Z := 0x11.
Definition LINE_START : Z := 0x12.
Definition LINE_END : Z := 0x13.
End Instr.

(** * The decoder *)

(** The four readers of operands do no bounds check; a read that would be out
    of bounds is a [Panic] of the model. *)
Definition read_bytes (n : Z) (slice : list Z) : res (list Z) := index_range slice 0 n.

Definition decode_u32 (slice : list Z) : res Z := from_le_bytes <$> read_bytes 4 slice.
Definition decode_offset (slice : list Z) : res Offset := i32_from_le_bytes <$> read_bytes 4 slice.
Definition decode_num_alt (slice : list Z) : res Z := from_le_bytes <$> read_bytes 1 slice.
Definition decode_split_id (slice : list Z) : res SplitId := from_le_bytes <$> read_bytes 2 slice.

Definition is_bytes_run (code : list Z) : bool :=
  let prefix i := match get code i with Some x => x =? OPCODE_PREFIX | None => false end in
  let other i := match get code i with Some x => negb (x =? OPCODE_PREFIX) | None => false end in
  prefix 0 && prefix 1 && prefix 2 && prefix 3 ||
  prefix 0 && prefix 1 && other 2 ||
  other 0 && prefix 1 && prefix 2 ||
  other 0 && other 1.

(** The last arm of [decode_instr]: a literal byte, or a run of them. *)
Definition decode_literal (code : list Z) (decode_literal_runs : bool) : res (Instr.t * Z) :=
  if decode_literal_runs && is_bytes_run code then
    Ret (Instr.Bytes (literal_bytes_new code), 0)
  else
    match code with
    | [] => Panic
    | b :: _ => if b =? OPCODE_PREFIX then Ret (Instr.Byte OPCODE_PREFIX, 2) else Ret (Instr.Byte b, 1)
    end.

Definition decode_repeat (instr : Offset -> Z -> Z -> Instr.t) (code : list Z) : res (Instr.t * Z) :=
  offset ← decode_offset (slice_from code 2);
  min ← decode_u32 (slice_from code (2 + 4));
  max ← decode_u32 (slice_from code (2 + 4 + 4));
  Ret (instr offset min max, 2 + 4 + 4 + 4).

Definition decode_split (instr : SplitId -> Offset -> Instr.t) (code : list Z) : res (Instr.t * Z) :=
  id ← decode_split_id (slice_from code 2);
  offset ← decode_offset (slice_from code (2 + 2));
  Ret (instr id offset, 2 + 2 + 4).

Definition decode_split_n (code : list Z) : res (Instr.t * Z) :=
  id ← decode_split_id (slice_from code 2);
  n ← decode_num_alt (slice_from code (2 + 2));
  offsets ← index_range code (2 + 2 + 1) (2 + 2 + 1 + 4 * n);
  Ret (Instr.SplitN id offsets, 2 + 2 + 1 + 4 * n).

Definition decode_class_ranges (code : list Z) : res (Instr.t * Z) :=
  n ← or_panic (get code 2);
  ranges ← index_range code 3 (3 + 2 * n);
  Ret (Instr.ClassRanges ranges, 3 + 2 * n).

Definition decode_class_bitmap (code : list Z) : res (Instr.t * Z) :=
  bitmap ← index_range code 2 (2 + 32);
  Ret (Instr.ClassBitmap bitmap, 2 + len bitmap).

(** The arms for an opcode without operands. *)
Definition plain_instr (op : Z) : option Instr.t :=
  if op =? Instr.ANY_BYTE then Some Instr.AnyByte
  else if op =? Instr.START then Some Instr.Start
  else if op =? Instr.END then Some Instr.End
  else if op =? Instr.LINE_START then Some Instr.LineStart
  else if op =? Instr.LINE_END then Some Instr.LineEnd
  else if op =? Instr.WORD_BOUNDARY then Some Instr.WordBoundary
  else if op =? Instr.WORD_BOUNDARY_NEG then Some Instr.WordBoundaryNeg
  else if op =? Instr.WORD_START then Some Instr.WordStart
  else if op =? Instr.WORD_END then Some Instr.WordEnd
  else if op =? Instr.MATCH then Some Instr.Match
  else None.

(** The arms that begin with the prefix; [None] when no arm applies. The arms
    are for different opcodes, so their order does not matter. *)
Definition decode_opcode (op : Z) (code : list Z) : option (res (Instr.t * Z)) :=
  if op =? Instr.MASKED_BYTE then
    match code with
    | _ :: _ :: byte :: mask :: _ => Some (Ret (Instr.MaskedByte byte mask, 4))
    | _ => None
    end
  else if op =? Instr.CASE_INSENSITIVE_CHAR then
    match code with
    | _ :: _ :: byte :: _ => Some (Ret (Instr.CaseInsensitiveChar byte, 3))
    | _ => None
    end
  else if op =? Instr.JUMP then
    Some (offset ← decode_offset (slice_from code 2); Ret (Instr.Jump offset, 2 + 4))
  else if op =? Instr.SPLIT_A then Some (decode_split Instr.SplitA code)
  else if op =? Instr.SPLIT_B then Some (decode_split Instr.SplitB code)
  else if op =? Instr.SPLIT_N then Some (decode_split_n code)
  else if op =? Instr.REPEAT_GREEDY then Some (decode_repeat Instr.RepeatGreedy code)
  else if op =? Instr.REPEAT_NON_GREEDY then Some (decode_repeat Instr.RepeatNonGreedy code)
  else if op =? Instr.CLASS_RANGES then Some (decode_class_ranges code)
  else if op =? Instr.CLASS_BITMAP then Some (decode_class_bitmap code)
  else (fun i => Ret (i, 2)) <$> plain_instr op.

Definition decode_instr (code : list Z) (decode_literal_runs : bool) : res (Instr.t * Z) :=
  match code with
  | prefix :: op :: _ =>
      if prefix =? OPCODE_PREFIX then
        match decode_opcode op code with
        | Some r => r
        | None => decode_literal code decode_literal_runs
        end
      else decode_literal code decode_literal_runs
  | _ => decode_literal code decode_literal_runs
  end.

(** * The parser *)

Record InstrParser := { ip_code : list Z; ip_addr : Z }.

Definition parser_new (code : list Z) : InstrParser := {| ip_code := code; ip_addr := 0 |}.

(** [&self.code[size..]] panics when the instruction is larger than the rest of
    the code. *)
Definition parser_next (p : InstrParser) : option (res (Instr.t * Z * InstrParser)) :=
  match p.(ip_code) with
  | [] => None
  | _ =>
      Some ('(instr, size) ← decode_instr p.(ip_code) false;
            code ← index_range p.(ip_code) size (len p.(ip_code));
            Ret (instr, p.(ip_addr), {| ip_code := code; ip_addr := p.(ip_addr) + size |}))
  end.

(** All the items of the parser. Every instruction takes at least one byte, so
    the length of the code is enough fuel. *)
Fixpoint parse_all (fuel : nat) (p : InstrParser) : res (list (Instr.t * Z)) :=
  match parser_next p with
  | None => Ret []
  | Some next =>
      match fuel with
      | O => OutOfFuel
      | S fuel =>
          '(instr, addr, p') ← next;
          l ← parse_all fuel p';
          Ret ((instr, addr) :: l)
      end
  end.

Definition parse_code (code : list Z) : res (list (Instr.t * Z)) :=
  parse_all (length code) (parser_new code).

(** * Iterators over operands *)

Definition split_offsets_next (bs : list Z) : option (Offset * list Z) :=
  if len bs <? 4 then None
  else Some (i32_from_le_bytes (slice_to bs 4), slice_from bs 4).

Definition split_offsets_next_back (bs : list Z) : option (Offset * list Z) :=
  if len bs <? 4 then None
  else Some (i32_from_le_bytes (slice bs (len bs - 4) (len bs)), slice_to bs (len bs - 4)).

(** The offsets in order and, for [rev()], in reverse order. The length of the
    operand is enough fuel. *)
Fixpoint collect_with (next : list Z -> option (Offset * list Z)) (fuel : nat) (bs : list Z)
  : list Offset :=
  match fuel with
  | O => []
  | S fuel => match next bs with
              | Some (o, bs) => o :: collect_with next fuel bs
              | None => []
              end
  end.

Definition split_offsets (bs : list Z) : list Offset := collect_with split_offsets_next (length bs) bs.
Definition split_offsets_rev (bs : list Z) : list Offset :=
  collect_with split_offsets_next_back (length bs) bs.

(** [ClassRanges::ranges] *)
Fixpoint ranges (bs : list Z) : list (Z * Z) :=
  match bs with
  | start :: stop :: bs => (start, stop) :: ranges bs
  | _ => []
  end.

Definition class_ranges_contains (bs : list Z) (byte : Z) : bool :=
  existsb (fun range => in_range byte range) (ranges bs).

Definition class_bitmap_contains `{BitSlice} (bitmap : list Z) (byte : Z) : bool :=
  bs_get_unchecked bitmap byte.

Definition class_bitmap_bytes `{BitSlice} (bitmap : list Z) : list Z := bs_iter_ones bitmap.

(** * Instructions as data

    An [Item] is an instruction with its operands decoded; [enc] is its code. *)
Inductive Item : Type :=
  | IPlain (op : Z)
  | IByte (b : Z)
  | IMasked (byte mask : Z)
  | IClass (rs : list (Z * Z))
  | ISplit (is_a : bool) (id : SplitId) (offset : Offset)
  | ISplitN (id : SplitId) (offsets : list Offset)
  | IRepeat (greedy : bool) (offset : Offset) (min max : Z)
  | IJump (offset : Offset).

Section Items.
Context {BS : BitSlice} {BSL : BitSliceLaws}.

Definition enc_byte (b : Z) : list Z := if b =? OPCODE_PREFIX then [b; b] else [b].

Definition enc_ranges (rs : list (Z * Z)) : list Z := r ← rs; [fst r; snd r].

Definition class_bitmap (rs : list (Z * Z)) : list Z :=
  foldl bs_fill_true (replicate 32 0) rs.

Definition enc (it : Item) : list Z :=
  match it with
  | IPlain op => [OPCODE_PREFIX; op]
  | IByte b => enc_byte b
  | IMasked byte mask => [OPCODE_PREFIX; Instr.MASKED_BYTE; byte; mask]
  | IClass rs =>
      if len rs <? 16 then [OPCODE_PREFIX; Instr.CLASS_RANGES; len rs] ++ enc_ranges rs
      else [OPCODE_PREFIX; Instr.CLASS_BITMAP] ++ class_bitmap rs
  | ISplit is_a id offset =>
      [OPCODE_PREFIX; if is_a then Instr.SPLIT_A else Instr.SPLIT_B] ++
      split_id_to_le_bytes id ++ i32_to_le_bytes offset
  | ISplitN id offsets =>
      [OPCODE_PREFIX; Instr.SPLIT_N] ++ split_id_to_le_bytes id ++
      [len offsets] ++ (o ← offsets; i32_to_le_bytes o)
  | IRepeat greedy offset min max =>
      [OPCODE_PREFIX; if greedy then Instr.REPEAT_GREEDY else Instr.REPEAT_NON_GREEDY] ++
      i32_to_le_bytes offset ++ to_le_bytes 4 min ++ to_le_bytes 4 max
  | IJump offset => [OPCODE_PREFIX; Instr.JUMP] ++ i32_to_le_bytes offset
  end.

Definition instr_of (it : Item) : Instr.t :=
  match it with
  | IPlain op => default Instr.Match (plain_instr op)
  | IByte b => Instr.Byte b
  | IMasked byte mask => Instr.MaskedByte byte mask
  | IClass rs =>
      if len rs <? 16 then Instr.ClassRanges (enc_ranges rs) else Instr.ClassBitmap (class_bitmap rs)
  | ISplit is_a id offset => if is_a then Instr.SplitA id offset else Instr.SplitB id offset
  | ISplitN id offsets => Instr.SplitN id (o ← offsets; i32_to_le_bytes o)
  | IRepeat greedy offset min max =>
      if greedy then Instr.RepeatGreedy offset min max else Instr.RepeatNonGreedy offset min max
  | IJump offset => Instr.Jump offset
  end.

Definition item_ok (it : Item) : Prop :=
  match it with
  | IPlain op => is_Some (plain_instr op)
  | IByte b => is_u8 b
  | IMasked byte mask => is_u8 byte /\ is_u8 mask
  | IClass rs => canonical rs
  | ISplit _ id offset => is_u16 id /\ is_i32 offset
  | ISplitN id offsets => is_u16 id /\ len offsets <= u8_MAX /\ Forall is_i32 offsets
  | IRepeat _ offset min max => is_i32 offset /\ is_u32 min /\ is_u32 max
  | IJump offset => is_i32 offset
  end.

Definition enc_items (items : list Item) : list Z := items ≫= enc.

(** ** Decoding the code of an item *)

Lemma read_bytes_app n bs post : n = len bs -> read_bytes n (bs ++ post) = Ret bs.
Proof. intros ->. unfold read_bytes, index_range. by rewrite (get_range_mid [] bs post). Qed.

Lemma decode_offset_app o post :
  is_i32 o -> decode_offset (i32_to_le_bytes o ++ post) = Ret o.
Proof.
  intros H. unfold decode_offset. rewrite read_bytes_app by done. by apply (f_equal Ret), i32_le_roundtrip.
Qed.

Lemma decode_u32_app v post : is_u32 v -> decode_u32 (to_le_bytes 4 v ++ post) = Ret v.
Proof.
  intros H. unfold decode_u32. rewrite read_bytes_app by done. by apply (f_equal Ret), u32_le_roundtrip.
Qed.

Lemma decode_split_id_app v post :
  is_u16 v -> decode_split_id (split_id_to_le_bytes v ++ post) = Ret v.
Proof.
  intros H. unfold decode_split_id. rewrite read_bytes_app by done. by apply (f_equal Ret), u16_le_roundtrip.
Qed.

Lemma len_enc_ranges rs : len (enc_ranges rs) = 2 * len rs.
Proof. induction rs as [|[a b] rs IH]; [done|]. cbn. rewrite !len_cons. unfold enc_ranges in IH. cbn in IH. lia. Qed.

Lemma len_enc_offsets (offsets : list Offset) : len (o ← offsets; i32_to_le_bytes o) = 4 * len offsets.
Proof. induction offsets as [|o os IH]; [done|]. rewrite bind_cons, len_app, len_cons, IH. change (len (i32_to_le_bytes o)) with 4. lia. Qed.

Lemma len_class_bitmap rs : len (class_bitmap rs) = 32.
Proof.
  unfold class_bitmap. assert (H : forall bm, len (foldl bs_fill_true bm rs) = len bm).
  { induction rs as [|r rs IH]; intros bm; [done|]. cbn. rewrite IH. apply bs_len_fill. }
  by rewrite H.
Qed.

Lemma index_range_app {A} (pre : list A) bs post a b :
  a = len pre -> b = a + len bs -> index_range (pre ++ bs ++ post) a b = Ret bs.
Proof. intros -> ->. unfold index_range. by rewrite (get_range_mid pre bs post). Qed.

Lemma len_split_id id : len (split_id_to_le_bytes id) = 2.
Proof. done. Qed.

Lemma slice_from_pre {A} (pre rest code : list A) n :
  code = pre ++ rest -> n = len pre -> slice_from code n = rest.
Proof. intros -> ->. apply slice_from_app. Qed.

Lemma decode_split_app instr op id offset post :
  is_u16 id -> is_i32 offset ->
  decode_split instr (([OPCODE_PREFIX; op] ++ split_id_to_le_bytes id ++ i32_to_le_bytes offset) ++ post) =
  Ret (instr id offset, 8).
Proof.
  intros Hid Ho. unfold decode_split.
  rewrite (slice_from_pre [OPCODE_PREFIX; op] (split_id_to_le_bytes id ++ i32_to_le_bytes offset ++ post) _ 2)
    by (done || by rewrite <- !app_assoc).
  rewrite (slice_from_pre ([OPCODE_PREFIX; op] ++ split_id_to_le_bytes id) (i32_to_le_bytes offset ++ post) _ (2 + 2))
    by (done || by rewrite <- !app_assoc).
  by rewrite decode_split_id_app, decode_offset_app.
Qed.

Lemma decode_repeat_app instr op offset min max post :
  is_i32 offset -> is_u32 min -> is_u32 max ->
  decode_repeat instr (([OPCODE_PREFIX; op] ++ i32_to_le_bytes offset ++ to_le_bytes 4 min ++
                        to_le_bytes 4 max) ++ post) =
  Ret (instr offset min max, 14).
Proof.
  intros Ho Hmin Hmax. unfold decode_repeat.
  rewrite (slice_from_pre [OPCODE_PREFIX; op] (i32_to_le_bytes offset ++ to_le_bytes 4 min ++ to_le_bytes 4 max ++ post) _ 2)
    by (done || by rewrite <- !app_assoc).
  rewrite (slice_from_pre ([OPCODE_PREFIX; op] ++ i32_to_le_bytes offset)
             (to_le_bytes 4 min ++ to_le_bytes 4 max ++ post) _ (2 + 4)) by (done || by rewrite <- !app_assoc).
  rewrite (slice_from_pre ([OPCODE_PREFIX; op] ++ i32_to_le_bytes offset ++ to_le_bytes 4 min)
             (to_le_bytes 4 max ++ post) _ (2 + 4 + 4)) by (done || by rewrite <- !app_assoc).
  by rewrite decode_offset_app, !decode_u32_app.
Qed.

Lemma decode_split_n_app id offsets post :
  is_u16 id -> len offsets <= u8_MAX ->
  decode_split_n (enc (ISplitN id offsets) ++ post) =
  Ret (Instr.SplitN id (o ← offsets; i32_to_le_bytes o), len (enc (ISplitN id offsets))).
Proof.
  intros Hid Hn. unfold decode_split_n. cbn [enc]. set (body := o ← offsets; i32_to_le_bytes o).
  rewrite (slice_from_pre [OPCODE_PREFIX; Instr.SPLIT_N] (split_id_to_le_bytes id ++ [len offsets] ++ body ++ post) _ 2)
    by (done || by rewrite <- !app_assoc).
  rewrite (slice_from_pre ([OPCODE_PREFIX; Instr.SPLIT_N] ++ split_id_to_le_bytes id)
             ([len offsets] ++ body ++ post) _ (2 + 2)) by (done || by rewrite <- !app_assoc).
  rewrite decode_split_id_app by done. unfold decode_num_alt. rewrite read_bytes_app by done.
  cbn [mbind res_bind fmap res_fmap from_le_bytes]. rewrite Z.mul_0_r, Z.add_0_r.
  pose proof (len_enc_offsets offsets) as Hb. fold body in Hb.
  rewrite !app_assoc, <- (app_assoc _ body), <- (app_assoc [_; _]).
  rewrite (index_range_app _ body post) by (rewrite ?len_app, ?Hb; rewrite ?len_cons, ?len_nil, ?len_split_id; lia).
  cbn [mbind res_bind]. do 2 f_equal. rewrite !len_app, Hb, !len_cons, len_nil, len_split_id. lia.
Qed.

Lemma decode_class_app rs post :
  decode_instr (enc (IClass rs) ++ post) false = Ret (instr_of (IClass rs), len (enc (IClass rs))).
Proof.
  cbn [enc instr_of]. destruct (len rs <? 16) eqn:E; bools.
  - rewrite <- app_assoc. set (code := _ ++ _ ++ post).
    change (decode_instr code false) with (decode_class_ranges code).
    unfold decode_class_ranges, code. change (get _ 2) with (Some (len rs)).
    cbn [mbind res_bind or_panic].
    rewrite (index_range_app [_; _; _] (enc_ranges rs) post) by (rewrite ?len_enc_ranges; done).
    cbn [mbind res_bind]. rewrite len_app, len_enc_ranges, !len_cons, len_nil. do 2 f_equal; lia.
  - rewrite <- app_assoc. set (code := _ ++ _ ++ post).
    change (decode_instr code false) with (decode_class_bitmap code).
    unfold decode_class_bitmap, code.
    rewrite (index_range_app [_; _] (class_bitmap rs) post) by (rewrite ?len_class_bitmap; done).
    cbn [mbind res_bind]. rewrite len_app, !len_cons, len_nil. do 2 f_equal; lia.
Qed.

Lemma decode_plain_app op instr post :
  plain_instr op = Some instr -> decode_instr ([OPCODE_PREFIX; op] ++ post) false = Ret (instr, 2).
Proof.
  unfold plain_instr. intros H. repeat case_match; bools; subst; by simplify_eq.
Qed.

Lemma decode_instr_byte b post runs :
  decode_instr (enc_byte b ++ post) runs = decode_literal (enc_byte b ++ post) runs.
Proof.
  unfold enc_byte. destruct (b =? OPCODE_PREFIX) eqn:E.
  - bools. by subst b.
  - destruct post as [|x post]; cbn; [done|]. by rewrite E.
Qed.

Lemma decode_byte_app b post :
  decode_instr (enc_byte b ++ post) false = Ret (Instr.Byte b, len (enc_byte b)).
Proof.
  rewrite decode_instr_byte. unfold decode_literal, enc_byte. cbn [andb].
  destruct (b =? OPCODE_PREFIX) eqn:E; cbn [app]; rewrite E; [|done]. bools. by subst b.
Qed.

(** The decoder inverts the code of an instruction, whatever follows it. *)
Lemma decode_enc it post :
  item_ok it -> decode_instr (enc it ++ post) false = Ret (instr_of it, len (enc it)).
Proof.
  destruct it as [op|b|byte mask|rs|is_a id o|id os|g o mi ma|o]; cbn [item_ok].
  - intros [i Hi]. cbn [enc instr_of]. rewrite Hi. by apply decode_plain_app.
  - intros _. apply decode_byte_app.
  - done.
  - intros _. apply decode_class_app.
  - intros [? ?]. destruct is_a; by apply (decode_split_app _ _ id o post).
  - intros (? & ? & ?). by apply decode_split_n_app.
  - intros (? & ? & ?). destruct g; by apply (decode_repeat_app _ _ o mi ma post).
  - intros ?. cbn [enc instr_of]. rewrite <- app_assoc. cbn [app decode_instr].
    change (decode_opcode _ _) with (Some (offset ← decode_offset (slice_from
      ([OPCODE_PREFIX; Instr.JUMP] ++ i32_to_le_bytes o ++ post) 2); Ret (Instr.Jump offset, 2 + 4))).
    rewrite Z.eqb_refl, (slice_from_app [OPCODE_PREFIX; Instr.JUMP]), decode_offset_app by done. done.
Qed.

Lemma enc_not_nil it : enc it <> [].
Proof.
  destruct it; cbn [enc]; unfold enc_byte; repeat case_match; done.
Qed.

Lemma len_enc_pos it : 0 < len (enc it).
Proof.
  pose proof (enc_not_nil it). destruct (enc it); [done|]. rewrite len_cons.
  pose proof (len_nonneg l). lia.
Qed.

(** ** Parsing *)

(** The addresses of the items of a sequence that starts at [addr]. *)
Fixpoint with_addr (items : list Item) (addr : Z) : list (Item * Z) :=
  match items with
  | [] => []
  | it :: items => (it, addr) :: with_addr items (addr + len (enc it))
  end.

Lemma parser_next_enc it post addr :
  item_ok it ->
  parser_next {| ip_code := enc it ++ post; ip_addr := addr |} =
  Some (Ret (instr_of it, addr, {| ip_code := post; ip_addr := addr + len (enc it) |})).
Proof.
  intros Hok. unfold parser_next. cbn [ip_code ip_addr]. rewrite decode_enc by done.
  destruct (enc it ++ post) as [|x l] eqn:E.
  { by apply app_eq_nil in E as [?%enc_not_nil _]. }
  rewrite <- E. f_equal. cbn [mbind res_bind].
  assert (index_range (enc it ++ post) (len (enc it)) (len (enc it ++ post)) = Ret post) as ->; [|done].
  pose proof (index_range_app (enc it) post [] _ (len (enc it ++ post)) eq_refl) as H.
  rewrite app_nil_r in H. apply H. apply len_app.
Qed.

Lemma parse_all_enc items fuel addr :
  Forall item_ok items -> (length items <= fuel)%nat ->
  parse_all fuel {| ip_code := enc_items items; ip_addr := addr |} =
  Ret ((fun ia => (instr_of (fst ia), snd ia)) <$> with_addr items addr).
Proof.
  intros HF. revert fuel addr. induction HF as [|it items Hok _ IH]; intros fuel addr Hf.
  - by destruct fuel.
  - destruct fuel as [|fuel]; [cbn in Hf; lia|]. cbn [parse_all enc_items mbind list_bind].
    rewrite parser_next_enc by done. cbn [mbind res_bind]. rewrite IH by (cbn in Hf; lia). done.
Qed.

Lemma length_enc_items items : (length items <= length (enc_items items))%nat.
Proof.
  induction items as [|it items IH]; [done|]. cbn. rewrite length_app.
  pose proof (len_enc_pos it). unfold len in *. unfold enc_items in IH. lia.
Qed.

Lemma parse_code_enc items :
  Forall item_ok items ->
  parse_code (enc_items items) =
  Ret ((fun ia => (instr_of (fst ia), snd ia)) <$> with_addr items 0).
Proof. intros H. apply parse_all_enc; [done|]. apply length_enc_items. Qed.

(** ** Operands *)

Definition enc_offsets (offsets : list Offset) : list Z := o ← offsets; i32_to_le_bytes o.

Lemma split_offsets_enc offsets :
  Forall is_i32 offsets -> split_offsets (enc_offsets offsets) = offsets.
Proof.
  intros HF. unfold split_offsets.
  assert (forall fuel, (length offsets <= fuel)%nat ->
    collect_with split_offsets_next fuel (enc_offsets offsets) = offsets) as H.
  { induction HF as [|o os Ho _ IH]; intros fuel Hf; [by destruct fuel|].
    destruct fuel as [|fuel]; [cbn in Hf; lia|]. cbn [collect_with].
    change (enc_offsets (o :: os)) with (i32_to_le_bytes o ++ enc_offsets os).
    unfold split_offsets_next. rewrite len_app. change (len (i32_to_le_bytes o)) with 4.
    pose proof (len_nonneg (enc_offsets os)). destruct (_ <? 4) eqn:E; bools; [lia|].
    rewrite (slice_to_app (i32_to_le_bytes o)), (slice_from_app (i32_to_le_bytes o)).
    rewrite i32_le_roundtrip by done. f_equal. apply IH. cbn in Hf. lia. }
  apply H. pose proof (len_enc_offsets offsets) as Hl. unfold len, enc_offsets in *. lia.
Qed.

Lemma split_offsets_rev_enc offsets :
  Forall is_i32 offsets -> split_offsets_rev (enc_offsets offsets) = reverse offsets.
Proof.
  intros HF. unfold split_offsets_rev.
  assert (forall fuel, (length offsets <= fuel)%nat ->
    collect_with split_offsets_next_back fuel (enc_offsets offsets) = reverse offsets) as H.
  { induction offsets as [|o os IH] using rev_ind; intros fuel Hf; [by destruct fuel|].
    apply Forall_app in HF as [HF [Ho _]%Forall_cons].
    rewrite length_app in Hf. destruct fuel as [|fuel]; [cbn in Hf; lia|]. cbn [collect_with].
    assert (enc_offsets (os ++ [o]) = enc_offsets os ++ i32_to_le_bytes o) as ->
      by by unfold enc_offsets; rewrite bind_app.
    unfold split_offsets_next_back. rewrite len_app. change (len (i32_to_le_bytes o)) with 4.
    pose proof (len_nonneg (enc_offsets os)). destruct (_ <? 4) eqn:E; bools; [lia|].
    rewrite Z.add_simpl_r, slice_to_app.
    pose proof (slice_mid (enc_offsets os) (i32_to_le_bytes o) [] _ _ eq_refl eq_refl) as Hs.
    rewrite app_nil_r in Hs. change (len (i32_to_le_bytes o)) with 4 in Hs. rewrite Hs.
    rewrite i32_le_roundtrip, reverse_app by done. cbn. f_equal. apply IH; [done|]. cbn in Hf. lia. }
  apply H. pose proof (len_enc_offsets offsets) as Hl. unfold len, enc_offsets in *. lia.
Qed.

Lemma ranges_enc rs : ranges (enc_ranges rs) = rs.
Proof. induction rs as [|[a b] rs IH]; [done|]. cbn. by f_equal. Qed.

(** The test of a class instruction is the one of the class. *)
Definition class_instr_contains (i : Instr.t) (b : Z) : bool :=
  match i with
  | Instr.ClassRanges bs => class_ranges_contains bs b
  | Instr.ClassBitmap bm => class_bitmap_contains bm b
  | _ => false
  end.

Lemma bitmap_get rs bm b :
  len bm = 32 -> is_u8 b -> Forall (fun r => 0 <= fst r /\ fst r <= snd r /\ snd r <= 255) rs ->
  bs_get_unchecked (foldl bs_fill_true bm rs) b = in_class b rs || bs_get_unchecked bm b.
Proof.
  intros Hl Hb HF. unfold is_u8 in Hb. revert bm Hl.
  induction HF as [|r rs Hr _ IH]; intros bm Hl; [done|].
  cbn. rewrite IH by by rewrite bs_len_fill.
  rewrite bs_get_fill by lia. rewrite orb_assoc. f_equal. apply orb_comm.
Qed.

Lemma class_instr_contains_spec rs b :
  canonical rs -> is_u8 b -> class_instr_contains (instr_of (IClass rs)) b = in_class b rs.
Proof.
  intros [_ HF] Hb. cbn [instr_of]. destruct (len rs <? 16).
  - cbn. unfold class_ranges_contains. by rewrite ranges_enc.
  - cbn. unfold class_bitmap_contains, class_bitmap.
    rewrite bitmap_get by done. change (replicate 32 0) with (replicate (Z.to_nat 32) 0).
    rewrite bs_get_zero by (unfold is_u8 in Hb; lia). by rewrite orb_false_r.
Qed.

Lemma class_bitmap_u8 rs : Forall is_u8 (class_bitmap rs).
Proof.
  unfold class_bitmap. assert (H : Forall is_u8 (replicate 32 0)) by (repeat constructor; done).
  revert H. generalize (replicate 32 0). induction rs as [|r rs IH]; intros bm H; [done|].
  cbn. by apply IH, bs_u8_fill.
Qed.

(** ** Literals *)

Definition enc_literal (literal : list Z) : list Z := literal ≫= enc_byte.

(** The code after a literal does not begin with a literal byte. *)
Definition no_literal (post : list Z) : Prop :=
  match post with
  | [] => True
  | [b] => b = OPCODE_PREFIX
  | b :: op :: _ => b = OPCODE_PREFIX /\ op <> OPCODE_PREFIX
  end.

Lemma literal_code_length_spec literal : literal_code_length literal = len (enc_literal literal).
Proof.
  unfold literal_code_length.
  assert (H : forall n, foldl (fun length b => if b =? OPCODE_PREFIX then length + 1 else length) n literal
              = n - len literal + len (enc_literal literal)).
  { induction literal as [|b l IH]; intros n; cbn [foldl];
      [change (enc_literal []) with (@nil Z); rewrite !len_nil; lia|].
    rewrite IH. change (enc_literal (b :: l)) with (enc_byte b ++ enc_literal l).
    rewrite len_app, len_cons. unfold enc_byte. case_match; rewrite !len_cons, len_nil; lia. }
  rewrite H. lia.
Qed.

(** The items of the iterator over the bytes of a literal, and where it stops. *)
Fixpoint literal_bytes (fuel : nat) (it : LiteralBytesIter) : res (list Z * LiteralBytesIter) :=
  match literal_bytes_next it with
  | (None, it) => Ret ([], it)
  | (Some b, it) =>
      match fuel with
      | O => OutOfFuel
      | S fuel => '(l, it) ← literal_bytes fuel it; Ret (b :: l, it)
      end
  end.

Lemma literal_next_byte pre b post :
  literal_bytes_next {| lb_code := pre ++ enc_byte b ++ post; lb_offset := len pre |} =
  (Some b, {| lb_code := pre ++ enc_byte b ++ post; lb_offset := len pre + len (enc_byte b) |}).
Proof.
  unfold literal_bytes_next. cbn [lb_code lb_offset]. rewrite slice_from_app, !len_app.
  pose proof (len_enc_pos (IByte b)) as Hp. cbn [enc] in Hp. pose proof (len_nonneg post).
  destruct (_ <=? _) eqn:E; bools; [lia|]. clear E. unfold enc_byte in *.
  destruct (b =? OPCODE_PREFIX) eqn:E; cbn [app]; rewrite E; [|done].
  bools. by subst b.
Qed.

Lemma literal_next_end pre post :
  no_literal post ->
  literal_bytes_next {| lb_code := pre ++ post; lb_offset := len pre |} =
  (None, {| lb_code := pre ++ post; lb_offset := len pre |}).
Proof.
  intros H. unfold literal_bytes_next. cbn [lb_code lb_offset]. rewrite slice_from_app.
  destruct (_ <=? _) eqn:E; [done|]. destruct post as [|b [|op post]]; [done| |].
  - cbn in H. subst b. done.
  - destruct H as [-> Hop]. apply Z.eqb_neq in Hop. cbn. by rewrite Hop.
Qed.

Lemma literal_bytes_enc literal fuel pre post :
  no_literal post -> (length literal <= fuel)%nat ->
  literal_bytes fuel {| lb_code := pre ++ enc_literal literal ++ post; lb_offset := len pre |} =
  Ret (literal, {| lb_code := pre ++ enc_literal literal ++ post;
                   lb_offset := len pre + len (enc_literal literal) |}).
Proof.
  intros Hp. revert fuel pre. induction literal as [|b l IH]; intros fuel pre Hf.
  - cbn [enc_literal mbind list_bind app]. rewrite len_nil, Z.add_0_r.
    destruct fuel; cbn [literal_bytes]; by rewrite literal_next_end.
  - destruct fuel as [|fuel]; [cbn in Hf; lia|]. cbn [literal_bytes].
    change (enc_literal (b :: l)) with (enc_byte b ++ enc_literal l). rewrite <- (app_assoc (enc_byte b)).
    rewrite literal_next_byte. rewrite app_assoc, <- len_app.
    rewrite IH by (cbn in Hf; lia). cbn. do 3 f_equal. rewrite !len_app. lia.
Qed.

(** A run is recognised when there are two literal bytes. *)
Lemma is_bytes_run_enc literal post :
  no_literal post -> is_bytes_run (enc_literal literal ++ post) = (2 <=? len literal).
Proof.
  intros Hp. unfold no_literal, is_bytes_run, get, enc_literal, enc_byte, OPCODE_PREFIX in *.
  change (Z.to_nat 0) with 0%nat. change (Z.to_nat 1) with 1%nat.
  change (Z.to_nat 2) with 2%nat. change (Z.to_nat 3) with 3%nat.
  destruct literal as [|a [|b l]]; cbn [mbind list_bind app].
  - destruct post as [|x [|y post]]; [done|by subst x|].
    destruct Hp as [-> Hy%Z.eqb_neq]. cbn. by rewrite Hy, ?andb_false_r.
  - destruct (a =? 170) eqn:Ea; bools; [subst a|apply Z.eqb_neq in Ea];
      (destruct post as [|x [|y post]]; [|subst x|destruct Hp as [-> Hy%Z.eqb_neq]]);
      cbn; rewrite ?Ea, ?Hy; done.
  - assert (2 <=? len (a :: b :: l) = true) as -> by (rewrite !len_cons; pose proof (len_nonneg l); lia).
    destruct (a =? 170) eqn:Ea, (b =? 170) eqn:Eb; cbn; rewrite ?Ea, ?Eb; done.
Qed.
End Items.

#[global] Arguments enc_items {_} _ : simpl never.
#[global] Arguments enc_literal _ : simpl never.
#[global] Arguments enc_offsets _ : simpl never.

(** The list implementation satisfies the laws. *)
Lemma lsb0_fill_testbit k b r j :
  0 <= j < 8 -> Z.testbit (lsb0_fill_byte k b r) j = in_range (8 * k + j) r || Z.testbit b j.
Proof.
  intros Hj. unfold lsb0_fill_byte.
  assert (H : forall l, Forall (fun x => 0 <= x) l ->
    Z.testbit (foldr (fun j b => if in_range (8 * k + j) r then Z.setbit b j else b) b l) j =
    bool_decide (j ∈ l) && in_range (8 * k + j) r || Z.testbit b j).
  { induction 1 as [|x l Hx _ IH]; [done|]. cbn [foldr].
    destruct (decide (x = j)) as [->|Hne].
    - rewrite (bool_decide_true (j ∈ j :: l)) by by left. cbn [andb].
      destruct (in_range _ _); [by rewrite Z.setbit_eq|].
      rewrite IH. by rewrite andb_false_r.
    - rewrite (bool_decide_ext (j ∈ x :: l) (j ∈ l)) by (rewrite elem_of_cons; naive_solver).
      destruct (in_range (8 * k + x) r); [rewrite Z.setbit_neq by done|]; done. }
  rewrite H.
  - by rewrite bool_decide_true by (apply elem_of_seqZ; lia).
  - apply Forall_forall. intros x Hx%elem_of_seqZ. lia.
Qed.

Lemma lsb0_fill_u8 k b r : is_u8 b -> is_u8 (lsb0_fill_byte k b r).
Proof.
  intros Hb. unfold lsb0_fill_byte.
  assert (H : forall l, Forall (fun x => 0 <= x < 8) l ->
    is_u8 (foldr (fun j b => if in_range (8 * k + j) r then Z.setbit b j else b) b l)).
  { induction 1 as [|x l Hx _ IH]; [done|]. cbn [foldr].
    destruct (in_range _ _); [|done]. unfold Z.setbit. apply lor_u8; [done|].
    rewrite Z.shiftl_1_l. unfold is_u8. split; [apply Z.pow_nonneg; lia|].
    apply (Z.pow_lt_mono_r 2 x 8); lia. }
  apply H, Forall_forall. intros x Hx%elem_of_seqZ. lia.
Qed.

Lemma get_fill bm r i :
  get ((fun kb => lsb0_fill_byte (fst kb) (snd kb) r) <$> enumerate bm) i =
  (fun b => lsb0_fill_byte i b r) <$> get bm i.
Proof.
  unfold get. destruct (i <? 0) eqn:E; bools; [done|].
  rewrite list_lookup_fmap, lookup_enumerate. destruct (bm !! Z.to_nat i); [|done].
  cbn. by rewrite Z2Nat.id by lia.
Qed.

#[export] Instance lsb0_BitSliceLaws : BitSliceLaws.
Proof.
  split; cbn [bs_get_unchecked bs_fill_true bs_iter_ones lsb0_BitSlice]; unfold lsb0_bit.
  - intros n i _. destruct (get _ _) as [b|] eqn:E; [|done].
    apply get_Some in E as [_ [-> _]%lookup_replicate]. apply Z.bits_0.
  - intros bm r. rewrite len_map. unfold len, enumerate, len.
    rewrite length_zip_with, length_seqZ. lia.
  - intros bm r H. rewrite Forall_fmap. apply Forall_forall. intros [k b] Hin. cbn.
    apply lsb0_fill_u8. apply elem_of_enumerate in Hin.
    rewrite Forall_forall in H. apply H, elem_of_get. by exists k.
  - intros bm r i H1 H2 Hi. rewrite get_fill.
    destruct (get_is_Some bm (i / 8)) as [b ->]; [lia_mod|]. cbn.
    rewrite lsb0_fill_testbit by (apply Z.mod_pos_bound; lia).
    by replace (8 * (i / 8) + i mod 8) with i by lia_mod.
  - intros bm i. rewrite list_elem_of_filter, elem_of_seqZ. rewrite Z.add_0_l. tauto.
Qed.
