(* ===== verification/PikeSeq.v ===== *)
(** [InstrSeq] of [lib/src/re/thompson/compiler.rs], the buffer in which the
    compiler emits code for the Pike virtual machine: emission of every kind of
    instruction, cloning of code with fresh identifiers for its split
    instructions, and patching of the offsets. *)

From Stdlib Require Import ZifyBool.
From S2P Require Import Prelude.
From S2P Require Import Re.
From S2P Require Import Cursor.
From S2P Require Import ByteClass.
From S2P Require Import PikeInstr.

Section InstrSeq.
Context {BS : BitSlice}.

Record InstrSeq := {
  seq_id : Z;
  seq : Cursor;
  split_id : SplitId;
}.

Definition instr_seq_new : InstrSeq := {| seq_id := 0; seq := cursor_new; split_id := 0 |}.

(** [InstrSeq::next] *)
Definition instr_seq_next (s : InstrSeq) : InstrSeq :=
  {| seq_id := wrap_usize (s.(seq_id) + 1); seq := cursor_new; split_id := s.(split_id) |}.

Definition as_slice (s : InstrSeq) : list Z := s.(seq).(seq_vec).

Definition location (s : InstrSeq) : Z := s.(seq).(seq_pos).

Definition with_seq (s : InstrSeq) (c : Cursor) : InstrSeq :=
  {| seq_id := s.(seq_id); seq := c; split_id := s.(split_id) |}.
Definition with_split_id (s : InstrSeq) (id : SplitId) : InstrSeq :=
  {| seq_id := s.(seq_id); seq := s.(seq); split_id := id |}.

(** [self.seq.write_all(bytes).unwrap()] *)
Definition put (bytes : list Z) (s : InstrSeq) : InstrSeq := with_seq s (write_all bytes s.(seq)).

Definition append (s other : InstrSeq) : InstrSeq := put (as_slice other) s.

(** The operations return the location of the new code. An error ends the
    compilation, so the state it leaves is not kept. *)
Definition emit_instr (instr : Z) (s : InstrSeq) : Error + (InstrSeq * Z) :=
  let loc := location s in
  let s := put [OPCODE_PREFIX; instr] s in
  if (instr =? Instr.SPLIT_A) || (instr =? Instr.SPLIT_B) then
    let s := put (split_id_to_le_bytes s.(split_id)) s in
    match split_id_add s.(split_id) 1 with
    | Some incremented => inr (put [0; 0; 0; 0] (with_split_id s incremented), loc)
    | None => inl TooLarge
    end
  else if instr =? Instr.JUMP then inr (put [0; 0; 0; 0] s, loc)
  else inr (s, loc).

Definition emit_split_n (n : Z) (s : InstrSeq) : Error + (InstrSeq * Z) :=
  let loc := location s in
  let s := put [OPCODE_PREFIX; Instr.SPLIT_N] s in
  let s := put (split_id_to_le_bytes s.(split_id)) s in
  match split_id_add s.(split_id) 1 with
  | Some incremented =>
      let s := put (to_le_bytes 1 n) (with_split_id s incremented) in
      inr (foldl (fun s _ => put [0; 0; 0; 0] s) s (seqZ 0 n), loc)
  | None => inl TooLarge
  end.

Definition emit_repeat (min max : Z) (greedy : bool) (s : InstrSeq) : InstrSeq * Z :=
  let loc := location s in
  let s := put [OPCODE_PREFIX; if greedy then Instr.REPEAT_GREEDY else Instr.REPEAT_NON_GREEDY] s in
  let s := put [0; 0; 0; 0] s in
  let s := put (to_le_bytes 4 min) s in
  let s := put (to_le_bytes 4 max) s in
  (s, loc).

Definition emit_masked_byte (b : HexByte) (s : InstrSeq) : InstrSeq * Z :=
  (put [OPCODE_PREFIX; Instr.MASKED_BYTE; b.(hb_value); b.(hb_mask)] s, location s).

Definition emit_class (c : list (Z * Z)) (s : InstrSeq) : InstrSeq * Z :=
  let loc := location s in
  if len c <? 16 then
    let s := put [OPCODE_PREFIX; Instr.CLASS_RANGES; wrap_u8 (len c)] s in
    (foldl (fun s range => put [fst range; snd range] s) s c, loc)
  else
    let bitmap := foldl bs_fill_true (replicate 32 0) c in
    let s := put [OPCODE_PREFIX; Instr.CLASS_BITMAP] s in
    (put bitmap s, loc).

Definition emit_literal (literal : list Z) (s : InstrSeq) : InstrSeq * Z :=
  (foldl (fun s b => if b =? OPCODE_PREFIX then put [b; b] s else put [b] s) s literal, location s).

(** The first loop of [update_split_ids]: the offset of every identifier in the
    code, with its new value. The length of the code is enough fuel. *)
Definition is_split (instr : Instr.t) : bool :=
  match instr with
  | Instr.SplitA _ _ | Instr.SplitB _ _ | Instr.SplitN _ _ => true
  | _ => false
  end.

Fixpoint new_split_ids (fuel : nat) (p : InstrParser) (id : SplitId) (offsets : list (Z * SplitId))
  : res (Error + (list (Z * SplitId) * SplitId)) :=
  match parser_next p with
  | None => Ret (inr (offsets, id))
  | Some next =>
      match fuel with
      | O => OutOfFuel
      | S fuel =>
          '(instr, offset, p') ← next;
          if is_split instr then
            match split_id_add id 1 with
            | Some incremented => new_split_ids fuel p' incremented (offsets ++ [(offset + 2, id)])
            | None => Ret (inl TooLarge)
            end
          else new_split_ids fuel p' id offsets
      end
  end.

(** [code[offset..offset + 2].copy_from_slice(bytes)] *)
Definition copy_split_id (o : Z * SplitId) (code : list Z) : res (list Z) :=
  let '(offset, id) := o in
  _ ← index_range code offset (offset + 2);
  Ret (slice_to code offset ++ split_id_to_le_bytes id ++ slice_from code (offset + 2)).

Definition update_split_ids (loc : Z) (s : InstrSeq) : res (Error + InstrSeq) :=
  let vec := s.(seq).(seq_vec) in
  code ← index_range vec loc (len vec);
  r ← new_split_ids (length code) (parser_new code) s.(split_id) [];
  match r with
  | inl e => Ret (inl e)
  | inr (offsets, id) =>
      code ← for_each offsets copy_split_id code;
      Ret (inr {| seq_id := s.(seq_id);
                  seq := {| seq_vec := slice_to vec loc ++ code; seq_pos := s.(seq).(seq_pos) |};
                  split_id := id |})
  end.

Definition emit_bytes (bytes : list Z) (s : InstrSeq) : res (Error + (InstrSeq * Z)) :=
  let loc := location s in
  r ← update_split_ids loc (put bytes s);
  Ret (match r with inl e => inl e | inr s => inr (s, loc) end).

(** [extend_from_within] adds at the end of the vector and does not move the
    cursor. *)
Definition extend_from_within (start stop : Z) (s : InstrSeq) : res InstrSeq :=
  code ← index_range (as_slice s) start stop;
  Ret (with_seq s {| seq_vec := as_slice s ++ code; seq_pos := location s |}).

Definition emit_clone (start stop : Z) (s : InstrSeq) : res (Error + (InstrSeq * Z)) :=
  let loc := location s in
  s ← extend_from_within start stop s;
  r ← update_split_ids loc s;
  match r with
  | inl e => Ret (inl e)
  | inr s => c ← seek_current (stop - start) s.(seq); Ret (inr (with_seq s c, loc))
  end.

(** * Patching *)

Definition patch_instr (loc : Z) (offset : Offset) (s : InstrSeq) : res InstrSeq :=
  let saved_loc := location s in
  '(buf, c) ← read_exact 2 (seek_start loc s.(seq));
  match buf with
  | [b0; b1] =>
      _ ← assert (b0 =? OPCODE_PREFIX);
      c ← (if (b1 =? Instr.JUMP) || (b1 =? Instr.REPEAT_GREEDY) || (b1 =? Instr.REPEAT_NON_GREEDY)
           then Ret c
           else if (b1 =? Instr.SPLIT_A) || (b1 =? Instr.SPLIT_B) then seek_current 2 c
           else Panic);
      Ret (with_seq s (seek_start saved_loc (write_all (i32_to_le_bytes offset) c)))
  | _ => Panic
  end.

Definition patch_split_n (loc : Z) (offsets : list Offset) (s : InstrSeq) : res InstrSeq :=
  let saved_loc := location s in
  '(opcode, c) ← read_exact (2 + 2) (seek_start loc s.(seq));
  match opcode with
  | b0 :: b1 :: _ =>
      _ ← assert (b0 =? OPCODE_PREFIX);
      _ ← assert (b1 =? Instr.SPLIT_N);
      '(buf, c) ← read_exact 1 c;
      let n := from_le_bytes buf in
      _ ← assert (n =? len offsets);
      Ret (with_seq s (seek_start saved_loc
             (foldl (fun c o => write_all (i32_to_le_bytes o) c) c offsets)))
  | _ => Panic
  end.

(** * Operations, as data

    [OpBytes] and [OpClone] take code, and [OpPatch] a location, as the source
    does. *)
Inductive Op : Type :=
  | OpInstr (instr : Z)
  | OpSplitN (n : Z)
  | OpRepeat (min max : Z) (greedy : bool)
  | OpMaskedByte (b : HexByte)
  | OpClass (c : list (Z * Z))
  | OpLiteral (literal : list Z)
  | OpBytes (bytes : list Z)
  | OpClone (start stop : Z)
  | OpPatch (loc : Z) (offset : Offset)
  | OpPatchSplitN (loc : Z) (offsets : list Offset).

(** The new state, and the location that the operations other than the patches
    return. *)
Definition exec_op (op : Op) (s : InstrSeq) : res (Error + (InstrSeq * option Z)) :=
  let wrap (r : Error + (InstrSeq * Z)) :=
    match r with inl e => inl e | inr (s, loc) => inr (s, Some loc) end in
  match op with
  | OpInstr instr => Ret (wrap (emit_instr instr s))
  | OpSplitN n => Ret (wrap (emit_split_n n s))
  | OpRepeat min max greedy => Ret (wrap (inr (emit_repeat min max greedy s)))
  | OpMaskedByte b => Ret (wrap (inr (emit_masked_byte b s)))
  | OpClass c => Ret (wrap (inr (emit_class c s)))
  | OpLiteral literal => Ret (wrap (inr (emit_literal literal s)))
  | OpBytes bytes => wrap <$> emit_bytes bytes s
  | OpClone start stop => wrap <$> emit_clone start stop s
  | OpPatch loc offset => (fun s => inr (s, None)) <$> patch_instr loc offset s
  | OpPatchSplitN loc offsets => (fun s => inr (s, None)) <$> patch_split_n loc offsets s
  end.

Fixpoint exec_ops (ops : list Op) (s : InstrSeq) : res (Error + InstrSeq) :=
  match ops with
  | [] => Ret (inr s)
  | op :: ops =>
      r ← exec_op op s;
      match r with
      | inl e => Ret (inl e)
      | inr (s, _) => exec_ops ops s
      end
  end.

(** * The abstract sequence

    A list of instructions and the next identifier. [spec_op] says what an
    operation does to it; [None] is the error [TooLarge]. *)
Record ASeq := { a_items : list Item; a_split_id : SplitId }.

Definition a_append (a : ASeq) (items : list Item) : ASeq :=
  {| a_items := a.(a_items) ++ items; a_split_id := a.(a_split_id) |}.

(** One more split instruction. *)
Definition a_split (a : ASeq) (item : SplitId -> Item) : option ASeq :=
  if a.(a_split_id) <? SplitId_MAX
  then Some {| a_items := a.(a_items) ++ [item a.(a_split_id)]; a_split_id := a.(a_split_id) + 1 |}
  else None.

Definition set_id (it : Item) (id : SplitId) : option Item :=
  match it with
  | ISplit is_a _ offset => Some (ISplit is_a id offset)
  | ISplitN _ offsets => Some (ISplitN id offsets)
  | _ => None
  end.

(** Code that is copied: its split instructions get new identifiers. *)
Fixpoint a_copy (a : ASeq) (items : list Item) : option ASeq :=
  match items with
  | [] => Some a
  | it :: items =>
      a' ← match set_id it a.(a_split_id) with
           | Some _ => a_split a (fun id => default it (set_id it id))
           | None => Some (a_append a [it])
           end;
      a_copy a' items
  end.

Definition set_offset (it : Item) (offset : Offset) : option Item :=
  match it with
  | ISplit is_a id _ => Some (ISplit is_a id offset)
  | IRepeat greedy _ min max => Some (IRepeat greedy offset min max)
  | IJump _ => Some (IJump offset)
  | _ => None
  end.

Inductive spec_op : Op -> ASeq -> option ASeq -> Prop :=
  | spec_plain instr a :
      is_Some (plain_instr instr) ->
      spec_op (OpInstr instr) a (Some (a_append a [IPlain instr]))
  | spec_split (is_a : bool) a :
      spec_op (OpInstr (if is_a then Instr.SPLIT_A else Instr.SPLIT_B)) a
              (a_split a (fun id => ISplit is_a id 0))
  | spec_jump a : spec_op (OpInstr Instr.JUMP) a (Some (a_append a [IJump 0]))
  | spec_split_n n a :
      is_u8 n ->
      spec_op (OpSplitN n) a (a_split a (fun id => ISplitN id (replicate (Z.to_nat n) 0)))
  | spec_repeat min max greedy a :
      is_u32 min -> is_u32 max ->
      spec_op (OpRepeat min max greedy) a (Some (a_append a [IRepeat greedy 0 min max]))
  | spec_masked_byte b a :
      is_u8 b.(hb_value) -> is_u8 b.(hb_mask) ->
      spec_op (OpMaskedByte b) a (Some (a_append a [IMasked b.(hb_value) b.(hb_mask)]))
  | spec_class c a :
      canonical c -> spec_op (OpClass c) a (Some (a_append a [IClass c]))
  | spec_literal literal a :
      Forall is_u8 literal -> spec_op (OpLiteral literal) a (Some (a_append a (IByte <$> literal)))
  | spec_bytes items a :
      Forall item_ok items -> spec_op (OpBytes (enc_items items)) a (a_copy a items)
  | spec_clone pre items post a :
      a.(a_items) = pre ++ items ++ post ->
      spec_op (OpClone (len (enc_items pre)) (len (enc_items (pre ++ items)))) a (a_copy a items)
  | spec_patch pre it it' post offset a :
      a.(a_items) = pre ++ it :: post -> is_i32 offset -> set_offset it offset = Some it' ->
      spec_op (OpPatch (len (enc_items pre)) offset) a
              (Some {| a_items := pre ++ it' :: post; a_split_id := a.(a_split_id) |})
  | spec_patch_split_n pre id offsets' post offsets a :
      a.(a_items) = pre ++ ISplitN id offsets' :: post -> Forall is_i32 offsets ->
      len offsets = len offsets' ->
      spec_op (OpPatchSplitN (len (enc_items pre)) offsets) a
              (Some {| a_items := pre ++ ISplitN id offsets :: post; a_split_id := a.(a_split_id) |}).

Inductive spec_ops : list Op -> ASeq -> option ASeq -> Prop :=
  | spec_nil a : spec_ops [] a (Some a)
  | spec_error op ops a : spec_op op a None -> spec_ops (op :: ops) a None
  | spec_cons op ops a a' r : spec_op op a (Some a') -> spec_ops ops a' r -> spec_ops (op :: ops) a r.

(** The buffer holds the code of the instructions, and the cursor is at the
    end. *)
Record represents (s : InstrSeq) (a : ASeq) : Prop := {
  rep_code : s.(seq) = {| seq_vec := enc_items a.(a_items); seq_pos := len (enc_items a.(a_items)) |};
  rep_split_id : s.(split_id) = a.(a_split_id);
  rep_items : Forall item_ok a.(a_items);
  rep_bound : 0 <= a.(a_split_id) <= SplitId_MAX;
}.

Context {BSL : BitSliceLaws}.

(** * Lemmas *)

(** A cursor at the end of the vector. *)
Definition cur (l : list Z) : Cursor := {| seq_vec := l; seq_pos := len l |}.

Lemma write_all_cur bs l : write_all bs (cur l) = cur (l ++ bs).
Proof. by rewrite write_all_end. Qed.

Lemma enc_items_app l1 l2 : enc_items (l1 ++ l2) = enc_items l1 ++ enc_items l2.
Proof. apply bind_app. Qed.

Lemma enc_items_one it : enc_items [it] = enc it.
Proof. apply app_nil_r. Qed.

Lemma enc_items_bytes literal : enc_items (IByte <$> literal) = enc_literal literal.
Proof.
  induction literal as [|b l IH]; [done|].
  change (enc_byte b ++ enc_items (IByte <$> l) = enc_byte b ++ enc_literal l). by rewrite IH.
Qed.

Definition seq_of (id : Z) (l : list Z) (sid : SplitId) : InstrSeq :=
  {| seq_id := id; seq := cur l; split_id := sid |}.

Lemma put_cur bs id l sid : put bs (seq_of id l sid) = seq_of id (l ++ bs) sid.
Proof. unfold put, with_seq, seq_of. cbn [seq_id seq split_id]. by rewrite write_all_cur. Qed.

Lemma with_split_id_cur id l sid sid' : with_split_id (seq_of id l sid) sid' = seq_of id l sid'.
Proof. done. Qed.

Lemma foldl_put_cur {A} (f : A -> list Z) l vec id sid :
  foldl (fun s x => put (f x) s) (seq_of id vec sid) l = seq_of id (vec ++ (l ≫= f)) sid.
Proof.
  revert vec. induction l as [|x l IH]; intros vec; [by rewrite app_nil_r|].
  cbn [foldl]. by rewrite put_cur, IH, <- app_assoc.
Qed.

(** The result that the specification asks for. *)
Definition op_result (a : ASeq) (r : option ASeq) (out : Error + (InstrSeq * option Z)) : Prop :=
  match r, out with
  | None, inl e => e = TooLarge
  | Some a', inr (s', loc) =>
      represents s' a' /\ (forall l, loc = Some l -> l = len (enc_items a.(a_items)))
  | _, _ => False
  end.

Lemma op_result_append a items id :
  Forall item_ok a.(a_items) -> 0 <= a.(a_split_id) <= SplitId_MAX -> Forall item_ok items ->
  op_result a (Some (a_append a items))
    (inr (seq_of id (enc_items a.(a_items) ++ enc_items items) a.(a_split_id),
          Some (len (enc_items a.(a_items))))).
Proof.
  intros H1 H2 H3. split; [|by intros l [= <-]].
  split; cbn; [by rewrite enc_items_app|done|by apply Forall_app|done].
Qed.

Lemma split_id_add_1 id :
  0 <= id <= SplitId_MAX ->
  split_id_add id 1 = if id <? SplitId_MAX then Some (id + 1) else None.
Proof.
  unfold split_id_add, SplitId_MAX, SplitId_BITS, u16_MAX. change (Z.shiftl 1 13) with 8192.
  intros H. repeat case_match; bools; try done; lia.
Qed.

Lemma split_id_u16 id : 0 <= id <= SplitId_MAX -> is_u16 id.
Proof. unfold SplitId_MAX, SplitId_BITS, is_u16. change (Z.shiftl 1 13) with 8192. lia. Qed.

Lemma op_result_split a item id bytes :
  Forall item_ok a.(a_items) -> 0 <= a.(a_split_id) <= SplitId_MAX ->
  item_ok (item a.(a_split_id)) -> enc (item a.(a_split_id)) = bytes ->
  op_result a (a_split a item)
    (if a.(a_split_id) <? SplitId_MAX
     then inr (seq_of id (enc_items a.(a_items) ++ bytes) (a.(a_split_id) + 1),
               Some (len (enc_items a.(a_items))))
     else inl TooLarge).
Proof.
  intros H1 H2 H3 <-. unfold a_split. destruct (_ <? _) eqn:E; [|done]. bools.
  split; [|by intros l [= <-]].
  split; cbn; [by rewrite enc_items_app, enc_items_one|done| |lia].
  apply Forall_app. split; [done|by constructor].
Qed.

(** ** Emission *)

Lemma enc_offsets_zero (l : list Z) :
  enc_offsets (replicate (length l) 0) = (l ≫= fun _ => [0; 0; 0; 0]).
Proof.
  induction l as [|x l IH]; [done|]. cbn [length replicate mbind list_bind].
  change (enc_offsets (0 :: ?os)) with ([0; 0; 0; 0] ++ enc_offsets os). by rewrite IH.
Qed.

(** Emission at the end of the code. *)
Ltac put_simpl :=
  change (location (seq_of ?id ?l ?sid)) with (len l);
  repeat (rewrite put_cur || rewrite with_split_id_cur);
  change (split_id (seq_of ?id ?l ?sid)) with sid.

Lemma emit_instr_plain instr id l sid :
  is_Some (plain_instr instr) ->
  emit_instr instr (seq_of id l sid) = inr (seq_of id (l ++ [OPCODE_PREFIX; instr]) sid, len l).
Proof.
  intros [i Hi]. unfold emit_instr. put_simpl.
  assert ((instr =? Instr.SPLIT_A) || (instr =? Instr.SPLIT_B) = false /\ (instr =? Instr.JUMP) = false)
    as [-> ->]; [|done].
  unfold plain_instr in Hi. repeat case_match; bools; subst; done.
Qed.

Lemma emit_instr_split (is_a : bool) id l sid :
  0 <= sid <= SplitId_MAX ->
  emit_instr (if is_a then Instr.SPLIT_A else Instr.SPLIT_B) (seq_of id l sid) =
  if sid <? SplitId_MAX then inr (seq_of id (l ++ enc (ISplit is_a sid 0)) (sid + 1), len l)
  else inl TooLarge.
Proof.
  intros Hb. unfold emit_instr. put_simpl.
  assert (((if is_a then Instr.SPLIT_A else Instr.SPLIT_B) =? Instr.SPLIT_A)
    || ((if is_a then Instr.SPLIT_A else Instr.SPLIT_B) =? Instr.SPLIT_B) = true) as -> by by destruct is_a.
  rewrite split_id_add_1 by done. destruct (_ <? _); [|done].
  put_simpl. by rewrite <- !app_assoc.
Qed.

Lemma emit_instr_jump id l sid :
  emit_instr Instr.JUMP (seq_of id l sid) = inr (seq_of id (l ++ enc (IJump 0)) sid, len l).
Proof.
  unfold emit_instr. change ((Instr.JUMP =? Instr.SPLIT_A) || (Instr.JUMP =? Instr.SPLIT_B)) with false.
  change (Instr.JUMP =? Instr.JUMP) with true. cbn match. put_simpl. by rewrite <- app_assoc.
Qed.

Lemma emit_split_n_cur n id l sid :
  is_u8 n -> 0 <= sid <= SplitId_MAX ->
  emit_split_n n (seq_of id l sid) =
  if sid <? SplitId_MAX
  then inr (seq_of id (l ++ enc (ISplitN sid (replicate (Z.to_nat n) 0))) (sid + 1), len l)
  else inl TooLarge.
Proof.
  intros Hn Hb. unfold emit_split_n. put_simpl. rewrite split_id_add_1 by done.
  destruct (_ <? _); [|done]. put_simpl. rewrite foldl_put_cur, <- enc_offsets_zero, length_seqZ.
  cbn [enc]. rewrite <- !app_assoc. unfold is_u8 in Hn. unfold len at 2. rewrite length_replicate.
  rewrite Z2Nat.id by lia. cbn [to_le_bytes]. by rewrite Z.mod_small by lia.
Qed.

Lemma emit_class_cur c id l sid :
  emit_class c (seq_of id l sid) = (seq_of id (l ++ enc (IClass c)) sid, len l).
Proof.
  unfold emit_class. put_simpl. cbn [enc]. destruct (len c <? 16) eqn:E; bools.
  - rewrite (foldl_put_cur (fun range => [fst range; snd range])), <- app_assoc.
    unfold wrap_u8. by rewrite Z.mod_small by (pose proof (len_nonneg c); lia).
  - by rewrite <- app_assoc.
Qed.

Lemma emit_literal_cur literal id l sid :
  emit_literal literal (seq_of id l sid) = (seq_of id (l ++ enc_literal literal) sid, len l).
Proof.
  unfold emit_literal. put_simpl. unfold enc_literal. rewrite <- foldl_put_cur. apply (f_equal (fun x => (x, len l))).
  generalize (seq_of id l sid). induction literal as [|b literal IH]; intros s; [done|]. cbn [foldl].
  rewrite IH. f_equal. unfold enc_byte. by destruct (_ =? _).
Qed.

Lemma exec_emit_refines op s a r :
  represents s a -> spec_op op a r ->
  match op with
  | OpBytes _ | OpClone _ _ | OpPatch _ _ | OpPatchSplitN _ _ => True
  | _ => exists out, exec_op op s = Ret out /\ op_result a r out
  end.
Proof.
  destruct s as [id seq sid]. intros [Hc Hs Hi Hb]. cbn in Hc, Hs. subst sid. subst seq.
  change {| seq_id := id; seq := _; split_id := ?sid |} with (seq_of id (enc_items a.(a_items)) sid).
  pose proof (fun items => op_result_append a items id Hi Hb) as Ha.
  pose proof (fun item Hok => op_result_split a item id _ Hi Hb Hok eq_refl) as Hsp.
  destruct 1; try done; cbn [exec_op]; eexists; (split; [reflexivity|]).
  - rewrite emit_instr_plain by done. change [OPCODE_PREFIX; instr] with (enc (IPlain instr)).
    rewrite <- enc_items_one. apply Ha. by constructor.
  - rewrite emit_instr_split by done. specialize (Hsp (fun id => ISplit is_a id 0)).
    destruct (_ <? _); (apply Hsp; split; [by apply split_id_u16|done]).
  - rewrite emit_instr_jump, <- enc_items_one. apply Ha. by constructor.
  - rewrite emit_split_n_cur by done.
    specialize (Hsp (fun id => ISplitN id (replicate (Z.to_nat n) 0))).
    destruct (_ <? _); apply Hsp; 
      (split; [by apply split_id_u16|split; [|by apply Forall_replicate]]);
      unfold len, u8_MAX, is_u8 in *; rewrite length_replicate; lia.
  - unfold emit_repeat. put_simpl. rewrite <- !app_assoc.
    change ([OPCODE_PREFIX; _] ++ _ ++ _ ++ _) with (enc (IRepeat greedy 0 min max)).
    rewrite <- enc_items_one. apply Ha. by constructor.
  - unfold emit_masked_byte. put_simpl.
    change [OPCODE_PREFIX; _; _; _] with (enc (IMasked (hb_value b) (hb_mask b))).
    rewrite <- enc_items_one. apply Ha. by constructor.
  - rewrite emit_class_cur, <- enc_items_one. apply Ha. by constructor.
  - rewrite emit_literal_cur, <- enc_items_bytes. apply Ha. by apply Forall_fmap.
Qed.

(** ** Fresh identifiers *)

(** The items of [a_copy], on their own. *)
Fixpoint renumber (items : list Item) (id : SplitId) : option (list Item * SplitId) :=
  match items with
  | [] => Some ([], id)
  | it :: items =>
      match set_id it id with
      | Some it' =>
          if id <? SplitId_MAX
          then '(items', id') ← renumber items (id + 1); Some (it' :: items', id')
          else None
      | None => '(items', id') ← renumber items id; Some (it :: items', id')
      end
  end.

Lemma a_copy_renumber items a :
  a_copy a items =
  match renumber items a.(a_split_id) with
  | Some (items', id') => Some {| a_items := a.(a_items) ++ items'; a_split_id := id' |}
  | None => None
  end.
Proof.
  revert a. induction items as [|it items IH]; intros a.
  - cbn. rewrite app_nil_r. by destruct a.
  - cbn [a_copy renumber]. destruct (set_id it (a_split_id a)) as [it'|] eqn:E.
    + unfold a_split. destruct (_ <? _); [|done]. rewrite E. cbn [mbind option_bind default].
      rewrite IH. cbn [a_items a_split_id]. destruct (renumber items _) as [[items' id']|]; [|done].
      cbn. by rewrite <- app_assoc.
    + cbn [mbind option_bind]. rewrite IH. cbn [a_items a_split_id a_append].
      destruct (renumber items _) as [[items' id']|]; [|done]. cbn. by rewrite <- app_assoc.
Qed.

Lemma set_id_enc it id it' :
  set_id it id = Some it' ->
  exists op old rest, enc it = [OPCODE_PREFIX; op] ++ split_id_to_le_bytes old ++ rest /\
                      enc it' = [OPCODE_PREFIX; op] ++ split_id_to_le_bytes id ++ rest.
Proof.
  destruct it as [| | | |is_a old o|old os| |]; cbn [set_id]; try done; intros [= <-];
    do 3 eexists; split; reflexivity.
Qed.

Lemma set_id_ok it id it' : set_id it id = Some it' -> is_u16 id -> item_ok it -> item_ok it'.
Proof. destruct it; cbn [set_id]; try done; intros [= <-] Hid; cbn [item_ok]; naive_solver. Qed.

Lemma set_id_split it id : is_split (instr_of it) = bool_decide (is_Some (set_id it id)).
Proof.
  destruct it as [op| | |rs|[]| |[]|]; cbn; try done; [|by case_match].
  destruct (plain_instr op) as [i|] eqn:E; [|done]. unfold plain_instr in E.
  repeat case_match; by simplify_eq.
Qed.

Lemma copy_split_id_enc pre it id it' post :
  set_id it id = Some it' ->
  copy_split_id (len pre + 2, id) (pre ++ enc it ++ post) = Ret (pre ++ enc it' ++ post) /\
  len (enc it') = len (enc it).
Proof.
  intros (op & old & rest & -> & ->)%set_id_enc. split; [|by rewrite !len_app].
  unfold copy_split_id. rewrite <- !app_assoc.
  rewrite (app_assoc pre). set (pre' := pre ++ [OPCODE_PREFIX; op]).
  assert (len pre + 2 = len pre') as -> by (unfold pre'; rewrite len_app, !len_cons, len_nil; lia).
  rewrite (index_range_app pre' (split_id_to_le_bytes old)) by done. cbn [mbind res_bind].
  rewrite slice_to_app, (app_assoc pre' (split_id_to_le_bytes old)).
  replace (len pre' + 2) with (len (pre' ++ split_id_to_le_bytes old)) by (by rewrite len_app).
  rewrite slice_from_app. unfold pre'. by rewrite <- !app_assoc.
Qed.

Lemma new_split_ids_enc items fuel addr id offs :
  Forall item_ok items -> 0 <= id <= SplitId_MAX -> (length items <= fuel)%nat ->
  match renumber items id with
  | None => new_split_ids fuel {| ip_code := enc_items items; ip_addr := addr |} id offs = Ret (inl TooLarge)
  | Some (items', id') =>
      Forall item_ok items' /\ 0 <= id' <= SplitId_MAX /\ len (enc_items items') = len (enc_items items) /\
      exists offs', new_split_ids fuel {| ip_code := enc_items items; ip_addr := addr |} id offs
                    = Ret (inr (offs ++ offs', id')) /\
        forall pre, len pre = addr ->
          for_each offs' copy_split_id (pre ++ enc_items items) = Ret (pre ++ enc_items items')
  end.
Proof.
  intros HF. revert fuel addr id offs. induction HF as [|it items Hok _ IH]; intros fuel addr id offs Hid Hf.
  - cbn [renumber]. split_and!; [done|lia|lia|done|]. exists []. rewrite app_nil_r. by destruct fuel.
  - destruct fuel as [|fuel]; [cbn in Hf; lia|]. cbn [renumber new_split_ids].
    change (enc_items (it :: items)) with (enc it ++ enc_items items).
    rewrite parser_next_enc by done. cbn [mbind res_bind]. rewrite (set_id_split it id).
    destruct (set_id it id) as [it'|] eqn:E.
    + rewrite bool_decide_true by done. rewrite split_id_add_1 by done.
      destruct (id <? SplitId_MAX) eqn:El; bools; [|done].
      specialize (IH fuel (addr + len (enc it)) (id + 1) (offs ++ [(addr + 2, id)])).
      cbn [mbind option_bind]. destruct (renumber items (id + 1)) as [[items' id']|];
        [|apply IH; [lia|cbn in Hf; lia]].
      destruct IH as (Hok' & Hid' & Hlen & offs' & -> & Hfor); [lia|cbn in Hf; lia|].
      pose proof (fun pre => copy_split_id_enc pre it id it' (enc_items items) E) as Hcopy.
      split; [|split; [done|split]].
      * constructor; [|done]. by eapply set_id_ok, Hok; [|apply split_id_u16].
      * change (enc_items (it' :: items')) with (enc it' ++ enc_items items').
        rewrite !len_app, Hlen. by rewrite (proj2 (Hcopy [])).
      * exists ((addr + 2, id) :: offs'). rewrite <- app_assoc. split; [done|].
        intros pre <-. cbn [for_each]. destruct (Hcopy pre) as [-> Hl]. cbn [mbind res_bind].
        change (enc_items (it' :: items')) with (enc it' ++ enc_items items').
        rewrite !app_assoc. rewrite Hfor; [done|]. by rewrite len_app, Hl.
    + rewrite bool_decide_false by by intros [? ?].
      specialize (IH fuel (addr + len (enc it)) id offs).
      cbn [mbind option_bind]. destruct (renumber items id) as [[items' id']|];
        [|apply IH; [lia|cbn in Hf; lia]].
      destruct IH as (Hok' & Hid' & Hlen & offs' & -> & Hfor); [lia|cbn in Hf; lia|].
      split; [by constructor|split; [done|split]].
      * change (enc_items (it :: items')) with (enc it ++ enc_items items').
        by rewrite !len_app, Hlen.
      * exists offs'. split; [done|]. intros pre <-.
        change (enc_items (it :: items')) with (enc it ++ enc_items items'). rewrite !app_assoc. apply Hfor. by rewrite len_app.
Qed.

Lemma index_range_tail {A} (pre post : list A) :
  index_range (pre ++ post) (len pre) (len (pre ++ post)) = Ret post.
Proof.
  pose proof (index_range_app pre post [] _ (len (pre ++ post)) eq_refl) as H.
  rewrite app_nil_r in H. apply H. apply len_app.
Qed.

Lemma update_split_ids_enc pre items sq pos id :
  Forall item_ok items -> 0 <= id <= SplitId_MAX ->
  match renumber items id with
  | None => update_split_ids (len pre)
      {| seq_id := sq; seq := {| seq_vec := pre ++ enc_items items; seq_pos := pos |}; split_id := id |} =
      Ret (inl TooLarge)
  | Some (items', id') =>
      Forall item_ok items' /\ 0 <= id' <= SplitId_MAX /\ len (enc_items items') = len (enc_items items) /\
      update_split_ids (len pre)
        {| seq_id := sq; seq := {| seq_vec := pre ++ enc_items items; seq_pos := pos |}; split_id := id |} =
      Ret (inr {| seq_id := sq; seq := {| seq_vec := pre ++ enc_items items'; seq_pos := pos |};
                  split_id := id' |})
  end.
Proof.
  intros Hok Hid. unfold update_split_ids. cbn [seq seq_vec seq_id seq_pos split_id].
  rewrite index_range_tail. cbn [mbind res_bind]. unfold parser_new.
  pose proof (new_split_ids_enc items (length (enc_items items)) 0 id [] Hok Hid
                (length_enc_items items)) as H.
  destruct (renumber items id) as [[items' id']|].
  - destruct H as (H1 & H2 & H3 & offs & -> & Hfor). split_and!; try done; try lia.
    specialize (Hfor [] eq_refl). cbn [mbind res_bind app] in *. rewrite Hfor. cbn [mbind res_bind].
    by rewrite slice_to_app.
  - by rewrite H.
Qed.

Lemma exec_copy_refines op s a r :
  represents s a -> spec_op op a r ->
  match op with
  | OpBytes _ | OpClone _ _ => exists out, exec_op op s = Ret out /\ op_result a r out
  | _ => True
  end.
Proof.
  destruct s as [id seq sid]. intros [Hc Hs Hi Hb]. cbn in Hc, Hs. subst sid. subst seq.
  destruct 1 as [| | | | | | | |items|pre items post a Ha| |]; try done; cbn [exec_op]; rewrite a_copy_renumber.
  - unfold emit_bytes, put, with_seq, location. cbn [seq_id seq split_id seq_pos].
    change {| seq_vec := ?l; seq_pos := len ?l |} with (cur l). rewrite write_all_cur. unfold cur.
    pose proof (update_split_ids_enc (enc_items (a_items a)) items id
                  (len (enc_items (a_items a) ++ enc_items items)) (a_split_id a) H Hb) as Hu.
    destruct (renumber items _) as [[items' id']|].
    + destruct Hu as (H1 & H2 & H3 & ->). eexists. split; [reflexivity|]. split; [|by intros l [= <-]].
      split; cbn; [|done|by apply Forall_app|done].
      by rewrite enc_items_app, !len_app, H3.
    + rewrite Hu. eexists. by split.
  - assert (Forall item_ok items) as Hit by (rewrite Ha in Hi; by apply Forall_app in Hi as [_ [? _]%Forall_app]).
    unfold emit_clone, extend_from_within, as_slice, with_seq, location.
    cbn [seq_id seq split_id seq_pos seq_vec].
    assert (index_range (enc_items (a_items a)) (len (enc_items pre)) (len (enc_items (pre ++ items)))
            = Ret (enc_items items)) as ->.
    { rewrite Ha, !enc_items_app. apply index_range_app; [done|]. by rewrite len_app. }
    cbn [mbind res_bind seq_id seq split_id seq_pos seq_vec].
    pose proof (update_split_ids_enc (enc_items (a_items a)) items id (len (enc_items (a_items a)))
                  (a_split_id a) Hit Hb) as Hu.
    destruct (renumber items _) as [[items' id']|].
    + destruct Hu as (H1 & H2 & H3 & ->). unfold_res. unfold seek_current. cbn [seq_pos seq_vec].
      rewrite enc_items_app, len_app. pose proof (len_nonneg (enc_items items)) as Hn.
      pose proof (len_nonneg (enc_items (a_items a))) as Hn'.
      destruct (_ <? 0) eqn:E; bools; [lia|]. eexists. split; [reflexivity|].
      split; [|by intros l [= <-]]. split; cbn; [|done|by apply Forall_app|done].
      rewrite enc_items_app, len_app. f_equal. lia.
    + rewrite Hu. eexists. by split.
Qed.

(** ** Patching *)

Lemma set_offset_enc it offset it' :
  set_offset it offset = Some it' ->
  exists op (has_id : bool) id old rest,
    ((if has_id then (op =? Instr.SPLIT_A) || (op =? Instr.SPLIT_B)
      else (op =? Instr.JUMP) || (op =? Instr.REPEAT_GREEDY) || (op =? Instr.REPEAT_NON_GREEDY)) = true) /\
    (has_id = true -> (op =? Instr.JUMP) || (op =? Instr.REPEAT_GREEDY) || (op =? Instr.REPEAT_NON_GREEDY) = false) /\
    len id = (if has_id then 2 else 0) /\
    enc it = [OPCODE_PREFIX; op] ++ id ++ i32_to_le_bytes old ++ rest /\
    enc it' = [OPCODE_PREFIX; op] ++ id ++ i32_to_le_bytes offset ++ rest.
Proof.
  destruct it as [| | | |is_a id o| |g o min max|o]; cbn [set_offset]; try done; intros [= <-].
  - exists (if is_a then Instr.SPLIT_A else Instr.SPLIT_B), true, (split_id_to_le_bytes id), o, [].
    rewrite !app_nil_r. by destruct is_a.
  - exists (if g then Instr.REPEAT_GREEDY else Instr.REPEAT_NON_GREEDY), false, [], o,
      (to_le_bytes 4 min ++ to_le_bytes 4 max). by destruct g.
  - exists Instr.JUMP, false, [], o, []. rewrite !app_nil_r. done.
Qed.

Lemma set_offset_ok it offset it' :
  set_offset it offset = Some it' -> is_i32 offset -> item_ok it -> item_ok it'.
Proof. destruct it; cbn [set_offset]; try done; intros [= <-] Ho; cbn [item_ok]; naive_solver. Qed.

Lemma patch_instr_enc pre it it' offset post sq sid :
  set_offset it offset = Some it' ->
  patch_instr (len pre) offset (seq_of sq (pre ++ enc it ++ post) sid) =
    Ret (seq_of sq (pre ++ enc it' ++ post) sid) /\ len (enc it') = len (enc it).
Proof.
  intros (op & has_id & id & old & rest & Hop & Hno & Hid & -> & ->)%set_offset_enc.
  split; [|by rewrite !len_app].
  unfold patch_instr, seek_start. cbn [seq_of seq seq_vec cur]. rewrite <- !app_assoc.
  rewrite (read_exact_mid pre [OPCODE_PREFIX; op]) by done. cbn [mbind res_bind].
  rewrite Z.eqb_refl. cbn [assert mbind res_bind].
  set (pre' := pre ++ [OPCODE_PREFIX; op]).
  assert (len pre + 2 = len pre') as -> by (unfold pre'; rewrite len_app, !len_cons, len_nil; lia).
  set (pre2 := pre' ++ id).
  assert (forall K : Cursor -> res InstrSeq,
    (c ← (if (op =? Instr.JUMP) || (op =? Instr.REPEAT_GREEDY) || (op =? Instr.REPEAT_NON_GREEDY)
          then Ret {| seq_vec := pre ++ [OPCODE_PREFIX; op] ++ id ++ i32_to_le_bytes old ++ rest ++ post;
                      seq_pos := len pre' |}
          else if (op =? Instr.SPLIT_A) || (op =? Instr.SPLIT_B)
          then seek_current 2 {| seq_vec := pre ++ [OPCODE_PREFIX; op] ++ id ++ i32_to_le_bytes old ++ rest ++ post;
                      seq_pos := len pre' |}
          else Panic); K c) =
    K {| seq_vec := pre2 ++ i32_to_le_bytes old ++ rest ++ post; seq_pos := len pre2 |}) as HK.
  { intros K. unfold pre2, pre'. rewrite (len_app (_ ++ _) id), Hid, <- !app_assoc.
    pose proof (len_nonneg (pre ++ [OPCODE_PREFIX; op])). destruct has_id.
    - rewrite Hno, Hop by done. unfold seek_current. cbn [seq_pos seq_vec].
      destruct (_ <? 0) eqn:E; bools; [lia|done].
    - rewrite Hop, Z.add_0_r. done. }
  rewrite HK, write_all_patch by done. unfold seq_of, with_seq, cur. cbn. f_equal.
  unfold pre2, pre'. rewrite <- !app_assoc. do 2 f_equal.
  unfold len. rewrite !length_app. cbn. by rewrite !length_app.
Qed.

Lemma write_offsets offs old pre post :
  length offs = length old ->
  foldl (fun c o => write_all (i32_to_le_bytes o) c)
    {| seq_vec := pre ++ enc_offsets old ++ post; seq_pos := len pre |} offs =
  {| seq_vec := pre ++ enc_offsets offs ++ post; seq_pos := len pre + 4 * len offs |}.
Proof.
  revert old pre. induction offs as [|o offs IH]; intros [|o' old] pre Hl; try done.
  - cbn [foldl]. by rewrite (len_nil (A := Z)), Z.mul_0_r, Z.add_0_r.
  - cbn [foldl]. change (enc_offsets (?x :: ?l)) with (i32_to_le_bytes x ++ enc_offsets l).
    rewrite <- !app_assoc, write_all_patch by done. change (len (i32_to_le_bytes o)) with 4.
    assert (len pre + 4 = len (pre ++ i32_to_le_bytes o)) as -> by by rewrite len_app.
    rewrite app_assoc. rewrite IH by (cbn in Hl; lia). f_equal.
    + by rewrite <- app_assoc.
    + rewrite len_app, len_cons. change (len (i32_to_le_bytes o)) with 4. lia.
Qed.

Lemma patch_split_n_enc pre id offs' offs post sq sid :
  len offs = len offs' -> len offs <= u8_MAX ->
  patch_split_n (len pre) offs (seq_of sq (pre ++ enc (ISplitN id offs') ++ post) sid) =
    Ret (seq_of sq (pre ++ enc (ISplitN id offs) ++ post) sid) /\
  len (enc (ISplitN id offs)) = len (enc (ISplitN id offs')).
Proof.
  intros Hl Hu. cbn [enc]. rewrite !len_app, !len_enc_offsets, Hl, !len_cons. split; [|done].
  change (mbind (M := list) _ ?os) with (enc_offsets os).
  unfold patch_split_n, seek_start. cbn [seq_of seq seq_vec cur]. rewrite <- !app_assoc.
  rewrite (app_assoc [_; _]).
  set (hd := [OPCODE_PREFIX; Instr.SPLIT_N] ++ split_id_to_le_bytes id).
  rewrite (read_exact_mid pre hd) by done. cbn [mbind res_bind]. unfold hd at 1. cbn [app].
  rewrite !Z.eqb_refl. cbn [assert mbind res_bind].
  rewrite (app_assoc pre hd). assert (len pre + (2 + 2) = len (pre ++ hd)) as -> by by rewrite len_app.
  change (OPCODE_PREFIX :: Instr.SPLIT_N :: split_id_to_le_bytes id ++ ?x) with (hd ++ x).
  change (len offs' :: ?x) with ([len offs'] ++ x).
  rewrite (read_exact_mid (pre ++ hd) [len offs']) by done. cbn [mbind res_bind from_le_bytes].
  rewrite Z.mul_0_r, Z.add_0_r, Hl, Z.eqb_refl. cbn [assert mbind res_bind].
  rewrite (app_assoc (pre ++ hd)).
  assert (len (pre ++ hd) + 1 = len ((pre ++ hd) ++ [len offs'])) as -> by by rewrite (len_app (pre ++ hd)).
  rewrite write_offsets by (unfold len in Hl; lia).
  unfold seq_of, with_seq, cur. cbn [seq_id split_id seq_vec location seq seq_pos]. do 2 f_equal.
  rewrite <- !app_assoc. f_equal. unfold location. cbn [seq seq_pos]. rewrite !len_app. 
  pose proof (len_enc_offsets offs). pose proof (len_enc_offsets offs'). unfold enc_offsets. lia.
Qed.

Lemma exec_patch_refines op s a r :
  represents s a -> spec_op op a r ->
  match op with
  | OpPatch _ _ | OpPatchSplitN _ _ => exists out, exec_op op s = Ret out /\ op_result a r out
  | _ => True
  end.
Proof.
  destruct s as [sq seq sid]. intros [Hc Hs Hi Hb]. cbn in Hc, Hs. subst sid. subst seq.
  change {| seq_id := sq; seq := _; split_id := ?sid |} with (seq_of sq (enc_items a.(a_items)) sid).
  destruct 1 as [| | | | | | | | | |pre it it' post offset a Ha Ho Hset|pre id offs' post offs a Ha Ho Hl];
    try done; cbn [exec_op]; rewrite Ha in *; apply Forall_app in Hi as [Hpre [Hit Hpost]%Forall_cons].
  - rewrite (enc_items_app pre).
    destruct (patch_instr_enc (enc_items pre) it it' offset (enc_items post) sq (a_split_id a) Hset) as [Hp Hlen].
    change (enc_items (it :: post)) with (enc it ++ enc_items post). rewrite Hp.
    eexists. split; [reflexivity|]. split; [|done]. split; cbn; [|done| |done].
    + rewrite enc_items_app. done.
    + apply Forall_app. split; [done|]. constructor; [|done]. by eapply set_offset_ok.
  - destruct Hit as (Hid & Hn & Ho'). rewrite (enc_items_app pre).
    destruct (patch_split_n_enc (enc_items pre) id offs' offs (enc_items post) sq (a_split_id a) Hl) as [Hp Hlen];
      [lia|].
    change (enc_items (ISplitN id offs' :: post)) with (enc (ISplitN id offs') ++ enc_items post). rewrite Hp.
    eexists. split; [reflexivity|]. split; [|done]. split; cbn; [|done| |done].
    + rewrite enc_items_app. done.
    + apply Forall_app. split; [done|]. constructor; [|done]. cbn. split_and!; try done; try lia; apply Hid.
Qed.

(** Every operation does what the specification says. *)
Lemma exec_op_refines op s a r :
  represents s a -> spec_op op a r -> exists out, exec_op op s = Ret out /\ op_result a r out.
Proof.
  intros Hs Hop. pose proof (exec_emit_refines _ _ _ _ Hs Hop) as H1.
  pose proof (exec_copy_refines _ _ _ _ Hs Hop) as H2.
  pose proof (exec_patch_refines _ _ _ _ Hs Hop) as H3. by destruct op.
Qed.

Lemma exec_ops_refines ops s a r :
  represents s a -> spec_ops ops a r ->
  match r with
  | None => exec_ops ops s = Ret (inl TooLarge)
  | Some a' => exists s', exec_ops ops s = Ret (inr s') /\ represents s' a'
  end.
Proof.
  intros Hs H. revert s Hs. induction H as [a|op ops a Hop|op ops a a' r Hop _ IH]; intros s Hs.
  - by exists s.
  - destruct (exec_op_refines _ _ _ _ Hs Hop) as ([e|[s' loc]] & Ho & Hr); [|done].
    cbn [exec_ops]. rewrite Ho. cbn in Hr. by subst e.
  - destruct (exec_op_refines _ _ _ _ Hs Hop) as ([e|[s' loc]] & Ho & Hr); [done|].
    cbn [exec_ops]. rewrite Ho. apply IH, Hr.
Qed.

Definition a_new : ASeq := {| a_items := []; a_split_id := 0 |}.

Lemma represents_new : represents instr_seq_new a_new.
Proof. by split. Qed.

(** ** Identifiers are unique *)

Definition item_split_id (it : Item) : option SplitId :=
  match it with
  | ISplit _ id _ | ISplitN id _ => Some id
  | _ => None
  end.

Definition ids_ok (items : list Item) (next : SplitId) : Prop :=
  0 <= next /\ NoDup (omap item_split_id items) /\
  Forall (fun id => 0 <= id < next) (omap item_split_id items).

Lemma ids_ok_same items items' next :
  omap item_split_id items = omap item_split_id items' -> ids_ok items next -> ids_ok items' next.
Proof. unfold ids_ok. by intros ->. Qed.

Lemma ids_ok_app items items' next next' :
  next <= next' -> ids_ok items next ->
  NoDup (omap item_split_id items') -> Forall (fun id => 0 <= next <= id /\ id < next') (omap item_split_id items') ->
  ids_ok (items ++ items') next'.
Proof.
  intros Hle (H0 & H1 & H2) H3 H4. unfold ids_ok. rewrite omap_app. rewrite Forall_forall in *.
  split; [lia|]. split.
  - apply NoDup_app. split_and!; [done| |done]. intros x Hx%H2 Hx'%H4. lia.
  - intros x [Hx%H2|Hx%H4]%elem_of_app; lia.
Qed.

Lemma renumber_ids items id items' id' :
  0 <= id -> renumber items id = Some (items', id') ->
  id <= id' /\ NoDup (omap item_split_id items') /\
  Forall (fun x => 0 <= id <= x /\ x < id') (omap item_split_id items').
Proof.
  revert id items' id'. induction items as [|it items IH]; intros id items' id' Hid; cbn [renumber].
  - intros [= <- <-]. split; [lia|]. split; constructor.
  - destruct (set_id it id) as [it'|] eqn:E.
    + destruct (_ <? _); [|done]. destruct (renumber items (id + 1)) as [[l i]|] eqn:Er; [|done].
      cbn. intros [= <- <-]. apply IH in Er as (H1 & H2 & H3); [|lia].
      cbn [omap list_omap]. assert (item_split_id it' = Some id) as -> by by destruct it; simplify_eq/=.
      rewrite Forall_forall in H3. split; [lia|]. split.
      * constructor; [|done]. intros Hx%H3. lia.
      * constructor; [lia|]. apply Forall_forall. intros x Hx%H3. lia.
    + destruct (renumber items id) as [[l i]|] eqn:Er; [|done].
      cbn. intros [= <- <-]. cbn [omap list_omap]. assert (item_split_id it = None) as -> by by destruct it.
      by apply IH.
Qed.

Lemma set_offset_id it offset it' :
  set_offset it offset = Some it' -> item_split_id it' = item_split_id it.
Proof. destruct it; cbn [set_offset]; try done; by intros [= <-]. Qed.

Lemma spec_op_ids op a a' :
  spec_op op a (Some a') -> ids_ok a.(a_items) a.(a_split_id) -> ids_ok a'.(a_items) a'.(a_split_id).
Proof.
  intros H Ha. assert (0 <= a_split_id a) as Hn by apply Ha. remember (Some a') as r eqn:Hr.
  assert (Happ : forall items, omap item_split_id items = [] ->
            ids_ok (a_items a ++ items) (a_split_id a)).
  { intros items Hi. eapply ids_ok_app; [reflexivity|done| |]; rewrite Hi; constructor. }
  assert (Hsp : forall f, (forall id, item_split_id (f id) = Some id) ->
            a_split a f = Some a' -> ids_ok (a_items a') (a_split_id a')).
  { intros f Hf. unfold a_split. destruct (_ <? _); [|done]. intros [= <-]. cbn.
    eapply (ids_ok_app _ _ (a_split_id a)); [lia|done| |]; cbn; rewrite Hf.
    - apply NoDup_singleton.
    - constructor; [lia|constructor]. }
  assert (Hcopy : forall items, a_copy a items = Some a' -> ids_ok (a_items a') (a_split_id a')).
  { intros items. rewrite a_copy_renumber.
    destruct (renumber items (a_split_id a)) as [[items' id']|] eqn:E; [|done]. intros [= <-].
    apply renumber_ids in E as (H1 & H2 & H3); [|done]. by eapply ids_ok_app. }
  destruct H; try (by eapply Hsp; [|exact Hr]); try (by eapply Hcopy, Hr); injection Hr as <-;
    try (by apply Happ).
  - apply Happ. clear. by induction literal.
  - cbn. eapply ids_ok_same, Ha. rewrite H, !omap_app. cbn. by rewrite (set_offset_id _ _ _ H1).
  - cbn. eapply ids_ok_same, Ha. by rewrite H, !omap_app.
Qed.

Lemma spec_ops_ids ops a r :
  spec_ops ops a r -> ids_ok a.(a_items) a.(a_split_id) ->
  forall a', r = Some a' -> ids_ok a'.(a_items) a'.(a_split_id).
Proof.
  induction 1 as [a|op ops a Hop|op ops a a' r Hop _ IH]; intros Ha.
  - by intros a' [= <-].
  - done.
  - by apply IH, (spec_op_ids op a).
Qed.

(** * Properties *)

(** The instructions of an abstract sequence, with their addresses. *)
Definition decoded (items : list Item) : list (Instr.t * Z) :=
  (fun ia => (instr_of (fst ia), snd ia)) <$> with_addr items 0.

(** The identifiers of the split instructions of a piece of code. *)
Definition instr_split_id (instr : Instr.t) : option SplitId :=
  match instr with
  | Instr.SplitA id _ | Instr.SplitB id _ | Instr.SplitN id _ => Some id
  | _ => None
  end.

Definition instr_split_ids (instrs : list (Instr.t * Z)) : list SplitId :=
  omap (fun ia => instr_split_id (fst ia)) instrs.

Lemma instr_split_ids_decoded items :
  instr_split_ids (decoded items) = omap item_split_id items.
Proof.
  unfold instr_split_ids, decoded. generalize 0. induction items as [|it items IH]; intros addr; [done|].
  cbn [with_addr fmap list_fmap omap list_omap fst snd]. rewrite IH.
  assert (instr_split_id (instr_of it) = item_split_id it) as ->; [|done].
  destruct it as [op| | |rs|[]| |[]|]; cbn; try done; [|by case_match].
  destruct (plain_instr op) as [i|] eqn:E; [|done]. unfold plain_instr in E.
  repeat case_match; by simplify_eq.
Qed.

(** C31: the code that a sequence of operations of [InstrSeq] leaves in the
    buffer: any sequence of emissions, copies with fresh identifiers and patches
    applied to a new buffer ends without panics; it reports [TooLarge] exactly
    when the identifiers of the split instructions run out, and otherwise the
    decoder reads back from the code the instructions that the operations
    describe, with the addresses that the operations returned. *)
Theorem pike_code_roundtrip (ops : list Op) (r : option ASeq) :
  spec_ops ops a_new r ->
  match r with
  | None => exec_ops ops instr_seq_new = Ret (inl TooLarge)
  | Some a => exists s, exec_ops ops instr_seq_new = Ret (inr s) /\
                        parse_code (as_slice s) = Ret (decoded a.(a_items)) /\
                        location s = len (as_slice s) /\ s.(split_id) = a.(a_split_id)
  end.
Proof.
  intros H. pose proof (exec_ops_refines _ _ _ _ represents_new H) as He. destruct r as [a|]; [|done].
  destruct He as (s & -> & [Hc Hs Hi Hb]). exists s. unfold as_slice, location. rewrite Hc.
  split; [done|]. split; [by apply parse_code_enc|done].
Qed.

(** Every split instruction has an identifier of its own, which is what
    makes the closure computed by the virtual machine end: whatever sequence of
    emissions, copies and patches the compiler performs, the identifiers of the
    split instructions decoded from the resulting code are all different, and
    are below the size of the bit array in which the machine records them. *)
Theorem split_ids_unique (ops : list Op) (r : option ASeq) (s : InstrSeq) :
  spec_ops ops a_new r -> exec_ops ops instr_seq_new = Ret (inr s) ->
  exists instrs, parse_code (as_slice s) = Ret instrs /\ NoDup (instr_split_ids instrs) /\
                 Forall (fun id => 0 <= id < Z.shiftl 1 SplitId_BITS) (instr_split_ids instrs).
Proof.
  intros H He. pose proof (exec_ops_refines _ _ _ _ represents_new H) as Hr.
  destruct r as [a|]; [|by rewrite He in Hr].
  destruct Hr as (s' & Hs' & [Hc Hs Hi Hb]). rewrite He in Hs'. injection Hs' as <-.
  exists (decoded (a_items a)). unfold as_slice. rewrite Hc, instr_split_ids_decoded.
  split; [by apply parse_code_enc|].
  assert (ids_ok (a_items a_new) (a_split_id a_new)) as H0 by (split; [done|]; split; constructor).
  destruct (spec_ops_ids _ _ _ H H0 a eq_refl) as (_ & H1 & H2).
  split; [done|]. eapply Forall_impl; [exact H2|]. unfold SplitId_MAX in Hb. cbn. lia.
Qed.

(** Runs of literal bytes: for the code emitted for a literal, whatever
    instruction follows it, the decoder reports a run exactly when the literal
    has two bytes or more, escaped or not; the iterator of the run gives back
    the bytes of the literal and stops after consuming the whole code, whose
    length is the one computed by [literal_code_length]. *)
Theorem literal_run_exact (literal post : list Z) :
  literal <> [] -> no_literal post ->
  let code := as_slice (fst (emit_literal literal instr_seq_new)) ++ post in
  (if 2 <=? len literal
   then decode_instr code true = Ret (Instr.Bytes (literal_bytes_new code), 0)
   else decode_instr code true = decode_instr code false) /\
  exists it, literal_bytes (length literal) (literal_bytes_new code) = Ret (literal, it) /\
             literal_bytes_next it = (None, it) /\
             consumed it = literal_code_length literal /\
             slice_from code (consumed it) = post.
Proof.
  intros Hne Hp code. assert (code = enc_literal literal ++ post) as Hcode.
  { unfold code. change instr_seq_new with (seq_of 0 [] 0). by rewrite emit_literal_cur. }
  clearbody code. split.
  - destruct literal as [|b l]; [done|].
    assert (decode_instr code true = decode_literal code true /\
            decode_instr code false = decode_literal code false) as [-> ->].
    { rewrite Hcode. change (enc_literal (b :: l)) with (enc_byte b ++ enc_literal l).
      rewrite <- app_assoc. by rewrite !decode_instr_byte. }
    unfold decode_literal. assert (is_bytes_run code = (2 <=? len (b :: l))) as -> by (subst code; by apply is_bytes_run_enc).
    by destruct (2 <=? _).
  - subst code. eexists. split; [apply (literal_bytes_enc literal _ [] post Hp); lia|].
    cbn [app]. unfold consumed. cbn [lb_offset]. rewrite literal_code_length_spec.
    rewrite len_nil, Z.add_0_l. split; [by apply literal_next_end|]. split; [done|]. apply slice_from_app.
Qed.
End InstrSeq.

(** * Witnesses *)

(** [(a\xAA)*], an alternative with two branches, a copy of the first
    repetition and the final [Match]. *)
Definition example_ops : list Op :=
  [OpInstr Instr.SPLIT_A; OpLiteral [0x61; 0xAA]; OpInstr Instr.JUMP; OpPatch 11 (-11); OpPatch 0 17;
   OpSplitN 2; OpPatchSplitN 17 [13; 5]; OpClone 0 17; OpInstr Instr.MATCH].

Definition example_seq : ASeq :=
  {| a_items := [ISplit true 0 17; IByte 0x61; IByte 0xAA; IJump (-11); ISplitN 1 [13; 5];
                 ISplit true 2 17; IByte 0x61; IByte 0xAA; IJump (-11); IPlain Instr.MATCH];
     a_split_id := 3 |}.

Lemma spec_step op ops a r1 a' r :
  spec_op op a r1 -> r1 = Some a' -> spec_ops ops a' r -> spec_ops (op :: ops) a r.
Proof. intros H -> H'. by eapply spec_cons. Qed.

Lemma example_spec : spec_ops example_ops a_new (Some example_seq).
Proof.
  assert (is_i32 (-11) /\ is_i32 17 /\ is_i32 13 /\ is_i32 5 /\ is_u8 2) as (H1 & H2 & H3 & H4 & H5)
    by (unfold is_i32, is_u8; lia).
  eapply spec_step; [apply (spec_split true)|reflexivity|].
  eapply spec_step; [apply spec_literal; repeat constructor; done|reflexivity|].
  eapply spec_step; [apply spec_jump|reflexivity|].
  eapply spec_step; [by apply (spec_patch [ISplit true 0 0; IByte 0x61; IByte 0xAA] (IJump 0) (IJump (-11)) [])|reflexivity|].
  eapply spec_step; [by apply (spec_patch [] (ISplit true 0 0) (ISplit true 0 17)
                                 [IByte 0x61; IByte 0xAA; IJump (-11)])|reflexivity|].
  eapply spec_step; [by apply (spec_split_n 2)|reflexivity|].
  eapply spec_step; [apply (spec_patch_split_n [ISplit true 0 17; IByte 0x61; IByte 0xAA; IJump (-11)]
                              1 [0; 0] [] [13; 5]); [done|by repeat constructor|done]|reflexivity|].
  eapply spec_step; [by apply (spec_clone [] [ISplit true 0 17; IByte 0x61; IByte 0xAA; IJump (-11)]
                                 [ISplitN 1 [13; 5]])|reflexivity|].
  eapply spec_step; [by apply spec_plain|reflexivity|]. apply spec_nil.
Qed.

Lemma pike_code_roundtrip_witness :
  spec_ops example_ops a_new (Some example_seq) /\
  exists s, exec_ops example_ops instr_seq_new = Ret (inr s) /\
            parse_code (as_slice s) = Ret (decoded example_seq.(a_items)) /\
            location s = len (as_slice s) /\ s.(split_id) = 3.
Proof. split; [apply example_spec|apply (pike_code_roundtrip _ _ example_spec)]. Defined.

Lemma split_ids_unique_witness :
  exists s, exec_ops example_ops instr_seq_new = Ret (inr s) /\
  exists instrs, parse_code (as_slice s) = Ret instrs /\ NoDup (instr_split_ids instrs) /\
                 Forall (fun id => 0 <= id < Z.shiftl 1 SplitId_BITS) (instr_split_ids instrs).
Proof.
  eexists. split; [vm_compute; reflexivity|].
  apply (split_ids_unique example_ops (Some example_seq)); [apply example_spec|vm_compute; reflexivity].
Defined.

Lemma literal_run_exact_witness :
  let code := as_slice (fst (emit_literal [0xAA; 0x61] instr_seq_new)) ++ [OPCODE_PREFIX; Instr.MATCH] in
  decode_instr code true = Ret (Instr.Bytes (literal_bytes_new code), 0) /\
  exists it, literal_bytes 2 (literal_bytes_new code) = Ret ([0xAA; 0x61], it) /\
             literal_bytes_next it = (None, it) /\ consumed it = 3 /\
             slice_from code (consumed it) = [OPCODE_PREFIX; Instr.MATCH].
Proof. by apply (literal_run_exact [0xAA; 0x61] [OPCODE_PREFIX; Instr.MATCH]). Defined.
