(* ===== verification/PikeVM.v ===== *)
(** The Pike virtual machine, from [lib/src/re/thompson/pikevm.rs]: the epsilon
    closure, with the assertions on the surrounding bytes, and the main loop,
    with its fast path for runs of literal bytes. *)

From S2P Require Import Prelude.
From S2P Require Import PosSet.
From S2P Require Import Re.
From S2P Require Import Atoms.
From S2P Require Import PikeInstr.

(** * Assertions *)

Definition is_word_char (c : Z) : bool :=
  (c =? 95) || (is_ascii_alphabetic c || (48 <=? c) && (c <=? 57)).

Definition LF : Z := 0x0A.
Definition CR : Z := 0x0D.
Definition TAB : Z := 0x09.

(** The tests of the arms of [epsilon_closure], in the order of the source.
    [prev] and [curr] are the bytes before and after the position in the
    direction of the scan. *)
Definition start_matches (backwards : bool) (prev curr : option Z) : bool :=
  match backwards, prev, curr with
  | false, None, _ => true
  | true, _, None => true
  | _, _, _ => false
  end.

Definition end_matches (backwards : bool) (prev curr : option Z) : bool :=
  match backwards, prev, curr with
  | false, _, None => true
  | true, None, _ => true
  | _, _, _ => false
  end.

Definition line_start_matches (backwards : bool) (prev curr : option Z) : bool :=
  match backwards, prev, curr with
  | false, None, _ => true
  | false, Some p, None => (p =? LF) || (p =? CR)
  | false, Some p, Some c =>
      if p =? LF then negb (c =? CR) else if p =? CR then negb (c =? LF) else false
  | true, _, None => true
  | true, None, Some c => (c =? LF) || (c =? CR)
  | true, Some p, Some c =>
      if c =? LF then negb (p =? CR) else if c =? CR then negb (p =? LF) else false
  end.

Definition line_end_matches (backwards : bool) (prev curr : option Z) : bool :=
  match backwards, prev, curr with
  | false, _, None => true
  | false, None, Some c => (c =? LF) || (c =? TAB)
  | false, Some p, Some c =>
      if c =? LF then negb (p =? CR) else if c =? CR then negb (p =? LF) else false
  | true, None, _ => true
  | true, Some p, Some c =>
      if p =? LF then negb (c =? CR) else if p =? CR then negb (c =? LF) else false
  | true, Some _, None => false
  end.

Definition word_start_matches (backwards : bool) (prev curr : option Z) : bool :=
  match backwards, prev, curr with
  | false, Some p, Some c | true, Some c, Some p => negb (is_word_char p) && is_word_char c
  | false, None, Some c | true, Some c, None => is_word_char c
  | _, _, _ => false
  end.

Definition word_end_matches (backwards : bool) (prev curr : option Z) : bool :=
  match backwards, prev, curr with
  | false, Some p, Some c | true, Some c, Some p => is_word_char p && negb (is_word_char c)
  | false, Some p, None | true, Some p, None => is_word_char p
  | _, _, _ => false
  end.

Definition word_boundary_matches (prev curr : option Z) : bool :=
  match prev, curr with
  | Some p, Some c => negb (Bool.eqb (is_word_char p) (is_word_char c))
  | None, Some b | Some b, None => is_word_char b
  | None, None => false
  end.

(** The test of an instruction that is an assertion. *)
Definition assertion (instr : Instr.t) (backwards : bool) (prev curr : option Z) : option bool :=
  match instr with
  | Instr.Start => Some (start_matches backwards prev curr)
  | Instr.End => Some (end_matches backwards prev curr)
  | Instr.LineStart => Some (line_start_matches backwards prev curr)
  | Instr.LineEnd => Some (line_end_matches backwards prev curr)
  | Instr.WordStart => Some (word_start_matches backwards prev curr)
  | Instr.WordEnd => Some (word_end_matches backwards prev curr)
  | Instr.WordBoundary => Some (word_boundary_matches prev curr)
  | Instr.WordBoundaryNeg => Some (negb (word_boundary_matches prev curr))
  | _ => None
  end.

(** * The epsilon closure *)

(** A thread is an instruction pointer and a repetition count. *)
Notation Thread := (Z * Z)%type (only parsing).

(** [(ip as isize).saturating_add(offset).try_into().unwrap()] *)
Definition apply_offset (ip : Z) (offset : Offset) : res Z :=
  let target := Z.min i64_MAX (Z.max i64_MIN (wrap_isize ip + offset)) in
  if target <? 0 then Panic else Ret target.

(** [apply_offset(ip, instr_size.into())] *)
Definition next_ip (ip size : Z) : res Z := o ← offset_from_usize size; apply_offset ip o.

Section PikeVM.
Context {BS : BitSlice} {B : Type} {BV : BitVec B}.

(** The vector of threads is a stack: its last element is the head of the list. *)
Record EpsilonClosureState := {
  ec_threads : list Thread;
  executed_splits : B;
  dirty : bool;
}.

(** [BitArray<[usize; SplitId::MAX.div_ceil(usize::BITS)]>]: 128 words. *)
Definition EXECUTED_SPLITS_LEN : Z := (SplitId_MAX + 63) / 64 * 64.

Definition closure_state_new : EpsilonClosureState :=
  {| ec_threads := []; executed_splits := bv_repeat false EXECUTED_SPLITS_LEN; dirty := false |}.

Definition push (t : Thread) (st : EpsilonClosureState) : EpsilonClosureState :=
  {| ec_threads := t :: st.(ec_threads); executed_splits := st.(executed_splits); dirty := st.(dirty) |}.

Definition set_dirty (d : bool) (st : EpsilonClosureState) : EpsilonClosureState :=
  {| ec_threads := st.(ec_threads); executed_splits := st.(executed_splits); dirty := d |}.

(** [EpsilonClosureState::executed]; the bit is read unchecked. *)
Definition executed (split_id : SplitId) (st : EpsilonClosureState) : res (bool * EpsilonClosureState) :=
  let bits := if st.(dirty) then bv_repeat false (bv_len st.(executed_splits)) else st.(executed_splits) in
  match bv_get bits split_id with
  | None => Panic
  | Some e =>
      Ret (e, {| ec_threads := st.(ec_threads);
                 executed_splits := if e then bits else bv_set bits split_id true;
                 dirty := false |})
  end.

(** [if is_match { threads.push((apply_offset(ip, instr_size), rep_count)) }] *)
Definition push_next_if (b : bool) (ip size rep_count : Z) (st : EpsilonClosureState)
  : res EpsilonClosureState :=
  if b then n ← next_ip ip size; Ret (push (n, rep_count) st) else Ret st.

Definition push_offset_if (b : bool) (ip : Z) (offset : Offset) (rep_count : Z) (st : EpsilonClosureState)
  : res EpsilonClosureState :=
  if b then n ← apply_offset ip offset; Ret (push (n, rep_count) st) else Ret st.

Definition closure_push (ip rep_count : Z) (closure : list Thread) : list Thread :=
  if existsb (fun t => fst t =? ip) closure then closure else closure ++ [(ip, rep_count)].

(** The body of the loop, for a thread already removed from the stack. *)
Definition closure_step (code : list Z) (backwards : bool) (curr prev : option Z)
    (t : Thread) (st : EpsilonClosureState) (closure : list Thread)
  : res (EpsilonClosureState * list Thread) :=
  let '(ip, rep_count) := t in
  rest ← index_range code ip (len code);
  '(instr, instr_size) ← decode_instr rest false;
  match assertion instr backwards prev curr with
  | Some is_match => st ← push_next_if is_match ip instr_size rep_count st; Ret (st, closure)
  | None =>
      match instr with
      | Instr.SplitA id offset =>
          '(e, st) ← executed id st;
          if e : bool then Ret (st, closure)
          else
            st ← push_offset_if true ip offset rep_count st;
            st ← push_next_if true ip instr_size rep_count st;
            Ret (st, closure)
      | Instr.SplitB id offset =>
          '(e, st) ← executed id st;
          if e : bool then Ret (st, closure)
          else
            st ← push_next_if true ip instr_size rep_count st;
            st ← push_offset_if true ip offset rep_count st;
            Ret (st, closure)
      | Instr.SplitN id offsets =>
          '(e, st) ← executed id st;
          if e : bool then Ret (st, closure)
          else
            st ← for_each (split_offsets_rev offsets)
                   (fun offset st => push_offset_if true ip offset rep_count st) st;
            Ret (st, closure)
      | Instr.RepeatGreedy offset min max =>
          let rep_count := wrap_u32 (rep_count + 1) in
          st ← push_next_if (min <=? rep_count) ip instr_size 0 st;
          st ← push_offset_if (rep_count <? max) ip offset rep_count st;
          Ret (st, closure)
      | Instr.RepeatNonGreedy offset min max =>
          let rep_count := wrap_u32 (rep_count + 1) in
          st ← push_offset_if (rep_count <? max) ip offset rep_count st;
          st ← push_next_if (min <=? rep_count) ip instr_size 0 st;
          Ret (st, closure)
      | Instr.Jump offset => st ← push_offset_if true ip offset rep_count st; Ret (st, closure)
      | _ => Ret (st, closure_push ip rep_count closure)
      end
  end.

Fixpoint closure_loop (fuel : nat) (code : list Z) (backwards : bool) (curr prev : option Z)
    (st : EpsilonClosureState) (closure : list Thread) : res (EpsilonClosureState * list Thread) :=
  match st.(ec_threads) with
  | [] => Ret (st, closure)
  | t :: threads =>
      match fuel with
      | O => OutOfFuel
      | S fuel =>
          let st := {| ec_threads := threads; executed_splits := st.(executed_splits);
                       dirty := st.(dirty) |} in
          '(st, closure) ← closure_step code backwards curr prev t st closure;
          closure_loop fuel code backwards curr prev st closure
      end
  end.

Definition epsilon_closure (fuel : nat) (code : list Z) (start : CodeLoc) (rep_count : Z)
    (curr prev : option Z) (st : EpsilonClosureState) (closure : list Thread)
  : res (EpsilonClosureState * list Thread) :=
  closure_loop fuel code (backwards start) curr prev
    (set_dirty true (push (location start, rep_count) st)) closure.

(** * The input

    The iterators over the input: a slice, in some direction, or [WideIter]. *)
Inductive Input : Type :=
  | BytesInput (l : list Z)
  | WideInput (w : WideIter).

Definition input_next (i : Input) : option Z * Input :=
  match i with
  | BytesInput [] => (None, BytesInput [])
  | BytesInput (b :: l) => (Some b, BytesInput l)
  | WideInput w => let '(b, w) := wide_next w in (b, WideInput w)
  end.

(** The contents of the [error_pos] cell. *)
Definition input_error (i : Input) : option Z :=
  match i with BytesInput _ => None | WideInput w => w.(wi_error_pos) end.

(** * The machine *)

Record PikeVM := {
  vm_code : list Z;
  vm_threads : list Thread;
  vm_next_threads : list Thread;
  vm_scan_limit : Z;
  vm_cache : EpsilonClosureState;
}.

Definition pikevm_new (code : list Z) : PikeVM :=
  {| vm_code := code; vm_threads := []; vm_next_threads := []; vm_scan_limit := DEFAULT_SCAN_LIMIT;
     vm_cache := closure_state_new |}.

Definition scan_limit (limit : Z) (vm : PikeVM) : PikeVM :=
  {| vm_code := vm.(vm_code); vm_threads := vm.(vm_threads); vm_next_threads := vm.(vm_next_threads);
     vm_scan_limit := limit; vm_cache := vm.(vm_cache) |}.

(** The variables of [try_match_impl] that the loop over the threads changes;
    [acc] is the state of the callback. *)
Record Vars (C : Type) := {
  fwd_input : Input;
  curr_byte : option Z;
  next_byte : option Z;
  current_pos : Z;
  cache : EpsilonClosureState;
  next_threads : list Thread;
  acc : C;
}.
#[global] Arguments fwd_input {C} _.
#[global] Arguments curr_byte {C} _.
#[global] Arguments next_byte {C} _.
#[global] Arguments current_pos {C} _.
#[global] Arguments cache {C} _.
#[global] Arguments next_threads {C} _.
#[global] Arguments acc {C} _.

Section Loop.
Context {C : Type}.

Definition with_input (v : Vars C) (i : Input) (curr next : option Z) (pos : Z) : Vars C :=
  {| fwd_input := i; curr_byte := curr; next_byte := next; current_pos := pos;
     cache := v.(cache); next_threads := v.(next_threads); acc := v.(acc) |}.

Definition with_acc (v : Vars C) (c : C) : Vars C :=
  {| fwd_input := v.(fwd_input); curr_byte := v.(curr_byte); next_byte := v.(next_byte);
     current_pos := v.(current_pos); cache := v.(cache); next_threads := v.(next_threads); acc := c |}.

Definition with_threads (v : Vars C) (st : EpsilonClosureState) (l : list Thread) : Vars C :=
  {| fwd_input := v.(fwd_input); curr_byte := v.(curr_byte); next_byte := v.(next_byte);
     current_pos := v.(current_pos); cache := st; next_threads := l; acc := v.(acc) |}.

Definition byte_is (o : option Z) (test : Z -> bool) : bool :=
  match o with Some b => test b | None => false end.

(** [for expected_byte in lit_bytes.by_ref()]: the result says whether all the
    bytes matched. A run has at most as many bytes as the code. *)
Fixpoint match_rest (fuel : nat) (lit : LiteralBytesIter) (v : Vars C)
  : res (bool * LiteralBytesIter * Vars C) :=
  match literal_bytes_next lit with
  | (None, lit) => Ret (true, lit, v)
  | (Some expected_byte, lit) =>
      match fuel with
      | O => OutOfFuel
      | S fuel =>
          let '(curr, i) := input_next v.(fwd_input) in
          match curr with
          | Some b =>
              let v := with_input v i curr v.(next_byte) (v.(current_pos) + 1) in
              if b =? expected_byte then match_rest fuel lit v else Ret (false, lit, v)
          | None => Ret (false, lit, with_input v i curr v.(next_byte) v.(current_pos))
          end
      end
  end.

(** The arm for [Instr::Bytes]. *)
Definition match_bytes (lit : LiteralBytesIter) (v : Vars C) : res (bool * LiteralBytesIter * Vars C) :=
  match literal_bytes_next lit with
  | (None, lit) => Ret (false, lit, v)
  | (Some first, lit) =>
      if negb (byte_is v.(curr_byte) (fun b => b =? first)) then Ret (false, lit, v)
      else
        match literal_bytes_next lit with
        | (None, lit) => Ret (true, lit, v)
        | (Some second, lit) =>
            if negb (byte_is v.(next_byte) (fun b => b =? second)) then Ret (false, lit, v)
            else
              let v := with_input v v.(fwd_input) v.(next_byte) v.(next_byte) (v.(current_pos) + 1) in
              '(is_match, lit, v) ← match_rest (length lit.(lb_code)) lit v;
              if is_match : bool then
                let '(next, i) := input_next v.(fwd_input) in
                Ret (true, lit, with_input v i v.(curr_byte) next v.(current_pos))
              else Ret (false, lit, v)
        end
  end.

(** The test of the other instructions that consume a byte; [None] for the
    instructions that cannot appear in the list of threads. *)
Definition instr_test (instr : Instr.t) (b : Z) : option bool :=
  match instr with
  | Instr.AnyByte => Some true
  | Instr.Byte byte => Some (b =? byte)
  | Instr.MaskedByte byte mask => Some (Z.land b mask =? byte)
  | Instr.CaseInsensitiveChar byte => Some (to_ascii_lowercase b =? byte)
  | Instr.ClassBitmap class => Some (class_bitmap_contains class b)
  | Instr.ClassRanges class => Some (class_ranges_contains class b)
  | _ => None
  end.

(** [C::from(ip + instr_size)] and the closure from there. *)
Definition advance (fuel : nat) (code : list Z) (start : CodeLoc) (ip instr_size rep_count : Z) (v : Vars C)
  : res (Vars C) :=
  loc ← from_same start (ip + instr_size);
  '(st, l) ← epsilon_closure fuel code loc rep_count v.(next_byte) v.(curr_byte) v.(cache) v.(next_threads);
  Ret (with_threads v st l).

(** One thread; the boolean says that the callback stopped the loop. *)
Definition exec_thread (fuel : nat) (code : list Z) (start : CodeLoc) (decode_literal_runs : bool)
    (f : Input -> C -> Z -> C * Action) (t : Thread) (v : Vars C) : res (Vars C * bool) :=
  let '(ip, rep_count) := t in
  rest ← index_range code ip (len code);
  '(instr, instr_size) ← decode_instr rest decode_literal_runs;
  match instr with
  | Instr.Bytes lit =>
      '(is_match, lit, v) ← match_bytes lit v;
      if is_match : bool
      then v ← advance fuel code start ip (consumed lit) rep_count v; Ret (v, false)
      else Ret (v, false)
  | Instr.Match =>
      let '(c, action) := f v.(fwd_input) v.(acc) v.(current_pos) in
      Ret (with_acc v c, bool_decide (action = Stop))
  | _ =>
      is_match ← or_panic (match instr_test instr (default 0 v.(curr_byte)) with
                           | Some b => Some (bool_decide (is_Some v.(curr_byte)) && b)
                           | None => None
                           end);
      if is_match : bool
      then v ← advance fuel code start ip instr_size rep_count v; Ret (v, false)
      else Ret (v, false)
  end.

(** An iteration of [while]. [runs] is true in the source; with [runs] false
    the optimization for runs of literal bytes is disabled. *)
Definition exec_threads (runs : bool) (fuel : nat) (code : list Z) (start : CodeLoc)
    (f : Input -> C -> Z -> C * Action) (threads : list Thread) (v : Vars C) : res (Vars C) :=
  let '(next, i) := input_next v.(fwd_input) in
  let v := with_input v i v.(curr_byte) next v.(current_pos) in
  let decode_literal_runs := runs && (len threads =? 1) in
  '(v, _) ← for_each_until threads (exec_thread fuel code start decode_literal_runs f) v;
  Ret (with_input v v.(fwd_input) v.(next_byte) v.(next_byte) (v.(current_pos) + 1)).

(** The loop. The position grows in every iteration until the limit is
    reached. The result has the threads left, which the source keeps in the
    machine. *)
Fixpoint run_threads (runs : bool) (steps fuel : nat) (code : list Z) (start : CodeLoc) (limit : Z)
    (f : Input -> C -> Z -> C * Action) (threads : list Thread) (v : Vars C) : res (Vars C) :=
  match threads with
  | [] => Ret v
  | _ =>
      match steps with
      | O => OutOfFuel
      | S steps =>
          v ← exec_threads runs fuel code start f threads v;
          let threads := v.(next_threads) in
          let v := with_threads v v.(cache) [] in
          if limit <=? v.(current_pos) then Ret v
          else run_threads runs steps fuel code start limit f threads v
      end
  end.

Definition try_match_impl (runs : bool) (fuel : nat) (vm : PikeVM) (start : CodeLoc)
    (fwd bck : Input) (f : Input -> C -> Z -> C * Action) (c : C) : res (PikeVM * C) :=
  let '(curr, fwd) := input_next fwd in
  _ ← assert (match vm.(vm_threads) with [] => true | _ => false end);
  '(st, threads) ← epsilon_closure fuel vm.(vm_code) start 0 curr (fst (input_next bck))
                     vm.(vm_cache) vm.(vm_threads);
  v ← run_threads runs (S (Z.to_nat vm.(vm_scan_limit))) fuel vm.(vm_code) start vm.(vm_scan_limit) f threads
        {| fwd_input := fwd; curr_byte := curr; next_byte := None; current_pos := 0;
           cache := st; next_threads := vm.(vm_next_threads); acc := c |};
  Ret ({| vm_code := vm.(vm_code); vm_threads := []; vm_next_threads := v.(next_threads);
          vm_scan_limit := vm.(vm_scan_limit); vm_cache := v.(cache) |}, v.(acc)).

(** The callback that wide scans pass to [try_match_impl]. *)
Definition wide_callback (f : C -> Z -> C * Action) (i : Input) (c : C) (match_len : Z) : C * Action :=
  match input_error i with
  | Some pos => if pos <? match_len then (c, Stop) else f c (match_len * 2)
  | None => f c (match_len * 2)
  end.

Definition try_match (runs : bool) (fuel : nat) (vm : PikeVM) (start : CodeLoc) (right left : list Z)
    (wide : bool) (f : C -> Z -> C * Action) (c : C) : res (PikeVM * C) :=
  match backwards start, wide with
  | false, false =>
      try_match_impl runs fuel vm start (BytesInput right) (BytesInput (reverse left)) (fun _ => f) c
  | false, true =>
      try_match_impl runs fuel vm start (WideInput (non_zero_first right))
        (WideInput (zero_first (reverse left))) (wide_callback f) c
  | true, false =>
      try_match_impl runs fuel vm start (BytesInput (reverse left)) (BytesInput right) (fun _ => f) c
  | true, true =>
      try_match_impl runs fuel vm start (WideInput (zero_first (reverse left)))
        (WideInput (non_zero_first right)) (wide_callback f) c
  end.
End Loop.
End PikeVM.
