(* ===== verification/Hir.v ===== *)
(** The intermediate representation of patterns, from [lib/src/re/hir.rs]: byte
    classes that stand for masked bytes, the split of a pattern at its large
    gaps, and the extraction of a masked literal with its atoms.

    The tree is the one of the [regex_syntax] crate, whose constructors the
    source matches on; what the crate computes ([concat], [minimum_len], the
    union of byte classes) is a parameter, with its documented laws. *)

From S2P Require Import Prelude.
From S2P Require Import Atoms.
From S2P Require Import Quality.
From S2P Require Import ByteClass.

(** * The tree *)

Inductive Look : Type :=
  | Start | End | StartLF | EndLF | StartCRLF | EndCRLF
  | WordAscii | WordAsciiNegate | WordUnicode | WordUnicodeNegate
  | WordStartAscii | WordEndAscii | WordStartUnicode | WordEndUnicode
  | WordStartHalfAscii | WordEndHalfAscii | WordStartHalfUnicode | WordEndHalfUnicode.

(** The ranges [(lo, hi)] of a class are inclusive. *)
Inductive HirClass : Type :=
  | ClassBytes (ranges : list (Z * Z))
  | ClassUnicode (ranges : list (Z * Z)).

Inductive Hir : Type :=
  | HEmpty
  | HLiteral (bytes : list Z)
  | HClass (class : HirClass)
  | HLook (look : Look)
  | HRepetition (min : Z) (max : option Z) (greedy : bool) (sub : Hir)
  | HCapture (sub : Hir)
  | HConcat (subs : list Hir)
  | HAlternation (subs : list Hir).

(** Induction with hypotheses for the elements of the lists. *)
Section Induction.
Variable P : Hir -> Prop.
Hypothesis P_empty : P HEmpty.
Hypothesis P_literal : forall bs, P (HLiteral bs).
Hypothesis P_class : forall c, P (HClass c).
Hypothesis P_look : forall l, P (HLook l).
Hypothesis P_repetition : forall min max g h, P h -> P (HRepetition min max g h).
Hypothesis P_capture : forall h, P h -> P (HCapture h).
Hypothesis P_concat : forall hs, Forall P hs -> P (HConcat hs).
Hypothesis P_alternation : forall hs, Forall P hs -> P (HAlternation hs).

Fixpoint hir_ind (h : Hir) : P h :=
  let fix all (hs : list Hir) : Forall P hs :=
    match hs with
    | [] => Forall_nil_2 P
    | h :: hs => Forall_cons_2 P h hs (hir_ind h) (all hs)
    end in
  match h with
  | HEmpty => P_empty
  | HLiteral bs => P_literal bs
  | HClass c => P_class c
  | HLook l => P_look l
  | HRepetition min max g h => P_repetition min max g h (hir_ind h)
  | HCapture h => P_capture h (hir_ind h)
  | HConcat hs => P_concat hs (all hs)
  | HAlternation hs => P_alternation hs (all hs)
  end.
End Induction.

(** * What a pattern matches *)

(** A range of positions of the data. *)
Definition span (data : list Z) (i j : Z) : Prop := 0 <= i /\ i <= j /\ j <= len data.

(** A chain of matches from [i] to [j]. *)
Fixpoint seq_match (data : list Z) (rs : list (Z -> Z -> Prop)) (i j : Z) : Prop :=
  match rs with
  | [] => i = j /\ span data i j
  | r :: rs => exists k, span data i k /\ r i k /\ seq_match data rs k j
  end.

(** Assertions look at the data around the position; Unicode classes match the
    encoding of a character. Both are left open. *)
Class HirSemantics := {
  look_matches : Look -> list Z -> Z -> Prop;
  unicode_matches : list (Z * Z) -> list Z -> Prop;
}.

Section Semantics.
Context {HS : HirSemantics}.

(** [hmatch h data i j]: the pattern matches the bytes from [i] to [j]. *)
Fixpoint hmatch (h : Hir) (data : list Z) (i j : Z) : Prop :=
  match h with
  | HEmpty => i = j /\ span data i j
  | HLiteral bs => get_range data i j = Some bs
  | HClass (ClassBytes rs) => exists b, get_range data i j = Some [b] /\ in_class b rs = true
  | HClass (ClassUnicode rs) => exists w, get_range data i j = Some w /\ unicode_matches rs w
  | HLook l => i = j /\ span data i j /\ look_matches l data i
  | HRepetition min max _ sub =>
      exists n : nat, min <= Z.of_nat n /\ (forall m, max = Some m -> Z.of_nat n <= m) /\
        seq_match data (replicate n (hmatch sub data)) i j
  | HCapture sub => hmatch sub data i j
  | HConcat subs => seq_match data (map (fun sub => hmatch sub data) subs) i j
  | HAlternation subs => Exists (fun r => r i j) (map (fun sub => hmatch sub data) subs)
  end.
End Semantics.

(** * Classes *)

(** [any_byte]: [char::MAX] is U+10FFFF. *)
Definition any_byte (h : Hir) : bool :=
  match h with
  | HClass (ClassBytes ranges) =>
      match head ranges with Some (lo, hi) => (lo =? 0) && (hi =? u8_MAX) | None => false end
  | HClass (ClassUnicode ranges) =>
      match head ranges with Some (lo, hi) => (lo =? 0) && (hi =? 0x10FFFF) | None => false end
  | _ => false
  end.

Definition any_byte_except_newline (h : Hir) : bool :=
  match h with
  | HClass (ClassBytes ranges) => bool_decide ([(0x00, 0x09); (0x0B, 0xFF)] = ranges)
  | HClass (ClassUnicode ranges) => bool_decide ([(0x00, 0x09); (0x0B, 0x10FFFF)] = ranges)
  | _ => false
  end.

(** * The functions of [regex_syntax] *)

Class RegexSyntax := {
  syntax_concat : list Hir -> Hir;
  syntax_repetition : Z -> option Z -> bool -> Hir -> Hir;
  dot_any_byte : Hir;
  properties_minimum_len : Hir -> option Z;
}.

(** What the documentation of the crate promises: the constructors may simplify
    the expression, but not change what it matches. *)
Class RegexSyntaxLaws `{HirSemantics} `{RegexSyntax} := {
  syntax_concat_spec subs data i j :
    hmatch (syntax_concat subs) data i j <-> hmatch (HConcat subs) data i j;
  syntax_repetition_spec min max g sub data i j :
    hmatch (syntax_repetition min max g sub) data i j <-> hmatch (HRepetition min max g sub) data i j;
  dot_any_byte_spec data i j : Forall is_u8 data -> hmatch dot_any_byte data i j <-> span data i j /\ j = i + 1;
  minimum_len_spec h n data i j : properties_minimum_len h = Some n -> hmatch h data i j -> n <= j - i;
}.

(** * Splitting at large gaps *)

(** [re::hir::Hir] *)
Record ReHir := { inner : Hir; greedy : option bool }.

Definition hir_from (h : Hir) : ReHir := {| inner := h; greedy := None |}.
Definition set_greedy (h : ReHir) (g : option bool) : ReHir := {| inner := h.(inner); greedy := g |}.

Inductive ChainedPatternGap : Type :=
  | Bounded (min max : Z)
  | Unbounded (min : Z).

Record ChainedPattern := { gap : ChainedPatternGap; chained_hir : ReHir }.

Definition PATTERN_CHAINING_THRESHOLD : Z := 200.
Definition MIN_PATTERN_LENGTH_IN_CHAIN : Z := 2.

Section Split.
Context {RS : RegexSyntax}.

Definition hir_concat (subs : list ReHir) : ReHir := hir_from (syntax_concat (inner <$> subs)).

Definition any_byte_repetition (min : Z) (max : option Z) (g : bool) : ReHir :=
  hir_from (syntax_repetition min max g dot_any_byte).

Definition minimum_len (h : ReHir) : option Z := properties_minimum_len h.(inner).

Definition gap_of (gap_min : Z) (gap_max : option Z) : ChainedPatternGap :=
  match gap_max with Some m => Bounded gap_min m | None => Unbounded gap_min end.

(** The variables of the loop of [split_at_large_gaps]. *)
Record SplitState := {
  gap_min : Z;
  gap_max : option Z;
  gap_greedy : bool;
  chunks : list ReHir;
  chain : list ChainedPattern;
}.

Definition push_chunk (item : ReHir) (st : SplitState) : SplitState :=
  {| gap_min := st.(gap_min); gap_max := st.(gap_max); gap_greedy := st.(gap_greedy);
     chunks := st.(chunks) ++ [item]; chain := st.(chain) |}.

(** The repetitions at which the pattern may be split. *)
Definition is_large_gap (item : Hir) : bool :=
  match item with
  | HRepetition min max _ sub =>
      (PATTERN_CHAINING_THRESHOLD <? saturating_sub (default u32_MAX max) min) && any_byte sub
  | _ => false
  end.

(** An iteration of the loop. *)
Definition split_step (g : option bool) (item : Hir) (st : SplitState) : SplitState :=
  match item with
  | HRepetition min max rep_greedy _ =>
      if negb (bool_decide (length st.(chunks) = 0%nat)) && is_large_gap item then
        let hir := set_greedy (hir_concat st.(chunks)) g in
        if MIN_PATTERN_LENGTH_IN_CHAIN <=? default 0 (minimum_len hir) then
          {| chain := st.(chain) ++ [{| gap := gap_of st.(gap_min) st.(gap_max); chained_hir := hir |}];
             gap_min := min; gap_max := max; gap_greedy := rep_greedy; chunks := [] |}
        else
          {| gap_min := st.(gap_min); gap_max := st.(gap_max); gap_greedy := st.(gap_greedy);
             chunks := [hir; hir_from item]; chain := st.(chain) |}
      else push_chunk (hir_from item) st
  | _ => push_chunk (hir_from item) st
  end.

(** [chain.remove(0)] *)
Definition remove_first (chain : list ChainedPattern) : res (ReHir * list ChainedPattern) :=
  match chain with
  | [] => Panic
  | first :: rest => Ret (first.(chained_hir), rest)
  end.

(** What follows the loop. *)
Definition split_finish (g : option bool) (st : SplitState) : res (ReHir * list ChainedPattern) :=
  if bool_decide (length st.(chunks) = 0%nat) then remove_first st.(chain)
  else
    let hir := set_greedy (hir_concat st.(chunks)) g in
    if bool_decide (length st.(chain) = 0%nat)
       || (MIN_PATTERN_LENGTH_IN_CHAIN <=? default 0 (minimum_len hir))
    then remove_first (st.(chain) ++ [{| gap := gap_of st.(gap_min) st.(gap_max); chained_hir := hir |}])
    else
      last_ ← or_panic (last st.(chain));
      let merged :=
        set_greedy (hir_concat [last_.(chained_hir);
                                any_byte_repetition st.(gap_min) st.(gap_max) st.(gap_greedy); hir]) g in
      remove_first (take (length st.(chain) - 1) st.(chain) ++
                    [{| gap := last_.(gap); chained_hir := merged |}]).

Definition split_new : SplitState :=
  {| gap_min := 0; gap_max := None; gap_greedy := false; chunks := []; chain := [] |}.

Definition split_at_large_gaps (self : ReHir) : res (ReHir * list ChainedPattern) :=
  match self.(inner) with
  | HConcat items =>
      split_finish self.(greedy) (foldl (fun st item => split_step self.(greedy) item st) split_new items)
  | _ => Ret (self, [])
  end.
End Split.

(** * Extraction of a masked literal *)

(** The pattern, the mask and the stack of expressions to visit, with the
    top of the stack first; [None] is the result [None] of the function. *)
Fixpoint extract_loop (fuel : nat) (stack : list Hir) (pattern mask : list Z)
  : res (option (list Z * list Z)) :=
  match stack with
  | [] => Ret (Some (pattern, mask))
  | hir :: stack =>
      match fuel with
      | O => OutOfFuel
      | S fuel =>
          match hir with
          | HLiteral bytes =>
              extract_loop fuel stack (pattern ++ bytes) (mask ++ replicate (length bytes) 0xff)
          | HRepetition min max _ sub =>
              if bool_decide (max = Some min) && any_byte sub then
                let count := Z.to_nat min in
                extract_loop fuel stack (pattern ++ replicate count 0) (mask ++ replicate count 0)
              else Ret None
          | HConcat sub_hirs => extract_loop fuel (sub_hirs ++ stack) pattern mask
          | HClass (ClassBytes class) =>
              match class_to_masked_byte class with
              | Some hex_byte =>
                  extract_loop fuel stack (pattern ++ [hex_byte.(hb_value)]) (mask ++ [hex_byte.(hb_mask)])
              | None => Ret None
              end
          | HCapture sub => extract_loop fuel (sub :: stack) pattern mask
          | _ => Ret None
          end
      end
  end.

(** Every expression is visited once, so their number is enough fuel. *)
Fixpoint hir_size (h : Hir) : nat :=
  match h with
  | HRepetition _ _ _ sub | HCapture sub => S (hir_size sub)
  | HConcat subs | HAlternation subs => S (sum_list (map hir_size subs))
  | _ => 1
  end.

(** The loop that trims the atom until it has few combinations. Each iteration
    removes a byte. *)
Fixpoint trim_while (fuel : nat) (ma : MaskedAtom) : res MaskedAtom :=
  if MAX_ATOMS_PER_REGEXP <? total_combinations ma then
    match fuel with
    | O => OutOfFuel
    | S fuel => trim_while fuel (trim ma)
    end
  else Ret ma.

Definition try_extract_literal_with_mask `{Itertools} (self : ReHir)
  : res (option (list Z * list Z * list Atom)) :=
  r ← extract_loop (hir_size self.(inner)) [self.(inner)] [] [];
  match r with
  | None => Ret None
  | Some (pattern, mask) =>
      '(best_range, _) ← best_range_in_masked_bytes pattern mask;
      ma ← masked_from_slice_range pattern mask (fst best_range) (snd best_range);
      match ma with
      | None => Ret None
      | Some masked_atom =>
          masked_atom ← trim_while (length masked_atom.(atom_mask)) masked_atom;
          if bool_decide (masked_atom.(Atoms.masked_atom).(atom_bytes) = []) then Ret None
          else
            atoms ← mask_combinations masked_atom;
            Ret (Some (pattern, mask, atoms))
      end
  end.

(** * Lemmas on matches *)

Lemma span_refl data i : 0 <= i <= len data -> span data i i.
Proof. unfold span. lia. Qed.

Lemma get_range_span (data : list Z) i j w : get_range data i j = Some w -> span data i j /\ len w = j - i.
Proof.
  intros (H1 & H2 & ->)%get_range_Some. rewrite len_slice by lia. unfold span. lia.
Qed.

Lemma get_range_app (data w1 w2 : list Z) i j :
  get_range data i j = Some (w1 ++ w2) <->
  exists k, get_range data i k = Some w1 /\ get_range data k j = Some w2.
Proof.
  split.
  - intros Hw. pose proof (get_range_span _ _ _ _ Hw) as [Hs Hl]. rewrite len_app in Hl.
    pose proof (len_nonneg w1). pose proof (len_nonneg w2).
    exists (i + len w1). unfold span in Hs. apply get_range_Some in Hw as (_ & _ & Hw).
    rewrite (slice_split data i (i + len w1) j) in Hw by lia.
    apply app_inj_1 in Hw as [E1 E2].
    + by split; apply get_range_Some; (split; [lia|]; split; [lia|]).
    + assert (len (slice data i (i + len w1)) = len w1) as Hx by (rewrite len_slice; lia).
      apply Nat2Z.inj. by symmetry.
  - intros (k & Hw1 & Hw2).
    apply get_range_Some in Hw1 as (? & ? & ->). apply get_range_Some in Hw2 as (? & ? & ->).
    apply get_range_Some. split; [lia|]. split; [lia|]. symmetry. apply slice_split; lia.
Qed.

Definition bounded (data : list Z) (r : Z -> Z -> Prop) : Prop := forall i j, r i j -> span data i j.

Lemma seq_match_bounded data rs : bounded data (seq_match data rs).
Proof.
  induction rs as [|r rs IH]; intros i j; cbn; [by intros [_ ?]|].
  intros (k & H1 & _ & H2%IH). unfold span in *. lia.
Qed.

Lemma seq_match_app data rs1 rs2 i j :
  seq_match data (rs1 ++ rs2) i j <-> exists k, seq_match data rs1 i k /\ seq_match data rs2 k j.
Proof.
  revert i. induction rs1 as [|r rs1 IH]; intros i; cbn.
  - split; [|by intros (k & [-> _] & ?)]. intros H. exists i. split; [|done]. split; [done|].
    apply seq_match_bounded in H. apply span_refl. unfold span in H. lia.
  - setoid_rewrite IH. naive_solver.
Qed.

Lemma seq_match_singleton data r i j : bounded data r -> seq_match data [r] i j <-> r i j.
Proof.
  intros Hb. cbn. split; [by intros (k & _ & H & [-> _])|]. intros H. exists j. pose proof (Hb i j H) as Hs.
  split; [done|]. split; [done|]. split; [done|]. apply span_refl. unfold span in Hs. lia.
Qed.

(** Chains of expressions with the same matches. *)
Definition seq_equiv (data : list Z) (rs1 rs2 : list (Z -> Z -> Prop)) : Prop :=
  forall i j, seq_match data rs1 i j <-> seq_match data rs2 i j.

#[export] Instance seq_equiv_equivalence data : Equivalence (seq_equiv data).
Proof.
  split.
  - by intros rs i j.
  - intros rs1 rs2 H i j. by rewrite (H i j).
  - intros rs1 rs2 rs3 H1 H2 i j. by rewrite (H1 i j), (H2 i j).
Qed.

#[export] Instance seq_app_proper data :
  Proper (seq_equiv data ==> seq_equiv data ==> seq_equiv data) app.
Proof.
  intros rs1 rs1' H1 rs2 rs2' H2 i j. rewrite !seq_match_app. unfold seq_equiv in *. naive_solver.
Qed.

Lemma seq_equiv_singleton data r rs :
  bounded data r -> (forall i j, r i j <-> seq_match data rs i j) -> seq_equiv data [r] rs.
Proof. intros Hb H i j. by rewrite seq_match_singleton. Qed.

Section MatchLemmas.
Context {HS : HirSemantics}.

Lemma hmatch_bounded h data : bounded data (hmatch h data).
Proof.
  induction h using hir_ind; intros i j; cbn.
  - by intros [-> ?].
  - by intros [? _]%get_range_span.
  - destruct c; [intros (b & H & _)|intros (w & H & _)]; by apply get_range_span in H as [? _].
  - by intros (-> & ? & _).
  - intros (n & _ & _ & H). by apply seq_match_bounded in H.
  - apply IHh.
  - apply seq_match_bounded.
  - rewrite Exists_exists. intros (r & Hin%list_elem_of_In%in_map_iff & Hr). destruct Hin as (h & <- & Hin).
    rewrite Forall_forall in H. apply (H h); [by apply list_elem_of_In|done].
Qed.

(** Expressions that consume exactly one byte, whichever. *)
Definition any_one (h : Hir) (data : list Z) : Prop :=
  forall i j, hmatch h data i j <-> span data i j /\ j = i + 1.

Lemma seq_match_any (r : Z -> Z -> Prop) data n i j :
  (forall i j, r i j <-> span data i j /\ j = i + 1) ->
  seq_match data (replicate n r) i j <-> span data i j /\ j - i = Z.of_nat n.
Proof.
  intros Hr. revert i. induction n as [|n IH]; intros i; cbn [replicate seq_match].
  - unfold span. lia.
  - split.
    + intros (k & _ & [H1 ->]%Hr & [H2 H3]%IH). unfold span in *. lia.
    + intros [H1 H2]. exists (i + 1). rewrite Hr, IH. unfold span in *. lia.
Qed.

(** A gap of any bytes. *)
Definition gap_rel (data : list Z) (min : Z) (max : option Z) (i j : Z) : Prop :=
  span data i j /\ min <= j - i /\ forall m, max = Some m -> j - i <= m.

Lemma gap_rel_bounded data min max : bounded data (gap_rel data min max).
Proof. by intros i j [? _]. Qed.

Lemma repetition_any sub data min max g i j :
  any_one sub data -> hmatch (HRepetition min max g sub) data i j <-> gap_rel data min max i j.
Proof.
  intros Hr. cbn. unfold gap_rel. split.
  - intros (n & H1 & H2 & H3). rewrite seq_match_any in H3 by done. destruct H3 as [H3 Hn]. rewrite <- Hn in H1, H2. done.
  - intros (H1 & H2 & H3). exists (Z.to_nat (j - i)). rewrite seq_match_any by done.
    unfold span in *. rewrite Z2Nat.id by lia. naive_solver.
Qed.

End MatchLemmas.

(** * Well-formed expressions

    What the parser of [regex_syntax] produces when Unicode is disabled: byte
    classes are canonical, the Unicode classes that still appear have only ASCII
    characters, and alternations are not empty. *)
Fixpoint hir_wf (h : Hir) : Prop :=
  match h with
  | HEmpty | HLook _ => True
  | HLiteral bs => Forall is_u8 bs
  | HClass (ClassBytes rs) => canonical rs
  | HClass (ClassUnicode rs) => Forall (fun r => snd r <= 127) rs
  | HRepetition min _ _ sub => 0 <= min /\ hir_wf sub
  | HCapture sub => hir_wf sub
  | HConcat subs => foldr and True (map hir_wf subs)
  | HAlternation subs => subs <> [] /\ foldr and True (map hir_wf subs)
  end.

Lemma foldr_and_Forall {A} (P : A -> Prop) l : foldr and True (map P l) <-> Forall P l.
Proof.
  induction l as [|x l IH]; cbn; [split; [constructor|done]|]. rewrite IH. by rewrite Forall_cons.
Qed.

Lemma canonical_all rs lo hi rest :
  canonical rs -> rs = (lo, hi) :: rest -> lo = 0 -> hi = 255 -> rest = [].
Proof.
  intros [Hs Hb] -> -> ->. destruct rest as [|[lo' hi'] rest]; [done|].
  apply StronglySorted_inv in Hs as [_ [Hs _]%Forall_cons].
  apply Forall_cons in Hb as [_ [Hb _]%Forall_cons]. cbn in *. lia.
Qed.

(** The byte classes of an expression, and the ones that are what
    [class_to_masked_byte] takes them for, if it accepts them at all. *)
Fixpoint hir_classes (h : Hir) : list (list (Z * Z)) :=
  match h with
  | HClass (ClassBytes rs) => [rs]
  | HRepetition _ _ _ sub | HCapture sub => hir_classes sub
  | HConcat subs | HAlternation subs => flat_map hir_classes subs
  | _ => []
  end.

Definition recognised (rs : list (Z * Z)) : bool :=
  match class_to_masked_byte rs with Some hb => class_isb rs hb | None => true end.

Section AnyByte.
Context {HS : HirSemantics}.

Lemma any_byte_class h : any_byte h = true -> hir_wf h -> h = HClass (ClassBytes [(0, 255)]).
Proof.
  destruct h as [| |[rs|rs]| | | | |]; cbn; try done.
  - destruct rs as [|[lo hi] rest] eqn:E; [done|]. cbn. intros Hb Hc. bools.
    unfold u8_MAX in *. rewrite (canonical_all _ lo hi rest Hc) by (done || lia). by subst.
  - destruct rs as [|[lo hi] rest]; [done|]. cbn. intros Hb [Hc _]%Forall_cons. bools. cbn in Hc. lia.
Qed.

(** Matching a byte class consumes a byte. *)
Lemma class_one rs data i j :
  Forall is_u8 data ->
  hmatch (HClass (ClassBytes rs)) data i j <->
  span data i j /\ j = i + 1 /\ exists b, get data i = Some b /\ is_u8 b /\ in_class b rs = true.
Proof.
  intros Hu. cbn. split.
  - intros (b & Hg & Hc). apply get_range_Some in Hg as (H1 & H2 & Hb).
    assert (Hl : len [b] = j - i) by (rewrite Hb; apply len_slice; lia).
    assert (j = i + 1) as -> by (cbn in Hl; change (len [b]) with 1 in Hl; lia).
    split; [unfold span; lia|]. split; [done|]. exists b.
    assert (get data i = Some b) as Hi.
    { pose proof (get_slice data i (i + 1) 0) as Hgs. rewrite Z.add_0_r in Hgs.
      rewrite <- Hgs by lia. by rewrite <- Hb. }
    split; [done|]. split; [|done]. apply get_Some in Hi as [_ Hi].
    by eapply Forall_lookup_1 in Hi.
  - intros ((H1 & H2 & H3) & -> & b & Hg & _ & Hc). exists b. split; [|done].
    apply get_range_Some. split; [lia|]. split; [lia|]. apply get_Some in Hg as [_ Hg].
    unfold slice. replace (Z.to_nat (i + 1 - i)) with 1%nat by lia.
    rewrite (drop_S _ _ _ Hg). done.
Qed.

Lemma any_byte_any_one h data :
  any_byte h = true -> hir_wf h -> Forall is_u8 data -> any_one h data.
Proof.
  intros Hb Hw Hu. rewrite (any_byte_class h Hb Hw). intros i j. rewrite class_one by done. split.
  - naive_solver.
  - intros [Hs ->]. split; [done|]. split; [done|].
    destruct (get_is_Some data i) as [b Hg]; [unfold span in Hs; lia|]. exists b. split; [done|].
    pose proof Hg as [_ Hl]%get_Some. eapply Forall_lookup_1 in Hl; [|done]. cbn in Hl.
    split; [done|]. unfold in_class, in_range, is_u8 in *. cbn. lia.
Qed.
End AnyByte.

(** * A concrete semantics

    The assertions on bytes, with the Unicode variants restricted to ASCII, and
    constructors that do not simplify anything. *)

Definition is_word_byte (b : option Z) : bool :=
  match b with
  | Some b => is_ascii_alphabetic b || (48 <=? b) && (b <=? 57) || (b =? 95)
  | None => false
  end.

Definition look_at (l : Look) (prev next : option Z) : bool :=
  let eqb b x := bool_decide (b = Some (x : Z)) in
  let none (b : option Z) := match b with None => true | Some _ => false end in
  let pw := is_word_byte prev in
  let nw := is_word_byte next in
  match l with
  | Start => none prev
  | End => none next
  | StartLF => none prev || eqb prev 0x0A
  | EndLF => none next || eqb next 0x0A
  | StartCRLF => none prev || eqb prev 0x0A || eqb prev 0x0D && negb (eqb next 0x0A)
  | EndCRLF => none next || eqb next 0x0D || eqb next 0x0A && negb (eqb prev 0x0D)
  | WordAscii | WordUnicode => xorb pw nw
  | WordAsciiNegate | WordUnicodeNegate => negb (xorb pw nw)
  | WordStartAscii | WordStartUnicode => negb pw && nw
  | WordEndAscii | WordEndUnicode => pw && negb nw
  | WordStartHalfAscii | WordStartHalfUnicode => negb pw
  | WordEndHalfAscii | WordEndHalfUnicode => negb nw
  end.

#[export] Instance ascii_HirSemantics : HirSemantics := {
  look_matches l data i := look_at l (get data (i - 1)) (get data i) = true;
  unicode_matches rs w := exists c, w = [c] /\ 0 <= c < 128 /\ in_class c rs = true;
}.

Fixpoint min_len (h : Hir) : Z :=
  match h with
  | HEmpty | HLook _ => 0
  | HLiteral bs => len bs
  | HClass _ => 1
  | HRepetition min _ _ sub => Z.max 0 min * min_len sub
  | HCapture sub => min_len sub
  | HConcat subs => foldr Z.add 0 (map min_len subs)
  | HAlternation [] => 0
  | HAlternation (sub :: subs) => foldr Z.min (min_len sub) (map min_len subs)
  end.

#[export] Instance plain_RegexSyntax : RegexSyntax := {
  syntax_concat := HConcat;
  syntax_repetition := HRepetition;
  dot_any_byte := HClass (ClassBytes [(0, 255)]);
  properties_minimum_len h := Some (min_len h);
}.

Lemma foldr_min_le x l : foldr Z.min x l <= x /\ forall z, z ∈ l -> foldr Z.min x l <= z.
Proof.
  induction l as [|y l [IH1 IH2]]; cbn; [by split; [lia|intros z ?%not_elem_of_nil]|]. split; [lia|].
  intros z [->|Hz]%elem_of_cons; [lia|]. specialize (IH2 z Hz). lia.
Qed.

Lemma min_len_nonneg h : 0 <= min_len h.
Proof.
  induction h as [|bs|c|l|min max g sub IH|sub IH|subs IH|subs IH] using hir_ind; cbn; try lia.
  - apply len_nonneg.
  - induction IH; cbn; lia.
  - destruct IH as [|sub subs H1 IH]; [done|]. induction IH; cbn; lia.
Qed.

Lemma seq_match_min data r c n i j :
  (forall i j, r i j -> c <= j - i) -> seq_match data (replicate n r) i j -> Z.of_nat n * c <= j - i.
Proof.
  intros Hr. revert i. induction n as [|n IH]; intros i; cbn [replicate seq_match].
  - intros [-> _]. lia.
  - intros (k & _ & H1%Hr & H2%IH). rewrite Nat2Z.inj_succ, Z.mul_succ_l. lia.
Qed.

Lemma min_len_spec `{HirSemantics} h data i j :
  (forall rs w, unicode_matches rs w -> 1 <= len w) -> hmatch h data i j -> min_len h <= j - i.
Proof.
  intros Hun. revert i j. induction h as [|bs|c|l|min max g sub IH|sub IH|subs IH|subs IH] using hir_ind;
    intros i j Hm; cbn in Hm.
  - destruct Hm as [-> _]. cbn. lia.
  - apply get_range_span in Hm as [_ <-]. cbn. lia.
  - destruct c as [rs|rs]; [destruct Hm as (b & Hg & _)|destruct Hm as (w & Hg & Hw)];
      apply get_range_span in Hg as [_ Hl]; cbn; [rewrite len_cons, len_nil in Hl; lia|].
    apply Hun in Hw. lia.
  - destruct Hm as [-> _]. cbn. lia.
  - destruct Hm as (n & Hn & _ & Hs). cbn. apply (seq_match_min _ _ (min_len sub)) in Hs; [|done].
    pose proof (min_len_nonneg sub). nia.
  - by apply IH.
  - revert i Hm. induction IH as [|sub subs H1 _ IH]; intros i; cbn; [intros [-> _]; lia|].
    intros (k & _ & Hk%H1 & Hs%IH). cbn in Hs. lia.
  - apply Exists_exists in Hm as (r & Hr%list_elem_of_In%in_map_iff & Hm). destruct Hr as (h & <- & Hh).
    rewrite Forall_forall in IH. apply list_elem_of_In in Hh. apply (IH h Hh) in Hm.
    destruct subs as [|sub subs]; [by apply not_elem_of_nil in Hh|]. cbn.
    destruct (foldr_min_le (min_len sub) (map min_len subs)) as [F1 F2].
    apply elem_of_cons in Hh as [->|Hh]; [lia|].
    enough (foldr Z.min (min_len sub) (map min_len subs) <= min_len h) by lia.
    apply F2, list_elem_of_In, in_map, list_elem_of_In, Hh.
Qed.

#[export] Instance plain_RegexSyntaxLaws : RegexSyntaxLaws.
Proof.
  split; [done|done| |].
  - intros data i j Hu. by apply any_byte_any_one; [|split; repeat constructor; cbn; lia|].
  - intros h n data i j [= <-]. apply min_len_spec. by intros rs w (c & -> & _).
Qed.
