(* ===== verification/HirProps.v ===== *)
(** What the split of a pattern at its large gaps and the extraction of a masked
    literal guarantee. *)

From S2P Require Import Prelude.
From S2P Require Import Atoms.
From S2P Require Import Quality.
From S2P Require Import ByteClass.
From S2P Require Import Hir.

(** * Chains of patterns *)

Definition gap_bounds (g : ChainedPatternGap) : Z * option Z :=
  match g with Bounded min max => (min, Some max) | Unbounded min => (min, None) end.

Lemma gap_bounds_of min max : gap_bounds (gap_of min max) = (min, max).
Proof. by destruct max. Qed.

Section Split.
Context {HS : HirSemantics} {RS : RegexSyntax} {RL : RegexSyntaxLaws}.

Definition rels (data : list Z) (hs : list Hir) : list (Z -> Z -> Prop) := (fun h => hmatch h data) <$> hs.

Definition link (data : list Z) (c : ChainedPattern) : list (Z -> Z -> Prop) :=
  [gap_rel data (fst (gap_bounds c.(gap))) (snd (gap_bounds c.(gap))); hmatch c.(chained_hir).(inner) data].

(** A match of the first pattern, followed by matches of the others, each one at
    the distance from the previous one that its gap allows. *)
Definition chain_match (head : ReHir) (tail : list ChainedPattern) (data : list Z) : Z -> Z -> Prop :=
  seq_match data (hmatch head.(inner) data :: (c ← tail; link data c)).

(** The gap of the first pattern of a chain is not used. *)
Definition chain_rels (data : list Z) (chain : list ChainedPattern) : list (Z -> Z -> Prop) :=
  match chain with
  | [] => []
  | first :: rest => hmatch first.(chained_hir).(inner) data :: (c ← rest; link data c)
  end.

Lemma chain_rels_snoc data chain c :
  chain_rels data (chain ++ [c]) =
  match chain with [] => [hmatch c.(chained_hir).(inner) data] | _ => chain_rels data chain ++ link data c end.
Proof.
  destruct chain as [|first rest]; [done|]. cbn [app chain_rels]. rewrite bind_app. cbn [mbind list_bind].
  by rewrite app_nil_r.
Qed.

Lemma remove_first_match chain head tail data i j :
  remove_first chain = Ret (head, tail) ->
  chain_match head tail data i j <-> seq_match data (chain_rels data chain) i j.
Proof. destruct chain as [|first rest]; [done|]. by intros [= <- <-]. Qed.

(** ** The loop *)

Definition pending_gap (data : list Z) (st : SplitState) : list (Z -> Z -> Prop) :=
  match st.(chain) with [] => [] | _ => [gap_rel data st.(gap_min) st.(gap_max)] end.

(** What the variables of the loop stand for. *)
Definition state_rels (data : list Z) (st : SplitState) : list (Z -> Z -> Prop) :=
  chain_rels data st.(chain) ++ pending_gap data st ++ rels data (inner <$> st.(chunks)).

Lemma concat_rels hs data : seq_equiv data [hmatch (hir_concat hs).(inner) data] (rels data (inner <$> hs)).
Proof.
  apply seq_equiv_singleton; [apply hmatch_bounded|]. intros i j.
  cbn [hir_concat hir_from inner]. rewrite syntax_concat_spec. done.
Qed.

Lemma chain_end data (st : SplitState) h :
  chain_rels data (st.(chain) ++ [{| gap := gap_of st.(gap_min) st.(gap_max); chained_hir := h |}]) =
  chain_rels data st.(chain) ++ pending_gap data st ++ [hmatch h.(inner) data].
Proof.
  rewrite chain_rels_snoc. unfold pending_gap. destruct (chain st); [done|].
  unfold link. cbn [gap chained_hir]. by rewrite gap_bounds_of.
Qed.

Lemma push_chunk_rels item st data :
  state_rels data (push_chunk item st) = state_rels data st ++ [hmatch item.(inner) data].
Proof.
  unfold state_rels, pending_gap, push_chunk, rels. cbn [chain gap_min gap_max chunks].
  by rewrite !fmap_app, !app_assoc.
Qed.

Lemma split_step_rels g item st data :
  hir_wf item -> Forall is_u8 data ->
  seq_equiv data (state_rels data (split_step g item st)) (state_rels data st ++ [hmatch item data]).
Proof.
  intros Hw Hu. assert (Hpush : seq_equiv data (state_rels data (push_chunk (hir_from item) st))
                                  (state_rels data st ++ [hmatch item data])) by by rewrite push_chunk_rels.
  destruct item as [| | | |min max rg sub| | |]; try exact Hpush. unfold split_step.
  destruct (negb _ && is_large_gap _) eqn:E; [|exact Hpush]. clear Hpush.
  apply andb_prop in E as [_ Hgap]. cbn in Hgap. apply andb_prop in Hgap as [_ Hany].
  cbn in Hw. destruct Hw as [_ Hw].
  pose proof (any_byte_any_one sub data Hany Hw Hu) as Hone.
  set (hir := set_greedy (hir_concat (chunks st)) g).
  assert (Hh : seq_equiv data [hmatch hir.(inner) data] (rels data (inner <$> st.(chunks)))) by apply concat_rels.
  destruct (_ <=? _); unfold state_rels, pending_gap; cbn [chain chunks gap_min gap_max].
  - rewrite chain_end. unfold pending_gap. destruct (chain st ++ _) eqn:E2; [by destruct (chain st)|].
    rewrite Hh, <- !app_assoc. do 3 f_equiv. cbn [fmap list_fmap rels app].
    apply seq_equiv_singleton; [apply gap_rel_bounded|]. intros i j.
    rewrite seq_match_singleton by apply hmatch_bounded. by rewrite repetition_any.
  - rewrite <- !app_assoc. f_equiv. f_equiv. rewrite <- Hh. done.
Qed.

Lemma split_loop_rels g items st data :
  Forall hir_wf items -> Forall is_u8 data ->
  seq_equiv data (state_rels data (foldl (fun st item => split_step g item st) st items))
    (state_rels data st ++ rels data items).
Proof.
  intros Hw Hu. revert st. induction Hw as [|item items Hi Hw IH]; intros st.
  - cbn. by rewrite app_nil_r.
  - cbn [foldl]. rewrite IH, split_step_rels by done. by rewrite <- app_assoc.
Qed.

(** ** The minimum length of the patterns of a chain *)

Definition long_enough (h : ReHir) : Prop :=
  forall data i j, hmatch h.(inner) data i j -> MIN_PATTERN_LENGTH_IN_CHAIN <= j - i.

Lemma minimum_len_long_enough h :
  (MIN_PATTERN_LENGTH_IN_CHAIN <=? default 0 (minimum_len h)) = true -> long_enough h.
Proof.
  unfold minimum_len, long_enough, MIN_PATTERN_LENGTH_IN_CHAIN. intros Hle data i j Hm.
  destruct (properties_minimum_len (inner h)) as [n|] eqn:E; cbn in Hle; bools; [|lia].
  pose proof (minimum_len_spec _ _ _ _ _ E Hm). lia.
Qed.

Definition chain_long (chain : list ChainedPattern) : Prop :=
  Forall (fun c => long_enough c.(chained_hir)) chain.

Lemma split_step_long g item st : chain_long st.(chain) -> chain_long (split_step g item st).(chain).
Proof.
  intros Hc. destruct item as [| | | |min max rg sub| | |]; try done. unfold split_step.
  destruct (negb _ && _); [|done]. destruct (_ <=? _) eqn:E; [|done]. cbn [chain].
  apply Forall_app. split; [done|]. constructor; [|constructor]. by apply minimum_len_long_enough.
Qed.

Lemma split_loop_long g items st :
  chain_long st.(chain) -> chain_long (foldl (fun st item => split_step g item st) st items).(chain).
Proof.
  revert st. induction items as [|item items IH]; intros st Hc; [done|]. cbn. by apply IH, split_step_long.
Qed.

(** A gap at the end leaves no chunks, anything else does. *)
Lemma split_loop_chunks g items st :
  (forall item, last items = Some item -> is_large_gap item = false) -> items <> [] ->
  (foldl (fun st item => split_step g item st) st items).(chunks) <> [].
Proof.
  intros Hl Hne. destruct items as [|item items _] using rev_ind; [done|].
  rewrite foldl_app. cbn [foldl]. specialize (Hl item). rewrite last_snoc in Hl. specialize (Hl eq_refl).
  set (st' := foldl _ _ _). destruct item as [| | | |min max rg sub| | |];
    try (cbn; by destruct (chunks st')).
  unfold split_step. rewrite Hl, andb_false_r. cbn. by destruct (chunks st').
Qed.

(** ** What follows the loop *)

Lemma split_finish_spec g st :
  st.(chunks) <> [] -> chain_long st.(chain) ->
  exists head tail, split_finish g st = Ret (head, tail) /\
    (forall data, Forall is_u8 data -> forall i j,
       chain_match head tail data i j <-> seq_match data (state_rels data st) i j) /\
    (tail <> [] -> long_enough head /\ chain_long tail).
Proof.
  intros Hne Hc. unfold split_finish. rewrite bool_decide_eq_false_2 by by destruct (chunks st).
  set (hir := set_greedy (hir_concat (chunks st)) g).
  assert (Hh : forall data, seq_equiv data [hmatch hir.(inner) data] (rels data (inner <$> st.(chunks))))
    by (intros; apply concat_rels).
  destruct (bool_decide (length (chain st) = 0%nat) || _) eqn:E.
  - destruct (remove_first _) as [[head tail]| |] eqn:Er; [|by destruct (chain st)..].
    exists head, tail. split; [done|]. split.
    + intros data Hu i j. rewrite (remove_first_match _ _ _ _ _ _ Er), chain_end.
      revert i j. change (seq_equiv data (chain_rels data (chain st) ++ pending_gap data st ++ [hmatch (inner hir) data])
                            (state_rels data st)).
      rewrite Hh. done.
    + destruct (chain st) as [|first rest] eqn:Ec; [injection Er as <- <-; done|].
      injection Er as <- <-. intros _. apply Forall_cons in Hc as [H1 H2]. split; [done|].
      apply Forall_app. split; [done|]. constructor; [|constructor]. cbn in E. by apply minimum_len_long_enough.
  - assert (Hcne : chain st <> []) by (intros Hn; by rewrite Hn in E).
    destruct (exists_last Hcne) as (init & last_ & Ec). rewrite Ec, last_snoc. cbn [or_panic mbind res_bind]. rewrite length_app, Nat.add_sub, take_app_length.
    set (merged := {| gap := _; chained_hir := _ |}).
    destruct (remove_first _) as [[head tail]| |] eqn:Er; [|by destruct init..].
    exists head, tail. split; [done|].
    assert (Hm : forall data, Forall is_u8 data -> seq_equiv data [hmatch merged.(chained_hir).(inner) data]
      (hmatch last_.(chained_hir).(inner) data :: gap_rel data st.(gap_min) st.(gap_max) ::
       rels data (inner <$> st.(chunks)))).
    { intros data Hu. cbn [merged chained_hir set_greedy inner]. rewrite concat_rels.
      cbn [rels fmap list_fmap]. 
      change (seq_equiv data ([hmatch (inner (chained_hir last_)) data] ++
        [hmatch (inner (any_byte_repetition (gap_min st) (gap_max st) (gap_greedy st))) data] ++ [hmatch (inner hir) data])
        ([hmatch (inner (chained_hir last_)) data] ++ [gap_rel data (gap_min st) (gap_max st)] ++
         rels data (inner <$> chunks st))).
      rewrite Hh. do 2 f_equiv. apply seq_equiv_singleton; [apply hmatch_bounded|]. intros i j.
      rewrite seq_match_singleton by apply gap_rel_bounded. cbn [any_byte_repetition hir_from inner].
      rewrite syntax_repetition_spec. apply repetition_any. intros ??. by apply dot_any_byte_spec. }
    split.
    + intros data Hu i j. rewrite (remove_first_match _ _ _ _ _ _ Er). revert i j.
      change (seq_equiv data (chain_rels data (init ++ [merged])) (state_rels data st)).
      unfold state_rels, pending_gap. rewrite Ec, !chain_rels_snoc. destruct init as [|first init].
      * rewrite Hm by done. done.
      * cbn [app]. unfold link. cbn [merged gap].
        change (seq_equiv data
          (chain_rels data (first :: init) ++ [gap_rel data (fst (gap_bounds last_.(gap))) (snd (gap_bounds last_.(gap)))]
             ++ [hmatch merged.(chained_hir).(inner) data])
          ((chain_rels data (first :: init) ++ link data last_) ++ [gap_rel data st.(gap_min) st.(gap_max)]
             ++ rels data (inner <$> st.(chunks)))).
        rewrite Hm by done. by rewrite <- !app_assoc.
    + assert (long_enough merged.(chained_hir)) as Hml.
      { intros data i j Hmm. rewrite Ec in Hc. apply Forall_app in Hc as [_ [Hl _]%Forall_cons].
        cbn [merged chained_hir set_greedy inner] in Hmm. unfold hir_concat, hir_from in Hmm. cbn [inner] in Hmm.
        apply syntax_concat_spec in Hmm. cbn in Hmm.
        destruct Hmm as (k1 & S1 & M1 & k2 & S2 & _ & k3 & S3 & _ & -> & _).
        apply Hl in M1. unfold span in *. lia. }
      rewrite Ec in Hc. apply Forall_app in Hc as [Hc _].
      destruct init as [|first init]; [by injection Er as <- <-|]. injection Er as <- <-. intros _.
      apply Forall_cons in Hc as [H1 H2]. split; [done|]. apply Forall_app. by repeat constructor.
Qed.
End Split.

(** * Masked literals *)

(** The data agrees with the masked bytes between two positions. *)
Definition masked_at (data p m : list Z) (i j : Z) : Prop :=
  exists w, get_range data i j = Some w /\ Forall3 byte_matches w p m.

Lemma masked_at_bounded data p m : bounded data (masked_at data p m).
Proof. by intros i j (w & [? _]%get_range_span & _). Qed.

Lemma Forall3_app_inv {A B C} (P : A -> B -> C -> Prop) l p1 p2 m1 m2 :
  length p1 = length m1 ->
  Forall3 P l (p1 ++ p2) (m1 ++ m2) <->
  exists l1 l2, l = l1 ++ l2 /\ Forall3 P l1 p1 m1 /\ Forall3 P l2 p2 m2.
Proof.
  revert m1 l. induction p1 as [|x p1 IH]; intros [|y m1] l Hl; try done; cbn [app].
  - split; [intros H; exists [], l; split; [done|]; split; [constructor|done]|]. intros (l1 & l2 & -> & H1 & H2).
    by inversion H1; subst.
  - split.
    + inversion 1 as [|? ? ? l' ? ? Hp HF]; subst. apply IH in HF as (l1 & l2 & -> & H1 & H2); [|by injection Hl].
      eexists (_ :: l1), l2. split; [done|]. split; [by constructor|done].
    + intros (l1 & l2 & -> & H1 & H2). inversion H1; subst. cbn. constructor; [done|]. apply IH; [by injection Hl|].
      eauto.
Qed.

Lemma masked_at_app data p1 p2 m1 m2 i j :
  length p1 = length m1 ->
  masked_at data (p1 ++ p2) (m1 ++ m2) i j <->
  exists k, masked_at data p1 m1 i k /\ masked_at data p2 m2 k j.
Proof.
  intros Hl. unfold masked_at. split.
  - intros (w & Hw & (w1 & w2 & -> & H1 & H2)%Forall3_app_inv); [|done].
    apply get_range_app in Hw as (k & Hk1 & Hk2). exists k. eauto 6.
  - intros (k & (w1 & Hw1 & H1) & (w2 & Hw2 & H2)). exists (w1 ++ w2).
    rewrite get_range_app, Forall3_app_inv by done. split; eauto 6.
Qed.

Lemma masked_at_nil data i j : masked_at data [] [] i j <-> i = j /\ span data i j.
Proof.
  split.
  - intros (w & Hw & H). inversion H; subst. apply get_range_span in Hw as [? Hl].
    rewrite len_nil in Hl. split; [lia|done].
  - intros [-> (H1 & H2 & H3)]. exists []. split; [|constructor].
    apply get_range_Some. split; [lia|]. split; [lia|]. unfold slice. by rewrite Z.sub_diag.
Qed.

(** ** What is pushed for each kind of expression *)

Lemma byte_matches_full x b : is_u8 x -> is_u8 b -> byte_matches x b 0xff <-> x = b.
Proof. rewrite !is_u8_land. unfold byte_matches. intros -> ->. done. Qed.

Lemma masked_literal data bs i j :
  Forall is_u8 data -> Forall is_u8 bs ->
  masked_at data bs (replicate (length bs) 0xff) i j <-> get_range data i j = Some bs.
Proof.
  intros Hu Hb. assert (Hfull : forall w, Forall is_u8 w ->
    Forall3 byte_matches w bs (replicate (length bs) 0xff) <-> w = bs).
  { intros w Hw. revert w Hw. induction Hb as [|b bs Hb Hbs IH]; intros w Hw; cbn.
    - split; [by inversion 1|intros ->; constructor].
    - split.
      + inversion 1; subst. apply Forall_cons in Hw as [Hx Hw]. f_equal; [by apply byte_matches_full|by apply IH].
      + intros ->. constructor; [by apply byte_matches_full|]. apply IH; [by apply Forall_cons in Hw as [_ ?]|done]. }
  unfold masked_at. split.
  - intros (w & Hw & H). rewrite Hw. f_equal. apply Hfull; [|done].
    apply get_range_Some in Hw as (_ & _ & ->). by apply Forall_slice.
  - intros Hw. exists bs. split; [done|]. by apply Hfull.
Qed.

Lemma masked_wildcards data n i j :
  masked_at data (replicate n 0) (replicate n 0) i j <-> span data i j /\ j - i = Z.of_nat n.
Proof.
  assert (Hall : forall w, Forall3 byte_matches w (replicate n 0) (replicate n 0) <-> length w = n).
  { intros w. split; [intros H%Forall3_length_lm; by rewrite length_replicate in H|]. revert w.
    induction n as [|n IH]; intros [|x w] Hl; try done; cbn; constructor.
    - unfold byte_matches. by rewrite !Z.land_0_r.
    - apply IH. by injection Hl. }
  unfold masked_at. split.
  - intros (w & Hw & Hl%Hall). apply get_range_span in Hw as [Hs Hlen]. unfold len in Hlen. split; [done|lia].
  - intros [(H1 & H2 & H3) Hl]. exists (slice data i j). split; [by apply get_range_Some|].
    apply Hall. pose proof (len_slice data i j). unfold len in *. lia.
Qed.

Lemma masked_class `{HirSemantics} rs hb data i j :
  Forall is_u8 data -> class_is rs hb ->
  masked_at data [hb.(hb_value)] [hb.(hb_mask)] i j <-> hmatch (HClass (ClassBytes rs)) data i j.
Proof.
  intros Hu His. cbn. unfold masked_at. split.
  - intros (w & Hw & Hf). inversion Hf as [|b ? ? w' ? ? Hb Hf']; subst. inversion Hf'; subst.
    exists b. split; [done|]. apply His; [|done]. apply get_range_Some in Hw as (_ & _ & Hw).
    eapply Forall_inv. rewrite Hw. by apply Forall_slice.
  - intros (b & Hw & Hc). exists [b]. split; [done|]. constructor; [|constructor]. apply His; [|done].
    apply get_range_Some in Hw as (_ & _ & Hw). eapply Forall_inv. rewrite Hw. by apply Forall_slice.
Qed.

(** ** The loop *)

(** The class that [class_to_masked_byte] accepts gives bytes. *)
Lemma class_to_masked_byte_u8 rs hb :
  canonical rs -> class_to_masked_byte rs = Some hb -> is_u8 hb.(hb_value) /\ is_u8 hb.(hb_mask).
Proof.
  intros [_ Hb]. unfold class_to_masked_byte. destruct (head rs) as [r1|] eqn:E1; [|done].
  destruct (last rs) as [r2|] eqn:E2; [|done]. cbn. destruct (forallb _ _); [|done].
  destruct (negb _); [done|]. intros [= <-]. cbn. rewrite Forall_forall in Hb.
  apply head_Some_elem_of, Hb in E1. apply last_Some_elem_of, Hb in E2.
  assert (is_u8 (fst r1) /\ is_u8 (snd r2)) as [H1 H2] by (unfold is_u8; lia).
  split; [done|]. by apply not_u8_u8, lxor_u8.
Qed.

Section Extract.
Context {HS : HirSemantics}.

Lemma rels_cons data h hs : rels data (h :: hs) = hmatch h data :: rels data hs.
Proof. done. Qed.

(** The masked literal that the loop has found, [p] and [m], matches what the
    expressions of the stack match. *)
Definition extracted (data : list Z) (stack : list Hir) (p m : list Z) : Prop :=
  forall i j, seq_match data (rels data stack) i j <-> masked_at data p m i j.

Lemma extracted_cons data h stack p1 p2 m1 m2 :
  length p1 = length m1 -> (forall i j, hmatch h data i j <-> masked_at data p1 m1 i j) ->
  extracted data stack p2 m2 -> extracted data (h :: stack) (p1 ++ p2) (m1 ++ m2).
Proof.
  intros Hl Hh Hs i j. rewrite masked_at_app by done. cbn. setoid_rewrite Hh. unfold extracted in Hs.
  split; intros (k & H).
  - exists k. split; [apply H|]. apply Hs, H.
  - exists k. split; [by eapply masked_at_bounded, H|]. split; [apply H|]. apply Hs, H.
Qed.

Lemma extracted_concat data hs stack p m :
  extracted data (hs ++ stack) p m -> extracted data (HConcat hs :: stack) p m.
Proof.
  intros He i j. rewrite <- (He i j). unfold rels. rewrite fmap_app, seq_match_app. cbn.
  split; intros (k & H); exists k; [by destruct H as (_ & ? & ?)|]. destruct H as [H1 H2].
  split; [by eapply seq_match_bounded|]. by split.
Qed.

Lemma extracted_nil data : extracted data [] [] [].
Proof. intros i j. by rewrite masked_at_nil. Qed.

Lemma extract_loop_spec fuel stack pattern mask :
  Forall hir_wf stack -> Forall (fun h => forallb recognised (hir_classes h) = true) stack ->
  (sum_list (map hir_size stack) <= fuel)%nat ->
  extract_loop fuel stack pattern mask = Ret None \/
  exists p m, extract_loop fuel stack pattern mask = Ret (Some (pattern ++ p, mask ++ m)) /\
    length p = length m /\ Forall is_u8 p /\ Forall is_u8 m /\
    forall data, Forall is_u8 data -> extracted data stack p m.
Proof.
  revert stack pattern mask. induction fuel as [|fuel IH]; intros [|h stack] pattern mask Hw Hok Hf.
  1,3: right; exists [], []; rewrite !app_nil_r; split; [done|];
       split; [done|]; split; [constructor|]; split; [constructor|]; intros data _; apply extracted_nil.
  { destruct h; cbn in Hf; lia. }
  apply Forall_cons in Hw as [Hw Hws]. apply Forall_cons in Hok as [Hok Hoks].
  assert (Hone : forall p1 m1, length p1 = length m1 -> Forall is_u8 p1 -> Forall is_u8 m1 ->
    (sum_list (map hir_size stack) <= fuel)%nat ->
    (forall data, Forall is_u8 data -> forall i j, hmatch h data i j <-> masked_at data p1 m1 i j) ->
    extract_loop fuel stack (pattern ++ p1) (mask ++ m1) = Ret None \/
    exists p m, extract_loop fuel stack (pattern ++ p1) (mask ++ m1) = Ret (Some (pattern ++ p, mask ++ m)) /\
      length p = length m /\ Forall is_u8 p /\ Forall is_u8 m /\
      forall data, Forall is_u8 data -> extracted data (h :: stack) p m).
  { intros p1 m1 Hl Hp Hm Hsz Hh.
    destruct (IH stack (pattern ++ p1) (mask ++ m1)) as [->|(p & m & -> & Hl2 & Hp2 & Hm2 & Hx)]; [done..|by left|].
    right. exists (p1 ++ p), (m1 ++ m). rewrite !app_assoc, !length_app. split; [done|]. split; [lia|].
    split; [by apply Forall_app|]. split; [by apply Forall_app|]. intros data Hu. apply extracted_cons; auto. }
  destruct h as [|bs|[rs|rs]|l|min max g sub|sub|subs|subs]; cbn [extract_loop]; try by left.
  - apply Hone; [by rewrite length_replicate|done|by apply Forall_replicate|cbn in Hf; lia|].
    intros data Hu i j. symmetry. by apply masked_literal.
  - destruct (class_to_masked_byte rs) as [hb|] eqn:E; [|by left].
    destruct (class_to_masked_byte_u8 _ _ Hw E) as [Hv Hm].
    cbn in Hok. rewrite andb_true_r in Hok. unfold recognised in Hok. rewrite E in Hok.
    apply class_isb_spec in Hok.
    apply Hone; [done|by constructor|by constructor|cbn in Hf; lia|].
    intros data Hu i j. symmetry. by apply masked_class.
  - case_bool_decide as Hmax; [|by left]. destruct (any_byte sub) eqn:Ea; [|by left]. cbn [andb].
    cbn in Hw. destruct Hw as [Hmin Hw].
    apply Hone; [by rewrite !length_replicate|by apply Forall_replicate|by apply Forall_replicate|cbn in Hf; lia|].
    intros data Hu i j. rewrite masked_wildcards, repetition_any by by apply any_byte_any_one.
    unfold gap_rel. subst max. rewrite Z2Nat.id by done. split; [intros (? & ? & H); specialize (H _ eq_refl); split; [done|lia]|].
    intros [? ->]. split; [done|]. split; [lia|]. intros m [= <-]. lia.
  - destruct (IH (sub :: stack) pattern mask) as [->|(p & m & -> & H)]; [by constructor|by constructor|cbn in *; lia|by left|].
    right. eexists p, m. split; [done|]. exact H.
  - cbn in Hw. apply foldr_and_Forall in Hw.
    destruct (IH (subs ++ stack) pattern mask) as [->|(p & m & -> & Hl & Hp & Hm & Hx)]; [by apply Forall_app| | |by left|].
    + apply Forall_app. split; [|done]. apply Forall_forall. intros h Hin. cbn in Hok.
      rewrite forallb_forall in *. intros rs Hrs. apply Hok, in_flat_map. exists h.
      split; [by apply list_elem_of_In|done].
    + cbn in Hf. rewrite map_app, sum_list_with_app. lia.
    + right. exists p, m. split; [done|]. split_and!; try done. intros data Hu. by apply extracted_concat, Hx.
Qed.
End Extract.

(** ** Trimming *)

(** The masked atom of a range of a masked literal. *)
Definition atom_of (s m : list Z) (a b : Z) (e : bool) : MaskedAtom :=
  {| masked_atom := {| atom_bytes := slice s a b; is_exact := e; backtrack := a |};
     atom_mask := slice m a b |}.

Lemma pop_slice {A} (l : list A) a b :
  0 <= a -> a < b -> b <= len l -> take (length (slice l a b) - 1) (slice l a b) = slice l a (b - 1).
Proof.
  intros H1 H2 H3. pose proof (len_slice l a b). unfold slice, len in *. rewrite take_take. f_equal.
  rewrite length_take, length_drop in *. lia.
Qed.

Section Trim.
Context (s m : list Z) (a : Z).
Hypothesis Hlen : len s = len m.
Hypothesis Ha : 0 <= a.

Lemma pop_atom b :
  a < b -> b <= len s -> pop (slice s a b) = slice s a (b - 1) /\ pop (slice m a b) = slice m a (b - 1).
Proof. intros H1 H2. unfold pop. rewrite !pop_slice by lia. done. Qed.

Lemma trim_loop_part fuel b :
  a <= b -> b <= len s ->
  exists b', a <= b' <= b /\ trim_loop fuel (atom_of s m a b false) = atom_of s m a b' false.
Proof.
  revert b. induction fuel as [|fuel IH]; intros b H1 H2; cbn [trim_loop]; case_bool_decide as Hz.
  1,2,4: by exists b; split; [lia|].
  cbn [atom_of masked_atom atom_mask atom_bytes is_exact backtrack] in *.
  assert (a < b).
  { enough (a <> b) by lia. intros <-. unfold slice in Hz. by rewrite Z.sub_diag in Hz. }
  destruct (pop_atom b) as [-> ->]; [done..|].
  destruct (IH (b - 1)) as (b' & Hb & E); [lia..|]. exists b'. split; [lia|exact E].
Qed.

Lemma trim_part b e :
  a < b -> b <= len s -> exists b', a <= b' < b /\ trim (atom_of s m a b e) = atom_of s m a b' false.
Proof.
  intros H1 H2. unfold trim. cbn [atom_of masked_atom atom_mask atom_bytes is_exact backtrack].
  rewrite len_slice by lia. assert (b - a =? 0 = false) as -> by lia.
  destruct (pop_atom b) as [-> ->]; [done..|].
  destruct (trim_loop_part (length (slice m a (b - 1))) (b - 1)) as (b' & Hb & E); [lia..|].
  exists b'. split; [lia|exact E].
Qed.

Lemma trim_while_part fuel b e :
  a <= b -> b <= len s -> b - a <= Z.of_nat fuel ->
  exists b' e', a <= b' <= b /\ trim_while fuel (atom_of s m a b e) = Ret (atom_of s m a b' e') /\
    total_combinations (atom_of s m a b' e') <= MAX_ATOMS_PER_REGEXP /\ (e' = true -> b' = b /\ e = true).
Proof.
  revert b e. induction fuel as [|fuel IH]; intros b e H1 H2 H3; cbn [trim_while];
    (destruct (MAX_ATOMS_PER_REGEXP <? total_combinations (atom_of s m a b e)) eqn:E;
     [|exists b, e; bools; split; [lia|]; by split; [|split; [lia|]]]).
  - assert (a = b) as <- by lia. exfalso. unfold total_combinations, atom_of, slice in E. cbn in E.
    rewrite Z.sub_diag in E. by vm_compute in E.
  - destruct (decide (a = b)) as [<-|Hne].
    { exfalso. unfold total_combinations, atom_of, slice in E. cbn in E.
      rewrite Z.sub_diag in E. by vm_compute in E. }
    destruct (trim_part b e) as (b1 & Hb1 & ->); [lia..|].
    destruct (IH b1 false) as (b' & e' & Hb' & Ht & Hc & He); [lia..|].
    exists b', e'. split; [lia|]. split; [done|]. split; [done|]. intros Hx. by destruct (He Hx).
Qed.
End Trim.

(** ** The atoms of a range of a masked literal *)

Section Atoms.
Context {IT : Itertools} {IL : ItertoolsLaws}.

Lemma atoms_of_part s m a b e :
  Forall is_u8 m -> len s = len m -> 0 <= a -> a < b <= a + 7 -> b <= len s ->
  exists atoms, mask_combinations (atom_of s m a b e) = Ret atoms /\
    len atoms = total_combinations (atom_of s m a b e) /\
    (forall data i j, Forall is_u8 data -> masked_at data s m i j ->
       exists at', at' ∈ atoms /\ found_at at' data i) /\
    (forall at', at' ∈ atoms -> at'.(backtrack) = a /\ at'.(is_exact) = e /\
       Forall3 byte_matches at'.(atom_bytes) (slice s a b) (slice m a b)).
Proof.
  intros Hm Hl Ha Hab Hb. assert (Hlm : len (slice m a b) = b - a) by (apply len_slice; lia).
  assert (Hls : len (slice s a b) = b - a) by (apply len_slice; lia).
  destruct (mask_combinations_spec (atom_of s m a b e)) as (atoms & E & _ & Hlen & Hall);
    cbn [atom_of masked_atom atom_mask atom_bytes] in *.
  - by apply Forall_slice.
  - unfold len in *. lia.
  - intros Hn. rewrite Hn in Hlm. rewrite len_nil in Hlm. lia.
  - lia.
  - exists atoms. split; [exact E|]. split; [exact Hlen|]. split.
    + intros data i j Hu (w & Hw & H3).
      assert (Hwl : len w = len s) by (unfold len; f_equal; eapply Forall3_length_lm, H3).
      exists {| atom_bytes := slice w a b; is_exact := e; backtrack := a |}. split.
      * apply Hall. cbn. split; [|split; [|done]]; [|by apply Forall3_slice].
        apply get_range_Some in Hw as (_ & _ & ->). by do 2 apply Forall_slice.
      * unfold found_at. cbn. rewrite len_slice by lia. replace (i + a + (b - a)) with (i + b) by lia.
        apply has_at_slice; [|lia|lia]. unfold has_at. pose proof (get_range_span _ _ _ _ Hw) as [_ ->].
        by replace (i + (j - i)) with j by lia.
    + intros at' (_ & H3 & Hbt & Hx)%Hall. done.
Qed.
End Atoms.

(** * Properties *)

(** C17: splitting a pattern at its large gaps does not change what it matches:
    the pieces, at the distances that the gaps of the chain allow, match exactly
    what the pattern matches, as long as the pattern does not end with a large
    gap. When it is split at all, every piece needs at least
    [MIN_PATTERN_LENGTH_IN_CHAIN] bytes. *)
Theorem split_preserves_matches `{RegexSyntaxLaws} (self : ReHir) :
  hir_wf self.(inner) ->
  (forall items, self.(inner) = HConcat items ->
     items <> [] /\ forall item, last items = Some item -> is_large_gap item = false) ->
  exists head tail, split_at_large_gaps self = Ret (head, tail) /\
    (forall data, Forall is_u8 data -> forall i j,
       chain_match head tail data i j <-> hmatch self.(inner) data i j) /\
    (tail <> [] -> forall h, h = head \/ h ∈ chained_hir <$> tail ->
       forall data i j, hmatch h.(inner) data i j -> MIN_PATTERN_LENGTH_IN_CHAIN <= j - i).
Proof.
  intros Hw Hl. unfold split_at_large_gaps.
  assert (Hone : exists head tail, Ret (self, []) = Ret (head, tail) /\
    (forall data, Forall is_u8 data -> forall i j,
       chain_match head tail data i j <-> hmatch self.(inner) data i j) /\
    (tail <> [] -> forall h, h = head \/ h ∈ chained_hir <$> tail ->
       forall data i j, hmatch h.(inner) data i j -> MIN_PATTERN_LENGTH_IN_CHAIN <= j - i)).
  { exists self, []. split; [done|]. split; [|done]. intros data _ i j.
    unfold chain_match. cbn [mbind list_bind]. apply seq_match_singleton, hmatch_bounded. }
  destruct (inner self) as [| | | | | |items|] eqn:E; try exact Hone. clear Hone.
  destruct (Hl items eq_refl) as [Hne Hlast]. cbn in Hw. apply foldr_and_Forall in Hw.
  destruct (split_finish_spec self.(greedy)
    (foldl (fun st item => split_step self.(greedy) item st) split_new items))
    as (head & tail & Ef & Hm & Hlong).
  - by apply split_loop_chunks.
  - apply split_loop_long. constructor.
  - exists head, tail. split; [done|]. split.
    + intros data Hu i j. rewrite Hm by done. rewrite (split_loop_rels _ _ _ _ Hw Hu i j). done.
    + intros Ht h. destruct (Hlong Ht) as [Hh Ht']. intros [->|(c & -> & Hc)%list_elem_of_fmap]; [apply Hh|].
      unfold chain_long in Ht'. rewrite Forall_forall in Ht'. by apply Ht'.
Qed.

Lemma split_preserves_matches_witness :
  let h := HConcat [HLiteral [1; 2]; HRepetition 0 (Some 300) false (HClass (ClassBytes [(0, 255)]));
                    HLiteral [3; 4]] in
  hir_wf h /\ exists head c, split_at_large_gaps (hir_from h) = Ret (head, [c]) /\
    c.(gap) = Bounded 0 300 /\
    (chain_match head [c] [1; 2; 9; 3; 4] 0 5 <-> hmatch h [1; 2; 9; 3; 4] 0 5).
Proof.
  cbn zeta. set (h := HConcat _).
  assert (Hw : hir_wf h).
  { repeat split; repeat constructor; unfold is_u8; cbn; lia. }
  split; [exact Hw|]. destruct (split_preserves_matches (hir_from h)) as (head & tail & E & Hm & _).
  - exact Hw.
  - intros items [= <-]. split; [discriminate|]. by intros item [= <-].
  - vm_compute in E. injection E as <- <-. eexists _, _. split; [reflexivity|]. split; [reflexivity|].
    apply Hm. repeat constructor; unfold is_u8; lia.
Defined.

(** C29: the extraction of a masked literal always ends without panicking, and
    when it succeeds the masked literal matches exactly what the pattern matches,
    none of its matches is missed by the atoms, which are not too many, and an
    exact atom is a match; provided that the byte classes of the pattern that are
    taken for a masked byte are one. *)
Theorem masked_literal_extraction `{HirSemantics} `{ItertoolsLaws} (self : ReHir) :
  hir_wf self.(inner) -> forallb recognised (hir_classes self.(inner)) = true ->
  try_extract_literal_with_mask self = Ret None \/
  exists p m atoms, try_extract_literal_with_mask self = Ret (Some (p, m, atoms)) /\
    len atoms <= MAX_ATOMS_PER_REGEXP /\
    forall data, Forall is_u8 data ->
      (forall i j, hmatch self.(inner) data i j <-> masked_at data p m i j) /\
      (forall i j, hmatch self.(inner) data i j -> exists a, a ∈ atoms /\ found_at a data i) /\
      (forall a i, a ∈ atoms -> a.(is_exact) = true -> found_at a data i ->
         hmatch self.(inner) data i (i + len p)).
Proof.
  intros Hw Hok. unfold try_extract_literal_with_mask.
  destruct (extract_loop_spec (hir_size self.(inner)) [self.(inner)] [] [])
    as [->|(p & m & -> & Hl & Hp & Hm & Hx)]; [by constructor|by constructor|cbn; lia|by left|].
  cbn [mbind res_bind app].
  assert (Hx' : forall data, Forall is_u8 data ->
    forall i j, hmatch self.(inner) data i j <-> masked_at data p m i j).
  { intros data Hu i j. rewrite <- (Hx data Hu i j). symmetry. apply seq_match_singleton, hmatch_bounded. }
  destruct (decide (p = [])) as [->|Hne]; [by destruct m; [left|]|].
  assert (Hll : len p = len m) by (unfold len; lia).
  destruct (masked_range_spec p m Hll Hp Hm Hne) as (r & q & -> & k & a & Hk & -> & Ha & Hin & _).
  assert (Hzl : len (zip p m) = len p) by (unfold len; rewrite length_zip_with; lia). rewrite Hzl in *.
  assert (1 <= len p) by (destruct p; [done|]; rewrite len_cons; pose proof (len_nonneg p); lia).
  assert (1 <= k <= 4) by (revert Hk; elem_lia).
  set (b := a + Z.min k (len p)) in *. unfold masked_from_slice_range.
  cbn [mbind res_bind fst snd]. rewrite Hll, Z.eqb_refl. cbn [assert mbind res_bind].
  unfold from_slice_range. destruct (a <=? u16_MAX) eqn:Eb; [|by left].
  assert (get_range p a b = Some (slice p a b)) as -> by (apply get_range_Some; subst b; split_and!; lia || done).
  assert (get_range m a b = Some (slice m a b)) as -> by (apply get_range_Some; subst b; split_and!; lia || done).
  cbn [mbind option_bind atom_mask]. set (e := len (slice p a b) =? len p).
  change {| masked_atom := {| atom_bytes := slice p a b; is_exact := e; backtrack := a |};
            atom_mask := slice m a b |} with (atom_of p m a b e).
  assert (Hlm : len (slice m a b) = b - a) by (apply len_slice; subst b; lia).
  destruct (trim_while_part p m a Hll Ha (length (slice m a b)) b e) as (b' & e' & Hb' & -> & Hc & He);
    [subst b; lia|subst b; lia|unfold len in Hlm; lia|].
  cbn [mbind res_bind]. case_bool_decide as Hnil; [by left|right].
  assert (a < b').
  { enough (a <> b') by lia. intros ->. apply Hnil. cbn. unfold slice. by rewrite Z.sub_diag. }
  destruct (atoms_of_part p m a b' e') as (atoms & Em & Hn & Hfound & Hexact); [done|done|done|subst b; lia..|].
  rewrite Em. exists p, m, atoms. split; [done|]. split; [lia|]. intros data Hu. split; [by apply Hx'|].
  split.
  - intros i j Hm'. apply Hx' in Hm'; [|done]. by eapply Hfound.
  - intros at' i Hin' Hex Hf. apply Hx'; [done|]. destruct (Hexact at' Hin') as (Hbt & Hex' & Hf3).
    rewrite Hex in Hex'. destruct (He (eq_sym Hex')) as [-> He']. subst e.
    rewrite len_slice in He' by (subst b; lia). apply Z.eqb_eq in He'. assert (a = 0) as -> by (subst b; lia).
    assert (b = len p) as Hbp by lia. rewrite Hbp, !slice_0, !slice_to_all in Hf3 by lia.
    assert (len (atom_bytes at') = len p) as Hal by (unfold len; f_equal; eapply Forall3_length_lm, Hf3).
    rewrite found_at_0 in Hf by done. exists (atom_bytes at'). split; [|done]. unfold has_at in Hf.
    by rewrite Hal in Hf.
Qed.

Lemma masked_literal_extraction_witness :
  let h := HConcat [HLiteral [1; 2]; HClass (ClassBytes [(0x30, 0x3f)])] in
  hir_wf h /\ exists p m atoms, try_extract_literal_with_mask (hir_from h) = Ret (Some (p, m, atoms)) /\
    len atoms <= 16384 /\
    (hmatch h [1; 2; 0x35] 0 3 <-> masked_at [1; 2; 0x35] p m 0 3).
Proof.
  cbn zeta. set (h := HConcat _).
  assert (Hw : hir_wf h).
  { repeat split; repeat constructor; unfold is_u8; cbn; lia. }
  split; [exact Hw|].
  destruct (masked_literal_extraction (hir_from h)) as [E|(p & m & atoms & E & Hl & Hm)].
  - exact Hw.
  - vm_compute. reflexivity.
  - vm_compute in E. discriminate.
  - exists p, m, atoms. split; [exact E|]. split; [exact Hl|]. apply Hm.
    repeat constructor; unfold is_u8; lia.
Defined.

(** A large gap at the end of a pattern is dropped. The pattern that needs
    at least ten bytes after [abc] becomes the pattern [abc] alone, which matches
    data that the pattern does not. *)
Theorem trailing_gap_dropped :
  let gap := HRepetition 10 (Some 1000) false (HClass (ClassBytes [(0, 255)])) in
  let self := hir_from (HConcat [HLiteral [97; 98; 99]; gap]) in
  exists head, split_at_large_gaps self = Ret (head, []) /\
    hmatch head.(inner) [97; 98; 99] 0 3 /\
    forall i j, ~ hmatch self.(inner) [97; 98; 99] i j.
Proof.
  cbn zeta. eexists. split; [vm_compute; reflexivity|]. split.
  - cbn. exists 3. repeat split; vm_compute; congruence.
  - intros i j Hm. apply (min_len_spec _ _ _ _) in Hm as Hl; [|by intros rs w (c & -> & _)].
    apply hmatch_bounded in Hm as (H1 & H2 & H3). change (j <= 3) in H3. change (13 <= j - i) in Hl. lia.
Qed.
