(* ===== verification/Hex2Hir.v ===== *)
(** Hexadecimal patterns: the tokens of [parser/src/ast/mod.rs] and their
    conversion to an expression, from [lib/src/compiler/ir/hex2hir.rs].

    The source spans are left out, and with them the position of errors. The
    warnings are the ones handed to [Warnings::add], in order. *)

From S2P Require Import Prelude.
From S2P Require Import Atoms.
From S2P Require Import ByteClass.
From S2P Require Import Hir.

(** * The syntax tree *)

Record HexJump := { start : option Z; end_ : option Z }.

#[export] Instance HexJump_eq_dec : EqDecision HexJump.
Proof. solve_decision. Defined.

Module HexToken.

(** A sub-pattern is a list of tokens. *)
Inductive t : Type :=
  | Byte (byte : HexByte)
  | NotByte (byte : HexByte)
  | Alternative (alternatives : list (list t))
  | Jump (jump : HexJump).

End HexToken.

Notation HexSubPattern := (list HexToken.t).

(** The number of iterations for a sub-pattern: one for each token of it and of
    its alternatives, and one for the end of each. *)
Fixpoint token_size (token : HexToken.t) : nat :=
  match token with
  | HexToken.Alternative alts => S (sum_list (map (fun alt => S (sum_list (map token_size alt))) alts))
  | _ => 1
  end.

Definition hex_size (tokens : HexSubPattern) : nat := S (sum_list (map token_size tokens)).

(** * The functions of [regex_syntax] *)

Class HexSyntax := {
  syntax_literal : list Z -> Hir;
  syntax_class : HirClass -> Hir;
  syntax_alternation : list Hir -> Hir;
  cu_negate : list (Z * Z) -> list (Z * Z);
}.

(** What the documentation of the crate promises: the constructors may simplify
    the expression, but not change what it matches, the one of a class gives a
    class unless it has at most one element, and the dot for any byte is the class
    of all bytes. *)
Class HexSyntaxLaws `{RegexSyntaxLaws} `{HexSyntax} := {
  syntax_literal_byte b : syntax_literal [b] = HLiteral [b];
  syntax_class_bytes c :
    canonical c -> 2 <= len (class_bytes c) -> syntax_class (ClassBytes c) = HClass (ClassBytes c);
  dot_any_byte_class : dot_any_byte = HClass (ClassBytes [(0, 255)]);
  syntax_alternation_spec subs data i j :
    hmatch (syntax_alternation subs) data i j <-> hmatch (HAlternation subs) data i j;
  syntax_concat_wf subs : Forall hir_wf subs -> hir_wf (syntax_concat subs);
  syntax_repetition_wf min max g sub : 0 <= min -> hir_wf sub -> hir_wf (syntax_repetition min max g sub);
  syntax_alternation_wf subs : subs <> [] -> Forall hir_wf subs -> hir_wf (syntax_alternation subs);
}.

(** * The conversion *)

(** [CompileError::InvalidPattern], by its message. *)
Inductive InvalidPattern : Type :=
  | NegationNotAllowed
  | ZeroLengthJump
  | LowerBoundGreater (start end_ : Z) (coalesced : bool).

(** The warnings so far, and the result. *)
Definition outcome (A : Type) : Type := list HexJump * (InvalidPattern + A).

(** [?] *)
Definition and_then {A B} (m : res (outcome A)) (f : list HexJump -> A -> res (outcome B))
  : res (outcome B) :=
  '(w, r) ← m;
  match r with
  | inl e => Ret (w, inl e)
  | inr a => f w a
  end.

(** The items of a list, converted in order until one fails. *)
Fixpoint try_each {A B} (f : list HexJump -> A -> res (outcome B)) (w : list HexJump) (l : list A)
    (acc : list B) : res (outcome (list B)) :=
  match l with
  | [] => Ret (w, inr acc)
  | x :: l => and_then (f w x) (fun w y => try_each f w l (acc ++ [y]))
  end.

Section Conversion.
Context `{ClassBytesOps} `{RegexSyntax} `{HexSyntax}.

Definition hex_byte_hir_from_ast (byte : HexByte) : res Hir :=
  if byte.(hb_mask) =? 0xff then Ret (syntax_literal [byte.(hb_value)])
  else if byte.(hb_mask) =? 0x00 then Ret dot_any_byte
  else
    class ← hex_byte_to_class byte;
    Ret (syntax_class (ClassBytes class)).

(** The class of the bytes that are not the one of a token [NotByte]. *)
Definition negated_class (hir : Hir) : res HirClass :=
  match hir with
  | HClass (ClassBytes class) => Ret (ClassBytes (cb_negate class))
  | HClass (ClassUnicode class) => Ret (ClassUnicode (cu_negate class))
  | HLiteral literal =>
      Ret (ClassBytes (cb_negate (foldl (fun class b => cb_push class (b, b)) [] literal)))
  | _ => Panic
  end.

(** The sum of two bounds of jumps, with 32 bits. *)
Definition add_u32 (a b : Z) : res Z := _ ← assert (a + b <=? u32_MAX); Ret (a + b).

Definition join_start (s1 s2 : option Z) : res (option Z) :=
  match s1, s2 with
  | Some s1, Some s2 => s ← add_u32 s1 s2; Ret (Some s)
  | Some s1, None => Ret (Some s1)
  | None, Some s2 => Ret (Some s2)
  | None, None => Ret None
  end.

Definition join_end (e1 e2 : option Z) : res (option Z) :=
  match e1, e2 with
  | Some e1, Some e2 => e ← add_u32 e1 e2; Ret (Some e)
  | _, _ => Ret None
  end.

(** The loop that joins consecutive jumps: the jump, whether it joins several,
    and the tokens that are left. *)
Fixpoint coalesce (jump : HexJump) (coalesced : bool) (ast_tokens : HexSubPattern)
  : res (HexJump * bool * HexSubPattern) :=
  match ast_tokens with
  | HexToken.Jump next :: ast_tokens =>
      s ← join_start jump.(start) next.(start);
      e ← join_end jump.(end_) next.(end_);
      coalesce {| start := s; end_ := e |} true ast_tokens
  | _ => Ret (jump, coalesced, ast_tokens)
  end.

Definition check_jump (jump : HexJump) (coalesced : bool) : option InvalidPattern :=
  match jump.(start), jump.(end_) with
  | Some s, Some e =>
      if (s =? 0) && (e =? 0) then Some ZeroLengthJump
      else if e <? s then Some (LowerBoundGreater s e coalesced)
      else None
  | _, _ => None
  end.

Definition jump_hir (jump : HexJump) : Hir :=
  syntax_repetition (default 0 jump.(start)) jump.(end_) false dot_any_byte.

(** [hex_sub_pattern_hir_from_ast], from the tokens that are left and the
    expressions that are ready. *)
Fixpoint hex_tokens_hir (fuel : nat) (w : list HexJump) (ast_tokens : HexSubPattern)
    (hir_tokens : list Hir) : res (outcome Hir) :=
  match fuel with
  | O => OutOfFuel
  | S fuel =>
      match ast_tokens with
      | [] => Ret (w, inr (syntax_concat hir_tokens))
      | HexToken.Byte byte :: ast_tokens =>
          hir ← hex_byte_hir_from_ast byte;
          hex_tokens_hir fuel w ast_tokens (hir_tokens ++ [hir])
      | HexToken.NotByte byte :: ast_tokens =>
          if byte.(hb_mask) =? 0 then Ret (w, inl NegationNotAllowed)
          else
            hir ← hex_byte_hir_from_ast byte;
            class ← negated_class hir;
            hex_tokens_hir fuel w ast_tokens (hir_tokens ++ [syntax_class class])
      | HexToken.Alternative alts :: ast_tokens =>
          and_then (try_each (fun w alt => hex_tokens_hir fuel w alt []) w alts [])
            (fun w alternatives =>
               hex_tokens_hir fuel w ast_tokens (hir_tokens ++ [syntax_alternation alternatives]))
      | HexToken.Jump jump :: ast_tokens =>
          '(jump, coalesced, ast_tokens) ← coalesce jump false ast_tokens;
          let w := if coalesced : bool then w ++ [jump] else w in
          match check_jump jump coalesced with
          | Some e => Ret (w, inl e)
          | None => hex_tokens_hir fuel w ast_tokens (hir_tokens ++ [jump_hir jump])
          end
      end
  end.

Definition hex_sub_pattern_hir_from_ast (w : list HexJump) (sub_pattern : HexSubPattern)
  : res (outcome Hir) :=
  hex_tokens_hir (hex_size sub_pattern) w sub_pattern [].

Definition hex_pattern_hir_from_ast (w : list HexJump) (pattern : HexSubPattern) : res (outcome Hir) :=
  hex_sub_pattern_hir_from_ast w pattern.
End Conversion.

(** * What a hexadecimal pattern means *)

(** A byte of the data that satisfies [P]. *)
Definition byte_rel (P : Z -> Prop) (data : list Z) (i j : Z) : Prop :=
  span data i j /\ j = i + 1 /\ exists b, get data i = Some b /\ P b.

Fixpoint token_match (data : list Z) (token : HexToken.t) (i j : Z) : Prop :=
  match token with
  | HexToken.Byte byte => byte_rel (fun b => hex_byte_matches b byte) data i j
  | HexToken.NotByte byte => byte_rel (fun b => ~ hex_byte_matches b byte) data i j
  | HexToken.Alternative alts =>
      Exists (fun r => r i j) (map (fun alt => seq_match data (map (token_match data) alt)) alts)
  | HexToken.Jump jump => gap_rel data (default 0 jump.(start)) jump.(end_) i j
  end.

Definition hex_match (data : list Z) (tokens : HexSubPattern) (i j : Z) : Prop :=
  seq_match data (map (token_match data) tokens) i j.

(** ** Runs of consecutive jumps *)

Definition is_jump (token : HexToken.t) : bool :=
  match token with HexToken.Jump _ => true | _ => false end.

Definition starts_with_jump (tokens : HexSubPattern) : bool :=
  match tokens with token :: _ => is_jump token | [] => false end.

(** The maximal runs of jumps of a sub-pattern, not the ones of its alternatives. *)
Fixpoint runs_of_jumps (tokens : HexSubPattern) : list (list HexJump) :=
  match tokens with
  | [] => []
  | HexToken.Jump jump :: tokens =>
      if starts_with_jump tokens then
        match runs_of_jumps tokens with
        | run :: runs => (jump :: run) :: runs
        | [] => [[jump]]
        end
      else [jump] :: runs_of_jumps tokens
  | _ :: tokens => runs_of_jumps tokens
  end.

Definition sum_of (bound : HexJump -> option Z) (run : list HexJump) : Z :=
  foldr Z.add 0 (map (fun jump => default 0 (bound jump)) run).

(** The jump that stands for a run: the sum of the lower bounds, if there is one,
    and the sum of the upper bounds, if every jump has one. *)
Definition sum_jump (run : list HexJump) : HexJump :=
  {| start := if existsb (fun jump => bool_decide (is_Some jump.(start))) run
              then Some (sum_of start run) else None;
     end_ := if forallb (fun jump => bool_decide (is_Some jump.(end_))) run
             then Some (sum_of end_ run) else None |}.

(** ** Conditions on every token and every run of a pattern *)

Section Everywhere.
Variable token_good : HexToken.t -> bool.
Variable run_good : list HexJump -> bool.

Fixpoint token_all (token : HexToken.t) : bool :=
  token_good token &&
  match token with
  | HexToken.Alternative alts =>
      forallb (fun alt => forallb token_all alt && forallb run_good (runs_of_jumps alt)) alts
  | _ => true
  end.

Definition hex_all (tokens : HexSubPattern) : bool :=
  forallb token_all tokens && forallb run_good (runs_of_jumps tokens).
End Everywhere.

(** What the conversion accepts: no [~??], and no run of jumps with the bounds
    of zero or with a lower bound above the upper one. *)
Definition negation_good (token : HexToken.t) : bool :=
  match token with HexToken.NotByte byte => negb (byte.(hb_mask) =? 0) | _ => true end.

Definition run_accepted (run : list HexJump) : bool :=
  match (sum_jump run).(start), (sum_jump run).(end_) with
  | Some s, Some e => (s <=? e) && negb (e =? 0)
  | _, _ => true
  end.

Definition hex_accepted : HexSubPattern -> bool := hex_all negation_good run_accepted.

(** What the parser produces: bytes with zeroes where they are masked out,
    alternatives that are not empty, bounds of 32 bits. *)
Definition u8b (z : Z) : bool := (0 <=? z) && (z <=? u8_MAX).
Definition boundb (bound : option Z) : bool :=
  match bound with Some z => (0 <=? z) && (z <=? u32_MAX) | None => true end.

Definition cleanb (byte : HexByte) : bool :=
  u8b byte.(hb_value) && u8b byte.(hb_mask) && (Z.land byte.(hb_value) (not_u8 byte.(hb_mask)) =? 0).

Definition token_parsed (token : HexToken.t) : bool :=
  match token with
  | HexToken.Byte byte | HexToken.NotByte byte => cleanb byte
  | HexToken.Alternative alts => negb (bool_decide (alts = []))
  | HexToken.Jump jump => boundb jump.(start) && boundb jump.(end_)
  end.

Definition hex_parsed : HexSubPattern -> bool := hex_all token_parsed (fun _ => true).

(** The sum of the upper bounds, up to a jump without one. *)
Fixpoint ends_sum (run : list HexJump) : Z :=
  match run with
  | jump :: run => match jump.(end_) with Some e => e + ends_sum run | None => 0 end
  | [] => 0
  end.

(** The sums that are computed for a run of jumps have 32 bits. *)
Definition run_fits (run : list HexJump) : bool := (sum_of start run <=? u32_MAX) && (ends_sum run <=? u32_MAX).

Definition hex_fits : HexSubPattern -> bool := hex_all (fun _ => true) run_fits.

(** The bounds of every jump are in order. *)
Definition token_ordered (token : HexToken.t) : bool :=
  match token with
  | HexToken.Jump {| start := Some s; end_ := Some e |} => s <=? e
  | _ => true
  end.

Definition hex_ordered : HexSubPattern -> bool := hex_all token_ordered (fun _ => true).

(** ** The warnings

    One for each run of two jumps or more, in order. *)
Definition run_warning (run : list HexJump) : list HexJump :=
  if bool_decide (2 <= length run)%nat then [sum_jump run] else [].

Section Warnings.
Variable of_token : HexToken.t -> list HexJump.

Fixpoint warnings_after (run : list HexJump) (tokens : HexSubPattern) : list HexJump :=
  match tokens with
  | HexToken.Jump jump :: tokens => warnings_after (run ++ [jump]) tokens
  | token :: tokens => run_warning run ++ of_token token ++ warnings_after [] tokens
  | [] => run_warning run
  end.
End Warnings.

Fixpoint token_warnings (token : HexToken.t) : list HexJump :=
  match token with
  | HexToken.Alternative alts => concat (map (warnings_after token_warnings []) alts)
  | _ => []
  end.

Definition hex_warnings : HexSubPattern -> list HexJump := warnings_after token_warnings [].

(** * An instance of the interface *)

#[export] Instance plain_HexSyntax : HexSyntax := {
  syntax_literal := HLiteral;
  syntax_class := HClass;
  syntax_alternation := HAlternation;
  cu_negate := id;
}.

#[export] Instance plain_HexSyntaxLaws : HexSyntaxLaws.
Proof.
  split; try done.
  - intros subs. cbn. by rewrite foldr_and_Forall.
  - intros subs. cbn. by rewrite foldr_and_Forall.
Qed.

(** * Lemmas on runs of jumps *)

Lemma runs_of_jumps_cons token tokens :
  is_jump token = false -> runs_of_jumps (token :: tokens) = runs_of_jumps tokens.
Proof. by destruct token. Qed.

(** The tokens after a jump: the rest of its run, and what follows it. *)
Lemma split_run tokens :
  exists run rest, tokens = map HexToken.Jump run ++ rest /\ starts_with_jump rest = false.
Proof.
  induction tokens as [|token tokens (run & rest & -> & Hr)]; [by exists [], []|].
  destruct (is_jump token) eqn:E.
  - destruct token as [| | |jump]; try done. by exists (jump :: run), rest.
  - by exists [], (token :: map HexToken.Jump run ++ rest).
Qed.

Lemma runs_of_run jump run rest :
  starts_with_jump rest = false ->
  runs_of_jumps (map HexToken.Jump (jump :: run) ++ rest) = (jump :: run) :: runs_of_jumps rest.
Proof.
  intros Hr. revert jump. induction run as [|jump' run IH]; intros jump.
  - cbn [map app runs_of_jumps]. by rewrite Hr.
  - specialize (IH jump'). cbn [map app] in *. cbn [runs_of_jumps] in *. cbn [starts_with_jump is_jump].
    by rewrite IH.
Qed.

Lemma warnings_after_run of_token pre run rest :
  warnings_after of_token pre (map HexToken.Jump run ++ rest) = warnings_after of_token (pre ++ run) rest.
Proof.
  revert pre. induction run as [|jump run IH]; intros pre; cbn; [by rewrite app_nil_r|].
  rewrite IH. by rewrite <- app_assoc.
Qed.

Lemma warnings_after_rest of_token run rest :
  starts_with_jump rest = false ->
  warnings_after of_token run rest = run_warning run ++ warnings_after of_token [] rest.
Proof. by destruct rest as [|[] rest]; intros; cbn; rewrite ?app_nil_r. Qed.

Lemma sum_of_snoc bound run jump : sum_of bound (run ++ [jump]) = sum_of bound run + default 0 (bound jump).
Proof. unfold sum_of. induction run as [|j run IH]; cbn in *; lia. Qed.

Lemma sum_jump_one jump : sum_jump [jump] = jump.
Proof.
  destruct jump as [[s|] [e|]]; unfold sum_jump, sum_of; cbn; by rewrite ?Z.add_0_r.
Qed.

Lemma sum_of_none bound run :
  existsb (fun jump => bool_decide (is_Some (bound jump))) run = false -> sum_of bound run = 0.
Proof.
  induction run as [|jump run IH]; [done|]. cbn. intros [H1 H2]%orb_false_iff.
  apply bool_decide_eq_false in H1. unfold sum_of in *. cbn. rewrite IH by done.
  by apply eq_None_not_Some in H1 as ->.
Qed.

Definition jumps_u32 : list HexJump -> Prop :=
  Forall (fun jump => 0 <= default 0 jump.(start) <= u32_MAX /\ 0 <= default 0 jump.(end_) <= u32_MAX).

Lemma sum_of_app bound run1 run2 : sum_of bound (run1 ++ run2) = sum_of bound run1 + sum_of bound run2.
Proof. unfold sum_of. induction run1 as [|j run IH]; cbn in *; lia. Qed.

Lemma sum_of_nonneg run : jumps_u32 run -> 0 <= sum_of start run /\ 0 <= sum_of end_ run.
Proof. unfold sum_of. induction 1 as [|jump run H _ IH]; cbn in *; lia. Qed.

Lemma ends_sum_nonneg run : jumps_u32 run -> 0 <= ends_sum run.
Proof. induction 1 as [|jump run H _ IH]; cbn in *; [lia|]. destruct (end_ jump); cbn in *; lia. Qed.

Lemma ends_sum_all run :
  forallb (fun jump => bool_decide (is_Some jump.(end_))) run = true -> ends_sum run = sum_of end_ run.
Proof.
  unfold sum_of. induction run as [|jump run IH]; [done|]. cbn. intros [[e He]%bool_decide_eq_true Hr]%andb_true_iff.
  rewrite He. cbn. by rewrite (IH Hr).
Qed.

Lemma ends_sum_app run1 run2 :
  ends_sum (run1 ++ run2) =
  ends_sum run1 + if forallb (fun jump => bool_decide (is_Some jump.(end_))) run1 then ends_sum run2 else 0.
Proof.
  induction run1 as [|jump run1 IH]; [done|]. cbn. destruct (end_ jump); [|done]. rewrite IH. cbn. lia.
Qed.

(** A run fits if its first jumps do and their sums do not grow too much. *)
Lemma run_fits_app run1 run2 : jumps_u32 run2 -> run_fits (run1 ++ run2) = true -> run_fits run1 = true.
Proof.
  intros Hn. pose proof (sum_of_nonneg _ Hn). pose proof (ends_sum_nonneg _ Hn).
  unfold run_fits. rewrite sum_of_app, ends_sum_app. case_match; lia.
Qed.

(** The bounds of the jump of a run, with one more jump. *)
Lemma sum_start_snoc run jump :
  sum_of start run <= u32_MAX -> default 0 jump.(start) <= u32_MAX ->
  join_start (sum_jump run).(start) jump.(start) =
  if sum_of start (run ++ [jump]) <=? u32_MAX then Ret (sum_jump (run ++ [jump])).(start) else Panic.
Proof.
  intros Hr Hj. unfold sum_jump. cbn [start]. rewrite existsb_app, sum_of_snoc. cbn [existsb].
  destruct (existsb _ run) eqn:E; [|rewrite (sum_of_none _ _ E), Z.add_0_l];
    destruct (start jump) as [s|] eqn:Es; cbn in *; unfold add_u32; rewrite ?Z.add_0_r; try done;
    try (by destruct (_ <=? _)); by match goal with |- context [if ?b then _ else _] => assert (b = true) as -> by lia end.
Qed.

Lemma sum_end_snoc run jump :
  ends_sum run <= u32_MAX ->
  join_end (sum_jump run).(end_) jump.(end_) =
  if ends_sum (run ++ [jump]) <=? u32_MAX then Ret (sum_jump (run ++ [jump])).(end_) else Panic.
Proof.
  intros Hr. unfold sum_jump. cbn [end_]. rewrite forallb_app, ends_sum_app, sum_of_snoc. cbn [forallb ends_sum].
  destruct (forallb _ run) eqn:E.
  - rewrite (ends_sum_all _ E) in *. destruct (end_ jump) as [e|] eqn:Ee; cbn.
    + unfold add_u32. rewrite Z.add_0_r. by destruct (_ <=? _).
    + rewrite Z.add_0_r. by assert (sum_of end_ run <=? u32_MAX = true) as -> by lia.
  - rewrite Z.add_0_r. by assert (ends_sum run <=? u32_MAX = true) as -> by lia.
Qed.

(** Consecutive jumps are joined in the jump of the run, unless a sum overflows. *)
Lemma coalesce_run pre run c rest :
  jumps_u32 run -> starts_with_jump rest = false -> run_fits pre = true ->
  coalesce (sum_jump pre) c (map HexToken.Jump run ++ rest) =
  if run_fits (pre ++ run) then Ret (sum_jump (pre ++ run), c || negb (bool_decide (run = [])), rest) else Panic.
Proof.
  intros Hn Hr. revert pre c. induction Hn as [|jump run Hj Hn IH]; intros pre c Hf.
  - cbn [map app]. rewrite app_nil_r, Hf, bool_decide_true by done. cbn. rewrite orb_false_r.
    by destruct rest as [|[] rest].
  - cbn [map app coalesce]. pose proof Hf as Hf'. unfold run_fits in Hf'.
    rewrite sum_start_snoc, sum_end_snoc by lia.
    replace (pre ++ jump :: run) with ((pre ++ [jump]) ++ run) by by rewrite <- app_assoc.
    destruct (run_fits (pre ++ [jump])) eqn:E.
    + pose proof E as E'. unfold run_fits in E'. apply andb_true_iff in E' as [-> ->]. cbn [mbind res_bind].
      specialize (IH (pre ++ [jump]) true E). rewrite (bool_decide_false (jump :: run = [])) by done.
      replace (c || negb false) with true by by destruct c. by apply IH.
    + destruct (run_fits ((pre ++ [jump]) ++ run)) eqn:E2; [apply run_fits_app in E2; [congruence|done]|].
      unfold run_fits in E. destruct (sum_of start (pre ++ [jump]) <=? u32_MAX); [|done]. cbn [andb] in E. by rewrite E.
Qed.

(** ** What a run matches *)

Lemma gap_rel_compose data min1 max1 min2 max2 i j :
  0 <= min1 -> 0 <= min2 -> (forall m, max1 = Some m -> min1 <= m) -> (forall m, max2 = Some m -> min2 <= m) ->
  (exists k, gap_rel data min1 max1 i k /\ gap_rel data min2 max2 k j) <->
  gap_rel data (min1 + min2) (m1 ← max1; m2 ← max2; Some (m1 + m2)) i j.
Proof.
  intros H1 H2 Hm1 Hm2. unfold gap_rel, span. split.
  - intros (k & (? & ? & G1) & ? & ? & G2). split; [lia|]. split; [lia|].
    destruct max1 as [m1|], max2 as [m2|]; cbn; try done.
    intros m [= <-]. specialize (G1 _ eq_refl). specialize (G2 _ eq_refl). lia.
  - intros (? & ? & G). exists (i + match max2 with Some m2 => Z.max min1 (j - i - m2) | None => min1 end).
    destruct max1 as [m1|], max2 as [m2|]; cbn in G;
      try (specialize (G _ eq_refl)); try (specialize (Hm1 _ eq_refl)); try (specialize (Hm2 _ eq_refl));
      split_and!; try lia; try (by intros); intros m [= <-]; lia.
Qed.

Lemma seq_match_cons data r rs i j :
  bounded data r -> seq_match data (r :: rs) i j <-> exists k, r i k /\ seq_match data rs k j.
Proof.
  intros Hb. cbn. split; [naive_solver|]. intros (k & Hr & Hs). pose proof (Hb i k Hr). exists k.
  split; [|done]. unfold span in *. lia.
Qed.

Lemma run_matches data run i j :
  jumps_u32 run -> Forall (fun jump => token_ordered (HexToken.Jump jump) = true) run ->
  hex_match data (map HexToken.Jump run) i j <->
  gap_rel data (sum_of start run) (sum_jump run).(end_) i j.
Proof.
  intros Hn. revert i. induction Hn as [|jump run [Hs He] Hn IH]; intros i Ho.
  - unfold hex_match, gap_rel. cbn. split.
    + intros [-> H]. split_and!; [done|lia|]. intros m [= <-]. lia.
    + intros (H & H1 & H2). specialize (H2 0 eq_refl). split; [lia|done].
  - apply Forall_cons in Ho as [Ho Ho']. unfold hex_match in *. cbn [map].
    rewrite seq_match_cons by apply gap_rel_bounded. setoid_rewrite IH; [|done]. cbn [token_match].
    pose proof (sum_of_nonneg run Hn). rewrite gap_rel_compose; [|lia|lia| |].
    + replace (end_ (sum_jump (jump :: run)))
        with (m1 ← end_ jump; m2 ← end_ (sum_jump run); Some (m1 + m2)); [done|].
      unfold sum_jump. cbn [end_ forallb]. destruct (end_ jump) eqn:E; [|done]. cbn.
      destruct (forallb _ run); [|done]. unfold sum_of. cbn. by rewrite E.
    + intros m Hm. destruct jump as [[s|] e]; cbn in *; subst; cbn in *; lia.
    + unfold sum_jump. cbn [end_]. intros m. destruct (forallb _ run) eqn:E; [|done]. intros [= <-].
      clear -Hn Ho' E. unfold sum_of. induction Hn as [|j run [H1 H2] Hn IH]; cbn; [lia|].
      apply Forall_cons in Ho' as [Ho Ho']. cbn in E. bools. specialize (IH Ho' ltac:(done)).
      apply bool_decide_eq_true in H as [e' He]. destruct j as [[s|] e]; cbn in *; subst; cbn in *; lia.
Qed.

(** * Lemmas on conditions *)

Section AllLemmas.
Variables (token_good : HexToken.t -> bool) (run_good : list HexJump -> bool).
#[local] Notation all := (hex_all token_good run_good).

Lemma hex_all_cons token tokens :
  is_jump token = false -> all (token :: tokens) = token_all token_good run_good token && all tokens.
Proof. intros Hj. unfold hex_all. rewrite runs_of_jumps_cons by done. cbn [forallb]. by rewrite andb_assoc. Qed.

Lemma hex_all_alternative alts tokens :
  all (HexToken.Alternative alts :: tokens) =
  token_good (HexToken.Alternative alts) && forallb all alts && all tokens.
Proof. by rewrite hex_all_cons. Qed.

Lemma hex_all_run jump run rest :
  starts_with_jump rest = false ->
  all (map HexToken.Jump (jump :: run) ++ rest) =
  forallb (fun jump => token_good (HexToken.Jump jump)) (jump :: run) && run_good (jump :: run) && all rest.
Proof.
  intros Hr. unfold hex_all. rewrite runs_of_run, forallb_app by done. cbn [forallb].
  assert (forall run, forallb (token_all token_good run_good) (map HexToken.Jump run) =
    forallb (fun jump => token_good (HexToken.Jump jump)) run) as ->.
  { intros l. induction l as [|j l IH]; cbn; [done|]. by rewrite IH, andb_true_r. }
  cbn [forallb]. by destruct (token_good _), (forallb _ run), (forallb _ rest), (run_good _).
Qed.
End AllLemmas.

Lemma parsed_jumps run :
  forallb (fun jump => token_parsed (HexToken.Jump jump)) run = true -> jumps_u32 run.
Proof.
  unfold jumps_u32. rewrite forallb_forall, Forall_forall. intros H jump Hj%list_elem_of_In.
  specialize (H jump Hj). destruct jump as [[s|] [e|]]; cbn in *; bools; unfold u32_MAX in *; lia.
Qed.

Lemma check_run run c :
  jumps_u32 run ->
  (run_accepted run = true <-> check_jump (sum_jump run) c = None).
Proof.
  intros [Hs He]%sum_of_nonneg. unfold run_accepted, check_jump, sum_jump. cbn [start end_].
  destruct (existsb _ run); [|done]. destruct (forallb _ run); [|done].
  destruct ((sum_of start run =? 0) && (sum_of end_ run =? 0)) eqn:E1; [split; [lia|done]|].
  destruct (sum_of end_ run <? sum_of start run) eqn:E2; split; done || lia.
Qed.

(** * Lemmas on bytes *)

Lemma cleanb_spec byte : cleanb byte = true -> clean byte.
Proof. unfold cleanb, clean, u8b, is_u8, u8_MAX. intros H. bools. lia. Qed.

Section Bytes.
Context {HS : HirSemantics}.

(** The expression of a class of bytes that are the ones with the property. *)
Definition is_byte (hir : Hir) (P : Z -> Prop) : Prop :=
  hir_wf hir /\ forall data, Forall is_u8 data ->
    forall i j, hmatch hir data i j <-> byte_rel P data i j.

Lemma class_is_byte c P :
  canonical c -> (forall b, is_u8 b -> in_class b c = true <-> P b) -> is_byte (HClass (ClassBytes c)) P.
Proof.
  intros Hc HP. split; [done|]. intros data Hu i j. rewrite class_one by done. unfold byte_rel.
  split; intros (? & ? & b & Hg & Hb); split_and!; try done; exists b; split; try done.
  - destruct Hb as [Hb Hin]. by apply HP.
  - pose proof Hg as [_ Hl]%get_Some. eapply Forall_lookup_1 in Hl; [|done]. cbn in Hl.
    split; [done|]. by apply HP.
Qed.

Lemma literal_is_byte b : is_u8 b -> is_byte (HLiteral [b]) (fun b' => b' = b).
Proof.
  intros Hb. split; [by apply Forall_singleton|]. intros data Hu i j. cbn. unfold byte_rel.
  split.
  - intros Hg. assert (Hm : hmatch (HClass (ClassBytes [(b, b)])) data i j).
    { cbn. exists b. split; [done|]. unfold in_class, in_range. cbn. lia. }
    apply class_one in Hm as (? & ? & b' & Hg' & _ & Hin); [|done]. split_and!; [done..|].
    exists b'. split; [done|]. unfold in_class, in_range in Hin. cbn in Hin. lia.
  - intros (Hs & Hj & b' & Hg & ->).
    assert (Hm : hmatch (HClass (ClassBytes [(b, b)])) data i j).
    { apply class_one; [done|]. split_and!; [done..|]. exists b. split_and!; [done..|].
      unfold in_class, in_range. cbn. lia. }
    destruct Hm as (b' & Hg' & Hin). replace b with b'; [done|].
    unfold in_class, in_range in Hin. cbn in Hin. lia.
Qed.

Lemma is_byte_ext hir P Q : (forall b, is_u8 b -> P b <-> Q b) -> is_byte hir P -> is_byte hir Q.
Proof.
  intros HPQ [Hw Hm]. split; [done|]. intros data Hu i j. rewrite Hm by done. unfold byte_rel.
  split; intros (? & ? & b & Hg & Hb); split_and!; try done; exists b; (split; [done|]);
    apply HPQ; try done; pose proof Hg as [_ Hl]%get_Some; by eapply Forall_lookup_1 in Hl.
Qed.
End Bytes.

Lemma full_mask_matches v b :
  is_u8 v -> is_u8 b -> b = v <-> hex_byte_matches b {| hb_value := v; hb_mask := 0xff |}.
Proof.
  intros Hv Hb. unfold hex_byte_matches, byte_matches. cbn [hb_value hb_mask].
  change 0xff with (Z.ones 8). rewrite !Z.land_ones by lia. unfold is_u8 in *.
  rewrite !Z.mod_small by (change (2 ^ 8) with 256; lia). lia.
Qed.

Lemma count_zeros_all : forallb (fun m => (m =? 255) || (1 <=? count_zeros m)) (seqZ 0 256) = true.
Proof. vm_compute. reflexivity. Qed.

(** A class of a masked byte with bits masked out has two bytes or more. *)
Lemma masked_class_long c hb :
  canonical c -> clean hb -> class_is c hb -> hb.(hb_mask) <> 0xff -> 2 <= len (class_bytes c).
Proof.
  intros Hc Hcl His Hm. destruct (class_is_bytes c hb Hc Hcl His) as (_ & _ & ->).
  pose proof count_zeros_all as Ha. rewrite forallb_forall in Ha. destruct Hcl as (_ & Hu & _).
  specialize (Ha (hb_mask hb)). apply u8_in_seqZ, list_elem_of_In in Hu. specialize (Ha Hu).
  change 2 with (2 ^ 1). apply Z.pow_le_mono_r; lia.
Qed.

Lemma two_elements {A} (l : list A) x y : x ∈ l -> y ∈ l -> x <> y -> 2 <= len l.
Proof.
  intros Hx Hy Hne. destruct l as [|a [|b l]].
  - by apply not_elem_of_nil in Hx.
  - apply list_elem_of_singleton in Hx, Hy. congruence.
  - rewrite !len_cons. pose proof (len_nonneg l). lia.
Qed.

(** Two changes of a byte that a mask notices. *)
Lemma flips_all :
  forallb (fun m => (m =? 0) || negb (Z.land m m =? 0) &&
    negb (Z.land (Z.lxor m (if m =? 1 then 2 else 1)) m =? 0)) (seqZ 0 256) = true.
Proof. vm_compute. reflexivity. Qed.

Lemma flip_mismatch v x m :
  Z.land x m <> 0 -> ~ hex_byte_matches (Z.lxor v x) {| hb_value := v; hb_mask := m |}.
Proof.
  unfold hex_byte_matches, byte_matches. cbn [hb_value hb_mask]. intros Hx He. apply Hx.
  apply Z.bits_inj'. intros n Hn. apply (f_equal (fun z => Z.testbit z n)) in He.
  rewrite !Z.land_spec, Z.lxor_spec in He. rewrite Z.land_spec, Z.bits_0.
  by destruct (Z.testbit v n), (Z.testbit x n), (Z.testbit m n).
Qed.

(** The class of the bytes that do not agree with a masked byte has two bytes or
    more. *)
Lemma negated_class_long c hb :
  clean hb -> (forall b, is_u8 b -> in_class b c = true <-> ~ hex_byte_matches b hb) -> hb.(hb_mask) <> 0 ->
  2 <= len (class_bytes c).
Proof.
  intros (Hv & Hu & _) Hin Hm. destruct hb as [v m]. cbn [hb_value hb_mask] in *.
  pose proof flips_all as Ha. rewrite forallb_forall in Ha.
  pose proof (proj1 (list_elem_of_In _ _) (u8_in_seqZ _ Hu)) as Hl. specialize (Ha m Hl).
  set (d := if m =? 1 then 2 else 1) in *. assert (Hd : is_u8 d /\ d <> 0) by (subst d; unfold is_u8; case_match; lia).
  destruct Hd as [Hd Hd0].
  apply (two_elements _ (Z.lxor v m) (Z.lxor v (Z.lxor m d))).
  - apply elem_of_class_bytes, Hin; [by apply lxor_u8|]. apply flip_mismatch. lia.
  - apply elem_of_class_bytes, Hin; [by repeat apply lxor_u8|]. apply flip_mismatch. lia.
  - intros He. apply Hd0. apply (f_equal (fun z => Z.lxor m (Z.lxor v z))) in He.
    assert (forall a b, Z.lxor a (Z.lxor a b) = b) as Hx.
    { intros a b. by rewrite <- Z.lxor_assoc, Z.lxor_nilpotent, Z.lxor_0_l. }
    rewrite !Hx, Z.lxor_nilpotent in He. done.
Qed.

Section HexBytes.
Context `{ClassBytesLaws} `{HexSyntaxLaws}.

(** The expression of a masked byte, and the class that negates it. *)
Lemma hex_byte_spec byte :
  clean byte ->
  exists hir, hex_byte_hir_from_ast byte = Ret hir /\
    is_byte hir (fun b => hex_byte_matches b byte) /\
    (byte.(hb_mask) <> 0 ->
     exists class, negated_class hir = Ret class /\
       is_byte (syntax_class class) (fun b => ~ hex_byte_matches b byte)).
Proof.
  intros Hcl. pose proof Hcl as (Hv & Hu & _). unfold hex_byte_hir_from_ast.
  assert (Hneg : forall c, canonical c -> class_is c byte -> byte.(hb_mask) <> 0 ->
    is_byte (syntax_class (ClassBytes (cb_negate c))) (fun b => ~ hex_byte_matches b byte)).
  { intros c Hc His Hm. pose proof (cb_negate_canonical c Hc) as Hnc.
    assert (Hin : forall b, is_u8 b -> in_class b (cb_negate c) = true <-> ~ hex_byte_matches b byte).
    { intros b Hb. rewrite cb_negate_spec, <- (His b Hb) by done. by destruct (in_class b c). }
    rewrite syntax_class_bytes by (done || by eapply negated_class_long). by apply class_is_byte. }
  destruct (hb_mask byte =? 0xff) eqn:E1; [|destruct (hb_mask byte =? 0) eqn:E2].
  - apply Z.eqb_eq in E1. exists (HLiteral [byte.(hb_value)]). rewrite syntax_literal_byte. split; [done|].
    destruct byte as [v m]. cbn [hb_value hb_mask] in *. subst m. split.
    + eapply is_byte_ext; [|by apply literal_is_byte]. intros b Hb. by apply full_mask_matches.
    + intros Hm. eexists. split; [done|]. cbn [foldl].
      destruct (push_all [v] [] canonical_nil) as [Hc Hin]; [by apply Forall_singleton|]. cbn [foldl] in *.
      apply Hneg; [done| |done]. intros b Hb. rewrite Hin, <- full_mask_matches by done.
      rewrite list_elem_of_singleton. cbn. naive_solver.
  - apply Z.eqb_eq in E2. exists dot_any_byte. split; [done|]. split; [|done]. rewrite dot_any_byte_class.
    apply class_is_byte; [by split; repeat constructor; cbn; lia|]. intros b Hb.
    unfold hex_byte_matches, byte_matches, in_class, in_range. rewrite E2, !Z.land_0_r. unfold is_u8 in Hb. cbn. lia.
  - destruct (hex_class_spec byte Hcl) as (c & -> & Hc & His). cbn [mbind res_bind].
    rewrite syntax_class_bytes by (done || (eapply masked_class_long; eauto; lia)).
    eexists. split; [done|]. split; [by apply class_is_byte|]. intros Hm. eexists. split; [done|]. by apply Hneg.
Qed.
End HexBytes.

(** * The conversion of a sub-pattern *)

Lemma hex_ordered_app ts1 ts2 :
  hex_ordered (ts1 ++ ts2) = true -> hex_ordered ts1 = true /\ hex_ordered ts2 = true.
Proof.
  assert (forall l, forallb (fun _ : list HexJump => true) l = true) as Ht by (intros l; by induction l).
  unfold hex_ordered, hex_all. rewrite !Ht, !andb_true_r, forallb_app. intros H. by bools.
Qed.

Lemma sum_list_map_le {A} (f : A -> nat) x l : x ∈ l -> (f x <= sum_list (map f l))%nat.
Proof. induction 1; cbn; lia. Qed.

Lemma hex_size_alternative alt alts :
  alt ∈ alts -> (hex_size alt < token_size (HexToken.Alternative alts))%nat.
Proof.
  intros Ha. apply (sum_list_map_le (fun alt => S (sum_list (map token_size alt)))) in Ha.
  cbn. unfold hex_size. lia.
Qed.

Lemma hex_size_cons token tokens : hex_size (token :: tokens) = (token_size token + hex_size tokens)%nat.
Proof. unfold hex_size. cbn. lia. Qed.

Lemma hex_size_app ts1 ts2 : (hex_size ts2 <= hex_size (ts1 ++ ts2))%nat.
Proof. induction ts1 as [|token ts1 IH]; [done|]. cbn [app]. rewrite hex_size_cons. lia. Qed.

(** The outcomes of a conversion: what holds when it succeeds, when it fails and
    when it panics; it always ends. *)
Definition outcome_is {A} (good : list HexJump -> A -> Prop) (bad over : Prop) (out : res (outcome A)) : Prop :=
  match out with
  | Ret (w, inr a) => good w a
  | Ret (_, inl _) => bad
  | Panic => over
  | OutOfFuel => False
  end.

Lemma try_each_spec {A B} (f : list HexJump -> A -> res (outcome B)) (warn : A -> list HexJump)
    (Q : A -> B -> Prop) (bad over : A -> Prop) l :
  (forall w x, x ∈ l -> outcome_is (fun w' y => w' = w ++ warn x /\ Q x y) (bad x) (over x) (f w x)) ->
  forall w acc,
  outcome_is (fun w' ys => w' = w ++ concat (map warn l) /\ exists zs, ys = acc ++ zs /\ Forall2 Q l zs)
    (exists x, x ∈ l /\ bad x) (exists x, x ∈ l /\ over x) (try_each f w l acc).
Proof.
  induction l as [|x l IH]; intros Hf w acc.
  - cbn. rewrite app_nil_r. split; [done|]. exists []. by rewrite app_nil_r.
  - cbn [try_each]. pose proof (Hf w x ltac:(by left)) as Hx. unfold and_then at 1.
    destruct (f w x) as [[w1 [e|y]]| |]; cbn [mbind res_bind outcome_is] in *; [exists x; split; [by left|done]| |
      exists x; split; [by left|done]|done].
    destruct Hx as [-> Hy]. specialize (IH ltac:(intros; apply Hf; by right) (w ++ warn x) (acc ++ [y])).
    destruct (try_each _ _ _ _) as [[w' [e|ys]]| |]; cbn [outcome_is] in *; [| | |done].
    + destruct IH as (x' & Hx' & Hb). exists x'. split; [by right|done].
    + destruct IH as [-> (zs & -> & Hzs)]. split; [cbn; by rewrite <- app_assoc|].
      exists (y :: zs). split; [by rewrite <- app_assoc|by constructor].
    + destruct IH as (x' & Hx' & Hb). exists x'. split; [by right|done].
Qed.

Section Tokens.
Context `{ClassBytesLaws} `{HexSyntaxLaws}.

(** Expressions that mean what some tokens do. *)
Definition meaning (tokens : HexSubPattern) (hirs : list Hir) : Prop :=
  Forall hir_wf hirs /\
  (hex_ordered tokens = true -> forall data, Forall is_u8 data ->
   seq_equiv data (map (fun hir => hmatch hir data) hirs) (map (token_match data) tokens)).

Lemma meaning_nil : meaning [] [].
Proof. by split. Qed.

Lemma meaning_app ts1 ts2 hs1 hs2 :
  meaning ts1 hs1 -> meaning ts2 hs2 -> meaning (ts1 ++ ts2) (hs1 ++ hs2).
Proof.
  intros [W1 M1] [W2 M2]. split; [by apply Forall_app|]. intros [O1 O2]%hex_ordered_app data Hu.
  rewrite !map_app. by rewrite (M1 O1 data Hu), (M2 O2 data Hu).
Qed.

Lemma token_match_bounded data token : bounded data (token_match data token).
Proof.
  destruct token as [byte|byte|alts|jump]; intros i j; cbn.
  - by intros [? _].
  - by intros [? _].
  - rewrite Exists_exists. intros (r & Hr%list_elem_of_In%in_map_iff & Hm). destruct Hr as (alt & <- & _).
    by apply seq_match_bounded in Hm.
  - by intros [? _].
Qed.

Lemma meaning_one token hir :
  hir_wf hir ->
  (hex_ordered [token] = true -> forall data, Forall is_u8 data ->
   forall i j, hmatch hir data i j <-> token_match data token i j) ->
  meaning [token] [hir].
Proof.
  intros Hw Hm. split; [by constructor|]. intros Ho data Hu i j. cbn [map].
  rewrite !seq_match_singleton by (apply hmatch_bounded || apply token_match_bounded). by apply Hm.
Qed.

Lemma dot_any_byte_wf : hir_wf dot_any_byte.
Proof. rewrite dot_any_byte_class. split; repeat constructor; cbn; lia. Qed.

Lemma meaning_run run :
  jumps_u32 run -> meaning (map HexToken.Jump run) [jump_hir (sum_jump run)].
Proof.
  intros Hn. pose proof (sum_of_nonneg run Hn) as [Hs _].
  assert (Hd : default 0 (start (sum_jump run)) = sum_of start run).
  { unfold sum_jump. cbn [start]. destruct (existsb _ run) eqn:E; [done|]. by rewrite (sum_of_none _ _ E). }
  unfold jump_hir. rewrite Hd. split.
  - constructor; [|done]. apply syntax_repetition_wf; [done|apply dot_any_byte_wf].
  - intros Ho data Hu i j. cbn [map]. rewrite seq_match_singleton by apply hmatch_bounded.
    rewrite syntax_repetition_spec, repetition_any by (intros ? ?; by apply dot_any_byte_spec).
    symmetry. apply run_matches; [done|]. apply Forall_forall. intros jump Hj.
    apply andb_true_iff in Ho as [Ho _]. rewrite forallb_forall in Ho.
    specialize (Ho (HexToken.Jump jump)). cbn [token_all] in Ho. rewrite andb_true_r in Ho. apply Ho.
    apply list_elem_of_In in Hj. by apply in_map.
Qed.

(** What the conversion of a sub-pattern gives, after the expressions [acc]. *)
Definition converted (tokens : HexSubPattern) (acc : list Hir) (w : list HexJump)
    (out : res (outcome Hir)) : Prop :=
  outcome_is (fun w' hir => hex_accepted tokens = true /\ hex_fits tokens = true /\ w' = w ++ hex_warnings tokens /\
                exists hirs, hir = syntax_concat (acc ++ hirs) /\ meaning tokens hirs)
    (hex_accepted tokens = false) (hex_fits tokens = false) out.

(** The conversion of the first tokens, followed by the one of the others. *)
Lemma converted_app ts1 hir ts2 acc w w1 out :
  meaning ts1 [hir] ->
  (hex_accepted (ts1 ++ ts2) = hex_accepted ts2) -> (hex_fits (ts1 ++ ts2) = hex_fits ts2) ->
  (w ++ hex_warnings (ts1 ++ ts2) = w1 ++ hex_warnings ts2) ->
  converted ts2 (acc ++ [hir]) w1 out -> converted (ts1 ++ ts2) acc w out.
Proof.
  intros Hm Ha Hf Hw. unfold converted. rewrite Ha, Hf.
  destruct out as [[w' [e|h]]| |]; cbn [outcome_is]; [done| |done..].
  intros (Ha' & Hf' & -> & hirs & -> & Hm'). split; [done|]. split; [done|]. split; [done|].
  exists ([hir] ++ hirs). split; [by rewrite app_assoc|]. by apply meaning_app.
Qed.

(** A step of the loop that converts one token other than a jump. *)
Lemma converted_token token hir tokens acc w w1 out :
  is_jump token = false -> meaning [token] [hir] ->
  token_all negation_good run_accepted token = true -> token_all (fun _ => true) run_fits token = true ->
  w1 = w ++ token_warnings token ->
  converted tokens (acc ++ [hir]) w1 out -> converted (token :: tokens) acc w out.
Proof.
  intros Hj Hm Ha Hf -> Hc. apply (converted_app [token] hir tokens acc w (w ++ token_warnings token)); try done.
  - cbn [app]. unfold hex_accepted. by rewrite hex_all_cons, Ha by done.
  - cbn [app]. unfold hex_fits. by rewrite hex_all_cons, Hf by done.
  - cbn [app]. rewrite <- app_assoc. f_equal. unfold hex_warnings. by destruct token.
Qed.

Lemma byte_meaning token hir P :
  (forall data i j, token_match data token i j <-> byte_rel P data i j) -> is_byte hir P ->
  meaning [token] [hir].
Proof.
  intros Ht [Hw Hm]. apply meaning_one; [done|]. intros _ data Hu i j. rewrite Ht. by apply Hm.
Qed.

Lemma alternative_meaning alts hirs :
  alts <> [] ->
  Forall2 (fun alt hir => hir_wf hir /\ (hex_ordered alt = true -> forall data, Forall is_u8 data ->
    forall i j, hmatch hir data i j <-> hex_match data alt i j)) alts hirs ->
  meaning [HexToken.Alternative alts] [syntax_alternation hirs].
Proof.
  intros Hne Hf. apply meaning_one.
  - apply syntax_alternation_wf; [by destruct Hf|]. clear Hne. induction Hf; constructor; naive_solver.
  - unfold hex_ordered at 1. rewrite hex_all_alternative. cbn [token_ordered andb].
    intros [Ho _]%andb_true_iff data Hu i j. rewrite syntax_alternation_spec. cbn [hmatch token_match].
    clear Hne. induction Hf as [|alt hir alts hirs [_ Hm] Hf IH]; [done|]. cbn [map].
    cbn [forallb] in Ho. apply andb_true_iff in Ho as [Ho1 Ho2]. rewrite !Exists_cons.
    rewrite (Hm Ho1 data Hu i j), (IH Ho2). done.
Qed.

Lemma one_fits jump :
  0 <= default 0 jump.(start) <= u32_MAX /\ 0 <= default 0 jump.(end_) <= u32_MAX -> run_fits [jump] = true.
Proof. unfold run_fits, sum_of. cbn. destruct (end_ jump); cbn; lia. Qed.

(** A run of jumps at the head of the tokens. *)
Lemma converted_run jump run rest acc w
    (k : list HexJump -> HexSubPattern -> list Hir -> res (outcome Hir)) :
  starts_with_jump rest = false -> jumps_u32 (jump :: run) ->
  (forall w acc, converted rest acc w (k w rest acc)) ->
  converted (map HexToken.Jump (jump :: run) ++ rest) acc w
    ('(jump, coalesced, tokens) ← coalesce jump false (map HexToken.Jump run ++ rest);
     let w := if coalesced : bool then w ++ [jump] else w in
     match check_jump jump coalesced with
     | Some e => Ret (w, inl e)
     | None => k w tokens (acc ++ [jump_hir jump])
     end).
Proof.
  intros Hr Hn Hk. pose proof (Forall_inv_tail Hn) as Hn'. pose proof (Forall_inv Hn) as Hj.
  pose proof (coalesce_run [jump] run false rest Hn' Hr (one_fits jump Hj)) as Hc. rewrite sum_jump_one in Hc.
  rewrite Hc. cbn [app].
  assert (Hf : hex_fits (map HexToken.Jump (jump :: run) ++ rest) = run_fits (jump :: run) && hex_fits rest).
  { unfold hex_fits. rewrite hex_all_run by done. f_equal. rewrite (proj2 (forallb_forall _ _)); done. }
  assert (Ha : hex_accepted (map HexToken.Jump (jump :: run) ++ rest) =
    run_accepted (jump :: run) && hex_accepted rest).
  { unfold hex_accepted. rewrite hex_all_run by done. f_equal. rewrite (proj2 (forallb_forall _ _)); done. }
  destruct (run_fits (jump :: run)); [|done]. cbn [mbind res_bind andb] in *. set (c := false || _).
  pose proof (check_run (jump :: run) c Hn) as Hck. destruct (check_jump _ c) as [e|] eqn:E.
  - cbn [outcome_is converted]. unfold converted. cbn [outcome_is]. rewrite Ha.
    destruct (run_accepted _) eqn:Er; [|done]. by pose proof (proj1 Hck eq_refl).
  - destruct Hck as [_ Hck]. rewrite (Hck eq_refl) in Ha.
    eapply (converted_app (map HexToken.Jump (jump :: run)) _ rest acc w); [by apply meaning_run|done|done| |apply Hk].
    unfold hex_warnings. rewrite (warnings_after_run _ [] (jump :: run)), warnings_after_rest by done.
    rewrite app_assoc. f_equal. subst c. unfold run_warning. destruct run as [|jump' run].
    + cbn. by rewrite app_nil_r.
    + rewrite (bool_decide_true (2 <= _)%nat) by (cbn; lia). by rewrite bool_decide_false.
Qed.

(** The alternatives of a token. *)
Lemma converted_alternatives f alts w :
  (forall w alt, alt ∈ alts -> converted alt [] w (f w alt)) ->
  outcome_is (fun w' hirs => w' = w ++ concat (map hex_warnings alts) /\ forallb hex_accepted alts = true /\
      forallb hex_fits alts = true /\ (alts <> [] -> meaning [HexToken.Alternative alts] [syntax_alternation hirs]))
    (forallb hex_accepted alts = false) (forallb hex_fits alts = false) (try_each f w alts []).
Proof.
  intros Hf.
  pose proof (try_each_spec f hex_warnings (fun alt hir => hex_accepted alt = true /\ hex_fits alt = true /\
      exists hirs, hir = syntax_concat hirs /\ meaning alt hirs)
    (fun alt => hex_accepted alt = false) (fun alt => hex_fits alt = false) alts) as Ht.
  specialize (Ht ltac:(intros w0 alt Halt; specialize (Hf w0 alt Halt); unfold converted in Hf;
    destruct (f w0 alt) as [[w1 [e|h]]| |]; cbn [outcome_is app] in *; naive_solver) w []).
  assert (Hno : forall good, (exists alt : HexSubPattern, alt ∈ alts /\ good alt = false) -> forallb good alts = false).
  { intros good (alt & Halt%list_elem_of_In & Hg). apply not_true_iff_false. rewrite forallb_forall. intros Hx.
    specialize (Hx alt Halt). congruence. }
  destruct (try_each _ _ _ _) as [[w' [e|hirs]]| |]; cbn [outcome_is] in *; [auto| |auto|done].
  destruct Ht as [-> (zs & -> & Hzs)]. cbn [app]. split; [done|].
  assert (Hall : forall alt, List.In alt alts -> hex_accepted alt = true /\ hex_fits alt = true).
  { intros alt Halt%list_elem_of_In. apply list_elem_of_lookup in Halt as [n Hn].
    by destruct (Forall2_lookup_l _ _ _ _ _ Hzs Hn) as (hir & _ & Ha & Hx & _). }
  split; [|split]; [apply forallb_forall; naive_solver..|]. intros Hne. apply alternative_meaning; [done|].
  eapply Forall2_impl; [exact Hzs|]. intros alt hir (_ & _ & hs & -> & Hw & Hm). split; [by apply syntax_concat_wf|].
  intros Ho data Hu i j. rewrite syntax_concat_spec. cbn [hmatch]. by apply Hm.
Qed.

Lemma hex_tokens_hir_spec fuel w tokens acc :
  (hex_size tokens <= fuel)%nat -> hex_parsed tokens = true ->
  converted tokens acc w (hex_tokens_hir fuel w tokens acc).
Proof.
  revert w tokens acc. induction fuel as [|fuel IH]; intros w tokens acc Hf Hp; [unfold hex_size in Hf; lia|].
  destruct tokens as [|[byte|byte|alts|jump] tokens]; cbn [hex_tokens_hir].
  - cbn. rewrite !app_nil_r. split; [done|]. split; [done|]. split; [done|]. exists [].
    split; [by rewrite app_nil_r|apply meaning_nil].
  - unfold hex_parsed in Hp. rewrite hex_all_cons in Hp by done. apply andb_true_iff in Hp as [Hb Hp].
    cbn in Hb. rewrite andb_true_r in Hb. apply cleanb_spec in Hb.
    destruct (hex_byte_spec byte Hb) as (hir & -> & Hh & _). cbn [mbind res_bind].
    eapply converted_token; [done|by eapply byte_meaning|done|done|by rewrite app_nil_r|].
    apply IH; [rewrite hex_size_cons in Hf; cbn [token_size] in Hf; lia|done].
  - unfold hex_parsed in Hp. rewrite hex_all_cons in Hp by done. apply andb_true_iff in Hp as [Hb Hp].
    cbn in Hb. rewrite andb_true_r in Hb. apply cleanb_spec in Hb.
    destruct (hb_mask byte =? 0) eqn:E.
    + unfold converted. cbn [outcome_is]. unfold hex_accepted. rewrite hex_all_cons by done. cbn. by rewrite E.
    + destruct (hex_byte_spec byte Hb) as (hir & -> & _ & Hn). cbn [mbind res_bind].
      destruct Hn as (class & -> & Hh); [lia|]. cbn [res_bind].
      eapply converted_token; [done|by eapply byte_meaning|cbn; by rewrite E|done|by rewrite app_nil_r|].
      apply IH; [rewrite hex_size_cons in Hf; cbn [token_size] in Hf; lia|done].
  - unfold hex_parsed in Hp. rewrite hex_all_alternative in Hp. apply andb_true_iff in Hp as [Hp Hp'].
    apply andb_true_iff in Hp as [Hne Ha]. rewrite forallb_forall in Ha.
    assert (Hsz : (hex_size tokens <= fuel)%nat /\ forall alt, alt ∈ alts -> (hex_size alt <= fuel)%nat).
    { rewrite hex_size_cons in Hf. split; [cbn [token_size] in Hf; lia|].
      intros alt Halt%hex_size_alternative. lia. }
    destruct Hsz as [Hs1 Hs2].
    pose proof (converted_alternatives (fun w alt => hex_tokens_hir fuel w alt []) alts w) as Halts.
    specialize (Halts ltac:(intros w0 alt Halt; apply IH; [by apply Hs2|apply Ha; by apply list_elem_of_In])).
    assert (Hcons : forall good run, hex_all good run (HexToken.Alternative alts :: tokens) =
      good (HexToken.Alternative alts) && forallb (hex_all good run) alts && hex_all good run tokens)
      by (intros; apply hex_all_alternative).
    unfold and_then. destruct (try_each _ _ _ _) as [[w' [e|hirs]]| |]; cbn [mbind res_bind outcome_is] in *; [| | |done].
    + unfold converted, hex_accepted in *. cbn [outcome_is]. by rewrite Hcons, Halts, andb_false_r.
    + destruct Halts as (-> & Hacc & Hfit & Hm).
      eapply (converted_token _ (syntax_alternation hirs)); [done| | | |done|by apply IH].
      * apply Hm. by destruct alts.
      * exact Hacc.
      * exact Hfit.
    + unfold converted, hex_fits in *. cbn [outcome_is]. by rewrite Hcons, Halts.
  - destruct (split_run tokens) as (run & rest & -> & Hr). pose proof Hp as Hp'. unfold hex_parsed in Hp'.
    change (HexToken.Jump jump :: map HexToken.Jump run ++ rest)
      with (map HexToken.Jump (jump :: run) ++ rest) in *.
    rewrite hex_all_run in Hp' by done. apply andb_true_iff in Hp' as [Hj Hp'].
    apply andb_true_iff in Hj as [Hj _].
    assert (Hsz : (hex_size rest <= fuel)%nat).
    { cbn [map app] in Hf. rewrite hex_size_cons in Hf. cbn [token_size] in Hf.
      pose proof (hex_size_app (map HexToken.Jump run) rest). lia. }
    apply (converted_run jump run rest acc w (hex_tokens_hir fuel) Hr (parsed_jumps _ Hj)).
    intros w0 acc0. by apply IH.
Qed.
End Tokens.

(** * Properties *)

(** C26: the conversion of a hexadecimal pattern that the conditions accept gives
    an expression that matches exactly what the tokens of the pattern mean,
    provided that the bounds of each jump are in order and that the sums of the
    bounds of consecutive jumps have 32 bits; the expression is well-formed. *)
Theorem hex_pattern_exact `{ClassBytesLaws} `{HexSyntaxLaws} (w : list HexJump) (pattern : HexSubPattern) :
  hex_parsed pattern = true -> hex_fits pattern = true -> hex_accepted pattern = true -> hex_ordered pattern = true ->
  exists w' hir, hex_pattern_hir_from_ast w pattern = Ret (w', inr hir) /\ hir_wf hir /\
    forall data, Forall is_u8 data -> forall i j, hmatch hir data i j <-> hex_match data pattern i j.
Proof.
  intros Hp Hf Ha Ho. pose proof (hex_tokens_hir_spec (hex_size pattern) w pattern [] ltac:(lia) Hp) as Hc.
  unfold converted in Hc. unfold hex_pattern_hir_from_ast, hex_sub_pattern_hir_from_ast.
  destruct (hex_tokens_hir _ _ _ _) as [[w' [e|hir]]| |]; cbn [outcome_is] in Hc; [congruence| |congruence|done].
  destruct Hc as (_ & _ & -> & hirs & -> & Hw & Hm).
  eexists _, _. split; [done|]. split; [by apply syntax_concat_wf|]. intros data Hu i j.
  rewrite syntax_concat_spec. cbn [app hmatch]. by apply Hm.
Qed.

Definition sample_pattern : HexSubPattern :=
  let byte v m := {| hb_value := v; hb_mask := m |} in
  let jump s e := HexToken.Jump {| start := s; end_ := e |} in
  [HexToken.Byte (byte 0x61 0xff); jump (Some 1) (Some 2); jump (Some 0) None;
   HexToken.Alternative [[HexToken.Byte (byte 0x60 0xf0)]; [HexToken.NotByte (byte 0x40 0xfe); jump None (Some 1)]]].

Lemma hex_pattern_exact_witness :
  hex_parsed sample_pattern = true /\
  exists w hir, hex_pattern_hir_from_ast [] sample_pattern = Ret (w, inr hir) /\
    w = [{| start := Some 1; end_ := None |}] /\
    (hmatch hir [0x61; 0; 0x65] 0 3 <-> hex_match [0x61; 0; 0x65] sample_pattern 0 3).
Proof.
  split; [vm_compute; reflexivity|].
  destruct (hex_pattern_exact [] sample_pattern) as (w & hir & E & _ & Hm).
  - vm_compute. reflexivity.
  - vm_compute. reflexivity.
  - vm_compute. reflexivity.
  - vm_compute. reflexivity.
  - exists w, hir. split; [exact E|]. split; [vm_compute in E; by injection E as <- _|].
    apply Hm. repeat constructor; unfold is_u8; lia.
Defined.

(** C27: the conversion of any pattern of the parser always ends, in one of three
    ways. It succeeds only if no run of consecutive jumps, at any depth, has bounds
    whose sums overflow 32 bits, no token is [~??], and no run has joined bounds
    that are zero or not in order; it has then warned once about each run of two
    jumps or more, in order, with the joined bounds. It fails only for a [~??] or
    such a run, and panics only for sums that overflow. So a pattern whose sums fit
    never panics and is converted exactly when it is acceptable, and an acceptable
    one whose sums overflow panics. *)
Theorem hex_pattern_accepted `{ClassBytesLaws} `{HexSyntaxLaws} (w : list HexJump) (pattern : HexSubPattern) :
  hex_parsed pattern = true ->
  match hex_pattern_hir_from_ast w pattern with
  | Ret (w', inr hir) => hex_fits pattern = true /\ hex_accepted pattern = true /\ w' = w ++ hex_warnings pattern
  | Ret (_, inl _) => hex_accepted pattern = false
  | Panic => hex_fits pattern = false
  | OutOfFuel => False
  end.
Proof.
  intros Hp. pose proof (hex_tokens_hir_spec (hex_size pattern) w pattern [] ltac:(lia) Hp) as Hc.
  unfold converted in Hc. unfold hex_pattern_hir_from_ast, hex_sub_pattern_hir_from_ast.
  destruct (hex_tokens_hir _ _ _ _) as [[w' [e|hir]]| |]; cbn [outcome_is] in Hc; tauto.
Qed.

(** The sample with a [~??] before it, and a jump whose bound overflows. *)
Definition overflowing_pattern : HexSubPattern :=
  let jump n := HexToken.Jump {| start := Some n; end_ := Some n |} in [jump 4294967295; jump 1].

Lemma hex_pattern_accepted_witness :
  let pattern := HexToken.NotByte {| hb_value := 0; hb_mask := 0 |} :: sample_pattern in
  hex_accepted pattern = false /\ hex_fits overflowing_pattern = false /\
  hex_pattern_hir_from_ast [] overflowing_pattern = Panic.
Proof.
  split; [|split].
  - pose proof (hex_pattern_accepted [] (HexToken.NotByte {| hb_value := 0; hb_mask := 0 |} :: sample_pattern)) as H.
    specialize (H eq_refl). vm_compute in H. exact H.
  - pose proof (hex_pattern_accepted [] overflowing_pattern eq_refl) as H. vm_compute in H. exact H.
  - vm_compute. reflexivity.
Defined.

(** ** Bounds that are not checked *)

(** The bounds are checked after consecutive jumps are joined: [{ 61 [4-2] [0-5] 62 }]
    is accepted, as [{ 61 [4-7] 62 }], and matches data, while no data has
    at least four and at most two bytes. *)
Definition inverted_pattern : HexSubPattern :=
  [HexToken.Byte {| hb_value := 0x61; hb_mask := 0xff |};
   HexToken.Jump {| start := Some 4; end_ := Some 2 |}; HexToken.Jump {| start := Some 0; end_ := Some 5 |};
   HexToken.Byte {| hb_value := 0x62; hb_mask := 0xff |}].

Theorem inverted_bounds_accepted :
  exists w hir, hex_pattern_hir_from_ast [] inverted_pattern = Ret (w, inr hir) /\
    hmatch hir [0x61; 1; 2; 3; 4; 0x62] 0 6 /\
    forall data i j, ~ hex_match data inverted_pattern i j.
Proof.
  eexists _, _. split; [vm_compute; reflexivity|]. split.
  - assert (Hs : forall i j, 0 <= i -> i <= j -> j <= 6 -> span [0x61; 1; 2; 3; 4; 0x62] i j) by done.
    exists 1. split; [by apply Hs|]. split; [reflexivity|]. exists 5. split; [by apply Hs|]. split.
    + apply repetition_any.
      * intros i j. apply (dot_any_byte_spec (RegexSyntaxLaws := plain_RegexSyntaxLaws)).
        repeat constructor; unfold is_u8; lia.
      * split; [by apply Hs|]. split; [lia|]. intros m [= <-]. lia.
    + exists 6. split; [by apply Hs|]. split; [reflexivity|]. split; [done|by apply Hs].
  - intros data i j Hm. unfold hex_match, inverted_pattern in Hm. cbn [map seq_match] in Hm.
    destruct Hm as (k1 & _ & _ & k2 & _ & (_ & H1 & H2) & _). cbn [start end_ default] in *.
    specialize (H2 2 eq_refl). cbn in H1. lia.
Qed.

(** The jump [[-0]] is not reported. *)
Example zero_jump_without_start :
  hex_accepted [HexToken.Jump {| start := None; end_ := Some 0 |}] = true /\
  hex_accepted [HexToken.Jump {| start := Some 0; end_ := Some 0 |}] = false.
Proof. done. Qed.
