(* ===== verification/PikeAtoms.v ===== *)
(** The atoms of a pattern compiled for the Pike virtual machine, from
    [lib/src/re/thompson/compiler.rs]: sequences of literals are concatenated,
    optimized and turned into atoms.

    Literals and their sequences come from [regex_syntax::hir::literal]. The
    extractor and the operations on sequences are a parameter. *)

From stdpp Require Import gmap sorting.
From S2P Require Import Prelude.
From S2P Require Import PosSet.
From S2P Require Import Atoms.
From S2P Require Import Quality.
From S2P Require Import Hir.

(** * Literals of the [regex_syntax] crate *)

(** A literal: [Literal::exact] and [Literal::inexact] build it, [as_bytes] and
    [is_exact] read it. *)
Record Lit := { lit_bytes : list Z; lit_exact : bool }.

Class LiteralSyntax := {
  Seq : Type;
  seq_singleton : Lit -> Seq;
  seq_empty : Seq;
  seq_literals : Seq -> option (list Lit);
  seq_len : Seq -> option Z;
  seq_min_literal_len : Seq -> option Z;
  seq_max_literal_len : Seq -> option Z;
  seq_push : Lit -> Seq -> Seq;
  seq_dedup : Seq -> Seq;
  seq_make_inexact : Seq -> Seq;
  seq_is_inexact : Seq -> bool;
  seq_max_cross_len : Seq -> Seq -> option Z;
  seq_cross_forward : Seq -> Seq -> Seq;
  seq_keep_first_bytes : Z -> Seq -> Seq;
  (* the extractor, with the limits that the compiler sets *)
  extract : Hir -> Seq;
  (* [hir.properties().look_set().is_empty()] *)
  look_set_is_empty : Hir -> bool;
  (* [ClassUnicode::to_byte_class] *)
  to_byte_class : list (Z * Z) -> option (list (Z * Z));
}.

(** The literals of a sequence; an infinite sequence has none. *)
Definition lits {LS : LiteralSyntax} (s : Seq) : list Lit := default [] (seq_literals s).

Definition lit_small (l : Lit) : Prop := Forall is_u8 l.(lit_bytes) /\ len l.(lit_bytes) <= DESIRED_ATOM_SIZE.

(** What the documentation says of the operations. [dedup] keeps the inexact one
    of two consecutive literals with the same bytes; the extractor respects its
    limits on the number of literals and on their length. *)
Class LiteralLaws {LS : LiteralSyntax} := {
  seq_empty_spec : seq_literals seq_empty = Some [];
  seq_singleton_spec l : seq_literals (seq_singleton l) = Some [l];
  seq_push_spec l s ls :
    seq_literals s = Some ls ->
    exists ls', seq_literals (seq_push l s) = Some ls' /\ len ls' <= len ls + 1 /\ forall x, x ∈ ls' <-> x = l \/ x ∈ ls;
  seq_dedup_spec s ls :
    seq_literals s = Some ls ->
    exists ls', seq_literals (seq_dedup s) = Some ls' /\ len ls' <= len ls /\ (forall x, x ∈ ls' -> x ∈ ls) /\
      forall x, x ∈ ls -> exists y, y ∈ ls' /\ y.(lit_bytes) = x.(lit_bytes) /\ (y.(lit_exact) = true -> x.(lit_exact) = true);
  seq_make_inexact_spec s : lit_bytes <$> lits (seq_make_inexact s) = lit_bytes <$> lits s;
  seq_keep_first_bytes_spec n s : lit_bytes <$> lits (seq_keep_first_bytes n s) = take (Z.to_nat n) <$> (lit_bytes <$> lits s);
  seq_cross_forward_spec s t n :
    seq_max_cross_len s t = Some n -> len (lits (seq_cross_forward s t)) <= n /\
    forall x, x ∈ lits (seq_cross_forward s t) ->
      exists a, a ∈ lits s /\ (x.(lit_bytes) = a.(lit_bytes) \/ exists b, b ∈ lits t /\ x.(lit_bytes) = a.(lit_bytes) ++ b.(lit_bytes));
  extract_spec h : hir_wf h -> Forall lit_small (lits (extract h)) /\ len (lits (extract h)) <= MAX_ATOMS_PER_REGEXP;
  to_byte_class_spec rs : Forall (fun r => snd r <= 127) rs -> to_byte_class rs = Some rs;
}.

(** Finite sequences are lists; only empty expressions and literals have one. *)
Definition cut (n : Z) (l : Lit) : Lit :=
  if len l.(lit_bytes) <=? n then l else {| lit_bytes := take (Z.to_nat n) l.(lit_bytes); lit_exact := false |}.

Definition cross (xs ys : list Lit) : list Lit :=
  x ← xs; if x.(lit_exact) : bool
          then (fun y => {| lit_bytes := x.(lit_bytes) ++ y.(lit_bytes); lit_exact := y.(lit_exact) |}) <$> ys
          else [x].

Fixpoint no_looks (h : Hir) : bool :=
  match h with
  | HLook _ => false
  | HRepetition _ _ _ sub | HCapture sub => no_looks sub
  | HConcat subs | HAlternation subs => forallb no_looks subs
  | _ => true
  end.

#[export] Instance list_LiteralSyntax : LiteralSyntax := {
  Seq := option (list Lit);
  seq_singleton l := Some [l];
  seq_empty := Some [];
  seq_literals s := s;
  seq_len s := option_map len s;
  seq_min_literal_len s := match s with Some (l :: ls) => Some (foldr Z.min (len l.(lit_bytes)) (map (fun l => len l.(lit_bytes)) ls)) | _ => None end;
  seq_max_literal_len s := match s with Some (l :: ls) => Some (foldr Z.max (len l.(lit_bytes)) (map (fun l => len l.(lit_bytes)) ls)) | _ => None end;
  seq_push l s := option_map (fun x => x ++ [l]) s;
  seq_dedup s := s;
  seq_make_inexact s := option_map (map (fun l => {| lit_bytes := l.(lit_bytes); lit_exact := false |})) s;
  seq_is_inexact s := match s with Some ls => forallb (fun l => negb l.(lit_exact)) ls | None => true end;
  seq_max_cross_len s t := match s, t with Some xs, Some ys => Some (Z.max (len xs) (len xs * len ys)) | _, _ => None end;
  seq_cross_forward s t := match s, t with Some xs, Some ys => Some (cross xs ys) | _, _ => None end;
  seq_keep_first_bytes n s := option_map (map (cut n)) s;
  extract h :=
    match h with
    | HEmpty => Some [{| lit_bytes := []; lit_exact := true |}]
    | HLiteral bs => Some [cut DESIRED_ATOM_SIZE {| lit_bytes := bs; lit_exact := true |}]
    | _ => None
    end;
  look_set_is_empty := no_looks;
  to_byte_class rs := if forallb (fun r => snd r <=? 127) rs then Some rs else None }.

(** * Order of atoms

    The derived [Ord]: bytes, exactness, backtrack. *)
Fixpoint bytes_cmp (a b : list Z) : comparison :=
  match a, b with
  | [], [] => Eq
  | [], _ => Lt
  | _, [] => Gt
  | x :: a, y :: b => match x ?= y with Eq => bytes_cmp a b | c => c end
  end.

Definition bool_cmp (a b : bool) : comparison :=
  match a, b with false, true => Lt | true, false => Gt | _, _ => Eq end.

Definition atom_cmp (a b : Atom) : comparison :=
  match bytes_cmp a.(atom_bytes) b.(atom_bytes) with
  | Eq => match bool_cmp a.(is_exact) b.(is_exact) with
          | Eq => a.(backtrack) ?= b.(backtrack)
          | c => c
          end
  | c => c
  end.

Definition atom_le (a b : Atom) : Prop := atom_cmp a b <> Gt.
#[export] Instance atom_le_dec : RelDecision atom_le.
Proof. unfold atom_le. solve_decision. Defined.

Definition atoms_sort : list Atom -> list Atom := merge_sort atom_le.

(** [Vec::dedup] removes consecutive duplicates. *)
Fixpoint atoms_dedup (l : list Atom) : list Atom :=
  match l with
  | [] => []
  | a :: l =>
      match atoms_dedup l with
      | b :: l' => if decide (a = b) then b :: l' else a :: b :: l'
      | [] => [a]
      end
  end.

Section PikeAtoms.
Context {B : Type} {BV : BitVec B} {LS : LiteralSyntax}.

Definition from_seq (s : Seq) : res AtomsQuality :=
  quality_new ((fun l => (l.(lit_bytes), l.(lit_exact))) <$> default [] (seq_literals s)).

(** * [optimize_seq] *)

(** [split_last] *)
Definition split_last (l : list Z) : option (Z * list Z) :=
  b ← last l; Some (b, take (length l - 1) l).

Definition bitmap_count_ones (b : B) : Z :=
  len (filter (fun i => bv_get b i = Some true) (seqZ 0 (bv_len b))).

(** The bytes seen after each prefix. *)
Definition add_suffix (m : gmap (list Z) B) (l : Lit) : gmap (list Z) B :=
  match split_last l.(lit_bytes) with
  | Some (last_byte, prefix) =>
      <[prefix := bv_set (default (bv_repeat false 256) (m !! prefix)) last_byte true]> m
  | None => m
  end.

(** An iteration of the loop that builds the new sequence. *)
Definition optimize_step (st : gmap (list Z) B * Seq) (l : Lit) : gmap (list Z) B * Seq :=
  let '(m, result) := st in
  match split_last l.(lit_bytes) with
  | Some (_, prefix) =>
      match m !! prefix with
      | Some bitmap =>
          if bool_decide (bv_get bitmap 0 = Some true)
          then (<[prefix := bv_set bitmap 0 false]> m,
                seq_push {| lit_bytes := prefix; lit_exact := false |} result)
          else (m, result)
      | None => (m, seq_push l result)
      end
  | None => (m, seq_push l result)
  end.

Definition optimize_seq (s : Seq) : option Seq :=
  literals ← seq_literals s;
  if len literals =? 1 then Some s
  else
    let m := filter (fun kv => bitmap_count_ones (snd kv) = 256) (foldl add_suffix ∅ literals) in
    if bool_decide (m = ∅) then Some (seq_dedup s)
    else
      let m := (fun b => bv_set b 0 true) <$> m in
      Some (seq_dedup (snd (foldl optimize_step (m, seq_empty) literals))).

(** * [concat_seq] *)

Definition is_zero_len (s : Seq) : bool := bool_decide (seq_min_literal_len s = Some 0).

(** [map_while(..).count()] on the sequences in reverse order. *)
Fixpoint count_while (l : list Seq) : Z :=
  match l with
  | s :: l => if is_zero_len s then 1 + count_while l else 0
  | [] => 0
  end.

(** The loop, which gives the result and how many sequences were added. *)
Fixpoint cross_seqs (l : list Seq) (result : Seq) (seqs_added total_min_literal_len : Z) : Seq * Z :=
  match l with
  | [] => (result, seqs_added)
  | s :: l =>
      match seq_min_literal_len s, seq_max_cross_len result s with
      | Some min_literal_len, Some n =>
          if MAX_ATOMS_PER_REGEXP <? n then (result, seqs_added)
          else
            let result := seq_cross_forward result s in
            let total := total_min_literal_len + min_literal_len in
            if (DESIRED_ATOM_SIZE <=? total) || seq_is_inexact result then (result, seqs_added + 1)
            else cross_seqs l result (seqs_added + 1) total
      | _, _ => (result, seqs_added)
      end
  end.

Definition concat_seq (seqs : list Seq) : option Seq :=
  first_seq ← head seqs;
  first_len ← seq_len first_seq;
  if (first_len =? 256) &&
     match seq_max_literal_len first_seq with Some n => n =? 1 | None => true end
  then None
  else
    let empty_tail := count_while (reverse seqs) in
    let seqs_considered := len seqs - empty_tail in
    let '(result, seqs_added) :=
      cross_seqs (slice_to seqs seqs_considered)
        (seq_singleton {| lit_bytes := []; lit_exact := true |}) 0 0 in
    let result := if seqs_added <? len seqs then seq_make_inexact result else result in
    optimize_seq (seq_keep_first_bytes DESIRED_ATOM_SIZE result).

(** * [seq_to_atoms] *)

(** [Atom::from] for literals. *)
Definition atom_from_lit (l : Lit) : Atom :=
  {| atom_bytes := l.(lit_bytes); backtrack := 0; is_exact := l.(lit_exact) |}.

(** The loop over pairs of consecutive atoms: [to_make_inexact] and [to_remove]. *)
Definition prefix_pairs (atoms : list Atom) : list nat * list nat :=
  foldl (fun st p =>
    let '(to_make_inexact, to_remove) := st in
    let '(i, (atom, next)) := p in
    if decide (atom.(atom_bytes) = next.(atom_bytes)) then (to_make_inexact, to_remove ++ [S i])
    else if decide (atom.(atom_bytes) `prefix_of` next.(atom_bytes))
         then (to_make_inexact ++ [i], to_remove ++ [S i])
    else (to_make_inexact, to_remove))
    ([], []) (zip (seq 0 (length atoms)) (zip atoms (tail atoms))).

Definition merge_prefixes (atoms : list Atom) : list Atom :=
  let '(to_make_inexact, to_remove) := prefix_pairs atoms in
  let atoms := foldl (fun atoms i => alter make_inexact i atoms) atoms to_make_inexact in
  foldl (fun atoms i => delete i atoms) atoms (reverse to_remove).

Definition seq_to_atoms (s : Seq) : option (list Atom) :=
  s ← optimize_seq s;
  literals ← seq_literals s;
  Some (merge_prefixes (atoms_dedup (atoms_sort (atom_from_lit <$> literals)))).
End PikeAtoms.

Lemma len_cross xs ys : len (cross xs ys) <= Z.max (len xs) (len xs * len ys).
Proof.
  induction xs as [|x xs IH]; [done|]. unfold cross in *. cbn [mbind list_bind]. rewrite len_app, len_cons.
  pose proof (len_nonneg xs). pose proof (len_nonneg ys).
  destruct (lit_exact x); [rewrite len_map|change (len [x]) with 1]; nia.
Qed.

#[export] Instance list_LiteralLaws : LiteralLaws.
Proof.
  split; try done.
  - intros l s ls [= ->]. cbn. eexists. split; [done|]. rewrite len_app. split; [done|].
    intros x. rewrite elem_of_app, list_elem_of_singleton. tauto.
  - intros s ls [= ->]. exists ls. split_and!; try done. by intros x Hx; exists x.
  - intros [ls|]; [|done]. unfold lits. cbn. by rewrite <- list_fmap_compose.
  - intros n [ls|]; [|done]. unfold lits. cbn. rewrite <- !list_fmap_compose. apply list_fmap_ext. intros i l _. cbn.
    unfold cut. destruct (len (lit_bytes l) <=? n) eqn:E; [|done]. bools. rewrite take_ge; [done|]. unfold len in E. lia.
  - intros [xs|] [ys|] n; cbn; try done. intros [= <-]. unfold lits. cbn. split; [apply len_cross|].
    intros x. unfold cross. rewrite list_elem_of_bind. intros (a & Hx & Ha). exists a. split; [done|].
    destruct (lit_exact a); [|apply list_elem_of_singleton in Hx as ->; by left].
    apply list_elem_of_fmap in Hx as (b & -> & Hb). right. by exists b.
  - intros h Hh. unfold lits. cbn [extract list_LiteralSyntax seq_literals].
    assert (H0 : 0 <= MAX_ATOMS_PER_REGEXP) by done.
    destruct h; cbn; try (split; [by constructor|done]).
    split; [|done]. constructor; [|done]. unfold lit_small, cut. cbn [lit_bytes].
      destruct (len bytes <=? DESIRED_ATOM_SIZE) eqn:E; cbn [lit_bytes]; bools; [done|].
      split; [by apply Forall_take|]. unfold len. rewrite length_take. unfold DESIRED_ATOM_SIZE. lia.
  - intros rs H. cbn. assert (forallb (fun r : Z * Z => snd r <=? 127) rs = true) as ->; [|done].
    apply forallb_forall. intros r Hr%list_elem_of_In. rewrite Forall_forall in H. apply Z.leb_le. by apply H.
Qed.
