(* ===== verification/PikeAtomsProps.v ===== *)
(** The atoms of a sequence of literals: no literal is missed by them, exact atoms
    are exact literals, and the computation of their quality does not panic. *)

From stdpp Require Import gmap sorting.
From S2P Require Import Prelude.
From S2P Require Import PosSet.
From S2P Require Import Atoms.
From S2P Require Import Quality.
From S2P Require Import PikeAtoms.

(** * Lists *)

Lemma sorted_lookup {A} (R : A -> A -> Prop) l i a b :
  Sorted R l -> l !! i = Some a -> l !! S i = Some b -> R a b.
Proof.
  intros Hs. revert i. induction Hs as [|x l Hs IH Hd]; intros i; [done|].
  destruct i as [|i]; [|apply IH]. cbn. intros [= <-] Hb. destruct l as [|y l]; [done|]. cbn in Hb. injection Hb as <-.
  by inversion Hd.
Qed.

(** The elements at indexes in ascending order are deleted from the last one. *)
Lemma delete_all {A} (l : list A) (ks : list nat) x :
  Sorted Nat.lt ks ->
  x ∈ foldl (fun l i => delete i l) l (reverse ks) <-> exists i, l !! i = Some x /\ i ∉ ks.
Proof.
  revert l. induction ks as [|k ks IH] using rev_ind; intros l Hs.
  { cbn. rewrite list_elem_of_lookup. split; intros [i Hi]; exists i; [|by destruct Hi]. split; [done|]. by intros H%elem_of_nil. }
  assert (Hlt : forall i, i ∈ ks -> (i < k)%nat).
  { apply Sorted_StronglySorted in Hs; [|intros ??? ??; unfold Nat.lt in *; lia].
    intros i Hi. apply StronglySorted_app in Hs as [H _]. apply H; [done|]. by apply list_elem_of_singleton. }
  assert (Hs' : Sorted Nat.lt ks).
  { apply Sorted_StronglySorted in Hs; [|intros ??? ??; unfold Nat.lt in *; lia].
    apply StronglySorted_Sorted. by apply StronglySorted_app in Hs as (_ & H & _). }
  rewrite reverse_app. cbn [reverse rev_append app foldl]. change (foldl ?f ?a (reverse [k] ++ ?t)) with (foldl f (delete k a) t).
  rewrite IH by done. setoid_rewrite elem_of_app. setoid_rewrite list_elem_of_singleton. split.
  - intros (i & Hi & Hn). destruct (decide (i < k)%nat).
    + rewrite list_lookup_delete_lt in Hi by done. exists i. split; [done|]. intros [|]; [done|lia].
    + rewrite list_lookup_delete_ge in Hi by lia. exists (S i). split; [done|]. intros [Hk%Hlt|]; lia.
  - intros (i & Hi & Hn). destruct (decide (i < k)%nat).
    + exists i. rewrite list_lookup_delete_lt by done. split; [done|]. tauto.
    + destruct i as [|i]; [destruct k; [exfalso; tauto|lia]|]. assert (S i <> k) by tauto.
      exists i. rewrite list_lookup_delete_ge by lia. split; [done|]. intros Hk%Hlt. lia.
Qed.

Lemma alter_all {A} (f : A -> A) (l : list A) (ks : list nat) i :
  (forall x, f (f x) = f x) ->
  foldl (fun l i => alter f i l) l ks !! i = if decide (i ∈ ks) then f <$> l !! i else l !! i.
Proof.
  intros Hf. revert l. induction ks as [|k ks IH]; intros l; cbn [foldl].
  { by rewrite decide_False by (by intros H%elem_of_nil). }
  rewrite IH. destruct (decide (i = k)) as [->|Hne].
  - rewrite (decide_True (P := k ∈ k :: ks)) by constructor.
    assert (alter f k l !! k = f <$> l !! k) as -> by (rewrite list_lookup_alter; by rewrite decide_True).
    case_decide; [|done]. destruct (l !! k); [|done]. cbn. by rewrite Hf.
  - rewrite list_lookup_alter_ne by done. destruct (decide (i ∈ ks)).
    + by rewrite decide_True by (by constructor).
    + rewrite decide_False; [done|]. by intros [?|?]%elem_of_cons.
Qed.

(** * Prefixes *)

(** What the loop records for each pair of consecutive atoms. *)
Definition marked (p : nat * (Atom * Atom)) : list nat :=
  let '(i, (a, b)) := p in
  if decide (a.(atom_bytes) <> b.(atom_bytes) /\ a.(atom_bytes) `prefix_of` b.(atom_bytes)) then [i] else [].
Definition removed (p : nat * (Atom * Atom)) : list nat :=
  let '(i, (a, b)) := p in if decide (a.(atom_bytes) `prefix_of` b.(atom_bytes)) then [S i] else [].

Definition pairs (atoms : list Atom) : list (nat * (Atom * Atom)) :=
  zip (seq 0 (length atoms)) (zip atoms (tail atoms)).

Lemma prefix_pairs_eq atoms : prefix_pairs atoms = (concat (marked <$> pairs atoms), concat (removed <$> pairs atoms)).
Proof.
  unfold prefix_pairs. fold (pairs atoms). generalize (pairs atoms). intros l.
  match goal with |- foldl ?f _ _ = _ => set (step := f) end.
  assert (H : forall mi rm, foldl step (mi, rm) l = (mi ++ concat (marked <$> l), rm ++ concat (removed <$> l))); [|apply H].
  induction l as [|(i & a & b) l IH]; intros mi rm; cbn [foldl]; [cbn; by rewrite !app_nil_r|].
  cbn [fmap list_fmap concat marked removed]. rewrite !app_assoc. cbn [step].
  destruct (decide (atom_bytes a = atom_bytes b)) as [E|E].
  - rewrite (decide_False (P := _ <> _ /\ _)) by tauto. rewrite decide_True by (by rewrite E).
    rewrite IH. by rewrite app_nil_r.
  - destruct (decide (atom_bytes a `prefix_of` atom_bytes b)).
    + rewrite (decide_True (P := _ <> _ /\ _)) by done. apply IH.
    + rewrite (decide_False (P := _ <> _ /\ _)) by tauto. rewrite IH. by rewrite !app_nil_r.
Qed.

Lemma lookup_tail {A} (l : list A) i : tail l !! i = l !! S i.
Proof. by destruct l. Qed.

Lemma pairs_lookup atoms i a b : (i, (a, b)) ∈ pairs atoms <-> atoms !! i = Some a /\ atoms !! S i = Some b.
Proof.
  rewrite list_elem_of_lookup. unfold pairs. setoid_rewrite lookup_zip_Some. setoid_rewrite lookup_zip_Some.
  setoid_rewrite lookup_tail. split.
  - intros (j & Hj & Ha & Hb). apply lookup_seq in Hj as [-> _]. done.
  - intros (Ha & Hb). exists i. split; [|done]. apply lookup_seq. split; [done|]. by eapply lookup_lt_Some.
Qed.

Lemma removed_sorted atoms : Sorted Nat.lt (concat (removed <$> pairs atoms)).
Proof.
  unfold pairs. generalize (zip atoms (tail atoms)) (length atoms) 0%nat. intros l n k.
  assert (H : Sorted Nat.lt (concat (removed <$> zip (seq k n) l)) /\ Forall (Nat.lt k) (concat (removed <$> zip (seq k n) l)));
    [|by apply H].
  revert k n. induction l as [|[a b] l IH]; intros k [|n]; cbn; try by split; constructor.
  destruct (IH (S k) n) as [Hs Hf]. case_decide; cbn; split; try done.
  - constructor; [done|]. destruct Hf; constructor. done.
  - constructor; [lia|]. eapply Forall_impl; [exact Hf|]. unfold Nat.lt. lia.
  - eapply Forall_impl; [exact Hf|]. unfold Nat.lt. lia.
Qed.

Lemma in_marked atoms i :
  i ∈ concat (marked <$> pairs atoms) <->
  exists a b, atoms !! i = Some a /\ atoms !! S i = Some b /\ a.(atom_bytes) <> b.(atom_bytes) /\
    a.(atom_bytes) `prefix_of` b.(atom_bytes).
Proof.
  rewrite list_elem_of_In, in_concat. setoid_rewrite <- list_elem_of_In. setoid_rewrite list_elem_of_fmap. split.
  - intros (x & ((j & a & b) & -> & Hp%pairs_lookup) & Hi). cbn in Hi. case_decide; [|by apply elem_of_nil in Hi].
    apply list_elem_of_singleton in Hi as ->. exists a, b. tauto.
  - intros (a & b & Ha & Hb & H). eexists. split; [exists (i, (a, b)); split; [done|by apply pairs_lookup]|].
    cbn. rewrite decide_True by done. by constructor.
Qed.

Lemma in_removed atoms i :
  i ∈ concat (removed <$> pairs atoms) <->
  exists j a b, i = S j /\ atoms !! j = Some a /\ atoms !! S j = Some b /\ a.(atom_bytes) `prefix_of` b.(atom_bytes).
Proof.
  rewrite list_elem_of_In, in_concat. setoid_rewrite <- list_elem_of_In. setoid_rewrite list_elem_of_fmap. split.
  - intros (x & ((j & a & b) & -> & Hp%pairs_lookup) & Hi). cbn in Hi. case_decide; [|by apply elem_of_nil in Hi].
    apply list_elem_of_singleton in Hi as ->. exists j, a, b. tauto.
  - intros (j & a & b & -> & Ha & Hb & H). eexists. split; [exists (j, (a, b)); split; [done|by apply pairs_lookup]|].
    cbn. rewrite decide_True by done. by constructor.
Qed.

(** The atoms that stay. *)
Lemma elem_of_merge_prefixes atoms x :
  x ∈ merge_prefixes atoms <-> exists i a, atoms !! i = Some a /\ i ∉ concat (removed <$> pairs atoms) /\
    x = if decide (i ∈ concat (marked <$> pairs atoms)) then make_inexact a else a.
Proof.
  unfold merge_prefixes. rewrite prefix_pairs_eq. rewrite delete_all by apply removed_sorted.
  setoid_rewrite alter_all; [|by intros []]. split.
  - intros (i & Hx & Hi). exists i. destruct (decide _) in Hx.
    + destruct (atoms !! i) as [a|] eqn:E; [|done]. injection Hx as <-. exists a. split; [done|]. by rewrite decide_True.
    + exists x. by rewrite decide_False.
  - intros (i & a & Ha & Hi & ->). exists i. split; [|done]. rewrite Ha. by destruct (decide _).
Qed.

(** * The order of atoms *)

Lemma bytes_cmp_antisym a b : bytes_cmp a b = CompOpp (bytes_cmp b a).
Proof.
  revert b. induction a as [|x a IH]; intros [|y b]; try done. cbn. rewrite Z.compare_antisym.
  by destruct (y ?= x); cbn.
Qed.

Lemma atom_cmp_antisym a b : atom_cmp a b = CompOpp (atom_cmp b a).
Proof.
  unfold atom_cmp. rewrite bytes_cmp_antisym. destruct (bytes_cmp _ _); cbn; try done.
  rewrite Z.compare_antisym. by destruct (is_exact a), (is_exact b), (backtrack b ?= backtrack a).
Qed.

#[export] Instance atom_le_total : Total atom_le.
Proof. intros a b. unfold atom_le. rewrite (atom_cmp_antisym b a). destruct (atom_cmp a b); cbn; first [by left|by right]. Qed.

Lemma bytes_cmp_refl a : bytes_cmp a a = Eq.
Proof. induction a as [|x a IH]; [done|]. cbn. by rewrite Z.compare_refl. Qed.

(** Consecutive atoms with the same bytes: the first one is inexact. *)
Lemma atom_le_same a b :
  atom_le a b -> a <> b -> a.(atom_bytes) = b.(atom_bytes) -> a.(backtrack) = b.(backtrack) -> a.(is_exact) = false.
Proof.
  destruct a as [ba ea ka], b as [bb eb kb]. unfold atom_le, atom_cmp. cbn. intros H Hne -> ->.
  rewrite bytes_cmp_refl, Z.compare_refl in H. destruct ea, eb; done.
Qed.

Lemma elem_of_atoms_dedup l x : x ∈ atoms_dedup l <-> x ∈ l.
Proof.
  induction l as [|a l IH]; [done|]. cbn [atoms_dedup]. rewrite elem_of_cons, <- IH.
  destruct (atoms_dedup l) as [|b l']; [rewrite list_elem_of_singleton, elem_of_nil; tauto|]. case_decide; [subst|by rewrite !elem_of_cons].
  rewrite elem_of_cons. tauto.
Qed.

Lemma head_atoms_dedup l : head (atoms_dedup l) = head l.
Proof.
  induction l as [|a l IH]; [done|]. cbn [atoms_dedup head]. destruct (atoms_dedup l) as [|b l']; [done|].
  case_decide; [by subst|done].
Qed.

Lemma atoms_dedup_sorted R l : Sorted R l -> Sorted (fun a b => R a b /\ a <> b) (atoms_dedup l).
Proof.
  intros H. induction H as [|a l H IH Hd]; cbn [atoms_dedup]; [constructor|].
  pose proof (head_atoms_dedup l) as Hh. destruct (atoms_dedup l) as [|b l']; [by repeat constructor|].
  case_decide as Hab; [done|]. constructor; [done|]. constructor. split; [|done].
  destruct l as [|c l]; [done|]. cbn in Hh. injection Hh as ->. by inversion Hd.
Qed.

Lemma atoms_dedup_length l : (length (atoms_dedup l) <= length l)%nat.
Proof.
  induction l as [|a l IH]; [done|]. cbn [atoms_dedup]. destruct (atoms_dedup l) as [|b l']; cbn in *; [lia|].
  case_decide; cbn; lia.
Qed.

Lemma merge_prefixes_length l : (length (merge_prefixes l) <= length l)%nat.
Proof.
  unfold merge_prefixes. destruct (prefix_pairs l) as [mi rm].
  assert (H : forall ks (l : list Atom), (length (foldl (fun l i => delete i l) l ks) <= length l)%nat).
  { clear. induction ks as [|k ks IH]; intros l; [done|]. cbn [foldl]. etransitivity; [apply IH|].
    clear IH. revert k. induction l as [|x l IH]; intros [|k]; cbn; [done|done|lia|]. specialize (IH k). unfold delete in IH. apply le_n_S, IH. }
  etransitivity; [apply H|]. clear H. revert l. induction mi as [|k mi IH]; intros l; [done|]. cbn [foldl].
  etransitivity; [apply IH|]. by rewrite length_alter.
Qed.

(** ** What stays covers what goes *)

Section Merge.
Context (atoms : list Atom).
Hypothesis Hsorted : Sorted (fun a b => atom_le a b /\ a <> b) atoms.
Hypothesis Hback : Forall (fun a => a.(backtrack) = 0) atoms.

Lemma merge_covers_index i x :
  atoms !! i = Some x ->
  exists j a, atoms !! j = Some a /\ j ∉ concat (removed <$> pairs atoms) /\ a.(atom_bytes) `prefix_of` x.(atom_bytes) /\
    (j = i \/ j ∈ concat (marked <$> pairs atoms) \/ a.(is_exact) = false).
Proof.
  revert x. induction i as [i IH] using lt_wf_ind. intros x Hx.
  destruct (decide (i ∈ concat (removed <$> pairs atoms))) as [Hr|Hr].
  2: { exists i, x. split_and!; try done. by left. }
  apply in_removed in Hr as (k & b & x' & -> & Hb & Hx' & Hp). rewrite Hx in Hx'. injection Hx' as <-.
  destruct (IH k ltac:(lia) b Hb) as (j & a & Ha & Hj & Hab & Hor). exists j, a.
  split; [done|]. split; [done|]. split; [by etransitivity|]. right. destruct Hor as [->|?]; [|done].
  rewrite Hb in Ha. injection Ha as <-. destruct (sorted_lookup _ _ _ _ _ Hsorted Hb Hx) as [Hle Hne].
  rewrite Forall_lookup in Hback. pose proof (Hback _ _ Hb) as Kb. pose proof (Hback _ _ Hx) as Kx. cbn in Kb, Kx.
  destruct (decide (atom_bytes b = atom_bytes x)) as [Heq|Hneq].
  - right. apply (atom_le_same b x); [done|done|done|congruence].
  - left. apply in_marked. by exists b, x.
Qed.

Lemma merge_covers x :
  x ∈ atoms ->
  exists y, y ∈ merge_prefixes atoms /\ y.(atom_bytes) `prefix_of` x.(atom_bytes) /\ (y.(is_exact) = true -> y = x).
Proof.
  intros [i Hx]%list_elem_of_lookup. destruct (merge_covers_index i x Hx) as (j & a & Ha & Hj & Hp & Hor).
  exists (if decide (j ∈ concat (marked <$> pairs atoms)) then make_inexact a else a). split.
  { apply elem_of_merge_prefixes. by exists j, a. }
  destruct (decide _) as [Hm|Hm]; split; try done.
  intros He. destruct Hor as [->|[?|He']]; [|done|congruence]. rewrite Hx in Ha. by injection Ha.
Qed.

Lemma merge_from y :
  y ∈ merge_prefixes atoms -> exists x, x ∈ atoms /\ (y = x \/ y = make_inexact x).
Proof.
  intros (i & a & Ha & _ & ->)%elem_of_merge_prefixes. exists a. split; [by eapply list_elem_of_lookup_2|].
  case_decide; tauto.
Qed.
End Merge.

(** * Optimized sequences *)

Section Seq.
Context {B : Type} {BV : BitVec B} {BL : BitVecLaws B} {LS : LiteralSyntax} {LL : LiteralLaws}.

(** The literal is covered: an inexact literal is a prefix of it, or it is there. *)
Definition covered (ls : list Lit) (x : Lit) : Prop :=
  exists y, y ∈ ls /\ y.(lit_bytes) `prefix_of` x.(lit_bytes) /\
    (y.(lit_exact) = true -> y.(lit_bytes) = x.(lit_bytes) /\ x.(lit_exact) = true).

Lemma split_last_prefix l b p : split_last l = Some (b, p) -> p `prefix_of` l /\ b ∈ l.
Proof.
  unfold split_last. destruct (last l) as [x|] eqn:E; [|done]. cbn. intros [= <- <-].
  split; [|by apply last_Some_elem_of]. exists (drop (length l - 1) l). by rewrite take_drop.
Qed.

Definition bitmaps_ok (m : gmap (list Z) B) : Prop := map_Forall (fun _ b => bv_len b = 256) m.

Lemma add_suffix_ok m l : bitmaps_ok m -> bitmaps_ok (add_suffix m l).
Proof.
  intros Hm. unfold add_suffix. destruct (split_last _) as [[b p]|]; [|done]. apply map_Forall_insert_2; [|done].
  rewrite bv_len_set. destruct (m !! p) as [v|] eqn:E; cbn; [by apply (Hm p)|by apply bv_len_repeat].
Qed.

(** The prefixes still to be pushed have the first bit of their bitmap set. *)
Definition pending (ls : list Lit) (m : gmap (list Z) B) : Prop :=
  map_Forall (fun p b => bv_len b = 256 /\ (bv_get b 0 = Some true \/ {| lit_bytes := p; lit_exact := false |} ∈ ls)) m.

Definition opt_inv (done todo : list Lit) (st : gmap (list Z) B * Seq) : Prop :=
  let '(m, s) := st in
  exists ls, seq_literals s = Some ls /\ len ls <= len done /\
    (forall x, x ∈ done -> covered ls x) /\
    (forall y, y ∈ ls -> exists x, x ∈ done /\ (y = x \/ y.(lit_exact) = false /\ y.(lit_bytes) `prefix_of` x.(lit_bytes))) /\
    pending ls m.

Lemma covered_mono ls ls' x : covered ls x -> (forall y, y ∈ ls -> y ∈ ls') -> covered ls' x.
Proof. intros (y & Hy & H) Hs. exists y. auto. Qed.

(** A literal pushed because of [l]. *)
Lemma opt_push done l todo m s y m' :
  opt_inv done (l :: todo) (m, s) ->
  (y = l \/ y.(lit_exact) = false /\ y.(lit_bytes) `prefix_of` l.(lit_bytes)) ->
  (forall ls, y ∈ ls -> pending ls m -> pending ls m') ->
  opt_inv (done ++ [l]) todo (m', seq_push y s).
Proof.
  intros (ls & Hls & Hlen & Hc & Hf & Hm) Hy Hm'. destruct (seq_push_spec y s ls Hls) as (ls' & Hls' & Hlen' & Hin).
  exists ls'. rewrite len_app. change (len [l]) with 1. split; [done|]. split; [lia|].
  assert (Hsub : forall z, z ∈ ls -> z ∈ ls') by (intros z Hz; apply Hin; by right).
  assert (Hyin : y ∈ ls') by (apply Hin; by left). split; [|split].
  - intros x [Hx|Hx%list_elem_of_singleton]%elem_of_app; [by eapply covered_mono, Hsub; apply Hc|subst x].
    exists y. split; [done|]. destruct Hy as [->|[He Hp]]; [done|]. split; [done|]. by rewrite He.
  - intros z [->|Hz]%Hin.
    + exists l. split; [|done]. apply elem_of_app. right. by constructor.
    + destruct (Hf z Hz) as (x & Hx & Hor). exists x. split; [|done]. apply elem_of_app. by left.
  - apply Hm'; [done|]. eapply map_Forall_impl; [exact Hm|]. cbn. intros p b [Hb [H|H]]; auto.
Qed.

Lemma optimize_step_inv done l todo st : opt_inv done (l :: todo) st -> opt_inv (done ++ [l]) todo (optimize_step st l).
Proof.
  destruct st as [m s]. intros Hinv. unfold optimize_step.
  destruct (split_last (lit_bytes l)) as [[b p]|] eqn:Es.
  2: { eapply opt_push; [done|by left|done]. }
  destruct (split_last_prefix _ _ _ Es) as [Hp _].
  destruct (m !! p) as [v|] eqn:Ev.
  2: { eapply opt_push; [done|by left|done]. }
  case_bool_decide as Hbit.
  - eapply opt_push; [done|by right|]. intros ls Hy Hm. apply map_Forall_insert_2; [|done].
    destruct (Hm p v Ev) as [Hv _]. split; [by rewrite bv_len_set|by right].
  - destruct Hinv as (ls & Hls & Hlen & Hc & Hf & Hm). exists ls. rewrite len_app. change (len [l]) with 1.
    split; [done|]. split; [lia|]. split_and!; try done.
    + intros x [Hx|Hx%list_elem_of_singleton]%elem_of_app; [by apply Hc|subst x].
      destruct (Hm p v Ev) as [_ [?|Hin]]; [done|]. by exists {| lit_bytes := p; lit_exact := false |}.
    + intros z Hz. destruct (Hf z Hz) as (x & Hx & Hor). exists x. split; [|done]. apply elem_of_app. by left.
Qed.

Lemma covered_dedup ls ls' x :
  covered ls x ->
  (forall y, y ∈ ls -> exists z, z ∈ ls' /\ z.(lit_bytes) = y.(lit_bytes) /\ (z.(lit_exact) = true -> y.(lit_exact) = true)) ->
  covered ls' x.
Proof.
  intros (y & Hy & Hp & He) Hd. destruct (Hd y Hy) as (z & Hz & Hb & Hze). exists z. rewrite Hb. auto.
Qed.

Lemma optimize_seq_spec s ls :
  seq_literals s = Some ls ->
  exists s' ls', optimize_seq s = Some s' /\ seq_literals s' = Some ls' /\ len ls' <= len ls /\
    (forall x, x ∈ ls -> covered ls' x) /\
    (forall y, y ∈ ls' -> exists x, x ∈ ls /\ (y = x \/ y.(lit_exact) = false /\ y.(lit_bytes) `prefix_of` x.(lit_bytes))).
Proof.
  intros Hls. assert (Hself : forall x, x ∈ ls -> covered ls x) by (intros x Hx; by exists x).
  unfold optimize_seq. rewrite Hls. cbn [mbind option_bind].
  destruct (len ls =? 1). { exists s, ls. split_and!; try done. intros y Hy. exists y. tauto. }
  set (m := filter _ _). case_bool_decide.
  - destruct (seq_dedup_spec s ls Hls) as (ls' & Hls' & Hlen & Hsub & Hd). exists (seq_dedup s), ls'. split_and!; try done.
    + intros x Hx. by eapply covered_dedup, Hd; apply Hself.
    + intros y Hy. exists y. split; [by apply Hsub|by left].
  - assert (Hm : bitmaps_ok m).
    { subst m. apply map_Forall_filter_2 || idtac. intros p b [Hb _]%map_lookup_filter_Some. revert p b Hb.
      change (bitmaps_ok (foldl add_suffix ∅ ls)).
      assert (H0 : bitmaps_ok (∅ : gmap (list Z) B)) by apply map_Forall_empty. revert H0. generalize (∅ : gmap (list Z) B).
      clear -BL. induction ls as [|l ls IH]; intros m Hm; [done|]. cbn [foldl]. by apply IH, add_suffix_ok. }
    set (m1 := (fun b => bv_set b 0 true) <$> m).
    assert (H1 : opt_inv [] ls (m1, seq_empty)).
    { exists []. rewrite seq_empty_spec. split_and!; try done; try (by intros x Hx%elem_of_nil).
      subst m1. intros p b. rewrite lookup_fmap. destruct (m !! p) as [v|] eqn:Ev; [|done]. cbn. intros [= <-].
      pose proof (Hm p v Ev) as Hv. cbn in Hv. rewrite bv_len_set. split; [done|left].
      rewrite bv_get_set by lia. done. }
    assert (H2 : forall todo done st, opt_inv done todo st -> opt_inv (done ++ todo) [] (foldl optimize_step st todo)).
    { clear -BL LL. induction todo as [|l todo IH]; intros done st Hi; cbn [foldl]; [by rewrite app_nil_r|].
      apply optimize_step_inv, IH in Hi. by rewrite <- app_assoc in Hi. }
    apply H2 in H1. destruct (foldl optimize_step _ ls) as [m' s'] eqn:Es. destruct H1 as (ls1 & Hls1 & Hlen1 & Hc & Hf & _).
    cbn [snd]. destruct (seq_dedup_spec s' ls1 Hls1) as (ls' & Hls' & Hlen & Hsub & Hd).
    exists (seq_dedup s'), ls'. split_and!; try done.
    + cbn in Hlen1. lia.
    + intros x Hx. eapply covered_dedup, Hd. by apply Hc.
    + intros y Hy. by apply Hf, Hsub.
Qed.

(** * The atoms *)

Lemma sorted_atoms s ls s' :
  optimize_seq s = Some s' -> seq_literals s' = Some ls ->
  let atoms := atoms_dedup (atoms_sort (atom_from_lit <$> ls)) in
  seq_to_atoms s = Some (merge_prefixes atoms) /\
  Sorted (fun a b => atom_le a b /\ a <> b) atoms /\ (forall a, a ∈ atoms <-> exists l, l ∈ ls /\ a = atom_from_lit l) /\
  len (merge_prefixes atoms) <= len ls.
Proof.
  intros Hs Hls atoms. unfold seq_to_atoms. rewrite Hs. cbn [mbind option_bind]. rewrite Hls. split; [done|].
  split; [|split].
  - apply atoms_dedup_sorted. apply (Sorted_merge_sort atom_le).
  - intros a. subst atoms. rewrite elem_of_atoms_dedup. unfold atoms_sort. rewrite merge_sort_Permutation.
    rewrite list_elem_of_fmap. naive_solver.
  - pose proof (merge_prefixes_length atoms). pose proof (atoms_dedup_length (atoms_sort (atom_from_lit <$> ls))) as Hd.
    unfold atoms_sort in Hd at 2. rewrite merge_sort_Permutation, length_fmap in Hd. unfold len. subst atoms. lia.
Qed.

(** C21: the atoms of a sequence of literals. When the sequence is finite, each
    of its literals starts with some atom, and that atom is the literal itself,
    exact as it is, or is not exact: nothing that starts with one of the literals
    is missed. An exact atom is an exact literal of the sequence, so that finding
    it is a match. There are not more atoms than literals. *)
Theorem seq_to_atoms_correct (s : Seq) (ls : list Lit) :
  seq_literals s = Some ls ->
  exists atoms, seq_to_atoms s = Some atoms /\ len atoms <= len ls /\
    (forall l, l ∈ ls -> exists a, a ∈ atoms /\ a.(atom_bytes) `prefix_of` l.(lit_bytes) /\
       (a.(is_exact) = true -> a.(atom_bytes) = l.(lit_bytes) /\ l.(lit_exact) = true)) /\
    (forall a, a ∈ atoms -> a.(backtrack) = 0 /\
       (exists l, l ∈ ls /\ a.(atom_bytes) `prefix_of` l.(lit_bytes)) /\
       (a.(is_exact) = true -> exists l, l ∈ ls /\ a.(atom_bytes) = l.(lit_bytes) /\ l.(lit_exact) = true)).
Proof.
  intros Hls. destruct (optimize_seq_spec s ls Hls) as (s' & ls' & Hs' & Hls' & Hlen & Hc & Hf).
  destruct (sorted_atoms s ls' s' Hs' Hls') as (Ha & Hsort & Hin & Hlen').
  set (atoms := atoms_dedup _) in *.
  assert (Hback : Forall (fun a => a.(backtrack) = 0) atoms).
  { apply Forall_forall. intros a (l & _ & ->)%Hin. done. }
  exists (merge_prefixes atoms). split; [done|]. split; [lia|]. split.
  - intros l Hl. destruct (Hc l Hl) as (y & Hy & Hp & He).
    destruct (merge_covers atoms Hsort Hback (atom_from_lit y)) as (a & Hya & Hap & Hae).
    { apply Hin. by exists y. }
    exists a. split; [done|]. split; [by etransitivity|]. intros Hex. pose proof (Hae Hex) as ->. by apply He.
  - intros a Ha'. apply merge_from in Ha' as (x & (y & Hy & ->)%Hin & Hor).
    destruct (Hf y Hy) as (l & Hl & Hyl). split; [by destruct Hor as [-> | ->]|]. split.
    + exists l. split; [done|]. assert (atom_bytes a = lit_bytes y) as -> by by destruct Hor as [-> | ->].
      by destruct Hyl as [->|[_ ?]].
    + intros Hex. destruct Hor as [-> | ->]; [|done]. cbn in Hex. exists l. split; [done|]. cbn.
      destruct Hyl as [->|[? _]]; [done|congruence].
Qed.

Lemma prefix_small (a l : list Z) n :
  a `prefix_of` l -> Forall is_u8 l -> len l <= n -> Forall is_u8 a /\ len a <= n.
Proof.
  intros [k ->] [H _]%Forall_app. rewrite len_app. pose proof (len_nonneg k). split; [done|lia].
Qed.

(** ** The quality of atoms *)

Lemma quality_new_small (atoms : list (list Z * bool)) :
  Forall (fun a => Forall is_u8 (fst a) /\ len (fst a) <= DESIRED_ATOM_SIZE) atoms -> exists q, quality_new atoms = Ret q.
Proof.
  unfold quality_new. generalize {| num_exact_atoms := 0; num_inexact_atoms := 0; min_atom_len := usize_MAX;
       min_atom_quality := i32_MAX; sum_atom_quality := 0 |}. intros q H. revert q.
  induction H as [|a atoms [Hu Hl] _ IH]; intros q; cbn [for_each]; [by exists q|].
  rewrite atom_quality_spec by done. cbn [mbind res_bind]. apply IH.
Qed.

Definition atom_small (a : Atom) : Prop := Forall is_u8 a.(atom_bytes) /\ len a.(atom_bytes) <= DESIRED_ATOM_SIZE.

Lemma from_atoms_small atoms : Forall atom_small atoms -> exists q, from_atoms atoms = Ret q.
Proof. intros H. apply quality_new_small. apply Forall_fmap. exact H. Qed.

(** The best atom of a literal that is not too long. *)
Lemma best_atom_small bytes :
  Forall is_u8 bytes -> bytes <> [] -> len bytes <= u16_MAX ->
  exists a, best_atom_in_bytes bytes = Ret a /\ atom_small a /\ 0 <= a.(backtrack) <= len bytes.
Proof.
  intros Hu Hne Hlen. destruct (best_range_spec bytes Hu Hne) as (r & q & E & i & Hi & Hin & -> & _).
  rewrite len_unmasked in *. unfold best_atom_in_bytes. rewrite E. cbn [mbind res_bind fst snd]. unfold from_slice_range.
  pose proof (len_nonneg bytes). unfold DESIRED_ATOM_SIZE in *. rewrite (proj2 (Z.leb_le i u16_MAX)) by lia. cbn [mbind option_bind].
  assert (get_range bytes i (i + Z.min 4 (len bytes)) = Some (slice bytes i (i + Z.min 4 (len bytes)))) as ->.
  { apply get_range_Some. split; [lia|]. by split; [lia|]. }
  cbn. eexists. split; [done|]. split; [|cbn; lia]. split; cbn [atom_bytes]; [by apply Forall_slice|].
  rewrite len_slice by lia. unfold DESIRED_ATOM_SIZE. lia.
Qed.

(** Sequences of short literals, and not too many. *)
Definition seq_small (s : Seq) : Prop := Forall lit_small (lits s) /\ len (lits s) <= MAX_ATOMS_PER_REGEXP.

Lemma from_seq_small s : seq_small s -> exists q, from_seq s = Ret q.
Proof. intros [H _]. apply quality_new_small. apply Forall_fmap. exact H. Qed.

Lemma seq_to_atoms_small s atoms :
  seq_small s -> seq_to_atoms s = Some atoms -> Forall atom_small atoms /\ len atoms <= MAX_ATOMS_PER_REGEXP.
Proof.
  unfold seq_small, lits. intros [H Hlen] Ha. destruct (seq_literals s) as [ls|] eqn:E.
  2: { unfold seq_to_atoms, optimize_seq in Ha. by rewrite E in Ha. }
  cbn in H, Hlen. destruct (seq_to_atoms_correct s ls E) as (atoms' & Ha' & Hl & _ & Hf). rewrite Ha in Ha'. injection Ha' as <-.
  split; [|lia]. apply Forall_forall. intros a Hin. destruct (Hf a Hin) as (_ & (l & Hl' & Hp) & _).
  rewrite Forall_forall in H. destruct (H l Hl') as [Hu Hn]. by eapply prefix_small.
Qed.

(** ** Concatenations *)

Definition seq_typed (s : Seq) : Prop := Forall (fun l => Forall is_u8 l.(lit_bytes)) (lits s) /\ len (lits s) <= MAX_ATOMS_PER_REGEXP.

Lemma seq_small_typed s : seq_small s -> seq_typed s.
Proof. intros [H Hl]. split; [|done]. eapply Forall_impl; [exact H|]. by intros l []. Qed.

Lemma lits_bytes_len (s t : Seq) : lit_bytes <$> lits s = lit_bytes <$> lits t -> len (lits s) = len (lits t).
Proof. intros H. apply (f_equal len) in H. by rewrite !len_map in H. Qed.

Lemma cross_seqs_typed l result n total :
  Forall seq_small l -> seq_typed result -> seq_typed (fst (cross_seqs l result n total)).
Proof.
  revert result n total. induction l as [|s l IH]; intros result n total Hl Hr; [done|]. cbn [cross_seqs].
  apply Forall_cons in Hl as [Hs Hl]. destruct (seq_min_literal_len s); [|done].
  destruct (seq_max_cross_len result s) as [k|] eqn:Ek; [|done]. destruct (MAX_ATOMS_PER_REGEXP <? k) eqn:Em; [done|].
  assert (Hc : seq_typed (seq_cross_forward result s)).
  { destruct (seq_cross_forward_spec _ _ _ Ek) as [Hlen Hx]. bools. split; [|lia].
    destruct Hr as [Hr _], Hs as [Hs _]. rewrite Forall_forall in Hr, Hs. apply Forall_forall. intros x (a & Ha & Hor)%Hx.
    pose proof (Hr a Ha). destruct Hor as [->|(b & Hb & ->)]; [done|]. apply Forall_app. split; [done|]. by apply Hs. }
  destruct (_ || _); [done|]. by apply IH.
Qed.

Lemma concat_seq_small seqs s : Forall seq_small seqs -> concat_seq seqs = Some s -> seq_small s.
Proof.
  intros Hl. unfold concat_seq. destruct (head seqs) as [first|]; [|done]. cbn [mbind option_bind].
  destruct (seq_len first) as [n|]; [|done]. cbn [mbind option_bind]. destruct (_ && _); [done|].
  pose proof (cross_seqs_typed (slice_to seqs (len seqs - count_while (reverse seqs)))
    (seq_singleton {| lit_bytes := []; lit_exact := true |}) 0 0) as Hc.
  destruct (cross_seqs _ _ _ _) as [result added] eqn:Ec. cbn [fst] in Hc.
  assert (Hr : seq_typed result).
  { apply Hc; [by apply Forall_take|]. unfold seq_typed, lits. rewrite seq_singleton_spec. cbn. split; [by repeat constructor|done]. }
  clear Hc Ec. set (r := if added <? len seqs then seq_make_inexact result else result).
  assert (Hr' : seq_typed r).
  { subst r. destruct (_ <? _); [|done]. destruct Hr as [H1 H2]. pose proof (seq_make_inexact_spec result) as He.
    split; [|by rewrite (lits_bytes_len _ _ He)].
    change (Forall (Forall is_u8 ∘ lit_bytes) (lits (seq_make_inexact result))).
    rewrite <- Forall_fmap, He. apply Forall_fmap. exact H1. }
  pose proof (seq_keep_first_bytes_spec DESIRED_ATOM_SIZE r) as Hk.
  assert (Hsm : seq_small (seq_keep_first_bytes DESIRED_ATOM_SIZE r)).
  { destruct Hr' as [H1 H2]. split.
    - change (Forall ((fun bs => Forall is_u8 bs /\ len bs <= DESIRED_ATOM_SIZE) ∘ lit_bytes)
        (lits (seq_keep_first_bytes DESIRED_ATOM_SIZE r))).
      rewrite <- Forall_fmap, Hk, !Forall_fmap. eapply Forall_impl; [exact H1|]. intros l Hu. cbn. split; [by apply Forall_take|].
      unfold len. rewrite length_take. unfold DESIRED_ATOM_SIZE. lia.
    - apply (f_equal len) in Hk. rewrite !len_map in Hk. by rewrite Hk. }
  revert Hsm. generalize (seq_keep_first_bytes DESIRED_ATOM_SIZE r). clear -BL LL. intros t [H1 H2] Ho.
  unfold lits in H1, H2. destruct (seq_literals t) as [ls|] eqn:E; [|unfold optimize_seq in Ho; by rewrite E in Ho].
  destruct (optimize_seq_spec t ls E) as (s' & ls' & Hs' & Hls' & Hlen & _ & Hf). rewrite Ho in Hs'. injection Hs' as <-.
  unfold seq_small, lits. rewrite Hls'. cbn in *. split; [|lia]. apply Forall_forall. intros y Hy.
  destruct (Hf y Hy) as (x & Hx & Hor). rewrite Forall_forall in H1. destruct (H1 x Hx) as [Hu Hn].
  destruct Hor as [->|[_ Hp]]; [done|]. by eapply prefix_small.
Qed.
End Seq.

(** * Witness *)

Lemma seq_to_atoms_correct_witness :
  let lit e b := {| lit_bytes := b; lit_exact := e |} in
  let s := Some [lit true [97; 98; 99]; lit true [97; 98]; lit false [99]] in
  exists atoms, seq_to_atoms (B := list bool) s = Some atoms /\ len atoms = 2 /\
    exists a, a ∈ atoms /\ a.(atom_bytes) `prefix_of` [97; 98; 99] /\ a.(is_exact) = false.
Proof.
  intros lit s. destruct (seq_to_atoms_correct (B := list bool) (LS := list_LiteralSyntax) s _ eq_refl) as (atoms & Ha & _ & Hc & _).
  exists atoms. split; [exact Ha|]. vm_compute in Ha. injection Ha as <-. split; [reflexivity|].
  destruct (Hc (lit true [97; 98; 99])) as (a & Hin & Hp & He); [left|]. exists a. split; [exact Hin|]. split; [exact Hp|].
  apply elem_of_cons in Hin as [->|Hin]; [reflexivity|]. apply list_elem_of_singleton in Hin as ->. reflexivity.
Defined.
