(* ===== verification/Visit.v ===== *)
(** The traversal of an expression tree by a visitor, as the [visit] function of
    the [regex_syntax] crate documents it; both compilers of patterns are
    visitors. Computations may panic or return an error. *)

From S2P Require Import Prelude.
From S2P Require Import Re.
From S2P Require Import Hir.

(** * Computations that may return an error *)

Definition ok {A} (a : A) : res (Error + A) := Ret (inr a).
Definition fail {A} (e : Error) : res (Error + A) := Ret (inl e).
Definition and_then {A B} (r : res (Error + A)) (f : A -> res (Error + B)) : res (Error + B) :=
  r ← r; match r with inl e => Ret (inl e) | inr a => f a end.

Declare Scope try_scope.
Notation "x '←?' y ; z" := (and_then y (fun x => z))
  (at level 20, y at level 100, z at level 200) : try_scope.
Notation "' x '←?' y ; z" := (and_then y (fun x => z))
  (at level 20, x pattern, y at level 100, z at level 200) : try_scope.
#[local] Open Scope try_scope.

Lemma and_then_inr {A B} (r : res (Error + A)) (f : A -> res (Error + B)) b :
  and_then r f = Ret (inr b) -> exists a, r = Ret (inr a) /\ f a = Ret (inr b).
Proof. destruct r as [[e|a]| |]; cbn; try done. eauto. Qed.

Lemma and_then_ok {A B} (a : A) (f : A -> res (Error + B)) : and_then (ok a) f = f a.
Proof. done. Qed.

Lemma and_then_assoc {A B C} (r : res (Error + A)) (f : A -> res (Error + B)) (g : B -> res (Error + C)) :
  and_then (and_then r f) g = and_then r (fun a => and_then (f a) g).
Proof. by destruct r as [[e|a]| |]. Qed.

(** * Visitors of the expression tree *)

Record Visitor (St : Type) := {
  visit_pre : Hir -> St -> res (Error + St);
  visit_post : Hir -> St -> res (Error + St);
  visit_alternation_in : St -> res (Error + St);
  visit_concat_in : St -> res (Error + St);
}.
Arguments visit_pre {St} v h st.
Arguments visit_post {St} v h st.
Arguments visit_alternation_in {St} v st.
Arguments visit_concat_in {St} v st.

(** The order that [regex_syntax::hir::visit] documents: [visit_pre] before the
    children of an expression, [visit_post] after them, [visit_alternation_in]
    and [visit_concat_in] between the children of an alternation or of a
    concatenation. *)
Section Traverse.
Context {St : Type} (v : Visitor St).

Fixpoint traverse (h : Hir) (st : St) : res (Error + St) :=
  let fix siblings (visit_in : St -> res (Error + St)) (hs : list Hir) (st : St) : res (Error + St) :=
    match hs with
    | [] => ok st
    | h :: hs =>
        st ←? visit_in st;
        st ←? traverse h st;
        siblings visit_in hs st
    end in
  st ←? v.(visit_pre) h st;
  st ←? match h with
        | HRepetition _ _ _ sub | HCapture sub => traverse sub st
        | HConcat (sub :: subs) => st ←? traverse sub st; siblings v.(visit_concat_in) subs st
        | HAlternation (sub :: subs) => st ←? traverse sub st; siblings v.(visit_alternation_in) subs st
        | _ => ok st
        end;
  v.(visit_post) h st.

(** The loops over the children. *)
Fixpoint visit_rest (visit_in : St -> res (Error + St)) (hs : list Hir) (st : St) : res (Error + St) :=
  match hs with
  | [] => ok st
  | h :: hs => and_then (visit_in st) (fun st => and_then (traverse h st) (visit_rest visit_in hs))
  end.

Fixpoint visit_all (hs : list Hir) (st : St) : res (Error + St) :=
  match hs with
  | [] => ok st
  | h :: hs => and_then (traverse h st) (visit_all hs)
  end.

Lemma traverse_concat_cons h hs st :
  traverse (HConcat (h :: hs)) st =
  and_then (visit_pre v (HConcat (h :: hs)) st) (fun st =>
    and_then (and_then (traverse h st) (visit_rest (visit_concat_in v) hs)) (visit_post v (HConcat (h :: hs)))).
Proof. done. Qed.

Lemma traverse_alternation h hs st :
  traverse (HAlternation (h :: hs)) st =
  and_then (visit_pre v (HAlternation (h :: hs)) st) (fun st =>
    and_then (and_then (traverse h st) (visit_rest (visit_alternation_in v) hs)) (visit_post v (HAlternation (h :: hs)))).
Proof. done. Qed.

(** Visitors that do nothing between the children of a concatenation. *)
Lemma visit_rest_all hs st : (forall st, visit_concat_in v st = ok st) -> visit_rest (visit_concat_in v) hs st = visit_all hs st.
Proof.
  intros Hv. revert st. induction hs as [|h hs IH]; intros st; [done|]. cbn [visit_rest visit_all].
  rewrite Hv, and_then_ok. destruct (traverse h st) as [[e|a]| |]; try done. apply IH.
Qed.

Lemma traverse_concat hs st :
  (forall st, visit_concat_in v st = ok st) ->
  traverse (HConcat hs) st =
  and_then (visit_pre v (HConcat hs) st) (fun st => and_then (visit_all hs st) (visit_post v (HConcat hs))).
Proof.
  intros Hv. destruct hs as [|h hs]; [done|]. rewrite traverse_concat_cons.
  destruct (visit_pre _ _ _) as [[e|s]| |]; try done. cbn [and_then mbind res_bind visit_all].
  destruct (traverse h s) as [[e|a]| |]; try done. cbn [and_then mbind res_bind]. by rewrite visit_rest_all.
Qed.
End Traverse.

Class HirVisit := visit : forall {St : Type}, Visitor St -> Hir -> St -> res (Error + St).
Class HirVisitLaws `{HirVisit} :=
  visit_spec : forall {St} (v : Visitor St) h st, visit v h st = traverse v h st.

#[export] Instance traverse_HirVisit : HirVisit := @traverse.
#[export] Instance traverse_HirVisitLaws : HirVisitLaws.
Proof. done. Qed.
