(* ===== verification/PikeClosure.v ===== *)
(** The epsilon closure of the Pike virtual machine: it ends, it gives only
    threads that can be reached without reading input, and it gives all of them
    for code without repetition instructions. The assertions are compared with
    the ones of the patterns. *)

From S2P Require Import Prelude.
From S2P Require Import PosSet.
From S2P Require Import Quality.
From S2P Require Import ByteClass.
From S2P Require Import Hir.
From S2P Require Import PikeInstr.
From S2P Require Import PikeSeq.
From S2P Require Import Re.
From S2P Require Import PikeVM.

(** * The graph of a piece of code *)

Section Graph.
Context {BS : BitSlice}.

(** The instruction at an address. *)
Fixpoint item_from (items : list Item) (addr ip : Z) : option Item :=
  match items with
  | [] => None
  | it :: items => if ip =? addr then Some it else item_from items (addr + len (enc it)) ip
  end.

Definition item_at (items : list Item) (ip : Z) : option Item := item_from items 0 ip.

(** The instructions that end a path of the closure: [Match] and the ones that
    read a byte. *)
Definition is_match_op (op : Z) : bool := op =? Instr.MATCH.
Definition consuming (it : Item) : bool :=
  match it with
  | IPlain op => is_match_op op || (op =? Instr.ANY_BYTE)
  | IByte _ | IMasked _ _ | IClass _ => true
  | _ => false
  end.

(** The targets of an instruction that does not read input, whatever the
    assertions and the counts. *)
Definition succs (it : Item) (ip : Z) : list Z :=
  let next := ip + len (enc it) in
  match it with
  | IPlain _ => if consuming it then [] else [next]
  | IByte _ | IMasked _ _ | IClass _ => []
  | ISplit is_a _ offset => if is_a then [next; ip + offset] else [ip + offset; next]
  | ISplitN _ offsets => (fun o => ip + o) <$> offsets
  | IRepeat greedy offset _ _ => if greedy then [ip + offset; next] else [next; ip + offset]
  | IJump offset => [ip + offset]
  end.

(** Where the execution can go from an instruction. *)
Definition targets (it : Item) (ip : Z) : list Z :=
  succs it ip ++
  (if consuming it && negb (match it with IPlain op => is_match_op op | _ => false end)
   then [ip + len (enc it)] else []).

(** All the targets are instructions of the code. *)
Definition code_closed (items : list Item) : bool :=
  forallb (fun ia => forallb (fun t => bool_decide (is_Some (item_at items t))) (targets (fst ia) (snd ia)))
    (with_addr items 0).

Definition no_repeat (items : list Item) : bool :=
  forallb (fun it => match it with IRepeat _ _ _ _ => false | _ => true end) items.

(** An upper bound of the threads that an instruction produces when no split
    instruction is executed; [None] when there is a cycle. *)
Definition sum_nat (l : list nat) : nat := foldr Nat.add 0%nat l.

Fixpoint weight (fuel : nat) (items : list Item) (ip : Z) : option nat :=
  it ← item_at items ip;
  if consuming it || bool_decide (is_Some (item_split_id it)) then Some 1%nat
  else
    match fuel with
    | O => None
    | S fuel => ws ← mapM (weight fuel items) (succs it ip); Some (S (sum_nat ws))
    end.

(** No cycle of the code consists of instructions that neither read input nor
    are splits. *)
Definition acyclic (items : list Item) : bool :=
  forallb (fun ia => bool_decide (is_Some (weight (length items) items (snd ia)))) (with_addr items 0).

Definition total_weight (items : list Item) (ip : Z) : nat := default 0%nat (weight (length items) items ip).

(** The weight of what the split instructions produce. *)
Definition split_cost (items : list Item) (is_executed : SplitId -> bool) (ia : Item * Z) : nat :=
  match item_split_id (fst ia) with
  | Some id => if is_executed id then 0%nat else sum_nat (total_weight items <$> succs (fst ia) (snd ia))
  | None => 0%nat
  end.

Definition split_weight (items : list Item) (is_executed : SplitId -> bool) : nat :=
  sum_nat (split_cost items is_executed <$> with_addr items 0).

(** Enough fuel for a closure that starts at [ip]. *)
Definition closure_fuel (items : list Item) (ip : Z) : nat :=
  (total_weight items ip + split_weight items (fun _ => false))%nat.

(** ** Lemmas *)

Lemma item_from_split items addr ip it :
  item_from items addr ip = Some it <->
  exists pre post, items = pre ++ it :: post /\ ip = addr + len (enc_items pre).
Proof.
  revert addr. induction items as [|x items IH]; intros addr; cbn [item_from].
  - split; [done|]. intros ([|] & post & ? & _); done.
  - pose proof (len_enc_pos x) as Hx. destruct (ip =? addr) eqn:E; bools.
    + split.
      * intros [= <-]. exists [], items. split; [done|]. change (len (enc_items [])) with 0. lia.
      * intros ([|y pre] & post & [= -> ->] & Hip); [done|].
        change (enc_items (y :: pre)) with (enc y ++ enc_items pre) in Hip. rewrite len_app in Hip.
        pose proof (len_nonneg (enc_items pre)). lia.
    + rewrite IH. split.
      * intros (pre & post & -> & ->). exists (x :: pre), post. split; [done|].
        change (enc_items (x :: pre)) with (enc x ++ enc_items pre). rewrite len_app. lia.
      * intros ([|y pre] & post & [= -> ->] & Hip).
        { change (len (enc_items [])) with 0 in Hip. lia. }
        exists pre, post. split; [done|].
        change (enc_items (y :: pre)) with (enc y ++ enc_items pre) in Hip. rewrite len_app in Hip. lia.
Qed.

Lemma item_at_split items ip it :
  item_at items ip = Some it <-> exists pre post, items = pre ++ it :: post /\ ip = len (enc_items pre).
Proof. unfold item_at. rewrite item_from_split. by setoid_rewrite Z.add_0_l. Qed.

Lemma with_addr_app l1 l2 addr :
  with_addr (l1 ++ l2) addr = with_addr l1 addr ++ with_addr l2 (addr + len (enc_items l1)).
Proof.
  revert addr. induction l1 as [|x l1 IH]; intros addr; cbn [app with_addr].
  - change (len (enc_items [])) with 0. by rewrite Z.add_0_r.
  - rewrite IH. change (enc_items (x :: l1)) with (enc x ++ enc_items l1). rewrite len_app.
    by rewrite Z.add_assoc.
Qed.

Lemma elem_of_with_addr items addr it ip :
  (it, ip) ∈ with_addr items addr <-> item_from items addr ip = Some it.
Proof.
  rewrite item_from_split. revert addr. induction items as [|x items IH]; intros addr; cbn [with_addr].
  - split; [by intros ?%not_elem_of_nil|]. intros ([|] & post & ? & _); done.
  - rewrite elem_of_cons, IH. split.
    + intros [[= -> ->]|(pre & post & -> & ->)].
      * exists [], items. split; [done|]. change (len (enc_items [])) with 0. lia.
      * exists (x :: pre), post. split; [done|].
        change (enc_items (x :: pre)) with (enc x ++ enc_items pre). rewrite len_app. lia.
    + intros ([|y pre] & post & [= -> ->] & Hip).
      * left. change (len (enc_items [])) with 0 in Hip. f_equal. lia.
      * right. exists pre, post. split; [done|].
        change (enc_items (y :: pre)) with (enc y ++ enc_items pre) in Hip. rewrite len_app in Hip. lia.
Qed.

Lemma item_at_elem items it ip : (it, ip) ∈ with_addr items 0 <-> item_at items ip = Some it.
Proof. apply elem_of_with_addr. Qed.

Lemma item_at_bounds items ip it : item_at items ip = Some it -> 0 <= ip < len (enc_items items).
Proof.
  rewrite item_at_split. intros (pre & post & -> & ->). rewrite enc_items_app.
  change (enc_items (it :: post)) with (enc it ++ enc_items post). rewrite !len_app.
  pose proof (len_enc_pos it). pose proof (len_nonneg (enc_items pre)). pose proof (len_nonneg (enc_items post)).
  lia.
Qed.

Lemma closed_target items ip it t :
  code_closed items = true -> item_at items ip = Some it -> t ∈ targets it ip -> is_Some (item_at items t).
Proof.
  unfold code_closed. rewrite forallb_forall. intros H Hit%item_at_elem%list_elem_of_In Ht%list_elem_of_In.
  apply H in Hit. cbn [fst snd] in Hit. rewrite forallb_forall in Hit.
  by apply Hit, bool_decide_eq_true in Ht.
Qed.

Lemma closed_succ items ip it t :
  code_closed items = true -> item_at items ip = Some it -> t ∈ succs it ip -> is_Some (item_at items t).
Proof. intros. eapply closed_target; [done..|]. apply elem_of_app. by left. Qed.

(** ** Weights *)

Lemma weight_mono items n m ip w : weight n items ip = Some w -> (n <= m)%nat -> weight m items ip = Some w.
Proof.
  revert m ip w. induction n as [|n IH]; intros m ip w.
  - destruct m as [|m]; [done|]. cbn [weight]. destruct (item_at items ip) as [it|]; [|done].
    cbn [mbind option_bind]. by destruct (_ || _).
  - destruct m as [|m]; [lia|]. cbn [weight]. destruct (item_at items ip) as [it|]; [|done].
    cbn [mbind option_bind]. destruct (_ || _); [done|].
    destruct (mapM (weight n items) (succs it ip)) as [ws|] eqn:E; [|done]. cbn. intros [= <-] Hm.
    rewrite mapM_Some in E.
    assert (mapM (weight m items) (succs it ip) = Some ws) as ->; [|done].
    apply mapM_Some. eapply Forall2_impl; [exact E|]. intros x y Hx. eapply IH; [exact Hx|lia].
Qed.

Definition is_split_item (it : Item) : bool := bool_decide (is_Some (item_split_id it)).

Lemma total_weight_one items ip it :
  item_at items ip = Some it -> consuming it || is_split_item it = true -> total_weight items ip = 1%nat.
Proof.
  unfold total_weight, is_split_item. intros Hit H. destruct (length items) as [|n]; cbn [weight];
    rewrite Hit; cbn [mbind option_bind]; by rewrite H.
Qed.

Lemma acyclic_weight items ip it :
  acyclic items = true -> item_at items ip = Some it ->
  exists w, weight (length items) items ip = Some w.
Proof.
  unfold acyclic. rewrite forallb_forall. intros H Hit%item_at_elem%list_elem_of_In.
  apply H, bool_decide_eq_true in Hit. exact Hit.
Qed.

Lemma total_weight_step items ip it :
  acyclic items = true -> item_at items ip = Some it -> consuming it || is_split_item it = false ->
  total_weight items ip = S (sum_nat (total_weight items <$> succs it ip)).
Proof.
  intros Ha Hit H. destruct (acyclic_weight items ip it Ha Hit) as [w Hw].
  unfold total_weight at 1. rewrite Hw. cbn [default]. destruct (length items) as [|n] eqn:Hn;
    cbn [weight] in Hw; rewrite Hit in Hw; cbn [mbind option_bind] in Hw; unfold is_split_item in H;
    rewrite H in Hw; [done|].
  destruct (mapM (weight n items) (succs it ip)) as [ws|] eqn:E; [|done]. injection Hw as <-.
  assert (total_weight items <$> succs it ip = ws) as ->; [|done].
  rewrite mapM_Some in E. clear -E Hn.
  induction E as [|x y l k Hx _ IH]; [done|]. rewrite fmap_cons, IH. f_equal.
  unfold total_weight. by rewrite Hn, (weight_mono items n (S n) x y Hx) by lia.
Qed.

Lemma total_weight_pos items ip it :
  acyclic items = true -> item_at items ip = Some it -> (0 < total_weight items ip)%nat.
Proof.
  intros Ha Hit. destruct (consuming it || is_split_item it) eqn:E.
  - rewrite (total_weight_one items ip it Hit E). lia.
  - rewrite (total_weight_step items ip it Ha Hit E). lia.
Qed.

Lemma sum_nat_app l1 l2 : sum_nat (l1 ++ l2) = (sum_nat l1 + sum_nat l2)%nat.
Proof. induction l1 as [|x l1 IH]; [done|]. unfold sum_nat in *. cbn [app foldr]. lia. Qed.

Lemma sum_nat_le {A} (f g : A -> nat) l :
  (forall x, x ∈ l -> (f x <= g x)%nat) -> (sum_nat (f <$> l) <= sum_nat (g <$> l))%nat.
Proof.
  induction l as [|x l IH]; intros H; [done|]. cbn [fmap list_fmap sum_nat foldr].
  assert (f x <= g x)%nat by (apply H; left).
  assert (sum_nat (f <$> l) <= sum_nat (g <$> l))%nat by (apply IH; intros y Hy; apply H; by right).
  unfold sum_nat in *. lia.
Qed.

(** Executing a split instruction pays for what it produces. *)
Lemma split_weight_execute items is_executed is_executed' ip it id :
  item_at items ip = Some it -> item_split_id it = Some id -> is_executed id = false ->
  is_executed' id = true -> (forall j, is_executed j = true -> is_executed' j = true) ->
  (split_weight items is_executed' + sum_nat (total_weight items <$> succs it ip) <=
   split_weight items is_executed)%nat.
Proof.
  intros Hit%item_at_elem Hid He He' Hmono. unfold split_weight.
  assert (Hle : forall ia, (split_cost items is_executed' ia <= split_cost items is_executed ia)%nat).
  { intros [x a]. unfold split_cost. cbn [fst snd]. destruct (item_split_id x) as [j|]; [|done].
    destruct (is_executed j) eqn:Ej; [by rewrite (Hmono j Ej)|]. destruct (is_executed' j); lia. }
  assert (Hone : split_cost items is_executed' (it, ip) = 0%nat /\
                 split_cost items is_executed (it, ip) = sum_nat (total_weight items <$> succs it ip)).
  { unfold split_cost. cbn [fst snd]. by rewrite Hid, He, He'. }
  apply list_elem_of_split in Hit as (l1 & l2 & ->). rewrite !fmap_app, !fmap_cons, !sum_nat_app.
  change (sum_nat (?x :: ?l)) with (x + sum_nat l)%nat. destruct Hone as [-> ->].
  pose proof (sum_nat_le _ _ l1 (fun ia _ => Hle ia)). pose proof (sum_nat_le _ _ l2 (fun ia _ => Hle ia)).
  lia.
Qed.
End Graph.

(** * One step of the closure *)

Section Step.
Context {BS : BitSlice} {BSL : BitSliceLaws} {B : Type} {BV : BitVec B} {BVL : BitVecLaws B}.
Notation State := (EpsilonClosureState (B := B)).

(** The split instructions executed by the current closure. *)
Definition was_executed (st : State) (id : SplitId) : bool :=
  negb st.(dirty) && bool_decide (bv_get st.(executed_splits) id = Some true).

Definition cache_ok (st : State) : Prop := bv_len st.(executed_splits) = EXECUTED_SPLITS_LEN.

Lemma executed_spec st id :
  cache_ok st -> 0 <= id < EXECUTED_SPLITS_LEN ->
  exists st', executed id st = Ret (was_executed st id, st') /\
    st'.(ec_threads) = st.(ec_threads) /\ cache_ok st' /\
    forall j, 0 <= j < EXECUTED_SPLITS_LEN -> was_executed st' j = (j =? id) || was_executed st j.
Proof.
  unfold cache_ok, executed, was_executed. intros Hl Hid.
  set (bits := if dirty st then _ else _).
  assert (Hlen : bv_len bits = EXECUTED_SPLITS_LEN).
  { unfold bits. destruct (dirty st); [|done]. rewrite Hl. by apply bv_len_repeat. }
  assert (Hget : forall j, 0 <= j < EXECUTED_SPLITS_LEN ->
    bool_decide (bv_get bits j = Some true) =
    negb (dirty st) && bool_decide (bv_get (executed_splits st) j = Some true)).
  { intros j Hj. unfold bits. destruct (dirty st); [|done]. rewrite Hl, bv_get_repeat by done. done. }
  destruct (proj2 (bv_get_range bits id)) as [e He]; [by rewrite Hlen|]. rewrite <- Hget by done.
  assert (bool_decide (bv_get bits id = Some true) = e) as -> by (rewrite He; by destruct e).
  rewrite He. eexists. split; [reflexivity|]. cbn [ec_threads executed_splits dirty negb andb].
  split; [done|]. split; [destruct e; [done|]; by rewrite bv_len_set|].
  intros j Hj. rewrite <- Hget by done. destruct e.
  - destruct (j =? id) eqn:E; [|done]. bools. subst j. by rewrite He.
  - rewrite bv_get_set by (by rewrite Hlen). rewrite (Z.eqb_sym id j). destruct (j =? id); [done|done].
Qed.

(** What an instruction puts on the stack, the top first. *)
Definition pushes (it : Item) (backwards : bool) (prev curr : option Z) (ip rep_count : Z) : list Thread :=
  let next := ip + len (enc it) in
  match it with
  | IPlain op =>
      match i ← plain_instr op; assertion i backwards prev curr with
      | Some true => [(next, rep_count)]
      | _ => []
      end
  | IByte _ | IMasked _ _ | IClass _ => []
  | ISplit is_a _ offset =>
      if is_a then [(next, rep_count); (ip + offset, rep_count)]
      else [(ip + offset, rep_count); (next, rep_count)]
  | ISplitN _ offsets => (fun o => (ip + o, rep_count)) <$> offsets
  | IRepeat greedy offset min max =>
      let rep_count := wrap_u32 (rep_count + 1) in
      let again := if rep_count <? max then [(ip + offset, rep_count)] else [] in
      let leave := if min <=? rep_count then [(next, 0)] else [] in
      if greedy then again ++ leave else leave ++ again
  | IJump offset => [(ip + offset, rep_count)]
  end.

(** The threads that an instruction pushes go to its successors. *)
Lemma pushes_sublist it backwards prev curr ip rep_count :
  sublist (fst <$> pushes it backwards prev curr ip rep_count) (succs it ip).
Proof.
  destruct it as [op| | | |is_a id o|id os|g o mi ma|o]; cbn [pushes succs fmap list_fmap]; try done.
  - destruct (plain_instr op) as [i|] eqn:E; cbn [mbind option_bind]; [|apply sublist_nil_l].
    assert (consuming (IPlain op) = true -> assertion i backwards prev curr = None) as Hc.
    { cbn [consuming]. unfold is_match_op. intros [?|?]%orb_prop; bools; subst op; by injection E as <-. }
    destruct (consuming (IPlain op)); [by rewrite Hc|].
    destruct (assertion i backwards prev curr) as [[]|]; try apply sublist_nil_l. done.
  - by destruct is_a.
  - by rewrite <- list_fmap_compose.
  - cbn zeta. destruct g, (wrap_u32 _ <? ma), (mi <=? wrap_u32 _); cbn [app fmap list_fmap];
      repeat constructor.
Qed.

Lemma succs_consuming it ip : consuming it = true -> succs it ip = [].
Proof. destruct it; try done. cbn [succs]. by intros ->. Qed.

Lemma pushes_succs it backwards prev curr ip rep_count t :
  t ∈ pushes it backwards prev curr ip rep_count -> fst t ∈ succs it ip.
Proof.
  intros Ht. eapply elem_of_sublist, pushes_sublist. by apply list_elem_of_fmap_2.
Qed.

Lemma plain_cases op i :
  plain_instr op = Some i ->
  (consuming (IPlain op) = true /\ (i = Instr.Match \/ i = Instr.AnyByte)) \/
  (consuming (IPlain op) = false /\ forall b p c, exists m, assertion i b p c = Some m).
Proof.
  unfold plain_instr. intros H.
  repeat case_match; bools; subst; simplify_eq; (left; by auto) || (right; split; [done|by eexists]).
Qed.

(** Code that the machine can execute: its instructions are well formed, the
    targets of the jumps are instructions, the identifiers fit in the bit array
    and the addresses in an [i32]. *)
Record code_ok (items : list Item) : Prop := {
  co_items : Forall item_ok items;
  co_closed : code_closed items = true;
  co_ids : Forall (fun id => 0 <= id < EXECUTED_SPLITS_LEN) (omap item_split_id items);
  co_len : len (enc_items items) <= i32_MAX;
}.

Section Code.
Context (items : list Item) (Hok : code_ok items).

Lemma item_at_decode ip it :
  item_at items ip = Some it ->
  exists post, index_range (enc_items items) ip (len (enc_items items)) = Ret (enc it ++ post) /\
               item_ok it.
Proof.
  destruct Hok as [Hi _ _ _]. rewrite item_at_split. intros (pre & post & -> & ->).
  exists (enc_items post). rewrite !enc_items_app.
  change (enc_items (it :: post)) with (enc it ++ enc_items post).
  split; [apply index_range_tail|]. by apply Forall_app in Hi as [_ [? _]%Forall_cons].
Qed.

Lemma apply_offset_target ip offset it :
  is_Some (item_at items ip) -> item_at items (ip + offset) = Some it ->
  apply_offset ip offset = Ret (ip + offset).
Proof.
  intros [x Hx%item_at_bounds] Ht%item_at_bounds. destruct Hok as [_ _ _ Hl].
  unfold apply_offset, i32_MAX, i64_MAX, i64_MIN in *. rewrite wrap_isize_id by lia.
  destruct (_ <? 0) eqn:E; bools; [lia|]. f_equal. lia.
Qed.

Lemma next_ip_target ip it size :
  item_at items ip = Some it -> size = len (enc it) -> next_ip ip size = Ret (ip + size).
Proof.
  intros Hit ->. pose proof (item_at_bounds _ _ _ Hit). destruct Hok as [_ _ _ Hl].
  pose proof (len_enc_pos it). assert (ip + len (enc it) <= len (enc_items items)).
  { apply item_at_split in Hit as (pre & post & -> & ->). rewrite enc_items_app.
    change (enc_items (it :: post)) with (enc it ++ enc_items post). rewrite !len_app.
    pose proof (len_nonneg (enc_items post)). lia. }
  unfold next_ip, offset_from_usize, apply_offset, i32_MAX, i64_MAX, i64_MIN in *.
  destruct (_ <=? _) eqn:E; bools; [|lia]. cbn [mbind res_bind]. rewrite wrap_isize_id by lia.
  destruct (_ <? 0) eqn:E'; bools; [lia|]. f_equal. lia.
Qed.

(** The state after some threads are put on the stack. *)
Definition pushed (ts : list Thread) (st : State) : State :=
  {| ec_threads := ts ++ st.(ec_threads); executed_splits := st.(executed_splits); dirty := st.(dirty) |}.

Lemma push_next ip it size rep_count st (b : bool) :
  item_at items ip = Some it -> size = len (enc it) ->
  push_next_if b ip size rep_count st = Ret (pushed (if b then [(ip + size, rep_count)] else []) st).
Proof.
  intros Hit Hs. unfold push_next_if. destruct b; [|by destruct st].
  by rewrite (next_ip_target ip it).
Qed.

Lemma push_offset ip offset rep_count st (b : bool) :
  is_Some (item_at items ip) -> is_Some (item_at items (ip + offset)) ->
  push_offset_if b ip offset rep_count st = Ret (pushed (if b then [(ip + offset, rep_count)] else []) st).
Proof.
  intros Hip [t Ht]. unfold push_offset_if. destruct b; [|by destruct st].
  by rewrite (apply_offset_target _ _ t).
Qed.

Lemma push_offsets ip offsets rep_count st :
  is_Some (item_at items ip) -> Forall (fun o => is_Some (item_at items (ip + o))) offsets ->
  for_each (reverse offsets) (fun offset st => push_offset_if true ip offset rep_count st) st =
  Ret (pushed ((fun o => (ip + o, rep_count)) <$> offsets) st).
Proof.
  intros Hip HF. induction HF as [|o os Ho _ IH]; [by destruct st|].
  rewrite reverse_cons, for_each_app, IH. cbn [mbind res_bind for_each].
  by rewrite push_offset.
Qed.

(** The effect of a step on the state, in terms of the instruction. *)
Definition stepped (it : Item) (backwards : bool) (prev curr : option Z) (ip rep_count : Z) (st st' : State)
  : Prop :=
  cache_ok st' /\
  st'.(ec_threads) =
    (match item_split_id it with
     | Some id => if was_executed st id then [] else pushes it backwards prev curr ip rep_count
     | None => pushes it backwards prev curr ip rep_count
     end) ++ st.(ec_threads) /\
  forall j, 0 <= j < EXECUTED_SPLITS_LEN ->
    was_executed st' j = bool_decide (item_split_id it = Some j) || was_executed st j.

Lemma stepped_pushed it backwards prev curr ip rep_count st ts :
  cache_ok st -> item_split_id it = None -> ts = pushes it backwards prev curr ip rep_count ->
  stepped it backwards prev curr ip rep_count st (pushed ts st).
Proof. intros Hc Hid ->. unfold stepped. rewrite Hid. by split. Qed.

(** The arm of the instructions that read input. *)
Lemma stepped_consuming it backwards prev curr ip rep_count st closure :
  consuming it = true -> cache_ok st ->
  exists st', Ret (st, closure_push ip rep_count closure) =
      Ret (st', if consuming it then closure_push ip rep_count closure else closure) /\
    stepped it backwards prev curr ip rep_count st st'.
Proof.
  intros Hcons Hc. exists (pushed [] st). rewrite Hcons. split; [by destruct st|].
  apply stepped_pushed; [done|by destruct it|]. symmetry.
  destruct (pushes _ _ _ _ _ _) as [|t ts] eqn:E; [done|].
  assert (Ht : fst t ∈ succs it ip) by (eapply pushes_succs; rewrite E; left).
  rewrite succs_consuming in Ht by done. by apply not_elem_of_nil in Ht.
Qed.

(** The arms of the split instructions, once the threads are known. *)
Lemma stepped_split it id backwards prev curr ip rep_count st closure
    (body : State -> res (State * list Thread)) :
  item_at items ip = Some it -> item_split_id it = Some id -> cache_ok st ->
  (forall st', body st' = Ret (pushed (pushes it backwards prev curr ip rep_count) st', closure)) ->
  exists st',
    ('(e, st) ← executed id st;
     if e : bool then Ret (st, closure) else body st) =
      Ret (st', if consuming it then closure_push ip rep_count closure else closure) /\
    stepped it backwards prev curr ip rep_count st st'.
Proof.
  intros Hit Hid Hc Hbody.
  assert (Hr : 0 <= id < EXECUTED_SPLITS_LEN).
  { destruct Hok as [_ _ Hids _]. rewrite Forall_forall in Hids. apply Hids.
    apply list_elem_of_omap. exists it. split; [|done].
    apply item_at_split in Hit as (pre & post' & -> & _). apply elem_of_app. right. left. }
  destruct (executed_spec st id Hc Hr) as (st1 & -> & Hth & Hc1 & Hex). cbn [mbind res_bind].
  assert (consuming it = false) as -> by by destruct it.
  unfold stepped. rewrite Hid.
  assert (Hex' : forall j, 0 <= j < EXECUTED_SPLITS_LEN ->
            was_executed st1 j = bool_decide (Some id = Some j) || was_executed st j).
  { intros j Hj. rewrite Hex by done. f_equal. destruct (j =? id) eqn:E; bools.
    - subst. by rewrite bool_decide_eq_true_2.
    - rewrite bool_decide_eq_false_2; congruence. }
  destruct (was_executed st id).
  - by exists st1.
  - rewrite Hbody. eexists. split; [reflexivity|]. split; [done|].
    cbn [pushed ec_threads]. by rewrite Hth.
Qed.

Lemma pushed_pushed ts ts' st : pushed ts (pushed ts' st) = pushed (ts ++ ts') st.
Proof. unfold pushed. cbn. by rewrite app_assoc. Qed.

Lemma closure_step_item ip it backwards curr prev rep_count st closure :
  item_at items ip = Some it -> cache_ok st ->
  exists st',
    closure_step (enc_items items) backwards curr prev (ip, rep_count) st closure =
      Ret (st', if consuming it then closure_push ip rep_count closure else closure) /\
    stepped it backwards prev curr ip rep_count st st'.
Proof.
  intros Hit Hc. destruct (item_at_decode ip it Hit) as (post & Hrange & Hio).
  assert (Hsucc : forall t, t ∈ succs it ip -> is_Some (item_at items t)).
  { intros t. apply closed_succ; [apply Hok|done]. }
  unfold closure_step. rewrite Hrange. cbn [mbind res_bind]. rewrite decode_enc by done. cbn [mbind res_bind].
  destruct it as [op|b|byte mask|rs|is_a id o|id os|g o mi ma|o].
  - destruct Hio as [i Hi]. cbn [instr_of]. rewrite Hi. cbn [from_option id].
    destruct (plain_cases op i Hi) as [[Hcons Hi']|[Hcons Hi']].
    + destruct Hi' as [-> | ->]; by apply stepped_consuming.
    + destruct (Hi' backwards prev curr) as [m Hm]. rewrite Hm, Hcons.
      rewrite (push_next ip (IPlain op)) by done. eexists. split; [reflexivity|].
      apply stepped_pushed; [done|done|]. cbn [pushes]. rewrite Hi. cbn [mbind option_bind].
      rewrite Hm. by destruct m.
  - by apply stepped_consuming.
  - by apply stepped_consuming.
  - cbn [instr_of]. destruct (len rs <? 16); by apply stepped_consuming.
  - destruct is_a; cbn [instr_of assertion].
    + eapply stepped_split; [done|done|done|]. intros st'.
      rewrite push_offset by (eauto; apply Hsucc; set_solver). cbn [mbind res_bind].
      by rewrite (push_next ip (ISplit true id o)).
    + eapply stepped_split; [done|done|done|]. intros st'.
      rewrite (push_next ip (ISplit false id o)) by done. cbn [mbind res_bind].
      by rewrite push_offset by (eauto; apply Hsucc; set_solver).
  - cbn [instr_of assertion]. eapply stepped_split; [done|done|done|]. intros st'.
    destruct Hio as (_ & _ & Ho). change (mbind (M := list) _ os) with (enc_offsets os).
    rewrite split_offsets_rev_enc by done. rewrite push_offsets; [done|eauto|].
    apply Forall_forall. intros o Hos. apply Hsucc. cbn [succs]. apply list_elem_of_fmap. eauto.
  - assert (Hs : is_Some (item_at items (ip + o))) by (apply Hsucc; destruct g; set_solver).
    destruct g; cbn [instr_of assertion].
    + rewrite (push_next ip (IRepeat true o mi ma)) by done. cbn [mbind res_bind].
      rewrite push_offset by eauto. cbn [mbind res_bind]. rewrite pushed_pushed.
      eexists. split; [reflexivity|]. by apply stepped_pushed.
    + rewrite push_offset by eauto. cbn [mbind res_bind].
      rewrite (push_next ip (IRepeat false o mi ma)) by done. cbn [mbind res_bind]. rewrite pushed_pushed.
      eexists. split; [reflexivity|]. by apply stepped_pushed.
  - cbn [instr_of assertion]. rewrite push_offset by (eauto; apply Hsucc; set_solver). cbn [mbind res_bind].
    eexists. split; [reflexivity|]. by apply stepped_pushed.
Qed.

(** * The loop *)

Lemma sum_nat_sublist l1 l2 : sublist l1 l2 -> (sum_nat l1 <= sum_nat l2)%nat.
Proof. induction 1; cbn in *; unfold sum_nat in *; cbn; lia. Qed.

Definition pop (st : State) : State :=
  {| ec_threads := tail st.(ec_threads); executed_splits := st.(executed_splits); dirty := st.(dirty) |}.

Definition stack_weight (l : list Thread) : nat := sum_nat (total_weight items <$> (fst <$> l)).

Definition on_items (l : list Thread) : Prop := Forall (fun t => is_Some (item_at items (fst t))) l.

Lemma split_weight_ext e e' :
  (forall j, 0 <= j < EXECUTED_SPLITS_LEN -> e j = e' j) -> split_weight items e = split_weight items e'.
Proof.
  intros He. unfold split_weight. f_equal. apply list_fmap_ext. intros i [it ip] Hi.
  unfold split_cost. cbn [fst snd]. destruct (item_split_id it) as [id|] eqn:Hid; [|done].
  rewrite He; [done|]. destruct Hok as [_ _ Hids _]. rewrite Forall_forall in Hids. apply Hids.
  apply list_elem_of_omap. exists it. split; [|done].
  apply list_elem_of_lookup_2, item_at_elem, item_at_split in Hi as (pre & post & -> & _).
  apply elem_of_app. right. left.
Qed.

(** A step makes the weight smaller. *)
Lemma stepped_weight ip it backwards prev curr rep_count st st' :
  acyclic items = true -> item_at items ip = Some it -> 
  stepped it backwards prev curr ip rep_count st st' ->
  (stack_weight st'.(ec_threads) + split_weight items (was_executed st') <
   total_weight items ip + stack_weight st.(ec_threads) + split_weight items (was_executed st))%nat.
Proof.
  intros Ha Hit (Hc & -> & Hex). unfold stack_weight. rewrite !fmap_app, sum_nat_app.
  pose proof (sum_nat_sublist _ _ (fmap_sublist (total_weight items) _ _
                (pushes_sublist it backwards prev curr ip rep_count))) as Hp.
  destruct (item_split_id it) as [id|] eqn:Hid.
  - rewrite (total_weight_one items ip it) by (unfold is_split_item; try done;
      rewrite Hid, orb_comm; by rewrite bool_decide_eq_true_2).
    destruct (was_executed st id) eqn:He.
    + cbn [fmap list_fmap sum_nat foldr]. rewrite (split_weight_ext _ (was_executed st)); [lia|].
      intros j Hj. rewrite Hex by done. destruct (decide (j = id)) as [->|Hne]; [by rewrite He, orb_true_r|].
      by rewrite bool_decide_eq_false_2 by congruence.
    + set (e' := fun j => bool_decide (Some id = Some j) || was_executed st j).
      rewrite (split_weight_ext _ e') by (intros; by apply Hex).
      pose proof (split_weight_execute items (was_executed st) e' ip it id Hit Hid He) as Hw.
      assert (e' id = true) as H1 by (unfold e'; by rewrite bool_decide_eq_true_2).
      specialize (Hw H1 (fun j Hj => ltac:(unfold e'; by rewrite Hj, orb_true_r))). lia.
  - rewrite (split_weight_ext _ (was_executed st)) by (intros j Hj; by rewrite Hex).
    destruct (consuming it) eqn:Hcons.
    + rewrite (total_weight_one items ip it) by (try done; by rewrite Hcons).
      rewrite succs_consuming in Hp by done. cbn in Hp. lia.
    + rewrite (total_weight_step items ip it); [lia|done|done|].
      rewrite Hcons. unfold is_split_item. by rewrite Hid.
Qed.

(** The loop ends with an empty stack, and keeps what every step keeps. *)
Lemma closure_loop_ind (P : State -> list Thread -> Prop) backwards curr prev fuel st closure :
  acyclic items = true -> cache_ok st -> on_items st.(ec_threads) ->
  (stack_weight st.(ec_threads) + split_weight items (was_executed st) <= fuel)%nat ->
  P st closure ->
  (forall ip it rep_count st st' closure,
     head st.(ec_threads) = Some (ip, rep_count) -> item_at items ip = Some it -> P st closure ->
     stepped it backwards prev curr ip rep_count (pop st) st' ->
     P st' (if consuming it then closure_push ip rep_count closure else closure)) ->
  exists st' closure', closure_loop fuel (enc_items items) backwards curr prev st closure = Ret (st', closure') /\
    st'.(ec_threads) = [] /\ cache_ok st' /\ P st' closure'.
Proof.
  intros Ha. revert st closure. induction fuel as [|fuel IH]; intros st closure Hc Hon Hf HP Hstep.
  - destruct (ec_threads st) as [|[ip r] ts] eqn:E.
    + exists st, closure. cbn [closure_loop]. by rewrite E.
    + apply Forall_cons in Hon as [[it Hit] _]. cbn [fst] in Hit. exfalso.
      pose proof (total_weight_pos items ip it Ha Hit).
      unfold stack_weight in Hf. cbn [fmap list_fmap sum_nat foldr fst] in Hf. lia.
  - cbn [closure_loop]. destruct (ec_threads st) as [|[ip r] ts] eqn:E.
    + by exists st, closure.
    + apply Forall_cons in Hon as [[it Hit] Hon]. cbn [fst] in Hit.
      change {| ec_threads := ts; executed_splits := _; dirty := _ |} with
        {| ec_threads := tail ((ip, r) :: ts); executed_splits := executed_splits st; dirty := dirty st |}.
      rewrite <- E. change {| ec_threads := _; executed_splits := _; dirty := _ |} with (pop st).
      destruct (closure_step_item ip it backwards curr prev r (pop st) closure Hit Hc) as (st' & -> & Hst).
      cbn [mbind res_bind]. pose proof (stepped_weight ip it backwards prev curr r _ _ Ha Hit Hst) as Hw.
      apply IH.
      * apply Hst.
      * destruct Hst as (_ & -> & _). apply Forall_app. split; [|cbn [pop ec_threads]; by rewrite E].
        apply Forall_forall. intros t Ht. eapply closed_succ; [apply Hok|exact Hit|].
        eapply pushes_succs. destruct (item_split_id it); [destruct (was_executed _ _)|]; [by apply not_elem_of_nil in Ht|exact Ht..].
      * change (was_executed (pop st)) with (was_executed st) in Hw. cbn [pop ec_threads] in Hw. rewrite E in Hw.
        unfold stack_weight in *. cbn [fmap list_fmap sum_nat foldr fst tail] in *. unfold sum_nat in *. lia.
      * eapply Hstep; [by rewrite E|done|done|exact Hst].
      * exact Hstep.
Qed.

(** * The threads that can be reached *)

(** A step that reads no input, with [prev] and [curr] around the position. *)
Definition eps_step (backwards : bool) (prev curr : option Z) (t t' : Thread) : Prop :=
  exists it, item_at items (fst t) = Some it /\ t' ∈ pushes it backwards prev curr (fst t) (snd t).

Definition reads (t : Thread) : Prop := exists it, item_at items (fst t) = Some it /\ consuming it = true.

Lemma closure_push_cases ip rep_count closure :
  closure_push ip rep_count closure = closure /\ ip ∈ fst <$> closure \/
  closure_push ip rep_count closure = closure ++ [(ip, rep_count)] /\ ip ∉ fst <$> closure.
Proof.
  unfold closure_push. destruct (existsb _ _) eqn:E; [left|right]; (split; [done|]).
  - apply existsb_exists in E as (t & Ht%list_elem_of_In & <-%Z.eqb_eq). by apply list_elem_of_fmap_2.
  - intros (t & -> & Ht%list_elem_of_In)%list_elem_of_fmap. rewrite <- not_true_iff_false in E. apply E.
    apply existsb_exists. exists t. by rewrite Z.eqb_refl.
Qed.

Lemma stepped_threads ip it backwards prev curr rep_count st st' t :
  stepped it backwards prev curr ip rep_count st st' -> t ∈ st'.(ec_threads) ->
  t ∈ pushes it backwards prev curr ip rep_count \/ t ∈ st.(ec_threads).
Proof.
  intros (_ & -> & _) [Ht|Ht]%elem_of_app; [left|by right].
  destruct (item_split_id it); [destruct (was_executed _ _)|]; [by apply not_elem_of_nil in Ht|done..].
Qed.

(** What the loop keeps: the threads on the stack and the new threads of the
    closure can be reached from the first one, and the closure has no
    duplicates. *)
Definition sound_state (backwards : bool) (prev curr : option Z) (t0 : Thread) (closure0 : list Thread)
    (st : State) (closure : list Thread) : Prop :=
  Forall (rtc (eps_step backwards prev curr) t0) st.(ec_threads) /\ NoDup (fst <$> closure) /\
  exists new, closure = closure0 ++ new /\
    Forall (fun t => rtc (eps_step backwards prev curr) t0 t /\ reads t) new.

Lemma sound_state_step backwards prev curr t0 closure0 ip it rep_count st st' closure :
  head st.(ec_threads) = Some (ip, rep_count) -> item_at items ip = Some it ->
  sound_state backwards prev curr t0 closure0 st closure ->
  stepped it backwards prev curr ip rep_count (pop st) st' ->
  sound_state backwards prev curr t0 closure0 st'
    (if consuming it then closure_push ip rep_count closure else closure).
Proof.
  intros Hh Hit (Hst & Hnd & new & -> & Hnew) Hs.
  destruct (ec_threads st) as [|t ts] eqn:E; [done|]. cbn in Hh. injection Hh as ->.
  apply Forall_cons in Hst as [Ht Hts]. split.
  - apply Forall_forall. intros t' Ht'. apply (stepped_threads ip it _ _ _ _ _ _ _ Hs) in Ht' as [Ht'|Ht'].
    + eapply rtc_r; [exact Ht|]. by exists it.
    + rewrite Forall_forall in Hts. apply Hts. cbn [pop ec_threads] in Ht'. by rewrite E in Ht'.
  - destruct (consuming it) eqn:Hc; [|by split; [|exists new]].
    destruct (closure_push_cases ip rep_count (closure0 ++ new)) as [[-> Hin]|[-> Hin]]; [by split; [|exists new]|].
    split.
    + rewrite fmap_app. apply NoDup_app. split_and!; [done| |apply NoDup_singleton].
      intros x Hx ->%list_elem_of_singleton. done.
    + exists (new ++ [(ip, rep_count)]). split; [by rewrite app_assoc|]. apply Forall_app. split; [done|].
      constructor; [|done]. split; [done|]. by exists it.
Qed.

(** For code without repetitions: the threads visited so far, with everything
    that they push, are visited, on the stack or in the closure. *)
Definition complete_state (backwards : bool) (prev curr : option Z) (t0 : Thread)
    (st : State) (closure : list Thread) : Prop :=
  exists visited : list Thread,
    t0 ∈ visited ++ st.(ec_threads) /\
    Forall (fun t => snd t = snd t0) (visited ++ st.(ec_threads)) /\
    (forall t t', t ∈ visited -> eps_step backwards prev curr t t' -> t' ∈ visited ++ st.(ec_threads)) /\
    (forall t, t ∈ visited -> reads t -> fst t ∈ fst <$> closure) /\
    (forall ip it id, item_at items ip = Some it -> item_split_id it = Some id -> was_executed st id = true ->
       (ip, snd t0) ∈ visited).

Lemma pushes_no_repeat it ip backwards prev curr rep_count t :
  no_repeat items = true -> item_at items ip = Some it ->
  t ∈ pushes it backwards prev curr ip rep_count -> snd t = rep_count.
Proof.
  clear Hok. unfold no_repeat. rewrite forallb_forall. intros Hn (pre & post & -> & _)%item_at_split.
  specialize (Hn it). rewrite <- list_elem_of_In in Hn. specialize (Hn ltac:(apply elem_of_app; right; left)).
  destruct it as [op| | | |is_a id o|id os| |o]; try done; cbn [pushes]; try by intros ?%not_elem_of_nil.
  - destruct (plain_instr op); cbn [mbind option_bind]; [|by intros ?%not_elem_of_nil].
    destruct (assertion _ _ _ _) as [[]|]; try by intros ?%not_elem_of_nil.
    by intros ->%list_elem_of_singleton.
  - destruct is_a; rewrite !elem_of_cons; by intros [->|[->|?%not_elem_of_nil]].
  - by intros (o & -> & _)%list_elem_of_fmap.
  - by intros ->%list_elem_of_singleton.
Qed.

Lemma split_id_inj ip ip' it it' id :
  NoDup (omap item_split_id items) -> item_at items ip = Some it -> item_at items ip' = Some it' ->
  item_split_id it = Some id -> item_split_id it' = Some id -> ip = ip'.
Proof.
  intros Hnd (pre & post & Hi & ->)%item_at_split (pre' & post' & Hi' & ->)%item_at_split H1 H2.
  rewrite Hi in Hi', Hnd. clear Hi.
  revert pre' Hi' Hnd. induction pre as [|x pre IH]; intros [|x' pre'] Hi' Hnd; try done.
  - exfalso. cbn in Hi'. injection Hi' as <- ->. cbn [app omap list_omap] in Hnd. rewrite H1 in Hnd.
    apply NoDup_cons in Hnd as [Hn _]. apply Hn. rewrite omap_app. apply elem_of_app. right.
    cbn [omap list_omap]. rewrite H2. left.
  - exfalso. cbn in Hi'. injection Hi' as -> <-. cbn [app omap list_omap] in Hnd. rewrite H2 in Hnd.
    apply NoDup_cons in Hnd as [Hn _]. apply Hn. rewrite omap_app. apply elem_of_app. right.
    cbn [omap list_omap]. rewrite H1. left.
  - cbn in Hi'. injection Hi' as <- Hi'. change (enc_items (x :: ?l)) with (enc x ++ enc_items l).
    rewrite !len_app. f_equal. apply IH; [done|]. cbn [app omap list_omap] in Hnd.
    destruct (item_split_id x); [by apply NoDup_cons in Hnd as [_ ?]|done].
Qed.

Lemma closure_push_mono ip rep_count closure x :
  x ∈ fst <$> closure -> x ∈ fst <$> closure_push ip rep_count closure.
Proof.
  intros Hx. destruct (closure_push_cases ip rep_count closure) as [[-> _]|[-> _]]; [done|].
  rewrite fmap_app. apply elem_of_app. by left.
Qed.

Lemma closure_push_in ip rep_count closure : ip ∈ fst <$> closure_push ip rep_count closure.
Proof.
  destruct (closure_push_cases ip rep_count closure) as [[-> ?]|[-> _]]; [done|].
  rewrite fmap_app. apply elem_of_app. right. left.
Qed.

Lemma complete_state_step backwards prev curr t0 ip it rep_count st st' closure :
  no_repeat items = true -> NoDup (omap item_split_id items) ->
  head st.(ec_threads) = Some (ip, rep_count) -> item_at items ip = Some it ->
  complete_state backwards prev curr t0 st closure ->
  stepped it backwards prev curr ip rep_count (pop st) st' ->
  complete_state backwards prev curr t0 st'
    (if consuming it then closure_push ip rep_count closure else closure).
Proof.
  intros Hn Hu Hh Hit (visited & H0 & Hrep & Hclosed & Hreads & Hex) Hs.
  destruct (ec_threads st) as [|t ts] eqn:E; [done|]. cbn in Hh. injection Hh as ->.
  assert (Hr : rep_count = snd t0).
  { rewrite Forall_forall in Hrep. apply (Hrep (ip, rep_count)). apply elem_of_app. right. left. }
  subst rep_count. pose proof Hs as (_ & Hth & Hex').
  change (was_executed (pop st)) with (was_executed st) in *.
  assert (Hts : forall x, x ∈ ts -> x ∈ ec_threads st').
  { intros x Hx. rewrite Hth. apply elem_of_app. right. cbn [pop ec_threads]. by rewrite E. }
  assert (Hmono : forall x, x ∈ visited ++ (ip, snd t0) :: ts -> x ∈ ((ip, snd t0) :: visited) ++ ec_threads st').
  { intros x. rewrite !elem_of_app, !elem_of_cons. naive_solver. }
  exists ((ip, snd t0) :: visited). split; [by apply Hmono|]. split.
  { rewrite Forall_forall in *. intros x [Hx|Hx]%elem_of_app.
    - apply elem_of_cons in Hx as [->|Hx]; [done|]. apply Hrep, elem_of_app. by left.
    - apply (stepped_threads _ _ _ _ _ _ _ _ _ Hs) in Hx as [Hx|Hx].
      + by eapply pushes_no_repeat in Hx.
      + apply Hrep, elem_of_app. right. right. cbn [pop ec_threads] in Hx. by rewrite E in Hx. }
  assert (Hnew : match item_split_id it with Some id => was_executed st id = false | None => True end ->
            forall x, x ∈ pushes it backwards prev curr ip (snd t0) -> x ∈ ec_threads st').
  { intros Hid x Hx. rewrite Hth. apply elem_of_app. left. destruct (item_split_id it); [by rewrite Hid|done]. }
  split.
  { intros x x' Hx Hstep. apply elem_of_cons in Hx as [->|Hx]; [|by eapply Hmono, Hclosed].
    destruct (item_split_id it) as [id|] eqn:Hid; [destruct (was_executed st id) eqn:He|].
    - apply Hmono. eapply Hclosed; [by eapply Hex|done].
    - destruct Hstep as (it' & Hit' & Hx'). cbn [fst snd] in *. rewrite Hit in Hit'. injection Hit' as <-.
      apply elem_of_app. right. by apply Hnew.
    - destruct Hstep as (it' & Hit' & Hx'). cbn [fst snd] in *. rewrite Hit in Hit'. injection Hit' as <-.
      apply elem_of_app. right. by apply Hnew. }
  split.
  { intros x Hx Hrd. apply elem_of_cons in Hx as [->|Hx].
    - destruct Hrd as (it' & Hit' & Hc). cbn [fst] in *. rewrite Hit in Hit'. injection Hit' as <-.
      rewrite Hc. apply closure_push_in.
    - destruct (consuming it); [apply closure_push_mono|]; by apply Hreads. }
  intros ip' it' id' Hit' Hid' He. rewrite Hex' in He.
  - destruct (was_executed st id') eqn:He'; [right; by eapply Hex|]. rewrite orb_false_r in He.
    apply bool_decide_eq_true in He. rewrite (split_id_inj ip' ip it' it id' Hu Hit' Hit Hid' He). left.
  - destruct Hok as [_ _ Hids _]. rewrite Forall_forall in Hids. apply Hids.
    apply list_elem_of_omap. exists it'. split; [|done].
    apply item_at_split in Hit' as (pre & post & -> & _). apply elem_of_app. right. left.
Qed.

Lemma epsilon_closure_spec fuel start rep_count curr prev st closure :
  acyclic items = true -> cache_ok st -> st.(ec_threads) = [] -> NoDup (fst <$> closure) ->
  is_Some (item_at items (location start)) -> (closure_fuel items (location start) <= fuel)%nat ->
  exists st' new,
    epsilon_closure fuel (enc_items items) start rep_count curr prev st closure = Ret (st', closure ++ new) /\
    st'.(ec_threads) = [] /\ cache_ok st' /\ NoDup (fst <$> (closure ++ new)) /\
    (forall t, t ∈ new ->
       rtc (eps_step (backwards start) prev curr) (location start, rep_count) t /\ reads t) /\
    (no_repeat items = true -> NoDup (omap item_split_id items) -> forall t,
       rtc (eps_step (backwards start) prev curr) (location start, rep_count) t -> reads t ->
       fst t ∈ fst <$> (closure ++ new)).
Proof.
  intros Ha Hc He Hnd Hstart Hf. unfold epsilon_closure.
  set (st0 := set_dirty _ _). set (t0 := (location start, rep_count)).
  assert (Hex0 : forall j, was_executed st0 j = false) by done.
  set (P := fun st cl => sound_state (backwards start) prev curr t0 closure st cl /\
    (no_repeat items = true -> NoDup (omap item_split_id items) ->
     complete_state (backwards start) prev curr t0 st cl)).
  destruct (closure_loop_ind P (backwards start) curr prev fuel st0 closure Ha) as (st' & cl' & E & He' & Hc' & HP).
  - done.
  - cbn [st0 set_dirty push ec_threads]. rewrite He. by constructor.
  - cbn [st0 set_dirty push ec_threads]. rewrite He. unfold stack_weight. cbn [fmap list_fmap fst sum_nat foldr].
    unfold closure_fuel in Hf. rewrite Nat.add_0_r.
    rewrite (split_weight_ext _ (fun _ => false)) by done. done.
  - split.
    + split; [cbn [st0 set_dirty push ec_threads]; rewrite He; constructor; [reflexivity|constructor]|].
      split; [done|]. exists []. by rewrite app_nil_r.
    + intros _ _. exists []. cbn [app st0 set_dirty push ec_threads]. rewrite He. split; [left|].
      split; [by repeat constructor|]. split; [by intros ?? ?%not_elem_of_nil|].
      split; [by intros ? ?%not_elem_of_nil|]. intros ip it id _ _. by rewrite Hex0.
  - intros ip it r st1 st2 cl Hh Hit [H1 H2] Hs. split; [by eapply sound_state_step|].
    intros Hn Hu. eapply complete_state_step; [done..|by apply H2|done].
  - destruct HP as [(_ & Hnd' & new & -> & Hnew) Hcomp]. exists st', new. rewrite E.
    split; [done|]. split; [done|]. split; [done|]. split; [done|].
    split; [by rewrite Forall_forall in Hnew|].
    intros Hn Hu t Hreach Hrd. destruct (Hcomp Hn Hu) as (visited & H0 & _ & Hclosed & Hreads & _).
    rewrite He', app_nil_r in H0. apply Hreads; [|done]. 
    assert (Hall : forall x y, rtc (eps_step (backwards start) prev curr) x y -> x ∈ visited -> y ∈ visited).
    { induction 1 as [|x y z Hxy _ IH]; [done|]. intros Hx. apply IH.
      specialize (Hclosed x y Hx Hxy). by rewrite He', app_nil_r in Hclosed. }
    by eapply Hall.
Qed.
(** The closure does not depend on what an earlier one left in the cache. *)
Definition same_state (st1 st2 : State) : Prop :=
  cache_ok st1 /\ cache_ok st2 /\ st1.(ec_threads) = st2.(ec_threads) /\
  forall j, 0 <= j < EXECUTED_SPLITS_LEN -> was_executed st1 j = was_executed st2 j.

Lemma stepped_same ip it backwards prev curr rep_count st1 st2 st1' st2' :
  item_at items ip = Some it -> same_state st1 st2 ->
  stepped it backwards prev curr ip rep_count st1 st1' ->
  stepped it backwards prev curr ip rep_count st2 st2' -> same_state st1' st2'.
Proof.
  intros Hit (_ & _ & Hth & Hex) (Hc1 & Ht1 & He1) (Hc2 & Ht2 & He2).
  split; [done|]. split; [done|]. split; [|intros j Hj; by rewrite He1, He2, Hex].
  rewrite Ht1, Ht2, Hth. destruct (item_split_id it) as [id|] eqn:Hid; [|done]. rewrite Hex; [done|].
  destruct Hok as [_ _ Hids _]. rewrite Forall_forall in Hids. apply Hids.
  apply list_elem_of_omap. exists it. split; [|done].
  apply item_at_split in Hit as (pre & post & -> & _). apply elem_of_app. right. left.
Qed.

Lemma closure_loop_same fuel backwards curr prev st1 st2 closure st1' closure' :
  same_state st1 st2 -> on_items st1.(ec_threads) ->
  closure_loop fuel (enc_items items) backwards curr prev st1 closure = Ret (st1', closure') ->
  exists st2', closure_loop fuel (enc_items items) backwards curr prev st2 closure = Ret (st2', closure').
Proof.
  revert st1 st2 closure. induction fuel as [|fuel IH]; intros st1 st2 closure Hs Hon;
    pose proof Hs as (Hc1 & Hc2 & Hth & _); cbn [closure_loop]; rewrite <- Hth;
    destruct (ec_threads st1) as [|[ip r] ts] eqn:E; try done; try (intros [= <- <-]; by eexists).
  apply Forall_cons in Hon as [[it Hit] Hon]. cbn [fst] in Hit.
  set (s1 := {| ec_threads := ts; executed_splits := executed_splits st1; dirty := dirty st1 |}).
  set (s2 := {| ec_threads := ts; executed_splits := executed_splits st2; dirty := dirty st2 |}).
  assert (Hs' : same_state s1 s2) by (destruct Hs as (_ & _ & _ & Hex); by split_and!).
  destruct (closure_step_item ip it backwards curr prev r s1 closure Hit Hc1) as (t1 & -> & Ht1).
  destruct (closure_step_item ip it backwards curr prev r s2 closure Hit Hc2) as (t2 & -> & Ht2).
  cbn [mbind res_bind]. apply IH.
  - by eapply stepped_same.
  - apply Forall_forall. intros t Ht. apply (stepped_threads _ _ _ _ _ _ _ _ _ Ht1) in Ht as [Ht|Ht].
    + eapply closed_succ; [apply Hok|exact Hit|]. by eapply pushes_succs.
    + unfold on_items in Hon. rewrite Forall_forall in Hon. by apply Hon.
Qed.

Lemma epsilon_closure_same fuel start rep_count curr prev st1 st2 closure st1' closure' :
  cache_ok st1 -> st1.(ec_threads) = [] -> cache_ok st2 -> st2.(ec_threads) = [] ->
  is_Some (item_at items (location start)) ->
  epsilon_closure fuel (enc_items items) start rep_count curr prev st1 closure = Ret (st1', closure') ->
  exists st2', epsilon_closure fuel (enc_items items) start rep_count curr prev st2 closure = Ret (st2', closure').
Proof.
  intros Hc1 He1 Hc2 He2 Hs. apply closure_loop_same.
  - split_and!; try done. cbn. by rewrite He1, He2.
  - cbn. rewrite He1. by constructor.
Qed.

(** The closure from an instruction that reads input. *)
Lemma epsilon_closure_reads fuel start it rep_count curr prev st :
  item_at items (location start) = Some it -> consuming it = true ->
  cache_ok st -> st.(ec_threads) = [] -> fuel <> 0%nat ->
  exists st', epsilon_closure fuel (enc_items items) start rep_count curr prev st [] =
                Ret (st', [(location start, rep_count)]) /\ cache_ok st' /\ st'.(ec_threads) = [].
Proof.
  intros Hit Hcons Hc He Hf. unfold epsilon_closure. destruct fuel as [|fuel]; [done|]. cbn [closure_loop].
  cbn [set_dirty push ec_threads]. rewrite He.
  set (st0 := {| ec_threads := []; executed_splits := _; dirty := _ |}).
  destruct (closure_step_item (location start) it (backwards start) curr prev rep_count st0 [] Hit Hc)
    as (st' & -> & Hst). cbn [mbind res_bind]. rewrite Hcons.
  assert (ec_threads st' = []) as Hnil.
  { destruct (ec_threads st') as [|t ts] eqn:E; [done|]. exfalso.
    assert (t ∈ ec_threads st') as Ht by (rewrite E; left).
    apply (stepped_threads _ _ _ _ _ _ _ _ _ Hst) in Ht as [Ht%pushes_succs|Ht%not_elem_of_nil]; [|done].
    rewrite succs_consuming in Ht by done. by apply not_elem_of_nil in Ht. }
  exists st'. destruct fuel; cbn [closure_loop]; rewrite Hnil; (split; [done|]); by split; [apply Hst|].
Qed.
End Code.

(** C32: the epsilon closure ends without panics for well-formed code with no
    cycle outside the split instructions; the threads that it adds are different
    and can be reached without reading input, under the assertions that hold at
    the position, and for code without repetition instructions no reachable
    instruction is missed. *)
Theorem closure_exact items fuel start rep_count curr prev (st : State) closure :
  code_ok items -> acyclic items = true -> NoDup (omap item_split_id items) ->
  cache_ok st -> st.(ec_threads) = [] -> NoDup (fst <$> closure) ->
  is_Some (item_at items (location start)) -> (closure_fuel items (location start) <= fuel)%nat ->
  exists st' new,
    epsilon_closure fuel (enc_items items) start rep_count curr prev st closure = Ret (st', closure ++ new) /\
    st'.(ec_threads) = [] /\ cache_ok st' /\ NoDup (fst <$> (closure ++ new)) /\
    let reachable t := rtc (eps_step items (backwards start) prev curr) (location start, rep_count) t /\ reads items t in
    (forall t, t ∈ new -> reachable t) /\
    (no_repeat items = true -> forall t, reachable t -> fst t ∈ fst <$> (closure ++ new)).
Proof.
  intros Hok Ha Hu Hc He Hnd Hs Hf.
  destruct (epsilon_closure_spec items Hok fuel start rep_count curr prev st closure Ha Hc He Hnd Hs Hf)
    as (st' & new & E & He' & Hc' & Hnd' & Hsound & Hcomp).
  exists st', new. cbn zeta. split_and!; try done. intros Hn t [? ?]. by apply Hcomp.
Qed.
End Step.

(** * Assertions

    [before] and [after] are the bytes around the position in the data, in the
    order of the data. *)

Definition line_start_at (before after : option Z) : bool :=
  match before, after with
  | None, _ => true
  | Some b, a => (b =? LF) && negb (bool_decide (a = Some CR)) || (b =? CR) && negb (bool_decide (a = Some LF))
  end.

Definition line_end_at (before after : option Z) : bool :=
  match before, after with
  | _, None => true
  | b, Some a => (a =? LF) && negb (bool_decide (b = Some CR)) || (a =? CR) && negb (bool_decide (b = Some LF))
  end.

(** What an assertion means: the assertion of the pattern that it is compiled
    from and, for the ones on lines, the description in [instr.rs]. *)
Definition assertion_spec (instr : Instr.t) (before after : option Z) : option bool :=
  match instr with
  | Instr.Start => Some (look_at Start before after)
  | Instr.End => Some (look_at End before after)
  | Instr.LineStart => Some (line_start_at before after)
  | Instr.LineEnd => Some (line_end_at before after)
  | Instr.WordBoundary => Some (look_at WordAscii before after)
  | Instr.WordBoundaryNeg => Some (look_at WordAsciiNegate before after)
  | Instr.WordStart => Some (look_at WordStartAscii before after)
  | Instr.WordEnd => Some (look_at WordEndAscii before after)
  | _ => None
  end.

(** The cases in which the machine gives the opposite answer. *)
Definition misjudged (instr : Instr.t) (backwards : bool) (before after : option Z) : bool :=
  match instr, backwards, before, after with
  | Instr.LineEnd, false, None, Some a => (a =? CR) || (a =? TAB)
  | Instr.LineEnd, true, None, Some a => (a =? LF) || (a =? CR)
  | Instr.WordEnd, true, None, Some a => is_word_char a
  | Instr.WordEnd, true, Some b, None => is_word_char b
  | _, _, _, _ => false
  end.

Lemma is_word_byte_char b : is_word_byte (Some b) = is_word_char b.
Proof.
  unfold is_word_byte, is_word_char. apply orb_comm.
Qed.

Lemma bool_decide_eqb x y : bool_decide (Some x = Some y) = (x =? y).
Proof.
  destruct (x =? y) eqn:E; bools; [subst; by apply bool_decide_eq_true_2|apply bool_decide_eq_false_2; congruence].
Qed.

Lemma bool_decide_none (x : Z) : bool_decide (None = Some x) = false.
Proof. by apply bool_decide_eq_false_2. Qed.

(** Equations between tests of bytes, by cases. *)
Ltac bool_cases :=
  repeat match goal with
  | |- context [is_word_char ?x] => destruct (is_word_char x)
  | |- context [?x =? ?y] => is_var x; destruct (x =? y) eqn:?
  end; bools; subst; (done || lia).

(** C33: the assertions of the virtual machine: in both directions every
    assertion holds exactly where the assertion of the pattern does, for all the
    bytes around the position and at both ends of the data, but for four cases at
    the ends of the data in which the machine gives the opposite answer: the end
    of a line before a first byte that is a carriage return (missed) or a tab
    (accepted), the end of a line at the start of the data in backward scans
    (missed), and the end of a word in backward scans at the end of the data
    (missed) and at its start (accepted). *)
Theorem assertions_exact (instr : Instr.t) (backwards : bool) (before after : option Z) :
  assertion instr backwards (if backwards then after else before) (if backwards then before else after) =
  (fun holds => xorb holds (misjudged instr backwards before after)) <$>
    assertion_spec instr before after.
Proof.
  destruct instr; try done; cbn [assertion assertion_spec fmap option_fmap option_map misjudged]; f_equal;
    unfold look_at; destruct backwards, before as [b|], after as [a|];
    rewrite ?is_word_byte_char; cbn; rewrite ?bool_decide_eqb, ?bool_decide_none; unfold LF, CR, TAB;
    bool_cases.
Qed.

(** * Instances *)

(** The code of [ab|a]. *)
Definition sample_code : list Item :=
  [ISplit true 0 16; IByte 0x61; IByte 0x62; IJump 7; IByte 0x61; IPlain Instr.MATCH].

Lemma sample_code_ok : code_ok sample_code.
Proof.
  split; [|by vm_compute|by repeat constructor|by vm_compute].
  repeat constructor; try (unfold is_u16, is_i32; lia). by eexists.
Qed.

Lemma closure_exact_witness :
  exists (st' : EpsilonClosureState (B := list bool)) new,
    epsilon_closure 20 (enc_items sample_code) (FwdCodeLoc 1) 0 (Some 0x61) None closure_state_new [] =
      Ret (st', [] ++ new) /\
    st'.(ec_threads) = [] /\ cache_ok st' /\ NoDup (fst <$> ([] ++ new)) /\
    let reachable t := rtc (eps_step sample_code false None (Some 0x61)) (0, 0) t /\ reads sample_code t in
    (forall t, t ∈ new -> reachable t) /\
    (no_repeat sample_code = true -> forall t, reachable t -> fst t ∈ fst <$> ([] ++ new)).
Proof.
  apply (closure_exact sample_code 20 (FwdCodeLoc 1)).
  - exact sample_code_ok.
  - by vm_compute.
  - apply NoDup_singleton.
  - by vm_compute.
  - done.
  - constructor.
  - by eexists.
  - by apply (bool_decide_eq_true_1 _), (eq_refl true).
Defined.
