(* ===== verification/PikeRun.v ===== *)
(** The main loop of the Pike virtual machine: the optimization for runs of
    literal bytes changes nothing, and for code without repetition instructions
    the machine reports exactly the lengths that the automaton given by the code
    accepts. *)

From S2P Require Import Prelude.
From S2P Require Import PosSet.
From S2P Require Import PikeInstr.
From S2P Require Import PikeSeq.
From S2P Require Import Re.
From S2P Require Import PikeVM.
From S2P Require Import PikeClosure.

Section Run.
Context {BS : BitSlice} {BSL : BitSliceLaws} {B : Type} {BV : BitVec B} {BVL : BitVecLaws B}.
Notation State := (EpsilonClosureState (B := B)).

(** Enough fuel for every closure that the machine computes. *)
Definition vm_fuel (items : list Item) : nat :=
  sum_nat ((fun ia => closure_fuel items (snd ia)) <$> with_addr items 0).

Lemma vm_fuel_enough items ip :
  is_Some (item_at items ip) -> (closure_fuel items ip <= vm_fuel items)%nat.
Proof.
  intros [it Hit%item_at_elem]. unfold vm_fuel.
  apply list_elem_of_split in Hit as (l1 & l2 & ->). rewrite fmap_app, fmap_cons, sum_nat_app.
  cbn [sum_nat foldr snd]. lia.
Qed.

(** Code that the machine runs: [code_ok], no cycles and unique identifiers. *)
Record runnable (items : list Item) : Prop := {
  rn_ok : code_ok items;
  rn_acyclic : acyclic items = true;
  rn_unique : NoDup (omap item_split_id items);
}.

Section Code.
Context (items : list Item) (Hrun : runnable items).
Context (fuel : nat) (Hfuel : (vm_fuel items <= fuel)%nat).

(** The test of an instruction on a byte. *)
Definition item_test (it : Item) (b : Z) : bool := default false (instr_test (instr_of it) b).

Definition is_match_item (it : Item) : bool :=
  match it with IPlain op => is_match_op op | _ => false end.

(** The state of the closure between two calls. *)
Definition idle (st : State) : Prop := cache_ok st /\ st.(ec_threads) = [].

Lemma fuel_pos ip it : item_at items ip = Some it -> fuel <> 0%nat.
Proof.
  intros Hit. pose proof (vm_fuel_enough items ip (mk_is_Some _ _ Hit)). unfold closure_fuel in *.
  pose proof (total_weight_pos items ip it (rn_acyclic _ Hrun) Hit). lia.
Qed.

Lemma reading_target ip it :
  item_at items ip = Some it -> consuming it = true -> is_match_item it = false ->
  is_Some (item_at items (ip + len (enc it))).
Proof.
  intros Hit Hc Hm. eapply closed_target; [apply Hrun|exact Hit|].
  unfold targets. apply elem_of_app. right. unfold is_match_item in Hm. rewrite Hc, Hm. left.
Qed.

Lemma from_same_item start ip :
  is_Some (item_at items ip) ->
  exists loc, from_same start ip = Ret loc /\ location loc = ip /\ backwards loc = backwards start.
Proof.
  intros [it Hit%item_at_bounds]. destruct Hrun as [[_ _ _ Hl] _ _]. unfold i32_MAX in Hl.
  unfold from_same, fwd_from, bck_from. rewrite nonzero_loc_small by (unfold u32_MAX; lia).
  destruct start; cbn [fmap res_fmap]; eexists; (split; [reflexivity|]); cbn; split; [lia|done|lia|done].
Qed.

Section Vars.
Context {C : Type}.
Implicit Types v : Vars (B := B) C.

(** What [advance] adds to the next threads. *)
Definition closure_from (backwards : bool) (prev curr : option Z) (t : Z * Z) (old new : list (Z * Z)) : Prop :=
  NoDup (fst <$> (old ++ new)) /\
  (forall t', t' ∈ new -> rtc (eps_step items backwards prev curr) t t' /\ reads items t') /\
  (no_repeat items = true -> forall t', rtc (eps_step items backwards prev curr) t t' -> reads items t' ->
     fst t' ∈ fst <$> (old ++ new)).

Lemma advance_spec start ip size rep_count v :
  is_Some (item_at items (ip + size)) -> idle v.(cache) -> NoDup (fst <$> v.(next_threads)) ->
  exists st new,
    advance fuel (enc_items items) start ip size rep_count v =
      Ret (with_threads v st (v.(next_threads) ++ new)) /\ idle st /\
    closure_from (backwards start) v.(curr_byte) v.(next_byte) (ip + size, rep_count) v.(next_threads) new.
Proof.
  intros Hs [Hc He] Hnd. unfold advance. destruct (from_same_item start _ Hs) as (loc & -> & Hl & Hb).
  cbn [mbind res_bind]. destruct Hrun as [Hok Ha Hu].
  destruct (epsilon_closure_spec items Hok fuel loc rep_count (next_byte v) (curr_byte v) (cache v) (next_threads v))
    as (st & new & -> & He' & Hc' & Hnd' & Hs' & Hcomp); try done.
  - by rewrite Hl.
  - rewrite Hl. pose proof (vm_fuel_enough items _ Hs). lia.
  - rewrite Hl, Hb in *. cbn [mbind res_bind]. exists st, new. split; [done|]. split; [done|].
    split; [done|]. split; [done|]. intros Hn. by apply Hcomp.
Qed.

(** ** One thread *)

Lemma decode_runs it post :
  item_ok it -> (forall b, it <> IByte b) ->
  decode_instr (enc it ++ post) true = decode_instr (enc it ++ post) false.
Proof.
  intros Hio Hb. destruct it as [op|b| |rs|[]| |[]|]; try done; cbn [enc].
  - destruct Hio as [i Hi]. unfold plain_instr in Hi. repeat case_match; bools; subst; done.
  - by destruct (Hb b).
  - by destruct (len rs <? 16).
Qed.

(** The instruction at a thread, when it is not the first of a run. *)
Definition decodes_alone (runs : bool) (it : Item) (post : list Z) : Prop :=
  decode_instr (enc it ++ post) runs = Ret (instr_of it, len (enc it)).

(** [exec_thread] in terms of the instruction. *)
Definition exec_item (start : CodeLoc) (f : Input -> C -> Z -> C * Action) (it : Item) (t : Z * Z) v
  : res (Vars C * bool) :=
  if is_match_item it then
    let '(c, action) := f v.(fwd_input) v.(acc) v.(current_pos) in
    Ret (with_acc v c, bool_decide (action = Stop))
  else if byte_is v.(curr_byte) (item_test it)
  then v ← advance fuel (enc_items items) start (fst t) (len (enc it)) (snd t) v; Ret (v, false)
  else Ret (v, false).

Lemma exec_thread_item start f runs it ip rep_count v :
  item_at items ip = Some it -> consuming it = true ->
  (forall post, index_range (enc_items items) ip (len (enc_items items)) = Ret (enc it ++ post) ->
     item_ok it -> decodes_alone runs it post) ->
  exec_thread fuel (enc_items items) start runs f (ip, rep_count) v = exec_item start f it (ip, rep_count) v.
Proof.
  intros Hit Hcons Hd. destruct (item_at_decode items (rn_ok _ Hrun) ip it Hit) as (post & Hr & Hio).
  unfold exec_thread. rewrite Hr. cbn [mbind res_bind]. rewrite (Hd post Hr Hio). cbn [mbind res_bind].
  unfold exec_item, item_test. cbn [fst snd].
  assert (Hgen : forall instr, is_match_item it = false -> is_Some (instr_test instr 0) ->
    (forall b, is_Some (instr_test instr b)) ->
    (is_match ← or_panic (match instr_test instr (default 0 (curr_byte v)) with
                          | Some b => Some (bool_decide (is_Some (curr_byte v)) && b) | None => None end);
     if is_match : bool
     then v ← advance fuel (enc_items items) start ip (len (enc it)) rep_count v; Ret (v, false)
     else Ret (v, false)) =
    if is_match_item it then
      let '(c, action) := f v.(fwd_input) v.(acc) v.(current_pos) in
      Ret (with_acc v c, bool_decide (action = Stop))
    else if byte_is (curr_byte v) (fun b => default false (instr_test instr b))
         then v ← advance fuel (enc_items items) start ip (len (enc it)) rep_count v; Ret (v, false)
         else Ret (v, false)).
  { intros instr -> H0 Hall. destruct (curr_byte v) as [b|]; cbn [from_option id byte_is].
    - destruct (Hall b) as [r ->]. by destruct r.
    - destruct H0 as [r ->]. by destruct r. }
  destruct it as [op|b|byte mk|rs| | | |]; try done.
  - cbn [consuming] in Hcons. unfold is_match_op in Hcons. apply orb_prop in Hcons as [E|E]; bools; subst op.
    + done.
    + by apply (Hgen Instr.AnyByte).
  - by apply (Hgen (Instr.Byte b)).
  - by apply (Hgen (Instr.MaskedByte byte mk)).
  - cbn [instr_of]. destruct (len rs <? 16).
    + by apply (Hgen (Instr.ClassRanges _)).
    + by apply (Hgen (Instr.ClassBitmap _)).
Qed.

(** ** Two machines with different caches *)

Record sim v1 v2 : Prop := {
  sim_input : v1.(fwd_input) = v2.(fwd_input);
  sim_curr : v1.(curr_byte) = v2.(curr_byte);
  sim_next : v1.(next_byte) = v2.(next_byte);
  sim_pos : v1.(current_pos) = v2.(current_pos);
  sim_threads : v1.(next_threads) = v2.(next_threads);
  sim_acc : v1.(acc) = v2.(acc);
  sim_idle1 : idle v1.(cache);
  sim_idle2 : idle v2.(cache);
  sim_nodup : NoDup (fst <$> v1.(next_threads));
  sim_reads : Forall (reads items) v1.(next_threads);
}.

Lemma advance_same start ip size rep_count v1 v2 st1 l1 :
  is_Some (item_at items (ip + size)) -> sim v1 v2 ->
  advance fuel (enc_items items) start ip size rep_count v1 = Ret (with_threads v1 st1 l1) ->
  exists st2, advance fuel (enc_items items) start ip size rep_count v2 = Ret (with_threads v2 st2 l1) /\ idle st2.
Proof.
  intros Hs Hsim. destruct (advance_spec start ip size rep_count v2 Hs) as (st2 & new & E2 & Hi2 & _).
  { apply Hsim. } { rewrite <- (sim_threads _ _ Hsim). apply Hsim. }
  rewrite E2. unfold advance in *. destruct (from_same_item start _ Hs) as (loc & Hloc & Hl & Hb).
  rewrite Hloc in *. cbn [mbind res_bind] in *.
  destruct (epsilon_closure _ _ _ _ _ _ (cache v1) _) as [[s1 c1]| |] eqn:E1; [|done|done].
  cbn [mbind res_bind]. intros [= <- <-].
  destruct Hsim as [Hin Hcu Hne Hpo Hth Hac [Hc1 He1] [Hc2 He2] _ _].
  destruct (epsilon_closure_same items (rn_ok _ Hrun) _ _ _ _ _ _ (cache v2) _ _ _ Hc1 He1 Hc2 He2
              ltac:(by rewrite Hl) E1) as [s2 E2']. rewrite Hcu, Hne, Hth in E2'. rewrite E2' in E2.
  cbn [mbind res_bind] in E2. injection E2 as <- ->. by exists s2.
Qed.

Lemma exec_item_sim start f it ip rep_count v1 v2 :
  item_at items ip = Some it -> consuming it = true -> sim v1 v2 ->
  exists v1' v2' stop, exec_item start f it (ip, rep_count) v1 = Ret (v1', stop) /\
    exec_item start f it (ip, rep_count) v2 = Ret (v2', stop) /\ sim v1' v2' /\
    v1'.(current_pos) = v1.(current_pos).
Proof.
  intros Hit Hcons Hsim. unfold exec_item. rewrite <- (sim_input _ _ Hsim), <- (sim_acc _ _ Hsim),
    <- (sim_pos _ _ Hsim), <- (sim_curr _ _ Hsim).
  destruct (is_match_item it) eqn:Hm.
  - destruct (f _ _ _) as [c a]. do 3 eexists. split; [reflexivity|]. split; [reflexivity|].
    destruct Hsim. split; [by split|done].
  - destruct (byte_is _ _); [|by exists v1, v2, false]. cbn [fst snd].
    pose proof (reading_target _ _ Hit Hcons Hm) as Hs.
    destruct (advance_spec start ip (len (enc it)) rep_count v1 Hs) as (st1 & new & E1 & Hi1 & Hcl);
      [apply Hsim..|].
    destruct (advance_same start ip _ rep_count v1 v2 _ _ Hs Hsim E1) as (st2 & E2 & Hi2).
    rewrite E1, E2. do 3 eexists. split; [reflexivity|]. split; [reflexivity|].
    destruct Hsim, Hcl as (Hnd & Hnew & _). split; [|done]. split; try done.
    cbn [with_threads next_threads]. apply Forall_app. split; [done|].
    apply Forall_forall. intros t Ht. by apply Hnew.
Qed.

Lemma threads_sim start f runs1 runs2 threads v1 v2 :
  Forall (fun t => exists it, item_at items (fst t) = Some it /\ consuming it = true /\
    forall post, index_range (enc_items items) (fst t) (len (enc_items items)) = Ret (enc it ++ post) ->
      item_ok it -> decodes_alone runs1 it post /\ decodes_alone runs2 it post) threads ->
  sim v1 v2 ->
  exists v1' v2' stop,
    for_each_until threads (exec_thread fuel (enc_items items) start runs1 f) v1 = Ret (v1', stop) /\
    for_each_until threads (exec_thread fuel (enc_items items) start runs2 f) v2 = Ret (v2', stop) /\ sim v1' v2' /\
    v1'.(current_pos) = v1.(current_pos).
Proof.
  intros HF. revert v1 v2. induction HF as [|[ip r] threads (it & Hit & Hcons & Hd) _ IH]; intros v1 v2 Hsim.
  - by exists v1, v2, false.
  - cbn [for_each_until fst] in *.
    rewrite (exec_thread_item start f runs1 it), (exec_thread_item start f runs2 it) by (done || intros; by apply Hd).
    destruct (exec_item_sim start f it ip r v1 v2 Hit Hcons Hsim) as (w1 & w2 & stop & -> & -> & Hsim' & Hp).
    cbn [mbind res_bind]. destruct stop; [by exists w1, w2, true|]. rewrite <- Hp. by apply IH.
Qed.

(** ** Runs of literal bytes *)

Lemma enc_no_literal it post : item_ok it -> (forall b, it <> IByte b) -> no_literal (enc it ++ post).
Proof.
  intros Hio Hb. destruct it as [op|b| |rs|[]| |[]|]; try done; cbn [enc].
  - destruct Hio as [i Hi]. unfold plain_instr in Hi. repeat case_match; bools; subst; done.
  - by destruct (Hb b).
  - by destruct (len rs <? 16).
Qed.

Lemma take_bytes l :
  exists lit rest, l = (IByte <$> lit) ++ rest /\ (Forall item_ok l -> no_literal (enc_items rest)).
Proof.
  induction l as [|it l (lit & rest & -> & Hn)].
  - by exists [], [].
  - assert (Hb : (exists b, it = IByte b) \/ (forall b, it <> IByte b)).
    { destruct it; try (by right); left; by eexists. }
    destruct Hb as [[b ->]|Hb].
    + exists (b :: lit), rest. split; [done|]. intros [_ H]%Forall_cons. by apply Hn.
    + exists [], (it :: (IByte <$> lit) ++ rest). split; [done|]. intros [Hio _]%Forall_cons.
      by apply enc_no_literal.
Qed.

Lemma byte_run ip b :
  item_at items ip = Some (IByte b) ->
  exists pre lit rest, items = pre ++ (IByte <$> b :: lit) ++ rest /\ ip = len (enc_items pre) /\
    no_literal (enc_items rest).
Proof.
  intros (pre & post & Hi & ->)%item_at_split. destruct (take_bytes post) as (lit & rest & -> & Hn).
  exists pre, lit, rest. split; [done|]. split; [done|]. apply Hn.
  destruct Hrun as [[Hok _ _ _] _ _]. rewrite Hi in Hok. by apply Forall_app in Hok as [_ [_ ?]%Forall_cons].
Qed.

(** The bytes of the input are compared with a literal: the byte that follows
    it and the input after that byte, when all of them are equal. [curr] has
    been read already. *)
Fixpoint eat (lit : list Z) (curr : option Z) (i : Input) : option (option Z * Input) :=
  match lit with
  | [] => Some (curr, i)
  | b :: lit =>
      if byte_is curr (fun x => x =? b) then let '(c, i) := input_next i in eat lit c i else None
  end.

Lemma eat_cons b lit curr i :
  eat (b :: lit) curr i =
  if byte_is curr (fun x => x =? b) then let '(c, i) := input_next i in eat lit c i else None.
Proof. done. Qed.

(** [match_rest] on a literal whose first byte has not been read. *)
Lemma match_rest_eat lit n pre post v :
  no_literal post -> (length lit <= n)%nat ->
  let it := {| lb_code := pre ++ enc_literal lit ++ post; lb_offset := len pre |} in
  let '(c, i) := input_next v.(fwd_input) in
  exists ok it' v',
    match_rest n it v = Ret (ok, it', v') /\
    v'.(cache) = v.(cache) /\ v'.(next_threads) = v.(next_threads) /\ v'.(acc) = v.(acc) /\
    match eat lit c i with
    | Some (c', i') =>
        ok = true /\ it'.(lb_offset) = len pre + len (enc_literal lit) /\
        input_next v'.(fwd_input) = (c', i') /\ v'.(current_pos) = v.(current_pos) + len lit /\
        v'.(curr_byte) = (match last lit with Some b => Some b | None => v.(curr_byte) end)
    | None => ok = false
    end.
Proof.
  intros Hp. revert n pre v. induction lit as [|b lit IH]; intros n pre v Hn; cbn zeta.
  - destruct (input_next (fwd_input v)) as [c i] eqn:Ei. exists true, {| lb_code := pre ++ post; lb_offset := len pre |}, v.
    change (enc_literal [] ++ post) with post. split; [destruct n; cbn [match_rest]; by rewrite literal_next_end|].
    cbn [eat last lb_offset]. change (enc_literal []) with (@nil Z). rewrite !len_nil, !Z.add_0_r. done.
  - destruct n as [|n]; [cbn in Hn; lia|]. cbn [match_rest].
    change (enc_literal (b :: lit)) with (enc_byte b ++ enc_literal lit). rewrite <- (app_assoc (enc_byte b)).
    rewrite literal_next_byte. destruct (input_next (fwd_input v)) as [c i] eqn:Ei.
    destruct c as [x|]; cbn [eat byte_is]; [|by do 3 eexists].
    destruct (x =? b) eqn:Ex; [|by do 3 eexists]. bools. subst x.
    rewrite app_assoc, <- len_app.
    specialize (IH n (pre ++ enc_byte b) (with_input v i (Some b) (next_byte v) (current_pos v + 1)) ltac:(cbn in Hn; lia)).
    cbn [with_input fwd_input] in IH. destruct (input_next i) as [c1 i1].
    destruct IH as (ok & it' & v' & E & H1 & H2 & H3 & H4). exists ok, it', v'. split; [exact E|].
    split; [done|]. split; [done|]. split; [done|]. destruct (eat lit c1 i1) as [[c' i']|]; [|done].
    destruct H4 as (H4 & H5 & H6 & H7 & H8). split; [done|]. rewrite H5, H7, H8. cbn [with_input current_pos curr_byte].
    split; [change (enc_literal (b :: lit)) with (enc_byte b ++ enc_literal lit); rewrite !len_app; lia|].
    split; [done|]. split; [rewrite len_cons; lia|].
    rewrite last_cons. by destruct (last lit).
Qed.

Lemma match_bytes_eat b1 b2 lit post i0 v :
  no_literal post -> input_next i0 = (v.(next_byte), v.(fwd_input)) ->
  let code := enc_literal (b1 :: b2 :: lit) ++ post in
  exists ok it' v',
    match_bytes (literal_bytes_new code) v = Ret (ok, it', v') /\
    v'.(cache) = v.(cache) /\ v'.(next_threads) = v.(next_threads) /\ v'.(acc) = v.(acc) /\
    match eat (b1 :: b2 :: lit) v.(curr_byte) i0 with
    | Some (c', i') =>
        ok = true /\ consumed it' = len (enc_literal (b1 :: b2 :: lit)) /\ v'.(fwd_input) = i' /\
        v'.(next_byte) = c' /\ v'.(current_pos) = v.(current_pos) + len (b2 :: lit) /\
        v'.(curr_byte) = last (b2 :: lit)
    | None => ok = false
    end.
Proof.
  intros Hp Hi0 code. unfold match_bytes, literal_bytes_new, code.
  change (enc_literal (b1 :: b2 :: lit)) with (enc_byte b1 ++ enc_byte b2 ++ enc_literal lit).
  rewrite <- !app_assoc. set (all := enc_byte b1 ++ enc_byte b2 ++ enc_literal lit ++ post).
  assert (literal_bytes_next {| lb_code := all; lb_offset := 0 |} =
          (Some b1, {| lb_code := all; lb_offset := len (enc_byte b1) |})) as ->
    by apply (literal_next_byte []).
  cbn [eat]. destruct (byte_is (curr_byte v) (fun b => b =? b1)); cbn [negb]; [|by do 3 eexists]. rewrite Hi0.
  unfold all. rewrite (literal_next_byte (enc_byte b1) b2).
  destruct (byte_is (next_byte v) (fun b => b =? b2)) eqn:E2; cbn [negb]; [|by do 3 eexists].
  rewrite (app_assoc (enc_byte b1)), <- len_app.
  pose proof (match_rest_eat lit (length ((enc_byte b1 ++ enc_byte b2) ++ enc_literal lit ++ post))
    (enc_byte b1 ++ enc_byte b2) post
    (with_input v (fwd_input v) (next_byte v) (next_byte v) (current_pos v + 1)) Hp) as H.
  cbn [with_input fwd_input] in H. cbn [lb_code].
  destruct (input_next (fwd_input v)) as [c i].
  destruct H as (ok & it' & v' & -> & H1 & H2 & H3 & H4).
  { rewrite !length_app. pose proof (length_enc_items (IByte <$> lit)) as Hl.
    rewrite enc_items_bytes, length_fmap in Hl. lia. }
  cbn [mbind res_bind]. destruct (eat lit c i) as [[c' i']|].
  - destruct H4 as (-> & H4 & H5 & H6 & H7). rewrite H5. do 3 eexists. split; [reflexivity|].
    cbn [with_input cache next_threads acc fwd_input next_byte current_pos curr_byte].
    rewrite H6, H7. cbn [with_input current_pos curr_byte]. unfold consumed. rewrite H4.
    split; [done|]. split; [done|]. split; [done|]. split; [done|].
    split; [rewrite !len_app; lia|]. split; [done|]. split; [done|].
    split; [rewrite len_cons; lia|]. rewrite last_cons.
    destruct (next_byte v) as [x|]; [|done]. cbn in E2. bools. subst x. by destruct (last lit).
  - subst ok. by do 3 eexists.
Qed.

(** ** The loop without the optimization *)

Section Loop.
Context (start : CodeLoc) (limit : Z) (f : Input -> C -> Z -> C * Action).

Lemma run_threads_more runs n m threads v v' :
  run_threads runs n fuel (enc_items items) start limit f threads v = Ret v' -> (n <= m)%nat ->
  run_threads runs m fuel (enc_items items) start limit f threads v = Ret v'.
Proof.
  clear Hfuel. revert m threads v. induction n as [|n IH]; intros [|m] threads v; try done; try lia.
  - cbn [run_threads]. by destruct threads.
  - cbn [run_threads]. destruct threads as [|t ts]; [done|].
    destruct (exec_threads _ _ _ _ _ _ _) as [w| |]; [|done|done]. cbn [mbind res_bind].
    destruct (limit <=? _); [done|]. intros H Hm. apply IH; [done|lia].
Qed.

(** The end of a scan. *)
Definition ended (v : Vars (B := B) C) (c : C) : Prop := v.(acc) = c /\ v.(next_threads) = [] /\ idle v.(cache).

(** The variables of the loop at the start of an iteration. *)
Definition at_step v (c : option Z) (i : Input) (pos : Z) (a : C) : Prop :=
  v.(curr_byte) = c /\ v.(fwd_input) = i /\ v.(current_pos) = pos /\ v.(acc) = a /\
  v.(next_threads) = [] /\ idle v.(cache).

(** One byte of a literal, for a machine with a single thread. *)
Lemma exec_byte ip b rep_count v c i pos a :
  item_at items ip = Some (IByte b) -> at_step v c i pos a ->
  let '(c', i') := input_next i in
  exists st threads,
    exec_threads false fuel (enc_items items) start f [(ip, rep_count)] v =
      Ret {| fwd_input := i'; curr_byte := c'; next_byte := c'; current_pos := pos + 1; cache := st;
             next_threads := threads; acc := a |} /\ idle st /\
    if byte_is c (fun x => x =? b)
    then exists st0 loc, idle st0 /\ from_same start (ip + len (enc_byte b)) = Ret loc /\
           epsilon_closure fuel (enc_items items) loc rep_count c' c st0 [] = Ret (st, threads) /\
           NoDup (fst <$> threads) /\ Forall (reads items) threads
    else threads = [].
Proof.
  intros Hit (Hc & Hi & Hpos & Ha & Hnt & Hidle). unfold exec_threads. rewrite Hi.
  destruct (input_next i) as [c' i'] eqn:Ei. cbn [andb for_each_until].
  rewrite (exec_thread_item start f false (IByte b)) by (try done; intros; by apply decode_enc).
  unfold exec_item. cbn [is_match_item with_input curr_byte]. rewrite Hc.
  change (item_test (IByte b)) with (fun x => x =? b).
  destruct (byte_is c (fun x => x =? b)) eqn:Hb.
  - cbn [fst snd].
    assert (Hs : is_Some (item_at items (ip + len (enc (IByte b))))) by by eapply reading_target.
    destruct (advance_spec start ip (len (enc (IByte b))) rep_count
      (with_input v i' c c' (current_pos v)) Hs) as (st & new & E & Hst & Hcl).
    { done. } { cbn [with_input next_threads]. rewrite Hnt. constructor. }
    rewrite E. cbn [mbind res_bind]. exists st, new. split.
    { unfold with_threads, with_input. cbn. by rewrite Hpos, Ha, Hnt. }
    split; [done|]. destruct (from_same_item start _ Hs) as (loc & Hloc & Hl & Hbk).
    exists (cache v), loc. split; [done|]. split; [done|].
    unfold advance in E. rewrite Hloc in E. cbn [mbind res_bind with_input next_byte curr_byte cache next_threads] in E.
    rewrite Hnt in E. destruct (epsilon_closure _ _ _ _ _ _ _ _) as [[s l]| |]; [|done|done].
    cbn in E. injection E as <- ->. destruct Hcl as (Hnd & Hnew & _).
    cbn [with_input next_threads] in Hnd. rewrite Hnt in Hnd. cbn [app] in *.
    split; [done|]. split; [done|]. apply Forall_forall. intros t Ht. by apply Hnew.
  - cbn [mbind res_bind]. exists (cache v), []. split; [|done].
    unfold with_input. cbn. by rewrite Hpos, Ha, Hnt.
Qed.

Definition ends_with (runs : bool) (threads : list (Z * Z)) v (pos : Z) (a : C) : Prop :=
  exists n v', (n <= S (Z.to_nat (limit - pos)))%nat /\
    run_threads runs n fuel (enc_items items) start limit f threads v = Ret v' /\ ended v' a.

(** A literal takes one iteration per byte. *)
Lemma plain_literal b lit pre rest rep_count v c i pos a :
  items = pre ++ (IByte <$> b :: lit) ++ rest -> at_step v c i pos a ->
  let ip := len (enc_items pre) in
  match (if limit <=? pos + len (b :: lit) then None else eat (b :: lit) c i) with
  | None => ends_with false [(ip, rep_count)] v pos a
  | Some (c', i') =>
      exists st0 loc st threads,
        idle st0 /\ idle st /\ from_same start (ip + len (enc_literal (b :: lit))) = Ret loc /\
        epsilon_closure fuel (enc_items items) loc rep_count c' (last (b :: lit)) st0 [] = Ret (st, threads) /\
        NoDup (fst <$> threads) /\ Forall (reads items) threads /\
        forall n, run_threads false (length (b :: lit) + n) fuel (enc_items items) start limit f [(ip, rep_count)] v =
          run_threads false n fuel (enc_items items) start limit f threads
            {| fwd_input := i'; curr_byte := c'; next_byte := c'; current_pos := pos + len (b :: lit);
               cache := st; next_threads := []; acc := a |}
  end.
Proof.
  revert b pre v c i pos. induction lit as [|b2 lit IH]; intros b pre v c i pos Hitems Hstep ip.
  - assert (Hit : item_at items ip = Some (IByte b)).
    { apply item_at_split. by exists pre, rest. }
    pose proof (exec_byte ip b rep_count v c i pos a Hit Hstep) as Hex. cbn [eat].
    destruct (input_next i) as [c' i']. destruct Hex as (st & threads & Hex & Hidle & Hb).
    change (len [b]) with 1. destruct (limit <=? pos + 1) eqn:El.
    + exists 1%nat. eexists. split; [lia|]. cbn [run_threads]. rewrite Hex. cbn [mbind res_bind with_threads current_pos].
      rewrite El. split; [reflexivity|]. by split_and!.
    + destruct (byte_is c (fun x => x =? b)) eqn:Hc.
      * destruct Hb as (st0 & loc & Hi0 & Hloc & Hcl & Hnd & Hrd). exists st0, loc, st, threads.
        change (enc_literal [b]) with (enc_byte b ++ []). rewrite app_nil_r.
        assert (c = Some b) as Hcb by (destruct c; cbn in Hc; [bools; by subst|done]). rewrite Hcb in *.
        split_and!; try done; try apply Hi0; try apply Hidle. intros n. cbn [length Nat.add run_threads].
        rewrite Hex. cbn [mbind res_bind with_threads current_pos next_threads]. by rewrite El.
      * subst threads. exists 1%nat. eexists. split; [lia|]. cbn [run_threads]. rewrite Hex.
        cbn [mbind res_bind with_threads current_pos next_threads]. rewrite El. split; [reflexivity|]. by split_and!.
  - assert (Hit : item_at items ip = Some (IByte b)).
    { apply item_at_split. by exists pre, ((IByte <$> b2 :: lit) ++ rest). }
    assert (Hit2 : item_at items (ip + len (enc_byte b)) = Some (IByte b2)).
    { apply item_at_split. exists (pre ++ [IByte b]), ((IByte <$> lit) ++ rest). rewrite Hitems, <- app_assoc.
      split; [done|]. rewrite enc_items_app, len_app. unfold enc_items. cbn [mbind list_bind enc]. by rewrite app_nil_r. }
    pose proof (exec_byte ip b rep_count v c i pos a Hit Hstep) as Hex. rewrite eat_cons.
    destruct (input_next i) as [c1 i1]. destruct Hex as (st & threads & Hex & Hidle & Hb).
    set (v1 := {| fwd_input := i1; curr_byte := c1; next_byte := c1; current_pos := pos + 1; cache := st;
                  next_threads := threads; acc := a |}) in *.
    assert (Hone : forall n, run_threads false (S n) fuel (enc_items items) start limit f [(ip, rep_count)] v =
      if limit <=? pos + 1 then Ret (with_threads v1 st [])
      else run_threads false n fuel (enc_items items) start limit f threads (with_threads v1 st [])).
    { intros n. cbn [run_threads]. by rewrite Hex. }
    destruct (byte_is c (fun x => x =? b) && negb (limit <=? pos + 1)) eqn:Hgo.
    2:{ assert ((if limit <=? pos + len (b :: b2 :: lit) then None
                 else if byte_is c (fun x => x =? b) then eat (b2 :: lit) c1 i1 else None) = None) as ->.
        { rewrite !len_cons. pose proof (len_nonneg lit). destruct (limit <=? pos + (_ + _)) eqn:E2; [done|].
          destruct (byte_is c _); [|done]. cbn [andb] in Hgo. destruct (limit <=? pos + 1) eqn:E1; bools; [lia|done]. }
        exists 1%nat. eexists. split; [lia|]. rewrite Hone.
        destruct (byte_is c _); [|subst threads; cbn [run_threads]; destruct (limit <=? _)]; cbn [andb] in Hgo.
        - destruct (limit <=? pos + 1); [|done]. split; [reflexivity|]. by split_and!.
        - split; [reflexivity|]. by split_and!.
        - split; [reflexivity|]. by split_and!. }
    apply andb_prop in Hgo as [Hc El]. rewrite Hc in *. rewrite negb_true_iff in El.
    destruct Hb as (st0 & loc & Hi0 & Hloc & Hcl & _).
    destruct (from_same_item start _ (mk_is_Some _ _ Hit2)) as (loc' & Hloc' & Hl & _).
    rewrite Hloc in Hloc'. injection Hloc' as <-.
    destruct (epsilon_closure_reads items (rn_ok _ Hrun) fuel loc (IByte b2) rep_count c1 c st0) as (st' & E & _);
      [by rewrite Hl|done|apply Hi0|apply Hi0|by eapply fuel_pos|].
    rewrite E, Hl in Hcl. injection Hcl as -> <-.
    specialize (IH b2 (pre ++ [IByte b]) (with_threads v1 st []) c1 i1 (pos + 1)).
    rewrite Hitems, <- app_assoc in IH. specialize (IH eq_refl). rewrite <- Hitems in IH.
    replace (len (enc_items (pre ++ [IByte b]))) with (ip + len (enc_byte b)) in IH
      by (rewrite enc_items_app, len_app; unfold enc_items; cbn [mbind list_bind enc]; by rewrite app_nil_r).
    replace (pos + len (b :: b2 :: lit)) with (pos + 1 + len (b2 :: lit)) by (rewrite !len_cons; lia).
    specialize (IH ltac:(by split_and!)). bools.
    destruct (if limit <=? pos + 1 + _ then _ else _) as [[c' i']|].
    + destruct IH as (s0 & l0 & s1 & th & H0 & H1 & H2 & H3 & H4 & H5 & H6). exists s0, l0, s1, th.
      change (enc_literal (b :: b2 :: lit)) with (enc_byte b ++ enc_literal (b2 :: lit)).
      rewrite len_app, Z.add_assoc. split_and!; try done; try apply H0; try apply H1.
      intros n. change (length (b :: b2 :: lit) + n)%nat with (S (length (b2 :: lit) + n)).
      rewrite Hone. destruct (limit <=? pos + 1) eqn:El2; bools; [lia|]. apply H6.
    + destruct IH as (n & v' & Hn & Hr & He). exists (S n), v'. split; [lia|]. rewrite Hone.
      destruct (limit <=? pos + 1) eqn:El2; bools; [lia|]. done.
Qed.
(** The code after a literal. *)
Lemma literal_target pre lit rest :
  items = pre ++ (IByte <$> lit) ++ rest -> lit <> [] ->
  is_Some (item_at items (len (enc_items pre) + len (enc_literal lit))).
Proof.
  intros Hi Hl. destruct (exists_last Hl) as (lit' & b & ->).
  assert (Hit : item_at items (len (enc_items (pre ++ (IByte <$> lit')))) = Some (IByte b)).
  { apply item_at_split. exists (pre ++ (IByte <$> lit')), rest. split; [|done].
    by rewrite Hi, fmap_app, <- !app_assoc. }
  pose proof (reading_target _ _ Hit eq_refl eq_refl) as H.
  rewrite enc_items_app, enc_items_bytes, len_app, <- Z.add_assoc in H. unfold enc_literal in *.
  rewrite bind_app, len_app. cbn [mbind list_bind enc] in *. by rewrite app_nil_r.
Qed.

(** The instruction at a run of literal bytes, with the optimization. *)
Lemma decode_run pre b1 b2 lit rest :
  items = pre ++ (IByte <$> b1 :: b2 :: lit) ++ rest -> no_literal (enc_items rest) ->
  let code := enc_literal (b1 :: b2 :: lit) ++ enc_items rest in
  index_range (enc_items items) (len (enc_items pre)) (len (enc_items items)) = Ret code /\
  decode_instr code true = Ret (Instr.Bytes (literal_bytes_new code), 0).
Proof.
  intros Hi Hn code. split.
  - rewrite Hi, !enc_items_app, enc_items_bytes. apply index_range_tail.
  - assert (decode_instr code true = decode_literal code true) as ->.
    { unfold code. change (enc_literal (b1 :: ?l)) with (enc_byte b1 ++ enc_literal l).
      rewrite <- app_assoc. apply decode_instr_byte. }
    unfold decode_literal, code. rewrite is_bytes_run_enc by done. rewrite !len_cons.
    pose proof (len_nonneg lit). destruct (2 <=? _) eqn:E; bools; [done|lia].
Qed.

Definition alone (runs : bool) (t : Z * Z) : Prop :=
  exists it, item_at items (fst t) = Some it /\ consuming it = true /\
    forall post, index_range (enc_items items) (fst t) (len (enc_items items)) = Ret (enc it ++ post) ->
      item_ok it -> decodes_alone runs it post /\ decodes_alone false it post.

(** Either there is one thread, at a run of literal bytes, or the optimization
    does nothing in this iteration. *)
Lemma threads_alone threads :
  Forall (reads items) threads ->
  (exists pre b1 b2 lit rest rep_count, threads = [(len (enc_items pre), rep_count)] /\
     items = pre ++ (IByte <$> b1 :: b2 :: lit) ++ rest /\ no_literal (enc_items rest)) \/
  Forall (alone (true && (len threads =? 1))) threads.
Proof.
  intros Hr. assert (Hmany : true && (len threads =? 1) = false -> Forall (alone (true && (len threads =? 1))) threads).
  { intros ->. eapply Forall_impl; [exact Hr|]. intros t (it & Hit & Hc). exists it.
    split; [done|]. split; [done|]. intros post _ Hio. split; by apply decode_enc. }
  destruct threads as [|[ip r] [|t ts]].
  - by right.
  - change (true && (len [(ip, r)] =? 1)) with true. apply Forall_singleton in Hr as (it & Hit & Hc). cbn [fst] in Hit.
    assert (Hb : (exists b, it = IByte b) \/ (forall b, it <> IByte b)).
    { destruct it; try (by right); left; by eexists. }
    destruct Hb as [[b ->]|Hb].
    + destruct (byte_run ip b Hit) as (pre & lit & rest & Hi & -> & Hn). destruct lit as [|b2 lit].
      * right. apply Forall_singleton. exists (IByte b). split; [done|]. split; [done|].
        intros post Hrange Hio. split; [|by apply decode_enc]. cbn [fst] in Hrange.
        rewrite Hi, !enc_items_app, enc_items_bytes, index_range_tail in Hrange.
        unfold enc_literal in Hrange. cbn [mbind list_bind enc] in Hrange. rewrite app_nil_r in Hrange.
        injection Hrange as Hpost%app_inv_head. unfold decodes_alone. cbn [enc instr_of].
        rewrite <- (decode_byte_app b post), !decode_instr_byte. unfold decode_literal.
        rewrite <- Hpost. pose proof (is_bytes_run_enc [b] (enc_items rest) Hn) as Hrun1.
        unfold enc_literal in Hrun1. cbn [mbind list_bind] in Hrun1. rewrite app_nil_r in Hrun1. by rewrite Hrun1.
      * left. by exists pre, b, b2, lit, rest, r.
    + right. apply Forall_singleton. exists it. split; [done|]. split; [done|]. intros post _ Hio.
      unfold decodes_alone. rewrite decode_runs by done. by split; apply decode_enc.
  - right. apply Hmany. rewrite !len_cons. pose proof (len_nonneg ts). apply andb_false_iff. right. apply Z.eqb_neq. lia.
Qed.

(** The iteration at a run of literal bytes. [l] are the threads afterwards. *)
Lemma exec_run pre b1 b2 lit rest rep_count v :
  items = pre ++ (IByte <$> b1 :: b2 :: lit) ++ rest -> no_literal (enc_items rest) ->
  v.(next_threads) = [] -> idle v.(cache) ->
  let ip := len (enc_items pre) in
  exists v', exec_threads true fuel (enc_items items) start f [(ip, rep_count)] v = Ret v' /\
    v'.(acc) = v.(acc) /\ idle v'.(cache) /\
    match eat (b1 :: b2 :: lit) v.(curr_byte) v.(fwd_input) with
    | Some (c', i') =>
        v'.(fwd_input) = i' /\ v'.(curr_byte) = c' /\ v'.(next_byte) = c' /\
        v'.(current_pos) = v.(current_pos) + len (b1 :: b2 :: lit) /\
        exists loc, from_same start (ip + len (enc_literal (b1 :: b2 :: lit))) = Ret loc /\
          forall st0 st threads, idle st0 ->
            epsilon_closure fuel (enc_items items) loc rep_count c' (last (b1 :: b2 :: lit)) st0 [] = Ret (st, threads) ->
            v'.(next_threads) = threads
    | None => v'.(next_threads) = []
    end.
Proof.
  intros Hi Hn Hnt Hidle ip. destruct (decode_run pre b1 b2 lit rest Hi Hn) as [Hrange Hdec].
  unfold exec_threads. destruct (input_next (fwd_input v)) as [c i] eqn:Ei.
  change (true && (len [(ip, rep_count)] =? 1)) with true. cbn [for_each_until]. unfold exec_thread.
  fold ip in Hrange. rewrite Hrange. cbn [mbind res_bind]. rewrite Hdec. cbn [mbind res_bind].
  destruct (match_bytes_eat b1 b2 lit (enc_items rest) (fwd_input v) (with_input v i (curr_byte v) c (current_pos v)) Hn Ei)
    as (ok & it' & v1 & -> & Hc1 & Hn1 & Ha1 & H). cbn [mbind res_bind]. cbn [with_input curr_byte cache next_threads acc current_pos] in *.
  destruct (eat (b1 :: b2 :: lit) (curr_byte v) (fwd_input v)) as [[c' i']|].
  - destruct H as (-> & Hcons & Hi' & Hnb & Hpos & Hcb). rewrite Hcons.
    set (size := len (enc_literal (b1 :: b2 :: lit))).
    assert (Hs : is_Some (item_at items (ip + size))) by by eapply literal_target.
    destruct (advance_spec start ip size rep_count v1 Hs) as (st1 & new & E & Hst1 & _).
    { by rewrite Hc1. } { rewrite Hn1, Hnt. constructor. }
    rewrite E. cbn [mbind res_bind]. eexists. split; [reflexivity|].
    cbn [with_input with_threads acc cache fwd_input curr_byte next_byte current_pos next_threads].
    rewrite Hpos, !len_cons. split_and!; try done; try lia; try apply Hst1.
    destruct (from_same_item start _ Hs) as (loc & Hloc & Hl & _). exists loc. split; [done|].
    intros st0 st threads [Hc0 He0] Ecl. unfold advance in E. rewrite Hloc in E. cbn [mbind res_bind] in E.
    rewrite Hnb, Hcb, Hn1, Hnt in E. rewrite <- Hc1 in Hidle. destruct Hidle as [Hci Hei].
    destruct (epsilon_closure_same items (rn_ok _ Hrun) _ _ _ _ _ st0 (cache v1) _ _ _ Hc0 He0 Hci Hei
                ltac:(by rewrite Hl) Ecl) as [st2 E2].
    change (last (b1 :: b2 :: lit)) with (last (b2 :: lit)) in E2.
    rewrite E2 in E. cbn [mbind res_bind app] in E. rewrite Hn1, Hnt. by injection E.
  - subst ok. cbn [mbind res_bind]. eexists. split; [reflexivity|].
    cbn [with_input acc cache next_threads]. rewrite Hc1, Hn1. by split_and!.
Qed.

Lemma ends_nil runs v :
  v.(next_threads) = [] -> idle v.(cache) -> ends_with runs [] v v.(current_pos) v.(acc).
Proof. intros. exists 0%nat, v. split; [lia|]. split; [done|]. by split_and!. Qed.

(** After an iteration: either the limit is reached or the loop goes on. *)
Lemma ends_iter runs t ts v v' pos a :
  exec_threads runs fuel (enc_items items) start f (t :: ts) v = Ret v' -> idle v'.(cache) ->
  pos < v'.(current_pos) ->
  (v'.(current_pos) < limit -> ends_with runs v'.(next_threads) (with_threads v' v'.(cache) []) v'.(current_pos) a) ->
  (limit <= v'.(current_pos) -> v'.(acc) = a) ->
  ends_with runs (t :: ts) v pos a.
Proof.
  intros Hex Hidle Hpos Hgo Hend. destruct (limit <=? current_pos v') eqn:El; bools.
  - exists 1%nat. eexists. split; [lia|]. cbn [run_threads]. rewrite Hex. cbn [mbind res_bind with_threads current_pos].
    destruct (limit <=? _) eqn:El'; bools; [|lia]. split; [reflexivity|]. split_and!; try done; [by apply Hend|apply Hidle..].
  - destruct (Hgo El) as (n & w & Hn & Hr & Hw). exists (S n), w. split; [lia|]. split; [|done].
    cbn [run_threads]. rewrite Hex. cbn [mbind res_bind with_threads current_pos next_threads].
    destruct (limit <=? _) eqn:El'; bools; [lia|]. done.
Qed.

(** The loop ends when no threads are left. *)
Lemma ends_last runs t ts v v' pos a :
  exec_threads runs fuel (enc_items items) start f (t :: ts) v = Ret v' -> idle v'.(cache) ->
  v'.(next_threads) = [] -> v'.(acc) = a -> ends_with runs (t :: ts) v pos a.
Proof.
  intros Hex Hidle Hnt Ha. exists 1%nat, (with_threads v' v'.(cache) []). split; [lia|]. split.
  - cbn [run_threads]. rewrite Hex. cbn [mbind res_bind with_threads current_pos next_threads]. rewrite Hnt.
    by destruct (limit <=? _).
  - split_and!; try done; apply Hidle.
Qed.

Lemma exec_threads_sim threads v1 v2 :
  Forall (alone (true && (len threads =? 1))) threads -> sim v1 v2 ->
  exists w1 w2, exec_threads true fuel (enc_items items) start f threads v1 = Ret w1 /\
    exec_threads false fuel (enc_items items) start f threads v2 = Ret w2 /\ sim w1 w2 /\
    w1.(current_pos) = v1.(current_pos) + 1.
Proof.
  intros Hal Hsim. unfold exec_threads. rewrite <- (sim_input _ _ Hsim), <- (sim_curr _ _ Hsim), <- (sim_pos _ _ Hsim).
  destruct (input_next (fwd_input v1)) as [c i]. 
  destruct (threads_sim start f (true && (len threads =? 1)) (false && (len threads =? 1)) threads
    (with_input v1 i (curr_byte v1) c (current_pos v1)) (with_input v2 i (curr_byte v1) c (current_pos v1)))
    as (w1 & w2 & stop & -> & -> & Hw & Hp); [exact Hal|destruct Hsim; by split|].
  cbn [mbind res_bind]. do 2 eexists. split; [reflexivity|]. split; [reflexivity|].
  cbn [with_input current_pos] in *. rewrite Hp. split; [|done].
  destruct Hw; split; cbn; try done; congruence.
Qed.

(** The optimization changes nothing, and both loops end. *)
Lemma runs_same k threads v1 v2 :
  (Z.to_nat (limit - v1.(current_pos)) <= k)%nat -> sim v1 v2 -> v1.(next_threads) = [] ->
  Forall (reads items) threads ->
  exists a, ends_with true threads v1 v1.(current_pos) a /\ ends_with false threads v2 v1.(current_pos) a.
Proof.
  revert threads v1 v2. induction k as [k IH] using lt_wf_ind. intros threads v1 v2 Hk Hsim Hnt Hrd.
  assert (Hnt2 : next_threads v2 = []) by by rewrite <- (sim_threads _ _ Hsim).
  destruct threads as [|t ts] eqn:Et.
  { exists (acc v1). split; [apply ends_nil; [done|apply Hsim]|].
    rewrite (sim_pos _ _ Hsim), (sim_acc _ _ Hsim). apply ends_nil; [done|apply Hsim]. }
  rewrite <- Et in *. destruct (threads_alone threads Hrd) as [(pre & b1 & b2 & lit & rest & r & -> & Hi & Hn)|Hal].
  - destruct (exec_run pre b1 b2 lit rest r v1 Hi Hn Hnt (sim_idle1 _ _ Hsim)) as (w & Hex & Ha & Hidle & Hw).
    pose proof (plain_literal b1 (b2 :: lit) pre rest r v2 (curr_byte v1) (fwd_input v1) (current_pos v1) (acc v1) Hi) as Hpl.
    cbn zeta in Hpl. specialize (Hpl ltac:(destruct Hsim; by split_and!)).
    destruct (eat _ _ _) as [[c' i']|]; [|exists (acc v1); split; [by eapply ends_last|by destruct (limit <=? _)]].
    destruct Hw as (Hi' & Hcb & Hnb & Hpos & loc & Hloc & Hth).
    assert (Hl : 0 < len (b1 :: b2 :: lit)) by (rewrite len_cons; pose proof (len_nonneg (b2 :: lit)); lia).
    destruct (limit <=? _) eqn:El; bools.
    + exists (acc v1). split; [|done]. eapply ends_iter; [done|done|lia|lia|done].
    + destruct Hpl as (st0 & loc' & st & threads & H0 & H1 & Hloc' & Hcl & Hnd & Hrd' & Hrun').
      rewrite Hloc in Hloc'. injection Hloc' as <-. specialize (Hth _ _ _ H0 Hcl).
      set (w2 := {| fwd_input := i'; curr_byte := c'; next_byte := c'; current_pos := _; cache := st;
                    next_threads := []; acc := acc v1 |}) in *.
      destruct (IH (Z.to_nat (limit - current_pos w)) ltac:(lia) threads (with_threads w (cache w) []) w2)
        as (a & Hfast & Hplain); [done|..|done|done|].
      { split; cbn; try done. constructor. }
      cbn [with_threads current_pos] in Hfast, Hplain. exists a. split.
      * eapply ends_iter; [done|done|lia| |lia]. by rewrite Hth.
      * destruct Hplain as (n & w' & Hle & Hr & Hw'). eexists (_ + n)%nat, w'. rewrite Hrun'.
        split; [|done]. unfold len in *. lia.
  - destruct threads as [|t0 ts0]; [done|]. injection Et as -> ->.
    destruct (exec_threads_sim (t :: ts) v1 v2 Hal Hsim) as (w1 & w2 & E1 & E2 & Hw & Hpos).
    destruct (limit <=? current_pos w1) eqn:El; bools.
    + exists (acc w1). split; (eapply ends_iter; [done|apply Hw|rewrite <- ?(sim_pos _ _ Hw); lia..|]);
        [done|by rewrite (sim_acc _ _ Hw)].
    + destruct (IH (Z.to_nat (limit - current_pos w1)) ltac:(lia) (next_threads w1)
        (with_threads w1 (cache w1) []) (with_threads w2 (cache w2) [])) as (a & Hfast & Hplain);
        [done|destruct Hw; split; cbn; try done; constructor|done|apply Hw|].
      exists a. split; (eapply ends_iter; [done|apply Hw|rewrite <- ?(sim_pos _ _ Hw); lia|..|]);
        rewrite <- ?(sim_pos _ _ Hw), <- ?(sim_threads _ _ Hw); try done; lia.
Qed.
End Loop.
End Vars.
End Code.

(** * Scans *)

(** A machine that can start a scan: a new one, or one that has ended a scan. *)
Record machine_ready (items : list Item) (vm : PikeVM (B := B)) : Prop := {
  mr_code : vm.(vm_code) = enc_items items;
  mr_threads : vm.(vm_threads) = [];
  mr_next : vm.(vm_next_threads) = [];
  mr_cache : idle vm.(vm_cache);
}.

Lemma pikevm_new_ready items : machine_ready items (pikevm_new (enc_items items)).
Proof.
  split; try done. split; [|done]. cbn. unfold cache_ok. cbn [executed_splits]. by apply bv_len_repeat.
Qed.

Lemma scan_limit_ready items limit vm : machine_ready items vm -> machine_ready items (scan_limit limit vm).
Proof. by intros []. Qed.

(** The loop of [try_match_impl] determines its result. *)
Definition started {C} (vm : PikeVM (B := B)) (st : State) (fwd : Input) (curr : option Z) (c : C) : Vars C :=
  {| fwd_input := fwd; curr_byte := curr; next_byte := None; current_pos := 0;
     cache := st; next_threads := vm.(vm_next_threads); acc := c |}.

Lemma try_match_impl_ends {C} runs items fuel vm start fwd bck (f : Input -> C -> Z -> C * Action) c a curr i st threads :
  machine_ready items vm -> input_next fwd = (curr, i) ->
  epsilon_closure fuel (enc_items items) start 0 curr (fst (input_next bck)) vm.(vm_cache) [] = Ret (st, threads) ->
  ends_with items fuel start vm.(vm_scan_limit) f runs threads (started vm st i curr c) 0 a ->
  exists vm', try_match_impl runs fuel vm start fwd bck f c = Ret (vm', a) /\ machine_ready items vm'.
Proof.
  intros Hvm Hi Hcl (n & v & Hn & Hr & Ha & Hnt & Hidle). destruct Hvm as [Hcode Hth Hnext Hc].
  unfold try_match_impl. rewrite Hi, Hth. cbn [Prelude.assert mbind res_bind]. rewrite Hcode, Hcl. cbn [mbind res_bind].
  rewrite Z.sub_0_r in Hn. erewrite run_threads_more; [|exact Hr|done]. cbn [mbind res_bind]. rewrite Ha.
  eexists. split; [reflexivity|]. by split.
Qed.

Lemma initial_closure items fuel vm start curr prev :
  runnable items -> (vm_fuel items <= fuel)%nat -> machine_ready items vm ->
  is_Some (item_at items (location start)) ->
  exists st threads,
    epsilon_closure fuel (enc_items items) start 0 curr prev vm.(vm_cache) [] = Ret (st, threads) /\ idle st /\
    closure_from items (backwards start) prev curr (location start, 0) [] threads.
Proof.
  intros [Hok Ha Hu] Hf [_ _ _ [Hc He]] Hs.
  destruct (epsilon_closure_spec items Hok fuel start 0 curr prev (vm_cache vm) [])
    as (st & new & E & He' & Hc' & Hnd & Hs' & Hcomp); try done.
  - constructor.
  - pose proof (vm_fuel_enough items _ Hs). lia.
  - exists st, new. split; [done|]. split; [done|]. split_and!; try done. intros Hn. by apply Hcomp.
Qed.

Lemma try_match_impl_same {C} items fuel vm start fwd bck (f : Input -> C -> Z -> C * Action) c :
  runnable items -> (vm_fuel items <= fuel)%nat -> machine_ready items vm ->
  is_Some (item_at items (location start)) ->
  exists vm1 vm2 a, try_match_impl true fuel vm start fwd bck f c = Ret (vm1, a) /\ machine_ready items vm1 /\
    try_match_impl false fuel vm start fwd bck f c = Ret (vm2, a) /\ machine_ready items vm2.
Proof.
  intros Hrun Hf Hvm Hs. destruct (input_next fwd) as [curr i] eqn:Ei.
  destruct (initial_closure items fuel vm start curr (fst (input_next bck)) Hrun Hf Hvm Hs)
    as (st & threads & E & Hidle & Hnd & Hnew & _).
  destruct (runs_same items Hrun fuel Hf start (vm_scan_limit vm) f _ threads (started vm st i curr c) (started vm st i curr c)
    (Nat.le_refl _)) as (a & Ht & Hp).
  - split; cbn; try done; rewrite (mr_next _ _ Hvm); constructor.
  - apply Hvm.
  - apply Forall_forall. intros t Ht. by apply Hnew.
  - destruct (try_match_impl_ends true items fuel vm start fwd bck f c a _ _ _ _ Hvm Ei E Ht) as (vm1 & E1 & R1).
    destruct (try_match_impl_ends false items fuel vm start fwd bck f c a _ _ _ _ Hvm Ei E Hp) as (vm2 & E2 & R2).
    by exists vm1, vm2, a.
Qed.

(** C16: the optimization for runs of literal bytes: for every scan of code that
    the machine can run, with any callback and in both directions, narrow or
    wide, the machine gives the same sequence of calls to the callback as a
    machine that never decodes runs of literals, and both end. Afterwards the
    machine can start another scan. *)
Theorem literal_runs_safe {C} items fuel vm start (right left : list Z) wide (f : C -> Z -> C * Action) c :
  runnable items -> (vm_fuel items <= fuel)%nat -> machine_ready items vm ->
  is_Some (item_at items (location start)) ->
  exists vm1 vm2 a,
    try_match true fuel vm start right left wide f c = Ret (vm1, a) /\ machine_ready items vm1 /\
    try_match false fuel vm start right left wide f c = Ret (vm2, a) /\ machine_ready items vm2.
Proof.
  intros. unfold try_match. destruct (backwards start), wide; by apply try_match_impl_same.
Qed.
End Run.

(** * Instances *)

Lemma sample_runnable : runnable sample_code.
Proof.
  split; [exact sample_code_ok|by vm_compute|apply NoDup_singleton].
Qed.

(** A machine with the code of [ab|a]. *)
Definition sample_machine : PikeVM (B := list bool) := pikevm_new (enc_items sample_code).

Lemma literal_runs_safe_witness :
  machine_ready sample_code sample_machine /\
  exists vm1 vm2 a,
    try_match true 20 sample_machine (FwdCodeLoc 1) [0x61; 0x62] [] false
      (fun ns n => (ns ++ [n], Continue)) [] = Ret (vm1, a) /\ machine_ready sample_code vm1 /\
    try_match false 20 sample_machine (FwdCodeLoc 1) [0x61; 0x62] [] false
      (fun ns n => (ns ++ [n], Continue)) [] = Ret (vm2, a) /\ machine_ready sample_code vm2.
Proof.
  split; [apply pikevm_new_ready|].
  apply (literal_runs_safe sample_code 20 sample_machine (FwdCodeLoc 1)).
  - exact sample_runnable.
  - vm_compute. lia.
  - apply pikevm_new_ready.
  - by eexists.
Defined.

(** A callback that stops the scan at the first match is called again: [Stop]
    only ends the iteration. *)
Example stop_does_not_end_scan :
  exists vm', try_match true 20 sample_machine (FwdCodeLoc 1) [0x61; 0x62] [] false
    (fun ns n => (ns ++ [n], Stop)) [] = Ret (vm', [1; 2]).
Proof. eexists. vm_compute. reflexivity. Qed.
