(* ===== verification/PikeExact.v ===== *)
(** The lengths that the Pike virtual machine reports: the ones that the
    automaton given by the code accepts, up to the scan limit, in both directions
    and for wide strings. *)

From Stdlib Require Import Sorted.
From stdpp Require Import sorting.
From S2P Require Import Prelude.
From S2P Require Import PosSet.
From S2P Require Import PikeInstr.
From S2P Require Import PikeSeq.
From S2P Require Import Re.
From S2P Require Import PikeVM.
From S2P Require Import PikeClosure.
From S2P Require Import PikeRun.

(** * The automaton of a piece of code *)

Section Automaton.
Context {BS : BitSlice}.
Context (items : list Item) (backwards : bool) (before : option Z) (bytes : list Z) (ip0 : Z).

(** The transition that reads the byte [curr], which is before [next]. *)
Definition moves (curr next : option Z) (t t' : Z * Z) : Prop :=
  exists it, item_at items (fst t) = Some it /\ is_match_item it = false /\
    byte_is curr (item_test it) = true /\
    rtc (eps_step items backwards curr next) (fst t + len (enc it), snd t) t' /\ reads items t'.

(** The threads after [n] bytes. *)
Inductive nfa_at : nat -> Z * Z -> Prop :=
  | nfa_start t :
      rtc (eps_step items backwards before (bytes !! 0%nat)) (ip0, 0) t -> reads items t -> nfa_at 0 t
  | nfa_move n t t' : nfa_at n t -> moves (bytes !! n) (bytes !! S n) t t' -> nfa_at (S n) t'.

Definition matching (t : Z * Z) : Prop := exists it, item_at items (fst t) = Some it /\ is_match_item it = true.

(** The first [n] bytes are accepted. *)
Definition accepts (n : nat) : Prop := exists t, nfa_at n t /\ matching t.

Lemma nfa_at_reads n t : nfa_at n t -> reads items t.
Proof. by destruct 1 as [|? ? ? ? (it & _ & _ & _ & _ & ?)]. Qed.

Lemma nfa_at_before n m t : nfa_at n t -> (m <= n)%nat -> exists t', nfa_at m t'.
Proof.
  induction 1 as [t H Hr|n t t' Ht IH Hm]; intros Hle.
  - assert (m = 0%nat) as -> by lia. exists t. by constructor.
  - destruct (decide (m = S n)) as [->|]; [exists t'; exact (nfa_move _ _ _ Ht Hm)|]. apply IH. lia.
Qed.

(** Without repetitions the counts stay at zero. *)
Lemma eps_no_repeat bw prev curr t t' :
  no_repeat items = true -> rtc (eps_step items bw prev curr) t t' -> snd t' = snd t.
Proof.
  intros Hn. induction 1 as [|x y z (it & Hit & Hy) _ IH]; [done|]. rewrite IH. exact (pushes_no_repeat items it _ _ _ _ _ _ Hn Hit Hy).
Qed.

Lemma nfa_at_no_repeat n t : no_repeat items = true -> nfa_at n t -> snd t = 0.
Proof.
  intros Hn. induction 1 as [t H _|n t t' _ IH (it & _ & _ & _ & H & _)].
  - by rewrite (eps_no_repeat _ _ _ _ _ Hn H).
  - by rewrite (eps_no_repeat _ _ _ _ _ Hn H).
Qed.
End Automaton.

(** * The loop *)

(** The input after some calls to [next]. *)
Fixpoint nth_input (i : Input) (n : nat) : Input :=
  match n with O => i | S n => snd (input_next (nth_input i n)) end.

Section Loop.
Context {BS : BitSlice} {BSL : BitSliceLaws} {B : Type} {BV : BitVec B} {BVL : BitVecLaws B}.
Context (items : list Item) (Hrun : runnable items).
Context (fuel : nat) (Hfuel : (vm_fuel items <= fuel)%nat).
Context (start : CodeLoc) (limit : Z) (f : Input -> list Z -> Z -> list Z * Action).
Context (input0 : Input) (before : option Z) (bytes : list Z) (g : nat -> Z) (ok : nat -> bool).
Context (Hbytes : forall n, fst (input_next (nth_input input0 n)) = bytes !! n).
Context (Hf : forall n ns, f (nth_input input0 (S (S n))) ns (Z.of_nat n) =
                if ok n then (ns ++ [g n], Continue) else (ns, Stop)).
Context (Hanti : forall n m, (n <= m)%nat -> ok m = true -> ok n = true).
Context (Hmono : forall n m, (n < m)%nat -> g n < g m).
Implicit Types v : Vars (B := B) (list Z).

Notation moves := (moves items (backwards start)).
Notation nfa_at := (nfa_at items (backwards start) before bytes (location start)).
Notation accepts := (accepts items (backwards start) before bytes (location start)).

(** What a thread does: [new] are the threads that it adds and [m] the number
    of reports. *)
Definition thread_effect (n : nat) (t : Z * Z) v (st : EpsilonClosureState) (new : list (Z * Z)) (m : nat) (stop : bool)
  : Prop :=
  idle st /\ NoDup (fst <$> (v.(next_threads) ++ new)) /\
  (forall t', t' ∈ new -> moves v.(curr_byte) v.(next_byte) t t') /\
  ((0 < m)%nat -> ok n = true /\ matching items t) /\
  (ok n = true -> stop = false /\ (matching items t -> (0 < m)%nat) /\
     (no_repeat items = true -> forall t', moves v.(curr_byte) v.(next_byte) t t' ->
        fst t' ∈ fst <$> (v.(next_threads) ++ new))).

(** The variables after some threads. *)
Definition vars_after n v (st : EpsilonClosureState) (new : list (Z * Z)) (m : nat) : Vars (list Z) :=
  with_acc (with_threads v st (v.(next_threads) ++ new)) (v.(acc) ++ replicate m (g n)).

Lemma vars_after_none n v : vars_after n v v.(cache) [] 0 = v.
Proof. unfold vars_after. cbn [replicate]. rewrite !app_nil_r. by destruct v. Qed.

Lemma exec_one n it ip r v :
  item_at items ip = Some it -> consuming it = true ->
  idle v.(cache) -> NoDup (fst <$> v.(next_threads)) ->
  v.(fwd_input) = nth_input input0 (S (S n)) -> v.(current_pos) = Z.of_nat n ->
  exists st new m stop,
    exec_item items fuel start f it (ip, r) v = Ret (vars_after n v st new m, stop) /\
    thread_effect n (ip, r) v st new m stop.
Proof.
  intros Hit Hcons Hidle Hnd Hi Hp. unfold exec_item. rewrite Hi, Hp, Hf. cbn [fst snd].
  assert (Hm : matching items (ip, r) <-> is_match_item it = true).
  { split; [intros (it' & Hit' & ?)|intros ?; by exists it]. cbn [fst] in Hit'. rewrite Hit in Hit'. by injection Hit' as <-. }
  assert (Hmv : forall t', moves (curr_byte v) (next_byte v) (ip, r) t' ->
    is_match_item it = false /\ byte_is (curr_byte v) (item_test it) = true /\
    rtc (eps_step items (backwards start) (curr_byte v) (next_byte v)) (ip + len (enc it), r) t' /\ reads items t').
  { intros t' (it' & Hit' & ?). cbn [fst snd] in *. rewrite Hit in Hit'. by injection Hit' as <-. }
  unfold thread_effect. setoid_rewrite Hm.
  destruct (is_match_item it) eqn:Em.
  - exists (cache v), [], (if ok n then 1%nat else 0%nat), (negb (ok n)). unfold vars_after. rewrite !app_nil_r.
    split; [destruct (ok n), v; cbn; rewrite ?app_nil_r; done|].
    split; [done|]. split; [done|]. split; [by intros t' ?%not_elem_of_nil|].
    split; [destruct (ok n); [done|lia]|]. intros ->. split; [done|]. split; [lia|].
    intros _ t' Ht'. by apply Hmv in Ht' as [? _].
  - destruct (byte_is (curr_byte v) (item_test it)) eqn:Eb.
    + destruct (advance_spec items Hrun fuel Hfuel start ip (len (enc it)) r v) as (st & new & -> & Hst & Hnd' & Hs & Hc);
        [by eapply reading_target|done|done|].
      cbn [mbind res_bind]. exists st, new, 0%nat, false. unfold vars_after. cbn [replicate]. rewrite app_nil_r.
      split; [done|]. split; [done|]. split; [done|]. split.
      { intros t' Ht'. exists it. by destruct (Hs t' Ht'). }
      split; [lia|]. intros _. split; [done|]. split; [done|].
      intros Hn t' (_ & _ & H1 & H2)%Hmv. by apply Hc.
    + exists (cache v), [], 0%nat, false. rewrite vars_after_none, app_nil_r. split; [done|]. split; [done|].
      split; [done|]. split; [by intros t' ?%not_elem_of_nil|]. split; [lia|].
      intros _. split; [done|]. split; [done|]. by intros _ t' (_ & ? & _)%Hmv.
Qed.

(** What the threads of an iteration do. *)
Lemma exec_list n threads v :
  Forall (reads items) threads -> idle v.(cache) -> NoDup (fst <$> v.(next_threads)) ->
  v.(fwd_input) = nth_input input0 (S (S n)) -> v.(current_pos) = Z.of_nat n ->
  exists st new m stop,
    for_each_until threads (exec_thread fuel (enc_items items) start false f) v = Ret (vars_after n v st new m, stop) /\
    idle st /\ NoDup (fst <$> (v.(next_threads) ++ new)) /\
    (forall t', t' ∈ new -> exists t, t ∈ threads /\ moves v.(curr_byte) v.(next_byte) t t') /\
    ((0 < m)%nat -> ok n = true /\ exists t, t ∈ threads /\ matching items t) /\
    (ok n = true -> forall t, t ∈ threads -> (matching items t -> (0 < m)%nat) /\
       (no_repeat items = true -> forall t', moves v.(curr_byte) v.(next_byte) t t' ->
          fst t' ∈ fst <$> (v.(next_threads) ++ new))).
Proof.
  intros Hr. revert v. induction Hr as [|[ip r] threads (it & Hit & Hcons) Hr IH]; intros v Hidle Hnd Hi Hp.
  - exists (cache v), [], 0%nat, false. rewrite vars_after_none, app_nil_r.
    split_and!; try done; try apply Hidle; try (by intros t' ?%not_elem_of_nil); [lia|].
    by intros _ t ?%not_elem_of_nil.
  - cbn [for_each_until fst] in *.
    rewrite (exec_thread_item items Hrun fuel start f false it) by (try done; intros; by apply decode_enc).
    destruct (exec_one n it ip r v Hit Hcons Hidle Hnd Hi Hp) as (st1 & new1 & m1 & stop1 & -> & Hst1 & Hnd1 & Hs1 & Hm1 & Hc1).
    cbn [mbind res_bind]. destruct stop1.
    { exists st1, new1, m1, true. split; [done|]. split; [done|]. split; [done|].
      split; [intros t' Ht'; exists (ip, r); split; [left|by apply Hs1]|].
      split; [intros [? ?]%Hm1; split; [done|]; exists (ip, r); split; [left|done]|].
      intros Hok'. by destruct (Hc1 Hok'). }
    destruct (IH (vars_after n v st1 new1 m1) Hst1 Hnd1 Hi Hp) as (st2 & new2 & m2 & stop & -> & Hst2 & Hnd2 & Hs2 & Hm2 & Hc2).
    cbn [vars_after with_acc with_threads cache next_threads curr_byte next_byte acc] in *.
    exists st2, (new1 ++ new2), (m1 + m2)%nat, stop. rewrite app_assoc. split.
    { unfold vars_after. cbn. by rewrite replicate_add, !app_assoc. }
    split; [done|]. split; [done|]. split.
    { intros t' [Ht'|Ht']%elem_of_app; [exists (ip, r); split; [left|by apply Hs1]|].
      destruct (Hs2 t' Ht') as (t & Ht & ?). exists t. split; [by right|done]. }
    split.
    { intros Hm. destruct (decide (0 < m1)%nat) as [[? ?]%Hm1|].
      - split; [done|]. exists (ip, r). split; [left|done].
      - destruct Hm2 as [? (t & Ht & ?)]; [lia|]. split; [done|]. exists t. split; [by right|done]. }
    intros Hok'. destruct (Hc1 Hok') as (_ & Hm & Hcomp). specialize (Hc2 Hok').
    intros t [->|Ht]%elem_of_cons.
    + split; [intros ?%Hm; lia|]. intros Hn t' Ht'. rewrite fmap_app. apply elem_of_app. left. by apply Hcomp.
    + destruct (Hc2 t Ht) as [Hm' Hcomp']. split; [intros ?%Hm'; lia|done].
Qed.

(** The lengths that must be reported. *)
Definition expected (k : nat) : Prop := (k = 0%nat \/ Z.of_nat k < limit) /\ ok k = true /\ accepts k.

(** The reports about the positions before [n]. *)
Definition reported (n : nat) (ns : list Z) : Prop :=
  StronglySorted Z.le ns /\ (forall x, x ∈ ns -> exists k, (k < n)%nat /\ x = g k /\ expected k) /\
  (no_repeat items = true -> forall k, (k < n)%nat -> expected k -> g k ∈ ns).

(** The state at the start of the iteration for position [n]. *)
Record loop_inv (n : nat) (threads : list (Z * Z)) v : Prop := {
  li_input : v.(fwd_input) = nth_input input0 (S n);
  li_curr : v.(curr_byte) = bytes !! n;
  li_pos : v.(current_pos) = Z.of_nat n;
  li_idle : idle v.(cache);
  li_next : v.(next_threads) = [];
  li_limit : n = 0%nat \/ Z.of_nat n < limit;
  li_sound : Forall (nfa_at n) threads;
  li_complete : ok n = true -> no_repeat items = true -> forall t, nfa_at n t -> fst t ∈ fst <$> threads;
  li_acc : reported n v.(acc);
}.

(** Without repetitions the closure determines the threads. *)
Lemma thread_of_ip n threads t :
  no_repeat items = true -> Forall (nfa_at n) threads -> nfa_at n t -> fst t ∈ fst <$> threads -> t ∈ threads.
Proof.
  intros Hn Hs Ht ([ip' r'] & Hip & Hin)%list_elem_of_fmap. rewrite Forall_forall in Hs.
  pose proof (nfa_at_no_repeat _ _ _ _ _ _ _ Hn (Hs _ Hin)) as E1.
  pose proof (nfa_at_no_repeat _ _ _ _ _ _ _ Hn Ht) as E2.
  destruct t as [ip r]. cbn [fst snd] in *. by subst.
Qed.

Lemma reported_step n ns m :
  reported n ns -> ((0 < m)%nat -> expected n) ->
  (no_repeat items = true -> expected n -> (0 < m)%nat) -> reported (S n) (ns ++ replicate m (g n)).
Proof.
  intros (Hs & Hsound & Hcomp) H1 H2. split; [|split].
  - apply StronglySorted_app. split; [|split; [done|]].
    + intros x y (k & Hk & -> & _)%Hsound [-> _]%elem_of_replicate. pose proof (Hmono k n Hk). lia.
    + clear H1 H2. induction m as [|m IH]; [constructor|]. cbn [replicate]. constructor; [done|].
      apply Forall_forall. intros x [-> _]%elem_of_replicate. lia.
  - intros x [(k & Hk & Hx)%Hsound|[-> Hm]%elem_of_replicate]%elem_of_app.
    + exists k. split; [lia|done].
    + exists n. split; [lia|]. split; [done|]. apply H1. lia.
  - intros Hn k Hk He. apply elem_of_app. destruct (decide (k = n)) as [->|].
    + right. apply elem_of_replicate. split; [done|]. specialize (H2 Hn He). lia.
    + left. apply Hcomp; [done|lia|done].
Qed.

Lemma exec_threads_inv n t ts v :
  loop_inv n (t :: ts) v ->
  exists w, exec_threads false fuel (enc_items items) start f (t :: ts) v = Ret w /\
    w.(current_pos) = Z.of_nat (S n) /\ reported (S n) w.(acc) /\
    (Z.of_nat (S n) < limit -> loop_inv (S n) w.(next_threads) (with_threads w w.(cache) [])).
Proof.
  intros Hinv. unfold exec_threads. pose proof (li_input _ _ _ Hinv) as Hi.
  pose proof (Hbytes (S n)) as Hb. rewrite <- Hi in Hb.
  assert (Hi2 : snd (input_next (fwd_input v)) = nth_input input0 (S (S n))) by (cbn [nth_input]; by rewrite Hi).
  destruct (input_next (fwd_input v)) as [c i]. cbn [fst snd] in *. cbn [andb].
  set (v1 := with_input v i (curr_byte v) c (current_pos v)).
  destruct (exec_list n (t :: ts) v1) as (st & new & m & stop & -> & Hst & Hnd & Hs & Hm & Hc).
  { eapply Forall_impl; [apply Hinv|]. apply nfa_at_reads. }
  { apply Hinv. } { cbn. rewrite (li_next _ _ _ Hinv). constructor. }
  { done. } { apply Hinv. }
  cbn [mbind res_bind]. eexists. split; [reflexivity|].
  cbn [vars_after with_input with_acc with_threads v1 current_pos acc next_threads curr_byte next_byte] in *.
  rewrite (li_next _ _ _ Hinv), (li_curr _ _ _ Hinv), (li_pos _ _ _ Hinv), Hb in *. cbn [app] in *.
  pose proof (li_sound _ _ _ Hinv) as Hsound. rewrite Forall_forall in Hsound.
  assert (Hrep : reported (S n) (acc v ++ replicate m (g n))).
  { apply reported_step; [apply Hinv| |].
    - intros [Hok' (t' & Ht' & Hma)]%Hm. split; [apply Hinv|]. split; [done|]. exists t'. split; [by apply Hsound|done].
    - intros Hn (_ & Hok' & t' & Ht' & Hma). apply (Hc Hok' t'); [|done].
      apply (thread_of_ip n); [done|apply Hinv|done|by apply Hinv]. }
  split; [lia|]. split; [done|].
  intros Hlim. split; cbn [with_threads with_input fwd_input curr_byte current_pos cache next_threads acc]; try done.
  - lia.
  - by right.
  - apply Forall_forall. intros t' Ht'. destruct (Hs t' Ht') as (t0 & Ht0 & Hmv). eapply nfa_move; [|exact Hmv].
    by apply Hsound.
  - intros Hok' Hn t' Ht'. pose proof (Hanti n (S n) ltac:(lia) Hok') as Hok0. inversion Ht'; subst.
    apply (Hc Hok0 t0); [|done|done].
    apply (thread_of_ip n); [done|apply Hinv|done|by apply Hinv].
Qed.

(** The reports are complete when nothing can be accepted after them. *)
Lemma reported_all n ns :
  reported n ns -> (no_repeat items = true -> forall k, (n <= k)%nat -> ~ expected k) ->
  StronglySorted Z.le ns /\ (forall x, x ∈ ns -> exists k, x = g k /\ expected k) /\
  (no_repeat items = true -> forall k, expected k -> g k ∈ ns).
Proof.
  intros (Hs & Hsound & Hcomp) Hno. split; [done|]. split.
  - intros x (k & _ & Hk)%Hsound. by exists k.
  - intros Hn k Hk. apply Hcomp; [done| |done]. destruct (decide (k < n)%nat); [done|].
    exfalso. apply (Hno Hn k); [lia|done].
Qed.

Lemma no_threads_all n v :
  loop_inv n [] v ->
  StronglySorted Z.le v.(acc) /\ (forall x, x ∈ v.(acc) -> exists k, x = g k /\ expected k) /\
  (no_repeat items = true -> forall k, expected k -> g k ∈ v.(acc)).
Proof.
  intros Hinv. eapply reported_all; [apply Hinv|]. intros Hn k Hk (_ & Hok' & t & Ht & _).
  destruct (nfa_at_before _ _ _ _ _ _ _ _ Ht Hk) as [t' Ht'].
  apply (li_complete _ _ _ Hinv) in Ht'; [by apply not_elem_of_nil in Ht'| |done]. by eapply Hanti.
Qed.

Lemma run_threads_inv steps n threads v v' :
  loop_inv n threads v ->
  run_threads false steps fuel (enc_items items) start limit f threads v = Ret v' ->
  StronglySorted Z.le v'.(acc) /\ (forall x, x ∈ v'.(acc) -> exists k, x = g k /\ expected k) /\
  (no_repeat items = true -> forall k, expected k -> g k ∈ v'.(acc)).
Proof.
  revert n threads v. induction steps as [|steps IH]; intros n threads v Hinv; cbn [run_threads];
    destruct threads as [|t ts]; try done; try (intros [= <-]; by eapply no_threads_all).
  destruct (exec_threads_inv n t ts v Hinv) as (w & -> & Hpos & Hrep & Hnext). cbn [mbind res_bind with_threads current_pos].
  destruct (limit <=? current_pos w) eqn:El; bools.
  - intros [= <-]. eapply reported_all; [exact Hrep|]. intros _ k Hk ([->|Hl] & _); lia.
  - apply (IH (S n)). apply Hnext. lia.
Qed.

(** A scan of the input. *)
Lemma try_match_impl_exact bck vm :
  machine_ready items vm -> vm.(vm_scan_limit) = limit -> is_Some (item_at items (location start)) ->
  fst (input_next bck) = before ->
  exists vm' ns, try_match_impl true fuel vm start input0 bck f [] = Ret (vm', ns) /\ machine_ready items vm' /\
    StronglySorted Z.le ns /\ (forall x, x ∈ ns -> exists k, x = g k /\ expected k) /\
    (no_repeat items = true -> forall k, expected k -> g k ∈ ns).
Proof.
  intros Hvm Hl Hs Hbck. destruct (input_next input0) as [curr i] eqn:Ei.
  pose proof (Hbytes 0) as Hb0. cbn [nth_input] in Hb0. rewrite Ei in Hb0. cbn [fst] in Hb0. subst curr.
  destruct (initial_closure items fuel vm start (bytes !! 0%nat) before Hrun Hfuel Hvm Hs)
    as (st & threads & E & Hidle & Hnd & Hsound & Hcomp).
  set (v := started vm st i (bytes !! 0%nat) (@nil Z)).
  assert (Hinv : loop_inv 0 threads v).
  { split; cbn; try done.
    - by rewrite Ei.
    - apply Hvm.
    - by left.
    - apply Forall_forall. intros t Ht. destruct (Hsound t Ht). by constructor.
    - intros _ Hn t Ht. inversion Ht; subst. by apply Hcomp.
    - split; [constructor|]. split; [by intros x ?%not_elem_of_nil|lia]. }
  destruct (runs_same items Hrun fuel Hfuel start limit f _ threads v v (Nat.le_refl _)) as (a & Ht & Hp).
  - split; cbn; try done; rewrite (mr_next _ _ Hvm); constructor.
  - apply Hvm.
  - apply Forall_forall. intros t Ht. by apply Hsound.
  - rewrite <- Hl in Ht. rewrite <- Hbck in E.
    destruct (try_match_impl_ends true items fuel vm start input0 bck f [] a _ _ _ _ Hvm Ei E Ht) as (vm1 & E1 & R1).
    exists vm1, a. split; [done|]. split; [done|].
    destruct Hp as (k & v' & _ & Hr & <- & _). by apply (run_threads_inv _ _ _ _ _ Hinv Hr).
Qed.
End Loop.

(** * Inputs *)

Lemma nth_input_next i n : nth_input i (S n) = nth_input (snd (input_next i)) n.
Proof. induction n as [|n IH]; [done|]. cbn [nth_input] in *. by rewrite IH. Qed.

Lemma nth_input_bytes l n : fst (input_next (nth_input (BytesInput l) n)) = l !! n.
Proof.
  revert l. induction n as [|n IH]; intros [|b l]; try done; rewrite nth_input_next; cbn [input_next snd].
  - by rewrite (IH []).
  - by rewrite IH.
Qed.

(** The characters of a wide string. The bytes come in pairs; the zero byte of
    a pair is the first one for [first]. *)
Fixpoint wide_bytes (first : bool) (l : list Z) : list Z :=
  match l with
  | a :: b :: l => (if first then b else a) :: wide_bytes first l
  | _ => []
  end.

(** The first [n] pairs have their zero. *)
Fixpoint wide_valid (first : bool) (l : list Z) (n : nat) {struct n} : bool :=
  match n, l with
  | S n, a :: b :: l => ((if first then a else b) =? 0) && wide_valid first l n
  | _, _ => true
  end.

(** The error found in [n] pairs, when [p] are before them. *)
Fixpoint wide_error (first : bool) (l : list Z) (n : nat) (p : Z) {struct n} : option Z :=
  match n, l with
  | S n, a :: b :: l => if (if first then a else b) =? 0 then wide_error first l n (p + 1) else Some p
  | _, _ => None
  end.

Lemma wide_error_le first l n p e : wide_error first l n p = Some e -> p <= e.
Proof.
  revert l p. induction n as [|n IH]; intros [|a [|b l]] p; try done. cbn [wide_error].
  destruct (_ =? 0); [intros ?%IH; lia|intros [= <-]; lia].
Qed.

Lemma wide_error_valid first l n p :
  match wide_error first l (S (S n)) p with Some e => negb (e <? p + Z.of_nat n) | None => true end =
  wide_valid first l n.
Proof.
  revert l p. induction n as [|n IH]; intros [|a [|b l]] p; try done; [|].
  - change (Z.of_nat 0) with 0. rewrite Z.add_0_r. cbn [wide_valid].
    destruct (wide_error _ _ _ _) as [e|] eqn:E; [|done]. apply wide_error_le in E. apply negb_true_iff, Z.ltb_ge. lia.
  - cbn [wide_valid]. rewrite <- (IH l (p + 1)). cbn [wide_error]. destruct ((if first then a else b) =? 0); cbn [andb].
    + replace (p + Z.of_nat (S n)) with (p + 1 + Z.of_nat n) by lia. done.
    + apply negb_false_iff, Z.ltb_lt. lia.
Qed.

Lemma wide_error_nil first n p : wide_error first [] n p = None.
Proof. by destruct n. Qed.

Lemma wide_valid_anti first l n m : (n <= m)%nat -> wide_valid first l m = true -> wide_valid first l n = true.
Proof.
  revert l m. induction n as [|n IH]; intros l m; [done|]. destruct m as [|m]; [lia|].
  destruct l as [|a [|b l]]; try done. cbn [wide_valid]. intros Hm [H1 H2]%andb_prop. rewrite H1. apply (IH l m); [lia|done].
Qed.

Definition wide_at (first : bool) (l : list Z) (p : Z) (e : option Z) : Input :=
  WideInput {| wi_iter := l; wi_error_pos := e; wi_valid_pairs := p; wi_zero_first := first |}.

Lemma nth_input_wide first l p e n :
  fst (input_next (nth_input (wide_at first l p e) n)) = wide_bytes first l !! n /\
  input_error (nth_input (wide_at first l p e) n) =
    match e with Some _ => e | None => wide_error first l n p end.
Proof.
  revert l p e. induction n as [|n IH]; intros l p e.
  - destruct l as [|a [|b l]]; (split; [|by destruct e]); try done. cbn. by destruct first.
  - rewrite nth_input_next. destruct l as [|a [|b l]].
    + destruct (IH [] p e) as [H1 H2]. split; [exact H1|]. rewrite wide_error_nil in H2. exact H2.
    + destruct (IH [] p e) as [H1 H2]. split; [exact H1|]. rewrite wide_error_nil in H2. exact H2.
    + set (z := if first then a else b).
      assert (snd (input_next (wide_at first (a :: b :: l) p e)) =
              wide_at first l (p + 1) (if negb (z =? 0) && bool_decide (e = None) then Some p else e)) as ->.
      { cbn. unfold wide_next. cbn. by destruct first. }
      destruct (IH l (p + 1) (if negb (z =? 0) && bool_decide (e = None) then Some p else e)) as [H1 H2].
      cbn [wide_bytes lookup list_lookup]. split; [exact H1|]. rewrite H2. cbn [wide_error]. fold z.
      destruct e as [e|]; [by rewrite bool_decide_eq_false_2, andb_false_r by done|].
      rewrite bool_decide_eq_true_2 by done. by destruct (z =? 0).
Qed.

(** * Scans *)

(** The bytes in the direction of the scan, the byte behind the start, and the
    lengths that are valid wide strings. *)
Definition oriented (bck : bool) (right left : list Z) : list Z := if bck then reverse left else right.

Definition scan_bytes (bck wide : bool) (right left : list Z) : list Z :=
  if wide then wide_bytes bck (oriented bck right left) else oriented bck right left.

Definition scan_before (bck wide : bool) (right left : list Z) : option Z :=
  scan_bytes (negb bck) wide right left !! 0%nat.

Definition scan_valid (bck wide : bool) (right left : list Z) (n : nat) : bool :=
  if wide then wide_valid bck (oriented bck right left) n else true.

Definition scan_len (wide : bool) (n : nat) : Z := if wide then 2 * Z.of_nat n else Z.of_nat n.

Section Scan.
Context {BS : BitSlice} {BSL : BitSliceLaws} {B : Type} {BV : BitVec B} {BVL : BitVecLaws B}.

Lemma try_match_impl_bytes items fuel vm start l bck :
  runnable items -> (vm_fuel items <= fuel)%nat -> machine_ready items vm ->
  is_Some (item_at items (location start)) ->
  let expected k := (k = 0%nat \/ Z.of_nat k < vm.(vm_scan_limit)) /\ true = true /\
    accepts items (backwards start) (fst (input_next bck)) l (location start) k in
  exists (vm' : PikeVM (B := B)) ns,
    try_match_impl true fuel vm start (BytesInput l) bck (fun _ ns n => (ns ++ [n], Continue)) [] = Ret (vm', ns) /\
    machine_ready items vm' /\ StronglySorted Z.le ns /\
    (forall x, x ∈ ns -> exists k, x = Z.of_nat k /\ expected k) /\
    (no_repeat items = true -> forall k, expected k -> Z.of_nat k ∈ ns).
Proof.
  intros Hrun Hf Hvm Hs expected.
  by apply (try_match_impl_exact items Hrun fuel Hf start _ _ (BytesInput l) _ l Z.of_nat (fun _ => true)
    (nth_input_bytes l) (fun _ _ => eq_refl) (fun _ _ _ H => H) (fun n m => proj1 (Nat2Z.inj_lt n m))).
Qed.

Lemma try_match_impl_wide items fuel vm start first l bck :
  runnable items -> (vm_fuel items <= fuel)%nat -> machine_ready items vm ->
  is_Some (item_at items (location start)) ->
  let expected k := (k = 0%nat \/ Z.of_nat k < vm.(vm_scan_limit)) /\ wide_valid first l k = true /\
    accepts items (backwards start) (fst (input_next bck)) (wide_bytes first l) (location start) k in
  exists (vm' : PikeVM (B := B)) ns,
    try_match_impl true fuel vm start (wide_at first l 0 None) bck
      (wide_callback (fun ns n => (ns ++ [n], Continue))) [] = Ret (vm', ns) /\
    machine_ready items vm' /\ StronglySorted Z.le ns /\
    (forall x, x ∈ ns -> exists k, x = 2 * Z.of_nat k /\ expected k) /\
    (no_repeat items = true -> forall k, expected k -> 2 * Z.of_nat k ∈ ns).
Proof.
  intros Hrun Hf Hvm Hs expected.
  apply (try_match_impl_exact items Hrun fuel Hf start _ _ (wide_at first l 0 None) _ (wide_bytes first l)
    (fun n => 2 * Z.of_nat n) (wide_valid first l)); try done.
  - intros n. apply nth_input_wide.
  - intros n ns. unfold wide_callback. rewrite (proj2 (nth_input_wide first l 0 None (S (S n)))).
    rewrite <- (wide_error_valid first l n 0), Z.add_0_l, Z.mul_comm.
    destruct (wide_error _ _ _ _) as [e|]; [|done]. by destruct (e <? _).
  - apply wide_valid_anti.
  - intros n m. lia.
Qed.

Lemma scan_before_bytes l : fst (input_next (BytesInput l)) = l !! 0%nat.
Proof. by destruct l. Qed.

Lemma scan_before_wide first l : fst (input_next (wide_at first l 0 None)) = wide_bytes first l !! 0%nat.
Proof. apply (nth_input_wide first l 0 None 0). Qed.

Lemma pike_scan_exact items fuel vm start right left wide :
  runnable items -> (vm_fuel items <= fuel)%nat -> machine_ready items vm ->
  is_Some (item_at items (location start)) ->
  let bck := backwards start in
  let expected k :=
    (k = 0%nat \/ Z.of_nat k < vm.(vm_scan_limit)) /\ scan_valid bck wide right left k = true /\
    accepts items bck (scan_before bck wide right left) (scan_bytes bck wide right left) (location start) k in
  exists (vm' : PikeVM (B := B)) ns,
    try_match true fuel vm start right left wide (fun ns n => (ns ++ [n], Continue)) [] = Ret (vm', ns) /\
    machine_ready items vm' /\ StronglySorted Z.le ns /\
    (forall x, x ∈ ns -> exists k, x = scan_len wide k /\ expected k) /\
    (no_repeat items = true -> forall k, expected k -> scan_len wide k ∈ ns).
Proof.
  intros Hrun Hf Hvm Hs. unfold try_match, scan_valid, scan_before, scan_bytes, oriented, scan_len.
  destruct start as [nz|nz], wide; cbn [backwards negb].
  - pose proof (try_match_impl_wide items fuel vm (FwdCodeLoc nz) false right (wide_at true (reverse left) 0 None) Hrun Hf Hvm Hs) as H.
    by rewrite scan_before_wide in H.
  - pose proof (try_match_impl_bytes items fuel vm (FwdCodeLoc nz) right (BytesInput (reverse left)) Hrun Hf Hvm Hs) as H.
    by rewrite scan_before_bytes in H.
  - pose proof (try_match_impl_wide items fuel vm (BckCodeLoc nz) true (reverse left) (wide_at false right 0 None) Hrun Hf Hvm Hs) as H.
    by rewrite scan_before_wide in H.
  - pose proof (try_match_impl_bytes items fuel vm (BckCodeLoc nz) (reverse left) (BytesInput right) Hrun Hf Hvm Hs) as H.
    by rewrite scan_before_bytes in H.
Qed.

(** C15: the lengths that a scan reports, for code that the machine can run: the
    scan ends, the machine can be used again, and the lengths, in increasing
    order, are accepted by the automaton that the code describes, within the scan
    limit and, for wide strings, in a prefix whose pairs all have their zero byte.
    For code without repetition instructions every such length is reported. *)
Theorem pike_vm_exact items fuel vm start right left wide :
  runnable items -> (vm_fuel items <= fuel)%nat -> machine_ready items vm ->
  is_Some (item_at items (location start)) ->
  let bck := backwards start in
  let expected k :=
    (k = 0%nat \/ Z.of_nat k < vm.(vm_scan_limit)) /\ scan_valid bck wide right left k = true /\
    accepts items bck (scan_before bck wide right left) (scan_bytes bck wide right left) (location start) k in
  exists (vm' : PikeVM (B := B)) ns,
    try_match true fuel vm start right left wide (fun ns n => (ns ++ [n], Continue)) [] = Ret (vm', ns) /\
    machine_ready items vm' /\ StronglySorted Z.le ns /\
    (forall x, x ∈ ns -> exists k, x = scan_len wide k /\ expected k) /\
    (no_repeat items = true -> forall k, expected k -> scan_len wide k ∈ ns).
Proof. exact (pike_scan_exact items fuel vm start right left wide). Qed.
End Scan.

(** * Instances *)

Lemma pike_vm_exact_witness :
  machine_ready sample_code sample_machine /\
  exists vm' ns,
    try_match true 40 sample_machine (FwdCodeLoc 1) [0x61; 0; 0x62; 0] [] true
      (fun ns n => (ns ++ [n], Continue)) [] = Ret (vm', ns) /\
    machine_ready sample_code vm' /\ StronglySorted Z.le ns /\
    (forall x, x ∈ ns -> exists k, x = scan_len true k /\
       ((k = 0%nat \/ Z.of_nat k < 4096) /\ wide_valid false [0x61; 0; 0x62; 0] k = true /\
        accepts sample_code false None [0x61; 0x62] 0 k)) /\
    (no_repeat sample_code = true -> forall k,
       (k = 0%nat \/ Z.of_nat k < 4096) /\ wide_valid false [0x61; 0; 0x62; 0] k = true /\
        accepts sample_code false None [0x61; 0x62] 0 k -> scan_len true k ∈ ns).
Proof.
  split; [apply pikevm_new_ready|].
  apply (pike_vm_exact sample_code 40 sample_machine (FwdCodeLoc 1) [0x61; 0; 0x62; 0] [] true).
  - exact sample_runnable.
  - vm_compute. lia.
  - apply pikevm_new_ready.
  - by eexists.
Defined.
