(* ===== verification/PikeCompiler.v ===== *)
(** The compiler of patterns for the Pike virtual machine, from
    [lib/src/re/thompson/compiler.rs]: it visits the expression and emits code
    that matches it from left to right and code that matches it from right to
    left, while it collects atoms with the locations of the code for them. *)

From stdpp Require Import gmap.
From S2P Require Import Prelude.
From S2P Require Import PosSet.
From S2P Require Import Re.
From S2P Require Import Cursor.
From S2P Require Import Atoms.
From S2P Require Import Quality.
From S2P Require Import ByteClass.
From S2P Require Import Hir.
From S2P Require Import Visit.
From S2P Require Import PikeInstr.
From S2P Require Import PikeSeq.
From S2P Require Import PikeAtoms.
#[local] Open Scope try_scope.

(** * Code locations *)

Record CodeLoc := { fwd : Z; bck_seq_id : Z; bck : Z }.

Definition code_loc_default : CodeLoc := {| fwd := 0; bck_seq_id := 0; bck := 0 |}.

Record CodeLocOffset := { o_fwd : Offset; o_bck : Offset }.

(** [CodeLoc::sub]. The casts to [isize] are exact, since a [Vec] has at most
    [isize::MAX] bytes. *)
Definition loc_sub (l rhs : CodeLoc) : res (Error + CodeLocOffset) :=
  _ ← assert (l.(bck_seq_id) =? rhs.(bck_seq_id));
  match offset_try_from (l.(fwd) - rhs.(fwd)), offset_try_from (l.(bck) - rhs.(bck)) with
  | Some f, Some b => ok {| o_fwd := f; o_bck := b |}
  | _, _ => fail TooLarge
  end.

(** The location of the code is [loc], but for the backward code. *)
Definition with_bck (loc : CodeLoc) (id b : Z) : CodeLoc :=
  {| fwd := loc.(fwd); bck_seq_id := id; bck := b |}.

(** The atoms with their locations. *)
Record LocAtom := { la_atom : Atom; la_loc : CodeLoc }.

(** [RegexpAtoms] *)
Record RegexpAtoms := { ra_atoms : list LocAtom; ra_quality : AtomsQuality }.

Definition regexp_atoms_empty : RegexpAtoms := {| ra_atoms := []; ra_quality := quality_min |}.

Definition regexp_atoms_append (a b : RegexpAtoms) : RegexpAtoms :=
  {| ra_atoms := a.(ra_atoms) ++ b.(ra_atoms); ra_quality := merge a.(ra_quality) b.(ra_quality) |}.

(** [iter_mut], to change the location of the atoms. *)
Definition map_locs (f : CodeLoc -> CodeLoc) (a : RegexpAtoms) : RegexpAtoms :=
  {| ra_atoms := (fun x => {| la_atom := x.(la_atom); la_loc := f x.(la_loc) |}) <$> a.(ra_atoms);
     ra_quality := a.(ra_quality) |}.

(** * The compiler

    Stacks are lists with the top at the head. *)
Record Compiler := {
  forward_code : InstrSeq;
  main_backward_code : InstrSeq;
  bookmarks : list CodeLoc;
  best_atoms_stack : list RegexpAtoms;
  backward_code_chunks : list InstrSeq;
  depth : Z;
  zero_rep_depth : Z;
  repeats : list bool;
}.

Definition REPEAT_INSTR_THRESHOLD : Z := 10.

Definition compiler_new : Compiler :=
  {| forward_code := instr_seq_new; main_backward_code := instr_seq_new; backward_code_chunks := [];
     bookmarks := []; best_atoms_stack := [regexp_atoms_empty]; depth := 0; zero_rep_depth := 0; repeats := [] |}.

Definition set_code (f b : InstrSeq) (chunks : list InstrSeq) (c : Compiler) : Compiler :=
  {| forward_code := f; main_backward_code := b; bookmarks := c.(bookmarks);
     best_atoms_stack := c.(best_atoms_stack); backward_code_chunks := chunks; depth := c.(depth);
     zero_rep_depth := c.(zero_rep_depth); repeats := c.(repeats) |}.

Definition set_bookmarks (l : list CodeLoc) (c : Compiler) : Compiler :=
  {| forward_code := c.(forward_code); main_backward_code := c.(main_backward_code); bookmarks := l;
     best_atoms_stack := c.(best_atoms_stack); backward_code_chunks := c.(backward_code_chunks);
     depth := c.(depth); zero_rep_depth := c.(zero_rep_depth); repeats := c.(repeats) |}.

Definition set_best_atoms (l : list RegexpAtoms) (c : Compiler) : Compiler :=
  {| forward_code := c.(forward_code); main_backward_code := c.(main_backward_code); bookmarks := c.(bookmarks);
     best_atoms_stack := l; backward_code_chunks := c.(backward_code_chunks);
     depth := c.(depth); zero_rep_depth := c.(zero_rep_depth); repeats := c.(repeats) |}.

Definition set_depths (d z : Z) (c : Compiler) : Compiler :=
  {| forward_code := c.(forward_code); main_backward_code := c.(main_backward_code); bookmarks := c.(bookmarks);
     best_atoms_stack := c.(best_atoms_stack); backward_code_chunks := c.(backward_code_chunks);
     depth := d; zero_rep_depth := z; repeats := c.(repeats) |}.

Definition set_repeats (l : list bool) (c : Compiler) : Compiler :=
  {| forward_code := c.(forward_code); main_backward_code := c.(main_backward_code); bookmarks := c.(bookmarks);
     best_atoms_stack := c.(best_atoms_stack); backward_code_chunks := c.(backward_code_chunks);
     depth := c.(depth); zero_rep_depth := c.(zero_rep_depth); repeats := l |}.

Definition push_bookmark (l : CodeLoc) (c : Compiler) : Compiler := set_bookmarks (l :: c.(bookmarks)) c.

Definition push_repeat (b : bool) (c : Compiler) : Compiler := set_repeats (b :: c.(repeats)) c.

(** [self.bookmarks.pop().unwrap()] *)
Definition pop_bookmark (c : Compiler) : res (Error + (CodeLoc * Compiler)) :=
  match c.(bookmarks) with
  | l :: bookmarks => ok (l, set_bookmarks bookmarks c)
  | [] => Panic
  end.

(** [self.best_atoms_stack.last_mut().unwrap()] *)
Definition update_best_atoms (f : RegexpAtoms -> RegexpAtoms) (c : Compiler) : res (Error + Compiler) :=
  match c.(best_atoms_stack) with
  | best :: stack => ok (set_best_atoms (f best :: stack) c)
  | [] => Panic
  end.

Section PikeCompiler.
Context {BS : BitSlice}.

(** The chunk at the top of the stack, or the backward code. *)
Definition backward_code (c : Compiler) : InstrSeq :=
  match c.(backward_code_chunks) with
  | chunk :: _ => chunk
  | [] => c.(main_backward_code)
  end.

Definition set_backward_code (s : InstrSeq) (c : Compiler) : Compiler :=
  match c.(backward_code_chunks) with
  | _ :: chunks => set_code c.(forward_code) c.(main_backward_code) (s :: chunks) c
  | [] => set_code c.(forward_code) s [] c
  end.

Definition set_forward_code (s : InstrSeq) (c : Compiler) : Compiler :=
  set_code s c.(main_backward_code) c.(backward_code_chunks) c.

Definition location (c : Compiler) : CodeLoc :=
  {| fwd := PikeSeq.location c.(forward_code);
     bck_seq_id := (backward_code c).(seq_id);
     bck := PikeSeq.location (backward_code c) |}.

Definition start_backward_code_chunk (c : Compiler) : Compiler :=
  let c := push_bookmark (location c) c in
  set_code c.(forward_code) c.(main_backward_code)
    (instr_seq_next (backward_code c) :: c.(backward_code_chunks)) c.

(** The loop of [reverse_backward_code_chunks], from the last chunk to the first
    one: the backward code, the locations of the chunks, and the bookmarks. *)
Definition append_chunk (lc : CodeLoc * InstrSeq) (st : InstrSeq * gmap Z Z * list CodeLoc)
  : InstrSeq * gmap Z Z * list CodeLoc :=
  let '(loc, chunk) := lc in
  let '(code, chunk_locations, locations) := st in
  let chunk_locations := <[chunk.(seq_id) := PikeSeq.location code]> chunk_locations in
  let code := append code chunk in
  (code, chunk_locations, with_bck loc code.(seq_id) (PikeSeq.location code) :: locations).

Definition adjust_chunk_loc (code : InstrSeq) (chunk_locations : gmap Z Z) (l : CodeLoc) : CodeLoc :=
  match chunk_locations !! l.(bck_seq_id) with
  | Some adjustment => with_bck l code.(seq_id) (wrap_usize (l.(bck) + adjustment))
  | None => l
  end.

(** [split_off] panics when there are less than [n] elements, so that the two
    lists that are split off have the same length, as a debug assertion says. *)
Definition reverse_backward_code_chunks (n : nat) (c : Compiler) : res (Error + (list CodeLoc * Compiler)) :=
  _ ← assert (bool_decide (n <= length c.(backward_code_chunks))%nat);
  let last_n_chunks := take n c.(backward_code_chunks) in
  let c := set_code c.(forward_code) c.(main_backward_code) (drop n c.(backward_code_chunks)) c in
  let code := backward_code c in
  let code := match head last_n_chunks with
              | Some last_chunks => with_split_id code last_chunks.(split_id)
              | None => code
              end in
  _ ← assert (bool_decide (n <= length c.(bookmarks))%nat);
  let locations := take n c.(bookmarks) in
  let c := set_bookmarks (drop n c.(bookmarks)) c in
  let '(code, chunk_locations, locations) :=
    foldl (fun st lc => append_chunk lc st) (code, ∅, []) (zip locations last_n_chunks) in
  c ←? update_best_atoms (map_locs (adjust_chunk_loc code chunk_locations)) (set_backward_code code c);
  ok (locations, c).

(** * Emission in both directions *)

(** An operation that may fail, on the forward code and on the backward code. *)
Definition emit_both (f g : InstrSeq -> res (Error + (InstrSeq * Z))) (c : Compiler)
  : res (Error + (CodeLoc * Compiler)) :=
  '(s, fwd) ←? f c.(forward_code);
  let c := set_forward_code s c in
  let id := (backward_code c).(seq_id) in
  '(s, bck) ←? g (backward_code c);
  ok ({| fwd := fwd; bck_seq_id := id; bck := bck |}, set_backward_code s c).

Definition emit_instr (instr : Z) : Compiler -> res (Error + (CodeLoc * Compiler)) :=
  emit_both (fun s => Ret (PikeSeq.emit_instr instr s)) (fun s => Ret (PikeSeq.emit_instr instr s)).

Definition emit_split_n (n : Z) : Compiler -> res (Error + (CodeLoc * Compiler)) :=
  emit_both (fun s => Ret (PikeSeq.emit_split_n n s)) (fun s => Ret (PikeSeq.emit_split_n n s)).

Definition emit_repeat (min max : Z) (greedy : bool) : Compiler -> res (Error + (CodeLoc * Compiler)) :=
  emit_both (fun s => ok (PikeSeq.emit_repeat min max greedy s)) (fun s => ok (PikeSeq.emit_repeat min max greedy s)).

Definition emit_masked_byte (b : HexByte) : Compiler -> res (Error + (CodeLoc * Compiler)) :=
  emit_both (fun s => ok (PikeSeq.emit_masked_byte b s)) (fun s => ok (PikeSeq.emit_masked_byte b s)).

Definition emit_class (class : list (Z * Z)) : Compiler -> res (Error + (CodeLoc * Compiler)) :=
  emit_both (fun s => ok (PikeSeq.emit_class class s)) (fun s => ok (PikeSeq.emit_class class s)).

Definition emit_literal (literal : list Z) : Compiler -> res (Error + (CodeLoc * Compiler)) :=
  emit_both (fun s => ok (PikeSeq.emit_literal literal s)) (fun s => ok (PikeSeq.emit_literal (reverse literal) s)).

(** The sequence of the backward code with the identifier [id]. *)
Definition find_chunk (id : Z) (c : Compiler) : InstrSeq :=
  default c.(main_backward_code) (snd <$> list_find (fun chunk => chunk.(seq_id) = id) c.(backward_code_chunks)).

Definition emit_clone (start stop : CodeLoc) (c : Compiler) : res (Error + (CodeLoc * Compiler)) :=
  _ ← assert (start.(bck_seq_id) =? stop.(bck_seq_id));
  '(s, b) ←?
    (if (backward_code c).(seq_id) =? start.(bck_seq_id)
     then PikeSeq.emit_clone start.(bck) stop.(bck) (backward_code c)
     else
       cloned_code ← or_panic (get_range (as_slice (find_chunk start.(bck_seq_id) c)) start.(bck) stop.(bck));
       emit_bytes cloned_code (backward_code c));
  let c := set_backward_code s c in
  '(s, f) ←? PikeSeq.emit_clone start.(fwd) stop.(fwd) c.(forward_code);
  let c := set_forward_code s c in
  ok ({| fwd := f; bck_seq_id := (backward_code c).(seq_id); bck := b |}, c).

Definition patch_instr (loc : CodeLoc) (offset : CodeLocOffset) (c : Compiler) : res (Error + Compiler) :=
  f ← PikeSeq.patch_instr loc.(fwd) offset.(o_fwd) c.(forward_code);
  b ← PikeSeq.patch_instr loc.(bck) offset.(o_bck) (backward_code c);
  ok (set_backward_code b (set_forward_code f c)).

Definition patch_split_n (loc : CodeLoc) (offsets : list CodeLocOffset) (c : Compiler) : res (Error + Compiler) :=
  f ← PikeSeq.patch_split_n loc.(fwd) (o_fwd <$> offsets) c.(forward_code);
  b ← PikeSeq.patch_split_n loc.(bck) (o_bck <$> offsets) (backward_code c);
  ok (set_backward_code b (set_forward_code f c)).

(** [self.patch_instr(&l, target.sub(&l)?)] *)
Definition patch_to (l target : CodeLoc) (c : Compiler) : res (Error + Compiler) :=
  o ←? loc_sub target l; patch_instr l o c.

(** [for _ in 0..n] *)
Fixpoint repeat_op {A : Type} (n : nat) (f : A -> res (Error + A)) (a : A) : res (Error + A) :=
  match n with
  | O => ok a
  | S n => a ←? f a; repeat_op n f a
  end.

(** * Concatenations and alternations *)

(** The conversion of the number to a byte fails as the debug assertion does. *)
Definition visit_pre_alternation (n : Z) (c : Compiler) : res (Error + Compiler) :=
  _ ← assert (n <=? u8_MAX);
  '(l0, c) ←? emit_split_n n c;
  let c := push_bookmark (location c) (push_bookmark l0 c) in
  ok (set_best_atoms (regexp_atoms_empty :: c.(best_atoms_stack)) c).

Definition alternation_in (c : Compiler) : res (Error + Compiler) :=
  '(l, c) ←? emit_instr Instr.JUMP c;
  let c := push_bookmark (location c) (push_bookmark l c) in
  ok (set_best_atoms (regexp_atoms_empty :: c.(best_atoms_stack)) c).

(** The loop that patches the jumps and collects the locations of the
    alternatives, the last one first. *)
Definition patch_jump (l_end : CodeLoc) (st : list CodeLoc * Compiler) : res (Error + (list CodeLoc * Compiler)) :=
  let '(expr_locs, c) := st in
  '(l, c) ←? pop_bookmark c;
  '(ln_j, c) ←? pop_bookmark c;
  c ←? patch_to ln_j l_end c;
  ok (expr_locs ++ [l], c).

Fixpoint loc_subs (locs : list CodeLoc) (rhs : CodeLoc) : res (Error + list CodeLocOffset) :=
  match locs with
  | [] => ok []
  | l :: locs => o ←? loc_sub l rhs; os ←? loc_subs locs rhs; ok (o :: os)
  end.

(** The atoms of all the alternatives replace the best ones so far when they
    are better. *)
Definition merge_alternatives (n : nat) (c : Compiler) : res (Error + Compiler) :=
  _ ← assert (bool_decide (n <= length c.(best_atoms_stack))%nat);
  let last_n := reverse (take n c.(best_atoms_stack)) in
  let c := set_best_atoms (drop n c.(best_atoms_stack)) c in
  match last_n with
  | [] => Panic
  | first :: rest =>
      let alternative_atoms := foldl regexp_atoms_append first rest in
      update_best_atoms (fun best_atoms =>
        if (len alternative_atoms.(ra_atoms) <=? MAX_ATOMS_PER_REGEXP) &&
           match quality_cmp best_atoms.(ra_quality) alternative_atoms.(ra_quality) with Lt => true | _ => false end
        then alternative_atoms else best_atoms) c
  end.

(** [0..n - 1] *)
Definition visit_post_alternation (n : Z) (c : Compiler) : res (Error + (CodeLoc * Compiler)) :=
  let l_end := location c in
  '(expr_locs, c) ←? repeat_op (Z.to_nat (wrap_usize (n - 1))) (patch_jump l_end) ([], c);
  '(l, c) ←? pop_bookmark c;
  let expr_locs := expr_locs ++ [l] in
  '(split_loc, c) ←? pop_bookmark c;
  offsets ←? loc_subs (reverse expr_locs) split_loc;
  c ←? patch_split_n split_loc offsets c;
  c ←? merge_alternatives (Z.to_nat n) c;
  ok (split_loc, c).

(** * Repetitions *)

Definition emit_split (a : bool) : Compiler -> res (Error + (CodeLoc * Compiler)) :=
  emit_instr (if a then Instr.SPLIT_A else Instr.SPLIT_B).

Definition visit_pre_repetition (min : Z) (max : option Z) (greedy : bool) (c : Compiler)
  : res (Error + Compiler) :=
  let nested_rep := default false (head c.(repeats)) in
  match max with
  | None =>
      if min =? 0 then
        '(l1, c) ←? emit_split greedy c;
        ok (push_bookmark l1 (push_repeat false c))
      else ok (push_bookmark (location c) (push_repeat false c))
  | Some max =>
      if (min =? 0) && negb nested_rep && (REPEAT_INSTR_THRESHOLD <? max) then
        '(l1, c) ←? emit_split greedy c;
        ok (push_repeat true (push_bookmark l1 (push_bookmark (location c) c)))
      else if negb nested_rep && ((REPEAT_INSTR_THRESHOLD <? min) || (REPEAT_INSTR_THRESHOLD <? max)) then
        let c := push_repeat true (start_backward_code_chunk c) in
        ok (push_bookmark (location c) c)
      else
        c ←? (if min =? 0
              then '(split, c) ←? emit_split greedy c; ok (push_bookmark split c)
              else ok c);
        ok (push_bookmark (location c) (push_repeat false c))
  end.

(** The backward code of the atoms found in the expression is after [adjustment]
    more bytes. *)
Definition adjust_atoms (start : CodeLoc) (adjustment : Z) : Compiler -> res (Error + Compiler) :=
  update_best_atoms (map_locs (fun l =>
    if (l.(bck_seq_id) =? start.(bck_seq_id)) && (start.(bck) <=? l.(bck))
    then with_bck l l.(bck_seq_id) (wrap_usize (l.(bck) + adjustment)) else l)).

(** [self.repeats.pop().unwrap()] *)
Definition pop_repeat (c : Compiler) : res (Error + (bool * Compiler)) :=
  match c.(repeats) with
  | b :: repeats => ok (b, set_repeats repeats c)
  | [] => Panic
  end.

Definition clone_op (start stop : CodeLoc) (c : Compiler) : res (Error + Compiler) :=
  '(_, c) ←? emit_clone start stop c; ok c.

(** e* *)
Definition post_star (c : Compiler) : res (Error + (CodeLoc * Compiler)) :=
  '(l1, c) ←? pop_bookmark c;
  '(l2, c) ←? emit_instr Instr.JUMP c;
  let l3 := location c in
  c ←? patch_to l1 l3 c;
  c ←? patch_to l2 l1 c;
  ok (l1, c).

(** e+ *)
Definition post_plus (greedy : bool) (c : Compiler) : res (Error + (CodeLoc * Compiler)) :=
  '(l1, c) ←? pop_bookmark c;
  '(l2, c) ←? emit_split (negb greedy) c;
  c ←? patch_to l2 l1 c;
  ok (l1, c).

(** e{min,}, min > 1. The second argument of the adjustment is the size of the
    split instruction. *)
Definition post_at_least (min : Z) (greedy : bool) (c : Compiler) : res (Error + (CodeLoc * Compiler)) :=
  _ ← assert (2 <=? min);
  '(start, c) ←? pop_bookmark c;
  let stop := location c in
  c ←? repeat_op (Z.to_nat (saturating_sub min 3)) (clone_op start stop) c;
  '(l1, c) ←? (if 2 <? min then emit_clone start stop c else ok (start, c));
  '(l2, c) ←? emit_split (negb greedy) c;
  c ←? patch_to l2 l1 c;
  c ←? clone_op start stop c;
  c ←? adjust_atoms start (wrap_usize ((min - 1) * (stop.(bck) - start.(bck)) + (1 + 1 + 2 + 4))) c;
  ok (start, c).

(** e{0,max}, with a repeat instruction *)
Definition post_repeat_zero (max : Z) (greedy : bool) (c : Compiler) : res (Error + (CodeLoc * Compiler)) :=
  _ ← assert (0 <? max);
  '(l1, c) ←? pop_bookmark c;
  '(l2, c) ←? pop_bookmark c;
  '(l3, c) ←? emit_repeat 0 max greedy c;
  let l4 := location c in
  c ←? patch_to l1 l4 c;
  c ←? patch_to l3 l2 c;
  ok (l1, c).

(** e{min,max}, with a repeat instruction *)
Definition post_repeat (min max : Z) (greedy : bool) (c : Compiler) : res (Error + (CodeLoc * Compiler)) :=
  _ ← assert ((0 <? min) && (min <=? max));
  '(start, c) ←? pop_bookmark c;
  let stop := location c in
  let c := start_backward_code_chunk c in
  '(split, c) ←? (if min =? 1 then '(s, c) ←? emit_split greedy c; ok (Some s, c) else ok (None, c));
  '(l1, c) ←? emit_clone start stop c;
  '(l2, c) ←? emit_repeat (wrap_u32 (min - 1)) (wrap_u32 (max - 1)) greedy c;
  let l3 := location c in
  c ←? patch_to l2 l1 c;
  c ←? match split with Some s => patch_to s l3 c | None => ok c end;
  '(locations, c) ←? reverse_backward_code_chunks 2 c;
  l ← or_panic (head locations);
  ok (l, c).

(** e{min,max}, unrolled *)
Definition post_unrolled (min max : Z) (greedy : bool) (c : Compiler) : res (Error + (CodeLoc * Compiler)) :=
  _ ← assert (min <=? max);
  '(start, c) ←? pop_bookmark c;
  let stop := location c in
  c ←? repeat_op (Z.to_nat (saturating_sub min 1)) (clone_op start stop) c;
  c ←? repeat_op (Z.to_nat (wrap_u32 (if min =? 0 then max - 1 else max - min))) (fun c =>
         '(split, c) ←? emit_split greedy c;
         clone_op start stop (push_bookmark split c)) c;
  c ←? (if 1 <? min
        then adjust_atoms start (wrap_usize ((min - 1) * (stop.(bck) - start.(bck)))) c
        else ok c);
  let stop := location c in
  c ←? repeat_op (Z.to_nat (wrap_u32 (max - min))) (fun c =>
         '(split, c) ←? pop_bookmark c; patch_to split stop c) c;
  ok (start, c).

Definition visit_post_repetition (min : Z) (max : option Z) (greedy : bool) (c : Compiler)
  : res (Error + (CodeLoc * Compiler)) :=
  '(repeat, c) ←? pop_repeat c;
  match max with
  | None => if min =? 0 then post_star c else if min =? 1 then post_plus greedy c else post_at_least min greedy c
  | Some max =>
      if (min =? 0) && repeat && (REPEAT_INSTR_THRESHOLD <? max) then post_repeat_zero max greedy c
      else if repeat && ((REPEAT_INSTR_THRESHOLD <? min) || (REPEAT_INSTR_THRESHOLD <? max))
      then post_repeat min max greedy c
      else post_unrolled min max greedy c
  end.

(** * Assertions *)

Definition look_instr (look : Look) : option Z :=
  match look with
  | Start => Some Instr.START
  | End => Some Instr.END
  | StartLF | StartCRLF => Some Instr.LINE_START
  | EndLF | EndCRLF => Some Instr.LINE_END
  | WordAscii => Some Instr.WORD_BOUNDARY
  | WordAsciiNegate => Some Instr.WORD_BOUNDARY_NEG
  | WordStartAscii => Some Instr.WORD_START
  | WordEndAscii => Some Instr.WORD_END
  | _ => None
  end.

Definition visit_post_look (look : Look) (c : Compiler) : res (Error + (CodeLoc * Compiler)) :=
  instr ← or_panic (look_instr look); emit_instr instr c.

(** * The visitor *)

Section Visitor.
Context {B : Type} {BV : BitVec B} {LS : LiteralSyntax}.

(** The end of [visit_post], for the atoms and the code location of the
    expression. *)
Definition finish_node (h : Hir) (atoms : option (list Atom)) (code_loc : CodeLoc) (c : Compiler)
  : res (Error + Compiler) :=
  match atoms with
  | None | Some [] => ok c
  | Some atoms =>
      let can_be_exact := (c.(depth) =? 0) && look_set_is_empty h in
      let atoms := if can_be_exact then atoms
                   else atoms_dedup (atoms_sort (make_inexact <$> atoms)) in
      quality ← from_atoms atoms;
      update_best_atoms (fun best_atoms =>
        match quality_cmp quality best_atoms.(ra_quality) with
        | Gt => {| ra_quality := quality;
                   ra_atoms := (fun a => {| la_atom := a; la_loc := code_loc |}) <$> atoms |}
        | _ => best_atoms
        end) c
  end.

(** [code_loc], with the backward code at the current location. *)
Definition at_bck (code_loc : CodeLoc) (c : Compiler) : CodeLoc :=
  with_bck code_loc (backward_code c).(seq_id) (PikeSeq.location (backward_code c)).

(** The atoms that the extractor finds, unless the expression may be repeated
    zero times. *)
Definition extract_node (h : Hir) (code_loc : CodeLoc) (c : Compiler) : res (Error + Compiler) :=
  if 0 <? c.(zero_rep_depth) then ok c else finish_node h (seq_to_atoms (extract h)) code_loc c.

Definition visit_pre_node (h : Hir) (c : Compiler) : res (Error + Compiler) :=
  c ←? match h with
       | HCapture _ => ok (push_bookmark (location c) c)
       | HConcat _ => ok (start_backward_code_chunk c)
       | HAlternation alternatives =>
           if MAX_ALTERNATIVES <? len alternatives then fail TooManyAlternatives
           else visit_pre_alternation (len alternatives) c
       | HRepetition min max greedy _ =>
           let c := if min =? 0 then set_depths c.(depth) (wrap_u32 (c.(zero_rep_depth) + 1)) c else c in
           visit_pre_repetition min max greedy c
       | _ => ok c
       end;
  ok (set_depths (wrap_u32 (c.(depth) + 1)) c.(zero_rep_depth) c).

Definition decrement_depth (c : Compiler) : Compiler :=
  set_depths (wrap_u32 (c.(depth) - 1)) c.(zero_rep_depth) c.

Definition post_literal (literal : list Z) (c : Compiler) : res (Error + Compiler) :=
  '(code_loc, c) ←? emit_literal literal c;
  let code_loc := at_bck code_loc c in
  if 0 <? c.(zero_rep_depth) then ok c
  else
    best_atom ← best_atom_in_bytes literal;
    before ← index_range literal 0 best_atom.(backtrack);
    let adjustment := literal_code_length before in
    let code_loc := {| fwd := wrap_usize (code_loc.(fwd) + adjustment); bck_seq_id := code_loc.(bck_seq_id);
                       bck := wrap_usize (code_loc.(bck) - adjustment) |} in
    finish_node (HLiteral literal) (Some [set_backtrack 0 best_atom]) code_loc c.

(** The characters of a Unicode class, surrogates excluded, and the UTF-8
    encoding of a character. *)
Definition class_chars (ranges : list (Z * Z)) : list Z :=
  '(lo, hi) ← ranges; filter (fun ch => ch < 0xD800 \/ 0xDFFF < ch) (seqZ lo (hi - lo + 1)).

Definition encode_utf8 (ch : Z) : list Z :=
  if ch <? 0x80 then [ch]
  else if ch <? 0x800 then [Z.lor 0xC0 (Z.shiftr ch 6); Z.lor 0x80 (Z.land ch 0x3F)]
  else if ch <? 0x10000 then
    [Z.lor 0xE0 (Z.shiftr ch 12); Z.lor 0x80 (Z.land (Z.shiftr ch 6) 0x3F); Z.lor 0x80 (Z.land ch 0x3F)]
  else
    [Z.lor 0xF0 (Z.shiftr ch 18); Z.lor 0x80 (Z.land (Z.shiftr ch 12) 0x3F);
     Z.lor 0x80 (Z.land (Z.shiftr ch 6) 0x3F); Z.lor 0x80 (Z.land ch 0x3F)].

(** The loop over the literals of a class, after the first one. *)
Fixpoint visit_lits (lits : list (list Z)) (c : Compiler) : res (Error + Compiler) :=
  match lits with
  | [] => ok c
  | lit :: lits =>
      c ←? visit_pre_node (HLiteral lit) c;
      c ←? post_literal lit (decrement_depth c);
      c ←? (if bool_decide (lits = []) then ok c else alternation_in c);
      visit_lits lits c
  end.

Definition visit_post_class (class : HirClass) (c : Compiler) : res (Error + (CodeLoc * Compiler)) :=
  match class with
  | ClassBytes class =>
      match class_to_masked_byte class with
      | Some byte => emit_masked_byte byte c
      | None => emit_class class c
      end
  | ClassUnicode ranges =>
      match to_byte_class ranges with
      | Some class => emit_class class c
      | None =>
          let lits := encode_utf8 <$> class_chars ranges in
          c ←? visit_pre_alternation (len lits) c;
          c ←? visit_lits lits c;
          visit_post_alternation (len lits) c
      end
  end.

(** The best sequence of the ones that start at each expression of a
    concatenation, with the location of its code. *)
Fixpoint best_seq (i : Z) (seqs : list Seq) (locations : list CodeLoc)
    (best : option (list Atom) * AtomsQuality * CodeLoc) : res (option (list Atom) * AtomsQuality * CodeLoc) :=
  match seqs with
  | [] => Ret best
  | _ :: seqs' =>
      best ← match concat_seq seqs with
             | None => Ret best
             | Some s =>
                 let s := if 0 <? i then seq_make_inexact s else s in
                 quality ← from_seq s;
                 match quality_cmp quality (snd (fst best)) with
                 | Gt => loc ← or_panic (get locations i); Ret (seq_to_atoms s, quality, loc)
                 | _ => Ret best
                 end
             end;
      best_seq (i + 1) seqs' locations best
  end.

Definition post_concat (h : Hir) (expressions : list Hir) (c : Compiler) : res (Error + Compiler) :=
  '(locations, c) ←? reverse_backward_code_chunks (length expressions) c;
  if 0 <? c.(zero_rep_depth) then ok c
  else
    '(best_atoms, _, code_loc) ← best_seq 0 (extract <$> expressions) locations (None, quality_min, code_loc_default);
    finish_node h best_atoms code_loc c.

Definition visit_post_node (h : Hir) (c : Compiler) : res (Error + Compiler) :=
  let c := decrement_depth c in
  match h with
  | HEmpty =>
      if 0 <? c.(zero_rep_depth) then ok c
      else finish_node h (Some [{| atom_bytes := []; is_exact := true; backtrack := 0 |}]) (location c) c
  | HLiteral literal => post_literal literal c
  | HCapture _ =>
      '(code_loc, c) ←? pop_bookmark c;
      extract_node h (at_bck code_loc c) c
  | HLook look =>
      '(code_loc, c) ←? visit_post_look look c;
      extract_node h (at_bck code_loc c) c
  | HClass class =>
      '(code_loc, c) ←? (if any_byte h then emit_instr Instr.ANY_BYTE c else visit_post_class class c);
      extract_node h (at_bck code_loc c) c
  | HConcat expressions => post_concat h expressions c
  | HAlternation expressions =>
      '(code_loc, c) ←? visit_post_alternation (len expressions) c;
      extract_node h (at_bck code_loc c) c
  | HRepetition min max greedy _ =>
      '(code_loc, c) ←? visit_post_repetition min max greedy c;
      let code_loc := at_bck code_loc c in
      let c := if min =? 0 then set_depths c.(depth) (wrap_u32 (c.(zero_rep_depth) - 1)) c else c in
      if min =? 0 then ok c else extract_node h code_loc c
  end.

Definition compiler_visitor : Visitor Compiler :=
  {| visit_pre := visit_pre_node; visit_post := visit_post_node; visit_alternation_in := alternation_in;
     visit_concat_in := fun c => ok (start_backward_code_chunk c) |}.

(** * Compilation *)

Context {VI : HirVisit}.

(** [finish]: the two codes and the atoms. *)
Definition compiler_finish (c : Compiler) : res (Error + (InstrSeq * InstrSeq * list LocAtom)) :=
  match c.(best_atoms_stack) with
  | best :: _ => ok (c.(main_backward_code), c.(forward_code), best.(ra_atoms))
  | [] => Panic
  end.

(** The result has the forward code first. *)
Definition compile_internal (h : ReHir) : res (Error + (InstrSeq * InstrSeq * list LocAtom)) :=
  let code_loc := location compiler_new in
  c ←? visit compiler_visitor h.(inner) compiler_new;
  '(bck_code, fwd_code, atoms) ←? compiler_finish c;
  '(fwd_code, _) ←? Ret (PikeSeq.emit_instr Instr.MATCH fwd_code);
  '(bck_code, b) ←? Ret (PikeSeq.emit_instr Instr.MATCH bck_code);
  let code_loc := with_bck code_loc code_loc.(bck_seq_id) b in
  let atoms := if bool_decide (length atoms = 0%nat)
               then [{| la_atom := {| atom_bytes := []; is_exact := false; backtrack := 0 |}; la_loc := code_loc |}]
               else atoms in
  _ ← assert (forallb (fun a => a.(la_loc).(bck_seq_id) =? 0) atoms);
  _ ← assert (len atoms <=? MAX_ATOMS_PER_REGEXP);
  ok (fwd_code, bck_code, atoms).

Definition pike_atom (fwd_code_start bck_code_start : Z) (a : LocAtom) (atoms : list RegexpAtom)
  : res (list RegexpAtom) :=
  f ← fwd_from (wrap_usize (a.(la_loc).(fwd) + fwd_code_start));
  b ← bck_from (wrap_usize (a.(la_loc).(bck) + bck_code_start));
  Ret (atoms ++ [{| rx_atom := a.(la_atom); rx_fwd_code := Some f; rx_bck_code := Some b |}]).

Definition compile (h : ReHir) (code : list Z) : res (Error + (list Z * list RegexpAtom)) :=
  '(fwd_code, bck_code, atoms) ←? compile_internal h;
  let fwd_code_start := len code in
  let code := code ++ as_slice fwd_code in
  let bck_code_start := len code in
  let code := code ++ as_slice bck_code in
  atoms ← for_each atoms (pike_atom fwd_code_start bck_code_start) [];
  ok (code, atoms).
End Visitor.
End PikeCompiler.
