(* ===== verification/PikeCodegen.v ===== *)
(** What the compiler for the Pike virtual machine emits: the code of every
    expression in both directions, as a function, and the effect of every
    operation of the compiler on the code emitted so far. *)

From S2P Require Import Prelude.
From S2P Require Import Re.
From S2P Require Import ByteClass.
From S2P Require Import Hir.
From S2P Require Import Visit.
From S2P Require Import PikeInstr.
From S2P Require Import PikeSeq.
From S2P Require Import PikeCompiler.
#[local] Open Scope try_scope.

(** * Computations that return *)

(** The computation does not panic; it gives an error or a result with [P]. *)
Definition yields {A} (r : res (Error + A)) (P : A -> Prop) : Prop :=
  (exists e, r = Ret (inl e) /\ e <> FastIncompatible) \/ exists a, r = Ret (inr a) /\ P a.

Lemma yields_ok {A} (a : A) (P : A -> Prop) : P a -> yields (ok a) P.
Proof. right. by exists a. Qed.

Lemma yields_bind {A A'} (r : res (Error + A)) (k : A -> res (Error + A')) (P : A -> Prop) (Q : A' -> Prop) :
  yields r P -> (forall a, P a -> yields (k a) Q) -> yields (and_then r k) Q.
Proof.
  intros [(e & -> & He)|(a & -> & Ha)] Hk; [left; by exists e|]. by apply Hk.
Qed.

Lemma yields_impl {A} (r : res (Error + A)) (P Q : A -> Prop) :
  yields r P -> (forall a, P a -> Q a) -> yields r Q.
Proof. intros [H|(a & -> & Ha)] HPQ; [by left|right]. exists a. split; [done|]. by apply HPQ. Qed.

Lemma yields_repeat {A} n (f : A -> res (Error + A)) (P : nat -> A -> Prop) a :
  P 0%nat a -> (forall k a, (k < n)%nat -> P k a -> yields (f a) (P (S k))) -> yields (repeat_op n f a) (P n).
Proof.
  revert P a. induction n as [|n IH]; intros P a H0 Hf; [by apply yields_ok|].
  cbn [repeat_op]. eapply yields_bind; [apply (Hf 0%nat); [lia|done]|].
  intros a' Ha'. apply (IH (fun k => P (S k))); [done|]. intros k x Hk. apply Hf. lia.
Qed.

Section Codegen.
Context {BS : BitSlice} {BSL : BitSliceLaws}.

(** * The code of an expression

    The identifiers of the split instructions are left out. Of the Unicode
    classes, only the ones of ASCII characters are here. *)

Definition sz (items : list Item) : Z := len (enc_items items).

Definition erase (it : Item) : Item :=
  match it with
  | ISplit is_a _ offset => ISplit is_a 0 offset
  | ISplitN _ offsets => ISplitN 0 offsets
  | _ => it
  end.

Definition split_size : Z := 8.
Definition jump_size : Z := 6.
Definition repeat_size : Z := 14.

Definition copies (n : nat) (e : list Item) : list Item := concat (replicate n e).

Definition gen_star (greedy : bool) (e : list Item) : list Item :=
  [ISplit greedy 0 (split_size + sz e + jump_size)] ++ e ++ [IJump (- (split_size + sz e))].

Definition gen_plus (greedy : bool) (e : list Item) : list Item := e ++ [ISplit (negb greedy) 0 (- sz e)].

Definition gen_at_least (min : nat) (greedy : bool) (e : list Item) : list Item :=
  copies (min - 1) e ++ [ISplit (negb greedy) 0 (- sz e)] ++ e.

Definition gen_repeat_zero (max : Z) (greedy : bool) (e : list Item) : list Item :=
  [ISplit greedy 0 (split_size + sz e + repeat_size)] ++ e ++ [IRepeat greedy (- sz e) 0 max].

(** The second copy of the expression, with its repeat instruction. *)
Definition gen_loop (min max : Z) (greedy : bool) (e : list Item) : list Item :=
  (if min =? 1 then [ISplit greedy 0 (split_size + sz e + repeat_size)] else []) ++
  e ++ [IRepeat greedy (- sz e) (min - 1) (max - 1)].

(** [n] optional copies; all the splits go to the end. *)
Fixpoint gen_optional (n : nat) (greedy : bool) (e : list Item) : list Item :=
  match n with
  | O => []
  | S k => [ISplit greedy 0 (Z.of_nat n * (split_size + sz e))] ++ e ++ gen_optional k greedy e
  end.

(** The alternatives, with the jumps to the end. *)
Fixpoint gen_alternatives (codes : list (list Item)) : list Item :=
  match codes with
  | [] => []
  | [c] => c
  | c :: codes => c ++ [IJump (jump_size + sz (gen_alternatives codes))] ++ gen_alternatives codes
  end.

(** The offsets of the alternatives, when the first one is at [offset]. *)
Fixpoint alternative_offsets (offset : Z) (codes : list (list Item)) : list Z :=
  match codes with
  | [] => []
  | c :: codes => offset :: alternative_offsets (offset + sz c + jump_size) codes
  end.

Definition gen_alternation (codes : list (list Item)) : list Item :=
  [ISplitN 0 (alternative_offsets (5 + 4 * len codes) codes)] ++ gen_alternatives codes.

Definition gen_repetition (bck nested : bool) (min : Z) (max : option Z) (greedy : bool) (e : list Item) : list Item :=
  match max with
  | None =>
      if min =? 0 then gen_star greedy e
      else if min =? 1 then gen_plus greedy e else gen_at_least (Z.to_nat min) greedy e
  | Some max =>
      if (min =? 0) && negb nested && (REPEAT_INSTR_THRESHOLD <? max) then gen_repeat_zero max greedy e
      else if negb nested && ((REPEAT_INSTR_THRESHOLD <? min) || (REPEAT_INSTR_THRESHOLD <? max)) then
        if bck then gen_loop min max greedy e ++ e else e ++ gen_loop min max greedy e
      else copies (Z.to_nat min) e ++ gen_optional (Z.to_nat (max - min)) greedy e
  end.

(** The repetition uses the repeat instruction. *)
Definition uses_repeat (nested : bool) (min : Z) (max : option Z) : bool :=
  match max with
  | None => false
  | Some max => negb nested && ((REPEAT_INSTR_THRESHOLD <? min) || (REPEAT_INSTR_THRESHOLD <? max))
  end.

Definition gen_class (h : Hir) (class : HirClass) : list Item :=
  if any_byte h then [IPlain Instr.ANY_BYTE]
  else
    match class with
    | ClassBytes rs =>
        match class_to_masked_byte rs with
        | Some b => [IMasked b.(hb_value) b.(hb_mask)]
        | None => [IClass rs]
        end
    | ClassUnicode rs => [IClass rs]
    end.

(** The code of an expression: the backward code when [bck], inside a repetition
    with a repeat instruction when [nested]. *)
Fixpoint gen (bck nested : bool) (h : Hir) : list Item :=
  match h with
  | HEmpty => []
  | HLiteral bs => IByte <$> (if bck then reverse bs else bs)
  | HClass class => gen_class h class
  | HLook look => match look_instr look with Some op => [IPlain op] | None => [] end
  | HRepetition min max greedy sub =>
      gen_repetition bck nested min max greedy (gen bck (uses_repeat nested min max) sub)
  | HCapture sub => gen bck nested sub
  | HConcat subs =>
      let codes := map (gen bck nested) subs in
      concat (if bck then reverse codes else codes)
  | HAlternation subs => gen_alternation (map (gen bck nested) subs)
  end.

(** ** Lemmas *)

Lemma sz_app l1 l2 : sz (l1 ++ l2) = sz l1 + sz l2.
Proof. unfold sz. by rewrite enc_items_app, len_app. Qed.

Lemma sz_nil : sz [] = 0.
Proof. done. Qed.

Lemma sz_one it : sz [it] = len (enc it).
Proof. unfold sz. by rewrite enc_items_one. Qed.

Lemma sz_cons it l : sz (it :: l) = len (enc it) + sz l.
Proof. change (it :: l) with ([it] ++ l). by rewrite sz_app, sz_one. Qed.

Lemma sz_nonneg l : 0 <= sz l.
Proof. apply len_nonneg. Qed.

Lemma len_enc_erase it : len (enc (erase it)) = len (enc it).
Proof. by destruct it. Qed.

Lemma sz_erase l : sz (erase <$> l) = sz l.
Proof. induction l as [|it l IH]; [done|]. rewrite fmap_cons, !sz_cons, len_enc_erase, IH. done. Qed.

Lemma sz_split is_a id o : len (enc (ISplit is_a id o)) = split_size.
Proof. reflexivity. Qed.

Lemma sz_jump o : len (enc (IJump o)) = jump_size.
Proof. reflexivity. Qed.

Lemma sz_repeat g o min max : len (enc (IRepeat g o min max)) = repeat_size.
Proof. reflexivity. Qed.

Lemma sz_split_n id os : len (enc (ISplitN id os)) = 5 + 4 * len os.
Proof.
  cbn [enc]. rewrite !len_app, (len_enc_offsets os), len_split_id. change (len [_; _]) with 2. change (len [_]) with 1. lia.
Qed.

Lemma sz_copies n e : sz (copies n e) = Z.of_nat n * sz e.
Proof.
  unfold copies. induction n as [|n IH]; [done|]. cbn [replicate concat]. rewrite sz_app, IH. lia.
Qed.

Lemma sz_gen_optional n greedy e : sz (gen_optional n greedy e) = Z.of_nat n * (split_size + sz e).
Proof. induction n as [|n IH]; [done|]. cbn [gen_optional]. rewrite !sz_app, IH, sz_one, sz_split. lia. Qed.

Lemma copies_S n e : copies (S n) e = e ++ copies n e.
Proof. done. Qed.

Lemma copies_snoc n e : copies (S n) e = copies n e ++ e.
Proof.
  induction n as [|n IH]; [cbn; by rewrite app_nil_r|].
  rewrite copies_S, IH at 1. by rewrite copies_S, <- app_assoc.
Qed.

(** * The code emitted so far *)

(** More code: instructions with new identifiers, whose erasure is [G]. *)
Definition a_ext (a a' : ASeq) (G : list Item) : Prop :=
  exists items, a'.(a_items) = a.(a_items) ++ items /\ erase <$> items = G /\
    a.(a_split_id) <= a'.(a_split_id) /\ NoDup (omap item_split_id items) /\
    Forall (fun id => a.(a_split_id) <= id < a'.(a_split_id)) (omap item_split_id items).

Lemma a_ext_refl a : a_ext a a [].
Proof. exists []. rewrite app_nil_r. split_and!; try done; constructor. Qed.

Lemma a_ext_trans a a' a'' G G' : a_ext a a' G -> a_ext a' a'' G' -> a_ext a a'' (G ++ G').
Proof.
  intros (l & H1 & H2 & H3 & H4 & H5) (l' & H1' & H2' & H3' & H4' & H5'). exists (l ++ l').
  rewrite H1', H1, <- app_assoc, fmap_app, H2, H2', omap_app. rewrite Forall_forall in H5, H5'.
  split_and!; try done; [lia| |].
  - apply NoDup_app. split_and!; try done. intros x Hx%H5 Hx'%H5'. lia.
  - apply Forall_app. split; apply Forall_forall; intros x Hx; [apply H5 in Hx|apply H5' in Hx]; lia.
Qed.

Lemma a_ext_sz a a' G : a_ext a a' G -> sz a'.(a_items) = sz a.(a_items) + sz G.
Proof. intros (l & -> & <- & _). by rewrite sz_app, sz_erase. Qed.

(** Items that are not split instructions. *)
Lemma a_ext_plain a items : omap item_split_id items = [] -> a_ext a (a_append a items) (erase <$> items).
Proof. intros H. exists items. rewrite H. split_and!; try done; constructor. Qed.

Lemma a_ext_split a a' item :
  a_split a item = Some a' -> (forall id, item_split_id (item id) = Some id) ->
  a_ext a a' [erase (item a.(a_split_id))].
Proof.
  unfold a_split. intros H Hid. destruct (_ <? _) eqn:E; [|done]. injection H as <-.
  exists [item (a_split_id a)]. cbn [a_items a_split_id omap list_omap]. rewrite Hid.
  split_and!; try done; [lia|apply NoDup_singleton|]. constructor; [lia|constructor].
Qed.

(** Copied code. *)
Lemma renumber_erase items id items' id' : renumber items id = Some (items', id') -> erase <$> items' = erase <$> items.
Proof.
  revert id items' id'. induction items as [|it items IH]; intros id items' id'; cbn [renumber]; [by intros [= <- <-]|].
  destruct (set_id it id) as [it'|] eqn:E.
  - destruct (_ <? _); [|done]. destruct (renumber items (id + 1)) as [[l i]|] eqn:Er; [|done].
    cbn. intros [= <- <-]. cbn. rewrite (IH _ _ _ Er). f_equal. destruct it; cbn [set_id] in E; try done; by injection E as <-.
  - destruct (renumber items id) as [[l i]|] eqn:Er; [|done]. cbn. intros [= <- <-]. cbn. by rewrite (IH _ _ _ Er).
Qed.

Lemma a_ext_copy a a' items :
  a_copy a items = Some a' -> 0 <= a.(a_split_id) -> a_ext a a' (erase <$> items).
Proof.
  rewrite a_copy_renumber. destruct (renumber items _) as [[l i]|] eqn:E; [|done]. intros [= <-] H0.
  exists l. cbn. destruct (renumber_ids _ _ _ _ H0 E) as (H1 & H2 & H3). split_and!; try done.
  - by eapply renumber_erase.
  - eapply Forall_impl; [exact H3|]. cbn. lia.
Qed.
(** ** Identifiers of the sequences *)

Lemma foldl_put_id {A} (f : A -> list Z) l s : (foldl (fun s x => put (f x) s) s l).(seq_id) = s.(seq_id).
Proof. revert s. induction l as [|x l IH]; intros s; [done|]. cbn [foldl]. by rewrite IH. Qed.

Lemma update_split_ids_id loc s s' : update_split_ids loc s = Ret (inr s') -> s'.(seq_id) = s.(seq_id).
Proof.
  unfold update_split_ids. destruct (index_range _ _ _) as [code| |]; try done. cbn [mbind res_bind].
  destruct (new_split_ids _ _ _ _) as [[e|[offs id]]| |]; try done. cbn [mbind res_bind].
  destruct (for_each _ _ _) as [code'| |]; try done. cbn [mbind res_bind]. by intros [= <-].
Qed.

Lemma exec_op_id op s s' l : exec_op op s = Ret (inr (s', l)) -> s'.(seq_id) = s.(seq_id).
Proof.
  destruct op; cbn [exec_op].
  - unfold PikeSeq.emit_instr. destruct (_ || _).
    + destruct (split_id_add _ _); [|done]. by intros [= <- <-].
    + destruct (_ =? _); by intros [= <- <-].
  - unfold PikeSeq.emit_split_n. destruct (split_id_add _ _); [|done]. intros [= <- <-]. by rewrite foldl_put_id.
  - unfold PikeSeq.emit_repeat. by intros [= <- <-].
  - unfold PikeSeq.emit_masked_byte. by intros [= <- <-].
  - unfold PikeSeq.emit_class. destruct (_ <? _); intros [= <- <-]; [by rewrite foldl_put_id|done].
  - unfold PikeSeq.emit_literal. intros [= <- <-].
    assert (H : forall s, (foldl (fun s b => if b =? OPCODE_PREFIX then put [b; b] s else put [b] s) s literal).(seq_id) = s.(seq_id)).
    { induction literal as [|b literal IH]; intros s0; [done|]. cbn [foldl]. rewrite IH. by destruct (_ =? _). }
    apply H.
  - unfold emit_bytes. destruct (update_split_ids _ _) as [[e|s1]| |] eqn:E; try done. intros [= <- <-].
    by apply update_split_ids_id in E.
  - unfold PikeSeq.emit_clone, extend_from_within. destruct (index_range _ _ _) as [code| |]; try done. cbn [mbind res_bind].
    destruct (update_split_ids _ _) as [[e|s1]| |] eqn:E; try done. cbn [mbind res_bind].
    destruct (Cursor.seek_current _ _) as [c| |]; try done. intros [= <- <-]. by apply update_split_ids_id in E.
  - unfold PikeSeq.patch_instr. destruct (Cursor.read_exact _ _) as [[buf c]| |]; try done. cbn [mbind res_bind].
    repeat case_match; try done; destruct (Prelude.assert _); try done; cbn [mbind res_bind]; try by intros [= <- <-].
    destruct (Cursor.seek_current _ _) as [c1| |]; try done. by intros [= <- <-].
  - unfold PikeSeq.patch_split_n. destruct (Cursor.read_exact _ _) as [[opcode c]| |]; try done. cbn [mbind res_bind].
    repeat case_match; try done; destruct (Prelude.assert _); try done; cbn [mbind res_bind];
      (destruct (Prelude.assert _); try done; cbn [mbind res_bind]);
      (destruct (Cursor.read_exact _ _) as [[buf c1]| |]; try done; cbn [mbind res_bind]);
      (destruct (Prelude.assert _); try done; cbn [mbind res_bind]); by intros [= <- <-].
Qed.
End Codegen.

#[export] Hint Rewrite @sz_app @sz_cons @sz_nil @sz_split @sz_jump @sz_repeat @sz_split_n @sz_copies : sz.

(** Equalities of sizes of code. *)
Ltac sizes := autorewrite with sz; unfold split_size, jump_size, repeat_size in *; lia.
