(* ===== verification/PikeEmit.v ===== *)
(** The effect of the operations of the compiler for the Pike virtual machine on
    the code emitted so far: emission, copies and patches, in the forward code and
    in the chunk of backward code at the top of the stack. *)

From S2P Require Import Prelude.
From S2P Require Import Re.
From S2P Require Import Cursor.
From S2P Require Import ByteClass.
From S2P Require Import Hir.
From S2P Require Import Visit.
From S2P Require Import PikeInstr.
From S2P Require Import PikeSeq.
From S2P Require Import PikeCompiler.
From S2P Require Import PikeCodegen.
#[local] Open Scope try_scope.

Section Emit.
Context {BS : BitSlice} {BSL : BitSliceLaws}.

(** * The state of the compiler *)

Definition backs (c : Compiler) : list InstrSeq := c.(backward_code_chunks) ++ [c.(main_backward_code)].

(** The forward code and the stack of backward codes hold some instructions; a
    sequence has the number of sequences below it as identifier. *)
Record good (c : Compiler) (f : ASeq) (bs : list ASeq) : Prop := {
  g_fwd : represents c.(forward_code) f;
  g_bck : Forall2 represents (backs c) bs;
  g_ids : seq_id <$> backs c = reverse (seqZ 0 (len bs));
  g_len : len bs <= usize_MAX;
}.

(** Only the code counts. *)
Definition code_of (c : Compiler) : InstrSeq * InstrSeq * list InstrSeq :=
  (c.(forward_code), c.(main_backward_code), c.(backward_code_chunks)).

Lemma good_code c c' f bs : code_of c' = code_of c -> good c f bs -> good c' f bs.
Proof.
  unfold code_of. intros [= H1 H2 H3] [Hf Hb Hi Hl]. split; unfold backs in *; by rewrite ?H1, ?H2, ?H3.
Qed.

(** What the operations on code do not change. *)
Definition same (c c' : Compiler) : Prop :=
  c'.(bookmarks) = c.(bookmarks) /\ c'.(repeats) = c.(repeats) /\ c'.(best_atoms_stack) = c.(best_atoms_stack).

Lemma same_refl c : same c c.
Proof. done. Qed.

Lemma same_trans c c' c'' : same c c' -> same c' c'' -> same c c''.
Proof. intros (H1 & H2 & H3) (H1' & H2' & H3'). split_and!; congruence. Qed.

Lemma seqZ_rev_cons n : 0 <= n -> reverse (seqZ 0 (n + 1)) = n :: reverse (seqZ 0 n).
Proof.
  intros H. rewrite seqZ_app by lia. rewrite reverse_app.
  by change (seqZ (0 + n) 1) with [Z.of_nat 0 + (0 + n)].
Qed.

Lemma good_backs c f b rest :
  good c f (b :: rest) ->
  exists tail, backs c = backward_code c :: tail /\ represents (backward_code c) b /\ Forall2 represents tail rest /\
    (backward_code c).(seq_id) = len rest /\ seq_id <$> tail = reverse (seqZ 0 (len rest)).
Proof.
  intros [_ Hb Hi _]. unfold backs, backward_code in *.
  assert (H : exists tail, backward_code_chunks c ++ [main_backward_code c] =
    match backward_code_chunks c with chunk :: _ => chunk | [] => main_backward_code c end :: tail).
  { destruct (backward_code_chunks c); cbn; by eexists. }
  destruct H as [tail Ht]. exists tail. rewrite Ht in *. split; [done|].
  apply Forall2_cons in Hb as [Hb Htail]. split; [done|]. split; [done|].
  rewrite len_cons, Z.add_comm, seqZ_rev_cons in Hi by apply len_nonneg. cbn in Hi. by injection Hi.
Qed.

Lemma backs_set s c : backs (set_backward_code s c) = s :: tail (backs c).
Proof.
  unfold backs, set_backward_code. by destruct (backward_code_chunks c).
Qed.

Lemma backward_code_set s c : backward_code (set_backward_code s c) = s.
Proof. unfold backward_code, set_backward_code. by destruct (backward_code_chunks c). Qed.

Lemma same_set_backward s c : same c (set_backward_code s c).
Proof. unfold set_backward_code. by destruct (backward_code_chunks c). Qed.

Lemma good_set_backward c f b rest s b' :
  good c f (b :: rest) -> represents s b' -> s.(seq_id) = len rest -> good (set_backward_code s c) f (b' :: rest).
Proof.
  intros Hg Hs Hid. destruct (good_backs _ _ _ _ Hg) as (t & Ht & _ & Htr & _ & Hti). destruct Hg as [Hf _ _ Hl].
  split; rewrite ?backs_set, ?Ht; cbn [tail].
  - unfold set_backward_code. by destruct (backward_code_chunks c).
  - by constructor.
  - rewrite fmap_cons, Hti, len_cons, Z.add_comm, seqZ_rev_cons by apply len_nonneg. by rewrite Hid.
  - by rewrite len_cons in *.
Qed.

Lemma good_set_forward c f bs s f' : good c f bs -> represents s f' -> good (set_forward_code s c) f' bs.
Proof. by intros [_ Hb Hi Hl] Hs. Qed.

Lemma represents_location s a : represents s a -> PikeSeq.location s = sz a.(a_items).
Proof. intros [Hc _ _ _]. unfold PikeSeq.location. by rewrite Hc. Qed.

Lemma good_location c f b rest :
  good c f (b :: rest) -> location c = {| fwd := sz f.(a_items); bck_seq_id := len rest; bck := sz b.(a_items) |}.
Proof.
  intros Hg. destruct (good_backs _ _ _ _ Hg) as (t & _ & Hb & _ & Hid & _). unfold location.
  by rewrite (represents_location _ _ (g_fwd _ _ _ Hg)), (represents_location _ _ Hb), Hid.
Qed.

(** * Operations on both codes *)

Definition wrap (r : Error + (InstrSeq * Z)) : Error + (InstrSeq * option Z) :=
  match r with inl e => inl e | inr (s, loc) => inr (s, Some loc) end.

(** An operation on one sequence, in terms of its specification. *)
Lemma run_op op (f : InstrSeq -> res (Error + (InstrSeq * Z))) s a r :
  represents s a -> spec_op op a r -> exec_op op s = wrap <$> f s ->
  (r = None /\ f s = Ret (inl TooLarge)) \/
  exists a' s', r = Some a' /\ f s = Ret (inr (s', sz a.(a_items))) /\ represents s' a' /\ s'.(seq_id) = s.(seq_id).
Proof.
  intros Hs Hop He. destruct (exec_op_refines op s a r Hs Hop) as (out & Hout & Hr). rewrite He in Hout.
  pose proof (exec_op_id op s) as Hid. rewrite He in Hid.
  destruct (f s) as [[e|[s' l]]| |]; cbn in Hout; try done; injection Hout as <-.
  - destruct r; [done|]. left. cbn in Hr. by subst e.
  - destruct r as [a'|]; [|done]. right. destruct Hr as [Hr Hl]. exists a', s'. rewrite (Hl l eq_refl).
    split_and!; try done. by apply (Hid s' (Some l)).
Qed.

Lemma emit_both_yields c f b rest o1 o2 f1 g1 r1 r2 :
  good c f (b :: rest) -> spec_op o1 f r1 -> spec_op o2 b r2 ->
  (forall s, exec_op o1 s = wrap <$> f1 s) -> (forall s, exec_op o2 s = wrap <$> g1 s) ->
  yields (emit_both f1 g1 c) (fun '(l, c') => l = location c /\ same c c' /\
    exists f' b', r1 = Some f' /\ r2 = Some b' /\ good c' f' (b' :: rest)).
Proof.
  intros Hg H1 H2 E1 E2. destruct (good_backs _ _ _ _ Hg) as (t & _ & Hb & _ & Hid & _). unfold emit_both.
  destruct (run_op o1 f1 _ _ _ (g_fwd _ _ _ Hg) H1 (E1 _)) as [(-> & ->)|(f' & sf & -> & -> & Hsf & _)].
  { left. by exists TooLarge. }
  cbn [and_then mbind res_bind]. change (backward_code (set_forward_code sf c)) with (backward_code c).
  destruct (run_op o2 g1 _ _ _ Hb H2 (E2 _)) as [(-> & ->)|(b' & sb & -> & -> & Hsb & Hsid)].
  { left. by exists TooLarge. }
  cbn [and_then mbind res_bind]. apply yields_ok. rewrite (good_location _ _ _ _ Hg), Hid. split; [done|].
  split; [exact (same_set_backward sb (set_forward_code sf c))|].
  exists f', b'. split; [done|]. split; [done|]. eapply good_set_backward; [|done|by rewrite Hsid].
  by eapply good_set_forward.
Qed.
(** * Progress

    The code emitted since a moment in which the codes were [f0] and [b0], and
    [rest] the codes below in the stack. *)
Section Progress.
Context (f0 b0 : ASeq) (rest : list ASeq).

Definition prog (c : Compiler) (F G : list Item) : Prop :=
  exists f b, good c f (b :: rest) /\ a_ext f0 f F /\ a_ext b0 b G.

(** The location after [F] and [G]. *)
Definition loc (F G : list Item) : CodeLoc :=
  {| fwd := sz f0.(a_items) + sz F; bck_seq_id := len rest; bck := sz b0.(a_items) + sz G |}.

Lemma prog_location c F G : prog c F G -> location c = loc F G.
Proof.
  intros (f & b & Hg & Hf & Hb). rewrite (good_location _ _ _ _ Hg). unfold loc.
  by rewrite (a_ext_sz _ _ _ Hf), (a_ext_sz _ _ _ Hb).
Qed.

(** The result of an emission: the location before it, and more code. *)
Definition emitted (c : Compiler) (F G F' G' : list Item) (r : CodeLoc * Compiler) : Prop :=
  let '(l, c') := r in l = loc F G /\ same c c' /\ prog c' (F ++ F') (G ++ G').

Lemma emit_emitted c F G F' G' f1 g1 o1 o2 r1 r2 f b :
  good c f (b :: rest) -> a_ext f0 f F -> a_ext b0 b G ->
  spec_op o1 f r1 -> spec_op o2 b r2 ->
  (forall s, exec_op o1 s = wrap <$> f1 s) -> (forall s, exec_op o2 s = wrap <$> g1 s) ->
  (forall f', r1 = Some f' -> a_ext f f' F') -> (forall b', r2 = Some b' -> a_ext b b' G') ->
  yields (emit_both f1 g1 c) (emitted c F G F' G').
Proof.
  intros Hg Hf Hb H1 H2 E1 E2 HF HG.
  eapply yields_impl; [by eapply (emit_both_yields c f b rest o1 o2)|].
  intros [l c'] (-> & Hs & f' & b' & -> & -> & Hg'). split; [|split; [done|]].
  - apply prog_location. by exists f, b.
  - exists f', b'. split; [done|]. split; [by eapply a_ext_trans; [|apply HF]|by eapply a_ext_trans; [|apply HG]].
Qed.

Lemma prog_plain op c F G :
  prog c F G -> is_Some (plain_instr op) -> yields (emit_instr op c) (emitted c F G [IPlain op] [IPlain op]).
Proof.
  intros (f & b & Hg & Hf & Hb) Hop.
  eapply (emit_emitted c F G _ _ _ _ (OpInstr op) (OpInstr op)); try done; try by apply spec_plain.
  - intros f' [= <-]. by apply a_ext_plain.
  - intros f' [= <-]. by apply a_ext_plain.
Qed.

Lemma prog_jump c F G : prog c F G -> yields (emit_instr Instr.JUMP c) (emitted c F G [IJump 0] [IJump 0]).
Proof.
  intros (f & b & Hg & Hf & Hb).
  eapply (emit_emitted c F G _ _ _ _ (OpInstr Instr.JUMP) (OpInstr Instr.JUMP)); try done; try by apply spec_jump.
  - intros f' [= <-]. by apply a_ext_plain.
  - intros f' [= <-]. by apply a_ext_plain.
Qed.

Lemma prog_split is_a c F G :
  prog c F G -> yields (emit_split is_a c) (emitted c F G [ISplit is_a 0 0] [ISplit is_a 0 0]).
Proof.
  intros (f & b & Hg & Hf & Hb). set (op := if is_a then Instr.SPLIT_A else Instr.SPLIT_B).
  eapply (emit_emitted c F G _ _ _ _ (OpInstr op) (OpInstr op)); try done; try by apply spec_split.
  - intros f' H. by apply (a_ext_split _ _ _ H).
  - intros f' H. by apply (a_ext_split _ _ _ H).
Qed.

Lemma prog_split_n n c F G :
  prog c F G -> is_u8 n ->
  let it := ISplitN 0 (replicate (Z.to_nat n) 0) in yields (emit_split_n n c) (emitted c F G [it] [it]).
Proof.
  intros (f & b & Hg & Hf & Hb) Hn.
  eapply (emit_emitted c F G _ _ _ _ (OpSplitN n) (OpSplitN n)); try done; try by apply spec_split_n.
  - intros f' H. by apply (a_ext_split _ _ _ H).
  - intros f' H. by apply (a_ext_split _ _ _ H).
Qed.

Lemma prog_repeat min max g c F G :
  prog c F G -> is_u32 min -> is_u32 max ->
  let it := IRepeat g 0 min max in yields (emit_repeat min max g c) (emitted c F G [it] [it]).
Proof.
  intros (f & b & Hg & Hf & Hb) Hmin Hmax.
  eapply (emit_emitted c F G _ _ _ _ (OpRepeat min max g) (OpRepeat min max g)); try done; try by apply spec_repeat.
  - intros f' [= <-]. by apply a_ext_plain.
  - intros f' [= <-]. by apply a_ext_plain.
Qed.

Lemma prog_masked_byte x c F G :
  prog c F G -> is_u8 x.(hb_value) -> is_u8 x.(hb_mask) ->
  let it := IMasked x.(hb_value) x.(hb_mask) in yields (emit_masked_byte x c) (emitted c F G [it] [it]).
Proof.
  intros (f & b & Hg & Hf & Hb) Hv Hm.
  eapply (emit_emitted c F G _ _ _ _ (OpMaskedByte x) (OpMaskedByte x)); try done; try by apply spec_masked_byte.
  - intros f' [= <-]. by apply a_ext_plain.
  - intros f' [= <-]. by apply a_ext_plain.
Qed.

Lemma prog_class rs c F G :
  prog c F G -> canonical rs -> yields (emit_class rs c) (emitted c F G [IClass rs] [IClass rs]).
Proof.
  intros (f & b & Hg & Hf & Hb) Hc.
  eapply (emit_emitted c F G _ _ _ _ (OpClass rs) (OpClass rs)); try done; try by apply spec_class.
  - intros f' [= <-]. by apply a_ext_plain.
  - intros f' [= <-]. by apply a_ext_plain.
Qed.

Lemma a_ext_literal a lit : a_ext a (a_append a (IByte <$> lit)) (IByte <$> lit).
Proof.
  assert (IByte <$> lit = erase <$> (IByte <$> lit)) as E by by rewrite <- list_fmap_compose.
  rewrite E at 2. apply a_ext_plain. clear E. by induction lit.
Qed.

Lemma prog_literal lit c F G :
  prog c F G -> Forall is_u8 lit ->
  yields (emit_literal lit c) (emitted c F G (IByte <$> lit) (IByte <$> reverse lit)).
Proof.
  intros (f & b & Hg & Hf & Hb) Hl.
  eapply (emit_emitted c F G _ _ _ _ (OpLiteral lit) (OpLiteral (reverse lit))); try done.
  - by apply spec_literal.
  - apply spec_literal. by apply Forall_reverse.
  - intros f' [= <-]. apply a_ext_literal.
  - intros f' [= <-]. apply a_ext_literal.
Qed.

(** ** Patches *)

Lemma set_offset_erase x it o it1 :
  erase x = it -> set_offset it o = Some it1 -> exists x', set_offset x o = Some x' /\ erase x' = it1.
Proof. destruct x; intros <-; cbn [erase set_offset]; try done; intros [= <-]; by eexists. Qed.

(** An instruction of the code emitted is replaced by another one with the same
    identifier. *)
Lemma a_ext_replace f0' a F1 it F2 :
  a_ext f0' a (F1 ++ it :: F2) ->
  exists P x Q, a.(a_items) = P ++ x :: Q /\ erase x = it /\ sz P = sz f0'.(a_items) + sz F1 /\
    forall x', item_split_id x' = item_split_id x ->
      a_ext f0' {| a_items := P ++ x' :: Q; a_split_id := a.(a_split_id) |} (F1 ++ erase x' :: F2).
Proof.
  intros (l & Hl & He & H3 & H4 & H5). apply fmap_app_inv in He as (l1 & l2 & E1 & He & ->).
  destruct l2 as [|x l2]; [done|]. cbn in He. injection He as -> ->. subst F1.
  exists (a_items f0' ++ l1), x, l2. rewrite Hl, <- app_assoc. split; [done|]. split; [done|].
  split; [by rewrite sz_app, sz_erase|]. intros x' Hx'. exists (l1 ++ x' :: l2). cbn [a_items a_split_id].
  rewrite <- app_assoc, fmap_app. split_and!; try done.
  - by rewrite omap_app in *; cbn [omap list_omap] in *; rewrite Hx'.
  - by rewrite omap_app in *; cbn [omap list_omap] in *; rewrite Hx'.
Qed.

Lemma offset_try_from_i32 v o : offset_try_from v = Some o -> o = v /\ is_i32 v.
Proof.
  unfold offset_try_from, i32_MIN, i32_MAX, is_i32. destruct (_ && _) eqn:E; [|done]. intros [= <-]. bools. lia.
Qed.

Lemma patch_one s a f0' F1 it F2 offset it1 :
  represents s a -> a_ext f0' a (F1 ++ it :: F2) -> is_i32 offset -> set_offset it offset = Some it1 ->
  exists s' a', PikeSeq.patch_instr (sz f0'.(a_items) + sz F1) offset s = Ret s' /\ represents s' a' /\
    a_ext f0' a' (F1 ++ it1 :: F2) /\ s'.(seq_id) = s.(seq_id).
Proof.
  intros Hs Ha Ho Hset. destruct (a_ext_replace _ _ _ _ _ Ha) as (P & x & Q & HP & Hx & Hsz & Hrep).
  destruct (set_offset_erase x it offset it1 Hx Hset) as (x' & Hx' & <-).
  pose proof (spec_patch P x x' Q offset a HP Ho Hx') as Hop.
  destruct (exec_op_refines _ _ _ _ Hs Hop) as (out & Hout & Hr). pose proof (exec_op_id (OpPatch (len (enc_items P)) offset) s) as Hid.
  rewrite Hout in Hid. cbn [exec_op] in Hout. unfold sz in Hsz. rewrite Hsz in Hout. change (len (enc_items ?l)) with (sz l) in Hout.
  destruct (PikeSeq.patch_instr _ _ _) as [s'| |]; cbn in Hout; try done. injection Hout as <-.
  destruct Hr as [Hr _]. exists s'. eexists. split; [done|]. split; [exact Hr|]. split; [|by apply (Hid s' None)].
  apply Hrep. by eapply set_offset_id.
Qed.

Lemma patch_split_n_one s a f0' F1 offs' F2 offs :
  represents s a -> a_ext f0' a (F1 ++ ISplitN 0 offs' :: F2) -> Forall is_i32 offs -> len offs = len offs' ->
  exists s' a', PikeSeq.patch_split_n (sz f0'.(a_items) + sz F1) offs s = Ret s' /\ represents s' a' /\
    a_ext f0' a' (F1 ++ ISplitN 0 offs :: F2) /\ s'.(seq_id) = s.(seq_id).
Proof.
  intros Hs Ha Ho Hl. destruct (a_ext_replace _ _ _ _ _ Ha) as (P & x & Q & HP & Hx & Hsz & Hrep).
  destruct x as [| | | | |id offs''| |]; try done. cbn in Hx. injection Hx as ->.
  pose proof (spec_patch_split_n P id offs' Q offs a HP Ho Hl) as Hop.
  destruct (exec_op_refines _ _ _ _ Hs Hop) as (out & Hout & Hr). pose proof (exec_op_id (OpPatchSplitN (len (enc_items P)) offs) s) as Hid.
  rewrite Hout in Hid. cbn [exec_op] in Hout. unfold sz in Hsz. rewrite Hsz in Hout. change (len (enc_items ?l)) with (sz l) in Hout.
  destruct (PikeSeq.patch_split_n _ _ _) as [s'| |]; cbn in Hout; try done. injection Hout as <-.
  destruct Hr as [Hr _]. exists s'. eexists. split; [done|]. split; [exact Hr|]. split; [|by apply (Hid s' None)].
  by apply (Hrep (ISplitN id offs)).
Qed.

Lemma prog_patch c F1 it F2 G1 it' G2 F3 G3 it1 it2 :
  prog c (F1 ++ it :: F2) (G1 ++ it' :: G2) ->
  set_offset it (sz F3 - sz F1) = Some it1 -> set_offset it' (sz G3 - sz G1) = Some it2 ->
  yields (patch_to (loc F1 G1) (loc F3 G3) c) (fun c' => same c c' /\ prog c' (F1 ++ it1 :: F2) (G1 ++ it2 :: G2)).
Proof.
  intros (f & b & Hg & Hf & Hb) H1 H2. unfold patch_to, loc_sub, loc. cbn [fwd bck_seq_id bck].
  rewrite Z.eqb_refl. cbn [assert mbind res_bind].
  replace (sz (a_items f0) + sz F3 - (sz (a_items f0) + sz F1)) with (sz F3 - sz F1) by lia.
  replace (sz (a_items b0) + sz G3 - (sz (a_items b0) + sz G1)) with (sz G3 - sz G1) by lia.
  destruct (offset_try_from (sz F3 - sz F1)) as [fo|] eqn:Ef; [|left; by exists TooLarge].
  destruct (offset_try_from (sz G3 - sz G1)) as [bo|] eqn:Eb; [|left; by exists TooLarge].
  apply offset_try_from_i32 in Ef as [-> Hof]. apply offset_try_from_i32 in Eb as [-> Hob].
  unfold patch_instr. cbn [and_then ok mbind res_bind fwd bck o_fwd o_bck].
  destruct (good_backs _ _ _ _ Hg) as (t & _ & Hrb & _ & Hid & _).
  destruct (patch_one _ _ _ _ _ _ _ _ (g_fwd _ _ _ Hg) Hf Hof H1) as (sf & f' & -> & Hsf & Hf' & _).
  destruct (patch_one _ _ _ _ _ _ _ _ Hrb Hb Hob H2) as (sb & b' & -> & Hsb & Hb' & Hsid).
  apply yields_ok. split; [exact (same_set_backward sb (set_forward_code sf c))|].
  exists f', b'. split; [|done]. eapply good_set_backward; [by eapply good_set_forward|done|by rewrite Hsid].
Qed.

Lemma prog_patch_split_n c F1 offs F2 G1 offs' G2 os :
  prog c (F1 ++ ISplitN 0 offs :: F2) (G1 ++ ISplitN 0 offs' :: G2) ->
  Forall is_i32 (o_fwd <$> os) -> Forall is_i32 (o_bck <$> os) -> len os = len offs -> len os = len offs' ->
  yields (patch_split_n (loc F1 G1) os c)
    (fun c' => same c c' /\ prog c' (F1 ++ ISplitN 0 (o_fwd <$> os) :: F2) (G1 ++ ISplitN 0 (o_bck <$> os) :: G2)).
Proof.
  intros (f & b & Hg & Hf & Hb) H1 H2 L1 L2. unfold patch_split_n, loc. cbn [fwd bck].
  destruct (good_backs _ _ _ _ Hg) as (t & _ & Hrb & _ & Hid & _).
  destruct (patch_split_n_one _ _ _ _ _ _ (o_fwd <$> os) (g_fwd _ _ _ Hg) Hf H1) as (sf & f' & -> & Hsf & Hf' & _);
    [by rewrite len_map|].
  destruct (patch_split_n_one _ _ _ _ _ _ (o_bck <$> os) Hrb Hb H2) as (sb & b' & -> & Hsb & Hb' & Hsid);
    [by rewrite len_map|].
  apply yields_ok. split; [exact (same_set_backward sb (set_forward_code sf c))|].
  exists f', b'. split; [|done]. eapply good_set_backward; [by eapply good_set_forward|done|by rewrite Hsid].
Qed.
(** ** Copies *)

(** The part [G1] of the code emitted since [a0]. *)
Lemma a_ext_part a0 a G0 G1 G2 :
  a_ext a0 a (G0 ++ G1 ++ G2) ->
  exists P l Q, a.(a_items) = P ++ l ++ Q /\ erase <$> l = G1 /\ sz P = sz a0.(a_items) + sz G0.
Proof.
  intros (l & Hl & He & _). apply fmap_app_inv in He as (l0 & l' & -> & He & ->).
  apply eq_sym, fmap_app_inv in He as (l1 & l2 & -> & -> & ->).
  exists (a_items a0 ++ l0), l1, l2. rewrite Hl, <- !app_assoc. split_and!; try done. by rewrite sz_app, sz_erase.
Qed.

Lemma clone_one s a a0 G0 G1 G2 :
  represents s a -> a_ext a0 a (G0 ++ G1 ++ G2) ->
  let start := sz a0.(a_items) + sz G0 in
  PikeSeq.emit_clone start (start + sz G1) s = Ret (inl TooLarge) \/
  exists s' a', PikeSeq.emit_clone start (start + sz G1) s = Ret (inr (s', sz a.(a_items))) /\
    represents s' a' /\ a_ext a0 a' ((G0 ++ G1 ++ G2) ++ G1) /\ s'.(seq_id) = s.(seq_id).
Proof.
  intros Hs Ha start. destruct (a_ext_part _ _ _ _ _ Ha) as (P & l & Q & HP & Hl & Hsz).
  pose proof (spec_clone P l Q a HP) as Hop.
  destruct (run_op _ (fun s => PikeSeq.emit_clone start (start + sz G1) s) s a _ Hs Hop) as [(_ & ->)|(a' & s' & Ha' & -> & Hr & Hid)].
  - cbn [exec_op]. change (len (enc_items ?x)) with (sz x). rewrite sz_app. subst start. rewrite <- Hsz, <- Hl, sz_erase.
    destruct (PikeSeq.emit_clone _ _ _) as [[e|[s' x]]| |]; done.
  - by left.
  - right. exists s', a'. split; [done|]. split; [done|]. split; [|done]. eapply a_ext_trans; [exact Ha|].
    rewrite <- Hl. apply a_ext_copy; [done|]. apply (rep_bound _ _ Hs).
Qed.

Lemma prog_clone c F0 F1 F2 G0 G1 G2 :
  prog c (F0 ++ F1 ++ F2) (G0 ++ G1 ++ G2) ->
  yields (emit_clone (loc F0 G0) (loc (F0 ++ F1) (G0 ++ G1)) c)
    (emitted c (F0 ++ F1 ++ F2) (G0 ++ G1 ++ G2) F1 G1).
Proof.
  intros Hp. pose proof (prog_location _ _ _ Hp) as Hloc. destruct Hp as (f & b & Hg & Hf & Hb).
  unfold emit_clone. cbn [loc bck_seq_id bck fwd]. rewrite Z.eqb_refl. cbn [assert mbind res_bind].
  destruct (good_backs _ _ _ _ Hg) as (t & _ & Hrb & _ & Hid & _). rewrite Hid, Z.eqb_refl.
  rewrite !sz_app, !Z.add_assoc.
  destruct (clone_one _ _ _ _ _ _ Hrb Hb) as [->|(sb & b' & -> & Hsb & Hb' & Hsid)]; [left; by exists TooLarge|].
  cbn [and_then mbind res_bind].
  assert (forward_code (set_backward_code sb c) = forward_code c) as ->.
  { unfold set_backward_code. by destruct (backward_code_chunks c). }
  destruct (clone_one _ _ _ _ _ _ (g_fwd _ _ _ Hg) Hf) as [->|(sf & f' & -> & Hsf & Hf' & _)]; [left; by exists TooLarge|].
  cbn [and_then mbind res_bind]. apply yields_ok.
  change (backward_code (set_forward_code sf (set_backward_code sb c))) with (backward_code (set_backward_code sb c)).
  rewrite backward_code_set, Hsid, Hid. split.
  { unfold loc. by rewrite <- (a_ext_sz _ _ _ Hf), <- (a_ext_sz _ _ _ Hb). }
  split; [exact (same_set_backward sb c)|].
  exists f', b'. split; [|done]. eapply good_set_forward; [|done]. eapply good_set_backward; [done|done|by rewrite Hsid].
Qed.

(** The code in the sequence below the top of the stack. *)
Lemma find_chunk_below c t s l :
  backs c = t :: s :: l -> t.(seq_id) <> s.(seq_id) -> find_chunk s.(seq_id) c = s.
Proof.
  unfold backs, find_chunk. intros H Hne. destruct (backward_code_chunks c) as [|x [|y ch]]; cbn in H; [done| |];
    injection H as -> ->; cbn [list_find]; rewrite decide_False by done; cbn [list_find].
  - done.
  - by rewrite decide_True.
Qed.

Lemma prog_clone_below c F0 F1 F2 G P items Q below rest' :
  rest = below :: rest' -> below.(a_items) = P ++ items ++ Q ->
  prog c (F0 ++ F1 ++ F2) G ->
  let start := {| fwd := (loc F0 []).(fwd); bck_seq_id := len rest'; bck := sz P |} in
  let stop := {| fwd := (loc (F0 ++ F1) []).(fwd); bck_seq_id := len rest'; bck := sz P + sz items |} in
  yields (emit_clone start stop c) (emitted c (F0 ++ F1 ++ F2) G F1 (erase <$> items)).
Proof.
  intros Hrest HP Hp. pose proof (prog_location _ _ _ Hp) as Hloc. destruct Hp as (f & b & Hg & Hf & Hb).
  unfold emit_clone. cbn [loc bck_seq_id bck fwd]. rewrite Z.eqb_refl. cbn [assert mbind res_bind].
  destruct (good_backs _ _ _ _ Hg) as (t & Ht & Hrb & Hrt & Hid & Htid). rewrite Hid.
  rewrite Hrest, len_cons in *. pose proof (len_nonneg rest'). rewrite (proj2 (Z.eqb_neq _ _)) by lia.
  rewrite Z.add_comm, seqZ_rev_cons in Htid by done.
  apply Forall2_cons_inv_r in Hrt as (s & t' & Hs & Ht' & ->). cbn in Htid. injection Htid as Hsid Htid.
  rewrite <- Hsid, (find_chunk_below _ _ _ _ Ht) by lia. unfold as_slice. rewrite (rep_code _ _ Hs), HP. cbn [seq_vec].
  assert (get_range (enc_items (P ++ items ++ Q)) (sz P) (sz P + sz items) = Some (enc_items items)) as ->.
  { rewrite !enc_items_app. by apply get_range_mid. }
  cbn [or_panic mbind res_bind].
  assert (Hop : spec_op (OpBytes (enc_items items)) b (a_copy b items)).
  { apply spec_bytes. pose proof (rep_items _ _ Hs) as Ho. rewrite HP in Ho. by apply Forall_app in Ho as [_ [Ho _]%Forall_app]. }
  destruct (run_op _ (emit_bytes (enc_items items)) _ b _ Hrb Hop) as [(_ & ->)|(b' & sb & Hb' & -> & Hsb & Hsbid)].
  { cbn [exec_op]. by destruct (emit_bytes _ _) as [[e|[s' x]]| |]. }
  { left. by exists TooLarge. }
  cbn [and_then mbind res_bind].
  assert (forward_code (set_backward_code sb c) = forward_code c) as ->.
  { unfold set_backward_code. by destruct (backward_code_chunks c). }
  rewrite !sz_app, !Z.add_assoc.
  destruct (clone_one _ _ _ _ _ _ (g_fwd _ _ _ Hg) Hf) as [->|(sf & f' & -> & Hsf & Hf' & _)]; [left; by exists TooLarge|].
  cbn [and_then mbind res_bind]. apply yields_ok.
  change (backward_code (set_forward_code sf (set_backward_code sb c))) with (backward_code (set_backward_code sb c)).
  rewrite backward_code_set, Hsbid, Hid. split.
  { unfold loc. by rewrite <- (a_ext_sz _ _ _ Hf), <- (a_ext_sz _ _ _ Hb), Hrest, len_cons. }
  split; [exact (same_set_backward sb c)|].
  exists f', b'. split; [|split; [done|eapply a_ext_trans; [exact Hb|]]].
  - rewrite Hrest. eapply good_set_forward; [|done]. eapply good_set_backward; [done|done|]. by rewrite Hsbid, Hid, len_cons.
  - apply a_ext_copy; [done|]. apply (rep_bound _ _ Hrb).
Qed.
End Progress.
End Emit.
