(* ===== verification/PikeTraverse.v ===== *)
(** The compiler for the Pike virtual machine emits, for every expression, the
    code of the expression in both directions, and nothing else. A concatenation
    emits the backward code of each expression in a chunk of its own, and the
    chunks are appended in the reverse order. *)

From stdpp Require Import gmap sorting.
From S2P Require Import Prelude.
From S2P Require Import PosSet.
From S2P Require Import Re.
From S2P Require Import Cursor.
From S2P Require Import Atoms.
From S2P Require Import Quality.
From S2P Require Import ByteClass.
From S2P Require Import PikeInstr.
From S2P Require Import PikeSeq.
From S2P Require Import Hir.
From S2P Require Import PikeAtoms.
From S2P Require Import PikeAtomsProps.
From S2P Require Import Visit.
From S2P Require Import PikeCompiler.
From S2P Require Import PikeCodegen.
From S2P Require Import PikeEmit.
#[local] Open Scope try_scope.

Section Chunks.
Context {BS : BitSlice} {BSL : BitSliceLaws}.

(** An empty sequence. *)
Definition fresh (id : SplitId) : ASeq := {| a_items := []; a_split_id := id |}.

(** The next identifier, with the chunks [l] on top of [b]. *)
Definition top_id (l : list ASeq) (b : ASeq) : SplitId :=
  match l with x :: _ => x.(a_split_id) | [] => b.(a_split_id) end.

(** The chunks [l], the last one first, hold the codes [Bs]. *)
Fixpoint stacked (b : ASeq) (l : list ASeq) (Bs : list (list Item)) : Prop :=
  match l, Bs with
  | [], [] => True
  | x :: l, B :: Bs => a_ext (fresh (top_id l b)) x B /\ stacked b l Bs
  | _, _ => False
  end.

(** What the chunks append to the code below them. *)
Definition appended (b : ASeq) (l : list ASeq) : ASeq :=
  {| a_items := b.(a_items) ++ concat (a_items <$> l); a_split_id := top_id l b |}.

Lemma appended_ext b l Bs : stacked b l Bs -> a_ext b (appended b l) (concat Bs).
Proof.
  revert Bs. induction l as [|x l IH]; intros [|B Bs]; cbn [stacked]; try done.
  { intros _. exists []. cbn. split_and!; try done; constructor. }
  intros [(lx & Hx & HB & Hid & Hnd & Hf) (ls & Hl & HBs & Hid' & Hnd' & Hf')%IH].
  cbn in Hx, Hid, Hf. unfold appended in *. cbn [a_items a_split_id top_id] in *.
  apply app_inv_head in Hl. exists (lx ++ ls). cbn [fmap list_fmap concat a_items a_split_id]. rewrite Hl, Hx, fmap_app, HB, HBs, omap_app.
  rewrite Forall_forall in Hf, Hf'. split_and!; try done; [lia| |].
  - apply NoDup_app. split_and!; try done. intros i Hi%Hf Hi'%Hf'. lia.
  - apply Forall_app. split; apply Forall_forall; intros i Hi; [apply Hf in Hi|apply Hf' in Hi]; lia.
Qed.

(** ** A new chunk *)

Lemma represents_fresh s a : represents s a -> represents (instr_seq_next s) (fresh a.(a_split_id)).
Proof. intros [_ Hi _ Hb]. by split. Qed.

Lemma good_start c f b rest :
  good c f (b :: rest) -> len rest + 2 <= usize_MAX ->
  let c' := start_backward_code_chunk c in
  good c' f (fresh b.(a_split_id) :: b :: rest) /\ c'.(bookmarks) = location c :: c.(bookmarks) /\
  c'.(repeats) = c.(repeats) /\ c'.(best_atoms_stack) = c.(best_atoms_stack).
Proof.
  intros Hg Hlen. destruct (good_backs _ _ _ _ Hg) as (t & Ht & Hb & _ & Hid & _).
  destruct Hg as [Hf Hbs Hi Hl]. pose proof (len_nonneg rest). cbn zeta. split; [|done]. split; cbn.
  - done.
  - unfold backs in *. cbn. constructor; [|done]. change (backward_code (push_bookmark (location c) c)) with (backward_code c).
    by apply represents_fresh.
  - unfold backs in *. cbn. change (backward_code (push_bookmark (location c) c)) with (backward_code c). rewrite Hi, Hid.
    unfold wrap_usize. rewrite Z.mod_small by (unfold usize_MAX in Hlen; lia).
    rewrite !len_cons. replace (1 + (1 + len rest)) with ((len rest + 1) + 1) by lia. rewrite (seqZ_rev_cons (len rest + 1)) by lia.
    by rewrite (Z.add_comm 1).
  - rewrite !len_cons in *. lia.
Qed.

(** ** The reversal of the chunks *)

Lemma append_represents s x a b :
  represents s a -> represents x b ->
  represents (append s x) {| a_items := a.(a_items) ++ b.(a_items); a_split_id := a.(a_split_id) |}.
Proof.
  intros [H1 H2 H3 H4] [H1' _ H3' _]. unfold append, put, as_slice, with_seq. split; cbn [seq split_id a_items a_split_id]; try done.
  - rewrite H1, H1'. cbn [seq_vec]. rewrite enc_items_app. apply write_all_cur.
  - by apply Forall_app.
Qed.

(** The location of each chunk has the forward location of its bookmark. *)
Lemma append_chunks_represents (locs : list CodeLoc) (chunks : list InstrSeq) code a l m locations :
  length locs = length chunks -> represents code a -> Forall2 represents chunks l ->
  exists code' m' locations',
    foldl (fun st lc => append_chunk lc st) (code, m, locations) (zip locs chunks) = (code', m', locations') /\
    represents code' {| a_items := a.(a_items) ++ concat (a_items <$> l); a_split_id := a.(a_split_id) |} /\
    code'.(seq_id) = code.(seq_id) /\ fwd <$> locations' = reverse (fwd <$> locs) ++ (fwd <$> locations) /\
    (Forall (fun x => x.(bck_seq_id) = code.(seq_id)) locations -> Forall (fun x => x.(bck_seq_id) = code.(seq_id)) locations') /\
    (forall id, is_Some (m !! id) \/ id ∈ seq_id <$> chunks -> is_Some (m' !! id)).
Proof.
  intros Hlen Hc Hl. revert locs code a m locations Hlen Hc.
  induction Hl as [|x ax chunks l Hx Hl IH]; intros [|loc locs] code a m locations Hlen Hc; try done.
  { cbn [zip zip_with foldl]. do 3 eexists. split; [done|]. cbn [fmap list_fmap concat]. rewrite app_nil_r.
    split_and!; try done; [by destruct a|]. intros id [?|[]%not_elem_of_nil]; done. }
  cbn [zip zip_with foldl append_chunk].
  destruct (IH locs (append code x) {| a_items := a.(a_items) ++ ax.(a_items); a_split_id := a.(a_split_id) |}
              (<[seq_id x := PikeSeq.location code]> m)
              (with_bck loc (append code x).(seq_id) (PikeSeq.location (append code x)) :: locations))
    as (code' & m' & ls' & -> & Hr & Hid & Hls & Hids & Hkeys); [by injection Hlen|by apply append_represents|].
  do 3 eexists. split; [done|]. cbn [a_items a_split_id] in Hr. rewrite <- app_assoc in Hr. split; [exact Hr|]. split; [done|].
  split; [|split].
  - rewrite Hls. cbn [fmap list_fmap with_bck fwd]. by rewrite reverse_cons, <- app_assoc.
  - intros HF. apply Hids. by constructor.
  - intros id Hk. apply Hkeys. cbn [fmap list_fmap] in Hk. rewrite elem_of_cons in Hk.
    destruct (decide (id = seq_id x)) as [->|Hne]; [left; rewrite lookup_insert_eq; by eexists|].
    rewrite lookup_insert_ne by congruence. naive_solver.
Qed.

Lemma represents_with_split_id s a x a' :
  represents s a -> represents x a' ->
  represents (with_split_id s x.(split_id)) {| a_items := a.(a_items); a_split_id := a'.(a_split_id) |}.
Proof. intros [H1 H2 H3 H4] [_ H2' _ H4']. by split. Qed.

(** Without the chunks on top. *)
Definition without_chunks (n : nat) (c : Compiler) : Compiler :=
  set_code c.(forward_code) c.(main_backward_code) (drop n c.(backward_code_chunks)) c.

Lemma good_length c f bs : good c f bs -> length bs = S (length c.(backward_code_chunks)).
Proof.
  intros [_ Hb _ _]. apply Forall2_length in Hb. unfold backs in Hb. rewrite length_app in Hb. cbn in Hb. lia.
Qed.

(** The chunks on top have the last identifiers. *)
Lemma good_chunk_ids c f l b rest id :
  good c f (l ++ b :: rest) -> len rest < id <= len l + len rest -> id ∈ seq_id <$> take (length l) c.(backward_code_chunks).
Proof.
  intros Hg Hid. pose proof (good_length _ _ _ Hg) as Hlen. destruct Hg as [_ Hb Hi _]. unfold backs in *.
  set (i := Z.to_nat (len l + len rest - id)).
  assert (Hn : length (backward_code_chunks c) = (length l + length rest)%nat) by (rewrite length_app in Hlen; cbn in Hlen; lia).
  assert (Hlook : (seq_id <$> backward_code_chunks c ++ [main_backward_code c]) !! i = Some id).
  { rewrite Hi. rewrite reverse_lookup by (rewrite length_seqZ, len_app, len_cons; unfold len in *; lia).
    rewrite length_seqZ, lookup_seqZ, len_app, len_cons. unfold len in *. lia. }
  rewrite list_lookup_fmap in Hlook. destruct (_ !! i) as [x|] eqn:E; [|done]. injection Hlook as <-.
  rewrite lookup_app_l in E by (unfold len in *; lia). apply list_elem_of_fmap_2.
  apply list_elem_of_lookup_2 with i. rewrite lookup_take_lt; [done|unfold len in *; lia].
Qed.

Lemma good_drop c f l bs :
  good c f (l ++ bs) -> bs <> [] ->
  good (without_chunks (length l) c) f bs /\ Forall2 represents (take (length l) c.(backward_code_chunks)) l /\
  (length l <= length c.(backward_code_chunks))%nat.
Proof.
  intros Hg Hne. pose proof (good_length _ _ _ Hg) as Hlen. rewrite length_app in Hlen.
  assert (length bs <> 0%nat) by (by destruct bs). assert (Hle : (length l <= length (backward_code_chunks c))%nat) by lia.
  destruct Hg as [Hf Hb Hi Hl]. unfold backs in *.
  apply Forall2_app_inv_r in Hb as (k1 & k2 & H1 & H2 & Hk). pose proof (Forall2_length _ _ _ H1) as Hl1.
  assert (k1 = take (length l) (backward_code_chunks c)) as E1.
  { apply (f_equal (take (length l))) in Hk. rewrite take_app_le in Hk by done. rewrite Hk, <- Hl1. by rewrite take_app_length. }
  assert (k2 = drop (length l) (backward_code_chunks c) ++ [main_backward_code c]) as E2.
  { apply (f_equal (drop (length l))) in Hk. rewrite drop_app_le in Hk by done. by rewrite Hk, <- Hl1, drop_app_length. }
  split; [|split; [by rewrite <- E1|done]]. split; cbn; unfold backs; cbn.
  - done.
  - by rewrite <- E2.
  - rewrite <- E2. rewrite Hk in Hi. rewrite fmap_app, len_app, Z.add_comm, seqZ_app, reverse_app in Hi by apply len_nonneg.
    apply app_inj_1 in Hi as [_ Hi]; [done|].
    rewrite length_fmap, length_reverse, length_seqZ, Hl1. unfold len. lia.
  - rewrite len_app in Hl. pose proof (len_nonneg l). lia.
Qed.

Lemma good_reverse c f l b rest Bs locs bm :
  good c f (l ++ b :: rest) -> stacked b l Bs -> c.(bookmarks) = locs ++ bm -> length locs = length l ->
  c.(best_atoms_stack) <> [] ->
  exists locations c' best stack g,
    reverse_backward_code_chunks (length l) c = ok (locations, c') /\
    good c' f (appended b l :: rest) /\ c'.(bookmarks) = bm /\ c'.(repeats) = c.(repeats) /\
    fwd <$> locations = reverse (fwd <$> locs) /\ Forall (fun x => x.(bck_seq_id) = len rest) locations /\
    c.(best_atoms_stack) = best :: stack /\ c'.(best_atoms_stack) = map_locs g best :: stack /\
    forall x, 0 <= x.(bck_seq_id) <= len l + len rest -> 0 <= (g x).(bck_seq_id) <= len rest.
Proof.
  intros Hg Hst Hbm Hlocs Hbest. destruct (good_drop _ _ _ _ Hg) as (Hg1 & Hl & Hle); [done|].
  unfold reverse_backward_code_chunks. rewrite (bool_decide_true _ Hle). cbn [assert mbind res_bind].
  fold (without_chunks (length l) c). cbn [bookmarks without_chunks set_code].
  rewrite Hbm, bool_decide_true by (rewrite length_app; lia). cbn [assert mbind res_bind].
  assert (take (length l) (locs ++ bm) = locs) as -> by (rewrite <- Hlocs; apply take_app_length).
  assert (drop (length l) (locs ++ bm) = bm) as -> by (rewrite <- Hlocs; apply drop_app_length).
  destruct (good_backs _ _ _ _ Hg1) as (t & _ & Hb & _ & Hid & _).
  set (code := match head _ with Some _ => _ | None => _ end).
  assert (Hcode : represents code {| a_items := b.(a_items); a_split_id := top_id l b |} /\ code.(seq_id) = len rest).
  { subst code. destruct Hl as [|x ax chunks l Hx _]; cbn [head].
    - split; [by destruct b|done].
    - split; [by apply (represents_with_split_id _ b _ ax)|done]. }
  destruct Hcode as [Hcode Hcid].
  destruct (append_chunks_represents locs (take (length l) (backward_code_chunks c)) code _ l ∅ [] ltac:(by rewrite Hlocs, (Forall2_length _ _ _ Hl)) Hcode Hl)
    as (code' & m & ls & -> & Hr & Hid' & Hls & Hids & Hkeys).
  rewrite app_nil_r in Hls. cbn [a_items a_split_id] in Hr.
  pose proof (good_set_backward _ _ _ _ code' (appended b l) Hg1 Hr) as Hg2. rewrite Hid', Hcid in Hg2.
  specialize (Hg2 eq_refl). unfold update_best_atoms.
  assert (Hsb : best_atoms_stack (set_backward_code code' (set_bookmarks bm (without_chunks (length l) c))) = best_atoms_stack c).
  { apply (same_set_backward code' (set_bookmarks bm (without_chunks (length l) c))). }
  rewrite Hsb. destruct (best_atoms_stack c) as [|best stack] eqn:Eb; [done|]. cbn [and_then ok mbind res_bind].
  do 5 eexists. split; [done|].
  destruct (same_set_backward code' (set_bookmarks bm (without_chunks (length l) c))) as (S1 & S2 & _).
  unfold set_best_atoms. cbn [bookmarks repeats best_atoms_stack]. rewrite S1, S2.
  split_and!; try done.
  - eapply good_code; [|exact Hg2]. unfold set_backward_code, without_chunks.
    cbn [backward_code_chunks set_bookmarks set_code]. by destruct (drop _ _).
  - rewrite <- Hcid. by apply Hids.
  - intros x Hx. unfold adjust_chunk_loc. pose proof (len_nonneg rest). rewrite Hid', Hcid.
    destruct (m !! bck_seq_id x) as [adj|] eqn:Em; cbn [with_bck bck_seq_id]; [lia|].
    destruct (decide (bck_seq_id x <= len rest)) as [|Hgt]; [lia|]. exfalso.
    destruct (Hkeys (bck_seq_id x)) as [y Hy]; [|congruence]. right. eapply good_chunk_ids; [exact Hg|lia].
Qed.
End Chunks.

Section Traversal.
Context {BS : BitSlice} {BSL : BitSliceLaws} {B : Type} {BV : BitVec B} {BL : BitVecLaws B}.
Context {LS : LiteralSyntax} {LL : LiteralLaws}.

(** * Atoms

    The choice of the best atoms does not panic and leaves the code alone. The
    atoms refer to backward code that is still there: the sequence of a
    location is among the first [n + 1]. *)

Definition loc_within (n : Z) (l : CodeLoc) : Prop := 0 <= l.(bck_seq_id) <= n.

Definition bounded_atoms (n : Z) (a : RegexpAtoms) : Prop :=
  len a.(ra_atoms) <= MAX_ATOMS_PER_REGEXP /\ Forall (fun x => loc_within n x.(la_loc)) a.(ra_atoms).

Definition atoms_within (n : Z) (c : Compiler) : Prop :=
  c.(best_atoms_stack) <> [] /\ Forall (bounded_atoms n) c.(best_atoms_stack).

(** The height of the stack of atoms, and what is under its top. *)
Definition under (c : Compiler) : nat * list RegexpAtoms := (length c.(best_atoms_stack), tail c.(best_atoms_stack)).

Lemma bounded_grow n k a : n <= k -> bounded_atoms n a -> bounded_atoms k a.
Proof. intros Hk [H1 H2]. split; [done|]. eapply Forall_impl; [exact H2|]. unfold loc_within. cbn. lia. Qed.

Lemma atoms_grow n k c : n <= k -> atoms_within n c -> atoms_within k c.
Proof. intros Hk [H1 H2]. split; [done|]. eapply Forall_impl; [exact H2|]. intros a. by apply bounded_grow. Qed.

Lemma under_length c c' : under c' = under c -> length c'.(best_atoms_stack) = length c.(best_atoms_stack).
Proof. by intros [= ? _]. Qed.

Lemma under_stack c c' : c'.(best_atoms_stack) = c.(best_atoms_stack) -> under c' = under c.
Proof. unfold under. by intros ->. Qed.

(** The stacks are the same under the top of the atoms, and the atoms are still
    not too many. *)
Definition kept_within (n : Z) (c c' : Compiler) : Prop :=
  c'.(bookmarks) = c.(bookmarks) /\ c'.(repeats) = c.(repeats) /\
  under c' = under c /\ (atoms_within n c -> atoms_within n c').

Definition quiet (n : Z) (c c' : Compiler) : Prop := code_of c' = code_of c /\ kept_within n c c'.

Lemma kept_refl n c : kept_within n c c.
Proof. done. Qed.

Lemma kept_trans n c c' c'' : kept_within n c c' -> kept_within n c' c'' -> kept_within n c c''.
Proof. intros (H1 & H2 & H3 & H4) (H1' & H2' & H3' & H4'). split_and!; [congruence..|auto]. Qed.

Lemma atoms_same n c c' : c'.(best_atoms_stack) = c.(best_atoms_stack) -> atoms_within n c -> atoms_within n c'.
Proof. unfold atoms_within. by intros ->. Qed.

Lemma same_kept n c c' : same c c' -> kept_within n c c'.
Proof. intros (H1 & H2 & H3). split_and!; try done; [by apply under_stack|by apply atoms_same]. Qed.

Lemma quiet_refl n c : quiet n c c.
Proof. done. Qed.

Lemma prog_code f0 b0 rest c c' F G : code_of c' = code_of c -> prog f0 b0 rest c F G -> prog f0 b0 rest c' F G.
Proof. intros Hc (f & b & Hg & H). exists f, b. split; [by eapply good_code|done]. Qed.

Lemma update_best_quiet n f c :
  atoms_within n c -> (forall a, bounded_atoms n a -> bounded_atoms n (f a)) -> yields (update_best_atoms f c) (quiet n c).
Proof.
  intros [Hne Hb] Hf. unfold update_best_atoms. destruct (best_atoms_stack c) as [|best stack] eqn:E; [done|].
  apply yields_ok. split; [done|]. split; [done|]. split; [done|]. unfold under. cbn. rewrite E. split; [done|]. intros _.
  split; [done|]. cbn. apply Forall_cons in Hb as [Hb Hs]. constructor; [by apply Hf|done].
Qed.

Lemma map_locs_bounded n k g a :
  (forall x, loc_within n x -> loc_within k (g x)) -> bounded_atoms n a -> bounded_atoms k (map_locs g a).
Proof.
  unfold bounded_atoms, map_locs. cbn [ra_atoms]. rewrite len_map. intros Hg [H1 H2]. split; [done|].
  apply Forall_fmap. eapply Forall_impl; [exact H2|]. cbn. auto.
Qed.

(** After the chunks are appended. *)
Lemma reversed_atoms n k c c' best stack g :
  c.(best_atoms_stack) = best :: stack -> c'.(best_atoms_stack) = map_locs g best :: stack ->
  (forall x, loc_within n x -> loc_within k (g x)) -> atoms_within n c -> Forall (bounded_atoms k) stack ->
  under c' = under c /\ atoms_within k c'.
Proof.
  intros E E' Hg [_ Hb] Hs. unfold under, atoms_within. rewrite E in *. rewrite E'. apply Forall_cons in Hb as [Hb _].
  split; [done|]. split; [done|]. constructor; [by eapply map_locs_bounded|done].
Qed.

(** What is under the top of the atoms. *)
Lemma under_bounded n c c' : under c' = under c -> atoms_within n c -> Forall (bounded_atoms n) (tail c'.(best_atoms_stack)).
Proof.
  intros [= _ ->] [Hne Hb]. destruct (best_atoms_stack c); [done|]. by apply Forall_cons in Hb as [_ ?].
Qed.

Lemma finish_quiet n h (atoms : option (list Atom)) loc c :
  atoms_within n c -> loc_within n loc -> (forall l, atoms = Some l -> Forall atom_small l /\ len l <= MAX_ATOMS_PER_REGEXP) ->
  yields (finish_node h atoms loc c) (quiet n c).
Proof.
  intros Hc Hloc Ha. unfold finish_node. destruct atoms as [[|a l]|]; try by apply yields_ok, quiet_refl.
  destruct (Ha (a :: l) eq_refl) as [Hs Hl]. set (atoms := if (_ : bool) then a :: l else _).
  assert (H : Forall atom_small atoms /\ len atoms <= MAX_ATOMS_PER_REGEXP).
  { subst atoms. case_match; [done|]. split.
    - apply Forall_forall. intros x. rewrite elem_of_atoms_dedup. unfold atoms_sort. rewrite merge_sort_Permutation.
      rewrite list_elem_of_fmap. intros (y & -> & Hy). rewrite Forall_forall in Hs. by apply Hs in Hy.
    - pose proof (atoms_dedup_length (atoms_sort (make_inexact <$> a :: l))) as Hd. unfold atoms_sort in Hd at 2.
      rewrite merge_sort_Permutation, length_fmap in Hd. unfold len in *. lia. }
  destruct H as [H1 H2]. destruct (from_atoms_small atoms H1) as [q ->]. cbn [mbind res_bind].
  apply update_best_quiet; [done|]. intros best Hb. destruct (quality_cmp _ _); try done.
  unfold bounded_atoms. cbn [ra_atoms]. rewrite len_map. split; [done|]. by apply Forall_fmap, Forall_true.
Qed.

Lemma extract_quiet n h loc c : atoms_within n c -> loc_within n loc -> hir_wf h -> yields (extract_node h loc c) (quiet n c).
Proof.
  intros Hc Hloc Hh. unfold extract_node. destruct (0 <? _); [by apply yields_ok, quiet_refl|].
  apply finish_quiet; [done|done|]. intros l Hl. by eapply seq_to_atoms_small; [apply extract_spec|].
Qed.

(** The sequences of a concatenation. *)
Lemma best_seq_small i seqs locations best :
  Forall seq_small seqs -> 0 <= i -> i + len seqs <= len locations ->
  (forall l, fst (fst best) = Some l -> Forall atom_small l /\ len l <= MAX_ATOMS_PER_REGEXP) ->
  exists atoms q loc, best_seq i seqs locations best = Ret (atoms, q, loc) /\ (loc = snd best \/ loc ∈ locations) /\
    forall l, atoms = Some l -> Forall atom_small l /\ len l <= MAX_ATOMS_PER_REGEXP.
Proof.
  revert i best. induction seqs as [|s seqs IH]; intros i best Hs Hi Hlen Hb; cbn [best_seq].
  { destruct best as [[atoms q] loc]. exists atoms, q, loc. split; [done|]. split; [by left|done]. }
  rewrite len_cons in Hlen. pose proof (len_nonneg seqs). pose proof Hs as [_ Hs']%Forall_cons.
  destruct (concat_seq (s :: seqs)) as [cs|] eqn:Ecs; cbn [mbind res_bind]; [|apply IH; [done|lia|lia|done]].
  pose proof (concat_seq_small _ _ Hs Ecs) as Hcs.
  set (t := if 0 <? i then seq_make_inexact cs else cs).
  assert (Ht : seq_small t).
  { subst t. destruct (0 <? i); [|done]. destruct Hcs as [H1 H2]. pose proof (seq_make_inexact_spec cs) as He. split.
    - change (Forall ((fun bs => Forall is_u8 bs /\ len bs <= DESIRED_ATOM_SIZE) ∘ lit_bytes) (lits (seq_make_inexact cs))).
      rewrite <- Forall_fmap, He, Forall_fmap. exact H1.
    - by rewrite (lits_bytes_len _ _ He). }
  destruct (from_seq_small t Ht) as [q ->]. cbn [mbind res_bind].
  destruct (quality_cmp q _); cbn [mbind res_bind]; try (apply IH; [done|lia|lia|done]).
  destruct (get_is_Some locations i) as [loc Hloc]; [lia|]. rewrite Hloc. cbn [or_panic mbind res_bind].
  destruct (IH (i + 1) (seq_to_atoms t, q, loc)) as (atoms & q' & loc' & E & Hl' & Ha); [done|lia|lia| |].
  { cbn [fst]. intros l Hl. by eapply seq_to_atoms_small. }
  exists atoms, q', loc'. split; [exact E|]. split; [|done]. right. destruct Hl' as [->|?]; [|done].
  apply elem_of_get. by exists i.
Qed.

(** * Repetitions *)

Section Repetitions.
Context (f0 b0 : ASeq) (rest : list ASeq).
Local Notation prog := (prog f0 b0 rest).
Local Notation loc := (loc f0 b0 rest).
Local Notation atoms_ok := (atoms_within (len rest)).

(** The bookmarks that are left. *)
Definition popped (bm : list CodeLoc) (c c' : Compiler) : Prop :=
  c'.(bookmarks) = bm /\ c'.(repeats) = c.(repeats) /\ under c' = under c /\ (atoms_ok c -> atoms_ok c').

Lemma popped_kept bm c c' c'' : popped bm c c' -> kept_within (len rest) c' c'' -> popped bm c c''.
Proof. intros (H1 & H2 & H3 & H4) (H1' & H2' & H3' & H4'). split_and!; [congruence..|auto]. Qed.

Lemma popped_same bm c c' c'' : popped bm c c' -> same c' c'' -> popped bm c c''.
Proof. intros H Hs. by eapply popped_kept, same_kept. Qed.

Lemma popped_push l bm c c' : popped bm c c' -> popped (l :: bm) c (push_bookmark l c').
Proof. intros (<- & H2 & H3 & H4). split_and!; try done. Qed.

Lemma popped_pop l bm c c' : popped (l :: bm) c c' -> popped bm c (set_bookmarks bm c').
Proof. intros (H1 & H2 & H3 & H4). split_and!; try done. Qed.

Lemma popped_set bm c : popped bm c (set_bookmarks bm c).
Proof. done. Qed.

Lemma prog_eq c F G F' G' : prog c F G -> F = F' -> G = G' -> prog c F' G'.
Proof. by intros H <- <-. Qed.

Lemma pop_bookmark_cons l bm c : c.(bookmarks) = l :: bm -> pop_bookmark c = ok (l, set_bookmarks bm c).
Proof. unfold pop_bookmark. by intros ->. Qed.

Lemma prog_bookmarks bm c F G : prog c F G -> prog (set_bookmarks bm c) F G.
Proof. by apply prog_code. Qed.

(** A patch of the last instruction, and of the first one. *)
Lemma patch_offset c F1 it F2 G1 it' G2 F3 G3 l target o o' it1 it2 :
  prog c (F1 ++ it :: F2) (G1 ++ it' :: G2) -> l = loc F1 G1 -> target = loc F3 G3 ->
  sz F3 - sz F1 = o -> sz G3 - sz G1 = o' -> set_offset it o = Some it1 -> set_offset it' o' = Some it2 ->
  yields (patch_to l target c) (fun c' => same c c' /\ prog c' (F1 ++ it1 :: F2) (G1 ++ it2 :: G2)).
Proof. intros Hp -> -> <- <- H1 H2. by apply (prog_patch f0 b0 rest c F1 it F2 G1 it' G2 F3 G3). Qed.

Lemma post_star_spec greedy e e' F G bm c :
  prog c (F ++ [ISplit greedy 0 0] ++ e) (G ++ [ISplit greedy 0 0] ++ e') -> c.(bookmarks) = loc F G :: bm ->
  yields (post_star c) (fun '(_, c') => popped bm c c' /\ prog c' (F ++ gen_star greedy e) (G ++ gen_star greedy e')).
Proof.
  intros Hp Hb. unfold post_star. rewrite (pop_bookmark_cons _ _ _ Hb), and_then_ok.
  eapply yields_bind; [apply prog_jump, prog_bookmarks, Hp|]. intros [l2 c2] (Hl2 & Hs2 & Hp2).
  rewrite (prog_location _ _ _ _ _ _ Hp2).
  eapply yields_bind.
  { eapply (patch_offset c2 F (ISplit greedy 0 0) (e ++ [IJump 0]) G (ISplit greedy 0 0) (e' ++ [IJump 0])
      _ _ _ _ (split_size + sz e + jump_size) (split_size + sz e' + jump_size)); try done; [|sizes|sizes].
    eapply prog_eq; [exact Hp2|by rewrite <- ?app_assoc..]. }
  intros c3 [Hs3 Hp3]. eapply yields_bind.
  { eapply (patch_offset c3 (F ++ [ISplit greedy 0 (split_size + sz e + jump_size)] ++ e) (IJump 0) []
      (G ++ [ISplit greedy 0 (split_size + sz e' + jump_size)] ++ e') (IJump 0) []
      F G _ _ (- (split_size + sz e)) (- (split_size + sz e'))); try done; [|rewrite Hl2|sizes|sizes].
    - eapply prog_eq; [exact Hp3|by rewrite <- ?app_assoc..].
    - unfold PikeEmit.loc. f_equal; sizes. }
  intros c4 [Hs4 Hp4]. apply yields_ok. split.
  - repeat (eapply popped_same; [|done]). apply popped_set.
  - eapply prog_eq; [exact Hp4|by rewrite <- ?app_assoc..].
Qed.

Lemma post_plus_spec greedy e e' F G bm c :
  prog c (F ++ e) (G ++ e') -> c.(bookmarks) = loc F G :: bm ->
  yields (post_plus greedy c) (fun '(_, c') => popped bm c c' /\ prog c' (F ++ gen_plus greedy e) (G ++ gen_plus greedy e')).
Proof.
  intros Hp Hb. unfold post_plus. rewrite (pop_bookmark_cons _ _ _ Hb), and_then_ok.
  eapply yields_bind; [apply prog_split, prog_bookmarks, Hp|]. intros [l2 c2] (Hl2 & Hs2 & Hp2).
  eapply yields_bind.
  { eapply (patch_offset c2 (F ++ e) (ISplit (negb greedy) 0 0) [] (G ++ e') (ISplit (negb greedy) 0 0) []
      F G _ _ (- sz e) (- sz e')); try done; sizes. }
  intros c3 [Hs3 Hp3]. apply yields_ok. split.
  - repeat (eapply popped_same; [|done]). apply popped_set.
  - eapply prog_eq; [exact Hp3|by rewrite <- ?app_assoc..].
Qed.

(** Copies of the expression that starts at [loc F G]. *)
Lemma clone_spec e e' F G X X' c :
  prog c (F ++ e ++ X) (G ++ e' ++ X') ->
  yields (emit_clone (loc F G) (loc (F ++ e) (G ++ e')) c) (fun '(l, c') =>
    l = loc (F ++ e ++ X) (G ++ e' ++ X') /\ same c c' /\ prog c' (F ++ e ++ X ++ e) (G ++ e' ++ X' ++ e')).
Proof.
  intros Hp. eapply yields_impl; [by apply prog_clone|]. intros [l c'] (Hl & Hs & Hp'). split_and!; [done..|].
  eapply prog_eq; [exact Hp'|by rewrite <- ?app_assoc..].
Qed.

Lemma clone_op_spec e e' F G X X' c :
  prog c (F ++ e ++ X) (G ++ e' ++ X') ->
  yields (clone_op (loc F G) (loc (F ++ e) (G ++ e')) c)
    (fun c' => same c c' /\ prog c' (F ++ e ++ X ++ e) (G ++ e' ++ X' ++ e')).
Proof.
  intros Hp. unfold clone_op. eapply yields_bind; [by apply clone_spec|]. intros [l c'] (_ & Hs & Hp').
  by apply yields_ok.
Qed.

Lemma clones_spec n e e' F G X X' c :
  prog c (F ++ e ++ X) (G ++ e' ++ X') ->
  yields (repeat_op n (clone_op (loc F G) (loc (F ++ e) (G ++ e'))) c)
    (fun c' => same c c' /\ prog c' (F ++ e ++ X ++ copies n e) (G ++ e' ++ X' ++ copies n e')).
Proof.
  intros Hp.
  apply (yields_repeat n _ (fun k c' => same c c' /\ prog c' (F ++ e ++ X ++ copies k e) (G ++ e' ++ X' ++ copies k e'))).
  { split; [done|]. eapply prog_eq; [exact Hp|by cbn; rewrite app_nil_r..]. }
  intros k c1 _ [Hs Hp1]. eapply yields_impl; [by apply clone_op_spec|]. intros c2 [Hs2 Hp2].
  split; [by eapply same_trans|]. eapply prog_eq; [exact Hp2|by rewrite copies_snoc, <- !app_assoc..].
Qed.

Lemma post_at_least_spec min greedy e e' F G bm c :
  2 <= min -> atoms_ok c -> prog c (F ++ e) (G ++ e') -> c.(bookmarks) = loc F G :: bm ->
  yields (post_at_least min greedy c) (fun '(_, c') => popped bm c c' /\
    prog c' (F ++ gen_at_least (Z.to_nat min) greedy e) (G ++ gen_at_least (Z.to_nat min) greedy e')).
Proof.
  intros Hmin Hat Hp Hb. unfold post_at_least. rewrite (proj2 (Z.leb_le _ _)) by done. cbn [assert mbind res_bind].
  rewrite (pop_bookmark_cons _ _ _ Hb), and_then_ok.
  set (c1 := set_bookmarks bm c). assert (Hp1 : prog c1 (F ++ e) (G ++ e')) by (by apply prog_bookmarks).
  rewrite (prog_location _ _ _ _ _ _ Hp1). set (k := Z.to_nat (min - 2)).
  eapply yields_bind.
  { apply (clones_spec (Z.to_nat (saturating_sub min 3)) e e' F G [] [] c1). by rewrite !app_nil_r. }
  intros c2 [Hs2 Hp2]. cbn [app] in Hp2. eapply yields_bind.
  { instantiate (1 := fun '(l1, c3) => l1 = loc (F ++ copies k e) (G ++ copies k e') /\ same c2 c3 /\
      prog c3 (F ++ copies (S k) e) (G ++ copies (S k) e')).
    destruct (2 <? min) eqn:E; bools.
    - eapply yields_impl; [by apply clone_spec|]. intros [l c3] (-> & Hs3 & Hp3).
      assert (Z.to_nat (saturating_sub min 3) = (k - 1)%nat) as Hk by (unfold saturating_sub, k; lia).
      rewrite Hk in *. assert (Hk1 : k = S (k - 1)) by (unfold k; lia).
      rewrite Hk1, !copies_S. replace (S (k - 1) - 1)%nat with (k - 1)%nat in Hp3 by lia.
      replace (S (k - 1) - 1)%nat with (k - 1)%nat by lia. split; [done|]. split; [done|].
      eapply prog_eq; [exact Hp3|by rewrite <- copies_snoc, copies_S..].
    - assert (k = 0%nat) as -> by (unfold k; lia). apply yields_ok. cbn. rewrite !app_nil_r. split; [done|]. split; [done|].
      assert (Z.to_nat (saturating_sub min 3) = 0%nat) as Hk by (unfold saturating_sub; lia).
      rewrite Hk in Hp2. cbn in Hp2. by rewrite !app_nil_r in Hp2. }
  intros [l1 c3] (-> & Hs3 & Hp3). eapply yields_bind; [by apply prog_split|]. intros [l2 c4] (Hl2 & Hs4 & Hp4).
  eapply yields_bind.
  { eapply (patch_offset c4 (F ++ copies (S k) e) (ISplit (negb greedy) 0 0) [] (G ++ copies (S k) e') _ []
      (F ++ copies k e) (G ++ copies k e') _ _ (- sz e) (- sz e')); try done; sizes. }
  intros c5 [Hs5 Hp5]. eapply yields_bind.
  { apply (clone_op_spec e e' F G (copies k e ++ [ISplit (negb greedy) 0 (- sz e)]) (copies k e' ++ [ISplit (negb greedy) 0 (- sz e')])).
    eapply prog_eq; [exact Hp5|by rewrite copies_S, <- !app_assoc..]. }
  intros c6 [Hs6 Hp6].
  assert (Hpop : popped bm c c6).
  { repeat (eapply popped_same; [|done]). apply popped_set. }
  eapply yields_bind.
  { apply update_best_quiet; [by apply Hpop|]. intros a. apply map_locs_bounded. intros x Hx. by destruct (_ && _). }
  intros c7 [Hc7 Hk7]. apply yields_ok. split; [by eapply popped_kept|].
  eapply prog_code; [exact Hc7|]. eapply prog_eq; [exact Hp6|..]; unfold gen_at_least;
    (replace (Z.to_nat min - 1)%nat with (S k) by (unfold k; lia)); by rewrite copies_S, <- !app_assoc.
Qed.

Lemma post_repeat_zero_spec max greedy e e' F G bm c :
  is_u32 max -> 0 < max ->
  let s := ISplit greedy 0 0 in
  prog c (F ++ [s] ++ e) (G ++ [s] ++ e') -> c.(bookmarks) = loc F G :: loc (F ++ [s]) (G ++ [s]) :: bm ->
  yields (post_repeat_zero max greedy c) (fun '(_, c') => popped bm c c' /\
    prog c' (F ++ gen_repeat_zero max greedy e) (G ++ gen_repeat_zero max greedy e')).
Proof.
  intros Hmax Hpos s Hp Hb. subst s. unfold post_repeat_zero. rewrite (proj2 (Z.ltb_lt _ _) Hpos). cbn [assert mbind res_bind]. rewrite (pop_bookmark_cons _ _ _ Hb), and_then_ok.
  erewrite (pop_bookmark_cons _ _ (set_bookmarks _ c)) by reflexivity. rewrite and_then_ok.
  eapply yields_bind; [apply prog_repeat; [do 2 apply prog_bookmarks; exact Hp|done|done]|]. intros [l3 c3] (Hl3 & Hs3 & Hp3).
  rewrite (prog_location _ _ _ _ _ _ Hp3). eapply yields_bind.
  { eapply (patch_offset c3 F (ISplit greedy 0 0) (e ++ [IRepeat greedy 0 0 max]) G (ISplit greedy 0 0) (e' ++ [IRepeat greedy 0 0 max])
      _ _ _ _ (split_size + sz e + repeat_size) (split_size + sz e' + repeat_size)); try done; [|sizes|sizes].
    eapply prog_eq; [exact Hp3|by rewrite <- ?app_assoc..]. }
  intros c4 [Hs4 Hp4]. eapply yields_bind.
  { eapply (patch_offset c4 (F ++ [ISplit greedy 0 (split_size + sz e + repeat_size)] ++ e) (IRepeat greedy 0 0 max) []
      (G ++ [ISplit greedy 0 (split_size + sz e' + repeat_size)] ++ e') (IRepeat greedy 0 0 max) []
      (F ++ [ISplit greedy 0 0]) (G ++ [ISplit greedy 0 0]) _ _ (- sz e) (- sz e')); try done; [|rewrite Hl3|sizes|sizes].
    - eapply prog_eq; [exact Hp4|by rewrite <- ?app_assoc..].
    - unfold PikeEmit.loc. f_equal; sizes. }
  intros c5 [Hs5 Hp5]. apply yields_ok. split.
  - repeat (eapply popped_same; [|done]). done.
  - eapply prog_eq; [exact Hp5|by rewrite <- ?app_assoc..].
Qed.

(** ** Unrolled repetitions

    [n] optional copies after the code [M], [M'], and the locations of their
    splits, the last one first. *)
Definition optional (greedy : bool) (e : list Item) : list Item := [ISplit greedy 0 0] ++ e.

Fixpoint split_locs (n : nat) (greedy : bool) (M M' e e' : list Item) : list CodeLoc :=
  match n with
  | O => []
  | S n => loc (M ++ copies n (optional greedy e)) (M' ++ copies n (optional greedy e')) :: split_locs n greedy M M' e e'
  end.

Definition unroll_step (greedy : bool) (start stop : CodeLoc) (c : Compiler) : res (Error + Compiler) :=
  '(split, c) ←? emit_split greedy c; clone_op start stop (push_bookmark split c).

(** What a step needs: the first copy of the expression, and more code. *)
Lemma unroll_spec n k greedy e e' F G Y Y' M M' bm c :
  prog c (F ++ e ++ Y) (G ++ e' ++ Y') -> c.(bookmarks) = split_locs k greedy M M' e e' ++ bm ->
  M ++ copies k (optional greedy e) = F ++ e ++ Y -> M' ++ copies k (optional greedy e') = G ++ e' ++ Y' ->
  yields (repeat_op n (unroll_step greedy (loc F G) (loc (F ++ e) (G ++ e'))) c) (fun c' =>
    popped (split_locs (k + n) greedy M M' e e' ++ bm) c c' /\
    prog c' (M ++ copies (k + n) (optional greedy e)) (M' ++ copies (k + n) (optional greedy e'))).
Proof.
  intros Hp Hb HM HM'.
  apply (yields_repeat n _ (fun j c' => popped (split_locs (k + j) greedy M M' e e' ++ bm) c c' /\
    prog c' (M ++ copies (k + j) (optional greedy e)) (M' ++ copies (k + j) (optional greedy e')))).
  { rewrite Nat.add_0_r. split; [done|]. by rewrite HM, HM'. }
  intros j c1 _ [Hpop Hp1]. unfold unroll_step. eapply yields_bind; [by apply prog_split|].
  intros [l c2] (-> & Hs2 & Hp2).
  assert (Hcopy : forall (N E L X : list Item), N ++ copies k (optional greedy E) = L ++ E ++ X ->
    exists X1, N ++ copies (k + j) (optional greedy E) = L ++ E ++ X1).
  { intros N E L X H. exists (X ++ copies j (optional greedy E)). unfold copies. rewrite replicate_add, concat_app, app_assoc.
    fold (copies k (optional greedy E)). by rewrite H, <- !app_assoc. }
  destruct (Hcopy _ _ _ _ HM) as [X1 E1], (Hcopy _ _ _ _ HM') as [X1' E1'].
  set (s := ISplit greedy 0 0) in *.
  eapply yields_impl.
  { apply (clone_op_spec e e' F G (X1 ++ [s]) (X1' ++ [s])). eapply (prog_code _ _ _ c2); [reflexivity|].
    eapply prog_eq; [exact Hp2|rewrite E1; by rewrite <- ?app_assoc|rewrite E1'; by rewrite <- ?app_assoc]. }
  intros c3 [Hs3 Hp3]. rewrite Nat.add_succ_r. split.
  - eapply popped_same; [|exact Hs3]. apply popped_push. by eapply popped_same.
  - eapply prog_eq; [exact Hp3|..]; rewrite copies_snoc; [rewrite (app_assoc M), E1|rewrite (app_assoc M'), E1'];
      unfold optional; by rewrite <- ?app_assoc.
Qed.

(** The patches of the splits. *)
Definition patch_split (stop : CodeLoc) (c : Compiler) : res (Error + Compiler) :=
  '(split, c) ←? pop_bookmark c; patch_to split stop c.

Lemma sz_optional n greedy e : sz (copies n (optional greedy e)) = Z.of_nat n * (split_size + sz e).
Proof. rewrite sz_copies. unfold optional. by rewrite sz_app, sz_one, sz_split. Qed.

Lemma patch_splits_spec n greedy e e' M M' bm c :
  let U := copies n (optional greedy e) in let U' := copies n (optional greedy e') in
  prog c (M ++ U) (M' ++ U') -> c.(bookmarks) = split_locs n greedy M M' e e' ++ bm ->
  yields (repeat_op n (patch_split (loc (M ++ U) (M' ++ U'))) c) (fun c' =>
    popped bm c c' /\ prog c' (M ++ gen_optional n greedy e) (M' ++ gen_optional n greedy e')).
Proof.
  intros U U' Hp Hb. eapply yields_impl.
  { apply (yields_repeat n _ (fun k c' => popped (split_locs (n - k) greedy M M' e e' ++ bm) c c' /\
      prog c' (M ++ copies (n - k) (optional greedy e) ++ gen_optional k greedy e)
              (M' ++ copies (n - k) (optional greedy e') ++ gen_optional k greedy e'))).
    { rewrite Nat.sub_0_r. split; [done|]. cbn [gen_optional]. by rewrite !app_nil_r. }
    intros k c1 Hk [Hpop Hp1]. unfold patch_split.
    destruct (n - k)%nat as [|j] eqn:Ej; [lia|]. replace (n - S k)%nat with j by lia. cbn [split_locs app] in Hpop.
    rewrite (pop_bookmark_cons _ _ _ (proj1 Hpop)), and_then_ok.
    eapply yields_impl.
    { eapply (patch_offset _ (M ++ copies j (optional greedy e)) (ISplit greedy 0 0) (e ++ gen_optional k greedy e)
        (M' ++ copies j (optional greedy e')) (ISplit greedy 0 0) (e' ++ gen_optional k greedy e') (M ++ U) (M' ++ U') _ _
        (Z.of_nat (S k) * (split_size + sz e)) (Z.of_nat (S k) * (split_size + sz e'))); try done.
      - apply prog_bookmarks. eapply prog_eq; [exact Hp1|..]; rewrite copies_snoc; unfold optional at 2; by rewrite <- ?app_assoc.
      - rewrite !sz_app. subst U. rewrite !sz_optional. replace n with (S k + j)%nat by lia. lia.
      - rewrite !sz_app. subst U'. rewrite !sz_optional. replace n with (S k + j)%nat by lia. lia. }
    intros c2 [Hs2 Hp2]. split.
    - eapply popped_same; [|exact Hs2]. by eapply popped_pop.
    - eapply prog_eq; [exact Hp2|..]; cbn [gen_optional]; by rewrite <- ?app_assoc. }
  intros c' [Hpop Hp']. rewrite Nat.sub_diag in *. done.
Qed.

(** From the mandatory copies to the end. *)
Definition unrolled_tail (min max : Z) (greedy : bool) (start stop : CodeLoc) (c : Compiler) : res (Error + (CodeLoc * Compiler)) :=
  c ←? repeat_op (Z.to_nat (wrap_u32 (if min =? 0 then max - 1 else max - min))) (unroll_step greedy start stop) c;
  c ←? (if 1 <? min
        then adjust_atoms start (wrap_usize ((min - 1) * (stop.(bck) - start.(bck)))) c
        else ok c);
  let stop := location c in
  c ←? repeat_op (Z.to_nat (wrap_u32 (max - min))) (patch_split stop) c;
  ok (start, c).

Lemma post_unrolled_eq min max greedy c :
  min <= max ->
  post_unrolled min max greedy c =
  and_then (pop_bookmark c) (fun '(start, c) =>
    and_then (repeat_op (Z.to_nat (saturating_sub min 1)) (clone_op start (location c)) c)
      (unrolled_tail min max greedy start (location c))).
Proof. intros H. unfold post_unrolled. by rewrite (proj2 (Z.leb_le _ _)). Qed.

Lemma unrolled_tail_spec min max k greedy e e' F G Y Y' M M' bm c :
  0 <= min <= max -> 1 <= max <= u32_MAX -> k = (if min =? 0 then 1%nat else 0%nat) -> atoms_ok c ->
  prog c (F ++ e ++ Y) (G ++ e' ++ Y') -> c.(bookmarks) = split_locs k greedy M M' e e' ++ bm ->
  M ++ copies k (optional greedy e) = F ++ e ++ Y -> M' ++ copies k (optional greedy e') = G ++ e' ++ Y' ->
  let n := Z.to_nat (max - min) in
  yields (unrolled_tail min max greedy (loc F G) (loc (F ++ e) (G ++ e')) c) (fun '(_, c') => popped bm c c' /\
    prog c' (M ++ gen_optional n greedy e) (M' ++ gen_optional n greedy e')).
Proof.
  intros Hmin Hmax Hk Hat Hp Hb HM HM' n. unfold unrolled_tail.
  assert (Hw : forall v, 0 <= v <= u32_MAX -> wrap_u32 v = v).
  { intros v Hv. unfold wrap_u32. apply Z.mod_small. unfold u32_MAX in Hv. lia. }
  assert (Hn : Nat.add k (Z.to_nat (wrap_u32 (if min =? 0 then max - 1 else max - min))) = n).
  { subst n k. destruct (min =? 0) eqn:E; bools; rewrite Hw by lia; lia. }
  rewrite (Hw (max - min)) by lia. fold n. eapply yields_bind; [by eapply unroll_spec|].
  rewrite Hn. intros c1 [Hpop1 Hp1]. eapply yields_bind.
  { instantiate (1 := quiet (len rest) c1). destruct (1 <? min); [|by apply yields_ok, quiet_refl].
    apply update_best_quiet; [by apply Hpop1|]. intros a. apply map_locs_bounded. intros x Hx. by destruct (_ && _). }
  intros c2 [Hc2 Hk2]. apply (prog_code _ _ _ _ c2) in Hp1; [|done]. rewrite (prog_location _ _ _ _ _ _ Hp1).
  assert (Hpop2 : popped (split_locs n greedy M M' e e' ++ bm) c c2) by (by eapply popped_kept).
  eapply yields_bind; [apply (patch_splits_spec n greedy e e' M M' bm c2 Hp1), Hpop2|].
  intros c3 [Hpop3 Hp3]. apply yields_ok. split; [|done].
  destruct Hpop2 as (_ & P2 & P3 & P4), Hpop3 as (Q1 & Q2 & Q3 & Q4). split_and!; [done|congruence..|auto].
Qed.

Lemma post_unrolled_spec min max greedy e e' F G bm c :
  0 <= min <= max -> 1 <= max <= u32_MAX -> atoms_ok c ->
  (if min =? 0
   then prog c (F ++ optional greedy e) (G ++ optional greedy e') /\
        c.(bookmarks) = loc (F ++ [ISplit greedy 0 0]) (G ++ [ISplit greedy 0 0]) :: loc F G :: bm
   else prog c (F ++ e) (G ++ e') /\ c.(bookmarks) = loc F G :: bm) ->
  let code e := copies (Z.to_nat min) e ++ gen_optional (Z.to_nat (max - min)) greedy e in
  yields (post_unrolled min max greedy c) (fun '(_, c') => popped bm c c' /\ prog c' (F ++ code e) (G ++ code e')).
Proof.
  intros Hmin Hmax Hat H code. rewrite post_unrolled_eq by lia. destruct (min =? 0) eqn:E0; bools.
  - destruct H as [Hp Hb]. rewrite (pop_bookmark_cons _ _ _ Hb), and_then_ok.
    assert (Z.to_nat (saturating_sub min 1) = 0%nat) as -> by (unfold saturating_sub; lia). cbn [repeat_op]. rewrite and_then_ok.
    set (c1 := set_bookmarks _ c). assert (Hp1 : prog c1 (F ++ optional greedy e) (G ++ optional greedy e')) by (by apply prog_bookmarks).
    rewrite (prog_location _ _ _ _ _ _ Hp1). unfold optional. rewrite !app_assoc.
    eapply yields_impl.
    { apply (unrolled_tail_spec min max 1 greedy e e' (F ++ [ISplit greedy 0 0]) (G ++ [ISplit greedy 0 0]) [] [] F G bm); try done; try lia.
      - by rewrite E0.
      - eapply prog_eq; [exact Hp1|by unfold optional; rewrite app_nil_r, <- !app_assoc..].
      - cbn. rewrite !app_nil_r. done.
      - cbn. by rewrite !app_nil_r, <- app_assoc.
      - cbn. by rewrite !app_nil_r, <- app_assoc. }
    intros [l c'] [Hpop Hp']. split; [exact Hpop|]. by subst code min.
  - destruct H as [Hp Hb]. rewrite (pop_bookmark_cons _ _ _ Hb), and_then_ok.
    set (c1 := set_bookmarks _ c). assert (Hp1 : prog c1 (F ++ e) (G ++ e')) by (by apply prog_bookmarks).
    rewrite (prog_location _ _ _ _ _ _ Hp1). eapply yields_bind.
    { apply (clones_spec _ e e' F G [] []). by rewrite !app_nil_r. }
    intros c2 [Hs2 Hp2]. assert (Hn : Z.to_nat min = S (Z.to_nat (saturating_sub min 1))) by (unfold saturating_sub; lia).
    assert (Hpop2 : popped bm c c2) by (eapply popped_same; [apply popped_set|done]).
    eapply yields_impl.
    { eapply (unrolled_tail_spec min max 0 greedy e e' F G _ _ (F ++ copies (Z.to_nat min) e) (G ++ copies (Z.to_nat min) e') bm c2
        Hmin Hmax).
      - by rewrite (proj2 (Z.eqb_neq _ _)).
      - by apply Hpop2.
      - exact Hp2.
      - apply Hpop2.
      - by rewrite Hn, copies_S, app_nil_r.
      - by rewrite Hn, copies_S, app_nil_r. }
    intros [l c'] [Hpop Hp']. subst code. cbn beta. rewrite !app_assoc. split; [|done].
    destruct Hpop2 as (_ & P2 & P3 & P4), Hpop as (Q1 & Q2 & Q3 & Q4). split_and!; [done|congruence..|auto].
Qed.
End Repetitions.

(** ** Repetitions that count

    The first copy of the expression is in the chunk [x] of backward code, on top
    of [b]; the code for the other ones goes to another chunk. *)
(** The copy of the expression and its instructions. *)
Definition repeat_loop (min max : Z) (greedy : bool) (start stop : CodeLoc) (c : Compiler) : res (Error + Compiler) :=
  '(split, c) ←? (if min =? 1 then '(s, c) ←? emit_split greedy c; ok (Some s, c) else ok (None, c));
  '(l1, c) ←? emit_clone start stop c;
  '(l2, c) ←? emit_repeat (wrap_u32 (min - 1)) (wrap_u32 (max - 1)) greedy c;
  let l3 := location c in
  c ←? patch_to l2 l1 c;
  match split with Some s => patch_to s l3 c | None => ok c end.

Lemma post_repeat_eq min max greedy c :
  1 <= min <= max ->
  post_repeat min max greedy c =
  and_then (pop_bookmark c) (fun '(start, c) =>
    and_then (repeat_loop min max greedy start (location c) (start_backward_code_chunk c)) (fun c =>
      and_then (reverse_backward_code_chunks 2 c) (fun '(locations, c) =>
        l ← or_panic (head locations); ok (l, c)))).
Proof.
  intros H. unfold post_repeat, repeat_loop.
  assert ((0 <? min) && (min <=? max) = true) as -> by (apply andb_true_iff; lia). cbn [assert mbind res_bind].
  destruct (pop_bookmark c) as [[err|[start c1]]| |]; [done| |done|done].
  cbn [and_then mbind res_bind]. cbn zeta. destruct (if min =? 1 then _ else _) as [[err|[split c2]]| |]; [done| |done|done].
  cbn [and_then mbind res_bind]. destruct (emit_clone _ _ c2) as [[err|[l1 c3]]| |]; [done| |done|done].
  cbn [and_then mbind res_bind]. destruct (emit_repeat _ _ greedy c3) as [[err|[l2 c4]]| |]; [done| |done|done].
  cbn [and_then mbind res_bind]. cbn zeta. by destruct (patch_to l2 l1 c4) as [[err|c5]| |].
Qed.

Section Loop.
Context (f0 b0 : ASeq) (rest : list ASeq).

(** The copy with its repeat instruction, in both codes. *)
Lemma loop_spec min max greedy e e' F start stop f x below c :
  1 <= min <= max -> max <= u32_MAX ->
  let y := fresh x.(a_split_id) in
  good c f (y :: x :: below) -> a_ext f0 f (F ++ e) -> a_ext (fresh (top_id below b0)) x e' ->
  start = {| fwd := sz f0.(a_items) + sz F; bck_seq_id := len below; bck := 0 |} ->
  stop = {| fwd := sz f0.(a_items) + sz (F ++ e); bck_seq_id := len below; bck := sz e' |} ->
  yields (repeat_loop min max greedy start stop c)
    (fun c' => same c c' /\ prog f0 y (x :: below) c' (F ++ e ++ gen_loop min max greedy e) (gen_loop min max greedy e')).
Proof.
  intros Hmin Hmax y Hg Hf Hx Hstart Hstop. unfold repeat_loop.
  assert (Hw : forall v, 0 <= v <= u32_MAX -> wrap_u32 v = v).
  { intros v Hv. unfold wrap_u32. apply Z.mod_small. unfold u32_MAX in Hv. lia. }
  rewrite !Hw by lia. set (s := ISplit greedy 0 0). set (S := if min =? 1 then [s] else []).
  assert (Hp : prog f0 y (x :: below) c (F ++ e) []) by (exists f, y; split_and!; [done..|apply a_ext_refl]).
  eapply yields_bind.
  { instantiate (1 := fun '(split, c1) => split = (if min =? 1 then Some (loc f0 y (x :: below) (F ++ e) []) else None) /\
      same c c1 /\ prog f0 y (x :: below) c1 (F ++ e ++ S) S).
    subst S. destruct (min =? 1).
    - eapply yields_bind; [by apply prog_split|]. intros [l c1] (-> & Hs & Hp1). apply yields_ok. split; [done|]. split; [done|].
      eapply prog_eq; [exact Hp1|by rewrite <- app_assoc|done].
    - apply yields_ok. rewrite !app_nil_r. done. }
  intros [split c1] (-> & Hs1 & Hp1). pose proof Hx as (lx & Hlx & Hex & _). cbn [a_items fresh app] in Hlx.
  pose proof (a_ext_sz _ _ _ Hx) as Hsx. cbn [a_items fresh] in Hsx. rewrite sz_nil, Z.add_0_l in Hsx.
  eapply yields_bind.
  { pose proof (prog_clone_below f0 y (x :: below) c1 F e S S [] (a_items x) [] x below eq_refl) as H.
    cbn [loc fwd] in H. rewrite !sz_nil, Hsx, Z.add_0_l in H. rewrite Hstart, Hstop. apply H; [by rewrite app_nil_r|done]. }
  intros [l1 c2] (Hl1 & Hs2 & Hp2). rewrite Hlx, Hex in Hp2. eapply yields_bind.
  { apply prog_repeat; [exact Hp2|unfold is_u32, u32_MAX in *; lia..]. }
  intros [l2 c3] (Hl2 & Hs3 & Hp3). cbn zeta. rewrite (prog_location _ _ _ _ _ _ Hp3).
  set (r := IRepeat greedy 0 (min - 1) (max - 1)) in *. eapply yields_bind.
  { eapply (patch_offset _ _ _ c3 (F ++ e ++ S ++ e) r [] (S ++ e') r [] (F ++ e ++ S) S _ _ (- sz e) (- sz e')); try done.
    - eapply prog_eq; [exact Hp3|by rewrite <- ?app_assoc..].
    - rewrite Hl2. unfold loc. f_equal; sizes.
    - sizes.
    - sizes. }
  intros c4 [Hs4 Hp4]. subst S. unfold gen_loop. destruct (min =? 1).
  - eapply yields_impl.
    { eapply (patch_offset _ _ _ c4 (F ++ e) s (e ++ [IRepeat greedy (- sz e) (min - 1) (max - 1)])
        [] s (e' ++ [IRepeat greedy (- sz e') (min - 1) (max - 1)]) _ _ _ _
        (split_size + sz e + repeat_size) (split_size + sz e' + repeat_size)); try done.
      - eapply prog_eq; [exact Hp4|by rewrite <- ?app_assoc..].
      - subst s r. sizes.
      - subst s r. sizes. }
    intros c5 [Hs5 Hp5]. split.
    + repeat (eapply same_trans; [eassumption|]). done.
    + eapply prog_eq; [exact Hp5|by rewrite <- ?app_assoc..].
  - apply yields_ok. split.
    + repeat (eapply same_trans; [eassumption|]). done.
    + eapply prog_eq; [exact Hp4|by rewrite <- ?app_assoc..].
Qed.

Lemma post_repeat_spec min max greedy e e' F G bm f x b c :
  1 <= min <= max -> max <= u32_MAX -> atoms_within (len (b :: rest)) c ->
  Forall (bounded_atoms (len rest)) (tail c.(best_atoms_stack)) -> len (b :: rest) + 2 <= usize_MAX ->
  good c f (x :: b :: rest) -> a_ext f0 f (F ++ e) -> a_ext b0 b G -> a_ext (fresh b.(a_split_id)) x e' ->
  c.(bookmarks) = {| fwd := sz f0.(a_items) + sz F; bck_seq_id := len (b :: rest); bck := 0 |} :: loc f0 b0 rest F G :: bm ->
  yields (post_repeat min max greedy c) (fun '(_, c') =>
    c'.(bookmarks) = bm /\ c'.(repeats) = c.(repeats) /\ under c' = under c /\ atoms_within (len rest) c' /\
    prog f0 b0 rest c' (F ++ e ++ gen_loop min max greedy e) (G ++ gen_loop min max greedy e' ++ e')).
Proof.
  intros Hmin Hmax Hat Htail Hlen Hg Hf Hb Hx Hbm. rewrite post_repeat_eq by done. rewrite (pop_bookmark_cons _ _ _ Hbm), and_then_ok.
  cbn zeta. set (bm1 := loc f0 b0 rest F G :: bm) in *. set (c1 := set_bookmarks bm1 c).
  assert (Hg1 : good c1 f (x :: b :: rest)) by (by eapply good_code; [|exact Hg]).
  destruct (good_start c1 f x (b :: rest) Hg1 Hlen) as (Hg2 & Hbm2 & Hr2 & Hb2). set (c2 := start_backward_code_chunk c1) in *.
  set (stop := location c1) in *. pose proof (good_location _ _ _ _ Hg1) as Hstop. fold stop in Hstop.
  rewrite (a_ext_sz _ _ _ Hf), (a_ext_sz _ _ _ Hx) in Hstop. cbn [fresh a_items] in Hstop. rewrite sz_nil, Z.add_0_l in Hstop.
  eapply yields_bind; [by apply (loop_spec min max greedy e e' F _ stop f x (b :: rest) c2 Hmin Hmax Hg2 Hf Hx)|].
  intros c3 [Hs3 (f3 & y & Hg3 & Hf3 & Hy)].
  assert (Hbm3 : c3.(bookmarks) = [stop; loc f0 b0 rest F G] ++ bm) by (rewrite (proj1 Hs3); exact Hbm2).
  destruct Hs3 as (_ & R3 & E3). rewrite Hb2 in E3. change (best_atoms_stack c1) with (best_atoms_stack c) in E3.
  destruct (good_reverse c3 f3 [y; x] b rest [gen_loop min max greedy e'; e'] [stop; loc f0 b0 rest F G] bm Hg3)
    as (locations & c4 & best & stack & g & Hrev & Hg4 & Hbm4 & Hr4 & Hlocs & _ & E4 & E4' & Hbd4);
    [done|done|done|rewrite E3; apply Hat|].
  cbn [length] in Hrev. rewrite Hrev. cbn [and_then ok mbind res_bind].
  destruct locations as [|l0 locations]; [done|]. cbn [head or_panic mbind res_bind]. apply yields_ok.
  rewrite E4 in E3. assert (Hat3 : atoms_within (len (b :: rest)) c3) by (apply (atoms_same _ c); [by rewrite E4|done]).
  destruct (reversed_atoms (len (b :: rest)) (len rest) c3 c4 best stack g E4 E4') as [Hu4 Hat4]; [|done|by rewrite <- E3 in Htail|].
  { intros l Hl. apply Hbd4. unfold loc_within in Hl. rewrite len_cons in Hl. change (len [y; x]) with 2. lia. }
  split; [done|]. split; [by rewrite Hr4, R3|]. split; [by rewrite Hu4; apply under_stack; rewrite E4|]. split; [done|].
  exists f3, (appended b [y; x]). split; [done|]. split; [done|]. eapply a_ext_trans; [exact Hb|].
  pose proof (appended_ext b [y; x] [gen_loop min max greedy e'; e']) as Happ.
  cbn [concat] in Happ. rewrite app_nil_r in Happ. by apply Happ.
Qed.
End Loop.
End Traversal.
