(* ===== verification/PikeBranches.v ===== *)
(** Alternations, as the compiler for the Pike virtual machine emits them. *)

From S2P Require Import Prelude.
From S2P Require Import Re.
From S2P Require Import Atoms.
From S2P Require Import Hir.
From S2P Require Import Visit.
From S2P Require Import PikeInstr.
From S2P Require Import PikeSeq.
From S2P Require Import PikeAtoms.
From S2P Require Import PikeCompiler.
From S2P Require Import PikeCodegen.
From S2P Require Import PikeEmit.
From S2P Require Import PikeTraverse.
#[local] Open Scope try_scope.

Section Branches.
Context {BS : BitSlice} {BSL : BitSliceLaws}.
Context (f0 b0 : ASeq) (rest : list ASeq).
Local Notation prog := (prog f0 b0 rest).
Local Notation loc := (loc f0 b0 rest).
Local Notation popped := (popped rest).
Local Notation atoms_ok := (atoms_within (len rest)).

(** The code of an alternative in the forward and in the backward code. *)
Definition Code : Type := list Item * list Item.

(** The alternatives done, the last one first, each one with its jump. *)
Fixpoint jumps (side : Code -> list Item) (cs : list Code) : list Item :=
  match cs with
  | [] => []
  | c :: cs => jumps side cs ++ side c ++ [IJump 0]
  end.

(** The bookmarks: the location of the next alternative, and for each one done
    the location of its jump and its own location. *)
Fixpoint marks (F G : list Item) (cs : list Code) : list CodeLoc :=
  match cs with
  | [] => [loc F G]
  | c :: cs' => loc (F ++ jumps fst cs) (G ++ jumps snd cs) ::
                loc (F ++ jumps fst cs' ++ fst c) (G ++ jumps snd cs' ++ snd c) :: marks F G cs'
  end.

(** The locations of the alternatives, the first one first. *)
Fixpoint starts (F G : list Item) (cs : list Code) : list CodeLoc :=
  match cs with
  | [] => []
  | c :: cs => loc F G :: starts (F ++ fst c ++ [IJump 0]) (G ++ snd c ++ [IJump 0]) cs
  end.

Lemma marks_cons F G cs : exists l, marks F G cs = loc (F ++ jumps fst cs) (G ++ jumps snd cs) :: l.
Proof. destruct cs; cbn; [rewrite !app_nil_r|]; by eexists. Qed.

Lemma gen_alternatives_cons c d cs :
  gen_alternatives (c :: d :: cs) = c ++ [IJump (jump_size + sz (gen_alternatives (d :: cs)))] ++ gen_alternatives (d :: cs).
Proof. done. Qed.

(** The loop over the jumps, from the last one to the first one. *)
Lemma patch_jumps_spec F G bm todo last tail c locs l_end :
  let code side := jumps side todo ++ gen_alternatives (side <$> last :: tail) in
  prog c (F ++ code fst) (G ++ code snd) -> c.(bookmarks) = marks F G todo ++ bm ->
  l_end = loc (F ++ code fst) (G ++ code snd) ->
  loc (F ++ jumps fst todo) (G ++ jumps snd todo) :: reverse locs =
    starts (F ++ jumps fst todo) (G ++ jumps snd todo) (last :: tail) ->
  let cs := reverse todo ++ last :: tail in
  yields (repeat_op (length todo) (patch_jump l_end) (locs, c)) (fun '(locs, c') =>
    popped (loc F G :: bm) c c' /\ loc F G :: reverse locs = starts F G cs /\
    prog c' (F ++ gen_alternatives (fst <$> cs)) (G ++ gen_alternatives (snd <$> cs))).
Proof.
  revert last tail c locs. induction todo as [|x todo IH]; intros last tail c locs code Hp Hb Hend Hlocs cs.
  { subst code cs. cbn [repeat_op length jumps app marks reverse rev_append] in *. rewrite !app_nil_r in Hlocs.
    apply yields_ok. split; [|done]. split_and!; done. }
  cbn [length repeat_op patch_jump]. cbn [marks app] in Hb.
  rewrite (pop_bookmark_cons _ _ _ Hb), and_then_ok.
  erewrite (pop_bookmark_cons _ _ (set_bookmarks _ c)) by reflexivity. rewrite and_then_ok, !and_then_assoc.
  set (A := fun (side : Code -> list Item) => gen_alternatives (side <$> last :: tail)).
  set (c1 := set_bookmarks _ (set_bookmarks _ c)). eapply yields_bind.
  { eapply (patch_offset f0 b0 rest c1 (F ++ jumps fst todo ++ fst x) (IJump 0) (A fst)
      (G ++ jumps snd todo ++ snd x) (IJump 0) (A snd)
      (F ++ code fst) (G ++ code snd) _ _ (jump_size + sz (A fst)) (jump_size + sz (A snd))); try done.
    - apply (prog_code _ _ _ c); [done|]. eapply prog_eq; [exact Hp|..]; subst code; cbn [jumps]; by rewrite <- ?app_assoc.
    - subst code A. cbn beta. cbn [jumps]. sizes.
    - subst code A. cbn beta. cbn [jumps]. sizes. }
  intros c2 [Hs2 Hp2]. rewrite and_then_ok. eapply yields_impl.
  { apply (IH x (last :: tail) c2).
    - eapply prog_eq; [exact Hp2|..]; subst A; cbn [fmap list_fmap]; rewrite gen_alternatives_cons; by rewrite <- ?app_assoc.
    - by rewrite (proj1 Hs2).
    - rewrite Hend. unfold PikeEmit.loc. subst code. cbn beta. cbn [fmap list_fmap]. rewrite !gen_alternatives_cons. cbn [jumps].
      f_equal; sizes.
    - rewrite reverse_app. cbn [reverse rev_append app]. cbn [starts]. f_equal. cbn [jumps starts] in *.
      rewrite <- ?app_assoc in *. exact Hlocs. }
  intros [locs' c3] (Hpop & Hl & Hp3). subst cs. rewrite reverse_cons, <- app_assoc. split; [|done].
  destruct Hs2 as (S1 & S2 & S3), Hpop as (P1 & P2 & P3 & P4). unfold under, atoms_within in *. rewrite S3 in P3, P4.
  split_and!; [done|by rewrite P2, S2|done|done].
Qed.

(** ** The offsets of the alternatives *)

Lemma loc_subs_spec locs rhs :
  Forall (fun l => l.(bck_seq_id) = rhs.(bck_seq_id)) locs ->
  yields (loc_subs locs rhs) (fun os =>
    o_fwd <$> os = (fun l => l.(fwd) - rhs.(fwd)) <$> locs /\ o_bck <$> os = (fun l => l.(bck) - rhs.(bck)) <$> locs /\
    Forall is_i32 (o_fwd <$> os) /\ Forall is_i32 (o_bck <$> os)).
Proof.
  induction 1 as [|l locs Hl _ IH]; cbn [loc_subs]; [by apply yields_ok|].
  unfold loc_sub. rewrite Hl, Z.eqb_refl. cbn [assert mbind res_bind].
  destruct (offset_try_from (fwd l - fwd rhs)) as [fo|] eqn:Ef; [|left; by exists TooLarge].
  destruct (offset_try_from (bck l - bck rhs)) as [bo|] eqn:Eb; [|left; by exists TooLarge].
  apply offset_try_from_i32 in Ef as [-> Hf]. apply offset_try_from_i32 in Eb as [-> Hb]. rewrite and_then_ok.
  eapply yields_bind; [exact IH|]. intros os (H1 & H2 & H3 & H4). apply yields_ok. cbn [fmap list_fmap o_fwd o_bck].
  rewrite H1, H2 in *. split_and!; try done; by constructor.
Qed.

Lemma starts_offsets F0 G0 F G cs :
  (fun l => l.(fwd) - (loc F0 G0).(fwd)) <$> starts F G cs = alternative_offsets (sz F - sz F0) (fst <$> cs) /\
  (fun l => l.(bck) - (loc F0 G0).(bck)) <$> starts F G cs = alternative_offsets (sz G - sz G0) (snd <$> cs).
Proof.
  revert F G. induction cs as [|c cs IH]; intros F G; [done|]. cbn [starts fmap list_fmap alternative_offsets].
  destruct (IH (F ++ c.1 ++ [IJump 0]) (G ++ c.2 ++ [IJump 0])) as [H1 H2]. rewrite H1, H2. cbn [loc fwd bck].
  split; (f_equal; [lia|f_equal; sizes]).
Qed.

Lemma starts_same F0 G0 F G cs : Forall (fun l => l.(bck_seq_id) = (loc F0 G0).(bck_seq_id)) (starts F G cs).
Proof. revert F G. induction cs as [|c cs IH]; intros F G; cbn [starts]; by constructor. Qed.

Lemma starts_length F G cs : len (starts F G cs) = len cs.
Proof. revert F G. induction cs as [|c cs IH]; intros F G; [done|]. cbn [starts]. by rewrite !len_cons, IH. Qed.

(** ** The atoms of the alternatives *)

Lemma under_drop n c c' : (1 <= n)%nat -> under c' = under c -> drop n c'.(best_atoms_stack) = drop n c.(best_atoms_stack).
Proof.
  intros Hn [= Hl Ht]. destruct n as [|n]; [lia|]. destruct (best_atoms_stack c), (best_atoms_stack c'); cbn in *; congruence.
Qed.

Lemma appended_locs (P : LocAtom -> Prop) first others :
  Forall P first.(ra_atoms) -> Forall (fun a => len a.(ra_atoms) <= MAX_ATOMS_PER_REGEXP /\ Forall P a.(ra_atoms)) others ->
  Forall P (foldl regexp_atoms_append first others).(ra_atoms).
Proof.
  intros Hf Ho. revert first Hf. induction Ho as [|a others [_ Ha] _ IH]; intros first Hf; [done|]. cbn [foldl].
  apply IH. cbn. by apply Forall_app.
Qed.

Lemma merge_alternatives_spec n m c :
  length c.(best_atoms_stack) = (n + m)%nat -> (1 <= n)%nat -> (1 <= m)%nat -> atoms_ok c ->
  yields (merge_alternatives n c) (fun c' => code_of c' = code_of c /\ c'.(bookmarks) = c.(bookmarks) /\
    c'.(repeats) = c.(repeats) /\ under c' = (m, tail (drop n c.(best_atoms_stack))) /\ atoms_ok c').
Proof.
  intros Hl Hn Hm [_ Hb]. unfold merge_alternatives. rewrite bool_decide_true by lia. cbn [assert mbind res_bind]. cbn zeta.
  destruct (reverse (take n (best_atoms_stack c))) as [|first others] eqn:Er.
  { apply (f_equal length) in Er. rewrite length_reverse, length_take in Er. cbn in Er. lia. }
  unfold update_best_atoms. cbn [best_atoms_stack set_best_atoms].
  assert (Hlen : length (drop n (best_atoms_stack c)) = m) by (rewrite length_drop; lia).
  assert (Hfirst : Forall (fun x => loc_within (len rest) x.(la_loc)) (foldl regexp_atoms_append first others).(ra_atoms)).
  { assert (Hall : Forall (bounded_atoms (len rest)) (first :: others)) by (rewrite <- Er; by apply Forall_reverse, Forall_take).
    apply Forall_cons in Hall as [[_ H1] H2]. by apply appended_locs. }
  apply (Forall_drop _ n) in Hb. destruct (drop n (best_atoms_stack c)) as [|best stack]; [cbn in Hlen; lia|].
  apply yields_ok. split; [done|]. split; [done|]. split; [done|]. split; [unfold under; cbn in *; by rewrite Hlen|]. split; [done|]. cbn.
  apply Forall_cons in Hb as [Hb Hs]. constructor; [|done]. destruct (_ && _) eqn:E; [|done].
  apply andb_true_iff in E as [E _]. split; [bools; lia|done].
Qed.

(** ** The whole alternation *)

Definition zero_split (n : Z) : Item := ISplitN 0 (replicate (Z.to_nat n) 0).

Lemma post_alternation_spec n m F G bm todo last c :
  let cs := reverse todo ++ [last] in let F1 := F ++ [zero_split n] in let G1 := G ++ [zero_split n] in
  n = len cs -> n <= u8_MAX -> length c.(best_atoms_stack) = (Z.to_nat n + m)%nat -> (1 <= m)%nat -> atoms_ok c ->
  prog c (F1 ++ jumps fst todo ++ last.1) (G1 ++ jumps snd todo ++ last.2) ->
  c.(bookmarks) = marks F1 G1 todo ++ loc F G :: bm ->
  yields (visit_post_alternation n c) (fun '(_, c') => c'.(bookmarks) = bm /\ c'.(repeats) = c.(repeats) /\
    under c' = (m, tail (drop (Z.to_nat n) c.(best_atoms_stack))) /\ atoms_ok c' /\
    prog c' (F ++ gen_alternation (fst <$> cs)) (G ++ gen_alternation (snd <$> cs))).
Proof.
  intros cs F1 G1 Hn Hmax Hlen Hm Hat Hp Hb. unfold visit_post_alternation. cbn zeta.
  assert (Hcs : len cs = 1 + len todo) by (subst cs; rewrite len_app, len_rev; change (len [last]) with 1; lia).
  assert (Z.to_nat (wrap_usize (n - 1)) = length todo) as ->.
  { unfold wrap_usize. rewrite Z.mod_small by (unfold u8_MAX in Hmax; pose proof (len_nonneg todo); lia). unfold len in *. lia. }
  rewrite (prog_location _ _ _ _ _ _ Hp). eapply yields_bind.
  { apply (patch_jumps_spec F1 G1 (loc F G :: bm) todo last [] c [] _ Hp Hb eq_refl). done. }
  intros [locs c1] (Hpop1 & Hlocs & Hp1). rewrite (pop_bookmark_cons _ _ _ (proj1 Hpop1)), and_then_ok.
  erewrite (pop_bookmark_cons _ _ (set_bookmarks _ c1)) by reflexivity. rewrite and_then_ok.
  set (c2 := set_bookmarks _ (set_bookmarks _ c1)). rewrite reverse_app. cbn [reverse rev_append app].
  change (loc F1 G1 :: rev_append locs []) with (loc F1 G1 :: reverse locs). rewrite Hlocs. fold cs.
  eapply yields_bind; [apply loc_subs_spec, starts_same|].
  intros os (Ho1 & Ho2 & Hi1 & Hi2). destruct (starts_offsets F G F1 G1 cs) as [S1 S2]. rewrite S1 in Ho1. rewrite S2 in Ho2.
  assert (Hos : len os = n).
  { rewrite Hn, <- (starts_length F1 G1 cs), <- (len_map o_fwd os), Ho1, <- S1. apply len_map. }
  assert (Hz : len (replicate (Z.to_nat n) 0) = n) by (unfold len; rewrite length_replicate; unfold len in Hn; lia).
  eapply yields_bind.
  { eapply (prog_patch_split_n f0 b0 rest c2 F (replicate (Z.to_nat n) 0) (gen_alternatives (fst <$> cs))
      G (replicate (Z.to_nat n) 0) (gen_alternatives (snd <$> cs)) os); [|done|done|congruence|congruence].
    apply (prog_code _ _ _ c1); [done|]. eapply prog_eq; [exact Hp1|subst F1; by rewrite <- app_assoc|subst G1; by rewrite <- app_assoc]. }
  intros c3 [Hs3 Hp3]. destruct Hpop1 as (P1 & P2 & P3 & P4), Hs3 as (R1 & R2 & R3).
  assert (Hat3 : atoms_ok c3) by (apply (atoms_same _ c2); [done|]; apply (atoms_same _ c1); [done|by apply P4]).
  eapply yields_bind.
  { apply (merge_alternatives_spec (Z.to_nat n) m c3); [by rewrite R3; cbn; rewrite (under_length _ _ P3)| |done|done].
    pose proof (len_nonneg todo). lia. }
  intros c4 (M1 & M2 & M3 & M4 & M5). apply yields_ok. split; [by rewrite M2, R1|]. split; [by rewrite M3, R2|].
  split.
  { rewrite M4, R3. change (best_atoms_stack c2) with (best_atoms_stack c1). pose proof (len_nonneg todo).
    by rewrite (under_drop (Z.to_nat n) c c1) by (lia || done). }
  split; [done|]. apply (prog_code _ _ _ c3); [done|]. eapply prog_eq; [exact Hp3|..]; unfold gen_alternation.
  - rewrite Ho1. assert (len (fst <$> cs) = n) as -> by (rewrite len_map; by symmetry). subst F1. unfold zero_split. rewrite sz_app, sz_one, sz_split_n, Hz.
    replace (sz F + (5 + 4 * n) - sz F) with (5 + 4 * n) by lia. done.
  - rewrite Ho2. assert (len (snd <$> cs) = n) as -> by (rewrite len_map; by symmetry). subst G1. unfold zero_split. rewrite sz_app, sz_one, sz_split_n, Hz.
    replace (sz G + (5 + 4 * n) - sz G) with (5 + 4 * n) by lia. done.
Qed.
End Branches.
