(* ===== verification/PikeVisit.v ===== *)
(** The traversal of the compiler for the Pike virtual machine emits the code of
    the expression: [gen] in both directions. *)

From S2P Require Import Prelude.
From S2P Require Import PosSet.
From S2P Require Import Re.
From S2P Require Import Atoms.
From S2P Require Import Quality.
From S2P Require Import ByteClass.
From S2P Require Import Hir.
From S2P Require Import HirProps.
From S2P Require Import Visit.
From S2P Require Import PikeInstr.
From S2P Require Import PikeSeq.
From S2P Require Import PikeAtoms.
From S2P Require Import PikeAtomsProps.
From S2P Require Import PikeCompiler.
From S2P Require Import PikeCodegen.
From S2P Require Import PikeEmit.
From S2P Require Import PikeTraverse.
From S2P Require Import PikeBranches.
#[local] Open Scope try_scope.

(** * The expressions

    What the parser of [regex_syntax] produces, and the bounds of the code:
    literals are not empty and the offset of their atom fits 16 bits, Unicode
    classes have only ASCII characters, the assertions are the ones that the
    machine has, and the counts of the repetitions are 32-bit. *)
Fixpoint compilable (h : Hir) : Prop :=
  match h with
  | HEmpty => True
  | HLiteral bs => Forall is_u8 bs /\ bs <> [] /\ len bs <= u16_MAX
  | HClass (ClassBytes rs) => canonical rs
  | HClass (ClassUnicode rs) => canonical rs /\ Forall (fun r => snd r <= 127) rs
  | HLook look => is_Some (look_instr look)
  | HRepetition min max _ sub =>
      0 <= min <= u32_MAX /\ match max with Some m => min <= m /\ 1 <= m <= u32_MAX | None => True end /\ compilable sub
  | HCapture sub => compilable sub
  | HConcat subs | HAlternation subs => subs <> [] /\ foldr and True (map compilable subs)
  end.

Lemma compilable_wf h : compilable h -> hir_wf h.
Proof.
  induction h as [|bs|[rs|rs]|l|min max g h IH|h IH|hs IH|hs IH] using hir_ind; cbn; try tauto.
  - intros [_ H]. apply foldr_and_Forall in H. apply foldr_and_Forall. rewrite Forall_forall in *. auto.
  - intros [? H]. split; [done|]. apply foldr_and_Forall in H. apply foldr_and_Forall. rewrite Forall_forall in *. auto.
Qed.

(** Whether the innermost repetition counts. *)
Definition nested (c : Compiler) : bool := default false (head c.(repeats)).

(** Room for the chunks of backward code. *)
Definition room (rest : list ASeq) (h : Hir) : Prop := len rest + 2 * Z.of_nat (hir_size h) + 1 <= usize_MAX.

Section Visit.
Context {BS : BitSlice} {BSL : BitSliceLaws} {B : Type} {BV : BitVec B} {BL : BitVecLaws B}.
Context {LS : LiteralSyntax} {LL : LiteralLaws}.
Local Notation visitor := (compiler_visitor (B := B)).

(** The traversal appends the code of the expression to the code emitted so far
    and leaves the stacks as they were. *)
Definition emits (h : Hir) : Prop :=
  forall f0 b0 rest c F G, prog f0 b0 rest c F G -> atoms_within (len rest) c -> room rest h ->
    yields (traverse visitor h c) (fun c' => kept_within (len rest) c c' /\
      prog f0 b0 rest c' (F ++ gen false (nested c) h) (G ++ gen true (nested c) h)).

Section Node.
Context (f0 b0 : ASeq) (rest : list ASeq).
Local Notation prog := (prog f0 b0 rest).
Local Notation atoms_ok := (atoms_within (len rest)).
Local Notation kept := (kept_within (len rest)).

(** The current sequence of backward code. *)
Lemma seq_within c F G : prog c F G -> 0 <= (backward_code c).(seq_id) <= len rest.
Proof.
  intros Hp. pose proof (f_equal bck_seq_id (prog_location _ _ _ _ _ _ Hp)) as H. cbn in H. rewrite H. pose proof (len_nonneg rest). lia.
Qed.

Lemma at_bck_within l c F G : prog c F G -> loc_within (len rest) (at_bck l c).
Proof. exact (seq_within c F G). Qed.

(** The depths change at every node. *)
Definition entered (c : Compiler) : Compiler := set_depths (wrap_u32 (c.(depth) + 1)) c.(zero_rep_depth) c.

Lemma traverse_leaf h c :
  match h with HEmpty | HLiteral _ | HClass _ | HLook _ => True | _ => False end ->
  traverse visitor h c = visit_post_node (B := B) h (entered c).
Proof. by destruct h. Qed.

Lemma prog_depths d z c F G : prog c F G -> prog (set_depths d z c) F G.
Proof. by apply prog_code. Qed.

(** An emission followed by the extraction of atoms. *)
Lemma emit_extract h E c F G F' G' :
  hir_wf h -> atoms_ok c -> yields (E c) (emitted f0 b0 rest c F G F' G') ->
  yields ('(l, c) ←? E c; extract_node h (at_bck l c) c) (fun c' => kept c c' /\ prog c' (F ++ F') (G ++ G')).
Proof.
  intros Hh Hat He. eapply yields_bind; [exact He|]. intros [l c1] (_ & Hs & Hp).
  assert (Hat1 : atoms_ok c1) by (apply (same_kept _ c c1 Hs), Hat).
  eapply yields_impl; [by apply extract_quiet; [|by eapply at_bck_within|]|]. intros c2 [Hc Hk]. split; [|by eapply prog_code].
  eapply kept_trans; [by apply same_kept|done].
Qed.

Lemma emits_look look c F G :
  is_Some (look_instr look) -> prog c F G -> atoms_ok c ->
  yields (traverse visitor (HLook look) c) (fun c' => kept c c' /\
    prog c' (F ++ gen false (nested c) (HLook look)) (G ++ gen true (nested c) (HLook look))).
Proof.
  intros [op Hop] Hp Hat. rewrite traverse_leaf by done.
  cbn [visit_post_node]. cbn zeta. set (c1 := decrement_depth _).
  eapply yields_impl; [apply (emit_extract (HLook look) _ c1 F G [IPlain op] [IPlain op])|].
  - done.
  - done.
  - unfold visit_post_look. rewrite Hop. cbn [or_panic mbind res_bind]. apply prog_plain; [by apply (prog_code _ _ _ c)|].
    destruct look; try done; injection Hop as <-; by eexists.
  - cbn [gen]. by rewrite Hop.
Qed.

Lemma visit_class_spec cls c F G :
  compilable (HClass cls) -> prog c F G ->
  yields (if any_byte (HClass cls) then emit_instr Instr.ANY_BYTE c else visit_post_class cls c)
    (emitted f0 b0 rest c F G (gen_class (HClass cls) cls) (gen_class (HClass cls) cls)).
Proof.
  intros Hc Hp. unfold gen_class. destruct (any_byte _); [by apply prog_plain|].
  destruct cls as [rs|rs]; cbn [visit_post_class] in *.
  - destruct (class_to_masked_byte rs) as [hb|] eqn:E; [|by apply prog_class].
    apply prog_masked_byte; [done|..]; by eapply class_to_masked_byte_u8.
  - destruct Hc as [Hc Ha]. rewrite (to_byte_class_spec rs Ha). by apply prog_class.
Qed.

Lemma emits_class cls c F G :
  compilable (HClass cls) -> prog c F G -> atoms_ok c ->
  yields (traverse visitor (HClass cls) c) (fun c' => kept c c' /\
    prog c' (F ++ gen false (nested c) (HClass cls)) (G ++ gen true (nested c) (HClass cls))).
Proof.
  intros Hc Hp Hat. rewrite traverse_leaf by done.
  cbn [visit_post_node]. cbn zeta. set (c1 := decrement_depth _).
  eapply yields_impl; [apply (emit_extract (HClass cls)
    (fun c => if any_byte (HClass cls) then emit_instr Instr.ANY_BYTE c else visit_post_class cls c) c1 F G)|].
  - by apply compilable_wf.
  - done.
  - apply visit_class_spec; [done|]. by apply (prog_code _ _ _ c).
  - done.
Qed.

Lemma emits_empty c F G :
  prog c F G -> atoms_ok c ->
  yields (traverse visitor HEmpty c) (fun c' => kept c c' /\ prog c' (F ++ []) (G ++ [])).
Proof.
  intros Hp Hat. rewrite traverse_leaf by done.
  cbn [visit_post_node]. cbn zeta. set (c1 := decrement_depth _). rewrite !app_nil_r.
  assert (Hp1 : prog c1 F G) by by apply (prog_code _ _ _ c).
  destruct (0 <? _); [by apply yields_ok|]. eapply yields_impl.
  - apply (finish_quiet (len rest) _ _ _ c1); [done|by apply (seq_within c1 F G)|]. intros l [= <-]. split; [by repeat constructor|done].
  - intros c2 [Hc Hk]. split; [done|]. by eapply prog_code.
Qed.

Lemma emits_literal bs c F G :
  compilable (HLiteral bs) -> prog c F G -> atoms_ok c ->
  yields (traverse visitor (HLiteral bs) c) (fun c' => kept c c' /\
    prog c' (F ++ gen false (nested c) (HLiteral bs)) (G ++ gen true (nested c) (HLiteral bs))).
Proof.
  intros (Hu & Hne & Hlen) Hp Hat. rewrite traverse_leaf by done.
  cbn [visit_post_node]. cbn zeta. set (c1 := decrement_depth _). unfold post_literal.
  assert (Hp1 : prog c1 F G) by by apply (prog_code _ _ _ c).
  eapply yields_bind; [by apply prog_literal|]. intros [l c2] (_ & Hs & Hp2). cbn [gen].
  assert (Hk2 : kept c c2) by (eapply kept_trans; [|apply same_kept, Hs]; done).
  cbn zeta. destruct (0 <? _); [by apply yields_ok|].
  destruct (best_atom_small bs Hu Hne Hlen) as (a & -> & Ha & Hb). cbn [mbind res_bind].
  unfold index_range. destruct (get_range bs 0 (backtrack a)) as [before|] eqn:Eg.
  2: { exfalso. assert (get_range bs 0 (backtrack a) = Some (slice bs 0 (backtrack a))); [|congruence].
       apply get_range_Some. split; [lia|]. by split; [lia|]. }
  cbn [or_panic mbind res_bind]. eapply yields_impl.
  - apply (finish_quiet (len rest) _ _ _ c2); [by apply Hk2|by eapply (seq_within c2)|]. intros x [= <-]. split; [|done].
    repeat constructor; by destruct Ha.
  - intros c3 [Hc Hk]. split; [by eapply kept_trans|]. by eapply prog_code.
Qed.
End Node.

(** * The children of an expression *)

(** After the child, back in its parent. *)
Definition child (sub : Hir) (c : Compiler) : res (Error + Compiler) :=
  c ←? traverse visitor sub (entered c); ok (decrement_depth c).

Definition height_within (n : Z) (c c' : Compiler) : Prop :=
  under c' = under c /\ (atoms_within n c -> atoms_within n c').

Lemma same_height_trans n c c' c'' : height_within n c c' -> height_within n c' c'' -> height_within n c c''.
Proof. intros [H1 H2] [H3 H4]. split; [congruence|auto]. Qed.

Lemma child_spec sub f0 b0 rest c F G :
  emits sub -> prog f0 b0 rest c F G -> atoms_within (len rest) c -> room rest sub ->
  yields (child sub c) (fun c' => kept_within (len rest) c c' /\
    prog f0 b0 rest c' (F ++ gen false (nested c) sub) (G ++ gen true (nested c) sub)).
Proof.
  intros He Hp Hat Hroom. unfold child. eapply yields_bind.
  { apply (He f0 b0 rest (entered c) F G); [by apply (prog_code _ _ _ c)|done|done]. }
  intros c1 [Hk Hp1]. apply yields_ok. split; [exact Hk|]. by apply (prog_code _ _ _ c1).
Qed.

(** ** Captures *)

Lemma emits_capture sub : emits sub -> hir_wf sub -> emits (HCapture sub).
Proof.
  intros He Hw f0 b0 rest c F G Hp Hat Hroom.
  change (traverse visitor (HCapture sub) c) with
    (and_then (traverse visitor sub (entered (push_bookmark (location c) c))) (visit_post_node (B := B) (HCapture sub))).
  set (c1 := push_bookmark (location c) c).
  assert (H1 : yields (traverse visitor sub (entered c1)) (fun c' => kept_within (len rest) (entered c1) c' /\
    prog f0 b0 rest c' (F ++ gen false (nested c) sub) (G ++ gen true (nested c) sub))).
  { apply (He f0 b0 rest (entered c1) F G); [by apply (prog_code _ _ _ c)|done|]. unfold room in *. cbn [hir_size] in Hroom. lia. }
  eapply yields_bind; [exact H1|]. intros c2 [(K1 & K2 & K3 & K4) Hp2]. cbn [visit_post_node]. cbn zeta.
  rewrite (pop_bookmark_cons (location c) (bookmarks c) (decrement_depth c2) K1), and_then_ok.
  eapply yields_impl; [apply (extract_quiet (len rest)); [| |exact Hw]|].
  - by apply K4.
  - eapply (at_bck_within f0 b0 rest). apply (prog_code _ _ _ c2); [done|exact Hp2].
  - intros c3 [Hc Hk]. split; [|by apply (prog_code _ _ _ c2)]. eapply kept_trans; [|exact Hk]. split_and!; try done.
Qed.

(** ** Repetitions *)

Section Repetition.
Context (f0 b0 : ASeq) (rest : list ASeq) (sub : Hir).
Hypothesis Hsub : emits sub.
Local Notation prog := (prog f0 b0 rest).
Local Notation loc := (loc f0 b0 rest).
Local Notation atoms_ok := (atoms_within (len rest)).
Local Notation kept := (kept_within (len rest)).
Local Notation same_height := (height_within (len rest)).
Local Notation popped := (popped rest).

(** The state inside the repetition: [bm] more bookmarks, and a flag. *)
Definition inside (flag : bool) (bm : list CodeLoc) (c c' : Compiler) : Prop :=
  c'.(bookmarks) = bm ++ c.(bookmarks) /\ c'.(repeats) = flag :: c.(repeats) /\ same_height c c'.

(** The repetition, without its atoms. *)
Definition repetition (min : Z) (max : option Z) (greedy : bool) (c : Compiler) : res (Error + (CodeLoc * Compiler)) :=
  c ←? visit_pre_repetition min max greedy c; c ←? child sub c; visit_post_repetition min max greedy c.

Lemma pop_inside flag bm c c' :
  inside flag bm c c' -> exists c1, pop_repeat c' = ok (flag, c1) /\ code_of c1 = code_of c' /\
    c1.(bookmarks) = bm ++ c.(bookmarks) /\ c1.(repeats) = c.(repeats) /\ same_height c c1.
Proof.
  intros (H1 & H2 & H3). unfold pop_repeat. rewrite H2. eexists. split; [done|]. split; [done|]. split; [done|]. by split.
Qed.

Lemma inside_kept flag bm c c1 c2 : inside flag bm c c1 -> kept c1 c2 -> inside flag bm c c2.
Proof.
  intros (H1 & H2 & H3) (K1 & K2 & K3 & K4). split_and!; [congruence..|]. by eapply same_height_trans.
Qed.

Lemma popped_kept_same c c1 c2 :
  c1.(repeats) = c.(repeats) -> same_height c c1 -> popped c.(bookmarks) c1 c2 -> kept c c2.
Proof. intros H1 H2 (P1 & P2 & P3 & P4). split_and!; [done|congruence|..]; [|]; destruct H2 as [E1 E2]; [congruence|auto]. Qed.

(** The visit of the child, when the state before it is known. *)
Lemma inside_child flag bm c c1 F G :
  inside flag bm c c1 -> prog c1 F G -> atoms_ok c -> room rest sub ->
  yields (child sub c1) (fun c2 => exists c3, pop_repeat c2 = ok (flag, c3) /\ c3.(bookmarks) = bm ++ c.(bookmarks) /\
    c3.(repeats) = c.(repeats) /\ same_height c c3 /\ atoms_ok c3 /\
    prog c3 (F ++ gen false flag sub) (G ++ gen true flag sub)).
Proof.
  intros Hi Hp Hat Hroom. assert (Hn : nested c1 = flag) by (unfold nested; by rewrite (proj1 (proj2 Hi))).
  eapply yields_impl; [apply child_spec; [done|exact Hp|by apply Hi|done]|].
  rewrite Hn. intros c2 [Hk Hp2]. destruct (pop_inside flag bm c c2) as (c3 & H1 & H2 & H3 & H4 & H5); [by eapply inside_kept|].
  exists c3. split; [done|]. split; [done|]. split; [done|]. split; [done|]. split; [by apply H5|]. by apply (prog_code _ _ _ c2).
Qed.

Lemma same_inside flag l c c1 : same c c1 -> inside flag [l] c (push_bookmark l (push_repeat flag c1)).
Proof.
  intros (S1 & S2 & S3). unfold inside, push_bookmark, push_repeat. cbn. rewrite S1, S2. split; [done|]. split; [done|].
  split; [by apply under_stack|by apply atoms_same].
Qed.

Lemma star_repetition greedy c F G :
  prog c F G -> atoms_ok c -> room rest sub ->
  yields (repetition 0 None greedy c) (fun '(_, c') => kept c c' /\
    prog c' (F ++ gen_star greedy (gen false false sub)) (G ++ gen_star greedy (gen true false sub))).
Proof.
  intros Hp Hat Hroom. unfold repetition. cbn [visit_pre_repetition Z.eqb]. rewrite and_then_assoc.
  eapply yields_bind; [by apply prog_split|]. intros [l c1] (-> & Hs & Hp1). rewrite and_then_ok.
  eapply yields_bind.
  { eapply inside_child; [by apply same_inside|by apply (prog_code _ _ _ c1)|done|done]. }
  intros c2 (c3 & Hpop & Hb & Hr & Hh & Hat3 & Hp3). unfold visit_post_repetition. rewrite Hpop, and_then_ok. cbn [Z.eqb].
  eapply yields_impl.
  { eapply post_star_spec; [|exact Hb]. eapply prog_eq; [exact Hp3|by rewrite <- ?app_assoc..]. }
  intros [l' c4] [Hpp Hp4]. split; [by eapply popped_kept_same|done].
Qed.

Lemma unbounded_repetition min greedy c F G :
  1 <= min <= u32_MAX -> prog c F G -> atoms_ok c -> room rest sub ->
  yields (repetition min None greedy c) (fun '(_, c') => kept c c' /\
    prog c' (F ++ gen_repetition false (nested c) min None greedy (gen false false sub))
            (G ++ gen_repetition true (nested c) min None greedy (gen true false sub))).
Proof.
  intros Hmin Hp Hat Hroom. unfold repetition, gen_repetition. cbn [visit_pre_repetition].
  rewrite (proj2 (Z.eqb_neq min 0)) by lia. rewrite and_then_ok, (prog_location _ _ _ _ _ _ Hp).
  eapply yields_bind.
  { eapply inside_child; [by apply (same_inside false _ c c)|by apply (prog_code _ _ _ c)|done|done]. }
  intros c2 (c3 & Hpop & Hb & Hr & Hh & Hat3 & Hp3). unfold visit_post_repetition. rewrite Hpop, and_then_ok.
  rewrite (proj2 (Z.eqb_neq min 0)) by lia. destruct (min =? 1) eqn:E1; bools.
  - eapply yields_impl; [by eapply post_plus_spec|].
    intros [l' c4] [Hpp Hp4]. split; [by eapply popped_kept_same|done].
  - eapply yields_impl; [eapply post_at_least_spec; [lia|done|done|done]|].
    intros [l' c4] [Hpp Hp4]. split; [by eapply popped_kept_same|done].
Qed.

(** Repetitions with an upper bound. *)
Lemma zero_repetition max greedy c F G :
  1 <= max <= u32_MAX -> nested c = false -> REPEAT_INSTR_THRESHOLD < max ->
  prog c F G -> atoms_ok c -> room rest sub ->
  yields (repetition 0 (Some max) greedy c) (fun '(_, c') => kept c c' /\
    prog c' (F ++ gen_repeat_zero max greedy (gen false true sub)) (G ++ gen_repeat_zero max greedy (gen true true sub))).
Proof.
  intros Hmax Hn Ht Hp Hat Hroom. unfold repetition. cbn [visit_pre_repetition Z.eqb]. cbn zeta.
  fold (nested c). rewrite Hn, (proj2 (Z.ltb_lt _ _)) by done. cbn [negb andb]. rewrite and_then_assoc.
  eapply yields_bind; [by apply prog_split|]. intros [l c1] (-> & Hs & Hp1). rewrite and_then_ok.
  rewrite (prog_location _ _ _ _ _ _ Hp1). set (s := ISplit greedy 0 0) in *.
  eapply yields_bind.
  { eapply (inside_child true [loc F G; loc (F ++ [s]) (G ++ [s])]); [|by apply (prog_code _ _ _ c1)|done|done].
    destruct Hs as (S1 & S2 & S3). unfold inside, push_bookmark, push_repeat. cbn. rewrite S1, S2. split; [done|]. split; [done|].
    split; [by apply under_stack|by apply atoms_same]. }
  intros c2 (c3 & Hpop & Hb & Hr & Hh & Hat3 & Hp3). unfold visit_post_repetition. rewrite Hpop, and_then_ok.
  cbn [Z.eqb andb]. rewrite (proj2 (Z.ltb_lt _ _)) by done.
  eapply yields_impl.
  { eapply post_repeat_zero_spec; [unfold is_u32, u32_MAX in *; lia|lia| |exact Hb].
    eapply prog_eq; [exact Hp3|by rewrite <- ?app_assoc..]. }
  intros [l' c4] [Hpp Hp4]. split; [by eapply popped_kept_same|done].
Qed.

Lemma unrolled_repetition min max greedy c F G :
  0 <= min <= max -> 1 <= max <= u32_MAX ->
  negb (nested c) && ((REPEAT_INSTR_THRESHOLD <? min) || (REPEAT_INSTR_THRESHOLD <? max)) = false ->
  prog c F G -> atoms_ok c -> room rest sub ->
  let code e := copies (Z.to_nat min) e ++ gen_optional (Z.to_nat (max - min)) greedy e in
  yields (repetition min (Some max) greedy c) (fun '(_, c') => kept c c' /\
    prog c' (F ++ code (gen false false sub)) (G ++ code (gen true false sub))).
Proof.
  intros Hmin Hmax Hn Hp Hat Hroom code. unfold repetition. cbn [visit_pre_repetition]. cbn zeta. fold (nested c).
  assert ((min =? 0) && negb (nested c) && (REPEAT_INSTR_THRESHOLD <? max) = false) as ->.
  { destruct (min =? 0), (nested c), (REPEAT_INSTR_THRESHOLD <? min), (REPEAT_INSTR_THRESHOLD <? max); done. }
  rewrite Hn.
  assert (Hpost : forall c3, c3.(repeats) = c.(repeats) -> same_height c c3 -> atoms_ok c3 ->
    (if min =? 0
     then prog c3 (F ++ optional greedy (gen false false sub)) (G ++ optional greedy (gen true false sub)) /\
          c3.(bookmarks) = loc (F ++ [ISplit greedy 0 0]) (G ++ [ISplit greedy 0 0]) :: loc F G :: c.(bookmarks)
     else prog c3 (F ++ gen false false sub) (G ++ gen true false sub) /\ c3.(bookmarks) = loc F G :: c.(bookmarks)) ->
    yields (post_unrolled min max greedy c3) (fun '(_, c') => kept c c' /\
      prog c' (F ++ code (gen false false sub)) (G ++ code (gen true false sub)))).
  { intros c3 Hr Hh Hat3 H. eapply yields_impl; [by apply post_unrolled_spec|].
    intros [l' c4] [Hpp Hp4]. split; [by eapply popped_kept_same|done]. }
  assert (Hv : forall c2 c3, pop_repeat c2 = ok (false, c3) ->
    visit_post_repetition min (Some max) greedy c2 = post_unrolled min max greedy c3).
  { intros c2 c3 Hpop. unfold visit_post_repetition. rewrite Hpop, and_then_ok. by destruct (min =? 0). }
  destruct (min =? 0) eqn:E0.
  - rewrite !and_then_assoc. eapply yields_bind; [by apply prog_split|]. intros [l c1] (-> & Hs & Hp1).
    rewrite !and_then_ok. set (s := ISplit greedy 0 0) in *.
    change (location (push_bookmark (loc F G) c1)) with (location c1). rewrite (prog_location _ _ _ _ _ _ Hp1).
    eapply yields_bind.
    { eapply (inside_child false [loc (F ++ [s]) (G ++ [s]); loc F G]); [|by apply (prog_code _ _ _ c1)|done|done].
      destruct Hs as (S1 & S2 & S3). unfold inside, push_bookmark, push_repeat. cbn. rewrite S1, S2. split; [done|]. split; [done|].
      split; [by apply under_stack|by apply atoms_same]. }
    intros c2 (c3 & Hpop & Hb & Hr & Hh & Hat3 & Hp3). rewrite (Hv c2 c3 Hpop). apply Hpost; [done..|].
    split; [|exact Hb]. eapply prog_eq; [exact Hp3|unfold optional; by rewrite <- ?app_assoc..].
  - rewrite !and_then_ok, (prog_location _ _ _ _ _ _ Hp). eapply yields_bind.
    { eapply (inside_child false [loc F G]); [by apply (same_inside false _ c c)|by apply (prog_code _ _ _ c)|done|done]. }
    intros c2 (c3 & Hpop & Hb & Hr & Hh & Hat3 & Hp3). rewrite (Hv c2 c3 Hpop). by apply Hpost.
Qed.

Lemma counted_repetition min max greedy c F G :
  1 <= min <= max -> max <= u32_MAX ->
  negb (nested c) && ((REPEAT_INSTR_THRESHOLD <? min) || (REPEAT_INSTR_THRESHOLD <? max)) = true ->
  prog c F G -> atoms_ok c -> len rest + 2 * (Z.of_nat (hir_size sub) + 1) + 1 <= usize_MAX ->
  let e := gen false true sub in let e' := gen true true sub in
  yields (repetition min (Some max) greedy c) (fun '(_, c') => kept c c' /\
    prog c' (F ++ e ++ gen_loop min max greedy e) (G ++ gen_loop min max greedy e' ++ e')).
Proof.
  intros Hmin Hmax Hn Hp Hat Hroom e e'. unfold repetition. cbn [visit_pre_repetition]. cbn zeta. fold (nested c).
  rewrite (proj2 (Z.eqb_neq min 0)) by lia. cbn [andb]. rewrite Hn, and_then_ok.
  pose proof (prog_location _ _ _ _ _ _ Hp) as Hloc. destruct Hp as (f & b & Hg & Hf & Hb).
  assert (Hsz : 1 <= Z.of_nat (hir_size sub)) by (destruct sub; cbn [hir_size]; lia).
  destruct (good_start c f b rest Hg ltac:(lia)) as (Hg1 & Hb1 & Hr1 & Hbest1).
  set (c1 := start_backward_code_chunk c) in *. set (x := fresh (a_split_id b)) in *.
  change (location (push_repeat true c1)) with (location c1).
  assert (Hp1 : PikeEmit.prog f0 x (b :: rest) c1 F []) by (exists f, x; split_and!; [done..|apply a_ext_refl]).
  rewrite (prog_location _ _ _ _ _ _ Hp1). set (start := PikeEmit.loc f0 x (b :: rest) F []).
  set (c2 := push_bookmark start (push_repeat true c1)).
  assert (Hn2 : nested c2 = true) by done.
  assert (Hat2 : atoms_within (len (b :: rest)) c2).
  { apply (atoms_same _ c); [exact Hbest1|]. apply (atoms_grow (len rest)); [rewrite len_cons; lia|exact Hat]. }
  eapply yields_bind.
  { apply (child_spec sub f0 x (b :: rest) c2 F []); [done|by apply (prog_code _ _ _ c1)|exact Hat2|].
    unfold room. rewrite len_cons. lia. }
  rewrite Hn2. fold e e'. intros c3 [(K1 & K2 & K3 & K4) (f3 & y & Hg3 & Hf3 & Hy)]. cbn [app] in Hy.
  unfold visit_post_repetition, pop_repeat. rewrite K2. cbn [c2 push_bookmark push_repeat set_bookmarks set_repeats repeats].
  rewrite and_then_ok. rewrite (proj2 (Z.eqb_neq min 0)) by lia. cbn [andb].
  assert (Ht : (REPEAT_INSTR_THRESHOLD <? min) || (REPEAT_INSTR_THRESHOLD <? max) = true) by by destruct (nested c).
  rewrite Ht. set (c4 := set_repeats _ c3).
  assert (Hu3 : under c3 = under c) by (rewrite K3; by apply under_stack).
  eapply yields_impl.
  { apply (post_repeat_spec f0 b0 rest min max greedy e e' F G (bookmarks c) f3 y b c4); try done.
    - by apply K4.
    - by apply (under_bounded _ c c3).
    - rewrite len_cons. lia.
    - by eapply good_code; [|exact Hg3].
    - change (bookmarks c4) with (bookmarks c3). rewrite K1. change (bookmarks c2) with (start :: bookmarks c1).
      rewrite Hb1, Hloc. unfold start, PikeEmit.loc. cbn [a_items x fresh]. by rewrite sz_nil. }
  intros [l c5] (P1 & P2 & P3 & P4 & Hp5). split; [|done]. split; [done|]. split; [by rewrite P2; cbn|].
  split; [by rewrite P3|done].
Qed.

Lemma repetition_spec min max greedy c F G :
  compilable (HRepetition min max greedy sub) -> prog c F G -> atoms_ok c -> room rest (HRepetition min max greedy sub) ->
  yields (repetition min max greedy c) (fun '(_, c') => kept c c' /\
    prog c' (F ++ gen false (nested c) (HRepetition min max greedy sub))
            (G ++ gen true (nested c) (HRepetition min max greedy sub))).
Proof.
  intros (Hmin & Hmax & _) Hp Hat Hroom. unfold room in Hroom. cbn [hir_size] in Hroom.
  assert (Hr : room rest sub) by (unfold room; lia). cbn [gen]. unfold gen_repetition, uses_repeat.
  destruct max as [max|].
  - destruct Hmax as [Hmm Hmax]. destruct ((min =? 0) && negb (nested c) && (REPEAT_INSTR_THRESHOLD <? max)) eqn:Ez.
    + apply andb_true_iff in Ez as [[E0 En]%andb_true_iff Et]. bools.
      rewrite (proj2 (Z.ltb_lt _ max)) by done. rewrite orb_true_r, andb_true_r. destruct (nested c) eqn:Enc; [done|].
      subst min. cbn [negb]. by apply zero_repetition.
    + destruct (negb (nested c) && _) eqn:Er.
      * apply counted_repetition; [|lia|done|done|done|lia].
        apply andb_true_iff in Er as [En Et]. rewrite En in Ez. split; [|done].
        destruct (min =? 0) eqn:E0; [|bools; lia]. cbn [andb] in Ez. rewrite Ez, orb_false_r in Et. bools.
        unfold REPEAT_INSTR_THRESHOLD in Et. lia.
      * apply unrolled_repetition; [lia|done..].
  - destruct (min =? 0) eqn:E0; bools.
    + subst. by apply star_repetition.
    + pose proof (unbounded_repetition min greedy c F G ltac:(lia) Hp Hat Hr) as H. unfold gen_repetition in H.
      rewrite (proj2 (Z.eqb_neq min 0)) in H by lia. exact H.
Qed.
End Repetition.

Lemma emits_repetition min max greedy sub :
  emits sub -> compilable (HRepetition min max greedy sub) -> emits (HRepetition min max greedy sub).
Proof.
  intros He Hc f0 b0 rest c F G Hp Hat Hroom.
  set (c0 := if min =? 0 then set_depths c.(depth) (wrap_u32 (c.(zero_rep_depth) + 1)) c else c).
  assert (Htr : traverse visitor (HRepetition min max greedy sub) c =
    and_then (repetition sub min max greedy c0) (fun '(code_loc, c) =>
      let code_loc := at_bck code_loc c in
      let c := if min =? 0 then set_depths c.(depth) (wrap_u32 (c.(zero_rep_depth) - 1)) c else c in
      if min =? 0 then ok c else extract_node (HRepetition min max greedy sub) code_loc c)).
  { cbn [traverse compiler_visitor visit_pre visit_post].
    change (visit_pre_node (HRepetition min max greedy sub) c) with
      (and_then (visit_pre_repetition min max greedy c0) (fun c => ok (entered c))). unfold repetition, child.
    destruct (visit_pre_repetition min max greedy c0) as [[e|c1]| |]; try done.
    cbn [and_then ok mbind res_bind]. fold (entered c1). by destruct (traverse visitor sub (entered c1)) as [[e|c2]| |]. }
  rewrite Htr. assert (Hk0 : kept_within (len rest) c c0) by (subst c0; by destruct (min =? 0)).
  assert (Hp0 : prog f0 b0 rest c0 F G) by (subst c0; destruct (min =? 0); [by apply (prog_code _ _ _ c)|done]).
  assert (Hn : nested c0 = nested c) by (subst c0; by destruct (min =? 0)).
  eapply yields_bind; [apply (repetition_spec f0 b0 rest sub He min max greedy c0 F G Hc Hp0); [by apply Hk0|done]|].
  rewrite Hn. intros [l c1] [Hk1 Hp1]. cbn zeta. destruct (min =? 0).
  - apply yields_ok. split; [by eapply kept_trans|]. by apply (prog_code _ _ _ c1).
  - eapply yields_impl; [apply (extract_quiet (len rest)); [by apply Hk1, Hk0|by eapply at_bck_within|by apply compilable_wf]|].
    intros c2 [Hc2 Hk2]. split; [|by apply (prog_code _ _ _ c1)]. by do 2 (eapply kept_trans; [eassumption|]).
Qed.

(** ** Alternations *)

(** The codes of an expression, the repetitions around it being [n]. *)
Definition codes (n : bool) (h : Hir) : Code := (gen false n h, gen true n h).

Lemma size_pos h : (1 <= hir_size h)%nat.
Proof. destruct h; cbn [hir_size]; lia. Qed.

Lemma size_elem x hs : x ∈ hs -> (hir_size x <= sum_list (map hir_size hs))%nat.
Proof. induction 1 as [y l|y z l Hx IH]; cbn in *; lia. Qed.

Section Alternation.
Context (f0 b0 : ASeq) (rest : list ASeq) (F G F1 G1 : list Item) (bm : list CodeLoc) (rp : list bool) (st : list RegexpAtoms).
Local Notation prog := (prog f0 b0 rest).
Local Notation marks := (marks f0 b0 rest).
Local Notation atoms_ok := (atoms_within (len rest)).

(** The alternatives [todo] are done, and the code of the next one so far is
    [X]. The stack of atoms has one more level for each of them. *)
Definition alt_state (todo : list Code) (X : Code) (c : Compiler) : Prop :=
  prog c (F1 ++ jumps fst todo ++ X.1) (G1 ++ jumps snd todo ++ X.2) /\
  c.(bookmarks) = marks F1 G1 todo ++ loc f0 b0 rest F G :: bm /\ c.(repeats) = rp /\
  (length todo < length c.(best_atoms_stack))%nat /\ drop (S (length todo)) c.(best_atoms_stack) = st /\ atoms_ok c.

Lemma alternative_spec h todo c :
  emits h -> alt_state todo ([], []) c -> room rest h ->
  yields (traverse visitor h c) (alt_state todo (codes (default false (head rp)) h)).
Proof.
  intros He (Hp & Hb & Hr & Hl & Hd & Hat) Hroom. cbn [fst snd] in Hp. rewrite !app_nil_r in Hp.
  eapply yields_impl; [by apply (He f0 b0 rest c _ _ Hp)|]. intros c1 [(K1 & K2 & K3 & K4) Hp1].
  unfold nested in Hp1. rewrite Hr in Hp1. split; [|split_and!; try congruence; auto].
  - eapply prog_eq; [exact Hp1|by rewrite <- ?app_assoc..].
  - by rewrite (under_length _ _ K3).
  - rewrite <- Hd. apply under_drop; [lia|exact K3].
Qed.

Lemma alternation_in_spec X todo c :
  alt_state todo X c -> yields (alternation_in c) (alt_state (X :: todo) ([], [])).
Proof.
  intros (Hp & Hb & Hr & Hl & Hd & Hat). unfold alternation_in. eapply yields_bind; [by apply prog_jump|].
  intros [l c1] (-> & (S1 & S2 & S3) & Hp1). apply yields_ok. cbn zeta.
  rewrite (prog_location _ _ _ _ _ _ Hp1). split_and!.
  - apply (prog_code _ _ _ c1); [done|]. cbn [fst snd jumps]. eapply prog_eq; [exact Hp1|by rewrite ?app_nil_r, <- ?app_assoc..].
  - cbn [marks app]. cbn. rewrite S1, Hb. by rewrite <- ?app_assoc.
  - cbn. by rewrite S2.
  - cbn. rewrite S3. cbn. lia.
  - cbn [length]. change (drop (S (length todo)) (best_atoms_stack c1) = st). by rewrite S3.
  - unfold atoms_within. cbn. split; [done|]. constructor; [done|]. rewrite S3. apply Hat.
Qed.

Lemma alternatives_spec hs h todo c :
  emits h -> Forall emits hs -> alt_state todo ([], []) c -> room rest h -> Forall (room rest) hs ->
  yields (and_then (traverse visitor h c) (visit_rest visitor (visit_alternation_in visitor) hs)) (fun c' =>
    exists todo' last, reverse todo' ++ [last] = reverse todo ++ (codes (default false (head rp)) <$> h :: hs) /\
      alt_state todo' last c').
Proof.
  revert h todo c. induction hs as [|h2 hs IH]; intros h todo c He Hs Hst Hr Hrs.
  - eapply yields_bind; [by apply alternative_spec|]. intros c1 Hst1. apply yields_ok. by eexists todo, _.
  - apply Forall_cons in Hs as [He2 Hs]. apply Forall_cons in Hrs as [Hr2 Hrs].
    eapply yields_bind; [by apply alternative_spec|]. intros c1 Hst1. cbn [visit_rest].
    eapply yields_bind; [by apply (alternation_in_spec _ _ _ Hst1)|]. intros c2 Hst2.
    eapply yields_impl; [by apply (IH h2 _ c2 He2 Hs Hst2 Hr2)|]. intros c3 (todo' & last & Heq & Hst3).
    exists todo', last. split; [|done]. by rewrite Heq, reverse_cons, <- app_assoc.
Qed.
End Alternation.

Lemma emits_alternation hs :
  Forall emits hs -> hs <> [] -> hir_wf (HAlternation hs) -> emits (HAlternation hs).
Proof.
  intros He Hne Hwf f0 b0 rest c F G Hp Hat Hroom. destruct hs as [|h hs]; [done|]. rewrite traverse_alternation.
  cbn [visit_pre visit_post compiler_visitor]. unfold visit_pre_node, visit_pre_alternation. set (n := len (h :: hs)).
  destruct (MAX_ALTERNATIVES <? n) eqn:En; [left; by exists TooManyAlternatives|]. bools.
  assert (Hn : 1 <= n <= u8_MAX) by (subst n; rewrite len_cons in *; pose proof (len_nonneg hs); unfold MAX_ALTERNATIVES, u8_MAX in *; lia).
  rewrite (proj2 (Z.leb_le n u8_MAX)) by lia. cbn [assert mbind res_bind]. rewrite !and_then_assoc.
  eapply yields_bind; [apply prog_split_n; [exact Hp|unfold is_u8, u8_MAX in *; lia]|].
  intros [l0 c1] (-> & (S1 & S2 & S3) & Hp1). rewrite !and_then_ok. cbn zeta.
  set (F1 := F ++ [zero_split n]). set (G1 := G ++ [zero_split n]). set (m := length c.(best_atoms_stack)).
  assert (Hm : (1 <= m)%nat) by (destruct Hat as [H _]; subst m; destruct (best_atoms_stack c); [done|cbn; lia]).
  set (c2 := set_depths _ _ _).
  assert (Hst : alt_state f0 b0 rest F G F1 G1 (bookmarks c) (repeats c) c.(best_atoms_stack) [] ([], []) c2).
  { split_and!.
    - cbn [fst snd jumps]. rewrite !app_nil_r. by apply (prog_code _ _ _ c1).
    - cbn. change (location (push_bookmark (loc f0 b0 rest F G) c1)) with (location c1).
      rewrite (prog_location _ _ _ _ _ _ Hp1). by rewrite S1.
    - cbn. by rewrite S2.
    - cbn. lia.
    - change (drop 1 (regexp_atoms_empty :: best_atoms_stack c1) = best_atoms_stack c). by rewrite S3.
    - split; [done|]. cbn. constructor; [done|]. rewrite S3. apply Hat. }
  apply Forall_cons in He as [Heh He].
  assert (Hrooms : Forall (room rest) (h :: hs)).
  { apply Forall_forall. intros x Hx. unfold room in *. cbn [hir_size] in Hroom.
    pose proof (size_elem x (h :: hs) Hx). lia. }
  apply Forall_cons in Hrooms as [Hrh Hrhs].
  eapply yields_bind; [by apply (alternatives_spec f0 b0 rest F G F1 G1 (bookmarks c) (repeats c) (best_atoms_stack c) hs h [] c2)|].
  fold (nested c). intros c3 (todo & last & Hcs & Hp3 & Hb3 & Hr3 & Hl3 & Hd3 & Hat3). cbn [reverse rev_append app] in Hcs.
  change (rev_append todo []) with (reverse todo) in Hcs.
  set (cs := reverse todo ++ [last]) in *. assert (Hlen : n = len cs) by (rewrite Hcs; subst n; by rewrite len_map).
  set (c4 := decrement_depth c3).
  assert (Hn3 : Z.to_nat n = S (length todo)).
  { rewrite Hlen. unfold len, cs. rewrite length_app, length_reverse. cbn [length]. lia. }
  assert (Hpost : yields (visit_post_alternation n c4) (fun '(_, c') => kept_within (len rest) c c' /\
    prog f0 b0 rest c' (F ++ gen_alternation (fst <$> cs)) (G ++ gen_alternation (snd <$> cs)))).
  { eapply yields_impl; [apply (post_alternation_spec f0 b0 rest n m F G (bookmarks c) todo last c4 Hlen); try done|].
    3: { intros [l c5] (P1 & P2 & P3 & P4 & P5). split; [|done]. split; [done|]. split; [by rewrite P2|]. split; [|done].
         rewrite P3, Hn3. change (best_atoms_stack c4) with (best_atoms_stack c3). by rewrite Hd3. }
    - change (best_atoms_stack c4) with (best_atoms_stack c3). rewrite Hn3. subst m. rewrite <- Hd3, length_drop. lia.
    - by apply (prog_code _ _ _ c3). }
  cbn [visit_post_node]. cbn zeta. fold c4. eapply yields_bind; [exact Hpost|]. intros [l c5] [Hk5 Hp5].
  eapply yields_impl; [apply (extract_quiet (len rest)); [by apply Hk5|by eapply at_bck_within|exact Hwf]|].
  intros c6 [Hc6 Hk6]. split; [by eapply kept_trans|]. apply (prog_code _ _ _ c5); [done|].
  assert (Hfst : fst <$> cs = map (gen false (nested c)) (h :: hs)) by (rewrite Hcs; by rewrite <- list_fmap_compose).
  assert (Hsnd : snd <$> cs = map (gen true (nested c)) (h :: hs)) by (rewrite Hcs; by rewrite <- list_fmap_compose).
  rewrite Hfst, Hsnd in Hp5. exact Hp5.
Qed.

(** ** Concatenations *)

Definition sizes_of (hs : list Hir) : Z := Z.of_nat (sum_list (map hir_size hs)).

Lemma sizes_of_cons h hs : sizes_of (h :: hs) = Z.of_nat (hir_size h) + sizes_of hs.
Proof. unfold sizes_of. cbn. lia. Qed.

Section Concat.
Context (f0 b : ASeq) (rest : list ASeq) (bm : list CodeLoc) (rp : list bool) (below : nat * list RegexpAtoms).
Let n : bool := default false (head rp).

(** The chunks [l] hold the backward codes [Bs]; there is a bookmark for each
    one, and one more for the chunk at the top. *)
Definition concat_state (f : ASeq) (top : ASeq) (l : list ASeq) (Bs : list (list Item)) (F : list Item) (c : Compiler) : Prop :=
  good c f (top :: l ++ b :: rest) /\ a_ext f0 f F /\ stacked b l Bs /\ length l = length Bs /\
  (exists locs, c.(bookmarks) = locs ++ bm /\ length locs = S (length l)) /\ c.(repeats) = rp /\
  under c = below /\ atoms_within (len (l ++ b :: rest)) c.

Lemma concat_child h f l Bs F c :
  emits h -> concat_state f (fresh (top_id l b)) l Bs F c -> room (l ++ b :: rest) h ->
  yields (traverse visitor h c) (fun c' => exists f' y,
    concat_state f' y l Bs (F ++ gen false n h) c' /\ a_ext (fresh (top_id l b)) y (gen true n h)).
Proof.
  intros He (Hg & Hf & Hst & Hlen & Hlocs & Hr & Hm & Hat) Hroom.
  assert (Hp : prog f0 (fresh (top_id l b)) (l ++ b :: rest) c F []).
  { exists f, (fresh (top_id l b)). split; [done|]. split; [done|apply a_ext_refl]. }
  eapply yields_impl; [by apply (He _ _ _ c F [] Hp)|]. intros c1 [(K1 & K2 & K3 & K4) (f' & y & Hg1 & Hf1 & Hy)].
  unfold nested in Hf1, Hy. rewrite Hr in Hf1, Hy. exists f', y. split; [|done].
  split_and!; try done; try congruence; auto. by rewrite K1.
Qed.

(** The next chunk. *)
Lemma concat_next f y l Bs F c B0 :
  concat_state f y l Bs F c -> a_ext (fresh (top_id l b)) y B0 -> len (l ++ b :: rest) + 2 <= usize_MAX ->
  concat_state f (fresh (top_id (y :: l) b)) (y :: l) (B0 :: Bs) F (start_backward_code_chunk c).
Proof.
  intros (Hg & Hf & Hst & Hlen & (locs & Hb & Hlocs) & Hr & Hm & Hat) Hy Hroom.
  destruct (good_start c f y (l ++ b :: rest) Hg Hroom) as (Hg1 & Hb1 & Hr1 & Hbest1).
  unfold concat_state. split; [exact Hg1|]. split; [done|]. split; [done|]. split; [cbn; by rewrite Hlen|].
  split; [exists (location c :: locs); rewrite Hb1, Hb; cbn; split; [done|by rewrite Hlocs]|].
  split; [by rewrite Hr1|]. split; [rewrite <- Hm; by apply under_stack|].
  apply (atoms_same _ c); [done|]. eapply atoms_grow; [|exact Hat]. cbn [app]. rewrite len_cons. lia.
Qed.

Lemma concat_children hs h f l Bs F c :
  emits h -> Forall emits hs -> concat_state f (fresh (top_id l b)) l Bs F c ->
  len (l ++ b :: rest) + 2 * sizes_of (h :: hs) + 1 <= usize_MAX ->
  yields (and_then (traverse visitor h c) (visit_rest visitor (visit_concat_in visitor) hs)) (fun c' =>
    exists f' y l' Bs', concat_state f' y l' Bs' (F ++ concat (map (gen false n) (h :: hs))) c' /\
      stacked b (y :: l') (reverse (map (gen true n) (h :: hs)) ++ Bs) /\ length l' = (length l + length hs)%nat).
Proof.
  revert h f l Bs F c. induction hs as [|h2 hs IH]; intros h f l Bs F c He Hs Hst Hroom.
  - rewrite sizes_of_cons in Hroom. unfold sizes_of in Hroom. cbn in Hroom.
    eapply yields_bind; [apply (concat_child h f l Bs F c He Hst); unfold room; lia|].
    intros c1 (f' & y & Hst1 & Hy). apply yields_ok. exists f', y, l, Bs. cbn [map concat]. rewrite !app_nil_r.
    split; [done|]. split; [|cbn; lia]. split; [done|]. apply Hst1.
  - apply Forall_cons in Hs as [He2 Hs]. rewrite !sizes_of_cons in Hroom.
    pose proof (size_pos h). pose proof (size_pos h2). assert (0 <= sizes_of hs) by (unfold sizes_of; lia).
    eapply yields_bind; [apply (concat_child h f l Bs F c He Hst); unfold room; lia|].
    intros c1 (f' & y & Hst1 & Hy). cbn [visit_rest]. change (visit_concat_in visitor c1) with (ok (start_backward_code_chunk c1)).
    rewrite and_then_ok. pose proof (concat_next f' y l Bs _ c1 _ Hst1 Hy ltac:(lia)) as Hst2.
    eapply yields_impl; [apply (IH h2 f' (y :: l) _ _ _ He2 Hs Hst2)|].
    + cbn [app]. rewrite len_cons, sizes_of_cons. lia.
    + intros c2 (f'' & y' & l' & Bs' & Hst3 & Hstk & Hl'). exists f'', y', l', Bs'. split; [|split].
      * cbn [map concat] in *. by rewrite <- app_assoc in Hst3.
      * cbn [map] in *. rewrite reverse_cons, <- app_assoc. exact Hstk.
      * rewrite Hl'. cbn. lia.
Qed.
End Concat.

Lemma emits_concat hs :
  Forall emits hs -> hs <> [] -> hir_wf (HConcat hs) -> emits (HConcat hs).
Proof.
  intros He Hne Hwf f0 b0 rest c F G Hp Hat Hroom. destruct hs as [|h hs]; [done|]. rewrite traverse_concat_cons.
  cbn [visit_pre visit_post compiler_visitor]. unfold visit_pre_node. rewrite and_then_ok, and_then_ok.
  unfold room in Hroom. cbn [hir_size] in Hroom. fold (sizes_of (h :: hs)) in *.
  assert (Hsz : 0 <= sizes_of hs) by (unfold sizes_of; lia). pose proof (size_pos h) as Hsh.
  assert (Hroom' : len rest + 2 * (sizes_of (h :: hs) + 1) + 1 <= usize_MAX) by (unfold sizes_of; lia).
  rewrite sizes_of_cons in Hroom'. destruct Hp as (f & b & Hg & Hf & Hb).
  destruct (good_start c f b rest Hg ltac:(lia)) as (Hg1 & Hb1 & Hr1 & Hbest1).
  set (c1 := start_backward_code_chunk c) in *. fold (entered c1).
  assert (Hst : concat_state f0 b rest (bookmarks c) (repeats c) (under c) f
    (fresh (top_id [] b)) [] [] F (entered c1)).
  { split; [by eapply good_code; [|exact Hg1]|]. split; [done|]. split; [done|]. split; [done|].
    split; [exists [location c]; by split|]. split; [done|].
    split; [by apply under_stack|]. apply (atoms_same _ c); [done|].
    apply (atoms_grow (len rest)); [cbn [app]; rewrite len_cons; lia|exact Hat]. }
  apply Forall_cons in He as [Heh He].
  eapply yields_bind.
  { apply (concat_children f0 b rest (bookmarks c) (repeats c) (under c) hs h f [] [] F _ Heh He Hst). cbn [app].
    rewrite len_cons, sizes_of_cons. lia. }
  fold (nested c). intros c2 (f2 & y & l & Bs & Hst2 & Hstk & Hl).
  destruct Hst2 as (Hg2 & Hf2 & _ & _ & (locs & Hb2 & Hlocs) & Hr2 & Hm2 & Hat2).
  rewrite app_nil_r in Hstk. set (Ds := reverse (map (gen true (nested c)) (h :: hs))) in *.
  cbn [visit_post_node]. cbn zeta. set (c3 := decrement_depth c2). unfold post_concat.
  assert (Hg3 : good c3 f2 ((y :: l) ++ b :: rest)) by (by eapply good_code; [|exact Hg2]).
  destruct (good_reverse c3 f2 (y :: l) b rest Ds locs (bookmarks c) Hg3 Hstk Hb2 Hlocs (proj1 Hat2))
    as (locations & c4 & best & stack & g & Hrev & Hg4 & Hb4 & Hr4 & Hlocs4 & Hids & Hs3 & Hs4 & Hmap).
  destruct (reversed_atoms (len (y :: l) + len rest) (len rest) c3 c4 best stack g Hs3 Hs4 Hmap) as [Hu4 Hat4].
  { eapply atoms_grow; [|exact Hat2]. rewrite len_app, !len_cons. lia. }
  { change stack with (tail (best :: stack)). rewrite <- Hs3. by apply (under_bounded _ c c3). }
  assert (Hlen : length (y :: l) = length (h :: hs)) by (cbn; by rewrite Hl). rewrite Hlen in Hrev. rewrite Hrev, and_then_ok.
  assert (Hk4 : kept_within (len rest) c c4).
  { split; [by rewrite Hb4|]. split; [by rewrite Hr4; cbn; rewrite Hr2|]. split; [by rewrite Hu4|done]. }
  assert (Hp4 : prog f0 b0 rest c4 (F ++ gen false (nested c) (HConcat (h :: hs))) (G ++ gen true (nested c) (HConcat (h :: hs)))).
  { exists f2, (appended b (y :: l)). split; [exact Hg4|]. split; [exact Hf2|]. eapply a_ext_trans; [exact Hb|].
    by apply (appended_ext b (y :: l) Ds). }
  destruct (0 <? _); [by apply yields_ok|].
  destruct (best_seq_small 0 (extract <$> h :: hs) locations (None, quality_min, code_loc_default))
    as (atoms & q & l' & Hbest & Hl' & Hatoms).
  - apply Forall_fmap, Forall_forall. intros x Hx. apply extract_spec. destruct Hwf as [Hw1 Hw2].
    pose proof (proj1 (foldr_and_Forall hir_wf (h :: hs)) (conj Hw1 Hw2)) as Hws. rewrite Forall_forall in Hws. by apply Hws.
  - done.
  - apply (f_equal length) in Hlocs4. rewrite length_reverse, !length_fmap in Hlocs4.
    unfold len. rewrite length_fmap, Hlocs4, Hlocs, <- Hlen. cbn [length]. lia.
  - done.
  - rewrite Hbest. cbn [mbind res_bind]. eapply yields_impl; [apply (finish_quiet (len rest)); [done| |done]|].
    { pose proof (len_nonneg rest). unfold loc_within. destruct Hl' as [-> | Hin]; [cbn; lia|].
      rewrite Forall_forall in Hids. rewrite (Hids _ Hin). lia. }
    intros c5 [Hc5 Hk5]. split; [by eapply kept_trans|]. by apply (prog_code _ _ _ c4).
Qed.

(** ** Every expression *)

Lemma emits_all h : compilable h -> emits h.
Proof.
  induction h as [|bs|cls|l|min max g h IH|h IH|hs IH|hs IH] using hir_ind; intros Hc.
  - intros f0 b0 rest c F G Hp Hat _. by apply emits_empty.
  - intros f0 b0 rest c F G Hp Hat _. by apply emits_literal.
  - intros f0 b0 rest c F G Hp Hat _. by apply emits_class.
  - intros f0 b0 rest c F G Hp Hat _. by apply emits_look.
  - apply emits_repetition; [apply IH|done]. by destruct Hc as (_ & _ & ?).
  - apply emits_capture; [by apply IH|by apply compilable_wf].
  - pose proof (compilable_wf _ Hc) as Hw. destruct Hc as [Hne Hc%foldr_and_Forall]. apply emits_concat; [|done|done].
    rewrite Forall_forall in *. auto.
  - pose proof (compilable_wf _ Hc) as Hw. destruct Hc as [Hne Hc%foldr_and_Forall]. apply emits_alternation; [|done|done].
    rewrite Forall_forall in *. auto.
Qed.
End Visit.
