(* ===== verification/PikeCompileProps.v ===== *)
(** The result of the compiler for the Pike virtual machine: the code of the
    expression in both directions, followed by the instruction that reports a
    match. *)

From S2P Require Import Prelude.
From S2P Require Import PosSet.
From S2P Require Import Re.
From S2P Require Import Cursor.
From S2P Require Import Atoms.
From S2P Require Import Quality.
From S2P Require Import ByteClass.
From S2P Require Import Hir.
From S2P Require Import HirProps.
From S2P Require Import Visit.
From S2P Require Import PikeInstr.
From S2P Require Import PikeSeq.
From S2P Require Import PikeAtoms.
From S2P Require Import PikeVM.
From S2P Require Import PikeCompiler.
From S2P Require Import PikeCodegen.
From S2P Require Import PikeEmit.
From S2P Require Import PikeTraverse.
From S2P Require Import PikeVisit.
#[local] Open Scope try_scope.

(** The whole code of an expression. *)
Definition gen_code {BS : BitSlice} (bck : bool) (h : Hir) : list Item := gen bck false h ++ [IPlain Instr.MATCH].

(** A sequence holds some code, whose instructions are well formed and whose
    splits have identifiers of their own, in the range of the bit array of the
    machine. *)
Record holds {BS : BitSlice} (s : InstrSeq) (code items : list Item) : Prop := {
  hd_bytes : as_slice s = enc_items items;
  hd_code : erase <$> items = code;
  hd_items : Forall item_ok items;
  hd_unique : NoDup (omap item_split_id items);
  hd_ids : Forall (fun id => 0 <= id < EXECUTED_SPLITS_LEN) (omap item_split_id items);
}.

Section Compile.
Context {BS : BitSlice} {BSL : BitSliceLaws} {B : Type} {BV : BitVec B} {BL : BitVecLaws B}.
Context {LS : LiteralSyntax} {LL : LiteralLaws} {VI : HirVisit} {VL : HirVisitLaws}.

Lemma represents_holds s a code : represents s a -> a_ext a_new a code -> exists items, holds s code items.
Proof.
  intros Hs (items & Hi & He & _ & Hnd & Hids). exists items. cbn in Hi. split; try done.
  - unfold as_slice. by rewrite (rep_code _ _ Hs), Hi.
  - rewrite <- Hi. apply (rep_items _ _ Hs).
  - eapply Forall_impl; [exact Hids|]. cbn. intros id Hid. pose proof (rep_bound _ _ Hs).
    change EXECUTED_SPLITS_LEN with (SplitId_MAX + 1). lia.
Qed.

Lemma prog_new : prog a_new a_new [] compiler_new [] [].
Proof.
  exists a_new, a_new. split; [|split; apply a_ext_refl]. split;
    [apply represents_new|constructor; [apply represents_new|constructor]|done|done].
Qed.

(** The instruction at the end of a sequence. *)
Lemma emit_match s a code :
  represents s a -> a_ext a_new a code ->
  exists s' l items, PikeSeq.emit_instr Instr.MATCH s = inr (s', l) /\ holds s' (code ++ [IPlain Instr.MATCH]) items.
Proof.
  intros Hs Ha. destruct (exec_op_refines (OpInstr Instr.MATCH) s a _ Hs (spec_plain Instr.MATCH a ltac:(by eexists)))
    as (out & Hout & Hr).
  cbn [exec_op] in Hout. destruct (PikeSeq.emit_instr Instr.MATCH s) as [e|[s' l]]; cbn in Hout; injection Hout as <-; [done|].
  destruct Hr as [Hr _]. exists s', l.
  destruct (represents_holds _ _ (code ++ [IPlain Instr.MATCH]) Hr) as [items Hh].
  - eapply a_ext_trans; [exact Ha|]. by apply (a_ext_plain a [IPlain Instr.MATCH]).
  - by exists items.
Qed.

Lemma compile_holds (h : Hir) :
  compilable h -> 2 * Z.of_nat (hir_size h) + 1 <= usize_MAX ->
  yields (compile_internal (B := B) (hir_from h)) (fun '(fwd_code, bck_code, atoms) =>
    (exists items, holds fwd_code (gen_code false h) items) /\
    (exists items, holds bck_code (gen_code true h) items) /\
    1 <= len atoms <= MAX_ATOMS_PER_REGEXP).
Proof.
  intros Hc Hsz. unfold compile_internal. rewrite visit_spec. cbn [hir_from inner].
  eapply yields_bind; [apply (emits_all h Hc a_new a_new [] compiler_new [] [] prog_new)|].
  { split; [done|]. constructor; [|constructor]. by vm_compute. }
  { exact Hsz. }
  intros c ((Hbm & _ & Hst & Hat) & f & b & Hg & Hf & Hb). cbn [app] in Hf, Hb.
  unfold compiler_finish. destruct (best_atoms_stack c) as [|best stack] eqn:Eb; [by unfold under in Hst; rewrite Eb in Hst|]. cbn [and_then ok mbind res_bind].
  pose proof (g_fwd _ _ _ Hg) as Hrf. pose proof (g_bck _ _ _ Hg) as Hrb. unfold backs in Hrb.
  destruct (backward_code_chunks c) as [|ch chs]; cbn [app] in Hrb;
    [|apply Forall2_length in Hrb; cbn in Hrb; rewrite length_app in Hrb; cbn in Hrb; lia].
  apply Forall2_cons in Hrb as [Hrb _].
  destruct (emit_match _ _ _ Hrf Hf) as (s1 & l1 & i1 & -> & H1).
  destruct (emit_match _ _ _ Hrb Hb) as (s2 & l2 & i2 & -> & H2). cbn [and_then mbind res_bind].
  assert (Hbest : bounded_atoms 0 best).
  { destruct Hat as [_ Hat]; [split; [done|]; constructor; [by vm_compute|constructor]|]. rewrite Eb in Hat.
    by apply Forall_cons in Hat as [? _]. }
  destruct Hbest as [Hcount Hids].
  match goal with |- context [if ?b then ?x else ?y] => set (atoms := if b then x else y) end.
  assert (Hatoms : 1 <= len atoms <= MAX_ATOMS_PER_REGEXP).
  { unfold atoms. case_bool_decide as E; [by vm_compute|]. destruct (ra_atoms best) as [|x xs]; [done|].
    rewrite len_cons in *. pose proof (len_nonneg xs). lia. }
  assert (forallb (fun a => a.(la_loc).(bck_seq_id) =? 0) atoms = true) as ->.
  { apply forallb_forall. intros a Ha%list_elem_of_In. apply Z.eqb_eq.
    unfold atoms in Ha. case_bool_decide as E; [by apply list_elem_of_singleton in Ha as ->|].
    rewrite Forall_forall in Hids. specialize (Hids a Ha). unfold loc_within in Hids. lia. }
  cbn [Prelude.assert mbind res_bind]. rewrite (proj2 (Z.leb_le _ _)) by apply Hatoms. cbn [Prelude.assert mbind res_bind]. apply yields_ok.
  split; [by exists i1|]. split; [by exists i2|done].
Qed.

(** C14: the compiler for the virtual machine: for every expression that it
    supports, in which no bound is exceeded by the size of the expression, it does
    not panic: it returns an error, which is not that the expression suits the
    other compiler, or codes that consist of the instructions of the expression
    for a forward and for a backward match and end with the one that reports the
    match; the instructions are well formed, the splits have unique identifiers in
    range, and there are not too many atoms. *)
Theorem compile_emits (h : Hir) :
  compilable h -> 2 * Z.of_nat (hir_size h) + 1 <= usize_MAX ->
  yields (compile_internal (B := B) (hir_from h)) (fun '(fwd_code, bck_code, atoms) =>
    (exists items, holds fwd_code (gen_code false h) items) /\
    (exists items, holds bck_code (gen_code true h) items) /\
    1 <= len atoms <= MAX_ATOMS_PER_REGEXP).
Proof. exact (compile_holds h). Qed.
End Compile.

(** * Instances *)

(** An [x], up to twelve times [ab] or [c] and digits, and the end of a word. *)
Definition sample_pattern : Hir :=
  HConcat [HLiteral [0x78];
           HRepetition 0 (Some 12) true
             (HAlternation [HLiteral [0x61; 0x62];
                            HConcat [HLiteral [0x63]; HRepetition 0 None true (HClass (ClassBytes [(48, 57)]))]]);
           HLook WordAscii].

Lemma sample_pattern_compilable : compilable sample_pattern.
Proof.
  assert (H1 : forall l, forallb (fun b => (0 <=? b) && (b <=? 255)) l = true -> Forall is_u8 l).
  { intros l H. apply Forall_forall. intros b Hb%list_elem_of_In. rewrite forallb_forall in H. apply H in Hb. bools. unfold is_u8, u8_MAX. lia. }
  cbn. split_and!; try done; try (by apply H1); try (by eexists); try (unfold u32_MAX; lia); try (by vm_compute).
  split; repeat constructor; cbn; lia.
Qed.

Lemma compile_emits_witness :
  compilable sample_pattern /\
  yields (compile_internal (BS := lsb0_BitSlice) (B := list bool) (BV := list_BitVec) (LS := list_LiteralSyntax) (hir_from sample_pattern))
    (fun '(fwd_code, bck_code, atoms) =>
      (exists items, holds fwd_code (gen_code false sample_pattern) items) /\
      (exists items, holds bck_code (gen_code true sample_pattern) items) /\
      1 <= len atoms <= MAX_ATOMS_PER_REGEXP).
Proof.
  split; [exact sample_pattern_compilable|]. apply compile_emits; [exact sample_pattern_compilable|by vm_compute].
Defined.

(** It compiles. *)
Example sample_pattern_compiles :
  match compile_internal (BS := lsb0_BitSlice) (B := list bool) (BV := list_BitVec) (LS := list_LiteralSyntax) (hir_from sample_pattern) with
  | Ret (inr (fwd_code, bck_code, _)) => bool_decide (len (as_slice fwd_code) = len (as_slice bck_code))
  | _ => false
  end = true.
Proof. by vm_compute. Qed.
