(* ===== verification/PikeFragments.v ===== *)
(** What the code of the Pike virtual machine accepts, piece by piece: a piece of
    code implements a relation between positions of the input, and the pieces that
    the compiler emits implement the relations of regular expressions. *)

From S2P Require Import Prelude.
From S2P Require Import Hir.
From S2P Require Import PikeInstr.
From S2P Require Import PikeSeq.
From S2P Require Import PikeVM.
From S2P Require Import PikeClosure.
From S2P Require Import PikeRun.
From S2P Require Import PikeExact.
From S2P Require Import PikeCompiler.
From S2P Require Import PikeCodegen.

Section Fragments.
Context {BS : BitSlice} {BSL : BitSliceLaws}.

(** * Steps of the automaton

    An instruction and the number of bytes read so far. *)
Section Steps.
Context (code : list Item) (bw : bool) (before : option Z) (bytes : list Z).

Definition prev_at (n : nat) : option Z := match n with O => before | S k => bytes !! k end.

Inductive cstep : Z * nat -> Z * nat -> Prop :=
  | c_read ip n it b :
      item_at code ip = Some it -> consuming it = true -> is_match_item it = false ->
      bytes !! n = Some b -> item_test it b = true -> cstep (ip, n) (ip + len (enc it), S n)
  | c_eps ip n it ip' :
      item_at code ip = Some it -> ip' ∈ fst <$> pushes it bw (prev_at n) (bytes !! n) ip 0 -> cstep (ip, n) (ip', n).

(** ** The lengths accepted *)

Hypothesis Hnr : no_repeat code = true.

Lemma eps_steps n t t' :
  snd t = 0 -> rtc (eps_step code bw (prev_at n) (bytes !! n)) t t' -> rtc cstep (fst t, n) (fst t', n).
Proof.
  intros H0 Ht. induction Ht as [|x y z (it & Hit & Hy) _ IH]; [done|].
  assert (snd y = 0) as Hy0 by (rewrite <- H0; by apply (pushes_no_repeat code it _ _ _ _ _ _ Hnr Hit Hy)).
  eapply rtc_l; [|by apply IH]. apply (c_eps _ _ it); [done|]. rewrite H0 in Hy. by apply list_elem_of_fmap_2.
Qed.

Lemma nfa_steps ip0 n t : nfa_at code bw before bytes ip0 n t -> rtc cstep (ip0, 0%nat) (fst t, n).
Proof.
  induction 1 as [t H _|n t t' Ht IH (it & Hit & Hm & Hb & H & _)].
  - by apply (eps_steps 0 (ip0, 0)).
  - assert (H0 : snd t = 0) by (eapply nfa_at_no_repeat; [exact Hnr|exact Ht]).
    etransitivity; [exact IH|]. unfold byte_is in Hb. destruct (bytes !! n) as [b|] eqn:Eb; [|done].
    eapply rtc_l; [|apply (eps_steps (S n) (fst t + len (enc it), snd t)); cbn; [done|by rewrite Eb]].
    destruct (nfa_at_reads _ _ _ _ _ _ _ Ht) as (it' & Hit' & Hc). rewrite Hit in Hit'. injection Hit' as <-.
    by eapply c_read.
Qed.

(** The closure in progress. *)
Definition arriving (ip0 : Z) (x : Z * nat) : Prop :=
  match snd x with
  | O => rtc (eps_step code bw before (bytes !! 0%nat)) (ip0, 0) (fst x, 0)
  | S n => exists t it, nfa_at code bw before bytes ip0 n t /\ item_at code (fst t) = Some it /\ is_match_item it = false /\
      byte_is (bytes !! n) (item_test it) = true /\
      rtc (eps_step code bw (bytes !! n) (bytes !! S n)) (fst t + len (enc it), snd t) (fst x, 0)
  end.

Lemma arriving_reads ip0 ip n :
  arriving ip0 (ip, n) -> reads code (ip, 0) -> nfa_at code bw before bytes ip0 n (ip, 0).
Proof.
  unfold arriving. destruct n as [|n]; cbn [fst snd]; intros H Hr; [by constructor|].
  destruct H as (t & it & Ht & Hit & Hm & Hb & H). eapply nfa_move; [exact Ht|]. by exists it.
Qed.

Lemma steps_arriving ip0 x : rtc cstep (ip0, 0%nat) x -> arriving ip0 x.
Proof.
  revert x. apply rtc_ind_r; [apply rtc_refl|]. intros y z _ Hyz IH.
  destruct Hyz as [ip n it b Hit Hc Hm Hb Ht|ip n it ip' Hit Hp].
  - assert (Hn : nfa_at code bw before bytes ip0 n (ip, 0)) by (apply arriving_reads; [done|by exists it]).
    exists (ip, 0), it. split; [done|]. split; [done|]. split; [done|]. split; [by rewrite Hb|]. done.
  - apply list_elem_of_fmap in Hp as ([ip1 r] & -> & Hp). cbn [fst].
    assert (r = 0) as -> by apply (pushes_no_repeat code it _ _ _ _ _ _ Hnr Hit Hp).
    unfold arriving in *. destruct n as [|n]; cbn [fst snd] in *.
    + eapply rtc_r; [exact IH|]. by exists it.
    + destruct IH as (t & it' & Ht & Hit' & Hm & Hb & H). exists t, it'. split_and!; try done.
      eapply rtc_r; [exact H|]. by exists it.
Qed.

Lemma accepts_steps ip0 n :
  accepts code bw before bytes ip0 n <->
  exists ip it, rtc cstep (ip0, 0%nat) (ip, n) /\ item_at code ip = Some it /\ is_match_item it = true.
Proof.
  split.
  - intros (t & Ht & it & Hit & Hm). exists (fst t), it. split; [by apply nfa_steps|done].
  - intros (ip & it & H & Hit & Hm). exists (ip, 0). split; [|by exists it].
    apply arriving_reads; [by apply steps_arriving|]. exists it. split; [done|]. destruct it; try done. cbn in *. by rewrite Hm.
Qed.
End Steps.

(** The identifiers of the splits do not matter. *)
Lemma item_at_erase items ip : item_at (erase <$> items) ip = erase <$> item_at items ip.
Proof.
  unfold item_at. generalize 0. induction items as [|it items IH]; intros addr; [done|].
  cbn [fmap list_fmap item_from]. destruct (ip =? addr); [done|]. by rewrite len_enc_erase, <- IH.
Qed.

Lemma pushes_erase it bw prev curr ip r : pushes (erase it) bw prev curr ip r = pushes it bw prev curr ip r.
Proof. destruct it; try done; cbn [erase pushes]; by rewrite ?sz_split, ?len_enc_split. Qed.

Lemma cstep_erase items bw before bytes x y :
  cstep items bw before bytes x y <-> cstep (erase <$> items) bw before bytes x y.
Proof.
  split; intros [ip n it b Hit Hc Hm Hb Ht|ip n it ip' Hit Hp].
  - rewrite <- (len_enc_erase it). eapply c_read; [by rewrite item_at_erase, Hit|..]; try done; by destruct it.
  - eapply c_eps; [by rewrite item_at_erase, Hit|]. by rewrite pushes_erase.
  - rewrite item_at_erase in Hit. destruct (item_at items ip) as [it'|] eqn:E; [|done]. injection Hit as <-.
    rewrite (len_enc_erase it'). eapply c_read; try done; by destruct it'.
  - rewrite item_at_erase in Hit. destruct (item_at items ip) as [it'|] eqn:E; [|done]. injection Hit as <-.
    rewrite pushes_erase in Hp. by eapply c_eps.
Qed.

(** * Fragments *)

Section Fragment.
Context (code : list Item) (bw : bool) (before : option Z) (bytes : list Z).
Local Notation step := (cstep code bw before bytes).
Local Notation Rel := (nat -> nat -> Prop).

(** Wherever the fragment is, its code goes from its start to its end when the
    positions are related; a path that leaves it goes through its end, at a
    position related to the one at the start. *)
Definition frag (F : list Item) (R : Rel) : Prop :=
  forall pre post, code = pre ++ F ++ post ->
    (forall i j, R i j -> rtc step (sz pre, i) (sz pre + sz F, j)) /\
    (forall n i x j, nsteps step n (sz pre, i) (x, j) -> (x < sz pre \/ sz pre + sz F <= x) ->
       exists m k, (m <= n)%nat /\ R i k /\ nsteps step m (sz pre + sz F, k) (x, j)).

Lemma frag_ext F R R' : frag F R -> (forall i j, R i j <-> R' i j) -> frag F R'.
Proof.
  intros Hf HR pre post Hc. destruct (Hf pre post Hc) as [H1 H2]. split.
  - intros i j Hij. by apply H1, HR.
  - intros n i x j Hn Hx. destruct (H2 n i x j Hn Hx) as (m & k & Hm & Hk & H). exists m, k. by rewrite <- HR.
Qed.

Lemma frag_nil : frag [] eq.
Proof.
  intros pre post _. rewrite sz_nil, Z.add_0_r. split; [intros i j ->; done|].
  intros n i x j Hn _. exists n, i. done.
Qed.

Definition comp (R1 R2 : Rel) : Rel := fun i j => exists k, R1 i k /\ R2 k j.

Lemma frag_app F1 F2 R1 R2 : frag F1 R1 -> frag F2 R2 -> frag (F1 ++ F2) (comp R1 R2).
Proof.
  intros H1 H2 pre post Hc. destruct (H1 pre (F2 ++ post)) as [C1 S1]; [by rewrite Hc, <- app_assoc|].
  destruct (H2 (pre ++ F1) post) as [C2 S2]; [by rewrite Hc, <- !app_assoc|].
  pose proof (sz_nonneg F1). pose proof (sz_nonneg F2). rewrite sz_app in *. rewrite Z.add_assoc. split.
  - intros i j (k & Hk1 & Hk2). etransitivity; [by apply C1|by apply C2].
  - intros n i x j Hn Hx. destruct (S1 n i x j Hn) as (m1 & k1 & Hm1 & HR1 & Hn1); [lia|].
    destruct (S2 m1 k1 x j Hn1) as (m2 & k2 & Hm2 & HR2 & Hn2); [lia|]. exists m2, k2. split; [lia|].
    split; [by exists k1|done].
Qed.

(** ** Single instructions *)

Lemma item_here pre it post : code = pre ++ it :: post -> item_at code (sz pre) = Some it.
Proof. intros Hc. apply item_at_split. by exists pre, post. Qed.

(** The steps at an instruction that reads no input. *)
Lemma step_eps pre it post i y :
  code = pre ++ it :: post -> consuming it = false ->
  step (sz pre, i) y <->
  exists t, y = (t, i) /\ t ∈ fst <$> pushes it bw (prev_at before bytes i) (bytes !! i) (sz pre) 0.
Proof.
  intros Hc Hn. pose proof (item_here _ _ _ Hc) as Hit. split.
  - intros H. inversion H as [? ? it' ? Hit' Hc'|? ? it' t Hit' Hp]; subst; rewrite Hit in Hit'; injection Hit' as <-; [congruence|by exists t].
  - intros (t & -> & Hp). by eapply c_eps.
Qed.

Lemma step_read pre it post i y :
  code = pre ++ it :: post -> consuming it = true -> is_match_item it = false ->
  step (sz pre, i) y <-> exists b, bytes !! i = Some b /\ item_test it b = true /\ y = (sz pre + len (enc it), S i).
Proof.
  intros Hc Hr Hm. pose proof (item_here _ _ _ Hc) as Hit. split.
  - intros H. inversion H as [? ? it' b Hit' ? ? Hb Ht|? ? it' t Hit' Hp]; subst; rewrite Hit in Hit'; injection Hit' as <-; [by exists b|].
    exfalso. apply list_elem_of_fmap in Hp as (u & -> & Hu%pushes_succs). rewrite succs_consuming in Hu by done.
    by apply elem_of_nil in Hu.
  - intros (b & Hb & Ht & ->). by eapply c_read.
Qed.

Lemma path_first n p i x j : nsteps step n (p, i) (x, j) -> x <> p ->
  exists m y, n = S m /\ step (p, i) y /\ nsteps step m y (x, j).
Proof. intros H Hx. inversion H as [|m ? y]; subst; [done|]. by exists m, y. Qed.

(** A single instruction that goes to the next one. *)
Lemma frag_one it (R : Rel) :
  (forall pre post i y, code = pre ++ it :: post -> step (sz pre, i) y <-> exists j, R i j /\ y = (sz pre + len (enc it), j)) ->
  frag [it] R.
Proof.
  intros Hs pre post Hc. cbn [app] in Hc. rewrite sz_one. pose proof (len_enc_pos it). split.
  - intros i j HR. apply rtc_once. rewrite (Hs pre post) by done. by exists j.
  - intros n i x j Hn Hx. apply path_first in Hn as (m & y & -> & Hy & Hn); [|lia].
    rewrite (Hs pre post) in Hy by done. destruct Hy as (k & HR & ->). exists m, k. split; [lia|done].
Qed.

Lemma frag_read it :
  consuming it = true -> is_match_item it = false ->
  frag [it] (fun i j => j = S i /\ exists b, bytes !! i = Some b /\ item_test it b = true).
Proof.
  intros Hc Hm. apply frag_one. intros pre post i y Hcode. rewrite (step_read _ _ _ _ _ Hcode Hc Hm). split.
  - intros (b & Hb & Ht & ->). exists (S i). split; [|done]. split; [done|by exists b].
  - intros (j & (-> & b & Hb & Ht) & ->). by exists b.
Qed.

Lemma frag_assertion op instr :
  plain_instr op = Some instr -> consuming (IPlain op) = false ->
  frag [IPlain op] (fun i j => j = i /\ assertion instr bw (prev_at before bytes i) (bytes !! i) = Some true).
Proof.
  intros Hop Hc. apply frag_one. intros pre post i y Hcode. rewrite (step_eps _ _ _ _ _ Hcode Hc).
  cbn [pushes]. rewrite Hop. cbn [mbind option_bind]. split.
  - intros (t & -> & Ht). destruct (assertion instr bw _ _) as [[]|]; cbn in Ht; try by apply elem_of_nil in Ht.
    apply list_elem_of_singleton in Ht as ->. by exists i.
  - intros (j & (-> & ->) & ->). eexists. split; [done|]. by apply list_elem_of_singleton.
Qed.

(** Instructions that move the execution. *)
Lemma step_split pre is_a o post i y :
  code = pre ++ ISplit is_a 0 o :: post ->
  step (sz pre, i) y <-> y = (sz pre + split_size, i) \/ y = (sz pre + o, i).
Proof.
  intros Hc. rewrite (step_eps _ _ _ _ _ Hc) by done. cbn [pushes]. rewrite sz_split. split.
  - intros (t & -> & Ht). destruct is_a; cbn in Ht; repeat (apply elem_of_cons in Ht as [->|Ht]; [tauto|]); by apply elem_of_nil in Ht.
  - intros [-> | ->]; (eexists; split; [done|]); destruct is_a; cbn; rewrite !elem_of_cons; tauto.
Qed.

Lemma step_jump pre o post i y :
  code = pre ++ IJump o :: post -> step (sz pre, i) y <-> y = (sz pre + o, i).
Proof.
  intros Hc. rewrite (step_eps _ _ _ _ _ Hc) by done. cbn. split.
  - intros (t & -> & ->%list_elem_of_singleton). done.
  - intros ->. eexists. split; [done|]. by apply list_elem_of_singleton.
Qed.

Lemma step_split_n pre os post i y :
  code = pre ++ ISplitN 0 os :: post -> step (sz pre, i) y <-> exists o, o ∈ os /\ y = (sz pre + o, i).
Proof.
  intros Hc. rewrite (step_eps _ _ _ _ _ Hc) by done. cbn [pushes]. setoid_rewrite list_elem_of_fmap.
  setoid_rewrite list_elem_of_fmap. split.
  - intros (t & -> & u & -> & o & -> & Ho). by exists o.
  - intros (o & Ho & ->). eexists. split; [done|]. eexists. split; [|exists o; split; [done|exact Ho]]. done.
Qed.

(** ** Repetitions *)

Fixpoint pow (R : Rel) (n : nat) : Rel :=
  match n with
  | O => eq
  | S n => comp R (pow R n)
  end.

(** At most [n] times. *)
Fixpoint upto (R : Rel) (n : nat) : Rel :=
  match n with
  | O => eq
  | S n => fun i j => i = j \/ comp R (upto R n) i j
  end.

Lemma frag_copies n e R : frag e R -> frag (copies n e) (pow R n).
Proof. intros He. induction n as [|n IH]; [apply frag_nil|]. rewrite copies_S. by apply frag_app. Qed.

Lemma frag_star greedy e R : frag e R -> frag (gen_star greedy e) (rtc R).
Proof.
  intros He pre post Hc. unfold gen_star in *. set (sp := ISplit greedy 0 (split_size + sz e + jump_size)) in *.
  set (jp := IJump (- (split_size + sz e))) in *.
  assert (Hsp : code = pre ++ sp :: (e ++ jp :: post)) by (rewrite Hc; cbn [app]; by rewrite <- app_assoc).
  assert (Hjp : code = (pre ++ sp :: e) ++ jp :: post) by (rewrite Hsp, <- app_assoc; done).
  destruct (He (pre ++ [sp]) (jp :: post)) as [C S]; [by rewrite Hsp, <- app_assoc|].
  pose proof (fun i y => step_split pre greedy _ _ i y Hsp) as Hs1. pose proof (fun i y => step_jump _ _ _ i y Hjp) as Hs2.
  pose proof (sz_nonneg e) as Hsz. unfold sp, jp in *. autorewrite with sz in *. set (p := sz pre) in *.
  replace (p + (split_size + sz e) + - (split_size + sz e)) with p in Hs2 by lia.
  rewrite !Z.add_0_r in *. rewrite !Z.add_assoc in *. split.
  - intros i j Hij. induction Hij as [i|i k j Hik _ IH].
    + apply rtc_once, Hs1. by right.
    + eapply rtc_l; [apply Hs1; by left|]. etransitivity; [apply C, Hik|]. eapply rtc_l; [by apply Hs2|]. exact IH.
  - intros n. induction n as [n IH] using lt_wf_ind. intros i x j Hn Hx.
    apply path_first in Hn as (m & y & -> & Hy & Hn); [|unfold split_size, jump_size in *; lia].
    apply Hs1 in Hy as [-> | ->]; [|by exists m, i; split; [lia|split; [apply rtc_refl|done]]].
    destruct (S m i x j Hn) as (m1 & k & Hm1 & HR & Hn1); [unfold split_size, jump_size in *; lia|].
    apply path_first in Hn1 as (m2 & y & -> & ->%Hs2 & Hn2); [|unfold split_size, jump_size in *; lia].
    destruct (IH m2 ltac:(lia) k x j Hn2 Hx) as (m3 & k' & Hm3 & HR' & Hn3). exists m3, k'. split; [lia|].
    split; [by eapply rtc_l|done].
Qed.

Lemma frag_plus greedy e R : frag e R -> frag (gen_plus greedy e) (comp R (rtc R)).
Proof.
  intros He pre post Hc. unfold gen_plus in *. set (sp := ISplit (negb greedy) 0 (- sz e)) in *.
  destruct (He pre (sp :: post)) as [C S]; [by rewrite Hc, <- app_assoc|].
  assert (Hsp : code = (pre ++ e) ++ sp :: post) by (by rewrite Hc, <- !app_assoc).
  pose proof (fun i y => step_split _ _ _ _ i y Hsp) as Hs. pose proof (sz_nonneg e) as Hsz.
  unfold sp in *. autorewrite with sz in *. set (p := sz pre) in *.
  replace (p + sz e + - sz e) with p in Hs by lia. rewrite !Z.add_0_r in *. rewrite !Z.add_assoc in *. split.
  - assert (Hend : forall k j, rtc R k j -> forall i, R i k -> rtc step (p, i) (p + sz e + split_size, j)).
    { induction 1 as [k|k k' j Hk _ IH]; intros i Hi; (etransitivity; [by apply C|]).
      - apply rtc_once, Hs. by left.
      - eapply rtc_l; [apply Hs; by right|]. by apply IH. }
    intros i j (k & Hk & Hj). by eapply Hend.
  - intros n. induction n as [n IH] using lt_wf_ind. intros i x j Hn Hx.
    destruct (S n i x j Hn) as (m & k & Hm & HR & Hn1); [unfold split_size in *; lia|].
    apply path_first in Hn1 as (m1 & y & -> & Hy & Hn1); [|unfold split_size in *; lia].
    apply Hs in Hy as [-> | ->].
    + exists m1, k. split; [lia|]. split; [|done]. exists k. split; [done|apply rtc_refl].
    + destruct (IH m1 ltac:(lia) k x j Hn1 Hx) as (m2 & k' & Hm2 & (k1 & HR1 & HR2) & Hn2). exists m2, k'. split; [lia|].
      split; [|done]. exists k. split; [done|]. by eapply rtc_l.
Qed.

Lemma gen_at_least_eq min greedy e :
  (2 <= min)%nat -> gen_at_least min greedy e = copies (min - 2) e ++ gen_plus greedy e ++ e.
Proof.
  intros Hmin. unfold gen_at_least, gen_plus. replace (min - 1)%nat with (S (min - 2)) by lia.
  by rewrite copies_snoc, <- !app_assoc.
Qed.

Lemma frag_at_least min greedy e R :
  (2 <= min)%nat -> frag e R -> frag (gen_at_least min greedy e) (comp (pow R (min - 2)) (comp (comp R (rtc R)) R)).
Proof.
  intros Hmin He. rewrite gen_at_least_eq by done.
  apply frag_app; [by apply frag_copies|]. apply frag_app; [by apply frag_plus|done].
Qed.

Lemma frag_optional n greedy e R : frag e R -> frag (gen_optional n greedy e) (upto R n).
Proof.
  intros He. induction n as [|n IH]; [apply frag_nil|]. intros pre post Hc. cbn [gen_optional] in *.
  set (sp := ISplit greedy 0 (Z.of_nat (S n) * (split_size + sz e))) in *.
  assert (Hsp : code = pre ++ sp :: (e ++ gen_optional n greedy e ++ post)) by (rewrite Hc; cbn [app]; by rewrite <- app_assoc).
  destruct (frag_app e (gen_optional n greedy e) R (upto R n) He IH (pre ++ [sp]) post) as [C S]; [by rewrite Hsp, <- !app_assoc|].
  pose proof (fun i y => step_split pre greedy _ _ i y Hsp) as Hs. pose proof (sz_nonneg e). pose proof (sz_nonneg (gen_optional n greedy e)).
  unfold sp in *. autorewrite with sz in *. rewrite sz_gen_optional in *. set (p := sz pre) in *.
  replace (p + (split_size + 0) + (sz e + Z.of_nat n * (split_size + sz e))) with (p + Z.of_nat (Datatypes.S n) * (split_size + sz e)) in * by lia.
  replace (p + (split_size + (sz e + Z.of_nat n * (split_size + sz e)))) with (p + Z.of_nat (Datatypes.S n) * (split_size + sz e)) in * by lia.
  rewrite ?Z.add_0_r in *. split.
  - intros i j [->|Hij]; [apply rtc_once, Hs; by right|]. eapply rtc_l; [apply Hs; by left|]. by apply C.
  - intros m i x j Hn Hx. apply path_first in Hn as (m1 & y & -> & Hy & Hn); [|unfold split_size in *; lia].
    apply Hs in Hy as [-> | ->].
    + destruct (S m1 i x j Hn) as (m2 & k & Hm2 & HR & Hn2); [unfold split_size in *; lia|]. exists m2, k. split; [lia|]. split; [by right|done].
    + exists m1, i. split; [lia|]. split; [by left|done].
Qed.

(** ** Alternations *)

(** Paths from [p] to [q], leaving the code from [lo] to [q]. *)
Definition exits (lo p q : Z) (R : Rel) : Prop :=
  (forall i j, R i j -> rtc step (p, i) (q, j)) /\
  (forall n i x j, nsteps step n (p, i) (x, j) -> (x < lo \/ q <= x) ->
     exists m k, (m <= n)%nat /\ R i k /\ nsteps step m (q, k) (x, j)).

Lemma exits_lo lo lo' p q R : exits lo' p q R -> lo <= lo' -> exits lo p q R.
Proof. intros [H1 H2] Hle. split; [done|]. intros n i x j Hn Hx. apply (H2 n i x j Hn). lia. Qed.

Lemma alternatives_exits codes Rs pre post o0 :
  Forall2 frag codes Rs -> code = pre ++ gen_alternatives codes ++ post ->
  Forall2 (fun o R => exits (sz pre) (sz pre + (o - o0)) (sz pre + sz (gen_alternatives codes)) R)
    (alternative_offsets o0 codes) Rs.
Proof.
  intros H. revert pre o0. induction H as [|c R codes Rs Hc H IH]; intros pre o0 Hcode; [constructor|].
  cbn [alternative_offsets]. destruct codes as [|d codes].
  - inversion H; subst. constructor; [|constructor]. rewrite Z.sub_diag, Z.add_0_r. by apply (Hc pre post).
  - change (gen_alternatives (c :: d :: codes)) with
      (c ++ [IJump (jump_size + sz (gen_alternatives (d :: codes)))] ++ gen_alternatives (d :: codes)) in *.
    set (rest := gen_alternatives (d :: codes)) in *. set (jp := IJump (jump_size + sz rest)) in *.
    assert (Hjp : code = (pre ++ c) ++ jp :: (rest ++ post)) by (rewrite Hcode, <- !app_assoc; done).
    pose proof (fun i y => step_jump _ _ _ i y Hjp) as Hs. pose proof (sz_nonneg c). pose proof (sz_nonneg rest).
    assert (Hrest : code = (pre ++ c ++ [jp]) ++ rest ++ post) by (rewrite Hjp, <- !app_assoc; done).
    specialize (IH _ (o0 + sz c + jump_size) Hrest). unfold jp in *. autorewrite with sz in *.
    constructor.
    + rewrite Z.sub_diag, Z.add_0_r. destruct (Hc pre ([jp] ++ rest ++ post)) as [C S]; [by rewrite Hjp, <- app_assoc|].
      replace (sz pre + (sz c + (jump_size + 0 + sz rest))) with (sz pre + sz c + (jump_size + sz rest)) by lia. split.
      * intros i j HR. etransitivity; [by apply C|]. by apply rtc_once, Hs.
      * intros n i x j Hn Hx. destruct (S n i x j Hn) as (m & k & Hm & HR & Hn1); [unfold jump_size in *; lia|].
        apply path_first in Hn1 as (m1 & y & -> & ->%Hs & Hn1); [|unfold jump_size in *; lia].
        exists m1, k. split; [lia|done].
    + eapply Forall2_impl; [exact IH|]. cbn. intros o R' He.
      replace (sz pre + (sz c + (jump_size + 0)) + (o - (o0 + sz c + jump_size))) with (sz pre + (o - o0)) in He by lia.
      replace (sz pre + (sz c + (jump_size + 0)) + sz rest) with (sz pre + (sz c + (jump_size + 0 + sz rest))) in He by lia.
      eapply exits_lo; [exact He|]. unfold jump_size. lia.
Qed.

Lemma frag_alternation codes Rs : Forall2 frag codes Rs -> frag (gen_alternation codes) (fun i j => Exists (fun R => R i j) Rs).
Proof.
  intros H pre post Hc. unfold gen_alternation in *. set (os := alternative_offsets (5 + 4 * len codes) codes) in *.
  assert (Hsp : code = pre ++ ISplitN 0 os :: (gen_alternatives codes ++ post)) by (rewrite Hc; cbn [app]; done).
  pose proof (fun i y => step_split_n _ _ _ i y Hsp) as Hs.
  assert (Hlen : len os = len codes).
  { subst os. generalize (5 + 4 * len codes). clear. induction codes as [|c codes IH]; intros o; [done|].
    cbn [alternative_offsets]. by rewrite !len_cons, IH. }
  assert (Halt : code = (pre ++ [ISplitN 0 os]) ++ gen_alternatives codes ++ post) by (rewrite Hsp, <- app_assoc; done).
  pose proof (alternatives_exits codes Rs _ post (5 + 4 * len codes) H Halt) as He. fold os in He.
  pose proof (sz_nonneg (gen_alternatives codes)). pose proof (len_nonneg codes). autorewrite with sz in *. rewrite Hlen in *.
  replace (sz pre + (5 + 4 * len codes + 0) + sz (gen_alternatives codes)) with
    (sz pre + (5 + 4 * len codes + 0 + sz (gen_alternatives codes))) in He by lia. split.
  - intros i j HR. apply Exists_exists in HR as (R & HRin & HR). apply list_elem_of_lookup in HRin as [k Hk].
    destruct (Forall2_lookup_r _ _ _ _ _ He Hk) as (o & Ho & C & _).
    eapply rtc_l; [apply Hs; exists o; split; [by eapply list_elem_of_lookup_2|done]|].
    replace (sz pre + o) with (sz pre + (5 + 4 * len codes + 0) + (o - (5 + 4 * len codes))) by lia. by apply C.
  - intros n i x j Hn Hx. apply path_first in Hn as (m & y & -> & Hy & Hn); [|lia].
    apply Hs in Hy as (o & Ho & ->). apply list_elem_of_lookup in Ho as [k Hk].
    destruct (Forall2_lookup_l _ _ _ _ _ He Hk) as (R & HR & _ & S).
    replace (sz pre + o) with (sz pre + (5 + 4 * len codes + 0) + (o - (5 + 4 * len codes))) in Hn by lia.
    destruct (S m i x j Hn) as (m1 & k1 & Hm1 & HR1 & Hn1); [lia|]. exists m1, k1. split; [lia|]. split; [|done].
    apply Exists_exists. exists R. split; [by eapply list_elem_of_lookup_2|done].
Qed.
End Fragment.
End Fragments.
