(* ===== verification/PikeMatches.v ===== *)
(** The code of the Pike virtual machine and the matches of the expression: the
    code emitted for an expression implements the relation between the positions
    of the data where a match starts and ends. *)

From S2P Require Import Prelude.
From S2P Require Import Atoms.
From S2P Require Import ByteClass.
From S2P Require Import Hir.
From S2P Require Import HirProps.
From S2P Require Import PikeInstr.
From S2P Require Import PikeSeq.
From S2P Require Import PikeVM.
From S2P Require Import PikeClosure.
From S2P Require Import PikeRun.
From S2P Require Import PikeExact.
From S2P Require Import PikeCompiler.
From S2P Require Import PikeCodegen.
From S2P Require Import PikeFragments.
From S2P Require Import PikeVisit.

(** * The expressions

    The virtual machine agrees with the assertions of the pattern for these ones;
    the end of a word is wrong in backward scans. *)
Definition exact_look (bck : bool) (l : Look) : bool :=
  match l with
  | Start | End | WordAscii | WordAsciiNegate | WordStartAscii => true
  | WordEndAscii => negb bck
  | _ => false
  end.

(** Expressions without the repeat instruction, whose byte classes are what the
    compiler takes them for. *)
Fixpoint exact_hir (bck : bool) (h : Hir) : Prop :=
  match h with
  | HEmpty | HLiteral _ | HClass (ClassUnicode _) => True
  | HClass (ClassBytes rs) => recognised rs = true
  | HLook l => exact_look bck l = true
  | HRepetition min max _ sub => uses_repeat false min max = false /\ exact_hir bck sub
  | HCapture sub => exact_hir bck sub
  | HConcat subs | HAlternation subs => foldr and True (map (exact_hir bck) subs)
  end.

(** What the semantics of the assertions and of the ASCII classes must be. *)
Class SyntaxLaws `{HirSemantics} := {
  look_matches_spec bck l data i :
    exact_look bck l = true -> look_matches l data i <-> look_at l (get data (i - 1)) (get data i) = true;
  unicode_matches_spec rs w :
    Forall (fun r => 0 <= fst r /\ snd r <= 127) rs ->
    unicode_matches rs w <-> exists c, w = [c] /\ in_class c rs = true;
}.

#[export] Instance ascii_SyntaxLaws : @SyntaxLaws ascii_HirSemantics.
Proof.
  split; [done|]. intros rs w Hrs. cbn. split; [by intros (c & -> & _ & Hc); exists c|].
  intros (c & -> & Hc). exists c. split; [done|]. split; [|done].
  unfold in_class in Hc. apply existsb_exists in Hc as (r & Hr%list_elem_of_In & Hc). rewrite Forall_forall in Hrs.
  apply Hrs in Hr. unfold in_range in Hc. bools. lia.
Qed.

Lemma look_instr_exact bck l op :
  exact_look bck l = true -> look_instr l = Some op ->
  exists instr, plain_instr op = Some instr /\ consuming (IPlain op) = false /\
    forall prev curr, assertion instr bck prev curr =
      Some (look_at l (if bck then curr else prev) (if bck then prev else curr)).
Proof.
  destruct l; try done; intros Hl [= <-]; (eexists; split; [reflexivity|]); (split; [reflexivity|]);
    intros prev curr; cbn [assertion]; f_equal; unfold look_at;
    destruct bck, prev as [b|], curr as [a|]; try done; rewrite ?is_word_byte_char; cbn; bool_cases.
Qed.

(** The masked bytes that the compiler finds have no bits outside of the mask. *)
Lemma class_to_masked_byte_clean rs hb : canonical rs -> class_to_masked_byte rs = Some hb -> clean hb.
Proof.
  intros Hc E. destruct (class_to_masked_byte_u8 _ _ Hc E) as [Hv Hm]. split; [done|]. split; [done|].
  unfold class_to_masked_byte in E. destruct (head rs) as [r1|] eqn:E1; [|done].
  destruct (last rs) as [r2|] eqn:E2; [|done]. cbn [mbind option_bind] in E.
  destruct (forallb _ rs) eqn:Ef; [|done]. destruct (negb _); [done|]. injection E as <-. cbn [hb_value hb_mask] in *.
  assert (Hl : r2 ∈ rs) by by apply last_Some_elem_of. rewrite forallb_forall in Ef.
  specialize (Ef r2 ltac:(by apply list_elem_of_In)). rewrite forallb_forall in Ef.
  assert (Hr : snd r2 ∈ bytes_of_range r2).
  { destruct Hc as [_ Hc]. rewrite Forall_forall in Hc. specialize (Hc _ Hl). unfold bytes_of_range. apply elem_of_seqZ. lia. }
  specialize (Ef (snd r2) ltac:(by apply list_elem_of_In)). bools.
  assert (Hx : Z.land (fst r1) (not_u8 (not_u8 (Z.lxor (snd r2) (fst r1)))) = Z.land (fst r1) (Z.lxor (snd r2) (fst r1))).
  { unfold not_u8. by rewrite Z.lxor_assoc, Z.lxor_nilpotent, Z.lxor_0_r. }
  rewrite Hx. apply Z.bits_inj'. intros n Hn. apply (f_equal (fun z => Z.testbit z n)) in Ef.
  rewrite Z.land_spec in *. rewrite Z.lxor_spec, Z.bits_0. by destruct (Z.testbit (fst r1) n), (Z.testbit (snd r2) n).
Qed.

(** By the direction of the scan. *)
Lemma if_dir {A} (P : A -> Prop) (b : bool) x y : (b = true -> P x) -> (b = false -> P y) -> P (if b then x else y).
Proof. destruct b; auto. Qed.

(** * Positions

    The number of bytes read is a position of the data, which is [left ++ right]
    and is read from the end of [left]. *)
Section Positions.
Context (bck : bool) (left right : list Z).
Local Notation data := (left ++ right).
Local Notation bytes := (oriented bck right left).
Local Notation before := (oriented (negb bck) right left !! 0%nat).
Local Notation Rel := (nat -> nat -> Prop).

Definition pos (n : nat) : Z := if bck then len left - Z.of_nat n else len left + Z.of_nat n.

(** A relation between positions of the data, in the order of the scan. *)
Definition orel (r : Z -> Z -> Prop) : Rel := fun i j => if bck then r (pos j) (pos i) else r (pos i) (pos j).

(** A chain of matches. *)
Definition srel (rs : list (Z -> Z -> Prop)) : Rel := orel (seq_match data rs).

Lemma len_bytes : Z.of_nat (length bytes) = if bck then len left else len data - len left.
Proof. unfold oriented. destruct bck; rewrite ?length_reverse, ?len_app; unfold len; lia. Qed.

Lemma pos_bounds n : (n <= length bytes)%nat -> 0 <= pos n <= len data.
Proof. pose proof len_bytes. unfold pos. rewrite len_app in *. unfold len in *. destruct bck; lia. Qed.

Lemma orel_bounded r i j : bounded data r -> orel r i j -> (i <= j <= length bytes)%nat.
Proof. pose proof len_bytes. unfold orel, pos. intros Hb Hr. destruct bck; apply Hb in Hr as (? & ? & ?); lia. Qed.

Lemma pos_eq i j : pos i = pos j <-> i = j.
Proof. unfold pos. destruct bck; lia. Qed.

Lemma lookup_right (k : nat) : right !! k = get data (len left + Z.of_nat k).
Proof.
  unfold get, len. destruct (_ <? 0) eqn:E; bools; [lia|].
  rewrite lookup_app_r by lia. f_equal. lia.
Qed.

Lemma lookup_left (k : nat) : reverse left !! k = get data (len left - Z.of_nat k - 1).
Proof.
  unfold get, len. destruct (_ <? 0) eqn:E; bools.
  - apply lookup_ge_None_2. rewrite length_reverse. lia.
  - rewrite reverse_lookup by lia. rewrite lookup_app_l by lia. f_equal. lia.
Qed.

Lemma next_byte i : bytes !! i = get data (if bck then pos i - 1 else pos i).
Proof. unfold oriented, pos. destruct bck; [apply lookup_left|apply lookup_right]. Qed.

Lemma prev_byte i : prev_at before bytes i = get data (if bck then pos i else pos i - 1).
Proof.
  unfold oriented, pos. destruct i as [|i]; cbn [prev_at].
  - destruct bck; cbn [negb]; [rewrite lookup_right|rewrite lookup_left]; f_equal; lia.
  - destruct bck; [rewrite lookup_left|rewrite lookup_right]; f_equal; lia.
Qed.

(** ** Chains *)

Lemma srel_nil i j : (i <= length bytes)%nat -> srel [] i j <-> i = j.
Proof.
  intros Hi%pos_bounds. unfold srel, orel. cbn [seq_match].
  destruct bck; (split; [intros [H _]; by apply pos_eq|intros ->; unfold span; lia]).
Qed.

Lemma srel_one r i j : bounded data r -> srel [r] i j <-> orel r i j.
Proof. intros Hb. unfold srel, orel. destruct bck; by apply seq_match_singleton. Qed.

Lemma srel_app rs1 rs2 i j :
  srel (rs1 ++ rs2) i j <-> if bck then comp (srel rs2) (srel rs1) i j else comp (srel rs1) (srel rs2) i j.
Proof.
  unfold srel, orel, comp. pose proof (seq_match_bounded data rs1) as B1. pose proof (seq_match_bounded data rs2) as B2.
  destruct bck eqn:E; rewrite seq_match_app; unfold pos; rewrite E; split.
  - intros (k & H1 & H2). pose proof (B2 _ _ H2) as (? & ? & ?). exists (Z.to_nat (len left - k)).
    replace (len left - Z.of_nat (Z.to_nat (len left - k))) with k by lia. done.
  - intros (k & H1 & H2). by eexists.
  - intros (k & H1 & H2). pose proof (B1 _ _ H1) as (? & ? & ?). exists (Z.to_nat (k - len left)).
    replace (len left + Z.of_nat (Z.to_nat (k - len left))) with k by lia. done.
  - intros (k & H1 & H2). by eexists.
Qed.

Lemma srel_bounded rs i j : srel rs i j -> (i <= j <= length bytes)%nat.
Proof. apply orel_bounded, seq_match_bounded. Qed.

(** Powers of a relation. *)
Lemma srel_replicate r n m i j :
  comp (srel (replicate n r)) (srel (replicate m r)) i j <-> srel (replicate (n + m) r) i j.
Proof.
  destruct bck eqn:E.
  - rewrite Nat.add_comm, replicate_add, srel_app, E. done.
  - rewrite replicate_add, srel_app, E. done.
Qed.

(** * Pieces of code

    A piece of code implements a relation on the positions of the data. *)
Section Pieces.
Context {BS : BitSlice} {BSL : BitSliceLaws} (code : list Item).
Local Notation frag := (frag code bck before bytes).

Definition agrees (R0 R : Rel) : Prop := forall i j, (i <= length bytes)%nat -> R0 i j <-> R i j.

Definition implements (F : list Item) (R : Rel) : Prop := exists R0, frag F R0 /\ agrees R0 R.

Lemma implements_ext F R R' : implements F R -> agrees R R' -> implements F R'.
Proof. intros (R0 & HF & HR) H. exists R0. split; [done|]. intros i j Hi. by rewrite (HR i j Hi), (H i j Hi). Qed.

(** The first relation says where the second one starts. *)
Lemma agrees_comp R0 S0 R S :
  agrees R0 R -> agrees S0 S -> (forall i j, R i j -> (j <= length bytes)%nat) -> agrees (comp R0 S0) (comp R S).
Proof.
  intros HR HS Hb i j Hi. split; intros (k & H1 & H2).
  - apply HR in H1; [|done]. exists k. split; [done|]. apply HS; [by eapply Hb|done].
  - exists k. split; [by apply HR|]. apply HS; [by eapply Hb|done].
Qed.

Lemma implements_nil : implements [] (srel []).
Proof. exists eq. split; [apply frag_nil|]. intros i j Hi. by rewrite srel_nil. Qed.

Lemma implements_app F G rs1 rs2 :
  implements F (srel rs1) -> implements G (srel rs2) ->
  implements (if bck then G ++ F else F ++ G) (srel (rs1 ++ rs2)).
Proof.
  intros (R1 & HF & H1) (R2 & HG & H2). pose proof (srel_app rs1 rs2) as Ha.
  assert (Hb : forall rs i j, srel rs i j -> (j <= length bytes)%nat) by (intros rs i j H%srel_bounded; lia).
  apply (if_dir (fun l => implements l _)); intros E; (eexists; split; [by apply frag_app|]);
    intros i j Hi; rewrite (Ha i j), E.
  - apply (agrees_comp _ _ _ _ H2 H1); [apply Hb|done].
  - apply (agrees_comp _ _ _ _ H1 H2); [apply Hb|done].
Qed.

(** The pieces of a concatenation. *)
Lemma implements_concat (codes : list (list Item)) rs :
  Forall2 (fun c r => implements c (srel [r])) codes rs ->
  implements (concat (if bck then reverse codes else codes)) (srel rs).
Proof.
  induction 1 as [|c r codes rs Hc _ IH]; [destruct bck; apply implements_nil|].
  pose proof (implements_app c _ [r] rs Hc IH) as H. destruct bck; [|exact H].
  by rewrite reverse_cons, concat_app; cbn [concat]; rewrite app_nil_r.
Qed.

(** ** Instructions *)

Lemma implements_byte it r :
  consuming it = true -> is_match_item it = false ->
  (forall i j, r i j <-> span data i j /\ j = i + 1 /\ exists b, get data i = Some b /\ item_test it b = true) ->
  implements [it] (orel r).
Proof.
  intros Hc Hm Hr. eexists. split; [by apply frag_read|]. intros i j Hi. unfold orel. rewrite next_byte.
  pose proof (pos_bounds i Hi) as Hp. destruct bck eqn:E; rewrite Hr; unfold pos in *; rewrite ?E in *; unfold span.
  - split.
    + intros (-> & b & Hb & Ht). pose proof (get_lt _ _ _ Hb). split; [lia|]. split; [lia|]. exists b.
      split; [|done]. rewrite <- Hb. f_equal. lia.
    + intros (_ & Hj & b & Hb & Ht). split; [lia|]. exists b. split; [|done]. rewrite <- Hb. f_equal. lia.
  - split.
    + intros (-> & b & Hb & Ht). pose proof (get_lt _ _ _ Hb). split; [lia|]. split; [lia|]. by exists b.
    + intros (_ & Hj & b & Hb & Ht). split; [lia|]. by exists b.
Qed.

Lemma get_range_one (l : list Z) i j b :
  get_range l i j = Some [b] <-> span l i j /\ j = i + 1 /\ get l i = Some b.
Proof.
  rewrite get_range_Some. unfold span. split.
  - intros (H1 & H2 & Hb). assert (Hl : len [b] = j - i) by (rewrite Hb; apply len_slice; lia).
    change (len [b]) with 1 in Hl. split; [lia|]. split; [lia|].
    pose proof (get_slice l i j 0) as Hg. rewrite Z.add_0_r in Hg. rewrite <- Hg by lia. by rewrite <- Hb.
  - intros ((H1 & H2 & H3) & -> & [_ Hb]%get_Some). split; [lia|]. split; [lia|]. unfold slice.
    replace (Z.to_nat (i + 1 - i)) with 1%nat by lia. by rewrite (drop_S _ _ _ Hb).
Qed.

(** A literal is a chain of bytes. *)
Definition byte_rel (b : Z) (i j : Z) : Prop := get_range data i j = Some [b].

Lemma literal_chain bs i j : get_range data i j = Some bs <-> seq_match data (byte_rel <$> bs) i j.
Proof.
  revert i. induction bs as [|b bs IH]; intros i.
  - cbn [fmap list_fmap seq_match]. rewrite get_range_Some. unfold span. split.
    + intros (H1 & H2 & H). assert (len (@nil Z) = j - i) by (rewrite H; apply len_slice; lia).
      change (len (@nil Z)) with 0 in *. lia.
    + intros [-> H]. split; [lia|]. split; [lia|]. unfold slice. by rewrite Z.sub_diag.
  - cbn [fmap list_fmap seq_match]. setoid_rewrite <- IH. change (b :: bs) with ([b] ++ bs).
    rewrite get_range_app. split.
    + intros (k & H1 & H2). exists k. split; [by eapply get_range_span|done].
    + intros (k & _ & H1 & H2). by exists k.
Qed.

Lemma implements_literal bs : implements (IByte <$> (if bck then reverse bs else bs)) (orel (fun i j => get_range data i j = Some bs)).
Proof.
  apply (implements_ext _ (srel (byte_rel <$> bs)));
    [|by intros i j _; unfold srel, orel; destruct bck; symmetry; apply literal_chain].
  assert (IByte <$> (if bck then reverse bs else bs) =
          concat (if bck then reverse ((fun b => [IByte b]) <$> bs) else (fun b => [IByte b]) <$> bs)) as ->.
  { destruct bck; rewrite <- ?fmap_reverse; [generalize (reverse bs) as l|generalize bs as l]; intros l;
      (induction l as [|b l IH]; [done|]; cbn; by rewrite IH). }
  apply implements_concat. rewrite Forall2_fmap. apply Forall_Forall2_diag, Forall_forall. intros b _.
  eapply implements_ext; [apply (implements_byte (IByte b) (byte_rel b)); try done|].
  - intros i j. unfold byte_rel. rewrite get_range_one. cbn [item_test instr_of]. setoid_rewrite Z.eqb_eq. naive_solver.
  - intros i j _. rewrite srel_one; [done|]. intros i' j' [? _]%get_range_one. done.
Qed.

Lemma implements_look l op :
  exact_look bck l = true -> look_instr l = Some op ->
  implements [IPlain op] (orel (fun i j => i = j /\ span data i j /\ look_at l (get data (i - 1)) (get data i) = true)).
Proof.
  intros Hl Hop. destruct (look_instr_exact bck l op Hl Hop) as (instr & Hi & Hc & Ha).
  eexists. split; [by eapply frag_assertion|]. intros i j Hle. cbn beta. rewrite Ha, prev_byte, next_byte.
  pose proof (pos_bounds i Hle) as Hp. unfold orel, span. rewrite <- (pos_eq j i).
  destruct bck; (split; [intros [-> [= H]]; by split_and!; try lia|intros (H1 & _ & H); split; congruence]).
Qed.

(** ** Repetitions *)

Section Repetition.
Context (e : list Item) (r : Z -> Z -> Prop) (Hr : bounded data r).

(** A number of times in a set. *)
Definition times (P : nat -> Prop) : Rel := fun i j => exists n, P n /\ srel (replicate n r) i j.

Lemma times_ext R0 (P Q : nat -> Prop) : agrees R0 (times P) -> (forall n, P n <-> Q n) -> agrees R0 (times Q).
Proof. intros H HPQ i j Hi. rewrite (H i j Hi). unfold times. by setoid_rewrite HPQ. Qed.

Lemma times_zero : agrees eq (times (fun n => n = 0%nat)).
Proof.
  intros i j Hi. unfold times. split.
  - intros ->. exists 0%nat. split; [done|]. by apply srel_nil.
  - intros (n & -> & H). by apply srel_nil in H.
Qed.

Lemma times_one R0 : agrees R0 (orel r) -> agrees R0 (times (fun n => n = 1%nat)).
Proof.
  intros H i j Hi. rewrite (H i j Hi). unfold times. split.
  - intros H1. exists 1%nat. split; [done|]. by apply srel_one.
  - intros (n & -> & H1). change (replicate 1 r) with [r] in H1. by rewrite srel_one in H1.
Qed.

Lemma times_comp R0 S0 P Q :
  agrees R0 (times P) -> agrees S0 (times Q) ->
  agrees (comp R0 S0) (times (fun n => exists a b, n = (a + b)%nat /\ P a /\ Q b)).
Proof.
  intros HR HS i j Hi. pose proof (agrees_comp _ _ _ _ HR HS) as H. rewrite (H ltac:(intros i' j' (n & _ & H'%srel_bounded); lia) i j Hi).
  clear H. split.
  - intros (k & (a & Ha & H1) & (b & Hb & H2)). exists (a + b)%nat. split; [by exists a, b|].
    apply srel_replicate. by exists k.
  - intros (n & (a & b & -> & Ha & Hb) & (k & H1 & H2)%srel_replicate). exists k. split; [by exists a|by exists b].
Qed.

Lemma times_pow R0 n : agrees R0 (orel r) -> agrees (pow R0 n) (times (fun m => m = n)).
Proof.
  intros H. induction n as [|n IH]; [apply times_zero|]. cbn [pow].
  eapply times_ext; [apply times_comp; [by apply times_one|exact IH]|]. cbn. intros m. split.
  - intros (a & b & -> & -> & ->). done.
  - intros ->. by exists 1%nat, n.
Qed.

Lemma times_upto R0 n : agrees R0 (orel r) -> agrees (upto R0 n) (times (fun m => (m <= n)%nat)).
Proof.
  intros H. induction n as [|n IH].
  - eapply times_ext; [apply times_zero|]. cbn. lia.
  - intros i j Hi. cbn [upto].
    rewrite (times_zero i j Hi), (times_comp _ _ _ _ (times_one _ H) IH i j Hi). split.
    + intros [(m & -> & Hm)|(m & (a & b & -> & -> & Hb) & Hm)]; (eexists; split; [|exact Hm]); cbn; lia.
    + intros (m & Hle & Hm). destruct m as [|m]; [left|right]; (eexists; split; [|exact Hm]); cbn; [done|].
      exists 1%nat, m. split; [lia|]. split; [done|lia].
Qed.

Lemma times_rtc R0 : agrees R0 (orel r) -> agrees (rtc R0) (times (fun _ => True)).
Proof.
  intros H i j Hi. split.
  - intros Hij. revert Hi. induction Hij as [i|i k j Hik _ IH]; intros Hi.
    + exists 0%nat. split; [done|]. by apply srel_nil.
    + apply H in Hik; [|done]. destruct IH as (n & _ & Hn); [by apply (orel_bounded _ _ _ Hr) in Hik as [_ ?]|].
      exists (1 + n)%nat. split; [done|]. apply srel_replicate. exists k. split; [by apply srel_one|done].
  - intros (n & _ & Hn). revert i Hi Hn. induction n as [|n IH]; intros i Hi Hn.
    + apply srel_nil in Hn as ->; [apply rtc_refl|done].
    + apply (srel_replicate r 1 n) in Hn as (k & Hk & Hn). change (replicate 1 r) with [r] in Hk. rewrite srel_one in Hk by done.
      eapply rtc_l; [by apply H|]. apply IH; [|done]. by apply (orel_bounded _ _ _ Hr) in Hk as [_ ?].
Qed.

(** All the repetitions without the repeat instruction. *)
Lemma implements_repetition b min max greedy :
  0 <= min -> (forall m, max = Some m -> min <= m) -> uses_repeat false min max = false ->
  implements e (orel r) ->
  implements (gen_repetition b false min max greedy e)
    (times (fun n => min <= Z.of_nat n /\ forall m, max = Some m -> Z.of_nat n <= m)).
Proof.
  intros Hmin Hmax Hu (R0 & He & HR). unfold gen_repetition, uses_repeat in *. destruct max as [max|].
  - specialize (Hmax max eq_refl). cbn [negb andb] in *. rewrite Hu.
    apply orb_false_elim in Hu as [_ ->]. rewrite andb_false_r.
    eexists. split; [apply frag_app; [by apply frag_copies|by apply frag_optional]|].
    eapply times_ext; [apply times_comp; [by apply times_pow|by apply times_upto]|]. cbn. intros n. split.
    + intros (a & b' & -> & -> & Hb). split; [lia|]. intros m [= <-]. lia.
    + intros [H1 H2]. specialize (H2 max eq_refl). exists (Z.to_nat min), (n - Z.to_nat min)%nat. lia.
  - pose proof (times_one _ HR) as H1. pose proof (times_rtc _ HR) as H2. destruct (min =? 0) eqn:E0; bools.
    { eexists. split; [by apply frag_star|]. eapply times_ext; [exact H2|]. cbn. intros n. split; [intros _|done].
      split; [lia|done]. }
    destruct (min =? 1) eqn:E1; bools.
    { eexists. split; [by apply frag_plus|]. eapply times_ext; [by apply times_comp|]. cbn. intros n. split.
      - intros (a & b' & -> & -> & _). split; [lia|done].
      - intros [? _]. exists 1%nat, (n - 1)%nat. lia. }
    eexists. split; [apply frag_at_least; [lia|done]|].
    eapply times_ext; [apply times_comp; [by apply times_pow|apply times_comp; [by apply times_comp|exact H1]]|].
    cbn. intros n. split.
    + intros (a & b' & -> & -> & c & d & -> & (c1 & c2 & -> & -> & _) & ->). split; [lia|done].
    + intros [? _]. exists (Z.to_nat min - 2)%nat, (n - (Z.to_nat min - 2))%nat. split; [lia|]. split; [done|].
      exists (n - (Z.to_nat min - 2) - 1)%nat, 1%nat. split; [lia|]. split; [|done].
      exists 1%nat, (n - (Z.to_nat min - 2) - 2)%nat. lia.
Qed.
End Repetition.

(** ** Alternations and classes *)

Lemma implements_alternation codes rs :
  Forall2 (fun c r => implements c (orel r)) codes rs ->
  implements (gen_alternation codes) (orel (fun i j => Exists (fun r => r i j) rs)).
Proof.
  intros H. assert (exists Rs, Forall2 frag codes Rs /\ Forall2 (fun R0 r => agrees R0 (orel r)) Rs rs) as (Rs & HF & Ha).
  { induction H as [|c r codes rs (R0 & H1 & H2) _ (Rs & H3 & H4)]; [by exists []|]. exists (R0 :: Rs). by split; constructor. }
  eexists. split; [by apply frag_alternation|]. intros i j Hi.
  assert (orel (fun i j => Exists (fun r => r i j) rs) i j <-> Exists (fun r => orel r i j) rs) as -> by (unfold orel; by destruct bck).
  clear H HF. induction Ha as [|R0 r Rs rs HR _ IH]; [by rewrite !Exists_nil|]. by rewrite !Exists_cons, IH, (HR i j Hi).
Qed.

Context {HS : HirSemantics} {SL : SyntaxLaws} (Hdata : Forall is_u8 data).

Lemma get_u8 i b : get data i = Some b -> is_u8 b.
Proof. intros [_ H]%get_Some. by eapply Forall_lookup_1 in H. Qed.

Lemma class_test rs hb b :
  canonical rs -> recognised rs = true -> class_to_masked_byte rs = Some hb -> is_u8 b ->
  item_test (IMasked hb.(hb_value) hb.(hb_mask)) b = in_class b rs.
Proof.
  intros Hc Hr E Hb. unfold recognised in Hr. rewrite E in Hr. apply class_isb_spec in Hr.
  apply eq_iff_eq_true. rewrite (Hr b Hb). cbn. unfold hex_byte_matches, byte_matches.
  by rewrite Z.eqb_eq, (clean_land hb (class_to_masked_byte_clean rs hb Hc E)).
Qed.

(** An instruction that tests for the bytes of a class. *)
Lemma implements_class it rs :
  consuming it = true -> is_match_item it = false ->
  (forall b, is_u8 b -> item_test it b = in_class b rs) ->
  implements [it] (orel (fun i j => exists b, get_range data i j = Some [b] /\ in_class b rs = true)).
Proof.
  intros Hc Hm Ht. apply implements_byte; [done..|]. intros i j. setoid_rewrite get_range_one. split.
  - intros (b & (H1 & H2 & H3) & H4). split; [done|]. split; [done|]. exists b. split; [done|]. by rewrite (Ht b (get_u8 _ _ H3)).
  - intros (H1 & H2 & b & H3 & H4). exists b. split; [done|]. by rewrite <- (Ht b (get_u8 _ _ H3)).
Qed.

Lemma item_test_class rs b : canonical rs -> is_u8 b -> item_test (IClass rs) b = in_class b rs.
Proof.
  intros Hc Hb. rewrite <- class_instr_contains_spec by done. unfold item_test. cbn [instr_of]. by destruct (_ <? _).
Qed.

Lemma implements_gen_class class :
  compilable (HClass class) -> exact_hir bck (HClass class) ->
  implements (gen_class (HClass class) class) (orel (hmatch (HClass class) data)).
Proof.
  intros Hc Hx. unfold gen_class. destruct (any_byte (HClass class)) eqn:Ea.
  - apply any_byte_class in Ea as [= ->]; [|by apply compilable_wf]. apply implements_class; [done..|].
    intros b Hb. cbn. unfold in_range, is_u8 in *. cbn. lia.
  - destruct class as [rs|rs]; cbn [compilable exact_hir hmatch] in *.
    + destruct (class_to_masked_byte rs) as [hb|] eqn:E; (apply implements_class; [done..|]); intros b Hb;
        [by apply class_test|by apply item_test_class].
    + destruct Hc as [Hc Hr]. eapply implements_ext.
      * apply (implements_class (IClass rs) rs); [done..|]. intros b Hb. by apply item_test_class.
      * assert (Hs : Forall (fun r => 0 <= fst r /\ snd r <= 127) rs).
        { destruct Hc as [_ Hc]. rewrite Forall_forall in *. intros x Hin. specialize (Hc x Hin). specialize (Hr x Hin). lia. }
        intros i j _. unfold orel. pose proof (fun w => unicode_matches_spec rs w Hs) as Hw.
        destruct bck; (split; [intros (b & H1 & H2); exists [b]; split; [done|apply Hw; by exists b]
                              |intros (w & H1 & (b & -> & H2)%Hw); by exists b]).
Qed.

(** ** Every expression *)

Lemma implements_all h :
  compilable h -> exact_hir bck h -> implements (gen bck false h) (orel (hmatch h data)).
Proof.
  induction h as [|bs|cls|l|min max g h IH|h IH|hs IH|hs IH] using hir_ind; intros Hc Hx; cbn [gen].
  - apply implements_nil.
  - apply implements_literal.
  - by apply implements_gen_class.
  - destruct Hc as [op Hop]. rewrite Hop. cbn in Hx. eapply implements_ext; [by apply implements_look|].
    intros i j _. unfold orel. cbn [hmatch]. destruct bck; by rewrite (look_matches_spec _ l data _ Hx).
  - destruct Hc as (H1 & H2 & H3), Hx as [Hu Hx]. rewrite Hu.
    eapply implements_ext; [apply (implements_repetition _ (hmatch h data)); try done; [apply hmatch_bounded|lia| |by apply IH]|].
    { intros m ->. lia. }
    intros i j _. unfold times, srel, orel. cbn [hmatch]. destruct bck; naive_solver.
  - by apply IH.
  - destruct Hc as [_ Hc%foldr_and_Forall]. cbn in Hx. apply foldr_and_Forall in Hx. cbn zeta.
    apply implements_concat. cbn [hmatch].
    rewrite Forall_forall in *. clear -IH Hc Hx. induction hs as [|h hs IHhs]; cbn [map]; constructor.
    + eapply implements_ext; [apply (IH h); [left|apply Hc; left|apply Hx; left]|].
      intros i j _. rewrite srel_one; [done|]. apply hmatch_bounded.
    + apply IHhs; intros x ?; [apply IH|apply Hc|apply Hx]; by right.
  - destruct Hc as [_ Hc%foldr_and_Forall]. cbn in Hx. apply foldr_and_Forall in Hx.
    apply implements_alternation.
    rewrite Forall_forall in *. clear -IH Hc Hx. induction hs as [|h hs IHhs]; cbn [map]; constructor.
    + apply (IH h); [left|apply Hc; left|apply Hx; left].
    + apply IHhs; intros x ?; [apply IH|apply Hc|apply Hx]; by right.
Qed.
End Pieces.
End Positions.
