(* ===== verification/PikeWired.v ===== *)
(** The code that the compiler emits can be run by the Pike virtual machine: the
    jumps go to instructions of the code, and no cycle consists of instructions
    that neither read input nor are splits. *)

From S2P Require Import Prelude.
From S2P Require Import ByteClass.
From S2P Require Import Hir.
From S2P Require Import PikeInstr.
From S2P Require Import PikeSeq.
From S2P Require Import PikeVM.
From S2P Require Import PikeClosure.
From S2P Require Import PikeRun.
From S2P Require Import PikeCompiler.
From S2P Require Import PikeCodegen.
From S2P Require Import PikeVisit.
From S2P Require Import PikeCompileProps.
From S2P Require Import PikeMatches.

Section Wired.
Context {BS : BitSlice} {BSL : BitSliceLaws}.

(** * Jumps inside a piece of code *)

Definition moving (it : Item) : bool := negb (consuming it || is_split_item it).

(** The targets of the instruction after [p] are boundaries of the code; the ones
    of a jump or an assertion come later or are splits. *)
Definition ok_at (F p : list Item) (it : Item) : Prop :=
  forall t, t ∈ targets it (sz p) ->
    exists p' q', F = p' ++ q' /\ t = sz p' /\
      (moving it = true -> (length p < length p')%nat \/ exists x, head q' = Some x /\ is_split_item x = true).

(** All the instructions of [mid], which is in [F] after [pre]. *)
Definition ok_in (F pre mid : list Item) : Prop :=
  forall p it q, mid = p ++ it :: q -> ok_at F (pre ++ p) it.

Definition wired (F : list Item) : Prop := ok_in F [] F.

Lemma ok_in_nil F pre : ok_in F pre [].
Proof. by intros [|x p] it q. Qed.

Lemma ok_in_one F pre it : ok_at F pre it -> ok_in F pre [it].
Proof. intros H [|x [|y p]] it' q [= -> ]; [by rewrite app_nil_r|done..]. Qed.

Lemma ok_in_app F pre m1 m2 : ok_in F pre m1 -> ok_in F (pre ++ m1) m2 -> ok_in F pre (m1 ++ m2).
Proof.
  intros H1 H2 p it q E. apply app_eq_app in E as (k & [[E1 E2]|[E1 E2]]).
  - destruct k as [|x k]; [|injection E2 as -> ->; by eapply H1].
    cbn in E2. rewrite app_nil_r in E1. subst p. specialize (H2 [] it q (eq_sym E2)). by rewrite app_nil_r in H2.
  - subst p. rewrite app_assoc. by eapply H2.
Qed.

Lemma targets_shift it a t : t ∈ targets it a -> forall b, t - a + b ∈ targets it b.
Proof.
  unfold targets. intros Ht b. apply elem_of_app in Ht. apply elem_of_app. destruct Ht as [Ht|Ht]; [left|right].
  - unfold succs in *. destruct it as [op| | | |is_a id o|id os|g o mi ma|o].
    + destruct (consuming (IPlain op)); [by apply elem_of_nil in Ht|]. apply list_elem_of_singleton in Ht as ->.
      apply list_elem_of_singleton. lia.
    + by apply elem_of_nil in Ht.
    + by apply elem_of_nil in Ht.
    + by apply elem_of_nil in Ht.
    + destruct is_a; rewrite !elem_of_cons in *; destruct Ht as [-> |[-> |Ht]]; try (by apply elem_of_nil in Ht);
        [left|right; left|left|right; left]; lia.
    + apply list_elem_of_fmap in Ht as (o & -> & Ho). apply list_elem_of_fmap. exists o. split; [lia|done].
    + destruct g; rewrite !elem_of_cons in *; destruct Ht as [-> |[-> |Ht]]; try (by apply elem_of_nil in Ht);
        [left|right; left|left|right; left]; lia.
    + apply list_elem_of_singleton in Ht as ->. apply list_elem_of_singleton. lia.
  - destruct (consuming it && _); [|by apply elem_of_nil in Ht]. apply list_elem_of_singleton in Ht as ->.
    apply list_elem_of_singleton. lia.
Qed.

(** A piece inside a bigger one. *)
Lemma wired_in F pre e post : wired e -> F = pre ++ e ++ post -> ok_in F pre e.
Proof.
  intros He -> p it q E t Ht. pose proof (targets_shift _ _ _ Ht (sz p)) as Ht'. rewrite sz_app in Ht'.
  destruct (He p it q E _ Ht') as (p' & q' & E' & Hp' & Hm). exists (pre ++ p'), (q' ++ post).
  split; [by rewrite E', <- !app_assoc|]. split; [rewrite sz_app; lia|]. intros [H|(x & Hx & Hs)]%Hm.
  - left. rewrite !length_app. cbn in H. lia.
  - right. exists x. split; [|done]. by destruct q'.
Qed.

Lemma wired_app F G : wired F -> wired G -> wired (F ++ G).
Proof.
  intros HF HG. apply ok_in_app; [by apply (wired_in _ [] F G)|]. apply (wired_in _ F G []); [done|by rewrite app_nil_r].
Qed.

Lemma wired_concat codes : Forall wired codes -> wired (concat codes).
Proof. induction 1 as [|c codes Hc _ IH]; [apply ok_in_nil|]. by apply wired_app. Qed.

(** An instruction that only goes to the next one. *)
Lemma wired_one it : (forall ip, targets it ip ⊆ [ip + len (enc it)]) -> wired [it].
Proof.
  intros H. apply ok_in_one. intros t Ht%H. apply list_elem_of_singleton in Ht as ->. exists [it], [].
  split; [done|]. split; [by rewrite sz_one|]. left. cbn. lia.
Qed.

(** The targets of a split are boundaries. *)
Lemma ok_split F p is_a id o q p' q' :
  F = p ++ ISplit is_a id o :: q -> F = p' ++ q' -> sz p + o = sz p' -> ok_at F p (ISplit is_a id o).
Proof.
  intros H1 H2 Ho t Ht. assert (t = sz p + split_size \/ t = sz p + o) as [-> | ->].
  { unfold targets in Ht. cbn [succs consuming andb] in Ht. rewrite app_nil_r, sz_split in Ht.
    destruct is_a; rewrite !elem_of_cons in Ht; destruct Ht as [-> |[-> |Ht]]; try (by apply elem_of_nil in Ht); tauto. }
  - exists (p ++ [ISplit is_a id o]), q. rewrite <- app_assoc. split; [done|]. split; [|done].
    rewrite sz_app, sz_one, sz_split. done.
  - by exists p', q'.
Qed.

Lemma ok_jump F p o p' q' :
  F = p' ++ q' -> sz p + o = sz p' ->
  (length p < length p')%nat \/ (exists x, head q' = Some x /\ is_split_item x = true) -> ok_at F p (IJump o).
Proof.
  intros H1 Ho Hm t Ht. unfold targets in Ht. cbn [succs consuming andb app] in Ht.
  apply list_elem_of_singleton in Ht as ->. by exists p', q'.
Qed.

(** * The code of the expressions *)

Lemma wired_copies n e : wired e -> wired (copies n e).
Proof. intros He. apply wired_concat. by apply Forall_replicate. Qed.

Lemma wired_star greedy e : wired e -> wired (gen_star greedy e).
Proof.
  intros He. unfold gen_star. set (sp := ISplit greedy 0 _). set (jp := IJump _).
  apply ok_in_app; [apply ok_in_one|].
  { eapply (ok_split _ [] _ _ _ (e ++ [jp]) ([sp] ++ e ++ [jp]) []); [done|by rewrite app_nil_r|].
    unfold sp, jp. sizes. }
  apply ok_in_app; [by apply (wired_in _ [sp] e [jp])|]. apply ok_in_one.
  apply (ok_jump _ _ _ [] ([sp] ++ e ++ [jp])); [done|unfold sp; cbn [app]; sizes|]. right. by exists sp.
Qed.

Lemma wired_plus greedy e : wired e -> wired (gen_plus greedy e).
Proof.
  intros He. unfold gen_plus. set (sp := ISplit (negb greedy) 0 _).
  apply ok_in_app; [by apply (wired_in _ [] e [sp])|]. apply ok_in_one.
  eapply (ok_split _ ([] ++ e) _ _ _ [] [] (e ++ [sp])); [done|done|cbn [app]; sizes].
Qed.

Lemma wired_at_least min greedy e : (2 <= min)%nat -> wired e -> wired (gen_at_least min greedy e).
Proof.
  intros Hmin He. rewrite PikeFragments.gen_at_least_eq by done.
  apply wired_app; [by apply wired_copies|]. apply wired_app; [by apply wired_plus|done].
Qed.

Lemma wired_optional n greedy e : wired e -> wired (gen_optional n greedy e).
Proof.
  intros He. induction n as [|n IH]; [apply ok_in_nil|]. cbn [gen_optional]. set (sp := ISplit greedy 0 _).
  apply ok_in_app; [apply ok_in_one|].
  - eapply (ok_split _ [] _ _ _ (e ++ gen_optional n greedy e) ([sp] ++ e ++ gen_optional n greedy e) []);
      [done|by rewrite app_nil_r|]. unfold sp. rewrite !sz_app, sz_gen_optional. sizes.
  - apply (wired_in _ [sp] (e ++ gen_optional n greedy e) []); [by apply wired_app|by rewrite app_nil_r].
Qed.

Lemma wired_repetition b min max greedy e :
  0 <= min -> uses_repeat false min max = false -> wired e -> wired (gen_repetition b false min max greedy e).
Proof.
  intros Hmin Hu He. unfold gen_repetition, uses_repeat in *. destruct max as [max|].
  - cbn [negb andb] in *. rewrite Hu. apply orb_false_elim in Hu as [_ ->]. rewrite andb_false_r.
    apply wired_app; [by apply wired_copies|by apply wired_optional].
  - destruct (min =? 0) eqn:E0; [by apply wired_star|]. destruct (min =? 1) eqn:E1; [by apply wired_plus|]. bools.
    apply wired_at_least; [lia|done].
Qed.

Lemma wired_alternatives codes : Forall wired codes -> wired (gen_alternatives codes).
Proof.
  induction 1 as [|c codes Hc _ IH]; [apply ok_in_nil|]. destruct codes as [|d codes]; [done|].
  change (gen_alternatives (c :: d :: codes)) with
    (c ++ [IJump (jump_size + sz (gen_alternatives (d :: codes)))] ++ gen_alternatives (d :: codes)).
  set (rest := gen_alternatives (d :: codes)) in *. set (jp := IJump _).
  apply ok_in_app; [by apply (wired_in _ [] c ([jp] ++ rest))|].
  apply ok_in_app; [|by apply (wired_in _ (c ++ [jp]) rest []); [|rewrite app_nil_r, <- app_assoc]].
  apply ok_in_one. apply (ok_jump _ _ _ (c ++ [jp] ++ rest) []); [by rewrite app_nil_r|unfold jp; cbn [app]; sizes|].
  left. rewrite !length_app. cbn. lia.
Qed.

Lemma offset_boundary codes o0 o :
  o ∈ alternative_offsets o0 codes -> exists p q, gen_alternatives codes = p ++ q /\ o = o0 + sz p.
Proof.
  revert o0. induction codes as [|c codes IH]; intros o0; [by intros ?%elem_of_nil|]. cbn [alternative_offsets].
  intros [->|Ho]%elem_of_cons; [exists [], (gen_alternatives (c :: codes)); split; [done|rewrite sz_nil; lia]|].
  destruct codes as [|d codes]; [by apply elem_of_nil in Ho|]. destruct (IH _ Ho) as (p & q & E & ->).
  change (gen_alternatives (c :: d :: codes)) with
    (c ++ [IJump (jump_size + sz (gen_alternatives (d :: codes)))] ++ gen_alternatives (d :: codes)).
  exists (c ++ [IJump (jump_size + sz (gen_alternatives (d :: codes)))] ++ p), q. rewrite E at 2.
  split; [by rewrite <- !app_assoc|]. sizes.
Qed.

Lemma wired_alternation codes : Forall wired codes -> wired (gen_alternation codes).
Proof.
  intros H%wired_alternatives. unfold gen_alternation. set (os := alternative_offsets _ codes).
  apply ok_in_app; [|by apply (wired_in _ [ISplitN 0 os] (gen_alternatives codes) []); [|rewrite app_nil_r]].
  apply ok_in_one. intros t Ht. unfold targets in Ht. cbn [succs consuming andb] in Ht. rewrite app_nil_r in Ht.
  apply list_elem_of_fmap in Ht as (o & -> & Ho). destruct (offset_boundary _ _ _ Ho) as (p & q & E & ->).
  exists ([ISplitN 0 os] ++ p), q. split; [by rewrite E, <- app_assoc|]. split; [|done].
  assert (len os = len codes) as Hl.
  { subst os. generalize (5 + 4 * len codes). clear. induction codes as [|c codes IH]; intros o; [done|].
    cbn [alternative_offsets]. by rewrite !len_cons, IH. }
  autorewrite with sz. rewrite Hl. lia.
Qed.

Lemma wired_plain op : wired [IPlain op].
Proof.
  apply wired_one. intros ip t. unfold targets. cbn [succs]. destruct (consuming (IPlain op)); [|by rewrite app_nil_r].
  cbn [app]. by destruct (is_match_op op); [intros ?%elem_of_nil|].
Qed.

Lemma wired_reads it : (match it with IByte _ | IMasked _ _ | IClass _ => True | _ => False end) -> wired [it].
Proof. intros H. apply wired_one. by destruct it. Qed.

Lemma wired_class h class : wired (gen_class h class).
Proof.
  unfold gen_class. destruct (any_byte h); [apply wired_plain|]. destruct class as [rs|rs]; [|by apply wired_reads].
  destruct (class_to_masked_byte rs); by apply wired_reads.
Qed.

Lemma Forall_map_reverse {A B} (P : B -> Prop) (f : A -> B) (b : bool) l :
  Forall (fun x => P (f x)) l -> Forall P (if b then reverse (map f l) else map f l).
Proof. intros H. destruct b; [apply Forall_reverse|]; by apply Forall_fmap. Qed.

Lemma wired_gen bck h : compilable h -> exact_hir bck h -> forall b, wired (gen b false h).
Proof.
  induction h as [|bs|cls|l|min max g h IH|h IH|hs IH|hs IH] using hir_ind; intros Hc Hx b; cbn [gen].
  - apply ok_in_nil.
  - generalize (if b then reverse bs else bs) as l. intros l. induction l as [|x l IH]; [apply ok_in_nil|].
    change (IByte <$> x :: l) with ([IByte x] ++ (IByte <$> l)). apply wired_app; [by apply wired_reads|done].
  - apply wired_class.
  - destruct Hc as [op ->]. apply wired_plain.
  - destruct Hc as (H1 & _ & H3), Hx as [Hu Hx]. rewrite Hu. apply wired_repetition; [lia|done|by apply IH].
  - by apply IH.
  - destruct Hc as [_ Hc%foldr_and_Forall]. cbn in Hx. apply foldr_and_Forall in Hx.
    apply wired_concat, Forall_map_reverse. rewrite Forall_forall in *. intros h Hh. by apply IH; auto.
  - destruct Hc as [_ Hc%foldr_and_Forall]. cbn in Hx. apply foldr_and_Forall in Hx.
    apply wired_alternation, (Forall_map_reverse wired _ false). rewrite Forall_forall in *. intros h Hh. by apply IH; auto.
Qed.

(** * The instructions

    A test that holds for the instructions that are emitted, holds for the code. *)
Section Instructions.
Context (P : Item -> bool).
Hypothesis P_plain : forall op, op <> Instr.MATCH -> P (IPlain op) = true.
Hypothesis P_byte : forall b, P (IByte b) = true.
Hypothesis P_masked : forall b m, P (IMasked b m) = true.
Hypothesis P_class : forall rs, P (IClass rs) = true.
Hypothesis P_split : forall a id o, P (ISplit a id o) = true.
Hypothesis P_split_n : forall id os, P (ISplitN id os) = true.
Hypothesis P_jump : forall o, P (IJump o) = true.
Local Notation all := (Forall (fun it => P it = true)).

Lemma all_copies n e : all e -> all (copies n e).
Proof. intros He. apply Forall_concat. by apply Forall_replicate. Qed.

Lemma all_repetition b min max greedy e :
  uses_repeat false min max = false -> all e -> all (gen_repetition b false min max greedy e).
Proof.
  intros Hu He. pose proof (fun n => all_copies n e He) as Hcp. unfold gen_repetition, uses_repeat in *. destruct max as [max|].
  - cbn [negb andb] in *. rewrite Hu. apply orb_false_elim in Hu as [_ ->]. rewrite andb_false_r.
    apply Forall_app. split; [done|]. induction (Z.to_nat (max - min)) as [|n IH]; [constructor|].
    cbn [gen_optional app]. constructor; [done|]. by apply Forall_app.
  - destruct (min =? 0); [|destruct (min =? 1)]; unfold gen_star, gen_plus, gen_at_least; rewrite !Forall_app;
      split_and!; repeat constructor; auto.
Qed.

Lemma all_alternation codes : Forall (fun c => all c) codes -> all (gen_alternation codes).
Proof.
  intros H. unfold gen_alternation. constructor; [done|].
  induction H as [|c codes Hc _ IH]; [constructor|]. destruct codes as [|d codes]; [done|].
  change (gen_alternatives (c :: d :: codes)) with
    (c ++ [IJump (jump_size + sz (gen_alternatives (d :: codes)))] ++ gen_alternatives (d :: codes)).
  apply Forall_app. split; [done|]. by constructor.
Qed.

Lemma all_gen bck h : exact_hir bck h -> forall b, all (gen b false h).
Proof.
  induction h as [|bs|cls|l|min max g h IH|h IH|hs IH|hs IH] using hir_ind; intros Hx b; cbn [gen].
  - constructor.
  - apply Forall_fmap, Forall_true. auto.
  - unfold gen_class. repeat case_match; constructor; auto; by apply P_plain.
  - destruct l; cbn; constructor; auto; by apply P_plain.
  - destruct Hx as [Hu Hx]. rewrite Hu. apply all_repetition; [done|by apply IH].
  - by apply IH.
  - cbn in Hx. apply foldr_and_Forall in Hx. apply Forall_concat, (Forall_map_reverse (fun c => all c)).
    rewrite Forall_forall in *. intros h Hh. by apply IH; auto.
  - cbn in Hx. apply foldr_and_Forall in Hx. apply all_alternation, (Forall_map_reverse (fun c => all c) _ false).
    rewrite Forall_forall in *. intros h Hh. by apply IH; auto.
Qed.
End Instructions.

Lemma gen_no_match bck h : exact_hir bck h -> forall b, Forall (fun it => negb (is_match_item it) = true) (gen b false h).
Proof.
  intros Hx b. apply (all_gen (fun it => negb (is_match_item it))) with bck; try done.
  intros op Hop. cbn. unfold is_match_op. by rewrite (proj2 (Z.eqb_neq _ _) Hop).
Qed.

Lemma no_repeat_gen bck h : exact_hir bck h -> forall b, no_repeat (gen b false h) = true.
Proof.
  intros Hx b. apply forallb_forall. intros it Hit%list_elem_of_In. revert it Hit. apply Forall_forall.
  by apply (all_gen (fun it => match it with IRepeat _ _ _ _ => false | _ => true end)) with bck.
Qed.

Lemma no_repeat_app l1 l2 : no_repeat (l1 ++ l2) = no_repeat l1 && no_repeat l2.
Proof. apply forallb_app. Qed.

Lemma no_repeat_erase l : no_repeat (erase <$> l) = no_repeat l.
Proof.
  induction l as [|it l IH]; [done|]. change (no_repeat ([erase it] ++ (erase <$> l)) = no_repeat ([it] ++ l)).
  rewrite !no_repeat_app, IH. by destruct it.
Qed.

(** * The machine can run it *)

Lemma targets_erase it ip : targets (erase it) ip = targets it ip.
Proof. unfold targets. destruct it; try done; cbn [erase succs]; by rewrite ?sz_split. Qed.

Section Whole.
Context (F items : list Item) (Hw : wired F) (He : erase <$> items = F ++ [IPlain Instr.MATCH]).

(** The targets of an instruction of the whole code. *)
Lemma whole_targets p it q t :
  items = p ++ it :: q -> t ∈ targets it (sz p) ->
  exists p' x q', items = p' ++ x :: q' /\ t = sz p' /\
    (moving it = true -> (length p < length p')%nat \/ is_split_item x = true).
Proof.
  intros E Ht. pose proof He as He'. rewrite E, fmap_app, fmap_cons in He'.
  assert (Hit : exists q1, F = (erase <$> p) ++ erase it :: q1).
  { destruct (decide (q = [])) as [->|Hq].
    - apply app_inj_tail in He' as [_ Hit]. destruct it as [op| | | | | | |]; try done. injection Hit as ->.
      by apply elem_of_nil in Ht.
    - destruct (exists_last Hq) as (q1 & y & ->). rewrite fmap_app in He'. cbn [fmap list_fmap] in He'.
      change (erase it :: (erase <$> q1) ++ [erase y]) with ((erase it :: (erase <$> q1)) ++ [erase y]) in He'.
      rewrite app_assoc in He'. apply app_inj_tail in He' as [<- _]. by eexists. }
  destruct Hit as [q1 Hit].
  rewrite <- targets_erase, <- (sz_erase p) in Ht. destruct (Hw _ _ _ Hit t Ht) as (p' & q' & E' & -> & Hm).
  rewrite E', <- app_assoc in He. apply fmap_app_inv in He as (l & l1 & -> & Hl1 & Ei).
  destruct l1 as [|x l1]; [by destruct q'|]. exists l, x, l1. split; [done|]. split; [by rewrite sz_erase|].
  unfold moving, is_split_item in *. intros Hmv. destruct Hm as [Hm|(y & Hy & Hs)]; [by destruct it|..].
  - left. cbn [app] in Hm. by rewrite !length_fmap in Hm.
  - right. destruct q' as [|z q']; [done|]. injection Hy as ->. injection Hl1 as -> _. by destruct x.
Qed.

Lemma whole_closed : code_closed items = true.
Proof.
  unfold code_closed. apply forallb_forall. intros [it ip] Hin%list_elem_of_In%item_at_elem%item_at_split.
  destruct Hin as (p & q & E & ->). apply forallb_forall. intros t Ht%list_elem_of_In. apply bool_decide_eq_true.
  destruct (whole_targets _ _ _ _ E Ht) as (p' & x & q' & E' & -> & _). exists x. apply item_at_split. by exists p', q'.
Qed.

Lemma whole_last p it : items = p ++ [it] -> moving it = false.
Proof.
  intros E. pose proof He as He'. rewrite E, fmap_app in He'. apply app_inj_tail in He' as [_ Hit].
  destruct it as [op| | | | | | |]; try done. by injection Hit as ->.
Qed.

Lemma whole_weight n p it q :
  items = p ++ it :: q -> (length q <= n)%nat -> is_Some (weight n items (sz p)).
Proof.
  revert p it q. induction n as [|n IH]; intros p it q E Hn.
  - assert (q = []) as -> by (destruct q; [done|cbn in Hn; lia]). pose proof (whole_last _ _ E) as Hm.
    cbn [weight]. rewrite (proj2 (item_at_split items (sz p) it)) by by exists p, []. cbn [mbind option_bind].
    unfold moving, is_split_item in Hm. apply negb_false_iff in Hm. by rewrite Hm.
  - cbn [weight]. rewrite (proj2 (item_at_split items (sz p) it)) by by exists p, q. cbn [mbind option_bind].
    destruct (consuming it || _) eqn:Em; [done|].
    assert (is_Some (mapM (weight n items) (succs it (sz p)))) as [ws ->]; [|done].
    apply mapM_is_Some, Forall_forall. intros t Ht.
    destruct (whole_targets p it q t E) as (p' & x & q' & E' & -> & Hm); [apply elem_of_app; by left|].
    destruct Hm as [Hm|Hm]; [by unfold moving, is_split_item; rewrite Em|..].
    + eapply IH; [exact E'|]. rewrite E in E'. apply (f_equal length) in E'. rewrite !length_app in E'. cbn in E'. lia.
    + cbn beta delta [compose]. destruct n; cbn [weight]; rewrite (proj2 (item_at_split items (sz p') x)) by (by exists p', q');
        cbn [mbind option_bind]; unfold is_split_item in Hm; by rewrite Hm, orb_true_r.
Qed.

Lemma whole_acyclic : acyclic items = true.
Proof.
  unfold acyclic. apply forallb_forall. intros [it ip] Hin%list_elem_of_In%item_at_elem%item_at_split.
  destruct Hin as (p & q & E & ->). apply bool_decide_eq_true. apply (whole_weight _ _ _ _ E).
  rewrite E, length_app. cbn. lia.
Qed.
End Whole.

(** The code that the compiler gives, if the addresses fit in an [i32]. *)
Lemma holds_runnable s bck h items :
  compilable h -> exact_hir bck h -> holds s (gen_code bck h) items -> len (as_slice s) <= i32_MAX -> runnable items.
Proof.
  intros Hc Hx [Hb He Hi Hu Hids] Hlen. pose proof (wired_gen bck h Hc Hx bck) as Hw. split; [split|..].
  - done.
  - by eapply whole_closed.
  - done.
  - by rewrite <- Hb.
  - by eapply whole_acyclic.
  - done.
Qed.

Lemma holds_no_repeat s bck h items : exact_hir bck h -> holds s (gen_code bck h) items -> no_repeat items = true.
Proof.
  intros Hx [_ He _ _ _]. rewrite <- no_repeat_erase, He. unfold gen_code. by rewrite no_repeat_app, (no_repeat_gen bck).
Qed.

Lemma holds_start s bck h items : holds s (gen_code bck h) items -> is_Some (item_at items 0).
Proof.
  intros [_ He _ _ _]. destruct items as [|it items]; [unfold gen_code in He; by destruct (gen bck false h)|]. by exists it.
Qed.
End Wired.
