(* ===== verification/PikeScans.v ===== *)
(** The compiler and the Pike virtual machine together: the scans of the code
    compiled for an expression report the lengths of its matches. *)

From Stdlib Require Import Sorted.
From S2P Require Import Prelude.
From S2P Require Import PosSet.
From S2P Require Import Re.
From S2P Require Import Hir.
From S2P Require Import Visit.
From S2P Require Import PikeInstr.
From S2P Require Import PikeSeq.
From S2P Require Import PikeVM.
From S2P Require Import PikeAtoms.
From S2P Require Import PikeClosure.
From S2P Require Import PikeRun.
From S2P Require Import PikeExact.
From S2P Require Import PikeCompiler.
From S2P Require Import PikeCodegen.
From S2P Require Import PikeFragments.
From S2P Require Import PikeVisit.
From S2P Require Import PikeCompileProps.
From S2P Require Import PikeMatches.
From S2P Require Import PikeWired.

(** * What the code accepts *)

Section Accepted.
Context {BS : BitSlice} {BSL : BitSliceLaws} {HS : HirSemantics} {SL : SyntaxLaws}.
Context (bck : bool) (h : Hir) (Hc : compilable h) (Hx : exact_hir bck h).
Local Notation code := (gen_code bck h).

Lemma code_match_at ip it : item_at code ip = Some it -> is_match_item it = true -> ip = sz (gen bck false h).
Proof.
  intros (pre & post & E & ->)%item_at_split Hm. pose proof (gen_no_match bck h Hx bck) as Hn. rewrite Forall_forall in Hn.
  unfold gen_code in E. apply app_eq_app in E as (k & [[E1 E2]|[E1 E2]]).
  - destruct k as [|x k]; [by rewrite app_nil_r in E1; rewrite E1|]. injection E2 as <- _.
    specialize (Hn it). rewrite E1 in Hn. rewrite Hm in Hn. discriminate Hn. apply elem_of_app. right. left.
  - destruct k as [|x k]; [by rewrite app_nil_r in E1; rewrite E1|]. injection E2 as _ E2. by destruct k.
Qed.

(** The machine stops at the instruction that reports the match. *)
Lemma stuck_at_match before bytes k m y :
  nsteps (cstep code bck before bytes) m (sz (gen bck false h), k) y -> y = (sz (gen bck false h), k).
Proof.
  assert (Hit : item_at code (sz (gen bck false h)) = Some (IPlain Instr.MATCH)) by (apply item_at_split; by eexists _, []).
  intros H. inversion H as [|? ? z ? Hs]; subst; [done|].
  exfalso. inversion Hs as [? ? it b Hit' _ Hm|? ? it ip' Hit' Hp]; subst; rewrite Hit in Hit'; injection Hit' as <-; [done|].
  by apply elem_of_nil in Hp.
Qed.

Lemma code_accepts left right s items n :
  Forall is_u8 (left ++ right) -> holds s code items ->
  accepts items bck (oriented (negb bck) right left !! 0%nat) (oriented bck right left) 0 n <->
  orel bck left (hmatch h (left ++ right)) 0 n.
Proof.
  intros Hu Hh. set (before := oriented (negb bck) right left !! 0%nat). set (bytes := oriented bck right left).
  rewrite (accepts_steps _ _ _ _ (holds_no_repeat _ _ _ _ Hx Hh)).
  destruct (implements_all bck left right code Hu h Hc Hx) as (R0 & HF & HR).
  destruct (HF [] [IPlain Instr.MATCH] eq_refl) as [C S]. fold before bytes in C, S, HF.
  rewrite <- (HR 0%nat n) by lia.
  assert (Hsteps : forall x y, rtc (cstep items bck before bytes) x y <-> rtc (cstep code bck before bytes) x y).
  { intros x y. rewrite <- (hd_code _ _ _ Hh). split; (induction 1 as [|? ? ? H _ IH]; [done|]);
      (eapply rtc_l; [|exact IH]); by apply (cstep_erase items). }
  assert (Hmatch : forall ip, (exists it, item_at items ip = Some it /\ is_match_item it = true) <->
                              ip = sz (gen bck false h)).
  { intros ip. split.
    - intros (it & Hit & Hm). apply (code_match_at ip (erase it)); [|by destruct it].
      by rewrite <- (hd_code _ _ _ Hh), item_at_erase, Hit.
    - intros ->. assert (Hit : item_at code (sz (gen bck false h)) = Some (IPlain Instr.MATCH)) by (apply item_at_split; by eexists _, []).
      rewrite <- (hd_code _ _ _ Hh), item_at_erase in Hit. destruct (item_at items _) as [it|]; [|done].
      exists it. split; [done|]. destruct it; try done. by injection Hit as ->. }
  change (sz []) with 0 in *. rewrite Z.add_0_l in *. split.
  - intros (ip & it & Hr & Hit & Hm). assert (ip = sz (gen bck false h)) as -> by (apply Hmatch; by exists it).
    apply Hsteps, rtc_nsteps in Hr as [m Hr]. destruct (S m 0%nat _ n Hr) as (m' & k & _ & HRk & Hk); [lia|].
    apply stuck_at_match in Hk. by injection Hk as ->.
  - intros H%C. destruct (proj2 (Hmatch _) eq_refl) as (it & Hit & Hm).
    exists (sz (gen bck false h)), it. split; [by apply Hsteps|done].
Qed.
End Accepted.

(** * Scans *)

(** The characters on both sides of the start of a scan: the bytes or, for wide
    strings, the bytes that are not the zero of their pair. *)
Definition chars_right (wide : bool) (right left : list Z) : list Z := scan_bytes false wide right left.
Definition chars_left (wide : bool) (right left : list Z) : list Z := reverse (scan_bytes true wide right left).

Lemma scan_bytes_oriented bck wide right left :
  scan_bytes bck wide right left = oriented bck (chars_right wide right left) (chars_left wide right left).
Proof. unfold oriented, chars_left, chars_right. destruct bck; [by rewrite reverse_involutive|done]. Qed.

Lemma wide_bytes_u8 first l : Forall is_u8 l -> Forall is_u8 (wide_bytes first l).
Proof.
  intros H. remember (length l) as n eqn:Hn. revert l H Hn. induction n as [n IH] using lt_wf_ind.
  intros [|a [|b l]] H Hn; [constructor..|]. apply Forall_cons in H as [Ha [Hb Hl]%Forall_cons].
  cbn [wide_bytes]. constructor; [by destruct first|]. apply (IH (length l)); [cbn in Hn; lia|done..].
Qed.

Lemma chars_u8 wide right left :
  Forall is_u8 right -> Forall is_u8 left -> Forall is_u8 (chars_left wide right left ++ chars_right wide right left).
Proof.
  intros Hr Hl. assert (H : forall bck, Forall is_u8 (scan_bytes bck wide right left)).
  { intros bck. unfold scan_bytes, oriented. destruct wide; [apply wide_bytes_u8|]; destruct bck; try done; by apply Forall_reverse. }
  apply Forall_app. split; [by apply Forall_reverse|apply H].
Qed.

(** [n] characters from the start of the scan are a match. *)
Definition matches_from {HS : HirSemantics} (bck : bool) (h : Hir) (left right : list Z) (n : nat) : Prop :=
  let data := left ++ right in
  if bck then hmatch h data (len left - Z.of_nat n) (len left) else hmatch h data (len left) (len left + Z.of_nat n).

Section Scans.
Context {BS : BitSlice} {BSL : BitSliceLaws} {B : Type} {BV : BitVec B} {BL : BitVecLaws B}.
Context {LS : LiteralSyntax} {LL : LiteralLaws} {VI : HirVisit} {VL : HirVisitLaws}.
Context {HS : HirSemantics} {SL : SyntaxLaws}.

(** C1: the compiler and the virtual machine: for every expression without
    counted repetitions, whose byte classes are recognised as what they are and
    whose assertions are the ones of a whole text or of an ASCII word, a scan of
    the code compiled for one direction, of a narrow or a wide string, ends and
    reports the lengths of the matches of the expression that start, or end, at
    the position of the scan, up to the scan limit: all of them and nothing else,
    in increasing order. *)
Theorem compiled_scan_exact (h : Hir) (bck wide : bool) fwd_code bck_code atoms (right left : list Z) :
  compilable h -> 2 * Z.of_nat (hir_size h) + 1 <= usize_MAX -> exact_hir bck h ->
  compile_internal (B := B) (hir_from h) = Ret (inr (fwd_code, bck_code, atoms)) ->
  let code := as_slice (if bck then bck_code else fwd_code) in
  len code <= i32_MAX -> Forall is_u8 right -> Forall is_u8 left ->
  exists fuel0, forall fuel, (fuel0 <= fuel)%nat -> exists (vm' : PikeVM (B := B)) ns,
    try_match true fuel (pikevm_new code) (if bck then BckCodeLoc 1 else FwdCodeLoc 1) right left wide
      (fun ns n => (ns ++ [n], Continue)) [] = Ret (vm', ns) /\
    StronglySorted Z.le ns /\
    forall x, x ∈ ns <-> exists k, x = scan_len wide k /\
      (k = 0%nat \/ Z.of_nat k < DEFAULT_SCAN_LIMIT) /\ scan_valid bck wide right left k = true /\
      matches_from bck h (chars_left wide right left) (chars_right wide right left) k.
Proof.
  intros Hc Hsz Hx Hcomp code Hlen Hr Hl.
  assert (Hh : exists items, holds (if bck then bck_code else fwd_code) (gen_code bck h) items).
  { destruct (compile_holds h Hc Hsz) as [(e & He & _)|(r & He & Hres)]; rewrite Hcomp in He; [done|].
    injection He as <-. destruct Hres as (H1 & H2 & _). by destruct bck. }
  destruct Hh as [items Hh]. pose proof (holds_runnable _ _ _ _ Hc Hx Hh Hlen) as Hrun.
  exists (vm_fuel items). intros fuel Hf.
  assert (Hready : machine_ready items (pikevm_new (B := B) code)).
  { unfold code. rewrite (hd_bytes _ _ _ Hh). apply pikevm_new_ready. }
  pose proof (holds_start _ _ _ _ Hh) as Hs.
  assert (Hloc : Re.location (if bck then BckCodeLoc 1 else FwdCodeLoc 1) = 0) by (by destruct bck).
  assert (Hb : backwards (if bck then BckCodeLoc 1 else FwdCodeLoc 1) = bck) by (by destruct bck).
  destruct (pike_scan_exact items fuel (pikevm_new code) (if bck then BckCodeLoc 1 else FwdCodeLoc 1) right left wide
    Hrun Hf Hready) as (vm' & ns & E & _ & Hsort & Hsound & Hcompl); [by rewrite Hloc|].
  exists vm', ns. split; [exact E|]. split; [done|].
  rewrite Hloc, Hb in *. unfold scan_before in *. rewrite !scan_bytes_oriented in *.
  assert (Hacc : forall k, accepts items bck (oriented (negb bck) (chars_right wide right left) (chars_left wide right left) !! 0%nat)
      (oriented bck (chars_right wide right left) (chars_left wide right left)) 0 k <->
      matches_from bck h (chars_left wide right left) (chars_right wide right left) k).
  { intros k. rewrite (code_accepts bck h Hc Hx _ _ _ _ _ (chars_u8 wide right left Hr Hl) Hh).
    unfold orel, matches_from, pos. cbn zeta. change (Z.of_nat 0) with 0.
    destruct bck; by rewrite ?Z.sub_0_r, ?Z.add_0_r. }
  intros x. split.
  - intros (k & -> & H1 & H2 & H3%Hacc)%Hsound. by exists k.
  - intros (k & -> & H1 & H2 & H3%Hacc). by apply (Hcompl (holds_no_repeat _ _ _ _ Hx Hh)).
Qed.
End Scans.

(** * Instances *)

(** An [x], up to two times [ab] or [c] and digits, and the end of a word. *)
Definition sample_scan_hir : Hir :=
  HConcat [HLiteral [0x78];
           HRepetition 0 (Some 2) true
             (HAlternation [HLiteral [0x61; 0x62];
                            HConcat [HLiteral [0x63]; HRepetition 0 None true (HClass (ClassBytes [(48, 57)]))]]);
           HLook WordAscii].

Lemma sample_scan_compilable : compilable sample_scan_hir.
Proof.
  cbn. split_and!; try done; try (by apply Forall_forall; intros b; rewrite !elem_of_cons, elem_of_nil; unfold is_u8; lia);
    try (by eexists); try (unfold u32_MAX; lia); try (by vm_compute).
  split; repeat constructor; cbn; lia.
Qed.

Lemma sample_scan_exact : exact_hir false sample_scan_hir /\ exact_hir true sample_scan_hir.
Proof. split; cbn; split_and!; try done; by vm_compute. Qed.

(** A forward scan of [xc1ab] after a space, and a backward scan from its end. *)
Lemma compiled_scan_exact_witness :
  exists fwd_code bck_code atoms,
    compile_internal (BS := lsb0_BitSlice) (B := list bool) (BV := list_BitVec) (LS := list_LiteralSyntax)
      (hir_from sample_scan_hir) = Ret (inr (fwd_code, bck_code, atoms)) /\
    exists fuel0, forall fuel, (fuel0 <= fuel)%nat -> exists (vm' : PikeVM (B := list bool)) ns,
      try_match true fuel (pikevm_new (as_slice fwd_code)) (FwdCodeLoc 1) [0x78; 0x63; 0x31; 0x61; 0x62] [0x20] false
        (fun ns n => (ns ++ [n], Continue)) [] = Ret (vm', ns) /\
      StronglySorted Z.le ns /\
      forall x, x ∈ ns <-> exists k, x = scan_len false k /\
        (k = 0%nat \/ Z.of_nat k < DEFAULT_SCAN_LIMIT) /\ true = true /\
        matches_from false sample_scan_hir [0x20] [0x78; 0x63; 0x31; 0x61; 0x62] k.
Proof.
  eexists _, _, _. split; [vm_compute; reflexivity|].
  apply (compiled_scan_exact (VI := traverse_HirVisit) (LS := list_LiteralSyntax) sample_scan_hir false false
    _ _ _ [0x78; 0x63; 0x31; 0x61; 0x62] [0x20]
    sample_scan_compilable ltac:(by vm_compute) (proj1 sample_scan_exact) ltac:(vm_compute; reflexivity)).
  - by vm_compute.
  - repeat constructor; unfold is_u8; lia.
  - repeat constructor; unfold is_u8; lia.
Defined.

(** The lengths that the two scans report. *)
Example sample_scan_lengths :
  match compile_internal (BS := lsb0_BitSlice) (B := list bool) (BV := list_BitVec) (LS := list_LiteralSyntax)
          (hir_from sample_scan_hir) with
  | Ret (inr (fwd_code, bck_code, _)) =>
      let scan code start right left :=
        snd <$> try_match true 200 (pikevm_new (B := list bool) (as_slice code)) start right left false
          (fun ns n => (ns ++ [n], Continue)) [] in
      scan fwd_code (FwdCodeLoc 1) [0x78; 0x63; 0x31; 0x61; 0x62] [0x20] = Ret [5] /\
      scan bck_code (BckCodeLoc 1) [0x20] [0x78; 0x63; 0x31; 0x61; 0x62] = Ret [5]
  | _ => False
  end.
Proof. vm_compute. by split. Qed.
