(* ===== verification/PikeLimits.v ===== *)
(** Patterns whose compiled code does not do what the pattern says: executable
    counterexamples for the compiler of the Pike virtual machine, with concrete
    literal extractors. *)

From stdpp Require Import gmap sorting.
From S2P Require Import Prelude.
From S2P Require Import PosSet.
From S2P Require Import Re.
From S2P Require Import Atoms.
From S2P Require Import Quality.
From S2P Require Import Hir.
From S2P Require Import Visit.
From S2P Require Import PikeInstr.
From S2P Require Import PikeSeq.
From S2P Require Import PikeVM.
From S2P Require Import PikeAtoms.
From S2P Require Import PikeCompiler.
#[local] Open Scope try_scope.

(** * A literal extractor that knows one literal *)

Section OneLiteral.
Variable literal : list Z.

#[local] Instance one_literal : LiteralSyntax := {
  Seq := option (list Lit);
  seq_singleton l := Some [l];
  seq_empty := Some [];
  seq_literals s := s;
  seq_len s := len <$> s;
  seq_min_literal_len s := Some (len literal);
  seq_max_literal_len _ := Some (len literal);
  seq_push l s := (fun x => x ++ [l]) <$> s;
  seq_dedup s := s;
  seq_make_inexact s := s;
  seq_is_inexact _ := true;
  seq_max_cross_len _ _ := Some 1;
  seq_cross_forward a b := b;
  seq_keep_first_bytes _ s := s;
  extract _ := Some [{| lit_bytes := literal; lit_exact := false |}];
  look_set_is_empty _ := true;
  to_byte_class _ := None }.

Definition compiled (h : Hir) : option (list Z * list Z * list LocAtom) :=
  match compile_internal (B:=list bool) (hir_from h) with
  | Ret (inr (f, b, atoms)) => Some (as_slice f, as_slice b, atoms)
  | _ => None
  end.

Definition all_matches (code : list Z) (loc : Re.CodeLoc) (right left : list Z) : list Z :=
  match PikeVM.try_match true 1000 (pikevm_new (B:=list bool) code) loc right left false
          (fun ns n => (ns ++ [n], Continue)) [] with
  | Ret (_, ns) => ns
  | _ => [-1]
  end.
End OneLiteral.

(** * Unrolled repetitions

    [(abcd){2,3}z]: the atom "abcd" is in the first copy of the forward code, and
    the backward code for it starts after the mandatory copies but not after the
    optional one. The pattern matches from the atom without any byte before it;
    the backward code also matches the four bytes before it, so that four copies
    followed by z are a match of the pattern. *)
Definition abcd : list Z := [97; 98; 99; 100].

Definition unrolled : Hir := HConcat [HRepetition 2 (Some 3) true (HCapture (HLiteral abcd)); HLiteral [122]].

Lemma unrolled_atom_overruns :
  exists fwd_code bck_code a,
    compiled abcd unrolled = Some (fwd_code, bck_code, [a]) /\ a.(la_atom).(atom_bytes) = abcd /\ a.(la_loc).(fwd) = 0 /\
    all_matches fwd_code (FwdCodeLoc 1) (abcd ++ abcd ++ abcd ++ [122]) abcd = [13] /\
    all_matches bck_code (BckCodeLoc (a.(la_loc).(bck) + 1)) (abcd ++ abcd ++ abcd ++ [122]) abcd = [0; 4].
Proof. do 3 eexists. split; [vm_compute; reflexivity|]. vm_compute. done. Qed.

(** * Repetitions that count

    [(a|aa){11}b]: the threads at the same instruction are one thread, whatever
    the repetitions that they have counted, so that one of the ways to match is
    lost. Fifteen [a] are four times [aa] and seven times [a]. *)
Definition ambiguous : Hir :=
  HConcat [HRepetition 11 (Some 11) true (HCapture (HAlternation [HLiteral [97]; HLiteral [97; 97]])); HLiteral [98]].

Lemma counted_threads_are_lost :
  exists fwd_code bck_code atoms,
    compiled abcd ambiguous = Some (fwd_code, bck_code, atoms) /\
    all_matches fwd_code (FwdCodeLoc 1) (repeat 97 15 ++ [98]) [] = [] /\
    all_matches fwd_code (FwdCodeLoc 1) (repeat 97 11 ++ [98]) [] = [12].
Proof. do 3 eexists. split; [vm_compute; reflexivity|]. vm_compute. done. Qed.

(** * Nested repetitions that count

    [((a{0,20}b)*c){11}]: the star between the two repetitions hides the outer
    one from the inner one, so that both use the instruction that counts, with a
    single counter. *)
Definition nested_counters : Hir :=
  HRepetition 11 (Some 11) true
    (HCapture (HConcat [HRepetition 0 None true (HCapture (HConcat [HRepetition 0 (Some 20) true (HLiteral [97]); HLiteral [98]]));
                        HLiteral [99]])).

Lemma nested_counters_collide :
  exists fwd_code bck_code atoms,
    compiled abcd nested_counters = Some (fwd_code, bck_code, atoms) /\
    all_matches fwd_code (FwdCodeLoc 1) (concat (repeat [97; 98; 99] 11)) [] = [] /\
    all_matches fwd_code (FwdCodeLoc 1) (concat (repeat [98; 99] 11)) [] = [22].
Proof. do 3 eexists. split; [vm_compute; reflexivity|]. vm_compute. done. Qed.

(** * Unicode classes

    A Unicode class that is not a byte class is an alternation of its characters,
    and the conversion of their number to a byte panics from 256 on. *)
Lemma large_unicode_class_panics `{BitSlice} `{LiteralSyntax} ranges c :
  to_byte_class ranges = None -> u8_MAX < len (class_chars ranges) ->
  visit_post_class (ClassUnicode ranges) c = Panic.
Proof.
  intros Hc Hn. unfold visit_post_class. rewrite Hc. unfold visit_pre_alternation.
  rewrite len_map. unfold assert. by rewrite (proj2 (Z.leb_gt _ _)).
Qed.

(** Greek and Cyrillic: 400 characters. *)
Lemma greek_cyrillic_panics :
  visit_post_class (LS := one_literal abcd) (ClassUnicode [(0x0370, 0x04FF)]) compiler_new = Panic.
Proof. vm_compute. reflexivity. Qed.

(** * Prefixes of atoms

    A prefix of an atom is not always next to it in the sorted list: "ab" is a
    prefix of "abd", but "abc" comes between them, and "abd" stays. *)
Lemma prefix_not_adjacent :
  let atom e b := {| atom_bytes := b; is_exact := e; backtrack := 0 |} in
  let ab e := atom e [97; 98] in let abc := atom true [97; 98; 99] in let abd := atom true [97; 98; 100] in
  merge_prefixes [ab true; abc; abd] = [ab false; abd].
Proof. vm_compute. reflexivity. Qed.
