(* ===== verification/FastCompiler.v ===== *)
(** The compiler of the fast virtual machine, from
    [lib/src/re/fast/compiler.rs]: the decomposition of a pattern into pieces,
    the choice of the piece with the best atoms, and the code for what comes
    before it and after it. *)

From S2P Require Import Prelude.
From S2P Require Import Re.
From S2P Require Import FastInstr.
From S2P Require Import Atoms.
From S2P Require Import Quality.
From S2P Require Import ByteClass.
From S2P Require Import Hir.
From S2P Require Import Visit.

#[local] Open Scope try_scope.

(** * The decomposition into pieces *)

Record PatternSplitter := {
  sp_bytes : list Z;
  sp_mask : list Z;
  sp_pieces : list PatternPiece;
  sp_alternatives : list Pattern;
  in_alternation : bool;
  in_repetition : bool;
}.

Definition splitter_new : PatternSplitter :=
  {| sp_bytes := []; sp_mask := []; sp_pieces := []; sp_alternatives := [];
     in_alternation := false; in_repetition := false |}.

Definition set_literal (bytes mask : list Z) (s : PatternSplitter) : PatternSplitter :=
  {| sp_bytes := bytes; sp_mask := mask; sp_pieces := s.(sp_pieces);
     sp_alternatives := s.(sp_alternatives); in_alternation := s.(in_alternation);
     in_repetition := s.(in_repetition) |}.

Definition push_bytes (bytes mask : list Z) (s : PatternSplitter) : PatternSplitter :=
  set_literal (s.(sp_bytes) ++ bytes) (s.(sp_mask) ++ mask) s.

Definition push_piece (piece : PatternPiece) (s : PatternSplitter) : PatternSplitter :=
  {| sp_bytes := s.(sp_bytes); sp_mask := s.(sp_mask); sp_pieces := s.(sp_pieces) ++ [piece];
     sp_alternatives := s.(sp_alternatives); in_alternation := s.(in_alternation);
     in_repetition := s.(in_repetition) |}.

Definition set_alternatives (alts : list Pattern) (s : PatternSplitter) : PatternSplitter :=
  {| sp_bytes := s.(sp_bytes); sp_mask := s.(sp_mask); sp_pieces := s.(sp_pieces);
     sp_alternatives := alts; in_alternation := s.(in_alternation);
     in_repetition := s.(in_repetition) |}.

Definition set_in_alternation (b : bool) (s : PatternSplitter) : PatternSplitter :=
  {| sp_bytes := s.(sp_bytes); sp_mask := s.(sp_mask); sp_pieces := s.(sp_pieces);
     sp_alternatives := s.(sp_alternatives); in_alternation := b; in_repetition := s.(in_repetition) |}.

Definition set_in_repetition (b : bool) (s : PatternSplitter) : PatternSplitter :=
  {| sp_bytes := s.(sp_bytes); sp_mask := s.(sp_mask); sp_pieces := s.(sp_pieces);
     sp_alternatives := s.(sp_alternatives); in_alternation := s.(in_alternation); in_repetition := b |}.

Definition finish_literal (s : PatternSplitter) : option Pattern * PatternSplitter :=
  if negb s.(in_alternation) && bool_decide (s.(sp_bytes) = []) then (None, s)
  else if forallb (fun b => b =? 0xff) s.(sp_mask)
  then (Some (PatLiteral s.(sp_bytes)), set_literal [] [] s)
  else (Some (PatMasked s.(sp_bytes) s.(sp_mask)), set_literal [] [] s).

(** [if let Some(pattern) = self.finish_literal() { push }] *)
Definition finish_piece (s : PatternSplitter) : PatternSplitter :=
  let '(o, s) := finish_literal s in
  match o with Some pattern => push_piece (PiecePattern pattern) s | None => s end.

Definition finish_alternative (s : PatternSplitter) : PatternSplitter :=
  let '(o, s) := finish_literal s in
  match o with Some pattern => set_alternatives (s.(sp_alternatives) ++ [pattern]) s | None => s end.

Definition splitter_finish (s : PatternSplitter) : list PatternPiece := (finish_piece s).(sp_pieces).

(** The branch of [visit_pre] for byte classes. *)
Definition visit_class_bytes (class : list (Z * Z)) (s : PatternSplitter) : res (Error + PatternSplitter) :=
  match class_to_masked_byte class with
  | Some masked_byte => ok (push_bytes [masked_byte.(hb_value)] [masked_byte.(hb_mask)] s)
  | None =>
      if s.(in_alternation) then fail FastIncompatible
      else
        masked_bytes ← class_to_masked_bytes_alternation class;
        match masked_bytes with
        | Some masked_bytes =>
            ok (push_piece (PieceAlternation ((fun b => PatMasked [b.(hb_value)] [b.(hb_mask)]) <$> masked_bytes))
                 (finish_piece s))
        | None => fail FastIncompatible
        end
  end.

(** The branch of [visit_pre] for repetitions. *)
Definition visit_repetition (min : Z) (max : option Z) (sub : Hir) (s : PatternSplitter)
  : res (Error + PatternSplitter) :=
  if s.(in_repetition) || s.(in_alternation) then fail FastIncompatible
  else
    let any_byte := any_byte sub in
    let any_byte_except_newline := any_byte_except_newline sub in
    if negb any_byte && negb any_byte_except_newline then fail FastIncompatible
    else
      let accept_newlines := negb any_byte_except_newline in
      let s :=
        if bool_decide (max = Some min) && (min <=? 8) && accept_newlines
        then push_bytes (replicate (Z.to_nat min) 0) (replicate (Z.to_nat min) 0) s
        else
          push_piece (if bool_decide (max = Some min) then PieceJumpExact min accept_newlines
                      else PieceJump min max accept_newlines) (finish_piece s) in
      ok (set_in_repetition true s).

Definition splitter_pre (h : Hir) (s : PatternSplitter) : res (Error + PatternSplitter) :=
  match h with
  | HLiteral literal => ok (push_bytes literal (replicate (length literal) 0xff) s)
  | HClass class =>
      if s.(in_repetition) then ok s
      else match class with
           | ClassBytes class => visit_class_bytes class s
           | ClassUnicode _ => fail FastIncompatible
           end
  | HRepetition min max _ sub => visit_repetition min max sub s
  | HAlternation alternatives =>
      if s.(in_repetition) || s.(in_alternation) then fail FastIncompatible
      else if MAX_ALTERNATIVES <? len alternatives then fail TooManyAlternatives
      else ok (set_in_alternation true (finish_piece s))
  | HLook _ => fail FastIncompatible
  | _ => ok s
  end.

Definition splitter_post (h : Hir) (s : PatternSplitter) : res (Error + PatternSplitter) :=
  match h with
  | HRepetition _ _ _ _ => ok (set_in_repetition false s)
  | HAlternation _ =>
      let s := finish_alternative s in
      let alternatives := s.(sp_alternatives) in
      ok (set_in_alternation false (push_piece (PieceAlternation alternatives) (set_alternatives [] s)))
  | _ => ok s
  end.

Definition splitter_visitor : Visitor PatternSplitter :=
  {| visit_pre := splitter_pre; visit_post := splitter_post;
     visit_alternation_in := fun s => ok (finish_alternative s); visit_concat_in := ok |}.

(** [visit(hir, PatternSplitter)] *)
Definition split_pieces {VI : HirVisit} (h : Hir) : res (Error + list PatternPiece) :=
  s ←? visit splitter_visitor h splitter_new; ok (splitter_finish s).

(** * The compiler *)

(** The bytes, the mask, the best range and its quality. *)
Record BestAtom := {
  ba_bytes : list Z;
  ba_mask : option (list Z);
  ba_range : Z * Z;
  ba_quality : Z;
}.

Definition find_best_atoms (p : Pattern) : res BestAtom :=
  match p with
  | PatLiteral bytes =>
      '(range, q) ← best_range_in_bytes bytes;
      Ret {| ba_bytes := bytes; ba_mask := None; ba_range := range; ba_quality := q |}
  | PatMasked bytes mask =>
      '(range, q) ← best_range_in_masked_bytes bytes mask;
      Ret {| ba_bytes := bytes; ba_mask := Some mask; ba_range := range; ba_quality := q |}
  end.

Definition piece_patterns (piece : PatternPiece) : list Pattern :=
  match piece with
  | PiecePattern p => [p]
  | PieceAlternation alts => alts
  | _ => []
  end.

Definition piece_atoms (piece : PatternPiece) : res (list BestAtom) :=
  for_each (piece_patterns piece) (fun p acc => a ← find_best_atoms p; Ret (acc ++ [a])) [].

(** The quality of the worst atom, [i32::MIN] when there is none. *)
Definition worst_quality (atoms : list BestAtom) : Z :=
  match ba_quality <$> atoms with [] => i32_MIN | q :: qs => foldl Z.min q qs end.

(** The variables [best_piece], [best_quality] and [best_atoms]. *)
Definition choose_piece (pieces : list PatternPiece) : res (Z * Z * option (list BestAtom)) :=
  for_each (enumerate pieces) (fun ip best =>
    let '(_, best_quality, _) := best in
    atoms ← piece_atoms (snd ip);
    let quality := worst_quality atoms in
    Ret (if best_quality <? quality then (fst ip, quality, Some atoms) else best)) (0, i32_MIN, None).

(** The emission of the code of some pieces, appended to [code]. *)
Definition append_code (pieces : list PatternPiece) (code : list Z) : res (Error + list Z) :=
  s ←? emit_pieces pieces seq_new;
  ok (code ++ into_inner (emit_match s)).

Section Compile.
Context {IT : Itertools} {VI : HirVisit}.

Definition regexp_atom (fwd_code_start : Z) (bck_code_start : option Z) (a : Atom) : res RegexpAtom :=
  fwd ← fwd_from fwd_code_start;
  bck ← match bck_code_start with Some b => Some <$> bck_from b | None => Ret None end;
  Ret {| rx_atom := a; rx_fwd_code := Some fwd; rx_bck_code := bck |}.

(** The atoms of a pattern of the best piece. *)
Definition pattern_atoms (b : BestAtom) : res (Error + list Atom) :=
  match b.(ba_mask) with
  | Some mask =>
      ma ← masked_from_slice_range b.(ba_bytes) mask (fst b.(ba_range)) (snd b.(ba_range));
      match ma with
      | Some masked_atom => inr <$> mask_combinations masked_atom
      | None => fail FastIncompatible
      end
  | None =>
      match from_slice_range b.(ba_bytes) (fst b.(ba_range)) (snd b.(ba_range)) with
      | Some a => ok [a]
      | None => fail FastIncompatible
      end
  end.

(** The loop over [best_atoms]. *)
Fixpoint build_atoms (fwd_code_start : Z) (bck_code_start : option Z) (best : list BestAtom)
  (atoms : list RegexpAtom) : res (Error + list RegexpAtom) :=
  match best with
  | [] => ok atoms
  | b :: best =>
      l ←? pattern_atoms b;
      atoms ← for_each l (fun a acc => r ← regexp_atom fwd_code_start bck_code_start a; Ret (acc ++ [r])) atoms;
      build_atoms fwd_code_start bck_code_start best atoms
  end.

(** The end of [compile], from the atoms of the best piece on. *)
Definition finish_atoms (pieces : list PatternPiece) (fwd_code_start : Z) (bck_code_start : option Z)
  (best_atoms : option (list BestAtom)) : res (Error + list RegexpAtom) :=
  match best_atoms with
  | None => fail FastIncompatible
  | Some best_atoms =>
      atoms ←? build_atoms fwd_code_start bck_code_start best_atoms [];
      let atoms := if 1 <? len pieces then rx_set_exact false <$> atoms else atoms in
      let min_atom_len := match rx_len <$> atoms with [] => 0 | l :: ls => foldl Z.min l ls end in
      if min_atom_len <? 2 then fail FastIncompatible else ok atoms
  end.

(** [compile] extends the vector of the code, also when it returns an error
    afterwards. *)
Definition compile (h : ReHir) (code : list Z) : res (list Z * (Error + list RegexpAtom)) :=
  r ← split_pieces h.(inner);
  match r with
  | inl e => Ret (code, inl e)
  | inr pieces =>
      '(best_piece, _, best_atoms) ← choose_piece pieces;
      bck ← (if 0 <? best_piece then append_code (reverse (slice_to pieces best_piece)) code else ok code);
      match bck with
      | inl e => Ret (code, inl e)
      | inr bck_code =>
          let bck_code_start := if 0 <? best_piece then Some (len code) else None in
          fwd ← append_code (slice_from pieces best_piece) bck_code;
          match fwd with
          | inl e => Ret (bck_code, inl e)
          | inr fwd_code =>
              r ← finish_atoms pieces (len bck_code) bck_code_start best_atoms;
              Ret (fwd_code, r)
          end
      end
  end.
End Compile.
