(* ===== verification/FastSplit.v ===== *)
(** The decomposition of a pattern into pieces preserves what it matches. *)

From S2P Require Import Prelude.
From S2P Require Import Re.
From S2P Require Import FastInstr.
From S2P Require Import FastSpec.
From S2P Require Import Atoms.
From S2P Require Import ByteClass.
From S2P Require Import Hir.
From S2P Require Import Visit.
From S2P Require Import HirProps.
From S2P Require Import FastCompiler.

(** * Matches of pieces at a position of the data *)

Definition pieces_at (data : list Z) (pieces : list PatternPiece) (i j : Z) : Prop :=
  exists w, get_range data i j = Some w /\ pieces_match pieces w.

Lemma pieces_at_bounded data ps : bounded data (pieces_at data ps).
Proof. by intros i j (w & [? _]%get_range_span & _). Qed.

Lemma pieces_at_nil data i j : pieces_at data [] i j <-> i = j /\ span data i j.
Proof.
  rewrite <- masked_at_nil. unfold pieces_at, masked_at. cbn.
  split; intros (w & Hw & H); exists w; (split; [done|]); [subst; constructor|by inversion H].
Qed.

Lemma pieces_at_app data ps1 ps2 i j :
  pieces_at data (ps1 ++ ps2) i j <-> exists k, pieces_at data ps1 i k /\ pieces_at data ps2 k j.
Proof.
  unfold pieces_at. split.
  - intros (w & Hw & (w1 & w2 & -> & H1 & H2)%pieces_match_app).
    apply get_range_app in Hw as (k & Hk1 & Hk2). exists k. eauto 6.
  - intros (k & (w1 & Hw1 & H1) & (w2 & Hw2 & H2)). exists (w1 ++ w2).
    rewrite get_range_app, pieces_match_app. split; eauto 6.
Qed.

Definition piece_at (data : list Z) (piece : PatternPiece) (i j : Z) : Prop :=
  exists w, get_range data i j = Some w /\ piece_matches piece w.

Lemma pieces_at_singleton data p i j : pieces_at data [p] i j <-> piece_at data p i j.
Proof.
  unfold pieces_at, piece_at. cbn. split.
  - intros (w & Hw & (w1 & w2 & -> & Hp & ->)). rewrite app_nil_r in Hw. eauto.
  - intros (w & Hw & Hp). exists w. split; [done|]. exists w, []. by rewrite app_nil_r.
Qed.

(** A pattern matches what the masked literal that it was made from matches. *)
Lemma pattern_at_masked data b m i j :
  Forall is_u8 data -> Forall is_u8 b -> length b = length m ->
  (exists w, get_range data i j = Some w /\
     pattern_matches (if forallb (fun b => b =? 0xff) m then PatLiteral b else PatMasked b m) w) <->
  masked_at data b m i j.
Proof.
  intros Hu Hb Hl. destruct (forallb _ m) eqn:E; [|done]. cbn.
  assert (m = replicate (length b) 0xff) as ->.
  { rewrite Hl. clear Hl. induction m as [|x m IH]; [done|]. cbn in *. apply andb_prop in E as [E1 E2].
    f_equal; [lia|auto]. }
  rewrite masked_literal by done. split; [by intros (w & Hw & ->)|eauto].
Qed.

(** * The splitter *)

(** The pending literal is a masked literal. *)
Definition splitter_wf (s : PatternSplitter) : Prop :=
  length s.(sp_bytes) = length s.(sp_mask) /\ Forall is_u8 s.(sp_bytes) /\ Forall is_u8 s.(sp_mask) /\
  Forall typed_piece s.(sp_pieces).

(** Outside of alternations and repetitions. *)
Definition at_top (s : PatternSplitter) : Prop :=
  splitter_wf s /\ s.(in_alternation) = false /\ s.(in_repetition) = false /\ s.(sp_alternatives) = [].

(** What has been read so far: the pieces and the pending literal. *)
Definition read_at (data : list Z) (s : PatternSplitter) (i j : Z) : Prop :=
  exists k, pieces_at data s.(sp_pieces) i k /\ masked_at data s.(sp_bytes) s.(sp_mask) k j.

Lemma push_bytes_top b m s :
  at_top s -> length b = length m -> Forall is_u8 b -> Forall is_u8 m ->
  at_top (push_bytes b m s) /\
  forall data i j, read_at data (push_bytes b m s) i j <->
    exists k, read_at data s i k /\ masked_at data b m k j.
Proof.
  intros ((Hl & Hb & Hm & Hp) & Ha & Hr & Halt) Hl' Hb' Hm'. split.
  - split; [|done]. split_and!; cbn; [rewrite !length_app; lia|by apply Forall_app..|done].
  - intros data i j. unfold read_at. cbn. setoid_rewrite masked_at_app; [|done]. naive_solver.
Qed.

Lemma finish_piece_top s :
  at_top s ->
  at_top (finish_piece s) /\ (finish_piece s).(sp_bytes) = [] /\ (finish_piece s).(sp_mask) = [] /\
  forall data i j, Forall is_u8 data ->
    pieces_at data (finish_piece s).(sp_pieces) i j <-> read_at data s i j.
Proof.
  intros ((Hl & Hb & Hmu & Hps) & Ha & Hr & Halt). unfold finish_piece, finish_literal. rewrite Ha. cbn [negb andb].
  case_bool_decide as Hn.
  - split; [done|]. split; [done|]. rewrite Hn in Hl. cbn in Hl.
    assert (Hm : sp_mask s = []) by by destruct (sp_mask s).
    split; [done|]. intros data i j _. unfold read_at. rewrite Hn, Hm. setoid_rewrite masked_at_nil. split.
    + intros H. exists j. split; [done|]. split; [done|]. apply pieces_at_bounded in H. unfold span in *. lia.
    + by intros (k & H & [-> _]).
  - assert (Hgoal : forall data i j, Forall is_u8 data ->
      pieces_at data (sp_pieces s ++ [PiecePattern (if forallb (fun b => b =? 0xff) s.(sp_mask)
        then PatLiteral s.(sp_bytes) else PatMasked s.(sp_bytes) s.(sp_mask))]) i j <-> read_at data s i j).
    { intros data i j Hu. rewrite pieces_at_app. unfold read_at. setoid_rewrite pieces_at_singleton.
      unfold piece_at. cbn. setoid_rewrite pattern_at_masked; done. }
    destruct (forallb _ _); (split; [|done]); (split; [|done]); cbn; split_and!; try done;
      (apply Forall_app; split; [done|]); by repeat constructor.
Qed.

Lemma push_piece_top piece s :
  at_top s -> s.(sp_bytes) = [] -> s.(sp_mask) = [] -> typed_piece piece ->
  at_top (push_piece piece s) /\
  forall data i j, read_at data (push_piece piece s) i j <->
    exists k, pieces_at data s.(sp_pieces) i k /\ piece_at data piece k j.
Proof.
  intros ((Hl & Hbu & Hmu & Hps) & Ht) Hb Hm Hty. split.
  { split; [|done]. split_and!; try done. cbn. apply Forall_app. split; [done|by constructor]. }
  intros data i j. unfold read_at. cbn. rewrite Hb, Hm.
  setoid_rewrite masked_at_nil. setoid_rewrite pieces_at_app. setoid_rewrite pieces_at_singleton. split.
  - intros (k & H & [-> _]). done.
  - intros H. exists j. split; [done|]. split; [done|].
    destruct H as (k & _ & (w & Hw & _)). apply get_range_span in Hw as [Hw _]. unfold span in *. lia.
Qed.

Section Split.
Context {HS : HirSemantics}.

Definition classes_ok (h : Hir) : Prop := forallb recognised (hir_classes h) = true.

Lemma classes_ok_flat hs : forallb recognised (flat_map hir_classes hs) = true -> Forall classes_ok hs.
Proof.
  intros Hok. apply Forall_forall. intros h Hin. unfold classes_ok. rewrite forallb_forall in *.
  intros rs Hrs. apply Hok, in_flat_map. exists h. split; [by apply list_elem_of_In|done].
Qed.

Lemma push_bytes_nil s : push_bytes [] [] s = s.
Proof. destruct s. unfold push_bytes, set_literal. cbn. by rewrite !app_nil_r. Qed.

Lemma push_bytes_app b1 m1 b2 m2 s :
  push_bytes b2 m2 (push_bytes b1 m1 s) = push_bytes (b1 ++ b2) (m1 ++ m2) s.
Proof. unfold push_bytes, set_literal. cbn. by rewrite !app_assoc. Qed.

Lemma literal_top bs data i j :
  Forall is_u8 data -> Forall is_u8 bs ->
  hmatch (HLiteral bs) data i j <-> masked_at data bs (replicate (length bs) 0xff) i j.
Proof. intros Hu Hb. by rewrite masked_literal. Qed.

Lemma masked_class_ok rs hb :
  canonical rs -> recognised rs = true -> class_to_masked_byte rs = Some hb ->
  Forall is_u8 [hb.(hb_value)] /\ Forall is_u8 [hb.(hb_mask)] /\
  forall data i j, Forall is_u8 data ->
    hmatch (HClass (ClassBytes rs)) data i j <-> masked_at data [hb.(hb_value)] [hb.(hb_mask)] i j.
Proof.
  intros Hc Hr E. unfold recognised in Hr. rewrite E in Hr. apply class_isb_spec in Hr.
  destruct (class_to_masked_byte_u8 _ _ Hc E) as [Hv Hm]. split; [by constructor|]. split; [by constructor|].
  intros data i j Hu. by rewrite masked_class.
Qed.

(** ** Expressions inside of an alternation *)

(** They add a masked literal to the pending one. *)
Definition adds_literal (hs : list Hir) (s s' : PatternSplitter) : Prop :=
  exists b m, s' = push_bytes b m s /\ length b = length m /\ Forall is_u8 b /\ Forall is_u8 m /\
    forall data, Forall is_u8 data -> extracted data hs b m.

Lemma adds_literal_one h s b m :
  length b = length m -> Forall is_u8 b -> Forall is_u8 m ->
  (forall data i j, Forall is_u8 data -> hmatch h data i j <-> masked_at data b m i j) ->
  adds_literal [h] s (push_bytes b m s).
Proof.
  intros Hl Hb Hmu Hm. exists b, m. split_and!; try done. intros data Hu i j.
  unfold rels. cbn [fmap list_fmap]. rewrite seq_match_singleton by apply hmatch_bounded. by apply Hm.
Qed.

Lemma adds_literal_cons h hs s s1 s2 :
  adds_literal [h] s s1 -> adds_literal hs s1 s2 -> adds_literal (h :: hs) s s2.
Proof.
  intros (b1 & m1 & -> & Hl1 & Hb1 & Hm1 & H1) (b2 & m2 & -> & Hl2 & Hb2 & Hm2 & H2).
  exists (b1 ++ b2), (m1 ++ m2). rewrite push_bytes_app, !length_app. split; [done|]. split; [lia|].
  split; [by apply Forall_app|]. split; [by apply Forall_app|]. intros data Hu. apply extracted_cons; auto. intros i j.
  rewrite <- (H1 data Hu i j). symmetry. apply seq_match_singleton, hmatch_bounded.
Qed.

Lemma traverse_alternative h s s' :
  hir_wf h -> classes_ok h -> s.(in_alternation) = true -> s.(in_repetition) = false ->
  traverse splitter_visitor h s = Ret (inr s') -> adds_literal [h] s s'.
Proof.
  revert s s'. induction h as [|bs|c|l|min max g sub IH|sub IH|subs IH|subs IH] using hir_ind;
    intros s s' Hw Hok Ha Hr Ht.
  - cbn in Ht. injection Ht as <-. rewrite <- (push_bytes_nil s) at 2.
    apply adds_literal_one; [done|constructor..|]. intros data i j _. by rewrite masked_at_nil.
  - cbn in Ht. injection Ht as <-.
    apply adds_literal_one; [by rewrite length_replicate|done|by apply Forall_replicate|]. intros. by apply literal_top.
  - cbn in Ht. rewrite Hr in Ht. destruct c as [rs|rs]; [|done].
    unfold visit_class_bytes in Ht. destruct (class_to_masked_byte rs) as [hb|] eqn:E.
    + cbn in Ht. injection Ht as <-. unfold classes_ok in Hok. cbn in Hok. rewrite andb_true_r in Hok.
      destruct (masked_class_ok _ _ Hw Hok E) as (? & ? & ?). by apply adds_literal_one.
    + rewrite Ha in Ht. done.
  - done.
  - cbn in Ht. unfold visit_repetition in Ht. rewrite Ha, orb_true_r in Ht. done.
  - apply and_then_inr in Ht as (s1 & E1 & Ht). injection E1 as <-.
    apply and_then_inr in Ht as (s2 & E2 & Ht). injection Ht as <-. by apply IH.
  - rewrite traverse_concat in Ht by done. apply and_then_inr in Ht as (s1 & E1 & Ht). injection E1 as <-.
    apply and_then_inr in Ht as (s2 & E2 & Ht). injection Ht as <-.
    cbn in Hw. apply foldr_and_Forall in Hw. apply classes_ok_flat in Hok.
    assert (adds_literal subs s s2) as (b & m & -> & Hl & Hb & Hmu & Hm).
    { clear - IH Hw Hok Ha Hr E2. revert s Ha Hr E2.
      induction IH as [|sub subs IH1 _ IH]; intros s Ha Hr E.
      - injection E as <-. exists [], []. rewrite push_bytes_nil. split_and!; [done|done|constructor|constructor|]. intros data _. apply extracted_nil.
      - apply Forall_cons in Hw as [Hw1 Hw2]. apply Forall_cons in Hok as [Hok1 Hok2].
        cbn in E. apply and_then_inr in E as (s1 & E1 & E).
        apply IH1 in E1; [|done..]. eapply adds_literal_cons; [done|].
        destruct E1 as (b & m & -> & _). by apply IH. }
    exists b, m. split_and!; try done. intros data Hu.
    apply extracted_concat. rewrite app_nil_r. by apply Hm.
  - cbn in Ht. rewrite Ha, orb_true_r in Ht. done.
Qed.

(** ** Alternations *)

Definition pattern_of (b m : list Z) : Pattern :=
  if forallb (fun b => b =? 0xff) m then PatLiteral b else PatMasked b m.

(** A splitter that is reading an alternation. *)
Definition alt_state (ps : list PatternPiece) (alts : list Pattern) (b m : list Z) : PatternSplitter :=
  {| sp_bytes := b; sp_mask := m; sp_pieces := ps; sp_alternatives := alts;
     in_alternation := true; in_repetition := false |}.

Definition alts_at (data : list Z) (alts : list Pattern) : Z -> Z -> Prop :=
  piece_at data (PieceAlternation alts).

Lemma finish_alt_state ps alts b m :
  length b = length m ->
  finish_alternative (alt_state ps alts b m) = alt_state ps (alts ++ [pattern_of b m]) [] [].
Proof.
  intros Hl. unfold finish_alternative, finish_literal, pattern_of. cbn [alt_state in_alternation negb andb sp_mask].
  by destruct (forallb _ m).
Qed.

Lemma alts_at_snoc data alts b m i j :
  Forall is_u8 data -> Forall is_u8 b -> length b = length m ->
  alts_at data (alts ++ [pattern_of b m]) i j <-> alts_at data alts i j \/ masked_at data b m i j.
Proof.
  intros Hu Hb Hl. rewrite <- pattern_at_masked by done. unfold alts_at, piece_at. cbn. fold (pattern_of b m).
  setoid_rewrite elem_of_app. setoid_rewrite list_elem_of_singleton. split.
  - intros (w & Hw & p & [Hp| ->] & Hm); [left|right]; eauto.
  - intros [(w & Hw & p & Hp & Hm)|(w & Hw & Hm)]; eauto 8.
Qed.

Lemma snoc_typed alts b m :
  Forall typed_pattern alts -> Forall is_u8 b -> Forall is_u8 m -> Forall typed_pattern (alts ++ [pattern_of b m]).
Proof.
  intros Ha Hb Hm. apply Forall_app. split; [done|]. constructor; [|constructor].
  unfold pattern_of. by destruct (forallb _ m).
Qed.

Lemma visit_rest_alt ps hs alts b m s' :
  Forall hir_wf hs -> Forall classes_ok hs -> length b = length m -> Forall is_u8 b -> Forall is_u8 m ->
  Forall typed_pattern alts -> visit_rest splitter_visitor (visit_alternation_in splitter_visitor) hs (alt_state ps alts b m) = Ret (inr s') ->
  exists alts' b' m', s' = alt_state ps alts' b' m' /\ length b' = length m' /\ Forall is_u8 b' /\
    Forall is_u8 m' /\ Forall typed_pattern alts' /\
    forall data i j, Forall is_u8 data ->
      (alts_at data alts' i j \/ masked_at data b' m' i j <->
       alts_at data alts i j \/ masked_at data b m i j \/ hmatch (HAlternation hs) data i j).
Proof.
  intros Hw Hok. revert alts b m. induction Hw as [|h hs Hw Hws IH]; intros alts b m Hl Hb Hmu Hty E.
  - injection E as <-. exists alts, b, m. split_and!; try done. intros data i j _. cbn.
    rewrite Exists_nil. tauto.
  - apply Forall_cons in Hok as [Hok Hoks]. cbn [visit_rest splitter_visitor visit_alternation_in] in E.
    rewrite finish_alt_state in E by done. cbn [and_then ok mbind res_bind] in E.
    apply and_then_inr in E as (s1 & E1 & E).
    apply traverse_alternative in E1 as (b1 & m1 & -> & Hl1 & Hb1 & Hm1 & H1); [|done..].
    change (push_bytes b1 m1 _) with (alt_state ps (alts ++ [pattern_of b m]) b1 m1) in E.
    apply IH in E as (alts' & b' & m' & -> & Hl' & Hb' & Hm' & Hty' & Hm); [|done..|by apply snoc_typed].
    exists alts', b', m'. split_and!; try done. intros data i j Hu. rewrite Hm, alts_at_snoc by done.
    cbn. rewrite Exists_cons. specialize (H1 data Hu i j). unfold rels in H1. cbn in H1.
    rewrite <- H1. pose proof (seq_match_singleton data (hmatch h data) i j (hmatch_bounded h data)) as Hs.
    cbn in Hs. rewrite Hs. tauto.
Qed.

(** ** Repetitions *)

Lemma seq_match_class rs data n i j :
  Forall is_u8 data ->
  seq_match data (replicate n (hmatch (HClass (ClassBytes rs)) data)) i j <->
  span data i j /\ j - i = Z.of_nat n /\ Forall (fun b => in_class b rs = true) (slice data i j).
Proof.
  intros Hu. revert i. induction n as [|n IH]; intros i; cbn [replicate seq_match].
  - split.
    + intros [-> Hs]. split; [done|]. split; [lia|]. unfold slice. rewrite Z.sub_diag. constructor.
    + intros (Hs & Hl & _). unfold span in *. lia.
  - setoid_rewrite IH. setoid_rewrite class_one; [|done]. split.
    + intros (k & _ & (Hs1 & -> & b & Hg & _ & Hc) & Hs2 & Hl & HF). unfold span in *.
      split; [lia|]. split; [lia|]. rewrite (slice_split data i (i + 1) j) by lia.
      apply Forall_app. split; [|done]. apply get_Some in Hg as [_ Hg].
      unfold slice. replace (Z.to_nat (i + 1 - i)) with 1%nat by lia. rewrite (drop_S _ _ _ Hg).
      by constructor.
    + intros (Hs & Hl & HF). unfold span in *. exists (i + 1). split; [lia|].
      rewrite (slice_split data i (i + 1) j) in HF by lia. apply Forall_app in HF as [HF1 HF2].
      split; [|by split_and!; [lia..|]]. split; [lia|]. split; [done|].
      destruct (get_is_Some data i) as [b Hg]; [lia|]. exists b. split; [done|].
      pose proof Hg as [_ Hg']%get_Some. split; [by eapply Forall_lookup_1 in Hg'|].
      unfold slice in HF1. replace (Z.to_nat (i + 1 - i)) with 1%nat in HF1 by lia.
      rewrite (drop_S _ _ _ Hg') in HF1. by apply Forall_cons in HF1 as [? _].
Qed.

(** The bytes that a jump accepts. *)
Lemma repetition_piece min max g sub data i j :
  hir_wf (HRepetition min max g sub) -> any_byte sub || any_byte_except_newline sub = true ->
  Forall is_u8 data ->
  piece_at data (if bool_decide (max = Some min) then PieceJumpExact min (negb (any_byte_except_newline sub))
                 else PieceJump min max (negb (any_byte_except_newline sub))) i j <->
  hmatch (HRepetition min max g sub) data i j.
Proof.
  intros [Hmin Hw] Hany Hu. cbn [hmatch].
  assert (Hsub : exists rs, sub = HClass (ClassBytes rs) /\
    forall b, is_u8 b -> in_class b rs = true <-> (negb (any_byte_except_newline sub) = false -> b <> 0x0A)).
  { apply orb_prop in Hany as [Hany|Hany].
    - rewrite (any_byte_class _ Hany Hw). eexists. split; [done|]. intros b Hb. unfold is_u8 in Hb.
      unfold in_class, in_range. cbn. split; [done|]. intros _. lia.
    - destruct sub as [| |[rs|rs]| | | | |]; try done; cbn in Hany; apply bool_decide_eq_true in Hany; subst rs.
      + eexists. split; [done|]. intros b Hb. unfold is_u8 in Hb. cbn. unfold in_class, in_range. cbn.
        split; [intros Hc _ ->; done|]. intros Hc. specialize (Hc eq_refl). lia.
      + cbn in Hw. by apply Forall_cons in Hw as [_ [Hw _]%Forall_cons]. }
  destruct Hsub as (rs & -> & Hrs). set (nl := negb _) in *.
  assert (HF : forall w, Forall is_u8 w ->
    Forall (fun b => in_class b rs = true) w <-> (nl = false -> no_newline w)).
  { intros w Hwu. unfold no_newline. rewrite !Forall_forall in *. split.
    - intros HF Hnl Hin. by apply (Hrs 0x0A); [apply Hwu|apply HF|done|].
    - intros Hn b Hb. apply Hrs; [by apply Hwu|]. intros Hnl ->. by apply (Hn Hnl). }
  setoid_rewrite seq_match_class; [|done]. unfold piece_at.
  assert (Hpiece : (exists w, get_range data i j = Some w /\ min <= len w /\ (forall m, max = Some m -> len w <= m) /\
      (nl = false -> no_newline w)) <->
    exists n : nat, min <= Z.of_nat n /\ (forall m, max = Some m -> Z.of_nat n <= m) /\ span data i j /\
      j - i = Z.of_nat n /\ Forall (fun b => in_class b rs = true) (slice data i j)).
  { split.
    - intros (w & Hg & H1 & H2 & H3). pose proof (get_range_span _ _ _ _ Hg) as [Hs Hl].
      apply get_range_Some in Hg as (_ & _ & ->). exists (Z.to_nat (j - i)). unfold span in *. rewrite Z2Nat.id by lia.
      rewrite <- Hl. split_and!; try done; try lia. apply HF; [by apply Forall_slice|done].
    - intros (n & H1 & H2 & Hs & Hl & H3). exists (slice data i j). unfold span in Hs.
      rewrite len_slice, Hl by lia.
      split; [apply get_range_Some; split; [lia|]; split; [lia|done]|]. split_and!; try done.
      apply HF; [by apply Forall_slice|done]. }
  rewrite <- Hpiece. case_bool_decide as Hx; [|done]. subst max. cbn. split.
  - intros (w & Hg & <- & Hn). exists w. split_and!; try done; try lia. intros m [= <-]. lia.
  - intros (w & Hg & H1 & H2 & Hn). exists w. specialize (H2 _ eq_refl). split_and!; try done. lia.
Qed.
End Split.

(** * Expressions outside of alternations *)

Section Top.
Context {HS : HirSemantics}.

(** The expression is added to what has been read. *)
Definition reads (h : Hir) (s s' : PatternSplitter) : Prop :=
  at_top s' /\
  forall data i j, Forall is_u8 data -> (read_at data s' i j <-> exists k, read_at data s i k /\ hmatch h data k j).

Lemma read_at_bounded data s : bounded data (read_at data s).
Proof.
  intros i j (k & H1%pieces_at_bounded & H2%masked_at_bounded). unfold span in *. lia.
Qed.

Lemma reads_literal h b m s :
  at_top s -> length b = length m -> Forall is_u8 b -> Forall is_u8 m ->
  (forall data i j, Forall is_u8 data -> hmatch h data i j <-> masked_at data b m i j) ->
  reads h s (push_bytes b m s).
Proof.
  intros Ht Hl Hb Hmu Hm. destruct (push_bytes_top b m s Ht Hl Hb Hmu) as [Ht' Hr]. split; [done|].
  intros data i j Hu. rewrite Hr. split; intros (k & H1 & H2); exists k; (split; [done|]); by apply Hm.
Qed.

Lemma reads_piece h piece s :
  at_top s -> typed_piece piece ->
  (forall data i j, Forall is_u8 data -> hmatch h data i j <-> piece_at data piece i j) ->
  reads h s (push_piece piece (finish_piece s)).
Proof.
  intros Ht Hty Hm. destruct (finish_piece_top s Ht) as (Ht' & Hb & Hmk & Hf).
  destruct (push_piece_top piece _ Ht' Hb Hmk Hty) as [Ht'' Hp]. split; [done|].
  intros data i j Hu. rewrite Hp.
  split; intros (k & H1 & H2); exists k; (split; [by apply Hf|]); by apply Hm.
Qed.

Lemma reads_concat hs s s' :
  at_top s -> Forall (fun h => forall s s', at_top s -> traverse splitter_visitor h s = Ret (inr s') -> reads h s s') hs ->
  visit_all splitter_visitor hs s = Ret (inr s') -> reads (HConcat hs) s s'.
Proof.
  intros Ht IH. revert s Ht. induction IH as [|h hs IH1 _ IH]; intros s Ht E.
  - injection E as <-. split; [done|]. intros data i j Hu. cbn. split.
    + intros H. exists j. split; [done|]. split; [done|]. apply read_at_bounded in H. unfold span in *. lia.
    + by intros (k & H & -> & _).
  - cbn [visit_all] in E. apply and_then_inr in E as (s1 & E1 & E).
    destruct (IH1 _ _ Ht E1) as [Ht1 H1]. destruct (IH _ Ht1 E) as [Ht' H']. split; [done|].
    intros data i j Hu. rewrite H' by done. cbn. split.
    + intros (k & (k' & Hk & Hh)%H1 & Hs); [|done]. exists k'. split; [done|].
      exists k. split; [by apply hmatch_bounded in Hh|]. by split.
    + intros (k & Hk & k' & _ & Hh & Hs). exists k'. split; [|done]. apply H1; [done|]. eauto.
Qed.

(** A class that is an alternation of masked bytes. *)
Lemma alternation_class rs l data i j :
  canonical rs -> class_to_masked_bytes_alternation rs = Ret (Some l) -> Forall is_u8 data ->
  hmatch (HClass (ClassBytes rs)) data i j <->
  piece_at data (PieceAlternation ((fun b => PatMasked [b.(hb_value)] [b.(hb_mask)]) <$> l)) i j.
Proof.
  intros Hc E Hu. pose proof (alternation_spec rs l Hc E) as Hspec. cbn. unfold piece_at. cbn.
  assert (Hw : forall w, get_range data i j = Some w -> Forall is_u8 w).
  { intros w Hg. apply get_range_Some in Hg as (_ & _ & ->). by apply Forall_slice. }
  split.
  - intros (b & Hg & Hin). pose proof (Hw _ Hg) as Hb%Forall_inv. apply Hspec in Hin as (hb & Hl & Hm); [|done].
    exists [b]. split; [done|]. exists (PatMasked [hb.(hb_value)] [hb.(hb_mask)]).
    split; [by apply (list_elem_of_fmap_2 (fun b => PatMasked [b.(hb_value)] [b.(hb_mask)]))|].
    repeat constructor. exact Hm.
  - intros (w & Hg & p & (hb & -> & Hl)%list_elem_of_fmap & Hm). cbn in Hm.
    inversion Hm as [|b ? ? w' ? ? Hb Hf]; subst. inversion Hf; subst.
    pose proof (Hw _ Hg) as Hb'%Forall_inv. exists b. split; [done|]. apply Hspec; eauto.
Qed.

(** An alternation is finished as one piece. *)
Lemma reads_alternation h hs s s' :
  at_top s -> Forall hir_wf (h :: hs) -> Forall classes_ok (h :: hs) ->
  traverse splitter_visitor (HAlternation (h :: hs)) s = Ret (inr s') -> reads (HAlternation (h :: hs)) s s'.
Proof.
  intros Ht [Hw Hws]%Forall_cons [Hok Hoks]%Forall_cons E. pose proof Ht as (_ & Ha & Hr & _).
  rewrite traverse_alternation in E. apply and_then_inr in E as (s1 & E1 & E).
  cbn [splitter_visitor visit_pre splitter_pre] in E1. rewrite Ha, Hr in E1. cbn [orb] in E1.
  destruct (MAX_ALTERNATIVES <? _); [done|]. injection E1 as <-.
  apply and_then_inr in E as (s2 & E2 & E). apply and_then_inr in E2 as (s3 & E3 & E2).
  destruct (finish_piece_top s Ht) as ((_ & Ha' & Hr' & Halt) & Hb & Hm & _).
  assert (Hs1 : set_in_alternation true (finish_piece s) = alt_state (finish_piece s).(sp_pieces) [] [] []).
  { destruct (finish_piece s). cbn in *. by subst. }
  rewrite Hs1 in E3. apply traverse_alternative in E3 as (b & m & -> & Hl & Hbu & Hmu & H1); [|done..].
  change (push_bytes b m _) with (alt_state (finish_piece s).(sp_pieces) [] b m) in E2.
  apply visit_rest_alt in E2 as (alts & b' & m' & -> & Hl' & Hb' & Hm' & Hty & H2); [|done..|constructor].
  cbn [splitter_visitor visit_post splitter_post] in E. rewrite finish_alt_state in E by done. injection E as <-.
  match goal with |- reads _ _ ?x =>
    replace x with (push_piece (PieceAlternation (alts ++ [pattern_of b' m'])) (finish_piece s)) end.
  2: { destruct (finish_piece s). cbn in *. by subst. }
  apply reads_piece; [done|by apply snoc_typed|]. intros data i j Hu. fold (alts_at data (alts ++ [pattern_of b' m'])).
  rewrite alts_at_snoc, H2 by done. cbn. rewrite Exists_cons.
  specialize (H1 data Hu i j). unfold rels in H1. cbn [fmap list_fmap] in H1.
  rewrite seq_match_singleton in H1 by apply hmatch_bounded. rewrite H1.
  assert (~ alts_at data [] i j) by (intros (w & _ & p & Hp & _); by apply not_elem_of_nil in Hp). tauto.
Qed.

Lemma alternation_class_typed rs l :
  canonical rs -> class_to_masked_bytes_alternation rs = Ret (Some l) ->
  typed_piece (PieceAlternation ((fun b => PatMasked [b.(hb_value)] [b.(hb_mask)]) <$> l)).
Proof.
  intros Hc E. cbn. apply Forall_fmap. eapply Forall_impl; [by eapply alternation_typed|].
  intros hb [H1 H2]. split; by constructor.
Qed.

Lemma traverse_top h s s' :
  hir_wf h -> classes_ok h -> at_top s ->
  traverse splitter_visitor h s = Ret (inr s') -> reads h s s'.
Proof.
  revert s s'. induction h as [|bs|c|l|min max g sub IH|sub IH|subs IH|subs IH] using hir_ind;
    intros s s' Hw Hok Ht E; pose proof Ht as (Hwf & Ha & Hr & Halt).
  - cbn in E. injection E as <-. rewrite <- (push_bytes_nil s) at 2.
    apply reads_literal; [done|done|constructor..|]. intros data i j _. by rewrite masked_at_nil.
  - cbn in E. injection E as <-. apply reads_literal; [done|by rewrite length_replicate|done|by apply Forall_replicate|].
    intros. by apply literal_top.
  - cbn in E. rewrite Hr in E. destruct c as [rs|rs]; [|done].
    unfold visit_class_bytes in E. destruct (class_to_masked_byte rs) as [hb|] eqn:Ec.
    + cbn in E. injection E as <-. unfold classes_ok in Hok. cbn in Hok. rewrite andb_true_r in Hok.
      destruct (masked_class_ok _ _ Hw Hok Ec) as (? & ? & ?). by apply reads_literal.
    + rewrite Ha in E. destruct (class_to_masked_bytes_alternation rs) as [[l|]| |] eqn:El; try done.
      cbn in E. injection E as <-. apply reads_piece; [done|by eapply alternation_class_typed|]. intros. by apply alternation_class.
  - done.
  - apply and_then_inr in E as (s1 & E1 & E). apply and_then_inr in E as (s2 & E2 & E).
    injection E as <-. cbn in E1. unfold visit_repetition in E1. rewrite Hr, Ha in E1. cbn [orb] in E1.
    destruct (negb (any_byte sub) && _) eqn:Eany; [done|].
    rewrite <- negb_orb in Eany. apply negb_false_iff in Eany.
    assert (exists c, sub = HClass c) as [c ->].
    { destruct sub; try done. eauto. }
    set (s1' := if bool_decide _ && _ && _ then _ else _) in E1. injection E1 as <-.
    assert (E2' : s2 = set_in_repetition true s1') by (cbn in E2; by injection E2). subst s2.
    assert (Hs : reads (HRepetition min max g (HClass c)) s s1').
    { subst s1'. destruct (_ && _) eqn:Ex.
      - apply andb_prop in Ex as [[Ex1 _]%andb_prop Enl]. apply bool_decide_eq_true in Ex1. subst max.
        apply reads_literal; [done|by rewrite !length_replicate|by apply Forall_replicate..|].
        intros data i j Hu. rewrite <- (repetition_piece _ _ _ _ _ _ _ Hw Eany Hu).
        rewrite bool_decide_eq_true_2, Enl, masked_wildcards by done. unfold piece_at. cbn. cbn in Hw.
        destruct Hw as [Hmin _]. rewrite Z2Nat.id by done. split.
        + intros (w & Hg & Hl & _). pose proof (get_range_span _ _ _ _ Hg) as [? ?]. split; [done|lia].
        + intros [(H1 & H2 & H3) Hl]. exists (slice data i j). rewrite len_slice by lia.
          split; [apply get_range_Some; split_and!; lia || done|]. by split.
      - apply reads_piece; [done|by case_bool_decide|]. intros data i j Hu. symmetry. by apply repetition_piece. }
    destruct Hs as [(Hwf1 & Ha1 & Hr1 & Halt1) Hs]. split; [done|]. exact Hs.
  - apply and_then_inr in E as (s1 & E1 & E). injection E1 as <-.
    apply and_then_inr in E as (s2 & E2 & E). injection E as <-. by apply IH.
  - rewrite traverse_concat in E by done. apply and_then_inr in E as (s1 & E1 & E). injection E1 as <-.
    apply and_then_inr in E as (s2 & E2 & E). injection E as <-.
    cbn in Hw. apply foldr_and_Forall in Hw. apply classes_ok_flat in Hok.
    apply reads_concat; [done| |done]. rewrite Forall_forall in *. intros h Hin s0 s0' Ht0 E0.
    apply (IH h Hin); auto.
  - cbn [hir_wf] in Hw. destruct Hw as [Hne Hw]. apply foldr_and_Forall in Hw. apply classes_ok_flat in Hok.
    destruct subs as [|h hs]; [done|]. by apply reads_alternation.
Qed.

(** ** The result *)

(** The decomposition does not panic: the only class for which the conversion to
    an alternation of masked bytes does is a masked byte. *)
Lemma traverse_ret h s : hir_wf h -> exists r, traverse splitter_visitor h s = Ret r.
Proof.
  assert (Hbind : forall A B (m : res (Error + A)) (f : A -> res (Error + B)),
    (exists r, m = Ret r) -> (forall a, exists r, f a = Ret r) -> exists r, and_then m f = Ret r).
  { intros A B m f [[e|a] ->] Hf; cbn; eauto. }
  assert (Hpost : forall h s, exists r, splitter_post h s = Ret r) by (intros [] ?; cbn; eauto).
  revert s. induction h as [|bs|c|l|min max g sub IH|sub IH|subs IH|subs IH] using hir_ind; intros s Hw.
  - cbn. eauto.
  - cbn. eauto.
  - apply Hbind; [|intros; apply Hbind; [cbn; unfold ok; eauto|apply Hpost]].
    cbn. destruct (in_repetition s); [unfold ok; eauto|]. destruct c as [rs|rs]; [|unfold fail; eauto].
    unfold visit_class_bytes. destruct (class_to_masked_byte rs) eqn:Ec; [unfold ok; eauto|].
    destruct (in_alternation s); [unfold fail; eauto|].
    destruct (class_to_masked_bytes_alternation rs) as [[l|]| |] eqn:El; [unfold ok; cbn; eauto..| |].
    + apply alternation_panics in El as ->; [done|done].
    + by apply alternation_not_fuel in El.
  - cbn. unfold fail. eauto.
  - apply Hbind; [|intros; apply Hbind; [by apply IH, Hw|apply Hpost]].
    cbn. unfold visit_repetition. destruct (_ || _); [unfold fail; eauto|].
    destruct (_ && _); unfold fail, ok; eauto.
  - apply Hbind; [cbn; unfold ok; eauto|]. intros. apply Hbind; [by apply IH|apply Hpost].
  - rewrite traverse_concat by done. apply Hbind; [cbn; unfold ok; eauto|]. intros s1. apply Hbind; [|apply Hpost].
    cbn in Hw. apply foldr_and_Forall in Hw. clear s. revert s1. induction IH as [|h hs H1 _ IH]; intros s1; cbn.
    + unfold ok. eauto.
    + apply Forall_cons in Hw as [Hw Hws]. apply Hbind; [by apply H1|by apply IH].
  - destruct subs as [|h hs]; [by destruct Hw|]. rewrite traverse_alternation.
    cbn in Hw. destruct Hw as (_ & Hw & Hws). apply foldr_and_Forall in Hws. apply Forall_cons in IH as [H1 IH].
    apply Hbind; [cbn; destruct (_ || _); [unfold fail; eauto|]; destruct (_ <? _); unfold ok, fail; eauto|].
    intros s1. apply Hbind; [|apply Hpost]. apply Hbind; [by apply H1|]. clear s s1 H1 Hw.
    induction IH as [|h' hs H1 _ IH]; intros s1; cbn; [unfold ok; eauto|].
    apply Forall_cons in Hws as [Hw Hws]. apply Hbind; [by apply H1|by apply IH].
Qed.

Lemma splitter_new_top : at_top splitter_new.
Proof. repeat split; constructor. Qed.

Lemma split_pieces_spec `{HirVisitLaws} h :
  hir_wf h -> classes_ok h ->
  (exists e, split_pieces h = Ret (inl e)) \/
  exists pieces, split_pieces h = Ret (inr pieces) /\
    (forall data i j, Forall is_u8 data -> hmatch h data i j <-> pieces_at data pieces i j) /\
    Forall typed_piece pieces.
Proof.
  intros Hw Hok. unfold split_pieces. rewrite visit_spec.
  destruct (traverse_ret h splitter_new Hw) as [[e|s] E]; rewrite E; [left; by exists e|right].
  destruct (traverse_top _ _ _ Hw Hok splitter_new_top E) as [Ht Hr].
  destruct (finish_piece_top s Ht) as (((_ & _ & _ & Hty) & _) & _ & _ & Hf).
  exists (splitter_finish s). split; [done|]. split; [|exact Hty]. intros data i j Hu.
  unfold splitter_finish. rewrite Hf, Hr by done. unfold read_at. cbn. split.
  - intros Hm. exists i. split; [|done]. exists i. rewrite pieces_at_nil, masked_at_nil.
    apply hmatch_bounded in Hm. unfold span in *. split; split; (done || lia).
  - intros (k & (k' & [-> _]%pieces_at_nil & [-> _]%masked_at_nil) & Hm). done.
Qed.

(** * Properties *)

(** C30: whenever a pattern is decomposed into pieces, the pieces match exactly
    the bytes that the pattern matches, at every position of the data; provided
    that the byte classes of the pattern that are taken for a masked byte are one.
    The decomposition never panics. *)
Theorem split_pieces_exact `{HirVisitLaws} (h : Hir) :
  hir_wf h -> classes_ok h ->
  (exists e, split_pieces h = Ret (inl e)) \/
  exists pieces, split_pieces h = Ret (inr pieces) /\
    forall data i j, Forall is_u8 data -> hmatch h data i j <-> pieces_at data pieces i j.
Proof.
  intros Hw Hok. destruct (split_pieces_spec h Hw Hok) as [?|(pieces & E & Hp & _)]; [by left|right; eauto].
Qed.
End Top.

Lemma split_pieces_exact_witness :
  let h := HConcat [HLiteral [1; 2]; HRepetition 0 (Some 10) false (HClass (ClassBytes [(0, 255)]));
                    HAlternation [HLiteral [3]; HLiteral [4; 5]]] in
  hir_wf h /\ exists pieces, split_pieces h = Ret (inr pieces) /\
    (hmatch h [1; 2; 9; 4; 5] 0 5 <-> pieces_at [1; 2; 9; 4; 5] pieces 0 5).
Proof.
  cbn zeta. set (h := HConcat _).
  assert (Hw : hir_wf h) by (repeat split; repeat constructor; unfold is_u8; cbn; lia || done).
  split; [exact Hw|]. destruct (split_pieces_exact h) as [[e E]|(pieces & E & Hp)].
  - exact Hw.
  - reflexivity.
  - vm_compute in E. discriminate.
  - exists pieces. split; [exact E|]. apply Hp. repeat constructor; unfold is_u8; lia.
Defined.
