(* ===== verification/FastCompilerProps.v ===== *)
(** What the compiler of the fast virtual machine guarantees: the atoms miss no
    match, and the code that they refer to decides the rest of the pattern. *)

From S2P Require Import Prelude.
From S2P Require Import PosSet.
From S2P Require BitmapSet.
From S2P Require Import Re.
From S2P Require Import FastInstr.
From S2P Require Import FastVM.
From S2P Require Import FastSpec.
From S2P Require Import FastVMCorrect.
From S2P Require Import FastVMRun.
From S2P Require Import Atoms.
From S2P Require Import Quality.
From S2P Require Import ByteClass.
From S2P Require Import Hir.
From S2P Require Import Visit.
From S2P Require Import HirProps.
From S2P Require Import FastCompiler.
From S2P Require Import FastSplit.

(** * Code locations *)

Lemma fwd_from_ret v c : 0 <= v -> fwd_from v = Ret c -> location c = v /\ backwards c = false.
Proof.
  unfold fwd_from. intros Hv. destruct (nonzero_loc v) as [n| |] eqn:E; [|done|done].
  intros [= <-]. apply nonzero_loc_ret in E as [-> _]; [|done].
  split; [apply Z.add_simpl_r|done].
Qed.

Lemma bck_from_ret v c : 0 <= v -> bck_from v = Ret c -> location c = v /\ backwards c = true.
Proof.
  unfold bck_from. intros Hv. destruct (nonzero_loc v) as [n| |] eqn:E; [|done|done].
  intros [= <-]. apply nonzero_loc_ret in E as [-> _]; [|done].
  split; [apply Z.add_simpl_r|done].
Qed.

(** * The atoms of a pattern *)

Section Atoms.
Context {IT : Itertools} {IL : ItertoolsLaws}.

(** The atoms [l] of the pattern [p] miss no match, and the exact ones are
    matches. *)
Definition atoms_for (p : Pattern) (l : list Atom) : Prop :=
  (forall data k j w, Forall is_u8 data -> get_range data k j = Some w -> pattern_matches p w ->
     exists a, a ∈ l /\ found_at a data k) /\
  (forall a data k, a ∈ l -> a.(is_exact) = true -> Forall is_u8 data -> found_at a data k ->
     exists w, get_range data k (k + len a.(atom_bytes)) = Some w /\ pattern_matches p w).

Lemma literal_atom s a b at0 :
  from_slice_range s a b = Some at0 -> atoms_for (PatLiteral s) [at0].
Proof.
  intros E. pose proof (from_slice_range_Some _ _ _ _ E) as (H1 & H2 & Hbs & Hbt & Hl). split.
  - intros data k j w _ Hw ->. exists at0. split; [by apply list_elem_of_singleton|].
    eapply (found_at_slice s s a b at0 data k E); [|done|done|done].
    unfold has_at. pose proof (get_range_span _ _ _ _ Hw) as [_ ->]. by replace (k + (j - k)) with j by lia.
  - intros a0 data k ->%list_elem_of_singleton Hx _ Hf.
    unfold from_slice_range in E. destruct (a <=? u16_MAX); [|done]. cbn in E.
    destruct (get_range s a b) as [w|] eqn:Eg; [|done]. cbn in E. injection E as <-. cbn in *. bools.
    assert (a = 0) as -> by lia. assert (b = len s) as -> by lia.
    rewrite slice_0, slice_to_all in Hbs by lia. subst w.
    rewrite found_at_0 in Hf by done. exists s. split; [exact Hf|done].
Qed.

Lemma masked_atoms s m a b ma l :
  Forall is_u8 m -> masked_from_slice_range s m a b = Ret (Some ma) -> a < b <= a + 7 ->
  mask_combinations ma = Ret l -> atoms_for (PatMasked s m) l.
Proof.
  intros Hm E Hab El. unfold masked_from_slice_range, assert in E. destruct (len s =? len m) eqn:Elen; [|done].
  cbn [mbind res_bind] in E. apply Ret_inj in E. bools.
  destruct (from_slice_range s a b) as [at0|] eqn:Ea; [|done]. cbn in E.
  destruct (get_range m a b) as [ms|] eqn:Em; [|done]. cbn in E. injection E as <-.
  pose proof (from_slice_range_Some _ _ _ _ Ea) as (H1 & H2 & Hbs & Hbt & Hl).
  apply get_range_Some in Em as (_ & _ & ->).
  assert (Hma : {| masked_atom := at0; atom_mask := slice m a b |} = atom_of s m a b at0.(is_exact)).
  { unfold atom_of. destruct at0. cbn in *. by subst. }
  rewrite Hma in El. destruct (atoms_of_part s m a b (is_exact at0) Hm Elen) as (l' & E' & _ & Hf & Hx); [lia..|].
  rewrite El in E'. apply Ret_inj in E' as <-. split.
  - intros data k j w Hu Hw Hp. apply (Hf data k j Hu). by exists w.
  - intros a0 data k Hin Hex Hu Hfa. destruct (Hx a0 Hin) as (Hbt0 & Hex0 & H3). rewrite Hex in Hex0.
    unfold from_slice_range in Ea. destruct (a <=? u16_MAX); [|done]. cbn in Ea.
    destruct (get_range s a b) as [w|] eqn:Eg; [|done]. cbn in Ea. injection Ea as <-. cbn in *.
    symmetry in Hex0. bools. assert (a = 0) as -> by lia. assert (b = len s) as -> by lia.
    rewrite !slice_0, !slice_to_all in H3 by lia.
    rewrite found_at_0 in Hfa by done. exists (atom_bytes a0). split; [exact Hfa|exact H3].
Qed.

(** The empty pattern has the worst quality. *)
Lemma pattern_atoms_for p b l :
  find_best_atoms p = Ret b -> pattern_fits p = true -> typed_pattern p -> i32_MIN < b.(ba_quality) ->
  pattern_atoms b = Ret (inr l) -> atoms_for p l.
Proof.
  intros Eb Hfit Ht Hq El. destruct p as [s|s m]; cbn [find_best_atoms] in Eb.
  - destruct (best_range_in_bytes s) as [[r q]| |] eqn:Er; [|done|done]. injection Eb as <-.
    unfold pattern_atoms in El. cbn in El.
    destruct (from_slice_range s (fst r) (snd r)) as [at0|] eqn:Ea; [|done]. injection El as <-.
    by eapply literal_atom.
  - cbn in Hfit, Ht. apply andb_prop in Hfit as [_ Hlen]. bools. destruct Ht as [Hs Hm].
    destruct (best_range_in_masked_bytes s m) as [[r q]| |] eqn:Er; [|done|done]. injection Eb as <-.
    unfold pattern_atoms in El. cbn in El, Hq.
    destruct (decide (s = [])) as [->|Hne].
    { destruct m; [|rewrite len_cons, len_nil in Hlen; pose proof (len_nonneg m); lia].
      vm_compute in Er. injection Er as <- <-. by vm_compute in Hq. }
    destruct (masked_range_spec s m Hlen Hs Hm Hne) as (r' & q' & Er' & k & i & Hk & -> & Hi & Hin & _).
    rewrite Er in Er'. injection Er' as -> ->.
    destruct (masked_from_slice_range _ _ _ _) as [[ma|]| |] eqn:Ema; try done. cbn in El.
    destruct (mask_combinations ma) as [l'| |] eqn:El'; [|done|done]. injection El as <-.
    eapply (masked_atoms s m _ _ ma); try done. cbn [fst snd].
    assert (1 <= k <= 4) by (revert Hk; elem_lia).
    assert (1 <= len (zip s m)).
    { unfold len in Hlen |- *. rewrite length_zip_with. destruct s; [done|]. cbn [length] in *. lia. }
    lia.
Qed.
End Atoms.

(** * The best piece *)

Lemma piece_atoms_ret piece atoms :
  piece_atoms piece = Ret atoms -> Forall2 (fun p b => find_best_atoms p = Ret b) (piece_patterns piece) atoms.
Proof. unfold piece_atoms. by intros (l' & -> & HF)%for_each_collected. Qed.

Lemma foldl_min_le q qs : foldl Z.min q qs <= q /\ forall x, x ∈ qs -> foldl Z.min q qs <= x.
Proof.
  revert q. induction qs as [|y qs IH]; intros q; cbn; [by split; [lia|intros x ?%not_elem_of_nil]|].
  destruct (IH (Z.min q y)) as [H1 H2]. split; [lia|].
  intros x [->|Hx]%elem_of_cons; [lia|by apply H2].
Qed.

Lemma worst_quality_le atoms b : b ∈ atoms -> worst_quality atoms <= b.(ba_quality).
Proof.
  unfold worst_quality. intros Hb. destruct atoms as [|b0 atoms]; [by apply not_elem_of_nil in Hb|]. cbn.
  destruct (foldl_min_le (ba_quality b0) (ba_quality <$> atoms)) as [H1 H2].
  apply elem_of_cons in Hb as [->|Hb]; [done|]. by apply H2, list_elem_of_fmap_2.
Qed.

(** The chosen atoms are the ones of a piece, none of them has the worst quality
    and there is one at least. *)
Lemma choose_piece_ret pieces bp q atoms :
  choose_piece pieces = Ret (bp, q, Some atoms) ->
  exists piece, get pieces bp = Some piece /\ piece_atoms piece = Ret atoms /\
    i32_MIN < worst_quality atoms.
Proof.
  unfold choose_piece. intros E.
  set (P := fun best : Z * Z * option (list BestAtom) =>
    let '(bp, q, atoms) := best in i32_MIN <= q /\
    match atoms with
    | None => bp = 0
    | Some atoms => exists piece, get pieces bp = Some piece /\ piece_atoms piece = Ret atoms /\
                      i32_MIN < worst_quality atoms
    end).
  enough (P (bp, q, Some atoms)) as [_ H] by done.
  eapply (for_each_ret P); [|clear E|exact E]; [by split|].
  intros [i piece] [[bp0 q0] best] s2 Hin [Hq Hbest] E. cbn [fst snd] in E.
  destruct (piece_atoms piece) as [atoms0| |] eqn:Ea; [|done|done]. cbn in E.
  destruct (q0 <? worst_quality atoms0) eqn:Eq; injection E as <-; [|by split]. bools.
  split; [lia|]. exists piece. apply elem_of_enumerate in Hin. split; [done|]. split; [done|]. lia.
Qed.

(** * Emission *)

Lemma append_code_ret pieces code code' :
  append_code pieces code = Ret (inr code') ->
  exists s, emit_pieces pieces seq_new = Ret (inr s) /\ code' = code ++ into_inner (emit_match s).
Proof.
  unfold append_code. intros (s & E & Es)%and_then_inr. injection Es as <-. eauto.
Qed.

Lemma append_code_fits pieces code code' :
  append_code pieces code = Ret (inr code') -> Forall (fun p => piece_fits p = true) pieces.
Proof.
  intros (s & E & _)%append_code_ret. apply emit_pieces_ret in E as [_ HF]; [|done].
  eapply Forall_impl; [exact HF|]. by intros p [? _].
Qed.

(** * The atoms of the pattern *)

Section Build.
Context {IT : Itertools} {IL : ItertoolsLaws}.

Lemma build_atoms_ret fwd bck best atoms out :
  build_atoms fwd bck best atoms = Ret (inr out) ->
  Forall (fun b => exists l, pattern_atoms b = Ret (inr l) /\
    forall a, a ∈ l -> exists r, r ∈ out /\ regexp_atom fwd bck a = Ret r) best /\
  (forall r, r ∈ out -> r ∈ atoms \/ exists b l a, b ∈ best /\ pattern_atoms b = Ret (inr l) /\ a ∈ l /\
     regexp_atom fwd bck a = Ret r) /\
  (forall r, r ∈ atoms -> r ∈ out).
Proof.
  revert atoms. induction best as [|b best IH]; intros atoms E; cbn [build_atoms] in E.
  - injection E as <-. split; [constructor|]. by split; [left|].
  - apply and_then_inr in E as (l & El & E).
    destruct (for_each l _ atoms) as [atoms'| |] eqn:Ef; [|done|done]. cbn [mbind res_bind] in E.
    apply for_each_collected in Ef as (rs & -> & HF). apply IH in E as (H1 & H2 & H3). split; [|split].
    + constructor; [|done]. exists l. split; [done|]. intros a Ha.
      apply list_elem_of_lookup in Ha as [n Hn]. destruct (Forall2_lookup_l _ _ _ _ _ HF Hn) as (r & Hr & Er).
      exists r. split; [|done]. apply H3, elem_of_app. right. by eapply list_elem_of_lookup_2.
    + intros r Hr. apply H2 in Hr as [[Hr|Hr]%elem_of_app|(b' & l' & a & Hb & Hl' & Ha & Er)].
      * by left.
      * right. apply list_elem_of_lookup in Hr as [n Hn].
        destruct (Forall2_lookup_r _ _ _ _ _ HF Hn) as (a & Ha & Er).
        exists b, l, a. split; [left|]. split; [done|]. split; [by eapply list_elem_of_lookup_2|done].
      * right. exists b', l', a. split; [by right|done].
    + intros r Hr. apply H3, elem_of_app. by left.
Qed.

Lemma regexp_atom_ret fwd bck a r :
  0 <= fwd -> (forall b, bck = Some b -> 0 <= b) -> regexp_atom fwd bck a = Ret r ->
  r.(rx_atom) = a /\ (exists f, r.(rx_fwd_code) = Some f /\ location f = fwd /\ backwards f = false) /\
  match bck with
  | None => r.(rx_bck_code) = None
  | Some b => exists c, r.(rx_bck_code) = Some c /\ location c = b /\ backwards c = true
  end.
Proof.
  intros Hf Hb. unfold regexp_atom. destruct (fwd_from fwd) as [f| |] eqn:Ef; [|done|done]. cbn.
  apply fwd_from_ret in Ef as [Hl Hd]; [|done]. destruct bck as [b|].
  - destruct (bck_from b) as [c| |] eqn:Ec; [|done|done]. cbn. intros [= <-].
    apply bck_from_ret in Ec; [|by apply Hb]. eauto 10.
  - intros [= <-]. eauto 10.
Qed.

(** The list of atoms, after the flag of the exact ones is adjusted. *)
Lemma finish_atoms_ret pieces fwd bck best out :
  finish_atoms pieces fwd bck best = Ret (inr out) ->
  exists atoms l, best = Some atoms /\ build_atoms fwd bck atoms [] = Ret (inr l) /\
    out = (if 1 <? len pieces then rx_set_exact false <$> l else l) /\ Forall (fun r => 2 <= rx_len r) out.
Proof.
  unfold finish_atoms. destruct best as [atoms|]; [|done]. intros (l & El & E)%and_then_inr.
  set (out' := if 1 <? len pieces then _ else l) in *. 
  destruct (_ <? 2) eqn:Emin; [done|]. injection E as <-. bools. exists atoms, l. split_and!; try done.
  apply Forall_forall. intros r Hr. destruct out' as [|r0 out']; [by apply not_elem_of_nil in Hr|]. cbn in Emin.
  destruct (foldl_min_le (rx_len r0) (rx_len <$> out')) as [H1 H2].
  apply elem_of_cons in Hr as [->|Hr]; [lia|].
  specialize (H2 (rx_len r) (list_elem_of_fmap_2 _ _ _ Hr)). lia.
Qed.
End Build.

(** * The whole compilation *)

Section Compile.
Context {HS : HirSemantics} {IT : Itertools} {IL : ItertoolsLaws} {VI : HirVisit} {VL : HirVisitLaws}.

(** The pieces that are matched backwards and the ones that are matched forward. *)
Definition compiled_pieces (h : Hir) : list PatternPiece * list PatternPiece :=
  match split_pieces h with
  | Ret (inr pieces) =>
      match choose_piece pieces with
      | Ret (best_piece, _, _) => (slice_to pieces best_piece, slice_from pieces best_piece)
      | _ => ([], [])
      end
  | _ => ([], [])
  end.

(** The steps of a compilation that succeeds. *)
Lemma compile_ret h code code' atoms :
  compile h code = Ret (code', inr atoms) ->
  exists pieces bp q best bck,
    split_pieces h.(inner) = Ret (inr pieces) /\ choose_piece pieces = Ret (bp, q, best) /\
    (if 0 <? bp then append_code (reverse (slice_to pieces bp)) code = Ret (inr bck) else bck = code) /\
    append_code (slice_from pieces bp) bck = Ret (inr code') /\
    finish_atoms pieces (len bck) (if 0 <? bp then Some (len code) else None) best = Ret (inr atoms).
Proof.
  unfold compile. intros E. destruct (split_pieces (inner h)) as [[e|pieces]| |] eqn:Es; try done.
  cbn [mbind res_bind] in E. destruct (choose_piece pieces) as [[[bp q] best]| |] eqn:Ec; try done.
  cbn [mbind res_bind] in E. exists pieces, bp, q, best.
  destruct (if 0 <? bp then append_code (reverse (slice_to pieces bp)) code else ok code)
    as [[e|bck]| |] eqn:Eb; try done.
  cbn [mbind res_bind] in E. exists bck. destruct (append_code _ bck) as [[e|fwd]| |] eqn:Ef; try done.
  cbn [mbind res_bind] in E. destruct (finish_atoms _ _ _ _) as [r| |] eqn:Er; try done.
  cbn [mbind res_bind] in E. injection E as <- ->. split_and!; try done.
  destruct (0 <? bp); [done|]. by injection Eb.
Qed.

(** A piece with atoms: its matches are the ones of its patterns. *)
Lemma piece_at_patterns piece data i j :
  piece_patterns piece <> [] ->
  piece_at data piece i j <->
  exists w p, get_range data i j = Some w /\ p ∈ piece_patterns piece /\ pattern_matches p w.
Proof.
  intros Hne. destruct piece as [p|alts|min max nl|n nl]; cbn in *; try done; unfold piece_at; cbn.
  - split; [intros (w & Hw & Hp); exists w, p; by rewrite list_elem_of_singleton|].
    intros (w & p' & Hw & ->%list_elem_of_singleton & Hp). eauto.
  - split; [intros (w & Hw & p & Hp & Hm)|intros (w & p & Hw & Hp & Hm)]; eauto 6.
Qed.

Lemma piece_patterns_fit piece p :
  piece_fits piece = true -> typed_piece piece -> p ∈ piece_patterns piece ->
  pattern_fits p = true /\ typed_pattern p.
Proof.
  intros Hf Ht Hp. destruct piece as [p'|alts|min max nl|n nl]; cbn in *.
  - by apply list_elem_of_singleton in Hp as ->.
  - rewrite forallb_forall in Hf. rewrite Forall_forall in Ht. split; [by apply Hf, list_elem_of_In|by apply Ht].
  - by apply not_elem_of_nil in Hp.
  - by apply not_elem_of_nil in Hp.
Qed.

(** The atoms of the best piece find its matches, and exact ones are matches of
    the piece. *)
Lemma best_piece_atoms piece best fwd bck l :
  piece_atoms piece = Ret best -> i32_MIN < worst_quality best ->
  piece_fits piece = true -> typed_piece piece -> build_atoms fwd bck best [] = Ret (inr l) ->
  0 <= fwd -> (forall b, bck = Some b -> 0 <= b) ->
  (forall data i j, Forall is_u8 data -> piece_at data piece i j ->
     exists r, r ∈ l /\ found_at r.(rx_atom) data i) /\
  (forall r data i, r ∈ l -> r.(rx_atom).(is_exact) = true -> Forall is_u8 data ->
     found_at r.(rx_atom) data i -> piece_at data piece i (i + rx_len r)) /\
  (forall r, r ∈ l -> exists a, regexp_atom fwd bck a = Ret r).
Proof.
  intros Ea Hq Hfit Hty Eb Hfwd Hbck. apply piece_atoms_ret in Ea as HF.
  apply build_atoms_ret in Eb as (H1 & H2 & _). rewrite Forall_forall in H1.
  assert (Hne : piece_patterns piece <> []).
  { intros Hn. rewrite Hn in HF. inversion HF; subst. by vm_compute in Hq. }
  assert (Hfor : forall p b l, p ∈ piece_patterns piece -> b ∈ best -> find_best_atoms p = Ret b ->
    pattern_atoms b = Ret (inr l) -> atoms_for p l).
  { intros p b l0 Hp Hb Ep Epa. destruct (piece_patterns_fit piece p Hfit Hty Hp).
    eapply pattern_atoms_for; try done. pose proof (worst_quality_le _ _ Hb). lia. }
  split; [|split].
  - intros data i j Hu (w & p & Hw & Hp & Hm)%piece_at_patterns; [|done].
    pose proof Hp as [n Hn]%list_elem_of_lookup.
    destruct (Forall2_lookup_l _ _ _ _ _ HF Hn) as (b & Hb & Ep).
    apply list_elem_of_lookup_2 in Hb. destruct (H1 b Hb) as (lp & Elp & Hlp).
    destruct (Hfor p b lp Hp Hb Ep Elp) as [Hfound _].
    destruct (Hfound data i j w Hu Hw Hm) as (a & Ha & Hfa).
    destruct (Hlp a Ha) as (r & Hr & Er). exists r. split; [done|].
    apply regexp_atom_ret in Er as [-> _]; done.
  - intros r data i Hr Hx Hu Hfa. apply piece_at_patterns; [done|].
    apply H2 in Hr as [Hr|(b & lp & a & Hb & Elp & Ha & Er)]; [by apply not_elem_of_nil in Hr|].
    apply regexp_atom_ret in Er as [Era _]; [|done..]. subst a.
    pose proof Hb as [n Hn]%list_elem_of_lookup.
    destruct (Forall2_lookup_r _ _ _ _ _ HF Hn) as (p & Hp & Ep). apply list_elem_of_lookup_2 in Hp.
    destruct (Hfor p b lp Hp Hb Ep Elp) as [_ Hex].
    destruct (Hex _ data i Ha Hx Hu Hfa) as (w & Hw & Hm). by exists w, p.
  - intros r Hr. apply H2 in Hr as [Hr|(b & lp & a & _ & _ & _ & Er)]; [by apply not_elem_of_nil in Hr|]. eauto.
Qed.
End Compile.

(** ** The pieces and the code *)

Section Correct.
Context {HS : HirSemantics} {IT : Itertools} {IL : ItertoolsLaws} {VI : HirVisit} {VL : HirVisitLaws}.
Context {PS : Type} `{PL : PosSetLaws PS}.

(** A machine with [code] loaded, and possibly more code after it. *)
Definition loaded (vm : FastVM PS) (code : list Z) : Prop :=
  idle vm /\ is_u16 vm.(vm_scan_limit) /\ len vm.(vm_code) <= u32_MAX /\ exists more, vm.(vm_code) = code ++ more.

Lemma loaded_ready vm pre pieces code' more start :
  loaded vm code' -> append_code pieces pre = Ret (inr more) -> (exists post, code' = more ++ post) ->
  location start = len pre -> ready vm start pieces.
Proof.
  intros (Hi & Hl & Hs & more' & Hc) (s & Es & ->)%append_code_ret (post & ->) Hloc. split; try done.
  exists s, pre, (post ++ more'). split; [done|]. split; [|done]. by rewrite Hc, <- !app_assoc.
Qed.

(** The code that an atom refers to is the one of the pieces. *)
Definition refers_to (code' : list Z) (before after : list PatternPiece) (r : RegexpAtom) : Prop :=
  (exists f, r.(rx_fwd_code) = Some f /\ backwards f = false /\
     forall vm, loaded vm code' -> ready vm f after) /\
  match r.(rx_bck_code) with
  | None => before = []
  | Some b => backwards b = true /\ forall vm, loaded vm code' -> ready vm b (reverse before)
  end.

Lemma rx_set_exact_refers code' before after r e :
  refers_to code' before after (rx_set_exact e r) <-> refers_to code' before after r.
Proof. done. Qed.

Lemma slices_app {A} (l : list A) n : slice_to l n ++ slice_from l n = l.
Proof. apply take_drop. Qed.

Lemma compiled_spec (h : ReHir) (code code' : list Z) (atoms : list RegexpAtom) :
  hir_wf h.(inner) -> classes_ok h.(inner) -> compile h code = Ret (code', inr atoms) ->
  let '(before, after) := compiled_pieces h.(inner) in
  Forall typed_piece (before ++ after) /\
  (exists new, code' = code ++ new) /\
  (forall data i j, Forall is_u8 data ->
     hmatch h.(inner) data i j <-> exists k, pieces_at data before i k /\ pieces_at data after k j) /\
  (forall data k j, Forall is_u8 data -> pieces_at data after k j ->
     exists r, r ∈ atoms /\ found_at r.(rx_atom) data k) /\
  (forall r, r ∈ atoms -> 2 <= rx_len r /\ refers_to code' before after r /\
     forall data i, r.(rx_atom).(is_exact) = true -> Forall is_u8 data -> found_at r.(rx_atom) data i ->
       hmatch h.(inner) data i (i + rx_len r)).
Proof.
  intros Hw Hok (pieces & bp & q & best & bck & Es & Ec & Eb & Ef & Ea)%compile_ret.
  unfold compiled_pieces. rewrite Es, Ec.
  destruct (split_pieces_spec _ Hw Hok) as [[e Es']|(pieces' & Es' & Hp & Hty)]; rewrite Es in Es'; [done|].
  injection Es' as <-. apply finish_atoms_ret in Ea as (best' & l & -> & Eba & -> & Hlen).
  apply choose_piece_ret in Ec as (piece & Hpiece & Epa & Hq).
  pose proof (append_code_fits _ _ _ Ef) as Hfits.
  apply get_Some in Hpiece as [Hbp Hpiece].
  assert (Hafter : slice_from pieces bp = piece :: drop (S (Z.to_nat bp)) pieces).
  { unfold slice_from. by apply drop_S. }
  rewrite Hafter in Hfits. apply Forall_cons in Hfits as [Hfit _].
  pose proof Hty as Hpty. eapply Forall_lookup_1 in Hpty; [|exact Hpiece].
  assert (Hbc : exists b, bck = code ++ b).
  { destruct (0 <? bp); [|subst; by exists []; rewrite app_nil_r]. apply append_code_ret in Eb as (s & _ & ->). eauto. }
  pose proof (len_nonneg bck) as Hf0. pose proof (len_nonneg code) as Hc0.
  destruct (best_piece_atoms piece best' _ _ l Epa Hq Hfit Hpty Eba) as (Hfound & Hexact & Hrefers).
  { done. }
  { intros b Hb. destruct (0 <? bp); [|done]. by injection Hb as <-. }
  set (out := if 1 <? len pieces then rx_set_exact false <$> l else l).
  assert (Hout : forall r, r ∈ out -> exists r0 e, r0 ∈ l /\ r = rx_set_exact e r0 /\
            (r.(rx_atom).(is_exact) = true -> r = r0 /\ len pieces <= 1)).
  { intros r Hr. subst out. destruct (1 <? len pieces) eqn:E1; bools.
    - apply list_elem_of_fmap in Hr as (r0 & -> & Hr0). exists r0, false. by split_and!.
    - exists r, r.(rx_atom).(is_exact). split_and!; try done. by destruct r as [[]]. }
  split; [by rewrite slices_app|]. split; [|split; [|split]].
  - apply append_code_ret in Ef as (s & _ & ->). destruct Hbc as (b & ->). eexists. by rewrite <- app_assoc.
  - intros data i j Hu. rewrite Hp by done. rewrite <- (slices_app pieces bp) at 1. apply pieces_at_app.
  - intros data k j Hu Hm. rewrite Hafter in Hm. change (piece :: ?x) with ([piece] ++ x) in Hm.
    apply pieces_at_app in Hm as (k1 & Hm%pieces_at_singleton & _).
    destruct (Hfound data k k1 Hu Hm) as (r & Hr & Hfr). subst out. destruct (1 <? len pieces).
    + exists (rx_set_exact false r). split; [by apply list_elem_of_fmap_2|done].
    + by exists r.
  - intros r Hr. split; [rewrite Forall_forall in Hlen; by apply Hlen|].
    destruct (Hout r Hr) as (r0 & e & Hr0 & -> & Hx). split.
    + apply rx_set_exact_refers. destruct (Hrefers r0 Hr0) as (a & Era).
      apply regexp_atom_ret in Era as (_ & (f & Hrf & Hlf & Hdf) & Hrb); [|done|].
      2: { intros b Hb. destruct (0 <? bp); [|done]. by injection Hb as <-. }
      split.
      * exists f. split; [done|]. split; [done|]. intros vm Hvm.
        eapply loaded_ready; [done|exact Ef| |done]. exists []. by rewrite app_nil_r.
      * destruct (0 <? bp) eqn:E0; bools.
        -- destruct Hrb as (c & -> & Hlc & Hdc). split; [done|]. intros vm Hvm.
           eapply loaded_ready; [done|exact Eb| |done].
           apply append_code_ret in Ef as (s & _ & ->). eauto.
        -- rewrite Hrb. assert (bp = 0) as -> by lia. done.
    + intros data i Hex Hu Hfa. destruct (Hx Hex) as [Hr0' Hl1]. rewrite Hr0' in *.
      apply Hp; [done|]. pose proof (Hexact r0 data i Hr0 Hex Hu Hfa) as Hpa.
      assert (pieces = [piece]) as ->; [|by apply pieces_at_singleton].
      destruct pieces as [|p0 [|p1 ps]]; [done| |].
      * assert (bp = 0) as ->; [|by injection Hpiece as ->].
        apply lookup_lt_Some in Hpiece. cbn in Hpiece. lia.
      * rewrite !len_cons in Hl1. pose proof (len_nonneg ps). lia.
Qed.

(** ** Scanning with the code *)

(** Positions of the data after [k] that the code reports. *)
Definition reports_fwd (vm : FastVM PS) (f : CodeLoc) (data : list Z) (k j : Z) : Prop :=
  exists vm' out, try_match vm f (slice_from data k) false collect [] = Ret (vm', out) /\ j - k ∈ out.

(** Positions of the data before [k], that the code reports by their distance. *)
Definition reports_bck (vm : FastVM PS) (b : option CodeLoc) (data : list Z) (i k : Z) : Prop :=
  match b with
  | None => i = k
  | Some b =>
      exists vm' out, try_match vm b (slice_to data k) false collect [] = Ret (vm', out) /\ k - i ∈ out
  end.

Lemma reports_fwd_exact vm f data after k j :
  ready vm f after -> backwards f = false -> forallb counts_fit after = true -> Forall typed_piece after ->
  complete_pieces after = true -> Forall is_u8 data ->
  0 <= k <= j -> j <= len data -> j - k <= vm.(vm_scan_limit) ->
  reports_fwd vm f data k j <-> pieces_at data after k j.
Proof.
  intros Hr Hf Hc Ht Hcomp Hu Hkj Hj Hlim.
  destruct (try_match_collect _ _ _ (slice_from data k) Hr Hc) as (vm' & E & _).
  assert (Hwin : window vm f (slice_from data k) = slice_to (slice_from data k) (Z.min (len data - k) vm.(vm_scan_limit))).
  { unfold window, scan_window. rewrite Hf, len_slice_from by lia. done. }
  assert (Hwl : len (window vm f (slice_from data k)) = Z.min (len data - k) vm.(vm_scan_limit)).
  { rewrite Hwin. apply len_slice_to. rewrite len_slice_from by lia. destruct Hr as [_ [? _] _ _]. lia. }
  assert (Hin : j - k ∈ run (backwards f) vm.(vm_scan_limit) (window vm f (slice_from data k)) after [0] <->
                pieces_match after (slice data k j)).
  { rewrite try_match_exact; rewrite ?Hf, ?Hwl; try done; try lia; cbn [seen toward]; rewrite ?list_fmap_id;
      try done; try by apply Forall_drop.
    rewrite Hwin, slice_to_from by lia. rewrite slice_slice_to by lia. by replace (k + (j - k)) with j by lia. }
  unfold reports_fwd, pieces_at. rewrite E. split.
  - intros (vm1 & out & [= <- <-] & Ho). exists (slice data k j). split; [|by apply Hin].
    apply get_range_Some. split; [lia|]. by split; [lia|].
  - intros (w & (_ & _ & ->)%get_range_Some & Hm). eexists vm', _. split; [done|]. by apply Hin.
Qed.

Lemma reports_bck_exact vm b data before i k :
  ready vm b (reverse before) -> backwards b = true -> forallb counts_fit before = true ->
  Forall typed_piece before -> forallb no_exact_no_newline before = true ->
  complete_pieces (mirror_pieces before) = true -> Forall is_u8 data ->
  0 <= i <= k -> k <= len data -> k - i <= vm.(vm_scan_limit) ->
  reports_bck vm (Some b) data i k <-> pieces_at data before i k.
Proof.
  intros Hr Hb Hc Ht Hn Hcomp Hu Hik Hk Hlim.
  destruct (try_match_collect _ _ _ (slice_to data k) Hr (forallb_reverse _ _ Hc)) as (vm' & E & _).
  set (a := saturating_sub k vm.(vm_scan_limit)).
  assert (Ha : 0 <= a <= i) by (subst a; unfold saturating_sub; lia).
  assert (Hwin : window vm b (slice_to data k) = slice data a k).
  { unfold window, scan_window. rewrite Hb, len_slice_to by lia. apply slice_from_to. lia. }
  assert (Hwl : len (window vm b (slice_to data k)) = k - a) by (rewrite Hwin, len_slice; lia).
  assert (Hin : k - i ∈ run (backwards b) vm.(vm_scan_limit) (window vm b (slice_to data k)) (reverse before) [0] <->
                pieces_match before (slice data i k)).
  { rewrite try_match_exact; rewrite ?Hb, ?Hwl; try done; auto using forallb_reverse; try lia.
    - change (seen true <$> reverse before) with (mirror_pieces before). cbn [toward].
      rewrite mirror_window_match by lia. rewrite Hwl, Hwin.
      rewrite slice_from_slice by lia. by replace (a + (k - a - (k - i))) with i by lia.
    - by apply Forall_reverse.
    - by apply Forall_take.
    - by apply forallb_reverse. }
  unfold reports_bck, pieces_at. rewrite E. split.
  - intros (vm1 & out & [= <- <-] & Ho). exists (slice data i k). split; [|by apply Hin].
    apply get_range_Some. split; [lia|]. by split; [lia|].
  - intros (w & (_ & _ & ->)%get_range_Some & Hm). eexists vm', _. split; [done|]. by apply Hin.
Qed.

(** C13: compiling a pattern for the fast machine is correct. The pattern is the
    concatenation of the pieces before the best one and the rest; wherever the
    rest matches one of the atoms is found at the beginning of the match; the
    atoms have two bytes at least, finding an exact one means that the pattern
    matches there, and each one refers to forward code for the rest and to
    backward code for what comes before, which any machine that has the code
    loaded is ready to run. The code that was there already is kept. *)
Theorem compile_correct (h : ReHir) (code code' : list Z) (atoms : list RegexpAtom) :
  hir_wf h.(inner) -> classes_ok h.(inner) -> compile h code = Ret (code', inr atoms) ->
  let '(before, after) := compiled_pieces h.(inner) in
  (exists new, code' = code ++ new) /\
  (forall data i j, Forall is_u8 data ->
     hmatch h.(inner) data i j <-> exists k, pieces_at data before i k /\ pieces_at data after k j) /\
  (forall data k j, Forall is_u8 data -> pieces_at data after k j ->
     exists r, r ∈ atoms /\ found_at r.(rx_atom) data k) /\
  (forall r, r ∈ atoms -> 2 <= rx_len r /\ refers_to code' before after r /\
     forall data i, r.(rx_atom).(is_exact) = true -> Forall is_u8 data -> found_at r.(rx_atom) data i ->
       hmatch h.(inner) data i (i + rx_len r)).
Proof.
  intros Hw Hok E. pose proof (compiled_spec h code code' atoms Hw Hok E) as Hspec.
  destruct (compiled_pieces (inner h)). by destruct Hspec as [_ Hspec].
Qed.

(** C12: finding the matches of a pattern with its atoms and its code is exact,
    for the patterns whose pieces meet the conditions under which the machine
    decides their language. The matches of the pattern (up to the scan limit) are
    the ranges from [i] to [j] such that an atom is found at some [k] between
    them, the forward code scans the data from [k] on and reports [j], and the
    backward code scans the data before [k] and reports [i]. *)
Theorem atoms_and_code_exact (h : ReHir) (code code' : list Z) (atoms : list RegexpAtom)
    (vm : FastVM PS) (data : list Z) (i j : Z) :
  hir_wf h.(inner) -> classes_ok h.(inner) -> compile h code = Ret (code', inr atoms) -> loaded vm code' ->
  (let '(before, after) := compiled_pieces h.(inner) in
   forallb counts_fit (before ++ after) = true /\ complete_pieces after = true /\
   complete_pieces (mirror_pieces before) = true /\ forallb no_exact_no_newline before = true) ->
  Forall is_u8 data -> j - i <= vm.(vm_scan_limit) ->
  hmatch h.(inner) data i j <->
  span data i j /\ exists k r f, i <= k <= j /\ r ∈ atoms /\ found_at r.(rx_atom) data k /\
    r.(rx_fwd_code) = Some f /\ reports_fwd vm f data k j /\ reports_bck vm r.(rx_bck_code) data i k.
Proof.
  intros Hw Hok E Hvm Hcond Hu Hlim.
  pose proof (compiled_spec h code code' atoms Hw Hok E) as Hspec.
  destruct (compiled_pieces (inner h)) as [before after].
  destruct Hspec as (Hty & _ & Hm & Hfound & Hatoms). destruct Hcond as (Hc & Hcf & Hcb & Hn).
  rewrite forallb_app in Hc. apply andb_prop in Hc as [Hc1 Hc2]. apply Forall_app in Hty as [Ht1 Ht2].
  assert (Hrep : forall r k, r ∈ atoms -> span data i j -> i <= k <= j ->
    exists f, r.(rx_fwd_code) = Some f /\ (reports_fwd vm f data k j <-> pieces_at data after k j) /\
      (reports_bck vm r.(rx_bck_code) data i k <-> pieces_at data before i k)).
  { intros r k Hr (Hs1 & Hs2 & Hs3) Hk. destruct (Hatoms r Hr) as (_ & ((f & Hf & Hfd & Hfr) & Hb) & _).
    exists f. split; [done|]. split; [apply reports_fwd_exact; auto; lia|].
    destruct (rx_bck_code r) as [b|].
    - destruct Hb as [Hbd Hbr]. apply reports_bck_exact; auto; lia.
    - subst before. rewrite pieces_at_nil. cbn. split; [intros ->|by intros [? _]]. split; [done|].
      unfold span. lia. }
  rewrite Hm by done. split.
  - intros (k & Hk1 & Hk2). pose proof (pieces_at_bounded _ _ _ _ Hk1) as S1.
    pose proof (pieces_at_bounded _ _ _ _ Hk2) as S2. unfold span in *. split; [lia|].
    destruct (Hfound data k j Hu Hk2) as (r & Hr & Hfr).
    destruct (Hrep r k Hr) as (f & Hf & Hfwd & Hbck); [lia..|].
    exists k, r, f. split_and!; try done; [lia|lia|by apply Hfwd|by apply Hbck].
  - intros (Hs & k & r & f & Hk & Hr & _ & Hf & H1 & H2).
    destruct (Hrep r k Hr Hs Hk) as (f' & Hf' & Hfwd & Hbck). rewrite Hf in Hf'. injection Hf' as <-.
    exists k. split; [by apply Hbck|by apply Hfwd].
Qed.
End Correct.

(** * Instances *)

(** The pattern [{ 01 02 [0-10] 03 04 05 06 }]. *)
Definition sample_hir : ReHir :=
  hir_from (HConcat [HLiteral [1; 2]; HRepetition 0 (Some 10) false (HClass (ClassBytes [(0, 255)]));
                     HLiteral [3; 4; 5; 6]]).

Lemma sample_hir_wf : hir_wf sample_hir.(inner).
Proof. repeat split; repeat constructor; unfold is_u8; cbn; lia. Qed.

Definition sample_code : list Z :=
  match compile sample_hir [] with Ret (code, _) => code | _ => [] end.
Definition sample_atoms : list RegexpAtom :=
  match compile sample_hir [] with Ret (_, inr atoms) => atoms | _ => [] end.

Lemma sample_compiles : compile sample_hir [] = Ret (sample_code, inr sample_atoms).
Proof. vm_compute. reflexivity. Qed.

Definition sample_vm : FastVM (BitmapSet.BitmapSet (list bool) unit) := fastvm_new sample_code.

Lemma sample_loaded : loaded sample_vm sample_code.
Proof.
  split; [split_and!; try done; apply BitmapSet.new_wf|]. split; [done|]. split; [by vm_compute|].
  exists []. by rewrite app_nil_r.
Qed.

Lemma compile_correct_witness :
  compile sample_hir [] = Ret (sample_code, inr sample_atoms) /\
  exists r, r ∈ sample_atoms /\ found_at r.(rx_atom) [1; 2; 7; 3; 4; 5; 6] 3.
Proof.
  split; [exact sample_compiles|].
  pose proof (compile_correct (PS := BitmapSet.BitmapSet (list bool) unit) sample_hir [] sample_code sample_atoms
    sample_hir_wf eq_refl sample_compiles) as H.
  set (cp := compiled_pieces _) in H. vm_compute in cp. subst cp. cbn beta iota in H.
  destruct H as (_ & _ & H & _). apply (H _ 3 7).
  - repeat constructor; unfold is_u8; lia.
  - exists [3; 4; 5; 6]. split; [reflexivity|]. exists [3; 4; 5; 6], []. split; [reflexivity|]. split; reflexivity.
Defined.

Lemma atoms_and_code_exact_witness :
  let data := [9; 1; 2; 7; 3; 4; 5; 6] in
  compile sample_hir [] = Ret (sample_code, inr sample_atoms) /\
  (hmatch sample_hir.(inner) data 1 8 <->
   span data 1 8 /\ exists k r f, 1 <= k <= 8 /\ r ∈ sample_atoms /\ found_at r.(rx_atom) data k /\
    r.(rx_fwd_code) = Some f /\ reports_fwd sample_vm f data k 8 /\
    reports_bck sample_vm r.(rx_bck_code) data 1 k).
Proof.
  cbn zeta. split; [exact sample_compiles|].
  apply (atoms_and_code_exact sample_hir [] sample_code sample_atoms sample_vm [9; 1; 2; 7; 3; 4; 5; 6] 1 8).
  - exact sample_hir_wf.
  - reflexivity.
  - exact sample_compiles.
  - exact sample_loaded.
  - vm_compute. repeat split.
  - repeat constructor; unfold is_u8; lia.
  - vm_compute. discriminate.
Defined.
