(* ===== verification/Matches.v ===== *)
(** The matches found by a scan, from [lib/src/scanner/matches.rs]: the list of
    the matches of a pattern, sorted by offset, and the matches per pattern with
    their limit and their accounting of memory. *)

From stdpp Require Import fin_maps.
From S2P Require Import Prelude.
#[local] Open Scope Z_scope.

(** * Matches *)

Record Match := {
  base : Z;
  range : Z * Z;
  match_xor_key : option Z;
}.

#[export] Instance Match_eq_dec : EqDecision Match.
Proof. solve_decision. Defined.

Definition match_new (range : Z * Z) : Match := {| base := 0; range := range; match_xor_key := None |}.

(** [sub] and [add] on [usize] panic on overflow. *)
Definition rebase_offset (m : Match) (base' : Z) (offset : Z) : res Z :=
  _ ← assert (m.(base) <=? offset);
  _ ← assert (offset - m.(base) + base' <=? usize_MAX);
  Ret (offset - m.(base) + base').

Definition rebase (m : Match) (base' : Z) : res Match :=
  start ← rebase_offset m base' (fst m.(range));
  end_ ← rebase_offset m base' (snd m.(range));
  Ret {| base := base'; range := (start, end_); match_xor_key := m.(match_xor_key) |}.

Definition with_xor_key (m : Match) (key : Z) : Match :=
  {| base := m.(base); range := m.(range); match_xor_key := Some key |}.

Definition m_start (m : Match) : Z := fst m.(range).
Definition m_end (m : Match) : Z := snd m.(range).
Definition set_end (e : Z) (m : Match) : Match :=
  {| base := m.(base); range := (m_start m, e); match_xor_key := m.(match_xor_key) |}.

(** * The list of the matches of a pattern *)

(** The capacity of a [Vec] that grows is up to the standard library. *)
Class VecGrowth := grow : Z -> Z.
Class VecGrowthLaws `{VecGrowth} := grow_spec : forall n, 0 <= n -> n < grow n.

#[export] Instance double_growth : VecGrowth := fun n => 2 * n + 4.
#[export] Instance double_growth_laws : VecGrowthLaws.
Proof. intros n Hn. unfold grow, double_growth. lia. Qed.

Record MatchList := { matches : list Match; list_capacity : Z }.

(** The index of the first match that does not start before [offset], [inl] if
    it starts there: what [binary_search_by] gives in a sorted list without
    repetitions. *)
Fixpoint search_in (l : list Match) (offset : Z) : nat + nat :=
  match l with
  | [] => inr 0%nat
  | m :: l =>
      if m_start m <? offset then
        match search_in l offset with inl i => inl (S i) | inr i => inr (S i) end
      else if m_start m =? offset then inl 0%nat else inr 0%nat
  end.

Definition search (l : MatchList) (offset : Z) : nat + nat := search_in l.(matches) offset.

Section Lists.
Context {VG : VecGrowth}.

Definition list_with_capacity (capacity : Z) : MatchList := {| matches := []; list_capacity := capacity |}.

Definition list_len (l : MatchList) : Z := len l.(matches).
Definition list_get (l : MatchList) (i : Z) : option Match := get l.(matches) i.
Definition list_clear (l : MatchList) : MatchList := {| matches := []; list_capacity := l.(list_capacity) |}.

(** [Vec::insert] and [Vec::push], which grow the vector when it is full. *)
Definition vec_insert (index : nat) (m : Match) (l : MatchList) : MatchList :=
  {| matches := take index l.(matches) ++ m :: drop index l.(matches);
     list_capacity := if list_len l =? l.(list_capacity) then grow l.(list_capacity) else l.(list_capacity) |}.

Definition vec_push (m : Match) (l : MatchList) : MatchList := vec_insert (length l.(matches)) m l.

Definition update (index : nat) (m : Match) (l : MatchList) : MatchList :=
  {| matches := <[index := m]> l.(matches); list_capacity := l.(list_capacity) |}.

Definition list_add (l : MatchList) (new_match : Match) (replace_if_longer : bool) : MatchList * bool :=
  match last l.(matches) with
  | None => (vec_push new_match l, true)
  | Some last_ =>
      if m_start last_ <? m_start new_match then (vec_push new_match l, true)
      else if m_start new_match =? m_start last_ then
        (if replace_if_longer
         then update (length l.(matches) - 1) (set_end (m_end new_match) last_) l else l, false)
      else
        match search l (m_start new_match) with
        | inl index =>
            if replace_if_longer then
              match l.(matches) !! index with
              | Some existing_match =>
                  (if m_end existing_match <? m_end new_match
                   then update index (set_end (m_end new_match) existing_match) l else l, false)
              | None => (l, false)
              end
            else (l, false)
        | inr index => (vec_insert index new_match l, true)
        end
  end.

(** The loop of [matches_in_range], which stops at the first match that is not
    in the range. *)
Fixpoint count_in_range (start end_ : Z) (l : list Match) : Z :=
  match l with
  | [] => 0
  | m :: l => if (start <=? m_start m) && (m_start m <=? end_) then 1 + count_in_range start end_ l else 0
  end.

Definition matches_in_range (l : MatchList) (lo hi : Z) : Z :=
  if hi <? 0 then 0
  else
    let start := if lo <? 0 then 0 else lo in
    let index := match search l start with inl index => index | inr index => index end in
    count_in_range start hi (drop index l.(matches)).

(** * The matches of all patterns *)

Inductive AddResult : Type :=
  | Inserted (n : Z)
  | Updated
  | MaxMatchesReached.

Record PatternMatches := {
  pattern_lists : gmap Z MatchList;
  max_matches_per_pattern : Z;
  total_capacity : Z;
}.

Definition DEFAULT_MAX_MATCHES_PER_PATTERN : Z := 1000000.

Definition patterns_new : PatternMatches :=
  {| pattern_lists := ∅; max_matches_per_pattern := DEFAULT_MAX_MATCHES_PER_PATTERN; total_capacity := 0 |}.

Definition set_max_matches_per_pattern (n : Z) (p : PatternMatches) : PatternMatches :=
  {| pattern_lists := p.(pattern_lists); max_matches_per_pattern := n; total_capacity := p.(total_capacity) |}.

Definition patterns_get (p : PatternMatches) (id : Z) : option MatchList := p.(pattern_lists) !! id.

Definition patterns_is_empty (p : PatternMatches) : bool := bool_decide (p.(pattern_lists) = ∅).

Definition patterns_clear (p : PatternMatches) : PatternMatches :=
  if 10000 <? p.(total_capacity) then
    {| pattern_lists := ∅; max_matches_per_pattern := p.(max_matches_per_pattern); total_capacity := 0 |}
  else
    {| pattern_lists := list_clear <$> p.(pattern_lists);
       max_matches_per_pattern := p.(max_matches_per_pattern); total_capacity := p.(total_capacity) |}.

(** [self.capacity -= ...] panics when it would be negative. *)
Definition patterns_add (p : PatternMatches) (id : Z) (m : Match) (replace_if_longer : bool)
  : res (PatternMatches * AddResult) :=
  match p.(pattern_lists) !! id with
  | Some l =>
      if list_len l <? p.(max_matches_per_pattern) then
        _ ← assert (l.(list_capacity) <=? p.(total_capacity));
        let '(l', inserted) := list_add l m replace_if_longer in
        Ret ({| pattern_lists := <[id := l']> p.(pattern_lists);
                max_matches_per_pattern := p.(max_matches_per_pattern);
                total_capacity := p.(total_capacity) - l.(list_capacity) + l'.(list_capacity) |},
             if inserted : bool then Inserted (list_len l') else Updated)
      else Ret (p, MaxMatchesReached)
  | None =>
      let matches := list_with_capacity 8 in
      let '(l', _) := list_add matches m replace_if_longer in
      Ret ({| pattern_lists := <[id := l']> p.(pattern_lists);
              max_matches_per_pattern := p.(max_matches_per_pattern);
              total_capacity := p.(total_capacity) + matches.(list_capacity) |},
           Inserted (list_len l'))
  end.
End Lists.

(** * Sorted lists *)

Definition sorted (l : list Match) : Prop := StronglySorted (fun a b => m_start a < m_start b) l.

(** The end of the match that starts at an offset. *)
Fixpoint match_at (l : list Match) (k : Z) : option Match :=
  match l with
  | [] => None
  | m :: l => if m_start m =? k then Some m else match_at l k
  end.

Lemma match_at_elem l k m : match_at l k = Some m -> m ∈ l /\ m_start m = k.
Proof.
  induction l as [|x l IH]; cbn; [done|]. destruct (m_start x =? k) eqn:E; bools.
  - intros [= <-]. split; [left|done].
  - intros [? ?]%IH. split; [by right|done].
Qed.

Lemma match_at_spec l k m : sorted l -> match_at l k = Some m <-> m ∈ l /\ m_start m = k.
Proof.
  intros Hs. split; [apply match_at_elem|]. intros [Hin Hk].
  induction Hs as [|x l Hs IH Hx]; [by apply not_elem_of_nil in Hin|]. cbn.
  apply elem_of_cons in Hin as [->|Hin].
  - by assert (m_start x =? k = true) as -> by lia.
  - rewrite Forall_forall in Hx. specialize (Hx m Hin).
    assert (m_start x =? k = false) as -> by lia. auto.
Qed.

Lemma match_at_none l k : match_at l k = None <-> forall m, m ∈ l -> m_start m <> k.
Proof.
  induction l as [|x l IH]; cbn; [split; [intros _ m ?%not_elem_of_nil|]; done|].
  destruct (m_start x =? k) eqn:E; bools.
  - split; [done|]. intros H. exfalso. apply (H x); [left|done].
  - rewrite IH. split.
    + intros H m [->|Hm]%elem_of_cons; auto.
    + intros H m Hm. apply H. by right.
Qed.

(** Where the search ends: the matches before start earlier, the ones from there
    on do not. *)
Lemma search_in_spec l k :
  sorted l ->
  match search_in l k with
  | inl i => exists l1 m l2, l = l1 ++ m :: l2 /\ i = length l1 /\ m_start m = k /\
               Forall (fun x => m_start x < k) l1 /\ Forall (fun x => k < m_start x) l2
  | inr i => exists l1 l2, l = l1 ++ l2 /\ i = length l1 /\
               Forall (fun x => m_start x < k) l1 /\ Forall (fun x => k < m_start x) l2
  end.
Proof.
  induction 1 as [|x l Hs IH Hx]; cbn; [by exists [], []|].
  destruct (m_start x <? k) eqn:E; bools.
  - destruct (search_in l k) as [i|i].
    + destruct IH as (l1 & m & l2 & -> & -> & Hm & H1 & H2). exists (x :: l1), m, l2. by repeat constructor.
    + destruct IH as (l1 & l2 & -> & -> & H1 & H2). exists (x :: l1), l2. by repeat constructor.
  - destruct (m_start x =? k) eqn:E2; bools.
    + exists [], x, l. split_and!; try done. eapply Forall_impl; [exact Hx|]. cbn. lia.
    + exists [], (x :: l). split_and!; try done. constructor; [lia|].
      eapply Forall_impl; [exact Hx|]. cbn. lia.
Qed.

Lemma match_at_app l1 l2 k :
  match_at (l1 ++ l2) k = match match_at l1 k with Some m => Some m | None => match_at l2 k end.
Proof. induction l1 as [|x l1 IH]; cbn; [done|]. by destruct (m_start x =? k). Qed.

Lemma match_at_lt l k : Forall (fun x => m_start x < k) l -> match_at l k = None.
Proof. intros H. apply match_at_none. rewrite Forall_forall in H. intros m Hm. specialize (H m Hm). lia. Qed.

Lemma match_at_gt l k : Forall (fun x => k < m_start x) l -> match_at l k = None.
Proof. intros H. apply match_at_none. rewrite Forall_forall in H. intros m Hm. specialize (H m Hm). lia. Qed.

Lemma sorted_app l1 l2 :
  sorted (l1 ++ l2) <-> sorted l1 /\ sorted l2 /\ forall x y, x ∈ l1 -> y ∈ l2 -> m_start x < m_start y.
Proof.
  unfold sorted. induction l1 as [|x l1 IH]; cbn.
  - split; [|by intros (_ & ? & _)]. intros H. split; [constructor|]. split; [done|]. by intros ? ? ?%not_elem_of_nil.
  - split.
    + intros [Hs Hx]%StronglySorted_inv. apply IH in Hs as (H1 & H2 & H3).
      apply Forall_app in Hx as [Hx1 Hx2]. split; [by constructor|]. split; [done|].
      intros a b [->|Ha]%elem_of_cons Hb; [rewrite Forall_forall in Hx2; auto|auto].
    + intros ([H1 Hx]%StronglySorted_inv & H2 & H3). constructor.
      * apply IH. split; [done|]. split; [done|]. intros a b Ha Hb. apply H3; [by right|done].
      * apply Forall_app. split; [done|]. rewrite Forall_forall. intros b Hb. apply H3; [left|done].
Qed.

(** ** Insertion and update *)

Lemma insert_between l1 l2 m :
  sorted (l1 ++ l2) -> Forall (fun x => m_start x < m_start m) l1 -> Forall (fun x => m_start m < m_start x) l2 ->
  sorted (l1 ++ m :: l2) /\ match_at (l1 ++ l2) (m_start m) = None /\
  forall k, match_at (l1 ++ m :: l2) k = if k =? m_start m then Some m else match_at (l1 ++ l2) k.
Proof.
  intros (H1 & H2 & H12)%sorted_app Hl1 Hl2. split; [|split].
  - apply sorted_app. split; [done|]. split; [by constructor|].
    intros x y Hx [->|Hy]%elem_of_cons; [rewrite Forall_forall in Hl1; auto|auto].
  - by rewrite match_at_app, match_at_lt, match_at_gt.
  - intros k. rewrite !match_at_app. cbn. rewrite (Z.eqb_sym (m_start m)).
    destruct (k =? m_start m) eqn:E; bools; [subst; by rewrite match_at_lt|done].
Qed.

Lemma update_at l1 l2 e e' :
  sorted (l1 ++ e :: l2) -> m_start e' = m_start e ->
  sorted (l1 ++ e' :: l2) /\ match_at (l1 ++ e :: l2) (m_start e) = Some e /\
  forall k, match_at (l1 ++ e' :: l2) k = if k =? m_start e then Some e' else match_at (l1 ++ e :: l2) k.
Proof.
  intros Hs He. pose proof Hs as (H1 & H2 & H12)%sorted_app.
  apply StronglySorted_inv in H2 as [H2 Hlt].
  assert (Hl1 : Forall (fun x => m_start x < m_start e) l1).
  { apply Forall_forall. intros x Hx. apply H12; [done|left]. }
  split; [|split].
  - apply sorted_app. split; [done|]. split; [constructor; [done|by rewrite He]|].
    intros x y Hx [->|Hy]%elem_of_cons; [rewrite He; apply H12; [done|left]|apply H12; [done|by right]].
  - rewrite match_at_app, match_at_lt by done. cbn. by rewrite Z.eqb_refl.
  - intros k. rewrite !match_at_app. cbn. rewrite He, (Z.eqb_sym (m_start e)).
    destruct (k =? m_start e) eqn:E; bools; [subst; by rewrite match_at_lt|done].
Qed.

Lemma set_end_start e m : m_start (set_end e m) = m_start m.
Proof. done. Qed.

Lemma set_end_same m : set_end (m_end m) m = m.
Proof. by destruct m as [b [s e] x]. Qed.

(** The end of a match that is found again: the last one takes the new end, the
    others the largest one. *)
Definition updated (l : list Match) (m e : Match) : Match :=
  if bool_decide (last l = Some e) then set_end (m_end m) e
  else if m_end e <? m_end m then set_end (m_end m) e else e.

Definition added (l : list Match) (m : Match) (replace_if_longer : bool) (k : Z) : option Match :=
  if k =? m_start m then
    match match_at l k with
    | None => Some m
    | Some e => Some (if replace_if_longer then updated l m e else e)
    end
  else match_at l k.

Section ListProofs.
Context {VG : VecGrowth}.

Lemma added_insert l l1 l2 m r l' :
  sorted l.(matches) -> l.(matches) = l1 ++ l2 ->
  Forall (fun x => m_start x < m_start m) l1 -> Forall (fun x => m_start m < m_start x) l2 ->
  l'.(matches) = l1 ++ m :: l2 ->
  sorted l'.(matches) /\ match_at l.(matches) (m_start m) = None /\ list_len l' = list_len l + 1 /\
  forall k, match_at l'.(matches) k = added l.(matches) m r k.
Proof.
  intros Hs Hl H1 H2 Hl'. rewrite Hl in Hs.
  destruct (insert_between l1 l2 m Hs H1 H2) as (Hs' & Hn & Hk). unfold list_len, added. rewrite Hl', Hl.
  split; [done|]. split; [done|]. split; [rewrite !len_app, len_cons; lia|].
  intros k. rewrite Hk. destruct (k =? m_start m) eqn:E; bools; [subst; by rewrite Hn|done].
Qed.

Lemma added_update l l1 e l2 m (r : bool) l' :
  sorted l.(matches) -> l.(matches) = l1 ++ e :: l2 -> m_start e = m_start m ->
  l'.(matches) = l1 ++ (if r then updated l.(matches) m e else e) :: l2 ->
  sorted l'.(matches) /\ match_at l.(matches) (m_start m) <> None /\ list_len l' = list_len l /\
  forall k, match_at l'.(matches) k = added l.(matches) m r k.
Proof.
  intros Hs Hl He Hl'. pose proof Hs as Hs0. rewrite Hl in Hs0.
  destruct (update_at l1 l2 e (if r then updated l.(matches) m e else e) Hs0) as (Hs' & Hf & Hk).
  { unfold updated. by repeat case_match. }
  unfold list_len, added. rewrite Hl'. rewrite He in Hf, Hk. 
  split; [done|]. split; [rewrite Hl; congruence|]. split; [rewrite Hl, !len_app, !len_cons; lia|].
  intros k. rewrite Hk. destruct (k =? m_start m) eqn:E; bools; [subst|by rewrite Hl].
  rewrite <- Hl in Hf. by rewrite Hf.
Qed.

Lemma list_add_spec l m (r : bool) :
  sorted l.(matches) ->
  let '(l', inserted) := list_add l m r in
  sorted l'.(matches) /\
  (inserted = true <-> match_at l.(matches) (m_start m) = None) /\
  list_len l' = list_len l + (if inserted : bool then 1 else 0) /\
  forall k, match_at l'.(matches) k = added l.(matches) m r k.
Proof.
  intros Hs. unfold list_add.
  assert (Hins : forall l1 l2 l', l.(matches) = l1 ++ l2 -> Forall (fun x => m_start x < m_start m) l1 ->
    Forall (fun x => m_start m < m_start x) l2 -> l'.(matches) = l1 ++ m :: l2 ->
    sorted l'.(matches) /\ (true = true <-> match_at l.(matches) (m_start m) = None) /\
    list_len l' = list_len l + 1 /\ forall k, match_at l'.(matches) k = added l.(matches) m r k).
  { intros l1 l2 l' Hl H1 H2 Hl'. by destruct (added_insert l l1 l2 m r l') as (? & ? & ? & ?). }
  assert (Hupd : forall l1 e l2 l', l.(matches) = l1 ++ e :: l2 -> m_start e = m_start m ->
    l'.(matches) = l1 ++ (if r then updated l.(matches) m e else e) :: l2 ->
    sorted l'.(matches) /\ (false = true <-> match_at l.(matches) (m_start m) = None) /\
    list_len l' = list_len l + 0 /\ forall k, match_at l'.(matches) k = added l.(matches) m r k).
  { intros l1 e l2 l' Hl He Hl'. destruct (added_update l l1 e l2 m r l') as (? & ? & ? & ?); try done.
    split_and!; try done. lia. }
  destruct (last l.(matches)) as [last_|] eqn:El.
  2: { apply last_None in El. apply (Hins [] []); [done|constructor|constructor|]. cbn. by rewrite El. }
  pose proof El as (l1 & Hl)%last_Some.
  assert (Hlast : Forall (fun x => m_start x < m_start last_) l1).
  { rewrite Hl in Hs. apply sorted_app in Hs as (_ & _ & Hs). apply Forall_forall. intros x Hx.
    apply Hs; [done|left]. }
  destruct (m_start last_ <? m_start m) eqn:E1; [|destruct (m_start m =? m_start last_) eqn:E2]; bools.
  - apply (Hins l.(matches) []); [by rewrite app_nil_r| |constructor|].
    + rewrite Hl. apply Forall_app. split; [eapply Forall_impl; [exact Hlast|cbn; lia]|by constructor].
    + cbn. by rewrite take_ge, drop_ge by lia.
  - apply (Hupd l1 last_ []); [done|done|]. unfold updated. rewrite El, bool_decide_eq_true_2 by done.
    destruct r; [|done]. cbn. rewrite Hl, length_app. cbn. rewrite Nat.add_sub.
    by rewrite insert_app_r_alt, Nat.sub_diag by lia.
  - pose proof (search_in_spec l.(matches) (m_start m) Hs) as Hsearch. fold (search l (m_start m)) in Hsearch.
    destruct (search l (m_start m)) as [i|i].
    + destruct Hsearch as (l2 & e & l3 & Hl2 & -> & He & H2 & H3).
      assert (Hnl : last l.(matches) <> Some e) by (rewrite El; intros [= ->]; lia).
      assert (Hup : l.(matches) = l2 ++ (if r then updated l.(matches) m e else e) :: l3 ->
        sorted l.(matches) /\ (false = true <-> match_at l.(matches) (m_start m) = None) /\
        list_len l = list_len l + 0 /\ forall k, match_at l.(matches) k = added l.(matches) m r k)
        by (intros; by apply (Hupd l2 e l3)).
      assert (Hlook : l.(matches) !! length l2 = Some e) by (rewrite Hl2; by apply list_lookup_middle).
      assert (Hu : updated l.(matches) m e = if m_end e <? m_end m then set_end (m_end m) e else e)
        by (unfold updated; by rewrite bool_decide_eq_false_2).
      rewrite Hlook. rewrite Hu in Hup.
      destruct r; [|by apply Hup]. destruct (m_end e <? m_end m) eqn:E3; [|by apply Hup].
      apply (Hupd l2 e l3); [done|done|]. rewrite Hu. cbn.
      rewrite Hl2. by rewrite insert_app_r_alt, Nat.sub_diag by lia.
    + destruct Hsearch as (l2 & l3 & Hl2 & -> & H2 & H3). apply (Hins l2 l3); [done..|]. cbn.
      by rewrite Hl2, take_app_length, drop_app_length.
Qed.
End ListProofs.

(** ** Counting *)

Lemma count_in_range_filter lo hi l :
  sorted l -> Forall (fun m => lo <= m_start m) l ->
  count_in_range lo hi l = len (filter (fun m => lo <= m_start m <= hi) l).
Proof.
  intros Hs Hlo. induction Hs as [|x l Hs IH Hx]; [done|]. apply Forall_cons in Hlo as [H1 Hlo]. cbn [count_in_range].
  destruct (m_start x <=? hi) eqn:E; bools.
  - assert (lo <=? m_start x = true) as -> by lia. cbn [andb]. rewrite filter_cons_True by lia.
    rewrite len_cons, IH; [lia|done].
  - rewrite andb_false_r, filter_cons_False by lia. rewrite filter_none; [done|].
    eapply Forall_impl; [exact Hx|]. cbn. lia.
Qed.

Lemma matches_in_range_spec l lo hi :
  sorted l.(matches) -> Forall (fun m => 0 <= m_start m) l.(matches) ->
  matches_in_range l lo hi = len (filter (fun m => lo <= m_start m <= hi) l.(matches)).
Proof.
  intros Hs H0. unfold matches_in_range. destruct (hi <? 0) eqn:Eh; bools.
  - rewrite filter_none; [done|]. eapply Forall_impl; [exact H0|]. cbn. lia.
  - set (start := if lo <? 0 then 0 else lo).
    assert (Hst : filter (fun m => lo <= m_start m <= hi) l.(matches) =
                  filter (fun m => start <= m_start m <= hi) l.(matches)).
    { clear Hs. induction H0 as [|m l' Hm _ IH]; [done|]. rewrite !filter_cons, IH. subst start.
      destruct (lo <? 0) eqn:E; bools; repeat case_decide; lia || done. }
    rewrite Hst. pose proof (search_in_spec l.(matches) start Hs) as Hsearch.
    fold (search l start) in Hsearch. destruct (search l start) as [i|i].
    + destruct Hsearch as (l1 & m & l2 & Hl & -> & Hm & H1 & H2). rewrite Hl in Hs |- *.
      rewrite drop_app_length, filter_app, filter_none, app_nil_l by (eapply Forall_impl; [exact H1|]; cbn; lia).
      apply sorted_app in Hs as (_ & Hs & _). apply count_in_range_filter; [done|].
      constructor; [lia|]. eapply Forall_impl; [exact H2|]. cbn. lia.
    + destruct Hsearch as (l1 & l2 & Hl & -> & H1 & H2). rewrite Hl in Hs |- *.
      rewrite drop_app_length, filter_app, filter_none, app_nil_l by (eapply Forall_impl; [exact H1|]; cbn; lia).
      apply sorted_app in Hs as (_ & Hs & _). apply count_in_range_filter; [done|].
      eapply Forall_impl; [exact H2|]. cbn. lia.
Qed.

(** * The matches of all patterns *)

Section PatternProofs.
Context {VG : VecGrowth} {VL : VecGrowthLaws}.

(** A list is sorted and fits in its capacity. *)
Definition list_ok (l : MatchList) : Prop := sorted l.(matches) /\ list_len l <= l.(list_capacity).

Definition sum_capacity (lists : gmap Z MatchList) : Z :=
  map_fold (fun (_ : Z) l acc => l.(list_capacity) + acc) 0 lists.

(** The total capacity is the sum of the ones of the lists. *)
Definition patterns_ok (p : PatternMatches) : Prop :=
  map_Forall (fun _ l => list_ok l) p.(pattern_lists) /\ p.(total_capacity) = sum_capacity p.(pattern_lists).

(** The matches of a pattern. *)
Definition matches_of (p : PatternMatches) (id : Z) : list Match :=
  match patterns_get p id with Some l => l.(matches) | None => [] end.

Lemma sum_capacity_insert_new lists id l :
  lists !! id = None -> sum_capacity (<[id := l]> lists) = l.(list_capacity) + sum_capacity lists.
Proof.
  intros Hn. apply (map_fold_insert_L (fun (_ : Z) l acc => l.(list_capacity) + acc)); [|done]. intros. lia.
Qed.

Lemma sum_capacity_delete lists id l :
  lists !! id = Some l -> sum_capacity lists = l.(list_capacity) + sum_capacity (delete id lists).
Proof.
  intros Hs. apply (map_fold_delete_L (fun (_ : Z) l acc => l.(list_capacity) + acc) _ id); [|done]. intros. lia.
Qed.

Lemma sum_capacity_insert lists id l l' :
  lists !! id = Some l ->
  sum_capacity (<[id := l']> lists) = sum_capacity lists - l.(list_capacity) + l'.(list_capacity).
Proof.
  intros Hs. rewrite <- insert_delete_eq, sum_capacity_insert_new by apply lookup_delete_eq.
  rewrite (sum_capacity_delete lists id l) by done. lia.
Qed.

Lemma sum_capacity_nonneg lists : map_Forall (fun _ l => list_ok l) lists -> 0 <= sum_capacity lists.
Proof.
  induction lists as [|id l lists Hn IH] using map_ind; [done|].
  intros [Hl Hls]%map_Forall_insert; [|done]. rewrite sum_capacity_insert_new by done. specialize (IH Hls).
  destruct Hl as [_ Hl]. unfold list_len in Hl. pose proof (len_nonneg (matches l)). lia.
Qed.

(** The vector grows when it is full, and only then. *)
Lemma vec_insert_capacity i m l :
  list_len l <= l.(list_capacity) ->
  list_len (vec_insert i m l) = list_len l + 1 /\ list_len l + 1 <= (vec_insert i m l).(list_capacity).
Proof.
  intros Hl. split.
  - unfold list_len, vec_insert. cbn. rewrite len_app, len_cons. rewrite <- (take_drop i l.(matches)) at 3.
    rewrite len_app. lia.
  - cbn. destruct (list_len l =? list_capacity l) eqn:E; bools; [|lia].
    assert (0 <= list_capacity l) as Hc by (rewrite <- E; apply len_nonneg). pose proof (grow_spec _ Hc). lia.
Qed.

Lemma list_add_shape l m r :
  (exists i, list_add l m r = (vec_insert i m l, true)) \/
  exists l', list_add l m r = (l', false) /\ l'.(list_capacity) = l.(list_capacity).
Proof.
  unfold list_add, vec_push. repeat case_match; eauto.
Qed.

Lemma list_add_ok l m r : list_ok l -> list_ok (fst (list_add l m r)).
Proof.
  intros [Hs Hc]. pose proof (list_add_spec l m r Hs) as Hspec.
  destruct (list_add_shape l m r) as [(i & E)|(l' & E & Hcap)]; rewrite E in Hspec |- *;
    destruct Hspec as (Hs' & _ & Hl & _); (split; [exact Hs'|]).
  - destruct (vec_insert_capacity i m l Hc) as [H1 H2]. cbn [fst]. lia.
  - cbn [fst]. lia.
Qed.

Lemma patterns_add_spec p id m r :
  patterns_ok p ->
  exists p' result, patterns_add p id m r = Ret (p', result) /\ patterns_ok p' /\
    p'.(max_matches_per_pattern) = p.(max_matches_per_pattern) /\
    (forall id', id' <> id -> patterns_get p' id' = patterns_get p id') /\
    match result with
    | MaxMatchesReached => p' = p /\ p.(max_matches_per_pattern) <= len (matches_of p id)
    | Updated =>
        match_at (matches_of p id) (m_start m) <> None /\ len (matches_of p' id) = len (matches_of p id) /\
        forall k, match_at (matches_of p' id) k = added (matches_of p id) m r k
    | Inserted n =>
        match_at (matches_of p id) (m_start m) = None /\
        n = len (matches_of p' id) /\ n = len (matches_of p id) + 1 /\ n <= Z.max 1 p.(max_matches_per_pattern) /\
        forall k, match_at (matches_of p' id) k = added (matches_of p id) m r k
    end.
Proof.
  intros [Hok Hcap]. unfold patterns_add, matches_of, patterns_get.
  destruct (pattern_lists p !! id) as [l|] eqn:El.
  - pose proof (Hok _ _ El) as Hl. cbn beta in Hl. pose proof (list_add_ok l m r Hl) as Hl'.
    destruct Hl as [Hs Hlen]. pose proof (list_add_spec l m r Hs) as Hspec.
    destruct (list_len l <? max_matches_per_pattern p) eqn:Emax; bools.
    2: { eexists p, _. split; [done|]. rewrite El. by split_and!. }
    pose proof (sum_capacity_delete _ _ _ El) as Hd.
    pose proof (sum_capacity_nonneg (delete id p.(pattern_lists)) (map_Forall_delete _ _ id Hok)) as Hnn.
    assert (list_capacity l <=? total_capacity p = true) as -> by lia. cbn [assert mbind res_bind].
    destruct (list_add l m r) as [l' ins]. destruct Hspec as (Hs' & Hins & Hlen' & Hk). cbn [fst] in Hl'.
    eexists _, _. split; [done|]. cbn [pattern_lists max_matches_per_pattern total_capacity].
    split; [|split; [done|split; [intros; by apply lookup_insert_ne|]]].
    + split; cbn [pattern_lists total_capacity].
      * by apply map_Forall_insert_2.
      * rewrite (sum_capacity_insert _ _ _ _ El). lia.
    + rewrite lookup_insert_eq. destruct ins; unfold list_len in *; cbn in Hlen'.
      * split_and!; try done; try lia. by apply Hins.
      * split_and!; try done; [|lia]. intros Hn. by apply Hins in Hn.
  - assert (Hl0 : list_ok (list_with_capacity 8)) by (split; [by constructor|by vm_compute]).
    pose proof (list_add_ok _ m r Hl0) as Hl'. destruct Hl0 as [Hs _]. pose proof (list_add_spec _ m r Hs) as Hspec.
    assert (Hcap8 : list_capacity (fst (list_add (list_with_capacity 8) m r)) = 8) by done.
    destruct (list_add _ m r) as [l' ins]. destruct Hspec as (Hs' & Hins & Hlen' & Hk). cbn [fst] in Hl', Hcap8.
    eexists _, _. split; [done|]. cbn [pattern_lists max_matches_per_pattern total_capacity].
    split; [|split; [done|split; [intros; by apply lookup_insert_ne|]]].
    + split; cbn [pattern_lists total_capacity].
      * by apply map_Forall_insert_2.
      * rewrite sum_capacity_insert_new by done. cbn. lia.
    + rewrite lookup_insert_eq. assert (ins = true) as -> by by apply Hins.
      change (list_len (list_with_capacity 8)) with 0 in Hlen'. unfold list_len in *. rewrite len_nil. split_and!; try done; lia.
Qed.

Lemma patterns_new_ok : patterns_ok patterns_new.
Proof. split; [apply map_Forall_empty|done]. Qed.

Lemma patterns_clear_ok p :
  patterns_ok p -> patterns_ok (patterns_clear p) /\ forall id, matches_of (patterns_clear p) id = [].
Proof.
  intros [Hok Hcap]. unfold patterns_clear, matches_of, patterns_get.
  destruct (10000 <? total_capacity p); cbn [pattern_lists].
  - split; [split; [apply map_Forall_empty|done]|]. intros id. by rewrite lookup_empty.
  - split; [split; cbn [pattern_lists total_capacity]|].
    + intros id l. rewrite lookup_fmap. destruct (pattern_lists p !! id) as [l0|] eqn:E; [|done].
      intros [= <-]. destruct (Hok _ _ E) as [_ Hl]. split; [constructor|]. unfold list_len in *. cbn.
      pose proof (len_nonneg (matches l0)). rewrite len_nil. lia.
    + rewrite Hcap. unfold sum_capacity. by rewrite map_fold_fmap.
    + intros id. rewrite lookup_fmap. by destruct (pattern_lists p !! id).
Qed.
End PatternProofs.

(** * Properties *)

(** C20: adding a match keeps the list sorted by offset, with one match per
    offset at most. The match is added when there is none at its offset;
    otherwise the list keeps its length, and the match that is there stays as it
    was or, if the flag says so, takes the new end when it is larger (whatever it
    is, if the match is the last one). Every other match stays as it was. *)
Theorem list_add_correct `{VecGrowth} (l : MatchList) (m : Match) (replace_if_longer : bool) :
  sorted l.(matches) ->
  let '(l', inserted) := list_add l m replace_if_longer in
  sorted l'.(matches) /\
  (inserted = true <-> match_at l.(matches) (m_start m) = None) /\
  list_len l' = list_len l + (if inserted : bool then 1 else 0) /\
  forall k, match_at l'.(matches) k =
    if k =? m_start m then
      match match_at l.(matches) k with
      | None => Some m
      | Some e => Some (if replace_if_longer then updated l.(matches) m e else e)
      end
    else match_at l.(matches) k.
Proof. apply list_add_spec. Qed.

Definition sample_list : MatchList :=
  {| matches := [match_new (1, 10); match_new (3, 7); match_new (5, 9)]; list_capacity := 8 |}.

Lemma sample_list_sorted : sorted sample_list.(matches).
Proof. repeat constructor. Qed.

Lemma list_add_correct_witness :
  sorted sample_list.(matches) /\
  match_at (fst (list_add sample_list (match_new (3, 20)) true)).(matches) 3 = Some (match_new (3, 20)).
Proof.
  split; [exact sample_list_sorted|].
  pose proof (list_add_correct sample_list (match_new (3, 20)) true sample_list_sorted) as H.
  destruct (list_add sample_list _ true) as [l' ins]. destruct H as (_ & _ & _ & H). cbn [fst].
  rewrite H. reflexivity.
Defined.

(** The number of matches in a range is the number of matches of the list
    that start in it, also when the bounds are negative or in the wrong order. *)
Theorem matches_in_range_exact (l : MatchList) (lo hi : Z) :
  sorted l.(matches) -> Forall (fun m => 0 <= m_start m) l.(matches) ->
  matches_in_range l lo hi = len (filter (fun m => lo <= m_start m <= hi) l.(matches)).
Proof. apply matches_in_range_spec. Qed.

Lemma matches_in_range_exact_witness : matches_in_range sample_list 2 5 = 2.
Proof.
  rewrite (matches_in_range_exact sample_list 2 5); [reflexivity|exact sample_list_sorted|].
  repeat constructor; cbn; lia.
Defined.

(** Adding a match to a pattern never panics: the total capacity is always
    the sum of the capacities of the lists, which are sorted and fit in them, and
    this is kept. The result says what happened: a new match, a match at the
    offset of another one, or nothing because the pattern has its maximum number
    of matches already. The other patterns do not change. *)
Theorem patterns_add_correct `{VecGrowthLaws} (p : PatternMatches) (id : Z) (m : Match) (replace_if_longer : bool) :
  patterns_ok p ->
  exists p' result, patterns_add p id m replace_if_longer = Ret (p', result) /\ patterns_ok p' /\
    p'.(max_matches_per_pattern) = p.(max_matches_per_pattern) /\
    (forall id', id' <> id -> patterns_get p' id' = patterns_get p id') /\
    match result with
    | MaxMatchesReached => p' = p /\ p.(max_matches_per_pattern) <= len (matches_of p id)
    | Updated =>
        match_at (matches_of p id) (m_start m) <> None /\ len (matches_of p' id) = len (matches_of p id) /\
        forall k, match_at (matches_of p' id) k = added (matches_of p id) m replace_if_longer k
    | Inserted n =>
        match_at (matches_of p id) (m_start m) = None /\
        n = len (matches_of p' id) /\ n = len (matches_of p id) + 1 /\ n <= Z.max 1 p.(max_matches_per_pattern) /\
        forall k, match_at (matches_of p' id) k = added (matches_of p id) m replace_if_longer k
    end.
Proof. apply patterns_add_spec. Qed.

Lemma patterns_add_correct_witness :
  patterns_ok patterns_new /\
  exists p', patterns_add patterns_new 3 (match_new (1, 2)) false = Ret (p', Inserted 1) /\ patterns_ok p'.
Proof.
  split; [exact patterns_new_ok|].
  destruct (patterns_add_correct patterns_new 3 (match_new (1, 2)) false patterns_new_ok) as (p' & r & E & Hok & _).
  exists p'. split; [|exact Hok]. vm_compute in E. injection E as <- _. vm_compute. reflexivity.
Defined.

(** A match with the offset of the last one replaces its end even when it is
    shorter, and the limit of matches does not apply to the first one. *)
Theorem last_match_shortened `{VecGrowth} :
  let l := {| matches := [match_new (1, 15)]; list_capacity := 8 |} in
  matches (fst (list_add l (match_new (1, 10)) true)) = [match_new (1, 10)] /\
  exists p', patterns_add (set_max_matches_per_pattern 0 patterns_new) 0 (match_new (1, 2)) false =
    Ret (p', Inserted 1).
Proof. cbn zeta. split; [done|]. by eexists. Qed.
