(* ===== verification/StringPool.v ===== *)
(** The pool of literals, [BStringPool] of [lib/src/string_pool.rs]: every byte
    string gets an identifier that gives the string back. *)

From S2P Require Import Prelude.

(** * Symbol tables

    [SymbolTable] comes from the [intaglio] crate: a table of strings whose
    symbols are handed out in order; [st_intern] fails when the symbols are
    exhausted. *)
Class SymbolTable (T : Type) := {
  st_new : T;
  st_strings : T -> list (list Z);
  st_check_interned : T -> list Z -> option Z;
  st_intern : T -> list Z -> option (T * Z);
  st_get : T -> Z -> option (list Z);
}.

Class SymbolTableLaws (T : Type) `{SymbolTable T} := {
  st_strings_new : st_strings st_new = [];
  st_check_Some t s i : st_check_interned t s = Some i -> st_get t i = Some s;
  st_check_None t s : st_check_interned t s = None <-> s ∉ st_strings t;
  st_intern_spec t s : s ∉ st_strings t ->
    match st_intern t s with
    | Some (t', i) => st_strings t' = st_strings t ++ [s] /\ i = len (st_strings t)
    | None => u32_MAX <= len (st_strings t)
    end;
  st_get_spec t i : st_get t i = get (st_strings t) i;
}.

(** An implementation on lists. *)
Fixpoint index_in (l : list (list Z)) (s : list Z) : option Z :=
  match l with
  | [] => None
  | x :: l => if decide (x = s) then Some 0 else Z.succ <$> index_in l s
  end.

#[export] Instance list_SymbolTable : SymbolTable (list (list Z)) := {
  st_new := [];
  st_strings t := t;
  st_check_interned := index_in;
  st_intern t s := if len t <? u32_MAX then Some (t ++ [s], len t) else None;
  st_get := get;
}.

Lemma index_in_Some l s i : index_in l s = Some i -> get l i = Some s.
Proof.
  revert i. induction l as [|x l IH]; intros i; [done|]. cbn [index_in]. case_decide as E; [by intros [= <-]; subst|].
  destruct (index_in l s) as [j|]; [|done]. intros [= <-]. specialize (IH j eq_refl).
  apply get_Some in IH as [Hj IH]. apply get_Some. split; [lia|]. by replace (Z.to_nat (Z.succ j)) with (S (Z.to_nat j)) by lia.
Qed.

Lemma index_in_None l s : index_in l s = None <-> s ∉ l.
Proof.
  induction l as [|x l IH]; cbn [index_in]; [set_solver|]. case_decide as E; [set_solver|].
  rewrite fmap_None, IH. set_solver.
Qed.

#[export] Instance list_SymbolTableLaws : SymbolTableLaws (list (list Z)).
Proof.
  split; cbn; [done|apply index_in_Some|apply index_in_None| |done].
  intros t s _. destruct (len t <? u32_MAX) eqn:E; bools; [done|lia].
Qed.

(** * The pool *)

Record BStringPool (T : Type) := { pool : T; pool_size : Z }.
Arguments pool {_}.
Arguments pool_size {_}.
Arguments Build_BStringPool {_}.

Section Pool.
Context {T : Type} {ST : SymbolTable T}.

Definition pool_new : BStringPool T := {| pool := st_new; pool_size := 0 |}.

(** [get_or_intern]; [unwrap] panics when the table is full. *)
Definition get_or_intern (p : BStringPool T) (s : list Z) : res (BStringPool T * Z) :=
  match st_check_interned p.(pool) s with
  | Some id => Ret (p, id)
  | None =>
      '(t, id) ← or_panic (st_intern p.(pool) s);
      Ret ({| pool := t; pool_size := p.(pool_size) + len s |}, id)
  end.

Definition get_bytes (p : BStringPool T) (id : Z) : option (list Z) := st_get p.(pool) id.

(** [serialize], and [visit_seq] that reads the strings back. *)
Definition serialize (p : BStringPool T) : list (list Z) := st_strings p.(pool).

Definition visit_seq (seq : list (list Z)) : res (BStringPool T) :=
  for_each seq (fun string pool => '(pool, _) ← get_or_intern pool string; Ret pool) pool_new.

(** * Properties *)

Context {STL : SymbolTableLaws T}.

Definition total_len (l : list (list Z)) : Z := foldr (fun s n => len s + n) 0 l.

Lemma total_len_app a b : total_len (a ++ b) = total_len a + total_len b.
Proof. unfold total_len. induction a as [|x a IH]; cbn [app foldr]; [done|]. lia. Qed.

(** A pool holds every string once, and its size is the sum of their lengths. *)
Definition pool_ok (p : BStringPool T) : Prop :=
  NoDup (serialize p) /\ len (serialize p) <= u32_MAX /\ p.(pool_size) = total_len (serialize p).

Lemma pool_new_ok : pool_ok pool_new.
Proof. unfold pool_ok, serialize, pool_new. cbn. rewrite st_strings_new. split_and!; [constructor|done|done]. Qed.

Lemma get_or_intern_spec p s :
  pool_ok p -> s ∈ serialize p \/ len (serialize p) < u32_MAX ->
  exists p' id, get_or_intern p s = Ret (p', id) /\ pool_ok p' /\ get_bytes p' id = Some s /\
    (forall i s', get_bytes p i = Some s' -> get_bytes p' i = Some s') /\
    serialize p' = serialize p ++ (if bool_decide (s ∈ serialize p) then [] else [s]).
Proof.
  intros (Hn & Hl & Hs) Hroom. unfold get_or_intern, get_bytes, serialize in *. destruct (st_check_interned _ s) as [id|] eqn:E.
  - exists p, id. apply st_check_Some in E. split_and!; try done. rewrite st_get_spec in E.
    apply get_Some in E as [_ E%list_elem_of_lookup_2]. by rewrite bool_decide_eq_true_2, app_nil_r by done.
  - pose proof (proj1 (st_check_None _ _) E) as Hni. destruct Hroom as [?|Hroom]; [done|].
    pose proof (st_intern_spec _ _ Hni) as Hi. destruct (st_intern (pool p) s) as [[t id]|]; [|lia].
    destruct Hi as [Ht ->]. cbn [or_panic mbind res_bind]. eexists _, _. split; [done|]. unfold pool_ok, serialize. cbn [pool pool_size].
    rewrite Ht, bool_decide_eq_false_2 by done. rewrite total_len_app, len_app, len_cons, len_nil. split_and!.
    + apply NoDup_app. split_and!; [done| |apply NoDup_singleton]. intros x Hx ->%list_elem_of_singleton. done.
    + lia.
    + cbn. lia.
    + rewrite st_get_spec, Ht. unfold get, len. destruct (_ <? 0) eqn:E0; bools; [lia|]. rewrite Nat2Z.id.
      by rewrite lookup_app_r, Nat.sub_diag by lia.
    + intros i s'. rewrite !st_get_spec, Ht. rewrite !get_Some. intros [H1 H2]. split; [done|]. by apply lookup_app_l_Some.
    + done.
Qed.

Lemma visit_seq_spec l p :
  NoDup (serialize p ++ l) -> pool_ok p -> len (serialize p ++ l) <= u32_MAX ->
  exists p', for_each l (fun string pool => '(pool, _) ← get_or_intern pool string; Ret pool) p = Ret p' /\
    pool_ok p' /\ serialize p' = serialize p ++ l.
Proof.
  revert p. induction l as [|s l IH]; intros p Hn Hp Hl; cbn [for_each].
  { exists p. by rewrite app_nil_r. }
  rewrite len_app, len_cons in Hl. pose proof (len_nonneg l).
  destruct (get_or_intern_spec p s Hp ltac:(right; lia)) as (p1 & id & -> & Hp1 & _ & _ & Es). cbn [mbind res_bind].
  rewrite bool_decide_eq_false_2 in Es. 2: { intros Hin. apply NoDup_app in Hn as (_ & Hn & _). apply (Hn s Hin). left. }
  destruct (IH p1) as (p2 & -> & Hp2 & E2).
  - by rewrite Es, <- app_assoc.
  - done.
  - rewrite Es, len_app, len_app, len_cons, len_nil. lia.
  - exists p2. split_and!; [done..|]. by rewrite E2, Es, <- app_assoc.
Qed.
End Pool.

(** C36: interning a string does not panic while there are symbols left; the
    identifier gives the string back, those handed out before keep theirs, every
    string is stored once and the size is kept; a pool that is serialized and
    read back gives the same string for every identifier. *)
Theorem string_pool_roundtrip `{SymbolTableLaws T} (p : BStringPool T) (s : list Z) :
  pool_ok p -> len (serialize p) < u32_MAX ->
  exists p' id, get_or_intern p s = Ret (p', id) /\ pool_ok p' /\ get_bytes p' id = Some s /\
    (forall i s', get_bytes p i = Some s' -> get_bytes p' i = Some s') /\
    get_or_intern p' s = Ret (p', id) /\
    exists q, visit_seq (serialize p') = Ret q /\ pool_ok q /\ forall i, get_bytes q i = get_bytes p' i.
Proof.
  intros Hp Hl. destruct (get_or_intern_spec p s Hp (or_intror Hl)) as (p' & id & E & Hp' & Hg & Hold & Es).
  exists p', id. split_and!; [done..| |].
  - unfold get_or_intern. unfold get_bytes in Hg. rewrite st_get_spec in Hg.
    assert (Hin : s ∈ st_strings (pool p')) by (apply get_Some in Hg as [_ Hg]; by apply list_elem_of_lookup_2 in Hg).
    destruct (st_check_interned (pool p') s) as [id'|] eqn:Ec; [|by apply st_check_None in Ec].
    apply st_check_Some in Ec. rewrite st_get_spec in Ec. apply get_Some in Ec as [Hi Ec]. apply get_Some in Hg as [Hj Hg].
    destruct Hp' as (Hn & _). pose proof (NoDup_lookup _ _ _ _ Hn Ec Hg). do 2 f_equal. lia.
  - pose proof (conj pool_new_ok (@st_strings_new T _ _)) as [Hnew En]. destruct Hp' as (Hn & Hl' & Hs').
    destruct (visit_seq_spec (serialize p') pool_new) as (q & Eq & Hq & Esq).
    + unfold serialize at 1. cbn. by rewrite En.
    + done.
    + unfold serialize at 1. cbn. by rewrite En.
    + exists q. split_and!; [done..|]. intros i. unfold get_bytes. rewrite !st_get_spec.
      change (st_strings (pool q)) with (serialize q). rewrite Esq. unfold serialize at 1. cbn. by rewrite En.
Qed.

Lemma string_pool_roundtrip_witness :
  exists p' : BStringPool (list (list Z)), get_or_intern (Build_BStringPool [[0x61]] 1) [0x62; 0x63] = Ret (p', 1) /\ p'.(pool_size) = 3.
Proof.
  destruct (string_pool_roundtrip (Build_BStringPool [[0x61]] 1) [0x62; 0x63]) as (p' & id & E & (_ & _ & Hs) & Hrest).
  - split_and!; [apply NoDup_singleton|discriminate|reflexivity].
  - reflexivity.
  - exists p'. vm_compute in E. injection E as <- <-. split; reflexivity.
Defined.
