(* ===== verification/ScanVerify.v ===== *)
(** The verification of the hits of atoms, from [lib/src/scanner/context.rs]:
    literals, literals with masks, XORed literals, full words and regular
    expressions. *)

From S2P Require Import Prelude.
From S2P Require Import Re.
From S2P Require Import Cursor.
From S2P Require Import Atoms.
From S2P Require Import PosSet.
From S2P Require Import FastVM.
From S2P Require Import PikeInstr.
From S2P Require Import PikeVM.

(** * Flags

    [SubPatternFlags] of [lib/src/compiler/mod.rs], with the methods of the
    [bitflags] crate. *)

Definition FlagWide : Z := 0x01.
Definition FlagNocase : Z := 0x02.
Definition FlagLastInChain : Z := 0x04.
Definition FlagFullwordLeft : Z := 0x08.
Definition FlagFullwordRight : Z := 0x10.
Definition FlagGreedyRegexp : Z := 0x20.
Definition FlagFastRegexp : Z := 0x40.

Definition has_flag (flags f : Z) : bool := Z.land flags f =? f.
Definition has_any_flag (flags f : Z) : bool := negb (Z.land flags f =? 0).

(** [u8::is_ascii_alphanumeric] *)
Definition is_ascii_alphanumeric (b : Z) : bool := is_ascii_alphabetic b || (48 <=? b) && (b <=? 57).

(** [data[i]] *)
Definition byte_at (data : list Z) (i : Z) : res Z := or_panic (get data i).

(** * Full words

    The byte before the match, or after it, belongs to a word; [key] is the key
    of a XORed pattern. *)

Definition word_before (wide : bool) (data : list Z) (start key : Z) : res bool :=
  if wide then
    if 2 <=? start then
      z ← byte_at data (start - 1);
      if Z.lxor z key =? 0 then b ← byte_at data (start - 2); Ret (is_ascii_alphanumeric (Z.lxor b key))
      else Ret false
    else Ret false
  else if 1 <=? start then b ← byte_at data (start - 1); Ret (is_ascii_alphanumeric (Z.lxor b key))
  else Ret false.

Definition word_after (wide : bool) (data : list Z) (stop key : Z) : res bool :=
  if wide then
    if stop + 1 <? len data then
      z ← byte_at data (stop + 1);
      if Z.lxor z key =? 0 then b ← byte_at data stop; Ret (is_ascii_alphanumeric (Z.lxor b key))
      else Ret false
    else Ret false
  else if stop <? len data then b ← byte_at data stop; Ret (is_ascii_alphanumeric (Z.lxor b key))
  else Ret false.

Definition verify_full_word (scanned_data : list Z) (match_range : Z * Z) (flags : Z) (xor_key : option Z) : res bool :=
  let xor_key := default 0 xor_key in
  let wide := has_flag flags FlagWide in
  left ← (if has_flag flags FlagFullwordLeft then word_before wide scanned_data (fst match_range) xor_key else Ret false);
  if left : bool then Ret false
  else
    right ← (if has_flag flags FlagFullwordRight then word_after wide scanned_data (snd match_range) xor_key else Ret false);
    Ret (negb right).

(** * Literals *)

Definition eq_ignore_ascii_case (a b : list Z) : bool :=
  bool_decide (to_ascii_lowercase <$> a = to_ascii_lowercase <$> b).

(** Offsets and lengths are below [isize::MAX], so the sum does not overflow. *)
Definition verify_literal (pattern scanned_data : list Z) (match_start flags : Z) : res bool :=
  let match_end := match_start + len pattern in
  if len scanned_data <? match_end then Ret false
  else
    full_word ← (if has_any_flag flags (Z.lor FlagFullwordLeft FlagFullwordRight)
                 then verify_full_word scanned_data (match_start, match_end) flags None else Ret true);
    if negb full_word then Ret false
    else
      candidate ← index_range scanned_data match_start match_end;
      Ret (if has_flag flags FlagNocase then eq_ignore_ascii_case pattern candidate
           else bool_decide (candidate = pattern)).

(** The loop over the bytes, for the targets without vector instructions. *)
Fixpoint verify_literal_with_mask (data pattern mask : list Z) : bool :=
  match data, mask, pattern with
  | d :: data, m :: mask, t :: pattern =>
      if negb (Z.land d m =? t) then false else verify_literal_with_mask data pattern mask
  | _, _, _ => true
  end.

(** The operations on vectors of 16 bytes. *)
Definition v_and (a b : list Z) : list Z := zip_with Z.land a b.
Definition v_cmpeq (a b : list Z) : list Z := zip_with (fun x y => if x =? y then 0xff else 0) a b.
Definition v_splat (b : Z) : list Z := replicate 16 b.
Definition v_is_zero (a : list Z) : bool := forallb (fun b => b =? 0) a.

(** [load_unaligned] reads 16 bytes from an offset. *)
Definition v_load (l : list Z) (offset : Z) : res (list Z) := index_range l offset (offset + 16).

(** An array of 16 zeros whose first bytes are the ones of a slice. *)
Definition padded (l : list Z) (n : Z) : res (list Z) :=
  s ← index_range l 0 n; Ret (s ++ replicate (Z.to_nat (16 - n)) 0).

Definition verify_vectors (data pattern mask : list Z) : bool :=
  let eq := v_cmpeq (v_and data mask) pattern in
  v_is_zero (v_cmpeq eq (v_splat 0x00)).

Definition verify_chunk (data pattern mask : list Z) (offset : Z) : res bool :=
  d ← v_load data offset; p ← v_load pattern offset; m ← v_load mask offset;
  Ret (verify_vectors d p m).

(** [while offset + 16 <= len], with the rest of the chunks as fuel. *)
Fixpoint verify_chunks (fuel : nat) (data pattern mask : list Z) (offset : Z) : res (option Z) :=
  if offset + 16 <=? len data then
    match fuel with
    | O => OutOfFuel
    | S fuel =>
        ok ← verify_chunk data pattern mask offset;
        if negb ok then Ret None else verify_chunks fuel data pattern mask (offset + 16)
    end
  else Ret (Some offset).

Definition verify_literal_with_mask_simd (data pattern mask : list Z) : res bool :=
  let n := len data in
  _ ← assert (n <=? u16_MAX);
  if n <=? 16 then
    d ← padded data n; p ← padded pattern n; m ← padded mask n;
    Ret (verify_vectors d p m)
  else
    o ← verify_chunks (length data) data pattern mask 0;
    match o with
    | None => Ret false
    | Some offset =>
        if offset <? n then verify_chunk data pattern mask (n - 16) else Ret true
    end.

(** * XORed literals *)

(** The loop over the chunks of [n] bytes, compared as words; what is left when
    they are equal. The words are read as little endian ones. *)
Fixpoint xor_chunks_eq (fuel n : nat) (key_word : Z) (pattern candidate : list Z) : option (list Z * list Z) :=
  match fuel with
  | O => Some (pattern, candidate)
  | S fuel =>
      if (n <=? length pattern)%nat && (n <=? length candidate)%nat then
        if from_le_bytes (take n pattern) =? Z.lxor (from_le_bytes (take n candidate)) key_word
        then xor_chunks_eq fuel n key_word (drop n pattern) (drop n candidate)
        else None
      else Some (pattern, candidate)
  end.

Definition xor_slices_eq (pattern candidate : list Z) (key : Z) : res bool :=
  _ ← assert (len pattern =? len candidate);
  let n := if len pattern <? 8 then 4%nat else 8%nat in
  Ret
    match xor_chunks_eq (length pattern) n (from_le_bytes (replicate n key)) pattern candidate with
    | None => false
    | Some (pattern_remainder, candidate_remainder) =>
        forallb (fun pc => fst pc =? Z.lxor (snd pc) key) (zip pattern_remainder candidate_remainder)
    end.

Definition verify_xor (pattern scanned_data : list Z) (match_start : Z) (atom : Atom) (flags : Z) : res (option Z) :=
  let match_end := match_start + len pattern in
  if len scanned_data <? match_end then Ret None
  else
    a ← byte_at atom.(atom_bytes) 0;
    p ← byte_at pattern atom.(backtrack);
    let key := Z.lxor a p in
    full_word ← verify_full_word scanned_data (match_start, match_end) flags (Some key);
    if negb full_word then Ret None
    else
      candidate ← index_range scanned_data match_start match_end;
      equal ← (if key =? 0 then Ret (bool_decide (pattern = candidate)) else xor_slices_eq pattern candidate key);
      Ret (if equal : bool then Some key else None).

(** * Regular expressions *)

(** [SubPatternAtom] of [lib/src/compiler/rules.rs] *)
Record SubPatternAtom := {
  sa_sub_pattern_id : Z;
  sa_atom : Atom;
  sa_fwd_code : option CodeLoc;
  sa_bck_code : option CodeLoc;
}.

Definition from_atom (sub_pattern_id : Z) (a : Atom) : SubPatternAtom :=
  {| sa_sub_pattern_id := sub_pattern_id; sa_atom := a; sa_fwd_code := None; sa_bck_code := None |}.

Definition from_regexp_atom (sub_pattern_id : Z) (a : RegexpAtom) : SubPatternAtom :=
  {| sa_sub_pattern_id := sub_pattern_id; sa_atom := a.(rx_atom);
     sa_fwd_code := a.(rx_fwd_code); sa_bck_code := a.(rx_bck_code) |}.

Section Regexp.
Context {MC : Memchr} {S : Type} {PS : PosSet S} {BS : BitSlice} {B : Type} {BV : BitVec B}.

(** The virtual machines. *)
Record VM := { pike_vm : PikeVM (B := B); fast_vm : FastVM S }.

Definition with_pike (vm : VM) (p : PikeVM) : VM := {| pike_vm := p; fast_vm := vm.(fast_vm) |}.
Definition with_fast (vm : VM) (f : FastVM S) : VM := {| pike_vm := vm.(pike_vm); fast_vm := f |}.

(** A scan from an atom with the machine of the pattern; [fuel] bounds the loops
    of the Pike machine. *)
Definition vm_scan {C} (fuel : nat) (vm : VM) (code : CodeLoc) (data : list Z) (match_start flags : Z)
    (f : C -> Z -> C * Action) (c : C) : res (VM * C) :=
  right ← index_range data match_start (len data);
  left ← index_range data 0 match_start;
  let wide := has_flag flags FlagWide in
  if has_flag flags FlagFastRegexp then
    '(m, c) ← FastVM.try_match vm.(fast_vm) code (if backwards code then left else right) wide f c;
    Ret (with_fast vm m, c)
  else
    '(m, c) ← PikeVM.try_match true fuel vm.(pike_vm) code right left wide f c;
    Ret (with_pike vm m, c).

(** The length of the match after the atom. *)
Definition forward_len (fuel : nat) (vm : VM) (data : list Z) (match_start : Z) (atom : SubPatternAtom) (flags : Z)
  : res (VM * option Z) :=
  match atom.(sa_fwd_code) with
  | Some code =>
      vm_scan fuel vm code data match_start flags (fun _ match_len =>
        (Some match_len,
         if has_flag flags FlagFastRegexp && has_flag flags FlagGreedyRegexp then Continue else Stop)) None
  | None => Ret (vm, Some (len atom.(sa_atom).(atom_bytes)))
  end.

(** The callback [f] may panic. *)
Definition report_range {C} (data : list Z) (flags : Z) (f : C -> Z * Z -> res C) (range : Z * Z) (c : res C) : res C :=
  c ← c;
  full_word ← verify_full_word data range flags None;
  if full_word : bool then f c range else Ret c.

Definition verify_regexp {C} (fuel : nat) (vm : VM) (scanned_data : list Z) (match_start : Z) (atom : SubPatternAtom)
    (flags : Z) (f : C -> Z * Z -> res C) (c : C) : res (VM * C) :=
  '(vm, fwd_match_len) ← forward_len fuel vm scanned_data match_start atom flags;
  match fwd_match_len with
  | None => Ret (vm, c)
  | Some fwd_match_len =>
      match atom.(sa_bck_code) with
      | Some code =>
          '(vm, c) ← vm_scan fuel vm code scanned_data match_start flags (fun c bck_match_len =>
            (report_range scanned_data flags f (match_start - bck_match_len, match_start + fwd_match_len) c, Continue))
            (Ret c);
          c ← c; Ret (vm, c)
      | None =>
          c ← report_range scanned_data flags f (match_start, match_start + fwd_match_len) (Ret c);
          Ret (vm, c)
      end
  end.
End Regexp.
Arguments VM S B : clear implicits.
