(* ===== verification/ScanVerifyProps.v ===== *)
(** The verification of literals is exact: vectors, words and the loops over
    chunks give the same answer as a comparison of bytes, and no access is out of
    range. *)

From S2P Require Import Prelude.
From S2P Require Import Hir.
From S2P Require Import Atoms.
From S2P Require Import ByteClass.
From S2P Require Import ScanVerify.

(** * Full words *)

(** A byte is part of a word, in a pattern XORed with [key]. *)
Definition word_byte (data : list Z) (key i : Z) : bool :=
  match get data i with Some b => is_ascii_alphanumeric (Z.lxor b key) | None => false end.

Definition zero_byte (data : list Z) (key i : Z) : bool :=
  match get data i with Some b => Z.lxor b key =? 0 | None => false end.

(** The match from [start] to [stop] is not next to a word on the sides that the
    flags tell; a wide character is a byte and a zero. *)
Definition is_full_word (data : list Z) (start stop flags key : Z) : bool :=
  let wide := has_flag flags FlagWide in
  negb (has_flag flags FlagFullwordLeft &&
        (if wide then (2 <=? start) && zero_byte data key (start - 1) && word_byte data key (start - 2)
         else word_byte data key (start - 1))) &&
  negb (has_flag flags FlagFullwordRight &&
        (if wide then zero_byte data key (stop + 1) && word_byte data key stop else word_byte data key stop)).

Lemma byte_at_Some data i b : get data i = Some b -> byte_at data i = Ret b.
Proof. unfold byte_at. by intros ->. Qed.

Lemma get_Forall {A} (P : A -> Prop) l i x : Forall P l -> get l i = Some x -> P x.
Proof. intros Hl [_ Hx]%get_Some. by eapply Forall_lookup_1. Qed.

Lemma get_none {A} (l : list A) i : i < 0 \/ len l <= i -> get l i = None.
Proof.
  intros H. destruct (get l i) as [x|] eqn:E; [|done]. apply get_lt in E. lia.
Qed.

Lemma word_before_ok wide data start key :
  0 <= start <= len data ->
  word_before wide data start key =
  Ret (if wide then (2 <=? start) && zero_byte data key (start - 1) && word_byte data key (start - 2)
       else word_byte data key (start - 1)).
Proof.
  intros H. unfold word_before, zero_byte, word_byte. destruct wide.
  - destruct (2 <=? start) eqn:E2; bools; [|done].
    destruct (get_is_Some data (start - 1)) as [b E]; [lia|]. rewrite (byte_at_Some _ _ _ E), E. cbn [mbind res_bind andb].
    destruct (Z.lxor b key =? 0); [|done].
    destruct (get_is_Some data (start - 2)) as [b' E']; [lia|]. by rewrite (byte_at_Some _ _ _ E'), E'.
  - destruct (1 <=? start) eqn:E1; bools.
    + destruct (get_is_Some data (start - 1)) as [b E]; [lia|]. by rewrite (byte_at_Some _ _ _ E), E.
    + by rewrite get_none by lia.
Qed.

Lemma word_after_ok wide data stop key :
  0 <= stop <= len data ->
  word_after wide data stop key =
  Ret (if wide then zero_byte data key (stop + 1) && word_byte data key stop else word_byte data key stop).
Proof.
  intros H. unfold word_after, zero_byte, word_byte. destruct wide.
  - destruct (stop + 1 <? len data) eqn:E2; bools; [|by rewrite (get_none data (stop + 1)) by lia].
    destruct (get_is_Some data (stop + 1)) as [b E]; [lia|]. rewrite (byte_at_Some _ _ _ E), E. cbn [mbind res_bind andb].
    destruct (Z.lxor b key =? 0); [|done].
    destruct (get_is_Some data stop) as [b' E']; [lia|]. by rewrite (byte_at_Some _ _ _ E'), E'.
  - destruct (stop <? len data) eqn:E1; bools.
    + destruct (get_is_Some data stop) as [b E]; [lia|]. by rewrite (byte_at_Some _ _ _ E), E.
    + by rewrite get_none by lia.
Qed.

Lemma verify_full_word_ok data start stop flags xor_key :
  0 <= start -> start <= stop -> stop <= len data ->
  verify_full_word data (start, stop) flags xor_key = Ret (is_full_word data start stop flags (default 0 xor_key)).
Proof.
  intros H1 H2 H3. unfold verify_full_word, is_full_word. cbn [fst snd].
  rewrite word_before_ok, word_after_ok by lia.
  destruct (has_flag flags FlagFullwordLeft); cbn [mbind res_bind andb negb].
  - match goal with |- context [if ?b : bool then Ret false else _] => destruct b end; [done|]. cbn [andb negb].
    by destruct (has_flag flags FlagFullwordRight).
  - by destruct (has_flag flags FlagFullwordRight).
Qed.

(** * Literals *)

Lemma no_full_word_flag data start stop flags key :
  has_any_flag flags (Z.lor FlagFullwordLeft FlagFullwordRight) = false -> is_full_word data start stop flags key = true.
Proof.
  unfold has_any_flag, is_full_word, has_flag. intros H%negb_false_iff%Z.eqb_eq.
  assert (Hz : forall f, Z.land (Z.lor FlagFullwordLeft FlagFullwordRight) f = f -> Z.land flags f = 0).
  { intros f Hf. rewrite <- Hf, Z.land_assoc, H. apply Z.land_0_l. }
  by rewrite (Hz FlagFullwordLeft), (Hz FlagFullwordRight) by done.
Qed.

Lemma verify_literal_ok pattern data match_start flags :
  0 <= match_start ->
  verify_literal pattern data match_start flags =
  Ret (match get_range data match_start (match_start + len pattern) with
       | Some candidate =>
           is_full_word data match_start (match_start + len pattern) flags 0 &&
           (if has_flag flags FlagNocase then eq_ignore_ascii_case pattern candidate else bool_decide (candidate = pattern))
       | None => false
       end).
Proof.
  intros H0. unfold verify_literal, index_range. pose proof (len_nonneg pattern) as Hl.
  destruct (len data <? match_start + len pattern) eqn:E; bools.
  - unfold get_range. by rewrite (proj2 (Z.leb_gt (match_start + len pattern) (len data))), andb_false_r by lia.
  - unfold get_range. rewrite !(proj2 (Z.leb_le _ _)) by lia. cbn [andb or_panic].
    destruct (has_any_flag flags _) eqn:Ef.
    + rewrite verify_full_word_ok by lia. cbn [mbind res_bind default].
      by destruct (is_full_word _ _ _ _ _).
    + cbn [mbind res_bind]. by rewrite no_full_word_flag by done.
Qed.

(** * Literals with masks *)

(** The data agrees with the pattern where the mask is set, from [a] to [b]. *)
Definition agrees_on (data pattern mask : list Z) (a b : nat) : Prop :=
  forall i, (a <= i < b)%nat -> Z.land (data !!! i) (mask !!! i) = pattern !!! i.

Lemma with_mask_spec data pattern mask :
  length pattern = length data -> length mask = length data ->
  verify_literal_with_mask data pattern mask = true <-> agrees_on data pattern mask 0 (length data).
Proof.
  revert pattern mask. induction data as [|d data IH]; intros [|p pattern] [|m mask]; cbn [length]; try done.
  intros [= Hp] [= Hm]. cbn [verify_literal_with_mask]. destruct (Z.land d m =? p) eqn:E; bools; cbn [negb].
  - rewrite IH by done. split.
    + intros H [|i] Hi; [done|]. apply (H i). lia.
    + intros H i Hi. apply (H (S i)). lia.
  - split; [done|]. intros H. exfalso. apply E, (H 0%nat). lia.
Qed.

Lemma vectors_spec data pattern mask :
  length data = 16%nat -> length pattern = 16%nat -> length mask = 16%nat ->
  verify_vectors data pattern mask = true <-> agrees_on data pattern mask 0 16.
Proof.
  intros Hd Hp Hm. unfold verify_vectors, v_is_zero, v_cmpeq, v_and, v_splat. rewrite forallb_forall.
  split.
  - intros H i Hi. destruct (lookup_lt_is_Some_2 data i) as [d Ed]; [lia|].
    destruct (lookup_lt_is_Some_2 mask i) as [m Em]; [lia|]. destruct (lookup_lt_is_Some_2 pattern i) as [p Ep]; [lia|].
    rewrite (list_lookup_total_correct _ _ _ Ed), (list_lookup_total_correct _ _ _ Em), (list_lookup_total_correct _ _ _ Ep).
    destruct (Z.land d m =? p) eqn:E; [by apply Z.eqb_eq|]. exfalso.
    enough (0xff =? 0 = true) by done. apply H, list_elem_of_In, list_elem_of_lookup. exists i.
    rewrite !lookup_zip_with, Ed, Em, Ep. cbn [mbind option_bind]. rewrite E, lookup_replicate_2 by lia. done.
  - intros H x Hx%list_elem_of_In%list_elem_of_lookup. destruct Hx as [i Hi].
    rewrite !lookup_zip_with in Hi. destruct (data !! i) as [d|] eqn:Ed; [|done]. destruct (mask !! i) as [m|] eqn:Em; [|done].
    destruct (pattern !! i) as [p|] eqn:Ep; [|done]. cbn [mbind option_bind] in Hi.
    assert (Hlt : (i < 16)%nat) by (apply lookup_lt_Some in Ed; lia). rewrite lookup_replicate_2 in Hi by done.
    specialize (H i ltac:(lia)).
    rewrite (list_lookup_total_correct _ _ _ Ed), (list_lookup_total_correct _ _ _ Em), (list_lookup_total_correct _ _ _ Ep) in H.
    injection Hi as <-. by rewrite (proj2 (Z.eqb_eq _ _) H).
Qed.

Lemma chunk_spec data pattern mask o :
  length pattern = length data -> length mask = length data -> 0 <= o -> o + 16 <= len data ->
  exists b, verify_chunk data pattern mask o = Ret b /\
    (b = true <-> agrees_on data pattern mask (Z.to_nat o) (Z.to_nat o + 16)).
Proof.
  intros Hp Hm H0 Ho. unfold verify_chunk, v_load, index_range, get_range.
  assert (len pattern = len data /\ len mask = len data) as [-> ->] by (unfold len; lia).
  rewrite !(proj2 (Z.leb_le _ _)) by lia. cbn [andb or_panic mbind res_bind]. eexists. split; [done|].
  assert (Hs : forall l : list Z, length l = length data -> length (slice l o (o + 16)) = 16%nat /\
                 forall i, (i < 16)%nat -> slice l o (o + 16) !!! i = l !!! (Z.to_nat o + i)%nat).
  { intros l Hl. unfold slice, len in *. replace (Z.to_nat (o + 16 - o)) with 16%nat by lia. split.
    - rewrite length_take, length_drop. lia.
    - intros i Hi. rewrite !list_lookup_total_alt, lookup_take_lt, lookup_drop by lia. done. }
  destruct (Hs data eq_refl) as [L1 S1]. destruct (Hs pattern Hp) as [L2 S2]. destruct (Hs mask Hm) as [L3 S3].
  rewrite vectors_spec by done. unfold agrees_on. split.
  - intros H i Hi. specialize (H (i - Z.to_nat o)%nat ltac:(lia)). rewrite S1, S2, S3 in H by lia.
    by replace (Z.to_nat o + (i - Z.to_nat o))%nat with i in H by lia.
  - intros H i Hi. rewrite S1, S2, S3 by lia. apply H. lia.
Qed.

Lemma chunks_spec fuel data pattern mask o :
  length pattern = length data -> length mask = length data -> 0 <= o <= len data ->
  (Z.to_nat (len data - o) <= fuel)%nat -> agrees_on data pattern mask 0 (Z.to_nat o) ->
  exists r, verify_chunks fuel data pattern mask o = Ret r /\
    match r with
    | None => ~ agrees_on data pattern mask 0 (length data)
    | Some o' => o <= o' <= len data /\ len data < o' + 16 /\ agrees_on data pattern mask 0 (Z.to_nat o')
    end.
Proof.
  intros Hp Hm. revert o. induction fuel as [|fuel IH]; intros o H0 Hf Ha; cbn [verify_chunks].
  - rewrite (proj2 (Z.leb_gt _ _)) by lia. eexists. split; [done|]. cbn. split; [lia|]. split; [lia|done].
  - destruct (o + 16 <=? len data) eqn:E; bools.
    + destruct (chunk_spec data pattern mask o Hp Hm ltac:(lia) E) as (b & -> & Hb). cbn [mbind res_bind].
      destruct b; cbn [negb].
      * destruct (IH (o + 16)) as (r & -> & Hr); [lia|lia| |].
        { intros i Hi. destruct (decide (i < Z.to_nat o)%nat); [apply Ha; lia|]. apply (proj1 Hb eq_refl). lia. }
        exists r. split; [done|]. destruct r as [o'|]; [|done]. destruct Hr as (? & ? & ?). split_and!; [lia..|done].
      * eexists. split; [done|]. cbn. intros H. enough (false = true) by done. apply Hb. intros i Hi. apply H.
        unfold len in E. lia.
    + eexists. split; [done|]. cbn. split; [lia|]. split; [lia|done].
Qed.

Lemma padded_spec (l : list Z) n :
  len l = n -> n <= 16 ->
  exists l', padded l n = Ret l' /\ length l' = 16%nat /\
    forall i, (i < 16)%nat -> l' !!! i = if decide (i < length l)%nat then l !!! i else 0.
Proof.
  intros Hl Hn. pose proof (len_nonneg l). unfold padded, index_range, get_range. rewrite !(proj2 (Z.leb_le _ _)) by lia.
  cbn [andb or_panic mbind res_bind]. eexists. split; [done|]. rewrite slice_0.
  unfold slice_to. unfold len in *. rewrite take_ge by lia. split; [rewrite length_app, length_replicate; lia|].
  intros i Hi. rewrite list_lookup_total_alt. case_decide.
  - rewrite lookup_app_l by lia. by rewrite list_lookup_total_alt.
  - rewrite lookup_app_r by lia. by rewrite lookup_replicate_2 by lia.
Qed.

(** C34: the verification of literals with masks by vectors, for data as long as
    the pattern and the mask: its debug assertion panics for data longer than 65535
    bytes; for any other data it does not read out of range, ends, and says, like
    the loop over the bytes, whether all the bytes agree with the pattern under
    the mask; the vectors of short data are filled with zeros, and the last vector
    of long data may overlap the one before it. *)
Theorem literal_with_mask_exact (data pattern mask : list Z) :
  length pattern = length data -> length mask = length data ->
  verify_literal_with_mask_simd data pattern mask =
    (if len data <=? u16_MAX then Ret (verify_literal_with_mask data pattern mask) else Panic) /\
  (verify_literal_with_mask data pattern mask = true <->
   forall i, (i < length data)%nat -> Z.land (data !!! i) (mask !!! i) = pattern !!! i).
Proof.
  intros Hp Hm. pose proof (with_mask_spec data pattern mask Hp Hm) as Hs. split.
  2: { rewrite Hs. unfold agrees_on. split; intros H i Hi; apply H; lia. }
  assert (Hiff : forall b, (b = true <-> agrees_on data pattern mask 0 (length data)) ->
                           Ret b = Ret (verify_literal_with_mask data pattern mask)).
  { intros b Hb. f_equal. apply eq_iff_eq_true. by rewrite Hb, Hs. }
  unfold verify_literal_with_mask_simd. destruct (len data <=? u16_MAX); [|done]. cbn [assert mbind res_bind].
  destruct (len data <=? 16) eqn:E; bools.
  - destruct (padded_spec data (len data) eq_refl E) as (d & -> & Ld & Sd).
    destruct (padded_spec pattern (len data) ltac:(unfold len; lia) E) as (p & -> & Lp & Sp).
    destruct (padded_spec mask (len data) ltac:(unfold len; lia) E) as (m & -> & Lm & Sm). cbn [mbind res_bind].
    apply Hiff. rewrite vectors_spec by done. unfold agrees_on. unfold len in E. split; intros H i Hi; specialize (H i).
    + by rewrite Sd, Sp, Sm, Hp, Hm, !decide_True in H by lia; apply H; lia.
    + rewrite Sd, Sp, Sm, Hp, Hm by lia. case_decide; [apply H; lia|done].
  - destruct (chunks_spec (length data) data pattern mask 0 Hp Hm) as (r & -> & Hr); [lia|unfold len; lia|intros i Hi; lia|].
    cbn [mbind res_bind]. destruct r as [o|].
    + destruct Hr as (Ho & Hlt & Ha). destruct (o <? len data) eqn:Eo; bools.
      * destruct (chunk_spec data pattern mask (len data - 16) Hp Hm ltac:(lia) ltac:(lia)) as (b & -> & Hb).
        apply Hiff. rewrite Hb. unfold len in *. split; intros H i Hi; [|apply H; lia].
        destruct (decide (i < Z.to_nat o)%nat); [apply Ha; lia|]. apply H. lia.
      * apply Hiff. split; [intros _|done]. intros i Hi. apply Ha. unfold len in *. lia.
    + apply Hiff. split; [done|]. intros H. by destruct (Hr H).
Qed.

Lemma literal_with_mask_exact_witness :
  verify_literal_with_mask_simd (replicate 20 0x61) (replicate 19 0x41 ++ [0x61]) (replicate 19 0xdf ++ [0xff]) = Ret true.
Proof.
  destruct (literal_with_mask_exact (replicate 20 0x61) (replicate 19 0x41 ++ [0x61]) (replicate 19 0xdf ++ [0xff]))
    as [-> _]; reflexivity.
Defined.

(** * XORed literals *)

Definition xored (key : Z) (l : list Z) : list Z := (fun b => Z.lxor b key) <$> l.

Lemma byte_and_rest b x n :
  is_u8 b -> 0 <= n -> Z.testbit (b + 256 * x) n = if n <? 8 then Z.testbit b n else Z.testbit x (n - 8).
Proof.
  intros Hb Hn. unfold is_u8 in Hb. destruct (n <? 8) eqn:E; bools.
  - rewrite <- (Z.mod_pow2_bits_low (b + 256 * x) 8 n), <- (Z.mod_pow2_bits_low b 8 n) by lia. f_equal.
    change (2 ^ 8) with 256. rewrite Z.mul_comm. by rewrite Z.mod_add by lia.
  - replace n with ((n - 8) + 8) at 1 by lia. rewrite <- Z.div_pow2_bits by lia. f_equal.
    change (2 ^ 8) with 256. rewrite Z.mul_comm, Z.div_add by lia. by rewrite Z.div_small.
Qed.

Lemma lxor_bytes a b x y :
  is_u8 a -> is_u8 b -> Z.lxor (a + 256 * x) (b + 256 * y) = Z.lxor a b + 256 * Z.lxor x y.
Proof.
  intros Ha Hb. pose proof (lxor_u8 a b Ha Hb).
  apply Z.bits_inj'. intros n Hn. rewrite Z.lxor_spec, !byte_and_rest by done. destruct (n <? 8); by rewrite Z.lxor_spec.
Qed.

(** The words of XORed bytes are the XORed words. *)
Lemma from_le_bytes_xored key l :
  is_u8 key -> Forall is_u8 l ->
  from_le_bytes (xored key l) = Z.lxor (from_le_bytes l) (from_le_bytes (replicate (length l) key)).
Proof.
  intros Hk. induction 1 as [|b l Hb Hl IH]; [done|]. cbn [length replicate from_le_bytes].
  change (xored key (b :: l)) with (Z.lxor b key :: xored key l). cbn [from_le_bytes]. by rewrite IH, lxor_bytes.
Qed.

Lemma from_le_bytes_inj a b :
  Forall is_u8 a -> Forall is_u8 b -> length a = length b -> from_le_bytes a = from_le_bytes b -> a = b.
Proof.
  intros Ha. revert b. induction Ha as [|x a Hx Ha IH]; intros [|y b] Hb; cbn [length]; try done.
  intros [= Hl]. inversion Hb; subst. cbn [from_le_bytes]. unfold is_u8 in *. intros E.
  assert (x = y) by lia. subst. f_equal. apply IH; [done..|lia].
Qed.

Lemma Forall_xored key l : is_u8 key -> Forall is_u8 l -> Forall is_u8 (xored key l).
Proof. intros Hk Hl. unfold xored. rewrite Forall_fmap. eapply Forall_impl; [done|]. intros b Hb. by apply lxor_u8. Qed.

Lemma xor_word_spec n key (pattern candidate : list Z) :
  is_u8 key -> Forall is_u8 pattern -> Forall is_u8 candidate -> length pattern = n -> length candidate = n ->
  from_le_bytes pattern = Z.lxor (from_le_bytes candidate) (from_le_bytes (replicate n key)) <-> pattern = xored key candidate.
Proof.
  intros Hk Hp Hc Lp Lc. rewrite <- Lc, <- from_le_bytes_xored by done. split; [|by intros ->].
  apply from_le_bytes_inj; [done|by apply Forall_xored|]. unfold xored. by rewrite length_fmap, Lp, Lc.
Qed.

Lemma xored_take_drop n key (p c : list Z) :
  p = xored key c <-> take n p = xored key (take n c) /\ drop n p = xored key (drop n c).
Proof.
  unfold xored. rewrite fmap_take, fmap_drop. split; [by intros ->|].
  intros [H1 H2]. rewrite <- (take_drop n p), H1, H2. apply take_drop.
Qed.

Lemma xor_chunks_spec fuel n key pattern candidate :
  is_u8 key -> Forall is_u8 pattern -> Forall is_u8 candidate -> length pattern = length candidate ->
  match xor_chunks_eq fuel n (from_le_bytes (replicate n key)) pattern candidate with
  | None => pattern <> xored key candidate
  | Some (p, c) => length p = length c /\ (pattern = xored key candidate <-> p = xored key c)
  end.
Proof.
  intros Hk. revert pattern candidate. induction fuel as [|fuel IH]; intros p c Hp Hc Hl; cbn [xor_chunks_eq]; [done|].
  destruct (n <=? length p)%nat eqn:E1; [|done]. destruct (n <=? length c)%nat eqn:E2; [|done]. cbn [andb].
  apply Nat.leb_le in E1, E2.
  pose proof (xor_word_spec n key (take n p) (take n c) Hk (Forall_take _ _ _ Hp) (Forall_take _ _ _ Hc)
    ltac:(rewrite length_take; lia) ltac:(rewrite length_take; lia)) as Hw.
  destruct (_ =? _) eqn:E; bools.
  - specialize (IH (drop n p) (drop n c) (Forall_drop _ _ _ Hp) (Forall_drop _ _ _ Hc) ltac:(rewrite !length_drop; lia)).
    destruct (xor_chunks_eq fuel n _ _ _) as [[p' c']|]; rewrite (xored_take_drop n).
    + destruct IH as [? IH]. split; [done|]. rewrite <- IH. tauto.
    + tauto.
  - rewrite (xored_take_drop n). tauto.
Qed.

Lemma zip_xored key (p c : list Z) :
  length p = length c -> forallb (fun pc => fst pc =? Z.lxor (snd pc) key) (zip p c) = true <-> p = xored key c.
Proof.
  revert c. induction p as [|x p IH]; intros [|y c]; cbn [length]; try done. intros [= Hl].
  cbn [zip_with forallb fst snd]. change (xored key (y :: c)) with (Z.lxor y key :: xored key c).
  rewrite andb_true_iff, IH, Z.eqb_eq by done. split; [by intros [-> ->]|by intros [= -> ->]].
Qed.

Lemma xor_slices_spec pattern candidate key :
  is_u8 key -> Forall is_u8 pattern -> Forall is_u8 candidate -> length pattern = length candidate ->
  xor_slices_eq pattern candidate key = Ret (bool_decide (pattern = xored key candidate)).
Proof.
  intros Hk Hp Hc Hl. unfold xor_slices_eq.
  assert (len pattern =? len candidate = true) as -> by (unfold len; lia). cbn [Prelude.assert mbind res_bind]. f_equal. set (n := if len pattern <? 8 then 4%nat else 8%nat).
  pose proof (xor_chunks_spec (length pattern) n key pattern candidate Hk Hp Hc Hl) as H.
  destruct (xor_chunks_eq _ _ _ _ _) as [[p c]|].
  - destruct H as [Hl' H]. apply eq_iff_eq_true. rewrite bool_decide_eq_true, H. by apply zip_xored.
  - symmetry. by apply bool_decide_eq_false.
Qed.

Lemma xored_0 l : xored 0 l = l.
Proof. unfold xored. induction l as [|b l IH]; [done|]. cbn [fmap list_fmap]. by rewrite Z.lxor_0_r, IH. Qed.

(** The first byte of an atom that was found, and the key it gives. *)
Lemma found_first (atom : Atom) data start a bytes :
  found_at atom data start -> atom.(atom_bytes) = a :: bytes -> get data (start + atom.(backtrack)) = Some a.
Proof.
  intros (H1 & H2 & E)%get_range_Some Hb. rewrite Hb, len_cons in *. pose proof (len_nonneg bytes).
  pose proof (get_slice data (start + atom.(backtrack)) (start + atom.(backtrack) + (1 + len bytes)) 0) as G.
  rewrite <- E, Z.add_0_r in G. by rewrite <- G by lia.
Qed.

Lemma found_key (atom : Atom) pattern data start :
  found_at atom data start -> atom.(atom_bytes) <> [] -> 0 <= atom.(backtrack) < len pattern ->
  exists a p, get atom.(atom_bytes) 0 = Some a /\ get pattern atom.(backtrack) = Some p /\
    get data (start + atom.(backtrack)) = Some a /\
    (forall key, has_at data start (xored key pattern) -> key = Z.lxor a p).
Proof.
  intros Hf Hne Hb. destruct (atom_bytes atom) as [|a bytes] eqn:Eb; [done|].
  destruct (get_is_Some pattern (backtrack atom) Hb) as [p Hp]. exists a, p.
  pose proof (found_first _ _ _ _ _ Hf Eb) as Ga. split_and!; [done..|].
  intros key Hk. set (i := backtrack atom) in *. assert (Hl : len (xored key pattern) = len pattern) by apply len_map.
  apply (has_at_slice _ _ _ i (i + 1)) in Hk; [|lia|lia]. apply get_range_Some in Hk as (H1 & H2 & E).
  pose proof (get_slice data (start + i) (start + (i + 1)) 0 ltac:(lia) ltac:(lia)) as G1.
  pose proof (get_slice (xored key pattern) i (i + 1) 0 ltac:(lia) ltac:(lia)) as G2.
  rewrite <- E, G2, !Z.add_0_r, Ga in G1. apply get_Some in G1 as [_ G1]. apply get_Some in Hp as [_ Hp].
  unfold xored in G1. rewrite list_lookup_fmap, Hp in G1. injection G1 as <-.
  by rewrite Z.lxor_comm, <- Z.lxor_assoc, Z.lxor_nilpotent, Z.lxor_0_l.
Qed.

(** C35: the verification of XORed literals: where an atom of the pattern was
    found it does not panic, and it returns a key exactly when the data has there
    the pattern XORed with that key as a full word, whatever the length of the
    pattern; no other key is possible. *)
Theorem verify_xor_exact (pattern data : list Z) (start : Z) (atom : Atom) (flags : Z) :
  Forall is_u8 pattern -> Forall is_u8 data -> 0 <= start -> atom.(atom_bytes) <> [] ->
  0 <= atom.(backtrack) < len pattern -> found_at atom data start ->
  exists r, verify_xor pattern data start atom flags = Ret r /\
    forall key, r = Some key <->
      has_at data start (xored key pattern) /\ is_full_word data start (start + len pattern) flags key = true.
Proof.
  intros Hp Hd H0 Hne Hb Hf. destruct (found_key _ _ _ _ Hf Hne Hb) as (a & p & Ga & Gp & Gd & Hkey).
  assert (Hl : forall key, len (xored key pattern) = len pattern) by (intros; apply len_map).
  unfold verify_xor. pose proof (len_nonneg pattern). destruct (len data <? start + len pattern) eqn:E; bools.
  { eexists. split; [done|]. intros key. split; [done|]. intros [(Hr & Hr' & _)%get_range_Some _]. rewrite Hl in *. lia. }
  rewrite (byte_at_Some _ _ _ Ga), (byte_at_Some _ _ _ Gp). cbn [mbind res_bind].
  rewrite verify_full_word_ok by lia. cbn [mbind res_bind default].
  set (k := Z.lxor a p) in *. assert (Hk : is_u8 k).
  { apply lxor_u8; [by apply (get_Forall _ _ _ _ Hd Gd)|by apply (get_Forall _ _ _ _ Hp Gp)]. }
  assert (Hr : get_range data start (start + len pattern) = Some (slice data start (start + len pattern))).
  { apply get_range_Some. split_and!; [lia..|done]. }
  assert (Hat : forall key, has_at data start (xored key pattern) <-> slice data start (start + len pattern) = xored key pattern).
  { intros key. unfold has_at. rewrite Hl, Hr. split; [by intros [=]|by intros ->]. }
  assert (Hx : forall c, pattern = xored k c <-> c = xored k pattern).
  { assert (Hinv : forall l, xored k (xored k l) = l).
    { intros l. unfold xored. rewrite <- list_fmap_compose. rewrite <- (list_fmap_id l) at 2. apply list_fmap_ext.
      intros _ b _. cbn. by rewrite Z.lxor_assoc, Z.lxor_nilpotent, Z.lxor_0_r. }
    intros c. split; [intros ->|intros ->]; by rewrite Hinv. }
  change (id k) with k. clearbody k. destruct (is_full_word _ _ _ _ k) eqn:Efw; cbn [negb].
  - unfold index_range. rewrite Hr. cbn [or_panic mbind res_bind]. set (c := slice data start (start + len pattern)) in *.
    assert (Hc : length pattern = length c) by (subst c; unfold len in *; unfold slice; rewrite length_take, length_drop; lia).
    exists (if bool_decide (pattern = xored k c) then Some k else None). split.
    + destruct (k =? 0) eqn:Ek; bools; [subst k; cbn [mbind res_bind]; by rewrite xored_0|].
      by rewrite xor_slices_spec by (done || by apply Forall_slice).
    + intros key. rewrite Hat. split.
      * case_bool_decide as Hb'; [|done]. intros [= <-]. split; [by apply Hx|done].
      * intros [Hc' _]. assert (key = k) as -> by (apply Hkey, Hat, Hc'). by rewrite bool_decide_eq_true_2 by (by apply Hx).
  - eexists. split; [done|]. intros key. split; [done|]. intros [Hc Hw]. apply Hkey in Hc as ->. congruence.
Qed.

Lemma verify_xor_exact_witness :
  exists r, verify_xor [0x66; 0x6f; 0x6f; 0x62; 0x61] [0; 0x65; 0x6c; 0x6c; 0x61; 0x62; 0x23] 1
      {| atom_bytes := [0x6c; 0x6c]; is_exact := false; backtrack := 1 |} FlagFullwordRight = Ret r /\ r = Some 3.
Proof.
  destruct (verify_xor_exact [0x66; 0x6f; 0x6f; 0x62; 0x61] [0; 0x65; 0x6c; 0x6c; 0x61; 0x62; 0x23] 1
    {| atom_bytes := [0x6c; 0x6c]; is_exact := false; backtrack := 1 |} FlagFullwordRight) as (r & E & H).
  - repeat constructor; unfold is_u8; lia.
  - repeat constructor; unfold is_u8; lia.
  - lia.
  - discriminate.
  - split; [discriminate|reflexivity].
  - reflexivity.
  - exists r. split; [exact E|]. apply (H 3). split; reflexivity.
Defined.
