(* ===== verification/Base64.v ===== *)
(** Patterns with the modifiers [base64] and [base64wide]: the strings that are
    searched, from [lib/src/compiler/base64.rs], and the verification of their
    hits, from [lib/src/scanner/context.rs]. *)

From S2P Require Import Prelude.

(** * The crate [base64] *)

(** The groups of six bits of a sequence of bytes, as in RFC 4648; the last group
    is filled with zeros. *)
Fixpoint sextets (l : list Z) : list Z :=
  match l with
  | a :: b :: c :: l =>
      a / 4 :: (a mod 4) * 16 + b / 16 :: (b mod 16) * 4 + c / 64 :: c mod 64 :: sextets l
  | [a; b] => [a / 4; (a mod 4) * 16 + b / 16; (b mod 16) * 4]
  | [a] => [a / 4; (a mod 4) * 16]
  | [] => []
  end.

(** [GeneralPurpose] engines without padding: the standard one, and those of the
    alphabets that [Alphabet::new] accepts. [encode] gives the text that
    [encode_slice] writes to its buffer, [decode] the bytes that [decode_slice]
    writes, if the text is valid. *)
Class Base64 (E : Type) := {
  STANDARD_NO_PAD : E;
  engine_of_alphabet : list Z -> option E;
  encoded_len : Z -> bool -> option Z;
  encode : E -> list Z -> list Z;
  decode : E -> list Z -> option (list Z);
}.

Definition pad : Z := 61.

(** The length of the text for [n] bytes, without padding. *)
Definition unpadded_len (n : Z) : Z := 4 * (n / 3) + (if n mod 3 =? 0 then 0 else n mod 3 + 1).

Class Base64Laws (E : Type) `{Base64 E} := {
  alphabet : E -> Z -> Z;
  alphabet_spec e i : 0 <= i < 64 -> is_u8 (alphabet e i) /\ alphabet e i <> pad;
  encoded_len_spec n m : encoded_len n false = Some m -> 0 <= n -> m = unpadded_len n;
  encoded_len_total n : 0 <= n < Z.shiftl 1 62 -> is_Some (encoded_len n false);
  encode_spec e l : Forall is_u8 l -> encode e l = alphabet e <$> sextets l;
  decode_encode e l : Forall is_u8 l -> decode e (encode e l) = Some l;
  decode_spec e t l : decode e t = Some l -> t = encode e l /\ Forall is_u8 l;
}.

Section Base64.
Context {E : Type} {B64 : Base64 E}.

(** * The patterns *)

(** [encode_slice] into a buffer of [n] bytes. *)
Definition encode_slice (e : E) (input : list Z) (n : Z) : res (list Z) :=
  let text := encode e input in _ ← assert (len text <=? n); Ret text.

(** An iteration; the state has the length of the buffer and the patterns. *)
Definition base64_step (e : E) (pattern : list Z) (i : Z) (st : Z * list (Z * list Z)) : res (Z * list (Z * list Z)) :=
  pattern ← index_range pattern i (len pattern);
  buf ← encode_slice e pattern (fst st);
  let base64_len := len buf in
  let right_trim := if len pattern mod 3 =? 0 then 0 else 1 in
  _ ← assert (right_trim <=? base64_len);
  let start := if i =? 0 then 3 else if i =? 1 then 2 else 0 in
  base64_pattern ← index_range buf start (base64_len - right_trim);
  Ret (base64_len, snd st ++ [(2 - i, base64_pattern)]).

Definition base64_patterns (s : list Z) (alphabet : option (list Z)) : res (list (Z * list Z)) :=
  _ ← assert (1 <? len s);
  e ← or_panic (match alphabet with None => Some STANDARD_NO_PAD | Some a => engine_of_alphabet a end);
  let pattern := [88; 88] ++ s in
  n ← or_panic (encoded_len (len pattern) false);
  '(_, patterns) ← for_each [0; 1; 2] (base64_step e pattern) (n, []);
  Ret patterns.

(** * The verification of a hit *)

(** Where the decoding starts and its length, and the length of the match. *)
Definition base64_deltas (padding n : Z) : res (Z * Z * Z) :=
  let rest := n mod 4 in
  if padding =? 0 then
    if rest =? 0 then Ret (0, n, n) else if rest =? 2 then Ret (0, n + 2, n - 1)
    else if rest =? 3 then Ret (0, n + 1, n - 1) else Panic
  else if padding =? 1 then
    if rest =? 0 then Ret (2, n + 4, n - 1) else if rest =? 2 then Ret (2, n + 2, n - 2)
    else if rest =? 3 then Ret (2, n + 1, n - 1) else Panic
  else if padding =? 2 then
    if rest =? 0 then Ret (3, n + 4, n - 1) else if rest =? 2 then Ret (3, n + 2, n - 1)
    else if rest =? 3 then Ret (3, n + 5, n - 1) else Panic
  else Panic.

(** The loop that collects the characters of a wide text. *)
Fixpoint wide_chars (l : list Z) : option (list Z) :=
  match l with
  | [] => Some []
  | [b] => Some (if b =? pad then [] else [b])
  | b :: z :: l => if z =? 0 then app (if b =? pad then [] else [b]) <$> wide_chars l else None
  end.

Definition ends_with (l suffix : list Z) : bool :=
  bool_decide (drop (length l - length suffix) l = suffix) && (length suffix <=? length l)%nat.

(** The padding at the end is removed. *)
Definition strip_padding (s : list Z) : list Z :=
  if ends_with s [pad; pad] then slice_to s (saturating_sub (len s) 2)
  else if ends_with s [pad] then slice_to s (saturating_sub (len s) 1)
  else s.

Definition verify_base64 (pattern scanned_data : list Z) (padding match_start : Z) (base64_engine : E) (wide : bool)
  : res (option (Z * Z)) :=
  match encoded_len (len pattern) false with
  | None => Ret None
  | Some n =>
      '(decode_start_delta, decode_len, match_len) ← base64_deltas padding n;
      let k := if wide then 2 else 1 in
      let decode_start_delta := decode_start_delta * k in
      let decode_len := decode_len * k in
      let match_len := match_len * k in
      if match_start <? decode_start_delta then Ret None
      else
        let decode_start := match_start - decode_start_delta in
        let decode_end := Z.min (decode_start + decode_len) (len scanned_data) in
        s ← index_range scanned_data decode_start decode_end;
        Ret (encoded ← (if wide then wide_chars s else Some (strip_padding s));
             decoded ← decode base64_engine encoded;
             decoded_pattern ← get_range decoded padding (padding + len pattern);
             if bool_decide (pattern = decoded_pattern) then Some (match_start, match_start + match_len) else None)
  end.
End Base64.
