(* ===== verification/Base64Props.v ===== *)
(** The verification of base64 patterns finds every occurrence of the string
    within base64 text, narrow or wide, and only such occurrences. *)

From S2P Require Import Prelude.
From S2P Require Import Atoms.
From S2P Require Import Base64.

(** [lia] with divisions by constants. *)
Ltac div_lia := Z.to_euclidean_division_equations; lia.

(** Case analysis on the comparisons of the goal. *)
Ltac cases_ltb := repeat match goal with |- context [?x <? ?y] => destruct (x <? y) eqn:? end; bools.

(** * Groups of six bits *)

Lemma triples_ind (P : list Z -> Prop) :
  P [] -> (forall a, P [a]) -> (forall a b, P [a; b]) -> (forall a b c l, P l -> P (a :: b :: c :: l)) -> forall l, P l.
Proof.
  intros H0 H1 H2 H3. fix IH 1. intros [|a [|b [|c l]]]; [apply H0|apply H1|apply H2|apply H3, IH].
Qed.

Lemma len_app3 (l : list Z) a b c : len (a :: b :: c :: l) = 3 + len l.
Proof. rewrite !len_cons. lia. Qed.

Lemma unpadded_len_3 n : 0 <= n -> unpadded_len (3 + n) = 4 + unpadded_len n.
Proof.
  intros H. unfold unpadded_len. rewrite (Z.add_comm 3 n). change 3 with (1 * 3) at 1 3 5.
  rewrite Z.div_add, Z.mod_add by lia. lia.
Qed.

Lemma unpadded_len_alt n : unpadded_len n = (4 * n + 2) / 3.
Proof. unfold unpadded_len. destruct (_ =? 0) eqn:E; bools; div_lia. Qed.

Lemma unpadded_len_app (x s y : list Z) : len y <= len x -> unpadded_len (len (y ++ s)) <= unpadded_len (len (x ++ s)).
Proof. rewrite !len_app, !unpadded_len_alt. intros Hl. apply Z.div_le_mono; lia. Qed.

Lemma len_sextets l : len (sextets l) = unpadded_len (len l).
Proof.
  induction l as [|a|a b|a b c l IH] using triples_ind; [done..|]. cbn [sextets].
  rewrite (len_app3 l), unpadded_len_3 by apply len_nonneg. rewrite !len_cons, IH. lia.
Qed.

Lemma sextets_app a b : len a mod 3 = 0 -> sextets (a ++ b) = sextets a ++ sextets b.
Proof.
  induction a as [| | |x y z a IH] using triples_ind; [done..|]. rewrite len_app3. intros H.
  cbn [app sextets]. rewrite IH; [done|]. rewrite Z.add_comm in H. change 3 with (1 * 3) in H at 1. by rewrite Z.mod_add in H.
Qed.

Lemma sextets_range l : Forall is_u8 l -> Forall (fun i => 0 <= i < 64) (sextets l).
Proof.
  induction l as [|a|a b|a b c l IH] using triples_ind; cbn [sextets]; intros H;
    repeat (apply Forall_cons in H as [? H]); unfold is_u8 in *; repeat (apply Forall_cons_2; [div_lia|]); try apply Forall_nil; auto.
Qed.

(** What follows a string changes only its last group, if it is not complete. *)
Definition right_trim (n : Z) : Z := if n mod 3 =? 0 then 0 else 1.

Lemma right_trim_3 n : right_trim (3 + n) = right_trim n.
Proof. unfold right_trim. rewrite (Z.add_comm 3 n). change 3 with (1 * 3) at 1. by rewrite Z.mod_add. Qed.

Lemma sextets_prefix t post :
  slice_to (sextets (t ++ post)) (unpadded_len (len t) - right_trim (len t)) =
  slice_to (sextets t) (unpadded_len (len t) - right_trim (len t)).
Proof.
  unfold slice_to. induction t as [|a|a b|a b c t IH] using triples_ind.
  - change (unpadded_len (len []) - right_trim (len [])) with 0. done.
  - change (unpadded_len (len [a]) - right_trim (len [a])) with 1. by destruct post as [|? [|? post]].
  - change (unpadded_len (len [a; b]) - right_trim (len [a; b])) with 2. by destruct post.
  - rewrite len_app3, unpadded_len_3, right_trim_3 by apply len_nonneg.
    assert (0 <= unpadded_len (len t) - right_trim (len t)).
    { pose proof (len_nonneg t). unfold unpadded_len, right_trim. destruct (len t mod 3 =? 0) eqn:E; bools; div_lia. }
    replace (Z.to_nat (4 + unpadded_len (len t) - right_trim (len t)))
      with (4 + Z.to_nat (unpadded_len (len t) - right_trim (len t)))%nat by lia.
    cbn [app sextets Nat.add take]. by rewrite IH.
Qed.

(** The groups that depend on the bytes before the string. *)
Definition left_trim (p : Z) : Z := if p =? 0 then 0 else if p =? 1 then 2 else 3.

Lemma sextets_suffix x y s :
  length x = length y -> (length x < 3)%nat -> 2 <= len s ->
  slice_from (sextets (x ++ s)) (left_trim (len x)) = slice_from (sextets (y ++ s)) (left_trim (len x)).
Proof.
  intros Hl H3 H2. destruct s as [|b [|c s]]; [by cbn in H2..|]. clear H2.
  destruct x as [|x1 [|x2 [|x3 x]]], y as [|y1 [|y2 [|y3 y]]]; cbn [length] in *; by try lia.
Qed.

(** * The text of a string after [p] other bytes *)

Section Text.
Context {E : Type} `{Base64Laws E} {IT : Itertools} {ITL : ItertoolsLaws}.

(** The characters that depend on the string only, after [x]. *)
Definition inner_text (e : E) (x s : list Z) : list Z :=
  slice (encode e (x ++ s)) (left_trim (len x)) (len (encode e (x ++ s)) - right_trim (len (x ++ s))).

(** Their number. *)
Definition text_len (p n : Z) : Z := unpadded_len (p + n) - right_trim (p + n) - left_trim p.

Lemma len_encode e l : Forall is_u8 l -> len (encode e l) = unpadded_len (len l).
Proof. intros Hl. by rewrite encode_spec, len_map, len_sextets. Qed.

Lemma encode_app e a b :
  Forall is_u8 a -> Forall is_u8 b -> len a mod 3 = 0 -> encode e (a ++ b) = encode e a ++ encode e b.
Proof. intros Ha Hb Hm. rewrite !encode_spec, sextets_app, fmap_app by (done || by apply Forall_app). done. Qed.

Lemma text_len_bounds p n :
  0 <= p < 3 -> 2 <= n -> 0 <= left_trim p /\ 1 <= text_len p n /\ 0 <= right_trim (p + n) <= 1.
Proof.
  intros Hp Hn. unfold text_len, unpadded_len, right_trim, left_trim.
  assert (p = 0 \/ p = 1 \/ p = 2) as [->|[->| ->]] by lia; cbn [Z.eqb Pos.eqb];
    destruct (_ =? 0) eqn:Em; bools; div_lia.
Qed.

Lemma inner_text_spec e x y s post :
  Forall is_u8 x -> Forall is_u8 y -> Forall is_u8 s -> Forall is_u8 post ->
  length x = length y -> (length x < 3)%nat -> 2 <= len s ->
  slice (encode e (y ++ s ++ post)) (left_trim (len x)) (left_trim (len x) + text_len (len x) (len s)) = inner_text e x s /\
  len (inner_text e x s) = text_len (len x) (len s).
Proof.
  intros Hx Hy Hs Hpost Hl H3 H2. unfold inner_text. rewrite len_encode by (by apply Forall_app).
  assert (Hlx : len y = len x) by (unfold len; lia). assert (Hp : 0 <= len x < 3) by (unfold len; lia).
  destruct (text_len_bounds (len x) (len s) Hp H2) as (B1 & B2 & B3).
  assert (Hr : left_trim (len x) + text_len (len x) (len s) = unpadded_len (len (x ++ s)) - right_trim (len (x ++ s))).
  { rewrite len_app. unfold text_len. lia. }
  split.
  2: { rewrite len_slice; [lia|lia|]. rewrite len_encode by (by apply Forall_app). rewrite len_app in *. lia. }
  rewrite Hr, app_assoc, !encode_spec by (repeat apply Forall_app_2; done). rewrite !slice_fmap. f_equal.
  set (M := unpadded_len (len (x ++ s)) - right_trim (len (x ++ s))) in *.
  assert (HM : M = unpadded_len (len (y ++ s)) - right_trim (len (y ++ s))) by (subst M; by rewrite !len_app, Hlx).
  rewrite <- (slice_from_to (sextets ((y ++ s) ++ post))) by lia. rewrite HM, sextets_prefix, <- HM, slice_from_to by lia.
  replace M with (left_trim (len x) + (M - left_trim (len x))) by lia. rewrite <- !slice_to_from by lia. f_equal.
  symmetry. by apply sextets_suffix.
Qed.

Lemma index_from {A} (l : list A) i : 0 <= i <= len l -> index_range l i (len l) = Ret (slice_from l i).
Proof.
  intros Hi. unfold index_range, get_range. rewrite !(proj2 (Z.leb_le _ _)) by lia. cbn [andb or_panic]. f_equal.
  rewrite <- slice_from_to by lia. by rewrite slice_to_all.
Qed.

Lemma index_range_ok {A} (l : list A) a b : 0 <= a -> a <= b -> b <= len l -> index_range l a b = Ret (slice l a b).
Proof. intros. unfold index_range, get_range. by rewrite !(proj2 (Z.leb_le _ _)) by lia. Qed.

Lemma base64_step_spec e pattern i x s n acc :
  0 <= i <= len pattern -> slice_from pattern i = x ++ s -> left_trim (len x) = (if i =? 0 then 3 else if i =? 1 then 2 else 0) ->
  len x < 3 -> 2 <= len s -> Forall is_u8 (x ++ s) -> unpadded_len (len (x ++ s)) <= n ->
  base64_step e pattern i (n, acc) = Ret (unpadded_len (len (x ++ s)), acc ++ [(2 - i, inner_text e x s)]).
Proof.
  intros Hi Hx Hlt H3 H2 Hu Hn. unfold base64_step. rewrite index_from, Hx by done. cbn [mbind res_bind fst snd].
  unfold encode_slice. rewrite len_encode by done. rewrite (proj2 (Z.leb_le _ _)) by lia. cbn [assert mbind res_bind].
  rewrite len_encode by done. unfold inner_text, right_trim. rewrite len_encode by done. rewrite <- Hlt.
  assert (Hp : 0 <= len x < 3) by (pose proof (len_nonneg x); lia).
  pose proof (text_len_bounds (len x) (len s) Hp H2) as (B1 & B2 & B3). unfold text_len, right_trim in *.
  rewrite len_app in *. destruct (_ =? 0) eqn:Em; rewrite (proj2 (Z.leb_le _ _)) by lia; cbn [assert mbind res_bind];
    (rewrite index_range_ok; [done|lia|lia|]); rewrite len_encode, len_app by done; lia.
Qed.

(** The engine for the alphabet of a pattern. *)
Definition engine (a : option (list Z)) : option E :=
  match a with None => Some STANDARD_NO_PAD | Some a => engine_of_alphabet a end.

Lemma base64_patterns_spec s a e :
  2 <= len s < Z.shiftl 1 61 -> Forall is_u8 s -> engine a = Some e ->
  base64_patterns s a = Ret [(2, inner_text e [88; 88] s); (1, inner_text e [88] s); (0, inner_text e [] s)].
Proof.
  intros Hl Hs He. unfold base64_patterns. rewrite (proj2 (Z.ltb_lt _ _)) by lia. cbn [assert mbind res_bind].
  unfold engine in He. rewrite He. cbn [or_panic mbind res_bind].
  assert (Hls : len ([88; 88] ++ s) = 2 + len s) by (rewrite len_app; done).
  destruct (encoded_len_total (len ([88; 88] ++ s))) as [n En]; [rewrite Hls; change (Z.shiftl 1 62) with 4611686018427387904;
    change (Z.shiftl 1 61) with 2305843009213693952 in Hl; lia|].
  apply encoded_len_spec in En as Hn; [|rewrite Hls; lia]. rewrite En. cbn [or_panic mbind res_bind].
  assert (Hu : Forall is_u8 ([88; 88] ++ s)) by (apply Forall_app_2; [repeat constructor; unfold is_u8; lia|done]).
  assert (Hu1 : Forall is_u8 ([88] ++ s)) by (by inversion Hu). pose proof (proj1 Hl) as H2.
  cbn [for_each]. rewrite (base64_step_spec e _ 0 [88; 88] s) by (done || lia). cbn [mbind res_bind].
  rewrite (base64_step_spec e _ 1 [88] s); [|lia|done..|by apply unpadded_len_app]. cbn [mbind res_bind].
  rewrite (base64_step_spec e _ 2 [] s); [done|lia|done..|by apply (unpadded_len_app [88])].
Qed.

(** * The window that is decoded *)

(** Text with padding up to a multiple of four characters. *)
Definition pads (n : Z) : Z := if n mod 3 =? 0 then 0 else 3 - n mod 3.
Definition padded_encode (e : E) (l : list Z) : list Z := encode e l ++ replicate (Z.to_nat (pads (len l))) pad.

Lemma len_padded e l : Forall is_u8 l -> len (padded_encode e l) = 4 * ((len l + 2) / 3).
Proof.
  intros Hl. unfold padded_encode. rewrite len_app, len_encode by done. unfold len at 2. rewrite length_replicate.
  unfold pads, unpadded_len. destruct (_ =? 0) eqn:Em; bools; div_lia.
Qed.

Lemma padded_app e a b :
  Forall is_u8 a -> Forall is_u8 b -> len a mod 3 = 0 -> padded_encode e (a ++ b) = encode e a ++ padded_encode e b.
Proof.
  intros Ha Hb Hm. unfold padded_encode. rewrite encode_app, <- app_assoc by done. do 4 f_equal.
  unfold pads. rewrite len_app, <- Z.add_mod_idemp_l, Hm by lia. done.
Qed.

Lemma encode_no_pad e l : Forall is_u8 l -> Forall (fun b => b <> pad) (encode e l).
Proof.
  intros Hl. rewrite encode_spec, Forall_fmap by done. eapply Forall_impl; [by apply sextets_range|].
  intros i Hi. by apply alphabet_spec.
Qed.

Lemma ends_with_app a b suffix : length b = length suffix -> ends_with (a ++ b) suffix = bool_decide (b = suffix).
Proof.
  intros Hl. unfold ends_with. rewrite length_app, Hl, Nat.add_sub, drop_app_length.
  rewrite (proj2 (Nat.leb_le _ _)) by lia. apply andb_true_r.
Qed.

Lemma slice_to_sub {A} (a b : list A) n : n = len b -> slice_to (a ++ b) (saturating_sub (len (a ++ b)) n) = a.
Proof.
  intros ->. unfold saturating_sub. rewrite len_app, Z.add_simpl_r, Z.max_r by apply len_nonneg. apply slice_to_app.
Qed.

Lemma last_two {A} (l : list A) : 2 <= len l -> exists l' x y, l = l' ++ [x; y].
Proof.
  intros Hl. destruct l as [|y l' _] using rev_ind; [done|]. destruct l' as [|x l _] using rev_ind; [done|].
  exists l, x, y. by rewrite <- app_assoc.
Qed.

Lemma strip_padded e c : Forall is_u8 c -> c <> [] -> strip_padding (padded_encode e c) = encode e c.
Proof.
  intros Hc Hne. pose proof (encode_no_pad e c Hc) as Hp. pose proof (len_encode e c Hc) as Hl.
  assert (Hlc : 1 <= len c) by (destruct c; [done|]; rewrite len_cons; pose proof (len_nonneg c); lia).
  destruct (last_two (encode e c)) as (t & v & u & Et).
  { rewrite Hl, unpadded_len_alt. div_lia. }
  unfold padded_encode. rewrite Et in Hp |- *. apply Forall_app in Hp as [_ Hp]. apply Forall_cons in Hp as [Hv Hp].
  apply Forall_cons in Hp as [Hu _]. cbn beta in Hu. assert (Hk : pads (len c) = 0 \/ pads (len c) = 1 \/ pads (len c) = 2).
  { unfold pads. destruct (_ =? 0) eqn:Em; bools; div_lia. }
  unfold strip_padding. destruct Hk as [-> |[-> | ->]].
  - change (replicate _ _) with (@nil Z). rewrite app_nil_r, ends_with_app, bool_decide_eq_false_2 by (done || congruence).
    change (t ++ [v; u]) with (t ++ ([v] ++ [u])). rewrite app_assoc, ends_with_app, bool_decide_eq_false_2 by (done || congruence). done.
  - change (replicate _ _) with [pad]. replace ((t ++ [v; u]) ++ [pad]) with ((t ++ [v]) ++ [u; pad]) by (by rewrite <- !app_assoc).
    rewrite ends_with_app, bool_decide_eq_false_2 by (done || congruence).
    replace ((t ++ [v]) ++ [u; pad]) with ((t ++ [v; u]) ++ [pad]) by (by rewrite <- !app_assoc).
    rewrite ends_with_app, bool_decide_eq_true_2 by done. by apply slice_to_sub.
  - change (replicate _ _) with [pad; pad]. rewrite ends_with_app, bool_decide_eq_true_2 by done. by apply slice_to_sub.
Qed.

(** Narrow or wide text. *)
Definition form (wide : bool) (t : list Z) : list Z := if wide then make_wide t else t.

Lemma len_form wide t : len (form wide t) = (if wide then 2 else 1) * len t.
Proof. destruct wide; cbn [form]; [|lia]. by rewrite make_wide_spec, len_wide. Qed.

Lemma form_app wide a b : form wide (a ++ b) = form wide a ++ form wide b.
Proof. destruct wide; [|done]. cbn [form]. rewrite !make_wide_spec. apply bind_app. Qed.

Lemma wide_chars_make_wide t : wide_chars (make_wide t) = Some (filter (fun b => b <> pad) t).
Proof.
  rewrite make_wide_spec. induction t as [|b t IH]; [done|].
  change (b ← b :: t; [b; 0]) with (b :: 0 :: (b ← t; [b; 0])). cbn [wide_chars Z.eqb]. rewrite IH, filter_cons.
  destruct (b =? pad) eqn:Eb; bools; case_decide; done.
Qed.

Lemma chars_of_window e c wide :
  Forall is_u8 c -> c <> [] ->
  (if wide : bool then wide_chars (form wide (padded_encode e c)) else Some (strip_padding (form wide (padded_encode e c)))) =
  Some (encode e c).
Proof.
  intros Hc Hne. destruct wide; cbn [form].
  - rewrite wide_chars_make_wide. unfold padded_encode. rewrite filter_app. f_equal.
    rewrite filter_all by (by apply encode_no_pad). rewrite filter_none; [apply app_nil_r|].
    apply Forall_replicate. intros H1. by apply H1.
  - by rewrite strip_padded.
Qed.

Lemma Ret_triple {A B C} (a a' : A) (b b' : B) (c c' : C) : a = a' -> b = b' -> c = c' -> Ret (a, b, c) = Ret (a', b', c').
Proof. by intros -> -> ->. Qed.

Lemma base64_deltas_spec p n :
  0 <= p < 3 -> 2 <= n -> base64_deltas p (unpadded_len n) = Ret (left_trim p, 4 * ((p + n + 2) / 3), text_len p n).
Proof.
  intros Hp Hn. unfold base64_deltas, text_len, left_trim, right_trim.
  assert (Hr : n mod 3 = 0 \/ n mod 3 = 1 \/ n mod 3 = 2) by div_lia.
  assert (Hm : unpadded_len n mod 4 = (if n mod 3 =? 0 then 0 else n mod 3 + 1)).
  { unfold unpadded_len. rewrite Z.mul_comm, Z.add_comm, Z.mod_add by lia. destruct Hr as [-> |[-> | ->]]; done. }
  rewrite Hm, !unpadded_len_alt.
  assert (p = 0 \/ p = 1 \/ p = 2) as [-> |[-> | ->]] by lia; destruct Hr as [Hr|[Hr|Hr]]; rewrite Hr;
    cbn [Z.eqb Pos.eqb Z.add Pos.add Pos.succ];
    apply Ret_triple; repeat (destruct (_ =? 0) eqn:?; bools); div_lia.
Qed.

(** * Occurrences *)

Lemma Forall_u8_sub (P : Z -> Prop) (l : list Z) n : Forall P l -> Forall P (take n l) /\ Forall P (drop n l).
Proof. split; [by apply Forall_take|by apply Forall_drop]. Qed.

Lemma slices_split {A} (l : list A) a b : 0 <= a <= b -> slice_to l a ++ slice l a b ++ slice_from l b = l.
Proof.
  intros Hab. unfold slice_to, slice, slice_from. replace (Z.to_nat b) with (Z.to_nat a + Z.to_nat (b - a))%nat by lia.
  by rewrite <- drop_drop, !take_drop.
Qed.

(** A text is split at the group where the string starts and at the end of the
    last group that has part of it. *)
Lemma padded_window e pre s post :
  Forall is_u8 pre -> Forall is_u8 s -> Forall is_u8 post -> 2 <= len s ->
  exists before x c after, len before = 4 * (len pre / 3) /\ len x = len pre mod 3 /\ Forall is_u8 x /\ Forall is_u8 c /\
    c <> [] /\ padded_encode e (pre ++ s ++ post) = before ++ padded_encode e c ++ after /\
    len (padded_encode e c) = 4 * ((len x + len s + 2) / 3) /\
    exists post', Forall is_u8 post' /\ c = x ++ s ++ post'.
Proof.
  intros Hpre Hs Hpost H2. set (a := Z.to_nat (3 * (len pre / 3))). destruct (Forall_u8_sub is_u8 pre a Hpre) as [Ha Hx].
  set (x := drop a pre) in *. pose proof (len_nonneg pre). pose proof (len_nonneg post).
  assert (Hla : len (take a pre) = 3 * (len pre / 3)) by (subst a; unfold len in *; rewrite length_take; div_lia).
  assert (Hlx : len x = len pre mod 3) by (subst x a; unfold len in *; rewrite length_drop; div_lia).
  assert (Hbx : 0 <= len x < 3) by (rewrite Hlx; div_lia).
  set (q := Z.to_nat (3 * ((len x + len s + 2) / 3) - len x - len s)).
  destruct (Forall_u8_sub is_u8 post q Hpost) as [Hq Hr].
  exists (encode e (take a pre)), x, (x ++ s ++ take q post).
  set (c := x ++ s ++ take q post). assert (Hc : Forall is_u8 c) by (repeat apply Forall_app_2; done).
  assert (Hlc : len c = len x + len s + Z.min (Z.of_nat q) (len post)).
  { subst c. rewrite !len_app. unfold len. rewrite length_take. lia. }
  assert (E1 : padded_encode e (pre ++ s ++ post) = encode e (take a pre) ++ padded_encode e (x ++ s ++ post)).
  { rewrite <- (take_drop a pre) at 1. rewrite <- app_assoc. apply padded_app; [done|by repeat apply Forall_app_2|].
    rewrite Hla. div_lia. }
  rewrite E1. assert (Hall : exists after, padded_encode e (x ++ s ++ post) = padded_encode e c ++ after).
  { destruct (decide (Z.of_nat q <= len post)) as [Hle|Hgt].
    - exists (padded_encode e (drop q post)). replace (x ++ s ++ post) with (c ++ drop q post).
      2: { subst c. by rewrite <- !app_assoc, take_drop. }
      assert (Hm : len c mod 3 = 0) by (rewrite Hlc; subst q; div_lia).
      rewrite padded_app by done. f_equal. unfold padded_encode, pads. rewrite Hm. by rewrite app_nil_r.
    - exists []. subst c. rewrite take_ge by (unfold len in Hgt; lia). by rewrite app_nil_r. }
  destruct Hall as [after ->]. exists after. split_and!; try done.
  - rewrite len_encode, Hla by done. unfold unpadded_len. destruct (_ =? 0) eqn:Em; bools; div_lia.
  - destruct c eqn:Ec; [|done]. rewrite len_nil in Hlc. lia.
  - rewrite len_padded, Hlc by done. subst q. div_lia.
  - by exists (take q post).
Qed.

Lemma inner_text_eq e x y s :
  Forall is_u8 x -> Forall is_u8 y -> Forall is_u8 s -> length x = length y -> (length x < 3)%nat -> 2 <= len s ->
  inner_text e x s = inner_text e y s.
Proof.
  intros Hx Hy Hs Hl H3 H2. destruct (inner_text_spec e x y s [] Hx Hy Hs (Forall_nil_2 _) Hl H3 H2) as [<- _].
  destruct (inner_text_spec e y y s [] Hy Hy Hs (Forall_nil_2 _) eq_refl ltac:(lia) H2) as [<- _].
  replace (len y) with (len x) by (unfold len; lia). done.
Qed.

(** The text searched for a string after [p] bytes. *)
Definition searched (e : E) (p : Z) (s : list Z) : list Z := inner_text e (replicate (Z.to_nat p) 88) s.

Lemma searched_in_patterns e a s p :
  2 <= len s < Z.shiftl 1 61 -> Forall is_u8 s -> engine a = Some e -> 0 <= p < 3 ->
  exists patterns, base64_patterns s a = Ret patterns /\ (p, searched e p s) ∈ patterns.
Proof.
  intros Hl Hs He Hp. rewrite (base64_patterns_spec s a e) by done. eexists. split; [done|]. unfold searched.
  assert (p = 0 \/ p = 1 \/ p = 2) as [-> |[-> | ->]] by lia; set_solver.
Qed.

Lemma Forall_88 n : Forall is_u8 (replicate n 88).
Proof. apply Forall_replicate. unfold is_u8. lia. Qed.

Lemma has_at_mid l t r : has_at (l ++ t ++ r) (len l) t.
Proof. unfold has_at. by apply get_range_mid. Qed.

Lemma padded_has_text e x s post :
  Forall is_u8 x -> Forall is_u8 s -> Forall is_u8 post -> len x < 3 -> 2 <= len s ->
  exists l r, padded_encode e (x ++ s ++ post) = l ++ searched e (len x) s ++ r /\ len l = left_trim (len x).
Proof.
  intros Hx Hs Hp H3 H2. unfold searched. pose proof (len_nonneg x) as H0x.
  assert (Hlr : length (replicate (Z.to_nat (len x)) 88) = length x) by (rewrite length_replicate; unfold len; lia).
  destruct (inner_text_spec e _ x s post (Forall_88 _) Hx Hs Hp Hlr) as [E1 E2]; [unfold len in *; lia|done|].
  assert (Hlen : len (replicate (Z.to_nat (len x)) 88) = len x) by (unfold len in *; by rewrite Hlr).
  rewrite Hlen in *. destruct (text_len_bounds (len x) (len s)) as (B1 & B2 & B3); [lia|done|].
  set (a := left_trim (len x)) in *. set (n := text_len (len x) (len s)) in *.
  assert (Hle : a + n <= len (encode e (x ++ s ++ post))).
  { rewrite len_encode by (by repeat apply Forall_app_2). rewrite !len_app. subst a n. unfold text_len. rewrite !unpadded_len_alt.
    pose proof (len_nonneg post). unfold text_len in B2. div_lia. }
  exists (slice_to (encode e (x ++ s ++ post)) a), (slice_from (encode e (x ++ s ++ post)) (a + n) ++
    replicate (Z.to_nat (pads (len (x ++ s ++ post)))) pad). split.
  - rewrite <- E1. unfold padded_encode. rewrite <- (slices_split (encode e (x ++ s ++ post)) a (a + n)) at 1 by lia.
    by rewrite <- !app_assoc.
  - apply len_slice_to. lia.
Qed.

Definition at_of (before : Z) (wide : bool) (pre : list Z) : Z :=
  before + (if wide then 2 else 1) * (4 * (len pre / 3) + left_trim (len pre mod 3)).

Lemma base64_found e pre s post l r (wide : bool) :
  2 <= len s < Z.shiftl 1 61 -> Forall is_u8 pre -> Forall is_u8 s -> Forall is_u8 post ->
  let data := l ++ form wide (padded_encode e (pre ++ s ++ post)) ++ r in
  let text := form wide (searched e (len pre mod 3) s) in
  let start := at_of (len l) wide pre in
  has_at data start text /\ verify_base64 s data (len pre mod 3) start e wide = Ret (Some (start, start + len text)).
Proof.
  intros Hl Hpre Hs Hpost. cbn zeta.
  destruct (padded_window e pre s post Hpre Hs Hpost (proj1 Hl)) as (before & x & c & after & Hb & Hx & Hxu & Hcu & Hne & -> & Hlc & post' & Hp' & Ec).
  assert (Hbx : 0 <= len x < 3) by (rewrite Hx; div_lia). rewrite <- Hx in *. unfold at_of. rewrite <- Hx.
  destruct (padded_has_text e x s post' Hxu Hs Hp' (proj2 Hbx) (proj1 Hl)) as (l1 & r1 & Et & Hl1). rewrite <- Ec in Et.
  set (k := if wide then 2 else 1). assert (Hk : 1 <= k) by (subst k; by destruct wide).
  assert (Hlen : forall t, len (form wide t) = k * len t) by (intros; apply len_form).
  pose proof (len_nonneg l). pose proof (len_nonneg before). pose proof (len_nonneg after). pose proof (len_nonneg r).
  destruct (text_len_bounds (len x) (len s) Hbx (proj1 Hl)) as (B1 & B2 & B3).
  assert (Htext : len (searched e (len x) s) = text_len (len x) (len s)).
  { unfold searched. assert (Hr : length (replicate (Z.to_nat (len x)) 88) = length x) by (rewrite length_replicate; unfold len; lia).
    destruct (inner_text_spec e _ x s [] (Forall_88 _) Hxu Hs (Forall_nil_2 _) Hr ltac:(unfold len in *; lia) (proj1 Hl)) as [_ ->].
    unfold len at 1. rewrite Hr. done. }
  split.
  - rewrite Et, !form_app. rewrite <- !app_assoc. rewrite (app_assoc l), (app_assoc (l ++ _)). unfold has_at.
    apply get_range_mid; rewrite !len_app, !Hlen; lia.
  - unfold verify_base64. destruct (encoded_len_total (len s)) as [n En].
    { change (Z.shiftl 1 62) with 4611686018427387904. change (Z.shiftl 1 61) with 2305843009213693952 in Hl. lia. }
    rewrite En. apply encoded_len_spec in En; [|lia]. subst n. rewrite base64_deltas_spec by lia. cbn [mbind res_bind].
    fold k. rewrite (proj2 (Z.ltb_ge _ _)) by nia. rewrite !form_app, <- !app_assoc, (app_assoc l).
    set (start := len l + k * (4 * (len pre / 3) + left_trim (len x)) - left_trim (len x) * k).
    assert (Hstart : start = len (l ++ form wide before)) by (subst start; rewrite len_app, Hlen; nia).
    rewrite Z.min_l by (rewrite !len_app, !Hlen in *; nia). unfold index_range.
    rewrite (get_range_mid _ (form wide (padded_encode e c))) by (rewrite ?Hlen; lia). cbn [or_panic mbind res_bind].
    rewrite chars_of_window by done. cbn [mbind option_bind]. rewrite decode_encode by done. cbn [mbind option_bind].
    rewrite Ec. rewrite (get_range_mid x s post') by lia. cbn [mbind option_bind]. rewrite bool_decide_eq_true_2 by done.
    rewrite Hlen, Htext. do 3 f_equal. lia.
Qed.

Lemma base64_only pattern data padding start e (wide : bool) range :
  verify_base64 pattern data padding start e wide = Ret (Some range) -> 0 <= padding ->
  fst range = start /\ exists window chars before after,
    get_range data (fst window) (snd window) = Some chars /\ fst window <= start /\
    len before = padding /\
    (if wide then wide_chars chars else Some (strip_padding chars)) = Some (encode e (before ++ pattern ++ after)).
Proof.
  unfold verify_base64. intros Hv Hp. destruct (encoded_len _ _) as [n|]; [|done].
  destruct (base64_deltas padding n) as [[[d dl] ml]| |] eqn:Ed; [|done..]. cbn [mbind res_bind] in Hv.
  assert (Hd : 0 <= d).
  { unfold base64_deltas in Ed. repeat destruct (_ =? _) in Ed; try done; injection Ed as <- _ _; lia. }
  set (k := if wide then 2 else 1) in *. assert (1 <= k) by (subst k; by destruct wide).
  destruct (_ <? _) eqn:El in Hv; [done|]. bools. unfold index_range in Hv.
  destruct (get_range data _ _) as [chars|] eqn:Eg; [|done]. cbn [or_panic mbind res_bind] in Hv. apply Ret_inj in Hv.
  destruct (if wide then wide_chars chars else _) as [encoded|] eqn:Ee; [|done]. cbn [mbind option_bind] in Hv.
  destruct (decode e encoded) as [decoded|] eqn:Edec; [|done]. cbn [mbind option_bind] in Hv.
  destruct (get_range decoded _ _) as [s|] eqn:Es; [|done]. cbn [mbind option_bind] in Hv.
  case_bool_decide; [|done]. injection Hv as <-. subst s. split; [done|].
  apply decode_spec in Edec as [-> _]. apply get_range_Some in Es as (H1' & H2' & Es).
  eexists (_, _), chars, (slice_to decoded padding), (slice_from decoded (padding + len pattern)). split_and!.
  - exact Eg.
  - cbn. nia.
  - apply len_slice_to. pose proof (len_nonneg pattern). lia.
  - rewrite Ee. do 2 f_equal. pose proof (slices_split decoded padding (padding + len pattern) H1') as Hsp.
    by rewrite <- Es in Hsp.
Qed.
End Text.

(** * Properties *)

(** C11: no base64 occurrence of a string is missed, whatever surrounds the
    string in the encoded text, narrow or wide and with any alphabet: one of the
    three patterns that are searched for the string is in the text, at a known
    place, and the verification of the hit there decodes the text around it, finds
    the string, and reports exactly the range of the pattern. The text is padded
    up to a multiple of four characters. *)
Theorem base64_complete `{Base64Laws E} `{ItertoolsLaws} (alphabet : option (list Z)) (e : E)
    (pre s post l r : list Z) (wide : bool) :
  engine alphabet = Some e -> 2 <= len s < Z.shiftl 1 61 ->
  Forall is_u8 pre -> Forall is_u8 s -> Forall is_u8 post ->
  let data := l ++ form wide (padded_encode e (pre ++ s ++ post)) ++ r in
  exists patterns padding text start,
    base64_patterns s alphabet = Ret patterns /\ (padding, text) ∈ patterns /\
    start = at_of (len l) wide pre /\ has_at data start (form wide text) /\
    verify_base64 s data padding start e wide = Ret (Some (start, start + len (form wide text))).
Proof.
  intros He Hl Hpre Hs Hpost. cbn zeta.
  destruct (searched_in_patterns e alphabet s (len pre mod 3) Hl Hs He ltac:(div_lia)) as (patterns & Ep & Hin).
  eexists patterns, _, _, _. split; [done|]. split; [done|]. split; [done|]. by apply base64_found.
Qed.

(** The standard alphabet, to execute the model. *)
Definition standard_char (i : Z) : Z :=
  if i <? 26 then i + 65 else if i <? 52 then i + 71 else if i <? 62 then i - 4 else if i <? 63 then 43 else 47.
Definition standard_value (c : Z) : Z :=
  if c <? 47 then 62 else if c <? 48 then 63 else if c <? 65 then c + 4 else if c <? 97 then c - 65 else c - 71.

Fixpoint unsextets (l : list Z) : list Z :=
  match l with
  | a :: b :: c :: d :: l => a * 4 + b / 16 :: (b mod 16) * 16 + c / 4 :: (c mod 4) * 64 + d :: unsextets l
  | [a; b; c] => [a * 4 + b / 16; (b mod 16) * 16 + c / 4]
  | [a; b] => [a * 4 + b / 16]
  | _ => []
  end.

Lemma unsextets_sextets l : Forall is_u8 l -> unsextets (sextets l) = l.
Proof.
  induction l as [|a|a b|a b c l IH] using triples_ind; intros Hl; repeat (apply Forall_cons in Hl as [? Hl]); unfold is_u8 in *;
    cbn [sextets unsextets]; rewrite ?IH by done; repeat f_equal; div_lia.
Qed.

Lemma standard_value_char i : 0 <= i < 64 -> standard_value (standard_char i) = i.
Proof.
  intros Hi. unfold standard_char. cases_ltb; unfold standard_value; cases_ltb; lia.
Qed.

Lemma standard_char_range i : 0 <= i < 64 -> is_u8 (standard_char i) /\ standard_char i <> pad.
Proof.
  intros Hi. unfold standard_char, is_u8, pad. cases_ltb; lia.
Qed.

#[export] Instance standard_Base64 : Base64 unit := {
  STANDARD_NO_PAD := tt;
  engine_of_alphabet _ := None;
  encoded_len n _ := Some (unpadded_len n);
  encode _ l := standard_char <$> sextets l;
  decode _ t :=
    let l := unsextets (standard_value <$> t) in
    if decide (t = standard_char <$> sextets l /\ Forall (fun b => 0 <= b < 256) l) then Some l else None;
}.

#[export, refine] Instance standard_Base64Laws : Base64Laws unit := { alphabet _ := standard_char }.
Proof.
  - intros _ i Hi. cbn beta in *. by apply standard_char_range.
  - intros n m [=]. by subst.
  - intros n Hn. by eexists.
  - done.
  - intros [] l Hl. cbn. assert (Hv : unsextets (standard_value <$> (standard_char <$> sextets l)) = l).
    { rewrite <- list_fmap_compose. rewrite (list_fmap_ext _ id), list_fmap_id; [by apply unsextets_sextets|].
      intros i x Hx. cbn. apply standard_value_char. by apply (Forall_lookup_1 _ _ _ _ (sextets_range l Hl) Hx). }
    rewrite Hv. by rewrite decide_True.
  - intros [] t l. cbn. case_decide as Hd; [|done]. intros [= <-]. done.
Defined.

Lemma base64_complete_witness :
  let data := [120; 87; 71; 108; 119; 99; 51; 86; 116; 33] in
  exists patterns start, base64_patterns (E := unit) [0x69; 0x70; 0x73; 0x75; 0x6d] None = Ret patterns /\
    verify_base64 [0x69; 0x70; 0x73; 0x75; 0x6d] data 1 start tt false = Ret (Some (3, 9)).
Proof.
  pose proof (base64_complete None tt [88] [0x69; 0x70; 0x73; 0x75; 0x6d] [] [120] [33] false) as Hc.
  destruct Hc as (patterns & padding & text & start & Ep & _ & _ & _ & _).
  - reflexivity.
  - split; [discriminate|reflexivity].
  - repeat constructor; unfold is_u8; lia.
  - repeat constructor; unfold is_u8; lia.
  - constructor.
  - exists patterns, 3. split; [exact Ep|reflexivity].
Defined.

(** A hit of a base64 pattern is reported only where it is part of base64
    text: the characters around it, without padding, are the text of the string
    after as many bytes as the pattern has been shifted. *)
Theorem base64_sound `{Base64Laws E} (pattern data : list Z) (padding start : Z) (e : E) (wide : bool) (range : Z * Z) :
  verify_base64 pattern data padding start e wide = Ret (Some range) -> 0 <= padding ->
  fst range = start /\ exists window chars before after,
    get_range data (fst window) (snd window) = Some chars /\ fst window <= start /\
    len before = padding /\
    (if wide then wide_chars chars else Some (strip_padding chars)) = Some (encode e (before ++ pattern ++ after)).
Proof. apply base64_only. Qed.

Lemma base64_sound_witness :
  exists range, verify_base64 (E := unit) [0x69; 0x70; 0x73; 0x75; 0x6d] [120; 87; 71; 108; 119; 99; 51; 86; 116; 33] 1 3 tt false = Ret (Some range) /\
    fst range = 3.
Proof.
  exists (3, 9). split; [reflexivity|].
  apply (base64_sound [0x69; 0x70; 0x73; 0x75; 0x6d] [120; 87; 71; 108; 119; 99; 51; 86; 116; 33] 1 3 tt false (3, 9));
    [reflexivity|discriminate].
Defined.
