(* ===== verification/Rules.v ===== *)
(** The compiled rules, as far as the scanner uses them to search for patterns:
    sub-patterns, atoms and the constraints on files, from
    [lib/src/compiler/rules.rs] and [lib/src/compiler/mod.rs]. *)

From S2P Require Import Prelude.
From S2P Require Import Hir.
From S2P Require Import ScanVerify.
From S2P Require Import StringPool.

(** * Bounds on the size of the file *)

(** [std::ops::Bound] *)
Module Bound.
Inductive t : Type :=
  | Included (n : Z)
  | Excluded (n : Z)
  | Unbounded.
End Bound.

Record FilesizeBounds := { fs_start : Bound.t; fs_end : Bound.t }.

Definition filesize_unbounded : FilesizeBounds := {| fs_start := Bound.Unbounded; fs_end := Bound.Unbounded |}.

Definition unbounded (b : FilesizeBounds) : bool :=
  match b.(fs_start), b.(fs_end) with Bound.Unbounded, Bound.Unbounded => true | _, _ => false end.

Definition start_ok (b : Bound.t) (value : Z) : bool :=
  match b with
  | Bound.Included start => start <=? value
  | Bound.Excluded start => start <? value
  | Bound.Unbounded => true
  end.

Definition end_ok (b : Bound.t) (value : Z) : bool :=
  match b with
  | Bound.Included stop => value <=? stop
  | Bound.Excluded stop => value <? stop
  | Bound.Unbounded => true
  end.

Definition contains (b : FilesizeBounds) (value : Z) : bool := start_ok b.(fs_start) value && end_ok b.(fs_end) value.

Definition max_start (b : FilesizeBounds) (bound : Bound.t) : FilesizeBounds :=
  let set s := {| fs_start := s; fs_end := b.(fs_end) |} in
  match b.(fs_start), bound with
  | Bound.Included current, Bound.Included new => if current <? new then set (Bound.Included new) else b
  | Bound.Included current, Bound.Excluded new => if current <=? new then set (Bound.Excluded new) else b
  | Bound.Excluded current, Bound.Included new => if current <? new then set (Bound.Included new) else b
  | Bound.Excluded current, Bound.Excluded new => if current <? new then set (Bound.Excluded new) else b
  | Bound.Unbounded, new => set new
  | _, Bound.Unbounded => b
  end.

Definition min_end (b : FilesizeBounds) (bound : Bound.t) : FilesizeBounds :=
  let set e := {| fs_start := b.(fs_start); fs_end := e |} in
  match b.(fs_end), bound with
  | Bound.Included current, Bound.Included new => if new <? current then set (Bound.Included new) else b
  | Bound.Included current, Bound.Excluded new => if new <=? current then set (Bound.Excluded new) else b
  | Bound.Excluded current, Bound.Included new => if new <? current then set (Bound.Included new) else b
  | Bound.Excluded current, Bound.Excluded new => if new <? current then set (Bound.Excluded new) else b
  | Bound.Unbounded, new => set new
  | _, Bound.Unbounded => b
  end.

Lemma max_start_spec b bound value : contains (max_start b bound) value = contains b value && start_ok bound value.
Proof.
  destruct b as [[s|s|] e], bound as [n|n|]; unfold max_start, contains; cbn [fs_start fs_end start_ok];
    repeat match goal with |- context [if ?b then _ else _] => destruct b eqn:?; bools end; cbn [fs_start fs_end start_ok];
    apply eq_iff_eq_true; rewrite ?andb_true_iff, ?Z.leb_le, ?Z.ltb_lt; intuition (try done; lia).
Qed.

Lemma min_end_spec b bound value : contains (min_end b bound) value = contains b value && end_ok bound value.
Proof.
  destruct b as [s [e|e|]], bound as [n|n|]; unfold min_end, contains; cbn [fs_start fs_end end_ok];
    repeat match goal with |- context [if ?b then _ else _] => destruct b eqn:?; bools end; cbn [fs_start fs_end end_ok];
    apply eq_iff_eq_true; rewrite ?andb_true_iff, ?Z.leb_le, ?Z.ltb_lt; intuition (try done; lia).
Qed.

(** * Constraints on the header *)

Inductive HeaderConstraint : Type :=
  | Unconstrained
  | Unsatisfiable
  | Constrained (bytes : list Z).

Definition unconstrained (c : HeaderConstraint) : bool := match c with Unconstrained => true | _ => false end.

(** [starts_with] *)
Definition starts_with (data bytes : list Z) : bool := bool_decide (take (length bytes) data = bytes).

Definition is_satisfied (c : HeaderConstraint) (data : list Z) : bool :=
  match c with
  | Unconstrained => true
  | Unsatisfiable => false
  | Constrained bytes => starts_with data bytes
  end.

(** * Sub-patterns *)

Module SubPattern.
Inductive t : Type :=
  | Literal (pattern : Z) (anchored_at : option Z) (flags : Z)
  | LiteralWithMask (pattern mask : Z) (flags : Z)
  | LiteralChainHead (pattern : Z) (flags : Z)
  | LiteralChainTail (pattern chained_to : Z) (gap : ChainedPatternGap) (flags : Z)
  | Regexp (flags : Z)
  | RegexpChainHead (flags : Z)
  | RegexpChainTail (chained_to : Z) (gap : ChainedPatternGap) (flags : Z)
  | Xor (pattern : Z) (flags : Z)
  | Base64 (pattern padding : Z)
  | Base64Wide (pattern padding : Z)
  | CustomBase64 (pattern alphabet padding : Z)
  | CustomBase64Wide (pattern alphabet padding : Z).

(** [SubPattern::chained_to] *)
Definition chained_to (s : t) : option Z :=
  match s with
  | LiteralChainTail _ id _ _ | RegexpChainTail id _ _ => Some id
  | _ => None
  end.
End SubPattern.

(** * Rules *)

(** The fields of [Rules] that the scanner uses in the search for patterns. The
    maps of constraints are iterated in any order. *)
Record Rules (T : Type) := {
  rules_atoms : list SubPatternAtom;
  sub_patterns : list (Z * SubPattern.t);
  anchored_sub_patterns : list Z;
  lit_pool : BStringPool T;
  fast_scan_patterns : list bool;
  num_rules : Z;
  num_patterns : Z;
  filesize_bounds : list (Z * FilesizeBounds);
  header_constraints : list (Z * HeaderConstraint);
}.
Arguments rules_atoms {_}.
Arguments sub_patterns {_}.
Arguments anchored_sub_patterns {_}.
Arguments lit_pool {_}.
Arguments fast_scan_patterns {_}.
Arguments num_rules {_}.
Arguments num_patterns {_}.
Arguments filesize_bounds {_}.
Arguments header_constraints {_}.

(** [get_unchecked] out of range has no defined behaviour: it counts as a panic. *)
Definition get_sub_pattern {T} (r : Rules T) (id : Z) : res (Z * SubPattern.t) := or_panic (get r.(sub_patterns) id).

Definition is_fast_scan {T} (r : Rules T) (pattern_id : Z) : res bool := or_panic (get r.(fast_scan_patterns) pattern_id).
