(* ===== verification/Tracker.v ===== *)
(** The tracking of matches during a scan, from [lib/src/scanner/context.rs]:
    confirmed matches, the unconfirmed matches of chained sub-patterns, and the
    confirmation of chains. *)

From stdpp Require Import fin_maps gmap.
From S2P Require Import Prelude.
From S2P Require Import PikeInstr.
From S2P Require Import Hir.
From S2P Require Import ScanVerify.
From S2P Require Import StringPool.
From S2P Require Import Rules.
From S2P Require Import Matches.
#[local] Open Scope Z_scope.

(** * The bitmap of patterns in the memory of the WebAssembly module *)

(** [BitSlice::set] of the [bitvec] crate, with the least significant bit first;
    it panics out of range. *)
Class BitSliceSet := { bs_set : list Z -> Z -> bool -> option (list Z) }.

Class BitSliceSetLaws `{BitSlice} `{BitSliceSet} := {
  bs_set_spec bm i b : 0 <= i < 8 * len bm ->
    exists bm', bs_set bm i b = Some bm' /\ len bm' = len bm /\
      forall j, 0 <= j < 8 * len bm -> bs_get_unchecked bm' j = if j =? i then b else bs_get_unchecked bm j;
}.

(** An implementation on lists of bytes. *)
#[export] Instance list_BitSliceSet : BitSliceSet := {
  bs_set bm i b :=
    byte ← get bm (i / 8);
    Some (<[Z.to_nat (i / 8) := if b : bool then Z.setbit byte (i mod 8) else Z.clearbit byte (i mod 8)]> bm);
}.

(** The memory layout of [lib/src/wasm/mod.rs]. *)
Definition MAX_VARS : Z := 2048.
Definition VARS_STACK_START : Z := MAX_VARS / 8.
Definition VARS_STACK_END : Z := VARS_STACK_START + MAX_VARS * 8.
Definition LOOKUP_INDEXES_START : Z := VARS_STACK_END.
Definition LOOKUP_INDEXES_END : Z := LOOKUP_INDEXES_START + 1024.
Definition MATCHING_RULES_BITMAP_BASE : Z := LOOKUP_INDEXES_END.

Definition div_ceil (a b : Z) : Z := (a + b - 1) / b.

(** * The tracker *)

Record UnconfirmedMatch := { u_range : Z * Z; chain_length : Z }.

Definition set_chain_length (n : Z) (m : UnconfirmedMatch) : UnconfirmedMatch :=
  {| u_range := m.(u_range); chain_length := n |}.

Record MatchTracker (T : Type) := {
  pattern_matches : PatternMatches;
  unconfirmed_matches : gmap Z (list UnconfirmedMatch);
  disabled_patterns : gset Z;
  compiled_rules : Rules T;
  fast_scan : bool;
}.
Arguments pattern_matches {_}.
Arguments unconfirmed_matches {_}.
Arguments disabled_patterns {_}.
Arguments compiled_rules {_}.
Arguments fast_scan {_}.
Arguments Build_MatchTracker {_}.

(** The memory of the module, with the tracker. *)
Record Tracking (T : Type) := { tracker : MatchTracker T; main_memory : list Z }.
Arguments tracker {_}.
Arguments main_memory {_}.
Arguments Build_Tracking {_}.

Section Tracker.
Context {T : Type} {VG : VecGrowth} {BSS : BitSliceSet}.
Implicit Types st : Tracking T.

Definition with_tracker (t : MatchTracker T) st : Tracking T := {| tracker := t; main_memory := st.(main_memory) |}.

Definition set_unconfirmed (u : gmap Z (list UnconfirmedMatch)) (t : MatchTracker T) : MatchTracker T :=
  {| pattern_matches := t.(pattern_matches); unconfirmed_matches := u; disabled_patterns := t.(disabled_patterns);
     compiled_rules := t.(compiled_rules); fast_scan := t.(fast_scan) |}.

Definition set_matches (p : PatternMatches) (disable : option Z) (t : MatchTracker T) : MatchTracker T :=
  {| pattern_matches := p; unconfirmed_matches := t.(unconfirmed_matches);
     disabled_patterns := match disable with Some id => {[id]} ∪ t.(disabled_patterns) | None => t.(disabled_patterns) end;
     compiled_rules := t.(compiled_rules); fast_scan := t.(fast_scan) |}.

(** The bit of a pattern in the bitmap that follows the one of the rules. *)
Definition set_pattern_bit (rules : Rules T) (mem : list Z) (pattern_id : Z) : res (list Z) :=
  let base := MATCHING_RULES_BITMAP_BASE + div_ceil rules.(num_rules) 8 in
  let stop := base + div_ceil rules.(num_patterns) 8 in
  bits ← index_range mem base stop;
  bits ← or_panic (bs_set bits pattern_id true);
  Ret (slice_to mem base ++ bits ++ slice_from mem stop).

Definition track_match st (pattern_id : Z) (match_ : Match) (replace_if_longer : bool) : res (Tracking T) :=
  let t := st.(tracker) in
  mem ← set_pattern_bit t.(compiled_rules) st.(main_memory) pattern_id;
  fast ← (if t.(fast_scan) then is_fast_scan t.(compiled_rules) pattern_id else Ret false);
  '(p, result) ← patterns_add t.(pattern_matches) pattern_id match_ replace_if_longer;
  let disable := match result with MaxMatchesReached => true | _ => fast end in
  Ret {| tracker := set_matches p (if disable : bool then Some pattern_id else None) t; main_memory := mem |}.

(** [entry(id).or_default().push(m)] *)
Definition track_unconfirmed_match st (sub_pattern_id : Z) (m : UnconfirmedMatch) : Tracking T :=
  let t := st.(tracker) in
  let l := default [] (t.(unconfirmed_matches) !! sub_pattern_id) in
  with_tracker (set_unconfirmed (<[sub_pattern_id := l ++ [m]]> t.(unconfirmed_matches)) t) st.

(** * Chains *)

(** A sub-pattern may start at [start] after a match of the previous one that
    ends at [stop]. *)
Definition in_gap (gap : ChainedPatternGap) (stop start : Z) : bool :=
  match gap with
  | Bounded min_gap max_gap => (stop + min_gap <=? start) && (start <=? stop + max_gap)
  | Unbounded min_gap => stop + min_gap <=? start
  end.

Definition within_valid_distance (t : MatchTracker T) (chained_to match_start : Z) (gap : ChainedPatternGap) : bool :=
  existsb (fun m =>
    match gap with
    | Bounded _ _ => in_gap gap (snd m.(u_range)) match_start
    | Unbounded _ => in_gap gap (fst m.(u_range)) match_start
    end) (default [] (t.(unconfirmed_matches) !! chained_to)).

(** The loop over the unconfirmed matches of the previous sub-pattern: the
    matches with their new lengths, and those that are queued. *)
Definition visit_unconfirmed (gap : ChainedPatternGap) (current m : UnconfirmedMatch) : UnconfirmedMatch * list UnconfirmedMatch :=
  if in_gap gap (snd m.(u_range)) (fst current.(u_range)) && (m.(chain_length) <=? current.(chain_length)) then
    let m := set_chain_length (current.(chain_length) + 1) m in (m, [m])
  else (m, []).

Definition visit_all (gap : ChainedPatternGap) (current : UnconfirmedMatch) (l : list UnconfirmedMatch)
  : list UnconfirmedMatch * list UnconfirmedMatch :=
  (fst ∘ visit_unconfirmed gap current <$> l, l ≫= snd ∘ visit_unconfirmed gap current).

(** [while let Some(id) = next_pattern_id]: a sub-pattern is chained to one with a
    smaller identifier, so as many iterations as sub-patterns are enough. *)
Fixpoint reset_chain (fuel : nat) (next : option Z) (t : MatchTracker T) : res (MatchTracker T) :=
  match next with
  | None => Ret t
  | Some id =>
      match fuel with
      | O => OutOfFuel
      | S fuel =>
          let t := match t.(unconfirmed_matches) !! id with
                   | Some l => set_unconfirmed (<[id := set_chain_length 0 <$> l]> t.(unconfirmed_matches)) t
                   | None => t
                   end in
          '(_, sub_pattern) ← get_sub_pattern t.(compiled_rules) id;
          reset_chain fuel (SubPattern.chained_to sub_pattern) t
      end
  end.

(** What is done with the head of a chain. *)
Definition confirm_head st (pattern_id : Z) (tail_match : Match) (flags : Z) (current : UnconfirmedMatch)
    (tail_chained_to : option Z) : res (Tracking T) :=
  st ← track_match st pattern_id
    {| base := tail_match.(base); range := (fst current.(u_range), snd tail_match.(range)); match_xor_key := None |}
    (has_flag flags FlagGreedyRegexp);
  t ← reset_chain (length st.(tracker).(compiled_rules).(sub_patterns)) tail_chained_to st.(tracker);
  Ret (with_tracker t st).

(** What is done with the other sub-patterns: the new state, the matches that are
    queued and the new [tail_chained_to]. *)
Definition extend_chain st (chained_to : Z) (gap : ChainedPatternGap) (flags : Z) (current : UnconfirmedMatch)
    (tail_chained_to : option Z) : Tracking T * list (Z * UnconfirmedMatch) * option Z :=
  let t := st.(tracker) in
  match t.(unconfirmed_matches) !! chained_to with
  | None => (st, [], tail_chained_to)
  | Some l =>
      let '(l', queued) := visit_all gap current l in
      (with_tracker (set_unconfirmed (<[chained_to := l']> t.(unconfirmed_matches)) t) st,
       (fun m => (chained_to, m)) <$> queued,
       if has_flag flags FlagLastInChain && has_flag flags FlagGreedyRegexp then Some chained_to else tail_chained_to)
  end.

Fixpoint chain_loop (fuel : nat) st (pattern_id : Z) (tail_match : Match) (queue : list (Z * UnconfirmedMatch))
    (tail_chained_to : option Z) : res (Tracking T) :=
  match queue with
  | [] => Ret st
  | (id, current) :: queue =>
      match fuel with
      | O => OutOfFuel
      | S fuel =>
          '(_, sub_pattern) ← get_sub_pattern st.(tracker).(compiled_rules) id;
          match sub_pattern with
          | SubPattern.LiteralChainHead _ flags | SubPattern.RegexpChainHead flags =>
              st ← confirm_head st pattern_id tail_match flags current tail_chained_to;
              chain_loop fuel st pattern_id tail_match queue tail_chained_to
          | SubPattern.LiteralChainTail _ chained_to gap flags | SubPattern.RegexpChainTail chained_to gap flags =>
              let '(st, queued, tail_chained_to) := extend_chain st chained_to gap flags current tail_chained_to in
              chain_loop fuel st pattern_id tail_match (queue ++ queued) tail_chained_to
          | _ => Panic
          end
      end
  end.

Definition verify_chain_of_matches (fuel : nat) st (pattern_id tail_sub_pattern_id : Z) (tail_match : Match)
  : res (Tracking T) :=
  chain_loop fuel st pattern_id tail_match
    [(tail_sub_pattern_id, {| u_range := tail_match.(range); chain_length := 1 |})] None.

(** * Matches of sub-patterns *)

Definition handle_sub_pattern_match (fuel : nat) st (sub_pattern_id : Z) (sub_pattern : SubPattern.t)
    (pattern_id : Z) (match_ : Match) : res (Tracking T) :=
  match sub_pattern with
  | SubPattern.Literal _ _ _ | SubPattern.LiteralWithMask _ _ _ | SubPattern.Xor _ _
  | SubPattern.Base64 _ _ | SubPattern.Base64Wide _ _
  | SubPattern.CustomBase64 _ _ _ | SubPattern.CustomBase64Wide _ _ _ =>
      track_match st pattern_id match_ false
  | SubPattern.Regexp flags => track_match st pattern_id match_ (has_flag flags FlagGreedyRegexp)
  | SubPattern.LiteralChainHead _ _ | SubPattern.RegexpChainHead _ =>
      Ret (track_unconfirmed_match st sub_pattern_id {| u_range := match_.(range); chain_length := 0 |})
  | SubPattern.LiteralChainTail _ chained_to gap flags | SubPattern.RegexpChainTail chained_to gap flags =>
      if within_valid_distance st.(tracker) chained_to (m_start match_) gap then
        if has_flag flags FlagLastInChain then
          verify_chain_of_matches fuel st pattern_id sub_pattern_id match_
        else
          Ret (track_unconfirmed_match st sub_pattern_id {| u_range := match_.(range); chain_length := 0 |})
      else Ret st
  end.
End Tracker.
