(* ===== verification/ChainProps.v ===== *)
(** The confirmation of chains: it ends, it reports only matches made of a head
    and of matches of every sub-pattern of the chain at the right distances, and
    it misses none. *)

From stdpp Require Import fin_maps gmap.
From S2P Require Import Prelude.
From S2P Require Import Hir.
From S2P Require Import ScanVerify.
From S2P Require Import StringPool.
From S2P Require Import Rules.
From S2P Require Import Matches.
From S2P Require Import Tracker.
#[local] Open Scope Z_scope.

(** What the code needs of a sub-pattern in a chain. *)
Inductive Link : Type :=
  | Head (flags : Z)
  | Tail (chained_to : Z) (gap : ChainedPatternGap) (flags : Z).

Definition link_of (s : SubPattern.t) : option Link :=
  match s with
  | SubPattern.LiteralChainHead _ flags | SubPattern.RegexpChainHead flags => Some (Head flags)
  | SubPattern.LiteralChainTail _ id gap flags | SubPattern.RegexpChainTail id gap flags => Some (Tail id gap flags)
  | _ => None
  end.

Section Chains.
Context {T : Type} {VG : VecGrowth} {BSS : BitSliceSet}.
Implicit Types st : Tracking T.
Variable rules : Rules T.

Definition link_at (id : Z) : option Link := '(_, s) ← get rules.(sub_patterns) id; link_of s.

(** Sub-patterns are chained to sub-patterns of a chain that precede them. *)
Definition chains_ok : Prop :=
  forall id id' gap flags, link_at id = Some (Tail id' gap flags) -> 0 <= id' < id /\ is_Some (link_at id').

Lemma link_at_sub id link : link_at id = Some link -> exists p s, get_sub_pattern rules id = Ret (p, s) /\ link_of s = Some link.
Proof.
  unfold link_at, get_sub_pattern. destruct (get _ id) as [[p s]|]; [|done]. cbn. intros Hl. by exists p, s.
Qed.

(** * Chains of matches *)

Notation unconfirmed := (gmap Z (list UnconfirmedMatch)).

Definition ranges (u : unconfirmed) : gmap Z (list (Z * Z)) := (fun l : list UnconfirmedMatch => u_range <$> l) <$> u.

(** A match of the sub-pattern [id] with the range [r] is the end of a chain of
    matches that starts at a head, given with its flags. *)
Inductive reaches (u : gmap Z (list (Z * Z))) : Z -> Z * Z -> (Z * Z) * Z -> Prop :=
  | reaches_head id r flags : link_at id = Some (Head flags) -> reaches u id r (r, flags)
  | reaches_tail id r id' gap flags l r' h :
      link_at id = Some (Tail id' gap flags) -> u !! id' = Some l -> r' ∈ l ->
      in_gap gap (snd r') (fst r) = true -> reaches u id' r' h -> reaches u id r h.

(** A match that took part in a chain before: the heads that it reaches have
    been seen. *)
Definition settled (u : unconfirmed) (seen : (Z * Z) * Z -> Prop) : Prop :=
  forall id l m h, u !! id = Some l -> m ∈ l -> 1 <= m.(chain_length) -> reaches (ranges u) id m.(u_range) h -> seen h.

(** The matches for the heads of the chains, as they are tracked. *)
Definition track_heads (pattern_id : Z) (tail_match : Match) (heads : list ((Z * Z) * Z)) (st : Tracking T) : res (Tracking T) :=
  for_each heads (fun h st =>
    track_match st pattern_id
      {| base := tail_match.(base); range := (fst (fst h), snd tail_match.(range)); match_xor_key := None |}
      (has_flag (snd h) FlagGreedyRegexp)) st.

(** * The unconfirmed matches and the rest of the state *)

Definition put (u : unconfirmed) (st : Tracking T) : Tracking T := with_tracker (set_unconfirmed u st.(tracker)) st.

Lemma put_put u u' st : put u (put u' st) = put u st.
Proof. done. Qed.

Lemma put_same st : put st.(tracker).(unconfirmed_matches) st = st.
Proof. by destruct st as [[] ?]. Qed.

Lemma track_match_put u st p m r : track_match (put u st) p m r = put u <$> track_match st p m r.
Proof.
  unfold track_match. cbn. destruct (set_pattern_bit _ _ _); [|done..]. cbn.
  destruct (if fast_scan _ then _ else _); [|done..]. cbn. destruct (patterns_add _ _ _ _) as [[? ?]| |]; done.
Qed.

Lemma track_match_rules st p m r (st' : Tracking T) :
  track_match st p m r = Ret st' -> st'.(tracker).(compiled_rules) = st.(tracker).(compiled_rules).
Proof.
  unfold track_match. destruct (set_pattern_bit _ _ _); [|done..]. cbn. destruct (if fast_scan _ then _ else _); [|done..].
  cbn. destruct (patterns_add _ _ _ _) as [[? ?]| |]; [|done..]. cbn. by intros [= <-].
Qed.

(** * Resetting the lengths *)

Lemma ranges_insert u id l : ranges (<[id := l]> u) = <[id := u_range <$> l]> (ranges u).
Proof. apply fmap_insert. Qed.

Lemma ranges_insert_same u id l l' :
  u !! id = Some l -> u_range <$> l' = u_range <$> l -> ranges (<[id := l']> u) = ranges u.
Proof.
  intros Hl He. rewrite ranges_insert, He. apply insert_id. unfold ranges. by rewrite lookup_fmap, Hl.
Qed.

(** The matches have the same ranges and no larger lengths. *)
Definition lowered (u u' : unconfirmed) : Prop :=
  ranges u' = ranges u /\
  forall id l' m', u' !! id = Some l' -> m' ∈ l' -> exists l m, u !! id = Some l /\ m ∈ l /\
    m'.(u_range) = m.(u_range) /\ m'.(chain_length) <= Z.max 0 m.(chain_length).

Lemma lowered_refl u : lowered u u.
Proof. split; [done|]. intros id l m Hl Hm. exists l, m. split_and!; [done..|lia]. Qed.

Lemma lowered_trans u1 u2 u3 : lowered u1 u2 -> lowered u2 u3 -> lowered u1 u3.
Proof.
  intros [R1 H1] [R2 H2]. split; [congruence|]. intros id l3 m3 E3 M3. destruct (H2 _ _ _ E3 M3) as (l2 & m2 & E2 & M2 & -> & ?).
  destruct (H1 _ _ _ E2 M2) as (l1 & m1 & E1 & M1 & -> & ?). exists l1, m1. split_and!; [done..|lia].
Qed.

Lemma lowered_reset u id l : u !! id = Some l -> lowered u (<[id := set_chain_length 0 <$> l]> u).
Proof.
  intros Hl. split.
  - eapply ranges_insert_same; [done|]. by rewrite <- list_fmap_compose.
  - intros id' l' m'. destruct (decide (id' = id)) as [->|Hne].
    + rewrite lookup_insert_eq. intros [= <-] (m & -> & Hm)%list_elem_of_fmap. exists l, m. split_and!; [done..|cbn; lia].
    + rewrite lookup_insert_ne by done. intros E' Hm. exists l', m'. split_and!; [done..|lia].
Qed.

Lemma rules_set (u : unconfirmed) (t : MatchTracker T) : compiled_rules (set_unconfirmed u t) = compiled_rules t.
Proof. done. Qed.

Lemma reset_chain_spec (Hok : chains_ok) fuel next u :
  match next with Some id => is_Some (link_at id) /\ 0 <= id < Z.of_nat fuel | None => True end ->
  exists u', lowered u u' /\
    forall t, t.(compiled_rules) = rules -> reset_chain fuel next (set_unconfirmed u t) = Ret (set_unconfirmed u' t).
Proof.
  revert next u. induction fuel as [|fuel IH]; intros [id|] u Hn; cbn [reset_chain];
    try (exists u; split; [apply lowered_refl|done]).
  - destruct Hn. lia.
  - destruct Hn as [[link Hlink] Hid]. destruct (link_at_sub _ _ Hlink) as (p & s & Es & El).
    set (u1 := match u !! id with Some l => <[id := set_chain_length 0 <$> l]> u | None => u end).
    destruct (IH (SubPattern.chained_to s) u1) as (u' & Hlow & Eu).
    { destruct s; cbn in El |- *; simplify_eq; try done;
        (edestruct Hok as [Hlt His]; [exact Hlink|]; split; [done|lia]). }
    exists u'. split.
    + eapply lowered_trans; [|done]. subst u1. destruct (u !! id) eqn:E; [by apply lowered_reset|apply lowered_refl].
    + intros t Ht. subst u1. cbn [set_unconfirmed unconfirmed_matches].
      destruct (u !! id); rewrite !rules_set, Ht, Es; by apply (Eu t).
Qed.

(** * Visiting the matches of the previous sub-pattern *)

Lemma elem_of_visited gap c l m : m ∈ fst (visit_all gap c l) <-> exists m0, m0 ∈ l /\ m = fst (visit_unconfirmed gap c m0).
Proof. cbn [visit_all fst]. rewrite list_elem_of_fmap. naive_solver. Qed.

Lemma elem_of_queued gap c l m : m ∈ snd (visit_all gap c l) <-> exists m0, m0 ∈ l /\ m ∈ snd (visit_unconfirmed gap c m0).
Proof. cbn [visit_all snd]. rewrite list_elem_of_bind. cbn. naive_solver. Qed.

Lemma visit_range gap c m : u_range (fst (visit_unconfirmed gap c m)) = u_range m.
Proof. unfold visit_unconfirmed. by destruct (_ && _). Qed.

Lemma visit_ranges gap c l : u_range <$> fst (visit_all gap c l) = u_range <$> l.
Proof.
  cbn [visit_all fst]. rewrite <- list_fmap_compose. apply list_fmap_ext. intros _ m _. apply visit_range.
Qed.

Lemma length_queued gap c l : (length (snd (visit_all gap c l)) <= length l)%nat.
Proof.
  cbn [visit_all snd]. induction l as [|m l IH]; [done|]. rewrite bind_cons, length_app. cbn [length].
  assert (length (snd (visit_unconfirmed gap c m)) <= 1)%nat by (unfold visit_unconfirmed; destruct (_ && _); cbn; lia).
  cbn in *. lia.
Qed.

(** A match that is within the gap is queued, or it took part in a chain. *)
Lemma visit_in_gap gap c m :
  in_gap gap (snd m.(u_range)) (fst c.(u_range)) = true ->
  (exists m', snd (visit_unconfirmed gap c m) = [m'] /\ m'.(u_range) = m.(u_range)) \/ c.(chain_length) < m.(chain_length).
Proof.
  intros Hg. unfold visit_unconfirmed. rewrite Hg. cbn [andb]. destruct (_ <=? _) eqn:E; bools; [|by right].
  left. eexists. split; [done|]. done.
Qed.

(** A match whose length is raised is queued. *)
Lemma visit_cases gap c m :
  visit_unconfirmed gap c m = (m, []) \/
  (exists m', visit_unconfirmed gap c m = (m', [m']) /\ m'.(u_range) = m.(u_range) /\
     m'.(chain_length) = c.(chain_length) + 1 /\ in_gap gap (snd m.(u_range)) (fst c.(u_range)) = true).
Proof.
  unfold visit_unconfirmed. destruct (in_gap _ _ _) eqn:Eg; [|by left]. destruct (_ <=? _); [|by left].
  right. eexists. done.
Qed.

(** * The loop *)

Notation queue_item := (Z * UnconfirmedMatch)%type.

(** A queued match, or one that took part in a chain, whose heads are still to be
    seen is in the queue or behind a match of the queue nearer to the head. *)
Definition pending (u : unconfirmed) (queue : list queue_item) (seen : (Z * Z) * Z -> Prop) : Prop :=
  forall id l m h, u !! id = Some l -> m ∈ l -> 1 <= m.(chain_length) -> reaches (ranges u) id m.(u_range) h ->
    seen h \/ exists id' c, (id', c) ∈ queue /\ id' <= id /\ reaches (ranges u) id' c.(u_range) h.

Definition queue_ok (queue : list queue_item) : Prop :=
  Forall (fun ic => is_Some (link_at (fst ic)) /\ 0 <= fst ic /\ 1 <= (snd ic).(chain_length)) queue.

Definition bounded (n : nat) (u : unconfirmed) : Prop := forall id l, u !! id = Some l -> (length l <= n)%nat.

(** Every iteration replaces a match by fewer than [n + 1] matches nearer to the
    head of the chain. *)
Definition weight (n : nat) (queue : list queue_item) : nat :=
  sum_list_with (fun ic => S n ^ S (Z.to_nat (fst ic)))%nat queue.

Lemma ranges_lookup u id l' : ranges u !! id = Some l' -> exists l, u !! id = Some l /\ l' = u_range <$> l.
Proof. unfold ranges. rewrite lookup_fmap. destruct (u !! id) as [l|]; [|done]. intros [= <-]. by exists l. Qed.

Lemma ranges_bounded n u u' : ranges u' = ranges u -> bounded n u -> bounded n u'.
Proof.
  intros Hr Hb id l Hl. assert (E : ranges u' !! id = Some (u_range <$> l)) by (unfold ranges; by rewrite lookup_fmap, Hl).
  rewrite Hr in E. apply ranges_lookup in E as (l0 & E0 & El). apply Hb in E0.
  apply (f_equal length) in El. rewrite !length_fmap in El. lia.
Qed.

Lemma reaches_inv u id r h link :
  link_at id = Some link -> reaches u id r h ->
  match link with
  | Head flags => h = (r, flags)
  | Tail id' gap _ => exists l r', u !! id' = Some l /\ r' ∈ l /\ in_gap gap (snd r') (fst r) = true /\ reaches u id' r' h
  end.
Proof.
  intros Hl Hr. inversion Hr; subst; simplify_eq; [done|]. by do 2 eexists.
Qed.

Lemma weight_cons n ic queue : weight n (ic :: queue) = (S n ^ S (Z.to_nat (fst ic)) + weight n queue)%nat.
Proof. done. Qed.

Lemma weight_app n q1 q2 : weight n (q1 ++ q2) = (weight n q1 + weight n q2)%nat.
Proof. apply sum_list_with_app. Qed.

Lemma weight_queued n id ms : weight n ((fun m => (id, m)) <$> ms) = (length ms * S n ^ S (Z.to_nat id))%nat.
Proof.
  induction ms as [|m ms IH]; [done|]. rewrite fmap_cons, weight_cons, IH. cbn [fst length]. lia.
Qed.

Lemma weight_tail n queue id id' ms :
  0 <= id' < id -> (length ms <= n)%nat ->
  (weight n (queue ++ ((fun m => (id', m)) <$> ms)) < S n ^ S (Z.to_nat id) + weight n queue)%nat.
Proof.
  intros Hid Hn. rewrite weight_app, weight_queued.
  assert (H1 : (S n ^ S (S (Z.to_nat id')) <= S n ^ S (Z.to_nat id))%nat) by (apply Nat.pow_le_mono_r; lia).
  assert (H2 : (S n ^ S (S (Z.to_nat id')) = S n ^ S (Z.to_nat id') + n * S n ^ S (Z.to_nat id'))%nat) by (cbn [Nat.pow]; lia).
  assert (H3 : (0 < S n ^ S (Z.to_nat id'))%nat) by (apply Nat.neq_0_lt_0, Nat.pow_nonzero; lia).
  assert (H4 : (length ms * S n ^ S (Z.to_nat id') <= n * S n ^ S (Z.to_nat id'))%nat) by (apply Nat.mul_le_mono_r; lia).
  lia.
Qed.

(** The queue after the matches of the previous sub-pattern have been visited. *)
Lemma pending_extend (Hok : chains_ok) u queue id c id' gap flags l seen :
  link_at id = Some (Tail id' gap flags) -> u !! id' = Some l -> queue_ok ((id, c) :: queue) ->
  pending u ((id, c) :: queue) seen ->
  let u' := <[id' := fst (visit_all gap c l)]> u in
  let queue' := queue ++ ((fun m => (id', m)) <$> snd (visit_all gap c l)) in
  ranges u' = ranges u /\ pending u' queue' seen /\ queue_ok queue' /\
  (forall h, reaches (ranges u) id c.(u_range) h ->
     seen h \/ exists id1 c1, (id1, c1) ∈ queue' /\ id1 <= id' /\ reaches (ranges u) id1 c1.(u_range) h) /\
  (forall id1 c1 h, (id1, c1) ∈ queue' -> reaches (ranges u) id1 c1.(u_range) h ->
     exists id0 c0, (id0, c0) ∈ (id, c) :: queue /\ reaches (ranges u) id0 c0.(u_range) h).
Proof.
  intros Hlink Hl Hq Hp. cbn zeta. destruct (Hok _ _ _ _ Hlink) as [Hid Hlink'].
  assert (Hr : ranges (<[id' := fst (visit_all gap c l)]> u) = ranges u) by (by eapply ranges_insert_same; [|apply visit_ranges]).
  apply Forall_cons in Hq as [(_ & _ & Hc) Hq]. cbn [snd] in Hc.
  assert (Hold : forall m h, m ∈ l -> 1 <= chain_length m -> reaches (ranges u) id' (u_range m) h ->
    seen h \/ exists id1 c1, (id1, c1) ∈ queue /\ id1 <= id' /\ reaches (ranges u) id1 (u_range c1) h).
  { intros m h Hm Hcl Hh. destruct (Hp _ _ _ _ Hl Hm Hcl Hh) as [?|(id1 & c1 & Hin & Hle & Hh1)]; [by left|right].
    apply elem_of_cons in Hin as [[= -> ->]|Hin]; [lia|]. by exists id1, c1. }
  assert (Hnext : forall h, reaches (ranges u) id (u_range c) h ->
    seen h \/ exists id1 c1, (id1, c1) ∈ queue ++ ((fun m => (id', m)) <$> snd (visit_all gap c l)) /\ id1 <= id' /\
      reaches (ranges u) id1 (u_range c1) h).
  { intros h Hh. apply (reaches_inv _ _ _ _ _ Hlink) in Hh as (l0 & r' & El & Hr' & Hg & Hh).
    apply ranges_lookup in El as (l1 & El & ->). simplify_eq. apply list_elem_of_fmap in Hr' as (m & -> & Hm).
    destruct (visit_in_gap gap c m Hg) as [(m' & Em & Erm)|Hlt].
    - right. exists id', m'. split_and!; [|lia|by rewrite Erm]. apply elem_of_app. right. apply list_elem_of_fmap. exists m'. split; [done|].
      apply elem_of_queued. exists m. split; [done|]. rewrite Em. by left.
    - destruct (Hold m h Hm ltac:(lia) Hh) as [?|(id1 & c1 & Hin & ? & ?)]; [by left|right].
      exists id1, c1. split_and!; [|done..]. apply elem_of_app. by left. }
  split_and!; [done| | |exact Hnext|].
  - intros id1 l1 m1 h. rewrite Hr. destruct (decide (id1 = id')) as [->|Hne].
    + rewrite lookup_insert_eq. intros [= <-] Hm1 Hcl Hh. apply elem_of_visited in Hm1 as (m0 & Hm0 & E1).
      destruct (visit_cases gap c m0) as [E|(m' & E & Er & _)]; rewrite E in E1; cbn [fst] in E1; subst m1.
      * destruct (Hold m0 h Hm0 Hcl Hh) as [?|(id1 & c1 & Hin & ? & ?)]; [by left|right].
        exists id1, c1. split_and!; [|done..]. apply elem_of_app. by left.
      * right. exists id', m'. split_and!; [|lia|done]. apply elem_of_app. right. apply list_elem_of_fmap. exists m'. split; [done|].
        apply elem_of_queued. exists m0. split; [done|]. rewrite E. by left.
    + rewrite lookup_insert_ne by done. intros El Hm Hcl Hh.
      destruct (Hp _ _ _ _ El Hm Hcl Hh) as [?|(id2 & c2 & Hin & Hle & Hh2)]; [by left|].
      apply elem_of_cons in Hin as [[= -> ->]|Hin].
      * destruct (Hnext h Hh2) as [?|(id3 & c3 & ? & ? & ?)]; [by left|right]. exists id3, c3. split_and!; [done|lia|done].
      * right. exists id2, c2. split_and!; [|done..]. apply elem_of_app. by left.
  - apply Forall_app_2; [done|]. apply Forall_fmap, Forall_forall. intros m Hm. cbn [fst snd compose].
    split_and!; [done|lia|]. apply elem_of_queued in Hm as (m0 & _ & Hm).
    destruct (visit_cases gap c m0) as [E|(m' & E & _ & El & _)]; rewrite E in Hm; [by apply not_elem_of_nil in Hm|].
    cbn [snd] in Hm. apply list_elem_of_singleton in Hm as ->. lia.
  - intros id1 c1 h [Hin|Hin]%elem_of_app Hh; [exists id1, c1; split; [by right|done]|].
    apply list_elem_of_fmap in Hin as (m & [= -> ->] & Hm). apply elem_of_queued in Hm as (m0 & Hm0 & Hm).
    destruct (visit_cases gap c m0) as [E|(m' & E & Er & _ & Hg)]; rewrite E in Hm; [by apply not_elem_of_nil in Hm|].
    cbn [snd] in Hm. apply list_elem_of_singleton in Hm as ->. exists id, c. split; [by left|].
    apply (reaches_tail _ id _ id' gap flags (u_range <$> l) (u_range m0)); [done| | |done|by rewrite <- Er].
    + unfold ranges. by rewrite lookup_fmap, Hl.
    + apply list_elem_of_fmap. by exists m0.
Qed.

(** A head that has been confirmed. *)
Lemma pending_head u u' queue id c flags seen :
  link_at id = Some (Head flags) -> lowered u u' -> pending u ((id, c) :: queue) seen ->
  pending u' queue (fun h => seen h \/ h = (c.(u_range), flags)).
Proof.
  intros Hlink [Hr Hlow] Hp id1 l1 m1 h Hl1 Hm1 Hcl Hh. rewrite Hr in Hh |- *.
  destruct (Hlow _ _ _ Hl1 Hm1) as (l & m & Hl & Hm & Er & Hle). rewrite Er in Hh.
  destruct (Hp _ _ _ _ Hl Hm ltac:(lia) Hh) as [?|(id2 & c2 & Hin & ? & Hh2)]; [by left; left|].
  apply elem_of_cons in Hin as [[= -> ->]|Hin]; [|right; by exists id2, c2].
  left. right. by apply (reaches_inv _ _ _ _ _ Hlink) in Hh2.
Qed.

Lemma settled_ext u seen seen' : (forall h, seen h -> seen' h) -> settled u seen -> settled u seen'.
Proof. unfold settled. eauto. Qed.

(** What the loop does from a queue. *)
Definition loop_result (pattern_id : Z) (tail_match : Match) (fuel : nat) (u : unconfirmed) (queue : list queue_item)
    (next : option Z) (seen : (Z * Z) * Z -> Prop) : Prop :=
  exists heads u',
    (forall st, st.(tracker).(compiled_rules) = rules ->
       chain_loop fuel (put u st) pattern_id tail_match queue next = put u' <$> track_heads pattern_id tail_match heads st) /\
    ranges u' = ranges u /\
    (forall h, h ∈ heads -> exists id c, (id, c) ∈ queue /\ reaches (ranges u) id c.(u_range) h) /\
    (forall id c h, (id, c) ∈ queue -> reaches (ranges u) id c.(u_range) h -> seen h \/ h ∈ heads) /\
    settled u' (fun h => seen h \/ h ∈ heads).

Definition next_ok (next : option Z) : Prop :=
  match next with Some id => is_Some (link_at id) /\ 0 <= id < len rules.(sub_patterns) | None => True end.

Lemma link_at_lt id link : link_at id = Some link -> 0 <= id < len rules.(sub_patterns).
Proof. unfold link_at. destruct (get _ id) as [ps|] eqn:E; [|done]. intros _. by eapply get_lt. Qed.

Lemma bind_fmap_put u (r : res (Tracking T)) (f : Tracking T -> res (Tracking T)) :
  (put u <$> r) ≫= f = r ≫= (fun st => f (put u st)).
Proof. by destruct r. Qed.

Lemma loop_head (Hok : chains_ok) pattern_id tail_match fuel u queue id c next seen flags :
  link_at id = Some (Head flags) -> next_ok next -> pending u ((id, c) :: queue) seen ->
  (forall u' seen', lowered u u' -> pending u' queue seen' -> loop_result pattern_id tail_match fuel u' queue next seen') ->
  loop_result pattern_id tail_match (S fuel) u ((id, c) :: queue) next seen.
Proof.
  intros Hlink Hnext Hp IH. destruct (link_at_sub _ _ Hlink) as (p & s & Es & El).
  destruct (reset_chain_spec Hok (length rules.(sub_patterns)) next u Hnext) as (u1 & Hlow & Hreset).
  set (h0 := (c.(u_range), flags)). set (seen1 := fun h => seen h \/ h = h0).
  destruct (IH u1 seen1 Hlow (pending_head _ _ _ _ _ _ _ Hlink Hlow Hp)) as (heads & u' & Hrun & Hr & Hs & Hc & Hset).
  pose proof (proj1 Hlow) as Hr1. rewrite Hr1 in *. exists (h0 :: heads), u'. split_and!; [|done| | |].
  - intros st Hst. cbn [chain_loop]. change (compiled_rules (tracker (put u st))) with (compiled_rules (tracker st)).
    rewrite Hst, Es. cbn [mbind res_bind].
    assert (Hconf : confirm_head (put u st) pattern_id tail_match flags c next =
      put u1 <$> track_match st pattern_id
        {| base := tail_match.(base); range := (fst c.(u_range), snd tail_match.(range)); match_xor_key := None |}
        (has_flag flags FlagGreedyRegexp)).
    { unfold confirm_head. rewrite track_match_put, bind_fmap_put. destruct (track_match st _ _ _) as [st1| |] eqn:Et; [|done..].
      apply track_match_rules in Et. cbn [mbind res_bind]. change (tracker (put u st1)) with (set_unconfirmed u (tracker st1)).
      rewrite rules_set. rewrite Et, Hst, Hreset by congruence. done. }
    assert (Hloop : (st0 ← confirm_head (put u st) pattern_id tail_match flags c next;
      chain_loop fuel st0 pattern_id tail_match queue next) = put u' <$> track_heads pattern_id tail_match (h0 :: heads) st).
    { rewrite Hconf, bind_fmap_put. unfold track_heads. cbn [for_each fst snd]. subst h0. cbn [fst snd].
      destruct (track_match st _ _ _) as [st1| |] eqn:Et; [|done..].
      cbn [mbind res_bind]. apply Hrun. apply track_match_rules in Et. congruence. }
    destruct s; cbn in El; simplify_eq; exact Hloop.
  - intros h [->|Hh]%elem_of_cons.
    + exists id, c. split; [by left|]. by apply reaches_head.
    + destruct (Hs h Hh) as (id1 & c1 & Hin & ?). exists id1, c1. split; [by right|done].
  - intros id1 c1 h [[= -> ->]|Hin]%elem_of_cons Hh.
    + right. apply (reaches_inv _ _ _ _ _ Hlink) in Hh as ->. by left.
    + destruct (Hc _ _ _ Hin Hh) as [[?| ->]|?]; [by left|right; by left|right; by right].
  - eapply settled_ext; [|exact Hset]. intros h [[?| ->]|?]; [by left|right; by left|right; by right].
Qed.

Lemma loop_tail (Hok : chains_ok) pattern_id tail_match n fuel u queue id c next seen id' gap flags :
  link_at id = Some (Tail id' gap flags) -> next_ok next -> queue_ok ((id, c) :: queue) -> bounded n u ->
  pending u ((id, c) :: queue) seen -> (weight n ((id, c) :: queue) <= S fuel)%nat ->
  (forall u' queue' next', ranges u' = ranges u -> next_ok next' -> queue_ok queue' -> pending u' queue' seen ->
     (weight n queue' <= fuel)%nat -> loop_result pattern_id tail_match fuel u' queue' next' seen) ->
  loop_result pattern_id tail_match (S fuel) u ((id, c) :: queue) next seen.
Proof.
  intros Hlink Hnext Hq Hb Hp Hw IH. destruct (link_at_sub _ _ Hlink) as (p & s & Es & El).
  destruct (Hok _ _ _ _ Hlink) as [Hid [link' Hlink']].
  assert (Hunfold : forall st, st.(tracker).(compiled_rules) = rules ->
    chain_loop (S fuel) (put u st) pattern_id tail_match ((id, c) :: queue) next =
    let '(st, queued, next) := extend_chain (put u st) id' gap flags c next in
    chain_loop fuel st pattern_id tail_match (queue ++ queued) next).
  { intros st Hst. cbn [chain_loop]. change (compiled_rules (tracker (put u st))) with (compiled_rules (tracker st)).
    rewrite Hst, Es. cbn [mbind res_bind]. destruct s; cbn in El; simplify_eq; done. }
  rewrite weight_cons in Hw. cbn [fst] in Hw. pose proof (Nat.pow_nonzero (S n) (S (Z.to_nat id))) as Hpow.
  destruct (u !! id') as [l|] eqn:El'.
  - destruct (pending_extend Hok u queue id c id' gap flags l seen Hlink El' Hq Hp) as (Hr & Hp' & Hq' & Hreach & Hsrc).
    set (next' := if has_flag flags FlagLastInChain && has_flag flags FlagGreedyRegexp then Some id' else next).
    destruct (IH _ (queue ++ ((fun m => (id', m)) <$> snd (visit_all gap c l))) next' Hr)
      as (heads & u' & Hrun & Hru & Hs & Hc & Hset); [|done|done| |].
    + subst next'. destruct (_ && _); [|done]. split; [by exists link'|by eapply link_at_lt].
    + pose proof (weight_tail n queue id id' (snd (visit_all gap c l)) Hid) as Hwt.
      pose proof (length_queued gap c l). apply Hb in El'. lia.
    + rewrite Hr in *. exists heads, u'. split_and!; [|done| | |done].
      * intros st Hst. rewrite Hunfold by done. unfold extend_chain. cbn [put with_tracker tracker set_unconfirmed unconfirmed_matches].
        rewrite El'. rewrite (surjective_pairing (visit_all gap c l)). by apply (Hrun st).
      * intros h Hh. destruct (Hs h Hh) as (id1 & c1 & Hin & Hh1). by apply (Hsrc id1 c1).
      * intros id1 c1 h [[= -> ->]|Hin]%elem_of_cons Hh.
        -- destruct (Hreach h Hh) as [?|(id2 & c2 & Hin2 & _ & Hh2)]; [by left|]. by apply (Hc id2 c2).
        -- apply (Hc id1 c1); [apply elem_of_app; by left|done].
  - assert (Hno : forall h, ~ reaches (ranges u) id (u_range c) h).
    { intros h (l & r' & Hl & _)%(reaches_inv _ _ _ _ _ Hlink). apply ranges_lookup in Hl as (? & ? & _). congruence. }
    destruct (IH u queue next) as (heads & u' & Hrun & Hru & Hs & Hc & Hset); [done|done|by apply Forall_cons in Hq as [_ ?]| |lia|].
    + intros id1 l1 m1 h Hl1 Hm1 Hcl Hh. destruct (Hp _ _ _ _ Hl1 Hm1 Hcl Hh) as [?|(id2 & c2 & Hin & ? & ?)]; [by left|right].
      apply elem_of_cons in Hin as [[= -> ->]|Hin]; [by destruct (Hno h)|]. by exists id2, c2.
    + exists heads, u'. split_and!; [|done| | |done].
      * intros st Hst. rewrite Hunfold by done. unfold extend_chain. cbn [put with_tracker tracker set_unconfirmed unconfirmed_matches].
        rewrite El', app_nil_r. by apply (Hrun st).
      * intros h Hh. destruct (Hs h Hh) as (id1 & c1 & Hin & Hh1). exists id1, c1. split; [by right|done].
      * intros id1 c1 h [[= -> ->]|Hin]%elem_of_cons Hh; [by destruct (Hno h)|]. by apply (Hc id1 c1).
Qed.

Lemma chain_loop_spec (Hok : chains_ok) pattern_id tail_match n fuel u queue next seen :
  next_ok next -> queue_ok queue -> bounded n u -> pending u queue seen -> (weight n queue <= fuel)%nat ->
  loop_result pattern_id tail_match fuel u queue next seen.
Proof.
  revert u queue next seen. induction fuel as [|fuel IH]; intros u queue next seen Hn Hq Hb Hp Hw.
  all: destruct queue as [|[id c] queue].
  1, 3: exists [], u; split_and!;
    [intros st _; done|done|intros h Hh; by apply elem_of_nil in Hh|intros id c h Hin; by apply elem_of_nil in Hin|];
    intros id l m h Hl Hm Hcl Hh; destruct (Hp _ _ _ _ Hl Hm Hcl Hh) as [?|(id' & c' & Hin & _)]; [by left|by apply elem_of_nil in Hin].
  - exfalso. rewrite weight_cons in Hw. pose proof (Nat.pow_nonzero (S n) (S (Z.to_nat id))). cbn [fst] in Hw. lia.
  - pose proof Hq as Hq0. apply Forall_cons in Hq0 as [([[flags|id' gap flags] Hlink] & Hid & _) Hq'].
    + apply (loop_head Hok _ _ _ _ _ _ _ _ _ flags Hlink Hn Hp). intros u' seen' Hlow Hp'. apply IH; [done..| |done|].
      * by eapply ranges_bounded; [apply Hlow|].
      * rewrite weight_cons in Hw. pose proof (Nat.pow_nonzero (S n) (S (Z.to_nat id))). cbn [fst] in Hw. lia.
    + eapply (loop_tail Hok _ _ n); [exact Hlink|done..|]. intros u' queue' next' Hr ????. apply IH; try done.
      by eapply ranges_bounded.
Qed.
End Chains.

Arguments link_at {_}.
Arguments chains_ok {_}.
Arguments reaches {_}.
Arguments settled {_}.

(** * Properties *)

(** C4: the confirmation of the chains that end in a match of the last
    sub-pattern ends, with a number of iterations bounded by the matches recorded
    for every sub-pattern and the length of the chain. It tracks matches from
    heads of chains to the end of that match, and only where matches of all the
    sub-patterns of the chain are at distances within their gaps; every such head
    is tracked, but for those that only matches used by an earlier chain reach,
    which have been seen already. The ranges of the recorded matches do not
    change. *)
Theorem chain_confirmed {T} `{VecGrowth} `{BitSliceSet} (st : Tracking T) (pattern_id tail_id : Z) (tail_match : Match)
    (seen : (Z * Z) * Z -> Prop) (n fuel : nat) id' gap flags :
  let rules := st.(tracker).(compiled_rules) in
  let u := st.(tracker).(unconfirmed_matches) in
  chains_ok rules -> link_at rules tail_id = Some (Tail id' gap flags) ->
  bounded n u -> (S n ^ S (Z.to_nat tail_id) <= fuel)%nat -> settled rules u seen ->
  exists heads u',
    verify_chain_of_matches fuel st pattern_id tail_id tail_match =
      put u' <$> track_heads pattern_id tail_match heads st /\
    ranges u' = ranges u /\
    (forall h, h ∈ heads -> reaches rules (ranges u) tail_id tail_match.(range) h) /\
    (forall h, reaches rules (ranges u) tail_id tail_match.(range) h -> seen h \/ h ∈ heads) /\
    settled rules u' (fun h => seen h \/ h ∈ heads).
Proof.
  cbn zeta. intros Hok Hlink Hb Hf Hs. set (c := {| u_range := tail_match.(range); chain_length := 1 |}).
  destruct (chain_loop_spec _ Hok pattern_id tail_match n fuel st.(tracker).(unconfirmed_matches) [(tail_id, c)] None seen)
    as (heads & u' & Hrun & Hr & H1 & H2 & H3).
  - done.
  - apply Forall_singleton. cbn. split_and!; [by eexists|apply link_at_lt in Hlink; lia|done].
  - done.
  - intros id l m h Hl Hm Hcl Hh. left. by apply (Hs id l m h).
  - rewrite weight_cons. change (weight n []) with 0%nat. cbn [fst]. lia.
  - exists heads, u'. split_and!; [|done| | |done].
    + rewrite <- (put_same st) at 1. by apply Hrun.
    + intros h Hh. destruct (H1 h Hh) as (id & c' & [= -> ->]%list_elem_of_singleton & ?). done.
    + intros h Hh. by apply (H2 tail_id c); [left|].
Qed.

Definition sample_rules : Rules (list (list Z)) :=
  {| rules_atoms := []; lit_pool := pool_new; anchored_sub_patterns := []; fast_scan_patterns := [false];
     num_rules := 1; num_patterns := 1; filesize_bounds := []; header_constraints := [];
     sub_patterns := [(0, SubPattern.RegexpChainHead 0); (0, SubPattern.RegexpChainTail 0 (Bounded 1 10) FlagLastInChain)] |}.

Definition sample_tracking : Tracking (list (list Z)) :=
  {| tracker := {| pattern_matches := patterns_new; disabled_patterns := ∅; compiled_rules := sample_rules; fast_scan := false;
                   unconfirmed_matches := {[ 0 := [{| u_range := (1, 3); chain_length := 0 |}] ]} |};
     main_memory := replicate (Z.to_nat (MATCHING_RULES_BITMAP_BASE + 2)) 0 |}.

Lemma chain_confirmed_witness :
  exists st', verify_chain_of_matches 4 sample_tracking 0 1 (match_new (5, 8)) = Ret st' /\
    matches_of st'.(tracker).(pattern_matches) 0 = [match_new (1, 8)].
Proof.
  destruct (chain_confirmed sample_tracking 0 1 (match_new (5, 8)) (fun _ => False) 1 4 0 (Bounded 1 10) FlagLastInChain)
    as (heads & u' & E & _ & _ & Hall & _).
  - intros id id' gap flags Hl. pose proof (link_at_lt _ _ _ Hl) as Hlt. change (len _) with 2 in Hlt.
    assert (id = 0 \/ id = 1) as [-> | ->] by lia; [discriminate|]. injection Hl as <- <- <-. split; [lia|by eexists].
  - reflexivity.
  - intros id l. unfold sample_tracking. cbn [tracker unconfirmed_matches]. rewrite lookup_singleton_Some. intros [_ <-]. cbn. lia.
  - apply Nat.leb_le; reflexivity.
  - intros id l m h. unfold sample_tracking. cbn [tracker unconfirmed_matches]. rewrite lookup_singleton_Some.
    intros [_ <-] ->%list_elem_of_singleton. cbn. lia.
  - eexists. split; [vm_compute; reflexivity|vm_compute; reflexivity].
Defined.
