(* ===== verification/Scan.v ===== *)
(** The search for patterns, from [lib/src/scanner/context.rs]: the hits of
    atoms, the patterns anchored at an offset and the search loop. *)

From stdpp Require Import fin_maps gmap.
From S2P Require Import Prelude.
From S2P Require Import Cursor.
From S2P Require Import Re.
From S2P Require Import Atoms.
From S2P Require Import PosSet.
From S2P Require Import FastVM.
From S2P Require Import PikeInstr.
From S2P Require Import Hir.
From S2P Require Import ScanVerify.
From S2P Require Import StringPool.
From S2P Require Import Base64.
From S2P Require Import Rules.
From S2P Require Import Matches.
From S2P Require Import Tracker.
#[local] Open Scope Z_scope.

(** The automata of the [daachorse] crate and of [lib/src/teddy], built from the
    atoms: an atom found in the data is given with its index and offset. *)
Record AcAutomaton := {
  teddy : option (Z * (list Z -> list (Z * Z)));
  daachorse : list Z -> list (Z * Z);
}.

Inductive ScanState : Type :=
  | Idle
  | Timeout
  | ScanningData (data : list Z)
  | ScanningBlock (base : Z) (data : list Z)
  | Finished.

Section Scan.
Context {T : Type} {ST : SymbolTable T} {VG : VecGrowth} {BSS : BitSliceSet}.
Context {E : Type} {B64 : Base64 E}.
Context {MC : Memchr} {S : Type} {PS : PosSet S} {BS : BitSlice} {B : Type} {BV : BitVec B}.

(** The fields of [ScanContext] that the search uses. *)
Record ScanContext := {
  tracking : Tracking T;
  vm : VM S B;
  custom_base64_engine_cache : list (Z * E);
  scan_state : ScanState;
  ac_automaton : AcAutomaton;
  filesize : Z;
  pattern_search_done : bool;
}.
Implicit Types ctx : ScanContext.

Definition rules_of ctx : Rules T := ctx.(tracking).(tracker).(compiled_rules).

Definition with_tracking (st : Tracking T) ctx : ScanContext :=
  {| tracking := st; vm := ctx.(vm); custom_base64_engine_cache := ctx.(custom_base64_engine_cache);
     scan_state := ctx.(scan_state); ac_automaton := ctx.(ac_automaton); filesize := ctx.(filesize);
     pattern_search_done := ctx.(pattern_search_done) |}.

Definition with_vm (v : VM S B) ctx : ScanContext :=
  {| tracking := ctx.(tracking); vm := v; custom_base64_engine_cache := ctx.(custom_base64_engine_cache);
     scan_state := ctx.(scan_state); ac_automaton := ctx.(ac_automaton); filesize := ctx.(filesize);
     pattern_search_done := ctx.(pattern_search_done) |}.

Definition with_cache (c : list (Z * E)) ctx : ScanContext :=
  {| tracking := ctx.(tracking); vm := ctx.(vm); custom_base64_engine_cache := c;
     scan_state := ctx.(scan_state); ac_automaton := ctx.(ac_automaton); filesize := ctx.(filesize);
     pattern_search_done := ctx.(pattern_search_done) |}.

Definition with_state (s : ScanState) (done : bool) ctx : ScanContext :=
  {| tracking := ctx.(tracking); vm := ctx.(vm); custom_base64_engine_cache := ctx.(custom_base64_engine_cache);
     scan_state := s; ac_automaton := ctx.(ac_automaton); filesize := ctx.(filesize); pattern_search_done := done |}.

(** * Hits of atoms *)

(** The engine for a custom alphabet, built once. *)
Definition custom_base64_engine (cache : list (Z * E)) (alphabet_id : Z) (build_engine : res E) : res (list (Z * E) * E) :=
  match list_find (fun ie => fst ie = alphabet_id) cache with
  | Some (_, (_, engine)) => Ret (cache, engine)
  | None => engine ← build_engine; Ret (cache ++ [(alphabet_id, engine)], engine)
  end.

(** A match of a sub-pattern, relative to the block, is handled. *)
Definition report (fuel : nat) (st : Tracking T) (sub_pattern_id : Z) (sub_pattern : SubPattern.t) (pattern_id base : Z)
    (range : Z * Z) (key : option Z) : res (Tracking T) :=
  m ← rebase (match_new range) base;
  handle_sub_pattern_match fuel st sub_pattern_id sub_pattern pattern_id
    (match key with Some key => with_xor_key m key | None => m end).

(** The flags of the sub-patterns that can have exact atoms. *)
Definition exact_flags (s : SubPattern.t) : option Z :=
  match s with
  | SubPattern.Literal _ _ flags | SubPattern.LiteralChainHead _ flags | SubPattern.LiteralChainTail _ _ _ flags
  | SubPattern.LiteralWithMask _ _ flags | SubPattern.Regexp flags | SubPattern.RegexpChainHead flags
  | SubPattern.RegexpChainTail _ _ flags => Some flags
  | _ => None
  end.

(** [lit_pool().get_bytes(id).unwrap()] *)
Definition literal ctx (id : Z) : res (list Z) := or_panic (get_bytes (rules_of ctx).(lit_pool) id).

Definition handle_exact (fuel : nat) ctx (id pattern_id atom_pos base : Z) (sub_pattern : SubPattern.t) (atom : SubPatternAtom)
    (data : list Z) : res ScanContext :=
  flags ← or_panic (exact_flags sub_pattern);
  let match_range := (atom_pos, atom_pos + len atom.(sa_atom).(atom_bytes)) in
  full_word ← verify_full_word data match_range flags None;
  if full_word : bool then
    st ← report fuel ctx.(tracking) id sub_pattern pattern_id base match_range None;
    Ret (with_tracking st ctx)
  else Ret ctx.

Definition handle_literal (fuel : nat) ctx (id pattern_id atom_pos base : Z) (sub_pattern : SubPattern.t)
    (pattern flags : Z) (data : list Z) : res ScanContext :=
  pattern ← literal ctx pattern;
  found ← verify_literal pattern data atom_pos flags;
  if found : bool then
    st ← report fuel ctx.(tracking) id sub_pattern pattern_id base (atom_pos, atom_pos + len pattern) None;
    Ret (with_tracking st ctx)
  else Ret ctx.

(** The data given to [verify_full_word] is the slice of the match, not the whole
    data. *)
Definition handle_literal_with_mask (fuel : nat) ctx (id pattern_id atom_pos base : Z) (sub_pattern : SubPattern.t)
    (pattern mask flags : Z) (data : list Z) : res ScanContext :=
  pattern ← literal ctx pattern;
  mask ← literal ctx mask;
  _ ← assert (len pattern =? len mask);
  match get_range data atom_pos (atom_pos + len pattern) with
  | None => Ret ctx
  | Some data =>
      found ← verify_literal_with_mask_simd data pattern mask;
      if found : bool then
        let match_range := (atom_pos, atom_pos + len pattern) in
        full_word ← (if negb (has_any_flag flags (Z.lor FlagFullwordLeft FlagFullwordRight)) then Ret true
                     else verify_full_word data match_range flags None);
        if full_word : bool then
          st ← report fuel ctx.(tracking) id sub_pattern pattern_id base match_range None;
          Ret (with_tracking st ctx)
        else Ret ctx
      else Ret ctx
  end.

Definition handle_regexp (fuel : nat) ctx (id pattern_id atom_pos base : Z) (sub_pattern : SubPattern.t)
    (atom : SubPatternAtom) (flags : Z) (data : list Z) : res ScanContext :=
  '(v, st) ← verify_regexp fuel ctx.(vm) data atom_pos atom flags
    (fun st range => report fuel st id sub_pattern pattern_id base range None) ctx.(tracking);
  Ret (with_vm v (with_tracking st ctx)).

Definition handle_xor (fuel : nat) ctx (id pattern_id atom_pos base : Z) (sub_pattern : SubPattern.t)
    (atom : SubPatternAtom) (pattern flags : Z) (data : list Z) : res ScanContext :=
  pattern ← literal ctx pattern;
  key ← verify_xor pattern data atom_pos atom.(sa_atom) flags;
  match key with
  | Some key =>
      st ← report fuel ctx.(tracking) id sub_pattern pattern_id base (atom_pos, atom_pos + len pattern) (Some key);
      Ret (with_tracking st ctx)
  | None => Ret ctx
  end.

Definition handle_base64 (fuel : nat) ctx (id pattern_id atom_pos base : Z) (sub_pattern : SubPattern.t)
    (pattern padding : Z) (engine : E) (wide : bool) (data : list Z) : res ScanContext :=
  pattern ← literal ctx pattern;
  range ← verify_base64 pattern data padding atom_pos engine wide;
  match range with
  | Some range =>
      st ← report fuel ctx.(tracking) id sub_pattern pattern_id base range None;
      Ret (with_tracking st ctx)
  | None => Ret ctx
  end.

Definition handle_custom_base64 (fuel : nat) ctx (id pattern_id atom_pos base : Z) (sub_pattern : SubPattern.t)
    (pattern alphabet padding : Z) (wide : bool) (data : list Z) : res ScanContext :=
  '(cache, engine) ← custom_base64_engine ctx.(custom_base64_engine_cache) alphabet
    (a ← literal ctx alphabet; or_panic (engine_of_alphabet a));
  handle_base64 fuel (with_cache cache ctx) id pattern_id atom_pos base sub_pattern pattern padding engine wide data.

(** The verification for every kind of sub-pattern. *)
Definition verify_hit (fuel : nat) ctx (id pattern_id atom_pos base : Z) (sub_pattern : SubPattern.t)
    (atom : SubPatternAtom) (data : list Z) : res ScanContext :=
  match sub_pattern with
  | SubPattern.Literal pattern _ flags | SubPattern.LiteralChainHead pattern flags
  | SubPattern.LiteralChainTail pattern _ _ flags =>
      handle_literal fuel ctx id pattern_id atom_pos base sub_pattern pattern flags data
  | SubPattern.LiteralWithMask pattern mask flags =>
      handle_literal_with_mask fuel ctx id pattern_id atom_pos base sub_pattern pattern mask flags data
  | SubPattern.Regexp flags | SubPattern.RegexpChainHead flags | SubPattern.RegexpChainTail _ _ flags =>
      handle_regexp fuel ctx id pattern_id atom_pos base sub_pattern atom flags data
  | SubPattern.Xor pattern flags => handle_xor fuel ctx id pattern_id atom_pos base sub_pattern atom pattern flags data
  | SubPattern.Base64 pattern padding =>
      handle_base64 fuel ctx id pattern_id atom_pos base sub_pattern pattern padding STANDARD_NO_PAD false data
  | SubPattern.Base64Wide pattern padding =>
      handle_base64 fuel ctx id pattern_id atom_pos base sub_pattern pattern padding STANDARD_NO_PAD true data
  | SubPattern.CustomBase64 pattern alphabet padding =>
      handle_custom_base64 fuel ctx id pattern_id atom_pos base sub_pattern pattern alphabet padding false data
  | SubPattern.CustomBase64Wide pattern alphabet padding =>
      handle_custom_base64 fuel ctx id pattern_id atom_pos base sub_pattern pattern alphabet padding true data
  end.

(** With the feature [exact-atoms], on by default. *)
Definition handle_atom_match (fuel : nat) ctx (atom_idx match_start base : Z) (data : list Z) : res ScanContext :=
  atom ← or_panic (get (rules_of ctx).(rules_atoms) atom_idx);
  if match_start <? atom.(sa_atom).(backtrack) then Ret ctx
  else
    let atom_pos := match_start - atom.(sa_atom).(backtrack) in
    let id := atom.(sa_sub_pattern_id) in
    '(pattern_id, sub_pattern) ← get_sub_pattern (rules_of ctx) id;
    if bool_decide (pattern_id ∈ ctx.(tracking).(tracker).(disabled_patterns)) then Ret ctx
    else if atom.(sa_atom).(is_exact) then handle_exact fuel ctx id pattern_id atom_pos base sub_pattern atom data
    else verify_hit fuel ctx id pattern_id atom_pos base sub_pattern atom data.

(** * Anchored patterns *)

Definition verify_anchored_pattern (fuel : nat) (base : Z) (data : list Z) (id : Z) ctx : res ScanContext :=
  '(pattern_id, sub_pattern) ← get_sub_pattern (rules_of ctx) id;
  if bool_decide (pattern_id ∈ ctx.(tracking).(tracker).(disabled_patterns)) then Ret ctx
  else
    match sub_pattern with
    | SubPattern.Literal pattern (Some offset) flags =>
        if offset <? base then Ret ctx
        else handle_literal fuel ctx id pattern_id (offset - base) base sub_pattern pattern flags data
    | _ => Panic
    end.

Definition verify_anchored_patterns (fuel : nat) (base : Z) (data : list Z) ctx : res ScanContext :=
  for_each (rules_of ctx).(anchored_sub_patterns) (verify_anchored_pattern fuel base data) ctx.

(** * The search *)

(** [late i] tells whether the deadline has passed when the clock is read for the
    [i]-th time. The result says whether the search was completed. *)
Fixpoint ac_events (fuel : nat) (late : nat -> bool) (i : nat) (base : Z) (data : list Z) (events : list (Z * Z)) ctx
  : res (ScanContext * bool) :=
  match events with
  | [] => Ret (ctx, true)
  | (atom_idx, start) :: events =>
      if late i then Ret (ctx, false)
      else
        ctx ← handle_atom_match fuel ctx atom_idx start base data;
        ac_events fuel late (1 + i) base data events ctx
  end.

Definition ac_search_loop (fuel : nat) (late : nat -> bool) (base : Z) (data : list Z) ctx : res (ScanContext * bool) :=
  let handle ctx '(atom_idx, start) := handle_atom_match fuel ctx atom_idx start base data in
  let with_daachorse := ac_events fuel late 0 base data (ctx.(ac_automaton).(daachorse) data) ctx in
  match ctx.(ac_automaton).(teddy) with
  | Some (minimum_len, find_overlapping) =>
      if minimum_len <=? len data then
        if late O then Ret (ctx, false)
        else
          ctx ← for_each (find_overlapping data) (fun event ctx => handle ctx event) ctx;
          Ret (ctx, true)
      else with_daachorse
  | None => with_daachorse
  end.

Definition disable (pattern_id : Z) ctx : ScanContext :=
  let t := ctx.(tracking).(tracker) in
  with_tracking (with_tracker {|
    pattern_matches := t.(pattern_matches); unconfirmed_matches := t.(unconfirmed_matches);
    disabled_patterns := {[pattern_id]} ∪ t.(disabled_patterns); compiled_rules := t.(compiled_rules);
    fast_scan := t.(fast_scan) |} ctx.(tracking)) ctx.

(** Patterns whose rules cannot match files of this size are disabled. *)
Definition disable_by_filesize ctx : ScanContext :=
  foldl (fun c pb => if contains (snd pb) ctx.(filesize) then c else disable (fst pb) c) ctx (rules_of ctx).(filesize_bounds).

Definition disable_by_header (data : list Z) ctx : ScanContext :=
  foldl (fun c pc => if is_satisfied (snd pc) data then c else disable (fst pc) c) ctx (rules_of ctx).(header_constraints).

(** [false] is the error of a timeout. *)
Definition search_for_patterns (fuel : nat) (late : nat -> bool) ctx : res (ScanContext * bool) :=
  let state := ctx.(scan_state) in
  let ctx := with_state Idle ctx.(pattern_search_done) ctx in
  '(base, data, block_scanning_mode) ←
    match state with
    | ScanningData data => Ret (0, data, false)
    | ScanningBlock base data => Ret (base, data, true)
    | _ => Panic
    end;
  let ctx := if negb block_scanning_mode then disable_by_filesize ctx else ctx in
  let ctx := if base =? 0 then disable_by_header data ctx else ctx in
  ctx ← verify_anchored_patterns fuel base data ctx;
  '(ctx, completed) ← ac_search_loop fuel late base data ctx;
  Ret (with_state (if completed : bool then state else Timeout) true ctx, completed).
End Scan.
Arguments ScanContext T E S B : clear implicits.
