(* ===== verification/PatternCompiler.v ===== *)
(** The compilation of the patterns of a rule, from [lib/src/compiler/mod.rs]:
    sub-patterns, chains and atoms, the identifiers of patterns, and what is
    undone when a rule has errors. *)

From stdpp Require Import fin_maps gmap.
From S2P Require Import Prelude.
From S2P Require Import Cursor.
From S2P Require Import Re.
From S2P Require Import Atoms.
From S2P Require Import Quality.
From S2P Require Import PosSet.
From S2P Require Import PikeInstr.
From S2P Require Import Hir.
From S2P Require Import Visit.
From S2P Require Import PikeAtoms.
From S2P Require Import PikeCompiler.
From S2P Require Import FastCompiler.
From S2P Require Import ScanVerify.
From S2P Require Import StringPool.
From S2P Require Import Base64.
From S2P Require Import Rules.
#[local] Open Scope Z_scope.

(** * Patterns

    [lib/src/compiler/ir/mod.rs] *)

Definition PatternWideOnly : Z := 0x0001.
Definition PatternWideAndAscii : Z := 0x0002.
Definition PatternNocase : Z := 0x0004.
Definition PatternBase64 : Z := 0x0008.
Definition PatternBase64Wide : Z := 0x0010.
Definition PatternXor : Z := 0x0020.
Definition PatternFullword : Z := 0x0040.
Definition PatternPrivate : Z := 0x0080.
Definition PatternNonAnchorable : Z := 0x0100.

Record LiteralPattern := {
  lit_flags : Z;
  text : list Z;
  lit_anchored_at : option Z;
  xor_range : option (Z * Z);
  base64_alphabet : option (list Z);
  base64wide_alphabet : option (list Z);
  lit_filesize_bounds : FilesizeBounds;
  lit_header_constraints : HeaderConstraint;
}.

Record RegexpPattern := {
  re_flags : Z;
  re_hir : ReHir;
  re_anchored_at : option Z;
  re_filesize_bounds : FilesizeBounds;
  re_header_constraints : HeaderConstraint;
}.

Inductive Pattern : Type :=
  | PText (l : LiteralPattern)
  | PRegexp (r : RegexpPattern)
  | PHex (r : RegexpPattern).

#[export] Instance Look_eq_dec : EqDecision Look.
Proof. solve_decision. Defined.
#[export] Instance HirClass_eq_dec : EqDecision HirClass.
Proof. solve_decision. Defined.
#[export] Instance Hir_eq_dec : EqDecision Hir.
Proof.
  unfold EqDecision, RelDecision. fix IH 1. intros a b.
  destruct a as [|bs|c|l|min max g s|s|ss|ss], b as [|bs'|c'|l'|min' max' g' s'|s'|ss'|ss']; try (right; discriminate).
  - by left.
  - destruct (decide (bs = bs')); [left|right]; congruence.
  - destruct (decide (c = c')); [left|right]; congruence.
  - destruct (decide (l = l')); [left|right]; congruence.
  - destruct (IH s s'); [|right; congruence].
    destruct (decide ((min, max, g) = (min', max', g'))); [left|right]; congruence.
  - destruct (IH s s'); [left|right]; congruence.
  - destruct (@list_eq_dec _ IH ss ss'); [left|right]; congruence.
  - destruct (@list_eq_dec _ IH ss ss'); [left|right]; congruence.
Defined.
#[export] Instance Bound_eq_dec : EqDecision Bound.t.
Proof. solve_decision. Defined.
#[export] Instance FilesizeBounds_eq_dec : EqDecision FilesizeBounds.
Proof. solve_decision. Defined.
#[export] Instance HeaderConstraint_eq_dec : EqDecision HeaderConstraint.
Proof. solve_decision. Defined.
#[export] Instance LiteralPattern_eq_dec : EqDecision LiteralPattern.
Proof. solve_decision. Defined.
(** [PartialEq] for [Hir] compares the expressions and not [greedy]; the other
    comparisons are derived from it. *)
#[export] Instance ReHir_equiv : Equiv ReHir := fun h h' => h.(inner) = h'.(inner).

#[export] Instance RegexpPattern_equiv : Equiv RegexpPattern := fun r r' =>
  r.(re_flags) = r'.(re_flags) /\ r.(re_hir) ≡ r'.(re_hir) /\ r.(re_anchored_at) = r'.(re_anchored_at) /\
  r.(re_filesize_bounds) = r'.(re_filesize_bounds) /\ r.(re_header_constraints) = r'.(re_header_constraints).

#[export] Instance Pattern_equiv : Equiv Pattern := fun p p' =>
  match p, p' with
  | PText l, PText l' => l = l'
  | PRegexp r, PRegexp r' | PHex r, PHex r' => r ≡ r'
  | _, _ => False
  end.

#[export] Instance ReHir_equivalence : Equivalence (≡@{ReHir}).
Proof. split; unfold equiv, ReHir_equiv; repeat intro; congruence. Qed.
#[export] Instance RegexpPattern_equivalence : Equivalence (≡@{RegexpPattern}).
Proof.
  split; unfold equiv, RegexpPattern_equiv; repeat intro; [done| |]; destruct_and?; split_and!; try congruence;
    first [by symmetry|by etransitivity].
Qed.
#[export] Instance Pattern_equivalence : Equivalence (≡@{Pattern}).
Proof.
  split.
  - by intros [].
  - intros [] []; unfold equiv, Pattern_equiv; try done; by symmetry.
  - intros [] [] []; unfold equiv, Pattern_equiv; try done; by etransitivity.
Qed.

#[export] Instance ReHir_equiv_dec : RelDecision (≡@{ReHir}).
Proof. intros h h'. unfold equiv, ReHir_equiv. apply _. Defined.
#[export] Instance RegexpPattern_equiv_dec : RelDecision (≡@{RegexpPattern}).
Proof. intros r r'. unfold equiv, RegexpPattern_equiv. apply _. Defined.
#[export] Instance Pattern_equiv_dec : RelDecision (≡@{Pattern}).
Proof. intros [] []; unfold equiv, Pattern_equiv; apply _. Defined.

Definition flags_of (p : Pattern) : Z :=
  match p with PText l => l.(lit_flags) | PRegexp r | PHex r => r.(re_flags) end.

Definition anchored_at (p : Pattern) : option Z :=
  match p with PText l => l.(lit_anchored_at) | PRegexp r | PHex r => r.(re_anchored_at) end.

Definition set_anchor (flags : Z) (anchor : option Z) (p : Pattern) : Pattern :=
  let set r := {| re_flags := flags; re_hir := r.(re_hir); re_anchored_at := anchor;
                  re_filesize_bounds := r.(re_filesize_bounds); re_header_constraints := r.(re_header_constraints) |} in
  match p with
  | PText l => PText {| lit_flags := flags; text := l.(text); lit_anchored_at := anchor; xor_range := l.(xor_range);
                        base64_alphabet := l.(base64_alphabet); base64wide_alphabet := l.(base64wide_alphabet);
                        lit_filesize_bounds := l.(lit_filesize_bounds); lit_header_constraints := l.(lit_header_constraints) |}
  | PRegexp r => PRegexp (set r)
  | PHex r => PHex (set r)
  end.

Definition anchor_at (offset : Z) (p : Pattern) : Pattern :=
  let is_anchorable := negb (has_flag (flags_of p) PatternNonAnchorable) in
  match anchored_at p with
  | Some o => if negb (o =? offset) then set_anchor (Z.lor (flags_of p) PatternNonAnchorable) None p else p
  | None => if is_anchorable then set_anchor (flags_of p) (Some offset) p else p
  end.

Definition make_non_anchorable (p : Pattern) : Pattern :=
  set_anchor (Z.lor (flags_of p) PatternNonAnchorable) None p.

Record PatternInRule := {
  identifier_starts_with_underscore : bool;
  pattern : Pattern;
  in_use : bool;
  fast_scan_allowed : bool;
}.

(** * The compiler *)

Inductive CompileError : Type :=
  | InvalidRegexp (e : Error)
  | MatchesEmptyStrings
  | SlowPattern
  | UnusedPattern.

(** The identifiers of the patterns of the rules stand for the rules. *)
Record Compiler (T : Type) := {
  c_lit_pool : BStringPool T;
  c_sub_patterns : list (Z * SubPattern.t);
  c_anchored_sub_patterns : list Z;
  c_atoms : list SubPatternAtom;
  c_re_code : list Z;
  next_pattern_id : Z;
  patterns : list (Pattern * Z);
  c_fast_scan_patterns : list bool;
  c_rules : list (list Z);
  c_filesize_bounds : list (Z * FilesizeBounds);
  c_header_constraints : list (Z * HeaderConstraint);
  error_on_slow_pattern : bool;
}.
Arguments c_lit_pool {_}.
Arguments c_sub_patterns {_}.
Arguments c_anchored_sub_patterns {_}.
Arguments c_atoms {_}.
Arguments c_re_code {_}.
Arguments next_pattern_id {_}.
Arguments patterns {_}.
Arguments c_fast_scan_patterns {_}.
Arguments c_rules {_}.
Arguments c_filesize_bounds {_}.
Arguments c_header_constraints {_}.
Arguments error_on_slow_pattern {_}.
Arguments Build_Compiler {_}.

(** Functions of the compiler change its state also when they fail. *)
Definition try_bind {C A B} (r : res (C * (CompileError + A))) (f : C -> A -> res (C * (CompileError + B)))
  : res (C * (CompileError + B)) :=
  '(c, r) ← r; match r with inl e => Ret (c, inl e) | inr a => f c a end.

(** [itertools::minmax] *)
Inductive MinMaxResult : Type :=
  | NoElements
  | OneElement (x : Z)
  | MinMax (min max : Z).

Definition minmax (l : list Z) : MinMaxResult :=
  match l with
  | [] => NoElements
  | [x] => OneElement x
  | x :: l => MinMax (foldl Z.min x l) (foldl Z.max x l)
  end.

(** [regex_syntax::hir::Properties::is_alternation_literal] *)
Class AlternationLiteral := properties_is_alternation_literal : Hir -> bool.

(** It holds for literals and for alternations of literals. *)
Class AlternationLiteralLaws `{AlternationLiteral} := is_alternation_literal_spec h :
  properties_is_alternation_literal h = true ->
  match h with
  | HLiteral _ | HConcat _ => True
  | HAlternation subs => Forall (fun s => exists bs, s = HLiteral bs) subs
  | _ => False
  end.

(** An implementation. *)
Definition is_literal (h : Hir) : bool := match h with HLiteral _ => true | _ => false end.

#[export] Instance plain_AlternationLiteral : AlternationLiteral := fun h =>
  match h with HLiteral _ => true | HAlternation subs => forallb is_literal subs | _ => false end.

#[export] Instance plain_AlternationLiteralLaws : AlternationLiteralLaws.
Proof.
  intros h. destruct h; try done. cbn. rewrite forallb_forall, Forall_forall. intros H s Hs.
  specialize (H s). destruct s; try by rewrite list_elem_of_In in Hs; apply H in Hs. by eexists.
Qed.

(** [re::hir::Hir::is_alternation_literal] *)
Definition is_concat (h : Hir) : bool := match h with HConcat _ => true | _ => false end.

Definition is_alternation_literal `{AlternationLiteral} (h : Hir) : bool :=
  if properties_is_alternation_literal h && negb (is_concat h) then true
  else match h with HCapture sub => properties_is_alternation_literal sub && negb (is_concat sub) | _ => false end.

Section PatternCompiler.
Context {T : Type} {ST : SymbolTable T} {E : Type} {B64 : Base64 E} {IT : Itertools} {RS : RegexSyntax} {AL : AlternationLiteral}.
Context {VI : HirVisit} {BS : BitSlice} {B : Type} {BV : BitVec B} {LS : LiteralSyntax}.
Notation Compiler := (Compiler T).
Implicit Types c : Compiler.

Definition set_pool (p : BStringPool T) c : Compiler :=
  {| c_lit_pool := p; c_sub_patterns := c.(c_sub_patterns); c_anchored_sub_patterns := c.(c_anchored_sub_patterns);
     c_atoms := c.(c_atoms); c_re_code := c.(c_re_code); next_pattern_id := c.(next_pattern_id); patterns := c.(patterns);
     c_fast_scan_patterns := c.(c_fast_scan_patterns); c_rules := c.(c_rules); c_filesize_bounds := c.(c_filesize_bounds);
     c_header_constraints := c.(c_header_constraints); error_on_slow_pattern := c.(error_on_slow_pattern) |}.

Definition set_re_code (code : list Z) c : Compiler :=
  {| c_lit_pool := c.(c_lit_pool); c_sub_patterns := c.(c_sub_patterns); c_anchored_sub_patterns := c.(c_anchored_sub_patterns);
     c_atoms := c.(c_atoms); c_re_code := code; next_pattern_id := c.(next_pattern_id); patterns := c.(patterns);
     c_fast_scan_patterns := c.(c_fast_scan_patterns); c_rules := c.(c_rules); c_filesize_bounds := c.(c_filesize_bounds);
     c_header_constraints := c.(c_header_constraints); error_on_slow_pattern := c.(error_on_slow_pattern) |}.

Definition set_sub_patterns (s : list (Z * SubPattern.t)) (anchored : list Z) (atoms : list SubPatternAtom) c : Compiler :=
  {| c_lit_pool := c.(c_lit_pool); c_sub_patterns := s; c_anchored_sub_patterns := anchored;
     c_atoms := atoms; c_re_code := c.(c_re_code); next_pattern_id := c.(next_pattern_id); patterns := c.(patterns);
     c_fast_scan_patterns := c.(c_fast_scan_patterns); c_rules := c.(c_rules); c_filesize_bounds := c.(c_filesize_bounds);
     c_header_constraints := c.(c_header_constraints); error_on_slow_pattern := c.(error_on_slow_pattern) |}.

Definition set_patterns (next : Z) (p : list (Pattern * Z)) (fast : list bool) c : Compiler :=
  {| c_lit_pool := c.(c_lit_pool); c_sub_patterns := c.(c_sub_patterns); c_anchored_sub_patterns := c.(c_anchored_sub_patterns);
     c_atoms := c.(c_atoms); c_re_code := c.(c_re_code); next_pattern_id := next; patterns := p;
     c_fast_scan_patterns := fast; c_rules := c.(c_rules); c_filesize_bounds := c.(c_filesize_bounds);
     c_header_constraints := c.(c_header_constraints); error_on_slow_pattern := c.(error_on_slow_pattern) |}.

Definition set_rules (r : list (list Z)) (f : list (Z * FilesizeBounds)) (h : list (Z * HeaderConstraint)) c : Compiler :=
  {| c_lit_pool := c.(c_lit_pool); c_sub_patterns := c.(c_sub_patterns); c_anchored_sub_patterns := c.(c_anchored_sub_patterns);
     c_atoms := c.(c_atoms); c_re_code := c.(c_re_code); next_pattern_id := c.(next_pattern_id); patterns := c.(patterns);
     c_fast_scan_patterns := c.(c_fast_scan_patterns); c_rules := r; c_filesize_bounds := f;
     c_header_constraints := h; error_on_slow_pattern := c.(error_on_slow_pattern) |}.

Definition compiler_new (error_on_slow : bool) : Compiler :=
  {| c_lit_pool := pool_new; c_sub_patterns := []; c_anchored_sub_patterns := []; c_atoms := []; c_re_code := [];
     next_pattern_id := 0; patterns := []; c_fast_scan_patterns := []; c_rules := []; c_filesize_bounds := [];
     c_header_constraints := []; error_on_slow_pattern := error_on_slow |}.

(** * Sub-patterns *)

(** [as u32] on the number of sub-patterns. *)
Definition add_sub_pattern {A} c (pattern_id : Z) (sub_pattern : SubPattern.t) (atoms : list A) (f : Z -> A -> SubPatternAtom)
  : Compiler * Z :=
  let sub_pattern_id := wrap_u32 (len c.(c_sub_patterns)) in
  let '(anchored, new_atoms) :=
    match sub_pattern with
    | SubPattern.Literal _ (Some _) _ => (c.(c_anchored_sub_patterns) ++ [sub_pattern_id], c.(c_atoms))
    | _ => (c.(c_anchored_sub_patterns), c.(c_atoms) ++ (f sub_pattern_id <$> atoms))
    end in
  (set_sub_patterns (c.(c_sub_patterns) ++ [(pattern_id, sub_pattern)]) anchored new_atoms c, sub_pattern_id).

Definition intern c (bytes : list Z) : res (Compiler * Z) :=
  '(p, id) ← get_or_intern c.(c_lit_pool) bytes; Ret (set_pool p c, id).

Definition intern_literal c (literal : list Z) (wide : bool) : res (Compiler * Z) :=
  intern c (if wide then make_wide literal else literal).

Definition get_literal c (id : Z) : res (list Z) := or_panic (get_bytes c.(c_lit_pool) id).

(** * Literal patterns *)

(** The forms of the text, each with its best atom and flags. *)
Definition main_patterns (p : LiteralPattern) (flags : Z) : res (list (list Z * Atom * Z)) :=
  wide ← (if has_any_flag p.(lit_flags) (Z.lor PatternWideOnly PatternWideAndAscii) then
            let w := make_wide p.(text) in a ← best_atom_in_bytes w; Ret [(w, a, Z.lor flags FlagWide)]
          else Ret []);
  ascii ← (if negb (has_flag p.(lit_flags) PatternWideOnly) then
             a ← best_atom_in_bytes p.(text); Ret [(p.(text), a, flags)]
           else Ret []);
  Ret (wide ++ ascii).

(** The sub-patterns for [base64], or for [base64wide]. *)
Definition c_base64 c (pattern_id pattern_lit_id : Z) (main_pattern : list Z) (alphabet : option (list Z)) (wide : bool)
  : res Compiler :=
  patterns ← base64_patterns main_pattern alphabet;
  for_each patterns (fun pp c =>
    let '(padding, base64_pattern) := pp in
    '(c, sub_pattern) ←
      match alphabet with
      | Some a =>
          '(c, id) ← intern c a;
          Ret (c, (if wide then SubPattern.CustomBase64Wide else SubPattern.CustomBase64) pattern_lit_id id padding)
      | None => Ret (c, (if wide then SubPattern.Base64Wide else SubPattern.Base64) pattern_lit_id padding)
      end;
    atom ← best_atom_in_bytes (if wide then make_wide base64_pattern else base64_pattern);
    Ret (fst (add_sub_pattern c pattern_id sub_pattern [make_inexact atom] from_atom))) c.

Definition c_main_pattern (pattern_id : Z) (p : LiteralPattern) (mp : list Z * Atom * Z) c : res Compiler :=
  let '(main_pattern, best_atom, flags) := mp in
  '(c, pattern_lit_id) ← intern c main_pattern;
  if has_flag p.(lit_flags) PatternXor then
    _ ← assert (negb (has_flag p.(lit_flags) (Z.lor (Z.lor PatternBase64 PatternBase64Wide) PatternNocase)));
    '(lo, hi) ← or_panic p.(xor_range);
    Ret (fst (add_sub_pattern c pattern_id (SubPattern.Xor pattern_lit_id flags) (xor_combinations best_atom lo hi) from_atom))
  else if has_flag p.(lit_flags) PatternNocase then
    _ ← assert (negb (has_flag p.(lit_flags) (Z.lor (Z.lor PatternBase64 PatternBase64Wide) PatternXor)));
    Ret (fst (add_sub_pattern c pattern_id (SubPattern.Literal pattern_lit_id None (Z.lor flags FlagNocase))
                (case_combinations best_atom) from_atom))
  else if has_any_flag p.(lit_flags) (Z.lor PatternBase64 PatternBase64Wide) then
    _ ← assert (negb (has_flag p.(lit_flags) (Z.lor (Z.lor PatternXor PatternFullword) PatternNocase)));
    c ← (if has_flag p.(lit_flags) PatternBase64
         then c_base64 c pattern_id pattern_lit_id main_pattern p.(base64_alphabet) false else Ret c);
    if has_flag p.(lit_flags) PatternBase64Wide
    then c_base64 c pattern_id pattern_lit_id main_pattern p.(base64wide_alphabet) true else Ret c
  else
    Ret (fst (add_sub_pattern c pattern_id (SubPattern.Literal pattern_lit_id p.(lit_anchored_at) flags) [best_atom] from_atom)).

Definition full_word_flags (full_word : bool) : Z :=
  if full_word then Z.lor FlagFullwordLeft FlagFullwordRight else 0.

Definition c_literal_pattern (pattern_id : Z) (p : LiteralPattern) c : res Compiler :=
  mps ← main_patterns p (full_word_flags (has_flag p.(lit_flags) PatternFullword));
  for_each mps (c_main_pattern pattern_id p) c.

(** * Regular expressions *)

Definition is_slow (lens : list Z) : bool :=
  match minmax lens with
  | NoElements => true
  | OneElement n => n <? 2
  | MinMax min max => (min <? 2) || ((min =? 2) && (max =? 2) && (2700 <? len lens))
  end.

(** The warnings are not modelled. *)
Definition c_regexp c (hir : ReHir) : res (Compiler * (CompileError + (list RegexpAtom * bool))) :=
  '(code, r) ← FastCompiler.compile hir c.(c_re_code);
  '(code, r, is_fast_regexp) ←
    match r with
    | inl FastIncompatible =>
        r ← PikeCompiler.compile hir code;
        match r with
        | inl e => Ret (code, inl e, false)
        | inr (code, atoms) => Ret (code, inr atoms, false)
        end
    | r => Ret (code, r, true)
    end;
  let c := set_re_code code c in
  match r with
  | inl e => Ret (c, inl (InvalidRegexp e))
  | inr re_atoms =>
      if bool_decide (minimum_len hir = Some 0) then Ret (c, inl MatchesEmptyStrings)
      else if is_slow (rx_len <$> re_atoms) && c.(error_on_slow_pattern) then Ret (c, inl SlowPattern)
      else Ret (c, inr (re_atoms, is_fast_regexp))
  end.

(** [atoms.iter().cloned().map(|atom| atom.make_wide())] *)
Definition wide_atoms (atoms : list RegexpAtom) : res (list RegexpAtom) :=
  for_each atoms (fun a l => w ← rx_make_wide a; Ret (l ++ [w])) [].

(** The sub-patterns of a regular expression, wide and narrow. *)
Definition add_wide c (wide : bool) (pattern_id : Z) (sub : SubPattern.t) (atoms : list RegexpAtom) (id : Z) : res (Compiler * Z) :=
  if wide then w ← wide_atoms atoms; Ret (add_sub_pattern c pattern_id sub w from_regexp_atom) else Ret (c, id).

Definition add_raw c (raw : bool) (pattern_id : Z) (sub : SubPattern.t) (atoms : list RegexpAtom) (id : Z) : Compiler * Z :=
  if raw then add_sub_pattern c pattern_id sub atoms from_regexp_atom else (c, id).

Definition process_literal (pattern_id : Z) (anchored_at : option Z) (flags : Z) (literal : list Z) (wide : bool) c
  : res Compiler :=
  '(c, pattern_lit_id) ← intern_literal c literal wide;
  bytes ← get_literal c pattern_lit_id;
  best_atom ← best_atom_in_bytes bytes;
  let case_insensitive := has_flag flags FlagNocase in
  let sub_pattern := SubPattern.Literal pattern_lit_id anchored_at (if wide then Z.lor flags FlagWide else flags) in
  Ret (fst (add_sub_pattern c pattern_id sub_pattern
              (if case_insensitive then case_combinations best_atom else [best_atom]) from_atom)).

Definition process_raw_wide (raw wide : bool) (pattern_id : Z) (anchored_at : option Z) (flags : Z) (literal : list Z) c
  : res Compiler :=
  c ← (if raw then process_literal pattern_id anchored_at flags literal false c else Ret c);
  if wide then process_literal pattern_id anchored_at flags literal true c else Ret c.

Definition c_alternation_literal c (pattern_id : Z) (h : Hir) (anchored_at : option Z) (pflags : Z) : res Compiler :=
  let raw := negb (has_flag pflags PatternWideOnly) in
  let wide := has_any_flag pflags (Z.lor PatternWideOnly PatternWideAndAscii) in
  let flags := Z.lor (if has_flag pflags PatternNocase then FlagNocase else 0)
                     (full_word_flags (has_flag pflags PatternFullword)) in
  let process := process_raw_wide raw wide pattern_id anchored_at flags in
  match (match h with HCapture sub => sub | h => h end) with
  | HLiteral literal => process literal c
  | HAlternation literals =>
      for_each literals (fun l c => match l with HLiteral literal => process literal c | _ => Panic end) c
  | _ => Panic
  end.

Definition c_literal_chain_head c (pattern_id : Z) (literal : list Z) (flags : Z) : res (Compiler * Z) :=
  '(c, id) ← intern_literal c literal (has_flag flags FlagWide);
  bytes ← get_literal c id;
  atoms ← extract_atoms bytes flags;
  Ret (add_sub_pattern c pattern_id (SubPattern.LiteralChainHead id flags) atoms from_atom).

Definition c_literal_chain_tail c (pattern_id : Z) (literal : list Z) (chained_to : Z) (gap : ChainedPatternGap) (flags : Z)
  : res (Compiler * Z) :=
  '(c, id) ← intern_literal c literal (has_flag flags FlagWide);
  bytes ← get_literal c id;
  atoms ← extract_atoms bytes flags;
  Ret (add_sub_pattern c pattern_id (SubPattern.LiteralChainTail id chained_to gap flags) atoms from_atom).

(** The identifiers of the last sub-patterns of the raw and wide chains. *)
Definition c_chain_head c (pattern_id : Z) (leading : ReHir) (raw wide full_word : bool) (common_flags : Z)
  : res (Compiler * (CompileError + (Z * Z))) :=
  match leading.(inner) with
  | HLiteral literal =>
      let flags := if full_word then Z.lor common_flags FlagFullwordLeft else common_flags in
      '(c, raw_id) ← (if raw then c_literal_chain_head c pattern_id literal flags else Ret (c, 0));
      '(c, wide_id) ← (if wide then c_literal_chain_head c pattern_id literal (Z.lor flags FlagWide) else Ret (c, 0));
      Ret (c, inr (raw_id, wide_id))
  | _ =>
      try_bind (c_regexp c leading) (fun c ra =>
        let '(atoms, is_fast_regexp) := ra in
        let flags := if is_fast_regexp : bool then Z.lor common_flags FlagFastRegexp else common_flags in
        let flags := if full_word then Z.lor flags FlagFullwordLeft else flags in
        '(c, wide_id) ← add_wide c wide pattern_id (SubPattern.RegexpChainHead (Z.lor flags FlagWide)) atoms 0;
        let '(c, raw_id) := add_raw c raw pattern_id (SubPattern.RegexpChainHead flags) atoms 0 in
        Ret (c, inr (raw_id, wide_id)))
  end.

Definition c_chain_tail c (pattern_id : Z) (p : ChainedPattern) (is_last : bool) (raw wide full_word : bool) (common_flags : Z)
    (ids : Z * Z) : res (Compiler * (CompileError + (Z * Z))) :=
  let '(raw_id, wide_id) := ids in
  let flags := if is_last then Z.lor common_flags FlagLastInChain else common_flags in
  let flags := if is_last && full_word then Z.lor flags FlagFullwordRight else flags in
  match p.(chained_hir).(inner) with
  | HLiteral literal =>
      '(c, wide_id) ← (if wide then c_literal_chain_tail c pattern_id literal wide_id p.(gap) (Z.lor flags FlagWide)
                       else Ret (c, wide_id));
      '(c, raw_id) ← (if raw then c_literal_chain_tail c pattern_id literal raw_id p.(gap) flags else Ret (c, raw_id));
      Ret (c, inr (raw_id, wide_id))
  | _ =>
      let flags := if bool_decide (p.(chained_hir).(greedy) = Some true) then Z.lor flags FlagGreedyRegexp else flags in
      try_bind (c_regexp c p.(chained_hir)) (fun c ra =>
        let '(atoms, is_fast_regexp) := ra in
        let flags := if is_fast_regexp : bool then Z.lor flags FlagFastRegexp else flags in
        '(c, wide_id) ← add_wide c wide pattern_id (SubPattern.RegexpChainTail wide_id p.(gap) (Z.lor flags FlagWide)) atoms wide_id;
        let '(c, raw_id) := add_raw c raw pattern_id (SubPattern.RegexpChainTail raw_id p.(gap) flags) atoms raw_id in
        Ret (c, inr (raw_id, wide_id)))
  end.

Fixpoint c_chain_tails c (pattern_id : Z) (trailing : list ChainedPattern) (raw wide full_word : bool) (common_flags : Z)
    (ids : Z * Z) : res (Compiler * (CompileError + unit)) :=
  match trailing with
  | [] => Ret (c, inr tt)
  | p :: trailing =>
      try_bind (c_chain_tail c pattern_id p (bool_decide (trailing = [])) raw wide full_word common_flags ids)
        (fun c ids => c_chain_tails c pattern_id trailing raw wide full_word common_flags ids)
  end.

Definition c_chain c (pattern_id : Z) (leading : ReHir) (trailing : list ChainedPattern) (pflags : Z)
  : res (Compiler * (CompileError + unit)) :=
  let raw := negb (has_flag pflags PatternWideOnly) in
  let wide := has_any_flag pflags (Z.lor PatternWideOnly PatternWideAndAscii) in
  let full_word := has_flag pflags PatternFullword in
  let common_flags := Z.lor (if has_flag pflags PatternNocase then FlagNocase else 0)
                            (if bool_decide (leading.(greedy) = Some true) then FlagGreedyRegexp else 0) in
  try_bind (c_chain_head c pattern_id leading raw wide full_word common_flags) (fun c ids =>
    c_chain_tails c pattern_id trailing raw wide full_word common_flags ids).

Definition c_regexp_pattern c (pattern_id : Z) (p : RegexpPattern) : res (Compiler * (CompileError + unit)) :=
  '(head, tail) ← split_at_large_gaps p.(re_hir);
  let pflags := p.(re_flags) in
  if negb (bool_decide (length tail = 0%nat)) then c_chain c pattern_id head tail pflags
  else if is_alternation_literal head.(inner) then
    c ← c_alternation_literal c pattern_id head.(inner) p.(re_anchored_at) pflags;
    Ret (c, inr tt)
  else
    let flags := Z.lor (Z.lor (if has_flag pflags PatternNocase then FlagNocase else 0)
                              (full_word_flags (has_flag pflags PatternFullword)))
                       (if bool_decide (head.(greedy) = Some true) then FlagGreedyRegexp else 0) in
    let wide := has_any_flag pflags (Z.lor PatternWideOnly PatternWideAndAscii) in
    masked ← (if negb (has_flag pflags PatternNocase) && negb wide then try_extract_literal_with_mask head else Ret None);
    match masked with
    | Some (pattern, mask, atoms) =>
        '(c, pattern) ← intern_literal c pattern false;
        '(c, mask) ← intern_literal c mask false;
        Ret (fst (add_sub_pattern c pattern_id (SubPattern.LiteralWithMask pattern mask flags) atoms from_atom), inr tt)
    | None =>
        try_bind (c_regexp c head) (fun c ra =>
          let '(atoms, is_fast_regexp) := ra in
          let flags := if is_fast_regexp : bool then Z.lor flags FlagFastRegexp else flags in
          '(c, _) ← add_wide c wide pattern_id (SubPattern.Regexp (Z.lor flags FlagWide)) atoms 0;
          let '(c, _) := add_raw c (negb (has_flag pflags PatternWideOnly)) pattern_id (SubPattern.Regexp flags) atoms 0 in
          Ret (c, inr tt))
    end.

(** * The patterns of a rule *)

Record Snapshot := {
  s_next_pattern_id : Z;
  rules_len : nat;
  atoms_len : nat;
  re_code_len : nat;
  sub_patterns_len : nat;
  fast_scan_patterns_len : nat;
}.

Definition take_snapshot c : Snapshot :=
  {| s_next_pattern_id := c.(next_pattern_id); rules_len := length c.(c_rules); atoms_len := length c.(c_atoms);
     re_code_len := length c.(c_re_code); sub_patterns_len := length c.(c_sub_patterns);
     fast_scan_patterns_len := length c.(c_fast_scan_patterns) |}.

(** [anchored_sub_patterns] is left as it is. *)
Definition restore_snapshot (s : Snapshot) c : Compiler :=
  {| c_lit_pool := c.(c_lit_pool);
     c_sub_patterns := take s.(sub_patterns_len) c.(c_sub_patterns);
     c_anchored_sub_patterns := c.(c_anchored_sub_patterns);
     c_atoms := take s.(atoms_len) c.(c_atoms);
     c_re_code := take s.(re_code_len) c.(c_re_code);
     next_pattern_id := s.(s_next_pattern_id);
     patterns := filter (fun pi => snd pi < s.(s_next_pattern_id)) c.(patterns);
     c_fast_scan_patterns := take s.(fast_scan_patterns_len) c.(c_fast_scan_patterns);
     c_rules := take s.(rules_len) c.(c_rules);
     c_filesize_bounds := filter (fun pb => fst pb < s.(s_next_pattern_id)) c.(c_filesize_bounds);
     c_header_constraints := filter (fun pc => fst pc < s.(s_next_pattern_id)) c.(c_header_constraints);
     error_on_slow_pattern := c.(error_on_slow_pattern) |}.

Definition lookup_pattern (p : Pattern) (l : list (Pattern * Z)) : option Z :=
  snd <$> (snd <$> list_find (fun pi => fst pi ≡ p) l).

(** The first loop over the patterns of the rule: the identifiers of the patterns
    and those that have to be compiled. *)
Definition assign_id (p : PatternInRule) c : res (Compiler * (CompileError + (Z * bool))) :=
  if negb p.(in_use) && negb p.(identifier_starts_with_underscore) then Ret (c, inl UnusedPattern)
  else
    let '(c, pattern_id, is_new) :=
      match lookup_pattern p.(pattern) c.(patterns) with
      | Some pattern_id => (c, pattern_id, false)
      | None =>
          let pattern_id := c.(next_pattern_id) in
          (set_patterns (pattern_id + 1) (c.(patterns) ++ [(p.(pattern), pattern_id)]) (c.(c_fast_scan_patterns) ++ [true]) c,
           pattern_id, true)
      end in
    c ← (if p.(fast_scan_allowed) then Ret c
         else
           _ ← or_panic (get c.(c_fast_scan_patterns) pattern_id);
           Ret (set_patterns c.(next_pattern_id) c.(patterns) (<[Z.to_nat pattern_id := false]> c.(c_fast_scan_patterns)) c));
    Ret (c, inr (pattern_id, is_new)).

Fixpoint assign_ids (ps : list PatternInRule) c : res (Compiler * (CompileError + list (Z * bool))) :=
  match ps with
  | [] => Ret (c, inr [])
  | p :: ps =>
      try_bind (assign_id p c) (fun c id =>
        try_bind (assign_ids ps c) (fun c ids => Ret (c, inr (id :: ids))))
  end.

(** [insert(..).is_some()] panics. *)
Definition insert_new {A} (id : Z) (a : A) (l : list (Z * A)) : res (list (Z * A)) :=
  if bool_decide (id ∈ l.*1) then Panic else Ret (l ++ [(id, a)]).

Definition c_pattern (pattern_id : Z) (p : Pattern) (bounds : FilesizeBounds) (header : HeaderConstraint) c
  : res (Compiler * (CompileError + unit)) :=
  try_bind
    (match p with
     | PText l => c ← c_literal_pattern pattern_id l c; Ret (c, inr tt)
     | PRegexp r | PHex r => c_regexp_pattern c pattern_id r
     end)
    (fun c _ =>
       f ← (if negb (unbounded bounds) then insert_new pattern_id bounds c.(c_filesize_bounds) else Ret c.(c_filesize_bounds));
       h ← (if negb (unconstrained header) then insert_new pattern_id header c.(c_header_constraints)
            else Ret c.(c_header_constraints));
       Ret (set_rules c.(c_rules) f h c, inr tt)).

(** The second loop, over the patterns with their identifiers: a new pattern is
    compiled once. *)
Fixpoint c_patterns (ps : list ((Z * bool) * Pattern)) (bounds : FilesizeBounds) (header : HeaderConstraint) c
  : res (Compiler * (CompileError + unit)) :=
  match ps with
  | [] => Ret (c, inr tt)
  | ((pattern_id, is_new), p) :: ps =>
      if is_new : bool then
        try_bind (c_pattern pattern_id p bounds header c) (fun c _ => c_patterns ps bounds header c)
      else c_patterns ps bounds header c
  end.

(** The part of [c_rule] about patterns: what comes before the identifiers is up
    to the caller, the symbol and the code of the condition are not modelled. *)
Definition c_rule_patterns (ps : list PatternInRule) (bounds : FilesizeBounds) (header : HeaderConstraint) c
  : res (Compiler * (CompileError + unit)) :=
  let snapshot := take_snapshot c in
  '(c, r) ←
    try_bind (assign_ids ps c) (fun c ids =>
      let c := set_rules (c.(c_rules) ++ [ids.*1]) c.(c_filesize_bounds) c.(c_header_constraints) c in
      c_patterns (zip ids (pattern <$> ps)) bounds header c);
  match r with
  | inl e => Ret (restore_snapshot snapshot c, inl e)
  | inr _ => Ret (c, inr tt)
  end.

(** [build] *)
Definition build c : Rules T :=
  {| rules_atoms := c.(c_atoms); sub_patterns := c.(c_sub_patterns); anchored_sub_patterns := c.(c_anchored_sub_patterns);
     lit_pool := c.(c_lit_pool); fast_scan_patterns := c.(c_fast_scan_patterns); num_rules := len c.(c_rules);
     num_patterns := c.(next_pattern_id); filesize_bounds := c.(c_filesize_bounds);
     header_constraints := c.(c_header_constraints) |}.
End PatternCompiler.
