(* ===== verification/CompilerProps.v ===== *)
(** Properties of the compilation of the patterns of a rule
    ([PatternCompiler]): its operations as steps that only extend the state of
    the compiler, what is undone when a rule has errors, and the invariant of
    the compiler. *)

From stdpp Require Import fin_maps gmap relations.
From S2P Require Import Prelude.
From S2P Require Import Cursor.
From S2P Require Import Re.
From S2P Require Import Atoms.
From S2P Require Import Quality.
From S2P Require Import PikeInstr.
From S2P Require Import Hir.
From S2P Require Import Visit.
From S2P Require Import PikeAtoms.
From S2P Require Import PikeCompiler.
From S2P Require Import FastCompiler.
From S2P Require Import ScanVerify.
From S2P Require Import StringPool.
From S2P Require Import Base64.
From S2P Require Import Base64Props.
From S2P Require Import Rules.
From S2P Require Import Tracker.
From S2P Require Import ChainProps.
From S2P Require Import FastVM.
From S2P Require Import PosSet.
From S2P Require Import Matches.
From S2P Require Import Scan.
From S2P Require Import PatternCompiler.
#[local] Open Scope Z_scope.

Lemma bind_Ret {A B} (m : res A) (f : A -> res B) b : m ≫= f = Ret b <-> exists a, m = Ret a /\ f a = Ret b.
Proof. destruct m; cbn; naive_solver. Qed.

(** The first operation of a sequence that returns. *)
Tactic Notation "inv_bind" hyp(H) "as" simple_intropattern(p) ident(E) :=
  apply bind_Ret in H as (p & E & H).

(** * Both compilers of expressions extend the code *)

Section Code.
Context {IT : Itertools} {VI : HirVisit}.

Lemma fast_append_code_extends pieces code r :
  FastCompiler.append_code pieces code = Ret (inr r) -> code `prefix_of` r.
Proof.
  unfold FastCompiler.append_code. destruct (FastInstr.emit_pieces _ _) as [[?|s]| |]; cbn; try done.
  intros [= <-]. by eexists.
Qed.

Lemma fast_compile_extends h code code' r :
  FastCompiler.compile h code = Ret (code', r) -> code `prefix_of` code'.
Proof.
  unfold FastCompiler.compile, mbind, res_bind. intros H.
  repeat case_match; simplify_eq; try done;
    repeat match goal with E : FastCompiler.append_code _ _ = Ret (inr _) |- _ => apply fast_append_code_extends in E end;
    unfold ok in *; simplify_eq; by etrans || done.
Qed.

Context {RS : RegexSyntax} {BS : BitSlice} {B : Type} {BV : BitVec B} {LS : LiteralSyntax}.

Lemma pike_compile_extends h code code' atoms :
  PikeCompiler.compile h code = Ret (inr (code', atoms)) -> code `prefix_of` code'.
Proof.
  unfold PikeCompiler.compile. destruct (compile_internal h) as [[e|[[fwd bck] la]]| |]; cbn; try done.
  destruct (for_each la _ []); cbn; try done. intros [= <- _]. rewrite <- app_assoc. by eexists.
Qed.
End Code.

(** * Steps *)

Section Steps.
Context {T : Type} {ST : SymbolTable T} {E : Type} {B64 : Base64 E} {IT : Itertools} {RS : RegexSyntax} {AL : AlternationLiteral}.
Context {VI : HirVisit} {BS : BitSlice} {B : Type} {BV : BitVec B} {LS : LiteralSyntax}.
Notation Compiler := (Compiler T).
Implicit Types c : Compiler.

(** The identifiers in the pool of literals. *)
Definition literal_ids (s : SubPattern.t) : list Z :=
  match s with
  | SubPattern.Literal p _ _ | SubPattern.LiteralChainHead p _ | SubPattern.LiteralChainTail p _ _ _
  | SubPattern.Xor p _ | SubPattern.Base64 p _ | SubPattern.Base64Wide p _ => [p]
  | SubPattern.LiteralWithMask p m _ => [p; m]
  | SubPattern.CustomBase64 p a _ | SubPattern.CustomBase64Wide p a _ => [p; a]
  | _ => []
  end.

Definition interned c (id : Z) : Prop := is_Some (get_bytes c.(c_lit_pool) id).

(** A sub-pattern of a chain of the pattern. *)
Definition linked c (pid id : Z) : Prop :=
  exists s, get c.(c_sub_patterns) id = Some (pid, s) /\ is_Some (link_of s).

(** What a sub-pattern refers to exists; chains do not leave their pattern. *)
Definition sub_ok c (pid : Z) (s : SubPattern.t) : Prop :=
  Forall (interned c) (literal_ids s) /\
  forall id gap flags, link_of s = Some (Tail id gap flags) -> linked c pid id.

(** The identifiers of sub-patterns are 32-bit integers. *)
Definition fits c : Prop := len c.(c_sub_patterns) <= u32_MAX.

(** What the compilation of the pattern [pid] does to the compiler. *)
Inductive step (pid : Z) : Compiler -> Compiler -> Prop :=
  | step_pool c p : (forall i s, get_bytes c.(c_lit_pool) i = Some s -> get_bytes p i = Some s) -> step pid c (set_pool p c)
  | step_code c code : c.(c_re_code) `prefix_of` code -> step pid c (set_re_code code c)
  | step_add A c sub (atoms : list A) f :
      (forall i a, sa_sub_pattern_id (f i a) = i) -> (fits c -> sub_ok c pid sub) ->
      step pid c (fst (add_sub_pattern c pid sub atoms f))
  | step_bounds c b : pid ∉ c.(c_filesize_bounds).*1 ->
      step pid c (set_rules c.(c_rules) (c.(c_filesize_bounds) ++ [(pid, b)]) c.(c_header_constraints) c)
  | step_header c h : pid ∉ c.(c_header_constraints).*1 ->
      step pid c (set_rules c.(c_rules) c.(c_filesize_bounds) (c.(c_header_constraints) ++ [(pid, h)]) c).

Definition steps (pid : Z) : Compiler -> Compiler -> Prop := rtc (step pid).

(** A flag that is the same or has been cleared. *)
Definition cleared (old new : bool) : Prop := new = true -> old = true.

#[export] Instance cleared_preorder : PreOrder cleared.
Proof. unfold cleared. split; red; naive_solver. Qed.

(** * Growth

    The tables of the compiler are only extended, for the patterns from [id0] on;
    the flags of the fast scan can be cleared. *)

Record grown (id0 : Z) c c' : Prop := {
  g_pool i s : get_bytes c.(c_lit_pool) i = Some s -> get_bytes c'.(c_lit_pool) i = Some s;
  g_subs : c.(c_sub_patterns) `prefix_of` c'.(c_sub_patterns);
  g_anchored : c.(c_anchored_sub_patterns) `prefix_of` c'.(c_anchored_sub_patterns);
  g_atoms : c.(c_atoms) `prefix_of` c'.(c_atoms);
  g_code : c.(c_re_code) `prefix_of` c'.(c_re_code);
  g_rules : c.(c_rules) `prefix_of` c'.(c_rules);
  g_next : c.(next_pattern_id) <= c'.(next_pattern_id);
  g_patterns : exists ps, c'.(patterns) = c.(patterns) ++ ps /\ Forall (fun p => id0 <= snd p) ps;
  g_fast : exists kept added, c'.(c_fast_scan_patterns) = kept ++ added /\
             Forall2 cleared c.(c_fast_scan_patterns) kept;
  g_bounds : exists fs, c'.(c_filesize_bounds) = c.(c_filesize_bounds) ++ fs /\ Forall (fun p => id0 <= fst p) fs;
  g_headers : exists hs, c'.(c_header_constraints) = c.(c_header_constraints) ++ hs /\ Forall (fun p => id0 <= fst p) hs;
  g_slow : c'.(error_on_slow_pattern) = c.(error_on_slow_pattern);
}.

Lemma app_Forall_trans {A} (P : A -> Prop) (l1 l2 l3 : list A) :
  (exists x, l2 = l1 ++ x /\ Forall P x) -> (exists x, l3 = l2 ++ x /\ Forall P x) -> exists x, l3 = l1 ++ x /\ Forall P x.
Proof.
  intros (x & -> & Hx) (y & -> & Hy). exists (x ++ y). split; [by rewrite app_assoc|]. by apply Forall_app.
Qed.

Lemma app_Forall_refl {A} (P : A -> Prop) (l : list A) : exists x, l = l ++ x /\ Forall P x.
Proof. exists []. by rewrite app_nil_r. Qed.

#[export] Instance grown_preorder id0 : PreOrder (grown id0).
Proof.
  split.
  - intros c. split; try done; try apply app_Forall_refl.
    exists c.(c_fast_scan_patterns), []. rewrite app_nil_r. by split.
  - intros c1 c2 c3 G1 G2. split.
    + intros i s Hi. by eapply g_pool, g_pool.
    + etrans; by eapply g_subs.
    + etrans; by eapply g_anchored.
    + etrans; by eapply g_atoms.
    + etrans; by eapply g_code.
    + etrans; by eapply g_rules.
    + etrans; by eapply g_next.
    + eapply app_Forall_trans; by eapply g_patterns.
    + destruct (g_fast _ _ _ G1) as (k1 & a1 & E1 & H1), (g_fast _ _ _ G2) as (k2 & a2 & E2 & H2).
      rewrite E1 in H2. apply Forall2_app_inv_l in H2 as (k & a & H2 & _ & ->).
      exists k, (a ++ a2). rewrite app_assoc. split; [done|]. by trans k1.
    + eapply app_Forall_trans; by eapply g_bounds.
    + eapply app_Forall_trans; by eapply g_headers.
    + etrans; by eapply g_slow.
Qed.

(** A change of some tables that keeps the others. *)
Ltac grow := split; cbn; try done; try apply app_Forall_refl; try (by apply prefix_app_r).

Lemma fast_kept l : exists kept added, l = kept ++ added /\ Forall2 cleared l kept.
Proof. exists l, []. rewrite app_nil_r. by split. Qed.
#[local] Hint Resolve fast_kept : core.

Lemma step_grown id0 pid c c' : id0 <= pid -> step pid c c' -> grown id0 c c'.
Proof.
  intros Hid. destruct 1 as [c p Hp|c code Hc|A c sub atoms f _ _|c b _|c h _].
  - grow; eauto.
  - grow; eauto.
  - unfold add_sub_pattern. destruct sub as [? [o|] ?| | | | | | | | | | |]; grow; eauto.
  - grow; eauto.
  - grow; eauto.
Qed.

Lemma steps_grown id0 pid c c' : id0 <= pid -> steps pid c c' -> grown id0 c c'.
Proof. intros Hid. induction 1; [done|]. etrans; [by eapply step_grown|done]. Qed.

Lemma grown_interned id0 c c' i : grown id0 c c' -> interned c i -> interned c' i.
Proof. intros G [s Hs]. exists s. by eapply g_pool. Qed.

Lemma prefix_get {A} (l1 l2 : list A) i x : l1 `prefix_of` l2 -> get l1 i = Some x -> get l2 i = Some x.
Proof. rewrite !get_Some. intros [l ->] [Hi Hl]. split; [done|]. by apply lookup_app_l_Some. Qed.

Lemma grown_linked id0 c c' pid i : grown id0 c c' -> linked c pid i -> linked c' pid i.
Proof. intros G (s & Hs & Hl). exists s. split; [|done]. eapply prefix_get; [by eapply g_subs|done]. Qed.

Lemma grown_sub_ok id0 c c' pid s : grown id0 c c' -> sub_ok c pid s -> sub_ok c' pid s.
Proof.
  intros G [H1 H2]. split.
  - eapply Forall_impl; [done|]. intros. by eapply grown_interned.
  - intros id gap flags Hl. eapply grown_linked; [done|]. by eapply H2.
Qed.

Lemma grown_fits id0 c c' : grown id0 c c' -> fits c' -> fits c.
Proof. intros G. destruct (g_subs _ _ _ G) as [l E1]. unfold fits. rewrite E1, len_app. pose proof (len_nonneg l). lia. Qed.

Lemma steps_mono pid c c' : steps pid c c' -> grown pid c c'.
Proof. by apply steps_grown. Qed.

(** * The operations are sequences of steps *)

Context {STL : SymbolTableLaws T}.

Lemma steps_refl pid c : steps pid c c.
Proof. apply rtc_refl. Qed.

Lemma steps_trans pid c1 c2 c3 : steps pid c1 c2 -> steps pid c2 c3 -> steps pid c1 c3.
Proof. apply PreOrder_Transitive. Qed.

Lemma get_or_intern_Ret (p p' : BStringPool T) s id : get_or_intern p s = Ret (p', id) ->
  get_bytes p' id = Some s /\ forall i s', get_bytes p i = Some s' -> get_bytes p' i = Some s'.
Proof.
  unfold get_or_intern, get_bytes. destruct (st_check_interned _ s) as [i|] eqn:Hc.
  - intros [= <- <-]. split; [|done]. by apply st_check_Some.
  - intros H. inv_bind H as [t i] Hi. simplify_eq. apply st_check_None in Hc. pose proof (st_intern_spec _ _ Hc) as Hs.
    destruct (st_intern _ s) as [[t' i']|]; [|done]. cbn in Hi. simplify_eq.
    destruct Hs as [Es ->]. cbn. setoid_rewrite st_get_spec. rewrite Es. split.
    + apply get_Some. split; [apply len_nonneg|]. unfold len. rewrite Nat2Z.id. by rewrite lookup_app_r, Nat.sub_diag by done.
    + intros i s'. rewrite !get_Some. intros [? ?]. split; [done|]. by apply lookup_app_l_Some.
Qed.

Lemma intern_steps pid c bytes c' id : intern c bytes = Ret (c', id) ->
  steps pid c c' /\ get_bytes c'.(c_lit_pool) id = Some bytes.
Proof.
  unfold intern. intros H. inv_bind H as [p i] Hi. simplify_eq. apply get_or_intern_Ret in Hi as [? ?]. split; [|done].
  by apply rtc_once, step_pool.
Qed.

Lemma intern_literal_steps pid c l wide c' id : intern_literal c l wide = Ret (c', id) ->
  steps pid c c' /\ interned c' id.
Proof. intros H. apply (intern_steps pid) in H as [? ?]. split; [done|by eexists]. Qed.

Lemma add_steps pid {A} c sub (atoms : list A) f : (forall i a, sa_sub_pattern_id (f i a) = i) ->
  (fits c -> sub_ok c pid sub) -> steps pid c (fst (add_sub_pattern c pid sub atoms f)).
Proof. intros. by apply rtc_once, step_add. Qed.

(** A sub-pattern that is not chained to another one. *)
Lemma sub_ok_unchained c pid s : Forall (interned c) (literal_ids s) -> SubPattern.chained_to s = None -> sub_ok c pid s.
Proof. intros H Hs. split; [done|]. intros id gap flags. by destruct s. Qed.

Lemma for_each_steps {A} (Inv : Compiler -> Prop) pid (l : list A) body c c' :
  (forall c1 c2, Inv c1 -> steps pid c1 c2 -> Inv c2) ->
  (forall x c1 c2, x ∈ l -> Inv c1 -> body x c1 = Ret c2 -> steps pid c1 c2) ->
  Inv c -> for_each l body c = Ret c' -> steps pid c c'.
Proof.
  intros Hinv. revert c. induction l as [|x l IH]; intros c Hbody Hc Hf; cbn in Hf; [by simplify_eq; apply steps_refl|].
  inv_bind Hf as a Hx. assert (steps pid c a) by (eapply Hbody; [left|done..]).
  eapply steps_trans; [done|]. eapply IH; [|by eapply Hinv|done]. intros. eapply Hbody; [by right|done..].
Qed.

Lemma interned_steps pid c c' id : interned c id -> steps pid c c' -> interned c' id.
Proof. intros Hi Hs. eapply grown_interned; [by apply steps_mono|done]. Qed.

Lemma linked_steps pid c c' id : linked c pid id -> steps pid c c' -> linked c' pid id.
Proof. intros Hi Hs. eapply grown_linked; [by apply steps_mono|done]. Qed.

Lemma fits_steps pid c c' : steps pid c c' -> fits c' -> fits c.
Proof. intros Hs. eapply grown_fits. by apply steps_mono. Qed.

#[local] Hint Resolve steps_refl steps_trans interned_steps linked_steps : core.

(** ** Literals *)

Lemma c_base64_steps pid c lit_id mp alpha wide c' :
  interned c lit_id -> c_base64 c pid lit_id mp alpha wide = Ret c' -> steps pid c c'.
Proof.
  intros Hc. unfold c_base64. intros H. inv_bind H as ps Hps.
  eapply (for_each_steps (fun c => interned c lit_id)); [by eauto| |done|exact H].
  intros [padding bp] c1 c2 _ H1 Hb. inv_bind Hb as [c3 sub] Hs. inv_bind Hb as a Ha. apply Ret_inj in Hb as <-.
  assert (steps pid c1 c3 /\ Forall (interned c3) (literal_ids sub) /\ SubPattern.chained_to sub = None) as (Hst & Hi & Hn).
  { destruct alpha as [al|].
    - inv_bind Hs as [c4 id] Hi. simplify_eq. apply (intern_steps pid) in Hi as [Hst Hg].
      split; [done|]. assert (interned c3 lit_id) by eauto. assert (interned c3 id) by (by eexists).
      destruct wide; split; [|done| |done]; by repeat constructor.
    - simplify_eq. split; [done|]. destruct wide; split; [|done| |done]; by repeat constructor. }
  eapply steps_trans; [exact Hst|]. apply add_steps; [done|]. intros _. by apply sub_ok_unchained.
Qed.

Lemma add_one_steps pid {A} c sub (atoms : list A) f : (forall i a, sa_sub_pattern_id (f i a) = i) ->
  Forall (interned c) (literal_ids sub) -> SubPattern.chained_to sub = None ->
  steps pid c (fst (add_sub_pattern c pid sub atoms f)).
Proof. intros. apply add_steps; [done|]. intros _. by apply sub_ok_unchained. Qed.

Lemma c_main_pattern_steps pid p mp c c' : c_main_pattern pid p mp c = Ret c' -> steps pid c c'.
Proof.
  destruct mp as [[mp atom] flags]. unfold c_main_pattern. intros H. inv_bind H as [c1 id] Hi.
  apply (intern_steps pid) in Hi as [Hs Hg]. assert (Hid : interned c1 id) by (by eexists). eapply steps_trans; [exact Hs|].
  destruct (has_flag _ PatternXor).
  { inv_bind H as [] Ha. inv_bind H as [lo hi] Hx. apply Ret_inj in H as <-. apply add_one_steps; by repeat constructor. }
  destruct (has_flag _ PatternNocase).
  { inv_bind H as [] Ha. apply Ret_inj in H as <-. apply add_one_steps; by repeat constructor. }
  destruct (has_any_flag _ _).
  { inv_bind H as [] Ha. inv_bind H as c2 Hb. assert (steps pid c1 c2).
    { destruct (has_flag _ PatternBase64); [by eapply c_base64_steps|by simplify_eq]. }
    eapply steps_trans; [done|]. destruct (has_flag _ PatternBase64Wide); [|by simplify_eq].
    eapply c_base64_steps; [by eapply interned_steps|done]. }
  apply Ret_inj in H as <-. apply add_one_steps; by repeat constructor.
Qed.

Lemma c_literal_pattern_steps pid p c c' : c_literal_pattern pid p c = Ret c' -> steps pid c c'.
Proof.
  unfold c_literal_pattern. intros H. inv_bind H as mps Hm.
  eapply (for_each_steps (fun _ => True)); [done| |done|exact H]. intros. by eapply c_main_pattern_steps.
Qed.

(** ** Regular expressions *)

Lemma c_regexp_steps pid c h c' r : c_regexp c h = Ret (c', r) -> steps pid c c'.
Proof.
  unfold c_regexp. intros H. inv_bind H as [code r1] Hf. apply fast_compile_extends in Hf.
  inv_bind H as [[code' r2] fast] Hp. assert (Hc : c_re_code c `prefix_of` code').
  { destruct r1 as [[]|]; simplify_eq; try done. inv_bind Hp as [e|[code2 atoms]] Hc; simplify_eq; [done|].
    apply pike_compile_extends in Hc. by etrans. }
  assert (steps pid c (set_re_code code' c)) by (by apply rtc_once, step_code).
  destruct r2; [by simplify_eq|]. destruct (bool_decide _); [by simplify_eq|]. destruct (_ && _); by simplify_eq.
Qed.

Lemma add_wide_steps c wide pid sub atoms id c' id' : add_wide c wide pid sub atoms id = Ret (c', id') ->
  (fits c -> wide = true -> sub_ok c pid sub) -> steps pid c c'.
Proof.
  unfold add_wide. intros H Hok. destruct wide; [|by simplify_eq]. inv_bind H as w Hw. apply Ret_inj in H.
  replace c' with (fst (add_sub_pattern c pid sub w from_regexp_atom)) by (by rewrite H). apply add_steps; [done|]. by intros; apply Hok.
Qed.

Lemma add_raw_steps c raw pid sub atoms id c' id' : add_raw c raw pid sub atoms id = (c', id') ->
  (fits c -> raw = true -> sub_ok c pid sub) -> steps pid c c'.
Proof.
  unfold add_raw. intros H Hok. destruct raw; [|by simplify_eq].
  replace c' with (fst (add_sub_pattern c pid sub atoms from_regexp_atom)) by (by rewrite H). apply add_steps; [done|]. by intros; apply Hok.
Qed.

Lemma process_literal_steps pid anchor flags l wide c c' : process_literal pid anchor flags l wide c = Ret c' -> steps pid c c'.
Proof.
  unfold process_literal. intros H. inv_bind H as [c1 id] Hi. apply (intern_literal_steps pid) in Hi as [Hs Hi].
  inv_bind H as bs Hb. inv_bind H as a Ha. apply Ret_inj in H as <-. eapply steps_trans; [exact Hs|]. apply add_one_steps; by repeat constructor.
Qed.

Lemma process_raw_wide_steps raw wide pid anchor flags l c c' :
  process_raw_wide raw wide pid anchor flags l c = Ret c' -> steps pid c c'.
Proof.
  unfold process_raw_wide. intros H. inv_bind H as c1 H1.
  assert (steps pid c c1) by (destruct raw; [by eapply process_literal_steps|by simplify_eq]).
  eapply steps_trans; [done|]. destruct wide; [by eapply process_literal_steps|by simplify_eq].
Qed.

Lemma c_alternation_literal_steps c pid h anchor pflags c' :
  c_alternation_literal c pid h anchor pflags = Ret c' -> steps pid c c'.
Proof.
  unfold c_alternation_literal. generalize (negb (has_flag pflags PatternWideOnly)) as raw.
  generalize (has_any_flag pflags (Z.lor PatternWideOnly PatternWideAndAscii)) as wide. intros wide raw.
  set (process := process_raw_wide raw wide pid anchor _).
  assert (Hp : forall l c1 c2, process l c1 = Ret c2 -> steps pid c1 c2) by (intros; by eapply process_raw_wide_steps).
  clearbody process.
  assert (Hl : forall ls, for_each ls (fun l c => match l with HLiteral literal => process literal c | _ => Panic end) c = Ret c' -> steps pid c c').
  { intros ls H. eapply (for_each_steps (fun _ => True)); [done| |done|exact H]. intros x c1 c2 _ _. destruct x; try done. apply Hp. }
  destruct h as [| | | | |[]| |]; cbn; try done; try apply Hp; apply Hl.
Qed.

(** ** Chains *)

(** The identifier of the last sub-pattern of a chain, when there is one. *)
Definition chain_id c (pid : Z) (present : bool) (id : Z) : Prop := fits c -> present = true -> linked c pid id.

Lemma chain_id_steps pid c c' b id : steps pid c c' -> chain_id c pid b id -> chain_id c' pid b id.
Proof. intros Hs Hc Hf Hb. eapply linked_steps; [|done]. apply Hc; [by eapply fits_steps|done]. Qed.

Lemma chain_id_false c pid id : chain_id c pid false id.
Proof. by intros ? ?. Qed.

Lemma add_chain_id {A} c pid sub (atoms : list A) f c' id : add_sub_pattern c pid sub atoms f = (c', id) ->
  is_Some (link_of sub) -> forall b, chain_id c' pid b id.
Proof.
  unfold add_sub_pattern. intros H Hl b Hf _. assert (Hc : (wrap_u32 (len (c_sub_patterns c)), c_sub_patterns c ++ [(pid, sub)]) = (id, c_sub_patterns c')).
  { destruct sub as [? [o|] ?| | | | | | | | | | |]; cbn in H; by simplify_eq. }
  apply pair_eq in Hc as [<- Es]. unfold fits in Hf. rewrite <- Es in Hf. rewrite len_app, len_cons, len_nil in Hf.
  exists sub. split; [|done]. rewrite <- Es. unfold u32_MAX in Hf. pose proof (len_nonneg (c_sub_patterns c)).
  unfold wrap_u32. rewrite Z.mod_small by lia. apply get_Some. split; [done|]. unfold len. rewrite Nat2Z.id.
  by rewrite lookup_app_r, Nat.sub_diag by done.
Qed.

Lemma add_link_steps {A} c pid sub (atoms : list A) f c' id : (forall i a, sa_sub_pattern_id (f i a) = i) ->
  add_sub_pattern c pid sub atoms f = (c', id) -> is_Some (link_of sub) -> (fits c -> sub_ok c pid sub) ->
  steps pid c c' /\ forall b, chain_id c' pid b id.
Proof.
  intros Hf H Hl Hok. split; [|by eapply add_chain_id].
  replace c' with (fst (add_sub_pattern c pid sub atoms f)) by (by rewrite H). by apply add_steps.
Qed.

Lemma literal_chain_head_steps c pid l flags c' id : c_literal_chain_head c pid l flags = Ret (c', id) ->
  steps pid c c' /\ forall b, chain_id c' pid b id.
Proof.
  unfold c_literal_chain_head. intros H. inv_bind H as [c1 lid] Hi. apply (intern_literal_steps pid) in Hi as [Hs Hi].
  inv_bind H as bs Hb. inv_bind H as atoms Ha. apply Ret_inj in H. apply add_link_steps in H as [Hs' Hc]; [|done..|].
  - split; [by eapply steps_trans|done].
  - intros _. apply sub_ok_unchained; by repeat constructor.
Qed.

Lemma literal_chain_tail_steps c pid l to gap flags c' id : c_literal_chain_tail c pid l to gap flags = Ret (c', id) ->
  chain_id c pid true to -> steps pid c c' /\ forall b, chain_id c' pid b id.
Proof.
  unfold c_literal_chain_tail. intros H Hto. inv_bind H as [c1 lid] Hi. apply (intern_literal_steps pid) in Hi as [Hs Hi].
  inv_bind H as bs Hb. inv_bind H as atoms Ha. apply Ret_inj in H. apply add_link_steps in H as [Hs' Hc]; [|done..|].
  - split; [by eapply steps_trans|done].
  - intros Hf. split; [by repeat constructor|]. cbn. intros ? ? ? [= <- <- <-]. by eapply chain_id_steps.
Qed.

(** One of the two chains, when the pattern has it. *)
Lemma present_steps {A} (b b' : bool) pid c c' (x y : A) (r : res (Compiler * A)) :
  (if b then r else Ret (c, x)) = Ret (c', y) -> (b = true -> r = Ret (c', y) -> steps pid c c') -> steps pid c c'.
Proof. destruct b; [auto|]. intros. by simplify_eq. Qed.

Lemma add_wide_chain c wide pid sub atoms id c' id' : add_wide c wide pid sub atoms id = Ret (c', id') ->
  is_Some (link_of sub) -> (fits c -> wide = true -> sub_ok c pid sub) -> chain_id c' pid wide id'.
Proof.
  unfold add_wide. intros H Hl Hok. destruct wide; [|by simplify_eq]. inv_bind H as w Hw. apply Ret_inj in H. by eapply add_chain_id.
Qed.

Lemma add_raw_chain c raw pid sub atoms id c' id' : add_raw c raw pid sub atoms id = (c', id') ->
  is_Some (link_of sub) -> (fits c -> raw = true -> sub_ok c pid sub) -> chain_id c' pid raw id'.
Proof. unfold add_raw. intros H Hl Hok. destruct raw; [|by simplify_eq]. by eapply add_chain_id. Qed.

Definition chain_result (pid : Z) (raw wide : bool) c c' (r : CompileError + (Z * Z)) : Prop :=
  steps pid c c' /\ match r with inl _ => True | inr (raw_id, wide_id) => chain_id c' pid raw raw_id /\ chain_id c' pid wide wide_id end.

Lemma try_bind_Ret {A A'} (r : res (Compiler * (CompileError + A))) (f : Compiler -> A -> res (Compiler * (CompileError + A'))) c' o :
  try_bind r f = Ret (c', o) ->
  (exists e, r = Ret (c', inl e) /\ o = inl e) \/ (exists c1 a, r = Ret (c1, inr a) /\ f c1 a = Ret (c', o)).
Proof. unfold try_bind. intros H. inv_bind H as [c1 [e|a]] E1; [left|right]; naive_solver. Qed.

Lemma regexp_links pid raw wide c c' h r0 sub_raw sub_wide atoms c1 c2 raw_id wide_id raw0 wide0 :
  c_regexp c h = Ret (c1, r0) -> is_Some (link_of sub_raw) -> is_Some (link_of sub_wide) ->
  (forall c, steps pid c1 c -> fits c -> raw = true -> sub_ok c pid sub_raw) ->
  (forall c, steps pid c1 c -> fits c -> wide = true -> sub_ok c pid sub_wide) ->
  add_wide c1 wide pid sub_wide atoms wide0 = Ret (c2, wide_id) ->
  add_raw c2 raw pid sub_raw atoms raw0 = (c', raw_id) ->
  chain_result pid raw wide c c' (inr (raw_id, wide_id)).
Proof.
  intros Hr Lr Lw Or Ow Ew Er. apply (c_regexp_steps pid) in Hr.
  assert (Hw : steps pid c1 c2) by (eapply add_wide_steps; [done|]; auto).
  assert (steps pid c2 c') by (eapply add_raw_steps; [done|]; auto).
  split; [by eapply steps_trans, steps_trans|]. split; [eapply add_raw_chain; [done..|]; auto|].
  eapply chain_id_steps; [done|]. eapply add_wide_chain; [done..|]. auto.
Qed.

Lemma literal_head_links pid (raw wide : bool) c c1 c2 l fr fw raw_id wide_id :
  (if raw then c_literal_chain_head c pid l fr else Ret (c, 0)) = Ret (c1, raw_id) ->
  (if wide then c_literal_chain_head c1 pid l fw else Ret (c1, 0)) = Ret (c2, wide_id) ->
  chain_result pid raw wide c c2 (inr (raw_id, wide_id)).
Proof.
  intros Hr Hw. assert (steps pid c c1 /\ chain_id c1 pid raw raw_id) as [S1 I1].
  { destruct raw; [apply literal_chain_head_steps in Hr as [? ?]; by split|]. simplify_eq. split; [done|apply chain_id_false]. }
  assert (steps pid c1 c2 /\ chain_id c2 pid wide wide_id) as [S2 I2].
  { destruct wide; [apply literal_chain_head_steps in Hw as [? ?]; by split|]. simplify_eq. split; [done|apply chain_id_false]. }
  split; [by eapply steps_trans|]. split; [by eapply chain_id_steps|done].
Qed.

Lemma literal_tail_links pid (raw wide : bool) c c1 c2 l gap fr fw raw0 wide0 raw_id wide_id :
  chain_id c pid raw raw0 -> chain_id c pid wide wide0 ->
  (if wide then c_literal_chain_tail c pid l wide0 gap fw else Ret (c, wide0)) = Ret (c1, wide_id) ->
  (if raw then c_literal_chain_tail c1 pid l raw0 gap fr else Ret (c1, raw0)) = Ret (c2, raw_id) ->
  chain_result pid raw wide c c2 (inr (raw_id, wide_id)).
Proof.
  intros R0 W0 Hw Hr. assert (steps pid c c1 /\ chain_id c1 pid wide wide_id) as [S1 I1].
  { destruct wide; [apply literal_chain_tail_steps in Hw as [? ?]; by try split|]. simplify_eq. by split. }
  assert (R1 : chain_id c1 pid raw raw0) by (by eapply chain_id_steps).
  assert (steps pid c1 c2 /\ chain_id c2 pid raw raw_id) as [S2 I2].
  { destruct raw; [apply literal_chain_tail_steps in Hr as [? ?]; by try split|]. simplify_eq. by split. }
  split; [by eapply steps_trans|]. split; [done|by eapply chain_id_steps].
Qed.

Lemma c_chain_head_steps c pid h raw wide fw flags c' r :
  c_chain_head c pid h raw wide fw flags = Ret (c', r) -> chain_result pid raw wide c c' r.
Proof.
  unfold c_chain_head. intros H. destruct (inner h) as [|l| | | | | |] eqn:Eh.
  2: { inv_bind H as [c1 raw_id] Hr. inv_bind H as [c2 wide_id] Hw. apply Ret_inj in H. injection H as <- <-.
       by eapply literal_head_links. }
  all: apply try_bind_Ret in H as [(e & H & ->)|(c1 & [atoms fast] & H1 & H)]; [by split; [eapply c_regexp_steps|]|].
  all: inv_bind H as [c2 wide_id] Hw; destruct (add_raw _ _ _ _ _ _) as [c3 raw_id] eqn:Hr; apply Ret_inj in H; injection H as <- <-.
  all: eapply regexp_links; [done| | | | |exact Hw|exact Hr]; try done; intros; by apply sub_ok_unchained.
Qed.

Lemma c_chain_tail_steps c pid p last raw wide fw flags raw0 wide0 c' r :
  chain_id c pid raw raw0 -> chain_id c pid wide wide0 ->
  c_chain_tail c pid p last raw wide fw flags (raw0, wide0) = Ret (c', r) -> chain_result pid raw wide c c' r.
Proof.
  intros R0 W0. unfold c_chain_tail. intros H. destruct (inner (chained_hir p)) as [|l| | | | | |] eqn:Eh.
  2: { inv_bind H as [c1 wide_id] Hw. inv_bind H as [c2 raw_id] Hr. apply Ret_inj in H. injection H as <- <-.
       by eapply literal_tail_links. }
  all: apply try_bind_Ret in H as [(e & H & ->)|(c1 & [atoms fast] & H1 & H)]; [by split; [eapply c_regexp_steps|]|].
  all: inv_bind H as [c2 wide_id] Hw; destruct (add_raw _ _ _ _ _ _) as [c3 raw_id] eqn:Hr; apply Ret_inj in H; injection H as <- <-.
  all: refine (regexp_links _ _ _ _ _ _ _ _ _ _ _ _ _ _ _ _ H1 _ _ _ _ Hw Hr); try done; intros c4 S4 Hf Hb; (split; [done|]); cbn;
    intros ? ? ? [= <- <- <-]; eapply (chain_id_steps pid c c4); try done;
    (eapply steps_trans; [by eapply c_regexp_steps|done]).
Qed.

Lemma c_chain_tails_steps pid ps raw wide fw flags c raw0 wide0 c' r :
  chain_id c pid raw raw0 -> chain_id c pid wide wide0 ->
  c_chain_tails c pid ps raw wide fw flags (raw0, wide0) = Ret (c', r) -> steps pid c c'.
Proof.
  revert c raw0 wide0. induction ps as [|p ps IH]; intros c raw0 wide0 R0 W0 H; cbn [c_chain_tails] in H; [by simplify_eq|].
  apply try_bind_Ret in H as [(e & H & ->)|(c1 & [raw1 wide1] & H1 & H)].
  - eapply c_chain_tail_steps in H as [? _]; done.
  - eapply c_chain_tail_steps in H1 as [S1 [R1 W1]]; [|done..]. eapply steps_trans; [exact S1|]. by eapply IH.
Qed.

Lemma c_chain_steps c pid h ps flags c' r : c_chain c pid h ps flags = Ret (c', r) -> steps pid c c'.
Proof.
  unfold c_chain. intros H. apply try_bind_Ret in H as [(e & H & ->)|(c1 & [raw0 wide0] & H1 & H)].
  - by eapply c_chain_head_steps in H as [? _].
  - eapply c_chain_head_steps in H1 as [S1 [R1 W1]]. eapply steps_trans; [exact S1|]. eapply c_chain_tails_steps; [exact R1|exact W1|exact H].
Qed.

Lemma c_regexp_pattern_steps c pid p c' r : c_regexp_pattern c pid p = Ret (c', r) -> steps pid c c'.
Proof.
  unfold c_regexp_pattern. intros H. inv_bind H as [head tail] Hs. destruct (negb _); [by eapply c_chain_steps|].
  destruct (is_alternation_literal _).
  { inv_bind H as c1 H1. simplify_eq. by eapply c_alternation_literal_steps. }
  inv_bind H as [[[pat mask] atoms]|] Hm.
  - inv_bind H as [c1 i1] H1. inv_bind H as [c2 i2] H2. apply (intern_literal_steps pid) in H1 as [S1 I1], H2 as [S2 I2].
    apply Ret_inj, pair_eq in H as [<- _]. eapply steps_trans; [done|]. eapply steps_trans; [exact S2|].
    apply add_one_steps; [done| |done]. repeat constructor; [by eapply interned_steps|done].
  - apply try_bind_Ret in H as [(e & H & ->)|(c1 & [atoms fast] & H1 & H)]; [by eapply c_regexp_steps|].
    inv_bind H as [c2 wide_id] Hw. destruct (add_raw _ _ _ _ _ _) as [c3 raw_id] eqn:Hr. apply Ret_inj, pair_eq in H as [<- _].
    eapply steps_trans; [by eapply c_regexp_steps|].
    eapply add_wide_steps in Hw; [|by intros; apply sub_ok_unchained].
    eapply add_raw_steps in Hr; [|by intros; apply sub_ok_unchained]. by eapply steps_trans.
Qed.

Lemma insert_new_Ret {A} id (a : A) l l' : insert_new id a l = Ret l' -> id ∉ l.*1 /\ l' = l ++ [(id, a)].
Proof. unfold insert_new. case_bool_decide; [done|]. by intros [= <-]. Qed.

Lemma c_pattern_steps pid p b h c c' r : c_pattern pid p b h c = Ret (c', r) -> steps pid c c'.
Proof.
  unfold c_pattern. intros H. apply try_bind_Ret in H as [(e & H & ->)|(c1 & [] & H1 & H)].
  - destruct p; [by inv_bind H as c1 H1|by eapply c_regexp_pattern_steps..].
  - assert (S1 : steps pid c c1).
    { destruct p; [|by eapply c_regexp_pattern_steps..]. inv_bind H1 as c2 H2. simplify_eq. by eapply c_literal_pattern_steps. }
    inv_bind H as fb Hf. inv_bind H as hc Hh. apply Ret_inj, pair_eq in H as [<- _]. eapply steps_trans; [exact S1|].
    set (c2 := set_rules c1.(c_rules) fb c1.(c_header_constraints) c1).
    assert (S2 : steps pid c1 c2).
    { unfold c2. destruct (negb _); [apply insert_new_Ret in Hf as [? ->]; by apply rtc_once, step_bounds|].
      simplify_eq. by destruct c1. }
    eapply steps_trans; [exact S2|]. destruct (negb (unconstrained h)).
    + apply insert_new_Ret in Hh as [? ->]. by apply rtc_once, (step_header pid c2).
    + simplify_eq. by destruct c1.
Qed.

(** * The invariant of the compiler *)

(** No two elements are equal. *)
Definition distinct {A} `{Equiv A} (l : list A) : Prop :=
  forall i j x y, l !! i = Some x -> l !! j = Some y -> x ≡ y -> i = j.

Lemma distinct_snoc {A} `{Equiv A} `{!Equivalence (≡@{A})} (l : list A) x :
  distinct l -> Forall (fun y => y ≢ x) l -> distinct (l ++ [x]).
Proof.
  intros Hl Hx i j a b. rewrite Forall_lookup in Hx.
  rewrite !lookup_app_Some, !list_lookup_singleton_Some.
  intros [Ha|[? [? <-]]] [Hb|[? [? <-]]] Hab; [by eapply Hl|by destruct (Hx _ _ Ha)| |lia].
  destruct (Hx _ _ Hb). by symmetry.
Qed.

(** Patterns get consecutive identifiers, one per pattern; sub-patterns, atoms,
    chains and constraints refer to what exists. *)
Record compiler_ok c : Prop := {
  ok_ids : c.(patterns).*2 = seqZ 0 c.(next_pattern_id);
  ok_patterns : distinct c.(patterns).*1;
  ok_fast : len c.(c_fast_scan_patterns) = c.(next_pattern_id);
  ok_rules : Forall (Forall (fun id => 0 <= id < c.(next_pattern_id))) c.(c_rules);
  ok_subs i pid s : get c.(c_sub_patterns) i = Some (pid, s) ->
    0 <= pid < c.(next_pattern_id) /\ sub_ok c pid s /\
    forall id gap flags, link_of s = Some (Tail id gap flags) -> 0 <= id < i;
  ok_atoms : Forall (fun a => is_Some (get c.(c_sub_patterns) a.(sa_sub_pattern_id))) c.(c_atoms);
  ok_bounds : NoDup c.(c_filesize_bounds).*1 /\ Forall (fun p => 0 <= fst p < c.(next_pattern_id)) c.(c_filesize_bounds);
  ok_headers : NoDup c.(c_header_constraints).*1 /\ Forall (fun p => 0 <= fst p < c.(next_pattern_id)) c.(c_header_constraints);
}.

(** The sub-patterns that are verified at their offset are anchored literals. *)
Definition anchored_ok c : Prop :=
  Forall (fun id => exists pid lit offset flags, get c.(c_sub_patterns) id = Some (pid, SubPattern.Literal lit (Some offset) flags))
    c.(c_anchored_sub_patterns).

Lemma compiler_ok_new slow : compiler_ok (compiler_new slow) /\ anchored_ok (compiler_new slow).
Proof.
  split; [|constructor]. split; cbn; try done; try by repeat constructor. intros i pid s H. by apply get_Some in H as [_ ?].
Qed.

Lemma wrap_fits c : fits c -> wrap_u32 (len c.(c_sub_patterns)) = len c.(c_sub_patterns).
Proof. unfold fits, u32_MAX, wrap_u32. intros. pose proof (len_nonneg c.(c_sub_patterns)). rewrite Z.mod_small; lia. Qed.

Lemma get_app_inv {A} (l : list A) x i y : get (l ++ [x]) i = Some y -> get l i = Some y \/ i = len l /\ y = x.
Proof.
  rewrite !get_Some. intros [Hi Hl]. apply lookup_snoc_Some in Hl as [[? ?]|[? ?]]; [by left|right].
  unfold len. split; [lia|done].
Qed.

Lemma get_snoc {A} (l : list A) x : get (l ++ [x]) (len l) = Some x.
Proof.
  apply get_Some. split; [apply len_nonneg|]. unfold len. rewrite Nat2Z.id. by rewrite lookup_app_r, Nat.sub_diag by done.
Qed.

(** The fields that a new sub-pattern does not change. *)
Lemma add_fields {A} c pid sub (atoms : list A) f :
  let c' := fst (add_sub_pattern c pid sub atoms f) in
  c'.(c_lit_pool) = c.(c_lit_pool) /\ c'.(patterns) = c.(patterns) /\ c'.(next_pattern_id) = c.(next_pattern_id) /\
  c'.(c_fast_scan_patterns) = c.(c_fast_scan_patterns) /\ c'.(c_rules) = c.(c_rules) /\
  c'.(c_filesize_bounds) = c.(c_filesize_bounds) /\ c'.(c_header_constraints) = c.(c_header_constraints) /\
  c'.(c_sub_patterns) = c.(c_sub_patterns) ++ [(pid, sub)].
Proof. unfold add_sub_pattern. by destruct sub as [? [o|] ?| | | | | | | | | | |]. Qed.

Lemma add_tables {A} c pid sub (atoms : list A) f :
  let c' := fst (add_sub_pattern c pid sub atoms f) in
  let id := wrap_u32 (len c.(c_sub_patterns)) in
  (c'.(c_anchored_sub_patterns) = c.(c_anchored_sub_patterns) /\ c'.(c_atoms) = c.(c_atoms) ++ (f id <$> atoms)) \/
  (c'.(c_anchored_sub_patterns) = c.(c_anchored_sub_patterns) ++ [id] /\ c'.(c_atoms) = c.(c_atoms) /\
   exists lit offset flags, sub = SubPattern.Literal lit (Some offset) flags).
Proof. unfold add_sub_pattern. destruct sub as [? [o|] ?| | | | | | | | | | |]; cbn; eauto 10. Qed.

Lemma step_add_ok {A} pid c sub (atoms : list A) f :
  0 <= pid < c.(next_pattern_id) -> fits c -> compiler_ok c ->
  (forall i a, sa_sub_pattern_id (f i a) = i) -> sub_ok c pid sub ->
  let c' := fst (add_sub_pattern c pid sub atoms f) in compiler_ok c' /\ (anchored_ok c -> anchored_ok c').
Proof.
  intros Hpid Hfits [I1 I2 I3 I4 I5 I6 I7 I8] Hf Hsub c'. assert (Hg : grown pid c c') by (by apply steps_mono, add_steps).
  pose proof (add_fields c pid sub atoms f) as (Fl & Fp & Fn & Ff & Fr & Fb & Fh & Fs). fold c' in Fl, Fp, Fn, Ff, Fr, Fb, Fh, Fs.
  pose proof (add_tables c pid sub atoms f) as Ht. fold c' in Ht. cbn in Ht. rewrite (wrap_fits c Hfits) in Ht.
  assert (Hmono : forall i, is_Some (get (c_sub_patterns c) i) -> is_Some (get (c_sub_patterns c') i)).
  { intros i [x Hx]. exists x. eapply prefix_get; [apply (g_subs _ _ _ Hg)|done]. }
  split.
  - split; rewrite ?Fp, ?Fn, ?Ff, ?Fr, ?Fb, ?Fh; try done.
    + intros i p s. rewrite Fs. intros [Hi|[-> [= -> ->]]]%get_app_inv.
      * destruct (I5 _ _ _ Hi) as (? & ? & ?). split_and!; [lia..| |done]. by eapply grown_sub_ok.
      * split_and!; [lia..|by eapply grown_sub_ok|]. intros id gap flags Hl. destruct Hsub as [_ Hsub].
        destruct (Hsub _ _ _ Hl) as (s' & Hs' & _). by eapply get_lt.
    + assert (H6 : Forall (fun a => is_Some (get (c_sub_patterns c') (sa_sub_pattern_id a))) (c_atoms c)) by (eapply Forall_impl; eauto).
      destruct Ht as [[_ ->]|(_ & -> & _)]; [|done]. apply Forall_app. split; [done|]. apply Forall_fmap, Forall_true.
      intros a. cbn. rewrite Hf, Fs. eexists. apply get_snoc.
  - intros Ha. assert (Forall (fun id => exists pid lit offset flags,
        get (c_sub_patterns c') id = Some (pid, SubPattern.Literal lit (Some offset) flags)) (c_anchored_sub_patterns c)).
    { eapply Forall_impl; [exact Ha|]. intros id (p & l & o & fl & Hi). exists p, l, o, fl. eapply prefix_get; [apply (g_subs _ _ _ Hg)|done]. }
    unfold anchored_ok. destruct Ht as [[-> _]|(-> & _ & (l & o & fl & ->))]; [done|]. apply Forall_app. split; [done|].
    repeat constructor. rewrite Fs. eexists _, _, _, _. apply get_snoc.
Qed.

(** A change that keeps the tables of patterns, sub-patterns and atoms. *)
Lemma same_tables_ok id0 c c' :
  c'.(patterns) = c.(patterns) -> c'.(next_pattern_id) = c.(next_pattern_id) -> c'.(c_fast_scan_patterns) = c.(c_fast_scan_patterns) ->
  c'.(c_rules) = c.(c_rules) -> c'.(c_sub_patterns) = c.(c_sub_patterns) -> c'.(c_atoms) = c.(c_atoms) ->
  c'.(c_anchored_sub_patterns) = c.(c_anchored_sub_patterns) -> grown id0 c c' ->
  NoDup c'.(c_filesize_bounds).*1 /\ Forall (fun p => 0 <= fst p < c.(next_pattern_id)) c'.(c_filesize_bounds) ->
  NoDup c'.(c_header_constraints).*1 /\ Forall (fun p => 0 <= fst p < c.(next_pattern_id)) c'.(c_header_constraints) ->
  compiler_ok c -> compiler_ok c' /\ (anchored_ok c -> anchored_ok c').
Proof.
  intros Ep En Ef Er Es Ea Ec Hg Hb Hh [I1 I2 I3 I4 I5 I6 _ _]. split.
  - split; rewrite ?Ep, ?En, ?Ef, ?Er, ?Es, ?Ea; try done. intros i pid s Hi. destruct (I5 _ _ _ Hi) as (? & ? & ?).
    split_and!; [lia..|by eapply grown_sub_ok|done].
  - unfold anchored_ok. by rewrite Es, Ec.
Qed.

Lemma keys_snoc {A} n id (a : A) (l : list (Z * A)) : 0 <= id < n -> id ∉ l.*1 ->
  NoDup l.*1 /\ Forall (fun p => 0 <= fst p < n) l -> NoDup (l ++ [(id, a)]).*1 /\ Forall (fun p => 0 <= fst p < n) (l ++ [(id, a)]).
Proof.
  intros Hid Hn [H1 H2]. split.
  - rewrite fmap_app. apply NoDup_app. split_and!; [done| |apply NoDup_singleton]. intros x Hx ->%list_elem_of_singleton. done.
  - apply Forall_app. split; [done|]. constructor; [done|constructor].
Qed.

Lemma step_ok pid c c' : step pid c c' -> 0 <= pid < c.(next_pattern_id) -> fits c -> compiler_ok c ->
  compiler_ok c' /\ (anchored_ok c -> anchored_ok c').
Proof.
  intros Hs Hpid Hf Hok. assert (Hg : forall id0, id0 <= pid -> grown id0 c c') by (intros; by eapply step_grown).
  pose proof Hok as [_ _ _ _ _ _ I7 I8].
  destruct Hs as [c p Hp|c code Hc|A c sub atoms f Hsub Hadd|c b Hb|c h Hh].
  3: apply step_add_ok; auto.
  all: eapply same_tables_ok; try done; try (by apply keys_snoc); by apply Hg.
Qed.

(** ** The identifiers of patterns *)

(** The identifier of the patterns that are equal to [p]. *)
Definition id_of c (p : Pattern) (id : Z) : Prop := exists q, p ≡ q /\ (q, id) ∈ c.(patterns).

#[export] Instance id_of_proper c : Proper ((≡) ==> (=) ==> iff) (id_of c).
Proof. intros p p' Hp id _ <-. unfold id_of. by setoid_rewrite Hp. Qed.

Lemma lookup_pattern_Some p l id : lookup_pattern p l = Some id -> exists q, p ≡ q /\ (q, id) ∈ l.
Proof.
  unfold lookup_pattern. intros H. apply fmap_Some in H as (x & H & ->). apply fmap_Some in H as ([n [q i]] & H & ->).
  apply list_find_Some in H as (H & Hq & _). apply list_elem_of_lookup_2 in H. exists q. split; [by symmetry|done].
Qed.

Lemma lookup_pattern_None p l : lookup_pattern p l = None -> Forall (fun q => q ≢ p) l.*1.
Proof. unfold lookup_pattern. by rewrite !fmap_None, list_find_None, Forall_fmap. Qed.

Lemma ok_next_nonneg c : compiler_ok c -> 0 <= c.(next_pattern_id).
Proof. intros Hc. rewrite <- (ok_fast _ Hc). apply len_nonneg. Qed.

Lemma ok_pattern_id c p id : compiler_ok c -> (p, id) ∈ c.(patterns) -> 0 <= id < c.(next_pattern_id).
Proof.
  intros Hc Hp. assert (Hi : id ∈ c.(patterns).*2) by (apply list_elem_of_fmap; by exists (p, id)).
  rewrite (ok_ids _ Hc) in Hi. apply elem_of_seqZ in Hi. lia.
Qed.

Lemma ok_id_of c p id : compiler_ok c -> id_of c p id -> 0 <= id < c.(next_pattern_id).
Proof. intros Hc (q & _ & Hq). by apply (ok_pattern_id c q). Qed.

(** Patterns are equal when their identifiers are. *)
Lemma same_id c p id p' id' : compiler_ok c -> id_of c p id -> id_of c p' id' -> p ≡ p' <-> id = id'.
Proof.
  intros Hc (q & Hq & [i Hi]%list_elem_of_lookup) (q' & Hq' & [j Hj]%list_elem_of_lookup). rewrite Hq, Hq'.
  assert (Hids : forall i q id, c.(patterns) !! i = Some (q, id) -> id = Z.of_nat i).
  { intros k r n Hk. assert (Hn : c.(patterns).*2 !! k = Some n) by by rewrite list_lookup_fmap, Hk.
    rewrite (ok_ids _ Hc) in Hn. apply lookup_seqZ in Hn. lia. }
  pose proof (Hids _ _ _ Hi) as ->. pose proof (Hids _ _ _ Hj) as ->. split.
  - intros Heq. f_equal. eapply (ok_patterns _ Hc); [..|exact Heq]; by rewrite list_lookup_fmap, ?Hi, ?Hj.
  - intros Heq. assert (i = j) as <- by lia. by simplify_eq.
Qed.

(** What the assignment of identifiers does to the compiler. *)
Record assigned c c' : Prop := {
  as_grown : grown c.(next_pattern_id) c c';
  as_subs : c'.(c_sub_patterns) = c.(c_sub_patterns);
  as_anchored : c'.(c_anchored_sub_patterns) = c.(c_anchored_sub_patterns);
  as_rules : c'.(c_rules) = c.(c_rules);
  as_ok : compiler_ok c -> compiler_ok c';
}.

Lemma assigned_refl c : assigned c c.
Proof. by split. Qed.

Lemma grown_weaken i j c c' : i <= j -> grown j c c' -> grown i c c'.
Proof.
  intros Hij G. destruct G as [? ? ? ? ? ? ? (ps & ? & Hp) ? (fs & ? & Hf) (hs & ? & Hh) ?].
  split; try done; (eexists; split; [done|]); (eapply Forall_impl; [done|]); cbn; lia.
Qed.

Lemma assigned_trans c1 c2 c3 : assigned c1 c2 -> assigned c2 c3 -> assigned c1 c3.
Proof.
  intros [G1 S1 A1 R1 O1] [G2 S2 A2 R2 O2]. split; [|congruence..|auto].
  etrans; [done|]. eapply grown_weaken; [|done]. eapply g_next. done.
Qed.

Lemma seqZ_snoc n : 0 <= n -> seqZ 0 (n + 1) = seqZ 0 n ++ [n].
Proof.
  intros Hn. replace (n + 1) with (Z.of_nat (Z.to_nat n) + Z.of_nat 1) by lia. rewrite seqZ_app by lia.
  by rewrite Z2Nat.id, Z.add_0_l by lia.
Qed.

Lemma new_pattern_assigned c p : 0 <= c.(next_pattern_id) -> Forall (fun q => q ≢ p) c.(patterns).*1 ->
  assigned c (set_patterns (c.(next_pattern_id) + 1) (c.(patterns) ++ [(p, c.(next_pattern_id))]) (c.(c_fast_scan_patterns) ++ [true]) c).
Proof.
  intros Hn Hp. assert (Hg : grown c.(next_pattern_id) c (set_patterns (c.(next_pattern_id) + 1)
    (c.(patterns) ++ [(p, c.(next_pattern_id))]) (c.(c_fast_scan_patterns) ++ [true]) c)).
  { split; cbn; try done; try apply app_Forall_refl; [lia| |].
    - eexists. split; [done|]. constructor; [cbn; lia|constructor].
    - by exists c.(c_fast_scan_patterns), [true]. }
  split; [done..|]. intros [I1 I2 I3 I4 I5 I6 [I7 I7'] [I8 I8']]. split; cbn.
  - rewrite fmap_app, I1. cbn. by rewrite seqZ_snoc.
  - rewrite fmap_app. by apply distinct_snoc.
  - rewrite len_app, I3, len_cons, len_nil. lia.
  - eapply Forall_impl; [done|]. intros l Hl. eapply Forall_impl; [exact Hl|]. cbn. lia.
  - intros i pid s Hi. destruct (I5 _ _ _ Hi) as (? & ? & ?). split_and!; [lia..|by eapply grown_sub_ok|done].
  - done.
  - split; [done|]. eapply Forall_impl; [exact I7'|]. cbn. lia.
  - split; [done|]. eapply Forall_impl; [exact I8'|]. cbn. lia.
Qed.

Lemma clear_flag_assigned c i : assigned c (set_patterns c.(next_pattern_id) c.(patterns) (<[i := false]> c.(c_fast_scan_patterns)) c).
Proof.
  assert (Hg : grown c.(next_pattern_id) c (set_patterns c.(next_pattern_id) c.(patterns) (<[i := false]> c.(c_fast_scan_patterns)) c)).
  { split; cbn; try done; try apply app_Forall_refl. eexists _, []. rewrite app_nil_r. split; [done|].
    apply Forall2_same_length_lookup_2; [by rewrite length_insert|]. intros j x y Hx Hy.
    apply list_lookup_insert_Some in Hy as [(? & <- & ?)|[? Hy]]; [done|]. by simplify_eq. }
  split; [done..|]. intros [I1 I2 I3 I4 I5 I6 I7 I8]. split; cbn; try done.
  unfold len in *. by rewrite length_insert.
Qed.

(** The identifier of a pattern; a new one is not below [n]. *)
Definition has_id c (n : Z) (p : Pattern) (id : Z * bool) : Prop :=
  id_of c p (fst id) /\ (snd id = true -> n <= fst id).

Lemma has_id_grown id0 c c' n p id : grown id0 c c' -> has_id c n p id -> has_id c' n p id.
Proof.
  intros G [(q & Hq & H1) H2]. split; [|done]. destruct (g_patterns _ _ _ G) as (ps & Hps & _).
  exists q. split; [done|]. rewrite Hps. apply elem_of_app. by left.
Qed.

Lemma assign_id_spec p c c' r : 0 <= c.(next_pattern_id) -> assign_id p c = Ret (c', r) ->
  assigned c c' /\ match r with inl _ => c' = c | inr id => has_id c' c.(next_pattern_id) p.(pattern) id end.
Proof.
  intros Hn. unfold assign_id. destruct (_ && _); [intros [= <- <-]; split; [apply assigned_refl|done]|].
  destruct (lookup_pattern (pattern p) (patterns c)) as [id|] eqn:El.
  - apply lookup_pattern_Some in El. intros H. inv_bind H as c1 H1. simplify_eq.
    destruct (fast_scan_allowed p).
    + simplify_eq. split; [apply assigned_refl|]. by split.
    + inv_bind H1 as b Hb. simplify_eq. split; [apply clear_flag_assigned|]. by split.
  - apply lookup_pattern_None in El. intros H. inv_bind H as c1 H1. simplify_eq.
    pose proof (new_pattern_assigned c (pattern p) Hn El) as Ha. set (c2 := set_patterns _ _ _ c) in *.
    assert (Hid : has_id c2 c.(next_pattern_id) (pattern p) (next_pattern_id c, true)).
    { split; [|done]. exists (pattern p). split; [done|]. cbn. apply elem_of_app. right. left. }
    destruct (fast_scan_allowed p).
    + simplify_eq. by split.
    + inv_bind H1 as b Hb. simplify_eq. split; [|done]. eapply assigned_trans; [exact Ha|]. apply (clear_flag_assigned c2).
Qed.

Lemma assign_ids_spec ps c c' r : 0 <= c.(next_pattern_id) -> assign_ids ps c = Ret (c', r) ->
  assigned c c' /\
  match r with inl _ => True | inr ids => Forall2 (has_id c' c.(next_pattern_id)) (pattern <$> ps) ids end.
Proof.
  revert c r. induction ps as [|p ps IH]; intros c r Hn H; cbn [assign_ids] in H.
  - simplify_eq. split; [apply assigned_refl|constructor].
  - apply try_bind_Ret in H as [(e & H & ->)|(c1 & id & H1 & H)].
    + apply assign_id_spec in H as [? _]; done.
    + apply assign_id_spec in H1 as [A1 I1]; [|done]. pose proof (g_next _ _ _ (as_grown _ _ A1)) as Hn1.
      apply try_bind_Ret in H as [(e & H & ->)|(c2 & ids & H2 & H)].
      * apply IH in H as [A2 _]; [|lia]. split; [by eapply assigned_trans|done].
      * apply Ret_inj, pair_eq in H as [<- <-]. apply IH in H2 as [A2 I2]; [|lia]. split; [by eapply assigned_trans|].
        constructor; [eapply has_id_grown; [apply (as_grown _ _ A2)|done]|].
        eapply Forall2_impl; [done|]. intros q i [? ?]. split; [done|]. intros; lia || (transitivity (next_pattern_id c1); auto).
Qed.

(** ** Rules *)

(** The steps for the new patterns of a rule. *)
Definition rule_steps (id0 : Z) : Compiler -> Compiler -> Prop :=
  rtc (fun c c' => exists pid, id0 <= pid < c.(next_pattern_id) /\ step pid c c').

Lemma rule_steps_grown id0 c c' : rule_steps id0 c c' -> grown id0 c c'.
Proof. induction 1 as [|c1 c2 c3 (pid & Hp & Hs) _ IH]; [done|]. etrans; [|done]. eapply step_grown; [|done]. lia. Qed.

Lemma rule_steps_ok id0 c c' : 0 <= id0 -> rule_steps id0 c c' -> fits c' -> compiler_ok c ->
  compiler_ok c' /\ (anchored_ok c -> anchored_ok c').
Proof.
  intros H0. induction 1 as [|c1 c2 c3 (pid & Hp & Hs) Hr IH]; intros Hf Hok; [done|].
  assert (Hf2 : fits c2) by (eapply grown_fits; [by apply rule_steps_grown|done]).
  assert (Hf1 : fits c1) by (eapply grown_fits; [apply (step_grown pid pid); [lia|exact Hs]|done]).
  destruct (step_ok _ _ _ Hs) as [K1 K2]; [lia|done..|]. destruct (IH Hf K1). auto.
Qed.

Lemma steps_rule_steps id0 pid c c' : id0 <= pid < c.(next_pattern_id) -> steps pid c c' -> rule_steps id0 c c'.
Proof.
  intros Hp Hs. induction Hs as [|c1 c2 c3 Hs _ IH]; [apply rtc_refl|]. eapply rtc_l; [by exists pid|]. apply IH.
  pose proof (g_next _ _ _ (step_grown pid pid _ _ ltac:(lia) Hs)). lia.
Qed.

Lemma c_patterns_steps id0 ps b h c c' r :
  Forall (fun x => snd (fst x) = true -> id0 <= fst (fst x) < c.(next_pattern_id)) ps ->
  c_patterns ps b h c = Ret (c', r) -> rule_steps id0 c c'.
Proof.
  revert c. induction ps as [|[[pid new] p] ps IH]; intros c Hps H; cbn [c_patterns] in H; [simplify_eq; apply rtc_refl|].
  apply Forall_cons in Hps as [Hp Hps]. cbn in Hp. destruct new; [|by apply IH in H].
  apply try_bind_Ret in H as [(e & H & ->)|(c1 & [] & H1 & H)].
  - apply c_pattern_steps in H. eapply steps_rule_steps; [|done]. auto.
  - apply c_pattern_steps in H1. assert (Hr : rule_steps id0 c c1) by (eapply steps_rule_steps; [|done]; auto).
    etransitivity; [exact Hr|]. apply IH; [|done]. pose proof (g_next _ _ _ (rule_steps_grown _ _ _ Hr)).
    eapply Forall_impl; [exact Hps|]. cbn. intros x Hx Hn. specialize (Hx Hn). lia.
Qed.

(** The rule with its identifiers. *)
Definition add_rule (ids : list Z) c : Compiler :=
  set_rules (c.(c_rules) ++ [ids]) c.(c_filesize_bounds) c.(c_header_constraints) c.

Lemma add_rule_ok c id0 ids : Forall (fun id => 0 <= id < c.(next_pattern_id)) ids ->
  grown id0 c (add_rule ids c) /\ (compiler_ok c -> compiler_ok (add_rule ids c)).
Proof.
  intros Hids. split; [by grow|]. intros [I1 I2 I3 I4 I5 I6 I7 I8]. split; try done. cbn. apply Forall_app. split; [done|]. by constructor.
Qed.

Lemma rule_steps_rules id0 c c' : rule_steps id0 c c' -> c'.(c_rules) = c.(c_rules).
Proof.
  induction 1 as [|c1 c2 c3 (pid & _ & Hs) _ IH]; [done|]. rewrite IH. destruct Hs; try done.
  by pose proof (add_fields c pid sub atoms f) as (_ & _ & _ & _ & ? & _).
Qed.

(** What the compilation of a rule does before a snapshot is restored: the
    patterns get their identifiers, then the new ones are compiled. *)
Lemma rule_phases ps b h c c' r : compiler_ok c ->
  (try_bind (assign_ids ps c) (fun c ids =>
     let c := set_rules (c.(c_rules) ++ [ids.*1]) c.(c_filesize_bounds) c.(c_header_constraints) c in
     c_patterns (zip ids (pattern <$> ps)) b h c)) = Ret (c', r) ->
  exists c1, assigned c c1 /\
    ((exists e, r = inl e /\ c' = c1) \/
     exists ids, Forall2 (has_id c1 c.(next_pattern_id)) (pattern <$> ps) ids /\ Forall (fun id => 0 <= id < c1.(next_pattern_id)) ids.*1 /\
       rule_steps c.(next_pattern_id) (add_rule ids.*1 c1) c').
Proof.
  intros Hok H. pose proof (ok_next_nonneg _ Hok) as Hn. apply try_bind_Ret in H as [(e & H & ->)|(c1 & ids & H1 & H)].
  - apply assign_ids_spec in H as [Ha _]; [|done]. exists c'. split; [done|]. left. by exists e.
  - apply assign_ids_spec in H1 as [Ha Hids]; [|done]. pose proof (as_ok _ _ Ha Hok) as Hok1.
    assert (Hrange : Forall (fun id => 0 <= id < c1.(next_pattern_id)) ids.*1).
    { apply Forall_fmap, Forall_forall. intros id Hid. apply list_elem_of_lookup in Hid as [i Hi].
      destruct (Forall2_lookup_r _ _ _ _ _ Hids Hi) as (p & _ & Hp & _). by apply (ok_id_of c1 p). }
    exists c1. split; [done|]. right. exists ids. split_and!; [done..|].
    eapply c_patterns_steps; [|done]. apply Forall_forall. intros [[id new] p] Hin. cbn. intros ->.
    apply list_elem_of_lookup in Hin as [i Hi]. apply lookup_zip_Some in Hi as [Hi Hp].
    destruct (Forall2_lookup_r _ _ _ _ _ Hids Hi) as (q & _ & Hq & Hge). cbn in Hge. specialize (Hge eq_refl).
    cbn in Hq. pose proof (ok_id_of c1 q id Hok1 Hq). cbn. lia.
Qed.

Lemma rule_grown ps b h c c' r : compiler_ok c ->
  (try_bind (assign_ids ps c) (fun c ids =>
     let c := set_rules (c.(c_rules) ++ [ids.*1]) c.(c_filesize_bounds) c.(c_header_constraints) c in
     c_patterns (zip ids (pattern <$> ps)) b h c)) = Ret (c', r) ->
  grown c.(next_pattern_id) c c'.
Proof.
  intros Hok H. apply rule_phases in H as (c1 & Ha & H); [|done]. destruct H as [(e & _ & ->)|(ids & _ & Hr & Hs)]; [apply Ha|].
  etrans; [apply Ha|]. etrans; [by apply add_rule_ok|]. by apply rule_steps_grown.
Qed.

Lemma filter_ids {A} (key : A -> Z) n (l l' : list A) :
  Forall (fun x => key x < n) l -> Forall (fun x => n <= key x) l' -> filter (fun x => key x < n) (l ++ l') = l.
Proof.
  intros H H'. rewrite filter_app. assert (filter (fun x => key x < n) l = l) as ->.
  { induction H as [|x l Hx _ IH]; [done|]. rewrite filter_cons_True by done. by rewrite IH. }
  assert (filter (fun x => key x < n) l' = []) as ->; [|by rewrite app_nil_r].
  induction H' as [|x l' Hx _ IH]; [done|]. rewrite filter_cons_False by lia. done.
Qed.

Lemma prefix_take {A} (l l' : list A) : l `prefix_of` l' -> take (length l) l' = l.
Proof. intros [k ->]. apply take_app_length. Qed.

Lemma restored c c' : compiler_ok c -> grown c.(next_pattern_id) c c' ->
  exists flags junk, Forall2 cleared c.(c_fast_scan_patterns) flags /\
    restore_snapshot (take_snapshot c) c' =
    set_pool c'.(c_lit_pool) (set_sub_patterns c.(c_sub_patterns) (c.(c_anchored_sub_patterns) ++ junk) c.(c_atoms)
      (set_patterns c.(next_pattern_id) c.(patterns) flags c)).
Proof.
  intros Hok G. destruct (g_fast _ _ _ G) as (flags & added & Ef & Hf). destruct (g_anchored _ _ _ G) as [junk Ej].
  exists flags, junk. split; [done|]. unfold restore_snapshot, take_snapshot, set_pool, set_sub_patterns, set_patterns. cbn.
  rewrite (prefix_take _ _ (g_subs _ _ _ G)), (prefix_take _ _ (g_atoms _ _ _ G)), (prefix_take _ _ (g_code _ _ _ G)),
    (prefix_take _ _ (g_rules _ _ _ G)), Ej, (g_slow _ _ _ G).
  destruct (g_patterns _ _ _ G) as (np & -> & Hp), (g_bounds _ _ _ G) as (nb & -> & Hb), (g_headers _ _ _ G) as (nh & -> & Hh).
  rewrite Ef, (Forall2_length _ _ _ Hf), take_app_length. rewrite !filter_ids; try done.
  - eapply Forall_impl; [apply (ok_headers _ Hok)|]. cbn. lia.
  - eapply Forall_impl; [apply (ok_bounds _ Hok)|]. cbn. lia.
  - apply Forall_forall. intros [p id] Hx. apply (ok_pattern_id _ p id Hok) in Hx. cbn. lia.
Qed.
End Steps.

(** * Theorems *)

Section Theorems.
Context {T : Type} {ST : SymbolTable T} {E : Type} {B64 : Base64 E} {IT : Itertools} {RS : RegexSyntax} {AL : AlternationLiteral}.
Context {VI : HirVisit} {BS : BitSlice} {B : Type} {BV : BitVec B} {LS : LiteralSyntax} {STL : SymbolTableLaws T}.
Implicit Types c : Compiler T.

Lemma failed_rule_restored ps b h c c' e :
  compiler_ok c -> c_rule_patterns ps b h c = Ret (c', inl e) ->
  exists pool flags junk,
    c' = set_pool pool (set_sub_patterns c.(c_sub_patterns) (c.(c_anchored_sub_patterns) ++ junk) c.(c_atoms)
           (set_patterns c.(next_pattern_id) c.(patterns) flags c)) /\
    (forall id s, get_bytes c.(c_lit_pool) id = Some s -> get_bytes pool id = Some s) /\
    Forall2 cleared c.(c_fast_scan_patterns) flags.
Proof.
  intros Hok H. unfold c_rule_patterns in H. inv_bind H as [c1 [e1|[]]] H1; [|done]. apply Ret_inj, pair_eq in H as [<- [= ->]].
  apply rule_grown in H1; [|done]. destruct (restored c c1 Hok H1) as (flags & junk & Hf & ->).
  exists c1.(c_lit_pool), flags, junk. split_and!; [done| |done]. apply (g_pool _ _ _ H1).
Qed.

(** C6: a rule with errors leaves the compiler as it was, but for three things:
    strings added to the pool, where those that were there keep their
    identifiers, flags of the fast scan that have been cleared, and identifiers
    that stay at the end of the list of anchored sub-patterns. *)
Theorem failed_rule_undone ps b h c c' e :
  compiler_ok c -> c_rule_patterns ps b h c = Ret (c', inl e) ->
  exists pool flags junk,
    c' = set_pool pool (set_sub_patterns c.(c_sub_patterns) (c.(c_anchored_sub_patterns) ++ junk) c.(c_atoms)
           (set_patterns c.(next_pattern_id) c.(patterns) flags c)) /\
    (forall id s, get_bytes c.(c_lit_pool) id = Some s -> get_bytes pool id = Some s) /\
    Forall2 cleared c.(c_fast_scan_patterns) flags.
Proof. apply failed_rule_restored. Qed.

(** The states of the compiler after some rules, with the patterns of the rules
    that were compiled, in order; [clean] says that no rule had errors. The number
    of sub-patterns stays below [u32::MAX]. *)
Inductive compiled : list (list Pattern) -> bool -> Compiler T -> Prop :=
  | compiled_new slow : compiled [] true (compiler_new slow)
  | compiled_rule rs clean c ps b h c' : compiled rs clean c ->
      c_rule_patterns ps b h c = Ret (c', inr tt) -> fits c' -> compiled (rs ++ [pattern <$> ps]) clean c'
  | compiled_error rs clean c ps b h c' e : compiled rs clean c ->
      c_rule_patterns ps b h c = Ret (c', inl e) -> compiled rs false c'.

(** The identifiers of the patterns of a rule. *)
Definition rule_ids c : list Pattern -> list Z -> Prop := Forall2 (id_of c).

Lemma rule_ids_patterns c c' rs idss :
  (forall x, x ∈ c.(patterns) -> x ∈ c'.(patterns)) -> Forall2 (rule_ids c) rs idss -> Forall2 (rule_ids c') rs idss.
Proof.
  intros Hx Hrs. eapply Forall2_impl; [exact Hrs|]. intros ps ids Hps. eapply Forall2_impl; [exact Hps|].
  intros p id (q & Hq & Hin). exists q. auto.
Qed.

Lemma grown_patterns id0 c c' x : grown id0 c c' -> x ∈ c.(patterns) -> x ∈ c'.(patterns).
Proof. intros G Hx. destruct (g_patterns _ _ _ G) as (np & -> & _). apply elem_of_app. by left. Qed.

(** A rule that is compiled. *)
Lemma rule_compiled ps b h c c' : compiler_ok c -> c_rule_patterns ps b h c = Ret (c', inr tt) -> fits c' ->
  compiler_ok c' /\ grown c.(next_pattern_id) c c' /\ (anchored_ok c -> anchored_ok c') /\
  exists ids, c'.(c_rules) = c.(c_rules) ++ [ids] /\ rule_ids c' (pattern <$> ps) ids.
Proof.
  intros Hok H Hf. pose proof (ok_next_nonneg _ Hok) as Hn. unfold c_rule_patterns in H. inv_bind H as [c1 [e1|[]]] H1; [done|].
  apply Ret_inj, pair_eq in H as [<- _]. pose proof (rule_grown _ _ _ _ _ _ Hok H1) as Hg.
  destruct (rule_phases _ _ _ _ _ _ Hok H1) as (c2 & Ha & [(e & ? & _)|(ids & Hids & Hr & Hs)]); [done|].
  destruct (add_rule_ok c2 c.(next_pattern_id) ids.*1 Hr) as [G2 O2].
  destruct (rule_steps_ok _ _ _ Hn Hs Hf (O2 (as_ok _ _ Ha Hok))) as [Hok1 Ha1]. split_and!; [done..| |].
  - intros Hanc. apply Ha1. unfold anchored_ok in *. cbn. by rewrite (as_subs _ _ Ha), (as_anchored _ _ Ha).
  - exists ids.*1. split; [by rewrite (rule_steps_rules _ _ _ Hs); cbn; rewrite (as_rules _ _ Ha)|].
    apply Forall2_fmap_r. eapply Forall2_impl; [exact Hids|]. intros p id [(q & Hq & Hp) _].
    exists q. split; [done|]. eapply (grown_patterns _ c2 c1); [|done]. etrans; [exact G2|]. by apply rule_steps_grown.
Qed.

Lemma compiler_chains_ok c : compiler_ok c -> chains_ok (build c).
Proof.
  intros Hok id id' gap flags. unfold link_at. cbn. destruct (get (c_sub_patterns c) id) as [[pid s]|] eqn:Es; [|done]. cbn. intros Hl.
  destruct (ok_subs _ Hok _ _ _ Es) as (_ & [_ Hsub] & Hlt). split; [by eapply Hlt|].
  destruct (Hsub _ _ _ Hl) as (s' & -> & Hs'). done.
Qed.

Lemma restored_ok c pool flags junk : compiler_ok c ->
  (forall id s, get_bytes c.(c_lit_pool) id = Some s -> get_bytes pool id = Some s) ->
  Forall2 cleared c.(c_fast_scan_patterns) flags ->
  compiler_ok (set_pool pool (set_sub_patterns c.(c_sub_patterns) (c.(c_anchored_sub_patterns) ++ junk) c.(c_atoms)
    (set_patterns c.(next_pattern_id) c.(patterns) flags c))).
Proof.
  intros [I1 I2 I3 I4 I5 I6 I7 I8] Hp Hf. split; cbn; try done.
  - unfold len in *. by rewrite <- (Forall2_length _ _ _ Hf).
  - intros i pid s Hi. destruct (I5 _ _ _ Hi) as (? & [Hl Hk] & ?). split_and!; [lia..| |done]. split; [|done].
    eapply Forall_impl; [exact Hl|]. intros id [x Hx]. exists x. by apply Hp.
Qed.

(** C5: whatever rules are compiled, with or without errors: patterns get
    consecutive identifiers, every compiled rule has the identifiers of its
    patterns, and two patterns have the same identifier exactly when they are equal
    in the sense of the code, which compares everything but whether an expression
    is known to be greedy; sub-patterns refer to literals of the
    pool and to earlier links of a chain of the same pattern, as the scanner
    needs, and atoms to sub-patterns. If no rule had errors, the list of anchored
    sub-patterns has anchored literals only. *)
Theorem compiler_invariant rs clean c :
  compiled rs clean c ->
  compiler_ok c /\ chains_ok (build c) /\ Forall2 (rule_ids c) rs c.(c_rules) /\
  (forall p id p' id', id_of c p id -> id_of c p' id' -> p ≡ p' <-> id = id') /\ (clean = true -> anchored_ok c).
Proof.
  intros Hc. cut (compiler_ok c /\ Forall2 (rule_ids c) rs c.(c_rules) /\ (clean = true -> anchored_ok c)).
  { intros (Hok & Hrs & Ha). split_and!; [done|by apply compiler_chains_ok|done|exact (fun p id p' id' => same_id c p id p' id' Hok)|done]. }
  induction Hc as [slow|rs clean c ps b h c' _ (Hok & Hrs & Ha) H Hf|rs clean c ps b h c' e _ (Hok & Hrs & Ha) H].
  - destruct (@compiler_ok_new T _ slow). split_and!; [done|constructor|done].
  - destruct (rule_compiled _ _ _ _ _ Hok H Hf) as (Hok' & G & Ha' & ids & -> & Hids). split_and!; [done| |auto].
    apply Forall2_app; [|by constructor]. eapply rule_ids_patterns; [|done]. intros x. by apply (grown_patterns _ _ _ _ G).
  - destruct (failed_rule_restored _ _ _ _ _ _ Hok H) as (pool & flags & junk & -> & Hp & Hfl). split_and!; [|done|done].
    by apply restored_ok.
Qed.
End Theorems.

(** * Instances *)

Definition sample_text (text : list Z) (anchor : option Z) (used : bool) : PatternInRule :=
  {| identifier_starts_with_underscore := false;
     pattern := PText {| lit_flags := 0; text := text; lit_anchored_at := anchor; xor_range := None; base64_alphabet := None;
       base64wide_alphabet := None; lit_filesize_bounds := filesize_unbounded; lit_header_constraints := Unconstrained |};
     in_use := used; fast_scan_allowed := false |}.

(** A pattern that matches the empty string. *)
Definition sample_empty : PatternInRule :=
  {| identifier_starts_with_underscore := false;
     pattern := PRegexp {| re_flags := 0; re_hir := {| inner := HRepetition 0 (Some 1) true (HLiteral [0x61]); greedy := Some true |};
       re_anchored_at := None; re_filesize_bounds := filesize_unbounded; re_header_constraints := Unconstrained |};
     in_use := true; fast_scan_allowed := true |}.

Section Samples.
#[local] Notation rule ps := (c_rule_patterns (T := list (list Z)) (E := unit) (B := list bool) ps filesize_unbounded Unconstrained).

Definition after (r : res (Compiler (list (list Z)) * (CompileError + unit))) : Compiler (list (list Z)) :=
  match r with Ret (c, _) => c | _ => compiler_new false end.

Definition abc : list Z := [0x61; 0x62; 0x63].
Definition sample_c1 : Compiler (list (list Z)) := after (rule [sample_text abc (Some 0) true] (compiler_new false)).
Definition sample_c2 : Compiler (list (list Z)) := after (rule [sample_text abc (Some 0) true; sample_text [0x78; 0x79; 0x7a] None false] sample_c1).
(** The first rule has a pattern that matches the empty string. *)
Definition sample_stale : Compiler (list (list Z)) := after (rule [sample_text [0x71; 0x71; 0x71; 0x71] (Some 7) true; sample_empty] (compiler_new false)).
Definition sample_next : Compiler (list (list Z)) := after (rule [sample_text [0x78; 0x79; 0x7a] None true] sample_stale).

(** An anchored literal of a failed rule stays in the list of anchored
    sub-patterns, where its identifier stands for a sub-pattern of the next rule
    that is not anchored: the scanner panics. *)
Theorem stale_anchored_panics `{VG : VecGrowth} `{BSS : BitSliceSet} `{MC : Memchr} {S} `{PS : PosSet S}
    (ctx : ScanContext (list (list Z)) unit S (list bool)) fuel base data :
  rule [sample_text [0x71; 0x71; 0x71; 0x71] (Some 7) true; sample_empty] (compiler_new false) = Ret (sample_stale, inl MatchesEmptyStrings) /\
  rule [sample_text [0x78; 0x79; 0x7a] None true] sample_stale = Ret (sample_next, inr tt) /\
  (rules_of ctx = build sample_next -> 0 ∉ disabled_patterns (tracker (tracking ctx)) ->
   verify_anchored_patterns fuel base data ctx = Panic).
Proof.
  split_and!; [by vm_compute..|]. intros Hr Hd. unfold verify_anchored_patterns. rewrite Hr.
  replace (anchored_sub_patterns (build sample_next)) with [0] by by vm_compute. cbn [for_each].
  unfold verify_anchored_pattern. rewrite Hr.
  replace (get_sub_pattern (build sample_next) 0) with (Ret (0, SubPattern.Literal 1 None 0)) by by vm_compute.
  cbn [mbind res_bind]. by rewrite bool_decide_eq_false_2.
Qed.

Lemma failed_rule_undone_witness :
  rule [sample_text abc (Some 0) true; sample_text [0x78; 0x79; 0x7a] None false] sample_c1 = Ret (sample_c2, inl UnusedPattern) /\
  sample_c2.(patterns) = sample_c1.(patterns) /\ sample_c2.(c_sub_patterns) = sample_c1.(c_sub_patterns).
Proof.
  assert (H : rule [sample_text abc (Some 0) true; sample_text [0x78; 0x79; 0x7a] None false] sample_c1 = Ret (sample_c2, inl UnusedPattern))
    by (vm_compute; reflexivity).
  split; [exact H|]. assert (Hok : compiler_ok sample_c1).
  { destruct (@compiler_ok_new (list (list Z)) _ false) as [H0 _].
    refine (proj1 (rule_compiled (E := unit) (B := list bool) [sample_text abc (Some 0) true] filesize_unbounded Unconstrained _ _ H0 _ _)).
    - vm_compute. reflexivity.
    - vm_compute. discriminate. }
  destruct (failed_rule_undone _ _ _ _ _ _ Hok H) as (pool & flags & junk & E & _). rewrite E. split; reflexivity.
Defined.

Lemma compiler_invariant_witness :
  compiled (E := unit) (B := list bool) [[pattern (sample_text abc (Some 0) true)]] true sample_c1 /\
  chains_ok (build sample_c1) /\ anchored_ok sample_c1.
Proof.
  assert (H : compiled (E := unit) (B := list bool) [[pattern (sample_text abc (Some 0) true)]] true sample_c1).
  { refine (compiled_rule [] true (compiler_new false) [sample_text abc (Some 0) true] filesize_unbounded Unconstrained sample_c1 _ _ _).
    - apply compiled_new.
    - vm_compute. reflexivity.
    - vm_compute. discriminate. }
  split; [exact H|]. destruct (compiler_invariant _ _ _ H) as (_ & Hc & _ & _ & Ha). split; [exact Hc|exact (Ha eq_refl)].
Defined.
End Samples.

