(* ===== verification/Float64.v ===== *)
(** The floats of Rust and WebAssembly, [f64], on the specification of IEEE 754
    of the Standard Library: conversions from and to integers, rounding to
    integers and comparisons, and their exactness on integers of 53 bits. *)

From S2P Require Import Prelude.
From Stdlib Require Import SpecFloat.
#[local] Open Scope Z_scope.

Definition f64 : Type := spec_float.

Definition f64_add : f64 -> f64 -> f64 := SFadd 53 1024.
Definition f64_sub : f64 -> f64 -> f64 := SFsub 53 1024.
Definition f64_mul : f64 -> f64 -> f64 := SFmul 53 1024.
Definition f64_div : f64 -> f64 -> f64 := SFdiv 53 1024.
Definition f64_neg : f64 -> f64 := SFopp.

(** Comparisons, false on NaN; [!=] is true on it. *)
Definition f64_eq (a b : f64) : bool := SFeqb a b.
Definition f64_lt (a b : f64) : bool := SFltb a b.
Definition f64_le (a b : f64) : bool := SFleb a b.

(** [v as f64] *)
Definition f64_of_i64 (v : Z) : f64 := binary_normalize 53 1024 v 0 false.

Definition f64_zero : f64 := S754_zero false.

Definition is_finite (f : f64) : bool :=
  match f with S754_zero _ | S754_finite _ _ _ => true | _ => false end.

(** The integer part, rounded towards zero, and whether there is a fraction. *)
Definition truncate (m : positive) (e : Z) : Z * bool :=
  if 0 <=? e then (Zpos m * 2 ^ e, false)
  else (Zpos m / 2 ^ (- e), negb (Zpos m mod 2 ^ (- e) =? 0)).

(** [f as i64]: truncated, saturated, and 0 for NaN. *)
Definition f64_to_i64 (f : f64) : Z :=
  match f with
  | S754_nan | S754_zero _ => 0
  | S754_infinity s => if s then i64_MIN else i64_MAX
  | S754_finite s m e =>
      let t := fst (truncate m e) in Z.max i64_MIN (Z.min i64_MAX (if s then - t else t))
  end.

(** [f.floor()] and [f.ceil()]; a negative number that is rounded to zero gives
    negative zero. *)
Definition f64_floor (f : f64) : f64 :=
  match f with
  | S754_finite s m e =>
      if 0 <=? e then f
      else
        let '(t, frac) := truncate m e in
        if s then binary_normalize 53 1024 (- (t + (if frac : bool then 1 else 0))) 0 true
        else binary_normalize 53 1024 t 0 false
  | f => f
  end.

Definition f64_ceil (f : f64) : f64 :=
  match f with
  | S754_finite s m e =>
      if 0 <=? e then f
      else
        let '(t, frac) := truncate m e in
        if s then binary_normalize 53 1024 (- t) 0 true
        else binary_normalize 53 1024 (t + (if frac : bool then 1 else 0)) 0 false
  | f => f
  end.

(** * Exactness *)

(** A float of the format: every finite one is a multiple of 2^-1074. *)
Definition f64_valid (f : f64) : Prop := valid_binary 53 1024 f = true.

Definition num (f : f64) : Z :=
  match f with
  | S754_finite s m e => (if s then -1 else 1) * (Zpos m * 2 ^ (e + 1074))
  | _ => 0
  end.

(** The integers that are represented exactly. *)
Definition safe (n : Z) : Prop := - 2 ^ 53 < n < 2 ^ 53.

Lemma digits2_log2 m : Zpos (digits2_pos m) = Z.log2 (Zpos m) + 1.
Proof.
  induction m as [m IH|m IH|]; cbn [digits2_pos]; [| |done].
  - rewrite Pos2Z.inj_succ, IH, (Pos2Z.inj_xI m), Z.log2_succ_double by lia. lia.
  - rewrite Pos2Z.inj_succ, IH, (Pos2Z.inj_xO m), Z.log2_double by lia. lia.
Qed.

Lemma digits2_shift m k : 0 <= k -> forall n, Zpos n = Zpos m * 2 ^ k -> Zpos (digits2_pos n) = Zpos (digits2_pos m) + k.
Proof. intros Hk n Hn. rewrite !digits2_log2, Hn, Z.log2_mul_pow2 by lia. lia. Qed.

Lemma iter_pos_nat {A} (f : A -> A) (p : positive) (x : A) : iter_pos f p x = Nat.iter (Pos.to_nat p) f x.
Proof.
  revert x. induction p as [p IH|p IH|]; intros x; cbn [iter_pos].
  - rewrite !IH, Pos2Nat.inj_xI. cbn [Nat.iter]. rewrite <- Nat.iter_succ_r.
    replace (S (2 * Pos.to_nat p)) with (Pos.to_nat p + S (Pos.to_nat p))%nat by lia. by rewrite Nat.iter_add.
  - rewrite !IH, Pos2Nat.inj_xO. replace (2 * Pos.to_nat p)%nat with (Pos.to_nat p + Pos.to_nat p)%nat by lia. by rewrite Nat.iter_add.
  - done.
Qed.

(** A shift to the right that loses nothing. *)
Lemma shr_exact n m k : Zpos n = m * 2 ^ Z.of_nat k ->
  Nat.iter k shr_1 {| shr_m := Zpos n; shr_r := false; shr_s := false |} = {| shr_m := m; shr_r := false; shr_s := false |}.
Proof.
  revert n. induction k as [|k IH]; intros n Hn; [cbn in *; f_equal; lia|].
  rewrite Nat2Z.inj_succ, Z.pow_succ_r in Hn by lia. rewrite Nat.iter_succ_r.
  destruct n as [n|n|]; [lia| |lia]. cbn [shr_1]. apply IH. lia.
Qed.

(** The float of a positive integer of at most 53 bits. *)
Definition canon (s : bool) (n : positive) : f64 :=
  S754_finite s (Z.to_pos (Zpos n * 2 ^ (53 - Zpos (digits2_pos n)))) (Zpos (digits2_pos n) - 53).

Lemma fexp_53 d : - 1021 <= d -> fexp 53 1024 d = d - 53.
Proof. unfold fexp, emin. lia. Qed.

Lemma shr_fexp_exact m e d n :
  - 1021 <= d -> Zpos (digits2_pos m) + e = d -> e <= d - 53 -> Zpos m = n * 2 ^ (d - 53 - e) ->
  shr_fexp 53 1024 (Zpos m) e loc_Exact = ({| shr_m := n; shr_r := false; shr_s := false |}, d - 53).
Proof.
  intros Hd Hm He Hn. unfold shr_fexp. cbn [Zdigits2 shr_record_of_loc]. rewrite Hm, fexp_53 by done. unfold shr.
  destruct (d - 53 - e) as [|p|p] eqn:Ek; [|rewrite iter_pos_nat, (shr_exact _ n)|lia].
  - rewrite Z.mul_1_r in Hn. subst n. f_equal. lia.
  - f_equal. lia.
  - by rewrite positive_nat_Z.
Qed.

Lemma round_aux_exact s m e n :
  Zpos m * 2 ^ (e + 1074) = Zpos n * 2 ^ 1074 -> - 1074 <= e -> Zpos (digits2_pos n) <= 53 ->
  e <= Zpos (digits2_pos n) - 53 -> binary_round_aux 53 1024 s (Zpos m) e loc_Exact = canon s n.
Proof.
  intros Hv He Hd Hle. set (d := Zpos (digits2_pos n)) in *.
  assert (Hdm : Zpos (digits2_pos m) + e = d).
  { apply (f_equal Z.log2) in Hv. rewrite !Z.log2_mul_pow2 in Hv by lia. unfold d. rewrite !digits2_log2. lia. }
  assert (Hd1 : 1 <= d) by (unfold d; lia).
  assert (Hm : Zpos m = (Zpos n * 2 ^ (53 - d)) * 2 ^ (d - 53 - e)).
  { rewrite <- Z.mul_assoc, <- Z.pow_add_r by lia. replace (53 - d + (d - 53 - e)) with (- e) by lia.
    apply (Z.mul_reg_r _ _ (2 ^ (e + 1074))); [lia|]. rewrite Hv, <- Z.mul_assoc, <- Z.pow_add_r by lia. do 2 f_equal. lia. }
  unfold binary_round_aux. rewrite (shr_fexp_exact m e d (Zpos n * 2 ^ (53 - d))) by (done || lia).
  cbn [shr_m loc_of_shr_record round_nearest_even].
  assert (Hp : 0 < Zpos n * 2 ^ (53 - d)) by lia. destruct (Zpos n * 2 ^ (53 - d)) as [|q|] eqn:Eq; [lia| |lia].
  assert (Hq : Zpos (digits2_pos q) = 53).
  { rewrite (digits2_shift n (53 - d)) by (done || lia). fold d. lia. }
  rewrite (shr_fexp_exact q (d - 53) d (Zpos q)); [|lia..| |].
  - cbn [shr_m]. unfold canon. fold d. rewrite Eq. destruct (d - 53 <=? 1024 - 53) eqn:E; bools; [done|lia].
  - lia.
  - replace (d - 53 - (d - 53)) with 0 by lia. lia.
Qed.

Lemma round_exact s m e n :
  Zpos m * 2 ^ (e + 1074) = Zpos n * 2 ^ 1074 -> - 1074 <= e -> Zpos (digits2_pos n) <= 53 ->
  binary_round 53 1024 s m e = canon s n.
Proof.
  intros Hv He Hd. set (d := Zpos (digits2_pos n)) in *.
  assert (Hdm : Zpos (digits2_pos m) + e = d).
  { apply (f_equal Z.log2) in Hv. rewrite !Z.log2_mul_pow2 in Hv by lia. unfold d. rewrite !digits2_log2. lia. }
  assert (Hd1 : 1 <= d) by (unfold d; lia).
  unfold binary_round. rewrite Hdm, fexp_53 by lia. unfold shl_align. destruct (d - 53 - e) as [|p|p] eqn:Ek.
  - apply round_aux_exact; fold d; (done || lia).
  - apply round_aux_exact; fold d; (done || lia).
  - apply round_aux_exact; fold d; [|lia..]. rewrite <- Hv. assert (He' : e = (d - 53) + Zpos p) by lia. rewrite He'.
    assert (Hshift : forall q k, Zpos (Pos.iter xO q k) = Zpos q * 2 ^ Zpos k).
    { intros q k. revert q. induction k as [|k IH] using Pos.peano_ind; intros q; [cbn; lia|].
      rewrite Pos.iter_succ, Pos2Z.inj_succ, Z.pow_succ_r by lia. rewrite Pos2Z.inj_xO, IH. lia. }
    rewrite Hshift, <- Z.mul_assoc, <- Z.pow_add_r by lia. do 2 f_equal. lia.
Qed.

(** * Floats that are integers *)

(** The float is the integer; zero can have any sign. *)
Definition rep (f : f64) (n : Z) : Prop :=
  safe n /\
  match n with
  | 0 => exists s, f = S754_zero s
  | Zpos p => f = canon false p
  | Zneg p => f = canon true p
  end.

Lemma safe_digits p : safe (Zpos p) \/ safe (Zneg p) -> Zpos (digits2_pos p) <= 53.
Proof.
  intros H. rewrite digits2_log2. assert (Zpos p < 2 ^ 53) by (unfold safe in H; lia).
  pose proof (proj1 (Z.log2_lt_pow2 (Zpos p) 53 ltac:(lia)) ltac:(lia)). lia.
Qed.

Lemma normalize_rep z e n b : z * 2 ^ (e + 1074) = n * 2 ^ 1074 -> - 1074 <= e -> safe n -> rep (binary_normalize 53 1024 z e b) n.
Proof.
  intros Hv He Hn. split; [done|]. assert (0 < 2 ^ (e + 1074)) by lia. assert (0 < 2 ^ 1074) by lia.
  destruct n as [|n|n], z as [|z|z]; try lia; cbn [binary_normalize].
  - by eexists.
  - apply round_exact; [done..|]. apply safe_digits. by left.
  - apply round_exact; [lia..|]. apply safe_digits. by right.
Qed.

Lemma of_i64_rep n : safe n -> rep (f64_of_i64 n) n.
Proof. apply normalize_rep; [|lia]. by rewrite Z.add_0_l. Qed.

Lemma canon_mantissa n : Zpos (digits2_pos n) <= 53 ->
  Zpos (Z.to_pos (Zpos n * 2 ^ (53 - Zpos (digits2_pos n)))) = Zpos n * 2 ^ (53 - Zpos (digits2_pos n)).
Proof. intros H. rewrite Z2Pos.id; [done|]. assert (0 < 2 ^ (53 - Zpos (digits2_pos n))) by lia. lia. Qed.

Lemma canon_mantissa_ge n : Zpos (digits2_pos n) <= 53 -> 2 ^ 52 <= Zpos (Z.to_pos (Zpos n * 2 ^ (53 - Zpos (digits2_pos n)))).
Proof.
  intros H. rewrite canon_mantissa by done. rewrite digits2_log2 in *. pose proof (Z.log2_spec (Zpos n) ltac:(lia)) as [Hl _].
  replace 52 with (Z.log2 (Zpos n) + (53 - (Z.log2 (Zpos n) + 1))) by lia. pose proof (Z.log2_nonneg (Zpos n)).
  rewrite Z.pow_add_r by lia. apply Z.mul_le_mono_nonneg_r; lia.
Qed.

(** The value of the mantissa with its exponent. *)
Lemma canon_value n k : Zpos (digits2_pos n) <= 53 -> 53 <= k ->
  Zpos (Z.to_pos (Zpos n * 2 ^ (53 - Zpos (digits2_pos n)))) * 2 ^ (Zpos (digits2_pos n) - 53 + k) = Zpos n * 2 ^ k.
Proof. intros H Hk. rewrite canon_mantissa by done. rewrite <- Z.mul_assoc, <- Z.pow_add_r by lia. do 2 f_equal. lia. Qed.

Lemma shl_align_value m e e' : e' <= e -> Zpos (fst (shl_align m e e')) = Zpos m * 2 ^ (e - e').
Proof.
  intros He. unfold shl_align. destruct (e' - e) as [|p|p] eqn:E; [|lia|]; cbn [fst].
  - replace (e - e') with 0 by lia. lia.
  - replace (e - e') with (Zpos p) by lia. clear E He. revert m.
    induction p as [|p IH] using Pos.peano_ind; intros m; [cbn; lia|].
    rewrite Pos.iter_succ, Pos2Z.inj_succ, Z.pow_succ_r by lia. rewrite Pos2Z.inj_xO, IH. lia.
Qed.

(** A finite float with its integer value. *)
Lemma rep_cases f n : rep f n ->
  (n = 0 /\ exists s, f = S754_zero s) \/
  exists s m e, f = S754_finite s m e /\ -52 <= e <= 0 /\ 2 ^ 52 <= Zpos m /\ n <> 0 /\ forall k, 53 <= k -> cond_Zopp s (Zpos m) * 2 ^ (e + k) = n * 2 ^ k.
Proof.
  intros [Hs H]. destruct n as [|n|n]; [by left|right..]; unfold canon in H;
    pose proof (safe_digits n ltac:(auto)); eexists _, _, _; (split; [exact H|]); (split; [lia|]); (split; [by apply canon_mantissa_ge|]); (split; [lia|]);
    intros k Hk; cbn [cond_Zopp]; [by apply canon_value|].
  rewrite Z.mul_opp_l, canon_value by lia. lia.
Qed.

Lemma cond_Zopp_mul s a b : cond_Zopp s (a * b) = cond_Zopp s a * b.
Proof. destruct s; cbn; lia. Qed.

Lemma f64_add_rep f g a b : rep f a -> rep g b -> safe (a + b) -> rep (f64_add f g) (a + b).
Proof.
  intros Ha Hb Hs. unfold f64_add.
  destruct (rep_cases _ _ Ha) as [(-> & s & ->)|(s & m & e & -> & He & Hm & Hn & Hv)],
    (rep_cases _ _ Hb) as [(-> & s' & ->)|(s' & m' & e' & -> & He' & Hm' & Hn' & Hv')]; cbn [SFadd].
  - split; [done|]. destruct s, s'; cbn; by eexists.
  - done.
  - by rewrite Z.add_0_r.
  - apply normalize_rep; [|lia|done]. rewrite !shl_align_value, !cond_Zopp_mul, Z.mul_add_distr_r by lia.
    rewrite <- !Z.mul_assoc, <- !Z.pow_add_r by lia.
    replace (e - Z.min e e' + (Z.min e e' + 1074)) with (e + 1074) by lia.
    replace (e' - Z.min e e' + (Z.min e e' + 1074)) with (e' + 1074) by lia. rewrite Hv, Hv' by lia. lia.
Qed.

Lemma f64_sub_rep f g a b : rep f a -> rep g b -> safe (a - b) -> rep (f64_sub f g) (a - b).
Proof.
  intros Ha Hb Hs. unfold f64_sub.
  destruct (rep_cases _ _ Ha) as [(-> & s & ->)|(s & m & e & -> & He & Hm & Hn & Hv)],
    (rep_cases _ _ Hb) as [(-> & s' & ->)|(s' & m' & e' & -> & He' & Hm' & Hn' & Hv')]; cbn [SFsub].
  - split; [done|]. destruct s, s'; cbn; by eexists.
  - split; [done|]. destruct Hb as [_ Hb]. destruct b as [|b|b]; [done|..]; cbn; unfold canon in *; by simplify_eq.
  - by rewrite Z.sub_0_r.
  - apply normalize_rep; [|lia|done]. rewrite !shl_align_value, !cond_Zopp_mul, Z.mul_sub_distr_r by lia.
    rewrite <- !Z.mul_assoc, <- !Z.pow_add_r by lia.
    replace (e - Z.min e e' + (Z.min e e' + 1074)) with (e + 1074) by lia.
    replace (e' - Z.min e e' + (Z.min e e' + 1074)) with (e' + 1074) by lia. rewrite Hv, Hv' by lia. lia.
Qed.

Lemma f64_mul_rep f g a b : rep f a -> rep g b -> safe (a * b) -> rep (f64_mul f g) (a * b).
Proof.
  intros Ha Hb Hs. unfold f64_mul.
  destruct (rep_cases _ _ Ha) as [(-> & s & ->)|(s & m & e & -> & He & Hm & Hn & Hv)],
    (rep_cases _ _ Hb) as [(-> & s' & ->)|(s' & m' & e' & -> & He' & Hm' & Hn' & Hv')]; cbn [SFmul]; rewrite ?Z.mul_0_r.
  - split; [done|]. by eexists.
  - split; [done|]. by eexists.
  - split; [done|]. by eexists.
  - assert (Hval : cond_Zopp (xorb s s') (Zpos (m * m')) * 2 ^ (e + e' + 1074) = a * b * 2 ^ 1074).
    { specialize (Hv 100 ltac:(lia)). specialize (Hv' 974 ltac:(lia)).
      replace (e + e' + 1074) with ((e + 100) + (e' + 974)) by lia. rewrite Z.pow_add_r by lia.
      replace (2 ^ 1074) with (2 ^ 100 * 2 ^ 974) by (rewrite <- Z.pow_add_r by lia; done).
      rewrite Pos2Z.inj_mul. transitivity (cond_Zopp s (Zpos m) * 2 ^ (e + 100) * (cond_Zopp s' (Zpos m') * 2 ^ (e' + 974))).
      - destruct s, s'; cbn [xorb cond_Zopp]; ring.
      - rewrite Hv, Hv'. ring. }
    assert (Hbig : forall n, Zpos (m * m') * 2 ^ (e + e' + 1074) = Zpos n * 2 ^ 1074 -> e + e' <= Zpos (digits2_pos n) - 53).
    { intros n Hn0. apply (f_equal Z.log2) in Hn0. rewrite !Z.log2_mul_pow2 in Hn0 by lia. rewrite digits2_log2.
      assert (104 <= Z.log2 (Zpos (m * m'))); [|lia]. apply Z.log2_le_pow2; [lia|]. rewrite Pos2Z.inj_mul.
      replace (2 ^ 104) with (2 ^ 52 * 2 ^ 52) by done. apply Z.mul_le_mono_nonneg; lia. }
    split; [done|]. assert (0 < 2 ^ (e + e' + 1074)) by lia. assert (0 < 2 ^ 1074) by lia.
    destruct (xorb s s'), (a * b) as [|n|n]; cbn [cond_Zopp] in Hval; try lia; apply round_aux_exact; try lia;
      try (apply safe_digits; auto); apply Hbig; lia.
Qed.

Lemma f64_to_i64_rep f n : rep f n -> f64_to_i64 f = n.
Proof.
  intros H. destruct (rep_cases _ _ H) as [(-> & s & ->)|(s & m & e & -> & He & Hm & Hn & Hv)]; [done|].
  destruct H as [Hs _]. specialize (Hv 53 ltac:(lia)).
  assert (Ht : forall z, Zpos m * 2 ^ (e + 53) = z * 2 ^ 53 -> fst (truncate m e) = z).
  { intros z Hz. unfold truncate. destruct (0 <=? e) eqn:E; bools; cbn [fst].
    - replace e with 0 in * by lia. cbn in Hz. lia.
    - replace (2 ^ 53) with (2 ^ (e + 53) * 2 ^ (- e)) in Hz by (rewrite <- Z.pow_add_r by lia; f_equal; lia).
      assert (0 < 2 ^ (e + 53)) by lia. assert (0 < 2 ^ (- e)) by lia.
      assert (Zpos m = z * 2 ^ (- e)) as -> by (apply (Z.mul_reg_r _ _ (2 ^ (e + 53))); [lia|]; rewrite Hz; ring).
      by rewrite Z.div_mul by lia. }
  unfold safe in Hs. unfold f64_to_i64, i64_MIN, i64_MAX. destruct s; cbn [cond_Zopp] in Hv.
  - rewrite (Ht (- n)) by lia. lia.
  - rewrite (Ht n) by lia. lia.
Qed.

(** * Comparisons *)

Lemma num_rep f n : rep f n -> num f = n * 2 ^ 1074.
Proof.
  intros H. destruct (rep_cases _ _ H) as [(-> & s & ->)|(s & m & e & -> & He & Hm & Hn & Hv)]; [done|].
  cbn [num]. rewrite <- (Hv 1074) by lia. destruct s; cbn [cond_Zopp]; lia.
Qed.

Lemma valid_finite s m e : f64_valid (S754_finite s m e) ->
  -1074 <= e <= 971 /\ Z.max (Zpos (digits2_pos m) + e - 53) (-1074) = e.
Proof. unfold f64_valid, valid_binary, bounded, canonical_mantissa, fexp, emin. intros H. bools. split; lia. Qed.

(** The order of positive floats is the one of exponents and mantissas. *)
Lemma valid_lt m e m' e' : f64_valid (S754_finite false m e) -> f64_valid (S754_finite false m' e') -> e < e' ->
  Zpos m * 2 ^ (e + 1074) < Zpos m' * 2 ^ (e' + 1074).
Proof.
  intros H%valid_finite H'%valid_finite He. rewrite digits2_log2 in *.
  pose proof (Z.log2_spec (Zpos m) ltac:(lia)) as [_ Hm]. pose proof (Z.log2_spec (Zpos m') ltac:(lia)) as [Hm' _].
  apply Z.lt_le_trans with (2 ^ Z.succ (Z.log2 (Zpos m)) * 2 ^ (e + 1074)); [apply Z.mul_lt_mono_pos_r; lia|].
  apply Z.le_trans with (2 ^ Z.log2 (Zpos m') * 2 ^ (e' + 1074)); [|apply Z.mul_le_mono_nonneg_r; lia].
  pose proof (Z.log2_nonneg (Zpos m)). pose proof (Z.log2_nonneg (Zpos m')).
  rewrite <- !Z.pow_add_r by lia. apply Z.pow_le_mono_r; lia.
Qed.

Lemma f64_compare f g : f64_valid f -> f64_valid g -> is_finite f = true -> is_finite g = true ->
  SFcompare f g = Some (num f ?= num g).
Proof.
  assert (Hpos : forall m e, -1074 <= e -> 0 < Zpos m * 2 ^ (e + 1074)) by (intros; assert (0 < 2 ^ (e + 1074)) by lia; lia).
  intros Vf Vg Ff Fg. destruct f as [s| | |s m e], g as [s'| | |s' m' e']; try done; cbn [SFcompare num]; f_equal.
  - apply valid_finite in Vg as [? _]. pose proof (Hpos m' e' ltac:(lia)). symmetry. destruct s'; [apply Z.compare_gt_iff|apply Z.compare_lt_iff]; lia.
  - apply valid_finite in Vf as [? _]. pose proof (Hpos m e ltac:(lia)). symmetry. destruct s; [apply Z.compare_lt_iff|apply Z.compare_gt_iff]; lia.
  - pose proof (valid_finite _ _ _ Vf) as [Ef _]. pose proof (valid_finite _ _ _ Vg) as [Eg _].
    pose proof (Hpos m e ltac:(lia)). pose proof (Hpos m' e' ltac:(lia)).
    change (Pos.compare_cont Eq m m') with (m ?= m')%positive. change (m ?= m')%positive with (Zpos m ?= Zpos m').
    assert (Hc : match e ?= e' with Eq => Zpos m ?= Zpos m' | c => c end = (Zpos m * 2 ^ (e + 1074) ?= Zpos m' * 2 ^ (e' + 1074))).
    { destruct (Z.compare_spec e e') as [->|Hlt|Hgt].
      - rewrite <- (Zmult_compare_compat_r (Zpos m) (Zpos m') (2 ^ (e' + 1074))); [done|lia].
      - symmetry. apply Z.compare_lt_iff. by apply valid_lt.
      - symmetry. apply Z.compare_gt_iff. by apply valid_lt. }
    destruct s, s'; rewrite ?Z.mul_1_l.
    + assert (Hneg : forall z, -1 * z = - z) by lia. rewrite !Hneg, Z.compare_opp.
      transitivity (CompOpp (Zpos m * 2 ^ (e + 1074) ?= Zpos m' * 2 ^ (e' + 1074))); [rewrite <- Hc; by destruct (e ?= e')|].
      symmetry. apply Z.compare_antisym.
    + symmetry. apply Z.compare_lt_iff. lia.
    + symmetry. apply Z.compare_gt_iff. lia.
    + rewrite <- Hc. by destruct (e ?= e').
Qed.

Lemma rep_valid f n : rep f n -> f64_valid f /\ is_finite f = true.
Proof.
  intros [Hs H]. assert (Hc : forall b p, Zpos (digits2_pos p) <= 53 -> f64_valid (canon b p)).
  { intros b p Hp. unfold canon, f64_valid, valid_binary, bounded, canonical_mantissa.
    rewrite (digits2_shift p (53 - Zpos (digits2_pos p))) by (done || lia || by rewrite canon_mantissa).
    rewrite fexp_53 by lia. apply andb_true_iff. rewrite Z.eqb_eq, Z.leb_le. lia. }
  destruct n as [|n|n]; [destruct H as [s ->]; done|subst f..]; (split; [apply Hc, safe_digits; auto|done]).
Qed.

(** The comparison of a float with an integer. *)
Lemma compare_i64 f n : f64_valid f -> is_finite f = true -> safe n -> SFcompare f (f64_of_i64 n) = Some (num f ?= n * 2 ^ 1074).
Proof.
  intros Hv Hf Hn. pose proof (of_i64_rep n Hn) as Hr. destruct (rep_valid _ _ Hr). rewrite f64_compare by done.
  by rewrite (num_rep _ _ Hr).
Qed.

Lemma compare_i64_l f n : f64_valid f -> is_finite f = true -> safe n -> SFcompare (f64_of_i64 n) f = Some (n * 2 ^ 1074 ?= num f).
Proof.
  intros Hv Hf Hn. pose proof (of_i64_rep n Hn) as Hr. destruct (rep_valid _ _ Hr). rewrite f64_compare by done.
  by rewrite (num_rep _ _ Hr).
Qed.

(** * Rounding to integers *)

Definition clamp (z : Z) : Z := Z.max i64_MIN (Z.min i64_MAX z).

Definition rounded (f g : f64) (z : Z) : Prop :=
  f64_to_i64 g = clamp z /\ f64_eq g f = bool_decide (num f = z * 2 ^ 1074).

Lemma rounded_rep f g z : f64_valid f -> is_finite f = true -> rep g z -> rounded f g z.
Proof.
  intros Hv Hf Hr. split.
  - rewrite (f64_to_i64_rep _ _ Hr). destruct Hr as [Hs _]. unfold clamp, safe, i64_MIN, i64_MAX in *. lia.
  - destruct (rep_valid _ _ Hr). unfold f64_eq, SFeqb. rewrite f64_compare, (num_rep _ _ Hr) by done.
    destruct (Z.compare_spec (z * 2 ^ 1074) (num f)) as [E|E|E]; case_bool_decide; (done || lia).
Qed.

(** A finite float with a fraction, and the ones without. *)
Lemma rounded_self f z : f64_valid f -> is_finite f = true -> num f = z * 2 ^ 1074 -> f64_to_i64 f = clamp z -> rounded f f z.
Proof.
  intros Hv Hf Hn Hi. split; [done|]. unfold f64_eq, SFeqb. rewrite f64_compare, Z.compare_refl by done.
  by rewrite bool_decide_eq_true_2.
Qed.

Lemma truncate_fraction m e : e < 0 -> -1074 <= e -> Zpos (digits2_pos m) <= 53 ->
  exists t frac, truncate m e = (t, frac) /\ 0 <= t < 2 ^ 53 - 1 /\
    t = Zpos m * 2 ^ (e + 1074) / 2 ^ 1074 /\ frac = negb (Zpos m * 2 ^ (e + 1074) mod 2 ^ 1074 =? 0).
Proof.
  intros He He' Hm. unfold truncate. destruct (0 <=? e) eqn:E; bools; [lia|]. eexists _, _. split; [done|].
  assert (0 < 2 ^ (- e)) by lia. assert (0 < 2 ^ (e + 1074)) by lia.
  replace (2 ^ 1074) with (2 ^ (- e) * 2 ^ (e + 1074)) by (rewrite <- Z.pow_add_r by lia; f_equal; lia).
  rewrite Z.div_mul_cancel_r, Z.mul_mod_distr_r by lia. split_and!; [by apply Z.div_pos|..|done|].
  - rewrite digits2_log2 in Hm. pose proof (Z.log2_spec (Zpos m) ltac:(lia)) as [_ Hl].
    assert (Zpos m < 2 ^ 53) by (eapply Z.lt_le_trans; [done|apply Z.pow_le_mono_r; lia]).
    assert (2 <= 2 ^ (- e)) by (change 2 with (2 ^ 1) at 1; apply Z.pow_le_mono_r; lia).
    assert (Zpos m / 2 ^ (- e) <= Zpos m / 2) by (apply Z.div_le_compat_l; lia).
    assert (Zpos m / 2 < 2 ^ 52) by (apply Z.div_lt_upper_bound; lia). lia.
  - f_equal. apply eq_iff_eq_true. rewrite !Z.eqb_eq. nia.
Qed.

Lemma valid_digits s m e : f64_valid (S754_finite s m e) -> Zpos (digits2_pos m) <= 53.
Proof. intros H%valid_finite. lia. Qed.

(** A float without a fractional part. *)
Lemma no_fraction s m e : f64_valid (S754_finite s m e) -> 0 <= e ->
  rounded (S754_finite s m e) (S754_finite s m e) (cond_Zopp s (Zpos m * 2 ^ e)).
Proof.
  intros Hv He. apply rounded_self; [done..| |].
  - cbn [num]. rewrite Z.pow_add_r by lia. destruct s; cbn [cond_Zopp]; lia.
  - unfold f64_to_i64, truncate, clamp. destruct (0 <=? e) eqn:E; bools; [|lia]. cbn [fst]. by destruct s.
Qed.

Lemma f64_floor_spec f : f64_valid f -> is_finite f = true -> rounded f (f64_floor f) (num f / 2 ^ 1074).
Proof.
  intros Hv Hf. destruct f as [s| | |s m e]; try done.
  unfold f64_floor. destruct (0 <=? e) eqn:E; bools.
  - pose proof (no_fraction s m e Hv E) as H. replace (num (S754_finite s m e) / 2 ^ 1074) with (cond_Zopp s (Zpos m * 2 ^ e)); [done|].
    cbn [num]. rewrite Z.pow_add_r by lia. apply Z.div_unique_exact; [lia|]. destruct s; cbn [cond_Zopp]; lia.
  - pose proof (valid_finite _ _ _ Hv) as [He _].
    destruct (truncate_fraction m e) as (t & frac & -> & Ht & Et & Ef); [lia..|by eapply valid_digits|].
    set (N := Zpos m * 2 ^ (e + 1074)) in *. assert (HN : 0 < N) by (unfold N; assert (0 < 2 ^ (e + 1074)) by lia; lia).
    pose proof (Z.div_mod N (2 ^ 1074) ltac:(lia)) as HD. pose proof (Z.mod_pos_bound N (2 ^ 1074) ltac:(lia)).
    assert (num (S754_finite s m e) / 2 ^ 1074 = if s then - (t + (if frac then 1 else 0)) else t) as ->.
    { cbn [num]. fold N. destruct s; [|subst t; f_equal; lia]. symmetry.
      destruct (N mod 2 ^ 1074 =? 0) eqn:E0; subst frac; cbn [negb]; bools.
      - apply (Z.div_unique _ _ _ 0); lia.
      - apply (Z.div_unique _ _ _ (2 ^ 1074 - N mod 2 ^ 1074)); lia. }
    apply rounded_rep; [done..|]. destruct s; (apply normalize_rep; [by rewrite Z.add_0_l|lia|]); unfold safe; destruct frac; lia.
Qed.

Lemma f64_ceil_spec f : f64_valid f -> is_finite f = true -> rounded f (f64_ceil f) (- ((- num f) / 2 ^ 1074)).
Proof.
  intros Hv Hf. destruct f as [s| | |s m e]; try done.
  unfold f64_ceil. destruct (0 <=? e) eqn:E; bools.
  - pose proof (no_fraction s m e Hv E) as H. replace (- (- num (S754_finite s m e) / 2 ^ 1074)) with (cond_Zopp s (Zpos m * 2 ^ e)); [done|].
    cbn [num]. rewrite Z.pow_add_r by lia.
    assert (- ((if s then -1 else 1) * (Z.pos m * (2 ^ e * 2 ^ 1074))) / 2 ^ 1074 = - cond_Zopp s (Zpos m * 2 ^ e)) as ->; [|lia].
    symmetry. apply Z.div_unique_exact; [lia|]. destruct s; cbn [cond_Zopp]; lia.
  - pose proof (valid_finite _ _ _ Hv) as [He _].
    destruct (truncate_fraction m e) as (t & frac & -> & Ht & Et & Ef); [lia..|by eapply valid_digits|].
    set (N := Zpos m * 2 ^ (e + 1074)) in *. assert (HN : 0 < N) by (unfold N; assert (0 < 2 ^ (e + 1074)) by lia; lia).
    pose proof (Z.div_mod N (2 ^ 1074) ltac:(lia)) as HD. pose proof (Z.mod_pos_bound N (2 ^ 1074) ltac:(lia)).
    assert (- (- num (S754_finite s m e) / 2 ^ 1074) = if s then - t else t + (if frac then 1 else 0)) as ->.
    { cbn [num]. fold N. destruct s; [subst t; do 2 f_equal; lia|]. apply Z.opp_inj. rewrite Z.opp_involutive. symmetry.
      destruct (N mod 2 ^ 1074 =? 0) eqn:E0; subst frac; cbn [negb]; bools.
      - apply (Z.div_unique _ _ _ 0); lia.
      - apply (Z.div_unique _ _ _ (2 ^ 1074 - N mod 2 ^ 1074)); lia. }
    apply rounded_rep; [done..|]. destruct s; (apply normalize_rep; [by rewrite Z.add_0_l|lia|]); unfold safe; destruct frac; lia.
Qed.
