(* ===== verification/Types.v ===== *)
(** The types and values of the expressions in conditions, from
    [lib/src/types/mod.rs], the variables of a condition, from
    [lib/src/compiler/context.rs], and symbols, from [lib/src/symbols/mod.rs]. *)

From Stdlib Require Import SpecFloat.
From S2P Require Import Prelude.
From S2P Require Import Float64.
From S2P Require Import Tracker.
#[local] Open Scope Z_scope.

(** * Types *)

Module Ty.
Inductive t : Type := Unknown | Integer | Float | Bool | String | Regexp | Struct | Array | Map | Func.
End Ty.

#[export] Instance Ty_eq_dec : EqDecision Ty.t.
Proof. solve_decision. Defined.

(** * Values *)

Module Value.
Inductive t (A : Type) : Type :=
  | Const (v : A)
  | Var (v : A)
  | Unknown.
Arguments Const {A}.
Arguments Var {A}.
Arguments Unknown {A}.
End Value.

Definition value_is_const {A} (v : Value.t A) : bool := match v with Value.Const _ => true | _ => false end.

Definition extract {A} (v : Value.t A) : option A :=
  match v with Value.Const v | Value.Var v => Some v | Value.Unknown => None end.

Definition value_map {A B} (f : A -> B) (v : Value.t A) : Value.t B :=
  match v with Value.Const v => Value.Const (f v) | Value.Var v => Value.Var (f v) | Value.Unknown => Value.Unknown end.

Inductive StringConstraint : Type :=
  | Lowercase
  | Uppercase
  | ExactLength (n : Z).

(** [IntegerConstraint::Range] *)
Record IntegerConstraint := { range_min : Z; range_max : Z }.

(** The references to structures, arrays, maps and functions are compared by
    address: they are given by a number. *)
Module TypeValue.
Inductive t : Type :=
  | Unknown
  | Bool (value : Value.t bool)
  | Float (value : Value.t f64)
  | Integer (value : Value.t Z) (constraints : option (list IntegerConstraint))
  | String (value : Value.t (list Z)) (constraints : option (list StringConstraint))
  | Regexp (value : option (list Z))
  | Struct (ref : Z)
  | Array (ref : Z)
  | Map (ref : Z)
  | Func (ref : Z).
End TypeValue.

Definition tv_is_const (v : TypeValue.t) : bool :=
  match v with
  | TypeValue.Integer v _ => value_is_const v
  | TypeValue.Float v => value_is_const v
  | TypeValue.Bool v => value_is_const v
  | TypeValue.String v _ => value_is_const v
  | _ => false
  end.

Definition tv_ty (v : TypeValue.t) : Ty.t :=
  match v with
  | TypeValue.Unknown => Ty.Unknown
  | TypeValue.Integer _ _ => Ty.Integer
  | TypeValue.Float _ => Ty.Float
  | TypeValue.Bool _ => Ty.Bool
  | TypeValue.String _ _ => Ty.String
  | TypeValue.Regexp _ => Ty.Regexp
  | TypeValue.Map _ => Ty.Map
  | TypeValue.Struct _ => Ty.Struct
  | TypeValue.Array _ => Ty.Array
  | TypeValue.Func _ => Ty.Func
  end.

Definition unknown_bool : TypeValue.t := TypeValue.Bool Value.Unknown.
Definition unknown_float : TypeValue.t := TypeValue.Float Value.Unknown.
Definition unknown_integer : TypeValue.t := TypeValue.Integer Value.Unknown None.
Definition unknown_string : TypeValue.t := TypeValue.String Value.Unknown None.
Definition const_bool_from (b : bool) : TypeValue.t := TypeValue.Bool (Value.Const b).
Definition const_float_from (f : f64) : TypeValue.t := TypeValue.Float (Value.Const f).
Definition const_integer_from (i : Z) : TypeValue.t := TypeValue.Integer (Value.Const i) None.
Definition const_string_from (s : list Z) : TypeValue.t := TypeValue.String (Value.Const s) None.
Definition var_bool_from (b : bool) : TypeValue.t := TypeValue.Bool (Value.Var b).
Definition var_float_from (f : f64) : TypeValue.t := TypeValue.Float (Value.Var f).
Definition var_integer_from (i : Z) : TypeValue.t := TypeValue.Integer (Value.Var i) None.
Definition var_string_from (s : list Z) : TypeValue.t := TypeValue.String (Value.Var s) None.

Definition clone_without_value (v : TypeValue.t) : TypeValue.t :=
  match v with
  | TypeValue.Integer _ _ => unknown_integer
  | TypeValue.Float _ => unknown_float
  | TypeValue.Bool _ => unknown_bool
  | TypeValue.String _ _ => unknown_string
  | TypeValue.Regexp _ => TypeValue.Regexp None
  | v => v
  end.

(** It panics for the types that cannot be cast. *)
Definition cast_to_bool (v : TypeValue.t) : res TypeValue.t :=
  match v with
  | TypeValue.Integer v _ => Ret (TypeValue.Bool (value_map (fun i => negb (i =? 0)) v))
  | TypeValue.Float v => Ret (TypeValue.Bool (value_map (fun f => negb (f64_eq f f64_zero)) v))
  | TypeValue.String v _ => Ret (TypeValue.Bool (value_map (fun s : list Z => negb (bool_decide (s = []))) v))
  | TypeValue.Bool v => Ret (TypeValue.Bool v)
  | _ => Panic
  end.

Definition try_as_bool (v : TypeValue.t) : option bool := match v with TypeValue.Bool v => extract v | _ => None end.
Definition try_as_integer (v : TypeValue.t) : option Z := match v with TypeValue.Integer v _ => extract v | _ => None end.
Definition try_as_float (v : TypeValue.t) : option f64 := match v with TypeValue.Float v => extract v | _ => None end.
Definition try_as_string (v : TypeValue.t) : option (list Z) := match v with TypeValue.String v _ => extract v | _ => None end.

(** They panic when there is no value. *)
Definition as_bool (v : TypeValue.t) : res bool := or_panic (try_as_bool v).
Definition as_integer (v : TypeValue.t) : res Z := or_panic (try_as_integer v).
Definition as_float (v : TypeValue.t) : res f64 := or_panic (try_as_float v).
Definition as_string (v : TypeValue.t) : res (list Z) := or_panic (try_as_string v).

(** * Variables *)

Module Var.
Record t := { frame_id : Z; ty : Ty.t; index : Z }.
End Var.

#[export] Instance Var_eq_dec : EqDecision Var.t.
Proof. solve_decision. Defined.

Definition var_new (frame_id : Z) (ty : Ty.t) (index : Z) : res Var.t :=
  if MAX_VARS <=? index then Panic else Ret {| Var.frame_id := frame_id; Var.ty := ty; Var.index := index |}.

(** [i32] does not overflow: indexes are below [MAX_VARS]. *)
Definition var_shift (from_index shift_amount : Z) (v : Var.t) : res Var.t :=
  let index := if from_index <=? v.(Var.index) then v.(Var.index) + shift_amount else v.(Var.index) in
  if MAX_VARS <=? index then Panic else Ret {| Var.frame_id := v.(Var.frame_id); Var.ty := v.(Var.ty); Var.index := index |}.

Definition OF_FRAME_SIZE : Z := 5.
Definition FOR_OF_FRAME_SIZE : Z := 5.
Definition FOR_IN_FRAME_SIZE : Z := 7.

(** The stack of variables, made of frames. *)
Record VarStack := { stack_frame_id : Z; stack_used : Z }.
Record VarStackFrame := { fr_frame_id : Z; fr_start : Z; fr_capacity : Z; fr_used : Z }.

Definition var_stack_new : VarStack := {| stack_frame_id := 0; stack_used := 0 |}.

Definition new_frame (s : VarStack) (capacity : Z) : option (VarStack * VarStackFrame) :=
  let new_used := s.(stack_used) + capacity in
  if i32_MAX <? new_used then None
  else if MAX_VARS <? new_used then None
  else
    let id := s.(stack_frame_id) + 1 in
    Some ({| stack_frame_id := id; stack_used := new_used |},
          {| fr_frame_id := id; fr_start := s.(stack_used); fr_capacity := capacity; fr_used := 0 |}).

Definition unwind (s : VarStack) (f : VarStackFrame) : res VarStack :=
  if s.(stack_used) <? f.(fr_start) then Panic else Ret {| stack_frame_id := s.(stack_frame_id); stack_used := f.(fr_start) |}.

Definition new_var (f : VarStackFrame) (ty : Ty.t) : res (VarStackFrame * Var.t) :=
  if f.(fr_used) =? f.(fr_capacity) then Panic
  else
    let index := f.(fr_used) + f.(fr_start) in
    v ← var_new f.(fr_frame_id) ty index;
    Ret ({| fr_frame_id := f.(fr_frame_id); fr_start := f.(fr_start); fr_capacity := f.(fr_capacity); fr_used := f.(fr_used) + 1 |}, v).

(** * Symbols *)

(** The fields that conditions use. *)
Module Symbol.
Inductive t : Type :=
  | Var (var : Var.t) (type_value : TypeValue.t)
  | Field (index : Z) (is_root : bool) (type_value : TypeValue.t)
  | Rule (rule_id : Z)
  | Func (ref : Z).
End Symbol.

Definition symbol_ty (s : Symbol.t) : Ty.t :=
  match s with
  | Symbol.Var var _ => var.(Var.ty)
  | Symbol.Field _ _ type_value => tv_ty type_value
  | Symbol.Rule _ => Ty.Bool
  | Symbol.Func _ => Ty.Func
  end.

Definition symbol_type_value (s : Symbol.t) : TypeValue.t :=
  match s with
  | Symbol.Var _ type_value | Symbol.Field _ _ type_value => type_value
  | Symbol.Rule _ => unknown_bool
  | Symbol.Func ref => TypeValue.Func ref
  end.

(** * Properties *)

Lemma tv_ty_without_value v : tv_ty (clone_without_value v) = tv_ty v.
Proof. by destruct v. Qed.

Lemma tv_is_const_without_value v : tv_is_const (clone_without_value v) = false.
Proof. by destruct v. Qed.

Lemma cast_to_bool_const v b : cast_to_bool v = Ret b -> tv_is_const b = tv_is_const v /\ tv_ty b = Ty.Bool.
Proof. destruct v as [|[]|[]|[]|[]| | | | |]; intros [= <-]; done. Qed.
