(* ===== verification/IR.v ===== *)
(** The intermediate representation of the conditions of rules, from
    [lib/src/compiler/ir/mod.rs]: expressions, the tree that holds them and the
    functions that build it, with the folding of constants. *)

From Stdlib Require Import Ascii.
From stdpp Require Import strings.
From S2P Require Import Prelude.
From S2P Require Import Float64.
From S2P Require Import Types.
#[local] Open Scope Z_scope.

(** * Expressions

    An [ExprId] is a [Z], the index of a node. *)

Definition ExprId_none : Z := u32_MAX.

Record Range := { lower_bound : Z; upper_bound : Z }.

Module MatchAnchor.
Inductive t : Type := None | At (expr : Z) | In (range : Range).
End MatchAnchor.

Module Quantifier.
Inductive t : Type := None | All | Any | Percentage (expr : Z) | Expr (expr : Z).
End Quantifier.

Module Iterable.
Inductive t : Type := Range (range : Range) | ExprTuple (exprs : list Z) | Expr (expr : Z).
End Iterable.

Record ForVars := { fv_n : Var.t; fv_i : Var.t; fv_max_count : Var.t; fv_count : Var.t; fv_item : Var.t }.

(** The fields of [FuncSignature] that conditions use. *)
Record FuncSignature := { mangled_name : string; result : TypeValue.t }.

Module Expr.
Inductive t : Type :=
  | Const (value : TypeValue.t)
  | Filesize
  | Not (operand : Z)
  | And (operands : list Z)
  | Or (operands : list Z)
  | Minus (is_float : bool) (operand : Z)
  | Add (is_float : bool) (operands : list Z)
  | Sub (is_float : bool) (operands : list Z)
  | Mul (is_float : bool) (operands : list Z)
  | Div (is_float : bool) (operands : list Z)
  | Mod (operands : list Z)
  | BitwiseNot (operand : Z)
  | BitwiseAnd (lhs rhs : Z)
  | Shl (lhs rhs : Z)
  | Shr (lhs rhs : Z)
  | BitwiseOr (lhs rhs : Z)
  | BitwiseXor (lhs rhs : Z)
  | Eq (lhs rhs : Z)
  | Ne (lhs rhs : Z)
  | Lt (lhs rhs : Z)
  | Gt (lhs rhs : Z)
  | Le (lhs rhs : Z)
  | Ge (lhs rhs : Z)
  | Contains (lhs rhs : Z)
  | IContains (lhs rhs : Z)
  | StartsWith (lhs rhs : Z)
  | IStartsWith (lhs rhs : Z)
  | EndsWith (lhs rhs : Z)
  | IEndsWith (lhs rhs : Z)
  | IEquals (lhs rhs : Z)
  | Matches (lhs rhs : Z)
  | MatchesMany (lhs : Z) (regex_set : Z)
  | Defined (operand : Z)
  | PatternMatch (pattern : Z) (anchor : MatchAnchor.t)
  | PatternMatchVar (symbol : Symbol.t) (anchor : MatchAnchor.t)
  | PatternCount (pattern : Z) (range : option Range)
  | PatternCountVar (symbol : Symbol.t) (range : option Range)
  | PatternOffset (pattern : Z) (index : option Z)
  | PatternOffsetVar (symbol : Symbol.t) (index : option Z)
  | PatternLength (pattern : Z) (index : option Z)
  | PatternLengthVar (symbol : Symbol.t) (index : option Z)
  | Symbol (symbol : Symbol.t)
  | With (type_value : TypeValue.t) (declarations : list (Var.t * Z)) (body : Z)
  | FieldAccess (type_value : TypeValue.t) (operands : list Z)
  | FuncCall (object : option Z) (signature : FuncSignature) (args : list Z)
  | OfExprTuple (quantifier : Quantifier.t) (items : list Z) (for_vars : ForVars) (anchor : MatchAnchor.t)
  | OfPatternSet (quantifier : Quantifier.t) (items : list Z) (for_vars : ForVars) (anchor : MatchAnchor.t)
  | ForOf (quantifier : Quantifier.t) (for_vars : ForVars) (pattern_set : list Z) (body : Z)
  | ForIn (quantifier : Quantifier.t) (variables : list Var.t) (for_vars : ForVars) (iterable : Iterable.t) (body : Z)
  | Lookup (type_value : TypeValue.t) (primary index : Z).
End Expr.

(** [MangledFnName::plain_name] *)
Fixpoint before_at (s : string) : string :=
  match s with
  | EmptyString => EmptyString
  | String c s => if ascii_dec c "@" then EmptyString else String c (before_at s)
  end.

Definition plain_name (f : FuncSignature) : string := before_at f.(mangled_name).

(** * Types of expressions *)

Definition numeric_ty (is_float : bool) : Ty.t := if is_float then Ty.Float else Ty.Integer.
Definition unknown_numeric (is_float : bool) : TypeValue.t := if is_float then unknown_float else unknown_integer.

Definition expr_ty (e : Expr.t) : Ty.t :=
  match e with
  | Expr.Const v => tv_ty v
  | Expr.Defined _ | Expr.Not _ | Expr.And _ | Expr.Or _ | Expr.Eq _ _ | Expr.Ne _ _ | Expr.Ge _ _ | Expr.Gt _ _
  | Expr.Le _ _ | Expr.Lt _ _ | Expr.Contains _ _ | Expr.IContains _ _ | Expr.StartsWith _ _ | Expr.IStartsWith _ _
  | Expr.EndsWith _ _ | Expr.IEndsWith _ _ | Expr.IEquals _ _ | Expr.Matches _ _ | Expr.MatchesMany _ _
  | Expr.PatternMatch _ _ | Expr.PatternMatchVar _ _ | Expr.OfExprTuple _ _ _ _ | Expr.OfPatternSet _ _ _ _
  | Expr.ForOf _ _ _ _ | Expr.ForIn _ _ _ _ _ => Ty.Bool
  | Expr.Minus is_float _ | Expr.Add is_float _ | Expr.Sub is_float _ | Expr.Mul is_float _ | Expr.Div is_float _ =>
      numeric_ty is_float
  | Expr.Filesize | Expr.PatternCount _ _ | Expr.PatternCountVar _ _ | Expr.PatternOffset _ _ | Expr.PatternOffsetVar _ _
  | Expr.PatternLength _ _ | Expr.PatternLengthVar _ _ | Expr.Mod _ | Expr.BitwiseNot _ | Expr.BitwiseAnd _ _
  | Expr.BitwiseOr _ _ | Expr.BitwiseXor _ _ | Expr.Shl _ _ | Expr.Shr _ _ => Ty.Integer
  | Expr.Symbol s => symbol_ty s
  | Expr.FieldAccess v _ | Expr.Lookup v _ _ | Expr.With v _ _ => tv_ty v
  | Expr.FuncCall _ f _ => tv_ty f.(result)
  end.

Definition expr_type_value (e : Expr.t) : TypeValue.t :=
  match e with
  | Expr.Const v => v
  | Expr.Defined _ | Expr.Not _ | Expr.And _ | Expr.Or _ | Expr.Eq _ _ | Expr.Ne _ _ | Expr.Ge _ _ | Expr.Gt _ _
  | Expr.Le _ _ | Expr.Lt _ _ | Expr.Contains _ _ | Expr.IContains _ _ | Expr.StartsWith _ _ | Expr.IStartsWith _ _
  | Expr.EndsWith _ _ | Expr.IEndsWith _ _ | Expr.IEquals _ _ | Expr.Matches _ _ | Expr.MatchesMany _ _
  | Expr.PatternMatch _ _ | Expr.PatternMatchVar _ _ | Expr.OfExprTuple _ _ _ _ | Expr.OfPatternSet _ _ _ _
  | Expr.ForOf _ _ _ _ | Expr.ForIn _ _ _ _ _ => unknown_bool
  | Expr.Minus is_float _ | Expr.Add is_float _ | Expr.Sub is_float _ | Expr.Mul is_float _ | Expr.Div is_float _ =>
      unknown_numeric is_float
  | Expr.Filesize | Expr.PatternCount _ _ | Expr.PatternCountVar _ _ | Expr.PatternOffset _ _ | Expr.PatternOffsetVar _ _
  | Expr.PatternLength _ _ | Expr.PatternLengthVar _ _ | Expr.Mod _ | Expr.BitwiseNot _ | Expr.BitwiseAnd _ _
  | Expr.BitwiseOr _ _ | Expr.BitwiseXor _ _ | Expr.Shl _ _ | Expr.Shr _ _ => unknown_integer
  | Expr.Symbol s => symbol_type_value s
  | Expr.FieldAccess v _ | Expr.Lookup v _ _ | Expr.With v _ _ => v
  | Expr.FuncCall _ f _ => f.(result)
  end.

Definition try_as_const_bool (e : Expr.t) : option bool :=
  match expr_type_value e with TypeValue.Bool (Value.Const v) => Some v | _ => None end.

Definition try_as_const_integer (e : Expr.t) : option Z :=
  match expr_type_value e with TypeValue.Integer (Value.Const v) _ => Some v | _ => None end.

(** * Children *)

(** The context of an event of the traversal. *)
Module EventContext.
Inductive t : Type := None | Body | FieldAccess | WithDeclaration.
End EventContext.

Definition plain (ids : list Z) : list (Z * EventContext.t) := (fun id => (id, EventContext.None)) <$> ids.

(** The expression of a percentage is not a child. *)
Definition quantifier_children (q : Quantifier.t) : list Z := match q with Quantifier.Expr e => [e] | _ => [] end.
Definition range_children (r : Range) : list Z := [r.(lower_bound); r.(upper_bound)].
Definition anchor_children (a : MatchAnchor.t) : list Z :=
  match a with MatchAnchor.None => [] | MatchAnchor.At e => [e] | MatchAnchor.In r => range_children r end.
Definition iterable_children (i : Iterable.t) : list Z :=
  match i with Iterable.Range r => range_children r | Iterable.ExprTuple es => es | Iterable.Expr e => [e] end.

(** The expressions that [dfs_common] pushes, from the top of the stack. *)
Definition dfs_children (e : Expr.t) : list (Z * EventContext.t) :=
  match e with
  | Expr.Const _ | Expr.Filesize | Expr.Symbol _ => []
  | Expr.Not operand | Expr.Defined operand | Expr.Minus _ operand | Expr.BitwiseNot operand => plain [operand]
  | Expr.And operands | Expr.Or operands | Expr.Add _ operands | Expr.Sub _ operands | Expr.Mul _ operands
  | Expr.Div _ operands | Expr.Mod operands => plain operands
  | Expr.Eq lhs rhs | Expr.Ne lhs rhs | Expr.Ge lhs rhs | Expr.Gt lhs rhs | Expr.Le lhs rhs | Expr.Lt lhs rhs
  | Expr.Shl lhs rhs | Expr.Shr lhs rhs | Expr.BitwiseAnd lhs rhs | Expr.BitwiseOr lhs rhs | Expr.BitwiseXor lhs rhs
  | Expr.Contains lhs rhs | Expr.IContains lhs rhs | Expr.StartsWith lhs rhs | Expr.IStartsWith lhs rhs
  | Expr.EndsWith lhs rhs | Expr.IEndsWith lhs rhs | Expr.IEquals lhs rhs | Expr.Matches lhs rhs => plain [lhs; rhs]
  | Expr.MatchesMany lhs _ => plain [lhs]
  | Expr.PatternMatch _ anchor | Expr.PatternMatchVar _ anchor => plain (anchor_children anchor)
  | Expr.PatternCount _ range | Expr.PatternCountVar _ range => plain (from_option range_children [] range)
  | Expr.PatternOffset _ index | Expr.PatternOffsetVar _ index | Expr.PatternLength _ index | Expr.PatternLengthVar _ index =>
      plain (option_list index)
  | Expr.FieldAccess _ operands => (fun id => (id, EventContext.FieldAccess)) <$> operands
  | Expr.FuncCall object _ args => plain (option_list object ++ args)
  | Expr.OfExprTuple quantifier items _ anchor =>
      plain (quantifier_children quantifier ++ reverse items ++ anchor_children anchor)
  | Expr.OfPatternSet quantifier _ _ anchor => plain (quantifier_children quantifier ++ anchor_children anchor)
  | Expr.ForOf quantifier _ _ body => plain (quantifier_children quantifier) ++ [(body, EventContext.Body)]
  | Expr.ForIn quantifier _ _ iterable body =>
      plain (quantifier_children quantifier ++ iterable_children iterable) ++ [(body, EventContext.Body)]
  | Expr.Lookup _ primary index => plain [primary; index]
  | Expr.With _ declarations body =>
      ((fun id => (id, EventContext.WithDeclaration)) <$> declarations.*2) ++ [(body, EventContext.Body)]
  end.

(** [IR::children] *)
Definition children (e : Expr.t) : list Z := (dfs_children e).*1.

(** * The tree *)

Record IR := {
  constant_folding : bool;
  root : option Z;
  nodes : list Expr.t;
  parents : list Z;
}.

Definition ir_new : IR := {| constant_folding := false; root := None; nodes := []; parents := [] |}.

Definition set_constant_folding (yes : bool) (ir : IR) : IR :=
  {| constant_folding := yes; root := ir.(root); nodes := ir.(nodes); parents := ir.(parents) |}.

(** [root] is not cleared. *)
Definition ir_clear (ir : IR) : IR :=
  {| constant_folding := ir.(constant_folding); root := ir.(root); nodes := []; parents := [] |}.

Definition set_tree (nodes : list Expr.t) (parents : list Z) (ir : IR) : IR :=
  {| constant_folding := ir.(constant_folding); root := ir.(root); nodes := nodes; parents := parents |}.

Definition set_root (id : option Z) (ir : IR) : IR :=
  {| constant_folding := ir.(constant_folding); root := id; nodes := ir.(nodes); parents := ir.(parents) |}.

Definition ir_get (ir : IR) (id : Z) : res Expr.t := or_panic (get ir.(nodes) id).

(** [replace], which returns the previous expression, and [get_mut]. *)
Definition ir_replace (id : Z) (e : Expr.t) (ir : IR) : res (IR * Expr.t) :=
  old ← ir_get ir id;
  Ret (set_tree (<[Z.to_nat id := e]> ir.(nodes)) ir.(parents) ir, old).

Definition get_parent (ir : IR) (id : Z) : res (option Z) :=
  parent ← or_panic (get ir.(parents) id);
  Ret (if parent =? ExprId_none then None else Some parent).

Definition set_parent (id parent : Z) (ir : IR) : res IR :=
  _ ← or_panic (get ir.(parents) id);
  Ret (set_tree ir.(nodes) (<[Z.to_nat id := parent]> ir.(parents)) ir).

Definition next_id (ir : IR) : Z := wrap_u32 (len ir.(nodes)).

(** A new expression, whose operands get it as their parent. *)
Definition new_node (operands : list Z) (e : Expr.t) (ir : IR) : res (IR * Z) :=
  let id := next_id ir in
  ir ← for_each operands (fun operand => set_parent operand id) ir;
  Ret (set_tree (ir.(nodes) ++ [e]) (ir.(parents) ++ [ExprId_none]) ir, id).

Definition ir_push (e : Expr.t) (ir : IR) : res (IR * Z) :=
  let id := next_id ir in
  let ir := set_tree (ir.(nodes) ++ [e]) (ir.(parents) ++ [ExprId_none]) ir in
  ir ← for_each (children e) (fun child => set_parent child id) ir;
  Ret (ir, id).
