(* ===== verification/IRBuild.v ===== *)
(** The functions that build the tree of a condition and fold its constants,
    from [lib/src/compiler/ir/mod.rs]. Each returns the tree and the identifier
    of the new expression. *)

From Stdlib Require Import SpecFloat.
From S2P Require Import Prelude.
From S2P Require Import Float64.
From S2P Require Import Types.
From S2P Require Import IR.
#[local] Open Scope Z_scope.

Inductive Error : Type := NumberOutOfRange.

(** * Loops over the operands *)

(** [retain] with a closure that may panic. *)
Fixpoint retain {A} (keep : A -> res bool) (l : list A) : res (list A) :=
  match l with
  | [] => Ret []
  | x :: l => b ← keep x; l ← retain keep l; Ret (if b : bool then x :: l else l)
  end.

(** [iter().any] and [iter().all] stop at the first operand that decides. *)
Fixpoint any {A} (p : A -> res bool) (l : list A) : res bool :=
  match l with
  | [] => Ret false
  | x :: l => b ← p x; if b : bool then Ret true else any p l
  end.

Fixpoint all {A} (p : A -> res bool) (l : list A) : res bool :=
  match l with
  | [] => Ret true
  | x :: l => b ← p x; if b : bool then all p l else Ret false
  end.

Fixpoint collect {A B} (f : A -> res B) (l : list A) : res (list B) :=
  match l with
  | [] => Ret []
  | x :: l => y ← f x; l ← collect f l; Ret (y :: l)
  end.

Definition type_value_of (ir : IR) (id : Z) : res TypeValue.t := e ← ir_get ir id; Ret (expr_type_value e).
Definition ty_of (ir : IR) (id : Z) : res Ty.t := e ← ir_get ir id; Ret (expr_ty e).
Definition is_const (ir : IR) (id : Z) : res bool := v ← type_value_of ir id; Ret (tv_is_const v).
Definition is_float_op (ir : IR) (id : Z) : res bool := t ← ty_of ir id; Ret (bool_decide (t = Ty.Float)).

(** * The builders *)

Module Build.

(** * Leaves *)

Definition filesize (ir : IR) : res (IR * Z) := new_node [] Expr.Filesize ir.

Definition constant (v : TypeValue.t) (ir : IR) : res (IR * Z) := new_node [] (Expr.Const v) ir.

Definition ident (s : Symbol.t) (ir : IR) : res (IR * Z) :=
  let v := symbol_type_value s in
  if ir.(constant_folding) && tv_is_const v then constant v ir
  else new_node [] (Expr.Symbol s) ir.

Definition lookup (v : TypeValue.t) (primary index : Z) (ir : IR) : res (IR * Z) :=
  new_node [primary; index] (Expr.Lookup v primary index) ir.

(** * Boolean operations *)

Definition not (operand : Z) (ir : IR) : res (IR * Z) :=
  e ← (if ir.(constant_folding) then e ← ir_get ir operand; Ret (try_as_const_bool e) else Ret None);
  match e with
  | Some v => constant (const_bool_from (negb v)) ir
  | None => new_node [operand] (Expr.Not operand) ir
  end.

(** Whether an operand is a constant, and its value cast to a boolean. *)
Definition const_bool (ir : IR) (id : Z) : res (option bool) :=
  v ← type_value_of ir id;
  v ← cast_to_bool v;
  if tv_is_const v then b ← as_bool v; Ret (Some b) else Ret None.

(** [and] removes the operands that are constant and true, [or] those that are
    constant and false ([neutral]); any other constant decides the result. *)
Definition junction (neutral : bool) (e : list Z -> Expr.t) (operands : list Z) (ir : IR) : res (IR * Z + Error) :=
  operands ←
    (if ir.(constant_folding) then
       retain (fun op => c ← const_bool ir op;
                         Ret (match c with None => true | Some b => negb (Bool.eqb b neutral) end)) operands
     else Ret operands);
  decided ← (if ir.(constant_folding) then
               if bool_decide (operands = []) then Ret (Some neutral)
               else c ← any (is_const ir) operands; Ret (if c : bool then Some (negb neutral) else None)
             else Ret None);
  match decided with
  | Some b => r ← constant (const_bool_from b) ir; Ret (inl r)
  | None => r ← new_node operands (e operands) ir; Ret (inl r)
  end.

Definition and : list Z -> IR -> res (IR * Z + Error) := junction true Expr.And.
Definition or : list Z -> IR -> res (IR * Z + Error) := junction false Expr.Or.

Definition defined (operand : Z) (ir : IR) : res (IR * Z) := new_node [operand] (Expr.Defined operand) ir.

(** * Arithmetic *)

(** The negation of the least [i64] wraps around, and panics in builds with
    overflow checks. *)
Definition minus (operand : Z) (ir : IR) : res (IR * Z) :=
  e ← ir_get ir operand;
  match (if ir.(constant_folding) then expr_type_value e else TypeValue.Unknown) with
  | TypeValue.Integer (Value.Const v) _ => constant (const_integer_from (wrap_isize (- v))) ir
  | TypeValue.Float (Value.Const v) => constant (const_float_from (f64_neg v)) ir
  | _ => new_node [operand] (Expr.Minus (bool_decide (expr_ty e = Ty.Float)) operand) ir
  end.

Definition bitwise_not (operand : Z) (ir : IR) : res (IR * Z) :=
  e ← (if ir.(constant_folding) then e ← ir_get ir operand; Ret (try_as_const_integer e) else Ret None);
  match e with
  | Some v => constant (const_integer_from (Z.lnot v)) ir
  | None => new_node [operand] (Expr.BitwiseNot operand) ir
  end.

(** The values of two operands that are constant integers. *)
Definition const_integers (ir : IR) (lhs rhs : Z) : res (option (Z * Z)) :=
  if ir.(constant_folding) then
    l ← ir_get ir lhs; r ← ir_get ir rhs;
    Ret (match try_as_const_integer l, try_as_const_integer r with Some a, Some b => Some (a, b) | _, _ => None end)
  else Ret None.

(** [f] gives the value, or [None] when the operation is not folded. *)
Definition binary (f : Z -> Z -> option Z) (e : Z -> Z -> Expr.t) (lhs rhs : Z) (ir : IR) : res (IR * Z) :=
  c ← const_integers ir lhs rhs;
  match (c ≫= fun '(a, b) => f a b) with
  | Some v => constant (const_integer_from v) ir
  | None => new_node [lhs; rhs] (e lhs rhs) ir
  end.

Definition bitwise_and : Z -> Z -> IR -> res (IR * Z) := binary (fun a b => Some (Z.land a b)) Expr.BitwiseAnd.
Definition bitwise_or : Z -> Z -> IR -> res (IR * Z) := binary (fun a b => Some (Z.lor a b)) Expr.BitwiseOr.
Definition bitwise_xor : Z -> Z -> IR -> res (IR * Z) := binary (fun a b => Some (Z.lxor a b)) Expr.BitwiseXor.

Definition fold_shl (a b : Z) : option Z :=
  if 0 <=? b then Some (if 64 <=? b then 0 else wrap_isize (Z.shiftl a b)) else None.
Definition fold_shr (a b : Z) : option Z :=
  if 0 <=? b then Some (if 64 <=? b then 0 else Z.shiftr a b) else None.

Definition shl : Z -> Z -> IR -> res (IR * Z) := binary fold_shl Expr.Shl.
Definition shr : Z -> Z -> IR -> res (IR * Z) := binary fold_shr Expr.Shr.

(** The constant operands as floats. *)
Definition as_f64 (v : TypeValue.t) : res f64 :=
  match v with
  | TypeValue.Integer (Value.Const v) _ => Ret (f64_of_i64 v)
  | TypeValue.Float (Value.Const v) => Ret v
  | _ => Panic
  end.

Definition reduce (f : f64 -> f64 -> f64) (l : list f64) : option f64 :=
  match l with [] => None | x :: l => Some (fold_left f l x) end.

Definition fold_arithmetic (operands : list Z) (is_float : bool) (f : f64 -> f64 -> f64) (ir : IR)
  : res (option TypeValue.t + Error) :=
  consts ← all (is_const ir) operands;
  if consts : bool then
    values ← collect (fun op => v ← type_value_of ir op; as_f64 v) operands;
    folded ← or_panic (reduce f values);
    if is_float then Ret (inl (Some (const_float_from folded)))
    else if f64_le (f64_of_i64 i64_MIN) folded && f64_le folded (f64_of_i64 i64_MAX)
    then Ret (inl (Some (const_integer_from (f64_to_i64 folded))))
    else Ret (inr NumberOutOfRange)
  else Ret (inl None).

Definition arithmetic (f : f64 -> f64 -> f64) (e : bool -> list Z -> Expr.t) (operands : list Z) (ir : IR)
  : res (IR * Z + Error) :=
  is_float ← any (is_float_op ir) operands;
  folded ← (if ir.(constant_folding) then fold_arithmetic operands is_float f ir else Ret (inl None));
  match folded with
  | inr err => Ret (inr err)
  | inl (Some v) => r ← constant v ir; Ret (inl r)
  | inl None => r ← new_node operands (e is_float operands) ir; Ret (inl r)
  end.

Definition add : list Z -> IR -> res (IR * Z + Error) := arithmetic f64_add Expr.Add.
Definition sub : list Z -> IR -> res (IR * Z + Error) := arithmetic f64_sub Expr.Sub.
Definition mul : list Z -> IR -> res (IR * Z + Error) := arithmetic f64_mul Expr.Mul.

(** Divisions are not folded. *)
Definition div (operands : list Z) (ir : IR) : res (IR * Z + Error) :=
  is_float ← any (is_float_op ir) operands;
  r ← new_node operands (Expr.Div is_float operands) ir; Ret (inl r).

Definition modulus (operands : list Z) (ir : IR) : res (IR * Z + Error) :=
  r ← new_node operands (Expr.Mod operands) ir; Ret (inl r).

Definition field_access (operands : list Z) (ir : IR) : res (IR * Z) :=
  op ← or_panic (last operands);
  v ← type_value_of ir op;
  if ir.(constant_folding) && tv_is_const v then constant v ir
  else new_node operands (Expr.FieldAccess v operands) ir.

(** * Comparisons and operations on strings *)

Definition pair (e : Z -> Z -> Expr.t) (lhs rhs : Z) (ir : IR) : res (IR * Z) := new_node [lhs; rhs] (e lhs rhs) ir.

Definition eq : Z -> Z -> IR -> res (IR * Z) := pair Expr.Eq.
Definition ne : Z -> Z -> IR -> res (IR * Z) := pair Expr.Ne.
Definition ge : Z -> Z -> IR -> res (IR * Z) := pair Expr.Ge.
Definition gt : Z -> Z -> IR -> res (IR * Z) := pair Expr.Gt.
Definition le : Z -> Z -> IR -> res (IR * Z) := pair Expr.Le.
Definition lt : Z -> Z -> IR -> res (IR * Z) := pair Expr.Lt.
Definition contains : Z -> Z -> IR -> res (IR * Z) := pair Expr.Contains.
Definition icontains : Z -> Z -> IR -> res (IR * Z) := pair Expr.IContains.
Definition starts_with : Z -> Z -> IR -> res (IR * Z) := pair Expr.StartsWith.
Definition istarts_with : Z -> Z -> IR -> res (IR * Z) := pair Expr.IStartsWith.
Definition ends_with : Z -> Z -> IR -> res (IR * Z) := pair Expr.EndsWith.
Definition iends_with : Z -> Z -> IR -> res (IR * Z) := pair Expr.IEndsWith.
Definition iequals : Z -> Z -> IR -> res (IR * Z) := pair Expr.IEquals.
Definition matches : Z -> Z -> IR -> res (IR * Z) := pair Expr.Matches.

Definition matches_regex_set (lhs regex_set : Z) (ir : IR) : res (IR * Z) :=
  new_node [lhs] (Expr.MatchesMany lhs regex_set) ir.

(** * Patterns *)

Definition pattern_match (pattern : Z) (anchor : MatchAnchor.t) (ir : IR) : res (IR * Z) :=
  new_node (anchor_children anchor) (Expr.PatternMatch pattern anchor) ir.

Definition pattern_match_var (symbol : Symbol.t) (anchor : MatchAnchor.t) (ir : IR) : res (IR * Z) :=
  new_node (anchor_children anchor) (Expr.PatternMatchVar symbol anchor) ir.

Definition pattern_length (pattern : Z) (index : option Z) (ir : IR) : res (IR * Z) :=
  new_node (option_list index) (Expr.PatternLength pattern index) ir.

Definition pattern_length_var (symbol : Symbol.t) (index : option Z) (ir : IR) : res (IR * Z) :=
  new_node (option_list index) (Expr.PatternLengthVar symbol index) ir.

Definition pattern_offset (pattern : Z) (index : option Z) (ir : IR) : res (IR * Z) :=
  new_node (option_list index) (Expr.PatternOffset pattern index) ir.

Definition pattern_offset_var (symbol : Symbol.t) (index : option Z) (ir : IR) : res (IR * Z) :=
  new_node (option_list index) (Expr.PatternOffsetVar symbol index) ir.

Definition pattern_count (pattern : Z) (range : option Range) (ir : IR) : res (IR * Z) :=
  new_node (from_option range_children [] range) (Expr.PatternCount pattern range) ir.

Definition pattern_count_var (symbol : Symbol.t) (range : option Range) (ir : IR) : res (IR * Z) :=
  new_node (from_option range_children [] range) (Expr.PatternCountVar symbol range) ir.

(** * Functions, quantifiers and loops *)

Definition func_call (object : option Z) (args : list Z) (signature : FuncSignature) (ir : IR) : res (IR * Z) :=
  new_node (args ++ option_list object) (Expr.FuncCall object signature args) ir.

(** The builder also gives a parent to the expression of a percentage. *)
Definition quantifier_operands (q : Quantifier.t) : list Z :=
  match q with Quantifier.Percentage e | Quantifier.Expr e => [e] | _ => [] end.

Definition of_expr_tuple (quantifier : Quantifier.t) (for_vars : ForVars) (items : list Z) (anchor : MatchAnchor.t) (ir : IR)
  : res (IR * Z) :=
  new_node (quantifier_operands quantifier ++ items ++ anchor_children anchor)
    (Expr.OfExprTuple quantifier items for_vars anchor) ir.

Definition of_pattern_set (quantifier : Quantifier.t) (for_vars : ForVars) (items : list Z) (anchor : MatchAnchor.t) (ir : IR)
  : res (IR * Z) :=
  new_node (quantifier_operands quantifier ++ anchor_children anchor)
    (Expr.OfPatternSet quantifier items for_vars anchor) ir.

Definition for_of (quantifier : Quantifier.t) (for_vars : ForVars) (pattern_set : list Z) (body : Z) (ir : IR) : res (IR * Z) :=
  new_node (quantifier_operands quantifier ++ [body]) (Expr.ForOf quantifier for_vars pattern_set body) ir.

Definition for_in (quantifier : Quantifier.t) (variables : list Var.t) (for_vars : ForVars) (iterable : Iterable.t)
  (body : Z) (ir : IR) : res (IR * Z) :=
  new_node (quantifier_operands quantifier ++ iterable_children iterable ++ [body])
    (Expr.ForIn quantifier variables for_vars iterable body) ir.

Definition with_ (declarations : list (Var.t * Z)) (body : Z) (ir : IR) : res (IR * Z) :=
  v ← type_value_of ir body;
  new_node (declarations.*2 ++ [body]) (Expr.With v declarations body) ir.

End Build.
