(* ===== verification/IRDfs.v ===== *)
(** The traversal of the tree of a condition, from [lib/src/compiler/ir/dfs.rs],
    and the functions of [lib/src/compiler/ir/mod.rs] that are built on it:
    [dfs_mut], [dfs_find], [ancestors], [children], [shift_vars] and [hoisting]. *)

From S2P Require Import Prelude.
From S2P Require Import Float64.
From S2P Require Import Types.
From S2P Require Import IR.
From S2P Require Import IRBuild.
#[local] Open Scope Z_scope.

Inductive Event : Type :=
  | Enter (expr : Z) (ctx : EventContext.t)
  | Leave (expr : Z) (ctx : EventContext.t).

Definition event_expr (e : Event) : Z := match e with Enter id _ | Leave id _ => id end.
Definition is_enter (e : Event) : bool := match e with Enter _ _ => true | Leave _ _ => false end.

(** * The iterator *)

(** The stack of [DFSIter], from its top. *)
Definition dfs_iter (start : Z) : list Event := [Enter start EventContext.None].

Fixpoint prune (stack : list Event) : list Event :=
  match stack with
  | Enter _ _ :: stack => prune stack
  | _ => stack
  end.

Definition enters (children : list (Z * EventContext.t)) : list Event := (fun '(id, ctx) => Enter id ctx) <$> children.

(** [next], which returns the event with the expression. *)
Definition dfs_next (ir : IR) (stack : list Event) : res (option (Event * Expr.t * list Event)) :=
  match stack with
  | [] => Ret None
  | Enter id ctx :: stack =>
      e ← ir_get ir id;
      Ret (Some (Enter id ctx, e, enters (dfs_children e) ++ Leave id ctx :: stack))
  | Leave id ctx :: stack =>
      e ← ir_get ir id;
      Ret (Some (Leave id ctx, e, stack))
  end.

(** * Loops over the iterator *)

(** What the body of a loop does with the iterator. *)
Inductive Control : Type := Go | Prune | Break.

(** [while let Some(evt) = dfs.next() { ... }] with the state of the loop
    threaded through the body. *)
Fixpoint while_dfs {St} (fuel : nat) (ir : IR) (body : Event -> Expr.t -> St -> res (St * Control)) (stack : list Event) (s : St)
  : res St :=
  match fuel with
  | O => OutOfFuel
  | S fuel =>
      next ← dfs_next ir stack;
      match next with
      | None => Ret s
      | Some (evt, e, stack) =>
          '(s, c) ← body evt e s;
          match c with
          | Go => while_dfs fuel ir body stack s
          | Prune => while_dfs fuel ir body (prune stack) s
          | Break => Ret s
          end
      end
  end.

(** The number of events of the traversal of a tree whose children come before
    their parents. *)
Fixpoint dfs_events (fuel : nat) (ir : IR) (id : Z) : nat :=
  match fuel with
  | O => 0
  | S fuel =>
      match get ir.(nodes) id with
      | Some e => 2 + sum_list (dfs_events fuel ir <$> children e)
      | None => 2
      end
  end.

Definition dfs_fuel (ir : IR) (start : Z) : nat := S (dfs_events (S (Z.to_nat start)) ir start).

(** [dfs_find] *)
Definition dfs_find (ir : IR) (start : Z) (predicate prune_if : Expr.t -> bool) : res (option Expr.t) :=
  while_dfs (dfs_fuel ir start) ir
    (fun evt e s =>
       match evt with
       | Enter _ _ => if predicate e then Ret (Some e, Break) else Ret (s, if prune_if e then Prune else Go)
       | Leave _ _ => Ret (s, Go)
       end) (dfs_iter start) None.

(** * [dfs_mut] *)

(** The function may change the expression of the event; the children are those
    of the changed expression. *)
Fixpoint dfs_mut_loop {St} (fuel : nat) (f : Event -> Expr.t -> St -> res (Expr.t * St)) (stack : list Event) (ir : IR) (s : St)
  : res (IR * St) :=
  match fuel with
  | O => OutOfFuel
  | S fuel =>
      match stack with
      | [] => Ret (ir, s)
      | evt :: stack =>
          let id := event_expr evt in
          e ← ir_get ir id;
          '(e, s) ← f evt e s;
          '(ir, _) ← ir_replace id e ir;
          match evt with
          | Enter id ctx => dfs_mut_loop fuel f (enters (dfs_children e) ++ Leave id ctx :: stack) ir s
          | Leave _ _ => dfs_mut_loop fuel f stack ir s
          end
      end
  end.

(** * Variables *)

Definition shift_symbol (from_index shift_amount : Z) (s : Symbol.t) : res Symbol.t :=
  match s with
  | Symbol.Var v tv => v ← var_shift from_index shift_amount v; Ret (Symbol.Var v tv)
  | s => Ret s
  end.

(** [ForVars::shift] *)
Definition for_vars_shift (after amount : Z) (f : ForVars) : res ForVars :=
  n ← var_shift after amount f.(fv_n);
  i ← var_shift after amount f.(fv_i);
  max_count ← var_shift after amount f.(fv_max_count);
  count ← var_shift after amount f.(fv_count);
  item ← var_shift after amount f.(fv_item);
  Ret {| fv_n := n; fv_i := i; fv_max_count := max_count; fv_count := count; fv_item := item |}.

Fixpoint shift_each (from_index shift_amount : Z) (vs : list Var.t) : res (list Var.t) :=
  match vs with
  | [] => Ret []
  | v :: vs => v ← var_shift from_index shift_amount v; vs ← shift_each from_index shift_amount vs; Ret (v :: vs)
  end.

(** [Expr::shift_vars] *)
Definition expr_shift_vars (from_index shift_amount : Z) (e : Expr.t) : res Expr.t :=
  let symbol := shift_symbol from_index shift_amount in
  match e with
  | Expr.Symbol s => s ← symbol s; Ret (Expr.Symbol s)
  | Expr.PatternMatchVar s anchor => s ← symbol s; Ret (Expr.PatternMatchVar s anchor)
  | Expr.PatternCountVar s range => s ← symbol s; Ret (Expr.PatternCountVar s range)
  | Expr.PatternOffsetVar s index => s ← symbol s; Ret (Expr.PatternOffsetVar s index)
  | Expr.PatternLengthVar s index => s ← symbol s; Ret (Expr.PatternLengthVar s index)
  | Expr.With v declarations body =>
      vs ← shift_each from_index shift_amount declarations.*1;
      Ret (Expr.With v (zip vs declarations.*2) body)
  | Expr.OfExprTuple q items for_vars anchor =>
      for_vars ← for_vars_shift from_index shift_amount for_vars; Ret (Expr.OfExprTuple q items for_vars anchor)
  | Expr.OfPatternSet q items for_vars anchor =>
      for_vars ← for_vars_shift from_index shift_amount for_vars; Ret (Expr.OfPatternSet q items for_vars anchor)
  | Expr.ForOf q for_vars items body =>
      for_vars ← for_vars_shift from_index shift_amount for_vars; Ret (Expr.ForOf q for_vars items body)
  | Expr.ForIn q variables for_vars iterable body =>
      variables ← shift_each from_index shift_amount variables;
      for_vars ← for_vars_shift from_index shift_amount for_vars;
      Ret (Expr.ForIn q variables for_vars iterable body)
  | e => Ret e
  end.

(** [IR::shift_vars], with the fuel of the traversal. *)
Definition shift_vars (fuel : nat) (expr from_index shift_amount : Z) (ir : IR) : res IR :=
  '(ir, _) ← dfs_mut_loop fuel
    (fun evt e s =>
       match evt with
       | Enter _ _ => e ← expr_shift_vars from_index shift_amount e; Ret (e, s)
       | Leave _ _ => Ret (e, s)
       end) (dfs_iter expr) ir tt;
  Ret ir.

(** [Expr::stack_frame_size] *)
Definition stack_frame_size (e : Expr.t) : Z :=
  match e with
  | Expr.With _ declarations _ => len declarations
  | Expr.ForOf _ _ _ _ => FOR_OF_FRAME_SIZE
  | Expr.ForIn _ _ _ _ _ => FOR_IN_FRAME_SIZE
  | Expr.OfExprTuple _ _ _ _ | Expr.OfPatternSet _ _ _ _ => OF_FRAME_SIZE
  | _ => 0
  end.

(** * Ancestors and children *)

(** [ancestors]: the chain of parents, which ends at the root. *)
Fixpoint ancestors (fuel : nat) (ir : IR) (current : Z) : res (list Z) :=
  match fuel with
  | O => OutOfFuel
  | S fuel =>
      if current =? ExprId_none then Ret []
      else
        parent ← or_panic (get ir.(parents) current);
        if parent =? ExprId_none then Ret []
        else rest ← ancestors fuel ir parent; Ret (parent :: rest)
  end.

(** The iterator [Children]: each child is pruned once it is entered. *)
Definition children_iter (ir : IR) (expr : Z) : res (list Z) :=
  e ← ir_get ir expr;
  rev ← while_dfs (S (2 * length (dfs_children e) + 1)) ir
    (fun evt e s => match evt with Enter id _ => Ret (id :: s, Prune) | Leave _ _ => Ret (s, Go) end)
    (enters (dfs_children e) ++ [Leave expr EventContext.None]) [];
  Ret (reverse rev).

(** * Scopes *)

(** [DFSWithScopeIter] *)
Record ScopeIter := { sc_stack : list Event; scopes : list Z; pending_pop : bool }.

Definition dfs_with_scope (start : Z) : ScopeIter := {| sc_stack := dfs_iter start; scopes := []; pending_pop := false |}.

Definition new_scope (ctx : EventContext.t) : bool :=
  match ctx with EventContext.Body | EventContext.WithDeclaration => true | _ => false end.

(** [scopes] is from the outermost scope, its last element is the innermost. *)
Definition scope_next (ir : IR) (it : ScopeIter) : res (option (Event * ScopeIter)) :=
  let scopes := if it.(pending_pop) then take (length it.(scopes) - 1) it.(scopes) else it.(scopes) in
  next ← dfs_next ir it.(sc_stack);
  match next with
  | None => Ret None
  | Some (Enter id ctx, _, stack) =>
      scopes ← (if new_scope ctx then
                  parent ← get_parent ir id; p ← or_panic parent; Ret (scopes ++ [p])
                else Ret scopes);
      Ret (Some (Enter id ctx, {| sc_stack := stack; scopes := scopes; pending_pop := false |}))
  | Some (Leave id ctx, _, stack) =>
      Ret (Some (Leave id ctx, {| sc_stack := stack; scopes := scopes; pending_pop := new_scope ctx |}))
  end.

Definition is_for_in (ir : IR) (id : Z) : res bool :=
  e ← ir_get ir id; Ret (match e with Expr.ForIn _ _ _ _ _ => true | _ => false end).

(** [for_scopes], from the outermost loop. *)
Fixpoint for_scopes (ir : IR) (scopes : list Z) : res (list Z) :=
  match scopes with
  | [] => Ret []
  | id :: scopes =>
      is_for ← is_for_in ir id;
      rest ← for_scopes ir scopes;
      Ret (if is_for : bool then id :: rest else rest)
  end.

(** [while let Some(event) = dfs.next()] over the iterator with scopes; the body
    returns [true] to leave the loop. *)
Fixpoint while_scopes {St} (fuel : nat) (ir : IR) (body : Event -> ScopeIter -> St -> res (St * bool)) (it : ScopeIter) (s : St)
  : res St :=
  match fuel with
  | O => OutOfFuel
  | S fuel =>
      next ← scope_next ir it;
      match next with
      | None => Ret s
      | Some (evt, it) =>
          '(s, stop) ← body evt it s;
          if stop : bool then Ret s else while_scopes fuel ir body it s
      end
  end.

(** In a tree every expression is entered and left once. *)
Definition tree_fuel (ir : IR) : nat := S (2 * length ir.(nodes)).

(** * Hoisting of expressions *)

(** [Iterable::num_iterations]: [add] on [i64] panics, [checked_sub] does not. *)
Definition num_iterations (ir : IR) (i : Iterable.t) : res (option Z) :=
  match i with
  | Iterable.Range r =>
      lower ← ir_get ir r.(lower_bound);
      upper ← ir_get ir r.(upper_bound);
      match try_as_const_integer lower, try_as_const_integer upper with
      | Some lower_val, Some upper_val =>
          _ ← assert (upper_val + 1 <=? i64_MAX);
          let n := upper_val + 1 - lower_val in
          Ret (if (i64_MIN <=? n) && (n <=? i64_MAX) then Some n else None)
      | _, _ => Ret None
      end
  | Iterable.ExprTuple exprs => Ret (Some (len exprs))
  | Iterable.Expr _ => Ret None
  end.

(** ** [Expr::replace_child] *)

Definition replace_id (child replacement id : Z) : Z := if id =? child then replacement else id.

Definition replace_in_quantifier (child replacement : Z) (q : Quantifier.t) : Quantifier.t :=
  match q with
  | Quantifier.Percentage e => Quantifier.Percentage (replace_id child replacement e)
  | Quantifier.Expr e => Quantifier.Expr (replace_id child replacement e)
  | q => q
  end.

Definition replace_in_range (child replacement : Z) (r : Range) : Range :=
  {| lower_bound := replace_id child replacement r.(lower_bound); upper_bound := replace_id child replacement r.(upper_bound) |}.

Definition replace_in_anchor (child replacement : Z) (a : MatchAnchor.t) : MatchAnchor.t :=
  match a with
  | MatchAnchor.None => MatchAnchor.None
  | MatchAnchor.At e => MatchAnchor.At (replace_id child replacement e)
  | MatchAnchor.In r => MatchAnchor.In (replace_in_range child replacement r)
  end.

Definition replace_child (child replacement : Z) (e : Expr.t) : Expr.t :=
  let id := replace_id child replacement in
  let ids := map id in
  let range := replace_in_range child replacement in
  let anchor := replace_in_anchor child replacement in
  let quantifier := replace_in_quantifier child replacement in
  match e with
  | Expr.Const _ | Expr.Filesize | Expr.Symbol _ => e
  | Expr.Not operand => Expr.Not (id operand)
  | Expr.Minus is_float operand => Expr.Minus is_float (id operand)
  | Expr.Defined operand => Expr.Defined (id operand)
  | Expr.BitwiseNot operand => Expr.BitwiseNot (id operand)
  | Expr.And operands => Expr.And (ids operands)
  | Expr.Or operands => Expr.Or (ids operands)
  | Expr.Add is_float operands => Expr.Add is_float (ids operands)
  | Expr.Sub is_float operands => Expr.Sub is_float (ids operands)
  | Expr.Mul is_float operands => Expr.Mul is_float (ids operands)
  | Expr.Div is_float operands => Expr.Div is_float (ids operands)
  | Expr.Mod operands => Expr.Mod (ids operands)
  | Expr.BitwiseAnd lhs rhs => Expr.BitwiseAnd (id lhs) (id rhs)
  | Expr.Shl lhs rhs => Expr.Shl (id lhs) (id rhs)
  | Expr.Shr lhs rhs => Expr.Shr (id lhs) (id rhs)
  | Expr.BitwiseOr lhs rhs => Expr.BitwiseOr (id lhs) (id rhs)
  | Expr.BitwiseXor lhs rhs => Expr.BitwiseXor (id lhs) (id rhs)
  | Expr.Eq lhs rhs => Expr.Eq (id lhs) (id rhs)
  | Expr.Ne lhs rhs => Expr.Ne (id lhs) (id rhs)
  | Expr.Lt lhs rhs => Expr.Lt (id lhs) (id rhs)
  | Expr.Gt lhs rhs => Expr.Gt (id lhs) (id rhs)
  | Expr.Le lhs rhs => Expr.Le (id lhs) (id rhs)
  | Expr.Ge lhs rhs => Expr.Ge (id lhs) (id rhs)
  | Expr.Contains lhs rhs => Expr.Contains (id lhs) (id rhs)
  | Expr.IContains lhs rhs => Expr.IContains (id lhs) (id rhs)
  | Expr.StartsWith lhs rhs => Expr.StartsWith (id lhs) (id rhs)
  | Expr.IStartsWith lhs rhs => Expr.IStartsWith (id lhs) (id rhs)
  | Expr.EndsWith lhs rhs => Expr.EndsWith (id lhs) (id rhs)
  | Expr.IEndsWith lhs rhs => Expr.IEndsWith (id lhs) (id rhs)
  | Expr.IEquals lhs rhs => Expr.IEquals (id lhs) (id rhs)
  | Expr.Matches lhs rhs => Expr.Matches (id lhs) (id rhs)
  | Expr.MatchesMany lhs set => Expr.MatchesMany (id lhs) set
  | Expr.PatternMatch p a => Expr.PatternMatch p (anchor a)
  | Expr.PatternMatchVar s a => Expr.PatternMatchVar s (anchor a)
  | Expr.PatternCount p r => Expr.PatternCount p (range <$> r)
  | Expr.PatternCountVar s r => Expr.PatternCountVar s (range <$> r)
  | Expr.PatternOffset p index => Expr.PatternOffset p (id <$> index)
  | Expr.PatternOffsetVar s index => Expr.PatternOffsetVar s (id <$> index)
  | Expr.PatternLength p index => Expr.PatternLength p (id <$> index)
  | Expr.PatternLengthVar s index => Expr.PatternLengthVar s (id <$> index)
  | Expr.With v declarations body => Expr.With v (prod_map Datatypes.id id <$> declarations) (id body)
  | Expr.FieldAccess v operands => Expr.FieldAccess v (ids operands)
  | Expr.FuncCall object f args => Expr.FuncCall (id <$> object) f (ids args)
  | Expr.OfExprTuple q items for_vars a => Expr.OfExprTuple q (ids items) for_vars (anchor a)
  | Expr.OfPatternSet q items for_vars a => Expr.OfPatternSet q items for_vars (anchor a)
  | Expr.ForOf q for_vars items body => Expr.ForOf (quantifier q) for_vars items (id body)
  | Expr.ForIn q variables for_vars iterable body => Expr.ForIn (quantifier q) variables for_vars iterable (id body)
  | Expr.Lookup v primary index => Expr.Lookup v (id primary) (id index)
  end.

(** ** [find_hoisting_candidates] *)

(** Whether an expression declares a variable. *)
Definition declares (var : Z) (e : Expr.t) : bool :=
  match e with
  | Expr.With _ declarations _ => existsb (fun d => (fst d).(Var.index) =? var) declarations
  | Expr.ForIn _ variables _ _ _ => existsb (fun v => v.(Var.index) =? var) variables
  | _ => false
  end.

Fixpoint stmt_declaring (ir : IR) (var : Z) (scopes : list Z) : res (option Z) :=
  match scopes with
  | [] => Ret None
  | id :: scopes => e ← ir_get ir id; if declares var e then Ret (Some id) else stmt_declaring ir var scopes
  end.

Fixpoint take_until (id : Z) (ids : list Z) : list Z :=
  match ids with
  | [] => []
  | x :: ids => if x =? id then [] else x :: take_until id ids
  end.

(** For each expression, the statement that declares the variable on which it
    depends, and the variable. *)
Definition mark_dependent (stmt var ancestor : Z) (depends_on : list (option (Z * Z))) : res (list (option (Z * Z))) :=
  entry ← or_panic (get depends_on ancestor);
  match entry with
  | Some (_, v) => if var <=? v then Ret depends_on else Ret (<[Z.to_nat ancestor := Some (stmt, var)]> depends_on)
  | None => Ret (<[Z.to_nat ancestor := Some (stmt, var)]> depends_on)
  end.

(** The body of the first loop. *)
Definition mark_step (ir : IR) (evt : Event) (it : ScopeIter) (depends_on : list (option (Z * Z)))
  : res (list (option (Z * Z)) * bool) :=
  match evt with
  | Leave _ _ => Ret (depends_on, false)
  | Enter id _ =>
      e ← ir_get ir id;
      match e with
      | Expr.Symbol (Symbol.Var v _) =>
          stmt ← stmt_declaring ir v.(Var.index) it.(scopes);
          match stmt with
          | None => Ret (depends_on, false)
          | Some stmt =>
              above ← ancestors (S (length ir.(nodes))) ir id;
              depends_on ← for_each (take_until stmt above) (mark_dependent stmt v.(Var.index)) depends_on;
              Ret (depends_on, false)
          end
      | _ => Ret (depends_on, false)
      end
  end.

(** The loop that follows a given one in the scopes. *)
Fixpoint scope_after (id : Z) (scopes : list Z) : option Z :=
  match scopes with
  | [] => None
  | x :: scopes => if x =? id then head scopes else scope_after id scopes
  end.

(** The body of the second loop; the number of candidates is checked only in
    the last case. *)
Definition candidate_step (ir : IR) (depends_on : list (option (Z * Z))) (evt : Event) (it : ScopeIter) (found : list (Z * Z))
  : res (list (Z * Z) * bool) :=
  match evt with
  | Enter _ _ => Ret (found, false)
  | Leave id ctx =>
      e ← ir_get ir id;
      match e, ctx with
      | Expr.Const _, _ | Expr.Filesize, _ | Expr.Symbol _, _ | _, EventContext.FieldAccess => Ret (found, false)
      | _, _ =>
          current ← or_panic (get depends_on id);
          parent ← get_parent ir id;
          parent_depends ← (match parent with Some p => or_panic (get depends_on p) | None => Ret None end);
          let same := match current, parent_depends with Some (c, _), Some (p, _) => c =? p | _, _ => false end in
          if same then Ret (found, false)
          else
            match current with
            | None =>
                loops ← for_scopes ir it.(scopes);
                Ret (match head loops with Some l => found ++ [(id, l)] | None => found end, false)
            | Some (defining_expr, _) =>
                is_for ← is_for_in ir defining_expr;
                if negb is_for then Ret (found, false)
                else
                  loops ← for_scopes ir it.(scopes);
                  let found := match scope_after defining_expr loops with Some l => found ++ [(id, l)] | None => found end in
                  Ret (found, 100 <? len found)
            end
      end
  end.

Definition find_hoisting_candidates (ir : IR) : res (list (Z * Z)) :=
  root ← or_panic ir.(root);
  depends_on ← while_scopes (tree_fuel ir) ir (mark_step ir) (dfs_with_scope root) (replicate (length ir.(nodes)) None);
  while_scopes (tree_fuel ir) ir (candidate_step ir depends_on) (dfs_with_scope root) [].

(** ** [hoisting] *)

(** The body of the loop over the candidates. *)
Definition hoist (expr loop : Z) (ir : IR) : res IR :=
  loop_parent ← get_parent ir loop;
  above ← ancestors (S (length ir.(nodes))) ir loop;
  var_index ← for_each above (fun id sum => e ← ir_get ir id; Ret (sum + stack_frame_size e)) 0;
  ir ← shift_vars (tree_fuel ir) loop var_index 1 ir;
  e ← ir_get ir expr;
  let type_value := expr_type_value e in
  var ← var_new 0 (tv_ty type_value) var_index;
  '(ir, replaced) ← ir_replace expr (Expr.Symbol (Symbol.Var var type_value)) ir;
  '(ir, var_init_stmt) ← ir_push replaced ir;
  '(ir, with_stmt) ← Build.with_ [(var, var_init_stmt)] loop ir;
  match loop_parent with
  | Some loop_parent =>
      ir ← set_parent with_stmt loop_parent ir;
      e ← ir_get ir loop_parent;
      '(ir, _) ← ir_replace loop_parent (replace_child loop with_stmt e) ir;
      Ret ir
  | None => Ret (set_root (Some with_stmt) ir)
  end.

Definition hoisting (ir : IR) : res (IR * Z) :=
  candidates ← find_hoisting_candidates ir;
  ir ← for_each candidates (fun '(expr, loop) => hoist expr loop) ir;
  root ← or_panic ir.(root);
  Ret (ir, root).
