(* ===== verification/IRDfsProps.v ===== *)
(** Properties of the traversal of the tree of a condition: loops over the
    iterator end, and enter the expressions in the order of the recursive
    traversal. *)

From S2P Require Import Prelude.
From S2P Require Import Float64.
From S2P Require Import Types.
From S2P Require Import IR.
From S2P Require Import IRDfs.
#[local] Open Scope Z_scope.

(** * Trees whose children come before their parents *)

Definition ordered (ir : IR) : Prop := forall id e, get ir.(nodes) id = Some e -> Forall (fun c => 0 <= c < id) (children e).

Definition in_tree (ir : IR) (id : Z) : Prop := 0 <= id < len ir.(nodes).

Lemma in_tree_get ir id : in_tree ir id -> exists e, get ir.(nodes) id = Some e.
Proof. intros H. destruct (get_is_Some ir.(nodes) id H) as [e He]. eauto. Qed.

Lemma children_in_tree ir id e : ordered ir -> get ir.(nodes) id = Some e -> Forall (in_tree ir) (children e).
Proof.
  intros Ho He. specialize (Ho id e He). apply get_lt in He. eapply Forall_impl; [exact Ho|].
  cbn. intros c Hc. unfold in_tree. lia.
Qed.

(** * The cost of a traversal *)

Definition cost (ir : IR) (id : Z) : nat := dfs_events (S (Z.to_nat id)) ir id.

Lemma dfs_events_enough ir fuel : ordered ir -> forall id, 0 <= id -> (Z.to_nat id < fuel)%nat -> dfs_events fuel ir id = cost ir id.
Proof.
  intros Ho. induction fuel as [fuel IH] using lt_wf_ind. intros id Hid Hlt.
  destruct fuel as [|fuel]; [lia|]. unfold cost. cbn [dfs_events].
  destruct (get ir.(nodes) id) as [e|] eqn:He; [|done].
  enough (dfs_events fuel ir <$> children e = dfs_events (Z.to_nat id) ir <$> children e) as -> by done.
  apply Forall_fmap_ext. eapply Forall_impl; [exact (Ho id e He)|]. cbn. intros c Hc.
  rewrite (IH fuel) by lia. destruct (decide (Z.to_nat id = fuel)) as [->|]; [by rewrite (IH fuel) by lia|].
  by rewrite (IH (Z.to_nat id)) by lia.
Qed.

Lemma cost_node ir id e : ordered ir -> get ir.(nodes) id = Some e -> cost ir id = (2 + sum_list (cost ir <$> children e))%nat.
Proof.
  intros Ho He. unfold cost at 1. cbn [dfs_events]. rewrite He.
  enough (dfs_events (Z.to_nat id) ir <$> children e = cost ir <$> children e) as -> by done.
  apply Forall_fmap_ext. eapply Forall_impl; [exact (Ho id e He)|]. cbn. intros c Hc.
  apply dfs_events_enough; [done|lia|lia].
Qed.

Definition event_cost (ir : IR) (evt : Event) : nat := match evt with Enter id _ => cost ir id | Leave _ _ => 1 end.
Definition stack_cost (ir : IR) (stack : list Event) : nat := sum_list (event_cost ir <$> stack).

(** The stack once an event is taken from it. *)
Definition after (evt : Event) (e : Expr.t) (stack : list Event) : list Event :=
  match evt with
  | Enter id ctx => enters (dfs_children e) ++ Leave id ctx :: stack
  | Leave _ _ => stack
  end.

Definition stack_ok (ir : IR) (stack : list Event) : Prop := Forall (fun evt => in_tree ir (event_expr evt)) stack.

Lemma cost_enters ir cs : event_cost ir <$> enters cs = cost ir <$> cs.*1.
Proof. unfold enters. rewrite <- !list_fmap_compose. apply list_fmap_ext. intros _ [] _. done. Qed.

Lemma after_cost ir evt e stack : ordered ir -> get ir.(nodes) (event_expr evt) = Some e ->
  (stack_cost ir (after evt e stack) < stack_cost ir (evt :: stack))%nat.
Proof.
  intros Ho He. unfold stack_cost. destruct evt as [id ctx|id ctx]; cbn [after fmap list_fmap sum_list_with event_cost].
  - cbn in He. rewrite fmap_app, cost_enters, (cost_node ir id e Ho He), sum_list_with_app.
    unfold children, Datatypes.id. cbn -[cost]. lia.
  - cbn. lia.
Qed.

Lemma after_ok ir evt e stack : ordered ir -> get ir.(nodes) (event_expr evt) = Some e ->
  stack_ok ir (evt :: stack) -> stack_ok ir (after evt e stack).
Proof.
  intros Ho He Hok. apply Forall_cons in Hok as [Hid Hok]. destruct evt as [id ctx|id ctx]; cbn in *; [|done].
  apply Forall_app; split; [|by constructor].
  unfold enters. apply Forall_fmap. pose proof (children_in_tree ir id e Ho He) as Hc.
  unfold children in Hc. rewrite Forall_fmap in Hc. eapply Forall_impl; [exact Hc|]. by intros [c ctx'].
Qed.

Lemma prune_suffix stack : exists popped, stack = popped ++ prune stack.
Proof.
  induction stack as [|[id ctx|id ctx] stack [popped IH]]; [by exists []| |by exists []].
  cbn. exists (Enter id ctx :: popped). cbn. by rewrite <- IH.
Qed.

Lemma prune_ok ir stack : stack_ok ir stack -> stack_ok ir (prune stack).
Proof. destruct (prune_suffix stack) as [p Hp]. unfold stack_ok. rewrite Hp at 1. by intros [_ ?]%Forall_app. Qed.

Lemma prune_cost ir stack : (stack_cost ir (prune stack) <= stack_cost ir stack)%nat.
Proof.
  destruct (prune_suffix stack) as [p Hp]. unfold stack_cost. rewrite Hp at 2. rewrite fmap_app, sum_list_with_app. lia.
Qed.

Lemma prune_enters cs id ctx stack : prune (enters cs ++ Leave id ctx :: stack) = Leave id ctx :: stack.
Proof. induction cs as [|[c cctx] cs IH]; [done|]. exact IH. Qed.

(** * The rule for loops

    A loop whose body does not panic ends, with an invariant [P] of the stack
    and of the state. *)
Section Rule.
Context {St : Type} (ir : IR) (body : Event -> Expr.t -> St -> res (St * Control)).
Context (P : list Event -> St -> Prop) (Q : St -> Prop).
Hypothesis Hordered : ordered ir.
Hypothesis Hend : forall s, P [] s -> Q s.
Hypothesis Hbody : forall evt e stack s, P (evt :: stack) s -> get ir.(nodes) (event_expr evt) = Some e ->
  exists s' c, body evt e s = Ret (s', c) /\
    match c with Go => P (after evt e stack) s' | Prune => P (prune (after evt e stack)) s' | Break => Q s' end.

Lemma while_dfs_rule fuel stack s : stack_ok ir stack -> (stack_cost ir stack < fuel)%nat -> P stack s ->
  exists s', while_dfs fuel ir body stack s = Ret s' /\ Q s'.
Proof.
  revert stack s. induction fuel as [|fuel IH]; intros stack s Hok Hcost HP; [lia|]. cbn [while_dfs].
  destruct stack as [|evt stack]; [cbn; eauto|].
  destruct (in_tree_get ir (event_expr evt)) as [e He]; [by apply Forall_cons in Hok as [? _]|].
  destruct (Hbody evt e stack s HP He) as (s' & c & Hb & Hc).
  assert (Hn : dfs_next ir (evt :: stack) = Ret (Some (evt, e, after evt e stack))).
  { destruct evt; cbn in He |- *; unfold ir_get; rewrite He; done. }
  rewrite Hn. cbn. rewrite Hb. cbn.
  pose proof (after_cost ir evt e stack Hordered He). pose proof (after_ok ir evt e stack Hordered He Hok).
  pose proof (prune_cost ir (after evt e stack)).
  destruct c; [apply IH; [done|lia|done]|apply IH; [by apply prune_ok|lia|done]|eauto].
Qed.

Lemma while_dfs_start start s : in_tree ir start -> P (dfs_iter start) s ->
  exists s', while_dfs (dfs_fuel ir start) ir body (dfs_iter start) s = Ret s' /\ Q s'.
Proof.
  intros Hin HP. apply while_dfs_rule; [by constructor|unfold stack_cost, dfs_fuel, dfs_iter; cbn; unfold cost; cbn; lia|done].
Qed.
End Rule.

(** * The order of the events *)

(** The expressions that an expression is made of, in the order in which the
    source writes them and with the context that they are in. This is read off
    the constructors of [Expr], not off [dfs_common]; the value of an expression
    depends on no others ([EvalProps.operands_parts]). *)
Definition in_context (ctx : EventContext.t) (ids : list Z) : list (Z * EventContext.t) := (fun id => (id, ctx)) <$> ids.

Definition quantifier_parts (q : Quantifier.t) : list Z :=
  match q with
  | Quantifier.None | Quantifier.All | Quantifier.Any => []
  | Quantifier.Percentage e | Quantifier.Expr e => [e]
  end.

Definition range_parts (r : Range) : list Z := let '{| lower_bound := lo; upper_bound := hi |} := r in [lo; hi].

Definition anchor_parts (a : MatchAnchor.t) : list Z :=
  match a with
  | MatchAnchor.None => []
  | MatchAnchor.At offset => [offset]
  | MatchAnchor.In range => range_parts range
  end.

Definition iterable_parts (i : Iterable.t) : list Z :=
  match i with
  | Iterable.Range range => range_parts range
  | Iterable.ExprTuple items => items
  | Iterable.Expr e => [e]
  end.

Definition parts (e : Expr.t) : list (Z * EventContext.t) :=
  match e with
  | Expr.Const _ | Expr.Filesize | Expr.Symbol _ => []
  | Expr.Not x | Expr.Defined x | Expr.Minus _ x | Expr.BitwiseNot x | Expr.MatchesMany x _ =>
      in_context EventContext.None [x]
  | Expr.Eq x y | Expr.Ne x y | Expr.Ge x y | Expr.Gt x y | Expr.Le x y | Expr.Lt x y
  | Expr.Shl x y | Expr.Shr x y | Expr.BitwiseAnd x y | Expr.BitwiseOr x y | Expr.BitwiseXor x y
  | Expr.Contains x y | Expr.IContains x y | Expr.StartsWith x y | Expr.IStartsWith x y
  | Expr.EndsWith x y | Expr.IEndsWith x y | Expr.IEquals x y | Expr.Matches x y | Expr.Lookup _ x y =>
      in_context EventContext.None [x; y]
  | Expr.And xs | Expr.Or xs | Expr.Add _ xs | Expr.Sub _ xs | Expr.Mul _ xs | Expr.Div _ xs | Expr.Mod xs =>
      in_context EventContext.None xs
  | Expr.PatternMatch _ anchor | Expr.PatternMatchVar _ anchor => in_context EventContext.None (anchor_parts anchor)
  | Expr.PatternCount _ (Some range) | Expr.PatternCountVar _ (Some range) => in_context EventContext.None (range_parts range)
  | Expr.PatternCount _ None | Expr.PatternCountVar _ None => []
  | Expr.PatternOffset _ (Some x) | Expr.PatternOffsetVar _ (Some x)
  | Expr.PatternLength _ (Some x) | Expr.PatternLengthVar _ (Some x) => in_context EventContext.None [x]
  | Expr.PatternOffset _ None | Expr.PatternOffsetVar _ None
  | Expr.PatternLength _ None | Expr.PatternLengthVar _ None => []
  | Expr.FieldAccess _ xs => in_context EventContext.FieldAccess xs
  | Expr.FuncCall (Some object) _ args => in_context EventContext.None (object :: args)
  | Expr.FuncCall None _ args => in_context EventContext.None args
  | Expr.OfExprTuple q items _ anchor => in_context EventContext.None (quantifier_parts q ++ items ++ anchor_parts anchor)
  | Expr.OfPatternSet q _ _ anchor => in_context EventContext.None (quantifier_parts q ++ anchor_parts anchor)
  | Expr.ForOf q _ _ body => in_context EventContext.None (quantifier_parts q) ++ in_context EventContext.Body [body]
  | Expr.ForIn q _ _ iterable body =>
      in_context EventContext.None (quantifier_parts q ++ iterable_parts iterable) ++ in_context EventContext.Body [body]
  | Expr.With _ declarations body =>
      in_context EventContext.WithDeclaration declarations.*2 ++ in_context EventContext.Body [body]
  end.

(** The two places where [dfs_common] departs from that order: the expression of
    a percentage is not pushed, and the items of an [of] are pushed
    without [rev], so that they come backwards. *)
Definition no_percentage (q : Quantifier.t) : Quantifier.t :=
  match q with Quantifier.Percentage _ => Quantifier.None | q => q end.

Definition as_visited (e : Expr.t) : Expr.t :=
  match e with
  | Expr.OfExprTuple q items for_vars anchor => Expr.OfExprTuple (no_percentage q) (reverse items) for_vars anchor
  | Expr.OfPatternSet q items for_vars anchor => Expr.OfPatternSet (no_percentage q) items for_vars anchor
  | Expr.ForOf q for_vars pattern_set body => Expr.ForOf (no_percentage q) for_vars pattern_set body
  | Expr.ForIn q variables for_vars iterable body => Expr.ForIn (no_percentage q) variables for_vars iterable body
  | e => e
  end.

Definition visited (e : Expr.t) : list (Z * EventContext.t) := parts (as_visited e).

Lemma no_percentage_parts q : quantifier_parts (no_percentage q) = quantifier_children q.
Proof. by destruct q. Qed.

Lemma range_parts_children r : range_parts r = range_children r.
Proof. by destruct r. Qed.

Lemma anchor_parts_children a : anchor_parts a = anchor_children a.
Proof. by destruct a as [| |[]]. Qed.

Lemma iterable_parts_children i : iterable_parts i = iterable_children i.
Proof. by destruct i as [[]| |]. Qed.

(** What [dfs_common] pushes is what the two departures leave. *)
Lemma dfs_children_visited e : dfs_children e = visited e.
Proof.
  unfold visited. destruct e; cbn [as_visited parts dfs_children]; try done;
    rewrite ?no_percentage_parts, ?anchor_parts_children, ?iterable_parts_children; try done.
  all: match goal with
    | |- context [from_option _ _ ?o] => by destruct o as [[]|]
    | |- context [option_list ?o] => by destruct o
    end.
Qed.

(** The events of the recursive traversal that goes from each expression
    to those that [kids] lists. *)
Section Traversal.
Context (kids : Expr.t -> list (Z * EventContext.t)).

Fixpoint traversal (fuel : nat) (ir : IR) (id : Z) (ctx : EventContext.t) : list Event :=
  match fuel with
  | O => []
  | S fuel =>
      Enter id ctx ::
      concat ((fun '(c, cctx) => traversal fuel ir c cctx) <$> from_option kids [] (get ir.(nodes) id)) ++
      [Leave id ctx]
  end.

(** The fuel is enough, as the parts of an expression come before it. *)
Definition events_of (ir : IR) (id : Z) (ctx : EventContext.t) : list Event := traversal (S (Z.to_nat id)) ir id ctx.

Context (ir : IR) (Ho : forall id e, get ir.(nodes) id = Some e -> Forall (fun c => 0 <= c < id) (kids e).*1).

Lemma traversal_enough fuel : forall id ctx, 0 <= id -> (Z.to_nat id < fuel)%nat ->
  traversal fuel ir id ctx = events_of ir id ctx.
Proof.
  induction fuel as [fuel IH] using lt_wf_ind. intros id ctx Hid Hlt.
  destruct fuel as [|fuel]; [lia|]. unfold events_of. cbn [traversal]. f_equal. f_equal. f_equal.
  destruct (get ir.(nodes) id) as [e|] eqn:He; [|done]. cbn. apply Forall_fmap_ext.
  pose proof (Ho id e He) as Hc. rewrite Forall_fmap in Hc.
  eapply Forall_impl; [exact Hc|]. cbn. intros [c cctx] Hc'. cbn in Hc'.
  rewrite (IH fuel) by lia. symmetry.
  destruct (decide (Z.to_nat id = fuel)) as [->|]; [by rewrite (IH fuel) by lia|].
  by rewrite (IH (Z.to_nat id)) by lia.
Qed.

Lemma events_of_node id ctx e : get ir.(nodes) id = Some e ->
  events_of ir id ctx = Enter id ctx :: concat ((fun '(c, cctx) => events_of ir c cctx) <$> kids e) ++ [Leave id ctx].
Proof.
  intros He. unfold events_of at 1. cbn [traversal]. rewrite He. cbn. do 3 f_equal. apply Forall_fmap_ext.
  pose proof (Ho id e He) as Hc. rewrite Forall_fmap in Hc.
  eapply Forall_impl; [exact Hc|]. cbn. intros [c cctx] Hc'. cbn in Hc'. apply traversal_enough; lia.
Qed.
End Traversal.

Lemma traversal_ext kids kids' ir fuel id ctx :
  (forall id e, get ir.(nodes) id = Some e -> kids e = kids' e) ->
  traversal kids fuel ir id ctx = traversal kids' fuel ir id ctx.
Proof.
  intros H. revert id ctx. induction fuel as [|fuel IH]; intros id ctx; [done|]. cbn [traversal]. do 3 f_equal.
  destruct (get ir.(nodes) id) as [e|] eqn:He; [|done]. cbn. rewrite (H id e He). by apply list_fmap_ext; intros _ [] _.
Qed.

(** The events that a stack stands for. *)
Definition pending (ir : IR) (stack : list Event) : list Event :=
  concat ((fun evt => match evt with Enter id ctx => events_of visited ir id ctx | Leave id ctx => [Leave id ctx] end) <$> stack).

Lemma visited_ordered ir : ordered ir -> forall id e, get ir.(nodes) id = Some e -> Forall (fun c => 0 <= c < id) (visited e).*1.
Proof. intros Ho id e He. rewrite <- dfs_children_visited. exact (Ho id e He). Qed.

Lemma pending_after ir evt e stack : ordered ir -> get ir.(nodes) (event_expr evt) = Some e ->
  pending ir (evt :: stack) = evt :: pending ir (after evt e stack).
Proof.
  intros Ho He. destruct evt as [id ctx|id ctx]; unfold pending; cbn -[events_of]; [|done]. cbn in He.
  rewrite (events_of_node visited ir (visited_ordered ir Ho) id ctx e He), <- dfs_children_visited. cbn -[events_of]. f_equal. rewrite fmap_app, concat_app, <- app_assoc. f_equal.
  unfold enters. rewrite <- list_fmap_compose. f_equal. apply list_fmap_ext. intros _ [] _. done.
Qed.

(** The events that a loop over the iterator sees. *)
Definition collect_events (ir : IR) (start : Z) : res (list Event) :=
  rev ← while_dfs (dfs_fuel ir start) ir (fun evt _ s => Ret (evt :: s, Go)) (dfs_iter start) [];
  Ret (reverse rev).

Lemma collect_events_visited (ir : IR) (start : Z) : ordered ir -> in_tree ir start ->
  collect_events ir start = Ret (events_of visited ir start EventContext.None).
Proof.
  intros Hordered Hin. unfold collect_events.
  destruct (while_dfs_start ir (fun evt _ s => Ret (evt :: s, Go))
              (fun stack s => reverse s ++ pending ir stack = events_of visited ir start EventContext.None)
              (fun s => reverse s = events_of visited ir start EventContext.None) Hordered) with (start := start) (s := @nil Event)
    as (s' & -> & Hs'); [| |done| |cbn; by rewrite Hs'].
  - intros s. unfold pending. cbn. by rewrite app_nil_r.
  - intros evt e stack s HP He. exists (evt :: s), Go. split; [done|]. cbv beta iota.
    rewrite reverse_cons, <- app_assoc. cbn. by rewrite <- pending_after.
  - unfold pending. cbn. by rewrite app_nil_r.
Qed.

(** C38: the iterator of [dfs.rs] ends, and its events are those of the recursive
    traversal of the tree: each expression is entered, then the expressions it is
    made of are traversed in the order of the source, then it is left. There are
    two exceptions, which the first statement spells out, and without which
    (the second statement) the order is that of the source: the expression of a
    percentage ([50% of ...]) is never visited, and the items of an [of] over
    expressions are visited from the last to the first. *)
Theorem dfs_events_exact (ir : IR) (start : Z) (Hordered : ordered ir) (Hin : in_tree ir start) :
  collect_events ir start = Ret (events_of (fun e => parts (as_visited e)) ir start EventContext.None) /\
  ((forall id e, get ir.(nodes) id = Some e -> as_visited e = e) ->
   collect_events ir start = Ret (events_of parts ir start EventContext.None)).
Proof.
  pose proof (collect_events_visited ir start Hordered Hin) as H. split; [exact H|]. intros Hsame.
  rewrite H. f_equal. apply traversal_ext. intros id e He. unfold visited. by rewrite (Hsame id e He).
Qed.

(** * Checks on concrete trees *)

(** A property of all the nodes. *)
Definition all_nodes (ir : IR) (p : Z -> Expr.t -> bool) : bool :=
  forallb (fun '(id, e) => p id e) (enumerate ir.(nodes)).

Lemma all_nodes_get ir p : all_nodes ir p = true -> forall id e, get ir.(nodes) id = Some e -> p id e = true.
Proof.
  intros H id e He. unfold all_nodes in H. rewrite forallb_forall in H.
  apply elem_of_enumerate, list_elem_of_In in He. by apply H in He.
Qed.

Lemma ordered_check ir : all_nodes ir (fun id e => forallb (fun c => (0 <=? c) && (c <? id)) (children e)) = true -> ordered ir.
Proof.
  intros H id e He. pose proof (all_nodes_get _ _ H id e He) as Hc. rewrite forallb_forall in Hc. apply Forall_forall.
  intros c Hin%list_elem_of_In. apply Hc in Hin. bools. lia.
Qed.

(** [a + (b + c)], as in the test [dfs] of the source. *)
Definition dfs_sample : IR :=
  set_root (Some 4) (set_tree
    [Expr.Const (const_integer_from 1); Expr.Const (const_integer_from 2); Expr.Const (const_integer_from 2);
     Expr.Add false [1; 2]; Expr.Add false [0; 3]]
    [4; 3; 3; 4; ExprId_none] ir_new).

Example dfs_sample_events : map event_expr (events_of parts dfs_sample 4 EventContext.None) = [4; 0; 0; 3; 1; 1; 2; 2; 3; 4].
Proof. reflexivity. Qed.

(** [50% of (a, b, c)] with the percentage in node 0: it is not visited, and
    the items are visited backwards. *)
Definition percentage_sample : IR :=
  let v := Var.Build_t 1 Ty.Integer in
  set_root (Some 4) (set_tree
    [Expr.Const (const_integer_from 50); Expr.Filesize; Expr.Filesize; Expr.Filesize;
     Expr.OfExprTuple (Quantifier.Percentage 0) [1; 2; 3]
       {| fv_n := v 0; fv_i := v 1; fv_max_count := v 2; fv_count := v 3; fv_item := v 4 |} MatchAnchor.None]
    [4; 4; 4; 4; ExprId_none] ir_new).

Example percentage_sample_events :
  (events ← collect_events percentage_sample 4; Ret (map event_expr events)) = Ret [4; 3; 3; 2; 2; 1; 1; 4] /\
  map event_expr (events_of parts percentage_sample 4 EventContext.None) = [4; 0; 0; 1; 1; 2; 2; 3; 3; 4].
Proof. split; vm_compute; reflexivity. Qed.

Lemma dfs_events_exact_witness :
  ordered dfs_sample /\ (forall id e, get dfs_sample.(nodes) id = Some e -> as_visited e = e) /\
  collect_events dfs_sample 4 = Ret (events_of parts dfs_sample 4 EventContext.None).
Proof.
  assert (H : ordered dfs_sample) by (apply ordered_check; vm_compute; reflexivity).
  assert (Hs : forall id e, get dfs_sample.(nodes) id = Some e -> as_visited e = e).
  { intros id e He. pose proof (get_lt _ _ _ He) as Hid. change (len (nodes dfs_sample)) with 5 in Hid.
    assert (id = 0 \/ id = 1 \/ id = 2 \/ id = 3 \/ id = 4) as [-> | [-> | [-> | [-> | ->]]]] by lia;
      injection He as <-; reflexivity. }
  split; [exact H|]. split; [exact Hs|]. apply (dfs_events_exact dfs_sample 4 H); [|exact Hs].
  unfold in_tree. vm_compute. split; [discriminate|reflexivity].
Defined.

(** * [replace_child] *)

(** The children that [replace_child] leaves as they are. *)
Definition not_replaced (e : Expr.t) : list Z :=
  match e with
  | Expr.OfExprTuple q _ _ _ | Expr.OfPatternSet q _ _ _ => quantifier_children q
  | Expr.ForIn _ _ _ iterable _ => iterable_children iterable
  | _ => []
  end.

Lemma replace_not_in child replacement (ids : list Z) : child ∉ ids -> replace_id child replacement <$> ids = ids.
Proof.
  intros H. rewrite <- (list_fmap_id ids) at 2. apply list_fmap_ext. intros i id Hi. unfold replace_id.
  destruct (id =? child) eqn:E; bools; [|done]. subst. exfalso. by apply H, list_elem_of_lookup_2 with i.
Qed.

Lemma replace_quantifier_children child replacement q :
  quantifier_children (replace_in_quantifier child replacement q) = replace_id child replacement <$> quantifier_children q.
Proof. by destruct q. Qed.

Lemma replace_anchor_children child replacement a :
  anchor_children (replace_in_anchor child replacement a) = replace_id child replacement <$> anchor_children a.
Proof. by destruct a. Qed.

Lemma context_fst (ctx : EventContext.t) (l : list Z) : ((fun id : Z => (id, ctx)) <$> l).*1 = l.
Proof. induction l as [|x l IH]; [done|]. cbn. by rewrite IH. Qed.

Lemma plain_fst l : (plain l).*1 = l.
Proof. apply context_fst. Qed.

(** [replace_child] replaces every occurrence of the child among the children
    of an expression and nothing else, unless the child is in the quantifier of an
    [of] or is the iterable of a loop: there it stays. *)
Theorem replace_child_exact (child replacement : Z) (e : Expr.t) :
  (child ∉ not_replaced e -> children (replace_child child replacement e) = replace_id child replacement <$> children e) /\
  (child ∈ not_replaced e -> child ∈ children (replace_child child replacement e)).
Proof.
  unfold children. split.
  - intros Hn. destruct e; cbn [replace_child dfs_children not_replaced] in *; rewrite ?fmap_app, ?plain_fst,
      ?fmap_app, ?replace_quantifier_children, ?replace_anchor_children, ?fmap_reverse; try done.
    + by destruct range.
    + by destruct range.
    + by destruct index.
    + by destruct index.
    + by destruct index.
    + by destruct index.
    + f_equal. rewrite <- !list_fmap_compose. by apply list_fmap_ext.
    + change (map (replace_id child replacement) operands) with (replace_id child replacement <$> operands).
      rewrite <- !list_fmap_compose. by apply list_fmap_ext.
    + by destruct object.
    + by rewrite (replace_not_in _ _ (quantifier_children _)).
    + by rewrite (replace_not_in _ _ (quantifier_children _)).
    + by rewrite (replace_not_in _ _ (iterable_children _)).
  - intros Hn. destruct e; cbn [replace_child dfs_children not_replaced] in *; try by apply not_elem_of_nil in Hn.
    all: rewrite ?fmap_app, ?plain_fst, !elem_of_app; tauto.
Qed.
