(* ===== verification/IRBounds.v ===== *)
(** What a condition implies about the size of the file and about its first
    bytes, from [lib/src/compiler/ir/mod.rs]: [filesize_bounds] and
    [header_constraints]. *)

From Stdlib Require Import SpecFloat.
From stdpp Require Import strings.
From S2P Require Import Prelude.
From S2P Require Import Hir.
From S2P Require Import Rules.
From S2P Require Import PatternCompiler.
From S2P Require Import Float64.
From S2P Require Import Types.
From S2P Require Import IR.
From S2P Require Import IRDfs.
#[local] Open Scope Z_scope.

(** * The size of the file *)

Definition lower_bound_from_const (c : TypeValue.t) (inclusive : bool) : option Bound.t :=
  match c with
  | TypeValue.Integer (Value.Const v) _ => Some (if inclusive then Bound.Included v else Bound.Excluded v)
  | TypeValue.Float (Value.Const v) =>
      if is_finite v then
        let floor := f64_floor v in
        if inclusive && f64_eq floor v then Some (Bound.Included (f64_to_i64 floor))
        else Some (Bound.Excluded (f64_to_i64 floor))
      else None
  | _ => None
  end.

Definition upper_bound_from_const (c : TypeValue.t) (inclusive : bool) : option Bound.t :=
  match c with
  | TypeValue.Integer (Value.Const v) _ => Some (if inclusive then Bound.Included v else Bound.Excluded v)
  | TypeValue.Float (Value.Const v) =>
      if is_finite v then
        let ceil := f64_ceil v in
        if inclusive && f64_eq ceil v then Some (Bound.Included (f64_to_i64 ceil))
        else Some (Bound.Excluded (f64_to_i64 ceil))
      else None
  | _ => None
  end.

Definition bound_start (b : option Bound.t) (r : FilesizeBounds) : FilesizeBounds := from_option (max_start r) r b.
Definition bound_end (b : option Bound.t) (r : FilesizeBounds) : FilesizeBounds := from_option (min_end r) r b.

(** A comparison of [filesize] with a constant. *)
Definition compare_filesize (ir : IR) (e : Expr.t) (r : FilesizeBounds) : res FilesizeBounds :=
  match e with
  | Expr.Gt lhs rhs =>
      l ← ir_get ir lhs; h ← ir_get ir rhs;
      Ret (match l, h with
           | Expr.Const c, Expr.Filesize => bound_end (upper_bound_from_const c false) r
           | Expr.Filesize, Expr.Const c => bound_start (lower_bound_from_const c false) r
           | _, _ => r
           end)
  | Expr.Ge lhs rhs =>
      l ← ir_get ir lhs; h ← ir_get ir rhs;
      Ret (match l, h with
           | Expr.Const c, Expr.Filesize => bound_end (upper_bound_from_const c true) r
           | Expr.Filesize, Expr.Const c => bound_start (lower_bound_from_const c true) r
           | _, _ => r
           end)
  | Expr.Lt lhs rhs =>
      l ← ir_get ir lhs; h ← ir_get ir rhs;
      Ret (match l, h with
           | Expr.Const c, Expr.Filesize => bound_start (lower_bound_from_const c false) r
           | Expr.Filesize, Expr.Const c => bound_end (upper_bound_from_const c false) r
           | _, _ => r
           end)
  | Expr.Le lhs rhs =>
      l ← ir_get ir lhs; h ← ir_get ir rhs;
      Ret (match l, h with
           | Expr.Const c, Expr.Filesize => bound_start (lower_bound_from_const c true) r
           | Expr.Filesize, Expr.Const c => bound_end (upper_bound_from_const c true) r
           | _, _ => r
           end)
  | _ => Ret r
  end.

Definition is_and (e : Expr.t) : bool := match e with Expr.And _ => true | _ => false end.

Definition filesize_bounds (ir : IR) : res FilesizeBounds :=
  root ← or_panic ir.(root);
  while_dfs (dfs_fuel ir root) ir
    (fun evt e r =>
       match evt with
       | Enter _ _ => r ← compare_filesize ir e r; Ret (r, if is_and e then Go else Prune)
       | Leave _ _ => Ret (r, Go)
       end) (dfs_iter root) filesize_unbounded.

(** * The header *)

(** [BTreeMap<usize, u8>]: the entries by increasing key. *)
Fixpoint bt_get (m : list (Z * Z)) (k : Z) : option Z :=
  match m with
  | [] => None
  | (k', v) :: m => if k' =? k then Some v else bt_get m k
  end.

Fixpoint bt_insert (k v : Z) (m : list (Z * Z)) : list (Z * Z) :=
  match m with
  | [] => [(k, v)]
  | (k', v') :: m' => if k <? k' then (k, v) :: m else (k', v') :: bt_insert k v m'
  end.

(** [constrained_bytes] and [unsatisfiable]. *)
Record Header := { constrained_bytes : list (Z * Z); unsatisfiable : bool }.

Definition constrain (offset value : Z) (h : Header) : Header :=
  match bt_get h.(constrained_bytes) offset with
  | Some v => if v =? value then h else {| constrained_bytes := h.(constrained_bytes); unsatisfiable := true |}
  | None => {| constrained_bytes := bt_insert offset value h.(constrained_bytes); unsatisfiable := h.(unsatisfiable) |}
  end.

Definition add_constraint (offset value : Z) (h : Header) : Header :=
  if h.(unsatisfiable) then h else constrain offset value h.

(** The bytes of the value that a function reads, in the order of their
    offsets, if it is one of the functions that read integers. *)
Definition read_bytes (name : string) (val : Z) : option (list Z) :=
  if bool_decide (name = "uint8" \/ name = "int8" \/ name = "uint8be" \/ name = "int8be") then Some [wrap_u8 val]
  else if bool_decide (name = "uint16" \/ name = "int16") then
    Some [Z.land (wrap_u16 val) 255; Z.land (Z.shiftr (wrap_u16 val) 8) 255]
  else if bool_decide (name = "uint16be" \/ name = "int16be") then
    Some [Z.land (Z.shiftr (wrap_u16 val) 8) 255; Z.land (wrap_u16 val) 255]
  else if bool_decide (name = "uint32" \/ name = "int32") then
    Some [Z.land (wrap_u32 val) 255; Z.land (Z.shiftr (wrap_u32 val) 8) 255;
          Z.land (Z.shiftr (wrap_u32 val) 16) 255; Z.land (Z.shiftr (wrap_u32 val) 24) 255]
  else if bool_decide (name = "uint32be" \/ name = "int32be") then
    Some [Z.land (Z.shiftr (wrap_u32 val) 24) 255; Z.land (Z.shiftr (wrap_u32 val) 16) 255;
          Z.land (Z.shiftr (wrap_u32 val) 8) 255; Z.land (wrap_u32 val) 255]
  else None.

Fixpoint add_constraints (offset : Z) (bytes : list Z) (h : Header) : Header :=
  match bytes with
  | [] => h
  | b :: bytes => add_constraints (offset + 1) bytes (add_constraint offset b h)
  end.

Definition apply_int_read_constraint (ir : IR) (expr val : Z) (h : Header) : res (Header * bool) :=
  e ← ir_get ir expr;
  match e with
  | Expr.FuncCall _ f args =>
      offset ← (match args with [] => Ret None | arg :: _ => e ← ir_get ir arg; Ret (try_as_const_integer e) end);
      match offset with
      | Some offset =>
          if 0 <=? offset then
            match read_bytes (plain_name f) val with
            | Some bytes => Ret (add_constraints offset bytes h, true)
            | None => Ret (h, false)
            end
          else Ret (h, false)
      | None => Ret (h, false)
      end
  | _ => Ret (h, false)
  end.

Definition extract_header_constraints_from_eq (ir : IR) (lhs rhs : Z) (h : Header) : res Header :=
  r ← ir_get ir rhs;
  '(h, done) ← (match try_as_const_integer r with
                | Some val => apply_int_read_constraint ir lhs val h
                | None => Ret (h, false)
                end);
  if done : bool then Ret h
  else
    l ← ir_get ir lhs;
    match try_as_const_integer l with
    | Some val => '(h, _) ← apply_int_read_constraint ir rhs val h; Ret h
    | None => Ret h
    end.

Definition excluded_flags : Z :=
  foldr Z.lor 0 [PatternXor; PatternNocase; PatternWideOnly; PatternWideAndAscii; PatternBase64; PatternBase64Wide].

(** [as_literal_bytes] *)
Definition as_literal_bytes (h : ReHir) : option (list Z) :=
  match h.(inner) with HLiteral bytes => Some bytes | _ => None end.

Definition pattern_bytes (p : Pattern) : option (list Z) :=
  match p with PText l => Some l.(text) | PRegexp r | PHex r => as_literal_bytes r.(re_hir) end.

(** The loop over the bytes of a pattern, which stops at the first conflict. *)
Fixpoint constrain_pattern (i : Z) (bytes : list Z) (h : Header) : Header :=
  match bytes with
  | [] => h
  | b :: bytes =>
      let h := constrain i b h in
      if h.(unsatisfiable) then h else constrain_pattern (i + 1) bytes h
  end.

(** A pattern that is not eligible continues the loop without pruning. *)
Definition visit_header (ir : IR) (pattern_lookup : Z -> res Pattern) (e : Expr.t) (h : Header) : res (Header * Control) :=
  let finish h := if h.(unsatisfiable) then Ret (h, Break) else Ret (h, if is_and e then Go else Prune) in
  match e with
  | Expr.Eq lhs rhs => h ← extract_header_constraints_from_eq ir lhs rhs h; finish h
  | Expr.PatternMatch idx anchor =>
      p ← pattern_lookup idx;
      if negb (Z.land (flags_of p) excluded_flags =? 0) then Ret (h, Go)
      else
        match anchor with
        | MatchAnchor.At offset =>
            e ← ir_get ir offset;
            match try_as_const_integer e, pattern_bytes p with
            | Some 0, Some bytes => finish (constrain_pattern 0 bytes h)
            | _, _ => finish h
            end
        | _ => finish h
        end
  | _ => finish h
  end.

(** The bytes at consecutive offsets from 0: [enumerate] and [map_while]. *)
Fixpoint consecutive (i : Z) (m : list (Z * Z)) : list Z :=
  match m with
  | (offset, byte) :: m => if i =? offset then byte :: consecutive (i + 1) m else []
  | [] => []
  end.

Definition header_constraint (h : Header) : HeaderConstraint :=
  if h.(unsatisfiable) then Unsatisfiable
  else
    match h.(constrained_bytes) with
    | (0, _) :: _ => Constrained (consecutive 0 h.(constrained_bytes))
    | _ => Unconstrained
    end.

Definition header_constraints (ir : IR) (pattern_lookup : Z -> res Pattern) : res HeaderConstraint :=
  root ← or_panic ir.(root);
  h ← while_dfs (dfs_fuel ir root) ir
    (fun evt e h =>
       match evt with
       | Enter _ _ => visit_header ir pattern_lookup e h
       | Leave _ _ => Ret (h, Go)
       end) (dfs_iter root) {| constrained_bytes := []; unsatisfiable := false |};
  Ret (header_constraint h).
