(* ===== verification/AstPatterns.v ===== *)
(** The patterns of a rule, from the syntax tree to the representation that the
    compiler works with: [patterns_from_ast] of
    [lib/src/compiler/ir/ast2ir.rs].

    The source spans are left out. The parser of regular expressions
    ([lib/src/re/parser.rs]) is an argument. *)

From Stdlib Require Import ZifyBool.
From stdpp Require Import strings.
From S2P Require Import Prelude.
From S2P Require Import Atoms.
From S2P Require Import Quality.
From S2P Require Import ByteClass.
From S2P Require Import Hir.
From S2P Require Import Hex2Hir.
From S2P Require Import ScanVerify.
From S2P Require Import StringPool.
From S2P Require Import Base64.
From S2P Require Import Base64Props.
From S2P Require Import Rules.
From S2P Require Import PatternCompiler.
From S2P Require Import IRBounds.
#[local] Open Scope Z_scope.

(** * The syntax tree

    [parser/src/ast/mod.rs] *)

Module PatternModifier.

(** The alphabet of base64 patterns is a literal without escape sequences. *)
Inductive t : Type :=
  | Ascii
  | Wide
  | Nocase
  | Private
  | Fullword
  | Base64 (alphabet : option (list Z))
  | Base64Wide (alphabet : option (list Z))
  | Xor (start end_ : Z).

Definition as_text (m : t) : string :=
  match m with
  | Ascii => "ascii"
  | Wide => "wide"
  | Nocase => "nocase"
  | Private => "private"
  | Fullword => "fullword"
  | Base64 _ => "base64"
  | Base64Wide _ => "base64wide"
  | Xor _ _ => "xor"
  end.

Definition is_ascii (m : t) : bool := match m with Ascii => true | _ => false end.
Definition is_wide (m : t) : bool := match m with Wide => true | _ => false end.
Definition is_nocase (m : t) : bool := match m with Nocase => true | _ => false end.
Definition is_private (m : t) : bool := match m with Private => true | _ => false end.
Definition is_fullword (m : t) : bool := match m with Fullword => true | _ => false end.
Definition is_base64 (m : t) : bool := match m with Base64 _ => true | _ => false end.
Definition is_base64wide (m : t) : bool := match m with Base64Wide _ => true | _ => false end.
Definition is_xor (m : t) : bool := match m with Xor _ _ => true | _ => false end.

End PatternModifier.

(** [PatternModifiers] *)
Notation PatternModifiers := (list PatternModifier.t).

Section Modifiers.
Import PatternModifier.
Implicit Types modifiers : PatternModifiers.

Definition ascii modifiers : option t := List.find is_ascii modifiers.
Definition wide modifiers : option t := List.find is_wide modifiers.
Definition base64 modifiers : option t := List.find is_base64 modifiers.
Definition base64wide modifiers : option t := List.find is_base64wide modifiers.
Definition fullword modifiers : option t := List.find is_fullword modifiers.
Definition nocase modifiers : option t := List.find is_nocase modifiers.
Definition private modifiers : option t := List.find is_private modifiers.
Definition xor modifiers : option t := List.find is_xor modifiers.
End Modifiers.

(** [is_some] *)
Definition is_some {A} (o : option A) : bool := match o with Some _ => true | None => false end.

Record AstRegexp := { regexp_src : list Z; case_insensitive : bool; dot_matches_new_line : bool }.

Module AstPattern.

(** The identifier of the pattern comes first. *)
Inductive t : Type :=
  | Text (identifier : string) (text : list Z) (modifiers : PatternModifiers)
  | Hex (identifier : string) (sub_patterns : HexSubPattern) (modifiers : PatternModifiers)
  | Regexp (identifier : string) (regexp : AstRegexp) (modifiers : PatternModifiers).

Definition identifier (p : t) : string :=
  match p with Text i _ _ | Hex i _ _ | Regexp i _ _ => i end.

Definition modifiers (p : t) : PatternModifiers :=
  match p with Text _ _ m | Hex _ _ m | Regexp _ _ m => m end.

End AstPattern.

(** * The context *)

Inductive CaseSensitiveness : Type := Sensitive | Insensitive.

(** [re::parser::Parser], with mixed greediness not allowed: the case
    sensitiveness that is forced, whether the syntax is relaxed, and the regular
    expression. *)
Class RegexpParser := {
  parser_error : Type;
  parse_regexp : option CaseSensitiveness -> bool -> AstRegexp -> parser_error + ReHir;
}.

Inductive Warning : Type :=
  | ConsecutiveJumps (identifier : string) (jump : HexJump)
  | TextPatternAsHex (literal : list Z)
  | RedundantCaseModifier
  | DuplicatePatternValue (existing : string).

(** [Warning::code] *)
Definition warning_code (w : Warning) : string :=
  match w with
  | ConsecutiveJumps _ _ => "consecutive_jumps"
  | TextPatternAsHex _ => "text_as_hex"
  | RedundantCaseModifier => "redundant_modifier"
  | DuplicatePatternValue _ => "duplicate_pattern_value"
  end.

(** The warnings that are suppressed in a span of the source are a predicate,
    since spans are left out. *)
Record Warnings := {
  w_warnings : list Warning;
  max_warnings : option Z;
  disabled_warnings : list string;
  suppressed : Warning -> bool;
}.

Definition warnings_add (w : Warning) (ws : Warnings) : Warnings :=
  if len ws.(w_warnings) <? default usize_MAX ws.(max_warnings) then
    if negb (bool_decide (warning_code w ∈ ws.(disabled_warnings))) && negb (ws.(suppressed) w) then
      {| w_warnings := ws.(w_warnings) ++ [w]; max_warnings := ws.(max_warnings);
         disabled_warnings := ws.(disabled_warnings); suppressed := ws.(suppressed) |}
    else ws
  else ws.

(** A pattern of the rule, with its identifier. *)
Definition named_pattern : Type := string * PatternInRule.

(** The part of [CompileContext] that the patterns use. *)
Record PatternContext := {
  current_rule_patterns : list named_pattern;
  warnings : Warnings;
  relaxed_re_syntax : bool;
}.

Definition add_warning (w : Warning) (ctx : PatternContext) : PatternContext :=
  {| current_rule_patterns := ctx.(current_rule_patterns); warnings := warnings_add w ctx.(warnings);
     relaxed_re_syntax := ctx.(relaxed_re_syntax) |}.

Definition push_pattern (p : named_pattern) (ctx : PatternContext) : PatternContext :=
  {| current_rule_patterns := ctx.(current_rule_patterns) ++ [p]; warnings := ctx.(warnings);
     relaxed_re_syntax := ctx.(relaxed_re_syntax) |}.

Definition MAX_PATTERNS_PER_RULE : Z := 100000.

Section FromAst.
Context {E : Type} {B64 : Base64 E} {CB : ClassBytesOps} {RS : RegexSyntax} {HX : HexSyntax} {RP : RegexpParser}.

(** [CompileError], as far as patterns cause it. *)
Inductive PatternError : Type :=
  | DuplicatePattern (identifier : string)
  | TooManyPatterns
  | DuplicateModifier
  | InvalidModifier
  | InvalidModifierCombination (modifier1 modifier2 : string)
  | InvalidRange (start end_ : Z)
  | InvalidBase64Alphabet
  | InvalidHexPattern (e : InvalidPattern)
  | PatternTooShort (min_len : Z)
  | InvalidRegexpPattern (e : parser_error).

(** * Text patterns *)

Definition set_if (condition : bool) (flag flags : Z) : Z := if condition then Z.lor flags flag else flags.

Definition invalid_combinations (modifiers : PatternModifiers)
  : list (string * option PatternModifier.t * string * option PatternModifier.t) :=
  [("xor"%string, xor modifiers, "nocase"%string, nocase modifiers);
   ("base64"%string, base64 modifiers, "nocase"%string, nocase modifiers);
   ("base64wide"%string, base64wide modifiers, "nocase"%string, nocase modifiers);
   ("base64"%string, base64 modifiers, "fullword"%string, fullword modifiers);
   ("base64wide"%string, base64wide modifiers, "fullword"%string, fullword modifiers);
   ("base64"%string, base64 modifiers, "xor"%string, xor modifiers);
   ("base64wide"%string, base64wide modifiers, "xor"%string, xor modifiers)].

Definition check_combinations (modifiers : PatternModifiers) : PatternError + unit :=
  match List.find (fun '(_, modifier1, _, modifier2) => is_some modifier1 && is_some modifier2)
          (invalid_combinations modifiers) with
  | Some (name1, _, name2, _) => inl (InvalidModifierCombination name1 name2)
  | None => inr tt
  end.

(** The flags [WideAndAscii] and [WideOnly] of text and regular expressions. *)
Definition wide_flags (modifiers : PatternModifiers) (flags : Z) : Z :=
  if is_some (wide modifiers) then
    Z.lor flags (if is_some (ascii modifiers) then PatternWideAndAscii else PatternWideOnly)
  else flags.

(** [flags], and [xor_range]. *)
Definition xor_range_of (modifiers : PatternModifiers) (flags : Z) : PatternError + (Z * option (Z * Z)) :=
  match xor modifiers with
  | Some (PatternModifier.Xor start end_) =>
      if end_ <? start then inl (InvalidRange start end_)
      else inr (Z.lor flags PatternXor, Some (start, end_))
  | _ => inr (flags, None)
  end.

(** [base64::alphabet::Alphabet::new] fails when there is no engine for the
    alphabet. *)
Definition validate_alphabet (alphabet : option (list Z)) : PatternError + option (list Z) :=
  match alphabet with
  | None => inr None
  | Some a => if is_some (engine_of_alphabet a) then inr (Some a) else inl InvalidBase64Alphabet
  end.

Definition base64_alphabet_of (modifiers : PatternModifiers) (flags : Z) : PatternError + (Z * option (list Z)) :=
  match base64 modifiers with
  | Some (PatternModifier.Base64 alphabet) =>
      match validate_alphabet alphabet with
      | inl e => inl e
      | inr a => inr (Z.lor flags PatternBase64, a)
      end
  | _ => inr (flags, None)
  end.

Definition base64wide_alphabet_of (modifiers : PatternModifiers) (flags : Z) : PatternError + (Z * option (list Z)) :=
  match base64wide modifiers with
  | Some (PatternModifier.Base64Wide alphabet) =>
      match validate_alphabet alphabet with
      | inl e => inl e
      | inr a => inr (Z.lor flags PatternBase64Wide, a)
      end
  | _ => inr (flags, None)
  end.

Definition min_text_len (modifiers : PatternModifiers) : Z :=
  if is_some (base64 modifiers) then 3 else if is_some (base64wide modifiers) then 3 else 1.

(** [starts_with("$_")] *)
Definition pattern_in_rule (identifier : string) (p : Pattern) : named_pattern :=
  (identifier,
   {| identifier_starts_with_underscore := String.prefix "$_" identifier; pattern := p;
      in_use := false; fast_scan_allowed := true |}).

Definition and_also {A B} (r : PatternError + A) (f : A -> PatternError + B) : PatternError + B :=
  match r with inl e => inl e | inr a => f a end.

Definition text_pattern_from_ast (identifier : string) (text : list Z) (modifiers : PatternModifiers)
  : PatternError + named_pattern :=
  and_also (check_combinations modifiers) (fun _ =>
  let flags := wide_flags modifiers 0 in
  let flags := set_if (is_some (nocase modifiers)) PatternNocase flags in
  let flags := set_if (is_some (fullword modifiers)) PatternFullword flags in
  let flags := set_if (is_some (private modifiers)) PatternPrivate flags in
  and_also (xor_range_of modifiers flags) (fun '(flags, xor_range) =>
  and_also (base64_alphabet_of modifiers flags) (fun '(flags, base64_alphabet) =>
  and_also (base64wide_alphabet_of modifiers flags) (fun '(flags, base64wide_alphabet) =>
  if len text <? min_text_len modifiers then inl (PatternTooShort (min_text_len modifiers))
  else
    inr (pattern_in_rule identifier
      (PText {| lit_flags := flags; text := text; lit_anchored_at := None; xor_range := xor_range;
                base64_alphabet := base64_alphabet; base64wide_alphabet := base64wide_alphabet;
                lit_filesize_bounds := filesize_unbounded; lit_header_constraints := Unconstrained |})))))).

(** * Hexadecimal patterns *)

(** The bytes between the space and the tilde, tabs and line breaks. A literal
    with other bytes is not valid UTF-8 or has other characters. *)
Definition printable (b : Z) : bool :=
  (0x20 <=? b) && (b <=? 0x7E) || (b =? 0x09) || (b =? 0x0A) || (b =? 0x0D).

Definition hex_pattern_from_ast (identifier : string) (sub_patterns : HexSubPattern)
    (modifiers : PatternModifiers) (ctx : PatternContext) : res (PatternContext * (PatternError + named_pattern)) :=
  if negb (forallb PatternModifier.is_private modifiers) then Ret (ctx, inl InvalidModifier)
  else
    let pattern_flags := if bool_decide (modifiers = []) then 0 else PatternPrivate in
    '(jumps, r) ← hex_pattern_hir_from_ast [] sub_patterns;
    let ctx := foldl (fun ctx jump => add_warning (ConsecutiveJumps identifier jump) ctx) ctx jumps in
    match r with
    | inl e => Ret (ctx, inl (InvalidHexPattern e))
    | inr h =>
        let hir := hir_from h in
        let ctx :=
          match as_literal_bytes hir with
          | Some literal => if forallb printable literal then add_warning (TextPatternAsHex literal) ctx else ctx
          | None => ctx
          end in
        Ret (ctx, inr (pattern_in_rule identifier
          (PHex {| re_flags := pattern_flags; re_hir := hir; re_anchored_at := None;
                   re_filesize_bounds := filesize_unbounded; re_header_constraints := Unconstrained |})))
    end.

(** * Regular expressions *)

Definition not_for_regexps (m : PatternModifier.t) : bool :=
  PatternModifier.is_base64 m || PatternModifier.is_base64wide m || PatternModifier.is_xor m.

Definition regexp_pattern_from_ast (identifier : string) (regexp : AstRegexp)
    (modifiers : PatternModifiers) (ctx : PatternContext) : PatternContext * (PatternError + named_pattern) :=
  if existsb not_for_regexps modifiers then (ctx, inl InvalidModifier)
  else
    let flags := wide_flags modifiers 0 in
    let flags := set_if (is_some (fullword modifiers)) PatternFullword flags in
    let flags := set_if (is_some (private modifiers)) PatternPrivate flags in
    let flags := set_if (is_some (nocase modifiers) || regexp.(case_insensitive)) PatternNocase flags in
    let ctx := if is_some (nocase modifiers) && regexp.(case_insensitive)
               then add_warning RedundantCaseModifier ctx else ctx in
    match parse_regexp (if has_flag flags PatternNocase then Some Insensitive else None)
            ctx.(relaxed_re_syntax) regexp with
    | inl e => (ctx, inl (InvalidRegexpPattern e))
    | inr hir =>
        (ctx, inr (pattern_in_rule identifier
          (PRegexp {| re_flags := flags; re_hir := hir; re_anchored_at := None;
                      re_filesize_bounds := filesize_unbounded; re_header_constraints := Unconstrained |})))
    end.

(** * The patterns of a rule *)

(** The loop that inserts the texts of the modifiers in a set. *)
Fixpoint duplicate_modifier (seen : list string) (modifiers : PatternModifiers) : bool :=
  match modifiers with
  | [] => false
  | m :: modifiers =>
      if bool_decide (PatternModifier.as_text m ∈ seen) then true
      else duplicate_modifier (PatternModifier.as_text m :: seen) modifiers
  end.

Definition pattern_from_ast (p : AstPattern.t) (ctx : PatternContext)
  : res (PatternContext * (PatternError + named_pattern)) :=
  if duplicate_modifier [] (AstPattern.modifiers p) then Ret (ctx, inl DuplicateModifier)
  else
    match p with
    | AstPattern.Text identifier text modifiers => Ret (ctx, text_pattern_from_ast identifier text modifiers)
    | AstPattern.Hex identifier sub_patterns modifiers => hex_pattern_from_ast identifier sub_patterns modifiers ctx
    | AstPattern.Regexp identifier regexp modifiers => Ret (regexp_pattern_from_ast identifier regexp modifiers ctx)
    end.

(** What the loop of [patterns_from_ast] does with a pattern. *)
Definition add_pattern (p : named_pattern) (ctx : PatternContext) : PatternContext * (PatternError + unit) :=
  if negb (bool_decide (fst p = "$"%string)) &&
     existsb (fun existing => bool_decide (fst existing = fst p)) ctx.(current_rule_patterns)
  then (ctx, inl (DuplicatePattern (fst p)))
  else
    let ctx :=
      match List.find (fun existing => bool_decide ((snd existing).(pattern) ≡ (snd p).(pattern)))
              ctx.(current_rule_patterns) with
      | Some existing => add_warning (DuplicatePatternValue (fst existing)) ctx
      | None => ctx
      end in
    if len ctx.(current_rule_patterns) =? MAX_PATTERNS_PER_RULE then (ctx, inl TooManyPatterns)
    else (push_pattern p ctx, inr tt).

Fixpoint patterns_from_ast (rule_patterns : list AstPattern.t) (ctx : PatternContext)
  : res (PatternContext * (PatternError + unit)) :=
  match rule_patterns with
  | [] => Ret (ctx, inr tt)
  | pattern_ast :: rule_patterns =>
      '(ctx, r) ← pattern_from_ast pattern_ast ctx;
      match r with
      | inl e => Ret (ctx, inl e)
      | inr p =>
          let '(ctx, r) := add_pattern p ctx in
          match r with
          | inl e => Ret (ctx, inl e)
          | inr _ => patterns_from_ast rule_patterns ctx
          end
      end
  end.
End FromAst.

(** * What the conversion of a text pattern accepts and gives *)

Definition xor_bounds (modifiers : PatternModifiers) : option (Z * Z) :=
  match xor modifiers with Some (PatternModifier.Xor start end_) => Some (start, end_) | _ => None end.

Definition alphabet_of (modifier : option PatternModifier.t) : option (list Z) :=
  match modifier with
  | Some (PatternModifier.Base64 alphabet) | Some (PatternModifier.Base64Wide alphabet) => alphabet
  | _ => None
  end.

(** No modifier is used with another one that excludes it. *)
Definition compatible (modifiers : PatternModifiers) : bool :=
  let any_base64 := is_some (base64 modifiers) || is_some (base64wide modifiers) in
  negb (is_some (xor modifiers) && is_some (nocase modifiers)) &&
  negb (any_base64 && (is_some (nocase modifiers) || is_some (fullword modifiers) || is_some (xor modifiers))).

Lemma compatible_flags modifiers : compatible modifiers = true ->
  let has_base64 := is_some (base64 modifiers) || is_some (base64wide modifiers) in
  (is_some (xor modifiers) = true -> is_some (nocase modifiers) = false /\ has_base64 = false) /\
  (has_base64 = true -> is_some (nocase modifiers) = false /\ is_some (fullword modifiers) = false).
Proof.
  unfold compatible. cbn zeta. destruct (is_some (base64 modifiers)), (is_some (base64wide modifiers)),
    (is_some (xor modifiers)), (is_some (nocase modifiers)), (is_some (fullword modifiers)); done.
Qed.

Section Text.
Context {E : Type} {B64 : Base64 E} {CB : ClassBytesOps} {RS : RegexSyntax} {HX : HexSyntax} {RP : RegexpParser}.

(** The errors of a pattern, whatever the other patterns of the rule. *)
Definition own_error (e : PatternError) : Prop :=
  match e with DuplicatePattern _ | TooManyPatterns => False | _ => True end.

Definition valid_alphabet (alphabet : option (list Z)) : bool :=
  match alphabet with Some a => is_some (engine_of_alphabet a) | None => true end.

Definition text_accepted (text : list Z) (modifiers : PatternModifiers) : bool :=
  compatible modifiers &&
  match xor_bounds modifiers with Some (start, end_) => start <=? end_ | None => true end &&
  valid_alphabet (alphabet_of (base64 modifiers)) && valid_alphabet (alphabet_of (base64wide modifiers)) &&
  (min_text_len modifiers <=? len text).

(** The flags of a text pattern, from the modifiers that it has. *)
Definition text_flags (modifiers : PatternModifiers) : Z :=
  set_if (is_some (base64wide modifiers)) PatternBase64Wide
  (set_if (is_some (base64 modifiers)) PatternBase64
  (set_if (is_some (xor modifiers)) PatternXor
  (set_if (is_some (private modifiers)) PatternPrivate
  (set_if (is_some (fullword modifiers)) PatternFullword
  (set_if (is_some (nocase modifiers)) PatternNocase
  (wide_flags modifiers 0)))))).

Definition text_literal (text : list Z) (modifiers : PatternModifiers) : LiteralPattern :=
  {| lit_flags := text_flags modifiers; text := text; lit_anchored_at := None; xor_range := xor_bounds modifiers;
     base64_alphabet := alphabet_of (base64 modifiers); base64wide_alphabet := alphabet_of (base64wide modifiers);
     lit_filesize_bounds := filesize_unbounded; lit_header_constraints := Unconstrained |}.

Lemma find_some_true {A} (f : A -> bool) l x : List.find f l = Some x -> f x = true.
Proof. by intros [_ H]%List.find_some. Qed.

Lemma check_combinations_spec modifiers :
  (compatible modifiers = true -> check_combinations modifiers = inr tt) /\
  (compatible modifiers = false -> exists e, check_combinations modifiers = inl e /\ own_error e).
Proof.
  unfold compatible, check_combinations, invalid_combinations. cbn [List.find].
  destruct (is_some (xor modifiers)), (is_some (nocase modifiers)), (is_some (base64 modifiers)),
    (is_some (base64wide modifiers)), (is_some (fullword modifiers)); split; intros [=]; done || by eexists.
Qed.

Lemma xor_range_spec modifiers flags :
  match xor_bounds modifiers with
  | Some (start, end_) =>
      is_some (xor modifiers) = true /\
      xor_range_of modifiers flags =
        if start <=? end_ then inr (Z.lor flags PatternXor, Some (start, end_)) else inl (InvalidRange start end_)
  | None => is_some (xor modifiers) = false /\ xor_range_of modifiers flags = inr (flags, None)
  end.
Proof.
  unfold xor_bounds, xor_range_of. destruct (xor modifiers) as [m|] eqn:Em; [|done].
  apply find_some_true in Em. destruct m; try done. split; [done|].
  destruct (end_ <? start) eqn:E1, (start <=? end_) eqn:E2; done || lia.
Qed.

Lemma base64_spec modifiers flags :
  base64_alphabet_of modifiers flags =
    if valid_alphabet (alphabet_of (base64 modifiers))
    then inr (set_if (is_some (base64 modifiers)) PatternBase64 flags, alphabet_of (base64 modifiers))
    else inl InvalidBase64Alphabet.
Proof.
  unfold base64_alphabet_of. destruct (base64 modifiers) as [m|] eqn:Em; [|done].
  apply find_some_true in Em. destruct m as [| | | | |[a|]| |]; try done. cbn. by destruct (is_some _).
Qed.

Lemma base64wide_spec modifiers flags :
  base64wide_alphabet_of modifiers flags =
    if valid_alphabet (alphabet_of (base64wide modifiers))
    then inr (set_if (is_some (base64wide modifiers)) PatternBase64Wide flags, alphabet_of (base64wide modifiers))
    else inl InvalidBase64Alphabet.
Proof.
  unfold base64wide_alphabet_of. destruct (base64wide modifiers) as [m|] eqn:Em; [|done].
  apply find_some_true in Em. destruct m as [| | | | | |[a|]|]; try done. cbn. by destruct (is_some _).
Qed.

Lemma text_pattern_spec identifier text modifiers :
  (text_accepted text modifiers = true ->
   text_pattern_from_ast identifier text modifiers =
     inr (pattern_in_rule identifier (PText (text_literal text modifiers)))) /\
  (text_accepted text modifiers = false -> exists e, text_pattern_from_ast identifier text modifiers = inl e /\ own_error e).
Proof.
  unfold text_accepted, text_pattern_from_ast. destruct (check_combinations_spec modifiers) as [C1 C2].
  destruct (compatible modifiers); [rewrite (C1 eq_refl)|destruct (C2 eq_refl) as (e & -> & He); split; [done|by exists e]].
  cbn [and_also]. set (flags := set_if (is_some (private modifiers)) _ _).
  pose proof (xor_range_spec modifiers flags) as Hx. unfold text_literal, text_flags. fold flags.
  destruct (xor_bounds modifiers) as [[start end_]|]; destruct Hx as [-> ->];
    [destruct (start <=? end_); [|split; [done|by eexists]]|]; cbn [and_also andb set_if];
    rewrite base64_spec; (destruct (valid_alphabet _); [|split; [done|by eexists]]); cbn [and_also andb];
    rewrite base64wide_spec; (destruct (valid_alphabet _); [|split; [done|by eexists]]); cbn [and_also andb];
    (destruct (len text <? _) eqn:E1, (_ <=? len text) eqn:E2; bools; try lia; split; done || by eexists).
Qed.

Lemma text_flags_spec modifiers :
  let flags := text_flags modifiers in
  let is_wide := is_some (wide modifiers) in
  let is_ascii := is_some (ascii modifiers) in
  has_flag flags PatternWideOnly = is_wide && negb is_ascii /\
  has_flag flags PatternWideAndAscii = is_wide && is_ascii /\
  has_flag flags PatternNocase = is_some (nocase modifiers) /\
  has_flag flags PatternFullword = is_some (fullword modifiers) /\
  has_flag flags PatternPrivate = is_some (private modifiers) /\
  has_flag flags PatternXor = is_some (xor modifiers) /\
  has_flag flags PatternBase64 = is_some (base64 modifiers) /\
  has_flag flags PatternBase64Wide = is_some (base64wide modifiers) /\
  has_flag flags PatternNonAnchorable = false.
Proof.
  unfold text_flags, wide_flags. cbn zeta.
  destruct (is_some (wide modifiers)), (is_some (ascii modifiers)), (is_some (nocase modifiers)),
    (is_some (fullword modifiers)), (is_some (private modifiers)), (is_some (xor modifiers)),
    (is_some (base64 modifiers)), (is_some (base64wide modifiers)); vm_compute; split_and!; reflexivity.
Qed.

Lemma text_flags_any modifiers :
  has_any_flag (text_flags modifiers) (Z.lor PatternBase64 PatternBase64Wide) =
  is_some (base64 modifiers) || is_some (base64wide modifiers).
Proof.
  unfold text_flags, wide_flags.
  destruct (is_some (wide modifiers)), (is_some (ascii modifiers)), (is_some (nocase modifiers)),
    (is_some (fullword modifiers)), (is_some (private modifiers)), (is_some (xor modifiers)),
    (is_some (base64 modifiers)), (is_some (base64wide modifiers)); reflexivity.
Qed.
End Text.

(** * Compiling the text patterns that are accepted *)

Section Compiles.
Context {T : Type} {ST : SymbolTable T} {STL : SymbolTableLaws T}.
Context {E : Type} {B64 : Base64 E} {BL : Base64Laws E} {IT : Itertools} {IL : ItertoolsLaws}.
Notation Compiler := (Compiler T).
Implicit Types c : Compiler.

(** The pool of literals has room for [k] more. *)
Definition room (k : Z) c : Prop := len (st_strings c.(c_lit_pool).(pool)) + k <= u32_MAX.

Lemma room_le k k' c : k' <= k -> room k c -> room k' c.
Proof. unfold room. lia. Qed.

Lemma intern_room k c bytes : 0 <= k -> room (k + 1) c -> exists c' id, intern c bytes = Ret (c', id) /\ room k c'.
Proof.
  unfold intern, get_or_intern, room. intros Hk Hr.
  destruct (st_check_interned _ bytes) as [i|] eqn:Hc; cbn [mbind res_bind].
  - eexists _, _. split; [done|]. cbn. lia.
  - apply st_check_None in Hc. pose proof (st_intern_spec _ _ Hc) as Hs.
    destruct (st_intern _ bytes) as [[t i]|]; [|lia]. destruct Hs as [Hs _]. cbn [or_panic mbind res_bind].
    eexists _, _. split; [done|]. cbn. rewrite Hs, len_app, len_cons, len_nil. lia.
Qed.

Lemma add_room {A} k c pid sub (atoms : list A) f : room k (fst (add_sub_pattern c pid sub atoms f)) <-> room k c.
Proof. unfold room, add_sub_pattern. by destruct sub as [id [|]| | | | | | | | | | |]. Qed.

Lemma for_each_room {A} n (l : list A) (body : A -> Compiler -> res Compiler) k c :
  0 <= n -> 0 <= k ->
  (forall x k c, x ∈ l -> 0 <= k -> room (k + n) c -> exists c', body x c = Ret c' /\ room k c') ->
  room (k + n * len l) c -> exists c', for_each l body c = Ret c' /\ room k c'.
Proof.
  intros Hn Hk Hb. revert c. induction l as [|x l IH]; intros c Hr.
  - exists c. split; [done|]. by rewrite len_nil, Z.mul_0_r, Z.add_0_r in Hr.
  - rewrite len_cons in Hr. pose proof (len_nonneg l). cbn [for_each].
    destruct (Hb x (k + n * len l) c) as (c1 & -> & Hr1); [by left|nia|by replace (k + n * len l + n) with (k + n * (1 + len l)) by lia|].
    cbn [mbind res_bind]. apply IH; [intros; apply Hb; [by right|done..]|done].
Qed.

Lemma best_atom_total bytes :
  Forall is_u8 bytes -> 1 <= len bytes <= 65536 -> exists a, best_atom_in_bytes bytes = Ret a.
Proof.
  intros Hu [H1 H2]. destruct (best_atom_spec bytes Hu) as (i & j & a & Ea & _); [|done|by exists a].
  intros ->. rewrite len_nil in H1. lia.
Qed.

Lemma form_u8 wide t : Forall is_u8 t -> Forall is_u8 (form wide t).
Proof.
  intros Hu. destruct wide; [|done]. cbn [form]. rewrite make_wide_spec. induction Hu; cbn; [done|].
  constructor; [done|]. constructor; [unfold is_u8; lia|done].
Qed.

(** The texts that are searched for a base64 pattern. *)
Lemma inner_text_bounds e x s :
  Forall is_u8 x -> Forall is_u8 s -> len x < 3 -> 2 <= len s ->
  Forall is_u8 (inner_text e x s) /\ 1 <= len (inner_text e x s) <= 4 * (len s + 4) / 3 + 4.
Proof.
  intros Hx Hs H3 H2. destruct (inner_text_spec e x x s []) as [_ Hl]; try done; [unfold len in H3; lia|].
  assert (Hp : 0 <= len x < 3) by (pose proof (len_nonneg x); lia).
  pose proof (text_len_bounds (len x) (len s) Hp H2) as (B1 & B2 & B3). split.
  - unfold inner_text. apply Forall_slice. rewrite encode_spec, Forall_fmap by (by apply Forall_app).
    eapply Forall_impl; [apply sextets_range; by apply Forall_app|]. intros i Hi. by apply alphabet_spec.
  - rewrite Hl. split; [done|]. assert (Hn : unpadded_len (len x + len s) <= 4 * (len s + 4) / 3 + 3).
    { unfold unpadded_len. destruct (_ =? 0); div_lia. }
    unfold text_len. lia.
Qed.

Lemma c_base64_room k c pid lit_id main alphabet e wide :
  0 <= k -> engine alphabet = Some e -> Forall is_u8 main -> 2 <= len main <= 24000 ->
  room (k + 3) c -> exists c', c_base64 c pid lit_id main alphabet wide = Ret c' /\ room k c'.
Proof.
  intros Hk He Hu Hl Hr. unfold c_base64. rewrite (base64_patterns_spec main alphabet e);
    [|change (Z.shiftl 1 61) with 2305843009213693952; lia|done..].
  cbn [mbind res_bind]. apply (for_each_room 1); [lia|done| |by rewrite !len_cons, len_nil].
  intros [padding b] k0 c0 Hin Hk0 Hr0.
  assert (Hb : Forall is_u8 b /\ 1 <= len b <= 4 * (len main + 4) / 3 + 4).
  { assert (H88 : forall n, Forall is_u8 (replicate n 88)) by apply Forall_88.
    rewrite !elem_of_cons in Hin. destruct Hin as [[= -> ->]|[[= -> ->]|[[= -> ->]|[]%not_elem_of_nil]]];
      apply inner_text_bounds; try done; try lia; [apply (H88 2%nat)|apply (H88 1%nat)]. }
  destruct Hb as [Hbu Hbl].
  assert (Hsub : exists c1 sub, match alphabet with
      | Some a => '(c0, id) ← intern c0 a;
          Ret (c0, (if wide then SubPattern.CustomBase64Wide else SubPattern.CustomBase64) lit_id id padding)
      | None => Ret (c0, (if wide then SubPattern.Base64Wide else SubPattern.Base64) lit_id padding)
      end = Ret (c1, sub) /\ room k0 c1).
  { destruct alphabet as [a|].
    - destruct (intern_room k0 c0 a Hk0 Hr0) as (c1 & id & -> & Hr1). by eexists _, _.
    - eexists _, _. split; [done|]. by eapply room_le; [|exact Hr0]; lia. }
  destruct Hsub as (c1 & sub & -> & Hr1). cbn [mbind res_bind].
  destruct (best_atom_total (form wide b)) as [a Ha]; [by apply form_u8|rewrite len_form|].
  - destruct wide; div_lia.
  - unfold form in Ha. rewrite Ha. cbn [mbind res_bind]. eexists. split; [done|]. by apply add_room.
Qed.

Lemma has_flag_lor_r flags a b : has_flag flags (Z.lor a b) = true -> has_flag flags b = true.
Proof.
  unfold has_flag. rewrite !Z.eqb_eq. intros Hf. apply Z.bits_inj'. intros n Hn.
  pose proof (f_equal (fun z => Z.testbit z n) Hf) as Hb. cbn beta in Hb. rewrite Z.land_spec, Z.lor_spec in Hb.
  rewrite Z.land_spec. destruct (Z.testbit flags n), (Z.testbit a n), (Z.testbit b n); done.
Qed.

(** An assertion on a set of flags holds if one of them is not there. *)
Lemma assert_no_flag flags a b : has_flag flags b = false -> assert (negb (has_flag flags (Z.lor a b))) = Ret tt.
Proof.
  intros Hf. destruct (has_flag flags (Z.lor a b)) eqn:Ea; [|done]. apply has_flag_lor_r in Ea. congruence.
Qed.

Lemma c_main_pattern_room k pid p main a flags c :
  0 <= k -> Forall is_u8 main -> len main <= 24000 ->
  has_flag p.(lit_flags) PatternXor && has_flag p.(lit_flags) PatternNocase = false ->
  (has_flag p.(lit_flags) PatternXor = true -> is_Some p.(xor_range)) ->
  (has_any_flag p.(lit_flags) (Z.lor PatternBase64 PatternBase64Wide) = true -> 2 <= len main) ->
  is_Some (engine p.(base64_alphabet)) -> is_Some (engine p.(base64wide_alphabet)) ->
  room (k + 7) c -> exists c', c_main_pattern pid p (main, a, flags) c = Ret c' /\ room k c'.
Proof.
  intros Hk Hu Hl Hxn Hx Hb [e1 He1] [e2 He2] Hr. unfold c_main_pattern.
  destruct (intern_room (k + 6) c main) as (c1 & id & -> & Hr1); [lia|eapply room_le; [|exact Hr]; lia|].
  cbn [mbind res_bind]. assert (Hr1' : room k c1) by (eapply room_le; [|exact Hr1]; lia).
  destruct (has_flag (lit_flags p) PatternXor) eqn:Ex.
  { rewrite assert_no_flag by done. destruct Hx as [[lo hi] ->]; [done|]. cbn [or_panic mbind res_bind].
    eexists. split; [done|]. by apply add_room. }
  destruct (has_flag (lit_flags p) PatternNocase) eqn:En.
  { rewrite assert_no_flag by done. cbn [mbind res_bind]. eexists. split; [done|]. by apply add_room. }
  destruct (has_any_flag _ _); [|eexists; split; [done|]; by apply add_room].
  rewrite assert_no_flag by done. cbn [mbind res_bind]. specialize (Hb eq_refl).
  assert (Hc2 : exists c2, (if has_flag p.(lit_flags) PatternBase64
         then c_base64 c1 pid id main p.(base64_alphabet) false else Ret c1) = Ret c2 /\ room (k + 3) c2).
  { destruct (has_flag _ PatternBase64).
    - eapply c_base64_room; [lia|done..|eapply room_le; [|exact Hr1]; lia].
    - exists c1. split; [done|]. eapply room_le; [|exact Hr1]; lia. }
  destruct Hc2 as (c2 & -> & Hr2). cbn [mbind res_bind]. destruct (has_flag _ PatternBase64Wide).
  - by eapply c_base64_room.
  - exists c2. split; [done|]. eapply room_le; [|exact Hr2]; lia.
Qed.

Lemma c_literal_pattern_room k pid p c :
  0 <= k -> Forall is_u8 p.(text) -> 1 <= len p.(text) <= 12000 ->
  has_flag p.(lit_flags) PatternXor && has_flag p.(lit_flags) PatternNocase = false ->
  (has_flag p.(lit_flags) PatternXor = true -> is_Some p.(xor_range)) ->
  (has_any_flag p.(lit_flags) (Z.lor PatternBase64 PatternBase64Wide) = true -> 2 <= len p.(text)) ->
  is_Some (engine p.(base64_alphabet)) -> is_Some (engine p.(base64wide_alphabet)) ->
  room (k + 14) c -> exists c', c_literal_pattern pid p c = Ret c' /\ room k c'.
Proof.
  intros Hk Hu Hl Hxn Hx Hb He1 He2 Hr. unfold c_literal_pattern, main_patterns.
  set (flags := full_word_flags _).
  destruct (best_atom_total (form true (text p))) as [aw Eaw]; [by apply form_u8|rewrite len_form; lia|].
  destruct (best_atom_total (text p)) as [aa Eaa]; [done|lia|].
  change (form true (text p)) with (make_wide (text p)) in Eaw. rewrite Eaw, Eaa.
  assert (Hmain : forall wide a f k c, 0 <= k -> room (k + 7) c ->
    exists c', c_main_pattern pid p (form wide (text p), a, f) c = Ret c' /\ room k c').
  { intros wide a f k0 c0 Hk0 Hr0. apply c_main_pattern_room; try done; [by apply form_u8|rewrite len_form; by destruct wide; lia|].
    intros Hbb. specialize (Hb Hbb). rewrite len_form. destruct wide; lia. }
  assert (Hall : forall mps, mps ⊆ [(form true (text p), aw, Z.lor flags FlagWide); (form false (text p), aa, flags)] ->
    len mps <= 2 -> exists c', for_each mps (c_main_pattern pid p) c = Ret c' /\ room k c').
  { intros mps Hin Hlen. apply (for_each_room 7); [lia|done| |eapply room_le; [|exact Hr]; lia].
    intros mp k0 c0 Hmp Hk0 Hr0. apply Hin in Hmp. rewrite !elem_of_cons in Hmp.
    destruct Hmp as [->|[->|[]%not_elem_of_nil]]; by apply Hmain. }
  destruct (has_any_flag (lit_flags p) (Z.lor PatternWideOnly PatternWideAndAscii)), (negb _);
    cbn [mbind res_bind app]; apply Hall; try (rewrite ?len_cons, len_nil; lia); set_solver.
Qed.
End Compiles.

(** * The patterns of a rule *)

Section RulePatterns.
Context {E : Type} {B64 : Base64 E} {RP : RegexpParser}.
Context `{ClassBytesLaws} `{HexSyntaxLaws}.
Implicit Types ctx : PatternContext.

(** The flags of a regular expression. *)
Definition regexp_flags (regexp : AstRegexp) (modifiers : PatternModifiers) : Z :=
  set_if (is_some (nocase modifiers) || regexp.(case_insensitive)) PatternNocase
  (set_if (is_some (private modifiers)) PatternPrivate
  (set_if (is_some (fullword modifiers)) PatternFullword (wide_flags modifiers 0))).

(** A pattern of a rule, from the pattern of the syntax tree that it comes from. *)
Definition from_ast (relaxed : bool) (ast : AstPattern.t) (p : named_pattern) : Prop :=
  p = pattern_in_rule (AstPattern.identifier ast) (snd p).(pattern) /\
  match ast with
  | AstPattern.Text _ text modifiers =>
      text_accepted text modifiers = true /\ (snd p).(pattern) = PText (text_literal text modifiers)
  | AstPattern.Hex _ tokens modifiers =>
      hex_accepted tokens = true /\ exists hir,
        (snd p).(pattern) =
          PHex {| re_flags := if bool_decide (modifiers = []) then 0 else PatternPrivate; re_hir := hir_from hir;
                  re_anchored_at := None; re_filesize_bounds := filesize_unbounded;
                  re_header_constraints := Unconstrained |} /\
        hir_wf hir /\ (hex_ordered tokens = true -> forall data, Forall is_u8 data ->
          forall i j, hmatch hir data i j <-> hex_match data tokens i j)
  | AstPattern.Regexp _ regexp modifiers =>
      exists hir,
        parse_regexp (if is_some (nocase modifiers) || regexp.(case_insensitive) then Some Insensitive else None)
          relaxed regexp = inr hir /\
        (snd p).(pattern) =
          PRegexp {| re_flags := regexp_flags regexp modifiers; re_hir := hir; re_anchored_at := None;
                     re_filesize_bounds := filesize_unbounded; re_header_constraints := Unconstrained |}
  end.

(** What the parser produces, without consecutive jumps whose sums overflow. *)
Definition ast_parsed (ast : AstPattern.t) : bool :=
  match ast with AstPattern.Hex _ tokens _ => hex_parsed tokens && hex_fits tokens | _ => true end.

(** Patterns have different identifiers, but for the anonymous ones, and there
    are not too many. *)
Record context_ok ctx : Prop := {
  identifiers_distinct : NoDup (filter (fun i => i <> "$"%string) ctx.(current_rule_patterns).*1);
  patterns_limit : len ctx.(current_rule_patterns) <= MAX_PATTERNS_PER_RULE;
}.

Lemma jump_warnings_patterns identifier jumps ctx :
  let ctx' := foldl (fun ctx jump => add_warning (ConsecutiveJumps identifier jump) ctx) ctx jumps in
  current_rule_patterns ctx' = current_rule_patterns ctx /\ relaxed_re_syntax ctx' = relaxed_re_syntax ctx.
Proof. cbn zeta. revert ctx. induction jumps as [|j jumps IH]; intros ctx; [done|]. cbn [foldl].
  by destruct (IH (add_warning (ConsecutiveJumps identifier j) ctx)) as [-> ->].
Qed.

Lemma regexp_flag modifiers regexp :
  has_flag (regexp_flags regexp modifiers) PatternNocase = is_some (nocase modifiers) || regexp.(case_insensitive).
Proof.
  unfold regexp_flags, wide_flags. destruct (is_some (wide modifiers)), (is_some (ascii modifiers)),
    (is_some (fullword modifiers)), (is_some (private modifiers)), (_ || _); reflexivity.
Qed.

(** The conversion of a pattern ends, and changes nothing but the warnings. *)
Lemma pattern_from_ast_spec ast ctx :
  ast_parsed ast = true ->
  exists ctx' r, pattern_from_ast ast ctx = Ret (ctx', r) /\
    current_rule_patterns ctx' = current_rule_patterns ctx /\
    relaxed_re_syntax ctx' = relaxed_re_syntax ctx /\
    match r with
    | inr p => from_ast (relaxed_re_syntax ctx) ast p
    | inl e => own_error e
    end.
Proof.
  intros Hp. unfold pattern_from_ast. destruct (duplicate_modifier _ _); [by eexists _, _|].
  destruct ast as [i text ms|i tokens ms|i re ms].
  - eexists _, _. split; [done|]. split; [done|]. split; [done|]. destruct (text_pattern_spec i text ms) as [S1 S2].
    destruct (text_accepted text ms) eqn:Ea; [by rewrite (S1 eq_refl)|].
    by destruct (S2 eq_refl) as (e & -> & He).
  - unfold hex_pattern_from_ast. destruct (negb _); [by eexists _, _|].
    cbn in Hp. apply andb_true_iff in Hp as [Hp Hfits].
    pose proof (hex_tokens_hir_spec (hex_size tokens) [] tokens [] ltac:(lia) Hp) as Hr. unfold converted in Hr.
    unfold hex_pattern_hir_from_ast, hex_sub_pattern_hir_from_ast.
    destruct (hex_tokens_hir _ _ _ _) as [[jumps r]| |]; cbn [outcome_is mbind res_bind] in *; [|congruence|done].
    destruct (jump_warnings_patterns i jumps ctx) as [J1 J2].
    destruct r as [e|hir]; [by eexists _, _|].
    destruct Hr as (Ha & _ & _ & hirs & -> & Hw & Hm). eexists _, _. split; [done|]. split; [|split].
    + destruct (as_literal_bytes _) as [l|]; [destruct (forallb printable l)|]; exact J1.
    + destruct (as_literal_bytes _) as [l|]; [destruct (forallb printable l)|]; exact J2.
    + split; [done|]. split; [done|]. eexists. split; [done|]. split; [by apply syntax_concat_wf|].
      intros Ho data Hu j k. rewrite syntax_concat_spec. cbn [app hmatch]. by apply Hm.
  - unfold regexp_pattern_from_ast. destruct (existsb _ ms); [by eexists _, _|].
    fold (regexp_flags re ms). rewrite regexp_flag. set (c1 := if is_some (nocase ms) && case_insensitive re
      then add_warning RedundantCaseModifier ctx else ctx).
    assert (Hc : current_rule_patterns c1 = current_rule_patterns ctx /\
      relaxed_re_syntax c1 = relaxed_re_syntax ctx) by (subst c1; by destruct (_ && _)).
    destruct Hc as [Hc1 Hc2]. rewrite Hc2.
    destruct (parse_regexp _ _ re) as [e|hir] eqn:Ep; eexists _, _; (split; [done|]); (split; [done|]); (split; [done|]); [done|].
    split; [done|]. by exists hir.
Qed.

Lemma names_snoc (l : list named_pattern) p :
  NoDup (filter (fun i => i <> "$"%string) l.*1) -> (fst p <> "$"%string -> fst p ∉ l.*1) ->
  NoDup (filter (fun i => i <> "$"%string) (l ++ [p]).*1).
Proof.
  intros Hn Hp. rewrite fmap_app, filter_app. cbn. case_decide as Hd.
  - apply NoDup_app. split; [done|]. split; [|apply NoDup_singleton].
    intros i [_ Hi]%list_elem_of_filter Hi'%list_elem_of_singleton. subst i. by apply Hp.
  - by rewrite app_nil_r.
Qed.

(** A pattern is added, unless its identifier is taken or there are too many. *)
Lemma add_pattern_spec p ctx :
  context_ok ctx ->
  let '(ctx', r) := add_pattern p ctx in
  context_ok ctx' /\ relaxed_re_syntax ctx' = relaxed_re_syntax ctx /\
  match r with
  | inr _ => current_rule_patterns ctx' = current_rule_patterns ctx ++ [p]
  | inl e =>
      current_rule_patterns ctx' = current_rule_patterns ctx /\
      match e with
      | DuplicatePattern i => i = fst p /\ i <> "$"%string /\ i ∈ (current_rule_patterns ctx).*1
      | TooManyPatterns => len (current_rule_patterns ctx) = MAX_PATTERNS_PER_RULE
      | _ => False
      end
  end.
Proof.
  intros [Hn Hl]. unfold add_pattern. destruct (negb _ && _) eqn:Ed.
  - split; [done|]. split; [done|]. split; [done|]. split; [done|].
    apply andb_true_iff in Ed as [Ed1%negb_true_iff%bool_decide_eq_false Ed2].
    split; [done|]. apply existsb_exists in Ed2 as (q & Hq & Eq%bool_decide_eq_true). rewrite <- Eq.
    apply list_elem_of_fmap_2. by apply list_elem_of_In.
  - assert (Hp : fst p <> "$"%string -> fst p ∉ (current_rule_patterns ctx).*1).
    { intros Hne (q & Eq & Hq)%list_elem_of_fmap. rewrite bool_decide_false in Ed by done. cbn in Ed.
      apply not_true_iff_false in Ed. apply Ed, existsb_exists. exists q. split; [by apply list_elem_of_In|].
      by apply bool_decide_eq_true. }
    set (c1 := match List.find _ _ with Some _ => _ | None => _ end).
    assert (Hc : current_rule_patterns c1 = current_rule_patterns ctx /\
      relaxed_re_syntax c1 = relaxed_re_syntax ctx) by (subst c1; by destruct (List.find _ _)).
    destruct Hc as [Hc1 Hc2]. rewrite Hc1. destruct (_ =? _) eqn:El.
    + split; [split; by rewrite Hc1|]. split; [done|]. split; [done|]. lia.
    + split; [|split; [done|cbn; by rewrite Hc1]]. split; cbn; rewrite Hc1; [by apply names_snoc|].
      rewrite len_app, len_cons, len_nil. lia.
Qed.

Lemma patterns_from_ast_spec asts ctx :
  context_ok ctx -> forallb ast_parsed asts = true ->
  exists ctx' r added, patterns_from_ast asts ctx = Ret (ctx', r) /\ context_ok ctx' /\
    current_rule_patterns ctx' = current_rule_patterns ctx ++ added /\
    match r with
    | inr _ => Forall2 (from_ast (relaxed_re_syntax ctx)) asts added
    | inl e => exists ok ast rest, asts = ok ++ ast :: rest /\
        Forall2 (from_ast (relaxed_re_syntax ctx)) ok added /\
        match e with
        | DuplicatePattern i =>
            i = AstPattern.identifier ast /\ i <> "$"%string /\ i ∈ (current_rule_patterns ctx').*1
        | TooManyPatterns => len (current_rule_patterns ctx') = MAX_PATTERNS_PER_RULE
        | _ => True
        end
    end.
Proof.
  revert ctx. induction asts as [|ast asts IH]; intros ctx Hok Hp.
  - eexists _, _, []. split; [done|]. split; [done|]. split; [by rewrite app_nil_r|constructor].
  - cbn [forallb] in Hp. apply andb_true_iff in Hp as [Hp1 Hp2]. cbn [patterns_from_ast].
    destruct (pattern_from_ast_spec ast ctx Hp1) as (ctx1 & r & -> & C1 & R1 & Hr). cbn [mbind res_bind].
    assert (Hok1 : context_ok ctx1) by (destruct Hok; split; by rewrite C1).
    destruct r as [e|p].
    { eexists _, _, []. split; [done|]. split; [done|]. split; [by rewrite C1, app_nil_r|].
      exists [], ast, asts. split; [done|]. split; [constructor|]. by destruct e. }
    pose proof (add_pattern_spec p ctx1 Hok1) as Ha. destruct (add_pattern p ctx1) as [ctx2 r].
    destruct Ha as (Hok2 & R2 & Ha). destruct r as [e|[]].
    { eexists _, _, []. split; [done|]. split; [done|]. destruct Ha as [C2 He].
      split; [by rewrite C2, C1, app_nil_r|]. exists [], ast, asts. split; [done|]. split; [constructor|].
      destruct e; try done; rewrite C2; [|done]. destruct Hr as [Hr _].
      apply (f_equal fst) in Hr. cbn in Hr. by rewrite <- Hr. }
    destruct (IH ctx2 Hok2 Hp2) as (ctx' & r & added & -> & Hok' & C' & Hr'). rewrite R2, R1, Ha, C1 in *.
    eexists _, _, (p :: added). split; [done|]. split; [done|]. split; [by rewrite C', <- app_assoc|].
    destruct r as [e|[]]; [|by constructor]. destruct Hr' as (ok & ast' & rest & -> & Hf & He).
    exists (ast :: ok), ast', rest. split; [done|]. split; [by constructor|done].
Qed.
End RulePatterns.

(** * Properties *)

(** C28: a text pattern is accepted exactly when no modifier excludes another
    one, the bounds of [xor] are in order, the base64 alphabets are valid, and the
    text has a byte, or three with base64; the pattern then has the text, and the
    flags, the range of [xor] and the alphabets that its modifiers say. *)
Theorem text_pattern_exact `{Base64 E} {RP : RegexpParser} (identifier : string) (text : list Z)
    (modifiers : PatternModifiers) :
  (text_accepted text modifiers = true <-> exists p, text_pattern_from_ast identifier text modifiers = inr p) /\
  (text_accepted text modifiers = true ->
   exists l, text_pattern_from_ast identifier text modifiers = inr (pattern_in_rule identifier (PText l)) /\
     l = text_literal text modifiers /\
     let has := has_flag l.(lit_flags) in
     let is_wide := is_some (wide modifiers) in
     let is_ascii := is_some (ascii modifiers) in
     has PatternWideOnly = is_wide && negb is_ascii /\ has PatternWideAndAscii = is_wide && is_ascii /\
     has PatternNocase = is_some (nocase modifiers) /\ has PatternFullword = is_some (fullword modifiers) /\
     has PatternPrivate = is_some (private modifiers) /\ has PatternXor = is_some (xor modifiers) /\
     has PatternBase64 = is_some (base64 modifiers) /\ has PatternBase64Wide = is_some (base64wide modifiers) /\
     has PatternNonAnchorable = false).
Proof.
  destruct (text_pattern_spec identifier text modifiers) as [S1 S2]. split.
  - split; [intros Ha; eexists; by apply S1|]. intros [p Hp]. destruct (text_accepted text modifiers); [done|].
    destruct (S2 eq_refl) as (e & He & _). congruence.
  - intros Ha. eexists. split; [by apply S1|]. split; [done|]. apply text_flags_spec.
Qed.

#[export] Instance sample_RegexpParser : RegexpParser := {
  parser_error := unit;
  parse_regexp _ _ re := inr {| inner := HLiteral re.(regexp_src); greedy := None |};
}.

Lemma text_pattern_exact_witness :
  let modifiers := [PatternModifier.Wide; PatternModifier.Xor 1 3] in
  exists l, text_pattern_from_ast "$a" [0x61] modifiers = inr (pattern_in_rule "$a" (PText l)) /\
    l.(xor_range) = Some (1, 3) /\ has_flag l.(lit_flags) PatternWideOnly = true.
Proof.
  cbn zeta. destruct (text_pattern_exact "$a" [0x61] [PatternModifier.Wide; PatternModifier.Xor 1 3]) as [_ H].
  destruct H as (l & E & -> & Hw & _).
  - vm_compute. reflexivity.
  - eexists. split; [exact E|]. split; [reflexivity|exact Hw].
Defined.

(** C24: a text pattern that is accepted, of at most 12000 bytes, has no flags
    that exclude each other: [xor], [nocase] and the base64 ones, and none of the
    latter with [fullword]. It is compiled without panicking, its debug assertions
    included: the checks on modifiers, alphabets and lengths exclude what the
    compiler of literals does not expect, as long as the pool of literals has room
    for the strings of the pattern. *)
Theorem text_pattern_compiles `{STL : SymbolTableLaws T} `{BL : Base64Laws E} `{IL : ItertoolsLaws}
    {RP : RegexpParser} (identifier : string) (text : list Z) (modifiers : PatternModifiers)
    (p : named_pattern) (pattern_id : Z) (c : Compiler T) :
  text_pattern_from_ast identifier text modifiers = inr p ->
  Forall is_u8 text -> len text <= 12000 -> room 14 c ->
  exists l, (snd p).(pattern) = PText l /\
    (let has := has_flag l.(lit_flags) in
     let has_base64 := has PatternBase64 || has PatternBase64Wide in
     (has PatternXor = true -> has PatternNocase = false /\ has_base64 = false) /\
     (has_base64 = true -> has PatternNocase = false /\ has PatternFullword = false)) /\
    exists c', c_literal_pattern pattern_id l c = Ret c'.
Proof.
  intros Hp Hu Hl Hr. destruct (text_pattern_spec identifier text modifiers) as [S1 S2].
  destruct (text_accepted text modifiers) eqn:Ea; [|destruct (S2 eq_refl) as (e & He & _); congruence].
  rewrite (S1 eq_refl) in Hp. injection Hp as <-. exists (text_literal text modifiers).
  destruct (text_flags_spec modifiers) as (_ & _ & F3 & F4 & _ & F6 & F7 & F8 & _). unfold text_accepted in Ea.
  apply andb_true_iff in Ea as [Ea E5]. apply andb_true_iff in Ea as [Ea E4]. apply andb_true_iff in Ea as [Ea E3].
  apply andb_true_iff in Ea as [Ecomp _]. split; [done|]. split.
  { cbn [lit_flags text_literal]. rewrite F3, F4, F6, F7, F8. by apply compatible_flags. }
  assert (Halpha : forall a, valid_alphabet a = true -> is_Some (engine a)).
  { intros [a|]; [|by eexists]. cbn. by destruct (engine_of_alphabet a); [eexists|]. }
  unfold min_text_len in E5.
  destruct (c_literal_pattern_room 0 pattern_id (text_literal text modifiers) c) as (c' & Ec & _); cbn [PatternCompiler.text
    lit_flags xor_range PatternCompiler.base64_alphabet PatternCompiler.base64wide_alphabet text_literal]; try done; try by apply Halpha.
  - destruct (is_some (base64 modifiers)); [lia|]. destruct (is_some (base64wide modifiers)); lia.
  - rewrite F3, F6. destruct (compatible_flags _ Ecomp) as [Hx _]. by destruct (is_some (xor modifiers)); [destruct (Hx eq_refl) as [-> _]|].
  - rewrite F6. unfold xor_bounds. destruct (xor modifiers) as [m|] eqn:Em; [|done].
    apply find_some_true in Em. by destruct m.
  - rewrite text_flags_any. destruct (is_some (base64 modifiers)), (is_some (base64wide modifiers)); done || lia.
  - by exists c'.
Qed.

Lemma text_pattern_compiles_witness :
  exists p l c', text_pattern_from_ast (E := unit) "$a" [0x61; 0x62; 0x63] [PatternModifier.Base64 None] = inr p /\
    (snd p).(pattern) = PText l /\ c_literal_pattern (T := list (list Z)) (E := unit) 0 l (compiler_new false) = Ret c' /\
    len c'.(c_sub_patterns) = 3.
Proof.
  eexists. destruct (text_pattern_compiles (T := list (list Z)) (E := unit) "$a" [0x61; 0x62; 0x63] [PatternModifier.Base64 None]
    _ 0 (compiler_new false) eq_refl) as (l & El & _ & c' & Ec).
  - repeat constructor; unfold is_u8; lia.
  - vm_compute. discriminate.
  - vm_compute. discriminate.
  - exists l, c'. split; [reflexivity|]. split; [exact El|]. split; [exact Ec|].
    injection El as <-. vm_compute in Ec. injection Ec as <-. reflexivity.
Defined.

(** C25: the patterns of a rule, without consecutive jumps of a hexadecimal
    pattern whose sums overflow: the loop ends without panicking, and in every case the
    patterns so far are the ones of the first patterns of the rule, in order, not
    more than the limit, and with different identifiers but for the anonymous ones.
    Each has the text and the flags that its declaration says, or the expression
    of its tokens or of its regular expression. It fails when a pattern has errors,
    when its identifier was already declared or when the limit was reached. *)
Theorem rule_patterns_exact `{Base64 E} {RP : RegexpParser} `{ClassBytesLaws} `{HexSyntaxLaws}
    (asts : list AstPattern.t) (ctx : PatternContext) :
  ctx.(current_rule_patterns) = [] -> forallb ast_parsed asts = true ->
  exists ctx' r, patterns_from_ast asts ctx = Ret (ctx', r) /\
    let added := ctx'.(current_rule_patterns) in
    NoDup (filter (fun i => i <> "$"%string) added.*1) /\ len added <= MAX_PATTERNS_PER_RULE /\
    match r with
    | inr _ => Forall2 (from_ast (relaxed_re_syntax ctx)) asts added
    | inl e => exists ok ast rest, asts = ok ++ ast :: rest /\
        Forall2 (from_ast (relaxed_re_syntax ctx)) ok added /\
        match e with
        | DuplicatePattern i => i = AstPattern.identifier ast /\ i <> "$"%string /\ i ∈ added.*1
        | TooManyPatterns => len added = MAX_PATTERNS_PER_RULE
        | _ => True
        end
    end.
Proof.
  intros H0' Hp. assert (Hok : context_ok ctx).
  { split; rewrite H0'; [constructor|]. rewrite len_nil. unfold MAX_PATTERNS_PER_RULE. lia. }
  destruct (patterns_from_ast_spec asts ctx Hok Hp) as (ctx' & r & added & E' & [Hn Hl] & Ha & Hr).
  rewrite H0' in Ha. cbn [app] in Ha. subst added. by exists ctx', r.
Qed.

Definition sample_context : PatternContext :=
  {| current_rule_patterns := []; relaxed_re_syntax := false;
     warnings := {| w_warnings := []; max_warnings := None; disabled_warnings := []; suppressed _ := false |} |}.

Lemma rule_patterns_exact_witness :
  let asts := [AstPattern.Text "$a" [0x61] []; AstPattern.Hex "$" sample_pattern [PatternModifier.Private];
               AstPattern.Text "$" [0x61] []; AstPattern.Text "$a" [0x62] []] in
  exists ctx', patterns_from_ast (E := unit) asts sample_context = Ret (ctx', inl (DuplicatePattern "$a")) /\
    len ctx'.(current_rule_patterns) = 3 /\
    NoDup (filter (fun i => i <> "$"%string) ctx'.(current_rule_patterns).*1) /\
    ctx'.(warnings).(w_warnings) = [ConsecutiveJumps "$" {| start := Some 1; end_ := None |}; DuplicatePatternValue "$a"].
Proof.
  cbn zeta. destruct (rule_patterns_exact (E := unit)
    [AstPattern.Text "$a" [0x61] []; AstPattern.Hex "$" sample_pattern [PatternModifier.Private];
     AstPattern.Text "$" [0x61] []; AstPattern.Text "$a" [0x62] []] sample_context)
    as (ctx' & r & E & Hn & _ & _).
  - reflexivity.
  - vm_compute. reflexivity.
  - exists ctx'. pose proof E as E'. vm_compute in E'. injection E' as <- <-. split; [exact E|].
    split; [reflexivity|]. split; [exact Hn|reflexivity].
Defined.
