(* ===== verification/Builtins.v ===== *)
(** The functions that conditions call, from [lib/src/wasm/mod.rs]: those that
    read integers of the scanned data and those that query the matches of the
    patterns. *)

From stdpp Require Import gmap strings.
From S2P Require Import Prelude.
From S2P Require Import Matches.
#[local] Open Scope Z_scope.

(** * Functions that read integers *)

(** [gen_int_fn!]: the type that is read and the order of its bytes. *)
Record IntReader := { rd_size : Z; rd_signed : bool; rd_be : bool }.

Definition wrap_signed (size z : Z) : Z :=
  let w := 256 ^ size in (z + w / 2) mod w - w / 2.

(** [<$return_type>::$from_fn(bytes) as i64] *)
Definition from_bytes (r : IntReader) (bytes : list Z) : Z :=
  let z := from_le_bytes (if r.(rd_be) then reverse bytes else bytes) in
  if r.(rd_signed) then wrap_signed r.(rd_size) z else z.

Definition read_int (r : IntReader) (data : list Z) (offset : Z) : option Z :=
  if offset <? 0 then None
  else from_bytes r <$> get_range data offset (offset + r.(rd_size)).

Definition reader (size : Z) (signed be : bool) : IntReader := {| rd_size := size; rd_signed := signed; rd_be := be |}.

(** The functions that the macro defines, by their names. *)
Definition int_reader (name : string) : option IntReader :=
  if bool_decide (name = "uint8") then Some (reader 1 false false)
  else if bool_decide (name = "uint16") then Some (reader 2 false false)
  else if bool_decide (name = "uint32") then Some (reader 4 false false)
  else if bool_decide (name = "uint8be") then Some (reader 1 false true)
  else if bool_decide (name = "uint16be") then Some (reader 2 false true)
  else if bool_decide (name = "uint32be") then Some (reader 4 false true)
  else if bool_decide (name = "int8") then Some (reader 1 true false)
  else if bool_decide (name = "int16") then Some (reader 2 true false)
  else if bool_decide (name = "int32") then Some (reader 4 true false)
  else if bool_decide (name = "int8be") then Some (reader 1 true true)
  else if bool_decide (name = "int16be") then Some (reader 2 true true)
  else if bool_decide (name = "int32be") then Some (reader 4 true true)
  else None.

(** * Functions that query the matches of patterns *)

Definition is_pat_match_at (pm : PatternMatches) (pattern_id offset : Z) : bool :=
  if offset <? 0 then false
  else
    match patterns_get pm pattern_id with
    | Some matches => match search matches offset with inl _ => true | inr _ => false end
    | None => false
    end.

Definition is_pat_match_in (pm : PatternMatches) (pattern_id lower_bound upper_bound : Z) : bool :=
  match patterns_get pm pattern_id with
  | Some matches => 0 <? matches_in_range matches lower_bound upper_bound
  | None => false
  end.

Definition match_found (pm : PatternMatches) (pattern_id : Z) : bool :=
  match patterns_get pm pattern_id with Some matches => 0 <? list_len matches | None => false end.

(** The numbers of [start..=stop]. *)
Definition range_inclusive (start stop : Z) : list Z := seqZ start (stop - start + 1).

(** The number required is converted to an [i32]. *)
Definition pat_range_match (pm : PatternMatches) (pattern_id_start pattern_id_end required : Z) : res bool :=
  if pattern_id_end <? pattern_id_start then Panic
  else if (required <? i32_MIN) || (i32_MAX <? required) then Panic
  else
    Ret (required <=? len (filter (fun id => match_found pm id = true) (range_inclusive pattern_id_start pattern_id_end))).

Definition pat_matches (pm : PatternMatches) (pattern_id : Z) : Z :=
  match patterns_get pm pattern_id with Some matches => list_len matches | None => 0 end.

Definition pat_matches_in (pm : PatternMatches) (pattern_id lower_bound upper_bound : Z) : Z :=
  match patterns_get pm pattern_id with Some matches => matches_in_range matches lower_bound upper_bound | None => 0 end.

(** The index-th match; the first is number 1. *)
Definition nth_match (pm : PatternMatches) (pattern_id index : Z) : option Match :=
  matches ← patterns_get pm pattern_id;
  if index <? 1 then None else list_get matches (index - 1).

Definition pat_length (pm : PatternMatches) (pattern_id index : Z) : option Z :=
  (fun m => Z.max 0 (m_end m - m_start m)) <$> nth_match pm pattern_id index.

Definition pat_offset (pm : PatternMatches) (pattern_id index : Z) : option Z := m_start <$> nth_match pm pattern_id index.
