(* ===== verification/Eval.v ===== *)
(** A reference semantics of conditions: the value of an expression of the tree
    of [IR.v], given the size of the file, the data and the matches of the
    patterns. It says what the code emitted by [lib/src/compiler/emit.rs]
    computes, without memory, blocks and jumps. *)

From Stdlib Require Import SpecFloat.
From stdpp Require Import gmap strings.
From S2P Require Import Prelude.
From S2P Require Import Matches.
From S2P Require Import Float64.
From S2P Require Import Types.
From S2P Require Import IR.
From S2P Require Import Builtins.
#[local] Open Scope Z_scope.

(** * Values and outcomes *)

(** Objects are structures, arrays, maps and regular expressions. *)
Inductive value : Type :=
  | VInt (z : Z)
  | VFloat (f : f64)
  | VBool (b : bool)
  | VStr (s : list Z)
  | VObj (ref : Z).

(** [Undef] is an undefined value, [Trap] ends the evaluation of all the rules,
    and [Stuck] is an expression whose operands do not have the right types. *)
Inductive outcome (A : Type) : Type :=
  | Def (a : A)
  | Undef
  | Trap
  | Stuck
  | NoFuel.
Arguments Def {A} a.
Arguments Undef {A}.
Arguments Trap {A}.
Arguments Stuck {A}.
Arguments NoFuel {A}.

#[export] Instance outcome_ret : MRet outcome := fun A a => Def a.
#[export] Instance outcome_bind : MBind outcome := fun A B f m =>
  match m with Def a => f a | Undef => Undef | Trap => Trap | Stuck => Stuck | NoFuel => NoFuel end.

(** A value, or undefined. *)
Definition of_option {A} (o : option A) : outcome A := match o with Some a => Def a | None => Undef end.

(** The handler of an undefined value. *)
Definition catch {A} (m : outcome A) (handler : A) : outcome A := match m with Undef => Def handler | m => m end.

Definition catch_option {A} (m : outcome A) : outcome (option A) :=
  match m with
  | Def a => Def (Some a) | Undef => Def None | Trap => Trap | Stuck => Stuck | NoFuel => NoFuel
  end.

Definition as_int (v : value) : outcome Z := match v with VInt z => Def z | _ => Stuck end.

(** * Operations *)

Definition wrap_i64 (z : Z) : Z := wrap_isize z.

(** The value of an expression that is used as a condition. *)
Definition to_bool (v : value) : outcome bool :=
  match v with
  | VBool b => Def b
  | VInt z => Def (negb (z =? 0))
  | VFloat f => Def (negb (f64_eq f f64_zero))
  | VStr s => Def (negb (bool_decide (s = [])))
  | VObj _ => Stuck
  end.

Definition to_float (v : value) : outcome f64 :=
  match v with VFloat f => Def f | VInt z => Def (f64_of_i64 z) | _ => Stuck end.

(** An operation between two numbers, on floats if the operation is. *)
Definition arith (is_float : bool) (int_op : Z -> Z -> Z) (float_op : f64 -> f64 -> f64) (a b : value) : outcome value :=
  if is_float then x ← to_float a; y ← to_float b; Def (VFloat (float_op x y))
  else x ← as_int a; y ← as_int b; Def (VInt (wrap_i64 (int_op x y))).

(** Signed division: zero is undefined, and the quotient that is not an [i64]
    traps. *)
Definition div_int (a b : Z) : outcome Z :=
  if b =? 0 then Undef
  else if (a =? i64_MIN) && (b =? -1) then Trap
  else Def (Z.quot a b).

Definition rem_int (a b : Z) : outcome Z := if b =? 0 then Undef else Def (Z.rem a b).

Definition div_op (a b : value) : outcome value :=
  match a, b with
  | VInt x, VInt y => z ← div_int x y; Def (VInt z)
  | _, _ => x ← to_float a; y ← to_float b; Def (VFloat (f64_div x y))
  end.

Definition mod_op (a b : value) : outcome value :=
  x ← as_int a; y ← as_int b; z ← rem_int x y; Def (VInt z).

Definition shift_left (a b : Z) : Z := if b <? 64 then wrap_i64 (Z.shiftl a (b mod 64)) else 0.
Definition shift_right (a b : Z) : Z := if b <? 64 then Z.shiftr a (b mod 64) else 0.

(** Comparisons, on the integers, on the floats and on the strings. A boolean
    is promoted to an integer, except before a float. *)
Record comparison := {
  cmp_int : Z -> Z -> bool;
  cmp_float : f64 -> f64 -> bool;
  cmp_str : list Z -> list Z -> bool;
}.

Fixpoint str_compare (a b : list Z) : Datatypes.comparison :=
  match a, b with
  | [], [] => Datatypes.Eq
  | [], _ => Datatypes.Lt
  | _, [] => Datatypes.Gt
  | x :: a, y :: b => match x ?= y with Datatypes.Eq => str_compare a b | c => c end
  end.

Definition str_lt (a b : list Z) : bool := match str_compare a b with Datatypes.Lt => true | _ => false end.
Definition str_le (a b : list Z) : bool := match str_compare a b with Datatypes.Gt => false | _ => true end.
Definition str_eq (a b : list Z) : bool := bool_decide (a = b).

Definition cmp_eq := {| cmp_int := Z.eqb; cmp_float := f64_eq; cmp_str := str_eq |}.
Definition cmp_ne :=
  {| cmp_int := fun a b => negb (a =? b); cmp_float := fun a b => negb (f64_eq a b); cmp_str := fun a b => negb (str_eq a b) |}.
Definition cmp_lt := {| cmp_int := Z.ltb; cmp_float := f64_lt; cmp_str := str_lt |}.
Definition cmp_le := {| cmp_int := Z.leb; cmp_float := f64_le; cmp_str := str_le |}.
Definition cmp_gt := {| cmp_int := fun a b => b <? a; cmp_float := fun a b => f64_lt b a; cmp_str := fun a b => str_lt b a |}.
Definition cmp_ge := {| cmp_int := fun a b => b <=? a; cmp_float := fun a b => f64_le b a; cmp_str := fun a b => str_le b a |}.

Definition promote (v : value) : value := match v with VBool b => VInt (if b then 1 else 0) | v => v end.

Definition compare (c : comparison) (a b : value) : outcome value :=
  match a, b with
  | VStr x, VStr y => Def (VBool (c.(cmp_str) x y))
  | VFloat _, VFloat _ | VFloat _, VInt _ | VInt _, VFloat _ =>
      x ← to_float a; y ← to_float b; Def (VBool (c.(cmp_float) x y))
  | _, _ => x ← as_int (promote a); y ← as_int (promote b); Def (VBool (c.(cmp_int) x y))
  end.

(** * Quantifiers *)

Inductive quantifier : Type := QNone | QAll | QAny | QCount (k : Z).

(** The number of items for a percentage, rounded up. *)
Definition percentage (n q : Z) : outcome Z :=
  let f := f64_ceil (f64_div (f64_mul (f64_of_i64 n) (f64_of_i64 q)) (f64_of_i64 100)) in
  match f with
  | S754_nan | S754_infinity _ => Trap
  | f => let z := f64_to_i64 f in
         if f64_le (f64_of_i64 i64_MIN) f && f64_lt f (f64_of_i64 i64_MAX) then Def z else Trap
  end.

(** The items are prepared and tested in order, until the result is known; a
    test that is undefined does not match. A count of zero is [QNone]. *)
Fixpoint quantify {A B} (q : quantifier) (count : Z) (prepare : A -> outcome B) (test : B -> outcome bool) (items : list A)
  : outcome bool :=
  match items with
  | [] => Def (match q with QNone | QAll => true | QAny => false | QCount k => k =? 0 end)
  | x :: items =>
      y ← prepare x;
      b ← catch (test y) false;
      match q, b with
      | QNone, true => Def false
      | QAll, false => Def false
      | QAny, true => Def true
      | QCount k, true =>
          if k <=? count + 1 then Def (negb (k =? 0)) else quantify q (count + 1) prepare test items
      | _, _ => quantify q count prepare test items
      end
  end.

(** * Evaluation *)

(** The values of the variables by their index; a variable that is not in the
    map is undefined. *)
Definition env : Type := gmap Z value.

Definition bind_var (v : Var.t) (x : option value) (e : env) : env := partial_alter (fun _ => x) v.(Var.index) e.

Lemma lookup_bind_var v x e i : bind_var v x e !! i = if decide (v.(Var.index) = i) then x else e !! i.
Proof. unfold bind_var, env in *. apply (lookup_partial_alter (M := gmap Z)). Qed.

(** What a condition is evaluated against. [sc_patterns] are the identifiers of
    the patterns of the rule. The rest are functions of the program that are
    not part of the expressions: functions of modules, operations on strings,
    and the expressions that read structures, arrays, maps and other rules. *)
Record Scanned := {
  sc_filesize : Z;
  sc_data : list Z;
  sc_matches : PatternMatches;
  sc_patterns : list Z;
  sc_call : string -> option value -> list value -> option value;
  sc_str : Expr.t -> list Z -> list Z -> bool;
  sc_other : Z -> env -> outcome value;
}.

(** A function of the program that reads an integer, or any other function. *)
Definition call_function (s : Scanned) (f : FuncSignature) (object : option value) (args : list value) : outcome value :=
  match object, int_reader (plain_name f), args with
  | None, Some r, [VInt offset] => of_option (VInt <$> read_int r s.(sc_data) offset)
  | _, _, _ => of_option (s.(sc_call) f.(mangled_name) object args)
  end.

Section Eval.
Context (ir : IR) (s : Scanned).

Definition const_value (v : TypeValue.t) : outcome value :=
  match v with
  | TypeValue.Integer (Value.Const v) _ => Def (VInt v)
  | TypeValue.Float (Value.Const v) => Def (VFloat v)
  | TypeValue.Bool (Value.Const v) => Def (VBool v)
  | TypeValue.String (Value.Const v) _ => Def (VStr v)
  | _ => Stuck
  end.

Definition get_node (id : Z) : outcome Expr.t := match get ir.(nodes) id with Some e => Def e | None => Stuck end.

Definition pattern_id (idx : Z) : outcome Z := match get s.(sc_patterns) idx with Some id => Def id | None => Stuck end.

Definition var_value (v : Var.t) (e : env) : outcome value := of_option (e !! v.(Var.index)).

(** The expressions are evaluated by [eval], and as conditions. *)
Section Operators.
Context (eval : env -> Z -> outcome value).

Definition eval_bool (e : env) (id : Z) : outcome bool := v ← eval e id; to_bool v.
Definition eval_int (e : env) (id : Z) : outcome Z := v ← eval e id; as_int v.

Fixpoint eval_list (e : env) (ids : list Z) : outcome (list value) :=
  match ids with
  | [] => Def []
  | id :: ids => v ← eval e id; vs ← eval_list e ids; Def (v :: vs)
  end.

(** An operand that is undefined makes a conjunction false. *)
Fixpoint eval_and (e : env) (ids : list Z) : outcome bool :=
  match ids with
  | [] => Stuck
  | [id] => catch (eval_bool e id) false
  | id :: ids => b ← catch (eval_bool e id) false; if b : bool then eval_and e ids else Def false
  end.

Fixpoint eval_or (e : env) (ids : list Z) : outcome bool :=
  match ids with
  | [] => Stuck
  | [id] => catch (eval_bool e id) false
  | id :: ids => b ← catch (eval_bool e id) false; if b : bool then Def true else eval_or e ids
  end.

(** From left to right. *)
Fixpoint eval_fold (op : value -> value -> outcome value) (e : env) (acc : value) (ids : list Z) : outcome value :=
  match ids with
  | [] => Def acc
  | id :: ids => v ← eval e id; acc ← op acc v; eval_fold op e acc ids
  end.

Definition eval_operands (op : value -> value -> outcome value) (first : value -> outcome value) (e : env) (ids : list Z)
  : outcome value :=
  match ids with
  | [] => Stuck
  | id :: ids => v ← eval e id; v ← first v; eval_fold op e v ids
  end.

Definition eval_arith (is_float : bool) int_op float_op (e : env) (ids : list Z) : outcome value :=
  eval_operands (arith is_float int_op float_op)
    (fun v => if is_float then f ← to_float v; Def (VFloat f) else z ← as_int v; Def (VInt z)) e ids.

Definition eval_ints (f : Z -> Z -> Z) (e : env) (lhs rhs : Z) : outcome value :=
  a ← eval_int e lhs; b ← eval_int e rhs; Def (VInt (f a b)).

Definition eval_compare (c : comparison) (e : env) (lhs rhs : Z) : outcome value :=
  a ← eval e lhs; b ← eval e rhs; compare c a b.

Definition eval_str (e : env) (op : Expr.t) (lhs rhs : Z) : outcome value :=
  a ← eval e lhs; b ← eval e rhs;
  match a, b with VStr x, VStr y => Def (VBool (s.(sc_str) op x y)) | _, _ => Stuck end.

(** ** Patterns *)

Definition pattern_var (symbol : Symbol.t) (e : env) : outcome Z :=
  match symbol with Symbol.Var v _ => x ← var_value v e; as_int x | _ => Stuck end.

Definition eval_match (e : env) (id : Z) (anchor : MatchAnchor.t) : outcome bool :=
  match anchor with
  | MatchAnchor.None => Def (match_found s.(sc_matches) id)
  | MatchAnchor.At offset => o ← eval_int e offset; Def (is_pat_match_at s.(sc_matches) id o)
  | MatchAnchor.In r =>
      lo ← eval_int e r.(lower_bound); hi ← eval_int e r.(upper_bound);
      Def (is_pat_match_in s.(sc_matches) id lo hi)
  end.

Definition eval_count (e : env) (id : Z) (range : option Range) : outcome value :=
  match range with
  | None => Def (VInt (pat_matches s.(sc_matches) id))
  | Some r =>
      lo ← eval_int e r.(lower_bound); hi ← eval_int e r.(upper_bound);
      Def (VInt (pat_matches_in s.(sc_matches) id lo hi))
  end.

(** Without an index it is the first match. *)
Definition eval_nth (f : PatternMatches -> Z -> Z -> option Z) (e : env) (id : Z) (index : option Z) : outcome value :=
  i ← (match index with Some index => eval_int e index | None => Def 1 end);
  of_option (VInt <$> f s.(sc_matches) id i).

(** ** Loops *)

Definition eval_quantifier (q : Quantifier.t) (n : Z) (e : env) : outcome quantifier :=
  match q with
  | Quantifier.None => Def QNone
  | Quantifier.All => Def QAll
  | Quantifier.Any => Def QAny
  | Quantifier.Expr k => k ← eval_int e k; Def (QCount k)
  | Quantifier.Percentage p => p ← eval_int e p; k ← percentage n p; Def (QCount k)
  end.

Definition eval_loop {A B} (q : Quantifier.t) (items : list A) (prepare : A -> outcome B) (test : B -> outcome bool) (e : env)
  : outcome value :=
  q ← eval_quantifier q (len items) e;
  b ← quantify q 0 prepare test items;
  Def (VBool b).

(** The items of a range; there are none if a bound is undefined. *)
Definition range_items (e : env) (r : Range) : outcome (list Z) :=
  bounds ← catch_option (hi ← eval_int e r.(upper_bound); lo ← eval_int e r.(lower_bound); Def (lo, hi));
  match bounds with
  | Some (lo, hi) => Def (wrap_i64 <$> seqZ lo (wrap_i64 (wrap_i64 (hi - lo) + 1)))
  | None => Def []
  end.

Fixpoint eval_with (e : env) (declarations : list (Var.t * Z)) : outcome env :=
  match declarations with
  | [] => Def e
  | (v, id) :: declarations => x ← catch_option (eval e id); eval_with (bind_var v x e) declarations
  end.

(** ** Expressions *)

Definition eval_node (e : env) (id : Z) (node : Expr.t) : outcome value :=
  let bool m := b ← m; Def (VBool b) in
  match node with
  | Expr.Const v => const_value v
  | Expr.Filesize => if s.(sc_filesize) <? 0 then Undef else Def (VInt s.(sc_filesize))
  | Expr.Symbol (Symbol.Var v _) => var_value v e
  | Expr.Not operand => bool (b ← eval_bool e operand; Def (negb b))
  | Expr.And operands => bool (eval_and e operands)
  | Expr.Or operands => bool (eval_or e operands)
  | Expr.Defined operand => bool (catch (_ ← eval_bool e operand; Def true) false)
  | Expr.Minus is_float operand =>
      v ← eval e operand;
      if is_float then match v with VFloat f => Def (VFloat (f64_neg f)) | _ => Stuck end
      else z ← as_int v; Def (VInt (wrap_i64 (0 - z)))
  | Expr.Add is_float operands => eval_arith is_float Z.add f64_add e operands
  | Expr.Sub is_float operands => eval_arith is_float Z.sub f64_sub e operands
  | Expr.Mul is_float operands => eval_arith is_float Z.mul f64_mul e operands
  | Expr.Div _ operands => eval_operands div_op Def e operands
  | Expr.Mod operands => eval_operands mod_op Def e operands
  | Expr.BitwiseNot operand => a ← eval_int e operand; Def (VInt (Z.lxor a (-1)))
  | Expr.BitwiseAnd lhs rhs => eval_ints Z.land e lhs rhs
  | Expr.BitwiseOr lhs rhs => eval_ints Z.lor e lhs rhs
  | Expr.BitwiseXor lhs rhs => eval_ints Z.lxor e lhs rhs
  | Expr.Shl lhs rhs => eval_ints shift_left e lhs rhs
  | Expr.Shr lhs rhs => eval_ints shift_right e lhs rhs
  | Expr.Eq lhs rhs => eval_compare cmp_eq e lhs rhs
  | Expr.Ne lhs rhs => eval_compare cmp_ne e lhs rhs
  | Expr.Lt lhs rhs => eval_compare cmp_lt e lhs rhs
  | Expr.Gt lhs rhs => eval_compare cmp_gt e lhs rhs
  | Expr.Le lhs rhs => eval_compare cmp_le e lhs rhs
  | Expr.Ge lhs rhs => eval_compare cmp_ge e lhs rhs
  | Expr.Contains lhs rhs | Expr.IContains lhs rhs | Expr.StartsWith lhs rhs | Expr.IStartsWith lhs rhs
  | Expr.EndsWith lhs rhs | Expr.IEndsWith lhs rhs | Expr.IEquals lhs rhs => eval_str e node lhs rhs
  | Expr.PatternMatch idx anchor => bool (id ← pattern_id idx; eval_match e id anchor)
  | Expr.PatternMatchVar symbol anchor => bool (id ← pattern_var symbol e; eval_match e id anchor)
  | Expr.PatternCount idx range => id ← pattern_id idx; eval_count e id range
  | Expr.PatternCountVar symbol range => id ← pattern_var symbol e; eval_count e id range
  | Expr.PatternOffset idx index => id ← pattern_id idx; eval_nth pat_offset e id index
  | Expr.PatternOffsetVar symbol index => id ← pattern_var symbol e; eval_nth pat_offset e id index
  | Expr.PatternLength idx index => id ← pattern_id idx; eval_nth pat_length e id index
  | Expr.PatternLengthVar symbol index => id ← pattern_var symbol e; eval_nth pat_length e id index
  | Expr.FuncCall object f args =>
      object ← (match object with Some o => v ← eval e o; Def (Some v) | None => Def None end);
      args ← eval_list e args;
      call_function s f object args
  | Expr.With _ declarations body => e ← eval_with e declarations; eval e body
  | Expr.OfPatternSet q items _ anchor =>
      eval_loop q items pattern_id (fun id => eval_match e id anchor) e
  | Expr.OfExprTuple q items _ _ =>
      eval_loop q items (eval_bool e) Def e
  | Expr.ForOf q for_vars items body =>
      eval_loop q items pattern_id (fun id => eval_bool (bind_var for_vars.(fv_item) (Some (VInt id)) e) body) e
  | Expr.ForIn q variables _ (Iterable.Range r) body =>
      match variables with
      | [v] =>
          items ← range_items e r;
          if bool_decide (items = []) then Def (VBool false)
          else eval_loop q items Def (fun z => eval_bool (bind_var v (Some (VInt z)) e) body) e
      | _ => Stuck
      end
  | Expr.ForIn q variables _ (Iterable.ExprTuple items) body =>
      match variables with
      | [v] =>
          eval_loop q items (fun id => catch_option (eval e id)) (fun x => eval_bool (bind_var v x e) body) e
      | _ => Stuck
      end
  | Expr.ForIn _ _ _ (Iterable.Expr _) _ | Expr.Symbol _ | Expr.Matches _ _ | Expr.MatchesMany _ _
  | Expr.FieldAccess _ _ | Expr.Lookup _ _ _ => s.(sc_other) id e
  end.
End Operators.

(** The fuel bounds the depth of the expression. *)
Fixpoint eval (fuel : nat) (e : env) (id : Z) : outcome value :=
  match fuel with
  | O => NoFuel
  | S fuel => node ← get_node id; eval_node (eval fuel) e id node
  end.

(** A condition is true if it is defined and true. *)
Definition condition (fuel : nat) : outcome bool :=
  match ir.(root) with
  | Some root => catch (eval_bool (eval fuel) ∅ root) false
  | None => Stuck
  end.
End Eval.
