(* ===== verification/IRBoundsProps.v ===== *)
(** Soundness of what is derived from a condition: when the condition is true
    the size of the file is within the bounds of [filesize_bounds], and the data
    satisfies the constraint of [header_constraints]. *)

From Stdlib Require Import SpecFloat.
From stdpp Require Import gmap strings.
From S2P Require Import Prelude.
From S2P Require Import Matches.
From S2P Require Import Hir.
From S2P Require Import Rules.
From S2P Require Import PatternCompiler.
From S2P Require Import Float64.
From S2P Require Import Types.
From S2P Require Import IR.
From S2P Require Import IRDfs.
From S2P Require Import IRDfsProps.
From S2P Require Import IRBounds.
From S2P Require Import Builtins.
From S2P Require Import Eval.
#[local] Open Scope Z_scope.

(** * Outcomes *)

Lemma bind_Def {A B} (m : outcome A) (f : A -> outcome B) b : (x ← m; f x) = Def b -> exists a, m = Def a /\ f a = Def b.
Proof. destruct m; cbn; intros; try discriminate. eauto. Qed.

Lemma catch_true m : catch m false = Def true -> m = Def true.
Proof. by destruct m. Qed.

Lemma ir_get_Ret ir id e : get ir.(nodes) id = Some e -> ir_get ir id = Ret e.
Proof. intros H. unfold ir_get. by rewrite H. Qed.

(** * True conditions *)

Section Conditions.
Context (ir : IR) (s : Scanned).

(** The expression is true, at some depth, without variables. *)
Definition holds (id : Z) : Prop := exists fuel, eval_bool (eval ir s fuel) ∅ id = Def true.

Lemma holds_node id e : get ir.(nodes) id = Some e -> holds id ->
  exists fuel v, eval_node s (eval ir s fuel) ∅ id e = Def v /\ to_bool v = Def true.
Proof.
  intros He [fuel H]. unfold eval_bool in H. apply bind_Def in H as (v & Hv & Hb).
  destruct fuel as [|fuel]; [done|]. cbn [eval] in Hv. unfold get_node in Hv. rewrite He in Hv. cbn in Hv. eauto.
Qed.

Lemma eval_and_all fuel ids : eval_and (eval ir s fuel) ∅ ids = Def true -> Forall holds ids.
Proof.
  induction ids as [|id ids IH]; [done|]. cbn [eval_and]. destruct ids as [|id' ids].
  - intros H. constructor; [|done]. exists fuel. by apply catch_true.
  - intros H. apply bind_Def in H as (b & Hb & H). destruct b; [|done]. constructor; [|by apply IH].
    exists fuel. by apply catch_true.
Qed.

Lemma holds_and id operands : get ir.(nodes) id = Some (Expr.And operands) -> holds id -> Forall holds operands.
Proof.
  intros He H. apply (holds_node _ _ He) in H as (fuel & v & Hv & Hb). cbn in Hv.
  apply bind_Def in Hv as (b & Hv & [= <-]). injection Hb as ->. by eapply eval_and_all.
Qed.

(** A comparison that holds, between the values of its operands. *)
Lemma holds_compare id e c lhs rhs : get ir.(nodes) id = Some e ->
  (forall ev, eval_node s ev ∅ id e = eval_compare ev c ∅ lhs rhs) -> holds id ->
  exists fuel a b, eval ir s fuel ∅ lhs = Def a /\ eval ir s fuel ∅ rhs = Def b /\ compare c a b = Def (VBool true).
Proof.
  intros He Hc H. apply (holds_node _ _ He) in H as (fuel & v & Hv & Hb). rewrite Hc in Hv.
  unfold eval_compare in Hv. apply bind_Def in Hv as (a & Ha & Hv). apply bind_Def in Hv as (b & Hbv & Hv).
  exists fuel, a, b. split_and!; [done..|]. rewrite Hv. f_equal.
  destruct a, b; cbn in Hv; try discriminate; injection Hv as <-; injection Hb as ->; done.
Qed.

Lemma eval_leaf fuel id e v : get ir.(nodes) id = Some e -> eval ir s fuel ∅ id = Def v ->
  match e with
  | Expr.Const c => const_value c = Def v
  | Expr.Filesize => v = VInt s.(sc_filesize)
  | _ => True
  end.
Proof.
  intros He H. destruct fuel as [|fuel]; [done|]. cbn [eval] in H. unfold get_node in H. rewrite He in H. cbn in H.
  destruct e; try done. cbn in H. by destruct (sc_filesize s <? 0); [|injection H as <-].
Qed.

End Conditions.

(** * The size of the file *)

(** The constants are floats of the format. *)
Definition valid_const (c : TypeValue.t) : Prop :=
  match c with TypeValue.Float (Value.Const f) => f64_valid f | _ => True end.

Definition valid_consts (ir : IR) : Prop :=
  forall id c, get ir.(nodes) id = Some (Expr.Const c) -> valid_const c.

Section Bound.
Context (c : TypeValue.t) (v : value) (n : Z).
Hypothesis Hv : const_value c = Def v.
Hypothesis Hc : valid_const c.
Hypothesis Hn : 0 <= n < 2 ^ 53.

Lemma safe_size : safe n.
Proof. unfold safe. lia. Qed.

(** What the comparison says of the number and of the constant; nothing if the
    constant is a boolean. *)
Inductive numbers (rel : Z -> Z -> Prop) : Prop :=
  | numbers_int z cs : c = TypeValue.Integer (Value.Const z) cs -> rel n z -> numbers rel
  | numbers_float f : c = TypeValue.Float (Value.Const f) -> f64_valid f ->
      (is_finite f = true -> rel (n * 2 ^ 1074) (num f)) -> numbers rel
  | numbers_bool b : c = TypeValue.Bool (Value.Const b) -> numbers rel.

Lemma const_cases :
  (exists z cs, c = TypeValue.Integer (Value.Const z) cs /\ v = VInt z) \/
  (exists f, c = TypeValue.Float (Value.Const f) /\ v = VFloat f /\ f64_valid f) \/
  (exists b, c = TypeValue.Bool (Value.Const b)) \/
  exists b, v = VStr b.
Proof.
  destruct c as [|[]|[f| |]|[z| |]|[]| | | | |]; cbn in Hv; try discriminate; injection Hv as <-; eauto 8.
Qed.

Ltac number_case Hcmp :=
  destruct const_cases as [(z & cs & E & Ev)|[(f & E & Ev & Hf)|[[b E]|[b Ev]]]];
  [eapply numbers_int; [exact E|]; rewrite Ev in Hcmp; injection Hcmp as Hcmp; bools; lia
  |eapply numbers_float; [exact E|exact Hf|]; intros Hfin; rewrite Ev in Hcmp; injection Hcmp as Hcmp; revert Hcmp;
   unfold f64_lt, f64_le, SFltb, SFleb;
   rewrite ?compare_i64, ?compare_i64_l by (done || apply safe_size);
   match goal with |- context [?a ?= ?b] => destruct (Z.compare_spec a b) end; (done || lia)
  |eapply numbers_bool; exact E
  |by rewrite Ev in Hcmp].

Lemma compare_gt : compare cmp_gt (VInt n) v = Def (VBool true) -> numbers Z.gt.
Proof. intros Hcmp. number_case Hcmp. Qed.
Lemma compare_ge : compare cmp_ge (VInt n) v = Def (VBool true) -> numbers Z.ge.
Proof. intros Hcmp. number_case Hcmp. Qed.
Lemma compare_lt : compare cmp_lt (VInt n) v = Def (VBool true) -> numbers Z.lt.
Proof. intros Hcmp. number_case Hcmp. Qed.
Lemma compare_le : compare cmp_le (VInt n) v = Def (VBool true) -> numbers Z.le.
Proof. intros Hcmp. number_case Hcmp. Qed.

Lemma compare_gt_l : compare cmp_gt v (VInt n) = Def (VBool true) -> numbers Z.lt.
Proof. intros Hcmp. number_case Hcmp. Qed.
Lemma compare_ge_l : compare cmp_ge v (VInt n) = Def (VBool true) -> numbers Z.le.
Proof. intros Hcmp. number_case Hcmp. Qed.
Lemma compare_lt_l : compare cmp_lt v (VInt n) = Def (VBool true) -> numbers Z.gt.
Proof. intros Hcmp. number_case Hcmp. Qed.
Lemma compare_le_l : compare cmp_le v (VInt n) = Def (VBool true) -> numbers Z.ge.
Proof. intros Hcmp. number_case Hcmp. Qed.

(** The bounds that the comparisons give. *)
Definition rel_of (inclusive : bool) (strict weak : Z -> Z -> Prop) : Z -> Z -> Prop := if inclusive then weak else strict.

Lemma lower_bound_ok inclusive : numbers (rel_of inclusive Z.gt Z.ge) ->
  from_option (fun b => start_ok b n) true (lower_bound_from_const c inclusive) = true.
Proof.
  intros [z cs E H|f E Hf H|b E]; rewrite E; cbn [lower_bound_from_const]; [| |done].
  - destruct inclusive; cbn in *; lia.
  - destruct (is_finite f) eqn:Hfin; [|done]. specialize (H eq_refl).
    destruct (f64_floor_spec f Hf Hfin) as [-> ->].
    pose proof (Z.div_mod (num f) (2 ^ 1074) ltac:(lia)). pose proof (Z.mod_pos_bound (num f) (2 ^ 1074) ltac:(lia)).
    destruct inclusive; cbn [andb rel_of] in *.
    + case_bool_decide; cbn; unfold clamp, i64_MIN, i64_MAX; nia.
    + cbn. unfold clamp, i64_MIN, i64_MAX. nia.
Qed.

Lemma upper_bound_ok inclusive : numbers (rel_of inclusive Z.lt Z.le) ->
  from_option (fun b => end_ok b n) true (upper_bound_from_const c inclusive) = true.
Proof.
  intros [z cs E H|f E Hf H|b E]; rewrite E; cbn [upper_bound_from_const]; [| |done].
  - destruct inclusive; cbn in *; lia.
  - destruct (is_finite f) eqn:Hfin; [|done]. specialize (H eq_refl).
    destruct (f64_ceil_spec f Hf Hfin) as [-> ->].
    pose proof (Z.div_mod (- num f) (2 ^ 1074) ltac:(lia)). pose proof (Z.mod_pos_bound (- num f) (2 ^ 1074) ltac:(lia)).
    destruct inclusive; cbn [andb rel_of] in *.
    + case_bool_decide; cbn; unfold clamp, i64_MIN, i64_MAX; nia.
    + cbn. unfold clamp, i64_MIN, i64_MAX. nia.
Qed.

Lemma bound_start_ok r inclusive : numbers (rel_of inclusive Z.gt Z.ge) ->
  contains r n = true -> contains (bound_start (lower_bound_from_const c inclusive) r) n = true.
Proof.
  intros H Hr. apply lower_bound_ok in H. unfold bound_start. destruct (lower_bound_from_const c inclusive); [|done].
  cbn in *. by rewrite max_start_spec, Hr, H.
Qed.

Lemma bound_end_ok r inclusive : numbers (rel_of inclusive Z.lt Z.le) ->
  contains r n = true -> contains (bound_end (upper_bound_from_const c inclusive) r) n = true.
Proof.
  intros H Hr. apply upper_bound_ok in H. unfold bound_end. destruct (upper_bound_from_const c inclusive); [|done].
  cbn in *. by rewrite min_end_spec, Hr, H.
Qed.

End Bound.

Section Filesize.
Context (ir : IR) (s : Scanned).
Hypothesis Hordered : ordered ir.
Hypothesis Hvalid : valid_consts ir.
Hypothesis Hn : 0 <= s.(sc_filesize) < 2 ^ 53.

Let n := s.(sc_filesize).

Definition leaf_value (e : Expr.t) (v : value) : Prop :=
  match e with
  | Expr.Const c => const_value c = Def v /\ valid_const c
  | Expr.Filesize => v = VInt n
  | _ => True
  end.

Lemma compare_leaves id e c lhs rhs l r :
  get ir.(nodes) id = Some e -> get ir.(nodes) lhs = Some l -> get ir.(nodes) rhs = Some r ->
  (forall ev, eval_node s ev ∅ id e = eval_compare ev c ∅ lhs rhs) -> holds ir s id ->
  exists a b, leaf_value l a /\ leaf_value r b /\ compare c a b = Def (VBool true).
Proof.
  intros He Hl Hr Hc Hh. destruct (holds_compare ir s id e c lhs rhs He Hc Hh) as (fuel & a & b & Ha & Hb & Hcmp).
  apply (eval_leaf ir s fuel lhs l a Hl) in Ha. apply (eval_leaf ir s fuel rhs r b Hr) in Hb. exists a, b. split_and!; [| |done].
  - destruct l; try done. split; [done|]. by apply (Hvalid lhs).
  - destruct r; try done. split; [done|]. by apply (Hvalid rhs).
Qed.

(** The bound of a comparison, from what it says of the constant. *)
Ltac from_comparison lemma H := let N := fresh in pose proof lemma as N; eapply N in H; [|eassumption|eassumption|exact Hn]; clear N.

Ltac bound_of_comparison :=
  match goal with
  | H : compare cmp_gt (VInt n) _ = _ |- _ => from_comparison compare_gt H
  | H : compare cmp_ge (VInt n) _ = _ |- _ => from_comparison compare_ge H
  | H : compare cmp_lt (VInt n) _ = _ |- _ => from_comparison compare_lt H
  | H : compare cmp_le (VInt n) _ = _ |- _ => from_comparison compare_le H
  | H : compare cmp_gt _ (VInt n) = _ |- _ => from_comparison compare_gt_l H
  | H : compare cmp_ge _ (VInt n) = _ |- _ => from_comparison compare_ge_l H
  | H : compare cmp_lt _ (VInt n) = _ |- _ => from_comparison compare_lt_l H
  | H : compare cmp_le _ (VInt n) = _ |- _ => from_comparison compare_le_l H
  end;
  match goal with
  | |- contains (bound_start _ _) _ = true => eapply bound_start_ok
  | |- contains (bound_end _ _) _ = true => eapply bound_end_ok
  end; eassumption.

Lemma compare_filesize_ok id e r : get ir.(nodes) id = Some e -> exists r', compare_filesize ir e r = Ret r' /\
  (holds ir s id -> contains r n = true -> contains r' n = true).
Proof.
  intros He. pose proof (children_in_tree ir id e Hordered He) as Hc.
  assert (Hleaf : forall lhs rhs, Forall (in_tree ir) [lhs; rhs] ->
    exists l h, get ir.(nodes) lhs = Some l /\ get ir.(nodes) rhs = Some h).
  { intros lhs rhs H. rewrite !Forall_cons in H. destruct H as (Hl & Hr & _).
    destruct (in_tree_get ir lhs Hl), (in_tree_get ir rhs Hr). eauto. }
  destruct e; try (eexists; split; [reflexivity|done]);
    destruct (Hleaf lhs rhs Hc) as (l & h & Hl & Hr); cbn [compare_filesize];
    rewrite (ir_get_Ret _ _ _ Hl), (ir_get_Ret _ _ _ Hr); cbn [mbind res_bind]; eexists; (split; [reflexivity|]); intros Hh Hcr;
    destruct (compare_leaves id _ _ lhs rhs l h He Hl Hr ltac:(reflexivity) Hh) as (a & b & Ha & Hb & Hcmp);
    clear Hh; repeat match goal with |- contains (match ?x with _ => _ end) _ = true => destruct x end;
    try match goal with |- contains ?x _ = true => is_var x; exact Hcr end;
    cbn [leaf_value] in Ha, Hb; repeat match goal with H : const_value _ = _ /\ _ |- _ => destruct H end; subst; bound_of_comparison.
Qed.

Definition enter_holds (evt : Event) : Prop := match evt with Enter id _ => holds ir s id | Leave _ _ => True end.

Lemma after_holds evt e stack : get ir.(nodes) (event_expr evt) = Some e -> is_and e = true ->
  Forall enter_holds (evt :: stack) -> Forall enter_holds (after evt e stack).
Proof.
  intros He Hand [Hh Hs]%Forall_cons. destruct evt as [id ctx|id ctx]; [|done]. cbn. apply Forall_app; split; [|by constructor].
  destruct e; try done. apply (holds_and ir s id operands He) in Hh. cbn. unfold plain, enters.
  rewrite !Forall_fmap. eapply Forall_impl; [exact Hh|]. done.
Qed.

Lemma prune_after evt e stack : Forall enter_holds (evt :: stack) -> Forall enter_holds (prune (after evt e stack)).
Proof.
  intros [_ Hs]%Forall_cons. destruct evt as [id ctx|id ctx]; cbn.
  - rewrite prune_enters. by constructor.
  - destruct (prune_suffix stack) as [p Hp]. rewrite Hp in Hs. by apply Forall_app in Hs as [_ ?].
Qed.

End Filesize.

(** C8: [filesize_bounds] does not panic on a tree whose children come before
    their parents, and when the condition is true for a file of less than 2^53
    bytes, the size of the file is within the bounds. So disabling the patterns
    of the rule when it is not, as the scanner does, does not change the result. *)
Theorem filesize_bounds_sound (ir : IR) (s : Scanned) (fuel : nat) (Hordered : ordered ir)
  (Hroot : exists root, ir.(IR.root) = Some root /\ in_tree ir root) (Hvalid : valid_consts ir)
  (Hsize : 0 <= s.(sc_filesize) < 2 ^ 53) :
  exists b, filesize_bounds ir = Ret b /\
    (condition ir s fuel = Def true -> contains b s.(sc_filesize) = true).
Proof.
  destruct Hroot as (root & Hr & Hin).
  set (Q := fun b => condition ir s fuel = Def true -> contains b s.(sc_filesize) = true).
  set (P := fun stack b => condition ir s fuel = Def true ->
              Forall (enter_holds ir s) stack /\ contains b s.(sc_filesize) = true).
  set (body := fun evt e r => match evt with
       | Enter _ _ => r ← compare_filesize ir e r; Ret (r, if is_and e then Go else Prune)
       | Leave _ _ => Ret (r, Go)
       end).
  destruct (while_dfs_start ir body P Q Hordered) with (start := root) (s := filesize_unbounded) as (b & Hb & HQ).
  - intros b HP Ht. by destruct (HP Ht).
  - intros evt e stack b HP He. destruct evt as [id ctx|id ctx]; cbn [body event_expr] in *.
    + destruct (compare_filesize_ok ir s Hordered Hvalid Hsize id e b He) as (b' & -> & Hb'). cbn [mbind res_bind].
      do 2 eexists. split; [reflexivity|]. assert (Hc : condition ir s fuel = Def true -> contains b' s.(sc_filesize) = true).
      { intros Ht. destruct (HP Ht) as [Hs Hcb]. apply Forall_cons in Hs as [Hh _]. by apply Hb'. }
      destruct (is_and e) eqn:Hand; intros Ht; (split; [|by apply Hc]); destruct (HP Ht) as [Hs _];
        [by apply after_holds|by apply prune_after].
    + do 2 eexists. split; [reflexivity|]. intros Ht. destruct (HP Ht) as [Hs Hcb].
      apply Forall_cons in Hs as [_ Hs]. done.
  - done.
  - intros Ht. split; [|done]. constructor; [|done]. exists fuel. unfold condition in Ht. rewrite Hr in Ht. by apply catch_true.
  - exists b. split; [|exact HQ]. unfold filesize_bounds. rewrite Hr. exact Hb.
Qed.

(** * The header *)

(** A node whose type has a constant value evaluates to it. *)
Definition consts_ok (ir : IR) (s : Scanned) : Prop := forall id e, get ir.(nodes) id = Some e ->
  tv_is_const (expr_type_value e) = true ->
  forall fuel en v, eval ir s fuel en id = Def v -> const_value (expr_type_value e) = Def v.

(** The functions that read integers have one argument and no object. *)
Definition readers_ok (ir : IR) : Prop := forall id obj f args, get ir.(nodes) id = Some (Expr.FuncCall obj f args) ->
  int_reader (plain_name f) <> None -> obj = None /\ length args = 1%nat.

(** Expressions of type integer. *)
Definition integer (ir : IR) (id : Z) : Prop := exists e, get ir.(nodes) id = Some e /\ expr_ty e = Ty.Integer.

Definition excluded (p : Pattern) : bool := negb (Z.land (flags_of p) excluded_flags =? 0).

Lemma wrap_unsigned_signed size z : 0 < size -> 0 <= z < 256 ^ size -> wrap_signed size z mod 256 ^ size = z.
Proof.
  intros Hs Hz. unfold wrap_signed. set (w := 256 ^ size) in *. rewrite Zminus_mod_idemp_l.
  replace (z + w / 2 - w / 2) with z by lia. by apply Z.mod_small.
Qed.

(** The bytes of a value, in the order in which a function reads them. *)
Definition value_bytes (r : IntReader) (val : Z) : list Z :=
  let bytes := to_le_bytes (Z.to_nat r.(rd_size)) (val mod 256 ^ r.(rd_size)) in
  if r.(rd_be) then reverse bytes else bytes.

Lemma land_low_byte z : Z.land z 255 = z mod 256.
Proof. exact (Z.land_ones z 8 ltac:(lia)). Qed.

Lemma byte_of_shift z n : 0 <= n -> Z.land (Z.shiftr z n) 255 = (z / 2 ^ n) mod 256.
Proof. intros. by rewrite land_low_byte, Z.shiftr_div_pow2. Qed.

Lemma read_bytes_spec name val : read_bytes name val = (fun r => value_bytes r val) <$> int_reader name.
Proof.
  unfold read_bytes, int_reader. rewrite !byte_of_shift, !land_low_byte by lia.
  assert (Hd : forall z, z / 256 / 256 = z / 2 ^ 16 /\ z / 256 / 256 / 256 = z / 2 ^ 24 /\ z / 256 = z / 2 ^ 8).
  { intros z. rewrite !Z.div_div by lia. done. }
  repeat case_bool_decide; subst;
    try (exfalso; repeat match goal with H : _ \/ _ |- _ => destruct H end; congruence || tauto);
    unfold value_bytes, reader, wrap_u8, wrap_u16, wrap_u32; cbn [fmap option_fmap option_map rd_size rd_be];
    f_equal.
  1-4: change (Z.to_nat 1) with 1%nat; cbn [to_le_bytes]; change (256 ^ 1) with 256; rewrite Zmod_mod; done.
  all: change (Z.to_nat 4) with 4%nat; cbn [to_le_bytes]; change (256 ^ 4) with 4294967296;
    destruct (Hd (val mod 4294967296)) as (-> & -> & ->); done.
Qed.

Lemma read_bytes_from name r bs : int_reader name = Some r -> len bs = r.(rd_size) -> Forall is_u8 bs ->
  read_bytes name (from_bytes r bs) = Some bs.
Proof.
  intros Hr Hl Hb. rewrite read_bytes_spec, Hr. cbn [fmap option_fmap option_map]. f_equal.
  assert (Hs : 0 < rd_size r).
  { unfold int_reader in Hr. repeat case_bool_decide; try discriminate; injection Hr as <-; done. }
  set (le := if rd_be r then reverse bs else bs).
  assert (Hle : len le = rd_size r) by (unfold le; destruct (rd_be r); [by rewrite len_rev|done]).
  assert (Hu : Forall is_u8 le) by (unfold le; destruct (rd_be r); [by apply Forall_reverse|done]).
  assert (Hz : from_bytes r bs mod 256 ^ rd_size r = from_le_bytes le).
  { pose proof (from_le_bytes_bound le Hu). rewrite Hle in *. unfold from_bytes. fold le.
    destruct (rd_signed r); [by apply wrap_unsigned_signed|by apply Z.mod_small]. }
  unfold value_bytes. rewrite Hz. replace (Z.to_nat (rd_size r)) with (length le) by (unfold len in Hle; lia).
  rewrite to_from_le_bytes by done. unfold le. destruct (rd_be r); [by rewrite reverse_involutive|done].
Qed.

(** ** The constraints that the data satisfies *)

Section Data.
Context (data : list Z).

Definition header_ok (h : Header) : Prop :=
  h.(unsatisfiable) = false /\ Forall (fun '(o, b) => get data o = Some b) h.(constrained_bytes).

(** The bytes are those of the data from an offset. *)
Definition bytes_at (offset : Z) (bytes : list Z) : Prop :=
  forall i b, bytes !! i = Some b -> get data (offset + Z.of_nat i) = Some b.

Lemma bytes_at_cons offset b bytes : bytes_at offset (b :: bytes) -> get data offset = Some b /\ bytes_at (offset + 1) bytes.
Proof.
  intros H. split; [specialize (H 0%nat b eq_refl); by rewrite Z.add_0_r in H|].
  intros i x Hx. specialize (H (S i) x Hx). replace (offset + 1 + Z.of_nat i) with (offset + Z.of_nat (S i)) by lia. done.
Qed.

Lemma bt_get_ok h o v : Forall (fun '(o, b) => get data o = Some b) h -> bt_get h o = Some v -> get data o = Some v.
Proof.
  induction 1 as [|[k b] h Hk _ IH]; [done|]. cbn. destruct (k =? o) eqn:E; bools; [|done]. subst. by intros [= <-].
Qed.

Lemma bt_insert_ok h o v : Forall (fun '(o, b) => get data o = Some b) h -> get data o = Some v ->
  Forall (fun '(o, b) => get data o = Some b) (bt_insert o v h).
Proof.
  intros Hh Ho. induction Hh as [|[k b] h Hk Hh IH]; [by repeat constructor|]. cbn. destruct (o <? k); repeat constructor; done.
Qed.

Lemma constrain_ok o v h : get data o = Some v -> header_ok h -> header_ok (constrain o v h).
Proof.
  intros Ho [Hu Hb]. unfold constrain. destruct (bt_get _ o) as [w|] eqn:E.
  - apply (bt_get_ok _ _ _ Hb) in E. assert (w = v) as -> by congruence. by rewrite Z.eqb_refl.
  - split; [done|]. by apply bt_insert_ok.
Qed.

Lemma add_constraints_ok bytes : forall offset h, bytes_at offset bytes -> header_ok h -> header_ok (add_constraints offset bytes h).
Proof.
  induction bytes as [|b bytes IH]; [done|]. intros offset h [Hb Hbs]%bytes_at_cons Hh. cbn. apply IH; [done|].
  unfold add_constraint. destruct (unsatisfiable h); [done|]. by apply constrain_ok.
Qed.

Lemma constrain_pattern_ok bytes : forall i h, bytes_at i bytes -> header_ok h -> header_ok (constrain_pattern i bytes h).
Proof.
  induction bytes as [|b bytes IH]; [done|]. intros i h [Hb Hbs]%bytes_at_cons Hh. cbn.
  pose proof (constrain_ok i b h Hb Hh). destruct (unsatisfiable _); [done|]. by apply IH.
Qed.

Lemma consecutive_ok m : forall i, Forall (fun '(o, b) => get data o = Some b) m -> bytes_at i (consecutive i m).
Proof.
  induction m as [|[o b] m IH]; [done|]. intros i [Ho Hm]%Forall_cons. cbn. destruct (i =? o) eqn:E; bools; [|done]. subst.
  intros [|j] x Hx; cbn in Hx; [injection Hx as <-; by rewrite Z.add_0_r|].
  specialize (IH (o + 1) Hm j x Hx). replace (o + Z.of_nat (S j)) with (o + 1 + Z.of_nat j) by lia. done.
Qed.

Lemma bytes_at_starts bytes : bytes_at 0 bytes -> starts_with data bytes = true.
Proof.
  intros H. apply bool_decide_eq_true_2, list_eq. intros i. destruct (bytes !! i) as [b|] eqn:E.
  - rewrite lookup_take_lt by by apply lookup_lt_Some in E. specialize (H i b E). rewrite Z.add_0_l in H. by apply get_Some in H as [_ H]; rewrite Nat2Z.id in H.
  - apply lookup_ge_None in E. rewrite lookup_take_ge; [done|lia].
Qed.

Lemma starts_bytes_at bytes : starts_with data bytes = true -> bytes_at 0 bytes.
Proof.
  intros H%bool_decide_eq_true_1 i b Hb. rewrite Z.add_0_l. rewrite <- H in Hb. apply lookup_take_Some in Hb as [Hb _].
  apply get_Some. split; [lia|]. by rewrite Nat2Z.id.
Qed.

Lemma header_constraint_ok h : header_ok h -> is_satisfied (header_constraint h) data = true.
Proof.
  intros [Hu Hb]. unfold header_constraint. rewrite Hu. destruct (constrained_bytes h) as [|[[|k|k] b] m] eqn:E; try done.
  apply bytes_at_starts, consecutive_ok. done.
Qed.

(** A function that reads an integer reads the bytes of its value. *)
Lemma read_int_bytes name r offset z bytes : int_reader name = Some r -> Forall is_u8 data ->
  read_int r data offset = Some z -> read_bytes name z = Some bytes -> bytes_at offset bytes.
Proof.
  intros Hr Hd Hz Hb. unfold read_int in Hz. destruct (offset <? 0) eqn:Ho; [done|]. bools.
  destruct (get_range data offset (offset + rd_size r)) as [bs|] eqn:Hg; [|done]. injection Hz as <-.
  unfold get_range in Hg. destruct (_ && _) eqn:Hc in Hg; [|done]. injection Hg as <-. bools.
  rewrite (read_bytes_from name r) in Hb; [|done|rewrite len_slice; lia|by apply Forall_slice]. injection Hb as <-.
  intros i b Hi. pose proof (lookup_lt_Some _ _ _ Hi) as Hlt. rewrite <- (get_slice data offset (offset + rd_size r) (Z.of_nat i)).
  - apply get_Some. split; [lia|]. by rewrite Nat2Z.id.
  - lia.
  - pose proof (len_slice data offset (offset + rd_size r) ltac:(lia) ltac:(lia)). unfold len in *. lia.
Qed.
End Data.

(** ** The constraints of a true condition *)

Section Header.
Context (ir : IR) (s : Scanned) (lookup : Z -> res Pattern).
Hypothesis Hordered : ordered ir.
Hypothesis Hconsts : consts_ok ir s.
Hypothesis Hreaders : readers_ok ir.
Hypothesis Hdata : Forall is_u8 s.(sc_data).

(** The patterns of the condition exist. *)
Definition patterns_found : Prop := forall id idx anchor, get ir.(nodes) id = Some (Expr.PatternMatch idx anchor) ->
  exists p, lookup idx = Ret p.

(** A pattern that is eligible matches at 0 only if the data starts with it. *)
Definition matches_ok : Prop := forall idx p bytes id, lookup idx = Ret p -> excluded p = false ->
  pattern_bytes p = Some bytes -> get s.(sc_patterns) idx = Some id ->
  is_pat_match_at s.(sc_matches) id 0 = true -> starts_with s.(sc_data) bytes = true.

(** The offsets at which patterns match are integers: the traversal goes on
    into those of the patterns that are not eligible, and derives nothing. *)
Definition integer_anchors : Prop := forall id idx anchor, get ir.(nodes) id = Some (Expr.PatternMatch idx anchor) ->
  Forall (integer ir) (anchor_children anchor).

Hypothesis Hfound : patterns_found.
Hypothesis Hmatches : matches_ok.
Hypothesis Hanchors : integer_anchors.

Lemma const_int id e v : get ir.(nodes) id = Some e -> try_as_const_integer e = Some v ->
  forall fuel en x, eval ir s fuel en id = Def x -> x = VInt v.
Proof.
  intros He Hv fuel en x Hx. unfold try_as_const_integer in Hv.
  destruct (expr_type_value e) as [| | |[w| |] cs| | | | | |] eqn:E; try done. injection Hv as ->.
  assert (Hc : const_value (expr_type_value e) = Def x) by (eapply Hconsts; [exact He|by rewrite E|exact Hx]).
  rewrite E in Hc. by injection Hc.
Qed.

(** A call of a function that reads an integer. *)
Lemma eval_reader fuel obj f arg id r x offset e :
  get ir.(nodes) id = Some (Expr.FuncCall obj f [arg]) -> obj = None -> int_reader (plain_name f) = Some r ->
  get ir.(nodes) arg = Some e -> try_as_const_integer e = Some offset ->
  eval ir s fuel ∅ id = Def x -> exists z, x = VInt z /\ read_int r s.(sc_data) offset = Some z.
Proof.
  intros Hid -> Hr Harg Hoff Hx. destruct fuel as [|fuel]; [done|]. cbn [eval] in Hx. unfold get_node in Hx. rewrite Hid in Hx.
  cbn in Hx. apply bind_Def in Hx as (vs & Hvs & Hx). apply bind_Def in Hvs as (v & Hv & Hvs). injection Hvs as <-.
  apply (const_int arg e offset Harg Hoff) in Hv as ->. unfold call_function in Hx. rewrite Hr in Hx.
  destruct (read_int r (sc_data s) offset) as [z|]; [|done]. injection Hx as <-. eauto.
Qed.

Lemma apply_int_read_ok id e val h : get ir.(nodes) id = Some e ->
  exists h' b, apply_int_read_constraint ir id val h = Ret (h', b) /\
    forall fuel x, eval ir s fuel ∅ id = Def x -> (forall z, x = VInt z -> z = val) ->
      header_ok s.(sc_data) h -> header_ok s.(sc_data) h'.
Proof.
  intros He. unfold apply_int_read_constraint. rewrite (ir_get_Ret _ _ _ He). cbn [mbind res_bind].
  destruct e; try (do 2 eexists; split; [reflexivity|done]).
  pose proof (children_in_tree ir id _ Hordered He) as Hc. destruct args as [|arg args].
  { do 2 eexists. split; [reflexivity|done]. }
  assert (exists ea, get ir.(nodes) arg = Some ea) as [ea Hea].
  { apply in_tree_get. unfold children, dfs_children, plain in Hc. rewrite <- list_fmap_compose, list_fmap_id in Hc.
    apply Forall_app in Hc as [_ Hc]. by apply Forall_cons in Hc as [? _]. }
  rewrite (ir_get_Ret _ _ _ Hea). cbn [mbind res_bind]. destruct (try_as_const_integer ea) as [offset|] eqn:Hoff; cbn [mbind res_bind].
  2: do 2 eexists; split; [reflexivity|done].
  destruct (0 <=? offset); [|do 2 eexists; split; [reflexivity|done]].
  destruct (read_bytes (plain_name signature) val) as [bytes|] eqn:Hb; [|do 2 eexists; split; [reflexivity|done]].
  do 2 eexists. split; [reflexivity|]. intros fuel x Hx Hz Hh. apply add_constraints_ok; [|done].
  destruct (int_reader (plain_name signature)) as [r|] eqn:Hr; [|by rewrite read_bytes_spec, Hr in Hb].
  destruct (Hreaders _ _ _ _ He) as [-> Hargs]; [by rewrite Hr|]. destruct args; [|done].
  destruct (eval_reader fuel None signature arg id r x offset ea) as (z & -> & Hread); [done..|].
  rewrite <- (Hz z eq_refl) in Hb. by eapply read_int_bytes.
Qed.

Lemma compare_eq_int a v : compare cmp_eq a (VInt v) = Def (VBool true) -> forall z, a = VInt z -> z = v.
Proof. intros H z ->. cbn in H. injection H as H. by apply Z.eqb_eq. Qed.

Lemma compare_eq_int_l a v : compare cmp_eq (VInt v) a = Def (VBool true) -> forall z, a = VInt z -> z = v.
Proof. intros H z ->. cbn in H. injection H as H. by apply Z.eqb_eq in H. Qed.

Lemma extract_ok id lhs rhs h : get ir.(nodes) id = Some (Expr.Eq lhs rhs) ->
  exists h', extract_header_constraints_from_eq ir lhs rhs h = Ret h' /\
    (holds ir s id -> header_ok s.(sc_data) h -> header_ok s.(sc_data) h').
Proof.
  intros He. pose proof (children_in_tree ir id _ Hordered He) as Hc. cbn in Hc. rewrite !Forall_cons in Hc.
  destruct Hc as (Hl & Hr & _). apply in_tree_get in Hl as [l Hl]. apply in_tree_get in Hr as [r Hr].
  assert (Hcmp : holds ir s id -> exists fuel a b, eval ir s fuel ∅ lhs = Def a /\ eval ir s fuel ∅ rhs = Def b /\
                   compare cmp_eq a b = Def (VBool true)).
  { intros Hh. by apply (holds_compare ir s id _ cmp_eq lhs rhs He). }
  assert (Hsecond : forall h1, exists h', (match try_as_const_integer l with
                      | Some val => '(h, _) ← apply_int_read_constraint ir rhs val h1; Ret h
                      | None => Ret h1
                      end) = Ret h' /\ (holds ir s id -> header_ok s.(sc_data) h1 -> header_ok s.(sc_data) h')).
  { intros h1. destruct (try_as_const_integer l) as [v|] eqn:Hv; [|eauto].
    destruct (apply_int_read_ok rhs r v h1 Hr) as (h2 & b & -> & H2). cbn. eexists; split; [reflexivity|].
    intros Hh. destruct (Hcmp Hh) as (fuel & x & y & Hx & Hy & Hxy). apply (const_int lhs l v Hl Hv) in Hx as ->.
    apply (H2 fuel y Hy). by apply compare_eq_int_l. }
  unfold extract_header_constraints_from_eq. rewrite (ir_get_Ret _ _ _ Hr), (ir_get_Ret _ _ _ Hl). cbn [mbind res_bind].
  destruct (try_as_const_integer r) as [v|] eqn:Hv; [|apply Hsecond].
  destruct (apply_int_read_ok lhs l v h Hl) as (h1 & b & -> & H1). cbn [mbind res_bind].
  assert (H1' : holds ir s id -> header_ok s.(sc_data) h -> header_ok s.(sc_data) h1).
  { intros Hh. destruct (Hcmp Hh) as (fuel & x & y & Hx & Hy & Hxy). apply (const_int rhs r v Hr Hv) in Hy as ->.
    apply (H1 fuel x Hx). by apply compare_eq_int. }
  destruct b; [eauto|]. destruct (Hsecond h1) as (h' & -> & H'). eauto.
Qed.

(** A pattern that matches at 0. *)
Lemma pattern_at_zero id idx offset e p bytes : get ir.(nodes) id = Some (Expr.PatternMatch idx (MatchAnchor.At offset)) ->
  get ir.(nodes) offset = Some e -> try_as_const_integer e = Some 0 -> lookup idx = Ret p -> excluded p = false ->
  pattern_bytes p = Some bytes -> holds ir s id -> bytes_at s.(sc_data) 0 bytes.
Proof.
  intros He Ho Hz Hp Hx Hb Hh. apply (holds_node ir s _ _ He) in Hh as (fuel & v & Hv & Ht). cbn in Hv.
  apply bind_Def in Hv as (m & Hm & Hv). injection Hv as <-. injection Ht as ->.
  apply bind_Def in Hm as (pid & Hpid & Hm). unfold pattern_id in Hpid. destruct (get (sc_patterns s) idx) as [pid'|] eqn:Hget; [|done].
  injection Hpid as ->. apply bind_Def in Hm as (o & Ho' & Hm). unfold eval_int in Ho'. apply bind_Def in Ho' as (x & Hx' & Hi).
  apply (const_int offset e 0 Ho Hz) in Hx' as ->. injection Hi as <-. injection Hm as Hm.
  apply starts_bytes_at. by eapply Hmatches.
Qed.

(** What is known of an expression that the traversal enters. *)
Definition visitable (id : Z) : Prop := holds ir s id \/ integer ir id.

Definition visit_spec (id : Z) (e : Expr.t) (h : Header) (r : Header * Control) : Prop :=
  visitable id -> header_ok s.(sc_data) h ->
  header_ok s.(sc_data) (fst r) /\ snd r <> Break /\ (snd r = Go -> Forall visitable (children e)).

Lemma children_of_and id e : get ir.(nodes) id = Some e -> is_and e = true -> visitable id -> Forall visitable (children e).
Proof.
  intros He Ha [Hh|Hq].
  - destruct e; try done. apply (holds_and ir s id operands He) in Hh. unfold children, dfs_children, plain.
    rewrite <- list_fmap_compose, list_fmap_id. eapply Forall_impl; [exact Hh|]. by left.
  - destruct Hq as (e' & He' & Ht). assert (e' = e) as -> by congruence. by destruct e.
Qed.

Lemma finish_ok id e h h' : get ir.(nodes) id = Some e ->
  (visitable id -> header_ok s.(sc_data) h -> header_ok s.(sc_data) h') ->
  exists r, (if h'.(unsatisfiable) then Ret (h', Break) else Ret (h', if is_and e then Go else Prune)) = Ret r /\
    visit_spec id e h r.
Proof.
  intros He H. destruct (unsatisfiable h') eqn:Hu; eexists; (split; [reflexivity|]); intros Hv Hh; destruct (H Hv Hh) as [Hu' Hb].
  - congruence.
  - split_and!; [by split|by destruct (is_and e)|]. cbn. destruct (is_and e) eqn:Ha; [|done]. intros _. by eapply children_of_and.
Qed.

Lemma visit_header_ok id e h : get ir.(nodes) id = Some e -> exists r, visit_header ir lookup e h = Ret r /\ visit_spec id e h r.
Proof.
  intros He. assert (Hh : expr_ty e = Ty.Bool -> visitable id -> holds ir s id).
  { intros Ht [Hh|(e' & He' & Ht')]; [done|]. congruence. }
  destruct e; cbn [visit_header]; try (eapply finish_ok; [exact He|by auto]); specialize (Hh eq_refl).
  - destruct (extract_ok id lhs rhs h He) as (h' & -> & H'). cbn [mbind res_bind]. eapply finish_ok; [exact He|auto].
  - destruct (Hfound id pattern anchor He) as [p Hp]. rewrite Hp. cbn [mbind res_bind]. fold (excluded p).
    destruct (excluded p) eqn:Hx.
    { eexists. split; [reflexivity|]. intros _ Hok. split_and!; [done|done|]. intros _.
      unfold children, dfs_children, plain. rewrite <- list_fmap_compose, list_fmap_id.
      eapply Forall_impl; [by eapply Hanchors|]. by right. }
    destruct anchor as [|offset|range]; [eapply finish_ok; [exact He|auto]| |eapply finish_ok; [exact He|auto]].
    pose proof (children_in_tree ir id _ Hordered He) as Hc. cbn in Hc. apply Forall_cons in Hc as [Hc _].
    apply in_tree_get in Hc as [eo Ho]. rewrite (ir_get_Ret _ _ _ Ho). cbn [mbind res_bind].
    destruct (try_as_const_integer eo) as [[|z|z]|] eqn:Hz; try (eapply finish_ok; [exact He|auto]).
    destruct (pattern_bytes p) as [bytes|] eqn:Hb; (eapply finish_ok; [exact He|]); [|auto].
    intros Hv Hok. apply constrain_pattern_ok; [|done]. eapply pattern_at_zero; eauto.
Qed.
End Header.

(** C9: [header_constraints] does not panic, and when the condition is true the
    data satisfies the constraint: the bytes that functions like [uint32] read
    and the patterns that match at offset 0 are those of the constraint. *)
Theorem header_constraints_sound (ir : IR) (s : Scanned) (lookup : Z -> res Pattern) (fuel : nat) (Hordered : ordered ir)
  (Hroot : exists root, ir.(IR.root) = Some root /\ in_tree ir root) (Hconsts : consts_ok ir s) (Hreaders : readers_ok ir)
  (Hdata : Forall is_u8 s.(sc_data)) (Hfound : patterns_found ir lookup) (Hmatches : matches_ok s lookup)
  (Hanchors : integer_anchors ir) :
  exists c, header_constraints ir lookup = Ret c /\
    (condition ir s fuel = Def true -> is_satisfied c s.(sc_data) = true).
Proof.
  destruct Hroot as (root & Hr & Hin). set (ok := header_ok s.(sc_data)).
  set (enter_ok := fun evt => match evt with Enter id _ => visitable ir s id | Leave _ _ => True end).
  set (Q := fun h => condition ir s fuel = Def true -> ok h).
  set (P := fun stack h => condition ir s fuel = Def true -> Forall enter_ok stack /\ ok h).
  set (body := fun evt e h => match evt with Enter _ _ => visit_header ir lookup e h | Leave _ _ => Ret (h, Go) end).
  destruct (while_dfs_start ir body P Q Hordered) with (start := root) (s := {| constrained_bytes := []; unsatisfiable := false |})
    as (h & Hh & HQ).
  - intros h HP Ht. by destruct (HP Ht).
  - intros evt e stack h HP He. destruct evt as [id ctx|id ctx]; cbn [body event_expr] in *.
    + destruct (visit_header_ok ir s lookup Hordered Hconsts Hreaders Hdata Hfound Hmatches Hanchors id e h He) as ([h' c] & -> & Hspec).
      do 2 eexists. split; [reflexivity|].
      assert (Hok : condition ir s fuel = Def true -> Forall enter_ok stack /\ ok h' /\ c <> Break /\
                      (c = Go -> Forall (visitable ir s) (children e))).
      { intros Ht. destruct (HP Ht) as [[Hv Hs]%Forall_cons Hok]. destruct (Hspec Hv Hok) as (? & ? & ?). done. }
      destruct c; cbn [after].
      * intros Ht. destruct (Hok Ht) as (Hs & Hh' & _ & Hc). specialize (Hc eq_refl). split; [|done].
        apply Forall_app; split; [|by constructor]. unfold enters. apply Forall_fmap. unfold children in Hc. rewrite Forall_fmap in Hc.
        eapply Forall_impl; [exact Hc|]. by intros [c cctx].
      * intros Ht. destruct (Hok Ht) as (Hs & Hh' & _ & _). rewrite prune_enters. split; [by constructor|done].
      * intros Ht. by destruct (Hok Ht) as (_ & _ & ? & _).
    + do 2 eexists. split; [reflexivity|]. intros Ht. destruct (HP Ht) as [[_ Hs]%Forall_cons Hok]. done.
  - done.
  - intros Ht. split; [|done]. constructor; [|done]. left. exists fuel. unfold condition in Ht. rewrite Hr in Ht. by apply catch_true.
  - exists (header_constraint h). split; [unfold header_constraints; rewrite Hr; unfold body in Hh; cbn [or_panic mbind res_bind]; by rewrite Hh|].
    intros Ht. apply header_constraint_ok. by apply HQ.
Qed.

#[export] Instance Range_eq_dec : EqDecision Range.
Proof. solve_decision. Defined.
#[export] Instance MatchAnchor_eq_dec : EqDecision MatchAnchor.t.
Proof. solve_decision. Defined.

(** * Checks on concrete trees *)

Definition is_const_node (e : Expr.t) : bool := match e with Expr.Const _ => true | _ => false end.

Lemma consts_check ir s :
  all_nodes ir (fun _ e => negb (tv_is_const (expr_type_value e)) || is_const_node e) = true -> consts_ok ir s.
Proof.
  intros H id e He Hc fuel en v Hv. pose proof (all_nodes_get _ _ H id e He) as Hn. cbn in Hn. rewrite Hc in Hn.
  destruct e; try done. destruct fuel as [|fuel]; [done|]. cbn [eval] in Hv. unfold get_node in Hv. by rewrite He in Hv.
Qed.

Definition valid_constb (e : Expr.t) : bool :=
  match e with Expr.Const (TypeValue.Float (Value.Const f)) => valid_binary 53 1024 f | _ => true end.

Lemma valid_check ir : all_nodes ir (fun _ e => valid_constb e) = true -> valid_consts ir.
Proof.
  intros H id c Hc. pose proof (all_nodes_get _ _ H id _ Hc) as Hv. cbn in Hv. by destruct c as [| |[]| | | | | | |].
Qed.

(** [filesize < 1000.5 and uint16(0) == 0x5a4d and $a at 0] *)
Definition int_const (z : Z) : Expr.t := Expr.Const (const_integer_from z).

Definition half : f64 := f64_div (f64_of_i64 2001) (f64_of_i64 2).

Definition call_uint16 : FuncSignature := {| mangled_name := "uint16@i@iu"; result := unknown_integer |}.

Definition sample_ir : IR :=
  set_root (Some 9) (set_tree
    [Expr.Filesize; Expr.Const (const_float_from half); Expr.Lt 0 1;
     int_const 0; Expr.FuncCall None call_uint16 [3]; int_const 0x5a4d; Expr.Eq 4 5;
     int_const 0; Expr.PatternMatch 0 (MatchAnchor.At 7); Expr.And [2; 6; 8]]
    [2; 2; 9; 4; 6; 6; 9; 8; 9; ExprId_none] ir_new).

Definition text_pattern (flags : Z) (text : list Z) : Pattern :=
  PText {| lit_flags := flags; text := text; lit_anchored_at := None; xor_range := None; base64_alphabet := None;
           base64wide_alphabet := None; lit_filesize_bounds := filesize_unbounded; lit_header_constraints := Unconstrained |}.

Definition sample_lookup (idx : Z) : res Pattern := Ret (text_pattern 0 [0x4d; 0x5a; 0x90]).

(** The pattern matches at 0. *)
Definition one_match : PatternMatches :=
  {| pattern_lists := {[ 0 := {| matches := [match_new (0, 3)]; list_capacity := 8 |} ]};
     max_matches_per_pattern := 1000; total_capacity := 8 |}.

Definition sample_scanned : Scanned :=
  {| sc_filesize := 4; sc_data := [0x4d; 0x5a; 0x90; 0]; sc_matches := one_match; sc_patterns := [0];
     sc_call := fun _ _ _ => None; sc_str := fun _ _ _ => false; sc_other := fun _ _ => Stuck |}.

Lemma filesize_bounds_sound_witness :
  condition sample_ir sample_scanned 10 = Def true /\
  exists b, filesize_bounds sample_ir = Ret b /\
    (condition sample_ir sample_scanned 10 = Def true -> contains b sample_scanned.(sc_filesize) = true).
Proof.
  split; [vm_compute; reflexivity|]. apply (filesize_bounds_sound sample_ir sample_scanned 10).
  - apply ordered_check. vm_compute. reflexivity.
  - exists 9. split; [reflexivity|]. unfold in_tree. vm_compute. split; [discriminate|reflexivity].
  - apply valid_check. vm_compute. reflexivity.
  - cbn. lia.
Defined.

Lemma header_constraints_sound_witness :
  condition sample_ir sample_scanned 10 = Def true /\
  exists c, header_constraints sample_ir sample_lookup = Ret c /\
    (condition sample_ir sample_scanned 10 = Def true -> is_satisfied c sample_scanned.(sc_data) = true).
Proof.
  split; [vm_compute; reflexivity|]. apply (header_constraints_sound sample_ir sample_scanned sample_lookup 10).
  - apply ordered_check. vm_compute. reflexivity.
  - exists 9. split; [reflexivity|]. unfold in_tree. vm_compute. split; [discriminate|reflexivity].
  - apply consts_check. vm_compute. reflexivity.
  - intros id obj f args H Hr.
    assert (Hb : all_nodes sample_ir (fun _ e => match e with
                   | Expr.FuncCall (Some _) _ _ => false | Expr.FuncCall None _ args => (length args =? 1)%nat | _ => true end) = true)
      by (vm_compute; reflexivity).
    pose proof (all_nodes_get _ _ Hb id _ H) as Hn. cbn in Hn. destruct obj; [done|]. split; [done|]. by apply Nat.eqb_eq.
  - cbn. repeat constructor; unfold is_u8; lia.
  - intros id idx anchor _. eexists. reflexivity.
  - intros idx p bytes id [= <-] _ [= <-] Hid _. reflexivity.
  - intros id idx anchor H.
    assert (Hb : all_nodes sample_ir (fun _ e => match e with
                   | Expr.PatternMatch _ a => bool_decide (a = MatchAnchor.At 7) | _ => true end) = true)
      by (vm_compute; reflexivity).
    pose proof (all_nodes_get _ _ Hb id _ H) as Hn. cbn in Hn. apply bool_decide_eq_true_1 in Hn as ->.
    repeat constructor. eexists. split; reflexivity.
Defined.

Example sample_bounds :
  filesize_bounds sample_ir = Ret {| fs_start := Bound.Unbounded; fs_end := Bound.Excluded 1001 |} /\
  header_constraints sample_ir sample_lookup = Ret (Constrained [0x4d; 0x5a; 0x90]).
Proof. split; vm_compute; reflexivity. Qed.
