(* ===== verification/EvalProps.v ===== *)
(** The reference semantics of conditions depends only on the operands of each
    expression: with operands that come before their expressions it needs no
    fuel, and a tree can be extended without changing the values of its
    expressions. *)

From Stdlib Require Import SpecFloat.
From stdpp Require Import gmap strings.
From S2P Require Import Prelude.
From S2P Require Import Matches.
From S2P Require Import Float64.
From S2P Require Import Types.
From S2P Require Import IR.
From S2P Require Import IRDfs.
From S2P Require Import IRDfsProps.
From S2P Require Import IRBuild.
From S2P Require Import Builtins.
From S2P Require Import Eval.
#[local] Open Scope Z_scope.

(** * Operands *)

(** The expressions that an expression refers to: its children, and the
    expression of a percentage. *)
Definition operands (e : Expr.t) : list Z :=
  match e with
  | Expr.OfExprTuple q items _ anchor => Build.quantifier_operands q ++ items ++ anchor_children anchor
  | Expr.OfPatternSet q _ _ anchor => Build.quantifier_operands q ++ anchor_children anchor
  | Expr.ForOf q _ _ body => Build.quantifier_operands q ++ [body]
  | Expr.ForIn q _ _ iterable body => Build.quantifier_operands q ++ iterable_children iterable ++ [body]
  | e => children e
  end.

Lemma quantifier_children_operands q c : c ∈ quantifier_children q -> c ∈ Build.quantifier_operands q.
Proof. destruct q; cbn; [by intros ?%elem_of_nil..|done]. Qed.

Lemma children_operands e c : c ∈ children e -> c ∈ operands e.
Proof.
  destruct e; try exact (fun H => H); cbn [operands]; unfold children, dfs_children, plain;
    rewrite ?fmap_app, <- ?list_fmap_compose, ?list_fmap_id, ?elem_of_app, ?elem_of_reverse; cbn;
    repeat match goal with
    | |- context [c ∈ quantifier_children ?q] =>
        let H := fresh in pose proof (quantifier_children_operands q c) as H; revert H; generalize (c ∈ quantifier_children q)
    end; tauto.
Qed.

(** They are the parts of the expression, in the order of the source. *)
Lemma operands_parts e : operands e = (parts e).*1.
Proof.
  destruct e; cbn [operands parts]; unfold children, dfs_children, plain, in_context;
    rewrite ?fmap_app, ?context_fst, ?anchor_parts_children, ?iterable_parts_children, <- ?app_assoc; try done.
  all: match goal with
    | |- context [from_option _ _ ?o] => by destruct o as [[]|]
    | |- context [option_list ?o] => destruct o; cbn; by rewrite ?context_fst
    end.
Qed.

Definition well_ordered (ir : IR) : Prop :=
  forall id e, get ir.(nodes) id = Some e -> Forall (fun c => 0 <= c < id) (operands e).

Lemma well_ordered_ordered ir : well_ordered ir -> ordered ir.
Proof.
  intros H id e He. specialize (H id e He). rewrite Forall_forall in *. intros c Hc. apply H. by apply children_operands.
Qed.

(** * Congruence *)

Section Ext.
Context (s : Scanned) (ev ev' : env -> Z -> outcome value).

Definition agree (ids : list Z) : Prop := forall en c, c ∈ ids -> ev en c = ev' en c.

Lemma agree_app ids ids' : agree (ids ++ ids') <-> agree ids /\ agree ids'.
Proof. unfold agree. setoid_rewrite elem_of_app. naive_solver. Qed.

Lemma agree_cons id ids : agree (id :: ids) <-> (forall en, ev en id = ev' en id) /\ agree ids.
Proof. unfold agree. setoid_rewrite elem_of_cons. naive_solver. Qed.

Lemma agree_one id : agree [id] -> forall en, ev en id = ev' en id.
Proof. by intros [H _]%agree_cons. Qed.

Lemma bool_ext en id : (forall en, ev en id = ev' en id) -> eval_bool ev en id = eval_bool ev' en id.
Proof. intros H. unfold eval_bool. by rewrite H. Qed.

Lemma int_ext en id : (forall en, ev en id = ev' en id) -> eval_int ev en id = eval_int ev' en id.
Proof. intros H. unfold eval_int. by rewrite H. Qed.

Lemma list_ext en ids : agree ids -> eval_list ev en ids = eval_list ev' en ids.
Proof. induction ids as [|id ids IH]; [done|]. intros [H1 H2]%agree_cons. cbn. by rewrite H1, IH. Qed.

Lemma and_ext en ids : agree ids -> eval_and ev en ids = eval_and ev' en ids.
Proof.
  induction ids as [|id ids IH]; [done|]. intros [H1 H2]%agree_cons. cbn [eval_and]. rewrite (bool_ext en id) by done.
  by rewrite IH.
Qed.

Lemma or_ext en ids : agree ids -> eval_or ev en ids = eval_or ev' en ids.
Proof.
  induction ids as [|id ids IH]; [done|]. intros [H1 H2]%agree_cons. cbn [eval_or]. rewrite (bool_ext en id) by done.
  by rewrite IH.
Qed.

Lemma bind_ext {A B} (m : outcome A) (f g : A -> outcome B) : (forall a, m = Def a -> f a = g a) -> (x ← m; f x) = (x ← m; g x).
Proof. intros H. destruct m; cbn; auto. Qed.

Lemma fold_ext op en ids : agree ids -> forall acc, eval_fold ev op en acc ids = eval_fold ev' op en acc ids.
Proof.
  induction ids as [|id ids IH]; [done|]. intros [H1 H2]%agree_cons acc. cbn. rewrite H1. apply bind_ext. intros v _.
  apply bind_ext. intros acc' _. by apply IH.
Qed.

Lemma operands_ext op first en ids : agree ids -> eval_operands ev op first en ids = eval_operands ev' op first en ids.
Proof.
  destruct ids as [|id ids]; [done|]. intros [H1 H2]%agree_cons. cbn. rewrite H1. apply bind_ext. intros v _.
  apply bind_ext. intros w _. by apply fold_ext.
Qed.

Lemma match_ext en id anchor : agree (anchor_children anchor) -> eval_match s ev en id anchor = eval_match s ev' en id anchor.
Proof.
  destruct anchor as [|offset|[lo hi]]; [done|..]; cbn [anchor_children range_children lower_bound upper_bound]; intros H; cbn [eval_match].
  - by rewrite (int_ext en offset) by by apply agree_one.
  - apply agree_cons in H as [H1 [H2 _]%agree_cons].
    cbn [lower_bound upper_bound]. by rewrite (int_ext en lo), (int_ext en hi).
Qed.

Lemma quantifier_ext q n en : agree (Build.quantifier_operands q) -> eval_quantifier ev q n en = eval_quantifier ev' q n en.
Proof. destruct q; try done; cbn; intros H; by rewrite (int_ext en expr) by by apply agree_one. Qed.

Lemma quantify_ext {A B} q count (p p' : A -> outcome B) (t t' : B -> outcome bool) items :
  (forall x, x ∈ items -> p x = p' x) -> (forall y, t y = t' y) -> quantify q count p t items = quantify q count p' t' items.
Proof.
  intros Hp Ht. revert count. induction items as [|x items IH]; [done|]. intros count. cbn.
  rewrite Hp by (left; done). apply bind_ext. intros y _. rewrite Ht. apply bind_ext. intros b _.
  destruct q, b; try (destruct (k <=? count + 1)); try done; apply IH; intros z Hz; apply Hp; by right.
Qed.

Lemma loop_ext {A B} q (items : list A) (p p' : A -> outcome B) (t t' : B -> outcome bool) en :
  agree (Build.quantifier_operands q) -> (forall x, x ∈ items -> p x = p' x) -> (forall y, t y = t' y) ->
  eval_loop ev q items p t en = eval_loop ev' q items p' t' en.
Proof.
  intros Hq Hp Ht. unfold eval_loop. rewrite quantifier_ext by done. apply bind_ext. intros q' _. by rewrite (quantify_ext q' 0 p p' t t').
Qed.

Lemma with_ext decls : agree decls.*2 -> forall en, eval_with ev en decls = eval_with ev' en decls.
Proof.
  induction decls as [|[v id] decls IH]; [done|]. cbn. intros [H1 H2]%agree_cons en. rewrite H1. apply bind_ext. intros x _. by apply IH.
Qed.

Lemma range_ext en r : agree (range_children r) -> range_items ev en r = range_items ev' en r.
Proof.
  destruct r as [lo hi]. cbn. intros [H1 [H2 _]%agree_cons]%agree_cons. unfold range_items. cbn [lower_bound upper_bound].
  by rewrite (int_ext en lo), (int_ext en hi).
Qed.

Lemma count_ext en id range : agree (from_option range_children [] range) -> eval_count s ev en id range = eval_count s ev' en id range.
Proof.
  destruct range as [[lo hi]|]; [|done]. cbn. intros [H1 [H2 _]%agree_cons]%agree_cons. by rewrite (int_ext en lo), (int_ext en hi).
Qed.

Lemma nth_ext f en id index : agree (option_list index) -> eval_nth s ev f en id index = eval_nth s ev' f en id index.
Proof. destruct index as [i|]; [|done]. cbn. intros H. unfold eval_nth. by rewrite (int_ext en i) by by apply agree_one. Qed.

Lemma bind_cong {A B} (m m' : outcome A) (f g : A -> outcome B) : m = m' -> (forall a, f a = g a) -> (x ← m; f x) = (x ← m'; g x).
Proof. intros -> H. apply bind_ext. auto. Qed.

Ltac ext :=
  repeat first
    [ done
    | apply bool_ext | apply int_ext | apply list_ext | apply and_ext | apply or_ext | apply operands_ext | apply match_ext
    | apply count_ext | apply nth_ext | apply with_ext | apply range_ext | apply loop_ext; [|intros ? ?|intros ?]
    | apply bind_cong; [|intros ?] ].

Lemma ints_ext f en lhs rhs : agree [lhs; rhs] -> eval_ints ev f en lhs rhs = eval_ints ev' f en lhs rhs.
Proof. intros [H1 [H2 _]%agree_cons]%agree_cons. unfold eval_ints. ext. Qed.

Lemma compare_ext c en lhs rhs : agree [lhs; rhs] -> eval_compare ev c en lhs rhs = eval_compare ev' c en lhs rhs.
Proof. intros [H1 [H2 _]%agree_cons]%agree_cons. unfold eval_compare. ext. Qed.

Lemma str_ext op en lhs rhs : agree [lhs; rhs] -> eval_str s ev en op lhs rhs = eval_str s ev' en op lhs rhs.
Proof. intros [H1 [H2 _]%agree_cons]%agree_cons. unfold eval_str. ext. Qed.

(** The value of an expression depends on the values of its operands. *)
Lemma eval_node_ext en id node : agree (operands node) -> eval_node s ev en id node = eval_node s ev' en id node.
Proof.
  destruct node; try done; cbn [operands]; unfold children, dfs_children; rewrite ?fmap_app, ?plain_fst, ?agree_app; intros Ha;
    cbn [eval_node].
  all: try first [apply ints_ext, Ha | apply compare_ext, Ha | apply str_ext, Ha | apply operands_ext, Ha].
  all: try (pose proof (agree_one _ Ha)); ext.
  - f_equal. ext.
  - destruct Ha as [Ha _]. by rewrite context_fst in Ha.
  - apply agree_one. by destruct Ha.
  - destruct object as [o|]; [|done]. destruct Ha as [Ho _]. pose proof (agree_one _ Ho). ext.
  - by destruct Ha.
  - by destruct Ha.
  - destruct Ha as (_ & Hi & _). intros en'. by apply Hi.
  - by destruct Ha.
  - by destruct Ha.
  - by destruct Ha.
  - destruct Ha as [_ Hb]. by apply agree_one.
  - destruct Ha as (Hq & Hi & Hb). pose proof (agree_one _ Hb). destruct iterable as [r|items|i]; [| |done].
    + destruct variables as [|v [|]]; try done. apply bind_cong; [by apply range_ext|]. intros items.
      case_bool_decide; [done|]. apply loop_ext; [done|done|]. intros z. by apply bool_ext.
    + destruct variables as [|v [|]]; try done. apply loop_ext; [done| |].
      * intros i Hin. unfold agree in Hi. cbn in Hi. by rewrite (Hi en i Hin).
      * intros x. by apply bool_ext.
Qed.
End Ext.

(** * Evaluation without fuel *)

Section Values.
Context (ir : IR) (s : Scanned).
Hypothesis Hwo : well_ordered ir.

(** The value of an expression of the tree. *)
Definition value_of (en : env) (id : Z) : outcome value := eval ir s (S (Z.to_nat id)) en id.

Lemma eval_enough fuel en id : 0 <= id -> (Z.to_nat id < fuel)%nat -> eval ir s fuel en id = value_of en id.
Proof.
  revert fuel en id. enough (forall n fuel en id, 0 <= id -> (Z.to_nat id <= n)%nat -> (Z.to_nat id < fuel)%nat ->
    eval ir s fuel en id = value_of en id) as H by (intros; eapply H; [done|reflexivity|done]).
  induction n as [n IH] using lt_wf_ind. intros fuel en id Hid Hn Hf.
  destruct fuel as [|fuel]; [lia|]. unfold value_of. cbn [eval]. unfold get_node.
  destruct (get (nodes ir) id) as [e|] eqn:He; [|done]. cbn. apply eval_node_ext. intros en' c Hc.
  pose proof (Hwo id e He) as Ho. rewrite Forall_forall in Ho. specialize (Ho c Hc).
  rewrite (IH (Z.to_nat c)) by lia. symmetry. by rewrite (IH (Z.to_nat c)) by lia.
Qed.

Lemma value_of_node en id e : get ir.(nodes) id = Some e -> value_of en id = eval_node s value_of en id e.
Proof.
  intros He. unfold value_of at 1. cbn [eval]. unfold get_node. rewrite He. cbn. apply eval_node_ext. intros en' c Hc.
  pose proof (Hwo id e He) as Ho. rewrite Forall_forall in Ho. specialize (Ho c Hc). by apply eval_enough; lia.
Qed.
End Values.

(** A tree that begins with the nodes of another. *)
Definition extends (ir ir' : IR) : Prop := exists l, ir'.(nodes) = ir.(nodes) ++ l.

Lemma get_extends ir ir' id e : extends ir ir' -> get ir.(nodes) id = Some e -> get ir'.(nodes) id = Some e.
Proof.
  intros [l Hl] [Hid He]%get_Some. apply get_Some. split; [done|]. rewrite Hl. by apply lookup_app_l_Some.
Qed.

Lemma value_of_extends ir ir' s en id : well_ordered ir -> extends ir ir' -> in_tree ir id ->
  value_of ir' s en id = value_of ir s en id.
Proof.
  intros Hwo Hext Hin. unfold value_of. generalize (S (Z.to_nat id)). intros fuel. revert en id Hin.
  induction fuel as [|fuel IH]; [done|]. intros en id Hin. cbn [eval]. unfold get_node.
  destruct (in_tree_get ir id Hin) as [e He]. rewrite He, (get_extends _ _ _ _ Hext He). cbn. apply eval_node_ext.
  intros en' c Hc. apply IH. pose proof (Hwo id e He) as Ho. rewrite Forall_forall in Ho. specialize (Ho c Hc).
  unfold in_tree in *. lia.
Qed.
