(* ===== verification/IRBuildProps.v ===== *)
(** The functions that build the tree of a condition keep it a tree: every
    expression comes after its operands, and is the parent of each of them.
    Samples of hoisting are at the end. *)

From Stdlib Require Import SpecFloat.
From stdpp Require Import gmap strings.
From S2P Require Import Prelude.
From S2P Require Import Matches.
From S2P Require Import Float64.
From S2P Require Import Types.
From S2P Require Import IR.
From S2P Require Import IRDfs.
From S2P Require Import IRDfsProps.
From S2P Require Import IRBuild.
From S2P Require Import Eval.
From S2P Require Import EvalProps.
#[local] Open Scope Z_scope.

(** * New nodes *)

(** The parents once an expression is made the parent of its operands. *)
Definition reparent (ops : list Z) (id : Z) (parents : list Z) : list Z :=
  fold_left (fun ps op => <[Z.to_nat op := id]> ps) ops parents.

Lemma length_reparent ops id ps : length (reparent ops id ps) = length ps.
Proof. revert ps. induction ops as [|op ops IH]; [done|]. intros ps. cbn. unfold reparent in IH. by rewrite IH, length_insert. Qed.

Lemma reparent_in ops id ps op : op ∈ ops -> 0 <= op < len ps -> get (reparent ops id ps) op = Some id.
Proof.
  intros Hin Hop. apply get_Some. split; [lia|]. assert (Hlt : (Z.to_nat op < length ps)%nat) by (unfold len in Hop; lia).
  clear Hop. revert ps Hlt. induction ops as [|o ops IH]; [by apply elem_of_nil in Hin|]. intros ps Hlt. cbn.
  destruct (decide (op ∈ ops)) as [Ho|Ho]; [apply IH; [done|by rewrite length_insert]|].
  apply elem_of_cons in Hin as [->|]; [|done]. clear IH.
  assert (Hk : forall ps, ps !! Z.to_nat o = Some id -> reparent ops id ps !! Z.to_nat o = Some id).
  { clear -Ho. induction ops as [|o' ops IH]; [done|]. intros ps Hps. cbn. apply not_elem_of_cons in Ho as [_ Ho]. apply IH; [done|].
    destruct (decide (Z.to_nat o' = Z.to_nat o)) as [->|]; [apply list_lookup_insert_eq; by eapply lookup_lt_Some|].
    by rewrite list_lookup_insert_ne. }
  apply Hk. by apply list_lookup_insert_eq.
Qed.

Lemma reparent_out ops id ps i : Forall (fun op => 0 <= op) ops -> i ∉ ops -> get (reparent ops id ps) i = get ps i.
Proof.
  revert ps. induction ops as [|o ops IH]; [done|]. intros ps [H0 H1]%Forall_cons [Hne Hi]%not_elem_of_cons. cbn.
  unfold reparent in IH. rewrite IH by done. unfold get. destruct (i <? 0) eqn:E; bools; [done|].
  rewrite list_lookup_insert_ne by lia. done.
Qed.

Lemma for_each_cons_parent op nid (k : IR -> res IR) ir r : (ir ← set_parent op nid ir; k ir) = Ret r ->
  exists p, get ir.(parents) op = Some p /\ k (set_tree ir.(nodes) (<[Z.to_nat op := nid]> ir.(parents)) ir) = Ret r.
Proof. unfold set_parent. destruct (get (parents ir) op) as [p|]; [|done]. cbn. eauto. Qed.

Lemma new_node_Ret ops e ir ir' id : new_node ops e ir = Ret (ir', id) ->
  id = next_id ir /\ ir'.(nodes) = ir.(nodes) ++ [e] /\ ir'.(parents) = reparent ops id ir.(parents) ++ [ExprId_none] /\
  Forall (fun op => 0 <= op < len ir.(parents)) ops /\ ir'.(constant_folding) = ir.(constant_folding) /\ ir'.(root) = ir.(root).
Proof.
  unfold new_node. set (nid := next_id ir). intros H.
  destruct (for_each ops (fun op => set_parent op nid) ir) as [ir1| |] eqn:E; try done. cbn in H. injection H as <- <-. cbn.
  enough (ir1.(nodes) = ir.(nodes) /\ ir1.(parents) = reparent ops nid ir.(parents) /\
    Forall (fun op => 0 <= op < len ir.(parents)) ops /\ ir1.(constant_folding) = ir.(constant_folding) /\
    ir1.(root) = ir.(root)) as (-> & -> & ? & ? & ?) by done.
  clearbody nid. revert ir E. induction ops as [|op ops IH]; cbn; intros ir E; [injection E as <-; by split_and!|].
  apply for_each_cons_parent in E as (p & Hp & E).
  destruct (IH _ E) as (-> & -> & Hf & -> & ->). cbn in Hf |- *. split_and!; try done. apply get_lt in Hp. constructor; [done|].
  eapply Forall_impl; [exact Hf|]. cbn. intros x. unfold len. by rewrite length_insert.
Qed.

Lemma new_node_total ops e ir : Forall (fun op => 0 <= op < len ir.(parents)) ops -> exists ir' id, new_node ops e ir = Ret (ir', id).
Proof.
  intros Hops. unfold new_node. generalize (next_id ir). intros nid.
  enough (exists ir1, for_each ops (fun op => set_parent op nid) ir = Ret ir1) as [ir1 ->] by (cbn; eauto).
  revert ir Hops. induction ops as [|op ops IH]; cbn; intros ir Hops; [eauto|]. apply Forall_cons in Hops as [Hop Hops].
  destruct (get_is_Some _ _ Hop) as [p Hp]. assert (set_parent op nid ir =
    Ret (set_tree ir.(nodes) (<[Z.to_nat op := nid]> ir.(parents)) ir)) as -> by (unfold set_parent; by rewrite Hp).
  cbn. apply IH. cbn.
  eapply Forall_impl; [exact Hops|]. cbn. intros x. unfold len. by rewrite length_insert.
Qed.

(** * Trees *)

Definition is_root (ir : IR) (id : Z) : Prop := get ir.(parents) id = Some ExprId_none.

Record tree_ok (ir : IR) : Prop := {
  tk_len : length ir.(parents) = length ir.(nodes);
  tk_max : len ir.(nodes) < u32_MAX;
  tk_ordered : well_ordered ir;
  tk_child : forall p e c, get ir.(nodes) p = Some e -> c ∈ operands e -> get ir.(parents) c = Some p;
  tk_parent : forall c p, get ir.(parents) c = Some p ->
    p = ExprId_none \/ exists e, get ir.(nodes) p = Some e /\ c ∈ operands e;
}.

Lemma get_nil {A} i (x : A) : get [] i = Some x -> False.
Proof. intros H. apply get_lt in H. unfold len in H. cbn in H. lia. Qed.

Lemma tree_ok_new : tree_ok ir_new.
Proof.
  split; cbn; [done|done|intros id e H|intros p e c H|intros c p H]; exact (False_ind _ (get_nil _ _ H)).
Qed.

Lemma node_snoc {A} (l : list A) x i y : get (l ++ [x]) i = Some y <-> get l i = Some y \/ (i = len l /\ y = x).
Proof.
  unfold len. rewrite !get_Some. split.
  - intros [Hi [?|(Hn & Hx)]%lookup_app_Some]; [by left|right].
    apply list_lookup_singleton_Some in Hx as [? <-]. split; [lia|done].
  - intros [[Hi Hl]|[-> ->]]; (split; [lia|]); [by apply lookup_app_l_Some|].
    rewrite Nat2Z.id. apply list_lookup_middle. done.
Qed.

(** An expression whose operands are roots can be added. *)
Lemma add_node ir ir' ops e : tree_ok ir -> len ir.(nodes) + 1 < u32_MAX ->
  ir'.(nodes) = ir.(nodes) ++ [e] -> ir'.(parents) = reparent ops (len ir.(nodes)) ir.(parents) ++ [ExprId_none] ->
  (forall c, c ∈ ops <-> c ∈ operands e) -> Forall (is_root ir) ops -> tree_ok ir'.
Proof.
  intros [Hl Hm Ho Hc Hp] Hmax Hn Hps Hops Hroots. set (n := len ir.(nodes)) in *.
  assert (Hn0 : 0 <= n) by apply len_nonneg.
  assert (Hlen : len ir.(parents) = n) by (unfold len, n, len; lia).
  assert (Hin : forall c, c ∈ ops -> 0 <= c < n).
  { intros c Hcin. rewrite Forall_forall in Hroots. specialize (Hroots c Hcin). apply get_lt in Hroots. lia. }
  assert (Hpos : Forall (fun op => 0 <= op) ops) by (apply Forall_forall; intros; by apply Hin).
  assert (Hlen' : len (reparent ops n ir.(parents)) = n) by (unfold len in *; rewrite length_reparent; lia).
  split.
  - rewrite Hn, Hps, !length_app, length_reparent. cbn. lia.
  - rewrite Hn, len_app. unfold len at 2. cbn. lia.
  - intros id e' He'. rewrite Hn in He'. apply node_snoc in He' as [He'|[-> ->]]; [by apply (Ho id)|].
    apply Forall_forall. intros c Hce. apply Hin. by apply Hops.
  - intros p e' c He' Hce. rewrite Hn in He'. rewrite Hps. apply node_snoc in He' as [He'|[-> ->]].
    + apply node_snoc. left. rewrite reparent_out; [by eapply Hc|done|]. intros Hco. rewrite Forall_forall in Hroots.
      specialize (Hroots c Hco). pose proof (Hc p e' c He' Hce) as Hcp. unfold is_root in Hroots.
      apply get_lt in He'. assert (p = ExprId_none) as -> by congruence. unfold ExprId_none, u32_MAX in *. fold n in He'. lia.
    + apply node_snoc. left. fold n. apply reparent_in; [by apply Hops|]. rewrite Hlen. apply Hin. by apply Hops.
  - intros c p Hcp. rewrite Hps in Hcp. apply node_snoc in Hcp as [Hcp|[_ ->]]; [|by left].
    destruct (decide (c ∈ ops)) as [Hco|Hco].
    + rewrite reparent_in in Hcp; [|done|rewrite Hlen; by apply Hin]. injection Hcp as <-. right. exists e.
      split; [rewrite Hn; apply node_snoc; by right|by apply Hops].
    + rewrite reparent_out in Hcp by done. apply Hp in Hcp as [?|(e' & He' & Hce)]; [by left|right].
      exists e'. split; [rewrite Hn; apply node_snoc; by left|done].
Qed.

Lemma next_id_len ir : len ir.(nodes) < u32_MAX -> next_id ir = len ir.(nodes).
Proof. intros H. unfold next_id, wrap_u32. apply Z.mod_small. pose proof (len_nonneg ir.(nodes)). unfold u32_MAX in H. lia. Qed.

(** ** Builders

    A builder adds one expression, whose operands are among the given ones. *)
Definition builder (ops : list Z) (f : IR -> res (IR * Z)) : Prop :=
  forall ir ir' id, f ir = Ret (ir', id) ->
    exists ops' e, new_node ops' e ir = Ret (ir', id) /\ (forall c, c ∈ ops' <-> c ∈ operands e) /\ ops' ⊆ ops.

(** The result of the functions that may fail. *)
Definition ok_of (f : IR -> res (IR * Z + Error)) (ir : IR) : res (IR * Z) :=
  r ← f ir; match r with inl r => Ret r | inr _ => Panic end.

Lemma builder_tree ops f ir ir' id : builder ops f -> f ir = Ret (ir', id) -> tree_ok ir -> len ir.(nodes) + 1 < u32_MAX ->
  Forall (is_root ir) ops ->
  tree_ok ir' /\ id = len ir.(nodes) /\ extends ir ir' /\ is_root ir' id.
Proof.
  intros Hf Hr Hok Hmax Hroots. destruct (Hf _ _ _ Hr) as (ops' & e & Hn & Hops & Hsub).
  assert (Hroots' : Forall (is_root ir) ops') by (rewrite Forall_forall in *; intros c Hc; auto).
  apply new_node_Ret in Hn as (-> & Hn & Hp & _ & _). rewrite next_id_len in * by (destruct Hok; lia).
  split_and!; [by eapply add_node|done|by exists [e]|].
  unfold is_root. rewrite Hp. apply node_snoc. right. split; [|done]. unfold len. rewrite length_reparent. destruct Hok. lia.
Qed.

Lemma builder_new ops e : (forall c, c ∈ ops <-> c ∈ operands e) -> builder ops (new_node ops e).
Proof. intros H ir ir' id Hr. exists ops, e. split_and!; [done|done|by intros ?]. Qed.

Lemma builder_constant ops v : builder ops (Build.constant v).
Proof. intros ir ir' id Hr. exists [], (Expr.Const v). split_and!; [done|done|by intros ? ?%elem_of_nil]. Qed.

Lemma res_bind_Ret {A B} (m : res A) (f : A -> res B) b : (x ← m; f x) = Ret b -> exists a, m = Ret a /\ f a = Ret b.
Proof. destruct m; cbn; intros; try discriminate. eauto. Qed.

Lemma retain_sub {A} (keep : A -> res bool) l l' : retain keep l = Ret l' -> l' ⊆ l.
Proof.
  revert l'. induction l as [|x l IH]; cbn; intros l' H; [injection H as <-; done|].
  apply res_bind_Ret in H as (b & Hb & H). apply res_bind_Ret in H as (l1 & Hl1 & H). injection H as <-.
  specialize (IH _ Hl1). destruct b; intros y; rewrite ?elem_of_cons; [intros [->|?%IH]; auto|intros ?%IH; auto].
Qed.

Lemma plain_operands e l : dfs_children e = plain l -> operands e = children e -> forall c, c ∈ l <-> c ∈ operands e.
Proof. intros H1 H2 c. rewrite H2. unfold children. by rewrite H1, plain_fst. Qed.

(** The identifier of each expression that is added is fresh; the operands are
    those that the expression refers to. *)
Ltac same_operands :=
  intros c; cbn [operands]; unfold children, dfs_children; rewrite ?fmap_app, ?plain_fst, ?context_fst, ?elem_of_app; cbn; tauto.

Section Calls.

Lemma builder_ident s : builder [] (Build.ident s).
Proof.
  intros ir ir' id. unfold Build.ident. destruct (_ && _); [apply builder_constant|apply builder_new; same_operands].
Qed.

Lemma builder_not op : builder [op] (Build.not op).
Proof.
  intros ir ir' id H. unfold Build.not in H. apply res_bind_Ret in H as (c & _ & H).
  destruct c; [by apply (builder_constant [op]) in H|]. revert H. apply builder_new. same_operands.
Qed.

Lemma builder_bitwise_not op : builder [op] (Build.bitwise_not op).
Proof.
  intros ir ir' id H. unfold Build.bitwise_not in H. apply res_bind_Ret in H as (c & _ & H).
  destruct c; [by apply (builder_constant [op]) in H|]. revert H. apply builder_new. same_operands.
Qed.

Lemma builder_minus op : builder [op] (Build.minus op).
Proof.
  intros ir ir' id H. unfold Build.minus in H. apply res_bind_Ret in H as (e & _ & H).
  assert (Hn : builder [op] (new_node [op] (Expr.Minus (bool_decide (expr_ty e = Ty.Float)) op))) by (apply builder_new; same_operands).
  destruct (if constant_folding ir then expr_type_value e else TypeValue.Unknown) as [| |[]|[]| | | | | |];
    first [by apply (builder_constant [op]) in H | by apply Hn].
Qed.

Lemma builder_binary f e lhs rhs : (forall c, c ∈ [lhs; rhs] <-> c ∈ operands (e lhs rhs)) -> builder [lhs; rhs] (Build.binary f e lhs rhs).
Proof.
  intros Hop ir ir' id H. unfold Build.binary in H. apply res_bind_Ret in H as (c & _ & H).
  destruct (c ≫= _); [by apply (builder_constant [lhs; rhs]) in H|]. by apply (builder_new _ _ Hop).
Qed.

Lemma builder_junction neutral e ops : (forall l c, c ∈ l <-> c ∈ operands (e l)) -> builder ops (ok_of (Build.junction neutral e ops)).
Proof.
  intros Hop ir ir' id H. unfold ok_of, Build.junction in H. apply res_bind_Ret in H as (r & H & Hr).
  destruct r as [r|]; [|done]. injection Hr as ->. apply res_bind_Ret in H as (ops' & Hops & H).
  assert (Hsub : ops' ⊆ ops).
  { destruct (constant_folding ir); [by eapply retain_sub|by injection Hops as <-]. }
  apply res_bind_Ret in H as (d & _ & H). destruct d as [b|].
  - apply res_bind_Ret in H as (r & H & Hr). injection Hr as ->. by apply (builder_constant ops) in H.
  - apply res_bind_Ret in H as (r & H & Hr). injection Hr as ->. exists ops', (e ops'). split_and!; [done|apply Hop|done].
Qed.

Lemma builder_arithmetic f e ops : (forall b l c, c ∈ l <-> c ∈ operands (e b l)) -> builder ops (ok_of (Build.arithmetic f e ops)).
Proof.
  intros Hop ir ir' id H. unfold ok_of, Build.arithmetic in H. apply res_bind_Ret in H as (r & H & Hr).
  destruct r as [r|]; [|done]. injection Hr as ->. apply res_bind_Ret in H as (b & _ & H). apply res_bind_Ret in H as (v & _ & H).
  destruct v as [[v|]|]; [| |done]; apply res_bind_Ret in H as (r & H & Hr); injection Hr as ->.
  - by apply (builder_constant ops) in H.
  - by apply (builder_new _ _ (Hop b ops)).
Qed.

Lemma builder_div ops : builder ops (ok_of (Build.div ops)).
Proof.
  intros ir ir' id H. unfold ok_of, Build.div in H. apply res_bind_Ret in H as (r & H & Hr).
  apply res_bind_Ret in H as (b & _ & H). apply res_bind_Ret in H as (r' & H & Hr'). injection Hr' as <-. injection Hr as ->.
  revert H. apply builder_new. same_operands.
Qed.

Lemma builder_modulus ops : builder ops (ok_of (Build.modulus ops)).
Proof.
  intros ir ir' id H. unfold ok_of, Build.modulus in H. apply res_bind_Ret in H as (r & H & Hr).
  apply res_bind_Ret in H as (r' & H & Hr'). injection Hr' as <-. injection Hr as ->. revert H. apply builder_new. same_operands.
Qed.

Lemma builder_field_access ops : builder ops (Build.field_access ops).
Proof.
  intros ir ir' id H. unfold Build.field_access in H. apply res_bind_Ret in H as (op & _ & H). apply res_bind_Ret in H as (v & _ & H).
  destruct (_ && _); [by apply (builder_constant ops) in H|]. revert H. apply builder_new. same_operands.
Qed.

Lemma builder_with decls body : builder (decls.*2 ++ [body]) (Build.with_ decls body).
Proof.
  intros ir ir' id H. unfold Build.with_ in H. apply res_bind_Ret in H as (v & _ & H). revert H. apply builder_new. same_operands.
Qed.
End Calls.

(** The calls of the functions of [impl IR], with the operands that they take. *)
Inductive call : list Z -> (IR -> res (IR * Z)) -> Prop :=
  | call_filesize : call [] Build.filesize
  | call_constant v : call [] (Build.constant v)
  | call_ident s : call [] (Build.ident s)
  | call_lookup v a b : call [a; b] (Build.lookup v a b)
  | call_not a : call [a] (Build.not a)
  | call_and l : call l (ok_of (Build.and l))
  | call_or l : call l (ok_of (Build.or l))
  | call_defined a : call [a] (Build.defined a)
  | call_minus a : call [a] (Build.minus a)
  | call_bitwise_not a : call [a] (Build.bitwise_not a)
  | call_bitwise_and a b : call [a; b] (Build.bitwise_and a b)
  | call_bitwise_or a b : call [a; b] (Build.bitwise_or a b)
  | call_bitwise_xor a b : call [a; b] (Build.bitwise_xor a b)
  | call_shl a b : call [a; b] (Build.shl a b)
  | call_shr a b : call [a; b] (Build.shr a b)
  | call_add l : call l (ok_of (Build.add l))
  | call_sub l : call l (ok_of (Build.sub l))
  | call_mul l : call l (ok_of (Build.mul l))
  | call_div l : call l (ok_of (Build.div l))
  | call_modulus l : call l (ok_of (Build.modulus l))
  | call_field_access l : call l (Build.field_access l)
  | call_eq a b : call [a; b] (Build.eq a b)
  | call_ne a b : call [a; b] (Build.ne a b)
  | call_ge a b : call [a; b] (Build.ge a b)
  | call_gt a b : call [a; b] (Build.gt a b)
  | call_le a b : call [a; b] (Build.le a b)
  | call_lt a b : call [a; b] (Build.lt a b)
  | call_contains a b : call [a; b] (Build.contains a b)
  | call_icontains a b : call [a; b] (Build.icontains a b)
  | call_starts_with a b : call [a; b] (Build.starts_with a b)
  | call_istarts_with a b : call [a; b] (Build.istarts_with a b)
  | call_ends_with a b : call [a; b] (Build.ends_with a b)
  | call_iends_with a b : call [a; b] (Build.iends_with a b)
  | call_iequals a b : call [a; b] (Build.iequals a b)
  | call_matches a b : call [a; b] (Build.matches a b)
  | call_matches_regex_set a r : call [a] (Build.matches_regex_set a r)
  | call_pattern_match p a : call (anchor_children a) (Build.pattern_match p a)
  | call_pattern_match_var s a : call (anchor_children a) (Build.pattern_match_var s a)
  | call_pattern_length p i : call (option_list i) (Build.pattern_length p i)
  | call_pattern_length_var s i : call (option_list i) (Build.pattern_length_var s i)
  | call_pattern_offset p i : call (option_list i) (Build.pattern_offset p i)
  | call_pattern_offset_var s i : call (option_list i) (Build.pattern_offset_var s i)
  | call_pattern_count p r : call (from_option range_children [] r) (Build.pattern_count p r)
  | call_pattern_count_var s r : call (from_option range_children [] r) (Build.pattern_count_var s r)
  | call_func_call o l f : call (l ++ option_list o) (Build.func_call o l f)
  | call_of_expr_tuple q v l a : call (Build.quantifier_operands q ++ l ++ anchor_children a) (Build.of_expr_tuple q v l a)
  | call_of_pattern_set q v l a : call (Build.quantifier_operands q ++ anchor_children a) (Build.of_pattern_set q v l a)
  | call_for_of q v l b : call (Build.quantifier_operands q ++ [b]) (Build.for_of q v l b)
  | call_for_in q vs v i b : call (Build.quantifier_operands q ++ iterable_children i ++ [b]) (Build.for_in q vs v i b)
  | call_with d b : call (d.*2 ++ [b]) (Build.with_ d b).

Lemma call_builder ops f : call ops f -> builder ops f.
Proof.
  intros [].
  all: try (apply builder_new; same_operands).
  all: try (apply builder_binary; same_operands).
  all: try (apply builder_junction; intros l0; same_operands).
  all: try (apply builder_arithmetic; intros b0 l0; same_operands).
  all: auto using builder_ident, builder_not, builder_bitwise_not, builder_minus, builder_div, builder_modulus,
    builder_field_access, builder_with, builder_constant.
Qed.

(** * The trees that the compiler builds

    Each operand is the result of a previous call, used once. *)
Inductive built : IR -> Prop :=
  | built_new : built ir_new
  | built_folding ir b : built ir -> built (set_constant_folding b ir)
  | built_root ir id : built ir -> built (set_root id ir)
  | built_clear ir : built ir -> built (ir_clear ir)
  | built_call ir ops f ir' id : built ir -> call ops f -> Forall (is_root ir) ops ->
      len ir.(nodes) + 1 < u32_MAX -> f ir = Ret (ir', id) -> built ir'.

Lemma built_ok ir : built ir -> tree_ok ir.
Proof.
  induction 1 as [|ir b Hb [? ? ? ? ?]|ir id Hb [? ? ? ? ?]|ir Hb _|ir ops f ir' id Hb IH Hcall Hroots Hmax Hf].
  - apply tree_ok_new.
  - by split.
  - by split.
  - destruct tree_ok_new as [? ? Ho Hc Hp]. split; [done|done|exact Ho|exact Hc|exact Hp].
  - by destruct (builder_tree ops f ir ir' id (call_builder _ _ Hcall) Hf IH Hmax Hroots).
Qed.

(** C37: in every tree that the functions of [impl IR] build, each expression
    comes after its operands and is their parent, and has at most one parent;
    the identifiers are the positions of the expressions. *)
Theorem built_tree (ir : IR) (Hbuilt : built ir) :
  length ir.(parents) = length ir.(nodes) /\ well_ordered ir /\ ordered ir /\
  (forall p e c, get ir.(nodes) p = Some e -> c ∈ operands e -> get ir.(parents) c = Some p) /\
  (forall c p, get ir.(parents) c = Some p -> p = ExprId_none \/ exists e, get ir.(nodes) p = Some e /\ c ∈ operands e).
Proof. destruct (built_ok ir Hbuilt) as [? ? Ho ? ?]. split_and!; [done|done|by apply well_ordered_ordered|done|done]. Qed.

(** The chain of the ancestors of an expression. *)
Fixpoint chain (ir : IR) (id : Z) (l : list Z) : Prop :=
  match l with
  | [] => is_root ir id
  | p :: l => (exists e, get ir.(nodes) p = Some e /\ id ∈ operands e) /\ id < p /\ chain ir p l
  end.

Lemma ancestors_step fuel ir current : ancestors (S fuel) ir current =
  if current =? ExprId_none then Ret []
  else
    parent ← or_panic (get ir.(parents) current);
    if parent =? ExprId_none then Ret []
    else rest ← ancestors fuel ir parent; Ret (parent :: rest).
Proof. done. Qed.

(** The iterator of the ancestors of an expression ends: it goes up from
    each expression to the one that has it as an operand, up to one that has no
    parent. *)
Theorem ancestors_end (ir : IR) (id : Z) (Htree : tree_ok ir) (Hin : in_tree ir id) :
  exists l, ancestors (S (length ir.(nodes))) ir id = Ret l /\ chain ir id l.
Proof.
  assert (H : forall fuel id, in_tree ir id -> (Z.of_nat (length ir.(nodes)) - id <= Z.of_nat fuel) ->
    exists l, ancestors (S fuel) ir id = Ret l /\ chain ir id l); [|apply H; [done|unfold in_tree in Hin; lia]].
  clear id Hin. destruct Htree as [Hl Hm Ho Hc Hp]. induction fuel as [|fuel IH]; intros id Hin Hfuel.
  { unfold in_tree, len in Hin. lia. }
  rewrite ancestors_step. assert (id =? ExprId_none = false) as ->.
  { apply Z.eqb_neq. unfold in_tree in Hin. unfold ExprId_none. lia. }
  destruct (get_is_Some ir.(parents) id) as [p Hgp]; [unfold in_tree, len in *; rewrite Hl; lia|].
  rewrite Hgp. cbn [or_panic mbind res_bind]. destruct (p =? ExprId_none) eqn:E; bools.
  - exists []. split; [done|]. cbn. unfold is_root. by rewrite Hgp, E.
  - destruct (Hp id p Hgp) as [?|(e & He & Hop)]; [done|].
    pose proof (Ho p e He) as Hlt. rewrite Forall_forall in Hlt. specialize (Hlt id Hop).
    destruct (IH p) as (l & Hanc & Hch); [unfold in_tree; by apply get_lt in He|lia|].
    rewrite Hanc. cbn. exists (p :: l). split; [done|].
    cbn. split_and!; [eauto|lia|done].
Qed.

(** [filesize < 10 + 5 and not other_rule] *)
Definition sample_calls : list (list Z * (IR -> res (IR * Z))) :=
  [([], Build.filesize); ([], Build.constant (const_integer_from 10)); ([], Build.constant (const_integer_from 5));
   ([1; 2], ok_of (Build.add [1; 2])); ([0; 3], Build.lt 0 3); ([], Build.ident (Symbol.Rule 0)); ([5], Build.not 5);
   ([4; 6], ok_of (Build.and [4; 6]))].

Definition is_rootb (ir : IR) (id : Z) : bool := bool_decide (get ir.(parents) id = Some ExprId_none).

(** The calls in order, as long as the operands have no parent. *)
Definition run_calls (calls : list (list Z * (IR -> res (IR * Z)))) (ir : IR) : res IR :=
  for_each calls (fun '(ops, f) ir =>
    _ ← assert (forallb (is_rootb ir) ops && (len ir.(nodes) + 1 <? u32_MAX)); '(ir, _) ← f ir; Ret ir) ir.

Definition sample_tree : IR :=
  match run_calls sample_calls (set_constant_folding true ir_new) with Ret ir => ir | _ => ir_new end.

Lemma built_calls calls ir ir' : built ir -> Forall (fun '(ops, f) => call ops f) calls ->
  run_calls calls ir = Ret ir' -> built ir'.
Proof.
  revert ir. induction calls as [|[ops f] calls IH]; intros ir Hb Hcalls Hrun; [by injection Hrun as <-|].
  apply Forall_cons in Hcalls as [Hcall Hcalls]. unfold run_calls in Hrun. cbn in Hrun.
  apply res_bind_Ret in Hrun as (ir1 & Hf & Hrun). apply res_bind_Ret in Hf as ([] & Ha & Hf).
  unfold assert in Ha. destruct (_ && _) eqn:E in Ha; [|done]. apply andb_true_iff in E as [Hro Hmax].
  apply res_bind_Ret in Hf as ([ir1' id] & Hf & Hr). injection Hr as ->. apply (IH ir1); [|done|done].
  eapply built_call; [exact Hb|exact Hcall| |by apply Z.ltb_lt|exact Hf].
  apply Forall_forall. intros op Hop. rewrite forallb_forall in Hro. apply list_elem_of_In in Hop.
  by apply Hro, bool_decide_eq_true_1 in Hop.
Qed.

Lemma sample_built : built sample_tree.
Proof.
  apply (built_calls sample_calls (set_constant_folding true ir_new)); [apply built_folding, built_new| |vm_compute; reflexivity].
  repeat constructor.
Qed.

Example sample_folded : get sample_tree.(nodes) 3 = Some (Expr.Const (const_integer_from 15)).
Proof. vm_compute. reflexivity. Qed.

Lemma built_tree_witness : built sample_tree /\ well_ordered sample_tree.
Proof. split; [exact sample_built|]. apply (built_tree sample_tree), sample_built. Defined.

Lemma ancestors_end_witness :
  in_tree sample_tree 0 /\ exists l, ancestors (S (length sample_tree.(nodes))) sample_tree 0 = Ret l /\ chain sample_tree 0 l.
Proof.
  assert (Hin : in_tree sample_tree 0) by (unfold in_tree; vm_compute; split; [discriminate|reflexivity]).
  split; [exact Hin|]. apply (ancestors_end sample_tree 0 (built_ok _ sample_built) Hin).
Defined.

(** * Hoisting *)

Definition int_var (i : Z) : Var.t := Var.Build_t 0 Ty.Integer i.
Definition bool_var (i : Z) : Var.t := Var.Build_t 0 Ty.Bool i.
Definition vars_from (i : Z) : ForVars :=
  {| fv_n := int_var i; fv_i := int_var (i + 1); fv_max_count := int_var (i + 2); fv_count := int_var (i + 3);
     fv_item := int_var (i + 4) |}.

(** The root is the last expression; the first two are the bounds of [(0..1)]. *)
Definition built_condition (calls : list (list Z * (IR -> res (IR * Z)))) : res IR :=
  ir ← run_calls ([([], Build.constant (const_integer_from 0)); ([], Build.constant (const_integer_from 1))] ++ calls) ir_new;
  Ret (set_root (Some (len ir.(nodes) - 1)) ir).

Definition zero_to_one : Iterable.t := Iterable.Range {| lower_bound := 0; upper_bound := 1 |}.

(** Two patterns, of which the first one matches. *)
Definition hoisting_scan : Scanned :=
  {| sc_filesize := 4; sc_data := [1; 2; 3; 4];
     sc_matches := {| pattern_lists := {[ 0 := {| matches := [match_new (0, 3)]; list_capacity := 8 |} ]};
                      max_matches_per_pattern := 10; total_capacity := 8 |};
     sc_patterns := [0; 1]; sc_call := fun _ _ _ => None; sc_str := fun _ _ _ => false; sc_other := fun _ _ => Stuck |}.

(** The condition before and after hoisting. *)
Definition hoisted_condition (calls : list (list Z * (IR -> res (IR * Z)))) : res (outcome bool * outcome bool) :=
  ir ← built_condition calls; '(hoisted, _) ← hoisting ir;
  Ret (condition ir hoisting_scan 20, condition hoisted hoisting_scan 20).

(** [defined (for any x in (0..1) : (f() == 0))], as in the tests of the code: the
    call is the value of the variable 0, and the comparison of the variable 1. *)
Definition undef_call : FuncSignature := {| mangled_name := "f@@iu"; IR.result := unknown_integer |}.

Example hoisted_tree :
  (ir ← built_condition
     [([], Build.func_call None [] undef_call); ([], Build.constant (const_integer_from 0)); ([2; 3], Build.eq 2 3);
      ([0; 1; 4], Build.for_in Quantifier.Any [int_var 5] (vars_from 0) zero_to_one 4); ([5], Build.defined 5)];
   '(hoisted, root) ← hoisting ir; Ret (root, drop 2 hoisted.(nodes), drop 2 hoisted.(parents))) =
  Ret (6,
       [Expr.Symbol (Symbol.Var (int_var 0) unknown_integer); Expr.Const (const_integer_from 0);
        Expr.Symbol (Symbol.Var (bool_var 1) unknown_bool);
        Expr.ForIn Quantifier.Any [int_var 7] (vars_from 2) zero_to_one 4; Expr.Defined 8;
        Expr.FuncCall None undef_call []; Expr.With unknown_bool [(int_var 0, 7)] 10;
        Expr.Eq 2 3; Expr.With unknown_bool [(bool_var 1, 9)] 5],
       [9; 9; 5; 10; ExprId_none; 8; 6; 10; 8]).
Proof. vm_compute. reflexivity. Qed.

(** [for all i in (0..1) : (for any of ($b) : (not $))]: the search for variables
    only sees those that are expressions, so [not $] leaves the loop that
    declares [$]. *)
Example hoisted_before_its_variable :
  hoisted_condition
    [([], Build.pattern_match_var (Symbol.Var (int_var 11) unknown_integer) MatchAnchor.None); ([2], Build.not 2);
     ([3], Build.for_of Quantifier.Any (vars_from 7) [1] 3);
     ([0; 1; 4], Build.for_in Quantifier.All [int_var 5] (vars_from 0) zero_to_one 4)] = Ret (Def true, Def false).
Proof. vm_compute. reflexivity. Qed.

(** [for any x in (for all i in (0..1) : (filesize > 0)) : (x)]: the inner loop is an
    item of the outer one, where [replace_child] does not replace it, and the
    value of [filesize > 0] is never computed. *)
Example hoisted_out_of_the_tree :
  hoisted_condition
    [([], Build.filesize); ([], Build.constant (const_integer_from 0)); ([2; 3], Build.gt 2 3);
     ([0; 1; 4], Build.for_in Quantifier.All [int_var 12] (vars_from 7) zero_to_one 4);
     ([], Build.ident (Symbol.Var (bool_var 5) unknown_bool));
     ([5; 6], Build.for_in Quantifier.Any [bool_var 5] (vars_from 0) (Iterable.ExprTuple [5]) 6)] = Ret (Def true, Def false).
Proof. vm_compute. reflexivity. Qed.

(** [(0..9223372036854775807)]: the upper bound is incremented before it is
    checked. *)
Example num_iterations_overflow :
  (ir ← run_calls [([], Build.constant (const_integer_from 0)); ([], Build.constant (const_integer_from i64_MAX))] ir_new;
   num_iterations ir zero_to_one) = Panic.
Proof. vm_compute. reflexivity. Qed.
