(* ===== verification/IRFold.v ===== *)
(** The folding of constants by the functions that build conditions: what it
    computes, and that it does not change the value of the expression. *)

From Stdlib Require Import SpecFloat.
From stdpp Require Import gmap strings.
From S2P Require Import Prelude.
From S2P Require Import Matches.
From S2P Require Import Float64.
From S2P Require Import Types.
From S2P Require Import IR.
From S2P Require Import IRDfs.
From S2P Require Import IRDfsProps.
From S2P Require Import IRBuild.
From S2P Require Import Builtins.
From S2P Require Import Eval.
From S2P Require Import EvalProps.
From S2P Require Import IRBuildProps.
#[local] Open Scope Z_scope.

(** * Arithmetic *)

(** The results of an operation on the values from left to right. *)
Fixpoint partials (op : Z -> Z -> Z) (acc : Z) (vs : list Z) : list Z :=
  match vs with [] => [] | v :: vs => op acc v :: partials op (op acc v) vs end.

Definition int_op_of (f : f64 -> f64 -> f64) (op : Z -> Z -> Z) : Prop :=
  forall a b x y, rep a x -> rep b y -> safe (op x y) -> rep (f a b) (op x y).

Lemma add_op : int_op_of f64_add Z.add.
Proof. intros a b x y. apply f64_add_rep. Qed.
Lemma sub_op : int_op_of f64_sub Z.sub.
Proof. intros a b x y. apply f64_sub_rep. Qed.
Lemma mul_op : int_op_of f64_mul Z.mul.
Proof. intros a b x y. apply f64_mul_rep. Qed.

Lemma fold_rep f op vs : int_op_of f op -> Forall safe vs -> forall a x, rep a x -> Forall safe (partials op x vs) ->
  rep (fold_left f (f64_of_i64 <$> vs) a) (fold_left op vs x).
Proof.
  intros Hop. induction 1 as [|v vs Hv Hvs IH]; intros a x Ha Hp; [done|]. cbn in *. apply Forall_cons in Hp as [Hs Hp].
  apply IH; [|done]. apply Hop; [done|by apply of_i64_rep|done].
Qed.

Lemma rep_in_range f n : rep f n -> f64_le (f64_of_i64 i64_MIN) f && f64_le f (f64_of_i64 i64_MAX) = true.
Proof.
  intros Hr. destruct (rep_valid _ _ Hr) as [Hv Hf]. pose proof (num_rep _ _ Hr) as Hn. destruct Hr as [Hs _]. unfold safe in Hs.
  assert (Hmin : f64_valid (f64_of_i64 i64_MIN) /\ is_finite (f64_of_i64 i64_MIN) = true /\
                 num (f64_of_i64 i64_MIN) = - 2 ^ 63 * 2 ^ 1074) by (vm_compute; done).
  assert (Hmax : f64_valid (f64_of_i64 i64_MAX) /\ is_finite (f64_of_i64 i64_MAX) = true /\
                 num (f64_of_i64 i64_MAX) = 2 ^ 63 * 2 ^ 1074) by (vm_compute; done).
  destruct Hmin as (? & ? & E1), Hmax as (? & ? & E2). unfold f64_le, SFleb. rewrite !f64_compare by done. rewrite E1, E2, Hn.
  destruct (Z.compare_spec (- 2 ^ 63 * 2 ^ 1074) (n * 2 ^ 1074)), (Z.compare_spec (n * 2 ^ 1074) (2 ^ 63 * 2 ^ 1074)); (done || lia).
Qed.

(** The operands are constant integers, with these values. *)
Definition const_ints (ir : IR) (ops : list Z) (vs : list Z) : Prop :=
  Forall2 (fun op v => exists e cs, get ir.(nodes) op = Some e /\ expr_type_value e = TypeValue.Integer (Value.Const v) cs) ops vs.

Lemma type_value_of_Ret ir id e : get ir.(nodes) id = Some e -> type_value_of ir id = Ret (expr_type_value e).
Proof. intros H. unfold type_value_of, ir_get. by rewrite H. Qed.

Lemma const_ints_all ir ops vs : const_ints ir ops vs -> all (is_const ir) ops = Ret true /\
  collect (fun op => v ← type_value_of ir op; Build.as_f64 v) ops = Ret (f64_of_i64 <$> vs).
Proof.
  induction 1 as [|op v ops vs (e & cs & He & Hv) _ [IH1 IH2]]; [done|].
  assert (Hc : is_const ir op = Ret true) by (unfold is_const; rewrite (type_value_of_Ret _ _ _ He), Hv; done).
  cbn. rewrite Hc, (type_value_of_Ret _ _ _ He), Hv. cbn. by rewrite IH1, IH2.
Qed.

Lemma fold_arithmetic_ints ir f op ids v vs : int_op_of f op -> const_ints ir ids (v :: vs) -> Forall safe (v :: vs) ->
  Forall safe (partials op v vs) ->
  Build.fold_arithmetic ids false f ir = Ret (inl (Some (const_integer_from (fold_left op vs v)))).
Proof.
  intros Hop Hconst Hsafe Hpartial.
  unfold Build.fold_arithmetic. destruct (const_ints_all _ _ _ Hconst) as [-> ->]. cbn [mbind res_bind fmap list_fmap Build.reduce or_panic].
  apply Forall_cons in Hsafe as [Hv Hvs].
  assert (Hr : rep (fold_left f (f64_of_i64 <$> vs) (f64_of_i64 v)) (fold_left op vs v)).
  { apply fold_rep; [done|done|by apply of_i64_rep|done]. }
  rewrite (rep_in_range _ _ Hr), (f64_to_i64_rep _ _ Hr). done.
Qed.

(** C39: integers are folded in floating point, and the result is the exact one
    as long as the operands and the partial results are below 2^53: the
    addition, subtraction or multiplication from left to right. *)
Theorem fold_arithmetic_exact (ir : IR) (f : f64 -> f64 -> f64) (op : Z -> Z -> Z) (ids : list Z) (v : Z) (vs : list Z)
  (Hop : int_op_of f op) (Hconst : const_ints ir ids (v :: vs)) (Hsafe : Forall safe (v :: vs))
  (Hpartial : Forall safe (partials op v vs)) :
  Build.fold_arithmetic ids false f ir = Ret (inl (Some (const_integer_from (fold_left op vs v)))).
Proof. by apply fold_arithmetic_ints. Qed.

(** [1 + 2 + 9007199254740988] *)
Definition fold_sample : IR :=
  set_tree [Expr.Const (const_integer_from 1); Expr.Const (const_integer_from 2); Expr.Const (const_integer_from 9007199254740988)]
    [ExprId_none; ExprId_none; ExprId_none] (set_constant_folding true ir_new).

Lemma fold_arithmetic_exact_witness :
  const_ints fold_sample [0; 1; 2] [1; 2; 9007199254740988] /\
  Build.fold_arithmetic [0; 1; 2] false f64_add fold_sample = Ret (inl (Some (const_integer_from 9007199254740991))).
Proof.
  assert (H : const_ints fold_sample [0; 1; 2] [1; 2; 9007199254740988]) by (repeat constructor; do 2 eexists; split; reflexivity).
  split; [exact H|]. apply (fold_arithmetic_exact fold_sample f64_add Z.add [0; 1; 2] 1 [2; 9007199254740988] add_op H);
    repeat constructor; unfold safe; lia.
Defined.

(** Beyond 2^53 the result is not the one that the emitted code computes: it is
    rounded, and the sum that overflows is the greatest integer instead of an
    error. *)
Definition fold_large (a b : Z) : IR :=
  set_tree [Expr.Const (const_integer_from a); Expr.Const (const_integer_from b)] [ExprId_none; ExprId_none]
    (set_constant_folding true ir_new).

Example fold_rounds :
  Build.fold_arithmetic [0; 1] false f64_add (fold_large 9007199254740993 0) = Ret (inl (Some (const_integer_from 9007199254740992))).
Proof. vm_compute. reflexivity. Qed.

Example fold_saturates :
  Build.fold_arithmetic [0; 1] false f64_add (fold_large i64_MAX 1) = Ret (inl (Some (const_integer_from i64_MAX))).
Proof. vm_compute. reflexivity. Qed.

(** * Folding does not change the value *)

#[local] Arguments new_node : simpl never.
#[local] Arguments Build.constant : simpl never.
#[local] Arguments value_of : simpl never.

Section Fold.
Context (ir : IR) (s : Scanned) (en : env).
Hypothesis Htree : tree_ok ir.

Notation value := (value_of ir s).

(** The expressions whose type has a value have that type and evaluate to the
    value. *)
Definition consts_exact : Prop := forall id e, get ir.(nodes) id = Some e -> tv_is_const (expr_type_value e) = true ->
  expr_ty e = tv_ty (expr_type_value e) /\ value en id = const_value (expr_type_value e).

Hypothesis Hconsts : consts_exact.

(** The value of the expression that is added. *)
Lemma new_node_value b ops e ir' id : new_node ops e (set_constant_folding b ir) = Ret (ir', id) ->
  (forall c, c ∈ ops <-> c ∈ operands e) -> value_of ir' s en id = eval_node s value en id e.
Proof.
  intros Hn Hops. apply new_node_Ret in Hn as (-> & Hn & Hp & Hin & _). cbn in Hn, Hp, Hin.
  assert (Hid : next_id (set_constant_folding b ir) = len ir.(nodes)) by exact (next_id_len ir (tk_max _ Htree)). rewrite Hid.
  assert (Hin' : forall c, c ∈ operands e -> in_tree ir c).
  { intros c Hc. apply Hops in Hc. rewrite Forall_forall in Hin. specialize (Hin c Hc). unfold in_tree, len in *.
    rewrite (tk_len _ Htree) in Hin. done. }
  assert (Hwo : well_ordered ir').
  { intros i e' He'. rewrite Hn in He'. apply node_snoc in He' as [He'|[-> ->]]; [by apply (tk_ordered _ Htree i)|].
    apply Forall_forall. intros c Hc. exact (Hin' c Hc). }
  assert (Hnew : get ir'.(nodes) (len ir.(nodes)) = Some e) by (rewrite Hn; apply node_snoc; by right).
  rewrite (value_of_node ir' s Hwo en _ e Hnew). apply eval_node_ext. intros en' c Hc.
  apply value_of_extends; [apply Htree|by exists [e]|by apply Hin'].
Qed.

Lemma constant_value b v ir' id : Build.constant v (set_constant_folding b ir) = Ret (ir', id) ->
  value_of ir' s en id = const_value v.
Proof. intros H. by apply new_node_value in H. Qed.

(** ** Operations on integers *)

Lemma const_integer_value op e v : get ir.(nodes) op = Some e -> try_as_const_integer e = Some v -> value en op = Def (VInt v).
Proof.
  intros He Hv. unfold try_as_const_integer in Hv. destruct (expr_type_value e) as [| | |[w| |] cs| | | | | |] eqn:E; try done.
  injection Hv as ->. destruct (Hconsts op e He) as [_ ->]; by rewrite E.
Qed.

Lemma const_bool_value op e b : get ir.(nodes) op = Some e -> try_as_const_bool e = Some b -> value en op = Def (VBool b).
Proof.
  intros He Hv. unfold try_as_const_bool in Hv. destruct (expr_type_value e) as [|[w| |]| | | | | | | |] eqn:E; try done.
  injection Hv as ->. destruct (Hconsts op e He) as [_ ->]; by rewrite E.
Qed.

(** An operation and its folding. *)
Definition folds_as (f : Z -> Z -> option Z) (g : Z -> Z -> Z) : Prop := forall a b v, f a b = Some v -> g a b = v.

Lemma binary_value f g e a b ir1 id1 ir2 id2 : folds_as f g ->
  (forall ev id, eval_node s ev en id (e a b) = eval_ints ev g en a b) -> (forall c, c ∈ [a; b] <-> c ∈ operands (e a b)) ->
  Build.binary f e a b (set_constant_folding true ir) = Ret (ir1, id1) ->
  Build.binary f e a b (set_constant_folding false ir) = Ret (ir2, id2) ->
  value_of ir1 s en id1 = value_of ir2 s en id2.
Proof.
  intros Hfg He Hops H1 H2. unfold Build.binary in *. cbn in H2. apply (new_node_value false _ _ _ _) in H2; [|done].
  rewrite H2, He. apply res_bind_Ret in H1 as (c & Hc & H1). destruct c as [[x y]|].
  - cbn in H1. destruct (f x y) as [v|] eqn:Hf; [|apply (new_node_value true) in H1; [by rewrite H1, He|done]].
    apply constant_value in H1. rewrite H1. cbn in Hc. unfold ir_get in Hc. cbn in Hc.
    destruct (get (nodes ir) a) as [ea|] eqn:Ha; [|done]. destruct (get (nodes ir) b) as [eb|] eqn:Hb; [|done]. cbn in Hc.
    injection Hc as Hc. destruct (try_as_const_integer ea) as [x'|] eqn:Hx; [|done].
    destruct (try_as_const_integer eb) as [y'|] eqn:Hy; [|done]. injection Hc as -> ->.
    unfold eval_ints, eval_int. rewrite (const_integer_value a ea x), (const_integer_value b eb y) by done. cbn.
    by rewrite (Hfg _ _ _ Hf).
  - cbn in H1. apply (new_node_value true) in H1; [by rewrite H1, He|done].
Qed.

Lemma shl_folds : folds_as Build.fold_shl shift_left.
Proof.
  intros a b v. unfold Build.fold_shl, shift_left. destruct (0 <=? b) eqn:E; [|done]. intros [= <-].
  destruct (64 <=? b) eqn:E64, (b <? 64) eqn:E64'; bools; try lia. by rewrite Z.mod_small by lia.
Qed.

Lemma shr_folds : folds_as Build.fold_shr shift_right.
Proof.
  intros a b v. unfold Build.fold_shr, shift_right. destruct (0 <=? b) eqn:E; [|done]. intros [= <-].
  destruct (64 <=? b) eqn:E64, (b <? 64) eqn:E64'; bools; try lia. by rewrite Z.mod_small by lia.
Qed.

Lemma not_value a ir1 id1 ir2 id2 : Build.not a (set_constant_folding true ir) = Ret (ir1, id1) ->
  Build.not a (set_constant_folding false ir) = Ret (ir2, id2) -> value_of ir1 s en id1 = value_of ir2 s en id2.
Proof.
  intros H1 H2. unfold Build.not in *. cbn in H2. apply (new_node_value false) in H2; [|same_operands]. rewrite H2.
  apply res_bind_Ret in H1 as (c & Hc & H1). destruct c as [b|]; [|apply (new_node_value true) in H1; [by rewrite H1|same_operands]].
  apply constant_value in H1. rewrite H1. cbn in Hc. unfold ir_get in Hc. cbn in Hc.
  destruct (get (nodes ir) a) as [e|] eqn:Ha; [|done]. cbn in Hc. injection Hc as Hc. cbn.
  unfold eval_bool. by rewrite (const_bool_value a e b).
Qed.

Lemma bitwise_not_value a ir1 id1 ir2 id2 : Build.bitwise_not a (set_constant_folding true ir) = Ret (ir1, id1) ->
  Build.bitwise_not a (set_constant_folding false ir) = Ret (ir2, id2) -> value_of ir1 s en id1 = value_of ir2 s en id2.
Proof.
  intros H1 H2. unfold Build.bitwise_not in *. cbn in H2. apply (new_node_value false) in H2; [|same_operands]. rewrite H2.
  apply res_bind_Ret in H1 as (c & Hc & H1). destruct c as [b|]; [|apply (new_node_value true) in H1; [by rewrite H1|same_operands]].
  apply constant_value in H1. rewrite H1. cbn in Hc. unfold ir_get in Hc. cbn in Hc.
  destruct (get (nodes ir) a) as [e|] eqn:Ha; [|done]. cbn in Hc. injection Hc as Hc. cbn.
  unfold eval_int. rewrite (const_integer_value a e b) by done. cbn. by rewrite Z.lxor_m1_r.
Qed.

Lemma minus_value a ir1 id1 ir2 id2 : Build.minus a (set_constant_folding true ir) = Ret (ir1, id1) ->
  Build.minus a (set_constant_folding false ir) = Ret (ir2, id2) -> value_of ir1 s en id1 = value_of ir2 s en id2.
Proof.
  intros H1 H2. unfold Build.minus, ir_get in *. cbn in H1, H2. destruct (get (nodes ir) a) as [e|] eqn:Ha; [|done]. cbn in H1, H2.
  apply (new_node_value false) in H2; [|same_operands]. rewrite H2.
  assert (Hn : forall ir1 id1, new_node [a] (Expr.Minus (bool_decide (expr_ty e = Ty.Float)) a) (set_constant_folding true ir) = Ret (ir1, id1) ->
    value_of ir1 s en id1 = eval_node s value en id2 (Expr.Minus (bool_decide (expr_ty e = Ty.Float)) a)).
  { intros ir3 id3 H3. apply (new_node_value true) in H3; [by rewrite H3|same_operands]. }
  destruct (expr_type_value e) as [| |[f| |]|[v| |] cs| | | | | |] eqn:E; try by apply Hn.
  - apply constant_value in H1. rewrite H1. destruct (Hconsts a e Ha) as [Ht Hv]; [by rewrite E|]. rewrite E in Ht, Hv.
    rewrite Ht. cbn. by rewrite Hv.
  - apply constant_value in H1. rewrite H1. destruct (Hconsts a e Ha) as [Ht Hv]; [by rewrite E|]. rewrite E in Ht, Hv.
    rewrite Ht. cbn. by rewrite Hv.
Qed.

(** ** Conjunctions and disjunctions *)

(** An operand that does not trap, with its value as a condition. *)
Definition settled (op : Z) (b : bool) : Prop := catch (eval_bool value en op) false = Def b.

Lemma eval_and_settled ops bs : Forall2 settled ops bs -> ops <> [] -> eval_and value en ops = Def (forallb id bs).
Proof.
  induction 1 as [|op b ops bs Hb Hbs IH]; [done|]. intros _. cbn [eval_and forallb]. rewrite Hb.
  destruct ops as [|op' ops]; [inversion Hbs; subst; cbn; by rewrite andb_true_r|].
  cbn [mbind outcome_bind]. destruct b; [by apply IH|done].
Qed.

Lemma eval_or_settled ops bs : Forall2 settled ops bs -> ops <> [] -> eval_or value en ops = Def (existsb id bs).
Proof.
  induction 1 as [|op b ops bs Hb Hbs IH]; [done|]. intros _. cbn [eval_or existsb]. rewrite Hb.
  destruct ops as [|op' ops]; [inversion Hbs; subst; cbn; by rewrite orb_false_r|].
  cbn [mbind outcome_bind]. destruct b; [done|by apply IH].
Qed.

Definition eval_junction (neutral : bool) (ops : list Z) : outcome bool :=
  if neutral then eval_and value en ops else eval_or value en ops.

(** It is the neutral value if all the operands have it. *)
Lemma junction_settled neutral ops bs : Forall2 settled ops bs -> ops <> [] ->
  eval_junction neutral ops = Def (if forallb (Bool.eqb neutral) bs then neutral else negb neutral).
Proof.
  intros Hbs Hne. unfold eval_junction. destruct neutral.
  - rewrite (eval_and_settled ops bs) by done. f_equal. induction bs as [|[] bs]; cbn; [done| |done].
    clear -bs. induction bs as [|[] bs IH]; cbn; done.
  - rewrite (eval_or_settled ops bs) by done. f_equal. clear. induction bs as [|[] bs IH]; cbn; done.
Qed.

Lemma const_bool_settled op c : Build.const_bool ir op = Ret (Some c) -> settled op c.
Proof.
  unfold Build.const_bool, type_value_of, ir_get. destruct (get (nodes ir) op) as [e|] eqn:He; [|done]. cbn. intros H.
  apply res_bind_Ret in H as (v & Hv & H). destruct (tv_is_const v) eqn:Hc; [|done].
  destruct (cast_to_bool_const _ _ Hv) as [Hk _]. rewrite Hk in Hc. destruct (Hconsts op e He Hc) as [_ Hval].
  unfold settled, eval_bool. rewrite Hval. unfold as_bool in H.
  destruct (expr_type_value e) as [|[]|[]|[]|[]| | | | |]; cbn in Hv, Hc; try discriminate; injection Hv as <-;
    cbn in H; injection H as <-; done.
Qed.

Lemma const_settled op b : is_const ir op = Ret true -> settled op b -> Build.const_bool ir op = Ret (Some b).
Proof.
  unfold is_const, Build.const_bool, type_value_of, ir_get. destruct (get (nodes ir) op) as [e|] eqn:He; [|done]. cbn.
  intros [= Hc] Hs. destruct (Hconsts op e He Hc) as [_ Hval]. unfold settled, eval_bool in Hs. rewrite Hval in Hs.
  destruct (expr_type_value e) as [|[]|[]|[]|[]| | | | |]; cbn in Hc, Hs |- *; try discriminate; by injection Hs as <-.
Qed.

(** The operands that are kept, and the value of the others. *)
Lemma retain_settled neutral ops bs ops' : Forall2 settled ops bs ->
  retain (fun op => c ← Build.const_bool ir op; Ret (match c with None => true | Some b => negb (Bool.eqb b neutral) end)) ops = Ret ops' ->
  exists bs', Forall2 settled ops' bs' /\ forallb (Bool.eqb neutral) bs = forallb (Bool.eqb neutral) bs' /\
    Forall (fun op => forall b, Build.const_bool ir op = Ret (Some b) -> b = negb neutral) ops'.
Proof.
  intros Hbs. revert ops'. induction Hbs as [|op b ops bs Hb Hbs IH]; cbn; intros ops' H; [injection H as <-; by exists []|].
  apply res_bind_Ret in H as (keep & Hk & H). apply res_bind_Ret in H as (l & Hl & H). injection H as <-.
  destruct (IH l Hl) as (bs' & H1 & H2 & H3). apply res_bind_Ret in Hk as (c & Hc & Hk). injection Hk as <-.
  destruct c as [c|].
  - pose proof (const_bool_settled op c Hc) as Hs. unfold settled in Hb, Hs. rewrite Hb in Hs. injection Hs as <-.
    destruct (Bool.eqb b neutral) eqn:E; cbn [negb].
    + apply eqb_prop in E as ->. exists bs'. split_and!; [done| |done]. by rewrite eqb_reflx.
    + exists (b :: bs'). split_and!; [by constructor|by cbn; rewrite H2|constructor; [|done]]. intros b' Hb'.
      rewrite Hc in Hb'. injection Hb' as <-. by destruct b, neutral.
  - exists (b :: bs'). split_and!; [by constructor|by cbn; rewrite H2|constructor; [|done]]. intros b' Hb'. by rewrite Hc in Hb'.
Qed.

Lemma junction_value neutral e ops bs ir1 id1 ir2 id2 : Forall2 settled ops bs -> ops <> [] ->
  (forall l c, c ∈ l <-> c ∈ operands (e l)) ->
  (forall id l, eval_node s value en id (e l) = b ← eval_junction neutral l; Def (VBool b)) ->
  ok_of (Build.junction neutral e ops) (set_constant_folding true ir) = Ret (ir1, id1) ->
  ok_of (Build.junction neutral e ops) (set_constant_folding false ir) = Ret (ir2, id2) ->
  value_of ir1 s en id1 = value_of ir2 s en id2.
Proof.
  intros Hbs Hne Hops He H1 H2. unfold ok_of, Build.junction in H1, H2. cbn in H2.
  apply res_bind_Ret in H2 as (r & H2 & Hr). apply res_bind_Ret in H2 as (r' & H2 & Hr'). injection Hr' as <-. injection Hr as ->.
  apply (new_node_value false) in H2; [|apply Hops]. rewrite H2, He, (junction_settled neutral ops bs) by done.
  apply res_bind_Ret in H1 as (r & H1 & Hr). destruct r as [r|]; [|done]. injection Hr as ->.
  apply res_bind_Ret in H1 as (ops' & Hret & H1). cbn [constant_folding set_constant_folding] in Hret, H1.
  destruct (retain_settled neutral ops bs ops' Hbs Hret) as (bs' & Hbs' & Hall & Hother). rewrite Hall.
  apply res_bind_Ret in H1 as (d & Hd & H1). case_bool_decide as Hnil.
  { injection Hd as <-. apply res_bind_Ret in H1 as (r & H1 & Hr). injection Hr as ->. apply constant_value in H1. rewrite H1.
    subst ops'. apply Forall2_nil_inv_l in Hbs' as ->. done. }
  apply res_bind_Ret in Hd as (c & Hc & Hd). injection Hd as <-. destruct c.
  - apply res_bind_Ret in H1 as (r & H1 & Hr). injection Hr as ->. apply constant_value in H1. rewrite H1. cbn.
    assert (forallb (Bool.eqb neutral) bs' = false) as ->; [|done].
    clear -Hc Hbs' Hother Hconsts. induction Hbs' as [|op b ops bs Hb Hbs IH]; [done|]. cbn in Hc |- *.
    apply Forall_cons in Hother as [Ho Hother]. apply res_bind_Ret in Hc as (k & Hk & Hc). destruct k.
    + rewrite (Ho b (const_settled op b Hk Hb)). by destruct neutral.
    + rewrite (IH Hc Hother). by rewrite andb_false_r.
  - apply res_bind_Ret in H1 as (r & H1 & Hr). injection Hr as ->. apply (new_node_value true) in H1; [|apply Hops].
    rewrite H1, He. by rewrite (junction_settled neutral ops' bs').
Qed.
(** ** Arithmetic *)

(** The operands that are all constant integers give partial results below
    2^53. *)
Definition fold_safe (op : Z -> Z -> Z) (ops : list Z) : Prop :=
  forall v vs, const_ints ir ops (v :: vs) -> Forall safe (v :: vs) /\ Forall safe (partials op v vs).

Lemma eval_fold_ints f op ops vs : const_ints ir ops vs -> forall x, Forall safe (partials op x vs) ->
  eval_fold value (arith false op f) en (VInt x) ops = Def (VInt (fold_left op vs x)).
Proof.
  induction 1 as [|i v ops vs (e & cs & He & Hv) Hvs IH]; intros x Hs; [done|]. cbn in Hs |- *. apply Forall_cons in Hs as [Hx Hs].
  destruct (Hconsts i e He) as [_ ->]; [by rewrite Hv|]. rewrite Hv. cbn.
  assert (wrap_i64 (op x v) = op x v) as ->; [|by apply IH]. apply wrap_isize_id. unfold safe in Hx. lia.
Qed.

Lemma eval_arith_ints f op ops v vs : const_ints ir ops (v :: vs) -> Forall safe (partials op v vs) ->
  eval_arith value false op f en ops = Def (VInt (fold_left op vs v)).
Proof.
  intros Hc Hs. apply Forall2_cons_inv_r in Hc as (i & ops' & (e & cs & He & Hv) & Hvs & ->).
  unfold eval_arith. cbn. destruct (Hconsts i e He) as [_ ->]; [by rewrite Hv|]. rewrite Hv. cbn. by apply eval_fold_ints.
Qed.

(** The constants as floats. *)
Definition const_floats (ops : list Z) (fs : list f64) : Prop :=
  Forall2 (fun op f => exists v, value en op = Def v /\ to_float v = Def f) ops fs.

Lemma eval_arith_floats f op ops x fs : const_floats ops (x :: fs) ->
  eval_arith value true op f en ops = Def (VFloat (fold_left f fs x)).
Proof.
  intros Hc. apply Forall2_cons_inv_r in Hc as (i & ops' & (v & Hv & Hx) & Hfs & ->).
  unfold eval_arith. cbn. rewrite Hv. cbn. rewrite Hx. cbn. clear Hv Hx. revert x.
  induction Hfs as [|j y ops fs (w & Hw & Hy) _ IH]; intros x; [done|]. cbn. rewrite Hw. cbn. rewrite Hy. cbn. apply IH.
Qed.

Lemma collect_floats ops fs : all (is_const ir) ops = Ret true ->
  collect (fun op => v ← type_value_of ir op; Build.as_f64 v) ops = Ret fs ->
  const_floats ops fs /\ (any (is_float_op ir) ops = Ret false -> exists vs, const_ints ir ops vs).
Proof.
  revert fs. induction ops as [|i ops IH]; intros fs Hall Hcol; cbn in *.
  { injection Hcol as <-. split; [constructor|]. exists []. constructor. }
  apply res_bind_Ret in Hall as (c & Hc & Hall). destruct c; [|done].
  apply res_bind_Ret in Hcol as (y & Hy & Hcol). apply res_bind_Ret in Hcol as (l & Hl & Hcol). injection Hcol as <-.
  destruct (IH l Hall Hl) as [IHf IHi]. clear IH.
  unfold is_const, type_value_of, ir_get in Hc, Hy. destruct (get (nodes ir) i) as [e|] eqn:He; [|done]. cbn in Hc, Hy.
  injection Hc as Hc. destruct (Hconsts i e He Hc) as [Ht Hv]. split.
  - constructor; [|done]. rewrite Hv. destruct (expr_type_value e) as [| |[]|[]| | | | | |]; try discriminate; injection Hy as <-;
      eexists; (split; [reflexivity|reflexivity]).
  - intros Hany. apply res_bind_Ret in Hany as (b & Hb & Hany). destruct b; [done|]. destruct (IHi Hany) as [vs Hvs].
    unfold is_float_op, ty_of, ir_get in Hb. rewrite He in Hb. cbn in Hb. injection Hb as Hb%bool_decide_eq_false_1.
    destruct (expr_type_value e) as [| |[]|[v| |] cs| | | | | |] eqn:E; try discriminate; [by rewrite Ht in Hb|].
    exists (v :: vs). constructor; [|done]. eauto.
Qed.

Lemma arithmetic_value f op e ops ir1 id1 ir2 id2 : int_op_of f op -> fold_safe op ops ->
  (forall b l c, c ∈ l <-> c ∈ operands (e b l)) ->
  (forall id b l, eval_node s value en id (e b l) = eval_arith value b op f en l) ->
  ok_of (Build.arithmetic f e ops) (set_constant_folding true ir) = Ret (ir1, id1) ->
  ok_of (Build.arithmetic f e ops) (set_constant_folding false ir) = Ret (ir2, id2) ->
  value_of ir1 s en id1 = value_of ir2 s en id2.
Proof.
  intros Hop Hsafe Hops He H1 H2. unfold ok_of, Build.arithmetic in H1, H2.
  apply res_bind_Ret in H1 as (r & H1 & Hr). destruct r as [r|]; [|done]. injection Hr as ->.
  apply res_bind_Ret in H1 as (b & Hb & H1). cbn [constant_folding set_constant_folding] in H1.
  change (any (is_float_op ir) ops = Ret b) in Hb.
  apply res_bind_Ret in H2 as (r & H2 & Hr). change (any (is_float_op (set_constant_folding false ir)) ops) with (any (is_float_op ir) ops) in H2.
  rewrite Hb in H2. cbn in H2. apply res_bind_Ret in H2 as (r' & H2 & Hr'). injection Hr' as <-. injection Hr as ->.
  apply (new_node_value false) in H2; [|apply Hops]. rewrite H2, He.
  apply res_bind_Ret in H1 as (v & Hv & H1). destruct v as [[v|]|]; [| |done]; apply res_bind_Ret in H1 as (r & H1 & Hr); injection Hr as ->.
  2: { apply (new_node_value true) in H1; [by rewrite H1, He|apply Hops]. }
  apply constant_value in H1. rewrite H1. change (Build.fold_arithmetic ops b f ir = Ret (inl (Some v))) in Hv.
  pose proof Hv as Hfold. unfold Build.fold_arithmetic in Hv. apply res_bind_Ret in Hv as (c & Hc & Hv). destruct c; [|done].
  apply res_bind_Ret in Hv as (fs & Hfs & Hv). destruct (collect_floats ops fs Hc Hfs) as [Hf Hi].
  apply res_bind_Ret in Hv as (x & Hx & Hv). destruct fs as [|y fs]; [done|]. injection Hx as <-. destruct b.
  - injection Hv as <-. rewrite (eval_arith_floats f op ops y fs) by done. done.
  - destruct (Hi Hb) as [vs Hvs]. destruct vs as [|z vs]; [apply Forall2_nil_inv_r in Hvs as ->; by apply Forall2_nil_inv_l in Hf|].
    destruct (Hsafe z vs Hvs) as [Hs Hp]. rewrite (eval_arith_ints f op ops z vs) by done.
    rewrite (fold_arithmetic_ints ir f op ops z vs) in Hfold by done. injection Hfold as <-. done.
Qed.

(** The calls that fold, and what they need. *)
Inductive foldable : list Z -> (IR -> res (IR * Z)) -> Prop :=
  | foldable_not a : foldable [a] (Build.not a)
  | foldable_and l bs : Forall2 settled l bs -> l <> [] -> foldable l (ok_of (Build.and l))
  | foldable_or l bs : Forall2 settled l bs -> l <> [] -> foldable l (ok_of (Build.or l))
  | foldable_minus a : foldable [a] (Build.minus a)
  | foldable_bitwise_not a : foldable [a] (Build.bitwise_not a)
  | foldable_bitwise_and a b : foldable [a; b] (Build.bitwise_and a b)
  | foldable_bitwise_or a b : foldable [a; b] (Build.bitwise_or a b)
  | foldable_bitwise_xor a b : foldable [a; b] (Build.bitwise_xor a b)
  | foldable_shl a b : foldable [a; b] (Build.shl a b)
  | foldable_shr a b : foldable [a; b] (Build.shr a b)
  | foldable_add l : fold_safe Z.add l -> foldable l (ok_of (Build.add l))
  | foldable_sub l : fold_safe Z.sub l -> foldable l (ok_of (Build.sub l))
  | foldable_mul l : fold_safe Z.mul l -> foldable l (ok_of (Build.mul l)).
End Fold.

(** C7: an operation built with the folding of constants has the same value as
    the one built without it, in a tree whose constant expressions evaluate to
    their constants: for a conjunction or a disjunction if no operand traps, and
    for arithmetic on integers if the partial results are below 2^53. *)
Theorem folding_preserves_value (ir : IR) (s : Scanned) (en : env) (ops : list Z) (f : IR -> res (IR * Z))
  (ir1 ir2 : IR) (id1 id2 : Z) (Htree : tree_ok ir) (Hconsts : consts_exact ir s en) (Hf : foldable ir s en ops f)
  (H1 : f (set_constant_folding true ir) = Ret (ir1, id1)) (H2 : f (set_constant_folding false ir) = Ret (ir2, id2)) :
  value_of ir1 s en id1 = value_of ir2 s en id2.
Proof.
  destruct Hf as [a|l bs Hbs Hl|l bs Hbs Hl|a|a|a b|a b|a b|a b|a b|l Hs|l Hs|l Hs].
  - by eapply not_value.
  - eapply (junction_value ir s en Htree Hconsts true Expr.And l bs); [done|done|intros l0; same_operands| |exact H1|exact H2]. done.
  - eapply (junction_value ir s en Htree Hconsts false Expr.Or l bs); [done|done|intros l0; same_operands| |exact H1|exact H2]. done.
  - by eapply minus_value.
  - by eapply bitwise_not_value.
  - eapply (binary_value ir s en Htree Hconsts _ Z.land Expr.BitwiseAnd); [|done|same_operands|exact H1|exact H2]. by intros ? ? ? [= <-].
  - eapply (binary_value ir s en Htree Hconsts _ Z.lor Expr.BitwiseOr); [|done|same_operands|exact H1|exact H2]. by intros ? ? ? [= <-].
  - eapply (binary_value ir s en Htree Hconsts _ Z.lxor Expr.BitwiseXor); [|done|same_operands|exact H1|exact H2]. by intros ? ? ? [= <-].
  - eapply (binary_value ir s en Htree Hconsts _ shift_left Expr.Shl); [apply shl_folds|done|same_operands|exact H1|exact H2].
  - eapply (binary_value ir s en Htree Hconsts _ shift_right Expr.Shr); [apply shr_folds|done|same_operands|exact H1|exact H2].
  - eapply (arithmetic_value ir s en Htree Hconsts _ Z.add Expr.Add); [apply add_op|done|intros b0 l0; same_operands|done|exact H1|exact H2].
  - eapply (arithmetic_value ir s en Htree Hconsts _ Z.sub Expr.Sub); [apply sub_op|done|intros b0 l0; same_operands|done|exact H1|exact H2].
  - eapply (arithmetic_value ir s en Htree Hconsts _ Z.mul Expr.Mul); [apply mul_op|done|intros b0 l0; same_operands|done|exact H1|exact H2].
Qed.

(** The tree of three constants, as it is built. *)
Lemma fold_sample_tree : tree_ok fold_sample.
Proof.
  apply built_ok, (built_calls [([], Build.constant (const_integer_from 1)); ([], Build.constant (const_integer_from 2));
    ([], Build.constant (const_integer_from 9007199254740988))] (set_constant_folding true ir_new));
    [apply built_folding, built_new|repeat constructor|vm_compute; reflexivity].
Qed.

Definition no_scan : Scanned :=
  {| sc_filesize := 0; sc_data := [];
     sc_matches := {| pattern_lists := ∅; max_matches_per_pattern := 0; total_capacity := 0 |}; sc_patterns := [];
     sc_call := fun _ _ _ => None; sc_str := fun _ _ _ => false; sc_other := fun _ _ => Stuck |}.

Lemma const_nodes_exact ir en : well_ordered ir ->
  all_nodes ir (fun _ e => match e with Expr.Const _ => true | _ => false end) = true -> consts_exact ir no_scan en.
Proof.
  intros Hwo H id e He Hc. pose proof (all_nodes_get _ _ H id e He) as Hn. cbn in Hn. destruct e; try done.
  split; [done|]. by rewrite (value_of_node ir no_scan Hwo en id _ He).
Qed.

Lemma folding_preserves_value_witness :
  Build.add [0; 1; 2] (set_constant_folding true fold_sample) =
    (r ← new_node [] (Expr.Const (const_integer_from 9007199254740991)) (set_constant_folding true fold_sample); Ret (inl r)) /\
  forall ir1 id1 ir2 id2,
    ok_of (Build.add [0; 1; 2]) (set_constant_folding true fold_sample) = Ret (ir1, id1) ->
    ok_of (Build.add [0; 1; 2]) (set_constant_folding false fold_sample) = Ret (ir2, id2) ->
    value_of ir1 no_scan ∅ id1 = value_of ir2 no_scan ∅ id2.
Proof.
  split; [vm_compute; reflexivity|]. intros ir1 id1 ir2 id2.
  apply (folding_preserves_value fold_sample no_scan ∅ [0; 1; 2] (ok_of (Build.add [0; 1; 2]))).
  - apply fold_sample_tree.
  - apply const_nodes_exact; [apply fold_sample_tree|vm_compute; reflexivity].
  - apply foldable_add. intros v vs Hc.
    assert (H : const_ints fold_sample [0; 1; 2] [1; 2; 9007199254740988]) by (repeat constructor; do 2 eexists; split; reflexivity).
    assert (v :: vs = [1; 2; 9007199254740988]) as [= -> ->].
    { revert H. revert Hc. generalize [1; 2; 9007199254740988]. generalize (v :: vs). generalize [0; 1; 2].
      clear. induction l as [|i l IH]; intros l1 l2 H1 H2; [inversion H1; inversion H2; congruence|].
      apply Forall2_cons_inv_l in H1 as (v1 & k1 & (e1 & c1 & He1 & Hv1) & H1 & ->).
      apply Forall2_cons_inv_l in H2 as (v2 & k2 & (e2 & c2 & He2 & Hv2) & H2 & ->). f_equal; [congruence|by apply IH]. }
    split; repeat constructor; unfold safe; cbn; lia.
Defined.
