(* ===== verification/EvalTypes.v ===== *)
(** The types of conditions: the operands that each expression takes, and the
    proof that expressions with the right operands evaluate to values of their
    types. *)

From Stdlib Require Import SpecFloat.
From stdpp Require Import gmap strings.
From S2P Require Import Prelude.
From S2P Require Import Matches.
From S2P Require Import Float64.
From S2P Require Import Types.
From S2P Require Import IR.
From S2P Require Import Builtins.
From S2P Require Import Eval.
#[local] Open Scope Z_scope.

(** * Types of values *)

Definition has_ty (v : value) (t : Ty.t) : Prop :=
  match v, t with
  | VInt _, Ty.Integer | VFloat _, Ty.Float | VBool _, Ty.Bool | VStr _, Ty.String => True
  | VObj _, (Ty.Struct | Ty.Array | Ty.Map | Ty.Regexp | Ty.Func | Ty.Unknown) => True
  | _, _ => False
  end.

(** The types of conditions, and of numbers. *)
Definition castable (t : Ty.t) : bool := match t with Ty.Bool | Ty.Integer | Ty.Float | Ty.String => true | _ => false end.
Definition numeric (t : Ty.t) : bool := match t with Ty.Integer | Ty.Float => true | _ => false end.

(** The types that [emit_comparison_op] accepts. *)
Definition comparable (l r : Ty.t) : bool :=
  match l, r with
  | (Ty.Integer | Ty.Bool), (Ty.Integer | Ty.Bool) => true
  | Ty.Float, (Ty.Float | Ty.Integer) | Ty.Integer, Ty.Float => true
  | Ty.String, Ty.String => true
  | _, _ => false
  end.

Definition ty_is (t u : Ty.t) : bool := bool_decide (t = u).

(** * Typing *)

Definition context : Type := gmap Z Ty.t.

Section Typing.
Context (ir : IR) (num_patterns : Z).

Definition ty_at (id : Z) : Ty.t := match get ir.(nodes) id with Some e => expr_ty e | None => Ty.Unknown end.

Section Operands.
Context (typed : context -> Z -> bool).

Definition typed_as (p : Ty.t -> bool) (g : context) (id : Z) : bool := typed g id && p (ty_at id).
Definition typed_int : context -> Z -> bool := typed_as (ty_is Ty.Integer).
Definition typed_range (g : context) (r : Range) : bool := typed_int g r.(lower_bound) && typed_int g r.(upper_bound).
Definition typed_anchor (g : context) (a : MatchAnchor.t) : bool :=
  match a with MatchAnchor.None => true | MatchAnchor.At e => typed_int g e | MatchAnchor.In r => typed_range g r end.
Definition typed_option (g : context) (i : option Z) : bool := from_option (typed_int g) true i.
Definition typed_quantifier (g : context) (q : Quantifier.t) : bool :=
  match q with Quantifier.Percentage e | Quantifier.Expr e => typed_int g e | _ => true end.
Definition typed_pattern (idx : Z) : bool := (0 <=? idx) && (idx <? num_patterns).
Definition typed_var (g : context) (s : Symbol.t) : bool :=
  match s with Symbol.Var v _ => bool_decide (g !! v.(Var.index) = Some Ty.Integer) | _ => false end.
Definition not_empty {A} (l : list A) : bool := match l with [] => false | _ => true end.
Definition bind_ty (v : Var.t) (g : context) : context := <[v.(Var.index) := v.(Var.ty)]> g.

Lemma lookup_bind_ty v g i : bind_ty v g !! i = if decide (v.(Var.index) = i) then Some v.(Var.ty) else g !! i.
Proof. unfold bind_ty, context in *. apply (lookup_insert (M := gmap Z)). Qed.

(** The context of the body of a [with]. *)
Fixpoint typed_with (g : context) (declarations : list (Var.t * Z)) : option context :=
  match declarations with
  | [] => Some g
  | (v, id) :: declarations =>
      if typed_as (ty_is v.(Var.ty)) g id then typed_with (bind_ty v g) declarations else None
  end.

Definition typed_node (g : context) (e : Expr.t) : bool :=
  match e with
  | Expr.Const v => tv_is_const v
  | Expr.Filesize => true
  | Expr.Symbol (Symbol.Var v _) => bool_decide (g !! v.(Var.index) = Some v.(Var.ty))
  | Expr.Not a | Expr.Defined a => typed_as castable g a
  | Expr.And l | Expr.Or l => not_empty l && forallb (typed_as castable g) l
  | Expr.Minus is_float a => typed_as (ty_is (numeric_ty is_float)) g a
  | Expr.Add is_float l | Expr.Sub is_float l | Expr.Mul is_float l =>
      not_empty l && forallb (typed_as (if is_float then numeric else ty_is Ty.Integer) g) l
  | Expr.Div is_float l =>
      not_empty l && forallb (typed_as numeric g) l && Bool.eqb is_float (existsb (fun id => ty_is (ty_at id) Ty.Float) l)
  | Expr.Mod l => not_empty l && forallb (typed_int g) l
  | Expr.BitwiseNot a => typed_int g a
  | Expr.BitwiseAnd a b | Expr.BitwiseOr a b | Expr.BitwiseXor a b | Expr.Shl a b | Expr.Shr a b => typed_int g a && typed_int g b
  | Expr.Eq a b | Expr.Ne a b | Expr.Lt a b | Expr.Gt a b | Expr.Le a b | Expr.Ge a b =>
      typed g a && typed g b && comparable (ty_at a) (ty_at b)
  | Expr.Contains a b | Expr.IContains a b | Expr.StartsWith a b | Expr.IStartsWith a b | Expr.EndsWith a b
  | Expr.IEndsWith a b | Expr.IEquals a b => typed_as (ty_is Ty.String) g a && typed_as (ty_is Ty.String) g b
  | Expr.PatternMatch idx anchor => typed_pattern idx && typed_anchor g anchor
  | Expr.PatternMatchVar s anchor => typed_var g s && typed_anchor g anchor
  | Expr.PatternCount idx range => typed_pattern idx && from_option (typed_range g) true range
  | Expr.PatternCountVar s range => typed_var g s && from_option (typed_range g) true range
  | Expr.PatternOffset idx index | Expr.PatternLength idx index => typed_pattern idx && typed_option g index
  | Expr.PatternOffsetVar s index | Expr.PatternLengthVar s index => typed_var g s && typed_option g index
  | Expr.FuncCall object f args =>
      from_option (typed g) true object && forallb (typed g) args &&
      match int_reader (plain_name f) with Some _ => ty_is (tv_ty f.(result)) Ty.Integer | None => true end
  | Expr.With v declarations body =>
      match typed_with g declarations with Some g => typed_as (ty_is (tv_ty v)) g body | None => false end
  | Expr.OfPatternSet q items _ anchor => typed_quantifier g q && forallb typed_pattern items && typed_anchor g anchor
  | Expr.OfExprTuple q items _ _ => typed_quantifier g q && forallb (typed_as castable g) items
  | Expr.ForOf q for_vars items body =>
      typed_quantifier g q && forallb typed_pattern items && ty_is for_vars.(fv_item).(Var.ty) Ty.Integer &&
      typed_as castable (bind_ty for_vars.(fv_item) g) body
  | Expr.ForIn q [v] _ (Iterable.Range r) body =>
      typed_quantifier g q && typed_range g r && ty_is v.(Var.ty) Ty.Integer && typed_as castable (bind_ty v g) body
  | Expr.ForIn q [v] _ (Iterable.ExprTuple items) body =>
      typed_quantifier g q && forallb (typed_as (ty_is v.(Var.ty)) g) items && typed_as castable (bind_ty v g) body
  | Expr.ForIn _ _ _ (Iterable.Expr _) _ | Expr.Symbol _ | Expr.Matches _ _ | Expr.MatchesMany _ _
  | Expr.FieldAccess _ _ | Expr.Lookup _ _ _ => true
  | Expr.ForIn _ _ _ _ _ => false
  end.
End Operands.

(** The fuel bounds the depth of the expression. *)
Fixpoint typed (fuel : nat) (g : context) (id : Z) : bool :=
  match fuel with
  | O => false
  | S fuel => match get ir.(nodes) id with Some e => typed_node (typed fuel) g e | None => false end
  end.
End Typing.

(** * Outcomes that are not stuck *)

(** The outcome is a value with the property, undefined, or a trap. *)
Definition ok {A} (P : A -> Prop) (m : outcome A) : Prop :=
  match m with Def a => P a | Undef | Trap => True | Stuck | NoFuel => False end.

Lemma ok_bind {A B} (P : A -> Prop) (Q : B -> Prop) (m : outcome A) (f : A -> outcome B) :
  ok P m -> (forall a, P a -> ok Q (f a)) -> ok Q (x ← m; f x).
Proof. destruct m; cbn; auto. Qed.

Lemma ok_catch {A} (P : A -> Prop) (m : outcome A) h : ok P m -> P h -> ok P (catch m h).
Proof. by destruct m. Qed.

Lemma ok_catch_option {A} (P : A -> Prop) (m : outcome A) : ok P m -> ok (fun o => forall a, o = Some a -> P a) (catch_option m).
Proof. destruct m; cbn; [intros ? ? [= <-]; done|done..]. Qed.

Lemma ok_of_option {A} (P : A -> Prop) o : (forall a, o = Some a -> P a) -> ok P (of_option o).
Proof. destruct o; cbn; auto. Qed.

Lemma ok_weaken {A} (P Q : A -> Prop) m : (forall a, P a -> Q a) -> ok P m -> ok Q m.
Proof. destruct m; cbn; auto. Qed.

Definition any_value {A} : A -> Prop := fun _ => True.

Lemma ok_any {A} (P : A -> Prop) m : ok P m -> ok any_value m.
Proof. by apply ok_weaken. Qed.

(** * Soundness *)

Section Soundness.
Context (ir : IR) (s : Scanned).

Let n := len s.(sc_patterns).

(** The variables of the context have values of their types, if any. *)
Definition env_ok (g : context) (en : env) : Prop :=
  forall i v t, en !! i = Some v -> g !! i = Some t -> has_ty v t.

(** The expressions that the reference semantics does not evaluate itself. *)
Definition is_other (e : Expr.t) : bool :=
  match e with
  | Expr.Symbol (Symbol.Var _ _) => false
  | Expr.ForIn _ _ _ (Iterable.Expr _) _ | Expr.Symbol _ | Expr.Matches _ _ | Expr.MatchesMany _ _
  | Expr.FieldAccess _ _ | Expr.Lookup _ _ _ => true
  | _ => false
  end.

(** Functions return values of their types, and so do those expressions. *)
Record functions_ok : Prop := {
  fo_call id o f args : get ir.(nodes) id = Some (Expr.FuncCall o f args) ->
    forall ov vs v, s.(sc_call) f.(mangled_name) ov vs = Some v -> has_ty v (tv_ty f.(result));
  fo_other id e en : get ir.(nodes) id = Some e -> is_other e = true ->
    ok (fun v => has_ty v (expr_ty e)) (s.(sc_other) id en);
}.

Hypothesis Hfun : functions_ok.

Lemma env_ok_bind g en v x : env_ok g en -> (forall y, x = Some y -> has_ty y v.(Var.ty)) -> env_ok (bind_ty v g) (bind_var v x en).
Proof.
  intros He Hx i y t. rewrite lookup_bind_var, lookup_bind_ty. case_decide.
  - intros Hy [= <-]. by apply Hx.
  - apply He.
Qed.

Section Node.
Context (ev : env -> Z -> outcome value) (T : context -> Z -> bool).
Hypothesis IH : forall g en id, env_ok g en -> T g id = true -> ok (fun v => has_ty v (ty_at ir id)) (ev en id).

Ltac bools_in := rewrite ?andb_true_iff, ?forallb_forall in *; destruct_and?.

Lemma has_int (v : value) : has_ty v Ty.Integer -> exists z, v = VInt z.
Proof. destruct v; cbn; try done. eauto. Qed.
Lemma has_str v : has_ty v Ty.String -> exists z, v = VStr z.
Proof. destruct v; cbn; try done. eauto. Qed.
Lemma has_float v : has_ty v Ty.Float -> exists f, v = VFloat f.
Proof. destruct v; cbn; try done. eauto. Qed.
Lemma ty_is_eq t u : ty_is t u = true -> t = u.
Proof. apply bool_decide_eq_true_1. Qed.

Context (g : context) (en : env).
Hypothesis Hen : env_ok g en.

Lemma ok_operand id p : typed_as ir T p g id = true -> ok (fun v => has_ty v (ty_at ir id)) (ev en id).
Proof. unfold typed_as. intros [H _]%andb_true_iff. by apply IH with g. Qed.

Lemma to_bool_ok v t : castable t = true -> has_ty v t -> ok any_value (to_bool v).
Proof. by destruct v, t. Qed.

Lemma ok_bool id : typed_as ir T castable g id = true -> ok any_value (eval_bool ev en id).
Proof.
  intros H. pose proof (ok_operand _ _ H) as Hv. apply andb_true_iff in H as [_ Hc]. unfold eval_bool.
  eapply ok_bind; [exact Hv|]. intros v. by apply to_bool_ok.
Qed.

Lemma ok_int id : typed_int ir T g id = true -> ok any_value (eval_int ev en id).
Proof.
  intros H. pose proof (ok_operand _ _ H) as Hv. apply andb_true_iff in H as [_ Ht%ty_is_eq]. unfold eval_int.
  eapply ok_bind; [exact Hv|]. intros v. rewrite <- Ht. by intros [z ->]%has_int.
Qed.

Lemma ok_and l : not_empty l = true -> forallb (typed_as ir T castable g) l = true -> ok any_value (eval_and ev en l).
Proof.
  induction l as [|id l IHl]; [done|]. intros _ [H1 H2]%andb_true_iff.
  assert (Hc : ok any_value (catch (eval_bool ev en id) false)) by by apply ok_catch, I; apply ok_bool.
  cbn [eval_and]. destruct l as [|id' l]; [done|]. eapply ok_bind; [exact Hc|]. intros [] _; [by apply IHl|done].
Qed.

Lemma ok_or l : not_empty l = true -> forallb (typed_as ir T castable g) l = true -> ok any_value (eval_or ev en l).
Proof.
  induction l as [|id l IHl]; [done|]. intros _ [H1 H2]%andb_true_iff.
  assert (Hc : ok any_value (catch (eval_bool ev en id) false)) by by apply ok_catch, I; apply ok_bool.
  cbn [eval_or]. destruct l as [|id' l]; [done|]. eapply ok_bind; [exact Hc|]. intros [] _; [done|by apply IHl].
Qed.

Lemma to_float_ok v t : numeric t = true -> has_ty v t -> ok any_value (to_float v).
Proof. by destruct v, t. Qed.

Lemma arith_ok is_float iop fop a b (t : Ty.t) : (if is_float : bool then numeric else ty_is Ty.Integer) t = true ->
  has_ty a (numeric_ty is_float) -> has_ty b t -> ok (fun v : value => has_ty v (numeric_ty is_float)) (arith is_float iop fop a b).
Proof.
  intros Ht Ha Hb. destruct is_float; cbn in *; [|apply ty_is_eq in Ht as <-].
  - by destruct a, b, t.
  - by destruct a, b.
Qed.

Lemma ok_fold_arith is_float iop fop l : forallb (typed_as ir T (if is_float : bool then numeric else ty_is Ty.Integer) g) l = true ->
  forall acc, has_ty acc (numeric_ty is_float) ->
  ok (fun v : value => has_ty v (numeric_ty is_float)) (eval_fold ev (arith is_float iop fop) en acc l).
Proof.
  induction l as [|id l IHl]; [done|]. intros [H1 H2]%andb_true_iff acc Hacc. cbn.
  eapply ok_bind; [by eapply ok_operand|]. intros v Hv. apply andb_true_iff in H1 as [_ Ht].
  eapply ok_bind; [by eapply (arith_ok _ _ _ _ _ _ Ht)|]. intros acc' Hacc'. by apply IHl.
Qed.

Lemma ok_arith is_float iop fop l : not_empty l = true ->
  forallb (typed_as ir T (if is_float : bool then numeric else ty_is Ty.Integer) g) l = true ->
  ok (fun v : value => has_ty v (numeric_ty is_float)) (eval_arith ev is_float iop fop en l).
Proof.
  destruct l as [|id l]; [done|]. intros _ [H1 H2]%andb_true_iff. unfold eval_arith. cbn.
  eapply ok_bind; [by eapply ok_operand|]. intros v Hv. apply andb_true_iff in H1 as [_ Ht].
  eapply ok_bind with (P := fun v : value => has_ty v (numeric_ty is_float)); [|intros acc Hacc; by apply ok_fold_arith].
  destruct is_float; cbn in *.
  - destruct v; try done; by destruct (ty_at ir id).
  - apply ty_is_eq in Ht. rewrite <- Ht in Hv. by apply has_int in Hv as [z ->].
Qed.

Lemma div_ok is_float a b t : numeric t = true -> has_ty a (numeric_ty is_float) -> has_ty b t ->
  ok (fun v : value => has_ty v (numeric_ty (is_float || ty_is t Ty.Float))) (div_op a b).
Proof.
  intros Ht Ha Hb. destruct a as [x| | | |], is_float, b as [y| | | |], t; try done; cbn.
  unfold div_int. destruct (y =? 0); [done|]. by destruct (_ && _).
Qed.

Lemma ok_fold_div l : forallb (typed_as ir T numeric g) l = true -> forall is_float acc, has_ty acc (numeric_ty is_float) ->
  ok (fun v : value => has_ty v (numeric_ty (is_float || existsb (fun id => ty_is (ty_at ir id) Ty.Float) l))) (eval_fold ev div_op en acc l).
Proof.
  induction l as [|id l IHl]; intros Hl is_float acc Hacc; [by rewrite orb_false_r|]. apply andb_true_iff in Hl as [H1 H2]. cbn.
  eapply ok_bind; [by eapply ok_operand|]. intros v Hv. apply andb_true_iff in H1 as [_ Ht].
  eapply ok_bind; [by eapply div_ok|]. intros acc' Hacc'. rewrite orb_assoc. by apply IHl.
Qed.

Lemma ok_div is_float l : not_empty l = true -> forallb (typed_as ir T numeric g) l = true ->
  Bool.eqb is_float (existsb (fun id => ty_is (ty_at ir id) Ty.Float) l) = true ->
  ok (fun v : value => has_ty v (numeric_ty is_float)) (eval_operands ev div_op Def en l).
Proof.
  destruct l as [|id l]; [done|]. intros _ [H1 H2]%andb_true_iff ->%eqb_prop. cbn.
  eapply ok_bind; [by eapply ok_operand|]. intros v Hv. cbn. apply andb_true_iff in H1 as [_ Ht].
  apply ok_fold_div; [done|]. destruct (ty_at ir id); try done; by destruct v.
Qed.

Lemma ok_mod l : not_empty l = true -> forallb (typed_int ir T g) l = true ->
  ok (fun v => has_ty v Ty.Integer) (eval_operands ev mod_op Def en l).
Proof.
  destruct l as [|id l]; [done|]. intros _ [H1 H2]%andb_true_iff. cbn.
  eapply ok_bind; [by eapply ok_operand|]. intros v Hv. apply andb_true_iff in H1 as [_ Ht%ty_is_eq]. rewrite <- Ht in Hv. cbn.
  clear id Ht. revert v Hv. induction l as [|id l IHl]; [done|]. intros v Hv. apply andb_true_iff in H2 as [H1 H2]. cbn.
  eapply ok_bind; [by eapply ok_operand|]. intros w Hw. apply andb_true_iff in H1 as [_ Ht%ty_is_eq]. rewrite <- Ht in Hw.
  eapply ok_bind with (P := fun v : value => has_ty v Ty.Integer); [|intros acc Hacc; by apply IHl].
  apply has_int in Hv as [x ->], Hw as [y ->]. cbn. unfold rem_int. by destruct (y =? 0).
Qed.

Lemma ok_ints f a b : typed_int ir T g a && typed_int ir T g b = true -> ok (fun v => has_ty v Ty.Integer) (eval_ints ev f en a b).
Proof.
  intros [Ha Hb]%andb_true_iff. eapply ok_bind; [by apply ok_int|]. intros x _. eapply ok_bind; [by apply ok_int|]. done.
Qed.

Lemma ok_compare c a b : T g a && T g b && comparable (ty_at ir a) (ty_at ir b) = true ->
  ok (fun v => has_ty v Ty.Bool) (eval_compare ev c en a b).
Proof.
  intros [[Ha Hb]%andb_true_iff Hc]%andb_true_iff. unfold eval_compare.
  eapply ok_bind; [by eapply IH|]. intros x Hx. eapply ok_bind; [by eapply IH|]. intros y Hy.
  destruct (ty_at ir a), (ty_at ir b); try discriminate Hc; destruct x; try contradiction Hx; destruct y; try contradiction Hy; exact I.
Qed.

Lemma ok_str op a b : typed_as ir T (ty_is Ty.String) g a && typed_as ir T (ty_is Ty.String) g b = true ->
  ok (fun v => has_ty v Ty.Bool) (eval_str s ev en op a b).
Proof.
  intros [Ha Hb]%andb_true_iff. unfold eval_str. eapply ok_bind; [by eapply ok_operand|]. intros x Hx.
  eapply ok_bind; [by eapply ok_operand|]. intros y Hy.
  apply andb_true_iff in Ha as [_ Ha%ty_is_eq], Hb as [_ Hb%ty_is_eq]. rewrite <- Ha in Hx. rewrite <- Hb in Hy.
  by apply has_str in Hx as [? ->], Hy as [? ->].
Qed.

(** ** Patterns *)

Lemma ok_pattern_index idx : typed_pattern n idx = true -> ok any_value (pattern_id s idx).
Proof.
  intros [H1 H2]%andb_true_iff. unfold pattern_id.
  destruct (get_is_Some s.(sc_patterns) idx) as [id ->]; [unfold n in *; lia|done].
Qed.

Lemma ok_pattern_var sym : typed_var g sym = true -> ok any_value (pattern_var sym en).
Proof.
  destruct sym as [v tv| | |]; try done. intros H%bool_decide_eq_true_1. unfold pattern_var, var_value.
  destruct (en !! v.(Var.index)) as [x|] eqn:E; [|done]. cbn. by destruct (has_int x (Hen _ _ _ E H)) as [z ->].
Qed.

Lemma ok_range r : typed_range ir T g r = true -> ok any_value (eval_int ev en r.(lower_bound)) /\ ok any_value (eval_int ev en r.(upper_bound)).
Proof. intros [H1 H2]%andb_true_iff. split; by apply ok_int. Qed.

Lemma ok_match id a : typed_anchor ir T g a = true -> ok any_value (eval_match s ev en id a).
Proof.
  destruct a as [|o|r]; [done| |]; intros H; cbn.
  - eapply ok_bind; [by apply ok_int|]. done.
  - apply ok_range in H as [H1 H2]. eapply ok_bind; [done|]. intros ? _. by eapply ok_bind.
Qed.

Lemma ok_count id r : from_option (typed_range ir T g) true r = true -> ok (fun v => has_ty v Ty.Integer) (eval_count s ev en id r).
Proof.
  destruct r as [r|]; [|done]. intros [H1 H2]%ok_range. cbn. eapply ok_bind; [done|]. intros ? _. by eapply ok_bind.
Qed.

Lemma ok_nth f id index : typed_option ir T g index = true -> ok (fun v => has_ty v Ty.Integer) (eval_nth s ev f en id index).
Proof.
  intros H. unfold eval_nth. eapply ok_bind with (P := any_value).
  - destruct index; [by apply ok_int|done].
  - intros i _. apply ok_of_option. intros v. by destruct (f _ _ _) as [z|]; [intros [= <-]|].
Qed.

(** ** Calls *)

Lemma ok_list ids : forallb (T g) ids = true -> ok any_value (eval_list ev en ids).
Proof.
  induction ids as [|id ids IHl]; [done|]. intros [H1 H2]%andb_true_iff. cbn.
  eapply ok_bind; [by eapply IH|]. intros v _. by eapply ok_bind; [apply IHl|].
Qed.

Lemma ok_call o f args vs id : get ir.(nodes) id = Some (Expr.FuncCall o f args) ->
  match int_reader (plain_name f) with Some _ => ty_is (tv_ty f.(result)) Ty.Integer | None => true end = true ->
  forall ov, ok (fun v => has_ty v (tv_ty f.(result))) (call_function s f ov vs).
Proof.
  intros Hg Hr ov. pose proof (fo_call Hfun _ _ _ _ Hg) as Hc.
  assert (Hdef : ok (fun v => has_ty v (tv_ty f.(result))) (of_option (s.(sc_call) f.(mangled_name) ov vs))).
  { apply ok_of_option. apply Hc. }
  unfold call_function. destruct ov; [done|]. destruct (int_reader (plain_name f)) as [r|]; [|done].
  apply ty_is_eq in Hr. destruct vs as [|[z| | | |] [|]]; try exact Hdef.
  rewrite Hr. apply ok_of_option. intros v. by destruct (read_int _ _ _); [intros [= <-]|].
Qed.

(** ** Loops *)

Lemma ok_quantify {A B} (R : B -> Prop) (prepare : A -> outcome B) (test : B -> outcome bool) q items :
  (forall x, In x items -> ok R (prepare x)) -> (forall y, R y -> ok any_value (test y)) ->
  forall count, ok any_value (quantify q count prepare test items).
Proof.
  intros Hp Ht. induction items as [|x items IHl]; intros count; [done|].
  assert (IHl' : forall count, ok any_value (quantify q count prepare test items)) by (apply IHl; intros; apply Hp; by right).
  cbn. eapply ok_bind; [apply Hp; by left|]. intros y Hy. eapply ok_bind with (P := any_value); [by apply ok_catch; [apply Ht|]|].
  intros b _. destruct q, b; try done. by case_match.
Qed.

Lemma ok_percentage m p : ok any_value (percentage m p).
Proof. unfold percentage. cbv zeta. destruct (f64_ceil _); try exact I; destruct (_ && _); exact I. Qed.

Lemma ok_quantifier q m : typed_quantifier ir T g q = true -> ok any_value (eval_quantifier ev q m en).
Proof.
  destruct q as [| | |p|k]; try done; intros H; cbn [eval_quantifier]; eapply ok_bind; try by apply ok_int.
  - intros ? _. eapply ok_bind; [apply ok_percentage|]. done.
  - done.
Qed.

Lemma ok_loop {A B} (R : B -> Prop) (prepare : A -> outcome B) (test : B -> outcome bool) q items :
  typed_quantifier ir T g q = true ->
  (forall x, In x items -> ok R (prepare x)) -> (forall y, R y -> ok any_value (test y)) ->
  ok (fun v => has_ty v Ty.Bool) (eval_loop ev q items prepare test en).
Proof.
  intros Hq Hp Ht. unfold eval_loop. eapply ok_bind; [by apply ok_quantifier|]. intros k _.
  eapply ok_bind; [by eapply ok_quantify|]. done.
Qed.

Lemma ok_range_items r : typed_range ir T g r = true -> ok any_value (range_items ev en r).
Proof.
  intros [H1 H2]%ok_range. unfold range_items. eapply ok_bind with (P := any_value).
  - assert (H : ok any_value (hi ← eval_int ev en r.(upper_bound); lo ← eval_int ev en r.(lower_bound); Def (lo, hi))).
    { eapply ok_bind; [done|]. intros ? _. by eapply ok_bind. }
    by destruct (hi ← _; _).
  - by intros [[]|] _.
Qed.
End Node.

(** ** Expressions *)

Section Expressions.
Context (ev : env -> Z -> outcome value) (T : context -> Z -> bool).
Hypothesis IH : forall g en id, env_ok g en -> T g id = true -> ok (fun v => has_ty v (ty_at ir id)) (ev en id).

Lemma ok_with declarations : forall g g' en, env_ok g en -> typed_with ir T g declarations = Some g' ->
  ok (env_ok g') (eval_with ev en declarations).
Proof.
  induction declarations as [|[v id] declarations IHd]; intros g g' en Hen; cbn; [by intros [= <-]|].
  destruct (typed_as _ _ _ _ _) eqn:Ht; [|done]. intros Hd.
  eapply ok_bind; [apply ok_catch_option; by eapply ok_operand|]. intros x Hx. eapply IHd; [|done].
  apply env_ok_bind; [done|]. intros y ->. apply andb_true_iff in Ht as [_ Ht%ty_is_eq]. rewrite Ht. by apply Hx.
Qed.

Lemma has_bool m : ok any_value m -> ok (fun v => has_ty v Ty.Bool) (b ← m; Def (VBool b)).
Proof. by destruct m. Qed.

Lemma ok_const v : tv_is_const v = true -> ok (fun x => has_ty x (tv_ty v)) (const_value v).
Proof. destruct v as [|[]|[]|[]|[]|[]| | | |]; try discriminate; intros _; exact I. Qed.

(** The body of a loop over integers. *)
Lemma ok_body g en v id z : env_ok g en -> ty_is v.(Var.ty) Ty.Integer = true ->
  typed_as ir T castable (bind_ty v g) id = true -> ok any_value (eval_bool ev (bind_var v (Some (VInt z)) en) id).
Proof.
  intros Hen Hv%ty_is_eq. apply ok_bool; [done|]. apply env_ok_bind; [done|]. intros y [= <-]. by rewrite Hv.
Qed.

Lemma ok_for_of g en q fv items body : env_ok g en ->
  typed_node ir n T g (Expr.ForOf q fv items body) = true ->
  ok (fun v => has_ty v Ty.Bool) (eval_loop ev q items (pattern_id s)
    (fun id => eval_bool ev (bind_var fv.(fv_item) (Some (VInt id)) en) body) en).
Proof.
  intros Hen [[[Hq Hi]%andb_true_iff Hv]%andb_true_iff Hb]%andb_true_iff.
  eapply ok_loop with (R := any_value); [done..| |].
  - intros x Hx. apply ok_pattern_index. by rewrite forallb_forall in Hi; apply Hi.
  - intros y _. by eapply ok_body.
Qed.

Lemma ok_for_range g en q v fv r body : env_ok g en ->
  typed_node ir n T g (Expr.ForIn q [v] fv (Iterable.Range r) body) = true ->
  ok (fun v => has_ty v Ty.Bool) (eval_node s ev en 0 (Expr.ForIn q [v] fv (Iterable.Range r) body)).
Proof.
  intros Hen [[[Hq Hr]%andb_true_iff Hv]%andb_true_iff Hb]%andb_true_iff. cbn.
  eapply ok_bind; [by eapply ok_range_items|]. intros items _. destruct (bool_decide _); [exact I|].
  eapply ok_loop with (R := any_value); [done..| |]; [done|]. intros z _. by eapply ok_body.
Qed.

Lemma ok_for_tuple g en q v fv items body : env_ok g en ->
  typed_node ir n T g (Expr.ForIn q [v] fv (Iterable.ExprTuple items) body) = true ->
  ok (fun v => has_ty v Ty.Bool) (eval_node s ev en 0 (Expr.ForIn q [v] fv (Iterable.ExprTuple items) body)).
Proof.
  intros Hen [[Hq Hi]%andb_true_iff Hb]%andb_true_iff. cbn.
  eapply ok_loop with (R := fun x => forall y, x = Some y -> has_ty y v.(Var.ty)); [done..| |].
  - intros id Hid. rewrite forallb_forall in Hi. pose proof (Hi _ Hid) as Ht. apply ok_catch_option.
    assert (Hv : v.(Var.ty) = ty_at ir id) by by apply andb_true_iff in Ht as [_ Ht%ty_is_eq].
    rewrite Hv. by eapply ok_operand.
  - intros x Hx. eapply ok_bool; [done|by apply env_ok_bind|done].
Qed.

Lemma ok_for_in g en id q vars fv iterable body : env_ok g en ->
  get ir.(nodes) id = Some (Expr.ForIn q vars fv iterable body) ->
  typed_node ir n T g (Expr.ForIn q vars fv iterable body) = true ->
  ok (fun v => has_ty v Ty.Bool) (eval_node s ev en id (Expr.ForIn q vars fv iterable body)).
Proof.
  intros Hen Hg Ht. destruct iterable as [r|items|e].
  - destruct vars as [|v [|]]; [done| |done]. by eapply ok_for_range.
  - destruct vars as [|v [|]]; [done| |done]. by eapply ok_for_tuple.
  - by apply (fo_other Hfun _ _ _ Hg).
Qed.

Lemma ok_minus g en is_float id : env_ok g en -> typed_as ir T (ty_is (numeric_ty is_float)) g id = true ->
  ok (fun v => has_ty v (numeric_ty is_float)) (v ← ev en id;
    if is_float then match v with VFloat f => Def (VFloat (f64_neg f)) | _ => Stuck end
    else z ← as_int v; Def (VInt (wrap_i64 (0 - z)))).
Proof.
  intros Hen Ht. eapply ok_bind; [by eapply ok_operand|]. intros v Hv. apply andb_true_iff in Ht as [_ Ht%ty_is_eq].
  rewrite <- Ht in Hv. destruct is_float; [by apply has_float in Hv as [? ->]|by apply has_int in Hv as [? ->]].
Qed.

Lemma ok_symbol g en id sym : env_ok g en -> get ir.(nodes) id = Some (Expr.Symbol sym) ->
  typed_node ir n T g (Expr.Symbol sym) = true ->
  ok (fun v => has_ty v (symbol_ty sym)) (eval_node s ev en id (Expr.Symbol sym)).
Proof.
  intros Hen Hg Ht. destruct sym as [v tv| | |]; try by apply (fo_other Hfun _ _ _ Hg).
  apply bool_decide_eq_true_1 in Ht. apply ok_of_option. intros x Hx. by apply (Hen _ _ _ Hx Ht).
Qed.

Lemma ok_func_call g en id o f args : env_ok g en -> get ir.(nodes) id = Some (Expr.FuncCall o f args) ->
  typed_node ir n T g (Expr.FuncCall o f args) = true ->
  ok (fun v => has_ty v (tv_ty f.(result))) (eval_node s ev en id (Expr.FuncCall o f args)).
Proof.
  intros Hen Hg [[Ho Ha]%andb_true_iff Hf]%andb_true_iff. cbn. eapply ok_bind with (P := any_value).
  - destruct o as [o|]; [|done]. by eapply ok_bind; [by eapply IH|].
  - intros ov _. eapply ok_bind; [by eapply ok_list|]. intros vs _. by eapply ok_call.
Qed.

Lemma typed_node_ok g en id e : env_ok g en -> get ir.(nodes) id = Some e -> typed_node ir n T g e = true ->
  ok (fun v => has_ty v (expr_ty e)) (eval_node s ev en id e).
Proof.
  intros Hen Hg Ht. destruct e; cbn [eval_node expr_ty] in *.
  all: try (eapply ok_compare; eassumption).
  all: try (eapply ok_str; eassumption).
  all: try (eapply ok_ints; eassumption).
  all: try (apply has_bool; first [by eapply ok_and; [|apply andb_true_iff in Ht as []..] | by eapply ok_or; [|apply andb_true_iff in Ht as []..]]).
  all: try (by apply andb_true_iff in Ht as [? ?]; eapply ok_arith).
  all: try (apply andb_true_iff in Ht as [Hp Hr]; eapply ok_bind; [first [by apply ok_pattern_index | by eapply ok_pattern_var]|intros ? _; first [by eapply ok_count | by eapply ok_nth]]).
  all: try (apply has_bool; apply andb_true_iff in Ht as [Hp Hr]; eapply ok_bind; [first [by apply ok_pattern_index | by eapply ok_pattern_var]|intros ? _; by eapply ok_match]).
  all: try (by apply (fo_other Hfun _ _ _ Hg)).
  - by apply ok_const.
  - by destruct (_ <? 0).
  - apply has_bool. by eapply ok_bind; [eapply ok_bool|].
  - by eapply ok_minus.
  - apply andb_true_iff in Ht as [[? ?]%andb_true_iff ?]. by eapply ok_div.
  - apply andb_true_iff in Ht as [? ?]. by eapply ok_mod.
  - by eapply ok_bind; [eapply ok_int|].
  - apply has_bool, ok_catch; [|done]. by eapply ok_bind; [eapply ok_bool|].
  - by eapply ok_symbol.
  - cbn [typed_node] in Ht. destruct (typed_with _ _ _ _) as [g'|] eqn:E; [|done].
    eapply ok_bind; [by eapply ok_with|]. intros en' Hen'. apply andb_true_iff in Ht as [Ht ->%ty_is_eq]. by eapply IH.
  - by eapply ok_func_call.
  - apply andb_true_iff in Ht as [Hq Hi]. eapply ok_loop with (R := any_value); [done..| |done].
    intros x Hx. rewrite forallb_forall in Hi. by eapply ok_bool; [..|apply Hi].
  - apply andb_true_iff in Ht as [[Hq Hi]%andb_true_iff Ha]. eapply ok_loop with (R := any_value); [done..| |].
    + intros x Hx. rewrite forallb_forall in Hi. by apply ok_pattern_index, Hi.
    + intros x _. by eapply ok_match.
  - by apply ok_for_of with g.
  - by eapply ok_for_in.
Qed.
End Expressions.
End Soundness.

(** * Type soundness *)

Lemma eval_ok ir s g en id fuel :
  functions_ok ir s -> env_ok g en -> typed ir (len s.(sc_patterns)) fuel g id = true ->
  ok (fun v => has_ty v (ty_at ir id)) (eval ir s fuel en id).
Proof.
  intros Hf. revert g en id. induction fuel as [|fuel IH]; intros g en id Hen Ht; [done|]. cbn in *.
  unfold get_node, ty_at. destruct (get ir.(nodes) id) as [e|] eqn:He; [|done]. cbn.
  eapply typed_node_ok; [done| |done..]. intros g' en' id' Hen' Ht'. by apply (IH g').
Qed.

(** C10: an expression whose operands have the types that its operator takes, as
    [typed] checks them, never gets stuck: its value has the type that
    [expr_ty] computes for it, or it is undefined, or the evaluation traps. *)
Theorem type_soundness ir s g en id fuel :
  functions_ok ir s -> env_ok g en -> typed ir (len s.(sc_patterns)) fuel g id = true ->
  ok (fun v => has_ty v (ty_at ir id)) (eval ir s fuel en id).
Proof. apply eval_ok. Qed.

(** [for any i in (0..2) : (uint8(i) == 0x90 and with x = #a : (x * 2.5 > i))] *)
Definition typed_sample : IR :=
  let n1 := Var.Build_t 1 Ty.Integer in
  let fv := {| fv_n := n1 0; fv_i := n1 1; fv_max_count := n1 2; fv_count := n1 3; fv_item := n1 4 |} in
  let i := Expr.Symbol (Symbol.Var (n1 4) unknown_integer) in
  let x := Expr.Symbol (Symbol.Var (n1 5) unknown_integer) in
  let call_uint8 := {| mangled_name := "uint8@i@iu"; result := unknown_integer |} in
  set_tree
    [Expr.Const (const_integer_from 0); Expr.Const (const_integer_from 2);
     i; Expr.FuncCall None call_uint8 [2]; Expr.Const (const_integer_from 0x90); Expr.Eq 3 4;
     Expr.PatternCount 0 None; x; Expr.Const (const_float_from (f64_div (f64_of_i64 5) (f64_of_i64 2))); Expr.Mul true [7; 8];
     i; Expr.Gt 9 10; Expr.With unknown_bool [(n1 5, 6)] 11; Expr.And [5; 12];
     Expr.ForIn Quantifier.Any [n1 4] fv (Iterable.Range {| lower_bound := 0; upper_bound := 1 |}) 13]
    [14; 14; 3; 5; 5; 13; 12; 9; 9; 11; 11; 12; 13; 14; ExprId_none] ir_new.

Definition typed_scanned : Scanned :=
  {| sc_filesize := 4; sc_data := [0x4d; 0x5a; 0x90; 0];
     sc_matches := {| pattern_lists := {[ 0 := {| matches := [match_new (0, 3)]; list_capacity := 8 |} ]};
                      max_matches_per_pattern := 1000; total_capacity := 8 |};
     sc_patterns := [0]; sc_call := fun _ _ _ => None; sc_str := fun _ _ _ => false; sc_other := fun _ _ => Undef |}.

Example typed_sample_value : eval typed_sample typed_scanned 10 ∅ 14 = Def (VBool true).
Proof. vm_compute. reflexivity. Qed.

Lemma type_soundness_witness :
  typed typed_sample 1 10 ∅ 14 = true /\ ok (fun v => has_ty v Ty.Bool) (eval typed_sample typed_scanned 10 ∅ 14).
Proof.
  split; [vm_compute; reflexivity|]. apply (type_soundness typed_sample typed_scanned ∅ ∅ 14 10).
  - split; done.
  - by intros i v t [=].
  - vm_compute. reflexivity.
Defined.
