(* ===== verification/Wasm.v ===== *)
(** The part of WebAssembly that the code of conditions uses: structured
    instructions whose blocks are named by identifiers, as in
    [lib/src/compiler/emit.rs] and [lib/src/wasm/builder.rs], and their
    execution. *)

From Stdlib Require Import SpecFloat.
From stdpp Require Import gmap strings.
From S2P Require Import Prelude.
From S2P Require Import Matches.
From S2P Require Import Float64.
From S2P Require Import Types.
#[local] Open Scope Z_scope.

(** * Values and memory

    An [i32] is a number below 2^32, an [i64] is a signed number of 64 bits. *)

Inductive val_type : Type := I32 | I64 | F64.

Inductive wval : Type :=
  | VI32 (z : Z)
  | VI64 (z : Z)
  | VF64 (f : f64).

Definition b2i (b : bool) : Z := if b then 1 else 0.
Definition i32_bool (b : bool) : wval := VI32 (b2i b).

(** A byte of the memory is a number, or one of the eight bytes of a float. *)
Inductive mbyte : Type := Byte (z : Z) | FloatByte (f : f64) (i : Z).

#[export] Instance f64_eq_dec : EqDecision f64.
Proof. unfold f64. solve_decision. Defined.

#[export] Instance mbyte_eq_dec : EqDecision mbyte.
Proof. solve_decision. Defined.

Definition memory : Type := gmap Z mbyte.

Definition byte_at (m : memory) (a : Z) : mbyte := default (Byte 0) (m !! a).

Definition load_bytes (m : memory) (a n : Z) : list mbyte := byte_at m <$> seqZ a n.

Fixpoint store_bytes (m : memory) (a : Z) (bs : list mbyte) : memory :=
  match bs with
  | [] => m
  | b :: bs => store_bytes (<[a := b]> m) (a + 1) bs
  end.

Fixpoint numbers (bs : list mbyte) : option (list Z) :=
  match bs with
  | [] => Some []
  | Byte z :: bs => cons z <$> numbers bs
  | FloatByte _ _ :: _ => None
  end.

Definition float_bytes (f : f64) : list mbyte := FloatByte f <$> seqZ 0 8.

(** The kinds of the loads and stores that are used. *)
Inductive mem_kind : Type := Mem_I32_8 | Mem_I32 | Mem_I64 | Mem_F64.

Definition load (k : mem_kind) (m : memory) (a : Z) : option wval :=
  match k with
  | Mem_I32_8 => VI32 ∘ from_le_bytes <$> numbers (load_bytes m a 1)
  | Mem_I32 => VI32 ∘ from_le_bytes <$> numbers (load_bytes m a 4)
  | Mem_I64 => VI64 ∘ wrap_isize ∘ from_le_bytes <$> numbers (load_bytes m a 8)
  | Mem_F64 =>
      match byte_at m a with
      | FloatByte f _ => if decide (load_bytes m a 8 = float_bytes f) then Some (VF64 f) else None
      | Byte _ => None
      end
  end.

Definition store (k : mem_kind) (m : memory) (a : Z) (v : wval) : option memory :=
  match k, v with
  | Mem_I32, VI32 z => Some (store_bytes m a (Byte <$> to_le_bytes 4 z))
  | Mem_I64, VI64 z => Some (store_bytes m a (Byte <$> to_le_bytes 8 (wrap_usize z)))
  | Mem_F64, VF64 f => Some (store_bytes m a (float_bytes f))
  | _, _ => None
  end.

(** * Instructions *)

Inductive local : Type := I64TmpA | I64TmpB | I32Tmp | F64Tmp | PatternIdLocal | TmpLocal.
Inductive global : Type := Filesize | PatternSearchDone | MatchingPatternsBitmapBase.

Inductive unop : Type := I32WrapI64 | I64ExtendUI32 | F64ConvertSI64 | I32Eqz | I64Eqz | F64Neg | F64Ceil | I64TruncSF64.

Inductive binop : Type :=
  | I32And | I32ShrU | I32Add | I32RemU | I32Shl
  | I64Add | I64Sub | I64Mul | I64DivS | I64RemS | I64And | I64Or | I64Xor | I64Shl | I64ShrS
  | I64Eq | I64Ne | I64LtS | I64GtS | I64LeS | I64GeS
  | F64Add | F64Sub | F64Mul | F64Div | F64Eq | F64Ne | F64Lt | F64Gt | F64Le | F64Ge.

(** The functions that the host exports to the module, from
    [lib/src/wasm/mod.rs]; [Fn] is a function with the given mangled name, built
    in or from a module of YARA. *)
Inductive export : Type :=
  | SearchForPatterns | IsPatMatchAt | IsPatMatchIn | PatRangeMatch | PatMatches | PatMatchesIn | PatLength | PatOffset
  | StrEq | StrNe | StrLt | StrGt | StrLe | StrGe | StrLen
  | StrContains | StrIContains | StrStartsWith | StrIStartsWith | StrEndsWith | StrIEndsWith | StrIEquals
  | StrMatches | StrMatchesRegexSet
  | ArrayLen | MapLen | LookupInteger | LookupFloat | LookupBool | LookupString | LookupObject
  | ArrayIndexing (item : Ty.t) | MapLookup (key value : Ty.t) | MapLookupByIndex (key value : Ty.t)
  | Fn (mangled_name : string).

(** A function of the host, or the function of the module that checks the bit
    of a pattern. *)
Inductive function : Type := Host (e : export) | CheckForPatternMatch.

Inductive instr : Type :=
  | Const (v : wval)
  | LocalGet (l : local)
  | LocalSet (l : local)
  | LocalTee (l : local)
  | GlobalGet (g : global)
  | Unop (u : unop)
  | Binop (b : binop)
  | LoadMem (k : mem_kind) (offset : Z)
  | StoreMem (k : mem_kind) (offset : Z)
  | DropValue
  | Unreachable
  | Call (f : function)
  | Block (id : Z) (ty : option val_type) (body : list instr)
  | Loop (id : Z) (ty : option val_type) (body : list instr)
  | IfElse (ty : option val_type) (then_ else_ : list instr)
  | Br (id : Z)
  | BrIf (id : Z)
  | BrTable (ids : list Z) (default : Z).

Definition i32_const (z : Z) : instr := Const (VI32 (wrap_u32 z)).
Definition i64_const (z : Z) : instr := Const (VI64 z).
Definition f64_const (f : f64) : instr := Const (VF64 f).

(** * Operations *)

Inductive op_result : Type := Value (v : wval) | OpTrap | OpStuck.

Definition unop_eval (u : unop) (v : wval) : op_result :=
  match u, v with
  | I32WrapI64, VI64 z => Value (VI32 (wrap_u32 z))
  | I64ExtendUI32, VI32 z => Value (VI64 z)
  | F64ConvertSI64, VI64 z => Value (VF64 (f64_of_i64 z))
  | I32Eqz, VI32 z => Value (i32_bool (z =? 0))
  | I64Eqz, VI64 z => Value (i32_bool (z =? 0))
  | F64Neg, VF64 f => Value (VF64 (f64_neg f))
  | F64Ceil, VF64 f => Value (VF64 (f64_ceil f))
  | I64TruncSF64, VF64 f =>
      match f with
      | S754_nan | S754_infinity _ => OpTrap
      | f => if f64_le (f64_of_i64 i64_MIN) f && f64_lt f (f64_of_i64 i64_MAX) then Value (VI64 (f64_to_i64 f)) else OpTrap
      end
  | _, _ => OpStuck
  end.

Definition i32_op (b : binop) (x y : Z) : op_result :=
  match b with
  | I32And => Value (VI32 (Z.land x y))
  | I32ShrU => Value (VI32 (Z.shiftr x (y mod 32)))
  | I32Add => Value (VI32 (wrap_u32 (x + y)))
  | I32RemU => if y =? 0 then OpTrap else Value (VI32 (x mod y))
  | I32Shl => Value (VI32 (wrap_u32 (Z.shiftl x (y mod 32))))
  | _ => OpStuck
  end.

Definition i64_op (b : binop) (x y : Z) : op_result :=
  match b with
  | I64Add => Value (VI64 (wrap_isize (x + y)))
  | I64Sub => Value (VI64 (wrap_isize (x - y)))
  | I64Mul => Value (VI64 (wrap_isize (x * y)))
  | I64DivS => if (y =? 0) || ((x =? i64_MIN) && (y =? -1)) then OpTrap else Value (VI64 (Z.quot x y))
  | I64RemS => if y =? 0 then OpTrap else Value (VI64 (Z.rem x y))
  | I64And => Value (VI64 (Z.land x y))
  | I64Or => Value (VI64 (Z.lor x y))
  | I64Xor => Value (VI64 (Z.lxor x y))
  | I64Shl => Value (VI64 (wrap_isize (Z.shiftl x (y mod 64))))
  | I64ShrS => Value (VI64 (Z.shiftr x (y mod 64)))
  | I64Eq => Value (i32_bool (x =? y))
  | I64Ne => Value (i32_bool (negb (x =? y)))
  | I64LtS => Value (i32_bool (x <? y))
  | I64GtS => Value (i32_bool (y <? x))
  | I64LeS => Value (i32_bool (x <=? y))
  | I64GeS => Value (i32_bool (y <=? x))
  | _ => OpStuck
  end.

Definition f64_op (b : binop) (x y : f64) : op_result :=
  match b with
  | F64Add => Value (VF64 (f64_add x y))
  | F64Sub => Value (VF64 (f64_sub x y))
  | F64Mul => Value (VF64 (f64_mul x y))
  | F64Div => Value (VF64 (f64_div x y))
  | F64Eq => Value (i32_bool (f64_eq x y))
  | F64Ne => Value (i32_bool (negb (f64_eq x y)))
  | F64Lt => Value (i32_bool (f64_lt x y))
  | F64Gt => Value (i32_bool (f64_lt y x))
  | F64Le => Value (i32_bool (f64_le x y))
  | F64Ge => Value (i32_bool (f64_le y x))
  | _ => OpStuck
  end.

Definition binop_eval (b : binop) (x y : wval) : op_result :=
  match x, y with
  | VI32 x, VI32 y => i32_op b x y
  | VI64 x, VI64 y => i64_op b x y
  | VF64 x, VF64 y => f64_op b x y
  | _, _ => OpStuck
  end.

(** * The machine *)

Record machine := {
  stack : list wval;
  locals : local -> wval;
  mem : memory;
  search_done : Z;
  found : PatternMatches;
}.

Definition set_stack (s : list wval) (m : machine) : machine :=
  {| stack := s; locals := m.(locals); mem := m.(mem); search_done := m.(search_done); found := m.(found) |}.
Definition set_locals (l : local -> wval) (m : machine) : machine :=
  {| stack := m.(stack); locals := l; mem := m.(mem); search_done := m.(search_done); found := m.(found) |}.
Definition set_mem (mem : memory) (m : machine) : machine :=
  {| stack := m.(stack); locals := m.(locals); mem := mem; search_done := m.(search_done); found := m.(found) |}.
Definition push (v : wval) (m : machine) : machine := set_stack (v :: m.(stack)) m.

#[export] Instance local_eq_dec : EqDecision local.
Proof. solve_decision. Defined.

Definition set_local (l : local) (v : wval) (m : machine) : machine :=
  set_locals (fun l' => if decide (l' = l) then v else m.(locals) l') m.

(** What the code runs with: the size of the file, the address of the bitmap of
    patterns, and the functions of the host, which take their arguments from
    the stack (the last one on top), leave their results on it and may change
    the machine; they end the execution when they panic. *)
Record Runtime := {
  rt_filesize : Z;
  rt_bitmap_base : Z;
  rt_call : export -> machine -> option machine;
}.

Definition global_value (rt : Runtime) (m : machine) (g : global) : wval :=
  match g with
  | Filesize => VI64 rt.(rt_filesize)
  | PatternSearchDone => VI32 m.(search_done)
  | MatchingPatternsBitmapBase => VI32 rt.(rt_bitmap_base)
  end.

(** * Execution *)

(** [Jump id] is a branch out of the block, or to the start of the loop, that
    has that identifier. *)
Inductive result : Type :=
  | Next (m : machine)
  | Jump (id : Z) (m : machine)
  | Trapped
  | StuckAt
  | NoGas.

Definition num_results (ty : option val_type) : nat := match ty with Some _ => 1 | None => 0 end.

(** The results of a block are left over the stack it started with. *)
Definition leave (ty : option val_type) (outer : list wval) (m : machine) : machine :=
  set_stack (take (num_results ty) m.(stack) ++ outer) m.

Definition op_next (r : op_result) (s : list wval) (m : machine) : result :=
  match r with Value v => Next (set_stack (v :: s) m) | OpTrap => Trapped | OpStuck => StuckAt end.

Definition next_opt (o : option machine) : result := match o with Some m => Next m | None => StuckAt end.

(** The body of the function that [gen_check_for_pattern_match] generates. *)
Definition gen_check_for_pattern_match : list instr :=
  [LocalGet PatternIdLocal; i32_const 3; Binop I32ShrU; GlobalGet MatchingPatternsBitmapBase; Binop I32Add;
   LoadMem Mem_I32_8 0; i32_const 1; LocalGet PatternIdLocal; i32_const 8; Binop I32RemU; LocalTee TmpLocal;
   Binop I32Shl; Binop I32And; LocalGet TmpLocal; Binop I32ShrU].

Section Exec.
Context (rt : Runtime).

(** The instructions without blocks nor calls. *)
Definition step (i : instr) (m : machine) : result :=
  match i, m.(stack) with
  | Const v, s => Next (push v m)
  | LocalGet l, s => Next (push (m.(locals) l) m)
  | LocalSet l, v :: s => Next (set_local l v (set_stack s m))
  | LocalTee l, v :: s => Next (set_local l v m)
  | GlobalGet g, s => Next (push (global_value rt m g) m)
  | Unop u, v :: s => op_next (unop_eval u v) s m
  | Binop b, y :: x :: s => op_next (binop_eval b x y) s m
  | LoadMem k offset, VI32 a :: s => next_opt ((fun v => set_stack (v :: s) m) <$> load k m.(mem) (a + offset))
  | StoreMem k offset, v :: VI32 a :: s => next_opt ((fun mem => set_mem mem (set_stack s m)) <$> store k m.(mem) (a + offset) v)
  | DropValue, _ :: s => Next (set_stack s m)
  | Unreachable, _ => Trapped
  | Call (Host f), _ => match rt.(rt_call) f m with Some m => Next m | None => Trapped end
  | Br id, _ => Jump id m
  | BrIf id, VI32 c :: s => if c =? 0 then Next (set_stack s m) else Jump id (set_stack s m)
  | BrTable ids default, VI32 c :: s => Jump (from_option id default (get ids c)) (set_stack s m)
  | _, _ => StuckAt
  end.

(** One instruction; [exec] executes the code of blocks and functions. *)
Definition exec_instr (exec : list instr -> machine -> result) (i : instr) (m : machine) : result :=
  match i with
  | Block id ty body =>
      match exec body (set_stack [] m) with
      | Next m' => Next (leave ty m.(stack) m')
      | Jump id' m' => if id' =? id then Next (leave ty m.(stack) m') else Jump id' m'
      | r => r
      end
  | Loop id ty body =>
      match exec body (set_stack [] m) with
      | Next m' => Next (leave ty m.(stack) m')
      | Jump id' m' => if id' =? id then exec [Loop id ty body] (set_stack m.(stack) m') else Jump id' m'
      | r => r
      end
  | IfElse ty then_ else_ =>
      match m.(stack) with
      | VI32 c :: s =>
          match exec (if c =? 0 then else_ else then_) (set_stack [] m) with
          | Next m' => Next (leave ty s m')
          | r => r
          end
      | _ => StuckAt
      end
  | Call CheckForPatternMatch =>
      match m.(stack) with
      | VI32 id :: s =>
          match exec gen_check_for_pattern_match (set_local PatternIdLocal (VI32 id) (set_stack [] m)) with
          | Next m' => Next (set_locals m.(locals) (leave (Some I32) s m'))
          | r => r
          end
      | _ => StuckAt
      end
  | i => step i m
  end.

(** The fuel bounds the number of instructions on a path. *)
Fixpoint exec (fuel : nat) (code : list instr) (m : machine) : result :=
  match fuel with
  | O => NoGas
  | S fuel =>
      match code with
      | [] => Next m
      | i :: code =>
          match exec_instr (exec fuel) i m with
          | Next m => exec fuel code m
          | r => r
          end
      end
  end.
End Exec.
