(* ===== verification/RuntimeString.v ===== *)
(** The strings of conditions at run time, from [lib/src/wasm/string.rs]: their
    representation as an [i64] and the operations on them. *)

From stdpp Require Import gmap.
From S2P Require Import Prelude.
From S2P Require Import Float64.
From S2P Require Import Types.
From S2P Require Import Eval.
#[local] Open Scope Z_scope.

(** * Strings of bytes

    The functions of the [bstr] crate that search for a string and that change
    the letters of UTF-8 text to lowercase. *)
Class ByteStrings := {
  contains_str : list Z -> list Z -> bool;
  to_lowercase : list Z -> list Z;
}.

(** [contains_str] says whether the second string occurs in the first. *)
Class ByteStringsLaws `{ByteStrings} := {
  contains_str_spec h n : contains_str h n = true <-> exists a b, h = a ++ n ++ b;
}.

(** [is_prefix_of] and [is_suffix_of], as [starts_with_str] and [ends_with_str]. *)
Definition starts_with_str (h p : list Z) : bool := bool_decide (take (length p) h = p).
Definition ends_with_str (h s : list Z) : bool := bool_decide ((length s <= length h)%nat /\ drop (length h - length s) h = s).

Definition is_ascii (s : list Z) : bool := forallb (fun b => b <? 128) s.
Definition to_ascii_lowercase (b : Z) : Z := if (65 <=? b) && (b <=? 90) then b + 32 else b.
Definition eq_ignore_ascii_case (a b : list Z) : bool :=
  bool_decide (to_ascii_lowercase <$> a = to_ascii_lowercase <$> b).

(** [windows(n).any(p)] for [n > 0] *)
Fixpoint any_window (n : nat) (p : list Z -> bool) (h : list Z) : bool :=
  if (length h <? n)%nat then false
  else p (take n h) || match h with [] => false | _ :: h => any_window n p h end.

Definition contains_ascii_case_insensitive (haystack needle : list Z) : bool :=
  if bool_decide (needle = []) then true
  else if len haystack <? len needle then false
  else any_window (length needle) (fun window => eq_ignore_ascii_case window needle) haystack.

Definition starts_with_ascii_case_insensitive (haystack prefix : list Z) : bool :=
  (len prefix <=? len haystack) && eq_ignore_ascii_case (take (length prefix) haystack) prefix.

Definition ends_with_ascii_case_insensitive (haystack suffix : list Z) : bool :=
  (len suffix <=? len haystack) && eq_ignore_ascii_case (drop (length haystack - length suffix) haystack) suffix.

(** An implementation for ASCII text. *)
#[export] Instance ascii_ByteStrings : ByteStrings := {
  contains_str h n := if bool_decide (n = []) then true else any_window (length n) (fun w => bool_decide (w = n)) h;
  to_lowercase s := to_ascii_lowercase <$> s;
}.

(** * Strings at run time *)

Module RuntimeString.
(** A reference-counted string has an address. *)
Inductive t : Type :=
  | Literal (id : Z)
  | ScannedDataSlice (offset length : Z)
  | Rc (address : Z) (s : list Z).
End RuntimeString.

(** The parts of [ScanContext] that strings use. *)
Record StringContext := {
  ctx_lit_pool : Z -> option (list Z);
  ctx_scanned_data : option (list Z);
  ctx_runtime_objects : gmap Z (list Z);
}.

Definition store_string (address : Z) (s : list Z) (ctx : StringContext) : StringContext :=
  {| ctx_lit_pool := ctx.(ctx_lit_pool); ctx_scanned_data := ctx.(ctx_scanned_data);
     ctx_runtime_objects := <[address := s]> ctx.(ctx_runtime_objects) |}.

(** [i64::from(id) << 2], and [into_wasm_with_ctx]. *)
Definition literal_into_wasm (id : Z) : Z := wrap_isize (Z.shiftl id 2).

Definition into_wasm_with_ctx (s : RuntimeString.t) (ctx : StringContext) : res (Z * StringContext) :=
  match s with
  | RuntimeString.Literal id => Ret (literal_into_wasm id, ctx)
  | RuntimeString.Rc address s => Ret (Z.lor address 1, store_string address s ctx)
  | RuntimeString.ScannedDataSlice offset length =>
      if u16_MAX <=? length then Panic
      else
        Ret (Z.lor (Z.lor (wrap_isize (Z.shiftl (wrap_isize offset) 18)) (wrap_isize (Z.shiftl (wrap_isize length) 2))) 2, ctx)
  end.

(** [into_wasm], which is only for literals. *)
Definition into_wasm (s : RuntimeString.t) : res Z :=
  match s with RuntimeString.Literal id => Ret (literal_into_wasm id) | _ => Panic end.

Definition from_wasm (ctx : StringContext) (s : Z) : res RuntimeString.t :=
  let tag := Z.land s 3 in
  if tag =? 0 then Ret (RuntimeString.Literal (wrap_u32 (Z.shiftr s 2)))
  else if tag =? 1 then
    let handle := Z.land s (Z.lnot 3) in
    bytes ← or_panic (ctx.(ctx_runtime_objects) !! handle);
    Ret (RuntimeString.Rc handle bytes)
  else if tag =? 2 then
    Ret (RuntimeString.ScannedDataSlice (wrap_usize (Z.shiftr s 18)) (wrap_usize (Z.land (Z.shiftr s 2) 0xffff)))
  else Panic.

Definition as_bstr (s : RuntimeString.t) (ctx : StringContext) : res (list Z) :=
  match s with
  | RuntimeString.Literal id => or_panic (ctx.(ctx_lit_pool) id)
  | RuntimeString.ScannedDataSlice offset length =>
      data ← or_panic ctx.(ctx_scanned_data);
      index_range data offset (offset + length)
  | RuntimeString.Rc _ s => Ret s
  end.

Section Operations.
Context {BS : ByteStrings} (ctx : StringContext).

Definition str_len (s : RuntimeString.t) : res Z := s ← as_bstr s ctx; Ret (len s).

(** A comparison of the bytes of two strings. *)
Definition str_compare_with (f : list Z -> list Z -> bool) (a b : RuntimeString.t) : res bool :=
  a ← as_bstr a ctx; b ← as_bstr b ctx; Ret (f a b).

Definition rs_eq : RuntimeString.t -> RuntimeString.t -> res bool := str_compare_with Eval.str_eq.
Definition rs_ne : RuntimeString.t -> RuntimeString.t -> res bool := str_compare_with (fun a b => negb (Eval.str_eq a b)).
Definition rs_lt : RuntimeString.t -> RuntimeString.t -> res bool := str_compare_with Eval.str_lt.
Definition rs_gt : RuntimeString.t -> RuntimeString.t -> res bool := str_compare_with (fun a b => Eval.str_lt b a).
Definition rs_le : RuntimeString.t -> RuntimeString.t -> res bool := str_compare_with Eval.str_le.
Definition rs_ge : RuntimeString.t -> RuntimeString.t -> res bool := str_compare_with (fun a b => Eval.str_le b a).

(** An operation on ASCII strings, and on the lowercase strings otherwise. *)
Definition ignoring_case (ascii plain : list Z -> list Z -> bool) (a b : list Z) : bool :=
  if is_ascii a && is_ascii b then ascii a b else plain (to_lowercase a) (to_lowercase b).

Definition rs_contains (case_insensitive : bool) : RuntimeString.t -> RuntimeString.t -> res bool :=
  str_compare_with (if case_insensitive then ignoring_case contains_ascii_case_insensitive contains_str else contains_str).

Definition rs_starts_with (case_insensitive : bool) : RuntimeString.t -> RuntimeString.t -> res bool :=
  str_compare_with (if case_insensitive then ignoring_case starts_with_ascii_case_insensitive starts_with_str else starts_with_str).

Definition rs_ends_with (case_insensitive : bool) : RuntimeString.t -> RuntimeString.t -> res bool :=
  str_compare_with (if case_insensitive then ignoring_case ends_with_ascii_case_insensitive ends_with_str else ends_with_str).

Definition rs_equals (case_insensitive : bool) : RuntimeString.t -> RuntimeString.t -> res bool :=
  str_compare_with (if case_insensitive then ignoring_case eq_ignore_ascii_case Eval.str_eq else Eval.str_eq).
End Operations.

(** * The representation *)

(** The values of the types: identifiers of 32 bits, [usize] numbers, and
    addresses of [i64] that are multiples of 4. *)
Definition valid_string (s : RuntimeString.t) : Prop :=
  match s with
  | RuntimeString.Literal id => is_u32 id
  | RuntimeString.ScannedDataSlice offset length => is_usize offset /\ is_usize length
  | RuntimeString.Rc address _ => i64_MIN <= address <= i64_MAX /\ Z.land address 3 = 0
  end.

(** The low 46 bits of an offset, with their sign. *)
Definition signed_46 (offset : Z) : Z := (offset + 2 ^ 45) mod 2 ^ 46 - 2 ^ 45.

(** A number below 2^n fills the low bits of a multiple of 2^n. *)
Lemma lor_low a b n : 0 <= n -> 0 <= b < 2 ^ n -> Z.lor (a * 2 ^ n) b = a * 2 ^ n + b.
Proof.
  intros Hn Hb. assert (Hl : Z.land (a * 2 ^ n) b = 0).
  { apply Z.bits_inj'. intros i Hi. rewrite Z.land_spec, Z.bits_0. destruct (decide (i < n)).
    - by rewrite Z.mul_pow2_bits_low.
    - rewrite andb_comm. destruct (decide (b = 0)) as [->|Hb0]; [by rewrite Z.bits_0|].
      rewrite (Z.bits_above_log2 b); [done|lia|]. apply Z.log2_lt_pow2; [lia|].
      apply Z.lt_le_trans with (2 ^ n); [lia|]. apply Z.pow_le_mono_r; lia. }
  rewrite <- Z.lxor_lor by done. symmetry. by apply Z.add_nocarry_lxor.
Qed.

Lemma land_3 z : Z.land z 3 = z mod 4.
Proof. by apply (Z.land_ones z 2). Qed.

Lemma land_not_3 z : Z.land z (Z.lnot 3) = z - z mod 4.
Proof.
  rewrite <- Z.ldiff_land. change 3 with (Z.ones 2). rewrite Z.ldiff_ones_r, Z.shiftr_div_pow2, Z.shiftl_mul_pow2 by lia. change (2 ^ 2) with 4.
  rewrite (Z.mod_eq z 4) by lia. lia.
Qed.

Lemma offset_word offset : is_usize offset -> wrap_isize (Z.shiftl (wrap_isize offset) 18) = signed_46 offset * 2 ^ 18.
Proof.
  unfold is_usize. intros Ho. rewrite Z.shiftl_mul_pow2 by lia. unfold signed_46, wrap_isize.
  change 18446744073709551616 with (2 ^ 46 * 2 ^ 18). change 9223372036854775808 with (2 ^ 45 * 2 ^ 18).
  rewrite <- Z.mul_add_distr_r, Z.mul_mod_distr_r by done. rewrite Z.mul_sub_distr_r. do 2 f_equal.
  lia_mod.
Qed.

Lemma slice_repr offset length : is_usize offset -> 0 <= length < u16_MAX ->
  Z.lor (Z.lor (wrap_isize (Z.shiftl (wrap_isize offset) 18)) (wrap_isize (Z.shiftl (wrap_isize length) 2))) 2 =
  signed_46 offset * 2 ^ 18 + length * 4 + 2.
Proof.
  unfold u16_MAX. intros Ho Hl. rewrite offset_word by done.
  rewrite Z.shiftl_mul_pow2, (wrap_isize_id length) by lia. change (2 ^ 2) with 4. rewrite wrap_isize_id by lia.
  rewrite <- Z.lor_assoc. replace (Z.lor (length * 4) 2) with (length * 4 + 2) by (symmetry; apply (lor_low length 2 2); lia).
  rewrite (lor_low (signed_46 offset) (length * 4 + 2) 18) by lia. lia.
Qed.

(** The word of a literal. *)
Lemma literal_word ctx id : is_u32 id ->
  i64_MIN <= literal_into_wasm id <= i64_MAX /\ from_wasm ctx (literal_into_wasm id) = Ret (RuntimeString.Literal id).
Proof.
  unfold i64_MIN, i64_MAX, is_u32, literal_into_wasm. intros Hid. rewrite Z.shiftl_mul_pow2, wrap_isize_id by lia. change (2 ^ 2) with 4.
  split; [lia|]. unfold from_wasm. rewrite land_3, Z_mod_mult. cbn [Z.eqb].
  rewrite Z.shiftr_div_pow2, Z.div_mul by lia. unfold wrap_u32. by rewrite Z.mod_small by lia.
Qed.

(** What an [i64] stands for when it is read: the word of [s] is read as [s']. *)
Definition reads_as (s s' : RuntimeString.t) ctx : Prop :=
  exists w ctx', into_wasm_with_ctx s ctx = Ret (w, ctx') /\ i64_MIN <= w <= i64_MAX /\ from_wasm ctx' w = Ret s'.

Lemma slice_reads_as offset length ctx : is_usize offset -> 0 <= length < u16_MAX ->
  reads_as (RuntimeString.ScannedDataSlice offset length)
    (RuntimeString.ScannedDataSlice (wrap_usize (signed_46 offset)) length) ctx.
Proof.
  intros Ho Hl. unfold reads_as, i64_MIN, i64_MAX. cbn [into_wasm_with_ctx]. rewrite slice_repr by done.
  assert (Hs : - 2 ^ 45 <= signed_46 offset < 2 ^ 45) by (unfold signed_46; lia_mod).
  set (o := signed_46 offset) in *. clearbody o. unfold u16_MAX in *. destruct (_ <=? _) eqn:E; bools; [lia|].
  eexists _, _. split_and!; [done|lia|lia|]. unfold from_wasm. rewrite land_3.
  replace ((o * 2 ^ 18 + length * 4 + 2) mod 4) with 2 by lia_mod. cbn [Z.eqb Pos.eqb].
  rewrite !Z.shiftr_div_pow2 by lia. change 65535 with (Z.ones 16). rewrite Z.land_ones by lia.
  replace ((o * 2 ^ 18 + length * 4 + 2) / 2 ^ 18) with o by lia_mod.
  replace ((o * 2 ^ 18 + length * 4 + 2) / 2 ^ 2 mod 2 ^ 16) with length by lia_mod.
  do 2 f_equal. unfold wrap_usize. by rewrite Z.mod_small by lia.
Qed.

Lemma rc_reads_as address s ctx : i64_MIN <= address <= i64_MAX -> Z.land address 3 = 0 ->
  reads_as (RuntimeString.Rc address s) (RuntimeString.Rc address s) ctx.
Proof.
  unfold reads_as, i64_MIN, i64_MAX. intros Ha Hl. rewrite land_3 in Hl. assert (Hw : Z.lor address 1 = address + 1).
  { pose proof (lor_low (address / 4) 1 2 ltac:(lia) ltac:(lia)) as H. change (2 ^ 2) with 4 in H.
    replace (address / 4 * 4) with address in H by lia_mod. exact H. }
  cbn [into_wasm_with_ctx]. rewrite Hw. eexists _, _. split_and!; [done|lia|lia_mod|]. unfold from_wasm. rewrite land_3, land_not_3.
  replace ((address + 1) mod 4) with 1 by lia_mod. cbn [Z.eqb Pos.eqb]. replace (address + 1 - 1) with address by lia.
  cbn [store_string ctx_runtime_objects]. by rewrite lookup_insert_eq.
Qed.

(** The offsets that are read back. *)
Lemma signed_46_exact offset : is_usize offset ->
  wrap_usize (signed_46 offset) = offset <-> offset < 2 ^ 45 \/ 2 ^ 64 - 2 ^ 45 <= offset.
Proof. unfold is_usize, wrap_usize, signed_46. intros Ho. lia_mod. Qed.

(** C40: a string of any kind that is passed to the module as an [i64] and read
    back. Literals and reference-counted strings are read back as they were, with
    the same bytes. A slice of the scanned data of 65535 bytes or more panics; a
    shorter one is read back with the same length, and with the low 46 bits of its
    offset extended with their sign: this is the same offset exactly when it is
    below 2^45 (or in the last 2^45 of [usize]), and not for the other offsets up to
    2^46 - 1, which the comment of the code says can be represented. *)
Theorem runtime_string_roundtrip s ctx :
  valid_string s ->
  match s with
  | RuntimeString.ScannedDataSlice offset length =>
      let offset' := wrap_usize (signed_46 offset) in
      (u16_MAX <= length -> into_wasm_with_ctx s ctx = Panic) /\
      (length < u16_MAX -> reads_as s (RuntimeString.ScannedDataSlice offset' length) ctx) /\
      (offset' = offset <-> offset < 2 ^ 45 \/ 2 ^ 64 - 2 ^ 45 <= offset)
  | RuntimeString.Literal id => reads_as s s ctx /\ exists w, into_wasm s = Ret w /\ from_wasm ctx w = Ret s
  | RuntimeString.Rc _ _ => reads_as s s ctx
  end.
Proof.
  destruct s as [id|offset length|address s]; cbn [valid_string].
  - intros Hid. destruct (literal_word ctx id Hid) as [Hw Hr]. split; [by eexists _, ctx|by eexists].
  - intros [Ho Hl]. cbn zeta. split; [|split].
    + intros Hm. cbn. by assert (u16_MAX <=? length = true) as -> by lia.
    + intros Hm. apply slice_reads_as; [done|]. unfold is_usize in Hl. lia.
    + by apply signed_46_exact.
  - intros [Ha Hl]. by apply rc_reads_as.
Qed.

(** An offset of 46 bits is read back with the sign of the [i64]. *)
Example offset_46_bits ctx :
  (r ← into_wasm_with_ctx (RuntimeString.ScannedDataSlice (2 ^ 45) 1) ctx; from_wasm (snd r) (fst r)) =
  Ret (RuntimeString.ScannedDataSlice (2 ^ 64 - 2 ^ 45) 1).
Proof. reflexivity. Qed.

Lemma runtime_string_roundtrip_witness :
  let ctx := {| ctx_lit_pool := fun _ => None; ctx_scanned_data := None; ctx_runtime_objects := ∅ |} in
  reads_as (RuntimeString.ScannedDataSlice 70000 65534) (RuntimeString.ScannedDataSlice 70000 65534) ctx /\
  into_wasm_with_ctx (RuntimeString.ScannedDataSlice 0 65535) ctx = Panic.
Proof.
  intros ctx. split.
  - destruct (runtime_string_roundtrip (RuntimeString.ScannedDataSlice 70000 65534) ctx) as (_ & H & _);
      [split; unfold is_usize; lia|]. apply H. reflexivity.
  - destruct (runtime_string_roundtrip (RuntimeString.ScannedDataSlice 0 65535) ctx) as (H & _);
      [split; unfold is_usize; lia|]. apply H. discriminate.
Defined.
