(* ===== verification/Host.v ===== *)
(** The functions that the host exports to the module, from
    [lib/src/wasm/mod.rs]: they take their arguments from the stack and leave
    their results on it. Functions of modules, and those that read structures,
    arrays and maps, are a parameter. *)

From stdpp Require Import gmap strings.
From S2P Require Import Prelude.
From S2P Require Import Matches.
From S2P Require Import Float64.
From S2P Require Import Types.
From S2P Require Import IR.
From S2P Require Import Builtins.
From S2P Require Import Eval.
From S2P Require Import Wasm.
From S2P Require Import RuntimeString.
#[local] Open Scope Z_scope.

(** The scan that the functions work on. [h_found] and [h_bitmap] are the
    matches of the patterns and their bitmap once the data has been searched. *)
Record HostContext := {
  h_strings : StringContext;
  h_filesize : Z;
  h_bitmap_base : Z;
  h_found : PatternMatches;
  h_bitmap : list Z;
  h_regexp_matches : Z -> list Z -> bool;
  h_regex_set_matches : Z -> list Z -> bool;
  h_other : export -> machine -> option machine;
}.

Definition of_res {A} (r : res A) : option A := match r with Ret a => Some a | _ => None end.

Section Host.
Context {BS : ByteStrings} (h : HostContext).

(** A result that may be undefined is followed by a flag. *)
Definition return_option (v : option Z) (s : list wval) (m : machine) : option machine :=
  Some (set_stack (match v with Some v => VI32 0 :: VI64 v :: s | None => VI32 1 :: VI64 0 :: s end) m).

Definition return_bool (b : bool) (s : list wval) (m : machine) : option machine := Some (set_stack (i32_bool b :: s) m).
Definition return_i64 (v : Z) (s : list wval) (m : machine) : option machine := Some (set_stack (VI64 v :: s) m).

(** The search fills the bitmap and sets [pattern_search_done]. *)
Definition search_for_patterns (m : machine) : option machine :=
  Some {| stack := m.(stack); locals := m.(locals);
          mem := store_bytes m.(mem) h.(h_bitmap_base) (Byte <$> h.(h_bitmap)); search_done := 1; found := h.(h_found) |}.

(** A function of two strings that returns a boolean. *)
Definition str_call (op : StringContext -> RuntimeString.t -> RuntimeString.t -> res bool) (m : machine) : option machine :=
  match m.(stack) with
  | VI64 rhs :: VI64 lhs :: s =>
      lhs ← of_res (from_wasm h.(h_strings) lhs); rhs ← of_res (from_wasm h.(h_strings) rhs);
      b ← of_res (op h.(h_strings) lhs rhs); return_bool b s m
  | _ => None
  end.

(** [str_matches] and [str_matches_regex_set] *)
Definition regex_call (matches : Z -> list Z -> bool) (m : machine) : option machine :=
  match m.(stack) with
  | VI32 regex :: VI64 lhs :: s =>
      lhs ← of_res (from_wasm h.(h_strings) lhs); lhs ← of_res (as_bstr lhs h.(h_strings));
      return_bool (matches regex lhs) s m
  | _ => None
  end.

Definition host_call (f : export) (m : machine) : option machine :=
  match f, m.(stack) with
  | SearchForPatterns, _ => search_for_patterns m
  | IsPatMatchAt, VI64 offset :: VI32 id :: s => return_bool (is_pat_match_at m.(found) id offset) s m
  | IsPatMatchIn, VI64 upper :: VI64 lower :: VI32 id :: s => return_bool (is_pat_match_in m.(found) id lower upper) s m
  | PatRangeMatch, VI64 required :: VI32 stop :: VI32 start :: s =>
      b ← of_res (pat_range_match m.(found) start stop required); return_bool b s m
  | PatMatches, VI32 id :: s => return_i64 (pat_matches m.(found) id) s m
  | PatMatchesIn, VI64 upper :: VI64 lower :: VI32 id :: s => return_i64 (pat_matches_in m.(found) id lower upper) s m
  | PatLength, VI64 index :: VI32 id :: s => return_option (pat_length m.(found) id index) s m
  | PatOffset, VI64 index :: VI32 id :: s => return_option (pat_offset m.(found) id index) s m
  | StrEq, _ => str_call rs_eq m
  | StrNe, _ => str_call rs_ne m
  | StrLt, _ => str_call rs_lt m
  | StrGt, _ => str_call rs_gt m
  | StrLe, _ => str_call rs_le m
  | StrGe, _ => str_call rs_ge m
  | StrContains, _ => str_call (fun ctx => rs_contains ctx false) m
  | StrIContains, _ => str_call (fun ctx => rs_contains ctx true) m
  | StrStartsWith, _ => str_call (fun ctx => rs_starts_with ctx false) m
  | StrIStartsWith, _ => str_call (fun ctx => rs_starts_with ctx true) m
  | StrEndsWith, _ => str_call (fun ctx => rs_ends_with ctx false) m
  | StrIEndsWith, _ => str_call (fun ctx => rs_ends_with ctx true) m
  | StrIEquals, _ => str_call (fun ctx => rs_equals ctx true) m
  | StrLen, VI64 s :: rest =>
      s ← of_res (from_wasm h.(h_strings) s); n ← of_res (str_len h.(h_strings) s); return_i64 n rest m
  | StrMatches, _ => regex_call h.(h_regexp_matches) m
  | StrMatchesRegexSet, _ => regex_call h.(h_regex_set_matches) m
  | Fn name, _ =>
      match int_reader (before_at name), m.(stack) with
      | Some r, VI64 offset :: s =>
          return_option (data ← h.(h_strings).(ctx_scanned_data); read_int r data offset) s m
      | _, _ => h.(h_other) f m
      end
  | (ArrayLen | MapLen | LookupInteger | LookupFloat | LookupBool | LookupString | LookupObject
     | ArrayIndexing _ | MapLookup _ _ | MapLookupByIndex _ _), _ => h.(h_other) f m
  | _, _ => None
  end.

Definition host_runtime : Runtime :=
  {| rt_filesize := h.(h_filesize); rt_bitmap_base := h.(h_bitmap_base); rt_call := host_call |}.
End Host.
