(* ===== verification/Emit.v ===== *)
(** The emission of the code of a condition, from [lib/src/compiler/emit.rs].
    Each function returns the instructions that it appends to the sequence. *)

From Stdlib Require Import SpecFloat.
From stdpp Require Import strings sorting.
From S2P Require Import Prelude.
From S2P Require Import StringPool.
From S2P Require Import Tracker.
From S2P Require Import Float64.
From S2P Require Import Types.
From S2P Require Import IR.
From S2P Require Import Wasm.
From S2P Require Import RuntimeString.
#[local] Open Scope Z_scope.

(** * The context *)

Definition code : Type := list instr.

(** Stacks from their top. A handler is the code that leaves the result of the
    block that is exited. [next_id] numbers the sequences of instructions. *)
Record EmitContext (T : Type) := {
  next_id : Z;
  exception_handler_stack : list (Z * code);
  emit_search_for_pattern_stack : list bool;
  lookup_list : list (Z * bool);
  lit_pool : BStringPool T;
  regex_pool : BStringPool T;
}.
Arguments next_id {_}.
Arguments exception_handler_stack {_}.
Arguments emit_search_for_pattern_stack {_}.
Arguments lookup_list {_}.
Arguments lit_pool {_}.
Arguments regex_pool {_}.
Arguments Build_EmitContext {_}.

(** What the types of the program say of the objects that they refer to. *)
Inductive ArrayType : Type := Integers | Floats | Bools | Strings | Structs.
Record MapType := { string_keys : bool; map_deputy : option TypeValue.t }.
Record Objects := { array_of : Z -> ArrayType; map_of : Z -> MapType; is_method : Z -> bool }.

(** * The monad of the emission *)

Definition M (T A : Type) : Type := EmitContext T -> res (A * EmitContext T).

#[export] Instance M_ret {T} : MRet (M T) := fun A a ctx => Ret (a, ctx).
#[export] Instance M_bind {T} : MBind (M T) := fun A B f m ctx => '(a, ctx) ← m ctx; f a ctx.

Section Emit.
Context {T : Type} {ST : SymbolTable T}.

Definition panic {A} : M T A := fun ctx => Panic.
Definition lift {A} (r : res A) : M T A := fun ctx => a ← r; Ret (a, ctx).
Definition gets {A} (f : EmitContext T -> A) : M T A := fun ctx => Ret (f ctx, ctx).
Definition modify (f : EmitContext T -> EmitContext T) : M T unit := fun ctx => Ret (tt, f ctx).

Definition set_next_id n (c : EmitContext T) := Build_EmitContext n c.(exception_handler_stack) c.(emit_search_for_pattern_stack) c.(lookup_list) c.(lit_pool) c.(regex_pool).
Definition set_handlers h (c : EmitContext T) := Build_EmitContext c.(next_id) h c.(emit_search_for_pattern_stack) c.(lookup_list) c.(lit_pool) c.(regex_pool).
Definition set_search_stack s (c : EmitContext T) := Build_EmitContext c.(next_id) c.(exception_handler_stack) s c.(lookup_list) c.(lit_pool) c.(regex_pool).
Definition set_lookup_list l (c : EmitContext T) := Build_EmitContext c.(next_id) c.(exception_handler_stack) c.(emit_search_for_pattern_stack) l c.(lit_pool) c.(regex_pool).
Definition set_lit_pool p (c : EmitContext T) := Build_EmitContext c.(next_id) c.(exception_handler_stack) c.(emit_search_for_pattern_stack) c.(lookup_list) p c.(regex_pool).
Definition set_regex_pool p (c : EmitContext T) := Build_EmitContext c.(next_id) c.(exception_handler_stack) c.(emit_search_for_pattern_stack) c.(lookup_list) c.(lit_pool) p.

(** The identifier of a new sequence of instructions. *)
Definition fresh : M T Z := fun c => Ret (c.(next_id), set_next_id (c.(next_id) + 1) c).

Fixpoint fresh_ids (n : nat) : M T (list Z) :=
  match n with
  | O => mret []
  | S n => id ← fresh; ids ← fresh_ids n; mret (id :: ids)
  end.

(** The code of each element of a list, in order. *)
Fixpoint emit_each {A B} (f : A -> M T B) (l : list A) : M T (list B) :=
  match l with
  | [] => mret []
  | x :: l => c ← f x; cs ← emit_each f l; mret (c :: cs)
  end.

(** * Exceptions *)

Definition push_handler (h : Z * code) : M T unit := modify (fun c => set_handlers (h :: c.(exception_handler_stack)) c).
Definition pop_handler : M T unit := modify (fun c => set_handlers (tail c.(exception_handler_stack)) c).

(** [expr] gets the identifier of the block. *)
Definition catch_undef (ty : option val_type) (expr : Z -> M T code) (catch : code) : M T code :=
  id ← fresh;
  _ ← push_handler (id, catch);
  c ← expr id;
  _ ← pop_handler;
  mret [Block id ty c].

Definition throw_undef : M T code :=
  handlers ← gets exception_handler_stack;
  match handlers with
  | [] => panic
  | (id, catch) :: _ => mret (catch ++ [Br id])
  end.

Definition throw_undef_if_zero : M T code :=
  throw ← throw_undef;
  mret [LocalTee I64TmpA; Unop I64Eqz; IfElse (Some I64) throw [LocalGet I64TmpA]].

Definition emit_call_and_handle_undef (f : export) : M T code :=
  throw ← throw_undef;
  mret [Call (Host f); IfElse None throw []].

(** * Variables *)

Definition mem_size : Z := 8.

(** The kind of the loads and stores of a variable. *)
Definition var_kind (ty : Ty.t) : res mem_kind :=
  match ty with
  | Ty.Bool => Ret Mem_I32
  | Ty.Float => Ret Mem_F64
  | Ty.Integer | Ty.String | Ty.Struct | Ty.Array | Ty.Map | Ty.Func => Ret Mem_I64
  | _ => Panic
  end.

Definition val_type_of (ty : Ty.t) : res val_type :=
  match ty with
  | Ty.Integer | Ty.String => Ret I64
  | Ty.Float => Ret F64
  | Ty.Bool => Ret I32
  | _ => Panic
  end.

(** The address of the [i64] with the flag of a variable, and its bit. *)
Definition flag_address (v : Var.t) : Z := Z.quot v.(Var.index) 64.
Definition flag_bit (v : Var.t) : Z := wrap_isize (Z.shiftl 1 (Z.rem v.(Var.index) 64)).
Definition var_offset (v : Var.t) : Z := v.(Var.index) * mem_size.

Definition set_var_undef (v : Var.t) (is_undef : bool) : code :=
  [i32_const (flag_address v); i32_const (flag_address v); LoadMem Mem_I64 0] ++
  (if is_undef then [i64_const (flag_bit v); Binop I64Or] else [i64_const (Z.lnot (flag_bit v)); Binop I64And]) ++
  [StoreMem Mem_I64 0].

Definition set_var (v : Var.t) (block : M T code) : M T code :=
  kind ← lift (var_kind v.(Var.ty));
  c ← block;
  mret ([i32_const (var_offset v)] ++ c ++ [StoreMem kind VARS_STACK_START] ++ set_var_undef v false).

(** The local variable where a value is kept while its address is pushed. *)
Definition tmp_of (k : mem_kind) : local := match k with Mem_F64 => F64Tmp | Mem_I64 => I64TmpA | _ => I32Tmp end.

Definition set_vars (vars : list Var.t) (block : M T code) : M T code :=
  c ← block;
  stores ← emit_each (fun v =>
    kind ← lift (var_kind v.(Var.ty));
    mret ([LocalSet (tmp_of kind); i32_const (var_offset v); LocalGet (tmp_of kind); StoreMem kind VARS_STACK_START] ++
          set_var_undef v false)) (reverse vars);
  mret (c ++ concat stores).

Definition load_var (v : Var.t) : M T code :=
  throw ← throw_undef;
  kind ← lift (var_kind v.(Var.ty));
  mret [i32_const (flag_address v); LoadMem Mem_I64 0; i64_const (flag_bit v); Binop I64And; Unop I64Eqz;
        IfElse None [] throw; i32_const (var_offset v); LoadMem kind VARS_STACK_START].

Definition incr_var (v : Var.t) : M T code :=
  if bool_decide (v.(Var.ty) = Ty.Integer) then
    set_var v (c ← load_var v; mret (c ++ [i64_const 1; Binop I64Add]))
  else panic.

(** * [switch] *)

(** The blocks that contain each other: each one with the previous blocks, the
    code of a branch and the exit of the switch. *)
Fixpoint nest_branches (ty : val_type) (outermost id : Z) (c : code) (branches : list (Z * code)) (ids : list Z) : Z * code :=
  match branches, ids with
  | (branch_id, branch) :: branches, id' :: ids =>
      nest_branches ty outermost id' [Block id None c; Block branch_id (Some ty) branch; Br outermost] branches ids
  | _, _ => (id, c)
  end.

Definition emit_switch (ty : val_type) (branches : list (M T code)) : M T code :=
  branches ← emit_each (fun branch : M T code => id ← fresh; c ← branch; mret (id, c)) branches;
  _ ← fresh;
  outermost ← fresh;
  switch ← fresh;
  match last branches with
  | None => panic
  | Some (last_id, last_branch) =>
      let front := take (length branches - 1) branches in
      ids ← fresh_ids (length front);
      inner ← fresh;
      let '(id, c) := nest_branches ty outermost switch
        [Block inner None [LocalGet I32Tmp; BrTable (switch :: ids) inner]; Unreachable] front ids in
      mret [Unop I32WrapI64; LocalSet I32Tmp;
            Block outermost (Some ty) [Block id None c; Block last_id (Some ty) last_branch]]
  end.

(** * Lookups *)

Definition RuntimeObjectHandle_NULL : Z := -1.

Definition emit_lookup_common : M T code :=
  list ← gets lookup_list;
  match list with
  | [] => panic
  | (_, root) :: _ =>
      _ ← modify (set_lookup_list []);
      stores ← emit_each (fun '(i, (field_index, _)) =>
        if 4 * i <? LOOKUP_INDEXES_END - LOOKUP_INDEXES_START then
          mret [i32_const (4 * i); i32_const field_index; StoreMem Mem_I32 LOOKUP_INDEXES_START]
        else panic) (enumerate list);
      mret ((if root : bool then [i64_const RuntimeObjectHandle_NULL] else []) ++ concat stores ++ [i32_const (len list)])
  end.

Definition emit_lookup (f : export) : M T code :=
  c ← emit_lookup_common; call ← emit_call_and_handle_undef f; mret (c ++ call).

Definition emit_lookup_object : M T code := c ← emit_lookup_common; mret (c ++ [Call (Host LookupObject)]).

Definition emit_array_indexing (a : ArrayType) : M T code :=
  emit_call_and_handle_undef (ArrayIndexing
    match a with Integers => Ty.Integer | Floats => Ty.Float | Bools => Ty.Bool | Strings => Ty.String | Structs => Ty.Struct end).

Definition key_ty (m : MapType) : Ty.t := if m.(string_keys) then Ty.String else Ty.Integer.

(** The type of the values of a map, one of those that lookups return. *)
Definition map_value_ty (m : MapType) : M T Ty.t :=
  deputy ← lift (or_panic m.(map_deputy));
  match tv_ty deputy with
  | (Ty.Integer | Ty.Float | Ty.Bool | Ty.Struct | Ty.String) as ty => mret ty
  | _ => panic
  end.

Definition emit_map_lookup (m : MapType) : M T code :=
  ty ← map_value_ty m; emit_call_and_handle_undef (MapLookup (key_ty m) ty).

Definition emit_map_lookup_by_index (m : MapType) : M T code :=
  ty ← map_value_ty m; mret [Call (Host (MapLookupByIndex (key_ty m) ty))].

Definition emit_check_for_rule_match (rule_id : Z) : code :=
  [i32_const (Z.quot rule_id 8); LoadMem Mem_I32_8 MATCHING_RULES_BITMAP_BASE; i32_const (Z.shiftl 1 (Z.rem rule_id 8));
   Binop I32And; i32_const (Z.rem rule_id 8); Binop I32ShrU].

(** * The search for patterns *)

Definition emit_lazy_call_to_search_for_patterns : M T code :=
  stack ← gets emit_search_for_pattern_stack;
  match stack with
  | [] => panic
  | true :: rest =>
      _ ← modify (set_search_stack (false :: rest));
      mret [GlobalGet PatternSearchDone; IfElse None [] [Call (Host SearchForPatterns)]]
  | false :: _ => mret []
  end.

(** An operation that may not be evaluated gets its own flag. *)
Definition with_search_flag (m : M T code) : M T code :=
  _ ← modify (fun c => set_search_stack (true :: c.(emit_search_for_pattern_stack)) c);
  c ← m;
  _ ← modify (fun c => set_search_stack (tail c.(emit_search_for_pattern_stack)) c);
  mret c.
End Emit.
