(* ===== verification/EmitExpr.v ===== *)
(** The code of each kind of expression, and of the condition of a rule, from
    [lib/src/compiler/emit.rs]. *)

From Stdlib Require Import SpecFloat Ascii.
From stdpp Require Import strings sorting.
From S2P Require Import Prelude.
From S2P Require Import StringPool.
From S2P Require Import Float64.
From S2P Require Import Types.
From S2P Require Import IR.
From S2P Require Import Wasm.
From S2P Require Import RuntimeString.
From S2P Require Import Emit.
#[local] Open Scope Z_scope.

(** [MangledFnName::result_may_be_undef] *)
Fixpoint ends_with_u (s : string) : bool :=
  match s with
  | EmptyString => false
  | String c EmptyString => if ascii_dec c "u" then true else false
  | String _ s => ends_with_u s
  end.

(** The ranges of consecutive numbers of a sorted list. *)
Fixpoint consecutive_from (start stop : Z) (l : list Z) : list (Z * Z) :=
  match l with
  | [] => [(start, stop)]
  | next :: l => if next =? stop + 1 then consecutive_from start next l else (start, stop) :: consecutive_from next next l
  end.

Definition consecutive_ranges (l : list Z) : list (Z * Z) :=
  match l with [] => [] | x :: l => consecutive_from x x l end.

Section Expressions.
Context {T : Type} {ST : SymbolTable T}.
Context (ir : IR) (patterns : list Z) (objects : Objects).

Definition pattern_id (idx : Z) : M T Z := lift (or_panic (get patterns idx)).
Definition get_expr (id : Z) : M T Expr.t := lift (ir_get ir id).
Definition ty_of_expr (id : Z) : M T Ty.t := e ← get_expr id; mret (expr_ty e).

Section Operators.
Context (emit_expr : Z -> M T code).

Definition emit_bool_expr (id : Z) : M T code :=
  c ← emit_expr id;
  ty ← ty_of_expr id;
  match ty with
  | Ty.Bool => mret c
  | Ty.Integer => mret (c ++ [i64_const 0; Binop I64Ne])
  | Ty.Float => mret (c ++ [f64_const f64_zero; Binop F64Ne])
  | Ty.String => mret (c ++ [Call (Host StrLen); i64_const 0; Binop I64Ne])
  | _ => panic
  end.

(** The two operands, with the types they are converted to. *)
Definition emit_operands (lhs rhs : Z) : M T (code * Ty.t * Ty.t) :=
  cl ← emit_expr lhs;
  lhs_type ← ty_of_expr lhs;
  rhs_type ← ty_of_expr rhs;
  let to_float := bool_decide (lhs_type = Ty.Integer /\ rhs_type = Ty.Float) in
  let conv := if to_float then [Unop F64ConvertSI64] else [] in
  let lhs_type := if to_float then Ty.Float else lhs_type in
  let ext := if bool_decide (lhs_type = Ty.Bool) then [Unop I64ExtendUI32] else [] in
  cr ← emit_expr rhs;
  let to_float' := bool_decide (lhs_type = Ty.Float /\ rhs_type = Ty.Integer) in
  let conv' := if to_float' then [Unop F64ConvertSI64] else [] in
  let rhs_type := if to_float' then Ty.Float else rhs_type in
  let ext' := if bool_decide (rhs_type = Ty.Bool) then [Unop I64ExtendUI32] else [] in
  mret (cl ++ conv ++ ext ++ cr ++ conv' ++ ext', lhs_type, rhs_type).

Definition emit_comparison_op (lhs rhs : Z) (int_op float_op : binop) (str_op : export) : M T code :=
  '(c, l, r) ← emit_operands lhs rhs;
  match l, r with
  | (Ty.Integer | Ty.Bool), (Ty.Integer | Ty.Bool) => mret (c ++ [Binop int_op])
  | Ty.Float, Ty.Float => mret (c ++ [Binop float_op])
  | Ty.String, Ty.String => mret (c ++ [Call (Host str_op)])
  | _, _ => panic
  end.

(** The operands of the operators that take integers. *)
Definition emit_int_operands (lhs rhs : Z) : M T code :=
  '(c, l, r) ← emit_operands lhs rhs;
  match l, r with Ty.Integer, Ty.Integer => mret c | _, _ => panic end.

Definition emit_shift_op (lhs rhs : Z) (int_op : binop) : M T code :=
  c ← emit_int_operands lhs rhs;
  mret (c ++ [LocalSet I64TmpB; LocalSet I64TmpA; LocalGet I64TmpB; i64_const 64; Binop I64LtS;
              IfElse (Some I64) [LocalGet I64TmpA; LocalGet I64TmpB; Binop int_op] [i64_const 0]]).

Definition emit_bitwise_op (lhs rhs : Z) (int_op : binop) : M T code :=
  c ← emit_int_operands lhs rhs; mret (c ++ [Binop int_op]).

(** An operation on strings. *)
Definition emit_string_op (lhs rhs : Z) (f : export) : M T code :=
  '(c, _, _) ← emit_operands lhs rhs; mret (c ++ [Call (Host f)]).

(** An operand of an operation, converted to a float if the operation is. *)
Definition emit_number (is_float : bool) (id : Z) : M T code :=
  c ← emit_expr id;
  ty ← ty_of_expr id;
  mret (if is_float && bool_decide (ty = Ty.Integer) then c ++ [Unop F64ConvertSI64] else c).

Definition emit_arithmetic_op (operands : list Z) (is_float : bool) (int_op float_op : binop) : M T code :=
  match operands with
  | [] => panic
  | first :: operands =>
      c ← emit_number is_float first;
      cs ← emit_each (fun id => c ← emit_number is_float id; mret (c ++ [Binop (if is_float then float_op else int_op)])) operands;
      mret (c ++ concat cs)
  end.

Fixpoint emit_div_operands (is_float : bool) (operands : list Z) : M T code :=
  match operands with
  | [] => mret []
  | id :: operands =>
      ty ← ty_of_expr id;
      let conv := if negb is_float && bool_decide (ty = Ty.Float) then [Unop F64ConvertSI64] else [] in
      let is_float := is_float || bool_decide (ty = Ty.Float) in
      c ← emit_expr id;
      let conv' := if is_float && bool_decide (ty = Ty.Integer) then [Unop F64ConvertSI64] else [] in
      op ← (if is_float then mret [Binop F64Div] else throw ← throw_undef_if_zero; mret (throw ++ [Binop I64DivS]));
      rest ← emit_div_operands is_float operands;
      mret (conv ++ c ++ conv' ++ op ++ rest)
  end.

Definition emit_div (operands : list Z) : M T code :=
  match operands with
  | [] => panic
  | first :: operands =>
      ty ← ty_of_expr first;
      c ← emit_expr first;
      rest ← emit_div_operands (bool_decide (ty = Ty.Float)) operands;
      mret (c ++ rest)
  end.

Definition emit_mod (operands : list Z) : M T code :=
  match operands with
  | [] => panic
  | first :: operands =>
      c ← emit_expr first;
      cs ← emit_each (fun id => c ← emit_expr id; throw ← throw_undef_if_zero; mret (c ++ throw ++ [Binop I64RemS])) operands;
      mret (c ++ concat cs)
  end.

Definition emit_defined (operand : Z) : M T code :=
  catch_undef (Some I32) (fun _ => c ← emit_bool_expr operand; mret (c ++ [DropValue; i32_const 1])) [i32_const 0].

Definition emit_not (operand : Z) : M T code := c ← emit_bool_expr operand; mret (c ++ [Unop I32Eqz]).

(** All the operands but the last one are checked. *)
Fixpoint emit_and_operands (block_id : Z) (operands : list Z) : M T code :=
  match operands with
  | [] => mret []
  | [id] => emit_bool_expr id
  | id :: operands =>
      c ← emit_bool_expr id;
      rest ← emit_and_operands block_id operands;
      mret (c ++ [IfElse None [] [i32_const 0; Br block_id]] ++ rest)
  end.

Definition emit_and (operands : list Z) : M T code :=
  catch_undef (Some I32) (fun block_id => emit_and_operands block_id operands) [i32_const 0].

Definition emit_or_operand (id : Z) : M T code := catch_undef (Some I32) (fun _ => emit_bool_expr id) [i32_const 0].

Fixpoint emit_or_operands (block_id : Z) (operands : list Z) : M T code :=
  match operands with
  | [] => mret []
  | [id] => emit_or_operand id
  | id :: operands =>
      c ← emit_or_operand id;
      rest ← emit_or_operands block_id operands;
      mret (c ++ [IfElse None [i32_const 1; Br block_id] []] ++ rest)
  end.

Definition emit_or (operands : list Z) : M T code :=
  block_id ← fresh;
  c ← emit_or_operands block_id operands;
  mret [Block block_id (Some I32) c].

(** ** Patterns *)

Definition emit_pattern_var (s : Symbol.t) : M T code :=
  match s with
  | Symbol.Var v _ => c ← load_var v; mret (c ++ [Unop I32WrapI64])
  | _ => panic
  end.

Definition emit_pattern (p : Z + Symbol.t) : M T code :=
  match p with
  | inl idx => id ← pattern_id idx; mret [i32_const id]
  | inr s => emit_pattern_var s
  end.

Definition emit_anchor (anchor : MatchAnchor.t) : M T code :=
  match anchor with
  | MatchAnchor.None => mret [Call CheckForPatternMatch]
  | MatchAnchor.At offset => c ← emit_expr offset; mret (c ++ [Call (Host IsPatMatchAt)])
  | MatchAnchor.In r =>
      lo ← emit_expr r.(lower_bound); hi ← emit_expr r.(upper_bound); mret (lo ++ hi ++ [Call (Host IsPatMatchIn)])
  end.

Definition emit_pattern_match (p : Z + Symbol.t) (anchor : MatchAnchor.t) : M T code :=
  search ← emit_lazy_call_to_search_for_patterns;
  c ← emit_pattern p;
  check ← emit_anchor anchor;
  mret (search ++ c ++ check).

Definition emit_pattern_count (p : Z + Symbol.t) (range : option Range) : M T code :=
  search ← emit_lazy_call_to_search_for_patterns;
  c ← emit_pattern p;
  count ← (match range with
           | Some r =>
               lo ← emit_expr r.(lower_bound); hi ← emit_expr r.(upper_bound); mret (lo ++ hi ++ [Call (Host PatMatchesIn)])
           | None => mret [Call (Host PatMatches)]
           end);
  mret (search ++ c ++ count).

(** [emit_pattern_offset] and [emit_pattern_length] *)
Definition emit_pattern_nth (f : export) (p : Z + Symbol.t) (index : option Z) : M T code :=
  search ← emit_lazy_call_to_search_for_patterns;
  c ← emit_pattern p;
  i ← (match index with Some index => emit_expr index | None => mret [i64_const 1] end);
  call ← emit_call_and_handle_undef f;
  mret (search ++ c ++ i ++ call).

(** ** Loops *)

(** [loop_init] gets the variable [n] and the identifier of the block. *)
Definition emit_for (for_vars : ForVars) (quantifier : Quantifier.t) (loop_init : Var.t -> Z -> M T code)
    (before_cond : Var.t -> M T code) (body : M T code) (after_cond : Var.t -> M T code) : M T code :=
  let n := for_vars.(fv_n) in
  let i := for_vars.(fv_i) in
  let max_count := for_vars.(fv_max_count) in
  let count := for_vars.(fv_count) in
  let incr_i_and_repeat loop_start :=
    after ← after_cond n;
    incr ← incr_var i;
    ci ← load_var i;
    cn ← load_var n;
    mret (after ++ incr ++ ci ++ cn ++ [Binop I64LtS; BrIf loop_start]) in
  loop_end ← fresh;
  init ← loop_init n loop_end;
  init_i ← set_var i (mret [i64_const 0]);
  init_count ←
    (match quantifier with
     | Quantifier.Percentage q =>
         m ← set_var max_count
           (cn ← load_var n; cq ← emit_expr q;
            mret (cn ++ [Unop F64ConvertSI64] ++ cq ++ [Unop F64ConvertSI64; Binop F64Mul; f64_const (f64_of_i64 100); Binop F64Div;
                  Unop F64Ceil; Unop I64TruncSF64]));
         c ← set_var count (mret [i64_const 0]);
         mret (m ++ c)
     | Quantifier.Expr q =>
         m ← set_var max_count (emit_expr q);
         c ← set_var count (mret [i64_const 0]);
         mret (m ++ c)
     | _ => mret []
     end);
  loop_start ← fresh;
  before ← before_cond i;
  test ← catch_undef (Some I32) (fun _ => body) [i32_const 0];
  decide ←
    (match quantifier with
     | Quantifier.None =>
         repeat ← incr_i_and_repeat loop_start;
         mret [IfElse (Some I32) [i32_const 0; Br loop_end] (repeat ++ [i32_const 1; Br loop_end])]
     | Quantifier.All =>
         repeat ← incr_i_and_repeat loop_start;
         mret [IfElse (Some I32) (repeat ++ [i32_const 1; Br loop_end]) [i32_const 0; Br loop_end]]
     | Quantifier.Any =>
         repeat ← incr_i_and_repeat loop_start;
         mret [IfElse (Some I32) [i32_const 1; Br loop_end] (repeat ++ [i32_const 0; Br loop_end])]
     | Quantifier.Percentage _ | Quantifier.Expr _ =>
         incr ← incr_var count;
         cc ← load_var count;
         cm ← load_var max_count;
         cm' ← load_var max_count;
         repeat ← incr_i_and_repeat loop_start;
         cm'' ← load_var max_count;
         mret ([IfElse None
                  (incr ++ cc ++ cm ++ [Binop I64GeS; IfElse None (cm' ++ [i64_const 0; Binop I64Ne; Br loop_end]) []]) []] ++
               repeat ++ cm'' ++ [Unop I64Eqz])
     end);
  mret [Block loop_end (Some I32)
          (init ++ init_i ++ init_count ++ [Loop loop_start (Some I32) (before ++ test ++ decide)])].

(** The loop ends with false if [n <= 0]. *)
Definition exit_if_empty (n : Var.t) (loop_end : Z) : M T code :=
  c ← load_var n; mret (c ++ [i64_const 0; Binop I64LeS; IfElse None [i32_const 0; Br loop_end] []]).

Definition no_code {A} : A -> M T code := fun _ => mret [].

(** Loops over a number of items that is known. *)
Definition init_number {A} (items : list A) (n : Var.t) (_ : Z) : M T code := set_var n (mret [i64_const (len items)]).

(** The i-th pattern is stored in a variable. *)
Definition select_pattern (item : Var.t) (items : list Z) (i : Var.t) : M T code :=
  set_var item (
    c ← load_var i;
    switch ← emit_switch I64 ((fun idx => id ← pattern_id idx; mret [i64_const id]) <$> items);
    mret (c ++ switch)).

Definition emit_of_pattern_set_with_loop (quantifier : Quantifier.t) (items : list Z) (for_vars : ForVars) (anchor : MatchAnchor.t)
  : M T code :=
  if bool_decide (items = []) then panic
  else
    emit_for for_vars quantifier (init_number items) (select_pattern for_vars.(fv_item) items)
      (c ← load_var for_vars.(fv_item); check ← emit_anchor anchor; mret (c ++ [Unop I32WrapI64] ++ check)) no_code.

(** The patterns of a range, [required] of which must match. *)
Definition emit_range (required : Z * Z -> Z) (range : Z * Z) : code :=
  let '(start, stop) := range in
  if stop =? start then [i32_const start; Call CheckForPatternMatch]
  else [i32_const start; i32_const stop; i64_const (required range); Call (Host PatRangeMatch)].

Fixpoint emit_ranges (required : Z * Z -> Z) (exit : code) (ranges : list (Z * Z)) : code :=
  match ranges with
  | [] => []
  | [range] => emit_range required range
  | range :: ranges => emit_range required range ++ exit ++ emit_ranges required exit ranges
  end.

Definition emit_of_pattern_set (quantifier : Quantifier.t) (items : list Z) (for_vars : ForVars) (anchor : MatchAnchor.t) : M T code :=
  search ← emit_lazy_call_to_search_for_patterns;
  pattern_ids ← emit_each pattern_id items;
  let ranges := consecutive_ranges (merge_sort Z.le pattern_ids) in
  c ← (match quantifier, anchor, ranges with
       | Quantifier.Any, MatchAnchor.None, _ =>
           block ← fresh;
           mret [Block block (Some I32) (emit_ranges (fun _ => 1) [IfElse None [i32_const 1; Br block] []] ranges)]
       | Quantifier.All, MatchAnchor.None, _ =>
           block ← fresh;
           mret [Block block (Some I32)
                   (emit_ranges (fun '(start, stop) => stop - start + 1) [IfElse None [] [i32_const 0; Br block]] ranges)]
       | Quantifier.Expr q, MatchAnchor.None, [(start, stop)] =>
           c ← emit_expr q;
           mret ([i32_const start; i32_const stop] ++ c ++ [Call (Host PatRangeMatch)])
       | _, _, _ => emit_of_pattern_set_with_loop quantifier items for_vars anchor
       end);
  mret (search ++ c).

Definition emit_of_expr_tuple (quantifier : Quantifier.t) (items : list Z) (for_vars : ForVars) : M T code :=
  let item := for_vars.(fv_item) in
  emit_for for_vars quantifier (init_number items)
    (fun i => set_var item (
       c ← load_var i;
       ty ← lift (val_type_of item.(Var.ty));
       switch ← emit_switch ty (emit_bool_expr <$> items);
       mret (c ++ switch)))
    (load_var item) no_code.

Definition emit_for_of_pattern_set (quantifier : Quantifier.t) (for_vars : ForVars) (items : list Z) (body : Z) : M T code :=
  emit_for for_vars quantifier (init_number items) (select_pattern for_vars.(fv_item) items) (emit_bool_expr body) no_code.

Definition emit_for_in_range (quantifier : Quantifier.t) (variables : list Var.t) (for_vars : ForVars) (range : Range) (body : Z)
  : M T code :=
  match variables with
  | [next_item] =>
      emit_for for_vars quantifier
        (fun n loop_end =>
           init ← set_var n (catch_undef (Some I64) (fun _ =>
             hi ← emit_expr range.(upper_bound);
             lo ← emit_expr range.(lower_bound);
             mret (hi ++ lo ++ [LocalTee I64TmpA; Binop I64Sub; i64_const 1; Binop I64Add])) [i64_const 0]);
           exit ← exit_if_empty n loop_end;
           next ← set_var next_item (mret [LocalGet I64TmpA]);
           mret (init ++ exit ++ next))
        no_code (emit_bool_expr body) (fun _ => incr_var next_item)
  | _ => panic
  end.

Definition emit_for_in_expr_tuple (quantifier : Quantifier.t) (variables : list Var.t) (for_vars : ForVars) (items : list Z) (body : Z)
  : M T code :=
  match variables with
  | [next_item] =>
      emit_for for_vars quantifier (init_number items)
        (fun i => catch_undef None (fun _ => set_var next_item (
           c ← load_var i;
           ty ← lift (val_type_of next_item.(Var.ty));
           switch ← emit_switch ty (emit_expr <$> items);
           mret (c ++ switch))) (set_var_undef next_item true))
        (emit_bool_expr body) no_code
  | _ => panic
  end.

(** The loops over the items of an array, or the keys and values of a map. *)
Definition emit_for_in_object (quantifier : Quantifier.t) (for_vars : ForVars) (expr : Z) (length : export)
    (before : Var.t -> M T code) (body : Z) : M T code :=
  init ← set_var for_vars.(fv_item) (emit_expr expr);
  c ← emit_for for_vars quantifier
    (fun n loop_end =>
       init ← set_var n (c ← load_var for_vars.(fv_item); mret (c ++ [Call (Host length)]));
       exit ← exit_if_empty n loop_end;
       mret (init ++ exit))
    before (emit_bool_expr body) no_code;
  mret (init ++ c).

Definition emit_for_in_array (quantifier : Quantifier.t) (variables : list Var.t) (for_vars : ForVars) (expr body : Z) : M T code :=
  match variables with
  | [next_item] =>
      e ← get_expr expr;
      match expr_type_value e with
      | TypeValue.Array ref =>
          emit_for_in_object quantifier for_vars expr ArrayLen
            (fun i => set_var next_item (
               c ← load_var for_vars.(fv_item); ci ← load_var i; item ← emit_array_indexing (objects.(array_of) ref);
               mret (c ++ ci ++ item))) body
      | _ => panic
      end
  | _ => panic
  end.

Definition emit_for_in_map (quantifier : Quantifier.t) (variables : list Var.t) (for_vars : ForVars) (expr body : Z) : M T code :=
  match variables with
  | [next_key; next_val] =>
      e ← get_expr expr;
      match expr_type_value e with
      | TypeValue.Map ref =>
          emit_for_in_object quantifier for_vars expr MapLen
            (fun i => set_vars [next_key; next_val] (
               c ← load_var for_vars.(fv_item); ci ← load_var i; item ← emit_map_lookup_by_index (objects.(map_of) ref);
               mret (c ++ ci ++ item))) body
      | _ => panic
      end
  | _ => panic
  end.

Definition emit_for_in_expr (quantifier : Quantifier.t) (variables : list Var.t) (for_vars : ForVars) (expr body : Z) : M T code :=
  ty ← ty_of_expr expr;
  match ty with
  | Ty.Array => emit_for_in_array quantifier variables for_vars expr body
  | Ty.Map => emit_for_in_map quantifier variables for_vars expr body
  | _ => panic
  end.

Definition emit_with (declarations : list (Var.t * Z)) (body : Z) : M T code :=
  cs ← emit_each (fun '(v, id) => catch_undef None (fun _ => set_var v (emit_expr id)) (set_var_undef v true)) declarations;
  c ← emit_expr body;
  mret (concat cs ++ c).

(** ** Fields *)

Definition push_lookup (index : Z) (is_root : bool) : M T unit :=
  if i32_MAX <? index then panic
  else modify (fun c => set_lookup_list (c.(lookup_list) ++ [(index, is_root)]) c).

Definition emit_field (index : Z) (is_root : bool) (v : TypeValue.t) : M T code :=
  if i32_MAX <? index then panic
  else
    match v with
    | TypeValue.Integer _ _ => _ ← push_lookup index is_root; emit_lookup LookupInteger
    | TypeValue.Float _ => _ ← push_lookup index is_root; emit_lookup LookupFloat
    | TypeValue.Bool _ => _ ← push_lookup index is_root; emit_lookup LookupBool
    | TypeValue.String _ _ => _ ← push_lookup index is_root; emit_lookup LookupString
    | TypeValue.Struct _ | TypeValue.Array _ | TypeValue.Map _ => _ ← push_lookup index is_root; emit_lookup_object
    | TypeValue.Func ref =>
        list ← gets lookup_list;
        c ← (match list with
             | (_, true) :: _ => if objects.(is_method) ref then emit_lookup_object else mret []
             | _ => mret []
             end);
        _ ← modify (set_lookup_list []);
        mret c
    | TypeValue.Regexp _ | TypeValue.Unknown => panic
    end.

(** The fields before the last operand are looked up with it. *)
Fixpoint emit_field_access (operands : list Z) : M T code :=
  match operands with
  | [] => panic
  | [id] => emit_expr id
  | id :: operands =>
      e ← get_expr id;
      c ← (match e with
           | Expr.Symbol (Symbol.Field index is_root _) =>
               _ ← modify (fun c => set_lookup_list (c.(lookup_list) ++ [(wrap_i32 index, is_root)]) c); mret []
           | _ => emit_expr id
           end);
      rest ← emit_field_access operands;
      mret (c ++ rest)
  end.

Definition emit_const (v : TypeValue.t) : M T code :=
  match v with
  | TypeValue.Integer (Value.Const v) _ => mret [i64_const v]
  | TypeValue.Float (Value.Const v) => mret [f64_const v]
  | TypeValue.Bool (Value.Const v) => mret [i32_const (b2i v)]
  | TypeValue.String (Value.Const v) _ =>
      pool ← gets lit_pool;
      '(pool, literal_id) ← lift (get_or_intern pool v);
      _ ← modify (set_lit_pool pool);
      w ← lift (into_wasm (RuntimeString.Literal literal_id));
      mret [i64_const w]
  | TypeValue.Regexp (Some regexp) =>
      pool ← gets regex_pool;
      '(pool, re_id) ← lift (get_or_intern pool regexp);
      _ ← modify (set_regex_pool pool);
      mret [i32_const re_id]
  | _ => panic
  end.

Definition emit_symbol (s : Symbol.t) : M T code :=
  match s with
  | Symbol.Rule rule_id => mret (emit_check_for_rule_match rule_id)
  | Symbol.Var v _ => if bool_decide (v.(Var.ty) = Ty.Func) then mret [] else load_var v
  | Symbol.Field index is_root v => emit_field index is_root v
  | Symbol.Func _ => panic
  end.

(** ** Expressions *)

Definition emit_node (e : Expr.t) : M T code :=
  match e with
  | Expr.Const v => emit_const v
  | Expr.Filesize =>
      throw ← throw_undef;
      mret [GlobalGet Filesize; LocalTee I64TmpA; i64_const 0; Binop I64LtS; IfElse (Some I64) throw [LocalGet I64TmpA]]
  | Expr.Symbol s => emit_symbol s
  | Expr.PatternMatch idx anchor => emit_pattern_match (inl idx) anchor
  | Expr.PatternMatchVar s anchor => emit_pattern_match (inr s) anchor
  | Expr.PatternCount idx range => emit_pattern_count (inl idx) range
  | Expr.PatternCountVar s range => emit_pattern_count (inr s) range
  | Expr.PatternOffset idx index => emit_pattern_nth PatOffset (inl idx) index
  | Expr.PatternOffsetVar s index => emit_pattern_nth PatOffset (inr s) index
  | Expr.PatternLength idx index => emit_pattern_nth PatLength (inl idx) index
  | Expr.PatternLengthVar s index => emit_pattern_nth PatLength (inr s) index
  | Expr.FieldAccess _ operands => emit_field_access operands
  | Expr.Defined operand => emit_defined operand
  | Expr.Not operand => emit_not operand
  | Expr.And operands => with_search_flag (emit_and operands)
  | Expr.Or operands => with_search_flag (emit_or operands)
  | Expr.Minus is_float operand =>
      c ← emit_expr operand;
      mret (if is_float then c ++ [Unop F64Neg] else [i64_const 0] ++ c ++ [Binop I64Sub])
  | Expr.BitwiseNot operand => c ← emit_expr operand; mret (c ++ [i64_const (-1); Binop I64Xor])
  | Expr.Add is_float operands => emit_arithmetic_op operands is_float I64Add F64Add
  | Expr.Sub is_float operands => emit_arithmetic_op operands is_float I64Sub F64Sub
  | Expr.Mul is_float operands => emit_arithmetic_op operands is_float I64Mul F64Mul
  | Expr.Div _ operands => emit_div operands
  | Expr.Mod operands => emit_mod operands
  | Expr.Shl lhs rhs => emit_shift_op lhs rhs I64Shl
  | Expr.Shr lhs rhs => emit_shift_op lhs rhs I64ShrS
  | Expr.BitwiseAnd lhs rhs => emit_bitwise_op lhs rhs I64And
  | Expr.BitwiseOr lhs rhs => emit_bitwise_op lhs rhs I64Or
  | Expr.BitwiseXor lhs rhs => emit_bitwise_op lhs rhs I64Xor
  | Expr.Eq lhs rhs => emit_comparison_op lhs rhs I64Eq F64Eq StrEq
  | Expr.Ne lhs rhs => emit_comparison_op lhs rhs I64Ne F64Ne StrNe
  | Expr.Lt lhs rhs => emit_comparison_op lhs rhs I64LtS F64Lt StrLt
  | Expr.Gt lhs rhs => emit_comparison_op lhs rhs I64GtS F64Gt StrGt
  | Expr.Le lhs rhs => emit_comparison_op lhs rhs I64LeS F64Le StrLe
  | Expr.Ge lhs rhs => emit_comparison_op lhs rhs I64GeS F64Ge StrGe
  | Expr.Contains lhs rhs => emit_string_op lhs rhs StrContains
  | Expr.IContains lhs rhs => emit_string_op lhs rhs StrIContains
  | Expr.StartsWith lhs rhs => emit_string_op lhs rhs StrStartsWith
  | Expr.IStartsWith lhs rhs => emit_string_op lhs rhs StrIStartsWith
  | Expr.EndsWith lhs rhs => emit_string_op lhs rhs StrEndsWith
  | Expr.IEndsWith lhs rhs => emit_string_op lhs rhs StrIEndsWith
  | Expr.IEquals lhs rhs => emit_string_op lhs rhs StrIEquals
  | Expr.Matches lhs rhs => emit_string_op lhs rhs StrMatches
  | Expr.MatchesMany lhs regex_set => c ← emit_expr lhs; mret (c ++ [i32_const regex_set; Call (Host StrMatchesRegexSet)])
  | Expr.Lookup _ primary index =>
      c ← emit_expr primary;
      ci ← emit_expr index;
      e ← get_expr primary;
      call ← (match expr_type_value e with
              | TypeValue.Array ref => emit_array_indexing (objects.(array_of) ref)
              | TypeValue.Map ref => emit_map_lookup (objects.(map_of) ref)
              | _ => panic
              end);
      mret (c ++ ci ++ call)
  | Expr.OfPatternSet quantifier items for_vars anchor => emit_of_pattern_set quantifier items for_vars anchor
  | Expr.OfExprTuple quantifier items for_vars _ => emit_of_expr_tuple quantifier items for_vars
  | Expr.ForOf quantifier for_vars items body => emit_for_of_pattern_set quantifier for_vars items body
  | Expr.ForIn quantifier variables for_vars iterable body =>
      match iterable with
      | Iterable.Range r => emit_for_in_range quantifier variables for_vars r body
      | Iterable.ExprTuple items => emit_for_in_expr_tuple quantifier variables for_vars items body
      | Iterable.Expr e => emit_for_in_expr quantifier variables for_vars e body
      end
  | Expr.FuncCall object f args =>
      c ← emit_each emit_expr (option_list object ++ args);
      call ← (if ends_with_u f.(mangled_name) then emit_call_and_handle_undef (Fn f.(mangled_name))
              else mret [Call (Host (Fn f.(mangled_name)))]);
      mret (concat c ++ call)
  | Expr.With _ declarations body => emit_with declarations body
  end.
End Operators.

(** The fuel bounds the depth of the expression. *)
Fixpoint emit_expr (fuel : nat) (id : Z) : M T code :=
  match fuel with
  | O => fun ctx => OutOfFuel
  | S fuel => e ← get_expr id; emit_node (emit_expr fuel) e
  end.

(** The code that [emit_rule_condition] puts in the function of the rule. *)
Definition emit_rule_condition (fuel : nat) (condition : Z) : M T code :=
  _ ← modify (fun c => set_search_stack (true :: c.(emit_search_for_pattern_stack)) c);
  c ← catch_undef (Some I32) (fun _ => emit_bool_expr (emit_expr fuel) condition) [i32_const 0];
  _ ← modify (fun c => set_search_stack (tail c.(emit_search_for_pattern_stack)) c);
  stack ← gets emit_search_for_pattern_stack;
  if bool_decide (stack = []) then mret c else panic.

Definition context_new (lit_pool regex_pool : BStringPool T) : EmitContext T :=
  {| next_id := 0; exception_handler_stack := []; emit_search_for_pattern_stack := []; lookup_list := [];
     lit_pool := lit_pool; regex_pool := regex_pool |}.
End Expressions.
