(* ===== verification/WasmProps.v ===== *)
(** Rules for the executions of [Wasm.v], stated with postconditions, and the
    lemmas on its memory. *)

From Stdlib Require Import SpecFloat.
From stdpp Require Import gmap.
From S2P Require Import Prelude.
From S2P Require Import Float64.
From S2P Require Import Wasm.
#[local] Open Scope Z_scope.

(** * Executions *)

Section Runs.
Context (rt : Runtime).

(** With more fuel, an instruction that ends has the same result. *)
Lemma exec_instr_ext (e e' : list instr -> machine -> result) i m :
  (forall c m, e c m <> NoGas -> e' c m = e c m) -> exec_instr rt e i m <> NoGas -> exec_instr rt e' i m = exec_instr rt e i m.
Proof.
  intros H. destruct i as [| | | | | | | | | | |[]|id ty body|id ty body|ty c1 c2| | |]; try done; cbn [exec_instr].
  - destruct (stack m) as [|[z| |] s]; try done. intros Hn. rewrite H; [done|]. intros E. by rewrite E in Hn.
  - intros Hn. rewrite H; [done|]. intros E. by rewrite E in Hn.
  - intros Hn. destruct (e body _) as [m'|id' m'| | |] eqn:E; try done; (rewrite H by (by rewrite E)); rewrite E; try done.
    destruct (id' =? id); [|done]. by apply H.
  - destruct (stack m) as [|[z| |] s]; try done. intros Hn. rewrite H; [done|]. intros E. by rewrite E in Hn.
Qed.

Lemma exec_S fuel code m : exec rt fuel code m <> NoGas -> exec rt (S fuel) code m = exec rt fuel code m.
Proof.
  revert code m. induction fuel as [|fuel IH]; intros [|i code] m; try done.
  change (exec rt (S (S fuel)) (i :: code) m) with
    (match exec_instr rt (exec rt (S fuel)) i m with Next m => exec rt (S fuel) code m | r => r end).
  cbn [exec]. intros Hn. change (fix exec (fuel : nat) (code : list instr) (m : machine) {struct fuel} : result := _) with (exec rt) in *.
  rewrite (exec_instr_ext (exec rt fuel)); [|exact IH|intros E; by rewrite E in Hn].
  destruct (exec_instr rt (exec rt fuel) i m); try done. by apply IH.
Qed.

Lemma exec_mono fuel fuel' code m : (fuel <= fuel')%nat -> exec rt fuel code m <> NoGas -> exec rt fuel' code m = exec rt fuel code m.
Proof. induction 1 as [|n Hn IH]; intros H; [done|]. rewrite exec_S; [by apply IH|]. by rewrite IH. Qed.

(** The code ends, and its result satisfies the postcondition. *)
Definition runs (c : list instr) (m : machine) (Q : result -> Prop) : Prop :=
  exists fuel, exec rt fuel c m <> NoGas /\ Q (exec rt fuel c m).

Lemma runs_weaken c m (P Q : result -> Prop) : runs c m P -> (forall r, P r -> Q r) -> runs c m Q.
Proof. intros (f & Hf & HP) H. exists f. auto. Qed.

Lemma runs_nil m (Q : result -> Prop) : Q (Next m) -> runs [] m Q.
Proof. by exists 1%nat. Qed.

(** What follows an instruction with the given result. *)
Definition follow (c : list instr) (Q : result -> Prop) (r : result) : Prop :=
  match r with Next m => runs c m Q | NoGas => False | r => Q r end.

Lemma exec_cons fuel i c m :
  exec rt (S fuel) (i :: c) m = match exec_instr rt (exec rt fuel) i m with Next m => exec rt fuel c m | r => r end.
Proof. done. Qed.

Lemma runs_step i c m (Q : result -> Prop) :
  match i with Block _ _ _ | Loop _ _ _ | IfElse _ _ _ | Call CheckForPatternMatch => false | _ => true end = true ->
  follow c Q (step rt i m) -> runs (i :: c) m Q.
Proof.
  intros Hi. assert (E : forall e, exec_instr rt e i m = step rt i m) by (intros; by destruct i as [| | | | | | | | | | |[]| | | | | |]).
  destruct (step rt i m) as [m'|id m'| | |] eqn:Es; cbn; intros HQ; try done.
  1: destruct HQ as (f & Hf & HQ); exists (S f).
  2-4: exists 1%nat.
  all: by rewrite exec_cons, E.
Qed.

Lemma runs_app c1 c2 m (Q : result -> Prop) : runs c1 m (follow c2 Q) -> runs (c1 ++ c2) m Q.
Proof.
  intros (f & Hf & HQ). revert c1 m Hf HQ. induction f as [|f IH]; intros c1 m; [done|].
  destruct c1 as [|i c1]; [cbn; intros _ (f' & ? & ?); by exists f'|].
  rewrite exec_cons. cbn [app].
  destruct (exec_instr rt (exec rt f) i m) as [m'|id m'| | |] eqn:Er; intros Hf HQ; try done.
  2-4: exists (S f); by rewrite exec_cons, Er.
  destruct (IH c1 m' Hf HQ) as (f' & Hf' & HQ'). exists (S (f + f')). rewrite exec_cons.
  rewrite (exec_instr_ext (exec rt f)), Er; [|intros c0 m0 Hn; apply exec_mono; [lia|done]|by rewrite Er].
  rewrite (exec_mono f' (f + f')) by (first [lia|done]). done.
Qed.

Lemma runs_cons i c m (Q : result -> Prop) : runs [i] m (follow c Q) -> runs (i :: c) m Q.
Proof. apply (runs_app [i] c). Qed.

(** An instruction with code inside. *)
Lemma runs_instr f i c m (Q : result -> Prop) :
  exec_instr rt (exec rt f) i m <> NoGas -> follow c Q (exec_instr rt (exec rt f) i m) -> runs (i :: c) m Q.
Proof.
  intros Hn HQ. apply runs_cons. exists (S (S f)). rewrite exec_cons, (exec_instr_ext (exec rt f)); [|by apply exec_S|done].
  by destruct (exec_instr rt (exec rt f) i m).
Qed.

(** The results of the body of a block. *)
Definition exits (id : Z) (ty : option val_type) (outer : list wval) (K : machine -> Prop) (Q : result -> Prop) (r : result) : Prop :=
  match r with
  | Next m' => K (leave ty outer m')
  | Jump id' m' => if id' =? id then K (leave ty outer m') else Q r
  | NoGas => False
  | r => Q r
  end.

Lemma runs_block id ty body c m (Q : result -> Prop) :
  runs body (set_stack [] m) (exits id ty m.(stack) (fun m' => runs c m' Q) Q) -> runs (Block id ty body :: c) m Q.
Proof.
  intros (f & Hf & HQ). apply (runs_instr f); cbn [exec_instr].
  all: destruct (exec rt f body (set_stack [] m)) as [m'|id' m'| | |]; cbn in HQ |- *; try done; by destruct (id' =? id).
Qed.

Lemma runs_if ty then_ else_ c z s m (Q : result -> Prop) :
  m.(stack) = VI32 z :: s ->
  runs (if z =? 0 then else_ else then_) (set_stack [] m)
    (fun r => match r with Next m' => runs c (leave ty s m') Q | NoGas => False | r => Q r end) ->
  runs (IfElse ty then_ else_ :: c) m Q.
Proof.
  intros Hs (f & Hf & HQ). apply (runs_instr f); cbn [exec_instr]; rewrite Hs.
  all: by destruct (exec rt f _ (set_stack [] m)) as [m'|id' m'| | |].
Qed.

(** A branch to a loop starts it again. *)
Lemma runs_loop id ty body m (Q : result -> Prop) :
  runs body (set_stack [] m)
    (fun r => match r with
              | Next m' => Q (Next (leave ty m.(stack) m'))
              | Jump id' m' => if id' =? id then runs [Loop id ty body] (set_stack m.(stack) m') Q else Q r
              | NoGas => False
              | r => Q r
              end) ->
  runs [Loop id ty body] m Q.
Proof.
  intros (f & Hf & HQ). destruct (exec rt f body (set_stack [] m)) as [m'|id' m'| | |] eqn:E; try done.
  2: destruct (id' =? id) eqn:Ei; [destruct HQ as (f' & Hf' & HQ)|].
  2: apply (runs_instr (f + f')); cbn [exec_instr]; rewrite (exec_mono f (f + f')) by (first [lia|by rewrite E]); rewrite E, Ei;
     rewrite (exec_mono f' (f + f')) by (first [lia|done]); [done|]; destruct (exec rt f' [Loop id ty body] _); try done; by apply runs_nil.
  all: apply (runs_instr f); cbn [exec_instr]; rewrite E, ?Ei; try done; by apply runs_nil.
Qed.

Lemma runs_check c id s m (Q : result -> Prop) :
  m.(stack) = VI32 id :: s ->
  runs gen_check_for_pattern_match (set_local PatternIdLocal (VI32 id) (set_stack [] m))
    (fun r => match r with Next m' => runs c (set_locals m.(locals) (leave (Some I32) s m')) Q | NoGas => False | r => Q r end) ->
  runs (Call CheckForPatternMatch :: c) m Q.
Proof.
  intros Hs (f & Hf & HQ). apply (runs_instr f); cbn [exec_instr]; rewrite Hs.
  all: by destruct (exec rt f _ _) as [m'|id' m'| | |].
Qed.
End Runs.

(** * Memory *)

(** The two memories have the same bytes from an address. *)
Definition agree (m m' : memory) (a n : Z) : Prop := forall x, a <= x < a + n -> byte_at m' x = byte_at m x.

Lemma byte_at_store bs : forall m a x,
  byte_at (store_bytes m a bs) x = if (a <=? x) && (x <? a + len bs) then default (Byte 0) (get bs (x - a)) else byte_at m x.
Proof.
  induction bs as [|b bs IH]; intros m a x; cbn [store_bytes].
  { rewrite len_nil. destruct (_ && _) eqn:E; bools; [lia|done]. }
  rewrite IH, len_cons. unfold byte_at at 1, memory. rewrite (lookup_insert (M := gmap Z)).
  pose proof (len_nonneg bs). destruct (decide (a = x)) as [->|Hax].
  - destruct (_ && _) eqn:E1; bools; [lia|]. destruct ((x <=? x) && _) eqn:E2; [|bools; lia].
    cbn. by rewrite Z.sub_diag.
  - destruct ((a + 1 <=? x) && _) eqn:E1; destruct ((a <=? x) && _) eqn:E2; bools; try lia; [|done].
    unfold get. destruct (x - (a + 1) <? 0) eqn:E3; bools; [lia|]. destruct (x - a <? 0) eqn:E4; bools; [lia|].
    by replace (Z.to_nat (x - a)) with (S (Z.to_nat (x - (a + 1)))) by lia.
Qed.

Lemma load_bytes_store m a bs : load_bytes (store_bytes m a bs) a (len bs) = bs.
Proof.
  unfold load_bytes. apply list_eq. intros i. rewrite list_lookup_fmap. destruct (decide (i < length bs)%nat) as [Hi|Hi].
  - rewrite lookup_seqZ_lt by (unfold len; lia). cbn. rewrite byte_at_store. unfold len.
    destruct (_ && _) eqn:E; bools; [|lia]. unfold get. destruct (_ <? 0) eqn:E'; bools; [lia|].
    replace (Z.to_nat _) with i by lia. destruct (lookup_lt_is_Some_2 bs i Hi) as [b Hb]. by rewrite Hb.
  - rewrite lookup_seqZ_ge by (unfold len; lia). symmetry. cbn. apply lookup_ge_None_2. lia.
Qed.

Lemma load_bytes_agree m m' a n : agree m m' a n -> load_bytes m' a n = load_bytes m a n.
Proof.
  intros H. unfold load_bytes. apply list_fmap_ext. intros i x Hx. apply lookup_seqZ in Hx as [-> Hx]. apply H. lia.
Qed.

Definition kind_size (k : mem_kind) : Z := match k with Mem_I32_8 => 1 | Mem_I32 => 4 | Mem_I64 | Mem_F64 => 8 end.

Lemma load_agree k m m' a : agree m m' a (kind_size k) -> load k m' a = load k m a.
Proof.
  intros H. unfold load. destruct k; cbn [kind_size] in H; rewrite ?(load_bytes_agree _ _ _ _ H); try done.
  by rewrite (H a) by lia.
Qed.

Lemma store_agree k m m' a v x n : store k m a v = Some m' -> x + n <= a \/ a + kind_size k <= x -> agree m m' x n.
Proof.
  intros Hs Hd y Hy. destruct k, v; try done; cbn [store] in Hs; apply (inj Some) in Hs as <-; rewrite byte_at_store.
  all: unfold float_bytes; rewrite len_map; first [rewrite len_to_le_bytes|change (len (seqZ 0 8)) with 8]; cbn [kind_size] in Hd.
  all: destruct (_ && _) eqn:E; bools; [lia|done].
Qed.

Lemma load_u8 mm a z : byte_at mm a = Byte z -> load Mem_I32_8 mm a = Some (VI32 z).
Proof. intros Hz. unfold load, load_bytes. rewrite (seqZ_cons a 1) by lia. cbn. rewrite Hz. cbn. by rewrite seqZ_nil by done; cbn; rewrite Z.add_0_r. Qed.

Lemma numbers_bytes l : numbers (Byte <$> l) = Some l.
Proof. induction l as [|z l IH]; [done|]. cbn. by rewrite IH. Qed.

Lemma load_store_i64 m a z : i64_MIN <= z <= i64_MAX ->
  exists m', store Mem_I64 m a (VI64 z) = Some m' /\ load Mem_I64 m' a = Some (VI64 z).
Proof.
  unfold i64_MIN, i64_MAX. intros Hz. eexists. split; [reflexivity|]. unfold load.
  pose proof (load_bytes_store m a (Byte <$> to_le_bytes 8 (wrap_usize z))) as H.
  rewrite len_map, len_to_le_bytes in H. change (Z.of_nat 8) with 8 in H || change (Z.of_nat 4) with 4 in H. rewrite H, numbers_bytes. cbn -[to_le_bytes from_le_bytes].
  rewrite from_to_le_bytes by (unfold wrap_usize; cbn; lia_mod). unfold wrap_usize, wrap_isize. do 2 f_equal. lia_mod.
Qed.

Lemma load_store_i32 m a z : is_u32 z ->
  exists m', store Mem_I32 m a (VI32 z) = Some m' /\ load Mem_I32 m' a = Some (VI32 z).
Proof.
  intros Hz. eexists. split; [reflexivity|]. unfold load. pose proof (load_bytes_store m a (Byte <$> to_le_bytes 4 z)) as H.
  rewrite len_map, len_to_le_bytes in H. change (Z.of_nat 8) with 8 in H || change (Z.of_nat 4) with 4 in H. rewrite H, numbers_bytes. cbn -[to_le_bytes from_le_bytes].
  unfold is_u32 in Hz. by rewrite from_to_le_bytes by (cbn; lia).
Qed.

Lemma load_store_f64 m a f : exists m', store Mem_F64 m a (VF64 f) = Some m' /\ load Mem_F64 m' a = Some (VF64 f).
Proof.
  eexists. split; [reflexivity|]. unfold load. pose proof (load_bytes_store m a (float_bytes f)) as H.
  change (len (float_bytes f)) with 8 in H. rewrite H. rewrite byte_at_store. change (len (float_bytes f)) with 8.
  destruct (_ && _) eqn:E; bools; [|lia]. rewrite Z.sub_diag. cbn -[float_bytes]. change (get (float_bytes f) 0) with (Some (FloatByte f 0)).
  change (default (Byte 0) (float_bytes f !! Z.to_nat 0)) with (FloatByte f 0). cbv iota beta. by case_decide.
Qed.

(** * Rules for the instructions *)

Section Rules.
Context (rt : Runtime).
Implicit Types (Q : result -> Prop).

Lemma run_const v c m Q : runs rt c (push v m) Q -> runs rt (Const v :: c) m Q.
Proof. intros H. by apply runs_step. Qed.

Lemma run_local_get l c m Q : runs rt c (push (m.(locals) l) m) Q -> runs rt (LocalGet l :: c) m Q.
Proof. intros H. by apply runs_step. Qed.

Lemma run_global g c m Q : runs rt c (push (global_value rt m g) m) Q -> runs rt (GlobalGet g :: c) m Q.
Proof. intros H. by apply runs_step. Qed.

Lemma run_local_set l v s c m Q :
  m.(stack) = v :: s -> runs rt c (set_local l v (set_stack s m)) Q -> runs rt (LocalSet l :: c) m Q.
Proof. intros Hs H. apply runs_step; [done|]. cbn [step]. by rewrite Hs. Qed.

Lemma run_local_tee l v s c m Q : m.(stack) = v :: s -> runs rt c (set_local l v m) Q -> runs rt (LocalTee l :: c) m Q.
Proof. intros Hs H. apply runs_step; [done|]. cbn [step]. by rewrite Hs. Qed.

Lemma run_unop u x y s c m Q :
  m.(stack) = x :: s -> unop_eval u x = Value y -> runs rt c (set_stack (y :: s) m) Q -> runs rt (Unop u :: c) m Q.
Proof. intros Hs Hu H. apply runs_step; [done|]. cbn [step]. by rewrite Hs, Hu. Qed.

Lemma run_binop b x y z s c m Q :
  m.(stack) = y :: x :: s -> binop_eval b x y = Value z -> runs rt c (set_stack (z :: s) m) Q -> runs rt (Binop b :: c) m Q.
Proof. intros Hs Hu H. apply runs_step; [done|]. cbn [step]. by rewrite Hs, Hu. Qed.

Lemma run_binop_trap b x y s c m Q :
  m.(stack) = y :: x :: s -> binop_eval b x y = OpTrap -> Q Trapped -> runs rt (Binop b :: c) m Q.
Proof. intros Hs Hu H. apply runs_step; [done|]. cbn [step]. by rewrite Hs, Hu. Qed.

Lemma run_unop_trap u x s c m Q :
  m.(stack) = x :: s -> unop_eval u x = OpTrap -> Q Trapped -> runs rt (Unop u :: c) m Q.
Proof. intros Hs Hu H. apply runs_step; [done|]. cbn [step]. by rewrite Hs, Hu. Qed.

Lemma run_load k offset a v s c m Q :
  m.(stack) = VI32 a :: s -> load k m.(mem) (a + offset) = Some v -> runs rt c (set_stack (v :: s) m) Q ->
  runs rt (LoadMem k offset :: c) m Q.
Proof. intros Hs Hl H. apply runs_step; [done|]. cbn [step]. by rewrite Hs, Hl. Qed.

Lemma run_store k offset a v s mm c m Q :
  m.(stack) = v :: VI32 a :: s -> store k m.(mem) (a + offset) v = Some mm -> runs rt c (set_mem mm (set_stack s m)) Q ->
  runs rt (StoreMem k offset :: c) m Q.
Proof. intros Hs Hl H. apply runs_step; [done|]. cbn [step]. rewrite Hs. by destruct k, v; cbn in Hl |- *; try done; apply (inj Some) in Hl as <-. Qed.

Lemma run_drop v s c m Q : m.(stack) = v :: s -> runs rt c (set_stack s m) Q -> runs rt (DropValue :: c) m Q.
Proof. intros Hs H. apply runs_step; [done|]. cbn [step]. by rewrite Hs. Qed.

Lemma run_call f c m m' Q : rt.(rt_call) f m = Some m' -> runs rt c m' Q -> runs rt (Call (Host f) :: c) m Q.
Proof. intros Hc H. apply runs_step; [done|]. cbn [step]. by rewrite Hc. Qed.

Lemma run_br id c m Q : Q (Jump id m) -> runs rt (Br id :: c) m Q.
Proof. intros H. by apply runs_step. Qed.

Lemma run_br_if id z s c m Q :
  m.(stack) = VI32 z :: s -> (if z =? 0 then runs rt c (set_stack s m) Q else Q (Jump id (set_stack s m))) -> runs rt (BrIf id :: c) m Q.
Proof. intros Hs H. apply runs_step; [done|]. cbn [step]. rewrite Hs. by destruct (z =? 0). Qed.

Lemma run_br_table ids default z s c m Q :
  m.(stack) = VI32 z :: s -> Q (Jump (from_option (fun x => x) default (get ids z)) (set_stack s m)) -> runs rt (BrTable ids default :: c) m Q.
Proof. intros Hs H. apply runs_step; [done|]. cbn [step]. by rewrite Hs. Qed.
End Rules.
