(* ===== verification/EmitRel.v ===== *)
(** What the code emitted for a condition does, stated between its machine and
    the reference semantics of [Eval.v]: the relation of values, what the
    memory of the machine holds, and the rules that compose pieces of code and
    of their emission. *)

From Stdlib Require Import SpecFloat.
From stdpp Require Import gmap strings.
From S2P Require Import Prelude.
From S2P Require Import StringPool.
From S2P Require Import Matches.
From S2P Require Import Tracker.
From S2P Require Import Float64.
From S2P Require Import Types.
From S2P Require Import IR.
From S2P Require Import Builtins.
From S2P Require Import Eval.
From S2P Require Import Wasm.
From S2P Require Import RuntimeString.
From S2P Require Import Host.
From S2P Require Import Emit.
From S2P Require Import WasmProps.
#[local] Open Scope Z_scope.

Definition in_i64 (z : Z) : Prop := i64_MIN <= z <= i64_MAX.

Lemma wrap_in_i64 z : in_i64 (wrap_isize z).
Proof. unfold in_i64, i64_MIN, i64_MAX, wrap_isize. lia_mod. Qed.

Lemma wrap_i64_id z : in_i64 z -> wrap_isize z = z.
Proof. unfold in_i64, i64_MIN, i64_MAX. intros H. apply wrap_isize_id. lia. Qed.

(** * Values *)

Section Rel.
Context (strings : StringContext).

(** The bytes that an [i64] stands for. *)
Definition str_at (w : Z) (x : list Z) : Prop := exists r, from_wasm strings w = Ret r /\ as_bstr r strings = Ret x.

(** The value on the stack of the machine for a value of the given type. *)
Definition rel (t : Ty.t) (v : value) (w : wval) : Prop :=
  match t, v, w with
  | Ty.Integer, VInt z, VI64 w => w = z /\ in_i64 z
  | Ty.Float, VFloat f, VF64 g => g = f
  | Ty.Bool, VBool b, VI32 w => w = b2i b
  | Ty.String, VStr x, VI64 w => str_at w x /\ in_i64 w
  | _, _, _ => False
  end.

Definition pushed (t : Ty.t) (s : list wval) (v : value) (m : machine) : Prop :=
  exists w, m.(stack) = w :: s /\ rel t v w.

Definition pushed_int (s : list wval) (z : Z) (m : machine) : Prop := m.(stack) = VI64 z :: s /\ in_i64 z.
Definition pushed_bool (s : list wval) (b : bool) (m : machine) : Prop := m.(stack) = i32_bool b :: s.

Lemma pushed_VInt s z m : pushed Ty.Integer s (VInt z) m <-> pushed_int s z m.
Proof.
  split; [intros (w & Hs & Hr)|intros [Hs Hz]; eexists; by split].
  destruct w; try done. destruct Hr as [-> Hz]. by split.
Qed.

Lemma pushed_VBool s b m : pushed Ty.Bool s (VBool b) m <-> pushed_bool s b m.
Proof.
  split; [intros (w & Hs & Hr)|intros Hs; eexists; by split]. destruct w; try done. cbn in Hr. subst. done.
Qed.
End Rel.

(** * The machine *)

(** The flags of the variables, the bits of a word at the start of the memory. *)
Definition flags (m : machine) (w : Z) : Prop := load Mem_I64 m.(mem) 0 = Some (VI64 w).

Lemma load_i64_range mm a w : load Mem_I64 mm a = Some (VI64 w) -> in_i64 w.
Proof. cbn. destruct (numbers _); [|done]. intros [= <-]. apply wrap_in_i64. Qed.

Definition is_slot (i : Z) : Prop := 0 <= i < 64.

(** What changes from one machine to another: neither the scan, nor the memory
    outside the variables, nor the variables of the set. *)
Record keeps (U : gset Z) (m m' : machine) : Prop := {
  k_search : m'.(search_done) = m.(search_done);
  k_found : m'.(found) = m.(found);
  k_rest : forall x, VARS_STACK_END <= x -> byte_at m'.(mem) x = byte_at m.(mem) x;
  k_flags : forall w, flags m w -> exists w', flags m' w' /\ forall i, i ∈ U -> is_slot i -> Z.testbit w' i = Z.testbit w i;
  k_slots : forall i, i ∈ U -> is_slot i -> agree m.(mem) m'.(mem) (8 * i + VARS_STACK_START) 8;
}.

Lemma keeps_refl U m m' :
  m'.(mem) = m.(mem) -> m'.(search_done) = m.(search_done) -> m'.(found) = m.(found) -> keeps U m m'.
Proof. intros Em Es Ef. split; try done; unfold flags, agree; rewrite ?Em; eauto. Qed.

Lemma keeps_trans U m1 m2 m3 : keeps U m1 m2 -> keeps U m2 m3 -> keeps U m1 m3.
Proof.
  intros [A1 A2 A3 A4 A5] [B1 B2 B3 B4 B5]. split; [congruence..| | |].
  - intros x Hx. by rewrite B3, A3.
  - intros w Hw. destruct (A4 w Hw) as (w1 & Hw1 & H1). destruct (B4 w1 Hw1) as (w2 & Hw2 & H2).
    exists w2. split; [done|]. intros i Hi Hs. rewrite H2, H1; done.
  - intros i Hi Hs x Hx. rewrite (B5 i Hi Hs x Hx). by apply A5 with i.
Qed.

(** The stack does not matter. *)
Lemma keeps_from U st m m' : keeps U (set_stack st m) m' -> keeps U m m'.
Proof. apply keeps_trans. by apply keeps_refl. Qed.

Lemma keeps_to U st m m' : keeps U m m' -> keeps U m (set_stack st m').
Proof. intros Hk. eapply keeps_trans; [exact Hk|]. by apply keeps_refl. Qed.

Lemma keeps_sub U V m m' : U ⊆ V -> keeps V m m' -> keeps U m m'.
Proof.
  intros HS [A1 A2 A3 A4 A5]. split; try done.
  - intros w Hw. destruct (A4 w Hw) as (w' & Hw' & H). exists w'. split; [done|]. set_solver.
  - intros i Hi. apply A5. set_solver.
Qed.

Section Machine.
Context (h : HostContext) (s : Scanned) (num_ids : Z).
Notation strings := h.(h_strings).

(** The value of a variable, if it is defined. *)
Definition slot (m : machine) (i : Z) (t : Ty.t) (x : option value) : Prop :=
  exists w, flags m w /\
    match x with
    | None => Z.testbit w i = true
    | Some v => Z.testbit w i = false /\
        exists k u, var_kind t = Ret k /\ load k m.(mem) (8 * i + VARS_STACK_START) = Some u /\ rel strings t v u
    end.

Lemma slot_keeps U m m' i t x : i ∈ U -> is_slot i -> keeps U m m' -> slot m i t x -> slot m' i t x.
Proof.
  intros Hi Hs [_ _ _ Hf Hm] (w & Hw & Hx). destruct (Hf w Hw) as (w' & Hw' & Hb). exists w'. split; [done|].
  rewrite Hb by done. destruct x as [v|]; [|done]. destruct Hx as (Hx & k & u & Hk & Hl & Hr). split; [done|].
  exists k, u. split_and!; try done. rewrite <- Hl. apply load_agree. intros y Hy. apply (Hm i Hi Hs). by destruct k; cbn in Hy; lia.
Qed.

(** The scan that the machine works on, once the data has been searched. *)
Record world (m : machine) : Prop := {
  w_search : m.(search_done) = 1;
  w_found : m.(found) = s.(sc_matches);
  w_bits : forall id, 0 <= id < num_ids -> exists z,
    byte_at m.(mem) (h.(h_bitmap_base) + id / 8) = Byte z /\ 0 <= z < 256 /\
    Z.testbit z (id mod 8) = match_found s.(sc_matches) id;
  w_flags : exists w, flags m w;
}.

(** The bitmap is after the variables. *)
Hypothesis Hbase : VARS_STACK_END <= h.(h_bitmap_base).

Lemma world_keeps U m m' : keeps U m m' -> world m -> world m'.
Proof.
  intros [A1 A2 A3 A4 A5] [B1 B2 B3 B4]. split; [congruence..| |].
  - intros id Hid. rewrite A3; [by apply B3|]. pose proof (Z.div_pos id 8). lia.
  - destruct B4 as [w Hw]. destruct (A4 w Hw) as (w' & Hw' & _). by exists w'.
Qed.

(** The variables [g] in use, some of which hold patterns, have the values of
    the environment. *)
Record state_ok (U : gset Z) (g : gmap Z Ty.t) (P : gset Z) (en : env) (m : machine) : Prop := {
  s_world : world m;
  s_used : forall i t, g !! i = Some t -> i ∈ U /\ is_slot i;
  s_slot : forall i t, g !! i = Some t -> slot m i t (en !! i);
  s_patterns : forall i v, i ∈ P -> en !! i = Some v -> exists id, v = VInt id /\ 0 <= id < num_ids;
}.

Lemma state_keeps U g P en m m' : state_ok U g P en m -> keeps U m m' -> state_ok U g P en m'.
Proof.
  intros [A1 A2 A3 A4] Hk. split; try done; [by apply (world_keeps U m)|].
  intros i t Hi. destruct (A2 i t Hi). apply (slot_keeps U m); auto.
Qed.

Lemma state_grow U V g P en m : U ⊆ V -> state_ok U g P en m -> state_ok V g P en m.
Proof. intros HS [A1 A2 A3 A4]. split; try done. intros i t Hi. destruct (A2 i t Hi) as [Hin ?]. split; [by apply HS|done]. Qed.
End Machine.

(** * What a piece of code does *)

Section Does.
Context (rt : Runtime).

Lemma runs_and_eq c m Q r : runs rt c m (eq r) -> runs rt c m Q -> Q r.
Proof.
  intros (f & Hf & ->) (f' & Hf' & HQ). destruct (Nat.le_ge_cases f f') as [Hl|Hl].
  - by rewrite (exec_mono rt f f' c m Hl Hf) in HQ.
  - by rewrite (exec_mono rt f' f c m Hl Hf').
Qed.

Lemma runs_det c m Q : runs rt c m Q -> runs rt c m (fun r => Q r /\ r <> NoGas /\ runs rt c m (eq r)).
Proof. intros (f & Hf & HQ). exists f. repeat split; try done. by exists f. Qed.

Lemma runs_result c m Q : runs rt c m Q -> exists r, runs rt c m (eq r) /\ Q r /\ r <> NoGas.
Proof. intros (f & Hf & HQ). exists (exec rt f c m). split_and!; [by exists f|done..]. Qed.

(** The handler [H] of an undefined value is the code that leaves the result of
    the block, and the block. *)
Definition throws (H : Z * code) (U : gset Z) (m : machine) (r : result) : Prop :=
  r <> NoGas /\ exists m', keeps U m m' /\ runs rt (H.2 ++ [Br H.1]) m' (eq r).

(** The code gives the outcome: a value with the postcondition, a branch to the
    handler, or a trap; the variables in [U] are kept. *)
Definition does {A} (H : Z * code) (U : gset Z) (c : code) (m : machine) (o : outcome A) (R : A -> machine -> Prop) : Prop :=
  match o with
  | Def a => runs rt c m (fun r => exists m', r = Next m' /\ keeps U m m' /\ R a m')
  | Undef => runs rt c m (throws H U m)
  | Trap => runs rt c m (eq Trapped)
  | Stuck | NoFuel => True
  end.

Lemma does_runs {A} H U c m (o : outcome A) R :
  (forall Q : result -> Prop,
     (forall a m', o = Def a -> keeps U m m' -> R a m' -> Q (Next m')) ->
     (forall r, o = Undef -> throws H U m r -> Q r) ->
     (o = Trap -> Q Trapped) -> (match o with Stuck | NoFuel => False | _ => True end) -> runs rt c m Q) ->
  does H U c m o R.
Proof.
  intros Hq. destruct o; cbn; try done; apply Hq; try done.
  - intros a' m' [= <-] Hk HR. by exists m'.
Qed.

(** The way to use what a piece of code does: with any postcondition. *)
Lemma does_use {A} H U c m (o : outcome A) R (Q : result -> Prop) :
  does H U c m o R -> (match o with Stuck | NoFuel => False | _ => True end) ->
  (forall a m', o = Def a -> keeps U m m' -> R a m' -> Q (Next m')) ->
  (forall r, o = Undef -> throws H U m r -> Q r) ->
  (o = Trap -> Q Trapped) -> runs rt c m Q.
Proof.
  destruct o; cbn; intros Hd Hs H1 H2 H3; try done; eapply runs_weaken; try exact Hd; cbn.
  - intros r (m' & -> & Hk & HR). by eapply H1.
  - auto.
  - intros r <-. auto.
Qed.

Lemma does_weaken {A} H U c m (o : outcome A) (R R' : A -> machine -> Prop) :
  does H U c m o R -> (forall a m', o = Def a -> keeps U m m' -> R a m' -> R' a m') -> does H U c m o R'.
Proof.
  intros Hd HR. destruct o; try done. eapply runs_weaken; [exact Hd|]. cbn. intros r (m' & -> & Hk & Ha). exists m'. auto.
Qed.

Lemma throws_sub H U V m r : U ⊆ V -> throws H V m r -> throws H U m r.
Proof. intros HS (Hn & m' & Hk & Hr). split; [done|]. exists m'. split; [by apply (keeps_sub U V)|done]. Qed.

Lemma does_sub {A} H U V c m (o : outcome A) R : U ⊆ V -> does H V c m o R -> does H U c m o R.
Proof.
  intros HS Hd. destruct o; try done; (eapply runs_weaken; [exact Hd|]); cbn.
  - intros r (m' & -> & Hk & Ha). exists m'. split_and!; [done|by apply (keeps_sub U V)|done].
  - intros r. by apply throws_sub.
Qed.

Lemma throws_keeps H U m m' r : keeps U m m' -> throws H U m' r -> throws H U m r.
Proof. intros Hk (Hn & m2 & Hk2 & Hr). split; [done|]. exists m2. split; [by apply (keeps_trans U m m')|done]. Qed.

(** It never goes on with the next instruction. *)
Lemma ends_br l id m m' : ~ runs rt (l ++ [Br id]) m (eq (Next m')).
Proof.
  intros (f & _ & E). revert l m E. induction f as [|f IH]; intros l m E; [done|].
  destruct l as [|i l]; cbn [app] in E; rewrite exec_cons in E; [done|].
  destruct (exec_instr rt (exec rt f) i m); try done. by apply IH in E.
Qed.

Lemma throws_not_next H U m r : throws H U m r -> forall m', r <> Next m'.
Proof. intros (_ & m1 & _ & Hr) m' ->. by apply ends_br in Hr. Qed.

(** One piece of code after another. *)
Lemma does_bind {A B} H U c d m (o : outcome A) (f : A -> outcome B) R R' :
  does H U c m o R ->
  (forall a m', o = Def a -> keeps U m m' -> R a m' -> does H U d m' (f a) R') ->
  does H U (c ++ d) m (x ← o; f x) R'.
Proof.
  intros Hc Hd. apply does_runs. intros Q Q1 Q2 Q3 Hs. apply runs_app.
  apply (does_use H U c m o R); [done|by destruct o|..].
  - intros a m' -> Hk HR. cbn in *. apply (does_use H U d m' (f a) R'); [by apply Hd|done|..].
    + intros b m2 E Hk2 HR2. apply Q1 with b; [done|by apply (keeps_trans U m m')|done].
    + intros r E Hr. apply Q2; [done|]. by apply (throws_keeps H U m m').
    + auto.
  - intros r -> Hr. pose proof (throws_not_next _ _ _ _ Hr) as Hx. specialize (Q2 r eq_refl Hr).
    destruct r; [by exfalso; eapply Hx|done..|by destruct Hr].
  - intros ->. by apply Q3.
Qed.

(** A piece of code that always goes on. *)
Lemma does_then {B} H U c d m (o : outcome B) (P : machine -> Prop) R' :
  runs rt c m (fun r => exists m', r = Next m' /\ keeps U m m' /\ P m') ->
  (forall m', keeps U m m' -> P m' -> does H U d m' o R') ->
  does H U (c ++ d) m o R'.
Proof.
  intros Hc Hd. change o with (x ← Def tt; (fun _ : unit => o) x). eapply (does_bind H U c d m (Def tt) (fun _ => o) (fun _ => P)).
  - exact Hc.
  - intros a m' _ Hk HP. by apply Hd.
Qed.

(** Instructions after a piece of code that compute the value. *)
Lemma does_instrs {A B} H U c d m (o : outcome A) (f : A -> outcome B) R R' :
  does H U c m o R ->
  (forall a m', o = Def a -> keeps U m m' -> R a m' -> does H U d m' (f a) R') ->
  does H U (c ++ d) m (x ← o; f x) R'.
Proof. apply does_bind. Qed.

Lemma does_ret {A} H U c m (a : A) (R : A -> machine -> Prop) :
  runs rt c m (fun r => exists m', r = Next m' /\ keeps U m m' /\ R a m') -> does H U c m (Def a) R.
Proof. done. Qed.

Lemma does_nil {A} H U m (a : A) (R : A -> machine -> Prop) : R a m -> does H U [] m (Def a) R.
Proof. intros HR. apply runs_nil. exists m. split_and!; [done|by apply keeps_refl|done]. Qed.

(** The code that throws. *)
Lemma does_throw H U m m' :
  keeps U m m' -> runs rt (H.2 ++ [Br H.1]) m' (fun r => exists m'', r = Jump H.1 m'') -> runs rt (H.2 ++ [Br H.1]) m' (throws H U m).
Proof.
  intros Hk Hr. apply runs_det in Hr. eapply runs_weaken; [exact Hr|]. intros r (_ & Hn & Hr'). split; [done|]. by exists m'.
Qed.
End Does.

(** * What the emission gives *)

Section Emits.
Context {T : Type} {ST : SymbolTable T} {STL : SymbolTableLaws T}.
Context (strings : StringContext) (literals : list (list Z)).

(** The literals of the condition fit in the pool. *)
Definition pool_fits (p : BStringPool T) : Prop := pool_ok p /\ serialize p ⊆ literals.

Definition included (p : BStringPool T) : Prop :=
  forall i x, get_bytes p i = Some x -> strings.(ctx_lit_pool) i = Some x.

(** The context with the handler [H], whose blocks are numbered from [n]. *)
Record ctx_ok (H : Z * code) (n : Z) (ctx : EmitContext T) : Prop := {
  co_handler : exists rest, ctx.(exception_handler_stack) = H :: rest;
  co_id : n <= Emit.next_id ctx;
  co_search : ctx.(emit_search_for_pattern_stack) <> [];
  co_lookup : ctx.(lookup_list) = [];
  co_pool : pool_fits ctx.(lit_pool);
}.

Record ext (ctx ctx' : EmitContext T) : Prop := {
  ex_id : Emit.next_id ctx <= Emit.next_id ctx';
  ex_handlers : ctx'.(exception_handler_stack) = ctx.(exception_handler_stack);
  ex_search : length ctx'.(emit_search_for_pattern_stack) = length ctx.(emit_search_for_pattern_stack);
  ex_lookup : ctx'.(lookup_list) = ctx.(lookup_list);
  ex_fits : pool_fits ctx.(lit_pool) -> pool_fits ctx'.(lit_pool);
  ex_pool : forall i x, get_bytes ctx.(lit_pool) i = Some x -> get_bytes ctx'.(lit_pool) i = Some x;
}.

Lemma ext_refl ctx : ext ctx ctx.
Proof. by split. Qed.

Lemma ext_trans c1 c2 c3 : ext c1 c2 -> ext c2 c3 -> ext c1 c3.
Proof. intros [] []. split; [lia|congruence..|auto|auto]. Qed.

Lemma ok_ext H n c c' : ctx_ok H n c -> ext c c' -> ctx_ok H n c'.
Proof.
  intros [[rest Hh] Hn Hs Hl Hp] []. split.
  - exists rest. congruence.
  - lia.
  - intros E. rewrite E in ex_search0. by destruct (emit_search_for_pattern_stack c).
  - congruence.
  - auto.
Qed.

(** The emission succeeds, whatever the context; the postcondition is about
    strings that include those of the final pool. *)
Definition emits {A} (H : Z * code) (n : Z) (e : M T A) (P : A -> Prop) : Prop :=
  forall ctx, ctx_ok H n ctx -> exists a ctx', e ctx = Ret (a, ctx') /\ ext ctx ctx' /\ (included ctx'.(lit_pool) -> P a).

Lemma emits_weaken {A} H n (e : M T A) (P Q : A -> Prop) : emits H n e P -> (forall a, P a -> Q a) -> emits H n e Q.
Proof. intros He HQ ctx Hc. destruct (He ctx Hc) as (a & c & E & Hx & HP). exists a, c. auto. Qed.

Lemma emits_later {A} H n n' (e : M T A) P : n <= n' -> emits H n e P -> emits H n' e P.
Proof. intros Hn He ctx [? ? ? ? ?]. apply He. split; try done. lia. Qed.

Lemma emits_ret {A} H n (a : A) (P : A -> Prop) : P a -> emits H n (mret a) P.
Proof. intros HP ctx _. exists a, ctx. split_and!; [done|apply ext_refl|done]. Qed.

Lemma emits_bind {A B} H n (e : M T A) (k : A -> M T B) P Q :
  emits H n e P -> (forall a, emits H n (k a) (fun b => P a -> Q b)) -> emits H n (e ≫= k) Q.
Proof.
  intros He Hk ctx Hc. destruct (He ctx Hc) as (a & c1 & E1 & X1 & HP).
  destruct (Hk a c1 (ok_ext _ _ _ _ Hc X1)) as (b & c2 & E2 & X2 & HQ).
  exists b, c2. split_and!.
  - unfold mbind, M_bind, mbind, res_bind. by rewrite E1.
  - by apply (ext_trans _ c1).
  - intros Hi. apply HQ; [done|]. apply HP. intros i x Hx. by apply Hi, X2.
Qed.

(** The same when what comes next depends on facts that do not depend on the
    strings. *)
Definition emits_pure {A} (H : Z * code) (n : Z) (e : M T A) (F P : A -> Prop) : Prop :=
  forall ctx, ctx_ok H n ctx -> exists a ctx', e ctx = Ret (a, ctx') /\ ext ctx ctx' /\ F a /\ (included ctx'.(lit_pool) -> P a).

Lemma emits_bind_pure {A B} H n (e : M T A) (k : A -> M T B) F P Q :
  emits_pure H n e F P -> (forall a, F a -> emits H n (k a) (fun b => P a -> Q b)) -> emits H n (e ≫= k) Q.
Proof.
  intros He Hk ctx Hc. destruct (He ctx Hc) as (a & c1 & E1 & X1 & HF & HP).
  destruct (Hk a HF c1 (ok_ext _ _ _ _ Hc X1)) as (b & c2 & E2 & X2 & HQ).
  exists b, c2. split_and!.
  - unfold mbind, M_bind, mbind, res_bind. by rewrite E1.
  - by apply (ext_trans _ c1).
  - intros Hi. apply HQ; [done|]. apply HP. intros i x Hx. by apply Hi, X2.
Qed.

Lemma emits_as_pure {A} H n (e : M T A) P : emits H n e P -> emits_pure H n e (fun _ => True) P.
Proof. intros He ctx Hc. destruct (He ctx Hc) as (a & c & E & X & HP). by exists a, c. Qed.

Lemma pure_ret {A} H n (a : A) (F P : A -> Prop) : F a -> P a -> emits_pure H n (mret a) F P.
Proof. intros HF HP ctx _. exists a, ctx. split_and!; [done|apply ext_refl|done..]. Qed.

Lemma pure_bind {A B} H n (e : M T A) (k : A -> M T B) F P G Q :
  emits_pure H n e F P -> (forall a, F a -> emits_pure H n (k a) G (fun b => P a -> Q b)) -> emits_pure H n (e ≫= k) G Q.
Proof.
  intros He Hk ctx Hc. destruct (He ctx Hc) as (a & c1 & E1 & X1 & HF & HP).
  destruct (Hk a HF c1 (ok_ext _ _ _ _ Hc X1)) as (b & c2 & E2 & X2 & HG & HQ).
  exists b, c2. split_and!; [|by apply (ext_trans _ c1)|done|].
  - unfold mbind, M_bind, mbind, res_bind. by rewrite E1.
  - intros Hi. apply HQ; [done|]. apply HP. intros i x Hx. by apply Hi, X2.
Qed.

Lemma pure_lift {A} H n (r : res A) (F P : A -> Prop) a : r = Ret a -> F a -> P a -> emits_pure H n (lift r) F P.
Proof. intros -> HF HP ctx _. exists a, ctx. split_and!; [done|apply ext_refl|done..]. Qed.

Lemma emits_lift {A} H n (r : res A) (P : A -> Prop) a : r = Ret a -> P a -> emits H n (lift r) P.
Proof. intros -> HP ctx _. exists a, ctx. split_and!; [done|apply ext_refl|done]. Qed.

(** A new block has an identifier that no handler has. *)
Lemma emits_fresh {A} H n (k : Z -> M T A) P : (forall id, n <= id -> emits H (id + 1) (k id) P) -> emits H n (fresh ≫= k) P.
Proof.
  intros Hk ctx [Hh Hn Hs Hl Hp]. destruct (Hk (Emit.next_id ctx) Hn (set_next_id (Emit.next_id ctx + 1) ctx)) as (a & c & E & [] & HP).
  { split; try done. }
  exists a, c. split_and!; [done| |done]. split; try done. cbn in *. lia.
Qed.

Lemma emits_throw H n : emits H n throw_undef (fun c => c = H.2 ++ [Br H.1]).
Proof.
  intros ctx [[rest Hh] _ _ _ _]. exists (H.2 ++ [Br H.1]), ctx. split_and!; [|apply ext_refl|done].
  unfold throw_undef, gets, mbind, M_bind, mbind, res_bind. rewrite Hh. by destruct H.
Qed.

Lemma emits_catch H n ty (e : Z -> M T code) handler P :
  (forall id, n <= id -> emits (id, handler) (id + 1) (e id) (fun c => P [Block id ty c])) -> emits H n (catch_undef ty e handler) P.
Proof.
  intros He. apply emits_fresh. intros id Hid ctx [[rest Hh] Hn Hs Hl Hp].
  destruct (He id Hid (set_handlers ((id, handler) :: ctx.(exception_handler_stack)) ctx)) as (c & c1 & E & [] & HP).
  { split; try done. by eexists. }
  cbn in *. exists [Block id ty c], (set_handlers ctx.(exception_handler_stack) c1). split_and!.
  - unfold push_handler, pop_handler, modify, mbind, M_bind, mbind, res_bind. rewrite E. by rewrite ex_handlers0.
  - by split.
  - done.
Qed.

Lemma emits_each {A B} H n (f : A -> M T B) l (P : A -> B -> Prop) :
  Forall (fun x => emits H n (f x) (P x)) l -> emits H n (emit_each f l) (Forall2 P l).
Proof.
  induction 1 as [|x l Hx _ IH]; cbn [emit_each]; [by apply emits_ret|].
  eapply emits_bind; [exact Hx|]. intros b. eapply emits_bind; [exact IH|]. intros bs. apply emits_ret. intros. by constructor.
Qed.

(** The search is emitted only if it was not before. *)
Lemma emits_search H n :
  emits H n emit_lazy_call_to_search_for_patterns
    (fun c => c = [] \/ c = [GlobalGet PatternSearchDone; IfElse None [] [Call (Host SearchForPatterns)]]).
Proof.
  intros ctx [Hh Hn Hs Hl Hp]. unfold emit_lazy_call_to_search_for_patterns, gets, modify, mbind, M_bind, mbind, res_bind.
  destruct (emit_search_for_pattern_stack ctx) as [|[|] rest] eqn:E; [done|..]; eexists _, _; (split; [reflexivity|]); split; auto using ext_refl.
  split; try done. cbn. by rewrite E.
Qed.

Lemma emits_with_search H n (e : M T code) P : emits H n e P -> emits H n (with_search_flag e) P.
Proof.
  intros He ctx [Hh Hn Hs Hl Hp].
  destruct (He (set_search_stack (true :: ctx.(emit_search_for_pattern_stack)) ctx)) as (c & c1 & E & [] & HP).
  { by split. }
  cbn in *. exists c, (set_search_stack (tail c1.(emit_search_for_pattern_stack)) c1). split_and!; [|..|done].
  - unfold with_search_flag, modify, mbind, M_bind, mbind, res_bind. by rewrite E.
  - split; try done. cbn. destruct (emit_search_for_pattern_stack c1); [done|]. cbn in *. lia.
Qed.
End Emits.
