(* ===== verification/EmitOps.v ===== *)
(** What the code emitted for variables, operators and the functions on
    patterns does, by the rules of [EmitRel.v]. *)

From Stdlib Require Import SpecFloat.
From stdpp Require Import gmap strings.
From S2P Require Import Prelude.
From S2P Require Import StringPool.
From S2P Require Import Matches.
From S2P Require Import Tracker.
From S2P Require Import Float64.
From S2P Require Import Types.
From S2P Require Import IR.
From S2P Require Import Builtins.
From S2P Require Import Eval.
From S2P Require Import EvalTypes.
From S2P Require Import Wasm.
From S2P Require Import RuntimeString.
From S2P Require Import Host.
From S2P Require Import Emit.
From S2P Require Import EmitExpr.
From S2P Require Import WasmProps.
From S2P Require Import EmitRel.
#[local] Open Scope Z_scope.

(** * Integers of 64 bits *)

Lemma in_i64_shiftr z : in_i64 z <-> Z.shiftr z 63 = 0 \/ Z.shiftr z 63 = -1.
Proof. unfold in_i64, i64_MIN, i64_MAX. rewrite Z.shiftr_div_pow2 by lia. change (2 ^ 63) with 9223372036854775808. lia_mod. Qed.

(** Operations on bits stay in the range. *)
Lemma in_i64_bits (f : Z -> Z -> Z) a b :
  (forall x y n, Z.shiftr (f x y) n = f (Z.shiftr x n) (Z.shiftr y n)) ->
  (forall x y, x = 0 \/ x = -1 -> y = 0 \/ y = -1 -> f x y = 0 \/ f x y = -1) ->
  in_i64 a -> in_i64 b -> in_i64 (f a b).
Proof. rewrite !in_i64_shiftr. intros Hs Hf Ha Hb. rewrite Hs. auto. Qed.

Lemma in_i64_land a b : in_i64 a -> in_i64 b -> in_i64 (Z.land a b).
Proof. apply in_i64_bits; [intros; apply Z.shiftr_land|]. intros x y [-> | ->] [-> | ->]; cbn; auto. Qed.

Lemma in_i64_lor a b : in_i64 a -> in_i64 b -> in_i64 (Z.lor a b).
Proof. apply in_i64_bits; [intros; apply Z.shiftr_lor|]. intros x y [-> | ->] [-> | ->]; cbn; auto. Qed.

Lemma in_i64_lxor a b : in_i64 a -> in_i64 b -> in_i64 (Z.lxor a b).
Proof. apply in_i64_bits; [intros; apply Z.shiftr_lxor|]. intros x y [-> | ->] [-> | ->]; cbn; auto. Qed.

Lemma in_i64_shift a n : 0 <= n -> in_i64 a -> in_i64 (Z.shiftr a n).
Proof.
  unfold in_i64, i64_MIN, i64_MAX. intros Hn Ha. rewrite Z.shiftr_div_pow2 by done. pose proof (Z.pow_pos_nonneg 2 n ltac:(lia) Hn).
  split; [apply Z.div_le_lower_bound; nia|apply Z.lt_succ_r, Z.div_lt_upper_bound; nia].
Qed.

Lemma in_i64_lnot a : in_i64 a -> in_i64 (Z.lnot a).
Proof. unfold in_i64, i64_MIN, i64_MAX, Z.lnot. lia. Qed.

(** * The flags of variables *)

Lemma testbit_flag (v : Var.t) i : is_slot (v.(Var.index)) -> is_slot i -> Z.testbit (flag_bit v) i = (i =? v.(Var.index)).
Proof.
  unfold is_slot, flag_bit. intros Hv Hi. rewrite Z.rem_small by lia. rewrite Z.shiftl_1_l.
  destruct (decide (v.(Var.index) = 63)) as [->|Hne].
  - replace (wrap_isize (2 ^ 63)) with (Z.lnot (Z.ones 63)) by reflexivity. rewrite Z.lnot_spec by lia.
    destruct (i =? 63) eqn:E; bools; [subst; reflexivity|]. rewrite Z.ones_spec_low by lia. done.
  - rewrite wrap_isize_id.
    + rewrite Z.pow2_bits_eqb by lia. apply Z.eqb_sym.
    + assert (2 ^ v.(Var.index) <= 2 ^ 62) by (apply Z.pow_le_mono_r; lia). pose proof (Z.pow_pos_nonneg 2 v.(Var.index)). lia.
Qed.

Lemma flag_bit_range v : in_i64 (flag_bit v).
Proof. apply wrap_in_i64. Qed.

Definition with_flag (v : Var.t) (b : bool) (w : Z) : Z :=
  if b then Z.lor w (flag_bit v) else Z.land w (Z.lnot (flag_bit v)).

Lemma with_flag_range v b w : in_i64 w -> in_i64 (with_flag v b w).
Proof.
  intros Hw. unfold with_flag. pose proof (flag_bit_range v).
  destruct b; [by apply in_i64_lor|]. apply in_i64_land; [done|]. by apply in_i64_lnot.
Qed.

Lemma testbit_with_flag v b w i : is_slot v.(Var.index) -> is_slot i ->
  Z.testbit (with_flag v b w) i = if i =? v.(Var.index) then b else Z.testbit w i.
Proof.
  intros Hv Hi. unfold with_flag. destruct b.
  - rewrite Z.lor_spec, testbit_flag by done. destruct (i =? _); [by rewrite orb_true_r|by rewrite orb_false_r].
  - unfold is_slot in Hi. rewrite Z.land_spec, Z.lnot_spec, testbit_flag by (first [done|lia]).
    destruct (i =? _); [by rewrite andb_false_r|by rewrite andb_true_r].
Qed.

Lemma flag_address_0 v : is_slot v.(Var.index) -> flag_address v = 0.
Proof. unfold is_slot, flag_address. intros. apply Z.quot_small. lia. Qed.

Lemma var_offset_u32 v : is_slot v.(Var.index) -> wrap_u32 (var_offset v) = 8 * v.(Var.index).
Proof. unfold is_slot, var_offset, mem_size, wrap_u32. intros. rewrite Z.mod_small; lia. Qed.

(** Rules are applied to the instruction at the head of the code. *)
Ltac wsimpl := cbn [stack locals mem search_done found push set_stack set_local set_locals set_mem app].
Ltac wstep :=
  lazymatch goal with
  | |- runs _ (Const _ :: _) _ _ => apply run_const
  | |- runs _ (i32_const _ :: _) _ _ => apply run_const
  | |- runs _ (i64_const _ :: _) _ _ => apply run_const
  | |- runs _ (f64_const _ :: _) _ _ => apply run_const
  | |- runs _ (LocalGet _ :: _) _ _ => apply run_local_get
  | |- runs _ (LocalSet _ :: _) _ _ => eapply run_local_set; [reflexivity|]
  | |- runs _ (LocalTee _ :: _) _ _ => eapply run_local_tee; [reflexivity|]
  | |- runs _ (GlobalGet _ :: _) _ _ => apply run_global
  | |- runs _ (Unop _ :: _) _ _ => eapply run_unop; [reflexivity|reflexivity|]
  | |- runs _ (Binop _ :: _) _ _ => eapply run_binop; [reflexivity|reflexivity|]
  | |- runs _ (DropValue :: _) _ _ => eapply run_drop; [reflexivity|]
  | |- runs _ (Br _ :: _) _ _ => apply run_br
  | |- runs _ (BrIf _ :: _) _ _ => eapply run_br_if; [reflexivity|]
  | |- runs _ (IfElse _ _ _ :: _) _ _ => eapply runs_if; [reflexivity|]
  | |- runs _ (Block _ _ _ :: _) _ _ => apply runs_block
  end; wsimpl.

(** A machine whose stack is known, and code that is at its end. *)
Ltac open_machine m Hs :=
  destruct m as [? ? ? ? ?]; cbn [stack] in Hs; subst; wsimpl.
Ltac run_next := apply runs_nil; eexists; split_and!; [reflexivity|by apply keeps_refl|].

Section Variables.
Context (rt : Runtime) (h : HostContext).
Notation strings := h.(h_strings).

(** Setting the flag of a variable changes one bit of the word of flags. *)
Lemma run_set_undef v b c m w Q :
  is_slot v.(Var.index) -> flags m w ->
  (forall mm, store Mem_I64 m.(mem) 0 (VI64 (with_flag v b w)) = Some mm -> load Mem_I64 mm 0 = Some (VI64 (with_flag v b w)) ->
     runs rt c (set_mem mm m) Q) ->
  runs rt (set_var_undef v b ++ c) m Q.
Proof.
  intros Hv Hw Hc. destruct (load_store_i64 m.(mem) 0 (with_flag v b w)) as (mm & Hst & Hld).
  { apply with_flag_range. by eapply load_i64_range. }
  specialize (Hc mm Hst Hld). unfold set_var_undef. rewrite flag_address_0 by done. cbn [app]. do 2 wstep.
  eapply run_load; [reflexivity|exact Hw|]. wsimpl. destruct b; cbn [app]; do 2 wstep.
  all: eapply run_store; [reflexivity|exact Hst|]; by destruct m.
Qed.

(** What that keeps, and what it does to the variable. *)
Lemma keeps_set_undef U v b m w mm :
  is_slot v.(Var.index) -> v.(Var.index) ∉ U -> flags m w ->
  store Mem_I64 m.(mem) 0 (VI64 (with_flag v b w)) = Some mm -> load Mem_I64 mm 0 = Some (VI64 (with_flag v b w)) ->
  keeps U m (set_mem mm m).
Proof.
  intros Hv HU Hw Hst Hld. assert (Ha : forall x, 8 <= x -> byte_at mm x = byte_at m.(mem) x).
  { intros x Hx. apply (store_agree Mem_I64 m.(mem) mm 0 (VI64 (with_flag v b w)) x 1); [done|cbn; lia|lia]. }
  assert (VARS_STACK_END = 16640 /\ VARS_STACK_START = 256) as [E1 E2] by done.
  split; try done.
  - intros x Hx. apply Ha. lia.
  - intros w1 Hw1. assert (w1 = w) as -> by (unfold flags in *; congruence). exists (with_flag v b w). split; [done|].
    intros i Hi Hs. rewrite testbit_with_flag by done. destruct (i =? _) eqn:E; bools; [subst; done|done].
  - intros i Hi Hs x Hx. unfold is_slot in Hs. apply Ha. lia.
Qed.

(** The value of a variable is stored and its flag cleared. *)
Lemma run_store_var k v c m w s u Q U :
  is_slot v.(Var.index) -> v.(Var.index) ∉ U -> var_kind v.(Var.ty) = Ret k -> flags m w ->
  m.(stack) = u :: VI32 (8 * v.(Var.index)) :: s ->
  (exists mm, store k m.(mem) (8 * v.(Var.index) + VARS_STACK_START) u = Some mm /\ load k mm (8 * v.(Var.index) + VARS_STACK_START) = Some u) ->
  (forall m', m'.(stack) = s -> m'.(locals) = m.(locals) -> keeps U m m' ->
     (forall x, rel strings v.(Var.ty) x u -> slot h m' v.(Var.index) v.(Var.ty) (Some x)) -> runs rt c m' Q) ->
  runs rt (StoreMem k VARS_STACK_START :: set_var_undef v false ++ c) m Q.
Proof.
  intros Hv HU Hk Hw Hst (mm & Hm & Hl) Hc. eapply run_store; [exact Hst|exact Hm|]. set (m1 := set_mem mm (set_stack s m)).
  assert (VARS_STACK_END = 16640 /\ VARS_STACK_START = 256) as [E1 E2] by done.
  assert (Ha : forall x n, x + n <= 8 * v.(Var.index) + VARS_STACK_START \/ 8 * v.(Var.index) + VARS_STACK_START + 8 <= x -> agree m.(mem) mm x n).
  { intros x n Hx. eapply store_agree; [exact Hm|]. destruct k; cbn [kind_size]; lia. }
  unfold is_slot in Hv.
  assert (Hw1 : flags m1 w). { unfold flags, m1. cbn [mem set_mem]. rewrite (load_agree Mem_I64 m.(mem)); [done|]. apply Ha. cbn [kind_size]. lia. }
  assert (Hk1 : keeps U m m1).
  { split; try done.
    - intros x Hx. apply (Ha x 1); [right|]; lia.
    - intros w1 Hw2. assert (w1 = w) as -> by (unfold flags in *; congruence). by exists w.
    - intros i Hi Hs. apply Ha. assert (i <> v.(Var.index)) by (intros ->; done). lia. }
  apply run_set_undef with w; [done..|]. intros mm2 Hs2 Hl2. apply Hc; [done..| |].
  - apply (keeps_trans U m m1); [done|]. by apply (keeps_set_undef U v false m1 w).
  - intros x Hx. exists (with_flag v false w). split; [done|]. split; [rewrite testbit_with_flag, Z.eqb_refl by done; done|].
    exists k, u. split_and!; [done| |done]. cbn [mem set_mem]. rewrite <- Hl. apply load_agree.
    eapply store_agree; [exact Hs2|]. cbn [kind_size]. lia.
Qed.

Lemma store_rel t k v u mm a : var_kind t = Ret k -> rel strings t v u -> exists mm', store k mm a u = Some mm' /\ load k mm' a = Some u.
Proof.
  destruct t; try done; intros [= <-]; destruct v, u; try done; cbn [rel].
  - intros [-> Hz]. by apply load_store_i64.
  - intros _. apply load_store_f64.
  - intros ->. apply load_store_i32. by destruct b.
  - intros [_ Hz]. by apply load_store_i64.
Qed.

Definition has_flags (m : machine) : Prop := exists w, flags m w.

Lemma has_flags_keeps U m m' : keeps U m m' -> has_flags m -> has_flags m'.
Proof. intros [_ _ _ Hf _] [w Hw]. destruct (Hf w Hw) as (w' & Hw' & _). by exists w'. Qed.

(** A handler leaves its results and branches to its block. *)
Definition handler_ok (H : Z * code) : Prop :=
  forall m, has_flags m -> runs rt (H.2 ++ [Br H.1]) m (fun r => exists m', r = Jump H.1 m').

Lemma throws_jump H V m r : handler_ok H -> has_flags m -> throws rt H V m r -> exists m', r = Jump H.1 m'.
Proof.
  intros Hh Hf (_ & m' & Hk & Hr). specialize (Hh m' (has_flags_keeps _ _ _ Hk Hf)).
  by apply (runs_and_eq rt _ m' (fun r => exists m', r = Jump H.1 m') r Hr).
Qed.

(** [set_var]: [L] is about the local variables of the machine. *)
Definition set_var_code (k : mem_kind) (v : Var.t) (c : code) : code :=
  [i32_const (var_offset v)] ++ c ++ [StoreMem k VARS_STACK_START] ++ set_var_undef v false.

Lemma does_set_var H U k v c m (o : outcome value) (L : value -> (local -> wval) -> Prop) :
  is_slot v.(Var.index) -> v.(Var.index) ∉ U -> var_kind v.(Var.ty) = Ret k -> has_flags m ->
  (let s := VI32 (8 * v.(Var.index)) :: m.(stack) in
   does rt H U c (set_stack s m) o (fun x m' => pushed strings v.(Var.ty) s x m' /\ L x m'.(locals))) ->
  does rt H U (set_var_code k v c) m o
    (fun x m' => m'.(stack) = m.(stack) /\ slot h m' v.(Var.index) v.(Var.ty) (Some x) /\ L x m'.(locals)).
Proof.
  intros Hv HU Hk Hf Hc. unfold set_var_code. eapply (does_then _ _ _ _ _ _ _ (eq (set_stack (VI32 (8 * v.(Var.index)) :: m.(stack)) m))).
  { wstep. apply runs_nil. eexists. split_and!; [reflexivity|by apply keeps_refl|]. cbn. by rewrite var_offset_u32. }
  intros m1 Hk1 <-. replace o with (x ← o; Def x) by by destruct o. eapply does_bind; [exact Hc|].
  intros x m2 _ Hk2 [(u & Hs & Hr) HL]. cbn [app]. destruct (has_flags_keeps _ _ _ Hk2 Hf) as [w Hw]. apply does_ret.
  rewrite <- (app_nil_r (set_var_undef v false)).
  eapply run_store_var; [done..|exact Hs|by eapply store_rel|]. intros m3 Hs3 Hl3 Hk3 Hslot. apply runs_nil.
  exists m3. split_and!; [done|done|done|by apply Hslot|by rewrite Hl3].
Qed.

(** The same without a condition on the local variables. *)
Lemma does_set H U k v c m (o : outcome value) :
  is_slot v.(Var.index) -> v.(Var.index) ∉ U -> var_kind v.(Var.ty) = Ret k -> has_flags m ->
  (let s := VI32 (8 * v.(Var.index)) :: m.(stack) in does rt H U c (set_stack s m) o (pushed strings v.(Var.ty) s)) ->
  does rt H U (set_var_code k v c) m o
    (fun x m' => m'.(stack) = m.(stack) /\ slot h m' v.(Var.index) v.(Var.ty) (Some x)).
Proof.
  intros Hv HU Hk Hf Hc. eapply does_weaken; [apply (does_set_var H U k v c m o (fun _ _ => True)); try done|].
  - eapply does_weaken; [exact Hc|]. intros x m' _ _ Hp. by split.
  - by intros x m' _ _ (Hs & Hx & _).
Qed.

(** [load_var] *)
Definition load_code (H : Z * code) (k : mem_kind) (v : Var.t) : code :=
  [i32_const (flag_address v); LoadMem Mem_I64 0; i64_const (flag_bit v); Binop I64And; Unop I64Eqz;
   IfElse None [] (H.2 ++ [Br H.1]); i32_const (var_offset v); LoadMem k VARS_STACK_START].

(** The flag that is tested. *)
Lemma flag_test v w : is_slot v.(Var.index) -> in_i64 w ->
  (Z.land w (flag_bit v) =? 0) = negb (Z.testbit w v.(Var.index)).
Proof.
  intros Hv Hw. destruct (Z.testbit w v.(Var.index)) eqn:E; cbn.
  - apply Z.eqb_neq. intros H0. assert (Hb : Z.testbit (Z.land w (flag_bit v)) v.(Var.index) = true).
    { by rewrite Z.land_spec, testbit_flag, E, Z.eqb_refl by done. }
    by rewrite H0, Z.bits_0 in Hb.
  - apply Z.eqb_eq. apply Z.bits_inj'. intros i Hi. rewrite Z.bits_0, Z.land_spec. unfold is_slot in *.
    destruct (decide (i < 64)) as [Hl|Hl].
    + rewrite testbit_flag by (unfold is_slot; lia). destruct (i =? _) eqn:Ei; bools; [subst; by rewrite E|apply andb_false_r].
    + assert (Hsame : forall z, in_i64 z -> Z.testbit z i = Z.testbit z 63).
      { intros z Hz. apply in_i64_shiftr in Hz. transitivity (Z.testbit (Z.shiftr z 63) (i - 63)).
        { rewrite Z.shiftr_spec by lia. f_equal. lia. }
        transitivity (Z.testbit (Z.shiftr z 63) 0); [|by rewrite Z.shiftr_spec by lia].
        destruct Hz as [-> | ->]; [by rewrite !Z.bits_0|by rewrite !Z.bits_m1 by lia]. }
      rewrite (Hsame w Hw), (Hsame _ (flag_bit_range v)), testbit_flag by (unfold is_slot; lia).
      destruct (63 =? _) eqn:Ei; bools; [rewrite <- Ei in E; by rewrite E|apply andb_false_r].
Qed.

Lemma run_load_var H k v x c m Q :
  is_slot v.(Var.index) -> var_kind v.(Var.ty) = Ret k -> slot h m v.(Var.index) v.(Var.ty) (Some x) ->
  (forall u, rel strings v.(Var.ty) x u -> runs rt c (set_stack (u :: m.(stack)) m) Q) ->
  runs rt (load_code H k v ++ c) m Q.
Proof.
  intros Hv Hk (w & Hw & Hx & k' & u & Hk' & Hl & Hr) Hc. rewrite Hk in Hk'. apply Ret_inj in Hk' as <-.
  unfold load_code. rewrite flag_address_0 by done. cbn [app]. wstep.
  eapply run_load; [reflexivity|exact Hw|]. wsimpl. do 3 wstep.
  rewrite flag_test, Hx by (first [done|by eapply load_i64_range]). cbn [negb]. unfold i32_bool, b2i. wstep. cbn [Z.eqb].
  apply runs_nil. unfold leave. cbn [num_results take]. wsimpl. wstep. rewrite var_offset_u32 by done.
  eapply run_load; [reflexivity|exact Hl|]. wsimpl. by apply Hc.
Qed.

Lemma does_load H U k v x m :
  handler_ok H -> is_slot v.(Var.index) -> var_kind v.(Var.ty) = Ret k -> slot h m v.(Var.index) v.(Var.ty) x ->
  does rt H U (load_code H k v) m (of_option x) (pushed strings v.(Var.ty) m.(stack)).
Proof.
  intros Hh Hv Hk Hx. destruct x as [x|].
  - cbn [of_option]. apply does_ret. rewrite <- (app_nil_r (load_code H k v)). eapply run_load_var; [done..|].
    intros u Hu. apply runs_nil. eexists. split_and!; [reflexivity|by apply keeps_refl|]. by exists u.
  - destruct Hx as (w & Hw & Hx). cbn [of_option does].
    unfold load_code. rewrite flag_address_0 by done. wstep. eapply run_load; [reflexivity|exact Hw|]. wsimpl. do 3 wstep.
    rewrite flag_test, Hx by (first [done|by eapply load_i64_range]). cbn [negb]. unfold i32_bool, b2i. wstep. cbn [Z.eqb].
    match goal with |- runs _ _ ?m1 _ => eapply runs_weaken; [apply (does_throw rt H U m m1); [by apply keeps_refl|]|] end.
    + apply Hh. by exists w.
    + intros r Hr. destruct r; [by eapply throws_not_next in Hr|done..|by destruct Hr].
Qed.

(** [incr_var] *)
Definition incr_code (H : Z * code) (v : Var.t) : code :=
  set_var_code Mem_I64 v (load_code H Mem_I64 v ++ [i64_const 1; Binop I64Add]).

Lemma does_incr H U v z m :
  is_slot v.(Var.index) -> v.(Var.index) ∉ U -> v.(Var.ty) = Ty.Integer -> slot h m v.(Var.index) Ty.Integer (Some (VInt z)) ->
  does rt H U (incr_code H v) m (Def (VInt (wrap_i64 (z + 1))))
    (fun x m' => m'.(stack) = m.(stack) /\ slot h m' v.(Var.index) Ty.Integer (Some x)).
Proof.
  intros Hv HU Ht Hx. rewrite <- Ht in Hx |- *. apply does_set; [done|done|by rewrite Ht|by destruct Hx as (w & Hw & _); exists w|].
  intros s. apply does_ret. eapply run_load_var; [done|by rewrite Ht|exact Hx|]. rewrite Ht. intros u Hu. destruct u; try done. destruct Hu as [-> Hz].
  wsimpl. do 2 wstep. apply runs_nil. eexists. split_and!; [reflexivity|by apply keeps_refl|].
  eexists. split; [reflexivity|]. split; [done|apply wrap_in_i64].
Qed.
(** ** Handlers that leave a constant *)

Lemma const_handler_ok v id : handler_ok (id, [Const v]).
Proof. intros m _. cbn [fst snd app]. do 2 wstep. by eexists. Qed.

(** A handler that leaves a constant. *)
Lemma throws_const v id V m r :
  throws rt (id, [Const v]) V m r -> exists m', keeps V m m' /\ r = Jump id (push v m').
Proof.
  intros (_ & m' & Hk & Hr). exists m'. split; [done|]. eapply (runs_and_eq rt _ m' (fun r => r = _)); [exact Hr|].
  cbn [fst snd app]. apply run_const, run_br. done.
Qed.

(** A block that catches what its code throws. *)
Lemma does_catch_bool H V id c m (o : outcome bool) b0 :
  does rt (id, [i32_const (b2i b0)]) V c (set_stack [] m) o (pushed_bool []) ->
  does rt H V [Block id (Some I32) c] m (catch o b0) (pushed_bool m.(stack)).
Proof.
  intros Hc. assert (Hn : forall m', keeps V (set_stack [] m) m' -> keeps V m m').
  { intros m' Hk. eapply keeps_trans; [|exact Hk]. by apply keeps_refl. }
  destruct o as [b| | | |]; cbn [catch]; try done; apply runs_block.
  - eapply runs_weaken; [exact Hc|]. intros r (m' & -> & Hk & Hs). cbn [exits]. unfold pushed_bool in Hs. apply runs_nil.
    exists (leave (Some I32) (stack m) m'). split_and!; [done| |unfold leave, pushed_bool; by rewrite Hs].
    eapply keeps_trans; [by apply Hn|]. by apply keeps_refl.
  - eapply runs_weaken; [exact Hc|]. intros r (m' & Hk & ->)%throws_const. cbn [exits]. rewrite Z.eqb_refl. apply runs_nil.
    eexists. split_and!; [done| |].
    + eapply keeps_trans; [by apply Hn|]. by apply keeps_refl.
    + unfold leave, pushed_bool. by destruct b0.
  - eapply runs_weaken; [exact Hc|]. by intros r <-.
Qed.
End Variables.

(** * Emission of variables *)

Section EmitVariables.
Context {T : Type} {ST : SymbolTable T} {STL : SymbolTableLaws T}.
Context (strings : StringContext) (literals : list (list Z)).
Notation emits := (emits (T := T) strings literals).

Lemma emits_set_var H n v k (block : M T code) P :
  var_kind v.(Var.ty) = Ret k -> emits H n block P ->
  emits H n (set_var v block) (fun c => exists d, c = set_var_code k v d /\ P d).
Proof.
  intros Hk Hb. unfold set_var. eapply emits_bind; [by apply (emits_lift _ _ _ _ _ (eq k) k)|]. intros ?.
  eapply emits_bind; [exact Hb|]. intros d. apply emits_ret. intros HP <-. by exists d.
Qed.

Lemma emits_load_var H n v k :
  var_kind v.(Var.ty) = Ret k -> emits H n (load_var v) (eq (load_code H k v)).
Proof.
  intros Hk. unfold load_var. eapply emits_bind; [apply emits_throw|]. intros ?.
  eapply emits_bind; [by apply (emits_lift _ _ _ _ _ (eq k) k)|]. intros ?. apply emits_ret. by intros <- ->.
Qed.

Lemma emits_incr_var H n v : v.(Var.ty) = Ty.Integer -> emits H n (incr_var v) (eq (incr_code H v)).
Proof.
  intros Hv. unfold incr_var. rewrite bool_decide_eq_true_2 by done.
  assert (Hk : var_kind v.(Var.ty) = Ret Mem_I64) by by rewrite Hv.
  eapply emits_weaken; [eapply (emits_set_var H n v Mem_I64)|]; [done| |].
  - eapply (emits_bind _ _ _ _ _ _ _ (eq (load_code H Mem_I64 v ++ [i64_const 1; Binop I64Add]))); [by apply emits_load_var|].
    intros c. apply emits_ret. by intros <-.
  - by intros c (d & -> & <-).
Qed.
End EmitVariables.
