(* ===== verification/EmitNodes.v ===== *)
(** What the code emitted for each kind of expression without variables of its
    own does. *)

From Stdlib Require Import SpecFloat.
From stdpp Require Import gmap strings.
From S2P Require Import Prelude.
From S2P Require Import StringPool.
From S2P Require Import Matches.
From S2P Require Import Tracker.
From S2P Require Import Float64.
From S2P Require Import Types.
From S2P Require Import IR.
From S2P Require Import Builtins.
From S2P Require Import Eval.
From S2P Require Import EvalTypes.
From S2P Require Import Wasm.
From S2P Require Import RuntimeString.
From S2P Require Import Host.
From S2P Require Import Emit.
From S2P Require Import EmitExpr.
From S2P Require Import WasmProps.
From S2P Require Import EmitRel.
From S2P Require Import EmitOps.
#[local] Open Scope Z_scope.

(** The operation on strings of an operator. *)
Definition str_op `{ByteStrings} (e : Expr.t) : list Z -> list Z -> bool :=
  match e with
  | Expr.Contains _ _ => contains_str
  | Expr.IContains _ _ => ignoring_case contains_ascii_case_insensitive contains_str
  | Expr.StartsWith _ _ => starts_with_str
  | Expr.IStartsWith _ _ => ignoring_case starts_with_ascii_case_insensitive starts_with_str
  | Expr.EndsWith _ _ => ends_with_str
  | Expr.IEndsWith _ _ => ignoring_case ends_with_ascii_case_insensitive ends_with_str
  | Expr.IEquals _ _ => ignoring_case eq_ignore_ascii_case Eval.str_eq
  | _ => fun _ _ => false
  end.

(** The functions of the host work on the scan of the reference semantics: the
    identifiers of patterns are below [num_ids], and the counts, offsets and
    lengths of matches are integers of 64 bits. *)
Record scan_ok `{ByteStrings} (h : HostContext) (s : Scanned) (num_ids : Z) : Prop := {
  so_filesize : h.(h_filesize) = s.(sc_filesize) /\ in_i64 s.(sc_filesize);
  so_data : h.(h_strings).(ctx_scanned_data) = Some s.(sc_data) /\ Forall is_u8 s.(sc_data);
  so_patterns : Forall (fun id => 0 <= id < num_ids) s.(sc_patterns);
  so_ids : 0 <= num_ids <= i32_MAX;
  so_base : VARS_STACK_END <= h.(h_bitmap_base) /\ h.(h_bitmap_base) + num_ids / 8 < 2 ^ 32;
  so_counts : forall id lo hi, in_i64 (pat_matches s.(sc_matches) id) /\ in_i64 (pat_matches_in s.(sc_matches) id lo hi);
  so_nth : forall id i z, pat_offset s.(sc_matches) id i = Some z \/ pat_length s.(sc_matches) id i = Some z -> in_i64 z;
  so_str : forall e x y, s.(sc_str) e x y = str_op e x y;
}.

Section Nodes.
Context {T : Type} {ST : SymbolTable T} {STL : SymbolTableLaws T} {BS : ByteStrings}.
Context (ir : IR) (objects : Objects) (h : HostContext) (s : Scanned) (num_ids : Z) (literals : list (list Z)).
Notation strings := h.(h_strings).
Notation rt := (host_runtime h).
Notation patterns := s.(sc_patterns).
Notation state_ok := (state_ok h s num_ids).
Notation emits := (emits (T := T) strings literals).
Notation pushed := (pushed strings).
Hypothesis Hscan : scan_ok h s num_ids.

Lemma state_flags U g P en m : state_ok U g P en m -> has_flags m.
Proof. by intros [[_ _ _ Hf] _ _ _]. Qed.

Lemma base_ok : VARS_STACK_END <= h.(h_bitmap_base).
Proof. by destruct Hscan as [_ _ _ _ [? _] _ _ _]. Qed.

Lemma state_next U g P en m m' : state_ok U g P en m -> keeps U m m' -> state_ok U g P en m'.
Proof. apply state_keeps, base_ok. Qed.

(** What [e] emits, for the variables [U] in use, the types [g] of those of the
    environment and those [P] that hold patterns: code that gives the outcome
    in every state. The postcondition is about the stack before, the value and
    the machine after. *)
Definition compiled {A} (U : gset Z) (g : gmap Z Ty.t) (P : gset Z) (e : M T code) (o : env -> outcome A)
    (R : list wval -> A -> machine -> Prop) : Prop :=
  forall H n, H.1 < n -> handler_ok rt H ->
  emits H n e (fun c => forall en m, state_ok U g P en m -> does rt H U c m (o en) (R m.(stack))).

Section Operators.
Context (ev : env -> Z -> outcome value) (em : Z -> M T code).
Context (U : gset Z) (g : gmap Z Ty.t) (P : gset Z).
Notation compiled := (compiled U g P).
Notation ty_at := (ty_at ir).

Definition compiles (id : Z) : Prop :=
  is_Some (get ir.(nodes) id) /\ compiled (em id) (fun en => ev en id) (pushed (ty_at id)).

Lemma compiled_weaken {A} e (o : env -> outcome A) (R R' : list wval -> A -> machine -> Prop) :
  compiled e o R -> (forall st en a m, o en = Def a -> R st a m -> R' st a m) -> compiled e o R'.
Proof.
  intros He HR H n Hn Hh. eapply emits_weaken; [by apply He|]. intros c Hc en m Hm. eapply does_weaken; [by apply Hc|].
  intros a m' Ha _. by apply HR with en.
Qed.

Lemma compiled_ext {A} e (o o' : env -> outcome A) R : compiled e o R -> (forall en, o en = o' en) -> compiled e o' R.
Proof. intros He HR H n Hn Hh. eapply emits_weaken; [by apply He|]. intros c Hc en m Hm. rewrite <- HR. by apply Hc. Qed.

(** Code with nothing to emit before. *)
Lemma compiled_code {A} c (o : env -> outcome A) R :
  (forall H en m, handler_ok rt H -> state_ok U g P en m -> does rt H U c m (o en) (R m.(stack))) -> compiled (mret c) o R.
Proof. intros Hc H n Hn Hh. apply emits_ret. intros en m Hm. by apply Hc. Qed.

(** One piece of code after another, with the first value under the second one. *)
Lemma compiled_seq {A B} e1 e2 (o1 : env -> outcome A) (o2 : env -> A -> outcome B) R1 R2 :
  compiled e1 o1 R1 ->
  (forall H n, H.1 < n -> handler_ok rt H -> emits H n e2 (fun c => forall en m1 m a,
     state_ok U g P en m -> o1 en = Def a -> R1 m1.(stack) a m -> does rt H U c m (o2 en a) (R2 m1.(stack)))) ->
  compiled (c ← e1; d ← e2; mret (c ++ d)) (fun en => a ← o1 en; o2 en a) R2.
Proof.
  intros H1 H2 H n Hn Hh. eapply emits_bind; [by apply H1|]. intros c. eapply emits_bind; [by apply H2|]. intros d.
  apply emits_ret. intros Hd Hc en m Hm. eapply does_bind; [by apply Hc|]. intros a m' Ha Hk HR.
  apply Hd; [by eapply state_next|done|done].
Qed.

(** Instructions after a piece of code. *)
Lemma compiled_then {A B} e d (o : env -> outcome A) (f : A -> outcome B) R R' :
  compiled e o R ->
  (forall H U st a m, handler_ok rt H -> has_flags m -> R st a m -> does rt H U d m (f a) (R' st)) ->
  compiled (c ← e; mret (c ++ d)) (fun en => a ← o en; f a) R'.
Proof.
  intros H1 H2 H n Hn Hh. eapply emits_bind; [by apply H1|]. intros c. apply emits_ret. intros Hc en m Hm.
  eapply does_bind; [by apply Hc|]. intros a m' Ha Hk HR. apply H2; [done| |done]. eapply state_flags. by eapply state_next.
Qed.

(** Two values on the stack. *)
Definition pushed2 {A B} (R1 : list wval -> A -> machine -> Prop) (R2 : list wval -> B -> machine -> Prop)
    (st : list wval) (ab : A * B) (m : machine) : Prop :=
  exists m1, R1 st ab.1 m1 /\ R2 m1.(stack) ab.2 m.

Lemma compiled_pair {A B} e1 e2 (o1 : env -> outcome A) (o2 : env -> outcome B) R1 R2 :
  compiled e1 o1 R1 -> compiled e2 o2 R2 ->
  compiled (c ← e1; d ← e2; mret (c ++ d)) (fun en => a ← o1 en; b ← o2 en; Def (a, b)) (pushed2 R1 R2).
Proof.
  intros H1 H2. eapply compiled_seq; [exact H1|]. intros H n Hn Hh. eapply emits_weaken; [by apply H2|].
  intros c Hc en m1 m a Hm Ha HR. rewrite <- (app_nil_r c). eapply does_bind; [by apply Hc|].
  intros b m' _ _ Hb. apply does_nil. by exists m.
Qed.

Lemma get_pure H n id e : get ir.(nodes) id = Some e -> emits_pure strings literals H n (get_expr (T := T) ir id) (eq e) (fun _ => True).
Proof. intros He. eapply pure_lift; [|done|done]. unfold ir_get. by rewrite He. Qed.

Lemma ty_pure H n id : is_Some (get ir.(nodes) id) -> emits_pure strings literals H n (ty_of_expr (T := T) ir id) (eq (ty_at id)) (fun _ => True).
Proof.
  intros [e He]. unfold ty_of_expr. eapply pure_bind; [by apply get_pure|]. intros ? <-. apply pure_ret; [|done].
  unfold EvalTypes.ty_at. by rewrite He.
Qed.

(** The type of an expression. *)
Lemma emits_ty {A} H n id (k : Ty.t -> M T A) Q :
  is_Some (get ir.(nodes) id) -> emits H n (k (ty_at id)) Q -> emits H n (ty_of_expr ir id ≫= k) Q.
Proof.
  intros Hid Hk. eapply emits_bind_pure; [by apply ty_pure|]. intros ? <-. eapply emits_weaken; [exact Hk|]. done.
Qed.

(** ** Conditions *)

Lemma str_len_zero (x : list Z) : negb (len x =? 0) = negb (bool_decide (x = [])).
Proof. destruct x; [done|]. rewrite len_cons. pose proof (len_nonneg x). by destruct (1 + len x =? 0) eqn:E; bools; [lia|]. Qed.

Definition bool_code (t : Ty.t) : code :=
  match t with
  | Ty.Bool => []
  | Ty.Integer => [i64_const 0; Binop I64Ne]
  | Ty.Float => [f64_const f64_zero; Binop F64Ne]
  | _ => [Call (Host StrLen); i64_const 0; Binop I64Ne]
  end.

Lemma does_bool H V t st v m : castable t = true -> pushed t st v m -> does rt H V (bool_code t) m (to_bool v) (pushed_bool st).
Proof.
  intros Ht (w & Hs & Hr). destruct t; try done; destruct v as [z|f|b|x|]; try done; destruct w as [y|y|y]; try done; cbn [bool_code to_bool]; apply does_ret.
  - destruct Hr as [-> _]. open_machine m Hs. do 2 wstep. by run_next.
  - cbn in Hr. subst y. open_machine m Hs. do 2 wstep. by run_next.
  - cbn in Hr. subst y. open_machine m Hs. by run_next.
  - destruct Hr as ((r & Hf & Hb) & _). open_machine m Hs. eapply run_call.
    { cbn. unfold of_res. rewrite Hf. cbn. unfold str_len. rewrite Hb. cbn. reflexivity. }
    cbn [set_stack]. wsimpl. do 2 wstep. run_next. unfold pushed_bool. cbn [stack]. by rewrite str_len_zero.
Qed.

Lemma bool_compiled id :
  compiles id -> castable (ty_at id) = true -> compiled (emit_bool_expr ir em id) (fun en => eval_bool ev en id) pushed_bool.
Proof.
  intros [Hid Hc] Ht H n Hn Hh. unfold emit_bool_expr, eval_bool. eapply emits_bind; [by apply Hc|]. intros c.
  apply emits_ty; [done|].
  cut (emits H n (mret (c ++ bool_code (ty_at id))) (fun c' =>
    (forall en m, state_ok U g P en m -> does rt H U c m (ev en id) (pushed (ty_at id) m.(stack))) ->
    forall en m, state_ok U g P en m -> does rt H U c' m (v ← ev en id; to_bool v) (pushed_bool m.(stack)))).
  { destruct (ty_at id); try done; cbn [bool_code]; by rewrite ?app_nil_r. }
  apply emits_ret. intros Hcs en m Hm. eapply does_bind; [by apply Hcs|]. intros v m' _ _ Hv. by apply (does_bool _ _ (ty_at id)).
Qed.

(** ** Two operands *)

(** A value after the conversion of the operands to a common type. *)
Definition converted (t t' : Ty.t) (v : value) (w : wval) : Prop :=
  match t, t', v, w with
  | Ty.Bool, _, VBool b, VI64 z => z = b2i b
  | Ty.Integer, Ty.Float, VInt z, VF64 f => f = f64_of_i64 z
  | Ty.Bool, _, _, _ | Ty.Integer, Ty.Float, _, _ => False
  | _, _, _, _ => rel strings t v w
  end.

Definition float_with (t other : Ty.t) : bool := bool_decide (t = Ty.Integer /\ other = Ty.Float).
Definition left_ty (l r : Ty.t) : Ty.t := if float_with l r then Ty.Float else l.
Definition right_ty (l r : Ty.t) : Ty.t := if bool_decide (left_ty l r = Ty.Float /\ r = Ty.Integer) then Ty.Float else r.

Definition conversion (t t' : Ty.t) : code :=
  (if bool_decide (t <> t') then [Unop F64ConvertSI64] else []) ++ (if bool_decide (t' = Ty.Bool) then [Unop I64ExtendUI32] else []).

Lemma does_conversion H V t t' st v m :
  t' = t \/ (t = Ty.Integer /\ t' = Ty.Float) -> pushed t st v m ->
  does rt H V (conversion t t') m (Def v) (fun v m' => exists w, m'.(stack) = w :: st /\ converted t t' v w).
Proof.
  intros Ht (w & Hs & Hr). unfold conversion. apply does_ret. destruct Ht as [->|[-> ->]].
  - rewrite bool_decide_eq_false_2 by (intros Hne; by apply Hne). cbn [app]. case_bool_decide as E.
    + subst. destruct v, w; try done. cbn in Hr. subst. open_machine m Hs. wstep. run_next. by eexists.
    + run_next. exists w. split; [done|]. by destruct t, v, w.
  - rewrite bool_decide_eq_true_2, bool_decide_eq_false_2 by done. destruct v, w; try done. destruct Hr as [-> _].
    open_machine m Hs. cbn [app]. wstep. run_next. by eexists.
Qed.

Definition converted2 (l r : Ty.t) (st : list wval) (ab : value * value) (m : machine) : Prop :=
  exists wa wb, m.(stack) = wb :: wa :: st /\ converted l (left_ty l r) ab.1 wa /\ converted r (right_ty l r) ab.2 wb.

Lemma operands_emitted H n lhs rhs :
  compiles lhs -> compiles rhs -> H.1 < n -> handler_ok rt H ->
  emits_pure strings literals H n (emit_operands ir em lhs rhs)
    (fun r => r.1.2 = left_ty (ty_at lhs) (ty_at rhs) /\ r.2 = right_ty (ty_at lhs) (ty_at rhs))
    (fun r => forall en m, state_ok U g P en m ->
       does rt H U r.1.1 m (a ← ev en lhs; b ← ev en rhs; Def (a, b)) (converted2 (ty_at lhs) (ty_at rhs) m.(stack))).
Proof.
  intros [Il Hl] [Ir Hr] Hn Hh. unfold emit_operands.
  eapply pure_bind; [by apply emits_as_pure, Hl|]. intros cl _.
  eapply pure_bind; [by apply ty_pure|]. intros ? <-. eapply pure_bind; [by apply ty_pure|]. intros ? <-.
  eapply pure_bind; [by apply emits_as_pure, Hr|]. intros cr _.
  set (l := ty_at lhs). set (r := ty_at rhs). apply pure_ret; [done|]. intros Hcr _ _ Hcl en m Hm. cbn [fst].
  match goal with |- does _ _ _ ?c _ _ _ =>
    replace c with (cl ++ conversion l (left_ty l r) ++ cr ++ conversion r (right_ty l r)) end.
  2: { unfold conversion, right_ty, left_ty, float_with. rewrite !app_assoc. destruct l, r; reflexivity. }
  assert (Hlt : left_ty l r = l \/ l = Ty.Integer /\ left_ty l r = Ty.Float).
  { unfold left_ty, float_with. case_bool_decide as E; [right; by destruct E|by left]. }
  assert (Hrt : right_ty l r = r \/ r = Ty.Integer /\ right_ty l r = Ty.Float).
  { unfold right_ty. case_bool_decide as E; [right; by destruct E|by left]. }
  eapply does_bind; [by apply Hcl|]. intros a m1 _ K1 Ha.
  change (b ← ev en rhs; Def (a, b)) with (a ← Def a; b ← ev en rhs; Def (a, b)).
  eapply does_bind; [by apply does_conversion|]. intros a' m2 [= <-] K2 (wa & Sa & Ca).
  eapply does_bind. { apply Hcr. eapply state_next; [|exact K2]. by eapply state_next. }
  intros b m3 _ K3 Hb. rewrite Sa in Hb. change (Def (a, b)) with (b ← Def b; Def (a, b)).
  rewrite <- (app_nil_r (conversion _ _)). eapply does_bind; [by apply does_conversion|].
  intros b' m4 [= <-] K4 (wb & Sb & Cb). apply does_nil. by exists wa, wb.
Qed.

(** Compute the common types of two types. *)
Ltac conv_tys :=
  repeat match goal with
  | |- context [left_ty ?a ?b] => let t := eval vm_compute in (left_ty a b) in change (left_ty a b) with t in *
  | |- context [right_ty ?a ?b] => let t := eval vm_compute in (right_ty a b) in change (right_ty a b) with t in *
  end.

(** ** Comparisons *)

(** The instructions of a comparison. *)
Record implements (c : comparison) (int_op float_op : binop) (str_fn : export) : Prop := {
  im_int : forall x y, i64_op int_op x y = Value (i32_bool (c.(cmp_int) x y));
  im_float : forall x y, f64_op float_op x y = Value (i32_bool (c.(cmp_float) x y));
  im_str : forall m, host_call h str_fn m = str_call h (fun ctx => str_compare_with ctx c.(cmp_str)) m;
}.

Lemma bind_pair {A} (x y : outcome value) (f : value -> value -> outcome A) :
  (a ← x; b ← y; f a b) = ('(a, b) ← (a ← x; b ← y; Def (a, b)); f a b).
Proof. destruct x; cbn; try done. by destruct y. Qed.

Lemma run_str_call f op x y w1 w2 st m c Q :
  (forall m, host_call h f m = str_call h (fun ctx => str_compare_with ctx op) m) ->
  m.(stack) = VI64 w2 :: VI64 w1 :: st -> str_at strings w1 x -> str_at strings w2 y ->
  runs rt c (set_stack (i32_bool (op x y) :: st) m) Q -> runs rt (Call (Host f) :: c) m Q.
Proof.
  intros Hf Hs (r1 & F1 & B1) (r2 & F2 & B2) HQ. eapply run_call; [|exact HQ]. cbn [rt_call host_runtime]. rewrite Hf.
  unfold str_call. rewrite Hs. unfold of_res, str_compare_with. rewrite F1. cbn. rewrite F2. cbn. rewrite B1. cbn. by rewrite B2.
Qed.

Lemma does_compare c int_op float_op str_fn H V l r st a b m :
  implements c int_op float_op str_fn -> comparable l r = true -> converted2 l r st (a, b) m ->
  match left_ty l r, right_ty l r with
  | (Ty.Integer | Ty.Bool), (Ty.Integer | Ty.Bool) => does rt H V [Binop int_op] m (compare c a b) (pushed Ty.Bool st)
  | Ty.Float, Ty.Float => does rt H V [Binop float_op] m (compare c a b) (pushed Ty.Bool st)
  | Ty.String, Ty.String => does rt H V [Call (Host str_fn)] m (compare c a b) (pushed Ty.Bool st)
  | _, _ => False
  end.
Proof.
  intros [Hi Hf Hs] Hc (wa & wb & Hst & Ha & Hb). cbn [fst snd] in Ha, Hb.
  unfold converted2 in *. destruct l, r; try done; conv_tys; destruct a, wa; try done; destruct b, wb; try done; cbn in Ha, Hb; destruct_and?; subst; open_machine m Hst; cbn [compare promote as_int to_float mbind outcome_bind].
  all: try (apply does_ret; eapply run_binop; [reflexivity|cbn; first [apply Hi|apply Hf]|]; run_next; by eexists).
  apply does_ret. eapply run_str_call; [exact Hs|reflexivity|done..|]. run_next. by eexists.
Qed.

Lemma comparison_compiled c int_op float_op str_fn lhs rhs :
  implements c int_op float_op str_fn -> compiles lhs -> compiles rhs -> comparable (ty_at lhs) (ty_at rhs) = true ->
  compiled (emit_comparison_op ir em lhs rhs int_op float_op str_fn) (fun en => eval_compare ev c en lhs rhs) (pushed Ty.Bool).
Proof.
  intros Hc Hl Hr Ht H n Hn Hh. unfold emit_comparison_op, eval_compare.
  eapply emits_bind_pure; [by apply operands_emitted|]. intros [[cs lt] rt'] [E1 E2]. cbn [fst snd] in *. subst.
  assert (Hd : forall d, (forall st a b m, converted2 (ty_at lhs) (ty_at rhs) st (a, b) m ->
      does rt H U d m (compare c a b) (pushed Ty.Bool st)) ->
    emits H n (mret (cs ++ d)) (fun c' => (forall en m, state_ok U g P en m -> does rt H U cs m (a ← ev en lhs; b ← ev en rhs; Def (a, b))
  (converted2 (ty_at lhs) (ty_at rhs) m.(stack))) ->
      forall en m, state_ok U g P en m -> does rt H U c' m (a ← ev en lhs; b ← ev en rhs; compare c a b) (pushed Ty.Bool m.(stack)))).
  { intros d Hd. apply emits_ret. intros Hcs en m Hm. rewrite (bind_pair (ev en lhs) (ev en rhs)).
    eapply does_bind; [by apply Hcs|]. intros [a b] m' _ _ Hab. by apply Hd. }
  pose proof (fun st a b m => does_compare c int_op float_op str_fn H U (ty_at lhs) (ty_at rhs) st a b m Hc Ht) as Hx.
  destruct (ty_at lhs), (ty_at rhs); try done; conv_tys; exact (Hd _ Hx).
Qed.

(** ** Operators on integers *)

Definition two_ints (st : list wval) (ab : Z * Z) (m : machine) : Prop :=
  m.(stack) = VI64 ab.2 :: VI64 ab.1 :: st /\ in_i64 ab.1 /\ in_i64 ab.2.

Lemma int_operands_compiled lhs rhs :
  compiles lhs -> compiles rhs -> ty_at lhs = Ty.Integer -> ty_at rhs = Ty.Integer ->
  compiled (emit_int_operands ir em lhs rhs) (fun en => a ← eval_int ev en lhs; b ← eval_int ev en rhs; Def (a, b)) two_ints.
Proof.
  intros Hl Hr Tl Tr H n Hn Hh. unfold emit_int_operands. eapply emits_bind_pure; [by apply operands_emitted|].
  intros [[cs lt] rt'] [E1 E2]. cbn [fst snd] in *. rewrite Tl, Tr in *. conv_tys. vm_compute in E1, E2. subst. apply emits_ret.
  intros Hc en m Hm. specialize (Hc en m Hm). unfold eval_int.
  destruct (ev en lhs) as [[a|?|?|?|?]| | | |]; try done; destruct (ev en rhs) as [[b|?|?|?|?]| | | |]; try done.
  eapply runs_weaken; [exact Hc|]. intros r (m' & -> & Hk & wa & wb & Hs & Ha & Hb). exists m'. split_and!; [done..|].
  change (left_ty Ty.Integer Ty.Integer) with Ty.Integer in Ha. change (right_ty Ty.Integer Ty.Integer) with Ty.Integer in Hb.
  destruct wa; try done. destruct wb; try done. destruct Ha as [-> Ha], Hb as [-> Hb]. done.
Qed.

Lemma ints_compiled (f : Z -> Z -> Z) d lhs rhs :
  compiles lhs -> compiles rhs -> ty_at lhs = Ty.Integer -> ty_at rhs = Ty.Integer ->
  (forall H V st a b m, two_ints st (a, b) m -> does rt H V d m (Def (VInt (f a b))) (pushed Ty.Integer st)) ->
  compiled (c ← emit_int_operands ir em lhs rhs; mret (c ++ d)) (fun en => eval_ints ev f en lhs rhs) (pushed Ty.Integer).
Proof.
  intros Hl Hr Tl Tr Hd. eapply compiled_ext.
  - eapply (compiled_then (emit_int_operands ir em lhs rhs) d _ (fun ab => Def (VInt (f ab.1 ab.2)))); [by apply int_operands_compiled|].
    intros H V st [a b] m _ _ Hab. by apply Hd.
  - intros en. unfold eval_ints. destruct (eval_int ev en lhs); try done. cbn. by destruct (eval_int ev en rhs).
Qed.

Lemma bitwise_compiled (f : Z -> Z -> Z) op lhs rhs :
  (forall a b, i64_op op a b = Value (VI64 (f a b))) -> (forall a b, in_i64 a -> in_i64 b -> in_i64 (f a b)) ->
  compiles lhs -> compiles rhs -> ty_at lhs = Ty.Integer -> ty_at rhs = Ty.Integer ->
  compiled (emit_bitwise_op ir em lhs rhs op) (fun en => eval_ints ev f en lhs rhs) (pushed Ty.Integer).
Proof.
  intros Hop Hf Hl Hr Tl Tr. apply ints_compiled; [done..|]. intros H V st a b m (Hs & Ha & Hb). apply does_ret.
  open_machine m Hs. eapply run_binop; [reflexivity|cbn; apply Hop|]. run_next. apply pushed_VInt. by split; [|apply Hf].
Qed.

(** Shifts by 64 or more give zero. *)
Lemma shift_compiled (f : Z -> Z -> Z) op lhs rhs :
  (forall a b, i64_op op a b = Value (VI64 (f a b))) -> (forall a b, in_i64 a -> in_i64 (f a b)) ->
  compiles lhs -> compiles rhs -> ty_at lhs = Ty.Integer -> ty_at rhs = Ty.Integer ->
  compiled (emit_shift_op ir em lhs rhs op) (fun en => eval_ints ev (fun a b => if b <? 64 then f a b else 0) en lhs rhs) (pushed Ty.Integer).
Proof.
  intros Hop Hf Hl Hr Tl Tr. apply ints_compiled; [done..|]. intros H V st a b m (Hs & Ha & Hb). cbn in Hs, Ha, Hb. apply does_ret.
  open_machine m Hs. do 6 wstep. unfold i32_bool, b2i. destruct (b <? 64); cbn [Z.eqb].
  - do 2 wstep. eapply run_binop; [reflexivity|cbn; apply Hop|]. apply runs_nil. wsimpl. run_next.
    apply pushed_VInt. by split; [|apply Hf].
  - wstep. apply runs_nil. wsimpl. run_next. apply pushed_VInt. by split; [|done].
Qed.

(** ** Operations on strings *)

Lemma string_compiled e f lhs rhs :
  (forall m, host_call h f m = str_call h (fun ctx => str_compare_with ctx (str_op e)) m) ->
  compiles lhs -> compiles rhs -> ty_at lhs = Ty.String -> ty_at rhs = Ty.String ->
  compiled (emit_string_op ir em lhs rhs f) (fun en => eval_str s ev en e lhs rhs) (pushed Ty.Bool).
Proof.
  intros Hf Hl Hr Tl Tr H n Hn Hh. unfold emit_string_op, eval_str. eapply emits_bind_pure; [by apply operands_emitted|].
  intros [[cs lt] rt'] [_ _]. cbn [fst snd]. rewrite Tl, Tr. apply emits_ret. intros Hc en m Hm.
  rewrite (bind_pair (ev en lhs) (ev en rhs)). eapply does_bind; [by apply Hc|].
  intros [a b] m' _ _ (wa & wb & Hs & Ha & Hb). cbn [fst snd] in *. unfold converted in Ha, Hb.
  change (left_ty Ty.String Ty.String) with Ty.String in Ha. change (right_ty Ty.String Ty.String) with Ty.String in Hb.
  destruct a, wa; try done. destruct b, wb; try done. destruct Ha as [Ha _], Hb as [Hb _]. destruct Hscan as [_ _ _ _ _ _ _ Hstr].
  rewrite Hstr. apply does_ret. eapply run_str_call; [exact Hf|exact Hs|done..|]. open_machine m' Hs. run_next. by eexists.
Qed.

(** ** Arithmetic *)

(** The operands after the first one, each one with an operation that leaves a
    new value. *)
Definition folds H op (R : list wval -> value -> machine -> Prop) (id : Z) (c : code) : Prop :=
  forall en st acc m, state_ok U g P en m -> R st acc m -> does rt H U c m (v ← ev en id; op acc v) (R st).

Lemma fold_emitted op (R : list wval -> value -> machine -> Prop) ids f H n :
  Forall (fun id => emits H n (f id) (folds H op R id)) ids ->
  emits H n (emit_each f ids) (fun cs => forall en st acc m, state_ok U g P en m -> R st acc m ->
    does rt H U (concat cs) m (eval_fold ev op en acc ids) (R st)).
Proof.
  intros Hf. eapply emits_weaken; [exact (emits_each _ _ H n f ids _ Hf)|]. clear Hf. cbn. induction 1 as [|id c ids cs Hc _ IH]; intros en st acc m Hm HR.
  { by apply does_nil. }
  cbn [concat eval_fold].
  replace (v ← ev en id; acc ← op acc v; eval_fold ev op en acc ids) with
    (acc ← (v ← ev en id; op acc v); eval_fold ev op en acc ids) by by destruct (ev en id).
  eapply does_bind; [by apply Hc|]. intros acc' m' _ Hk HR'. apply IH; [by eapply state_next|done].
Qed.

(** The operand of an operation with or without floats. *)
Definition numeric_for (is_float : bool) (t : Ty.t) : bool := if is_float then numeric t else ty_is Ty.Integer t.

Definition to_number (is_float : bool) (v : value) : outcome value :=
  if is_float then f ← to_float v; Def (VFloat f) else z ← as_int v; Def (VInt z).

Lemma number_emitted H n is_float id :
  compiles id -> numeric_for is_float (ty_at id) = true -> H.1 < n -> handler_ok rt H ->
  emits H n (emit_number ir em is_float id) (fun c => forall en m, state_ok U g P en m ->
    does rt H U c m (v ← ev en id; to_number is_float v) (pushed (numeric_ty is_float) m.(stack))).
Proof.
  intros [Hid Hc] Ht Hn Hh. unfold emit_number. eapply emits_bind; [by apply Hc|]. intros c. apply emits_ty; [done|].
  apply emits_ret. intros Hcs en m Hm. destruct (_ && _) eqn:E.
  - apply andb_true_iff in E as [-> E%bool_decide_eq_true_1]. rewrite E in Hcs. eapply does_bind; [by apply Hcs|].
    intros v m' _ _ (w & Hs & Hr). destruct v, w; try done. destruct Hr as [-> _]. apply does_ret. open_machine m' Hs. wstep. run_next. by eexists.
  - rewrite <- (app_nil_r c). eapply does_bind; [by apply Hcs|]. intros v m' _ _ (w & Hs & Hr).
    destruct is_float; cbn in Ht, E |- *.
    + destruct (ty_at id); try done. destruct v, w; try done. apply does_nil. by eexists.
    + apply ty_is_eq in Ht. rewrite <- Ht in Hr. destruct v, w; try done. apply does_nil. by eexists.
Qed.

Lemma arith_compiled is_float int_op float_op iop fop ids :
  (forall a b, i64_op iop a b = Value (VI64 (wrap_i64 (int_op a b)))) -> (forall a b, f64_op fop a b = Value (VF64 (float_op a b))) ->
  ids <> [] -> Forall (fun id => compiles id /\ numeric_for is_float (ty_at id) = true) ids ->
  compiled (emit_arithmetic_op ir em ids is_float iop fop) (fun en => eval_arith ev is_float int_op float_op en ids) (pushed (numeric_ty is_float)).
Proof.
  intros Hi Hf Hne Hids H n Hn Hh. destruct ids as [|first ids]; [done|]. inversion Hids as [|? ? [Hc1 Ht1] Hrest]; subst.
  cbn [emit_arithmetic_op]. unfold eval_arith, eval_operands.
  eapply emits_bind; [by apply number_emitted|]. intros c.
  eapply emits_bind; [apply (fold_emitted (arith is_float int_op float_op) (pushed (numeric_ty is_float)) ids)|].
  - eapply Forall_impl; [exact Hrest|]. cbn. intros id [Hc Ht]. eapply emits_bind; [by apply number_emitted|]. intros ci.
    apply emits_ret. intros Hci en st acc m Hm (w & Hs & Hr).
    replace (v ← ev en id; arith is_float int_op float_op acc v) with
      (v ← (v ← ev en id; to_number is_float v); arith is_float int_op float_op acc v).
    2: { destruct (ev en id) as [v| | | |]; try done. cbn. unfold to_number. destruct is_float, v, acc, w; try done. }
    eapply does_bind; [by apply Hci|]. intros v m' _ _ (wv & Hsv & Hrv). rewrite Hs in Hsv. apply does_runs. intros Q Q1 _ _ Hst.
    destruct is_float; destruct acc, w; try done; destruct v, wv; try done; cbn in Hr, Hrv; destruct_and?; subst; open_machine m' Hsv.
    + eapply run_binop; [reflexivity|cbn; apply Hf|]. apply runs_nil. eapply Q1; [reflexivity|by apply keeps_refl|]. by eexists.
    + eapply run_binop; [reflexivity|cbn; apply Hi|]. apply runs_nil. eapply Q1; [reflexivity|by apply keeps_refl|].
      apply pushed_VInt. split; [done|apply wrap_in_i64].
  - intros cs. apply emits_ret. intros Hcs Hc en m Hm.
    fold (to_number is_float). replace (v ← ev en first; v ← to_number is_float v; eval_fold ev (arith is_float int_op float_op) en v ids) with
      (v ← (v ← ev en first; to_number is_float v); eval_fold ev (arith is_float int_op float_op) en v ids) by by destruct (ev en first).
    eapply does_bind; [by apply Hc|]. intros v m' _ Hk Hv. apply Hcs; [|done]. by eapply state_next.
Qed.

(** ** Divisions *)

Definition nonzero_code (H : Z * code) : code := [LocalTee I64TmpA; Unop I64Eqz; IfElse (Some I64) (H.2 ++ [Br H.1]) [LocalGet I64TmpA]].

Lemma emits_nonzero H n : emits H n throw_undef_if_zero (eq (nonzero_code H)).
Proof. unfold throw_undef_if_zero. eapply emits_bind; [apply emits_throw|]. intros ?. apply emits_ret. by intros ->. Qed.

(** The execution of a handler within another instruction. *)
Lemma run_throw H V m m' K :
  handler_ok rt H -> has_flags m' -> keeps V m m' ->
  runs rt (H.2 ++ [Br H.1]) m' (fun r => match r with Next m' => K m' | NoGas => False | r => throws rt H V m r end).
Proof.
  intros Hh Hf Hk. eapply runs_weaken; [by apply (does_throw rt H V m m'), Hh|].
  intros r Hr. destruct r; [by eapply throws_not_next in Hr|done..|by destruct Hr].
Qed.

Lemma does_nonzero H V b st m :
  handler_ok rt H -> has_flags m -> m.(stack) = VI64 b :: st ->
  does rt H V (nonzero_code H) m (if b =? 0 then Undef else Def b) (fun _ m' => m'.(stack) = VI64 b :: st).
Proof.
  intros Hh Hf Hs. open_machine m Hs. unfold nonzero_code. destruct (b =? 0) eqn:E; cbn [does].
  - do 3 wstep. rewrite E. cbn [b2i Z.eqb]. apply run_throw; [done|exact Hf|by apply keeps_refl].
  - do 3 wstep. rewrite E. cbn [b2i Z.eqb]. wstep. apply runs_nil. by run_next.
Qed.

Lemma mod_compiled ids :
  ids <> [] -> Forall (fun id => compiles id /\ ty_at id = Ty.Integer) ids ->
  compiled (emit_mod em ids) (fun en => eval_operands ev mod_op Def en ids) (pushed Ty.Integer).
Proof.
  intros Hne Hids H n Hn Hh. destruct ids as [|first ids]; [done|]. inversion Hids as [|? ? [[I1 Hc1] Ht1] Hrest]; subst.
  cbn [emit_mod]. unfold eval_operands. eapply emits_bind; [by apply Hc1|]. intros c.
  eapply emits_bind; [apply (fold_emitted mod_op (pushed Ty.Integer))|].
  - eapply Forall_impl; [exact Hrest|]. cbn. intros id [[Hid Hc] Ht]. eapply emits_bind; [by apply Hc|]. intros ci.
    eapply emits_bind; [apply emits_nonzero|]. intros ?. apply emits_ret. intros <- Hci en st acc m Hm (w & Hs & Hr).
    eapply does_bind; [by apply Hci|]. intros v m1 _ K1 (wv & Hsv & Hrv). rewrite Ht in Hrv.
    destruct acc, w; try done. destruct v, wv; try done. destruct Hr as [-> Hz], Hrv as [-> Hz0]. rewrite Hs in Hsv.
    replace (mod_op (VInt z) (VInt z1)) with (y ← (if z1 =? 0 then Undef else Def z1); Def (VInt (Z.rem z y))).
    2: { unfold mod_op, rem_int. cbn. by destruct (z1 =? 0). }
    eapply does_bind. { apply does_nonzero; [done| |done]. eapply state_flags. by eapply state_next. }
    intros y m2 Hy K2 Hs2. destruct (z1 =? 0) eqn:E; [done|]. injection Hy as <-. apply does_ret. open_machine m2 Hs2.
    eapply run_binop; [reflexivity|cbn; by rewrite E|]. run_next. apply pushed_VInt. split; [done|]. bools.
    unfold in_i64, i64_MIN, i64_MAX in *. pose proof (Z.rem_bound_abs z z1 E). lia.
  - intros cs. apply emits_ret. intros Hcs Hc en m Hm. rewrite Ht1 in Hc.
    eapply does_bind; [by apply Hc|]. intros v m' _ Hk Hv. cbn. apply Hcs; [|done]. by eapply state_next.
Qed.

Lemma quot_in_i64 a b : in_i64 a -> in_i64 b -> b <> 0 -> ~ (a = i64_MIN /\ b = -1) -> in_i64 (Z.quot a b).
Proof.
  unfold in_i64, i64_MIN, i64_MAX. intros Ha Hb H0 Hm. destruct (decide (b = -1)) as [->|H1].
  - change (-1) with (- (1)). rewrite Z.quot_opp_r by done. rewrite Z.quot_1_r. lia.
  - assert (Hq : Z.abs (Z.quot a b) <= Z.abs a). { rewrite <- Z.quot_abs by done. apply Z.quot_le_upper_bound; nia. }
    destruct (decide (a = -9223372036854775808)) as [->|]; [|lia].
    destruct (decide (b < 0)).
    + assert (Z.abs (Z.quot (-9223372036854775808) b) < 9223372036854775808); [|lia].
      rewrite <- Z.quot_abs by done. apply Z.quot_lt_upper_bound; lia.
    + assert (Z.quot (-9223372036854775808) b <= 0); [|lia]. apply Z.quot_le_upper_bound; lia.
Qed.

Lemma does_div_op H V is_float t acc v st m :
  numeric t = true -> handler_ok rt H -> has_flags m ->
  (exists wv wa, m.(stack) = wv :: wa :: st /\ rel strings t v wv /\
     converted (numeric_ty is_float) (numeric_ty (is_float || ty_is t Ty.Float)) acc wa) ->
  does rt H V
    ((if (is_float || ty_is t Ty.Float) && ty_is t Ty.Integer then [Unop F64ConvertSI64] else []) ++
     (if is_float || ty_is t Ty.Float then [Binop F64Div] else nonzero_code H ++ [Binop I64DivS])) m
    (div_op acc v) (pushed (numeric_ty (is_float || ty_is t Ty.Float)) st).
Proof.
  intros Ht Hh Hf (wv & wa & Hs & Hv & Ha). destruct t; try done.
  - (* an integer *)
    change (ty_is Ty.Integer Ty.Float) with false in *. change (ty_is Ty.Integer Ty.Integer) with true in *. rewrite !orb_false_r in *.
    destruct v, wv; try done. destruct Hv as [-> Hz]. destruct is_float; cbn [andb numeric_ty app] in *.
    + destruct acc, wa; try done. cbn in Ha. subst. open_machine m Hs. apply does_ret. do 2 wstep. run_next. by eexists.
    + destruct acc as [x| | | |], wa; try done. destruct Ha as [-> Hx]. cbn [div_op]. unfold div_int.
      replace (z0 ← _; Def (VInt z0)) with (y ← (if z =? 0 then Undef else Def z);
        if (x =? i64_MIN) && (y =? -1) then Trap else Def (VInt (Z.quot x y))).
      2: { destruct (z =? 0); [done|]. cbn. by destruct (_ && _). }
      eapply does_bind; [by apply does_nonzero|]. intros y m2 Hy K2 Hs2. destruct (z =? 0) eqn:E; [done|]. injection Hy as <-.
      open_machine m2 Hs2. destruct (_ && _) eqn:E2.
      * cbn [does]. eapply run_binop_trap; [reflexivity| |done]. cbn. by rewrite E, E2.
      * apply does_ret. eapply run_binop; [reflexivity| |]. { cbn. by rewrite E, E2. }
        run_next. apply pushed_VInt. split; [done|]. bools. apply quot_in_i64; try done.
        intros [-> ->]. destruct E2; bools; done.
  - (* a float *)
    change (ty_is Ty.Float Ty.Float) with true in *. change (ty_is Ty.Float Ty.Integer) with false in *. rewrite !orb_true_r in *.
    destruct v as [|f| | |], wv; try done. cbn in Hv. subst. cbn [andb numeric_ty app] in *. open_machine m Hs.
    destruct is_float; cbn [numeric_ty] in Ha; destruct acc, wa; try done; cbn in Ha; subst; apply does_ret; wstep; run_next; by eexists.
Qed.

Lemma div_operands_emitted H n ids is_float :
  H.1 < n -> handler_ok rt H -> Forall (fun id => compiles id /\ numeric (ty_at id) = true) ids ->
  emits H n (emit_div_operands ir em is_float ids) (fun c => forall en st acc m, state_ok U g P en m ->
    pushed (numeric_ty is_float) st acc m ->
    does rt H U c m (eval_fold ev div_op en acc ids)
      (pushed (numeric_ty (is_float || existsb (fun id => ty_is (ty_at id) Ty.Float) ids)) st)).
Proof.
  intros Hn Hh Hids. revert is_float. induction Hids as [|id ids [[Hid Hc] Ht] _ IH]; intros is_float; cbn [emit_div_operands].
  { apply emits_ret. intros en st acc m _ Hp. cbn [existsb eval_fold]. rewrite orb_false_r. by apply does_nil. }
  apply emits_ty; [done|]. set (is_float' := is_float || ty_is (ty_at id) Ty.Float).
  change (is_float || bool_decide (ty_at id = Ty.Float)) with is_float'.
  eapply emits_bind; [by apply Hc|]. intros c.
  eapply emits_bind with (P := eq (if is_float' then [Binop F64Div] else nonzero_code H ++ [Binop I64DivS])).
  { destruct is_float'; [by apply emits_ret|]. eapply emits_bind; [apply emits_nonzero|]. intros ?. apply emits_ret. by intros <-. }
  intros op. eapply emits_bind; [apply IH|]. intros rest. apply emits_ret. intros Hrest <- Hcs en st acc m Hm Hacc. cbn [eval_fold existsb].
  rewrite orb_assoc. fold is_float'.
  change (v ← ev en id; acc ← div_op acc v; eval_fold ev div_op en acc ids) with
    (acc ← Def acc; v ← ev en id; acc ← div_op acc v; eval_fold ev div_op en acc ids).
  eapply does_bind with (R := fun acc m' => exists w, m'.(stack) = w :: st /\ converted (numeric_ty is_float) (numeric_ty is_float') acc w).
  { match goal with |- does _ _ _ ?c _ _ _ => replace c with (conversion (numeric_ty is_float) (numeric_ty is_float')) end.
    - apply does_conversion; [|done]. unfold is_float'. destruct is_float; [by left|]. destruct (ty_is _ _); [by right|by left].
    - unfold is_float'. change (bool_decide (ty_at id = Ty.Float)) with (ty_is (ty_at id) Ty.Float).
      destruct is_float, (ty_is (ty_at id) Ty.Float); reflexivity. }
  intros ? m1 [= <-] K1 (wa & Hs1 & Ha). pose proof (state_next _ _ _ _ _ _ Hm K1) as Hm1.
  eapply does_bind; [by apply Hcs|]. intros v m2 _ K2 (wv & Hs2 & Hv). pose proof (state_next _ _ _ _ _ _ Hm1 K2) as Hm2.
  rewrite app_assoc. eapply does_bind.
  { apply (does_div_op H U is_float (ty_at id)); [done|done|by eapply state_flags|]. exists wv, wa. rewrite Hs2, Hs1. by split_and!. }
  intros acc' m3 _ K3 Hp. apply Hrest; [by eapply state_next|done].
Qed.

Lemma div_compiled ids :
  ids <> [] -> Forall (fun id => compiles id /\ numeric (ty_at id) = true) ids ->
  compiled (emit_div ir em ids) (fun en => eval_operands ev div_op Def en ids)
    (pushed (numeric_ty (existsb (fun id => ty_is (ty_at id) Ty.Float) ids))).
Proof.
  intros Hne Hids H n Hn Hh. destruct ids as [|first ids]; [done|]. inversion Hids as [|? ? [[I1 Hc1] Ht1] Hrest]; subst.
  cbn [emit_div]. unfold eval_operands. apply emits_ty; [done|]. eapply emits_bind; [by apply Hc1|]. intros c.
  eapply emits_bind; [by apply div_operands_emitted|]. intros cs. apply emits_ret. intros Hcs Hc en m Hm.
  eapply does_bind; [by apply Hc|]. intros v m' _ Hk Hv. cbn [existsb]. change (v ← Def v; eval_fold ev div_op en v ids) with (eval_fold ev div_op en v ids).
  change (bool_decide (ty_at first = Ty.Float)) with (ty_is (ty_at first) Ty.Float) in Hcs. apply Hcs; [by eapply state_next|].
  destruct (ty_at first); done.
Qed.

(** ** Conditions with operands that may be undefined *)

Lemma state_set_stack en st m : state_ok U g P en m -> state_ok U g P en (set_stack st m).
Proof. intros Hm. eapply state_next; [exact Hm|]. by apply keeps_refl. Qed.

Lemma catch_compiled e (o : env -> outcome bool) b0 :
  compiled e o pushed_bool ->
  compiled (catch_undef (Some I32) (fun _ => e) [i32_const (b2i b0)]) (fun en => catch (o en) b0) pushed_bool.
Proof.
  intros He H n Hn Hh. apply emits_catch. intros id Hid. eapply emits_weaken; [apply He; [cbn; lia|apply const_handler_ok]|].
  cbn. intros c Hc en m Hm. apply does_catch_bool. by apply Hc, state_set_stack.
Qed.

Lemma to_value_compiled e (o : env -> outcome bool) :
  compiled e o pushed_bool -> compiled e (fun en => b ← o en; Def (VBool b)) (pushed Ty.Bool).
Proof.
  intros He H n Hn Hh. eapply emits_weaken; [by apply He|]. intros c Hc en m Hm. rewrite <- (app_nil_r c).
  eapply does_bind; [by apply Hc|]. intros b m' _ _ Hb. apply does_nil. by apply pushed_VBool.
Qed.

Lemma defined_compiled id :
  compiles id -> castable (ty_at id) = true ->
  compiled (emit_defined ir em id) (fun en => b ← catch (_ ← eval_bool ev en id; Def true) false; Def (VBool b)) (pushed Ty.Bool).
Proof.
  intros Hc Ht. apply to_value_compiled. unfold emit_defined. change (i32_const 0) with (i32_const (b2i false)).
  apply catch_compiled. eapply compiled_then; [by apply bool_compiled|]. intros H V st b m _ _ Hb. apply does_ret.
  unfold pushed_bool in Hb. open_machine m Hb. do 2 wstep. by run_next.
Qed.

Lemma not_compiled id :
  compiles id -> castable (ty_at id) = true ->
  compiled (emit_not ir em id) (fun en => b ← (b ← eval_bool ev en id; Def (negb b)); Def (VBool b)) (pushed Ty.Bool).
Proof.
  intros Hc Ht. apply to_value_compiled. unfold emit_not.
  eapply compiled_then; [by apply bool_compiled|]. intros H V st b m _ _ Hb. apply does_ret.
  unfold pushed_bool in Hb. open_machine m Hb. wstep. run_next. unfold pushed_bool. by destruct b.
Qed.

(** The code of a block that leaves a boolean at its end, or branches out of
    the block with the boolean [stop]. *)
Definition leaves_bool (id : Z) (stop : bool) (V : gset Z) (c : code) (m : machine) (o : outcome bool) : Prop :=
  match o with
  | Def b => runs rt c m (fun r => exists m', keeps V m m' /\
      ((r = Next m' /\ m'.(stack) = i32_bool b :: m.(stack)) \/
       (r = Jump id m' /\ b = stop /\ exists rest, m'.(stack) = i32_bool stop :: rest)))
  | Trap => runs rt c m (eq Trapped)
  | Undef => False
  | Stuck | NoFuel => True
  end.

Lemma does_block_bool H V id stop c m o :
  leaves_bool id stop V c (set_stack [] m) o -> does rt H V [Block id (Some I32) c] m o (pushed_bool m.(stack)).
Proof.
  destruct o as [b| | | |]; cbn [leaves_bool]; intros Hc; try done; apply runs_block; (eapply runs_weaken; [exact Hc|]).
  - intros r (m' & Hk & Hr). assert (Hx : forall rest, m'.(stack) = i32_bool b :: rest ->
      runs rt [] (leave (Some I32) (stack m) m') (fun r => exists m'', r = Next m'' /\ keeps V m m'' /\ pushed_bool (stack m) b m'')).
    { intros rest Hs. apply runs_nil. eexists. split_and!; [done| |unfold leave, pushed_bool; by rewrite Hs].
      apply (keeps_trans V m m'); [|by apply keeps_refl]. apply (keeps_trans V m (set_stack [] m)); [by apply keeps_refl|done]. }
    destruct Hr as [[-> Hs]|(-> & -> & rest & Hs)]; cbn [exits]; rewrite ?Z.eqb_refl; by eapply Hx.
  - by intros r <-.
Qed.

Definition exit_code (id : Z) (stop : bool) : list instr :=
  [if stop then IfElse None [i32_const 1; Br id] [] else IfElse None [] [i32_const 0; Br id]].

(** An operand decides the result, or the next ones are evaluated. *)
Lemma leaves_seq id stop V c d m o o2 :
  leaves_bool id stop V c m o ->
  (forall m', keeps V m m' -> m'.(stack) = m.(stack) -> leaves_bool id stop V d m' o2) ->
  leaves_bool id stop V (c ++ exit_code id stop ++ d) m (b ← o; if Bool.eqb b stop then Def stop else o2).
Proof.
  intros Hc Hd. destruct o as [b| | | |]; cbn [mbind outcome_bind leaves_bool] in *; try done.
  2: { apply runs_app. eapply runs_weaken; [exact Hc|]. by intros r <-. }
  assert (Hrun : forall Q, (forall m', keeps V m m' -> m'.(stack) = i32_bool b :: m.(stack) -> runs rt (exit_code id stop ++ d) m' Q) ->
    (forall m' rest, keeps V m m' -> b = stop -> m'.(stack) = i32_bool stop :: rest -> Q (Jump id m')) ->
    runs rt (c ++ exit_code id stop ++ d) m Q).
  { intros Q H1 H2. apply runs_app. eapply runs_weaken; [exact Hc|]. intros r (m' & Hk & [[-> Hs]|(-> & Eb & rest & Hs)]); cbn [follow].
    - by apply H1.
    - by eapply H2. }
  destruct (Bool.eqb b stop) eqn:Eb.
  - apply Bool.eqb_prop in Eb as ->. apply Hrun.
    + intros m' Hk Hs. unfold exit_code. open_machine m' Hs.
      destruct stop; cbn [app]; wstep; cbn [b2i Z.eqb]; do 2 wstep.
      all: refine (ex_intro _ _ (conj _ (or_intror (conj eq_refl (conj eq_refl (ex_intro _ _ eq_refl))))));
           eapply keeps_trans; [exact Hk|by apply keeps_refl].
    + intros m' rest Hk _ Hs. exists m'. split; [done|]. right. eauto.
  - assert (Hx : forall m', keeps V m m' -> stack m' = i32_bool b :: stack m -> forall Q, runs rt d (set_stack m.(stack) m') Q -> runs rt (exit_code id stop ++ d) m' Q).
    { intros m' Hk Hs Q HQ. unfold exit_code. open_machine m' Hs.
      destruct b, stop; try done; cbn [app]; wstep; cbn [b2i Z.eqb]; by apply runs_nil. }
    assert (Hd' : forall m', keeps V m m' -> leaves_bool id stop V d (set_stack m.(stack) m') o2).
    { intros m' Hk. apply Hd; [|done]. eapply keeps_trans; [exact Hk|by apply keeps_refl]. }
    assert (Hstop : b <> stop) by (intros ->; by rewrite Bool.eqb_reflx in Eb).
    destruct o2 as [b2| | | |]; cbn [leaves_bool] in *; try done.
    + apply Hrun; [|done]. intros m' Hk Hs. apply Hx; [done..|]. eapply runs_weaken; [by apply Hd'|].
      intros r (m2 & Hk2 & Hr). exists m2. split; [|done]. eapply keeps_trans; [exact Hk|]. eapply keeps_trans; [|exact Hk2]. by apply keeps_refl.
    + by apply (Hd m); [apply keeps_refl|].
    + apply Hrun; [|done]. intros m' Hk Hs. apply Hx; [done..|]. by apply Hd'.
Qed.

(** An operand of a conjunction, whose handler is the block. *)
Lemma leaves_caught id V c m o :
  does rt (id, [i32_const 0]) V c m o (pushed_bool m.(stack)) -> leaves_bool id false V c m (catch o false).
Proof.
  destruct o as [b| | | |]; cbn [catch leaves_bool does]; intros Hd; try done; (eapply runs_weaken; [exact Hd|]).
  - intros r (m' & -> & Hk & Hs). exists m'. split; [done|]. by left.
  - intros r (m' & Hk & ->)%throws_const. exists (push (VI32 0) m'). split; [|right; split_and!; [done..|by eexists]].
    eapply keeps_trans; [exact Hk|]. by apply keeps_refl.
Qed.

Lemma leaves_does H id stop V c m o : o <> Undef -> does rt H V c m o (pushed_bool m.(stack)) -> leaves_bool id stop V c m o.
Proof.
  destruct o as [b| | | |]; cbn [leaves_bool does]; intros Hu Hd; try done. eapply runs_weaken; [exact Hd|].
  intros r (m' & -> & Hk & Hs). exists m'. split; [done|]. by left.
Qed.

Lemma and_operands_emitted id n ids :
  id < n -> ids <> [] -> Forall (fun i => compiles i /\ castable (ty_at i) = true) ids ->
  emits (id, [i32_const 0]) n (emit_and_operands ir em id ids)
    (fun c => forall en m, state_ok U g P en m -> leaves_bool id false U c m (eval_and ev en ids)).
Proof.
  intros Hn Hne Hids. induction Hids as [|i ids [Hc Ht] Hids IH]; [done|]. clear Hne.
  pose proof (bool_compiled i Hc Ht (id, [i32_const 0]) n Hn (const_handler_ok _ _ _)) as Hi. destruct ids as [|i2 ids].
  { eapply emits_weaken; [exact Hi|]. intros c Hcs en m Hm. apply leaves_caught. by apply Hcs. }
  change (emit_and_operands ir em id (i :: i2 :: ids)) with
    (c ← emit_bool_expr ir em i; rest ← emit_and_operands ir em id (i2 :: ids); mret (c ++ exit_code id false ++ rest)).
  eapply emits_bind; [exact Hi|]. intros c. eapply emits_bind; [by apply IH|]. intros rest. apply emits_ret. intros Hrest Hcs en m Hm.
  replace (eval_and ev en (i :: i2 :: ids)) with
    (b ← catch (eval_bool ev en i) false; if Bool.eqb b false then Def false else eval_and ev en (i2 :: ids)).
  2: { cbn [eval_and]. by destruct (catch (eval_bool ev en i) false) as [[]| | | |]. }
  apply leaves_seq; [by apply leaves_caught, Hcs|]. intros m' Hk _. apply Hrest. by eapply state_next.
Qed.

Lemma and_compiled ids :
  ids <> [] -> Forall (fun i => compiles i /\ castable (ty_at i) = true) ids ->
  compiled (with_search_flag (emit_and ir em ids)) (fun en => b ← eval_and ev en ids; Def (VBool b)) (pushed Ty.Bool).
Proof.
  intros Hne Hids. apply to_value_compiled. intros H n Hn Hh. apply emits_with_search. apply emits_catch. intros id Hid.
  eapply emits_weaken; [apply and_operands_emitted; [lia|done..]|]. cbn. intros c Hc en m Hm.
  eapply does_block_bool. by apply Hc, state_set_stack.
Qed.

Lemma catch_defined {A} (o : outcome A) b : catch o b <> Undef.
Proof. by destruct o. Qed.

Lemma or_operands_emitted H id n ids :
  H.1 < n -> handler_ok rt H -> ids <> [] -> Forall (fun i => compiles i /\ castable (ty_at i) = true) ids ->
  emits H n (emit_or_operands ir em id ids)
    (fun c => forall en m, state_ok U g P en m -> leaves_bool id true U c m (eval_or ev en ids)).
Proof.
  intros Hn Hh Hne Hids. induction Hids as [|i ids [Hc Ht] Hids IH]; [done|]. clear Hne.
  pose proof (catch_compiled _ _ false (bool_compiled i Hc Ht) H n Hn Hh) as Hi. destruct ids as [|i2 ids].
  { eapply emits_weaken; [exact Hi|]. cbn. intros c Hcs en m Hm. apply (leaves_does H); [apply catch_defined|]. by apply Hcs. }
  change (emit_or_operands ir em id (i :: i2 :: ids)) with
    (c ← emit_or_operand ir em i; rest ← emit_or_operands ir em id (i2 :: ids); mret (c ++ exit_code id true ++ rest)).
  eapply emits_bind; [exact Hi|]. intros c. eapply emits_bind; [by apply IH|]. intros rest. apply emits_ret. intros Hrest Hcs en m Hm.
  replace (eval_or ev en (i :: i2 :: ids)) with
    (b ← catch (eval_bool ev en i) false; if Bool.eqb b true then Def true else eval_or ev en (i2 :: ids)).
  2: { cbn [eval_or]. by destruct (catch (eval_bool ev en i) false) as [[]| | | |]. }
  apply leaves_seq; [apply (leaves_does H); [apply catch_defined|by apply Hcs]|]. intros m' Hk _. apply Hrest. by eapply state_next.
Qed.

Lemma or_compiled ids :
  ids <> [] -> Forall (fun i => compiles i /\ castable (ty_at i) = true) ids ->
  compiled (with_search_flag (emit_or ir em ids)) (fun en => b ← eval_or ev en ids; Def (VBool b)) (pushed Ty.Bool).
Proof.
  intros Hne Hids. apply to_value_compiled. intros H n Hn Hh. apply emits_with_search. unfold emit_or. apply emits_fresh. intros id Hid.
  eapply emits_bind; [apply (or_operands_emitted _ id); [lia|done..]|]. intros c. apply emits_ret. intros Hc en m Hm.
  eapply does_block_bool. by apply Hc, state_set_stack.
Qed.

(** ** Operators with one operand *)

Lemma int_compiled id : compiles id -> ty_at id = Ty.Integer -> compiled (em id) (fun en => eval_int ev en id) pushed_int.
Proof.
  intros [_ Hc] Ht H n Hn Hh. eapply emits_weaken; [by apply Hc|]. intros c Hcs en m Hm. unfold eval_int.
  rewrite <- (app_nil_r c). eapply does_bind; [by apply Hcs|]. intros v m' _ _ Hv. rewrite Ht in Hv.
  destruct v as [z| | | |]; try done. apply does_nil. by apply (pushed_VInt strings).
Qed.

Lemma minus_compiled (is_float : bool) id :
  compiles id -> ty_at id = numeric_ty is_float ->
  compiled (c ← em id; mret (if is_float then c ++ [Unop F64Neg] else [i64_const 0] ++ c ++ [Binop I64Sub]))
    (fun en => v ← ev en id; if is_float then match v with VFloat f => Def (VFloat (f64_neg f)) | _ => Stuck end
                             else z ← as_int v; Def (VInt (wrap_i64 (0 - z)))) (pushed (numeric_ty is_float)).
Proof.
  intros [_ Hc] Ht. destruct is_float.
  - eapply compiled_then; [exact Hc|]. intros H V st v m _ _ (w & Hs & Hr). rewrite Ht in Hr. destruct v, w; try done. cbn in Hr. subst.
    apply does_ret. open_machine m Hs. wstep. run_next. by eexists.
  - intros H n Hn Hh. eapply emits_bind; [by apply Hc|]. intros c. apply emits_ret. intros Hcs en m Hm.
    change (v ← ev en id; z ← as_int v; Def (VInt (wrap_i64 (0 - z)))) with
      (_ ← Def tt; v ← ev en id; z ← as_int v; Def (VInt (wrap_i64 (0 - z)))).
    eapply does_bind with (R := fun _ m' => m'.(stack) = VI64 0 :: m.(stack)). { apply does_ret. wstep. by run_next. }
    intros _ m1 _ K1 S1. eapply does_bind; [apply Hcs; by eapply state_next|]. intros v m2 _ K2 (w & Hs & Hr). rewrite Ht in Hr.
    destruct v, w; try done. destruct Hr as [-> Hz]. rewrite S1 in Hs. apply does_ret. open_machine m2 Hs. wstep. run_next.
    apply pushed_VInt. split; [done|apply wrap_in_i64].
Qed.

Lemma bitwise_not_compiled id :
  compiles id -> ty_at id = Ty.Integer ->
  compiled (c ← em id; mret (c ++ [i64_const (-1); Binop I64Xor])) (fun en => a ← eval_int ev en id; Def (VInt (Z.lxor a (-1)))) (pushed Ty.Integer).
Proof.
  intros Hc Ht. eapply compiled_then; [by apply int_compiled|]. intros H V st a m _ _ [Hs Ha]. apply does_ret.
  open_machine m Hs. do 2 wstep. run_next. apply pushed_VInt. split; [done|]. by apply in_i64_lxor.
Qed.

Lemma filesize_compiled :
  compiled (throw ← throw_undef;
            mret [GlobalGet Filesize; LocalTee I64TmpA; i64_const 0; Binop I64LtS; IfElse (Some I64) throw [LocalGet I64TmpA]])
    (fun _ => if s.(sc_filesize) <? 0 then Undef else Def (VInt s.(sc_filesize))) (pushed Ty.Integer).
Proof.
  destruct Hscan as [[Ef Hf] _ _ _ _ _ _ _]. intros H n Hn Hh. eapply emits_bind; [apply emits_throw|]. intros t. apply emits_ret. intros -> en m Hm.
  destruct (sc_filesize s <? 0) eqn:E; cbn [does].
  - wstep. cbn [global_value rt_filesize host_runtime]. rewrite Ef. do 4 wstep. rewrite E. cbn [b2i Z.eqb]. apply run_throw; [done| |by apply keeps_refl].
    destruct Hm as [[_ _ _ Hw] _ _ _]. exact Hw.
  - wstep. cbn [global_value rt_filesize host_runtime]. rewrite Ef. do 4 wstep. rewrite E. cbn [b2i Z.eqb]. wstep. apply runs_nil. run_next. apply pushed_VInt. by split.
Qed.

(** ** Patterns *)

Definition pushed_id (st : list wval) (id : Z) (m : machine) : Prop := m.(stack) = VI32 id :: st /\ 0 <= id < num_ids.

Definition pattern_ok (p : Z + Symbol.t) : Prop :=
  match p with
  | inl idx => is_Some (get patterns idx)
  | inr (Symbol.Var v _) => g !! v.(Var.index) = Some Ty.Integer /\ v.(Var.ty) = Ty.Integer /\ v.(Var.index) ∈ P
  | inr _ => False
  end.

Definition eval_pattern (p : Z + Symbol.t) (en : env) : outcome Z :=
  match p with inl idx => Eval.pattern_id s idx | inr symbol => pattern_var symbol en end.

Lemma pattern_compiled p : pattern_ok p -> compiled (emit_pattern patterns p) (eval_pattern p) pushed_id.
Proof.
  destruct Hscan as [_ _ Hpat [_ Hids] _ _ _ _]. destruct p as [idx|[v tv| | |]]; cbn [pattern_ok emit_pattern eval_pattern]; try done.
  - intros [id Hid] H n Hn Hh. unfold EmitExpr.pattern_id. eapply emits_bind; [eapply (emits_lift _ _ _ _ _ (eq id) id); [|done]|].
    { cbn. by rewrite Hid. }
    intros id'. apply emits_ret. intros <- en m Hm. cbn [eval_pattern]. unfold Eval.pattern_id. rewrite Hid. apply does_ret. wstep. run_next.
    pose proof (Hid) as [_ Hl]%get_Some. eapply Forall_lookup_1 in Hpat; [|exact Hl]. split; [|done].
    cbn. unfold wrap_u32. unfold i32_MAX in Hids. by rewrite Z.mod_small by lia.
  - intros (Hg & Ht & HP) H n Hn Hh. unfold emit_pattern_var, pattern_var. eapply emits_bind; [apply (emits_load_var _ _ _ _ _ Mem_I64); by rewrite Ht|].
    intros c. apply emits_ret. intros <- en m Hm. destruct Hm as [Hw Hused Hslot Hpats]. destruct (Hused _ _ Hg) as [HU Hs].
    eapply does_bind.
    { unfold var_value. eapply does_load; [done|done|by rewrite Ht|]. rewrite Ht. by apply Hslot. }
    intros x m' Hx _ Hp. unfold var_value, of_option in Hx. destruct (en !! v.(Var.index)) as [y|] eqn:Ey; [|done]. injection Hx as ->.
    destruct (Hpats _ _ HP Ey) as (id & -> & Hid). rewrite Ht in Hp. destruct Hp as (w & Hsp & Hr). destruct w; try done. destruct Hr as [-> Hz].
    apply does_ret. open_machine m' Hsp. wstep. run_next. split; [|done]. cbn. unfold wrap_u32, i32_MAX in *. by rewrite Z.mod_small by lia.
Qed.

(** The search is done. *)
Lemma does_search H V c st en m :
  c = [] \/ c = [GlobalGet PatternSearchDone; IfElse None [] [Call (Host SearchForPatterns)]] -> state_ok U g P en m -> m.(stack) = st ->
  does rt H V c m (Def tt) (fun _ m' => m'.(stack) = st).
Proof.
  intros Hc [[Hs _ _ _] _ _ _] <-. apply does_ret. destruct Hc as [->| ->]; [by run_next|].
  do 2 wstep. rewrite Hs. cbn [Z.eqb]. apply runs_nil. run_next. by destruct m.
Qed.

(** The bit of a pattern in the bitmap. *)
Lemma run_check_bit en id st m c Q :
  state_ok U g P en m -> 0 <= id < num_ids -> m.(stack) = VI32 id :: st ->
  (forall m', m'.(stack) = i32_bool (match_found s.(sc_matches) id) :: st -> m'.(mem) = m.(mem) -> m'.(search_done) = m.(search_done) ->
     m'.(found) = m.(found) -> runs rt c m' Q) ->
  runs rt (Call CheckForPatternMatch :: c) m Q.
Proof.
  intros [[_ _ Hbits _] _ _ _] Hid Hs HQ. destruct (Hbits id Hid) as (z & Hz & Hr & Hb).
  destruct Hscan as [_ _ _ [_ Hids] [_ Hbase] _ _ _]. unfold i32_MAX in Hids.
  assert (Hbase0 : 0 <= h_bitmap_base h). { pose proof base_ok as Hb0. assert (VARS_STACK_END = 16640) by done. lia. }
  eapply runs_check; [exact Hs|]. unfold gen_check_for_pattern_match. wsimpl. do 5 wstep.
  assert (Ea : wrap_u32 (Z.shiftr id (3 mod 32) + h_bitmap_base h) = h_bitmap_base h + id / 8).
  { rewrite Z.shiftr_div_pow2 by done. change (2 ^ (3 mod 32)) with 8. unfold wrap_u32. rewrite Z.mod_small; [lia|].
    pose proof (Z.div_pos id 8). assert (id / 8 <= num_ids / 8) by (apply Z.div_le_mono; lia). lia. }
  eapply run_load; [reflexivity| |].
  { apply load_u8. change (wrap_u32 3) with 3. cbn. rewrite Ea, Z.add_0_r. exact Hz. }
  wsimpl. do 9 wstep. apply runs_nil. apply HQ; [|done..].
  cbn. unfold leave. cbn. do 2 f_equal. change (wrap_u32 8) with 8. change (wrap_u32 1) with 1. unfold i32_bool. f_equal.
  assert (H8 : 0 <= id mod 8 < 8) by (apply Z.mod_pos_bound; lia). rewrite (Z.mod_small (id mod 8) 32) by lia.
  rewrite Z.shiftl_1_l. assert (Hp : 2 ^ (id mod 8) <= 2 ^ 7) by (apply Z.pow_le_mono_r; lia). pose proof (Z.pow_pos_nonneg 2 (id mod 8)).
  unfold wrap_u32. rewrite (Z.mod_small (2 ^ _)) by lia. rewrite <- Hb.
  apply Z.bits_inj'. intros i Hi. rewrite Z.shiftr_spec, Z.land_spec, Z.pow2_bits_eqb by lia.
  destruct (i =? 0) eqn:E; bools.
  - subst i. rewrite Z.add_0_l, Z.eqb_refl, andb_true_r. by destruct (Z.testbit z (id mod 8)).
  - replace (id mod 8 =? i + id mod 8) with false by (symmetry; apply Z.eqb_neq; lia). rewrite andb_false_r.
    destruct (Z.testbit z (id mod 8)); cbn [b2i]; [|by rewrite Z.bits_0]. by destruct i.
Qed.

Definition anchor_ok (a : MatchAnchor.t) : Prop :=
  match a with
  | MatchAnchor.None => True
  | MatchAnchor.At e => compiles e /\ ty_at e = Ty.Integer
  | MatchAnchor.In r => (compiles r.(lower_bound) /\ ty_at r.(lower_bound) = Ty.Integer) /\ compiles r.(upper_bound) /\ ty_at r.(upper_bound) = Ty.Integer
  end.

Lemma run_host f (m m' : machine) c Q : host_call h f m = Some m' -> runs rt c m' Q -> runs rt (Call (Host f) :: c) m Q.
Proof. intros Hc HQ. by eapply run_call. Qed.

(** What the code of an integer does. *)
Definition does_int H c (id : Z) : Prop :=
  forall en m, state_ok U g P en m -> does rt H U c m (eval_int ev en id) (pushed_int m.(stack)).

Lemma does_two_ints H c d lo hi en m :
  does_int H c lo -> does_int H d hi -> state_ok U g P en m ->
  does rt H U (c ++ d) m (a ← eval_int ev en lo; b ← eval_int ev en hi; Def (a, b)) (two_ints m.(stack)).
Proof.
  intros Hc Hd Hm. eapply does_bind; [by apply Hc|]. intros a m1 _ K1 [S1 H1]. rewrite <- (app_nil_r d).
  eapply does_bind; [apply Hd; by eapply state_next|]. intros b m2 _ K2 [S2 H2]. apply does_nil. rewrite S1 in S2. by split_and!.
Qed.

Lemma bind_two {A} (x y : outcome Z) (f : Z -> Z -> outcome A) :
  (a ← x; b ← y; f a b) = ('(a, b) ← (a ← x; b ← y; Def (a, b)); f a b).
Proof. destruct x; cbn; try done. by destruct y. Qed.

Lemma anchor_emitted H n a :
  anchor_ok a -> H.1 < n -> handler_ok rt H ->
  emits H n (emit_anchor em a) (fun c => forall en st id m, state_ok U g P en m -> pushed_id st id m ->
    does rt H U c m (eval_match s ev en id a) (pushed_bool st)).
Proof.
  intros Ha Hn Hh. destruct a as [|e|[lo hi]]; cbn [anchor_ok emit_anchor eval_match lower_bound upper_bound] in *.
  - apply emits_ret. intros en st id m Hm [Hs Hid]. apply does_ret. eapply run_check_bit; [exact Hm|exact Hid|exact Hs|].
    intros m' Hs' Hmem Hsd Hf. apply runs_nil. exists m'. split_and!; [done|by apply keeps_refl|done].
  - destruct Ha as [Hc Ht]. eapply emits_bind; [by apply int_compiled|]. intros c. apply emits_ret. intros Hcs en st id m Hm [Hs Hid].
    eapply does_bind; [by apply Hcs|]. intros o m' _ Hk [So Ho]. rewrite Hs in So. apply does_ret.
    pose proof (w_found _ _ _ _ (s_world _ _ _ _ _ _ _ _ (state_next _ _ _ _ _ _ Hm Hk))) as Hf.
    rewrite <- Hf. clear Hf. open_machine m' So. eapply run_host; [reflexivity|]. run_next. done.
  - destruct Ha as [[Hl Tl] [Hr Tr]]. eapply emits_bind; [by apply int_compiled|]. intros c.
    eapply emits_bind; [by apply int_compiled|]. intros d. apply emits_ret. intros Hd Hc en st id m Hm [Hs Hid].
    rewrite bind_two, app_assoc. eapply does_bind; [by apply does_two_ints|]. intros [a b] m' _ Hk (So & Ha & Hb). rewrite Hs in So. apply does_ret.
    pose proof (w_found _ _ _ _ (s_world _ _ _ _ _ _ _ _ (state_next _ _ _ _ _ _ Hm Hk))) as Hf.
    rewrite <- Hf. clear Hf. open_machine m' So. eapply run_host; [reflexivity|]. run_next. done.
Qed.

(** The search, the pattern, and what is done with it. *)
Lemma does_after {A} H search c d p (o : Z -> outcome A) R en m :
  search = [] \/ search = [GlobalGet PatternSearchDone; IfElse None [] [Call (Host SearchForPatterns)]] ->
  (forall en m, state_ok U g P en m -> does rt H U c m (eval_pattern p en) (pushed_id m.(stack))) -> state_ok U g P en m ->
  (forall id m', state_ok U g P en m' -> pushed_id m.(stack) id m' -> does rt H U d m' (o id) R) ->
  does rt H U (search ++ c ++ d) m (id ← eval_pattern p en; o id) R.
Proof.
  intros Hs Hc Hm Hd. change (id ← eval_pattern p en; o id) with (_ ← Def tt; id ← eval_pattern p en; o id).
  eapply does_bind with (R := fun _ m' => m'.(stack) = m.(stack)); [by eapply does_search|].
  intros _ m1 _ K1 S1. pose proof (state_next _ _ _ _ _ _ Hm K1) as Hm1.
  eapply does_bind; [by apply Hc|]. intros id m2 _ K2 Hid. rewrite S1 in Hid. apply Hd; [by eapply state_next|done].
Qed.

Lemma after_pattern {A} H n p (rest : M T code) (o : env -> Z -> outcome A) R :
  pattern_ok p -> H.1 < n -> handler_ok rt H ->
  emits H n rest (fun c => forall en st id m, state_ok U g P en m -> pushed_id st id m -> does rt H U c m (o en id) (R st)) ->
  emits H n (search ← emit_lazy_call_to_search_for_patterns; c ← emit_pattern patterns p; d ← rest; mret (search ++ c ++ d))
    (fun c => forall en m, state_ok U g P en m -> does rt H U c m (id ← eval_pattern p en; o en id) (R m.(stack))).
Proof.
  intros Hp Hn Hh Hr. eapply emits_bind; [apply emits_search|]. intros search. eapply emits_bind; [by apply pattern_compiled|]. intros c.
  eapply emits_bind; [exact Hr|]. intros d. apply emits_ret. intros Hd Hc Hs en m Hm. apply does_after; auto.
Qed.

Lemma match_compiled p a :
  pattern_ok p -> anchor_ok a ->
  compiled (emit_pattern_match patterns em p a) (fun en => b ← (id ← eval_pattern p en; eval_match s ev en id a); Def (VBool b)) (pushed Ty.Bool).
Proof.
  intros Hp Ha. apply to_value_compiled. intros H n Hn Hh. eapply emits_weaken.
  { eapply after_pattern; [done..|by apply anchor_emitted]. } done.
Qed.

Definition range_ok (r : option Range) : Prop := match r with Some r => anchor_ok (MatchAnchor.In r) | None => True end.

Lemma count_compiled p r :
  pattern_ok p -> range_ok r ->
  compiled (emit_pattern_count patterns em p r) (fun en => id ← eval_pattern p en; eval_count s ev en id r) (pushed Ty.Integer).
Proof.
  intros Hp Hr H n Hn Hh. destruct Hscan as [_ _ _ _ _ Hcnt _ _]. eapply emits_weaken.
  { eapply after_pattern with (o := fun en id => eval_count s ev en id r) (R := pushed Ty.Integer); [done..|].
    destruct r as [[lo hi]|]; cbn [range_ok anchor_ok eval_count lower_bound upper_bound] in *.
    - destruct Hr as [[Hl Tl] [Hr Tr]]. eapply emits_bind; [by apply int_compiled|]. intros c.
      eapply emits_bind; [by apply int_compiled|]. intros d. apply emits_ret. intros Hd Hc en st id m Hm [Hs Hid].
      rewrite bind_two, app_assoc. eapply does_bind; [by apply does_two_ints|]. intros [a b] m' _ Hk (So & Ha & Hb). rewrite Hs in So. apply does_ret.
      pose proof (w_found _ _ _ _ (s_world _ _ _ _ _ _ _ _ (state_next _ _ _ _ _ _ Hm Hk))) as Hf.
      destruct (Hcnt id a b) as [_ H64]. rewrite <- Hf in H64 |- *. clear Hf. open_machine m' So. eapply run_host; [reflexivity|]. run_next.
      by apply pushed_VInt.
    - apply emits_ret. intros en st id m Hm [Hs Hid]. apply does_ret.
      pose proof (w_found _ _ _ _ (s_world _ _ _ _ _ _ _ _ Hm)) as Hf. destruct (Hcnt id 0 0) as [H64 _]. rewrite <- Hf in H64 |- *. clear Hm Hf.
      open_machine m Hs. eapply run_host; [reflexivity|]. run_next. by apply pushed_VInt. }
  done.
Qed.

(** A call whose result may be undefined. *)
Definition call_code (H : Z * code) (f : export) : code := [Call (Host f); IfElse None (H.2 ++ [Br H.1]) []].

Lemma emits_call H n f : emits H n (emit_call_and_handle_undef f) (eq (call_code H f)).
Proof. unfold emit_call_and_handle_undef. eapply emits_bind; [apply emits_throw|]. intros ?. apply emits_ret. by intros ->. Qed.

Lemma does_call H V f (o : option Z) st m :
  handler_ok rt H -> has_flags m -> host_call h f m = return_option o st m ->
  (forall z, o = Some z -> in_i64 z) ->
  does rt H V (call_code H f) m (of_option (VInt <$> o)) (pushed Ty.Integer st).
Proof.
  intros Hh Hf Hc Ho. unfold call_code. destruct o as [z|]; cbn [fmap option_fmap option_map of_option does].
  - eapply run_host; [exact Hc|]. wsimpl. wstep. cbn [Z.eqb]. apply runs_nil. run_next. apply pushed_VInt. split; [done|auto].
  - eapply run_host; [exact Hc|]. wsimpl. wstep. cbn [Z.eqb]. apply run_throw; [done|exact Hf|by apply keeps_refl].
Qed.

Definition index_ok (i : option Z) : Prop := match i with Some i => compiles i /\ ty_at i = Ty.Integer | None => True end.

Lemma nth_compiled f get_nth p i :
  (forall m st id z, m.(stack) = VI64 z :: VI32 id :: st -> host_call h f m = return_option (get_nth m.(found) id z) st m) ->
  (forall id i z, get_nth s.(sc_matches) id i = Some z -> in_i64 z) ->
  pattern_ok p -> index_ok i ->
  compiled (emit_pattern_nth patterns em f p i) (fun en => id ← eval_pattern p en; eval_nth s ev get_nth en id i) (pushed Ty.Integer).
Proof.
  intros Hf H64 Hp Hi H n Hn Hh. unfold emit_pattern_nth.
  eapply emits_bind; [apply emits_search|]. intros search. eapply emits_bind; [by apply pattern_compiled|]. intros c.
  eapply emits_bind with (P := fun c => forall en m, state_ok U g P en m ->
    does rt H U c m (match i with Some index => eval_int ev en index | None => Def 1 end) (pushed_int m.(stack))).
  { destruct i as [i|]; [destruct Hi; by apply int_compiled|]. apply emits_ret. intros en m Hm. apply does_ret. wstep. run_next. by split. }
  intros ci. eapply emits_bind; [apply emits_call|]. intros d. apply emits_ret. intros <- Hci Hc Hs en m Hm.
  apply does_after; [done..|]. intros id m1 Hm1 [Hs1 Hid]. unfold eval_nth.
  eapply does_bind; [by apply Hci|]. intros z m' _ Hk [So Hz]. rewrite Hs1 in So. pose proof (state_next _ _ _ _ _ _ Hm1 Hk) as Hm'.
  rewrite <- (w_found _ _ _ _ (s_world _ _ _ _ _ _ _ _ Hm')).
  eapply does_call; [done|by eapply state_flags|by apply Hf|]. rewrite (w_found _ _ _ _ (s_world _ _ _ _ _ _ _ _ Hm')). apply H64.
Qed.

(** ** Constants, variables and functions that read integers *)

Definition const_ok (v : TypeValue.t) : Prop :=
  match v with
  | TypeValue.Integer (Value.Const z) _ => in_i64 z
  | TypeValue.Float (Value.Const _) | TypeValue.Bool (Value.Const _) => True
  | TypeValue.String (Value.Const x) _ => x ∈ literals
  | _ => False
  end.

Hypothesis Hliterals : len literals <= u32_MAX.

(** There is room in the pool for the literals of the condition. *)
Lemma pool_room (p : BStringPool T) x : pool_fits literals p -> x ∈ literals -> x ∈ serialize p \/ len (serialize p) < u32_MAX.
Proof.
  intros [[Hn _] Hsub] Hx. destruct (decide (x ∈ serialize p)) as [|Hni]; [by left|]. right.
  assert (Hlen : (length (x :: serialize p) <= length literals)%nat).
  { apply submseteq_length, NoDup_submseteq; [by constructor|]. intros y [->|Hy]%elem_of_cons; auto. }
  unfold len in *. cbn [length] in Hlen. lia.
Qed.

Lemma emits_string H n x :
  x ∈ literals ->
  emits H n (emit_const (T := T) (TypeValue.String (Value.Const x) None)) (fun c => exists w, c = [i64_const w] /\ str_at strings w x /\ in_i64 w).
Proof.
  intros Hx ctx [Hh Hn Hs Hl Hp]. destruct (get_or_intern_spec (lit_pool ctx) x (proj1 Hp) (pool_room _ _ Hp Hx)) as (p & id & E & Hpok & Hg & Hold & Hser).
  exists [i64_const (literal_into_wasm id)], (set_lit_pool p ctx). split_and!.
  - cbn. unfold gets, lift, modify, mbind, M_bind, mbind, res_bind. by rewrite E.
  - split; try done. intros _. split; [done|]. cbn. rewrite Hser. destruct Hp as [_ Hsub]. intros y [Hy|Hy]%elem_of_app; [by apply Hsub|].
    case_bool_decide; [by apply elem_of_nil in Hy|]. by apply list_elem_of_singleton in Hy as ->.
  - intros Hinc. specialize (Hinc id x Hg). eexists. split; [done|].
    assert (Hid : is_u32 id).
    { unfold get_bytes in Hg. rewrite st_get_spec in Hg. apply get_lt in Hg. destruct Hpok as (_ & Hlen & _). unfold is_u32, serialize, u32_MAX in *. lia. }
    destruct (literal_word strings id Hid) as [Hw Hr]. split; [|done]. exists (RuntimeString.Literal id). split; [done|]. cbn. by rewrite Hinc.
Qed.

Lemma const_compiled v : const_ok v -> compiled (emit_const v) (fun _ => const_value v) (pushed (tv_ty v)).
Proof.
  destruct v as [|[b| |]|[f| |]|[z| |] c|[x| |] c| | | | |]; cbn [const_ok]; try done; intros Hv H n Hn Hh; cbn [const_value tv_ty].
  - apply emits_ret. intros en m Hm. apply does_ret. wstep. run_next. apply pushed_VBool. by destruct b.
  - apply emits_ret. intros en m Hm. apply does_ret. wstep. run_next. by eexists.
  - apply emits_ret. intros en m Hm. apply does_ret. wstep. run_next. by apply pushed_VInt.
  - eapply emits_weaken; [by apply (emits_string H n x)|]. cbn. intros c0 (w & -> & Hs & Hw) en m Hm. wstep. run_next. by eexists.
Qed.

Lemma var_compiled v tv :
  castable v.(Var.ty) = true -> g !! v.(Var.index) = Some v.(Var.ty) ->
  compiled (emit_symbol objects (Symbol.Var v tv)) (fun en => var_value v en) (pushed v.(Var.ty)).
Proof.
  intros Ht Hg H n Hn Hh. cbn [emit_symbol]. rewrite bool_decide_eq_false_2 by (intros E; by rewrite E in Ht).
  assert (Hk : exists k, var_kind v.(Var.ty) = Ret k) by (destruct (Var.ty v); try done; by eexists). destruct Hk as [k Hk].
  eapply emits_weaken; [by apply emits_load_var|]. intros c <- en m [_ Hused Hslot _]. destruct (Hused _ _ Hg) as [HU Hi].
  unfold var_value. apply does_load; [done..|]. by apply Hslot.
Qed.

Lemma read_int_range r data offset z :
  Forall is_u8 data -> 0 <= r.(rd_size) <= 4 -> read_int r data offset = Some z -> in_i64 z.
Proof.
  intros Hd Hr. unfold read_int. destruct (offset <? 0) eqn:E; [done|]. unfold get_range.
  destruct (_ && _) eqn:E2; [|done]. intros [= <-]. bools. unfold from_bytes.
  set (bytes := slice data offset (offset + rd_size r)).
  assert (Hb : Forall is_u8 bytes) by by apply Forall_slice.
  assert (Hl : len bytes = rd_size r) by (unfold bytes; rewrite len_slice; lia).
  assert (Hz : 0 <= from_le_bytes (if rd_be r then reverse bytes else bytes) < 256 ^ 4).
  { pose proof (from_le_bytes_bound (if rd_be r then reverse bytes else bytes)) as Hx.
    assert (Hl' : len (if rd_be r then reverse bytes else bytes) = rd_size r) by (destruct (rd_be r); rewrite ?len_rev; exact Hl).
    rewrite Hl' in Hx. destruct Hx as [Hx1 Hx2]. { destruct (rd_be r); [by apply Forall_reverse|done]. }
    split; [done|]. eapply Z.lt_le_trans; [exact Hx2|]. apply Z.pow_le_mono_r; lia. }
  change (256 ^ 4) with 4294967296 in Hz. unfold in_i64, i64_MIN, i64_MAX. destruct (rd_signed r); [|lia].
  unfold wrap_signed. assert (H256 : 1 <= 256 ^ rd_size r <= 256 ^ 4). { split; [apply Z.lt_pred_le, Z.pow_pos_nonneg; lia|apply Z.pow_le_mono_r; lia]. }
  change (256 ^ 4) with 4294967296 in H256. pose proof (Z.mod_pos_bound (from_le_bytes (if rd_be r then reverse bytes else bytes) + 256 ^ rd_size r / 2) (256 ^ rd_size r)).
  assert (0 <= 256 ^ rd_size r / 2 <= 256 ^ rd_size r) by (split; [apply Z.div_pos; lia|apply Z.div_le_upper_bound; lia]). lia.
Qed.

Lemma int_reader_size name r : int_reader name = Some r -> 0 <= r.(rd_size) <= 4.
Proof. unfold int_reader. repeat case_bool_decide; intros [= <-]; cbn; lia. Qed.

Definition reader_code f (id : Z) : M T code :=
  c ← emit_each em (option_list None ++ [id]);
  call ← (if ends_with_u f.(mangled_name) then emit_call_and_handle_undef (Fn f.(mangled_name)) else mret [Call (Host (Fn f.(mangled_name)))]);
  mret (concat c ++ call).

Lemma reader_compiled f r id :
  int_reader (plain_name f) = Some r -> ends_with_u f.(mangled_name) = true -> compiles id -> ty_at id = Ty.Integer ->
  compiled (reader_code f id)
    (fun en => object ← Def None; args ← eval_list ev en [id]; call_function s f object args) (pushed Ty.Integer).
Proof.
  intros Hr Hu [Hid Hc] Ht H n Hn Hh. unfold reader_code. rewrite Hu. cbn [option_list app emit_each].
  destruct Hscan as [_ [Hdata Hbytes] _ _ _ _ _ _].
  eapply emits_bind with (P := fun cs => forall en m, state_ok U g P en m -> does rt H U (concat cs) m (ev en id) (pushed (ty_at id) m.(stack))).
  { eapply emits_bind; [by apply Hc|]. intros c. eapply (emits_bind _ _ _ _ _ _ (eq [])); [by apply emits_ret|]. intros cs. apply emits_ret.
    intros <- Hcs en m Hm. cbn [concat]. rewrite app_nil_r. by apply Hcs. }
  intros cs. eapply emits_bind; [apply emits_call|]. intros d. apply emits_ret. intros <- Hcs en m Hm.
  cbn [mbind outcome_bind eval_list]. replace (args ← (v ← ev en id; Def [v]); call_function s f None args) with (v ← ev en id; call_function s f None [v]) by by destruct (ev en id).
  eapply does_bind; [by apply Hcs|]. intros v m' _ Hk (w & Hs & Hrel). rewrite Ht in Hrel. destruct v as [z| | | |], w; try done. destruct Hrel as [-> Hz].
  unfold call_function. rewrite Hr. replace (of_option (VInt <$> read_int r (sc_data s) z)) with (of_option (VInt <$> read_int r (sc_data s) z)) by done.
  eapply does_call; [done|eapply state_flags; by eapply state_next| |].
  - cbn. unfold plain_name in Hr. rewrite Hr, Hs, Hdata. reflexivity.
  - intros y. apply read_int_range; [done|]. by eapply int_reader_size.
Qed.
End Operators.
End Nodes.
