(* ===== verification/EmitFor.v ===== *)
(** The code of [emit_switch], blocks inside blocks and a table of branches, and
    of [emit_for], the loops of quantifiers. *)

From Stdlib Require Import SpecFloat.
From stdpp Require Import gmap strings.
From S2P Require Import Prelude.
From S2P Require Import StringPool.
From S2P Require Import Float64.
From S2P Require Import Types.
From S2P Require Import IR.
From S2P Require Import Eval.
From S2P Require Import EvalTypes.
From S2P Require Import Wasm.
From S2P Require Import RuntimeString.
From S2P Require Import Host.
From S2P Require Import Emit.
From S2P Require Import EmitExpr.
From S2P Require Import WasmProps.
From S2P Require Import EmitRel.
From S2P Require Import EmitOps.
From S2P Require Import EmitNodes.
#[local] Open Scope Z_scope.

(** * Identifiers of blocks *)

Section Fresh.
Context {T : Type} {ST : SymbolTable T} {STL : SymbolTableLaws T}.
Context (strings : StringContext) (literals : list (list Z)).
Notation emits := (emits (T := T) strings literals).
Notation emits_pure := (emits_pure (T := T) strings literals).

Lemma fresh_ids_eq k (ctx : EmitContext T) :
  fresh_ids k ctx = Ret (seqZ (Emit.next_id ctx) (Z.of_nat k), set_next_id (Emit.next_id ctx + Z.of_nat k) ctx).
Proof.
  revert ctx. induction k as [|k IH]; intros ctx.
  { cbn. by rewrite Z.add_0_r; destruct ctx. }
  cbn [fresh_ids]. unfold fresh, mbind, M_bind, mbind, res_bind. rewrite IH. cbn [mret M_ret set_next_id Emit.next_id].
  rewrite (seqZ_cons _ (Z.of_nat (S k))) by lia. unfold mret, M_ret, set_next_id. cbn [Emit.next_id].
  replace (Z.succ (Emit.next_id ctx)) with (Emit.next_id ctx + 1) by lia. replace (Z.pred (Z.of_nat (S k))) with (Z.of_nat k) by lia.
  do 3 f_equal. lia.
Qed.

Lemma emits_fresh_ids {A} H n k (f : list Z -> M T A) P :
  (forall l n', length l = k -> NoDup l -> Forall (fun i => n <= i < n') l -> n <= n' -> emits H n' (f l) P) -> emits H n (fresh_ids k ≫= f) P.
Proof.
  intros Hf ctx [Hh Hn Hs Hl Hp]. set (l := seqZ (Emit.next_id ctx) (Z.of_nat k)).
  destruct (Hf l (Emit.next_id ctx + Z.of_nat k)) with (ctx := set_next_id (Emit.next_id ctx + Z.of_nat k) ctx) as (a & c & E & [] & HP).
  - unfold l. rewrite length_seqZ. lia.
  - apply NoDup_seqZ.
  - apply Forall_forall. intros i Hi. unfold l in Hi. apply elem_of_seqZ in Hi. lia.
  - lia.
  - by split.
  - exists a, c. split_and!; [unfold mbind, M_bind, mbind, res_bind; by rewrite fresh_ids_eq| |done].
    split; try done. cbn in *. lia.
Qed.

Lemma pure_fresh {A} H n (k : Z -> M T A) F P : (forall id, n <= id -> emits_pure H (id + 1) (k id) F P) -> emits_pure H n (fresh ≫= k) F P.
Proof.
  intros Hk ctx [Hh Hn Hs Hl Hp]. destruct (Hk (Emit.next_id ctx) Hn (set_next_id (Emit.next_id ctx + 1) ctx)) as (a & c & E & [] & HF & HP).
  { by split. }
  exists a, c. split_and!; [done| |done|done]. split; try done. cbn in *. lia.
Qed.

Lemma pure_each {A B} H n (f : A -> M T B) l (F : B -> Prop) (P : A -> B -> Prop) :
  Forall (fun x => emits_pure H n (f x) F (P x)) l ->
  emits_pure H n (emit_each f l) (fun ys => length ys = length l /\ Forall F ys) (Forall2 P l).
Proof.
  induction 1 as [|x l Hx _ IH]; cbn [emit_each]; [by apply pure_ret|].
  eapply pure_bind; [exact Hx|]. intros b Hb. eapply pure_bind; [exact IH|]. intros bs [Hl Hbs].
  apply pure_ret; [cbn; by split; [rewrite Hl|constructor]|]. intros. by constructor.
Qed.

Lemma pure_later {A} H n n' (e : M T A) F P : n <= n' -> emits_pure H n e F P -> emits_pure H n' e F P.
Proof. intros Hn He ctx [? ? ? ? ?]. apply He. split; try done. lia. Qed.
End Fresh.

(** * Results of blocks *)

Section Blocks.
Context (rt : Runtime).

(** A result that leaves a block it does not name. *)
Definition leaves_out (ids : list Z) (r : result) : Prop :=
  match r with Next _ | NoGas => False | Jump id _ => id ∉ ids | Trapped | StuckAt => True end.

Lemma pass_block ids id ty body rest m r :
  id ∈ ids -> leaves_out ids r -> runs rt body (set_stack [] m) (eq r) -> runs rt (Block id ty body :: rest) m (eq r).
Proof.
  intros Hid Hr Hb. apply runs_block. eapply runs_weaken; [exact Hb|]. intros r' <-. destruct r as [|id' m'| | |]; cbn in *; try done.
  destruct (id' =? id) eqn:E; bools; [by subst|done].
Qed.

(** A branch out of a block. *)
Lemma exit_block id body rest m Q :
  runs rt body (set_stack [] m) (eq (Jump id (set_stack [] m))) -> m.(stack) = [] ->
  runs rt rest m Q -> runs rt (Block id None body :: rest) m Q.
Proof.
  intros Hb Hs Hr. apply runs_block. eapply runs_weaken; [exact Hb|]. intros r <-. cbn [exits]. rewrite Z.eqb_refl.
  replace (leave None (stack m) (set_stack [] m)) with m; [done|]. destruct m; cbn in *. by subst.
Qed.

Section Nest.
Context (ty : val_type) (outermost : Z) (ids : list Z) (all : list (Z * code)) (k : Z) (m : machine) (rk : result).
Hypothesis Hids : NoDup ids.
Hypothesis Hstack : m.(stack) = [].

(** The result of the k-th branch, once its block and the switch are left. *)
Hypothesis Hk : exists b c, get all k = Some (b, c) /\ runs rt [Block b (Some ty) c; Br outermost] m (eq rk).
Hypothesis Hout : leaves_out ids rk.

(** The code with the first [j] branches. *)
Definition nested (j : Z) (c : code) : Prop :=
  runs rt c m (eq (if k <? j then rk else Jump (default 0 (get ids k)) m)).

Lemma nest_step j id b c branch :
  0 <= j -> 0 <= k -> get ids j = Some id -> get all j = Some (b, branch) -> nested j c -> k < len ids ->
  nested (j + 1) [Block id None c; Block b (Some ty) branch; Br outermost].
Proof.
  intros Hj H0 Hid Hb Hc Hlt. unfold nested in *. assert (Em : set_stack [] m = m) by (destruct m; cbn in *; by subst).
  assert (Hin : id ∈ ids) by (apply elem_of_get; by exists j). rewrite <- Em in Hc.
  destruct (k <? j) eqn:E1; destruct (k <? j + 1) eqn:E2; bools; try lia.
  - by apply (pass_block ids).
  - assert (k = j) as -> by lia. rewrite Hid in Hc. cbn [default] in Hc. apply exit_block; [by rewrite Em in Hc |- *|done|].
    destruct Hk as (b' & c' & Hg & Hr). rewrite Hb in Hg. by injection Hg as <- <-.
  - eapply (pass_block [id]); [apply list_elem_of_singleton; done| |by rewrite Em in Hc |- *]. cbn.
    destruct (get_is_Some ids k) as [x Hx]; [lia|]. rewrite Hx. cbn. intros ->%list_elem_of_singleton.
    apply get_Some in Hx as [_ Hx]. apply get_Some in Hid as [_ Hid]. pose proof (NoDup_lookup _ _ _ _ Hids Hx Hid). lia.
Qed.

Lemma nest_branches_spec branches : forall j id c ids' id' c',
  0 <= j -> 0 <= k < len ids -> nested j c ->
  get ids j = Some id -> (forall i b, get branches i = Some b -> get all (j + i) = Some b) ->
  length ids' = length branches -> (forall i x, get ids' i = Some x -> get ids (j + 1 + i) = Some x) ->
  nest_branches ty outermost id c branches ids' = (id', c') ->
  nested (j + len branches) c' /\ get ids (j + len branches) = Some id'.
Proof.
  induction branches as [|[b branch] branches IH]; intros j id c ids' id' c' Hj H0 Hc Hid Hall Hlen Hids' E.
  { destruct ids'; [|done]. injection E as <- <-. by rewrite len_nil, Z.add_0_r. }
  destruct ids' as [|x ids']; [done|]. cbn [nest_branches] in E. rewrite len_cons. replace (j + (1 + len branches)) with (j + 1 + len branches) by lia.
  eapply (IH (j + 1)); [lia|done|eapply nest_step; [done|lia|exact Hid| |done|lia]| | | | |exact E].
  - specialize (Hall 0 (b, branch) eq_refl). by rewrite Z.add_0_r in Hall.
  - specialize (Hids' 0 x eq_refl). by rewrite Z.add_0_r in Hids'.
  - intros i b' Hi. replace (j + 1 + i) with (j + (1 + i)) by lia. apply Hall. apply get_Some in Hi as [Hi Hl]. apply get_Some. split; [lia|].
    by replace (Z.to_nat (1 + i)) with (S (Z.to_nat i)) by lia.
  - by injection Hlen.
  - intros i y Hi. replace (j + 1 + 1 + i) with (j + 1 + (1 + i)) by lia. apply Hids'. apply get_Some in Hi as [Hi Hl]. apply get_Some. split; [lia|].
    by replace (Z.to_nat (1 + i)) with (S (Z.to_nat i)) by lia.
Qed.
End Nest.
End Blocks.

(** * The switch *)

Section Switch.
Context {T : Type} {ST : SymbolTable T} {STL : SymbolTableLaws T}.
Context (rt : Runtime) (strings : StringContext) (literals : list (list Z)).
Notation emits := (emits (T := T) strings literals).

(** The code [c] chooses the code [ck] of the k-th item. *)
Definition switches (H : Z * code) (t : Ty.t) (c : code) (k : Z) (ck : code) : Prop :=
  forall V m st (o : outcome value), m.(stack) = VI64 k :: st -> has_flags m ->
    (forall l, does rt H V ck (set_locals l (set_stack [] m)) o (pushed strings t [])) -> does rt H V c m o (pushed strings t st).

(** The innermost block. *)
Lemma nested_table rt' ty ids inner k m rk :
  0 <= k < len ids -> inner ∉ ids -> m.(stack) = [] -> m.(locals) I32Tmp = VI32 k ->
  nested rt' ids k m rk 0 [Block inner ty [LocalGet I32Tmp; BrTable ids inner]; Unreachable].
Proof.
  intros Hk Hi Hs Hl. unfold nested. destruct (k <? 0) eqn:E; bools; [lia|].
  destruct (get_is_Some ids k Hk) as [x Hx]. rewrite Hx. cbn [default]. apply runs_block. wstep.
  rewrite Hl. eapply run_br_table; [reflexivity|]. rewrite Hx. cbn [from_option exits].
  assert (Hne : (x =? inner) = false). { apply Z.eqb_neq. intros ->. apply Hi. apply elem_of_get. by exists k. }
  rewrite Hne. f_equal. destruct m; cbn in *. by subst.
Qed.

Lemma get_app_lt {A} (l l' : list A) i : 0 <= i < len l -> get (l ++ l') i = get l i.
Proof. unfold get, len. intros H. destruct (i <? 0); [done|]. apply lookup_app_l. lia. Qed.

Lemma get_mid {A} (l : list A) x : get (l ++ [x]) (len l) = Some x.
Proof. unfold get, len. destruct (_ <? 0) eqn:E; bools; [lia|]. by rewrite Nat2Z.id, lookup_app_r, Nat.sub_diag by lia. Qed.

(** What the code of a branch with the result [r] gives in its block: a branch
    out of the switch, except for the last one. *)
Definition block_exit (ty : val_type) (b : Z) (K : machine -> result) (r : result) : result :=
  match r with
  | Next m1 => K (leave (Some ty) [] m1)
  | Jump x m' => if x =? b then K (leave (Some ty) [] m') else Jump x m'
  | r => r
  end.

Lemma block_exit_runs ty b c (K : machine -> result) d m r :
  runs rt c m (eq r) -> r <> NoGas -> m.(stack) = [] -> (forall m', runs rt d m' (eq (K m'))) ->
  runs rt (Block b (Some ty) c :: d) m (eq (block_exit ty b K r)).
Proof.
  intros Hc Hr Hs Hd. apply runs_block. replace (set_stack [] m) with m by (destruct m; cbn in *; by subst).
  eapply runs_weaken; [exact Hc|]. intros ? <-. rewrite Hs. destruct r as [m1|x m1| | |]; cbn; try done. by destruct (x =? b).
Qed.

Lemma switch_semantics H t ty front last_id last_branch outermost switch ids inner id c k b ck :
  NoDup (outermost :: switch :: ids ++ [inner]) -> length ids = length front -> Forall (fun i => H.1 < i) (outermost :: switch :: ids) ->
  0 <= k < 2 ^ 32 -> get (front ++ [(last_id, last_branch)]) k = Some (b, ck) -> H.1 < b -> handler_ok rt H ->
  nest_branches ty outermost switch [Block inner None [LocalGet I32Tmp; BrTable (switch :: ids) inner]; Unreachable] front ids = (id, c) ->
  switches H t [Unop I32WrapI64; LocalSet I32Tmp; Block outermost (Some ty) [Block id None c; Block last_id (Some ty) last_branch]] k ck.
Proof.
  intros Hnd Hlen Hlt Hk32 Hg Hb Hh Hnest V m st o Hs Hf Hck.
  set (all := front ++ [(last_id, last_branch)]) in *.
  assert (Hlall : len all = len (switch :: ids)). { unfold all, len in *. rewrite length_app. cbn. lia. }
  pose proof (get_lt _ _ _ Hg) as Hk. rewrite Hlall in Hk.
  apply NoDup_cons in Hnd as [Hout Hnd]. assert (Hnd2 : NoDup (switch :: ids)).
  { change (NoDup ((switch :: ids) ++ [inner])) in Hnd. by apply NoDup_app in Hnd as [? _]. }
  assert (Hinner : inner ∉ switch :: ids).
  { change (NoDup ((switch :: ids) ++ [inner])) in Hnd. apply NoDup_app in Hnd as (_ & Hd & _). intros Hin. apply (Hd _ Hin). left. }
  assert (Hout2 : outermost ∉ switch :: ids) by set_solver.
  set (m0 := set_local I32Tmp (VI32 k) (set_stack [] m)).
  assert (Hf0 : has_flags m0) by exact Hf.
  (* the switch starts with the index in a local variable *)
  cut (does rt H V [Block outermost (Some ty) [Block id None c; Block last_id (Some ty) last_branch]] (set_stack st m0) o (pushed strings t st)).
  { intros Hd. replace o with (_ ← Def tt; o) by done. change [Unop I32WrapI64; LocalSet I32Tmp; Block outermost (Some ty) [Block id None c; Block last_id (Some ty) last_branch]]
      with ([Unop I32WrapI64; LocalSet I32Tmp] ++ [Block outermost (Some ty) [Block id None c; Block last_id (Some ty) last_branch]]).
    eapply does_bind with (R := fun _ m' => m' = set_stack st m0).
    - apply does_ret. destruct m as [s0 lo me sd fo]. cbn in Hs. subst s0. eapply run_unop; [reflexivity|reflexivity|]. wstep. apply runs_nil.
      eexists. split_and!; [reflexivity|by apply keeps_refl|]. unfold m0. cbn. unfold wrap_u32. by rewrite Z.mod_small by lia.
    - by intros _ m' _ _ ->. }
  (* the branch, and the blocks that its result goes through *)
  specialize (Hck (locals m0)). change (set_locals (locals m0) (set_stack [] m)) with m0 in Hck.
  assert (Hbody : forall r, runs rt ck m0 (eq r) -> match r with Next _ | Trapped => True | Jump x _ => x = H.1 | _ => False end ->
    runs rt [Block id None c; Block last_id (Some ty) last_branch] m0
      (fun r' => r' = block_exit ty b Next r \/ r' = block_exit ty b (Jump outermost) r)).
  { intros r Hr Hrk. assert (Hgas : r <> NoGas) by (by destruct r).
    assert (Hbr : runs rt [Block b (Some ty) ck; Br outermost] m0 (eq (block_exit ty b (Jump outermost) r))).
    { apply block_exit_runs; [done..|]. intros m'. by apply run_br. }
    assert (Hleave : leaves_out (switch :: ids) (block_exit ty b (Jump outermost) r)).
    { destruct r as [m1|x m1| | |]; cbn in Hrk |- *; try done. subst x. destruct (H.1 =? b) eqn:E; bools; [lia|]. cbn.
      intros Hin. apply Forall_cons in Hlt as [_ Hlt]. eapply Forall_forall in Hlt; [|exact Hin]. lia. }
    assert (Hnested : nested rt (switch :: ids) k m0 (block_exit ty b (Jump outermost) r) (0 + len front) c /\ get (switch :: ids) (0 + len front) = Some id).
    { eapply (nest_branches_spec rt ty outermost (switch :: ids) all k m0); [done|done|by exists b, ck|done|lia|lia|by apply (nested_table rt None _ inner); [lia|..]|done| |done| |exact Hnest].
      - intros i x Hx. rewrite Z.add_0_l. unfold all. rewrite get_app_lt; [done|]. by eapply get_lt.
      - intros i x Hx. replace (0 + 1 + i) with (1 + i) by lia. apply get_Some in Hx as [Hi Hx]. apply get_Some. split; [lia|].
        by replace (Z.to_nat (1 + i)) with (S (Z.to_nat i)) by lia. }
    destruct Hnested as [Hn Hid]. rewrite Z.add_0_l in Hn, Hid. unfold nested in Hn. destruct (k <? len front) eqn:E; bools.
    - eapply runs_weaken; [eapply (pass_block rt (switch :: ids)); [apply elem_of_get; by eexists|exact Hleave|exact Hn]|]. intros ? <-. by right.
    - assert (k = len front) as ->. { assert (len all = len front + 1) by (unfold all; by rewrite len_app, len_cons, len_nil). lia. }
      rewrite Hid in Hn. cbn [default] in Hn. unfold all in Hg. rewrite get_mid in Hg. injection Hg as <- <-.
      apply exit_block; [exact Hn|done|]. eapply runs_weaken; [apply (block_exit_runs ty last_id last_branch Next []); [exact Hr|done..|]|].
      + intros m'. by apply runs_nil.
      + intros ? <-. by left. }
  apply does_runs. intros Q Q1 Q2 Q3 Hso. apply runs_block. change (set_stack [] (set_stack st m0)) with m0.
  assert (Hkeep : forall m' s', keeps V m0 m' -> keeps V (set_stack st m0) (set_stack s' m')).
  { intros m' s' Hm'. apply (keeps_trans V _ m0); [by apply keeps_refl|]. apply (keeps_trans V _ m'); [done|by apply keeps_refl]. }
  destruct o as [v| | | |]; try done; apply runs_result in Hck as (r & Hr & Hp & Hgas).
  - destruct Hp as (m1 & -> & Hk1 & w & Hw & Hrel). eapply runs_weaken; [by apply (Hbody _ Hr)|]. cbn [block_exit].
    assert (Hq : Q (Next (leave (Some ty) (stack (set_stack st m0)) (leave (Some ty) [] m1)))).
    { apply Q1 with v; [done|by eapply keeps_trans; [exact (Hkeep m1 [] Hk1)|apply keeps_refl]|]. exists w. split; [|done]. unfold leave. by rewrite Hw. }
    intros r [->| ->]; cbn [exits]; rewrite ?Z.eqb_refl; by apply runs_nil.
  - destruct (throws_jump rt _ _ _ _ Hh Hf0 Hp) as [m' ->]. eapply runs_weaken; [by apply (Hbody _ Hr)|]. cbn [block_exit].
    replace (H.1 =? b) with false by (symmetry; apply Z.eqb_neq; lia). intros r Hr'. assert (r = Jump H.1 m') as -> by by destruct Hr'.
    cbn [exits]. apply Forall_cons in Hlt as [Hlt _]. replace (H.1 =? outermost) with false by (symmetry; apply Z.eqb_neq; lia).
    apply Q2; [done|]. eapply throws_keeps; [|exact Hp]. by apply keeps_refl.
  - subst r. eapply runs_weaken; [by apply (Hbody _ Hr)|]. cbn [block_exit]. intros r Hr'. assert (r = Trapped) as -> by by destruct Hr'. by apply Q3.
Qed.

Lemma emit_each_fmap {X A B} (g : A -> M T B) (f : X -> A) l : emit_each g (f <$> l) = emit_each (fun x => g (f x)) l.
Proof. induction l as [|x l IH]; [done|]. cbn. by rewrite IH. Qed.

Lemma split_last {A} (l : list A) : l <> [] -> exists x, last l = Some x /\ l = take (length l - 1) l ++ [x].
Proof.
  intros Hl. destruct (exists_last Hl) as (l' & x & ->). exists x. rewrite last_snoc, length_app. cbn [length].
  replace (length l' + 1 - 1)%nat with (length l') by lia. by rewrite take_app_length.
Qed.

(** What the emission of a switch gives: the code of each item is chosen. *)
Lemma switch_emitted {X} H n t ty (f : X -> M T code) (items : list X) (S : X -> code -> Prop) :
  H.1 < n -> handler_ok rt H -> items <> [] -> len items <= i32_MAX -> Forall (fun x => forall n, H.1 < n -> emits H n (f x) (S x)) items ->
  emits H n (emit_switch ty (f <$> items)) (fun c => forall k x, get items k = Some x -> exists ck, S x ck /\ switches H t c k ck).
Proof.
  intros Hn Hh Hne Hlen Hf. unfold emit_switch. rewrite emit_each_fmap.
  eapply emits_bind_pure; [eapply (pure_each _ _ H n _ items (fun p => n <= p.1) (fun x p => S x p.2))|].
  { eapply Forall_impl; [exact Hf|]. cbn. intros x Hx. apply pure_fresh. intros id Hid.
    eapply pure_bind; [apply emits_as_pure, Hx; lia|]. intros c _. by apply pure_ret. }
  cbn. intros branches [Hlb Hbr]. apply emits_fresh. intros i1 H1. apply emits_fresh. intros outermost H2. apply emits_fresh. intros switch H3.
  assert (Hb0 : branches <> []) by (intros ->; by destruct items).
  destruct (split_last branches Hb0) as ([last_id last_branch] & El & Eb). rewrite El. set (front := take (length branches - 1) branches) in *.
  apply emits_fresh_ids. intros ids n' Hli Hnd Hids Hn'. apply emits_fresh. intros inner Hinner.
  destruct (nest_branches ty outermost switch [Block inner None [LocalGet I32Tmp; BrTable (switch :: ids) inner]; Unreachable] front ids) as [id c] eqn:En.
  apply emits_ret. intros HS k x Hx. pose proof (get_lt _ _ _ Hx) as Hk.
  assert (Hgx : exists b ck, get branches k = Some (b, ck) /\ S x ck).
  { apply get_Some in Hx as [H0 Hx]. eapply Forall2_lookup_l in HS as ([b ck] & Hg & Hs); [|exact Hx]. exists b, ck. split; [|done]. apply get_Some. by split. }
  destruct Hgx as (b & ck & Hg & Hs). exists ck. split; [done|]. rewrite Eb in Hg. unfold i32_MAX in Hlen.
  eapply switch_semantics; [| | |lia|exact Hg| |done|exact En].
  - assert (Hsub : forall y, y ∈ ids -> switch < y /\ y < inner). { intros y Hy. rewrite Forall_forall in Hids. specialize (Hids y Hy). lia. }
    apply NoDup_cons. split. { rewrite elem_of_cons, elem_of_app, list_elem_of_singleton. intros [Hy|[Hy|Hy]]; [lia|apply Hsub in Hy; lia|lia]. }
    apply NoDup_cons. split. { rewrite elem_of_app, list_elem_of_singleton. intros [Hy|Hy]; [apply Hsub in Hy; lia|lia]. }
    apply NoDup_app. split_and!; [done| |apply NoDup_singleton]. intros y Hy. rewrite list_elem_of_singleton. intros ->. apply Hsub in Hy. lia.
  - done.
  - constructor; [lia|]. constructor; [lia|]. eapply Forall_impl; [exact Hids|]. cbn. intros y Hy. lia.
  - rewrite <- Eb in Hg. apply get_Some in Hg as [_ Hg]. eapply Forall_lookup_1 in Hbr; [|exact Hg]. cbn in Hbr. lia.
Qed.
End Switch.

(** * Code that ends a block *)

Section Ends.
Context (rt : Runtime).

Definition top_bool (b : bool) (m : machine) : Prop := exists rest, m.(stack) = i32_bool b :: rest.

(** The code leaves a boolean at its end, or branches out of the block with it. *)
Definition ends (H : Z * code) (id : Z) (U : gset Z) (c : code) (m : machine) (o : outcome bool) : Prop :=
  match o with
  | Def b => runs rt c m (fun r => exists m', keeps U m m' /\ top_bool b m' /\ (r = Next m' \/ r = Jump id m'))
  | Undef => runs rt c m (throws rt H U m)
  | Trap => runs rt c m (eq Trapped)
  | Stuck | NoFuel => True
  end.

Lemma ends_runs H id U c m o :
  (forall Q : result -> Prop,
     (forall b m' r, o = Def b -> keeps U m m' -> top_bool b m' -> r = Next m' \/ r = Jump id m' -> Q r) ->
     (forall r, o = Undef -> throws rt H U m r -> Q r) -> (o = Trap -> Q Trapped) ->
     (match o with Stuck | NoFuel => False | _ => True end) -> runs rt c m Q) ->
  ends H id U c m o.
Proof.
  intros Hq. destruct o; cbn; try done; apply Hq; try done.
  - intros b m' r [= <-] Hk Ht Hr. by exists m'.
Qed.

Lemma ends_use H id U c m o (Q : result -> Prop) :
  ends H id U c m o -> (match o with Stuck | NoFuel => False | _ => True end) ->
  (forall b m' r, o = Def b -> keeps U m m' -> top_bool b m' -> r = Next m' \/ r = Jump id m' -> Q r) ->
  (forall r, o = Undef -> throws rt H U m r -> Q r) -> (o = Trap -> Q Trapped) -> runs rt c m Q.
Proof.
  destruct o; cbn; intros He Hs H1 H2 H3; try done; (eapply runs_weaken; [exact He|]).
  - intros r (m' & Hk & Ht & Hr). by eapply H1.
  - auto.
  - intros r <-. auto.
Qed.

(** Code before. *)
Lemma ends_bind {A} H id U c d m (o : outcome A) (f : A -> outcome bool) R :
  does rt H U c m o R -> (forall a m', o = Def a -> keeps U m m' -> R a m' -> ends H id U d m' (f a)) ->
  ends H id U (c ++ d) m (a ← o; f a).
Proof.
  intros Hc Hd. apply ends_runs. intros Q Q1 Q2 Q3 Hs. apply runs_app.
  apply (does_use rt H U c m o R); [done|by destruct o|..].
  - intros a m' -> Hk HR. cbn in *. apply (ends_use H id U d m' (f a)); [by apply Hd|done|..].
    + intros b m2 r E Hk2 Ht Hr. apply Q1 with b m2; [done|by apply (keeps_trans U m m')|done..].
    + intros r E Hr. apply Q2; [done|]. by apply (throws_keeps rt H U m m').
    + auto.
  - intros r -> Hr. pose proof (throws_not_next _ _ _ _ _ Hr) as Hx. specialize (Q2 r eq_refl Hr).
    destruct r; [by exfalso; eapply Hx|done..|by destruct Hr].
  - intros ->. by apply Q3.
Qed.

Lemma does_block_ends H id U c m o :
  handler_ok rt H -> has_flags m -> H.1 <> id -> ends H id U c (set_stack [] m) o ->
  does rt H U [Block id (Some I32) c] m o (pushed_bool m.(stack)).
Proof.
  intros Hh Hf Hid He. apply does_runs. intros Q Q1 Q2 Q3 Hs. apply runs_block.
  assert (Hn : forall m', keeps U (set_stack [] m) m' -> keeps U m m').
  { intros m' Hk. eapply keeps_trans; [|exact Hk]. by apply keeps_refl. }
  apply (ends_use H id U c (set_stack [] m) o); [done..| | |].
  - intros b m' r E Hk [rest Ht] Hr. assert (Hq : runs rt [] (leave (Some I32) (stack m) m') Q).
    { apply runs_nil. apply Q1 with b; [done| |unfold leave, pushed_bool; by rewrite Ht].
      eapply keeps_trans; [by apply Hn|]. by apply keeps_refl. }
    destruct Hr as [->| ->]; cbn [exits]; rewrite ?Z.eqb_refl; done.
  - intros r E Hr. pose proof Hr as Hr2. apply throws_jump in Hr2 as [m' ->]; [|done..]. cbn [exits].
    destruct (H.1 =? id) eqn:Ei; bools; [done|]. apply Q2; [done|]. eapply throws_keeps; [|exact Hr]. by apply keeps_refl.
  - auto.
Qed.
End Ends.

(** * Loops *)

(** The variables of a loop. *)
Definition loop_vars (fv : ForVars) : list Var.t := [fv.(fv_n); fv.(fv_i); fv.(fv_max_count); fv.(fv_count)].
Definition loop_set (fv : ForVars) : gset Z := list_to_set (Var.index <$> loop_vars fv).

(** The code that goes to the next item, or to what follows. *)
Definition repeat_code (H : Z * code) (fv : ForVars) (after : code) (loop_start : Z) : code :=
  after ++ incr_code H fv.(fv_i) ++ load_code H Mem_I64 fv.(fv_i) ++ load_code H Mem_I64 fv.(fv_n) ++ [Binop I64LtS; BrIf loop_start].

(** What is done with the result of the condition for an item. *)
Definition decide_code (H : Z * code) (fv : ForVars) (q : Quantifier.t) (after : code) (loop_end loop_start : Z) : code :=
  let repeat := repeat_code H fv after loop_start in
  match q with
  | Quantifier.None => [IfElse (Some I32) [i32_const 0; Br loop_end] (repeat ++ [i32_const 1; Br loop_end])]
  | Quantifier.All => [IfElse (Some I32) (repeat ++ [i32_const 1; Br loop_end]) [i32_const 0; Br loop_end]]
  | Quantifier.Any => [IfElse (Some I32) [i32_const 1; Br loop_end] (repeat ++ [i32_const 0; Br loop_end])]
  | _ =>
      [IfElse None
         (incr_code H fv.(fv_count) ++ load_code H Mem_I64 fv.(fv_count) ++ load_code H Mem_I64 fv.(fv_max_count) ++
          [Binop I64GeS; IfElse None (load_code H Mem_I64 fv.(fv_max_count) ++ [i64_const 0; Binop I64Ne; Br loop_end]) []]) []] ++
      repeat ++ load_code H Mem_I64 fv.(fv_max_count) ++ [Unop I64Eqz]
  end.

(** The quantifier that the semantics uses. *)
Definition same_quantifier (q : Quantifier.t) (q' : quantifier) : Prop :=
  match q, q' with
  | Quantifier.None, QNone | Quantifier.All, QAll | Quantifier.Any, QAny => True
  | (Quantifier.Expr _ | Quantifier.Percentage _), QCount k => in_i64 k
  | _, _ => False
  end.

Section Loop.
Context (rt : Runtime) (h : HostContext).
Notation strings := h.(h_strings).
Notation slot := (slot h).
Context (H : Z * code) (fv : ForVars) (U : gset Z) (loop_end loop_start : Z).

Definition int_var (v : Var.t) : Prop := is_slot v.(Var.index) /\ v.(Var.ty) = Ty.Integer.

Hypothesis Hvars : Forall int_var (loop_vars fv).
Hypothesis Hdistinct : NoDup (Var.index <$> loop_vars fv).
Hypothesis Hfresh : Forall (fun v => v.(Var.index) ∉ U) (loop_vars fv).
Hypothesis Hends : loop_start <> loop_end /\ H.1 <> loop_start.
Hypothesis Hh : handler_ok rt H.

Notation vn := fv.(fv_n).
Notation vi := fv.(fv_i).
Notation vmax := fv.(fv_max_count).
Notation vcount := fv.(fv_count).
Definition int_slot (m : machine) (v : Var.t) (z : Z) : Prop := slot m v.(Var.index) Ty.Integer (Some (VInt z)).

Lemma vars_ok : int_var vn /\ int_var vi /\ int_var vmax /\ int_var vcount.
Proof. pose proof Hvars as Hv. unfold loop_vars in Hv. rewrite !Forall_cons in Hv. clear -Hv. tauto. Qed.

Lemma vars_distinct :
  vn.(Var.index) <> vi.(Var.index) /\ vn.(Var.index) <> vmax.(Var.index) /\ vn.(Var.index) <> vcount.(Var.index) /\
  vi.(Var.index) <> vmax.(Var.index) /\ vi.(Var.index) <> vcount.(Var.index) /\ vmax.(Var.index) <> vcount.(Var.index).
Proof.
  pose proof Hdistinct as Hd. cbn in Hd. rewrite !NoDup_cons in Hd. set_solver + Hd.
Qed.

Lemma vars_fresh : vn.(Var.index) ∉ U /\ vi.(Var.index) ∉ U /\ vmax.(Var.index) ∉ U /\ vcount.(Var.index) ∉ U.
Proof. pose proof Hfresh as Hv. unfold loop_vars in Hv. rewrite !Forall_cons in Hv. clear -Hv. tauto. Qed.

Lemma int_slot_flags m v z : int_slot m v z -> has_flags m.
Proof. intros (w & Hw & _). by exists w. Qed.

Lemma int_slot_range m v z : int_slot m v z -> in_i64 z.
Proof. intros (w & Hw & _ & k & u & _ & _ & Hr). destruct u; try done. by destruct Hr. Qed.

Lemma int_slot_keeps V m m' v z : v.(Var.index) ∈ V -> int_var v -> keeps V m m' -> int_slot m v z -> int_slot m' v z.
Proof. intros Hv [Hs _] Hk. by apply (slot_keeps h V). Qed.

Lemma run_load_int K v z c m Q :
  int_var v -> int_slot m v z -> runs rt c (set_stack (VI64 z :: m.(stack)) m) Q -> runs rt (load_code K Mem_I64 v ++ c) m Q.
Proof.
  intros [Hs Ht] Hz Hc. eapply (run_load_var rt h K Mem_I64 v (VInt z)); [done|by rewrite Ht|by rewrite Ht|].
  rewrite Ht. intros u Hu. destruct u; try done. by destruct Hu as [-> _].
Qed.

(** A variable is incremented. *)
Lemma run_incr V v z c m Q :
  int_var v -> v.(Var.index) ∉ V -> int_slot m v z ->
  (forall m', m'.(stack) = m.(stack) -> keeps V m m' -> int_slot m' v (wrap_i64 (z + 1)) -> runs rt c m' Q) ->
  runs rt (incr_code H v ++ c) m Q.
Proof.
  intros [Hs Ht] HV Hz HQ. apply runs_app. eapply runs_weaken; [exact (does_incr rt h H V v z m Hs HV Ht Hz)|].
  intros r (m' & -> & Hk & S' & Hz'). by apply HQ.
Qed.

(** ** One iteration *)

Context {A B : Type} (quant : Quantifier.t) (q : quantifier) (items : list A).
Context (prepare : A -> outcome B) (test : B -> outcome bool).
Context (W : gset Z) (J : Z -> machine -> Prop) (ready : B -> machine -> Prop).
Context (before body after : code) (body_id : Z).

Notation V := (U ∪ loop_set fv ∪ W).

Hypothesis Hq : same_quantifier quant q.
Hypothesis Hlen : len items <= i64_MAX.
Hypothesis HW : W ## loop_set fv.

(** [J k] holds before the k-th item, and does not depend on the variables of the loop. *)
Hypothesis HJ : forall k m m', J k m -> keeps (U ∪ W) m m' -> J k m'.
Hypothesis Hbefore : forall k x m, get items k = Some x -> int_slot m vi k -> J k m ->
  does rt H V before m (prepare x) (fun y m' => m'.(stack) = m.(stack) /\ ready y m').
Hypothesis Hbody : forall y m, ready y m ->
  does rt (body_id, [i32_const 0]) V body (set_stack [] m) (test y) (pushed_bool []).
Hypothesis Hafter : forall k m, 0 <= k < len items -> J k m ->
  does rt H (U ∪ loop_set fv) after m (Def tt) (fun _ m' => m'.(stack) = m.(stack) /\ J (k + 1) m').

(** What holds before the k-th item, when [cnt] of the previous ones matched. *)
Record loop_inv (k cnt : Z) (m : machine) : Prop := {
  li_n : int_slot m vn (len items);
  li_i : int_slot m vi k;
  li_q : match q with QCount x => int_slot m vmax x /\ int_slot m vcount cnt | _ => True end;
  li_J : J k m;
  li_k : 0 <= k;
}.

Lemma in_loop_set v : v ∈ loop_vars fv -> v.(Var.index) ∈ loop_set fv.
Proof. intros Hv. unfold loop_set. apply elem_of_list_to_set. by apply list_elem_of_fmap_2. Qed.

Lemma loop_set_vars : vn.(Var.index) ∈ loop_set fv /\ vi.(Var.index) ∈ loop_set fv /\ vmax.(Var.index) ∈ loop_set fv /\ vcount.(Var.index) ∈ loop_set fv.
Proof. split_and!; apply in_loop_set; unfold loop_vars; set_solver +. Qed.

Lemma inv_keeps k cnt m m' : keeps V m m' -> loop_inv k cnt m -> loop_inv k cnt m'.
Proof.
  intros Hk [I1 I2 I3 I4 I5]. destruct vars_ok as (On & Oi & Om & Oc). destruct loop_set_vars as (Ln & Li & Lm & Lc). split; try done.
  - eapply int_slot_keeps; [|exact On|exact Hk|exact I1]. set_solver + Ln.
  - eapply int_slot_keeps; [|exact Oi|exact Hk|exact I2]. set_solver + Li.
  - destruct q; try done. destruct I3 as [I3 I3']. split; eapply int_slot_keeps; [|exact Om|exact Hk|exact I3| |exact Oc|exact Hk|exact I3']; set_solver + Lm Lc.
  - eapply HJ; [exact I4|]. eapply keeps_sub; [|exact Hk]. set_solver +.
Qed.

(** The next iteration, if there is one. *)
Lemma run_repeat k cnt c m Q :
  loop_inv k cnt m -> k < len items ->
  (forall m', keeps U m m' -> loop_inv (k + 1) cnt m' -> m'.(stack) = m.(stack) ->
     if k + 1 <? len items then Q (Jump loop_start m') else runs rt c m' Q) ->
  runs rt (repeat_code H fv after loop_start ++ c) m Q.
Proof.
  intros [I1 I2 I3 I4 I5] Hk HQ. destruct vars_ok as (On & Oi & Om & Oc). destruct loop_set_vars as (Ln & Li & Lm & Lc).
  destruct vars_distinct as (D1 & D2 & D3 & D4 & D5 & D6). destruct vars_fresh as (F1 & F2 & F3 & F4).
  unfold repeat_code. rewrite <- !app_assoc. apply runs_app. eapply runs_weaken; [apply (Hafter k); [lia|done]|].
  intros r (m1 & -> & K1 & S1 & J1). cbn [follow].
  assert (Hs : forall v z, v.(Var.index) ∈ loop_set fv -> int_var v -> int_slot m v z -> int_slot m1 v z).
  { intros v z Hv Hok. apply (int_slot_keeps (U ∪ loop_set fv)); [set_solver + Hv|done|done]. }
  apply (run_incr (V ∖ {[vi.(Var.index)]}) _ k); [done|set_solver +|by apply Hs|]. intros m2 S2 K2 Hi2.
  unfold wrap_i64 in Hi2. rewrite wrap_i64_id in Hi2 by (unfold in_i64, i64_MIN in *; lia).
  assert (Hs2 : forall v z, v.(Var.index) ∈ loop_set fv -> v.(Var.index) <> vi.(Var.index) -> int_var v -> int_slot m v z -> int_slot m2 v z).
  { intros v z Hv Hne Hok Hz. apply (int_slot_keeps (V ∖ {[vi.(Var.index)]}) m1); [set_solver + Hv Hne|done|done|]. by apply Hs. }
  apply (run_load_int H vi (k + 1)); [done..|]. apply (run_load_int H vn (len items)); [done|by apply Hs2|]. wsimpl. wstep.
  assert (Hinv : loop_inv (k + 1) cnt (set_stack m2.(stack) m2)).
  { split; try lia; [by apply Hs2|done| |].
    - destruct q; try done. destruct I3. split; by apply Hs2.
    - eapply HJ; [exact J1|]. eapply (keeps_trans _ _ m2); [|by apply keeps_refl]. eapply keeps_sub; [|exact K2].
      assert (Hni : vi.(Var.index) ∉ W) by set_solver + HW Li. set_solver + Hni F2. }
  assert (Hkeep : keeps U m (set_stack m2.(stack) m2)).
  { eapply (keeps_trans _ _ m1); [eapply keeps_sub; [|exact K1]; set_solver +|]. eapply (keeps_trans _ _ m2); [|by apply keeps_refl].
    eapply keeps_sub; [|exact K2]. set_solver + F2. }
  specialize (HQ _ Hkeep Hinv ltac:(cbn; congruence)). wstep. unfold b2i. by destruct (k + 1 <? len items).
Qed.

(** What is decided after a test: the result, or the number of matches. *)
Definition decide_step (cnt : Z) (b : bool) : bool + Z :=
  match q, b with
  | QNone, true | QAll, false => inl false
  | QAny, true => inl true
  | QCount x, true => if x <=? cnt + 1 then inl (negb (x =? 0)) else inr (cnt + 1)
  | _, _ => inr cnt
  end.

Definition at_end : bool := match q with QNone | QAll => true | QAny => false | QCount x => x =? 0 end.

Lemma quantify_cons cnt x rest :
  quantify q cnt prepare test (x :: rest) =
    (y ← prepare x; b ← catch (test y) false;
     match decide_step cnt b with inl r => Def r | inr cnt => quantify q cnt prepare test rest end).
Proof.
  cbn [quantify]. unfold decide_step. destruct (prepare x) as [y| | | |]; cbn [mbind outcome_bind]; try done.
  destruct (catch (test y) false) as [b| | | |]; cbn [mbind outcome_bind]; try done. destruct q, b; try done. by destruct (_ <=? _).
Qed.

(** The decision with a number of matches. *)
Lemma counted k cnt b x m Q :
  q = QCount x -> 0 <= cnt <= k -> loop_inv k cnt m -> k < len items -> m.(stack) = [i32_bool b] ->
  (forall b' m' r, (decide_step cnt b = inl b' \/ (exists c, decide_step cnt b = inr c) /\ len items <= k + 1 /\ b' = at_end) ->
     keeps U m m' -> top_bool b' m' -> r = Next m' \/ r = Jump loop_end m' -> Q r) ->
  (forall c m', decide_step cnt b = inr c -> k + 1 < len items -> keeps U m m' -> loop_inv (k + 1) c m' -> Q (Jump loop_start m')) ->
  runs rt ([IfElse None
      (incr_code H vcount ++ load_code H Mem_I64 vcount ++ load_code H Mem_I64 vmax ++
       [Binop I64GeS; IfElse None (load_code H Mem_I64 vmax ++ [i64_const 0; Binop I64Ne; Br loop_end]) []]) []] ++
     repeat_code H fv after loop_start ++ load_code H Mem_I64 vmax ++ [Unop I64Eqz]) m Q.
Proof.
  intros Eq Hcnt Hinv Hk Hs Hdone Hnext. destruct vars_ok as (On & Oi & Om & Oc). destruct loop_set_vars as (Ln & Li & Lm & Lc).
  destruct vars_distinct as (D1 & D2 & D3 & D4 & D5 & D6). destruct vars_fresh as (F1 & F2 & F3 & F4).
  unfold decide_step, at_end in Hdone, Hnext. rewrite Eq in Hdone, Hnext.
  (* what follows the test, with the new count *)
  assert (Hrest : forall c m', inr (A := bool) c = (if b then if x <=? cnt + 1 then inl (negb (x =? 0)) else inr (cnt + 1) else inr cnt) ->
    keeps U m m' -> loop_inv k c m' -> m'.(stack) = [] ->
    runs rt (repeat_code H fv after loop_start ++ load_code H Mem_I64 vmax ++ [Unop I64Eqz]) m' Q).
  { intros c m' Ec K' I' S'. rewrite <- Ec in Hdone, Hnext. eapply run_repeat; [exact I'|done|]. intros m2 K2 I2 S2. destruct (k + 1 <? len items) eqn:E; bools.
    - apply Hnext with c; try done. by eapply keeps_trans.
    - pose proof (li_q _ _ _ I2) as Hx. rewrite Eq in Hx. destruct Hx as [Hx _]. apply (run_load_int H vmax x); [done..|]. wstep. apply runs_nil.
      eapply (Hdone (x =? 0)); [right; split_and!; [by eexists|done|done]| | |by left].
      + repeat apply keeps_to. by eapply keeps_trans.
      + by eexists. }
  cbn [app]. eapply runs_if; [exact Hs|]. pose proof (li_q _ _ _ Hinv) as Hx. rewrite Eq in Hx. destruct Hx as [Hx Hc]. pose proof (li_k _ _ _ Hinv) as H0k.
  destruct b; cbn [b2i Z.eqb].
  2: { apply runs_nil. apply (Hrest cnt); [done| | |done].
       - repeat apply keeps_to. by apply keeps_refl.
       - eapply inv_keeps; [|exact Hinv]. by apply keeps_refl. }
  eapply (run_incr (V ∖ {[vcount.(Var.index)]}) vcount cnt); [done|set_solver +|exact Hc|]. intros m1 S1 K1 Hc1. cbn in S1.
  unfold wrap_i64 in Hc1. rewrite wrap_i64_id in Hc1 by (unfold in_i64, i64_MIN in *; lia).
  assert (K1' : keeps (V ∖ {[vcount.(Var.index)]}) m m1) by by eapply keeps_from.
  assert (Hs1 : forall v z, v.(Var.index) ∈ loop_set fv -> v.(Var.index) <> vcount.(Var.index) -> int_var v -> int_slot m v z -> int_slot m1 v z).
  { intros v z Hv Hne Hok Hz. apply (int_slot_keeps (V ∖ {[vcount.(Var.index)]}) m); [set_solver + Hv Hne|done|done|done]. }
  apply (run_load_int H vcount (cnt + 1)); [done..|]. apply (run_load_int H vmax x); [done|by apply Hs1|]. rewrite S1. wsimpl.
  wstep. eapply runs_if; [reflexivity|]. wsimpl. destruct (x <=? cnt + 1) eqn:E; cbn [b2i Z.eqb].
  - eapply (run_load_int H vmax x); [done| |].
    { eapply int_slot_keeps; [|done| |by apply Hs1]; [exact Lm|]. by apply keeps_refl. }
    wsimpl. cbn [app]. do 3 wstep. eapply (Hdone (negb (x =? 0))); [by left| | |by right].
    + repeat apply keeps_to. eapply keeps_sub; [|exact K1']. set_solver + F4.
    + by eexists.
  - apply runs_nil. apply runs_nil. apply (Hrest (cnt + 1)); [done| | |done].
    + repeat apply keeps_to. eapply keeps_sub; [|exact K1']. set_solver + F4.
    + destruct Hinv as [I1 I2 I3 I4 I5]. split; [by apply Hs1|by apply Hs1| | |done].
      * rewrite Eq. split; [by apply Hs1|done].
      * eapply HJ; [exact I4|]. repeat apply keeps_to. eapply keeps_sub; [|exact K1']. assert (vcount.(Var.index) ∉ W) by set_solver + HW Lc. set_solver.
Qed.

Lemma run_decide k cnt b m Q :
  0 <= cnt <= k -> loop_inv k cnt m -> k < len items -> m.(stack) = [i32_bool b] ->
  (forall b' m' r, (decide_step cnt b = inl b' \/ (exists c, decide_step cnt b = inr c) /\ len items <= k + 1 /\ b' = at_end) ->
     keeps U m m' -> top_bool b' m' -> r = Next m' \/ r = Jump loop_end m' -> Q r) ->
  (forall c m', decide_step cnt b = inr c -> k + 1 < len items -> keeps U m m' -> loop_inv (k + 1) c m' -> Q (Jump loop_start m')) ->
  runs rt (decide_code H fv quant after loop_end loop_start) m Q.
Proof.
  intros Hcnt Hinv Hk Hs Hdone Hnext. destruct vars_ok as (On & Oi & Om & Oc).
  (* the condition is popped *)
  assert (Hinv0 : loop_inv k cnt (set_stack [] m)) by (eapply inv_keeps; [|exact Hinv]; by apply keeps_refl).
  assert (Hkeep : forall m', keeps U (set_stack [] m) m' -> keeps U m m') by (intros m'; apply keeps_from).
  (* the next iteration, or a result, within a branch of the decision *)
  assert (Hrep : forall b', decide_step cnt b = inr cnt -> at_end = b' ->
    runs rt (repeat_code H fv after loop_start ++ [i32_const (b2i b'); Br loop_end]) (set_stack [] m)
      (fun r => match r with Next m' => runs rt [] (leave (Some I32) [] m') Q | NoGas => False | r => Q r end)).
  { intros b' Hd He. eapply run_repeat; [exact Hinv0|done|]. intros m' K' I' S'. destruct (k + 1 <? len items) eqn:E; bools.
    - apply Hnext with cnt; auto.
    - do 2 wstep. eapply Hdone; [right; split_and!; [by exists cnt|done|done]| | |by right].
      + eapply keeps_trans; [by apply Hkeep|]. by apply keeps_refl.
      + eexists. by destruct b'. }
  (* a result *)
  assert (Hres : forall b' m', decide_step cnt b = inl b' -> keeps U (set_stack [] m) m' ->
    runs rt [i32_const (b2i b'); Br loop_end] m' (fun r => match r with Next m' => runs rt [] (leave (Some I32) [] m') Q | NoGas => False | r => Q r end)).
  { intros b' m' Hd K'. do 2 wstep. eapply Hdone; [by left| | |by right].
    - eapply keeps_trans; [by apply Hkeep|]. by apply keeps_refl.
    - eexists. by destruct b'. }
  pose proof Hq as Hq'. destruct quant as [| | |p|p] eqn:Equant in Hq' |- *; destruct q as [| | |x] eqn:Eq in Hq'; try done; cbn [decide_code].
  - eapply runs_if; [exact Hs|]. unfold decide_step in *. rewrite Eq in *. destruct b; cbn [b2i Z.eqb].
    + apply (Hres false); [done|by apply keeps_refl].
    + by apply (Hrep true); [|unfold at_end; rewrite Eq].
  - eapply runs_if; [exact Hs|]. unfold decide_step in *. rewrite Eq in *. destruct b; cbn [b2i Z.eqb].
    + by apply (Hrep true); [|unfold at_end; rewrite Eq].
    + apply (Hres false); [done|by apply keeps_refl].
  - eapply runs_if; [exact Hs|]. unfold decide_step in *. rewrite Eq in *. destruct b; cbn [b2i Z.eqb].
    + apply (Hres true); [done|by apply keeps_refl].
    + by apply (Hrep false); [|unfold at_end; rewrite Eq].
  - by apply counted with k cnt b x.
  - by apply counted with k cnt b x.
Qed.

(** The loop, from its k-th item. *)
Definition loop_body : code :=
  before ++ [Block body_id (Some I32) body] ++ decide_code H fv quant after loop_end loop_start.

Lemma loop_ends rest : forall k cnt m,
  items = take (Z.to_nat k) items ++ rest -> len items = k + len rest -> rest <> [] -> 0 <= cnt <= k -> loop_inv k cnt m -> m.(stack) = [] ->
  ends rt H loop_end U [Loop loop_start (Some I32) loop_body] m (quantify q cnt prepare test rest).
Proof.
  induction rest as [|x rest IH]; intros k cnt m Hitems Hk Hne Hcnt Hinv Hs; [done|]. rewrite quantify_cons, len_cons in *. pose proof (len_nonneg rest) as Hr0.
  assert (Hx : get items k = Some x).
  { apply get_Some. split; [lia|]. rewrite Hitems. rewrite lookup_app_r; rewrite length_take; unfold len in *; [|lia].
    by replace (Z.to_nat k - Z.to_nat k `min` length items)%nat with 0%nat by lia. }
  apply ends_runs. intros Q Q1 Q2 Q3 Hst. apply runs_loop. unfold loop_body. apply runs_app.
  assert (Hinv0 : loop_inv k cnt (set_stack [] m)) by (eapply inv_keeps; [|exact Hinv]; by apply keeps_refl).
  assert (Hthrow : forall r, throws rt H V (set_stack [] m) r -> exists m', r = Jump H.1 m').
  { intros r Hr. apply (throws_jump rt H V (set_stack [] m)); [done| |done]. exact (int_slot_flags _ _ _ (li_i _ _ _ Hinv)). }
  eapply does_use; [apply (Hbefore k x); [done|apply Hinv0|apply Hinv0]|by destruct (prepare x)|..].
  2: { intros r E Hr. destruct (Hthrow r Hr) as [m' ->]. cbn [follow]. destruct Hends as [_ Hne2].
       destruct (H.1 =? loop_start) eqn:Ei; bools; [done|]. apply Q2; [by rewrite E|]. eapply throws_sub; [|eapply throws_keeps; [|exact Hr]; by apply keeps_refl]. set_solver +. }
  2: { intros E. cbn [follow]. apply Q3. by rewrite E. }
  intros y m1 Ey K1 [S1 Ry]. cbn [follow]. rewrite Ey in *. cbn [mbind outcome_bind] in *. cbn [stack set_stack] in S1.
  assert (Hinv1 : loop_inv k cnt m1) by by eapply inv_keeps.
  apply runs_app. eapply does_use; [apply (does_catch_bool rt H V body_id body m1 (test y) false); by apply Hbody|by destruct (catch (test y) false)|..].
  2: { intros r E. by destruct (test y). }
  2: { intros E. cbn [follow]. apply Q3. by rewrite E. }
  intros b m2 Eb K2 Sb. cbn [follow]. rewrite Eb in *. cbn [mbind outcome_bind] in *. unfold pushed_bool in Sb. rewrite S1 in Sb.
  assert (Hinv2 : loop_inv k cnt m2) by by eapply inv_keeps.
  assert (Hkeep : keeps U m m2). { apply keeps_from with []. eapply keeps_sub; [|eapply keeps_trans; [exact K1|exact K2]]. set_solver +. }
  eapply run_decide; [exact Hcnt|exact Hinv2|lia|exact Sb|..].
  - intros b' m' r Hb' K' Ht Hr. assert (Hq1 : forall r, r = Next (leave (Some I32) (stack m) m') \/ r = Jump loop_end m' -> Q r).
    { intros r' Hr'. destruct Hr' as [->| ->].
      - eapply (Q1 b' (leave (Some I32) (stack m) m')); [| |destruct Ht as [rest' Ht]; exists (stack m); unfold leave; by rewrite Ht|by left].
        + destruct Hb' as [->|([c Ec] & Hl & ->)]; [done|]. rewrite Ec. assert (rest = []) as -> by (apply len_0_nil; lia). done.
        + repeat apply keeps_to. by eapply keeps_trans.
      - eapply (Q1 b' m'); [|by eapply keeps_trans|done|by right].
        destruct Hb' as [->|([c Ec] & Hl & ->)]; [done|]. rewrite Ec. assert (rest = []) as -> by (apply len_0_nil; lia). done. }
    destruct Hr as [->| ->]; [by apply Hq1; left|]. destruct Hends as [Hne1 _]. destruct (loop_end =? loop_start) eqn:E; bools; [by subst|]. by apply Hq1; right.
  - intros c m' Ec Hlt K' Hinv'. rewrite Z.eqb_refl, Ec in *. fold loop_body.
    eapply ends_use; [apply (IH (k + 1) c); [| |intros ->; rewrite len_nil in *; lia| | |done]|done|..].
    + rewrite Hitems at 1. replace (Z.to_nat (k + 1)) with (S (Z.to_nat k)) by lia. erewrite take_S_r; [|by apply get_Some in Hx as [_ Hx]]. by rewrite <- app_assoc.
    + lia.
    + assert (c = cnt \/ c = cnt + 1); [|lia]. unfold decide_step in Ec. destruct q, b; try destruct (_ <=? _); simplify_eq; auto.
    + eapply inv_keeps; [|exact Hinv']. by apply keeps_refl.
    + intros b' m3 r E K3 Ht Hr. apply Q1 with b' m3; try done. eapply keeps_trans; [exact Hkeep|]. eapply keeps_trans; [exact K'|]. by eapply keeps_from.
    + intros r E Hr. apply Q2; [done|]. eapply throws_keeps; [exact Hkeep|]. eapply throws_keeps; [exact K'|]. eapply throws_keeps; [|exact Hr]. by apply keeps_refl.
    + done.
Qed.
End Loop.

(** * The emission of a loop *)

Section EmitFor.
Context {T : Type} {ST : SymbolTable T} {STL : SymbolTableLaws T} {BS : ByteStrings}.
Context (ir : IR) (h : HostContext) (s : Scanned) (num_ids : Z) (literals : list (list Z)).
Notation strings := h.(h_strings).
Notation rt := (host_runtime h).
Notation state_ok := (state_ok h s num_ids).
Notation emits := (emits (T := T) strings literals).
Notation pushed := (pushed strings).
Notation int_slot := (int_slot h).
Hypothesis Hscan : scan_ok h s num_ids.
Context (ev : env -> Z -> outcome value) (em : Z -> M T code).
Context (U : gset Z) (g : gmap Z Ty.t) (P : gset Z).
Notation compiles := (compiles ir h s num_ids literals ev em).
Notation compiled := (compiled h s num_ids literals U g P).

Context (fv : ForVars) (quant : Quantifier.t) (W : gset Z).
Hypothesis Hvars : Forall int_var (loop_vars fv).
Hypothesis Hdistinct : NoDup (Var.index <$> loop_vars fv).
Hypothesis Hfresh : Forall (fun v => v.(Var.index) ∉ U) (loop_vars fv).
Hypothesis HW : W ## loop_set fv.

Notation vn := fv.(fv_n).
Notation vi := fv.(fv_i).
Notation vmax := fv.(fv_max_count).
Notation vcount := fv.(fv_count).

(** The variables in use when the quantifier is evaluated. *)
Definition quantifier_set : gset Z := U ∪ {[vn.(Var.index); vi.(Var.index)]} ∪ W.

Definition quantifier_ok : Prop :=
  match quant with
  | Quantifier.Expr e | Quantifier.Percentage e => compiles quantifier_set g P e /\ ty_at ir e = Ty.Integer
  | _ => True
  end.
Hypothesis Hquant : quantifier_ok.

(** A variable is set to an integer. *)
Lemma does_set_int H V v c m (o : outcome Z) :
  int_var v -> v.(Var.index) ∉ V -> has_flags m ->
  does rt H V c (set_stack (VI32 (8 * v.(Var.index)) :: m.(stack)) m) o (pushed_int (VI32 (8 * v.(Var.index)) :: m.(stack))) ->
  does rt H V (set_var_code Mem_I64 v c) m o (fun z m' => m'.(stack) = m.(stack) /\ int_slot m' v z).
Proof.
  intros [Hs Ht] HV Hf Hc. pose proof (does_set rt h H V Mem_I64 v c m (z ← o; Def (VInt z)) Hs HV) as Hd. rewrite Ht in Hd. specialize (Hd eq_refl Hf).
  assert (Hd2 : does rt H V (set_var_code Mem_I64 v c) m (z ← o; Def (VInt z)) (fun x m' => stack m' = stack m /\ slot h m' v.(Var.index) Ty.Integer (Some x))).
  { apply Hd. cbn zeta. rewrite <- (app_nil_r c). eapply does_bind; [exact Hc|]. intros z m' _ _ Hz. apply does_nil. by apply pushed_VInt. }
  destruct o; done.
Qed.

Lemma emits_set_zero H n v : int_var v -> emits H n (set_var v (mret [i64_const 0])) (eq (set_var_code Mem_I64 v [i64_const 0])).
Proof.
  intros [_ Ht]. eapply emits_weaken; [apply (emits_set_var _ _ H n v Mem_I64 _ (eq [i64_const 0])); [by rewrite Ht|by apply emits_ret]|].
  by intros c (d & -> & <-).
Qed.

Lemma does_set_zero H V v m :
  int_var v -> v.(Var.index) ∉ V -> has_flags m ->
  does rt H V (set_var_code Mem_I64 v [i64_const 0]) m (Def 0) (fun z m' => m'.(stack) = m.(stack) /\ int_slot m' v z).
Proof. intros Hv HV Hf. apply does_set_int; [done..|]. apply does_ret. wstep. run_next. by split. Qed.

Lemma f64_to_i64_range f : in_i64 (f64_to_i64 f).
Proof. unfold in_i64, f64_to_i64, i64_MIN, i64_MAX. destruct f as [|[]| |[] m e]; try done; lia. Qed.

(** The percentage of the number of items. *)
Lemma does_percentage H V k n st m :
  m.(stack) = VI64 k :: VF64 (f64_of_i64 n) :: st ->
  does rt H V [Unop F64ConvertSI64; Binop F64Mul; f64_const (f64_of_i64 100); Binop F64Div; Unop F64Ceil; Unop I64TruncSF64] m
    (percentage n k) (pushed_int st).
Proof.
  intros Hs. unfold percentage. set (f := f64_ceil _). open_machine m Hs. apply does_runs. intros Q Q1 Q2 Q3 _.
  do 5 wstep. fold f. destruct f as [sg|sg| |sg mm ee] eqn:Ef.
  2-3: eapply run_unop_trap; [reflexivity|reflexivity|by apply Q3].
  all: destruct (f64_le _ _ && f64_lt _ _) eqn:E.
  1,3: eapply run_unop; [reflexivity|cbn [unop_eval]; rewrite E; reflexivity|]; apply runs_nil; eapply Q1; [reflexivity|by apply keeps_refl|];
       split; [reflexivity|apply f64_to_i64_range].
  all: eapply run_unop_trap; [reflexivity|cbn [unop_eval]; rewrite E; reflexivity|by apply Q3].
Qed.

(** What the quantifier leaves in its variables. *)
Definition quantifier_set_up (q : quantifier) (m : machine) : Prop :=
  same_quantifier quant q /\ match q with QCount x => int_slot m vmax x /\ int_slot m vcount 0 | _ => True end.

Definition sets_quantifier H (c : code) : Prop :=
  forall en m n, state_ok quantifier_set g P en m -> int_slot m vn n ->
    does rt H quantifier_set c m (eval_quantifier ev quant n en) (fun q m' => m'.(stack) = m.(stack) /\ quantifier_set_up q m').

Lemma loop_vars_ok : int_var vn /\ int_var vi /\ int_var vmax /\ int_var vcount.
Proof. pose proof Hvars as Hv. unfold loop_vars in Hv. rewrite !Forall_cons in Hv. tauto. Qed.

Lemma counts_not_in_use : vmax.(Var.index) ∉ quantifier_set /\ vcount.(Var.index) ∉ quantifier_set /\ vcount.(Var.index) <> vmax.(Var.index).
Proof.
  pose proof Hfresh as Hf. unfold loop_vars in Hf. rewrite !Forall_cons in Hf. destruct Hf as (F1 & F2 & F3 & F4 & _).
  destruct (vars_distinct fv Hdistinct) as (D1 & D2 & D3 & D4 & D5 & D6). destruct (loop_set_vars fv) as (_ & _ & Lm & Lc).
  assert (Hm : vmax.(Var.index) ∉ W) by set_solver + HW Lm. assert (Hc : vcount.(Var.index) ∉ W) by set_solver + HW Lc.
  unfold quantifier_set. split_and!; [set_solver + F3 Hm D2 D4|set_solver + F4 Hc D3 D5|done].
Qed.

(** The number of matches that is required, and the count of those found. *)
Lemma does_count H c m n (o : outcome Z) :
  has_flags m -> (match quant with Quantifier.Expr _ | Quantifier.Percentage _ => True | _ => False end) ->
  does rt H quantifier_set (set_var_code Mem_I64 vmax c) m o (fun z m' => m'.(stack) = m.(stack) /\ int_slot m' vmax z) ->
  int_slot m vn n ->
  does rt H quantifier_set (set_var_code Mem_I64 vmax c ++ set_var_code Mem_I64 vcount [i64_const 0]) m (k ← o; Def (QCount k))
    (fun q m' => m'.(stack) = m.(stack) /\ quantifier_set_up q m').
Proof.
  intros Hf Hq Hc _. destruct counts_not_in_use as (Nm & Nc & Hne). destruct loop_vars_ok as (On & Oi & Om & Oc).
  eapply does_bind; [exact Hc|]. intros k m1 _ K1 [S1 Hk]. assert (Hf1 : has_flags m1) by by eapply has_flags_keeps.
  assert (Hd : does rt H (quantifier_set ∪ {[vmax.(Var.index)]}) (set_var_code Mem_I64 vcount [i64_const 0]) m1 (Def 0)
     (fun z m' => stack m' = stack m1 /\ int_slot m' vcount z)).
  { apply does_set_zero; [done| |done]. set_solver + Nc Hne. }
  replace (Def (QCount k)) with (z ← Def 0; Def (QCount k)) by done. rewrite <- (app_nil_r (set_var_code Mem_I64 vcount _)).
  eapply does_bind with (R := fun z m' => stack m' = stack m1 /\ int_slot m' vcount 0 /\ int_slot m' vmax k).
  - eapply runs_weaken; [exact Hd|]. intros r (m' & -> & K2 & S2 & Hz). exists m'. split_and!; [done| |done|done|].
    + eapply keeps_sub; [|exact K2]. set_solver +.
    + eapply int_slot_keeps; [|exact Om|exact K2|exact Hk]. set_solver +.
  - intros z m2 _ K2 (S2 & Hz & Hm). apply does_nil. split; [congruence|]. split; [|by split].
    unfold same_quantifier. pose proof (int_slot_range h _ _ _ Hk). by destruct quant.
Qed.

(** The code that sets up the quantifier. *)
Definition emit_quantifier : M T code :=
  match quant with
  | Quantifier.Percentage q =>
      m ← set_var vmax
        (cn ← load_var vn; cq ← em q;
         mret (cn ++ [Unop F64ConvertSI64] ++ cq ++ [Unop F64ConvertSI64; Binop F64Mul; f64_const (f64_of_i64 100); Binop F64Div;
               Unop F64Ceil; Unop I64TruncSF64]));
      c ← set_var vcount (mret [i64_const 0]);
      mret (m ++ c)
  | Quantifier.Expr q =>
      m ← set_var vmax (em q);
      c ← set_var vcount (mret [i64_const 0]);
      mret (m ++ c)
  | _ => mret []
  end.

Lemma quantifier_emitted H n : H.1 < n -> handler_ok rt H -> emits H n emit_quantifier (sets_quantifier H).
Proof.
  intros Hn Hh. destruct counts_not_in_use as (Nm & Nc & Hne). destruct loop_vars_ok as (On & Oi & Om & Oc).
  pose proof Hquant as Hq. unfold quantifier_ok in Hq. unfold emit_quantifier, sets_quantifier.
  assert (Hnone : forall q, same_quantifier quant q -> (forall n en, eval_quantifier ev quant n en = Def q) ->
    match q with QCount _ => False | _ => True end -> forall en m n0, does rt H quantifier_set [] m (eval_quantifier ev quant n0 en)
      (fun q m' => m'.(stack) = m.(stack) /\ quantifier_set_up q m')).
  { intros q Hs He Hx en m n0. rewrite He. apply does_nil. split; [done|]. split; [done|]. by destruct q. }
  assert (Hcount : forall (block : M T code) (D : code -> Prop) (o : env -> Z -> outcome Z),
    match quant with Quantifier.Expr _ | Quantifier.Percentage _ => True | _ => False end ->
    emits H n block D -> (forall n0 en, eval_quantifier ev quant n0 en = (k ← o en n0; Def (QCount k))) ->
    (forall d en m n0, D d -> state_ok quantifier_set g P en m -> int_slot m vn n0 -> does rt H quantifier_set d m (o en n0) (pushed_int m.(stack))) ->
    emits H n (m ← set_var vmax block; c ← set_var vcount (mret [i64_const 0]); mret (m ++ c)) (fun c => forall en m n0,
      state_ok quantifier_set g P en m -> int_slot m vn n0 ->
      does rt H quantifier_set c m (eval_quantifier ev quant n0 en) (fun q m' => m'.(stack) = m.(stack) /\ quantifier_set_up q m'))).
  { intros block D o Hqc Hb He Hd. eapply emits_bind; [apply (emits_set_var _ _ H n vmax Mem_I64 block D); [by destruct Om as [_ ->]|done]|]. intros cm.
    eapply emits_bind; [by apply emits_set_zero|]. intros cc. apply emits_ret. intros <- (d & -> & HD) en m n0 Hm Hn0. rewrite He.
    assert (Hf : has_flags m) by by eapply int_slot_flags.
    eapply does_count; [done|done| |exact Hn0]. apply does_set_int; [done..|].
    apply (Hd d en (set_stack _ m)); [done| |].
    - eapply state_next; [exact Hscan|exact Hm|by apply keeps_refl].
    - apply (int_slot_keeps h quantifier_set m); [unfold quantifier_set; set_solver +|exact On|by apply keeps_refl|exact Hn0]. }
  clear Nm Nc Hne. destruct quant as [| | |q|q] eqn:Eq in Hq, Hnone, Hcount |- *.
  - apply emits_ret. intros en m n0 _ _. by apply (Hnone QNone).
  - apply emits_ret. intros en m n0 _ _. by apply (Hnone QAll).
  - apply emits_ret. intros en m n0 _ _. by apply (Hnone QAny).
  - destruct Hq as [Hc Ht]. eapply (Hcount _ (fun d => exists cq, does_int h s num_ids ev quantifier_set g P H cq q /\
      d = load_code H Mem_I64 vn ++ [Unop F64ConvertSI64] ++ cq ++ [Unop F64ConvertSI64; Binop F64Mul; f64_const (f64_of_i64 100); Binop F64Div; Unop F64Ceil; Unop I64TruncSF64])
      (fun en n0 => p ← eval_int ev en q; percentage n0 p)); [done| | |].
    + eapply emits_bind; [apply (emits_load_var _ _ H n vn Mem_I64); by destruct On as [_ ->]|]. intros cn.
      eapply emits_bind; [eapply (int_compiled ir h s num_ids literals ev em quantifier_set g P q Hc Ht H n Hn Hh)|]. intros cq.
      apply emits_ret. intros Hcq <-. by exists cq.
    + intros n0 en. cbn [eval_quantifier]. by destruct (eval_int ev en q).
    + intros d en m n0 (cq & Hcq & ->) Hm Hn0.
      change (p ← eval_int ev en q; percentage n0 p) with (_ ← Def tt; p ← eval_int ev en q; percentage n0 p). rewrite app_assoc.
      eapply does_bind with (R := fun _ m' => m'.(stack) = VF64 (f64_of_i64 n0) :: m.(stack)).
      { apply does_ret. rewrite <- (app_nil_r (_ ++ [Unop _])), <- app_assoc. apply (run_load_int rt h H vn n0); [done..|]. cbn [app]. wstep. run_next. done. }
      intros _ m1 _ K1 S1. eapply does_bind; [apply Hcq; by eapply state_next|]. intros p m2 _ K2 [S2 Hp]. rewrite S1 in S2. by apply does_percentage.
  - destruct Hq as [Hc Ht]. eapply (Hcount _ (fun d => does_int h s num_ids ev quantifier_set g P H d q) (fun en _ => eval_int ev en q)); [done| |done|].
    + eapply (int_compiled ir h s num_ids literals ev em quantifier_set g P q Hc Ht H n Hn Hh).
    + intros d en m n0 Hd Hm _. by apply Hd.
Qed.

(** ** The parts of a loop *)

Context {A B : Type} (loop_init : Var.t -> Z -> M T code) (before_cond : Var.t -> M T code) (body : M T code) (after_cond : Var.t -> M T code).
Context (o_items : env -> outcome (list A)) (prepare : env -> A -> outcome B) (test : env -> B -> outcome bool).
Context (J : env -> list A -> Z -> machine -> Prop) (ready : env -> B -> machine -> Prop).

Notation V := (U ∪ loop_set fv ∪ W).

(** The items are known before the loop starts; without items it ends with false. *)
Definition inits (H : Z * code) (id : Z) (c : code) : Prop :=
  forall en m d (f : list A -> outcome bool), state_ok U g P en m -> m.(stack) = [] ->
    (forall items m', o_items en = Def items -> items <> [] -> len items <= i64_MAX -> keeps U m m' -> m'.(stack) = [] ->
       int_slot m' vn (len items) -> J en items 0 m' -> ends rt H id U d m' (f items)) ->
    ends rt H id U (c ++ d) m (items ← o_items en; if bool_decide (items = []) then Def false else f items).

Definition prepares (H : Z * code) (c : code) : Prop :=
  forall en items k x m, state_ok U g P en m -> o_items en = Def items -> get items k = Some x -> int_slot m vi k -> J en items k m ->
    does rt H V c m (prepare en x) (fun y m' => m'.(stack) = m.(stack) /\ ready en y m').

Definition tests (H : Z * code) (c : code) : Prop :=
  forall en y m, ready en y m -> does rt H V c m (test en y) (pushed_bool m.(stack)).

Definition steps (H : Z * code) (c : code) : Prop :=
  forall en items k m, state_ok U g P en m -> o_items en = Def items -> 0 <= k < len items -> J en items k m ->
    does rt H (U ∪ loop_set fv) c m (Def tt) (fun _ m' => m'.(stack) = m.(stack) /\ J en items (k + 1) m').

Hypothesis Hinit : forall H n id, H.1 < n -> handler_ok rt H -> H.1 < id < n -> emits H n (loop_init vn id) (inits H id).
Hypothesis Hbefore : forall H n, H.1 < n -> handler_ok rt H -> emits H n (before_cond vi) (prepares H).
Hypothesis Hbody : forall H n, H.1 < n -> handler_ok rt H -> emits H n body (tests H).
Hypothesis Hafter : forall H n, H.1 < n -> handler_ok rt H -> emits H n (after_cond vn) (steps H).
Hypothesis Hready : forall en y m, ready en y m -> ready en y (set_stack [] m).
Hypothesis HJ : forall en items k m m', J en items k m -> keeps (U ∪ W) m m' -> J en items k m'.

Definition emit_repeat (loop_start : Z) : M T code :=
  after ← after_cond vn;
  incr ← incr_var vi;
  ci ← load_var vi;
  cn ← load_var vn;
  mret (after ++ incr ++ ci ++ cn ++ [Binop I64LtS; BrIf loop_start]).

Lemma repeat_emitted H n loop_start :
  H.1 < n -> handler_ok rt H -> emits H n (emit_repeat loop_start) (fun c => exists a, steps H a /\ c = repeat_code H fv a loop_start).
Proof.
  intros Hn Hh. destruct loop_vars_ok as ([On Tn] & [Oi Ti] & _ & _). unfold emit_repeat.
  eapply emits_bind; [by apply Hafter|]. intros a. eapply emits_bind; [by apply emits_incr_var|]. intros ci.
  eapply emits_bind; [apply (emits_load_var _ _ H n vi Mem_I64); by rewrite Ti|]. intros c2.
  eapply emits_bind; [apply (emits_load_var _ _ H n vn Mem_I64); by rewrite Tn|]. intros c3. apply emits_ret.
  intros <- <- <- Ha. by exists a.
Qed.

Definition emit_decide (loop_end loop_start : Z) : M T code :=
  match quant with
  | Quantifier.None =>
      repeat ← emit_repeat loop_start;
      mret [IfElse (Some I32) [i32_const 0; Br loop_end] (repeat ++ [i32_const 1; Br loop_end])]
  | Quantifier.All =>
      repeat ← emit_repeat loop_start;
      mret [IfElse (Some I32) (repeat ++ [i32_const 1; Br loop_end]) [i32_const 0; Br loop_end]]
  | Quantifier.Any =>
      repeat ← emit_repeat loop_start;
      mret [IfElse (Some I32) [i32_const 1; Br loop_end] (repeat ++ [i32_const 0; Br loop_end])]
  | Quantifier.Percentage _ | Quantifier.Expr _ =>
      incr ← incr_var vcount;
      cc ← load_var vcount;
      cm ← load_var vmax;
      cm' ← load_var vmax;
      repeat ← emit_repeat loop_start;
      cm'' ← load_var vmax;
      mret ([IfElse None
               (incr ++ cc ++ cm ++ [Binop I64GeS; IfElse None (cm' ++ [i64_const 0; Binop I64Ne; Br loop_end]) []]) []] ++
            repeat ++ cm'' ++ [Unop I64Eqz])
  end.

Lemma decide_emitted H n loop_end loop_start :
  H.1 < n -> handler_ok rt H ->
  emits H n (emit_decide loop_end loop_start) (fun c => exists a, steps H a /\ c = decide_code H fv quant a loop_end loop_start).
Proof.
  intros Hn Hh. destruct loop_vars_ok as (_ & _ & [Om Tm] & [Oc Tc]). unfold emit_decide.
  assert (Hcounted : emits H n
    (incr ← incr_var vcount; cc ← load_var vcount; cm ← load_var vmax; cm' ← load_var vmax; repeat ← emit_repeat loop_start; cm'' ← load_var vmax;
     mret ([IfElse None (incr ++ cc ++ cm ++ [Binop I64GeS; IfElse None (cm' ++ [i64_const 0; Binop I64Ne; Br loop_end]) []]) []] ++
            repeat ++ cm'' ++ [Unop I64Eqz]))
    (fun c => exists a, steps H a /\ c = decide_code H fv (Quantifier.Expr 0) a loop_end loop_start)).
  { assert (Hm : forall n, emits H n (load_var vmax) (eq (load_code H Mem_I64 vmax))) by (intros; apply emits_load_var; by rewrite Tm).
    eapply emits_bind; [by apply emits_incr_var|]. intros c1. eapply emits_bind; [apply (emits_load_var _ _ H n vcount Mem_I64); by rewrite Tc|]. intros c2.
    eapply emits_bind; [apply Hm|]. intros c3. eapply emits_bind; [apply Hm|]. intros c4.
    eapply emits_bind; [by apply repeat_emitted|]. intros c5. eapply emits_bind; [apply Hm|]. intros c6. apply emits_ret.
    intros <- (a & Ha & ->) <- <- <- <-. by exists a. }
  destruct quant; try exact Hcounted; (eapply emits_bind; [by apply repeat_emitted|]); intros c; apply emits_ret; intros (a & Ha & ->); by exists a.
Qed.

Lemma for_compiled :
  compiled (emit_for em fv quant loop_init before_cond body after_cond)
    (fun en => items ← o_items en;
       if bool_decide (items = []) then Def false
       else q ← eval_quantifier ev quant (len items) en; quantify q 0 (prepare en) (test en) items) pushed_bool.
Proof.
  intros H n Hn Hh. destruct loop_vars_ok as (On & Oi & Om & Oc). pose proof (vars_distinct fv Hdistinct) as (D1 & D2 & D3 & D4 & D5 & D6).
  destruct (loop_set_vars fv) as (Ln & Li & Lm & Lc). pose proof (vars_fresh fv U Hfresh) as (F1 & F2 & F3 & F4).
  assert (NiW : vi.(Var.index) ∉ W) by set_solver + HW Li.
  unfold emit_for. apply emits_fresh. intros loop_end He. eapply emits_bind; [apply (Hinit H (loop_end + 1) loop_end); [lia|done|lia]|]. intros init.
  eapply emits_bind; [by apply emits_set_zero|]. intros ci. eapply emits_bind; [apply quantifier_emitted; [lia|done]|]. intros cq.
  apply emits_fresh. intros loop_start Hls. eapply emits_bind; [apply Hbefore; [lia|done]|]. intros cb.
  eapply emits_bind with (P := fun c => exists tid ct, c = [Block tid (Some I32) ct] /\ tests (tid, [i32_const 0]) ct).
  { apply emits_catch. intros tid Htid. eapply emits_weaken; [apply Hbody; [cbn; lia|apply const_handler_ok]|]. intros ct Hct. by exists tid, ct. }
  intros ctest. eapply emits_bind; [apply (decide_emitted H _ loop_end loop_start); [lia|done]|]. intros cd. apply emits_ret.
  intros (a & Ha & ->) (tid & ct & -> & Ht) Hcb Hcq <- Hci en m Hm.
  apply does_block_ends; [done|by eapply state_flags|lia|]. eapply Hci; [by eapply state_next; [|exact Hm|apply keeps_refl]|done|].
  intros items m1 Hitems Hne Hlen K1 S1 Hn1 J1. assert (Hm1 : state_ok U g P en m1).
  { eapply state_next; [done|exact Hm|]. by eapply keeps_from. }
  (* the index of the item *)
  change (ends rt H loop_end U (set_var_code Mem_I64 vi [i64_const 0] ++ cq ++ [Loop loop_start (Some I32) (cb ++ [Block tid (Some I32) ct] ++ decide_code H fv quant a loop_end loop_start)]) m1
    (_ ← Def 0; q ← eval_quantifier ev quant (len items) en; quantify q 0 (prepare en) (test en) items)).
  eapply ends_bind with (R := fun z m' => m'.(stack) = [] /\ int_slot m' vi 0 /\ int_slot m' vn (len items) /\ J en items 0 m').
  { pose proof (does_set_zero H (U ∪ {[vn.(Var.index)]} ∪ W) vi m1 Oi ltac:(set_solver + F2 D1 NiW) ltac:(by eapply state_flags)) as Hd.
    eapply runs_weaken; [exact Hd|]. intros r (m2 & -> & K2 & S2 & Hi). exists m2. split_and!; [done|eapply keeps_sub; [|exact K2]; set_solver +|congruence|done| |].
    - apply (int_slot_keeps h (U ∪ {[vn.(Var.index)]} ∪ W) m1); [set_solver +|done|done|done].
    - eapply HJ; [exact J1|]. eapply keeps_sub; [|exact K2]. set_solver +. }
  intros _ m2 _ K2 (S2 & Hi2 & Hn2 & J2). assert (Hm2 : state_ok U g P en m2) by by eapply state_next.
  (* the quantifier *)
  eapply ends_bind with (R := fun q m' => m'.(stack) = [] /\ int_slot m' vi 0 /\ int_slot m' vn (len items) /\ J en items 0 m' /\ quantifier_set_up q m').
  { eapply does_sub with (V := quantifier_set); [unfold quantifier_set; set_solver +|].
    eapply does_weaken; [eapply Hcq; [|exact Hn2]|].
    - apply (state_grow h s num_ids U); [unfold quantifier_set; set_solver +|exact Hm2].
    - intros q m3 _ K3 [S3 Hq]. split_and!; [congruence| | | |done].
      + apply (int_slot_keeps h quantifier_set m2); [unfold quantifier_set; set_solver +|done|done|done].
      + apply (int_slot_keeps h quantifier_set m2); [unfold quantifier_set; set_solver +|done|done|done].
      + eapply HJ; [exact J2|]. eapply keeps_sub; [|exact K3]. unfold quantifier_set. set_solver +. }
  intros q m3 _ K3 (S3 & Hi3 & Hn3 & J3 & [Hq Hset]). assert (Hm3 : state_ok U g P en m3) by by eapply state_next.
  (* the items *)
  eapply (loop_ends rt h H fv U loop_end loop_start) with (W := W) (J := fun k m => state_ok U g P en m /\ J en items k m) (ready := ready en) (q := q)
    (items := items) (k := 0); try done; try lia.
  - intros k m0 m' [Hs0 J0] K0. split; [|by eapply HJ]. eapply state_next; [done|exact Hs0|]. eapply keeps_sub; [|exact K0]. set_solver +.
  - intros k x m0 Hx Hi0 [Hs0 J0]. by eapply Hcb.
  - intros y m0 Hy. apply (Ht en y (set_stack [] m0)). by apply Hready.
  - intros k m0 Hk [Hs0 J0]. eapply does_weaken; [by eapply Ha|]. intros _ m' _ K' [S' J']. split_and!; [done| |done].
    eapply state_next; [done|exact Hs0|]. eapply keeps_sub; [|exact K']. set_solver +.
Qed.
End EmitFor.
