(* ===== verification/EmitLoops.v ===== *)
(** What the code of each kind of loop does: [of] and [for ... of] over
    patterns, [of] over expressions, and [for ... in] over ranges and
    expressions; and [of] over patterns without a loop, with the patterns grouped
    in ranges of consecutive identifiers. *)

From Stdlib Require Import SpecFloat.
From stdpp Require Import gmap strings sorting.
From S2P Require Import Prelude.
From S2P Require Import Matches.
From S2P Require Import StringPool.
From S2P Require Import Float64.
From S2P Require Import Types.
From S2P Require Import IR.
From S2P Require Import Builtins.
From S2P Require Import Eval.
From S2P Require Import EvalTypes.
From S2P Require Import Wasm.
From S2P Require Import RuntimeString.
From S2P Require Import Host.
From S2P Require Import Emit.
From S2P Require Import EmitExpr.
From S2P Require Import WasmProps.
From S2P Require Import EmitRel.
From S2P Require Import EmitOps.
From S2P Require Import EmitNodes.
From S2P Require Import EmitFor.
#[local] Open Scope Z_scope.

(** The variables of a loop are not in use. *)
Record frame_ok (U : gset Z) (fv : ForVars) : Prop := {
  ff_vars : Forall int_var (loop_vars fv);
  ff_distinct : NoDup (Var.index <$> loop_vars fv);
  ff_fresh : Forall (fun v => v.(Var.index) ∉ U) (loop_vars fv);
}.

Section Loops.
Context {T : Type} {ST : SymbolTable T} {STL : SymbolTableLaws T} {BS : ByteStrings}.
Context (ir : IR) (objects : Objects) (h : HostContext) (s : Scanned) (num_ids : Z) (literals : list (list Z)).
Notation strings := h.(h_strings).
Notation rt := (host_runtime h).
Notation patterns := s.(sc_patterns).
Notation state_ok := (state_ok h s num_ids).
Notation emits := (emits (T := T) strings literals).
Notation pushed := (pushed strings).
Notation int_slot := (int_slot h).
Notation slot := (slot h).
Hypothesis Hscan : scan_ok h s num_ids.
Context (ev : env -> Z -> outcome value) (em : Z -> M T code).
Context (U : gset Z) (g : gmap Z Ty.t) (P : gset Z).
Notation compiles := (compiles ir h s num_ids literals ev em).
Notation compiled := (compiled h s num_ids literals U g P).
Context (fv : ForVars) (quant : Quantifier.t).
Hypothesis Hframe : frame_ok U fv.

Notation vn := fv.(fv_n).
Notation vi := fv.(fv_i).
Notation item := fv.(fv_item).

(** The variables in use in the body of a loop. *)
Definition body_set : gset Z := U ∪ loop_set fv.
Notation quantifier_ok := (quantifier_ok ir h s num_ids literals ev em U g P fv quant).

(** A variable that gets a value. *)
Lemma state_bind V V' P' en m v x :
  state_ok V g P en m -> V ⊆ V' -> v.(Var.index) ∈ V' -> is_slot v.(Var.index) -> slot m v.(Var.index) v.(Var.ty) x ->
  (forall i, i ∈ P' -> i <> v.(Var.index) -> i ∈ P) ->
  (v.(Var.index) ∈ P' -> exists id, x = Some (VInt id) /\ 0 <= id < num_ids) ->
  state_ok V' (bind_ty v g) P' (bind_var v x en) m.
Proof.
  intros [A1 A2 A3 A4] HV Hv Hs Hx HP Hid. split; [done|..].
  - intros i t. rewrite lookup_bind_ty. case_decide as E; [intros _; by subst|]. intros Hi. destruct (A2 i t Hi) as [HU Hsl]. split; [by apply HV|done].
  - intros i t. rewrite lookup_bind_ty, lookup_bind_var. case_decide as E; [intros [= <-]; by subst|]. apply A3.
  - intros i y Hi. rewrite lookup_bind_var. case_decide as E.
    + subst i. destruct (Hid Hi) as (id & -> & Hr). intros [= <-]. by exists id.
    + apply A4. apply HP; [done|congruence].
Qed.

(** ** Variables that may be undefined *)

Lemma undef_handler_ok v id : is_slot v.(Var.index) -> handler_ok rt (id, set_var_undef v true).
Proof.
  intros Hv m [w Hw]. cbn [fst snd]. apply run_set_undef with w; [done..|]. intros mm _ _. wstep. by eexists.
Qed.

(** A variable gets the value, or its flag is set. *)
Lemma does_catch_var H V id v c m (o : outcome value) :
  is_slot v.(Var.index) -> v.(Var.index) ∉ V -> has_flags m ->
  does rt (id, set_var_undef v true) V c (set_stack [] m) o
    (fun x m' => m'.(stack) = [] /\ slot m' v.(Var.index) v.(Var.ty) (Some x)) ->
  does rt H V [Block id None c] m (catch_option o) (fun x m' => m'.(stack) = m.(stack) /\ slot m' v.(Var.index) v.(Var.ty) x).
Proof.
  intros Hv HV Hf Hc. destruct o as [x| | | |]; cbn [catch_option]; try done; apply runs_block; (eapply runs_weaken; [exact Hc|]).
  - intros r (m' & -> & Hk & Hs & Hx). cbn [exits]. apply runs_nil. eexists. split_and!; [done| |done|exact Hx].
    apply keeps_to. by eapply keeps_from.
  - intros r (_ & m' & Hk & Hr). apply keeps_from in Hk. destruct (has_flags_keeps _ _ _ Hk Hf) as [w Hw].
    eapply (runs_and_eq rt _ m' (fun r => exits _ _ _ _ _ r)); [exact Hr|]. cbn [fst snd]. apply run_set_undef with w; [done..|].
    intros mm Hst Hld. wstep. cbn [exits]. rewrite Z.eqb_refl. apply runs_nil. eexists. split_and!; [done| |done|].
    + apply keeps_to. eapply keeps_trans; [exact Hk|]. by eapply keeps_set_undef.
    + exists (with_flag v true w). split; [exact Hld|]. by rewrite testbit_with_flag, Z.eqb_refl.
  - by intros r <-.
Qed.

(** ** Loops over a list of items *)

Section List.
Context {A B : Type} (items : list A) (before_cond : Var.t -> M T code) (body : M T code).
Context (prepare : env -> A -> outcome B) (test : env -> B -> outcome bool) (ready : env -> B -> machine -> Prop).
Hypothesis Hquant : quantifier_ok ∅.
Hypothesis Hitems : items <> [] /\ len items <= i32_MAX.
Hypothesis Hbefore : forall H n, H.1 < n -> handler_ok rt H -> emits H n (before_cond vi)
  (fun c => forall en k x m, state_ok U g P en m -> get items k = Some x -> int_slot m vi k ->
    does rt H body_set c m (prepare en x) (fun y m' => m'.(stack) = m.(stack) /\ ready en y m')).
Hypothesis Hbody : forall H n, H.1 < n -> handler_ok rt H -> emits H n body
  (fun c => forall en y m, ready en y m -> does rt H body_set c m (test en y) (pushed_bool m.(stack))).
Hypothesis Hready : forall en y m, ready en y m -> ready en y (set_stack [] m).

Lemma list_compiled :
  compiled (emit_for em fv quant (init_number items) before_cond body no_code)
    (fun en => q ← eval_quantifier ev quant (len items) en; quantify q 0 (prepare en) (test en) items) pushed_bool.
Proof.
  destruct Hframe as [Fv Fd Ff]. destruct Hitems as [Hne Hlen].
  eapply compiled_ext; [eapply (for_compiled ir h s num_ids literals Hscan ev em U g P fv quant ∅ Fv Fd Ff) with
    (o_items := fun _ => Def items) (prepare := prepare) (test := test) (J := fun _ _ _ _ => True) (ready := ready)|].
  - set_solver +.
  - exact Hquant.
  - intros H n id Hn Hh Hid. unfold init_number. apply Forall_cons in Fv as [Vn _]. apply Forall_cons in Ff as [Nn _].
    eapply emits_weaken; [apply (emits_set_var _ _ H n vn Mem_I64 _ (eq [i64_const (len items)])); [by destruct Vn as [_ ->]|by apply emits_ret]|].
    intros c (cn & -> & <-) en m d f Hm Hs Hf. eapply ends_bind with (R := fun _ m' => m'.(stack) = m.(stack) /\ int_slot m' vn (len items)).
    + assert (Hd : does rt H U (set_var_code Mem_I64 vn [i64_const (len items)]) m (Def (len items)) (fun z m' => stack m' = stack m /\ int_slot m' vn z)).
      { apply does_set_int; [done|done|by eapply state_flags|]. apply does_ret. wstep. run_next. split; [done|].
        unfold in_i64, i64_MIN, i64_MAX, i32_MAX in *. pose proof (len_nonneg items). lia. }
      eapply runs_weaken; [exact Hd|]. intros r (m' & -> & K' & S' & Hn'). exists m'. by split_and!.
    + intros items' m' [= <-] K' [S' Hn']. rewrite bool_decide_eq_false_2 by done. apply Hf; try done; [|congruence].
      unfold i32_MAX, i64_MAX in *. lia.
  - intros H n Hn Hh. eapply emits_weaken; [by apply Hbefore|]. intros c Hc en items' k x m Hm [= <-] Hx Hi _.
    unfold body_set in Hc. rewrite union_empty_r_L. by eapply Hc.
  - intros H n Hn Hh. eapply emits_weaken; [by apply Hbody|]. intros c Hc en y m Hy. rewrite union_empty_r_L. by apply Hc.
  - intros H n Hn Hh. apply emits_ret. intros en items' k m _ _ _ _. by apply does_nil.
  - exact Hready.
  - done.
  - intros en. cbn [mbind outcome_bind]. by rewrite bool_decide_eq_false_2.
Qed.
End List.

(** ** Loops over patterns *)

Hypothesis Hitem : int_var item.
Hypothesis Hitem_fresh : item.(Var.index) ∉ body_set.

Lemma frame_i : int_var vi.
Proof. destruct Hframe as [Fv _ _]. unfold loop_vars in Fv. rewrite !Forall_cons in Fv. tauto. Qed.

(** The variable of the item has the identifier of a pattern. *)
Definition at_pattern (en : env) (id : Z) (m : machine) : Prop :=
  state_ok U g P en m /\ int_slot m item id /\ 0 <= id < num_ids.

Lemma at_pattern_stack en id m : at_pattern en id m -> at_pattern en id (set_stack [] m).
Proof.
  intros (Hm & Hi & Hid). split_and!; [|exact Hi|apply Hid|apply Hid]. eapply state_next; [done|exact Hm|by apply keeps_refl].
Qed.

(** The code of an item in a switch. *)
Lemma does_load_switch {X} H (items : list X) t c (S : X -> code -> Prop) k x m (o : outcome value) st :
  (forall k x, get items k = Some x -> exists ck, S x ck /\ switches rt strings H t c k ck) ->
  get items k = Some x -> int_slot m vi k -> m.(stack) = st ->
  (forall ck l, S x ck -> does rt H body_set ck (set_locals l (set_stack [] m)) o (pushed t [])) ->
  handler_ok rt H ->
  does rt H body_set (load_code H Mem_I64 vi ++ c) m o (pushed t st).
Proof.
  intros Hc Hx Hi Hs Hd Hh. destruct (Hc k x Hx) as (ck & Hck & Hsw). replace o with (_ ← Def tt; o) by done.
  eapply does_bind with (R := fun _ m' => m' = set_stack (VI64 k :: m.(stack)) m).
  - apply does_ret. rewrite <- (app_nil_r (load_code H Mem_I64 vi)). apply (run_load_int rt h H vi k); [apply frame_i|done|]. by run_next.
  - intros _ m' _ _ ->. apply Hsw; [by rewrite Hs|exact (int_slot_flags h _ _ _ Hi)|]. intros l. by apply (Hd ck).
Qed.

Lemma select_emitted H n items :
  H.1 < n -> handler_ok rt H -> items <> [] -> len items <= i32_MAX -> Forall (fun idx => is_Some (get patterns idx)) items ->
  emits H n (select_pattern patterns item items vi)
    (fun c => forall en k x m, state_ok U g P en m -> get items k = Some x -> int_slot m vi k ->
       does rt H body_set c m (Eval.pattern_id s x) (fun id m' => m'.(stack) = m.(stack) /\ at_pattern en id m')).
Proof.
  intros Hn Hh Hne Hlen Hpat. unfold select_pattern. destruct Hscan as [_ _ Hids [_ Hnum] _ _ _ _].
  set (S := fun x c => exists id, get patterns x = Some id /\ c = [i64_const id]).
  eapply emits_weaken; [apply (emits_set_var _ _ H n item Mem_I64 _ (fun d => exists c, d = load_code H Mem_I64 vi ++ c /\
    forall k x, get items k = Some x -> exists ck, S x ck /\ switches rt strings H Ty.Integer c k ck)); [by destruct Hitem as [_ ->]|]|].
  { eapply emits_bind; [apply (emits_load_var _ _ H n vi Mem_I64); by destruct frame_i as [_ ->]|]. intros cl.
    eapply emits_bind; [apply (switch_emitted rt strings literals H n Ty.Integer I64 _ items S); try done|].
    - eapply Forall_impl; [exact Hpat|]. intros x [id Hid] n' _. unfold EmitExpr.pattern_id.
      eapply emits_bind with (P := eq id); [eapply emits_lift; [cbn; by rewrite Hid|done]|].
      intros id'. apply emits_ret. intros <-. by exists id.
    - intros c. apply emits_ret. intros Hc <-. by exists c. }
  intros c (d & -> & csw & -> & Hsw) en k x m Hm Hx Hi.
  assert (Hix : is_Some (get patterns x)). { apply get_Some in Hx as [_ Hx]. by eapply Forall_lookup_1 in Hpat. }
  destruct Hix as [id Hid]. pose proof Hid as [_ Hl]%get_Some. eapply Forall_lookup_1 in Hids; [|exact Hl]. cbn in Hids.
  unfold Eval.pattern_id. rewrite Hid.
  assert (H64 : in_i64 id) by (unfold in_i64, i64_MIN, i64_MAX, i32_MAX in *; lia).
  assert (Hd : does rt H body_set (set_var_code Mem_I64 item (load_code H Mem_I64 vi ++ csw)) m (Def id) (fun z m' => stack m' = stack m /\ int_slot m' item z)).
  { apply does_set_int; [done|done|by eapply state_flags|].
    assert (Hv : does rt H body_set (load_code H Mem_I64 vi ++ csw) (set_stack (VI32 (8 * item.(Var.index)) :: stack m) m) (Def (VInt id))
      (pushed Ty.Integer (VI32 (8 * item.(Var.index)) :: stack m))).
    { eapply (does_load_switch H items); [exact Hsw|exact Hx|exact Hi|done| |done]. intros ck l (id' & Hid' & ->). rewrite Hid in Hid'. injection Hid' as <-.
      apply does_ret. wstep. run_next. by apply pushed_VInt. }
    eapply runs_weaken; [exact Hv|]. intros r (m' & -> & K' & Hp). exists m'. split_and!; [done..|]. by apply (pushed_VInt strings). }
  eapply does_weaken; [exact Hd|]. intros z m' [= <-] K' [S' Hz]. split; [done|]. split; [|by split].
  eapply state_next; [done|exact Hm|]. eapply keeps_sub; [|exact K']. unfold body_set. set_solver +.
Qed.

(** [of] over patterns, with a loop. *)
Lemma of_pattern_loop_compiled items anchor :
  quantifier_ok ∅ -> items <> [] -> len items <= i32_MAX -> Forall (fun idx => is_Some (get patterns idx)) items ->
  anchor_ok ir h s num_ids literals ev em body_set g P anchor ->
  compiled (emit_of_pattern_set_with_loop patterns em quant items fv anchor)
    (fun en => q ← eval_quantifier ev quant (len items) en; quantify q 0 (Eval.pattern_id s) (fun id => eval_match s ev en id anchor) items) pushed_bool.
Proof.
  intros Hq Hne Hlen Hpat Ha. unfold emit_of_pattern_set_with_loop. rewrite bool_decide_eq_false_2 by done.
  apply (list_compiled items _ _ (fun _ => Eval.pattern_id s) (fun en id => eval_match s ev en id anchor) at_pattern); [done|done| | |apply at_pattern_stack].
  - intros H n Hn Hh. by apply select_emitted.
  - intros H n Hn Hh. eapply emits_bind; [apply (emits_load_var _ _ H n item Mem_I64); by destruct Hitem as [_ ->]|]. intros cl.
    eapply emits_bind; [by eapply (anchor_emitted ir h s num_ids literals Hscan ev em body_set g P)|]. intros cc. apply emits_ret.
    intros Hc <- en id m (Hm & Hi & Hid). replace (eval_match s ev en id anchor) with (_ ← Def tt; eval_match s ev en id anchor) by done.
    rewrite app_assoc. eapply does_bind with (R := fun _ m' => m' = set_stack (VI32 id :: m.(stack)) m).
    + apply does_ret. rewrite <- (app_nil_r (_ ++ [Unop _])), <- app_assoc. apply (run_load_int rt h H item id); [done..|]. cbn [app]. wstep.
      apply runs_nil. eexists. split_and!; [reflexivity|by apply keeps_refl|]. destruct Hscan as [_ _ _ [_ Hnum] _ _ _ _].
      unfold set_stack. cbn. unfold wrap_u32. rewrite Z.mod_small by (unfold i32_MAX in *; lia). done.
    + intros _ m' _ _ ->. apply Hc; [|by split]. eapply state_next; [exact Hscan|apply (state_grow h s num_ids U); [|exact Hm]; unfold body_set; set_solver +|by apply keeps_refl].
Qed.

(** [for ... of] *)
Lemma for_of_compiled items body :
  quantifier_ok ∅ -> items <> [] -> len items <= i32_MAX -> Forall (fun idx => is_Some (get patterns idx)) items ->
  compiles (body_set ∪ {[item.(Var.index)]}) (bind_ty item g) (P ∪ {[item.(Var.index)]}) body -> castable (ty_at ir body) = true ->
  compiled (emit_for_of_pattern_set ir patterns em quant fv items body)
    (fun en => q ← eval_quantifier ev quant (len items) en;
       quantify q 0 (Eval.pattern_id s) (fun id => eval_bool ev (bind_var item (Some (VInt id)) en) body) items) pushed_bool.
Proof.
  intros Hq Hne Hlen Hpat Hb Ht. unfold emit_for_of_pattern_set.
  apply (list_compiled items _ _ (fun _ => Eval.pattern_id s) (fun en id => eval_bool ev (bind_var item (Some (VInt id)) en) body) at_pattern); [done|done| | |apply at_pattern_stack].
  - intros H n Hn Hh. by apply select_emitted.
  - intros H n Hn Hh. eapply emits_weaken; [by eapply bool_compiled|]. cbn. intros c Hc en id m (Hm & Hi & Hid).
    eapply does_sub; [|apply Hc]; [set_solver +|]. destruct Hitem as [Hs Ht'].
    eapply state_bind; [exact Hm|unfold body_set; set_solver +|set_solver +|exact Hs|by rewrite Ht'|set_solver +|]. intros _. by exists id.
Qed.


(** ** Loops over expressions *)

Context (v : Var.t).
Hypothesis Hv : is_slot v.(Var.index) /\ v.(Var.index) ∉ body_set.

Lemma val_type_ok t : castable t = true -> exists ty k, val_type_of t = Ret ty /\ var_kind t = Ret k.
Proof. destruct t; try done; intros _; by eexists _, _. Qed.

(** The i-th expression is evaluated into the variable. *)
Lemma item_emitted {X} H n (f : X -> M T code) (items : list X) (o : env -> X -> outcome value) :
  H.1 < n -> handler_ok rt H -> items <> [] -> len items <= i32_MAX -> castable v.(Var.ty) = true ->
  Forall (fun x => forall n, H.1 < n -> emits H n (f x) (fun c => forall en m, state_ok body_set g P en m ->
    does rt H body_set c m (o en x) (pushed v.(Var.ty) m.(stack)))) items ->
  emits H n (set_var v (c ← load_var vi; ty ← lift (val_type_of v.(Var.ty)); switch ← emit_switch ty (f <$> items); mret (c ++ switch)))
    (fun c => forall en k x m, state_ok U g P en m -> get items k = Some x -> int_slot m vi k ->
      does rt H body_set c m (o en x) (fun y m' => m'.(stack) = m.(stack) /\ slot m' v.(Var.index) v.(Var.ty) (Some y))).
Proof.
  intros Hn Hh Hne Hlen Ht Hf. destruct (val_type_ok _ Ht) as (ty & k0 & Hty & Hk). destruct Hv as [Hs HV].
  set (S := fun x c => forall en m, state_ok body_set g P en m -> does rt H body_set c m (o en x) (pushed v.(Var.ty) m.(stack))).
  eapply emits_weaken; [apply (emits_set_var _ _ H n v k0 _ (fun d => exists c, d = load_code H Mem_I64 vi ++ c /\
    forall k x, get items k = Some x -> exists ck, S x ck /\ switches rt strings H v.(Var.ty) c k ck)); [done|]|].
  { eapply emits_bind; [apply (emits_load_var _ _ H n vi Mem_I64); by destruct frame_i as [_ ->]|]. intros cl.
    eapply emits_bind_pure; [apply (pure_lift _ _ H n _ (eq ty) (fun _ => True) ty); done|]. intros ? <-.
    eapply emits_bind; [apply (switch_emitted rt strings literals H n v.(Var.ty) ty f items S); done|]. intros c. apply emits_ret.
    intros Hc _ <-. by exists c. }
  intros c (d & -> & csw & -> & Hsw) en k x m Hm Hx Hi. apply does_set; [done|done|done|by eapply state_flags|]. cbn zeta.
  eapply (does_load_switch H items); [exact Hsw|exact Hx|exact Hi|done| |done]. intros ck l Hck.
  apply (Hck en (set_locals l (set_stack [] (set_stack _ m)))). eapply state_next; [exact Hscan|apply (state_grow h s num_ids U); [|exact Hm]; unfold body_set; set_solver +|by apply keeps_refl].
Qed.

(** [for ... in] over expressions *)
Lemma for_in_tuple_compiled items body :
  quantifier_ok ∅ -> items <> [] -> len items <= i32_MAX -> castable v.(Var.ty) = true ->
  Forall (fun id => compiles body_set g P id /\ ty_at ir id = v.(Var.ty)) items ->
  compiles (body_set ∪ {[v.(Var.index)]}) (bind_ty v g) (P ∖ {[v.(Var.index)]}) body -> castable (ty_at ir body) = true ->
  compiled (emit_for_in_expr_tuple ir em quant [v] fv items body)
    (fun en => q ← eval_quantifier ev quant (len items) en;
       quantify q 0 (fun id => catch_option (ev en id)) (fun x => eval_bool ev (bind_var v x en) body) items) pushed_bool.
Proof.
  intros Hq Hne Hlen Hvt Hits Hb Ht. unfold emit_for_in_expr_tuple. destruct Hv as [Hs HV].
  apply (list_compiled items _ _ (fun en id => catch_option (ev en id)) (fun en x => eval_bool ev (bind_var v x en) body)
    (fun en x m => state_ok U g P en m /\ slot m v.(Var.index) v.(Var.ty) x)); [done|done| | |].
  - intros H n Hn Hh. apply emits_catch. intros id Hid.
    eapply emits_weaken; [apply (item_emitted _ _ em items (fun en id => ev en id)); [cbn; lia|by apply undef_handler_ok|done..|]|].
    { eapply Forall_impl; [exact Hits|]. cbn. intros x [[_ Hx] Htx] n' Hn'. eapply emits_weaken; [apply Hx; [done|by apply undef_handler_ok]|].
      intros c Hc en m Hm. rewrite <- Htx. by apply Hc. }
    cbn. intros c Hc en k x m Hm Hx Hi. eapply does_weaken; [apply (does_catch_var H body_set id v c m (ev en x)); [done|done|by eapply state_flags|]|].
    + eapply does_weaken; [apply (Hc en k x (set_stack [] m)); [|done|exact Hi]|by intros y m' _ _ [S' Hy]].
      eapply state_next; [exact Hscan|exact Hm|by apply keeps_refl].
    + intros y m' _ K' [S' Hy]. split_and!; [done| |done]. eapply state_next; [exact Hscan|exact Hm|]. eapply keeps_sub; [|exact K']. unfold body_set. set_solver +.
  - intros H n Hn Hh. eapply emits_weaken; [by eapply bool_compiled|]. cbn. intros c Hc en x m (Hm & Hx).
    eapply does_sub; [|apply Hc]; [set_solver +|].
    eapply state_bind; [exact Hm|unfold body_set; set_solver +|set_solver +|exact Hs|exact Hx|set_solver +|set_solver +].
  - intros en x m [Hm Hx]. split; [|exact Hx]. eapply state_next; [exact Hscan|exact Hm|by apply keeps_refl].
Qed.

(** [of] over expressions *)
Lemma of_tuple_compiled items :
  item = v -> v.(Var.ty) = Ty.Bool -> quantifier_ok ∅ -> items <> [] -> len items <= i32_MAX ->
  Forall (fun id => compiles body_set g P id /\ castable (ty_at ir id) = true) items ->
  compiled (emit_of_expr_tuple ir em quant items fv)
    (fun en => q ← eval_quantifier ev quant (len items) en; quantify q 0 (eval_bool ev en) Def items) pushed_bool.
Proof.
  intros Ei Hvt Hq Hne Hlen Hits. unfold emit_of_expr_tuple. rewrite Ei. destruct Hv as [Hs HV].
  apply (list_compiled items _ _ (eval_bool ev) (fun _ b => Def b) (fun _ b m => slot m v.(Var.index) Ty.Bool (Some (VBool b)))); [done|done| | |].
  - intros H n Hn Hh. eapply emits_weaken.
    { apply (item_emitted H n (emit_bool_expr ir em) items (fun en x => b ← eval_bool ev en x; Def (VBool b))); [done|done|done|done|by rewrite Hvt|].
      eapply Forall_impl; [exact Hits|]. cbn. intros x [Hx Htx] n' Hn'. rewrite Hvt.
      assert (Hc : EmitNodes.compiled h s num_ids literals body_set g P (emit_bool_expr ir em x) (fun en => eval_bool ev en x) pushed_bool) by by apply bool_compiled.
      exact (to_value_compiled h s num_ids literals body_set g P _ _ Hc H n' Hn' Hh). }
    cbn. intros c Hc en k x m Hm Hx Hi. specialize (Hc en k x m Hm Hx Hi). rewrite Hvt in Hc. by destruct (eval_bool ev en x).
  - intros H n Hn Hh. eapply emits_weaken; [apply (emits_load_var _ _ H n v Mem_I32); by rewrite Hvt|].
    intros c <- en b m Hb. rewrite <- Hvt in Hb. pose proof (does_load rt h H body_set Mem_I32 v (Some (VBool b)) m Hh Hs ltac:(by rewrite Hvt) Hb) as Hd.
    rewrite Hvt in Hd. eapply runs_weaken; [exact Hd|]. intros r (m' & -> & K' & Hp). exists m'. split_and!; [done..|]. by apply (pushed_VBool strings).
  - done.
Qed.

(** ** Loops over a range *)

Definition range_at (en : env) (items : list Z) (k : Z) (m : machine) : Prop :=
  exists lo, int_slot m v (wrap_i64 (lo + k)) /\ items = wrap_i64 <$> seqZ lo (len items).

Lemma range_item items lo k z : items = wrap_i64 <$> seqZ lo (len items) -> get items k = Some z -> z = wrap_i64 (lo + k).
Proof.
  intros Hi Hg. apply get_Some in Hg as [Hk Hg]. rewrite Hi in Hg. apply list_lookup_fmap_Some in Hg as (y & -> & Hy).
  apply lookup_seqZ in Hy as [-> Hy]. f_equal. lia.
Qed.

Lemma wrap_i64_succ z : wrap_i64 (wrap_i64 z + 1) = wrap_i64 (z + 1).
Proof. unfold wrap_i64, wrap_isize. lia_mod. Qed.

(** The number of items and the first one. *)
Lemma range_init_does H c lo hi id en m :
  v.(Var.ty) = Ty.Integer ->
  (forall en m, state_ok U g P en m -> does rt (id, [i64_const 0]) U c m (hi_ ← eval_int ev en hi; lo_ ← eval_int ev en lo; Def (hi_, lo_)) (two_ints m.(stack))) ->
  state_ok U g P en m ->
  does rt H U (set_var_code Mem_I64 vn [Block id (Some I64) (c ++ [LocalTee I64TmpA; Binop I64Sub; i64_const 1; Binop I64Add])]) m
    (range_items ev en {| lower_bound := lo; upper_bound := hi |})
    (fun items m' => m'.(stack) = m.(stack) /\ exists n l, items = wrap_i64 <$> seqZ l n /\ in_i64 n /\ int_slot m' vn n /\
       (0 < n -> m'.(locals) I64TmpA = VI64 l /\ in_i64 l)).
Proof.
  intros Ht Hc Hm. destruct Hframe as [Fv Fd Ff]. apply Forall_cons in Fv as [[Vn Tn] _]. apply Forall_cons in Ff as [Nn _].
  set (st := VI32 (8 * vn.(Var.index)) :: m.(stack)).
  specialize (Hc en (set_stack [] (set_stack st m)) ltac:(eapply state_next; [exact Hscan|exact Hm|by apply keeps_refl])).
  (* the value of the block *)
  set (o := bounds ← catch_option (hi_ ← eval_int ev en hi; lo_ ← eval_int ev en lo; Def (hi_, lo_));
            Def (match bounds with Some (a, b) => VInt (wrap_i64 (wrap_i64 (a - b) + 1)) | None => VInt 0 end)).
  assert (Hd : does rt H U (set_var_code Mem_I64 vn [Block id (Some I64) (c ++ [LocalTee I64TmpA; Binop I64Sub; i64_const 1; Binop I64Add])]) m o
    (fun x m' => m'.(stack) = m.(stack) /\ slot m' vn.(Var.index) vn.(Var.ty) (Some x) /\
       match catch_option (hi_ ← eval_int ev en hi; lo_ ← eval_int ev en lo; Def (hi_, lo_)) with
       | Def (Some (a, b)) => m'.(locals) I64TmpA = VI64 b /\ in_i64 b | _ => True end)).
  { apply (does_set_var rt h H U Mem_I64 vn _ m o (fun _ l => match catch_option (hi_ ← eval_int ev en hi; lo_ ← eval_int ev en lo; Def (hi_, lo_)) with
       | Def (Some (a, b)) => l I64TmpA = VI64 b /\ in_i64 b | _ => True end)); [done|done|by rewrite Tn|by eapply state_flags|].
    cbn zeta. fold st. rewrite Tn. unfold o.
    destruct (hi_ ← eval_int ev en hi; lo_ ← eval_int ev en lo; Def (hi_, lo_)) as [[a b]| | | |]; cbn [catch_option mbind outcome_bind does] in *; try done; apply runs_block.
    - apply runs_app. eapply runs_weaken; [exact Hc|]. intros r (m' & -> & K' & S' & Ha & Hb). cbn [fst snd] in *. cbn [follow].
      cbn in S'. open_machine m' S'. do 4 wstep. apply runs_nil. cbn [exits]. apply runs_nil. eexists. split; [reflexivity|]. split; [|split; [|by split]].
      + eapply keeps_from, keeps_from. repeat apply keeps_to. eapply keeps_trans; [exact K'|]. by apply keeps_refl.
      + apply pushed_VInt. split; [done|apply wrap_in_i64].
    - apply runs_app. eapply runs_weaken; [exact Hc|]. intros r (m' & K' & ->)%throws_const. cbn [follow exits]. rewrite Z.eqb_refl.
      apply runs_nil. eexists. split_and!; [reflexivity| | |done].
      + eapply keeps_from, keeps_from. eapply keeps_trans; [exact K'|]. by apply keeps_refl.
      + apply pushed_VInt. by split.
    - apply runs_app. eapply runs_weaken; [exact Hc|]. by intros r <-. }
  unfold range_items. cbn [lower_bound upper_bound].
  replace (hi0 ← eval_int ev en hi; lo0 ← eval_int ev en lo; Def (lo0, hi0)) with
    ('(a, b) ← (hi_ ← eval_int ev en hi; lo_ ← eval_int ev en lo; Def (hi_, lo_)); Def (b, a)).
  2: { destruct (eval_int ev en hi); try done. cbn. by destruct (eval_int ev en lo). }
  unfold o in Hd. rewrite Tn in Hd.
  destruct (hi_ ← eval_int ev en hi; lo_ ← eval_int ev en lo; Def (hi_, lo_)) as [[a b]| | | |]; cbn [catch_option mbind outcome_bind] in *; try done.
  - eapply runs_weaken; [exact Hd|]. intros r (m' & -> & K' & S' & Hx & Hl). exists m'. split_and!; [done..|].
    exists (wrap_i64 (wrap_i64 (a - b) + 1)), b. split; [done|]. split; [apply wrap_in_i64|]. split; [exact Hx|]. by intros _.
  - eapply runs_weaken; [exact Hd|]. intros r (m' & -> & K' & S' & Hx & _). exists m'. split_and!; [done..|].
    exists 0, 0. split; [done|]. split; [done|]. split; [exact Hx|lia].
Qed.

(** The loop ends when there are no items. *)
Definition exit_code (H : Z * code) (id : Z) : code :=
  load_code H Mem_I64 vn ++ [i64_const 0; Binop I64LeS; IfElse None [i32_const 0; Br id] []].

Lemma exit_emitted H n id : emits H n (exit_if_empty vn id) (eq (exit_code H id)).
Proof.
  destruct Hframe as [Fv _ _]. apply Forall_cons in Fv as [[_ Tn] _]. unfold exit_if_empty, exit_code.
  eapply emits_bind; [apply (emits_load_var _ _ H n vn Mem_I64); by rewrite Tn|]. intros c. apply emits_ret. by intros <-.
Qed.

Lemma exit_ends H id n c m o :
  int_slot m vn n -> (forall m', 0 < n -> keeps U m m' -> m'.(stack) = m.(stack) -> m'.(locals) = m.(locals) -> m'.(mem) = m.(mem) -> ends rt H id U c m' o) ->
  ends rt H id U (exit_code H id ++ c) m (if n <=? 0 then Def false else o).
Proof.
  intros Hn Hc. destruct Hframe as [Fv _ _]. apply Forall_cons in Fv as [Vn _]. apply ends_runs. intros Q Q1 Q2 Q3 Hs.
  unfold exit_code. rewrite <- app_assoc. apply (run_load_int rt h H vn n); [done..|]. cbn [app]. do 3 wstep.
  destruct (n <=? 0) eqn:E0; bools; cbn [b2i Z.eqb].
  - do 2 wstep. eapply Q1; [reflexivity| | |by right]; [repeat apply keeps_to; by apply keeps_refl|by eexists].
  - apply runs_nil. eapply ends_use; [apply Hc; [done|repeat apply keeps_to; by apply keeps_refl|done..]|done|..].
    + intros b m' r E K' Ht Hr. eapply Q1; [exact E| |exact Ht|exact Hr]. eapply keeps_trans; [|exact K']. repeat apply keeps_to. by apply keeps_refl.
    + intros r E Hr. apply Q2; [done|]. eapply throws_keeps; [|exact Hr]. repeat apply keeps_to. by apply keeps_refl.
    + done.
Qed.

Lemma seqZ_items l n : 0 < n -> (wrap_i64 <$> seqZ l n) <> [] /\ len (wrap_i64 <$> seqZ l n) = n.
Proof.
  intros Hn. assert (Hl : len (wrap_i64 <$> seqZ l n) = n) by (rewrite len_map; unfold len; rewrite length_seqZ; lia).
  split; [|done]. intros E. rewrite E, len_nil in Hl. lia.
Qed.

Lemma for_in_range_compiled lo hi body :
  quantifier_ok {[v.(Var.index)]} -> v.(Var.ty) = Ty.Integer ->
  compiles U g P lo -> ty_at ir lo = Ty.Integer -> compiles U g P hi -> ty_at ir hi = Ty.Integer ->
  compiles (body_set ∪ {[v.(Var.index)]}) (bind_ty v g) (P ∖ {[v.(Var.index)]}) body -> castable (ty_at ir body) = true ->
  compiled (emit_for_in_range ir em quant [v] fv {| lower_bound := lo; upper_bound := hi |} body)
    (fun en => items ← range_items ev en {| lower_bound := lo; upper_bound := hi |};
       if bool_decide (items = []) then Def false
       else q ← eval_quantifier ev quant (len items) en;
            quantify q 0 Def (fun z => eval_bool ev (bind_var v (Some (VInt z)) en) body) items) pushed_bool.
Proof.
  intros Hq Hvt Hlo Tlo Hhi Thi Hb Ht. unfold emit_for_in_range. destruct Hv as [Hs HV]. destruct Hframe as [Fv Fd Ff]. cbn [lower_bound upper_bound].
  assert (Hiv : int_var v) by done. assert (HvU : v.(Var.index) ∉ U) by (unfold body_set in HV; set_solver + HV).
  assert (HvL : v.(Var.index) ∉ loop_set fv) by (unfold body_set in HV; set_solver + HV).
  pose proof Fv as Fv2. apply Forall_cons in Fv2 as [Vn _]. pose proof Ff as Ff2. apply Forall_cons in Ff2 as [Nn _].
  destruct (loop_set_vars fv) as (Ln & _).
  eapply (for_compiled ir h s num_ids literals Hscan ev em U g P fv quant {[v.(Var.index)]} Fv Fd Ff) with
    (o_items := fun en => range_items ev en {| lower_bound := lo; upper_bound := hi |}) (prepare := fun _ => Def)
    (test := fun en z => eval_bool ev (bind_var v (Some (VInt z)) en) body) (J := range_at)
    (ready := fun en z m => state_ok U g P en m /\ int_slot m v z).
  - set_solver + HvL.
  - exact Hq.
  - intros H n id Hn Hh Hid.
    eapply emits_bind; [apply (emits_set_var _ _ H n vn Mem_I64 _ (fun d => exists bid c, d = [Block bid (Some I64) (c ++ [LocalTee I64TmpA; Binop I64Sub; i64_const 1; Binop I64Add])] /\
      forall en m, state_ok U g P en m -> does rt (bid, [i64_const 0]) U c m (hi_ ← eval_int ev en hi; lo_ ← eval_int ev en lo; Def (hi_, lo_)) (two_ints m.(stack)))); [by destruct Vn as [_ ->]|]|].
    { apply emits_catch. intros bid Hbid.
      eapply emits_bind; [eapply (int_compiled ir h s num_ids literals ev em U g P hi Hhi Thi (bid, [i64_const 0])); [cbn; lia|apply const_handler_ok]|]. intros chi.
      eapply emits_bind; [eapply (int_compiled ir h s num_ids literals ev em U g P lo Hlo Tlo (bid, [i64_const 0])); [cbn; lia|apply const_handler_ok]|]. intros clo.
      apply emits_ret. intros Hclo Hchi. exists bid, (chi ++ clo). split; [by rewrite <- app_assoc|]. intros en m Hm.
      by apply (does_two_ints h s num_ids Hscan ev U g P (bid, [i64_const 0]) chi clo hi lo). }
    intros ci. eapply emits_bind; [apply exit_emitted|]. intros ce.
    eapply emits_bind; [apply (emits_set_var _ _ H n v Mem_I64 _ (eq [LocalGet I64TmpA])); [by rewrite Hvt|by apply emits_ret]|]. intros cn. apply emits_ret.
    intros (d & -> & <-) <- (d2 & -> & bid & c & -> & Hc) en m dr f Hm Hst Hf. rewrite <- !app_assoc.
    eapply ends_bind; [by apply range_init_does|]. intros items m1 Hitems K1 (S1 & n0 & l & -> & Hn0 & Hn1 & Hl).
    assert (Hr : forall o, ends rt H id U (exit_code H id ++ set_var_code Mem_I64 v [LocalGet I64TmpA] ++ dr) m1 (if n0 <=? 0 then Def false else o) ->
      (0 < n0 -> f (wrap_i64 <$> seqZ l n0) = o) ->
      ends rt H id U (exit_code H id ++ set_var_code Mem_I64 v [LocalGet I64TmpA] ++ dr) m1
        (if bool_decide (wrap_i64 <$> seqZ l n0 = []) then Def false else f (wrap_i64 <$> seqZ l n0))).
    { intros o He Ho. destruct (n0 <=? 0) eqn:E; bools.
      - rewrite bool_decide_eq_true_2; [done|]. by rewrite seqZ_nil by lia.
      - rewrite bool_decide_eq_false_2 by (by apply seqZ_items). by rewrite Ho. }
    eapply Hr; [|intros _; reflexivity]. apply exit_ends; [done|]. intros m2 Hpos K2 S2 L2 M2.
    destruct (Hl Hpos) as [Hl1 Hl2]. destruct (seqZ_items l n0 Hpos) as [Hne Hlen].
    change (f (wrap_i64 <$> seqZ l n0)) with (_ ← Def l; f (wrap_i64 <$> seqZ l n0)).
    eapply ends_bind with (R := fun _ m' => m'.(stack) = [] /\ int_slot m' vn n0 /\ int_slot m' v l).
    + assert (Hf2 : has_flags m2). { eapply has_flags_keeps; [exact K2|]. eapply has_flags_keeps; [exact K1|]. by eapply state_flags. }
      assert (Hn2 : int_slot m2 vn n0). { destruct Hn1 as (w & Hw & Hx). exists w. unfold flags. rewrite M2. split; [exact Hw|]. exact Hx. }
      assert (Hd : does rt H (U ∪ {[vn.(Var.index)]}) (set_var_code Mem_I64 v [LocalGet I64TmpA]) m2 (Def l) (fun z m' => stack m' = stack m2 /\ int_slot m' v z)).
      { assert (Hne2 : v.(Var.index) <> vn.(Var.index)) by set_solver + HvL Ln.
        apply does_set_int; [exact Hiv|set_solver + HvU Hne2|exact Hf2|]. apply does_ret. wstep. run_next. split; [|done]. cbn. by rewrite L2, Hl1. }
      eapply runs_weaken; [exact Hd|]. intros r (m3 & -> & K3 & S3 & Hz). exists m3. split_and!; [done|eapply keeps_sub; [|exact K3]; set_solver +|congruence| |done].
      eapply int_slot_keeps; [|exact Vn|exact K3|exact Hn2]. set_solver +.
    + intros _ m3 _ K3 (S3 & Hn3 & Hv3). apply Hf; [done|done| |  |done|by rewrite Hlen|].
      * rewrite Hlen. by destruct Hn0.
      * eapply keeps_trans; [exact K1|]. by eapply keeps_trans.
      * exists l. rewrite Z.add_0_r, Hlen. split; [|done]. unfold wrap_i64. by rewrite wrap_i64_id.
  - intros H n Hn Hh. apply emits_ret. intros en items k x m Hm _ Hx Hi (lo' & Hlo' & Hits). apply does_nil. split; [done|]. split; [done|].
    by rewrite (range_item items lo' k x Hits Hx).
  - intros H n Hn Hh. eapply emits_weaken; [by eapply bool_compiled|]. cbn. intros c Hc en x m (Hm & Hx).
    eapply does_sub; [|apply Hc]; [unfold body_set; set_solver +|].
    eapply state_bind; [exact Hm|unfold body_set; set_solver +|set_solver +|exact Hs|by rewrite Hvt|set_solver +|set_solver +].
  - intros H n Hn Hh. eapply emits_weaken; [by apply emits_incr_var|]. intros c <- en items k m Hm _ Hk (lo' & Hlo' & Hits).
    change (Def tt) with (_ ← Def (VInt (wrap_i64 (wrap_i64 (lo' + k) + 1))); Def tt). rewrite <- (app_nil_r (incr_code H v)).
    eapply does_bind; [apply does_incr; done|]. intros x m' [= <-] K' [S' Hx]. apply does_nil. split; [done|]. exists lo'. split; [|done].
    rewrite wrap_i64_succ in Hx. by replace (lo' + (k + 1)) with (lo' + k + 1) by lia.
  - intros en y m [Hm Hx]. split; [|exact Hx]. eapply state_next; [exact Hscan|exact Hm|by apply keeps_refl].
  - intros en items k m m' (lo' & Hlo' & Hits) K'. exists lo'. split; [|done]. eapply int_slot_keeps; [|exact Hiv|exact K'|exact Hlo']. set_solver +.
Unshelve. exact h.
Qed.
End Loops.

(** * Ranges of consecutive numbers *)

Definition in_range (r : Z * Z) : list Z := range_inclusive r.1 r.2.

Lemma range_one a : range_inclusive a a = [a].
Proof. unfold range_inclusive. replace (a - a + 1) with 1 by lia. rewrite seqZ_cons by lia. by rewrite seqZ_nil by lia. Qed.

Lemma range_snoc a b : a <= b -> range_inclusive a (b + 1) = range_inclusive a b ++ [b + 1].
Proof.
  intros Hab. unfold range_inclusive. replace (b + 1 - a + 1) with ((b - a + 1) + 1) by lia. rewrite seqZ_app by lia. f_equal.
  replace (a + (b - a + 1)) with (b + 1) by lia. rewrite seqZ_cons by lia. by rewrite seqZ_nil by lia.
Qed.

Lemma consecutive_from_concat l : forall a b, a <= b ->
  concat (in_range <$> consecutive_from a b l) = range_inclusive a b ++ l /\ Forall (fun r => r.1 <= r.2) (consecutive_from a b l).
Proof.
  induction l as [|x l IH]; intros a b Hab; cbn [consecutive_from].
  - cbn. split; [done|]. by constructor.
  - destruct (x =? b + 1) eqn:E; bools.
    + subst x. destruct (IH a (b + 1)) as [-> Hf]; [lia|]. split; [|done]. by rewrite range_snoc, <- app_assoc.
    + destruct (IH x x) as [Hc Hf]; [lia|]. cbn [fmap list_fmap concat]. rewrite Hc, range_one. split; [done|]. by constructor.
Qed.

(** The ranges have the numbers of the list, in order. *)
Lemma consecutive_ranges_concat l :
  concat (in_range <$> consecutive_ranges l) = l /\ Forall (fun r => r.1 <= r.2) (consecutive_ranges l).
Proof.
  destruct l as [|x l]; [done|]. destruct (consecutive_from_concat l x x) as [Hc Hf]; [lia|]. cbn [consecutive_ranges].
  rewrite Hc, range_one. by split.
Qed.

(** * Quantifiers over tests that are defined *)

Section Quantify.
Context {A B : Type} (prepare : A -> outcome B) (f : B -> bool).

Lemma quantify_any items xs c : Forall2 (fun a b => prepare a = Def b) items xs ->
  quantify QAny c prepare (fun b => Def (f b)) items = Def (existsb f xs).
Proof.
  intros H. revert c. induction H as [|a b items xs E _ IH]; intros c; [done|]. cbn [quantify existsb]. rewrite E. cbn [mbind outcome_bind catch].
  destruct (f b); [done|]. apply IH.
Qed.

Lemma quantify_all items xs c : Forall2 (fun a b => prepare a = Def b) items xs ->
  quantify QAll c prepare (fun b => Def (f b)) items = Def (forallb f xs).
Proof.
  intros H. revert c. induction H as [|a b items xs E _ IH]; intros c; [done|]. cbn [quantify forallb]. rewrite E. cbn [mbind outcome_bind catch].
  destruct (f b); [|done]. apply IH.
Qed.

Lemma quantify_count items xs k : Forall2 (fun a b => prepare a = Def b) items xs -> forall c, 1 <= k -> c < k ->
  quantify (QCount k) c prepare (fun b => Def (f b)) items = Def (k <=? c + len (filter (fun b => f b = true) xs)).
Proof.
  induction 1 as [|a b items xs E _ IH]; intros c Hk Hc.
  { cbn. change (len []) with 0. destruct (k =? 0) eqn:E1, (k <=? c + 0) eqn:E2; bools; try lia; done. }
  cbn [quantify]. rewrite E, filter_cons. cbn [mbind outcome_bind catch]. destruct (f b) eqn:Ef.
  - rewrite decide_True, len_cons by done. pose proof (len_nonneg (filter (fun b => f b = true) xs)).
    destruct (k <=? c + 1) eqn:E1; bools.
    + f_equal. destruct (k =? 0) eqn:E2; bools; [lia|]. cbn. symmetry. apply Z.leb_le. lia.
    + rewrite IH by lia. do 2 f_equal. lia.
  - rewrite decide_False by done. apply IH; lia.
Qed.
End Quantify.

Lemma existsb_perm {A} (f : A -> bool) l l' : l ≡ₚ l' -> existsb f l = existsb f l'.
Proof. induction 1 as [|x l l' _ IH|x y l|l1 l2 l3 _ IH1 _ IH2]; cbn; [done|by rewrite IH|by rewrite !orb_assoc, (orb_comm (f y))|congruence]. Qed.

Lemma forallb_perm {A} (f : A -> bool) l l' : l ≡ₚ l' -> forallb f l = forallb f l'.
Proof. induction 1 as [|x l l' _ IH|x y l|l1 l2 l3 _ IH1 _ IH2]; cbn; [done|by rewrite IH|by rewrite !andb_assoc, (andb_comm (f y))|congruence]. Qed.

Lemma count_any {A} (f : A -> bool) l : (1 <=? len (filter (fun x => f x = true) l)) = existsb f l.
Proof.
  induction l as [|x l IH]; [done|]. rewrite filter_cons. cbn [existsb]. destruct (f x); [|by rewrite decide_False].
  rewrite decide_True, len_cons by done. pose proof (len_nonneg (filter (fun x => f x = true) l)). apply Z.leb_le. lia.
Qed.

Lemma count_all {A} (f : A -> bool) l : (len l <=? len (filter (fun x => f x = true) l)) = forallb f l.
Proof.
  induction l as [|x l IH]; [done|]. rewrite filter_cons, len_cons. cbn [forallb]. destruct (f x).
  - rewrite decide_True, len_cons by done. rewrite <- IH. cbn [andb]. destruct (_ <=? _) eqn:E1, (len l <=? _) eqn:E2; bools; lia.
  - rewrite decide_False by done. cbn [andb]. apply Z.leb_gt. unfold len.
    pose proof (length_filter (fun x => f x = true) l). lia.
Qed.

(** * The code *)

Definition ranges_of (ids : list Z) : list (Z * Z) := consecutive_ranges (merge_sort Z.le ids).

(** The identifiers of the patterns make a single range. *)
Definition single_range (patterns items : list Z) : bool :=
  match ranges_of (omap (get patterns) items) with [_] => true | _ => false end.

Section PatternSet.
Context {T : Type} {ST : SymbolTable T} {STL : SymbolTableLaws T} {BS : ByteStrings}.
Context (ir : IR) (objects : Objects) (h : HostContext) (s : Scanned) (num_ids : Z) (literals : list (list Z)).
Notation strings := h.(h_strings).
Notation rt := (host_runtime h).
Notation patterns := s.(sc_patterns).
Notation state_ok := (state_ok h s num_ids).
Notation emits := (emits (T := T) strings literals).
Notation found_in := (match_found s.(sc_matches)).
Hypothesis Hscan : scan_ok h s num_ids.
Context (U : gset Z) (g : gmap Z Ty.t) (P : gset Z).

Definition ids_of (items ids : list Z) : Prop := Forall2 (fun idx id => get patterns idx = Some id) items ids.

Lemma ids_exist items : Forall (fun idx => is_Some (get patterns idx)) items -> exists ids, ids_of items ids.
Proof.
  induction 1 as [|idx items [id Hid] _ [ids IH]]; [exists []; constructor|]. exists (id :: ids). by constructor.
Qed.

Lemma ids_range items ids : ids_of items ids -> Forall (fun id => 0 <= id < num_ids) ids.
Proof.
  destruct Hscan as [_ _ Hpat _ _ _ _ _]. induction 1 as [|idx id items ids [_ E]%get_Some _ IH]; [done|].
  constructor; [|done]. by eapply Forall_lookup_1 in Hpat.
Qed.

Lemma ids_prepared items ids : ids_of items ids -> Forall2 (fun idx id => Eval.pattern_id s idx = Def id) items ids.
Proof. intros H. eapply Forall2_impl; [exact H|]. intros idx id E. unfold Eval.pattern_id. by rewrite E. Qed.

Lemma ids_emitted H n items ids :
  ids_of items ids -> emits_pure (T := T) strings literals H n (emit_each (EmitExpr.pattern_id patterns) items) (eq ids) (fun _ => True).
Proof.
  intros Hids ctx _. exists ids, ctx. split; [|split_and!; [apply ext_refl|done|done]].
  induction Hids as [|idx id items ids E _ IH]; [done|]. cbn [emit_each]. unfold EmitExpr.pattern_id, lift, mbind, M_bind, mbind, res_bind in *.
  rewrite E. cbn. by rewrite IH.
Qed.

(** ** A range of patterns *)

Definition valid_range (r : Z * Z) : Prop := 0 <= r.1 /\ r.1 <= r.2 < num_ids.
Definition matches_of (r : Z * Z) : Z := len (filter (fun id => found_in id = true) (in_range r)).

Lemma matches_of_one a : matches_of (a, a) = b2i (found_in a).
Proof.
  unfold matches_of, in_range. cbn [fst snd]. rewrite range_one, filter_cons. by destruct (found_in a).
Qed.

Lemma run_range_match a b k st en m c Q :
  state_ok U g P en m -> valid_range (a, b) -> 0 <= k <= i32_MAX -> m.(stack) = VI64 k :: VI32 b :: VI32 a :: st ->
  (runs rt c (set_stack (i32_bool (k <=? matches_of (a, b)) :: st) m) Q) ->
  runs rt (Call (Host PatRangeMatch) :: c) m Q.
Proof.
  intros Hm [Ha Hab] Hk Hs HQ. cbn [fst snd] in *. pose proof (w_found _ _ _ _ (s_world _ _ _ _ _ _ _ _ Hm)) as Hf. clear Hm.
  assert (E : pat_range_match m.(found) a b k = Ret (k <=? matches_of (a, b))).
  { unfold pat_range_match, matches_of, in_range. cbn [fst snd]. rewrite Hf.
    destruct (b <? a) eqn:E1, (k <? i32_MIN) eqn:E2, (i32_MAX <? k) eqn:E3; bools; try (unfold i32_MIN in *; lia). done. }
  eapply run_host; [|exact HQ]. open_machine m Hs. cbn [host_call Wasm.stack] in *. cbn in E. cbn. by rewrite E.
Qed.

Section Ranges.
Context (required : Z * Z -> Z) (result : Z * Z -> bool).
Hypothesis Hrequired : forall r, valid_range r -> 1 <= required r <= r.2 - r.1 + 1 /\ result r = (required r <=? matches_of r).

Lemma range_does r en m :
  state_ok U g P en m -> valid_range r ->
  runs rt (emit_range required r) m (fun x => exists m', x = Next m' /\ keeps U m m' /\ m'.(stack) = i32_bool (result r) :: m.(stack)).
Proof.
  intros Hm Hr. destruct (Hrequired r Hr) as [Hk ->]. destruct Hscan as [_ _ _ [_ Hnum] _ _ _ _]. destruct r as [a b]. pose proof Hr as [Ha Hab].
  cbn [fst snd] in *. unfold emit_range.
  assert (Wa : wrap_u32 a = a) by (unfold wrap_u32, i32_MAX in *; by rewrite Z.mod_small by lia).
  assert (Wb : wrap_u32 b = b) by (unfold wrap_u32, i32_MAX in *; by rewrite Z.mod_small by lia).
  destruct (b =? a) eqn:E; bools.
  - subst b. replace (required (a, a)) with 1 by lia. rewrite matches_of_one. wstep.
    eapply (run_check_bit h s num_ids Hscan U g P en a m.(stack)).
    + eapply state_next; [exact Hscan|exact Hm|]. by apply keeps_refl.
    + lia.
    + cbn. by rewrite Wa.
    + intros m' Hs Hmem Hsd Hf. apply runs_nil. exists m'. split_and!; [done|by apply keeps_refl|]. rewrite Hs. by destruct (found_in a).
  - do 3 wstep. eapply (run_range_match a b (required (a, b)) m.(stack) en).
    + eapply state_next; [exact Hscan|exact Hm|]. by apply keeps_refl.
    + done.
    + unfold i32_MAX in *. lia.
    + cbn. by rewrite Wa, Wb.
    + apply runs_nil. eexists. split_and!; [reflexivity| |done]. by apply keeps_refl.
Qed.

(** The ranges are checked until one has the boolean [stop]. *)
Lemma ranges_leave id stop ranges en m :
  state_ok U g P en m -> ranges <> [] -> Forall valid_range ranges ->
  leaves_bool h id stop U (emit_ranges required (EmitNodes.exit_code id stop) ranges) m
    (Def (if stop then existsb result ranges else forallb result ranges)).
Proof.
  intros Hm Hne Hr. revert m Hm. induction Hr as [|r ranges Hr Hrs IH]; [done|]. clear Hne. intros m Hm.
  assert (H1 : leaves_bool h id stop U (emit_range required r) m (Def (result r))).
  { eapply runs_weaken; [by eapply range_does|]. intros x (m' & -> & K & S). exists m'. split; [done|]. by left. }
  destruct ranges as [|r2 ranges].
  { replace (if stop then _ else _) with (result r); [exact H1|]. cbn. destruct stop, (result r); done. }
  change (emit_ranges required (EmitNodes.exit_code id stop) (r :: r2 :: ranges)) with
    (emit_range required r ++ EmitNodes.exit_code id stop ++ emit_ranges required (EmitNodes.exit_code id stop) (r2 :: ranges)).
  replace (Def (if stop then existsb result (r :: r2 :: ranges) else forallb result (r :: r2 :: ranges))) with
    (b ← Def (result r); if Bool.eqb b stop then Def stop else Def (if stop then existsb result (r2 :: ranges) else forallb result (r2 :: ranges))).
  2: { cbn [mbind outcome_bind]. destruct stop, (result r) eqn:E; cbn [existsb forallb Bool.eqb]; rewrite E; done. }
  eapply leaves_seq; [exact H1|]. intros m' K S. apply IH; [done|]. by eapply state_next.
Qed.

Lemma block_emitted H n stop ranges :
  ranges <> [] -> Forall valid_range ranges ->
  emits H n (block ← fresh; mret [Block block (Some I32) (emit_ranges required (EmitNodes.exit_code block stop) ranges)])
    (fun c => forall en m, state_ok U g P en m ->
       does rt H U c m (Def (if stop then existsb result ranges else forallb result ranges)) (pushed_bool m.(stack))).
Proof.
  intros Hne Hr. apply emits_fresh. intros id _. apply emits_ret. intros en m Hm. eapply does_block_bool. apply ranges_leave with en; [|done..].
  eapply state_next; [exact Hscan|exact Hm|]. by apply keeps_refl.
Qed.
End Ranges.

(** ** All the patterns *)

Lemma in_range_ends r : r.1 <= r.2 -> r.1 ∈ in_range r /\ r.2 ∈ in_range r.
Proof. intros Hr. unfold in_range, range_inclusive. rewrite !elem_of_seqZ. lia. Qed.

Lemma ranges_valid l : Forall (fun id => 0 <= id < num_ids) l -> Forall valid_range (consecutive_ranges l).
Proof.
  intros Hl. destruct (consecutive_ranges_concat l) as [Hc Hf]. rewrite Forall_forall in Hf |- *. intros r Hr. specialize (Hf r Hr).
  destruct (in_range_ends r Hf) as [H1 H2].
  assert (Hin : forall x, x ∈ in_range r -> 0 <= x < num_ids).
  { intros x Hx. rewrite Forall_forall in Hl. apply Hl. rewrite <- Hc. apply list_elem_of_In, in_concat. exists (in_range r).
    rewrite <- !list_elem_of_In. split; [|done]. apply list_elem_of_fmap. by exists r. }
  pose proof (Hin _ H1). pose proof (Hin _ H2). split; lia.
Qed.

Lemma existsb_ranges (f : Z -> bool) rs : existsb f (concat (in_range <$> rs)) = existsb (fun r => existsb f (in_range r)) rs.
Proof. induction rs as [|r rs IH]; [done|]. cbn [fmap list_fmap concat existsb]. by rewrite existsb_app, IH. Qed.

Lemma forallb_ranges (f : Z -> bool) rs : forallb f (concat (in_range <$> rs)) = forallb (fun r => forallb f (in_range r)) rs.
Proof. induction rs as [|r rs IH]; [done|]. cbn [fmap list_fmap concat forallb]. by rewrite forallb_app, IH. Qed.

Lemma len_in_range r : r.1 <= r.2 -> len (in_range r) = r.2 - r.1 + 1.
Proof. intros Hr. unfold in_range, range_inclusive, len. rewrite length_seqZ. lia. Qed.

Lemma any_required r : valid_range r -> 1 <= 1 <= r.2 - r.1 + 1 /\ existsb found_in (in_range r) = (1 <=? matches_of r).
Proof. intros [_ Hr]. split; [lia|]. symmetry. apply count_any. Qed.

Lemma all_required r : valid_range r ->
  1 <= (let '(start, stop) := r in stop - start + 1) <= r.2 - r.1 + 1 /\
  forallb found_in (in_range r) = ((let '(start, stop) := r in stop - start + 1) <=? matches_of r).
Proof.
  intros [_ Hr]. destruct r as [a b]. cbn [fst snd] in *. split; [lia|]. rewrite <- (count_all found_in (in_range (a, b))), len_in_range by (cbn; lia). done.
Qed.

Lemma ranges_of_perm ids : concat (in_range <$> ranges_of ids) ≡ₚ ids.
Proof. unfold ranges_of. destruct (consecutive_ranges_concat (merge_sort Z.le ids)) as [-> _]. apply merge_sort_Permutation. Qed.

Lemma ranges_of_valid ids : Forall (fun id => 0 <= id < num_ids) ids -> Forall valid_range (ranges_of ids).
Proof. intros Hi. apply ranges_valid. by rewrite merge_sort_Permutation. Qed.

Lemma ranges_of_nonempty ids : ids <> [] -> ranges_of ids <> [].
Proof.
  intros Hne E. pose proof (ranges_of_perm ids) as Hp. rewrite E in Hp. cbn in Hp. by apply Permutation_nil_l in Hp.
Qed.

Lemma ids_omap items ids : ids_of items ids -> omap (get patterns) items = ids.
Proof. induction 1 as [|idx id items ids E _ IH]; [done|]. cbn. rewrite E. by f_equal. Qed.

Context (ev : env -> Z -> outcome value) (em : Z -> M T code).
Notation compiled := (compiled h s num_ids literals U g P).

(** The number of patterns of a quantifier fits where it goes. *)
Definition count_ok (q : Quantifier.t) (items : list Z) : Prop :=
  match q with
  | Quantifier.Expr k =>
      compiles ir h s num_ids literals ev em U g P k /\ ty_at ir k = Ty.Integer /\
      (single_range patterns items = true -> forall en z, eval_int ev en k = Def z -> 1 <= z <= i32_MAX)
  | _ => True
  end.

Definition of_patterns (q : Quantifier.t) (items : list Z) (anchor : MatchAnchor.t) (en : env) : outcome bool :=
  q ← eval_quantifier ev q (len items) en; quantify q 0 (Eval.pattern_id s) (fun id => eval_match s ev en id anchor) items.

(** A number of patterns of a single range. *)
Lemma single_emitted H n k a b items ids :
  count_ok (Quantifier.Expr k) items -> H.1 < n -> handler_ok rt H -> ids_of items ids -> ranges_of ids = [(a, b)] ->
  emits H n (c ← em k; mret ([i32_const a; i32_const b] ++ c ++ [Call (Host PatRangeMatch)]))
    (fun c => forall en m, state_ok U g P en m -> does rt H U c m (of_patterns (Quantifier.Expr k) items MatchAnchor.None en) (pushed_bool m.(stack))).
Proof.
  intros (Hk & Tk & Hz) Hn Hh Hids Hr. assert (Hv : valid_range (a, b)).
  { pose proof (ranges_of_valid ids (ids_range _ _ Hids)) as Hf. rewrite Hr in Hf. by apply Forall_cons in Hf as [Hf _]. }
  assert (Hs : single_range patterns items = true) by (unfold single_range; by rewrite (ids_omap _ _ Hids), Hr). specialize (Hz Hs).
  assert (Hcnt : len (filter (fun id => found_in id = true) ids) = matches_of (a, b)).
  { unfold matches_of, len. f_equal. pose proof (ranges_of_perm ids) as Hp. rewrite Hr in Hp. cbn [fmap list_fmap concat] in Hp. rewrite app_nil_r in Hp. by rewrite Hp. }
  destruct Hscan as [_ _ _ [_ Hnum] _ _ _ _]. pose proof Hv as [Ha Hab]. cbn [fst snd] in *.
  eapply emits_bind; [by eapply int_compiled|]. intros c. apply emits_ret. intros Hc en m Hm. unfold of_patterns. cbn [eval_quantifier].
  replace (q ← (x ← eval_int ev en k; Def (QCount x)); quantify q 0 (Eval.pattern_id s) (fun id => eval_match s ev en id MatchAnchor.None) items)
    with (_ ← Def tt; x ← eval_int ev en k; quantify (QCount x) 0 (Eval.pattern_id s) (fun id => eval_match s ev en id MatchAnchor.None) items).
  2: { by destruct (eval_int ev en k). }
  eapply does_bind with (R := fun _ m' => m' = set_stack (VI32 b :: VI32 a :: m.(stack)) m).
  { apply does_ret. do 2 wstep. apply runs_nil. eexists. split_and!; [reflexivity|by apply keeps_refl|].
    unfold set_stack. cbn. unfold wrap_u32, i32_MAX in *. by rewrite !Z.mod_small by lia. }
  intros _ m1 _ K1 ->. eapply does_bind; [apply Hc; by eapply state_next|]. intros z m2 Ez K2 [S2 Hz2]. specialize (Hz en z Ez).
  cbn [eval_match]. rewrite (quantify_count _ _ items ids z) by (try lia; by apply ids_prepared). rewrite Z.add_0_l, Hcnt. apply does_ret.
  eapply (run_range_match a b z m.(stack) en); [|exact Hv|lia|exact S2|].
  - eapply state_next; [exact Hscan|exact Hm|]. by eapply keeps_trans.
  - apply runs_nil. eexists. split_and!; [reflexivity|by apply keeps_to, keeps_refl|done].
Qed.

Lemma set_emitted H n fv quant items ids anchor :
  H.1 < n -> handler_ok rt H -> ids_of items ids -> items <> [] -> count_ok quant items ->
  compiled (emit_of_pattern_set_with_loop patterns em quant items fv anchor) (of_patterns quant items anchor) pushed_bool ->
  emits H n
    (match quant, anchor, ranges_of ids with
     | Quantifier.Any, MatchAnchor.None, _ =>
         block ← fresh;
         mret [Block block (Some I32) (emit_ranges (fun _ => 1) [IfElse None [i32_const 1; Br block] []] (ranges_of ids))]
     | Quantifier.All, MatchAnchor.None, _ =>
         block ← fresh;
         mret [Block block (Some I32) (emit_ranges (fun '(start, stop) => stop - start + 1) [IfElse None [] [i32_const 0; Br block]] (ranges_of ids))]
     | Quantifier.Expr q, MatchAnchor.None, [(start, stop)] =>
         c ← em q; mret ([i32_const start; i32_const stop] ++ c ++ [Call (Host PatRangeMatch)])
     | _, _, _ => emit_of_pattern_set_with_loop patterns em quant items fv anchor
     end)
    (fun c => forall en m, state_ok U g P en m -> does rt H U c m (of_patterns quant items anchor en) (pushed_bool m.(stack))).
Proof.
  intros Hn Hh Hids Hne Hcount Hloop.
  pose proof (ids_prepared _ _ Hids) as Hprep. pose proof (ranges_of_valid ids (ids_range _ _ Hids)) as Hv.
  assert (Hids_ne : ids <> []) by (destruct Hids; done). pose proof (ranges_of_nonempty ids Hids_ne) as Hrne.
  destruct quant as [| | |p|q]; try (by apply Hloop); destruct anchor; try (by apply Hloop).
  - eapply emits_weaken; [apply (block_emitted _ _ all_required H n false); done|]. cbn. intros c Hc en m Hm. unfold of_patterns.
    cbn [eval_quantifier mbind outcome_bind eval_match]. rewrite (quantify_all _ _ _ _ _ Hprep), <- (forallb_perm _ _ _ (ranges_of_perm ids)), forallb_ranges. by eapply Hc.
  - eapply emits_weaken; [apply (block_emitted _ _ any_required H n true); done|]. cbn. intros c Hc en m Hm. unfold of_patterns.
    cbn [eval_quantifier mbind outcome_bind eval_match]. rewrite (quantify_any _ _ _ _ _ Hprep), <- (existsb_perm _ _ _ (ranges_of_perm ids)), existsb_ranges. by eapply Hc.
  - destruct (ranges_of ids) as [|[a b] [|r2 rs]] eqn:E; [by apply Hloop| |by apply Hloop]. by eapply single_emitted.
Qed.

(** [of] over patterns *)
Lemma pattern_set_compiled fv quant items anchor :
  items <> [] -> Forall (fun idx => is_Some (get patterns idx)) items -> count_ok quant items ->
  compiled (emit_of_pattern_set_with_loop patterns em quant items fv anchor) (of_patterns quant items anchor) pushed_bool ->
  compiled (emit_of_pattern_set patterns em quant items fv anchor) (of_patterns quant items anchor) pushed_bool.
Proof.
  intros Hne Hpat Hcount Hloop H n Hn Hh. destruct (ids_exist items Hpat) as [ids Hids]. unfold emit_of_pattern_set.
  eapply emits_bind; [apply emits_search|]. intros search. eapply emits_bind_pure; [by apply ids_emitted|]. intros ids' <-.
  eapply emits_bind; [by apply (set_emitted H n fv quant items ids anchor)|]. intros c. apply emits_ret. intros Hc _ Hs en m Hm.
  change (of_patterns quant items anchor en) with (_ ← Def tt; of_patterns quant items anchor en).
  eapply does_bind with (R := fun _ m' => m'.(stack) = m.(stack)); [by eapply does_search|].
  intros _ m1 _ K1 S1. rewrite <- S1. apply Hc. by eapply state_next.
Qed.
End PatternSet.
