(* ===== verification/EmitCorrect.v ===== *)
(** The code emitted for a condition gives the value of its reference semantics:
    the conditions that the proof covers, the proof for every expression by
    induction on its depth, the theorems about the code of the condition of a
    rule, and runs of the code of some conditions. *)

From Stdlib Require Import SpecFloat.
From stdpp Require Import gmap strings sorting.
From S2P Require Import Prelude.
From S2P Require Import Matches.
From S2P Require Import StringPool.
From S2P Require Import Tracker.
From S2P Require Import Float64.
From S2P Require Import Types.
From S2P Require Import IR.
From S2P Require Import Builtins.
From S2P Require Import Eval.
From S2P Require Import EvalTypes.
From S2P Require Import Wasm.
From S2P Require Import RuntimeString.
From S2P Require Import Host.
From S2P Require Import Emit.
From S2P Require Import EmitExpr.
From S2P Require Import WasmProps.
From S2P Require Import EmitRel.
From S2P Require Import EmitOps.
From S2P Require Import EmitNodes.
From S2P Require Import EmitFor.
From S2P Require Import EmitLoops.
#[local] Open Scope Z_scope.

(** * The conditions that the theorems are about *)

(** The kinds of expressions that the proof covers. Not covered are regular
    expressions and [matches]; fields of structures; functions other than those
    that read an integer from the data; indexing; loops over an array or a map;
    and references to other rules: the reference semantics takes the values of
    these from outside (structures, arrays, maps, modules and regular expressions
    are parameters of [Eval.v] and [Host.v]). *)
Definition covered (e : Expr.t) : bool :=
  match e with
  | Expr.Const (TypeValue.Regexp _) | Expr.Matches _ _ | Expr.MatchesMany _ _ => false
  | Expr.Symbol (Symbol.Var _ _) => true
  | Expr.Symbol (Symbol.Rule _ | Symbol.Field _ _ _ | Symbol.Func _) => false
  | Expr.FieldAccess _ _ | Expr.Lookup _ _ _ => false
  | Expr.FuncCall object f args => match object, args, int_reader (plain_name f) with None, [_], Some _ => true | _, _, _ => false end
  | Expr.ForIn _ _ _ (Iterable.Expr _) _ => false
  | Expr.ForIn _ variables _ (Iterable.Range _ | Iterable.ExprTuple _) _ => match variables with [_] => true | _ => false end
  | _ => true
  end.

(** ** Variables and sizes *)

Definition int_var_b (v : Var.t) : bool :=
  (0 <=? v.(Var.index)) && (v.(Var.index) <? 64) && ty_is v.(Var.ty) Ty.Integer.
Definition fresh_in (U : gset Z) (v : Var.t) : bool := bool_decide (v.(Var.index) ∉ U).
Definition slot_in (U : gset Z) (v : Var.t) : bool := (0 <=? v.(Var.index)) && (v.(Var.index) <? 64) && fresh_in U v.

Definition frame_okb (U : gset Z) (fv : ForVars) : bool :=
  forallb int_var_b (loop_vars fv) && bool_decide (NoDup (Var.index <$> loop_vars fv)) && forallb (fresh_in U) (loop_vars fv).

Definition body_vars (U : gset Z) (fv : ForVars) : gset Z := U ∪ loop_set fv.
Definition bound (U : gset Z) (v : Var.t) : gset Z := U ∪ {[v.(Var.index)]}.
Definition items_ok {A} (items : list A) : bool := not_empty items && (len items <=? i32_MAX).
Definition is_i64 (z : Z) : bool := (i64_MIN <=? z) && (z <=? i64_MAX).

Section Framed.
Context (ir : IR) (patterns : list Z).

(** The constant number of patterns of an [of]. *)
Definition const_count (k : Z) : bool :=
  match get ir.(nodes) k with
  | Some (Expr.Const (TypeValue.Integer (Value.Const z) _)) => (1 <=? z) && (z <=? i32_MAX)
  | _ => false
  end.

Section Operands.
Context (framed : gset Z -> gset Z -> Z -> bool).

Definition framed_anchor (U P : gset Z) (a : MatchAnchor.t) : bool :=
  match a with
  | MatchAnchor.None => true
  | MatchAnchor.At e => framed U P e
  | MatchAnchor.In r => framed U P r.(lower_bound) && framed U P r.(upper_bound)
  end.
Definition framed_range (U P : gset Z) (r : Range) : bool := framed U P r.(lower_bound) && framed U P r.(upper_bound).
Definition framed_option (U P : gset Z) (i : option Z) : bool := from_option (framed U P) true i.
Definition framed_var (P : gset Z) (s : Symbol.t) : bool :=
  match s with Symbol.Var v _ => ty_is v.(Var.ty) Ty.Integer && bool_decide (v.(Var.index) ∈ P) | _ => false end.

(** The quantifier is evaluated when the variables [n] and [i] of the loop have
    their values. *)
Definition framed_quantifier (U P W : gset Z) (fv : ForVars) (q : Quantifier.t) : bool :=
  match q with
  | Quantifier.Percentage e | Quantifier.Expr e => framed (U ∪ {[fv.(fv_n).(Var.index); fv.(fv_i).(Var.index)]} ∪ W) P e
  | _ => true
  end.

Definition framed_count (q : Quantifier.t) (items : list Z) : bool :=
  match q with
  | Quantifier.Expr k => implb (single_range patterns items) (const_count k)
  | _ => true
  end.

(** [k] checks the body of a [with]. *)
Fixpoint framed_with (U P : gset Z) (declarations : list (Var.t * Z)) (k : gset Z -> gset Z -> bool) : bool :=
  match declarations with
  | [] => k U P
  | (v, id) :: declarations =>
      framed U P id && slot_in U v && castable v.(Var.ty) &&
      framed_with (bound U v) (P ∖ {[v.(Var.index)]}) declarations k
  end.

(** The loops, with their quantifiers. [W] are the variables of the items that
    have a value when the quantifier is evaluated. *)
Definition framed_loop (U P W : gset Z) (fv : ForVars) (q : Quantifier.t) : bool :=
  frame_okb U fv && framed_quantifier U P W fv q.

(** A variable for the items of a loop. *)
Definition item_ok (U : gset Z) (fv : ForVars) (v : Var.t) : bool := slot_in (body_vars U fv) v.

(** What an expression of a kind that is covered has to satisfy. Constants fit in 64
    bits; variables are slots of the frame, and those of a loop are not in use
    around it; loops have at least one item and less than 2^31; the constant in
    [N of] a range of patterns is not zero. *)
Definition framed_node (U P : gset Z) (e : Expr.t) : bool :=
  match e with
  | Expr.Const (TypeValue.Integer (Value.Const z) _) => is_i64 z
  | Expr.Const (TypeValue.Regexp _) => false
  | Expr.Const _ | Expr.Filesize => true
  | Expr.Symbol (Symbol.Var v _) => castable v.(Var.ty)
  | Expr.Not a | Expr.Defined a | Expr.Minus _ a | Expr.BitwiseNot a => framed U P a
  | Expr.And l | Expr.Or l | Expr.Add _ l | Expr.Sub _ l | Expr.Mul _ l | Expr.Div _ l | Expr.Mod l => forallb (framed U P) l
  | Expr.BitwiseAnd a b | Expr.BitwiseOr a b | Expr.BitwiseXor a b | Expr.Shl a b | Expr.Shr a b
  | Expr.Eq a b | Expr.Ne a b | Expr.Lt a b | Expr.Gt a b | Expr.Le a b | Expr.Ge a b
  | Expr.Contains a b | Expr.IContains a b | Expr.StartsWith a b | Expr.IStartsWith a b | Expr.EndsWith a b
  | Expr.IEndsWith a b | Expr.IEquals a b => framed U P a && framed U P b
  | Expr.PatternMatch _ anchor => framed_anchor U P anchor
  | Expr.PatternMatchVar s anchor => framed_var P s && framed_anchor U P anchor
  | Expr.PatternCount _ range => from_option (framed_range U P) true range
  | Expr.PatternCountVar s range => framed_var P s && from_option (framed_range U P) true range
  | Expr.PatternOffset _ index | Expr.PatternLength _ index => framed_option U P index
  | Expr.PatternOffsetVar s index | Expr.PatternLengthVar s index => framed_var P s && framed_option U P index
  | Expr.FuncCall None f [arg] =>
      match int_reader (plain_name f) with
      | Some _ => ends_with_u f.(mangled_name) && framed U P arg && ty_is (ty_at ir arg) Ty.Integer
      | None => false
      end
  | Expr.With _ declarations body => framed_with U P declarations (fun U P => framed U P body)
  | Expr.OfPatternSet q items fv anchor =>
      framed_loop U P ∅ fv q && items_ok items && framed_count q items &&
      item_ok U fv fv.(fv_item) && ty_is fv.(fv_item).(Var.ty) Ty.Integer &&
      framed_anchor (body_vars U fv) P anchor
  | Expr.OfExprTuple q items fv _ =>
      framed_loop U P ∅ fv q && items_ok items && item_ok U fv fv.(fv_item) && ty_is fv.(fv_item).(Var.ty) Ty.Bool &&
      forallb (framed (body_vars U fv) P) items
  | Expr.ForOf q fv items body =>
      let item := fv.(fv_item) in
      framed_loop U P ∅ fv q && items_ok items && item_ok U fv item &&
      framed (bound (body_vars U fv) item) (bound P item) body
  | Expr.ForIn q [v] fv (Iterable.Range r) body =>
      framed_loop U P {[v.(Var.index)]} fv q && item_ok U fv v && framed_range U P r &&
      framed (bound (body_vars U fv) v) (P ∖ {[v.(Var.index)]}) body
  | Expr.ForIn q [v] fv (Iterable.ExprTuple items) body =>
      framed_loop U P ∅ fv q && items_ok items && item_ok U fv v && castable v.(Var.ty) &&
      forallb (framed (body_vars U fv) P) items &&
      framed (bound (body_vars U fv) v) (P ∖ {[v.(Var.index)]}) body
  | _ => covered e
  end.
End Operands.

Lemma framed_covered framed U P e : framed_node framed U P e = true -> covered e = true.
Proof. destruct e; try done; cbn [framed_node covered]; repeat case_match; done. Qed.

(** The expression and those that it is made of are of kinds that are covered,
    and the variables do not clash. The fuel bounds the depth of the expression;
    [U] are the variables in use, and [P] those that hold patterns. *)
Fixpoint framed (fuel : nat) (U P : gset Z) (id : Z) : bool :=
  match fuel with
  | O => false
  | S fuel => match get ir.(nodes) id with Some e => framed_node (framed fuel) U P e | None => false end
  end.
End Framed.

(** * Literals *)

(** The strings of the constants of a condition. *)
Definition literals_of (ir : IR) : list (list Z) :=
  omap (fun e => match e with Expr.Const (TypeValue.String (Value.Const x) _) => Some x | _ => None end) ir.(nodes).

Lemma literal_in ir id x c : get ir.(nodes) id = Some (Expr.Const (TypeValue.String (Value.Const x) c)) -> x ∈ literals_of ir.
Proof.
  intros [_ Hl]%get_Some. apply list_elem_of_omap. eexists. split; [by eapply list_elem_of_lookup_2|done].
Qed.

(** * What the checks give *)

Lemma slot_in_ok U v : slot_in U v = true -> is_slot v.(Var.index) /\ v.(Var.index) ∉ U.
Proof. unfold slot_in, fresh_in, is_slot. intros [[? ?]%andb_true_iff ?]%andb_true_iff. bools. rewrite bool_decide_eq_true in *. split; [lia|done]. Qed.

Lemma int_var_ok v : int_var_b v = true -> int_var v.
Proof. unfold int_var_b, int_var, is_slot. intros [[? ?]%andb_true_iff Ht%ty_is_eq]%andb_true_iff. bools. split; [lia|done]. Qed.

Lemma frame_okb_ok U fv : frame_okb U fv = true -> frame_ok U fv.
Proof.
  unfold frame_okb. intros [[H1 H2]%andb_true_iff H3]%andb_true_iff. rewrite forallb_forall in H1, H3. rewrite bool_decide_eq_true in H2.
  split; [|done|]; apply Forall_forall; intros v Hv%list_elem_of_In.
  - apply int_var_ok. auto.
  - specialize (H3 v Hv). unfold fresh_in in H3. by rewrite bool_decide_eq_true in H3.
Qed.

Lemma items_ok_ok {A} (items : list A) : items_ok items = true -> items <> [] /\ len items <= i32_MAX.
Proof. unfold items_ok. intros [H1 H2]%andb_true_iff. bools. split; [by destruct items|done]. Qed.

Section Correct.
Context {T : Type} {ST : SymbolTable T} {STL : SymbolTableLaws T} {BS : ByteStrings}.
Context (ir : IR) (objects : Objects) (h : HostContext) (s : Scanned) (num_ids : Z) (literals : list (list Z)).
Notation strings := h.(h_strings).
Notation rt := (host_runtime h).
Notation patterns := s.(sc_patterns).
Notation state_ok := (state_ok h s num_ids).
Notation emits := (emits (T := T) strings literals).
Notation pushed := (pushed strings).
Notation ty_at := (ty_at ir).
Hypothesis Hscan : scan_ok h s num_ids.
Hypothesis Hliterals : literals_of ir ⊆ literals /\ len literals <= u32_MAX.

Section Operators.
Context (ev : env -> Z -> outcome value) (em : Z -> M T code).
Notation compiled := (compiled h s num_ids literals).
Notation compiles := (compiles ir h s num_ids literals ev em).

(** With more variables to keep. *)
Lemma compiles_shrink U V g P id : U ⊆ V -> compiles V g P id -> compiles U g P id.
Proof.
  intros HS [Hid Hc]. split; [done|]. intros H n Hn Hh. eapply emits_weaken; [by apply Hc|]. intros c Hcs en m Hm.
  eapply does_sub; [exact HS|]. apply Hcs. by apply (state_grow h s num_ids U).
Qed.

(** ** [with] *)

Fixpoint with_ok (U : gset Z) (g : gmap Z Ty.t) (P : gset Z) (declarations : list (Var.t * Z)) (body : Z) (t : Ty.t) : Prop :=
  match declarations with
  | [] => compiles U g P body /\ ty_at body = t
  | (v, id) :: declarations =>
      compiles U g P id /\ ty_at id = v.(Var.ty) /\ castable v.(Var.ty) = true /\ is_slot v.(Var.index) /\ v.(Var.index) ∉ U /\
      with_ok (bound U v) (bind_ty v g) (P ∖ {[v.(Var.index)]}) declarations body t
  end.

Lemma emits_eq {A} H n (e e' : M T A) Q : (forall ctx, e ctx = e' ctx) -> emits H n e Q -> emits H n e' Q.
Proof. intros He Hq ctx Hc. rewrite <- He. by apply Hq. Qed.

Lemma emit_with_cons v id declarations body ctx :
  emit_with em ((v, id) :: declarations) body ctx =
  (c ← catch_undef None (fun _ => set_var v (em id)) (set_var_undef v true); rest ← emit_with em declarations body; mret (c ++ rest)) ctx.
Proof.
  unfold emit_with. cbn [emit_each]. unfold mbind, M_bind, mret, M_ret, mbind, res_bind.
  destruct (catch_undef _ _ _ ctx) as [[c c1]| |]; [|done..].
  destruct (emit_each _ declarations c1) as [[cs c2]| |]; [|done..]. destruct (em body c2) as [[cb c3]| |]; [|done..].
  cbn [concat]. by rewrite app_assoc.
Qed.

Lemma declaration_emitted U g P v id H n :
  compiles U g P id -> ty_at id = v.(Var.ty) -> castable v.(Var.ty) = true -> is_slot v.(Var.index) -> v.(Var.index) ∉ U ->
  H.1 < n -> handler_ok rt H ->
  emits H n (catch_undef None (fun _ => set_var v (em id)) (set_var_undef v true))
    (fun c => forall en m, state_ok U g P en m ->
       does rt H U c m (catch_option (ev en id)) (fun x m' => m'.(stack) = m.(stack) /\ slot h m' v.(Var.index) v.(Var.ty) x)).
Proof.
  intros [_ Hc] Ht Hcast Hs HU Hn Hh. destruct (val_type_ok _ Hcast) as (ty & k & _ & Hk). apply emits_catch. intros bid Hbid.
  eapply emits_weaken; [apply emits_set_var; [exact Hk|apply Hc; [cbn; lia|by apply undef_handler_ok]]|].
  intros c (d & -> & Hd) en m Hm. assert (Hf : has_flags m) by by eapply state_flags. apply does_catch_var; [done..|].
  eapply does_weaken; [apply (does_set rt h (bid, set_var_undef v true) U k v d (set_stack [] m) (ev en id)); [done|done|done|exact Hf|]|].
  - cbn zeta. rewrite <- Ht. apply Hd. eapply state_next; [exact Hscan|exact Hm|]. by apply keeps_refl.
  - intros x m' _ _ [S' Hx]. by split.
Qed.

Lemma with_compiled U g P declarations body t :
  with_ok U g P declarations body t ->
  compiled U g P (emit_with em declarations body) (fun en => e ← eval_with ev en declarations; ev e body) (pushed t).
Proof.
  revert U g P. induction declarations as [|[v id] declarations IH]; intros U g P Hw H n Hn Hh.
  - destruct Hw as [[_ Hc] <-]. eapply (emits_bind _ _ _ _ _ _ (eq [])); [by apply emits_ret|]. intros cs.
    eapply emits_bind; [by apply Hc|]. intros c. apply emits_ret. intros Hcs <-. exact Hcs.
  - destruct Hw as (Hid & Ht & Hcast & Hs & HU & Hw). eapply emits_eq; [intros ctx; symmetry; apply emit_with_cons|].
    eapply emits_bind; [by apply (declaration_emitted U g P v id)|]. intros c. eapply emits_bind; [by apply (IH _ _ _ Hw)|]. intros rest.
    apply emits_ret. intros Hrest Hc en m Hm. cbn [eval_with].
    replace (e ← (x ← catch_option (ev en id); eval_with ev (bind_var v x en) declarations); ev e body)
      with (x ← catch_option (ev en id); e ← eval_with ev (bind_var v x en) declarations; ev e body) by by destruct (catch_option (ev en id)).
    eapply does_bind; [by apply Hc|]. intros x m' _ K' [S' Hx]. eapply does_sub; [|rewrite <- S'; apply Hrest]; [unfold bound; set_solver +|].
    eapply state_bind; [by eapply state_next|unfold bound; set_solver +|unfold bound; set_solver +|done|exact Hx|set_solver +|set_solver +].
Qed.

(** ** Operands *)

Context (ty : context -> Z -> bool) (F : gset Z -> gset Z -> Z -> bool).
Hypothesis IH : forall U g P id, ty g id = true -> F U P id = true -> compiles U g P id.
Context (U : gset Z) (g : gmap Z Ty.t) (P : gset Z).
Notation num_patterns := (len patterns).

Ltac split_checks := repeat match goal with H : _ && _ = true |- _ => apply andb_true_iff in H as [? ?] end.

Lemma operand_ok p id : typed_as ir ty p g id = true -> F U P id = true -> compiles U g P id /\ p (ty_at id) = true.
Proof. unfold typed_as. intros [H1 H2]%andb_true_iff HF. split; [by apply IH|done]. Qed.

Lemma operands_ok p ids : forallb (typed_as ir ty p g) ids = true -> forallb (F U P) ids = true ->
  Forall (fun id => compiles U g P id /\ p (ty_at id) = true) ids.
Proof. rewrite !forallb_forall. intros H1 H2. apply Forall_forall. intros id Hid%list_elem_of_In. apply operand_ok; auto. Qed.

Lemma typed_operand_ok V t id : typed_as ir ty (ty_is t) g id = true -> F V P id = true -> compiles V g P id /\ ty_at id = t.
Proof. unfold typed_as. intros [H1 H2%ty_is_eq]%andb_true_iff HF. split; [by apply IH|done]. Qed.

Lemma anchor_checks V a : typed_anchor ir ty g a = true -> framed_anchor F V P a = true ->
  anchor_ok ir h s num_ids literals ev em V g P a.
Proof.
  destruct a as [|e|[lo hi]]; cbn; [done| |].
  - by apply typed_operand_ok.
  - intros [? ?]%andb_true_iff [? ?]%andb_true_iff. split; by apply typed_operand_ok.
Qed.

Lemma range_checks r : from_option (typed_range ir ty g) true r = true -> from_option (framed_range F U P) true r = true ->
  range_ok ir h s num_ids literals ev em U g P r.
Proof. destruct r as [r|]; [|done]. exact (anchor_checks U (MatchAnchor.In r)). Qed.

Lemma index_checks i : typed_option ir ty g i = true -> framed_option F U P i = true -> index_ok ir h s num_ids literals ev em U g P i.
Proof. destruct i as [i|]; [|done]. by apply typed_operand_ok. Qed.

Lemma typed_pattern_ok idx : typed_pattern num_patterns idx = true -> is_Some (get patterns idx).
Proof.
  unfold typed_pattern. intros [? ?]%andb_true_iff. bools. unfold get. rewrite (proj2 (Z.ltb_ge idx 0)) by lia.
  apply lookup_lt_is_Some_2. unfold len in *. lia.
Qed.

Lemma typed_patterns_ok items : forallb (typed_pattern num_patterns) items = true -> Forall (fun idx => is_Some (get patterns idx)) items.
Proof. rewrite forallb_forall. intros H. apply Forall_forall. intros idx Hi%list_elem_of_In. by apply typed_pattern_ok, H. Qed.

Lemma var_checks symbol : typed_var g symbol = true -> framed_var P symbol = true -> pattern_ok s g P (inr symbol).
Proof.
  destruct symbol as [v tv| | |]; try done. unfold typed_var, framed_var. cbn [pattern_ok]. intros H1 [H2%ty_is_eq H3]%andb_true_iff.
  by rewrite bool_decide_eq_true in H1, H3.
Qed.

Lemma quantifier_checks W fv q : typed_quantifier ir ty g q = true -> framed_quantifier F U P W fv q = true ->
  quantifier_ok ir h s num_ids literals ev em U g P fv q W.
Proof. destruct q; try done; by apply typed_operand_ok. Qed.

Lemma loop_checks W fv q : typed_quantifier ir ty g q = true -> framed_loop F U P W fv q = true ->
  frame_ok U fv /\ quantifier_ok ir h s num_ids literals ev em U g P fv q W.
Proof. unfold framed_loop. intros Hq [H1 H2]%andb_true_iff. split; [by apply frame_okb_ok|by apply quantifier_checks]. Qed.

(** A loop gives a boolean. *)
Lemma loop_compiled {A B} e q (items : list A) (prepare : env -> A -> outcome B) (test : env -> B -> outcome bool) :
  compiled U g P e (fun en => q ← eval_quantifier ev q (len items) en; quantify q 0 (prepare en) (test en) items) pushed_bool ->
  compiled U g P e (fun en => eval_loop ev q items (prepare en) (test en) en) (pushed Ty.Bool).
Proof.
  intros He. eapply compiled_ext; [by apply to_value_compiled|]. intros en. cbn. unfold eval_loop. by destruct (eval_quantifier ev q (len items) en).
Qed.

(** ** The kinds of expressions *)

Notation checked e := (typed_node ir num_patterns ty g e = true /\ framed_node ir patterns F U P e = true).
Notation node_ok e := (forall id, get ir.(nodes) id = Some e -> checked e ->
  compiled U g P (emit_node ir patterns objects em e) (fun en => eval_node s ev en id e) (pushed (expr_ty e))).

Lemma leaf_ok e : match e with Expr.Const _ | Expr.Filesize | Expr.Symbol _ => True | _ => False end -> node_ok e.
Proof.
  destruct e; try done; intros _ id Hid [Ht Hf]; cbn [emit_node eval_node expr_ty].
  - destruct Hliterals as [Hlit Hlen]. eapply const_compiled; [done|]. destruct value as [|[]|[]|[]|[]|[]| | | |]; try done.
    + cbn in Hf. unfold is_i64 in Hf. split_checks. bools. by split.
    + by eapply Hlit, literal_in.
  - by eapply filesize_compiled.
  - destruct symbol; try done. cbn in Ht, Hf. rewrite bool_decide_eq_true in Ht. by eapply var_compiled.
Qed.

Lemma logic_ok e : match e with Expr.Not _ | Expr.And _ | Expr.Or _ | Expr.Defined _ => True | _ => False end -> node_ok e.
Proof.
  destruct e; try done; intros _ id Hid [Ht Hf]; cbn [typed_node framed_node emit_node eval_node expr_ty] in *.
  - destruct (operand_ok castable _ Ht Hf). by eapply not_compiled.
  - split_checks. eapply and_compiled; [done|by destruct operands|by apply (operands_ok castable)].
  - split_checks. eapply or_compiled; [done|by destruct operands|by apply (operands_ok castable)].
  - destruct (operand_ok castable _ Ht Hf). by eapply defined_compiled.
Qed.

Lemma arithmetic_ok e :
  match e with
  | Expr.Minus _ _ | Expr.Add _ _ | Expr.Sub _ _ | Expr.Mul _ _ | Expr.Div _ _ | Expr.Mod _ | Expr.BitwiseNot _ | Expr.BitwiseAnd _ _
  | Expr.BitwiseOr _ _ | Expr.BitwiseXor _ _ | Expr.Shl _ _ | Expr.Shr _ _ => True
  | _ => False
  end -> node_ok e.
Proof.
  assert (Hnum : forall is_float l, forallb (typed_as ir ty (if is_float : bool then numeric else ty_is Ty.Integer) g) l = true ->
    forallb (F U P) l = true -> Forall (fun id => compiles U g P id /\ numeric_for is_float (ty_at id) = true) l).
  { intros [] l H1 H2; [by apply (operands_ok numeric)|by apply (operands_ok (ty_is Ty.Integer))]. }
  destruct e; try done; intros _ id Hid [Ht Hf]; cbn [typed_node framed_node emit_node eval_node expr_ty] in *; split_checks.
  - destruct (typed_operand_ok U _ _ Ht Hf). by eapply minus_compiled.
  - eapply arith_compiled; [done|done|done|by destruct operands|by apply Hnum].
  - eapply arith_compiled; [done|done|done|by destruct operands|by apply Hnum].
  - eapply arith_compiled; [done|done|done|by destruct operands|by apply Hnum].
  - match goal with H : Bool.eqb _ _ = true |- _ => apply eqb_prop in H as -> end.
    eapply div_compiled; [done|by destruct operands|by apply (operands_ok numeric)].
  - eapply mod_compiled; [done|by destruct operands|]. eapply Forall_impl; [by apply (operands_ok (ty_is Ty.Integer))|].
    intros x [Hx Hi%ty_is_eq]. by split.
  - destruct (typed_operand_ok U _ _ Ht Hf). by eapply bitwise_not_compiled.
  - eapply (bitwise_compiled ir h s num_ids literals Hscan ev em U g P Z.land); [done|exact in_i64_land|by apply (typed_operand_ok U Ty.Integer)..].
  - eapply (shift_compiled ir h s num_ids literals Hscan ev em U g P (fun a b => wrap_i64 (Z.shiftl a (b mod 64))));
      [done|intros; apply wrap_in_i64|by apply (typed_operand_ok U Ty.Integer)..].
  - eapply (shift_compiled ir h s num_ids literals Hscan ev em U g P (fun a b => Z.shiftr a (b mod 64)));
      [done|intros; apply in_i64_shift; [by apply Z.mod_pos_bound|done]|by apply (typed_operand_ok U Ty.Integer)..].
  - eapply (bitwise_compiled ir h s num_ids literals Hscan ev em U g P Z.lor); [done|exact in_i64_lor|by apply (typed_operand_ok U Ty.Integer)..].
  - eapply (bitwise_compiled ir h s num_ids literals Hscan ev em U g P Z.lxor); [done|exact in_i64_lxor|by apply (typed_operand_ok U Ty.Integer)..].
Qed.

Lemma comparison_ok e :
  match e with Expr.Eq _ _ | Expr.Ne _ _ | Expr.Lt _ _ | Expr.Gt _ _ | Expr.Le _ _ | Expr.Ge _ _ => True | _ => False end -> node_ok e.
Proof.
  destruct e; try done; intros _ id Hid [Ht Hf]; cbn [typed_node framed_node emit_node eval_node expr_ty] in *; split_checks;
    (eapply comparison_compiled; [done|split|by apply IH..|done]); try done; intros x y; cbn; f_equal; f_equal; lia.
Qed.

Lemma string_ok e :
  match e with
  | Expr.Contains _ _ | Expr.IContains _ _ | Expr.StartsWith _ _ | Expr.IStartsWith _ _ | Expr.EndsWith _ _ | Expr.IEndsWith _ _
  | Expr.IEquals _ _ => True
  | _ => False
  end -> node_ok e.
Proof.
  destruct e; try done; intros _ id Hid [Ht Hf]; cbn [typed_node framed_node emit_node eval_node expr_ty] in *; split_checks;
    (eapply string_compiled; [done|done|by apply (typed_operand_ok U Ty.String)..]).
Qed.

Lemma pattern_node_ok e :
  match e with
  | Expr.PatternMatch _ _ | Expr.PatternMatchVar _ _ | Expr.PatternCount _ _ | Expr.PatternCountVar _ _ | Expr.PatternOffset _ _
  | Expr.PatternOffsetVar _ _ | Expr.PatternLength _ _ | Expr.PatternLengthVar _ _ => True
  | _ => False
  end -> node_ok e.
Proof.
  assert (Hnth : forall (id i z : Z), (pat_offset s.(sc_matches) id i = Some z -> in_i64 z) /\ (pat_length s.(sc_matches) id i = Some z -> in_i64 z)).
  { intros id i z. destruct Hscan as [_ _ _ _ _ _ Hn _]. split; intros E; eapply Hn; eauto. }
  assert (Hidx : forall idx, typed_pattern num_patterns idx = true -> pattern_ok s g P (inl idx)) by exact typed_pattern_ok.
  destruct e; try done; intros _ id Hid [Ht Hf]; cbn [typed_node framed_node emit_node eval_node expr_ty] in *; split_checks.
  - eapply (match_compiled ir h s num_ids literals Hscan ev em U g P (inl pattern)); [by apply Hidx|by apply anchor_checks].
  - eapply (match_compiled ir h s num_ids literals Hscan ev em U g P (inr symbol)); [by apply var_checks|by apply anchor_checks].
  - eapply (count_compiled ir h s num_ids literals Hscan ev em U g P (inl pattern)); [by apply Hidx|by apply range_checks].
  - eapply (count_compiled ir h s num_ids literals Hscan ev em U g P (inr symbol)); [by apply var_checks|by apply range_checks].
  - eapply (nth_compiled ir h s num_ids literals Hscan ev em U g P PatOffset pat_offset (inl pattern));
      [intros m st i z E; cbn; by rewrite E|apply Hnth|by apply Hidx|by apply index_checks].
  - eapply (nth_compiled ir h s num_ids literals Hscan ev em U g P PatOffset pat_offset (inr symbol));
      [intros m st i z E; cbn; by rewrite E|apply Hnth|by apply var_checks|by apply index_checks].
  - eapply (nth_compiled ir h s num_ids literals Hscan ev em U g P PatLength pat_length (inl pattern));
      [intros m st i z E; cbn; by rewrite E|apply Hnth|by apply Hidx|by apply index_checks].
  - eapply (nth_compiled ir h s num_ids literals Hscan ev em U g P PatLength pat_length (inr symbol));
      [intros m st i z E; cbn; by rewrite E|apply Hnth|by apply var_checks|by apply index_checks].
Qed.
Lemma call_ok object signature args : node_ok (Expr.FuncCall object signature args).
Proof.
  intros id Hid [Ht Hf]. cbn [typed_node framed_node covered emit_node eval_node expr_ty] in *. destruct object; [done|].
  destruct args as [|a [|a2 args]]; try done. destruct (int_reader (plain_name signature)) as [r|] eqn:Er; [|done].
  split_checks. match goal with H : ty_is (tv_ty _) _ = true |- _ => apply ty_is_eq in H as -> end.
  match goal with H : ty_is (ty_at a) _ = true |- _ => apply ty_is_eq in H end.
  match goal with H : forallb _ _ = true |- _ => cbn in H; rewrite andb_true_r in H end.
  eapply (reader_compiled ir h s num_ids literals Hscan ev em U g P signature r a); [done|done|by apply IH|done].
Qed.

Lemma framed_with_ok V g' P' declarations body t :
  match typed_with ir ty g' declarations with Some g2 => typed_as ir ty (ty_is t) g2 body | None => false end = true ->
  framed_with F V P' declarations (fun V P => F V P body) = true -> with_ok V g' P' declarations body t.
Proof.
  revert V g' P'. induction declarations as [|[v id] declarations IHd]; intros V g' P' Ht Hf; cbn [typed_with framed_with with_ok] in *.
  - unfold typed_as in Ht. apply andb_true_iff in Ht as [Ht Hty%ty_is_eq]. split; [by apply IH|done].
  - destruct (typed_as ir ty (ty_is v.(Var.ty)) g' id) eqn:E; [|done]. unfold typed_as in E. apply andb_true_iff in E as [E1 E2%ty_is_eq].
    split_checks. match goal with H : slot_in _ _ = true |- _ => apply slot_in_ok in H as [? ?] end.
    split_and!; try done; [by apply IH..|by apply IHd].
Qed.

Lemma with_node_ok type_value declarations body : node_ok (Expr.With type_value declarations body).
Proof.
  intros id Hid [Ht Hf]. cbn [typed_node framed_node emit_node eval_node expr_ty] in *. apply with_compiled. by apply framed_with_ok.
Qed.

(** ** Loops *)

(** The value of a constant. *)
Hypothesis Hconst : forall en k z c x, get ir.(nodes) k = Some (Expr.Const (TypeValue.Integer (Value.Const z) c)) -> eval_int ev en k = Def x -> x = z.

Lemma count_checks W fv q items :
  typed_quantifier ir ty g q = true -> framed_quantifier F U P W fv q = true -> framed_count ir patterns q items = true ->
  count_ok ir h s num_ids literals U g P ev em q items.
Proof.
  destruct q as [| | |k|k]; try done. cbn [typed_quantifier framed_quantifier framed_count count_ok]. intros Ht Hf Hc.
  destruct (typed_operand_ok _ _ _ Ht Hf) as [Hk Tk]. split_and!; [|done|].
  - eapply compiles_shrink; [|exact Hk]. set_solver +.
  - intros Hs en z Hz. rewrite Hs in Hc. cbn [implb] in Hc. unfold const_count in Hc.
    destruct (get ir.(nodes) k) as [e|] eqn:E; [|done]. destruct e as [v| | | | | | | | | | | | | | | | | | | | | | | | | | | | | | | | | | | | | | | | | | | | | | | | |]; try done.
    destruct v as [| | |[x| |] c| | | | | |]; try done.
    rewrite (Hconst en k x c z E Hz). bools. lia.
Qed.

Lemma of_pattern_set_ok q items fv anchor : node_ok (Expr.OfPatternSet q items fv anchor).
Proof.
  intros id Hid [Ht Hf]. cbn [typed_node framed_node emit_node eval_node expr_ty] in *. split_checks.
  destruct (loop_checks ∅ fv q) as [Hframe Hq]; [done..|]. destruct (items_ok_ok items) as [Hne Hlen]; [done|].
  match goal with H : framed_loop _ _ _ _ _ _ = true |- _ => unfold framed_loop in H; apply andb_true_iff in H as [_ Hfq] end.
  match goal with H : item_ok _ _ _ = true |- _ => apply slot_in_ok in H as [? ?] end.
  match goal with H : ty_is _ _ = true |- _ => apply ty_is_eq in H end.
  assert (Hpat : Forall (fun idx => is_Some (get patterns idx)) items) by by apply typed_patterns_ok.
  apply loop_compiled. apply (pattern_set_compiled ir h s num_ids literals Hscan U g P ev em fv q items anchor); [done|done|by eapply count_checks|].
  eapply of_pattern_loop_compiled; try done. by apply anchor_checks.
Qed.
Lemma of_expr_tuple_ok q items fv anchor : node_ok (Expr.OfExprTuple q items fv anchor).
Proof.
  intros id Hid [Ht Hf]. cbn [typed_node framed_node emit_node eval_node expr_ty] in *. split_checks.
  destruct (loop_checks ∅ fv q) as [Hframe Hq]; [done..|]. destruct (items_ok_ok items) as [Hne Hlen]; [done|].
  match goal with H : item_ok _ _ _ = true |- _ => apply slot_in_ok in H end.
  match goal with H : ty_is _ _ = true |- _ => apply ty_is_eq in H end.
  apply loop_compiled. eapply (of_tuple_compiled ir h s num_ids literals Hscan ev em U g P fv q Hframe fv.(fv_item)); try done.
  apply Forall_forall. intros x Hx%list_elem_of_In.
  repeat match goal with H : forallb _ _ = true |- _ => rewrite forallb_forall in H; specialize (H x Hx) end.
  unfold typed_as in *. split_checks. split; [by apply IH|done].
Qed.

Lemma for_of_ok q fv items body : node_ok (Expr.ForOf q fv items body).
Proof.
  intros id Hid [Ht Hf]. cbn [typed_node framed_node emit_node eval_node expr_ty] in *. split_checks.
  destruct (loop_checks ∅ fv q) as [Hframe Hq]; [done..|]. destruct (items_ok_ok items) as [Hne Hlen]; [done|].
  match goal with H : item_ok _ _ _ = true |- _ => apply slot_in_ok in H as [? ?] end.
  match goal with H : ty_is _ _ = true |- _ => apply ty_is_eq in H end.
  match goal with H : typed_as _ _ _ _ _ = true |- _ => apply andb_true_iff in H as [? ?] end.
  apply loop_compiled. eapply for_of_compiled; try done; [by apply typed_patterns_ok|by apply IH].
Qed.

Lemma for_in_range_ok q v fv r body : node_ok (Expr.ForIn q [v] fv (Iterable.Range r) body).
Proof.
  intros id Hid [Ht Hf]. destruct r as [lo hi]. cbn [typed_node framed_node emit_node eval_node expr_ty] in *. unfold framed_range, typed_range in *.
  cbn [lower_bound upper_bound] in *. split_checks.
  destruct (loop_checks {[v.(Var.index)]} fv q) as [Hframe Hq]; [done..|].
  match goal with H : item_ok _ _ _ = true |- _ => apply slot_in_ok in H end.
  match goal with H : ty_is _ _ = true |- _ => apply ty_is_eq in H end.
  match goal with H : typed_as _ _ _ _ _ = true |- _ => apply andb_true_iff in H as [? ?] end.
  assert (Hlo : compiles U g P lo /\ ty_at lo = Ty.Integer) by by apply typed_operand_ok.
  assert (Hhi : compiles U g P hi /\ ty_at hi = Ty.Integer) by by apply typed_operand_ok.
  eapply compiled_ext; [apply to_value_compiled; eapply (for_in_range_compiled ir h s num_ids literals Hscan ev em U g P fv q Hframe v); try done; try tauto; by apply IH|].
  intros en. cbn beta. destruct (range_items ev en _) as [items| | | |]; try done. cbn. case_bool_decide; [done|]. unfold eval_loop.
  by destruct (eval_quantifier ev q (len items) en).
Qed.

Lemma for_in_tuple_ok q v fv items body : node_ok (Expr.ForIn q [v] fv (Iterable.ExprTuple items) body).
Proof.
  intros id Hid [Ht Hf]. cbn [typed_node framed_node emit_node eval_node expr_ty] in *. split_checks.
  destruct (loop_checks ∅ fv q) as [Hframe Hq]; [done..|]. destruct (items_ok_ok items) as [Hne Hlen]; [done|].
  match goal with H : item_ok _ _ _ = true |- _ => apply slot_in_ok in H end.
  match goal with H : typed_as _ _ _ _ _ = true |- _ => apply andb_true_iff in H as [? ?] end.
  apply loop_compiled. eapply (for_in_tuple_compiled ir h s num_ids literals Hscan ev em U g P fv q Hframe v); try done; [|by apply IH].
  apply Forall_forall. intros x Hx%list_elem_of_In.
  repeat match goal with H : forallb _ _ = true |- _ => rewrite forallb_forall in H; specialize (H x Hx) end.
  by apply typed_operand_ok.
Qed.

Lemma node_compiled e : node_ok e.
Proof.
  destruct e; try (by apply leaf_ok); try (by apply logic_ok); try (by apply arithmetic_ok); try (by apply comparison_ok);
    try (by apply string_ok); try (by apply pattern_node_ok).
  all: try (by intros id _ [_ Hf]).
  - apply with_node_ok.
  - apply call_ok.
  - apply of_expr_tuple_ok.
  - apply of_pattern_set_ok.
  - apply for_of_ok.
  - intros id Hid [Ht Hf]. destruct variables as [|v [|v2 vs]], iterable; try done.
    + eapply for_in_range_ok; [exact Hid|by split].
    + eapply for_in_tuple_ok; [exact Hid|by split].
Qed.
End Operators.

Notation framed_at := (framed ir patterns).
Notation eval := (eval ir s).
Notation emit_expr := (emit_expr (T := T) ir patterns objects).

Lemma eval_const fuel en k z c x :
  get ir.(nodes) k = Some (Expr.Const (TypeValue.Integer (Value.Const z) c)) -> eval_int (eval fuel) en k = Def x -> x = z.
Proof. intros Hk. destruct fuel as [|fuel]; [done|]. unfold eval_int. cbn [Eval.eval]. unfold get_node. rewrite Hk. cbn. by intros [= <-]. Qed.

(** Every expression that passes the checks. *)
Lemma expr_compiled fuel : forall U g P id,
  typed ir (len patterns) fuel g id = true -> framed_at fuel U P id = true ->
  compiles ir h s num_ids literals (eval fuel) (emit_expr fuel) U g P id.
Proof.
  induction fuel as [|fuel IH]; intros U g P id Ht Hf; [done|]. cbn [typed framed] in *.
  destruct (get ir.(nodes) id) as [e|] eqn:He; [|done]. split; [by eexists|]. intros H n Hn Hh. cbn [EmitExpr.emit_expr].
  eapply emits_bind_pure; [by apply get_pure|]. intros ? <-.
  eapply emits_weaken; [exact (node_compiled (eval fuel) (emit_expr fuel) _ _ IH U g P (eval_const fuel) e id He (conj Ht Hf) H n Hn Hh)|].
  intros c Hc _ en m Hm. cbn [Eval.eval]. unfold get_node, EvalTypes.ty_at. rewrite He. cbn [mbind outcome_bind]. by apply Hc.
Qed.

(** The condition is a boolean, or its evaluation traps. *)
Lemma condition_ok fuel condition :
  functions_ok ir s -> typed ir (len patterns) fuel ∅ condition = true -> castable (ty_at condition) = true ->
  ok any_value (catch (eval_bool (eval fuel) ∅ condition) false).
Proof.
  intros Hf Ht Hc. apply ok_catch; [|done]. unfold eval_bool. eapply ok_bind; [by eapply (eval_ok ir s ∅)|].
  intros v Hv. by eapply to_bool_ok.
Qed.

(** What the code of a condition does. *)
Definition decides (c : code) (m : machine) (o : outcome bool) : Prop :=
  match o with
  | Def b => runs rt c m (fun r => exists m', r = Next m' /\ m'.(stack) = i32_bool b :: m.(stack) /\ keeps ∅ m m')
  | Trap => runs rt c m (eq Trapped)
  | _ => False
  end.

Lemma condition_emitted fuel condition lit_pool regex_pool :
  functions_ok ir s -> typed ir (len patterns) fuel ∅ condition = true -> castable (ty_at condition) = true ->
  framed_at fuel ∅ ∅ condition = true -> pool_fits literals lit_pool ->
  exists c ctx', emit_rule_condition ir patterns objects fuel condition (context_new lit_pool regex_pool) = Ret (c, ctx') /\
    (included strings ctx'.(Emit.lit_pool) -> forall m, world h s num_ids m ->
       decides c m (catch (eval_bool (eval fuel) ∅ condition) false)).
Proof.
  intros Hfun Ht Hc Hf Hp.
  pose proof (bool_compiled ir h s num_ids literals (eval fuel) (emit_expr fuel) ∅ ∅ ∅ condition (expr_compiled fuel _ _ _ _ Ht Hf) Hc
    (0, [i32_const 0]) 1 ltac:(done) (const_handler_ok _ _ _)) as He.
  destruct (He (set_handlers [(0, [i32_const 0])] (set_next_id (0 + 1) (set_search_stack [true] (context_new lit_pool regex_pool)))))
    as (c & c1 & E & [X1 X2 X3 X4 X5 X6] & HP).
  { split; try done. by eexists. }
  cbn in X1, X2, X3, X4. exists [Block 0 (Some I32) c], (set_search_stack (tail c1.(emit_search_for_pattern_stack)) (set_handlers [] c1)). split.
  - unfold emit_rule_condition, catch_undef, push_handler, pop_handler, fresh, modify, gets, mbind, M_bind, mbind, res_bind.
    cbn [context_new emit_search_for_pattern_stack exception_handler_stack]. cbn in E |- *.
    unfold code in E, X2 |- *. rewrite E. cbn. rewrite X2. cbn.
    destruct (emit_search_for_pattern_stack c1) as [|b [|b2 l]]; try done; cbn; by rewrite bool_decide_eq_true_2.
  - intros Hi m Hm. cbn in Hi. specialize (HP Hi ∅ (set_stack [] m)).
    assert (Hst : state_ok ∅ ∅ ∅ ∅ (set_stack [] m)).
    { split; [|by intros i t Ht'; rewrite lookup_empty in Ht'..|by intros i v _ He'].
      apply (world_keeps h s num_ids (base_ok h s num_ids Hscan) ∅ m); [by apply keeps_refl|exact Hm]. }
    pose proof (condition_ok fuel condition Hfun Ht Hc) as Hok.
    pose proof (does_catch_bool rt (0, [i32_const 0]) ∅ 0 c m _ false (HP Hst)) as Hd.
    unfold decides. destruct (catch (eval_bool (eval fuel) ∅ condition) false) eqn:Eo; try done.
    + eapply runs_weaken; [exact Hd|]. intros r (m' & -> & K & S). by exists m'.
    + by destruct (eval_bool (eval fuel) ∅ condition).
Qed.
End Correct.

(** * The search *)

(** The matches of a scan fit in the integers of conditions. *)
Definition match_fits (m : Match) : Prop := 0 <= m_start m /\ m_start m <= i64_MAX /\ m_end m <= i64_MAX.
Definition matches_fit (pm : PatternMatches) : Prop :=
  forall id l, patterns_get pm id = Some l -> len l.(matches) <= i64_MAX /\ Forall match_fits l.(matches).

Lemma count_in_range_bounds lo hi l : 0 <= count_in_range lo hi l <= len l.
Proof.
  induction l as [|m l IH]; [by cbn; change (len []) with 0|]. cbn [count_in_range]. rewrite len_cons. destruct (_ && _); lia.
Qed.

Lemma matches_fit_counts pm id lo hi : matches_fit pm -> in_i64 (pat_matches pm id) /\ in_i64 (pat_matches_in pm id lo hi).
Proof.
  intros Hf. unfold pat_matches, pat_matches_in. destruct (patterns_get pm id) as [l|] eqn:E; [|done]. destruct (Hf id l E) as [Hl _].
  pose proof (len_nonneg l.(matches)). unfold in_i64, list_len, matches_in_range, i64_MIN, i64_MAX in *. split; [lia|].
  destruct (hi <? 0); [done|]. match goal with |- context [drop ?k _] => set (j := k) end.
  pose proof (count_in_range_bounds (if lo <? 0 then 0 else lo) hi (drop j l.(matches))) as Hc.
  assert (len (drop j l.(matches)) <= len l.(matches)) by (unfold len; rewrite length_drop; lia). lia.
Qed.

Lemma matches_fit_nth pm id i z : matches_fit pm -> pat_offset pm id i = Some z \/ pat_length pm id i = Some z -> in_i64 z.
Proof.
  intros Hf. unfold pat_offset, pat_length, nth_match. destruct (patterns_get pm id) as [l|] eqn:E; [|by intros []].
  destruct (Hf id l E) as [_ Hl]. cbn. destruct (i <? 1); [by intros []|]. unfold list_get.
  destruct (get l.(matches) (i - 1)) as [m|] eqn:Em; [|by intros []]. apply get_Some in Em as [_ Em].
  eapply Forall_lookup_1 in Hl as (H1 & H2 & H3); [|exact Em]. unfold in_i64, i64_MIN, i64_MAX in *. cbn. intros [[= <-]|[= <-]]; lia.
Qed.

(** The bitmap has a bit for each pattern, set if the pattern matches. *)
Definition bitmap_of (bitmap : list Z) (num_ids : Z) (pm : PatternMatches) : Prop :=
  Forall is_u8 bitmap /\ forall id, 0 <= id < num_ids ->
    exists z, get bitmap (id / 8) = Some z /\ Z.testbit z (id mod 8) = match_found pm id.

Lemma default_byte bitmap i z : get bitmap i = Some z -> default (Byte 0) (get (Byte <$> bitmap) i) = Byte z.
Proof. intros [Hi Hl]%get_Some. unfold get. rewrite (proj2 (Z.ltb_ge i 0)) by lia. by rewrite list_lookup_fmap, Hl. Qed.

(** What the search leaves in the machine. *)
Lemma search_gives_world h s num_ids m :
  VARS_STACK_END <= h.(h_bitmap_base) -> h.(h_found) = s.(sc_matches) -> bitmap_of h.(h_bitmap) num_ids s.(sc_matches) -> has_flags m ->
  exists m', search_for_patterns h m = Some m' /\ m'.(stack) = m.(stack) /\ world h s num_ids m'.
Proof.
  intros Hb Hf [Hu Hbits] [w Hw]. eexists. split; [done|]. split; [done|]. split; [done|done| |].
  - cbn [Wasm.mem]. intros id Hid. destruct (Hbits id Hid) as (z & Hz & Ht). exists z. pose proof Hz as [Hpos Hl]%get_Some.
    assert (Hlt : id / 8 < len h.(h_bitmap)). { apply lookup_lt_Some in Hl. unfold len. lia. }
    split; [|split; [|done]].
    + rewrite byte_at_store. rewrite (proj2 (Z.leb_le _ _)) by lia. rewrite len_map, (proj2 (Z.ltb_lt _ _)) by lia. cbn [andb].
      replace (h_bitmap_base h + id / 8 - h_bitmap_base h) with (id / 8) by lia. by apply default_byte.
    + eapply Forall_lookup_1 in Hu; [|exact Hl]. unfold is_u8 in Hu. lia.
  - exists w. unfold flags in *. rewrite <- Hw. apply load_agree. intros x Hx. cbn [Wasm.mem]. rewrite byte_at_store.
    destruct ((h_bitmap_base h <=? x) && _) eqn:E; bools; [|done]. assert (VARS_STACK_END = 16640) by done. cbn in Hx. lia.
Qed.

(** * The code of a condition *)

(** C2: the code that [emit_rule_condition] gives for the condition of a rule
    decides it. This is for conditions
    - whose expressions are all of the kinds that [covered] lists: every kind but
      fields, indexing, [matches] and regular expressions, references to other
      rules, calls of functions other than the readers of integers ([uint8] and
      the like), and loops over arrays and maps;
    - whose operands have the right types ([typed]), and whose constants, loops and
      variables satisfy [framed]: integers fit in 64 bits, the variables
      of loops and [with] are not in use around them, a loop over a list has
      between 1 and 2^31 - 1 items, and [N of] a range of patterns has no
      constant zero for N.
    Then the emission succeeds, and once the search for patterns is done and the
    literals of the condition are in the pool of the scanner, the code ends with
    the boolean that the reference semantics gives on top of the stack, and leaves
    the memory after the variables, the matches and the rest of the stack as they
    were; it traps exactly when the reference semantics does. *)
Theorem emitted_condition_correct `{STL : SymbolTableLaws T} {BS : ByteStrings} ir objects h s num_ids literals fuel root lit_pool regex_pool :
  scan_ok h s num_ids -> functions_ok ir s -> literals_of ir ⊆ literals -> len literals <= u32_MAX -> pool_fits literals lit_pool ->
  IR.root ir = Some root -> typed ir (len s.(sc_patterns)) fuel ∅ root = true -> castable (ty_at ir root) = true ->
  framed ir s.(sc_patterns) fuel ∅ ∅ root = true ->
  exists c ctx, emit_rule_condition ir s.(sc_patterns) objects fuel root (context_new lit_pool regex_pool) = Ret (c, ctx) /\
    (included h.(h_strings) ctx.(Emit.lit_pool) -> forall m, world h s num_ids m ->
       decides h c m (condition ir s fuel)).
Proof.
  intros Hscan Hfun Hl1 Hl2 Hp Hroot Ht Hc Hf. unfold condition. rewrite Hroot.
  by apply (condition_emitted ir objects h s num_ids literals Hscan (conj Hl1 Hl2) fuel root lit_pool regex_pool).
Qed.

(** C3: the code of a condition of the kinds that C2 is about ([typed] and
    [framed], so without fields, indexing, [matches], other rules, calls other
    than the readers of integers, and loops over arrays and maps), run once the
    search for patterns is done, always ends. From some number of steps on, the
    machine has stopped in the same state, with a boolean on top of the stack or
    in a trap: no loop runs forever, and no instruction finds a stack that it
    cannot work on. *)
Theorem emitted_condition_ends `{STL : SymbolTableLaws T} {BS : ByteStrings} ir objects h s num_ids literals fuel root lit_pool regex_pool c ctx m :
  scan_ok h s num_ids -> functions_ok ir s -> literals_of ir ⊆ literals -> len literals <= u32_MAX -> pool_fits literals lit_pool ->
  typed ir (len s.(sc_patterns)) fuel ∅ root = true -> castable (ty_at ir root) = true -> framed ir s.(sc_patterns) fuel ∅ ∅ root = true ->
  emit_rule_condition ir s.(sc_patterns) objects fuel root (context_new lit_pool regex_pool) = Ret (c, ctx) ->
  included h.(h_strings) ctx.(Emit.lit_pool) -> world h s num_ids m ->
  exists steps r, (forall n, (steps <= n)%nat -> exec (host_runtime h) n c m = r) /\
    (r = Trapped \/ exists m' b, r = Next m' /\ m'.(stack) = i32_bool b :: m.(stack)).
Proof.
  intros Hscan Hfun Hl1 Hl2 Hp Ht Hc Hf He Hi Hm.
  destruct (condition_emitted ir objects h s num_ids literals Hscan (conj Hl1 Hl2) fuel root lit_pool regex_pool Hfun Ht Hc Hf Hp) as (c' & ctx' & He' & Hd).
  rewrite He in He'. injection He' as <- <-. specialize (Hd Hi m Hm). unfold decides in Hd.
  destruct (catch _ _) as [b| | | |]; try done; destruct Hd as (steps & Hs & Hr); exists steps, (exec (host_runtime h) steps c m);
    (split; [intros n Hn; by apply exec_mono|]).
  - right. destruct Hr as (m' & E & Hst & _). by exists m', b.
  - by left.
Qed.

(** ** A condition *)

Definition sample_objects : Objects :=
  {| array_of := fun _ => Integers; map_of := fun _ => {| string_keys := false; map_deputy := None |}; is_method := fun _ => false |}.

(** The scan of [s], with the bitmap and the literals of the condition. *)
Definition host_of (s : Scanned) (bitmap : list Z) (literal : Z -> option (list Z)) : HostContext :=
  {| h_strings := {| ctx_lit_pool := literal; ctx_scanned_data := Some s.(sc_data); ctx_runtime_objects := ∅ |};
     h_filesize := s.(sc_filesize); h_bitmap_base := VARS_STACK_END; h_found := s.(sc_matches); h_bitmap := bitmap;
     h_regexp_matches := fun _ _ => false; h_regex_set_matches := fun _ _ => false; h_other := fun _ _ => None |}.

(** The machine before the search. *)
Definition machine_new : machine :=
  {| stack := []; locals := fun _ => VI32 0; mem := ∅; search_done := 0; found := patterns_new |}.

Definition condition_sample : IR := set_root (Some 14) typed_sample.
Definition scanned_sample : Scanned :=
  {| sc_filesize := 4; sc_data := typed_scanned.(sc_data); sc_matches := typed_scanned.(sc_matches); sc_patterns := [0];
     sc_call := fun _ _ _ => None; sc_str := str_op; sc_other := fun _ _ => Undef |}.
Definition host_sample : HostContext := host_of scanned_sample [1] (fun _ => None).

Lemma sample_matches_fit : matches_fit scanned_sample.(sc_matches).
Proof.
  intros id l. unfold patterns_get. cbn. rewrite lookup_singleton_Some. intros [<- <-]. cbn. split; [done|].
  constructor; [|done]. by split_and!.
Qed.

Lemma sample_scan_ok : scan_ok host_sample scanned_sample 1.
Proof.
  split; cbn; try done.
  - split; [done|]. repeat constructor; done.
  - constructor; [lia|done].
  - intros id lo hi. apply matches_fit_counts, sample_matches_fit.
  - intros id i z. apply matches_fit_nth, sample_matches_fit.
Qed.

Lemma sample_bitmap : bitmap_of [1] 1 scanned_sample.(sc_matches).
Proof. split; [repeat constructor; done|]. intros id Hid. assert (id = 0) as -> by lia. by exists 1. Qed.

Lemma emitted_condition_correct_witness :
  exists c ctx m, emit_rule_condition condition_sample scanned_sample.(sc_patterns) sample_objects 10 14 (context_new (T := list (list Z)) pool_new pool_new) = Ret (c, ctx) /\
    search_for_patterns host_sample machine_new = Some m /\ decides host_sample c m (Def true).
Proof.
  destruct (emitted_condition_correct condition_sample sample_objects host_sample scanned_sample 1 [] 10 14 pool_new (pool_new (T := list (list Z)))) as (c & ctx & E & Hc).
  - exact sample_scan_ok.
  - by split.
  - vm_compute. intros x Hx. by inversion Hx.
  - done.
  - split; [apply pool_new_ok|]. intros x Hx. by inversion Hx.
  - reflexivity.
  - vm_compute. reflexivity.
  - reflexivity.
  - vm_compute. reflexivity.
  - destruct (search_gives_world host_sample scanned_sample 1 machine_new) as (m & Hm & _ & Hw); [done|done|exact sample_bitmap|exists 0; vm_compute; reflexivity|].
    exists c, ctx, m. split; [exact E|]. split; [exact Hm|].
    assert (Ev : condition condition_sample scanned_sample 10 = Def true) by (vm_compute; reflexivity). rewrite <- Ev.
    apply Hc; [|exact Hw]. vm_compute in E. injection E as _ <-. intros i x Hx. cbn in Hx. unfold get in Hx. by destruct (i <? 0).
Defined.

Lemma emitted_condition_ends_witness :
  match emit_rule_condition (T := list (list Z)) condition_sample [0] sample_objects 10 14 (context_new pool_new pool_new),
        search_for_patterns host_sample machine_new with
  | Ret (c, _), Some m => exists steps r, (forall n, (steps <= n)%nat -> exec (host_runtime host_sample) n c m = r) /\
      (r = Trapped \/ exists m' b, r = Next m' /\ m'.(stack) = [i32_bool b])
  | _, _ => False
  end.
Proof.
  destruct (emit_rule_condition condition_sample [0] sample_objects 10 14 _) as [[c ctx]| |] eqn:E; [|by vm_compute in E..].
  destruct (search_gives_world host_sample scanned_sample 1 machine_new) as (m & Hm & Hst & Hw);
    [done|done|exact sample_bitmap|exists 0; vm_compute; reflexivity|].
  rewrite Hm. change [i32_bool ?b] with (i32_bool b :: machine_new.(stack)). setoid_rewrite <- Hst.
  apply (emitted_condition_ends condition_sample sample_objects host_sample scanned_sample 1 [] 10 14 pool_new (pool_new (T := list (list Z))) c ctx m);
    [exact sample_scan_ok|by split| |done| |vm_compute; reflexivity|reflexivity|vm_compute; reflexivity|exact E| |exact Hw].
  - vm_compute. intros x Hx. by inversion Hx.
  - split; [apply pool_new_ok|]. intros x Hx. by inversion Hx.
  - vm_compute in E. injection E as _ <-. intros i x Hx. cbn in Hx. unfold get in Hx. by destruct (i <? 0).
Defined.

(** * Runs that differ from the reference semantics *)

(** The value that the code of a condition leaves, before any search. *)
Definition run_condition (h : HostContext) (ir : IR) (patterns : list Z) (root : Z) : option (list wval) :=
  match emit_rule_condition (T := list (list Z)) ir patterns sample_objects 20 root (context_new pool_new pool_new) with
  | Ret (c, _) => match exec (host_runtime h) 2000 c machine_new with Next m => Some m.(stack) | _ => None end
  | _ => None
  end.

Definition tree (es : list Expr.t) : IR :=
  set_root (Some (len es - 1)) (set_tree es (replicate (length es) (len es - 1)) ir_new).

Example sample_run : run_condition host_sample condition_sample [0] 14 = Some [VI32 1].
Proof. vm_compute. reflexivity. Qed.

(** [uint8(filesize) == #a or $a]: the first operand is undefined before the
    search that was emitted with it, and the second one does not search. *)
Definition lazy_search : IR :=
  tree [Expr.Filesize; Expr.FuncCall None {| mangled_name := "uint8@i@iu"; IR.result := unknown_integer |} [0];
        Expr.PatternCount 0 None; Expr.Eq 1 2; Expr.PatternMatch 0 MatchAnchor.None; Expr.Or [3; 4]].

Example lazy_search_skipped :
  condition lazy_search scanned_sample 20 = Def true /\ run_condition host_sample lazy_search [0] 5 = Some [VI32 0].
Proof. vm_compute. split; reflexivity. Qed.

(** [0 of ($a, $b)], when [$a] matches: the call for the range of patterns says
    yes where the loop says no, as for [none of ($a, $b)]. *)
Definition sample_vars : ForVars :=
  let n1 := Var.Build_t 1 Ty.Integer in {| fv_n := n1 0; fv_i := n1 1; fv_max_count := n1 2; fv_count := n1 3; fv_item := n1 4 |}.

Definition zero_of : IR :=
  tree [Expr.Const (const_integer_from 0); Expr.OfPatternSet (Quantifier.Expr 0) [0; 1] sample_vars MatchAnchor.None].

Definition two_patterns (ids : list Z) : Scanned :=
  {| sc_filesize := 4; sc_data := typed_scanned.(sc_data); sc_matches := typed_scanned.(sc_matches); sc_patterns := ids;
     sc_call := fun _ _ _ => None; sc_str := str_op; sc_other := fun _ _ => Undef |}.

Example zero_of_a_range :
  condition zero_of (two_patterns [0; 1]) 20 = Def false /\
  run_condition host_sample zero_of [0; 1] 1 = Some [VI32 1] /\ run_condition host_sample zero_of [0; 2] 1 = Some [VI32 0].
Proof. vm_compute. split_and!; reflexivity. Qed.

(** [for math.to_number(for all j in (0..1) : (j >= 0)) i in (0..3) : (i == 3)]:
    the loop of the quantifier has the variables of the loop that it belongs
    to, which ends after two items instead of four. *)
Definition quantifier_loop : IR :=
  let n1 := Var.Build_t 1 Ty.Integer in
  let item := Expr.Symbol (Symbol.Var (n1 4) unknown_integer) in
  tree [Expr.Const (const_integer_from 0); Expr.Const (const_integer_from 1); Expr.Const (const_integer_from 3);
        item; Expr.Ge 3 0;
        Expr.ForIn Quantifier.All [n1 4] sample_vars (Iterable.Range {| lower_bound := 0; upper_bound := 1 |}) 4;
        Expr.FuncCall None {| mangled_name := "math.to_number@b@i"; IR.result := unknown_integer |} [5];
        Expr.Eq 3 2;
        Expr.ForIn (Quantifier.Expr 6) [n1 4] sample_vars (Iterable.Range {| lower_bound := 0; upper_bound := 2 |}) 7].

(** [math.to_number] *)
Definition to_number_value (name : string) (_ : option value) (args : list value) : option value :=
  match args with [VBool b] => Some (VInt (b2i b)) | _ => None end.
Definition to_number_call (_ : export) (m : machine) : option machine :=
  match m.(stack) with VI32 b :: st => Some (set_stack (VI64 b :: st) m) | _ => None end.

Definition scanned_to_number : Scanned :=
  {| sc_filesize := 4; sc_data := []; sc_matches := patterns_new; sc_patterns := [];
     sc_call := to_number_value; sc_str := str_op; sc_other := fun _ _ => Undef |}.
Definition host_to_number : HostContext :=
  {| h_strings := {| ctx_lit_pool := fun _ => None; ctx_scanned_data := Some []; ctx_runtime_objects := ∅ |};
     h_filesize := 4; h_bitmap_base := VARS_STACK_END; h_found := patterns_new; h_bitmap := [];
     h_regexp_matches := fun _ _ => false; h_regex_set_matches := fun _ _ => false; h_other := to_number_call |}.

Example quantifier_loop_clobbers :
  condition quantifier_loop scanned_to_number 20 = Def true /\ run_condition host_to_number quantifier_loop [] 8 = Some [VI32 0] /\
  framed quantifier_loop [] 20 ∅ ∅ 8 = false.
Proof. vm_compute. split_and!; reflexivity. Qed.

(** The flag of variable 64 is in the word at the address 1, where its bit is
    the one of variable 8 in the word at the address 0. *)
Example flag_of_variable_64 :
  match exec (host_runtime host_sample) 100 (set_var_undef (Var.Build_t 1 Ty.Integer 64) true) machine_new with
  | Next m => load Mem_I64 m.(mem) 0 = Some (VI64 (2 ^ 8))
  | _ => False
  end.
Proof. vm_compute. reflexivity. Qed.
